(* ===== verification/_CoqProject ===== *)
-Q . S2P
Prelude.v
Json.v
TokenSequence.v
ContextStore.v
ContextLaws.v
PhysicalManager.v
PhysicalLaws.v
PhysicalProperties.v
FairPolicy.v
FairPolicyLaws.v
Engine.v
Diagnostics.v
Scheduler.v
SchedulerLaws.v
SchedulerSystem.v
SchedulerInv.v
SchedulerProperties.v
ContextStrategy.v
ContextStrategyLaws.v
Text.v
Generation.v
GenerationLaws.v
Gate.v
Admission.v
AdmissionLaws.v
Lifecycle.v
LifecycleLaws.v
Responses.v
ResponsesLaws.v
ResponseStore.v
ResponseStoreLaws.v
Contexts.v
Declarations.v
DeclarationsLaws.v
Prompt.v
Inference.v
Interleaving.v
InferenceLaws.v
Residency.v
ResidencyLaws.v
Executor.v
Mapped.v
PhysicalRoom.v
ExecutorLaws.v
MappedLaws.v
MappedPublication.v
MappedSpilling.v
MappedSessions.v
MappedSystem.v
MappedMock.v
MappedProperties.v
Config.v
Vision.v
Structured.v
Grammar.v
GrammarLaws.v
StructuredLaws.v
Requests.v
Lowering.v
LoweringLaws.v
Routes.v
Handlers.v
RoutesLaws.v
HandlersLaws.v
Gguf.v
GgufLaws.v
Registry.v
RegistryLaws.v
Catalogue.v
CatalogueLaws.v
Pull.v
PullLaws.v
HttpDebug.v
HttpDebugLaws.v
Startup.v
StartupLaws.v
Admin.v
AdminLaws.v
