(* ===== verification/Prelude.v ===== *)
(** * A verification library for the cusco inference server

    cusco serves local language models: an HTTP server admits requests, a scheduler
    shares the engine's slots between them, a token store remembers evaluated
    contexts, and a physical manager keeps the tensors of those contexts on the
    device, in host memory or on disk. This library models the logic of the Rust
    crates under [src/crates] as executable definitions and proves what makes each
    part correct. Definitions keep the names of the code.

    ** How the parts interact

    The body of a request is read under the permit of a gate ([Gate], [Routes]); the
    request is checked ([Requests]), a response format becomes a grammar ([Structured]),
    its messages and the stored responses it continues become a prompt ([Lowering], with
    images refused by [Vision] and the template of [Prompt]), and [Handlers] carries it
    to its reply. On the way it is admitted ([Admission]), finds its model ([Lifecycle]) and
    its context ([Contexts]), may compact the context ([ContextStrategy], as a
    declaration of [Declarations] may ask), and generates through the engine
    ([Engine]; between the server and the engine stands the scheduler: [FairPolicy],
    [Diagnostics], [Scheduler], [SchedulerSystem]). The bytes of the tokens become
    text in the frontier ([Text], [Generation]); [Inference] is the whole of it.
    Responses to clients and their stored lineage are [Responses] and
    [ResponseStore]. The engine below the scheduler
    is [Mapped]: its sessions evaluate tokens on the native executor ([Executor]);
    the context store ([TokenSequence], [ContextStore]) identifies the prefixes they
    have evaluated, and the physical manager ([PhysicalManager]) accounts for their
    representations. [Residency] keeps one such engine for each loaded model. The files
    of the models come from the registry ([Gguf], [Registry]); [Pull] downloads one,
    registers it ([Lifecycle]) and records the operation in the catalogue ([Catalogue]),
    from which [Startup] recovers the models. The other calls of the interfaces are
    [Admin]; what diagnostics emit of an exchange is [HttpDebug].

    ** Files and sources

    - [Prelude]: machine integers, the result type, the state-and-error monad [M]
      with its program logic ([wp]), sums over maps, strings, and the tactics
      [wp_run] and [wp_case].
    - [Json]: the values of the JSON library, with the accessors that the code uses.
    - [TokenSequence], [ContextStore], [ContextLaws]: crates/context-store/src/lib.rs.
      A sequence is a list of shared chunks with an incremental digest; the hasher
      is an interface. The store is the record [ContextStore] with every public
      operation as a method of the monad.
    - [PhysicalManager], [PhysicalLaws], [PhysicalProperties]:
      crates/physical-manager/src/lib.rs: representations, bindings, transfers and
      composite transitions, with eviction.
    - [FairPolicy], [FairPolicyLaws], [Diagnostics], [Scheduler], [SchedulerLaws],
      [SchedulerSystem], [SchedulerInv], [SchedulerProperties]:
      crates/server/src/scheduler.rs. The handlers of the scheduler thread are
      methods on [World]; [SchedulerSystem] interleaves the thread with its slot
      workers and clients, one atomic action at a time.
    - [Engine]: errors, request control, quanta and the session interface of
      crates/server/src/lib.rs.
    - [ContextStrategy], [ContextStrategyLaws]: crates/server/src/context_strategy.rs.
    - [Text], [Generation], [GenerationLaws]: UTF-8 as the standard library decodes
      it, and crates/server/src/generation.rs.
    - [Gate], [Admission], [AdmissionLaws]: the permit gate and the admission queue
      of crates/server/src/lib.rs. The runtime's semaphore is a class with laws;
      what a task does when its wait ends is a step of its own.
    - [Lifecycle], [LifecycleLaws]: crates/server/src/lifecycle.rs over the classes
      [ModelEngine] and [Catalog]; [CatalogueLaws.catalogue_laws] proves the laws of
      [Catalog] of the database.
    - [Responses], [ResponsesLaws], [ResponseStore], [ResponseStoreLaws]:
      crates/server/src/responses.rs, response_store.rs and context_updates.rs. Each
      call of the file system takes its outcome from a list in the state.
    - [Contexts], [Declarations], [DeclarationsLaws], [Prompt], [Inference],
      [InferenceLaws]: the server's contexts, the compaction declarations, the
      chat template of crates/server/src/prompt.rs, and [infer], [infer_reserved],
      [infer_admitted] and the streaming worker of crates/server/src/lib.rs with
      the built-in engine. [Interleaving] relates the points of a request that runs among
      others: what others do, its own steps, and the states that it met.
    - [Residency], [ResidencyLaws]: crates/server/src/residency.rs. A loaded model
      is a record in a heap, so that a session can outlive its place in the table;
      the three locked sections of a load are operations of their own, and a system
      interleaves them with leases, sessions and retirements.
    - [Executor], [ExecutorLaws]: crates/executor/src/lib.rs, a method for each wrapper,
      over the class [Abi] of native functions. [NativeView] and [AbiLaws] state what
      cusco_executor.h documents of them, and that a failed activation or import is
      rolled back.
    - [Mapped]: crates/server/src/mapped.rs. The state under the engine's lock is the
      record [MappedState], whose components are those of [Executor], [ContextStore]
      and [PhysicalManager], whose methods it lifts; a quantum of a session is one
      transition. [PhysicalRoom] counts what the manager's methods draw,
      [MappedLaws] has the invariant [mapped_ok] and what keeps it,
      [MappedPublication] and [MappedSpilling] the publication of prefixes and the
      spilling of mappings, [MappedSessions] a session against its reference,
      [MappedSystem] all sessions interleaved, [MappedMock] an executor that satisfies
      the interface, and [MappedProperties] the properties of every run.

    - [Config]: crates/server/src/config.rs, records, defaults and validation.
    - [Vision]: crates/server/src/vision.rs; the image decoders are parameters.
    - [Structured]: crates/server/src/structured.rs, the grammar of a schema as text.
      [Grammar] says what such a text means: the grammar notation of the native
      sampler as a data type with its language, the JSON texts of a value, and when a
      value conforms to a schema, as the draft says and as the compiler reads it;
      [GrammarLaws] and [StructuredLaws] connect them.
    - [Requests]: the request types of crates/server/src/lib.rs and the checks made
      before they are served. [Lowering], [LoweringLaws]: from messages, items and
      lineages to a prompt, and from a generated text to a call. [Routes],
      [RoutesLaws]: principals, bodies, the rows of a stream and the value of a
      response given at once. [Handlers], [HandlersLaws]: the handlers of the three
      inference interfaces and of the stored responses, with the gates, the admission,
      the inference and the service as one state that others act on in between.
    - [Gguf], [GgufLaws]: the probe of a model file, crates/model-registry/src/lib.rs, and
      the format that it reads. [Registry], [RegistryLaws]: the rest of that file,
      references, revisions, resumable downloads, stamps and records. The files are a map
      whose calls take their outcomes from a list; a write can stop after some bytes. The
      digest, JSON and the answers of the hub are parameters.
    - [Catalogue], [CatalogueLaws]: crates/server/src/catalog.rs: the tables with their
      constraints, each statement, the migrations, and the declarations of the user.
      Each call of the database takes its outcome from a list. [Ledger] is the
      specification.
    - [Pull], [PullLaws]: the handler [ollama_pull] and [perform_ollama_pull] of
      crates/server/src/lib.rs. [HttpDebug], [HttpDebugLaws]: the layer that records
      requests and responses, in the same file. [Admin], [AdminLaws]: its listing and
      administrative handlers, context updates, the table of routes, the operations of
      the OpenAPI document, and [serve_until].
    - [Startup], [StartupLaws]: crates/cli/src/main.rs: the start of the server up to its
      registered models, and what a model is named by.

    ** What the theorems show

    - Mapped sessions: in every interleaving of sessions, publications and spills, a
      session reports exactly the tokens that the model gives for its text evaluated
      from scratch; no transition panics; a session ends within as many quanta as the
      context has tokens and four more; what is spilled can be read back and stays
      within its budget.
    - Data structures refine their specification: a token sequence is a list with a
      canonical identity; the context store's catalogue is exact and its lookup
      maximal; publication is atomic; the permit gate is a counter.
    - Accounting: the physical manager's usage equals the sum over its
      representations and stays within capacity; the admission queue's counters are
      exact; the scheduler's counters count every session once.
    - Scheduling: selection is work-conserving and fair (every queued flow is served
      within a computed number of turns); no deadlock; one place per job; never two
      terminal messages of a session, and none owed to a client that is there while the
      scheduler runs; prompt cancellation; a draining shutdown.
    - Generation: the frontier agrees with a scanner that searches the whole history
      after every piece, emits all of the text, and never shows a stop sequence.
    - Requests: an inference commits exactly when it succeeds, over the very revision of
      the context that it read, whatever other requests do to the contexts meanwhile; it
      sends events that are its text, releases its admission on every path,
      and ends when its session does. Declarations respect their limits and are read by
      who created them. Incremental prompt rendering agrees with rendering the whole.
    - Residency: the loaded models fit in the device and host budgets in every
      interleaving in which no victim of a load under way is loaded again, and a run
      exceeds them where one is; a load evicts as few models as it can, oldest first.
    - Responses: a request that is streamed is answered as it is at once, also where it is
      refused, but for the name of the model and the time that the response bears; stored
      lineages are linear, across restarts on directories without left-over files; a
      restart recovers the stored responses.
    - Interfaces: the prompt of a responses request renders each item of its conversation
      once and in order, and is the rendering of the whole where the template accepts it;
      a generated text is a call exactly as the client's choice allows;
      what the grammar of a schema generates is JSON that follows the schema as compiled,
      and conforms to it unless a constant contradicts a keyword beside it; the
      permits of the gates are given back on every path of every handler.
    - Model files: the probe accepts exactly the files of the format and returns what
      they say; an interrupted download is continued with the rest of the file, to exactly
      the file when the hub's answers are not short; a record that is
      returned has the digest of its file, also when it was known from a stamp.
    - The catalogue: whatever was requested and failed before, it answers and changes as a
      ledger of models, operations and profiles does; what the user declares is loaded
      exactly when its names differ and its files are below their root; a pull ends its
      operation; a start recovers the models of the catalogue, and leaves the table of
      models and the catalogue in agreement, with no name lost.
    - Administration: a call that is refused does nothing, and one that is let in
      changes only its own part under any interleaving; safe diagnostics of two exchanges
      of equal sizes that differ only in what is to be hidden are the same.

    ** Conventions, bounds and fuel

    A [usize] or [u64] is an [N] whose operations wrap, saturate or fail at 2^64 as
    the code's do; [i64] and [i32] values are [Z] with explicit wrapping. Lengths of
    one generation are [nat]. An [expect], an [unwrap] or an index out of range is
    the outcome [Panic], so a theorem that excludes it is a theorem about the code's
    panics. Fresh identifiers, clocks, the order in which a hash map is visited, and
    what other threads do are arguments. Loops whose recursion is not structural
    carry fuel: the chunk loop of a sequence (its length), reclaiming (the size of
    the catalogue), eviction (the number of copies on the device), the dispatch
    loop (the number of queued jobs and one), spilling (the number of idle models
    and one), a generation (the accesses it may still make), skipping a value of a model
    file (the length of the file, which bounds the arrays inside one another); the lemmas about each show that the fuel given is enough.

    ** Not modelled

    The declarations of the native functions (crates/executor-sys; their promise is
    the class [Abi] with its laws); reading the configuration file, whose sizes with units
    are decimal numbers that the standard library rounds; the schemas and the page of the
    OpenAPI document, which are constants; and, of the command line, its arguments, its
    output and the commands that measure a scheduler, a representation or a mapped
    execution and write a report, which only call the parts above. Deserialization
    of request bodies is the library's: the handlers start from its records. *)

From stdpp Require Import gmap strings list fin_maps numbers.
From Stdlib Require Import Lia.

Declare Scope cusco_scope.
Delimit Scope cusco_scope with cusco.

(** ** Machine integers *)

Definition u64_max : N := 18446744073709551615%N.

Definition usize_max : N := u64_max.

Definition u32_max : N := 4294967295%N.

(** [a.checked_add(b)] of a 64-bit unsigned integer. *)
Definition checked_add (a b : N) : option N :=
  if decide (a + b ≤ u64_max)%N then Some (a + b)%N else None.

(** [a.saturating_add(b)]. *)
Definition saturating_add (a b : N) : N := N.min (a + b) u64_max.

(** [a.saturating_sub(b)]: subtraction of [N] already stops at zero. *)
Definition saturating_sub (a b : N) : N := (a - b)%N.

(** [a + b] in a release build: the sum wraps at the width. *)
Definition wrapping_add (a b : N) : N := ((a + b) mod (u64_max + 1))%N.

(** ** Results and the state-and-error monad *)

Inductive result (E A : Type) : Type :=
| Ok (a : A)
| Err (e : E).

Arguments Ok {E A} a.
Arguments Err {E A} e.

#[export] Instance result_ret E : MRet (result E) := λ A a, Ok a.

#[export] Instance result_bind E : MBind (result E) := λ A B f r,
  match r with
  | Ok a => f a
  | Err e => Err e
  end.

(** What a [&mut self] method leaves behind: a value, an error (with whatever
    state changes were made before the early return), or a panic. *)
Inductive outcome (S E A : Type) : Type :=
| Done (a : A) (s : S)
| Fail (e : E) (s : S)
| Panic.

Arguments Done {S E A} a s.
Arguments Fail {S E A} e s.
Arguments Panic {S E A}.

Definition M (S E A : Type) : Type := S → outcome S E A.

#[export] Instance M_ret S E : MRet (M S E) := λ A a s, Done a s.

#[export] Instance M_bind S E : MBind (M S E) := λ A B f m s,
  match m s with
  | Done a s' => f a s'
  | Fail e s' => Fail e s'
  | Panic => Panic
  end.

Definition get {S E} : M S E S := λ s, Done s s.

Definition gets {S E A} (f : S → A) : M S E A := λ s, Done (f s) s.

Definition modify {S E} (f : S → S) : M S E unit := λ s, Done tt (f s).

Definition throw {S E A} (e : E) : M S E A := λ s, Fail e s.

Definition panic {S E A} : M S E A := λ _, Panic.

(** [option.ok_or(e)?] *)
Definition ok_or {S E A} (o : option A) (e : E) : M S E A :=
  match o with Some a => mret a | None => throw e end.

(** [option.expect(..)], [option.unwrap()] and indexing of a map. *)
Definition expect {S E A} (o : option A) : M S E A :=
  match o with Some a => mret a | None => panic end.

(** [if b { return Err(e) }] *)
Definition guard_not {S E} (b : bool) (e : E) : M S E unit :=
  if b then throw e else mret tt.

(** A pure fallible computation used inside a method. *)
Definition lift_result {S E A} (r : result E A) : M S E A :=
  match r with Ok a => mret a | Err e => throw e end.

(** [for x in l { f(x)?; }] *)
Fixpoint for_each {S E A} (f : A → M S E unit) (l : list A) : M S E unit :=
  match l with
  | [] => mret tt
  | x :: l' => _ ← f x; for_each f l'
  end.

(** The collecting loop [l.iter().map(f).collect::<Result<Vec<_>, _>>()]. *)
Fixpoint map_M {S E A B} (f : A → M S E B) (l : list A) : M S E (list B) :=
  match l with
  | [] => mret []
  | x :: l' => y ← f x; ys ← map_M f l'; mret (y :: ys)
  end.

(** The state a method leaves when it returns, with a value or an error. *)
Definition after {S E A} (m : M S E A) (s : S) : option S :=
  match m s with
  | Done _ s' | Fail _ s' => Some s'
  | Panic => None
  end.

(** What a method establishes from one state: [Q] on success, [R] on an early
    return with an error, and [P] if it panics. *)
Definition wp_gen {S E A} (P : Prop) (m : M S E A)
    (Q : A → S → Prop) (R : E → S → Prop) (s : S) : Prop :=
  match m s with
  | Done a s' => Q a s'
  | Fail e s' => R e s'
  | Panic => P
  end.

(** Total correctness (no panic) and partial correctness. *)
Abbreviation wp := (wp_gen False).
Abbreviation wlp := (wp_gen True).

(** ** Sums over maps and first minima *)

Definition list_sum {A} (f : A → N) (l : list A) : N :=
  foldr (λ x acc, (f x + acc)%N) 0%N l.

(** [map.values().map(f).sum()], before the width is applied. *)
Definition map_sum `{Countable K} {A} (f : A → N) (m : gmap K A) : N :=
  map_fold (λ _ v acc, (f v + acc)%N) 0%N m.

(** The same sum at the width of [usize]. *)
Definition usize_sum `{Countable K} {A} (f : A → N) (m : gmap K A) : N :=
  (map_sum f m mod (usize_max + 1))%N.

Definition map_values `{Countable K} {A} (m : gmap K A) : list A :=
  (map_to_list m).*2.

(** [iter.min_by_key(..)]: the first of the least elements. [lt x y] decides
    that the key of [x] is strictly below the key of [y]. *)
Fixpoint min_by {A} (lt : A → A → bool) (l : list A) : option A :=
  match l with
  | [] => None
  | x :: l' =>
      match min_by lt l' with
      | None => Some x
      | Some y => if lt y x then Some y else Some x
      end
  end.

(** Number of occurrences of an element, as [N]. *)
Definition occ `{EqDecision A} (x : A) (l : list A) : N :=
  list_sum (λ y, if decide (x = y) then 1%N else 0%N) l.

(** [sort()] of strings: stable, by bytes. *)
Fixpoint insert_string (a : string) (l : list string) : list string :=
  match l with
  | [] => [a]
  | b :: l' => if String.leb a b then a :: l else b :: insert_string a l'
  end.

Definition sort_strings (l : list string) : list string := foldr insert_string [] l.

Lemma insert_string_perm a l : insert_string a l ≡ₚ a :: l.
Proof.
  induction l as [|b l IH]; cbn; [done|]. destruct (String.leb a b); [done|].
  rewrite IH. apply Permutation_swap.
Qed.

Lemma sort_strings_perm l : sort_strings l ≡ₚ l.
Proof. induction l as [|a l IH]; cbn; [done|]. by rewrite insert_string_perm, IH. Qed.

(** ** Lemmas: strings *)

Lemma append_assoc (a b c : string) : (a +:+ b) +:+ c = a +:+ (b +:+ c).
Proof. induction a as [|x a IH]; [done|]. exact (f_equal (String x) IH). Qed.

Lemma append_nil_r (a : string) : a +:+ "" = a.
Proof. induction a as [|x a IH]; [done|]. exact (f_equal (String x) IH). Qed.

Lemma append_length (a b : string) : String.length (a +:+ b) = String.length a + String.length b.
Proof. induction a as [|x a IH]; [done|]. exact (f_equal S IH). Qed.

Lemma append_inj_r (a b c : string) : a +:+ c = b +:+ c → a = b.
Proof.
  revert b. induction a as [|x a IH]; intros [|y b] H; [done|..].
  - apply (f_equal String.length) in H. rewrite !append_length in H. cbn in H. lia.
  - apply (f_equal String.length) in H. rewrite !append_length in H. cbn in H. lia.
  - injection H as -> H. f_equal. by apply IH.
Qed.

Lemma substring_append (a b : string) :
  String.substring (String.length a) (String.length b) (a +:+ b) = b.
Proof.
  induction a as [|x a IH]; [|exact IH]. cbn [String.length].
  change ("" +:+ b) with b. induction b as [|y b IH]; [done|]. cbn. by f_equal.
Qed.

(** ** Lemmas: the program logic *)

Create Rewrite HintDb wp.

(** Facts every file uses without naming them. *)
Create HintDb cusco.

Section wp_rules.
Context {S E : Type} (P : Prop).
Implicit Types (s : S) (e : E).

Lemma wp_bind {A B} (m : M S E A) (k : A → M S E B) Q R s :
  wp_gen P (m ≫= k) Q R s = wp_gen P m (λ a s', wp_gen P (k a) Q R s') R s.
Proof. unfold wp_gen, mbind, M_bind. by destruct (m s). Qed.

Lemma wp_ret {A} (a : A) (Q : A → S → Prop) (R : E → S → Prop) s :
  wp_gen P (mret a) Q R s = Q a s.
Proof. done. Qed.

Lemma wp_get (Q : S → S → Prop) (R : E → S → Prop) s : wp_gen P get Q R s = Q s s.
Proof. done. Qed.

Lemma wp_gets {A} (f : S → A) (Q : A → S → Prop) (R : E → S → Prop) s :
  wp_gen P (gets f) Q R s = Q (f s) s.
Proof. done. Qed.

Lemma wp_modify f (Q : unit → S → Prop) (R : E → S → Prop) s :
  wp_gen P (modify f) Q R s = Q tt (f s).
Proof. done. Qed.

Lemma wp_throw {A} e (Q : A → S → Prop) (R : E → S → Prop) s :
  wp_gen P (throw e) Q R s = R e s.
Proof. done. Qed.

Lemma wp_lift {A} (r : result E A) (Q : A → S → Prop) (R : E → S → Prop) s :
  wp_gen P (lift_result r) Q R s = match r with Ok a => Q a s | Err e => R e s end.
Proof. by destruct r. Qed.

Lemma wp_ok_or {A} (o : option A) e (Q : A → S → Prop) (R : E → S → Prop) s :
  wp_gen P (ok_or o e) Q R s = match o with Some a => Q a s | None => R e s end.
Proof. by destruct o. Qed.

Lemma wp_expect {A} (o : option A) (Q : A → S → Prop) (R : E → S → Prop) s :
  wp_gen P (expect o) Q R s = match o with Some a => Q a s | None => P end.
Proof. by destruct o. Qed.

Lemma wp_guard_not b e (Q : unit → S → Prop) (R : E → S → Prop) s :
  wp_gen P (guard_not b e) Q R s = if b then R e s else Q tt s.
Proof. by destruct b. Qed.

Lemma wp_mono {A} (m : M S E A) (Q Q' : A → S → Prop) (R R' : E → S → Prop) s :
  wp_gen P m Q R s →
  (∀ a s', Q a s' → Q' a s') →
  (∀ e s', R e s' → R' e s') →
  wp_gen P m Q' R' s.
Proof. unfold wp_gen. destruct (m s); naive_solver. Qed.

Lemma wp_conj {A} (m : M S E A) (Q Q' : A → S → Prop) (R R' : E → S → Prop) s :
  wp_gen P m Q R s → wp_gen P m Q' R' s →
  wp_gen P m (λ a s', Q a s' ∧ Q' a s') (λ e s', R e s' ∧ R' e s') s.
Proof. unfold wp_gen. by destruct (m s). Qed.

(** The loop rule: an invariant indexed by what is left to visit. *)
Lemma wp_for_each {A} (f : A → M S E unit) (I : list A → S → Prop)
    (R : E → S → Prop) l s :
  I l s →
  (∀ x l' s', I (x :: l') s' → wp_gen P (f x) (λ _ s'', I l' s'') R s') →
  wp_gen P (for_each f l) (λ _ s', I [] s') R s.
Proof.
  intros Hs Hf. revert s Hs. induction l as [|x l IH]; intros s Hs; [done|].
  cbn [for_each]. rewrite wp_bind. eapply wp_mono; [by apply Hf|..]; eauto.
Qed.

Lemma wp_panic {A} (Q : A → S → Prop) (R : E → S → Prop) s :
  wp_gen P panic Q R s = P.
Proof. done. Qed.

End wp_rules.

Lemma after_ok {S E A} P (m : M S E A) (Q : A → S → Prop) (R : E → S → Prop) s s' :
  wp_gen P m Q R s → after m s = Some s' → (∃ a, Q a s') ∨ (∃ e, R e s').
Proof. unfold wp_gen, after. destruct (m s); naive_solver. Qed.

(** A method that cannot fail from [s] returns. *)
Lemma wp_done {S E A} (m : M S E A) Q s :
  wp m Q (λ _ _, False) s → ∃ a s', m s = Done a s' ∧ Q a s'.
Proof. unfold wp_gen. destruct (m s); naive_solver. Qed.

#[export] Hint Rewrite @wp_bind @wp_ret @wp_get @wp_gets @wp_modify @wp_throw
  @wp_ok_or @wp_expect @wp_guard_not @wp_lift @wp_panic : wp.

(** Runs the straight-line part of a method. *)
Ltac wp_run := autorewrite with wp.

(** Splits a conditional of the method under the cursor, naming the test. *)
Ltac wp_case H :=
  match goal with
  | |- context [if ?b then _ else _] => destruct b eqn:H
  | |- context [match ?b with _ => _ end] => destruct b eqn:H
  end.

(** ** Lemmas: sums *)

Section sums.
Context `{Countable K} {A : Type}.
Implicit Types (f g : A → N) (m : gmap K A).

Lemma map_sum_empty f : map_sum f (∅ : gmap K A) = 0%N.
Proof. by unfold map_sum; rewrite map_fold_empty. Qed.

Lemma map_sum_insert_None f m k v :
  m !! k = None → map_sum f (<[k:=v]> m) = (f v + map_sum f m)%N.
Proof.
  intros Hk. unfold map_sum.
  apply (map_fold_insert_L (λ _ v acc, (f v + acc)%N)); [|done]. intros; lia.
Qed.

Lemma map_sum_delete f m k v :
  m !! k = Some v → map_sum f m = (f v + map_sum f (delete k m))%N.
Proof.
  intros Hk. rewrite <- (map_sum_insert_None f (delete k m) k) by apply lookup_delete_eq.
  by rewrite insert_delete_id.
Qed.

Lemma map_sum_insert_Some f m k v w :
  m !! k = Some w → (map_sum f (<[k:=v]> m) + f w = f v + map_sum f m)%N.
Proof.
  intros Hk. rewrite (map_sum_delete f m k w Hk).
  rewrite <- insert_delete_eq.
  rewrite map_sum_insert_None by apply lookup_delete_eq. lia.
Qed.

Lemma map_sum_le f m k v : m !! k = Some v → (f v ≤ map_sum f m)%N.
Proof. intros Hk. rewrite (map_sum_delete f m k v Hk). lia. Qed.

Lemma map_sum_zero f m :
  (∀ k v, m !! k = Some v → f v = 0%N) ↔ map_sum f m = 0%N.
Proof.
  split.
  - induction m as [|k v m Hk IH] using map_ind; intros Hz.
    + apply map_sum_empty.
    + rewrite map_sum_insert_None by done.
      rewrite (Hz k v) by apply lookup_insert_eq.
      rewrite IH; [done|]. intros k' v' Hk'. apply (Hz k').
      rewrite lookup_insert_ne by congruence. done.
  - intros Hz k v Hk. pose proof (map_sum_le f m k v Hk). lia.
Qed.

Lemma map_sum_ext f g m :
  (∀ k v, m !! k = Some v → f v = g v) → map_sum f m = map_sum g m.
Proof.
  induction m as [|k v m Hk IH] using map_ind; intros Hfg.
  - by rewrite !map_sum_empty.
  - rewrite !map_sum_insert_None by done. f_equal.
    + apply (Hfg k), lookup_insert_eq.
    + apply IH. intros k' v' Hk'. apply (Hfg k').
      rewrite lookup_insert_ne by congruence. done.
Qed.

Lemma map_sum_mono f g m :
  (∀ k v, m !! k = Some v → (f v ≤ g v)%N) → (map_sum f m ≤ map_sum g m)%N.
Proof.
  induction m as [|k v m Hk IH] using map_ind; intros Hfg.
  - by rewrite !map_sum_empty.
  - rewrite !map_sum_insert_None by done.
    pose proof (Hfg k v (lookup_insert_eq _ _ _)).
    assert (map_sum f m ≤ map_sum g m)%N; [|lia].
    apply IH. intros k' v' Hk'. apply (Hfg k').
    rewrite lookup_insert_ne by congruence. done.
Qed.

Lemma map_sum_split f g h m :
  (∀ k v, m !! k = Some v → f v = (g v + h v)%N) →
  map_sum f m = (map_sum g m + map_sum h m)%N.
Proof.
  induction m as [|k v m Hk IH] using map_ind; intros Hf.
  - by rewrite !map_sum_empty.
  - rewrite !map_sum_insert_None by done.
    rewrite (Hf k v (lookup_insert_eq _ _ _)), IH; [lia|].
    intros k' v' Hk'. apply (Hf k').
    rewrite lookup_insert_ne by congruence. done.
Qed.

Lemma map_sum_alter f (h : A → A) m k :
  (∀ v, f (h v) = f v) → map_sum f (alter h k m) = map_sum f m.
Proof.
  intros Hf. destruct (m !! k) as [v|] eqn:Hk.
  - pose proof (map_sum_insert_Some f m k (h v) v Hk) as Hs. rewrite Hf in Hs.
    rewrite (map_eq (alter h k m) (<[k:=h v]> m)); [lia|].
    intros j. rewrite lookup_alter, lookup_insert. case_decide; [subst; by rewrite Hk|done].
  - rewrite (map_eq (alter h k m) m); [done|].
    intros j. rewrite lookup_alter. case_decide; [subst; by rewrite Hk|done].
Qed.

Lemma map_sum_alter_Some f (h : A → A) m k v :
  m !! k = Some v → (map_sum f (alter h k m) + f v = f (h v) + map_sum f m)%N.
Proof.
  intros Hk. rewrite <- (map_sum_insert_Some f m k (h v) v Hk). do 2 f_equal.
  apply map_eq. intros j. rewrite lookup_alter, lookup_insert.
  case_decide; [subst; by rewrite Hk|done].
Qed.

Lemma map_sum_subseteq f m m' : m ⊆ m' → (map_sum f m ≤ map_sum f m')%N.
Proof.
  revert m'. induction m as [|k v m Hk IH] using map_ind; intros m' Hsub.
  - rewrite map_sum_empty. lia.
  - assert (m' !! k = Some v) as Hk' by (eapply lookup_weaken, Hsub; apply lookup_insert_eq).
    rewrite map_sum_insert_None by done. rewrite (map_sum_delete f m' k v Hk').
    assert (m ⊆ delete k m') as Hm.
    { apply map_subseteq_spec. intros i x Hi. destruct (decide (i = k)) as [->|]; [congruence|].
      rewrite lookup_delete_ne by done. eapply lookup_weaken, Hsub. by rewrite lookup_insert_ne. }
    specialize (IH _ Hm). lia.
Qed.

Lemma map_sum_delete_le f m k : (map_sum f (delete k m) ≤ map_sum f m)%N.
Proof.
  destruct (m !! k) as [v|] eqn:Hk; [rewrite (map_sum_delete f m k v Hk); lia|].
  by rewrite delete_id.
Qed.

Lemma map_sum_pos f m :
  (0 < map_sum f m)%N → ∃ k v, m !! k = Some v ∧ (0 < f v)%N.
Proof.
  induction m as [|k v m Hk IH] using map_ind; [rewrite map_sum_empty; lia|].
  rewrite map_sum_insert_None by done. intros Hpos.
  destruct (decide (f v = 0%N)) as [Hz|].
  - destruct IH as (k' & v' & Hk' & ?); [lia|]. exists k', v'. split; [|done].
    rewrite lookup_insert_ne; [done|congruence].
  - exists k, v. rewrite lookup_insert_eq. split; [done|lia].
Qed.

Lemma map_sum_fmap_ge f (h : A → A) m :
  (∀ k v, m !! k = Some v → (f (h v) ≤ f v)%N) →
  (map_sum f (h <$> m) ≤ map_sum f m)%N.
Proof.
  induction m as [|k v m Hk IH] using map_ind; intros Hf.
  - by rewrite fmap_empty, !map_sum_empty.
  - rewrite fmap_insert, !map_sum_insert_None; [|done|by rewrite lookup_fmap, Hk].
    pose proof (Hf k v (lookup_insert_eq _ _ _)).
    assert (map_sum f (h <$> m) ≤ map_sum f m)%N; [|lia].
    apply IH. intros k' v' Hk'. apply (Hf k').
    rewrite lookup_insert_ne by congruence. done.
Qed.

Lemma map_sum_le_size f m :
  (∀ k v, m !! k = Some v → (f v ≤ 1)%N) → (map_sum f m ≤ N.of_nat (size m))%N.
Proof.
  induction m as [|k v m Hk IH] using map_ind; intros Hf.
  - rewrite map_sum_empty. lia.
  - rewrite map_sum_insert_None, map_size_insert_None by done.
    pose proof (Hf k v (lookup_insert_eq _ _ _)).
    assert (map_sum f m ≤ N.of_nat (size m))%N; [|lia].
    apply IH. intros k' v' Hk'. apply (Hf k'). rewrite lookup_insert_ne; [done|congruence].
Qed.

Lemma alter_insert_id (h : A → A) m k v : m !! k = Some v → alter h k m = <[k := h v]> m.
Proof.
  intros Hk. apply map_eq. intros j. rewrite lookup_alter, lookup_insert.
  destruct (decide (k = j)) as [<-|]; [by rewrite Hk|done].
Qed.

Lemma map_sum_update f m k v w :
  m !! k = Some w → (f v ≤ f w)%N → (map_sum f (<[k:=v]> m) ≤ map_sum f m)%N.
Proof. intros Hk Hle. pose proof (map_sum_insert_Some f m k v w Hk). lia. Qed.

End sums.

Lemma usize_sum_small `{Countable K} {A} (f : A → N) (m : gmap K A) :
  (map_sum f m ≤ usize_max)%N → usize_sum f m = map_sum f m.
Proof. intros Hm. unfold usize_sum. apply N.mod_small. lia. Qed.

(** ** Lemmas: occurrences and lists *)

Lemma list_sum_cons {A} (f : A → N) x l : list_sum f (x :: l) = (f x + list_sum f l)%N.
Proof. done. Qed.

Section occ_lemmas.
Context `{EqDecision A}.
Implicit Types (x y : A) (l : list A).

Lemma occ_nil x : occ x [] = 0%N.
Proof. done. Qed.

Lemma occ_cons x y l : occ x (y :: l) = ((if decide (x = y) then 1 else 0) + occ x l)%N.
Proof. done. Qed.

Lemma occ_app x l l' : occ x (l ++ l') = (occ x l + occ x l')%N.
Proof.
  induction l as [|y l IH]; [done|].
  rewrite <- app_comm_cons, !occ_cons, IH. lia.
Qed.

Lemma occ_not_elem x l : occ x l = 0%N ↔ x ∉ l.
Proof.
  induction l as [|y l IH]; [split; [intros _; apply not_elem_of_nil|done]|].
  rewrite occ_cons, not_elem_of_cons, <- IH.
  destruct (decide (x = y)) as [->|]; [|split; [intros; split; [done|lia]|lia]].
  split; [lia|naive_solver].
Qed.

Lemma occ_elem x l : x ∈ l ↔ (0 < occ x l)%N.
Proof.
  pose proof (occ_not_elem x l) as Hx. destruct (decide (x ∈ l)) as [Hin|Hin].
  - split; [intros _|done]. destruct (decide (occ x l = 0%N)); [tauto|lia].
  - apply Hx in Hin as Hz. split; [done|lia].
Qed.

Lemma occ_NoDup x l : NoDup l → (occ x l ≤ 1)%N.
Proof.
  induction 1 as [|y l Hy _ IH]; [cbn; lia|].
  rewrite occ_cons. destruct (decide (x = y)) as [->|]; [|lia].
  apply occ_not_elem in Hy. lia.
Qed.

End occ_lemmas.

Section min_lemmas.
Context {A : Type} (lt : A → A → bool).

Lemma min_by_None l : min_by lt l = None ↔ l = [].
Proof.
  destruct l as [|x l]; [done|]. cbn. destruct (min_by lt l) as [y|]; [|done].
  by destruct (lt y x).
Qed.

Lemma min_by_elem l x : min_by lt l = Some x → x ∈ l.
Proof.
  revert x. induction l as [|y l IH]; intros x; [done|]. cbn.
  destruct (min_by lt l) as [z|]; [|by intros [= ->]; left].
  destruct (lt z y); intros [= ->]; [right; by apply IH|left].
Qed.

(** Nothing is strictly below the minimum, for a strict weak order. *)
Lemma min_by_least l x :
  (∀ a b c, lt a b = true → lt b c = true → lt a c = true) →
  (∀ a, lt a a = false) →
  (∀ a b c, lt b a = false → lt c b = false → lt c a = false) →
  min_by lt l = Some x → ∀ y, y ∈ l → lt y x = false.
Proof.
  intros Htr Hirr Hneg. revert x. induction l as [|z l IH]; intros x; [done|]. cbn.
  destruct (min_by lt l) as [w|] eqn:Hw.
  - destruct (lt w z) eqn:Hwz; intros [= <-] y [->|Hy]%elem_of_cons.
    + destruct (lt z w) eqn:Hzw; [|done].
      by rewrite <- (Hirr w), (Htr w z w Hwz Hzw).
    + by eapply IH.
    + apply Hirr.
    + eapply Hneg; [exact Hwz|]. by apply IH.
  - intros [= <-] y [->|Hy]%elem_of_cons; [apply Hirr|].
    apply min_by_None in Hw. subst l. set_solver.
Qed.

End min_lemmas.
