(* ===== verification/Json.v ===== *)
(** JSON values as the serialization library holds them, their accessors, and the
    text operations the code applies to them. Parsing and printing are parameters of
    the files that use them. *)

From stdpp Require Import base strings list numbers.
From Stdlib Require Import Lia.
From S2P Require Import Prelude.

#[local] Set Warnings "-register-all".

(** Numbers are natural numbers, except those kept as their text. An object has its
    fields in the order of its map, which the library sorts by key. *)
Inductive Value : Type :=
| Null
| Bool (b : bool)
| Number (n : N)
| Float (s : string)
| VString (s : string)
| Array (l : list Value)
| Object (fields : list (string * Value)).

(** ** Accessors *)

Definition as_str (v : Value) : option string := match v with VString s => Some s | _ => None end.

Definition as_array (v : Value) : option (list Value) := match v with Array l => Some l | _ => None end.

Definition as_object (v : Value) : option (list (string * Value)) :=
  match v with Object fields => Some fields | _ => None end.

Definition is_object (v : Value) : bool := match v with Object _ => true | _ => false end.

Definition is_null (v : Value) : bool := match v with Null => true | _ => false end.

(** [object.get(key)], followed by [f] on what it finds. *)
Section field_with.
Context {A : Type} (f : Value → A) (key : string).

Fixpoint field_with (fields : list (string * Value)) : option A :=
  match fields with
  | [] => None
  | (k, v) :: fields' => if bool_decide (k = key) then Some (f v) else field_with fields'
  end.
End field_with.

Abbreviation field := (field_with (λ v, v)).

(** [object.remove(key)] *)
Definition remove_field (key : string) (fields : list (string * Value)) : list (string * Value) :=
  filter (λ kv, kv.1 ≠ key) fields.

(** [value[key] = v], of an object. *)
Fixpoint set_field (key : string) (v : Value) (fields : list (string * Value)) : list (string * Value) :=
  match fields with
  | [] => [(key, v)]
  | (k, w) :: fields' =>
      if bool_decide (k = key) then (k, v) :: fields' else (k, w) :: set_field key v fields'
  end.

(** [value[key]] when it is read: [Null] where there is none. *)
Definition index (key : string) (v : Value) : Value :=
  match v with Object fields => default Null (field key fields) | _ => Null end.

Lemma field_with_spec {A} (f : Value → A) key fields : field_with f key fields = f <$> field key fields.
Proof. induction fields as [|[k v] fields IH]; cbn; [done|]. by case_bool_decide. Qed.

(** ** Text *)

(** [s.replace(c, t)] *)
Fixpoint replace_char (c : Ascii.ascii) (t s : string) : string :=
  match s with
  | EmptyString => EmptyString
  | String x s' => if Ascii.eqb x c then t +:+ replace_char c t s' else String x (replace_char c t s')
  end.

Definition quote_char : Ascii.ascii := Ascii.ascii_of_nat 34.

Definition quote : string := String quote_char "".

(** A text of the code in which [`] stands for a quotation mark. *)
Definition quoted (s : string) : string := replace_char (Ascii.ascii_of_nat 96) quote s.

Lemma replace_char_app c t a b : replace_char c t (a +:+ b) = replace_char c t a +:+ replace_char c t b.
Proof.
  induction a as [|x a IH]; [done|]. change (String x a +:+ b) with (String x (a +:+ b)).
  cbn [replace_char]. rewrite IH. destruct (Ascii.eqb x c); [by rewrite append_assoc|done].
Qed.

(** ** Structure *)

(** How many values a value consists of. *)
Fixpoint nodes (v : Value) : nat :=
  match v with
  | Array l => S (foldr (λ w n, nodes w + n) 0 l)
  | Object fields => S (foldr (λ kv n, nodes kv.2 + n) 0 fields)
  | _ => 1
  end.

(** The fields of a map have different keys. *)
Fixpoint distinct_keys (v : Value) : Prop :=
  match v with
  | Array l => foldr (λ w p, distinct_keys w ∧ p) True l
  | Object fields => base.NoDup fields.*1 ∧ foldr (λ kv p, distinct_keys kv.2 ∧ p) True fields
  | _ => True
  end.

Lemma foldr_and {A} (Q : A → Prop) l : foldr (λ x p, Q x ∧ p) True l ↔ Forall Q l.
Proof. induction l as [|x l IH]; cbn; [done|]. by rewrite list.Forall_cons, IH. Qed.

Lemma field_in key fields v : field key fields = Some v → (key, v) ∈ fields.
Proof.
  induction fields as [|[k w] fields IH]; cbn; [done|]. case_bool_decide; intros Hf.
  - simplify_eq. left.
  - right. auto.
Qed.

Lemma field_Forall (Q : Value → Prop) key fields v :
  Forall (λ kv, Q kv.2) fields → field key fields = Some v → Q v.
Proof. intros HQ Hin%field_in. rewrite list.Forall_forall in HQ. by apply (HQ (key, v)). Qed.

Lemma keys_functional (fields : list (string * Value)) key v w :
  base.NoDup fields.*1 → (key, v) ∈ fields → (key, w) ∈ fields → v = w.
Proof.
  induction fields as [|[k u] fields IH]; cbn; intros Hnd Hv Hw; [by apply list.elem_of_nil in Hv|].
  apply list.NoDup_cons in Hnd as [Hk Hnd]. apply list.elem_of_cons in Hv as [[= -> ->]|Hv], Hw as [[= ->]|Hw].
  - done.
  - by apply (list_elem_of_fmap_2 fst) in Hw.
  - subst. by apply (list_elem_of_fmap_2 fst) in Hv.
  - auto.
Qed.

Lemma field_nodes key fields v : field key fields = Some v → nodes v < nodes (Object fields).
Proof.
  induction fields as [|[k w] fields IH]; cbn; [done|]. case_bool_decide; intros Hf.
  - simplify_eq. lia.
  - specialize (IH Hf). cbn in IH. lia.
Qed.

Lemma field_nodes_in (fields : list (string * Value)) kv : kv ∈ fields → nodes kv.2 < nodes (Object fields).
Proof.
  induction fields as [|kv' fields IH]; intros Hin; [by apply list.elem_of_nil in Hin|].
  cbn in *. apply list.elem_of_cons in Hin as [->|Hin]; [lia|]. specialize (IH Hin). lia.
Qed.

Lemma field_distinct key fields v : distinct_keys (Object fields) → field key fields = Some v → distinct_keys v.
Proof. intros [_ H%foldr_and]. by apply field_Forall. Qed.
