(* ===== verification/TokenSequence.v ===== *)
(** Persistent token sequences of [crates/context-store/src/lib.rs]: immutable
    chunks linked to their parents, with an incremental SHA-256 identity.

    The [sha2] crate is third-party code, so the hasher is an interface
    ([Hasher]) with the one documented law the code relies on
    ([HasherLaws]): feeding two slices in turn is feeding their concatenation.
    A 32-byte digest is the number its bytes spell in big-endian order, so the
    derived [Ord] of the code's identifiers is the order of [N].

    An [Arc] of an immutable chunk is the chunk itself; the pointer comparison
    that short-cuts [PartialEq] is a parameter of [seq_eq]. *)

From stdpp Require Import gmap strings list numbers.
From Stdlib Require Import Ascii.
From S2P Require Import Prelude.

(** ** Bytes and hashing *)

Class Hasher := {
  sha : Type;
  sha_new : sha;
  sha_update : sha → list N → sha;
  sha_finalize : sha → N;
}.

Class HasherLaws (H : Hasher) : Prop := {
  sha_update_app : ∀ h a b, sha_update (sha_update h a) b = sha_update h (a ++ b);
}.

(** [x.to_le_bytes()] of an [n]-byte unsigned integer. *)
Fixpoint le_bytes (n : nat) (x : N) : list N :=
  match n with
  | O => []
  | S n' => (x mod 256)%N :: le_bytes n' (x / 256)%N
  end.

(** The bytes of a digest, most significant first. *)
Definition digest_bytes (d : N) : list N := rev (le_bytes 32 d).

(** A byte-string literal. *)
Definition ascii_bytes (s : string) : list N :=
  N_of_ascii <$> String.list_ascii_of_string s.

(** [i32] tokens, two's complement on the wire. *)
Abbreviation Token := Z (only parsing).

Definition token_bytes (t : Token) : list N := le_bytes 4 (Z.to_N (t mod 2 ^ 32)).

Abbreviation BranchId := N (only parsing).

Definition LOGICAL_CHUNK_TOKENS : nat := 256.

(** [slice.chunks(n)]. *)
Fixpoint chunks_fuel {A} (fuel n : nat) (l : list A) : list (list A) :=
  match fuel, l with
  | S fuel', _ :: _ => take n l :: chunks_fuel fuel' n (drop n l)
  | _, _ => []
  end.

Definition chunks {A} (n : nat) (l : list A) : list (list A) :=
  chunks_fuel (length l) n l.

Section sequences.
Context `{HS : Hasher}.

Definition hash_tokens (hash : sha) (tokens : list Token) : sha :=
  foldl (λ h t, sha_update h (token_bytes t)) hash tokens.

Definition empty_sequence_hash : sha :=
  sha_update sha_new (ascii_bytes "cusco-sequence-v2").

Definition empty_branch_id : BranchId := sha_finalize empty_sequence_hash.

(** ** Data *)

Inductive SequenceTail : Type :=
| mkSequenceTail (chunk : SequenceChunk) (visible : nat)
with SequenceChunk : Type :=
| mkSequenceChunk (parent : option SequenceTail) (start_len : nat)
    (tokens : list Token) (start_hash : sha) (end_hash : BranchId).

Definition tail_chunk (t : SequenceTail) : SequenceChunk :=
  match t with mkSequenceTail c _ => c end.

Definition tail_visible (t : SequenceTail) : nat :=
  match t with mkSequenceTail _ v => v end.

Definition chunk_parent (c : SequenceChunk) : option SequenceTail :=
  match c with mkSequenceChunk p _ _ _ _ => p end.

Definition chunk_start_len (c : SequenceChunk) : nat :=
  match c with mkSequenceChunk _ n _ _ _ => n end.

Definition chunk_tokens (c : SequenceChunk) : list Token :=
  match c with mkSequenceChunk _ _ ts _ _ => ts end.

Definition chunk_start_hash (c : SequenceChunk) : sha :=
  match c with mkSequenceChunk _ _ _ h _ => h end.

Definition chunk_end_hash (c : SequenceChunk) : BranchId :=
  match c with mkSequenceChunk _ _ _ _ h => h end.

(** [PersistentTokenSequence]; [default()] is [None]. *)
Record PersistentTokenSequence : Type := mkSequence {
  seq_tail : option SequenceTail;
}.

Definition default_sequence : PersistentTokenSequence := mkSequence None.

(** ** Operations *)

Definition seq_len (s : PersistentTokenSequence) : nat :=
  match seq_tail s with
  | None => 0
  | Some t => chunk_start_len (tail_chunk t) + tail_visible t
  end.

Definition is_empty (s : PersistentTokenSequence) : bool :=
  match seq_tail s with None => true | Some _ => false end.

Definition seq_id (s : PersistentTokenSequence) : BranchId :=
  match seq_tail s with
  | None => empty_branch_id
  | Some t =>
      let c := tail_chunk t in
      if tail_visible t =? length (chunk_tokens c) then chunk_end_hash c
      else sha_finalize (hash_tokens (chunk_start_hash c)
                           (take (tail_visible t) (chunk_tokens c)))
  end.

Definition hash_state (s : PersistentTokenSequence) : sha :=
  match seq_tail s with
  | None => empty_sequence_hash
  | Some t =>
      hash_tokens (chunk_start_hash (tail_chunk t))
        (take (tail_visible t) (chunk_tokens (tail_chunk t)))
  end.

(** One turn of the loop of [append]. *)
Definition append_chunk (st : PersistentTokenSequence * sha) (tokens : list Token)
  : PersistentTokenSequence * sha :=
  let '(sequence, hash) := st in
  let start_hash := hash in
  let hash' := hash_tokens hash tokens in
  let chunk := mkSequenceChunk (seq_tail sequence) (seq_len sequence) tokens
                 start_hash (sha_finalize hash') in
  (mkSequence (Some (mkSequenceTail chunk (length tokens))), hash').

Definition append (s : PersistentTokenSequence) (tokens : list Token)
  : PersistentTokenSequence :=
  (foldl append_chunk (s, hash_state s) (chunks LOGICAL_CHUNK_TOKENS tokens)).1.

(** The loop of [prefix], from a chunk towards the root. *)
Fixpoint prefix_loop (len : nat) (current : SequenceTail) : PersistentTokenSequence :=
  match current with
  | mkSequenceTail (mkSequenceChunk parent start_len _ _ _ as chunk) _ =>
      if start_len <? len
      then mkSequence (Some (mkSequenceTail chunk (len - start_len)))
      else match parent with
           | None => default_sequence
           | Some p => prefix_loop len p
           end
  end.

Definition prefix (s : PersistentTokenSequence) (len : nat)
  : option PersistentTokenSequence :=
  if seq_len s <? len then None
  else Some (match seq_tail s with
             | None => default_sequence
             | Some t => prefix_loop len t
             end).

(** The reverse iterator [ReverseTokens]. *)
Record ReverseTokens : Type := mkReverseTokens {
  rt_tail : option SequenceTail;
  rt_offset : nat;
}.

(** [ReverseTokens::next], its loop unrolled over the parents. *)
Fixpoint next_from (t : SequenceTail) (offset : nat) : option (Token * ReverseTokens) :=
  match t with
  | mkSequenceTail (mkSequenceChunk parent _ tokens _ _) _ =>
      match offset with
      | S o => Some (nth o tokens 0%Z, mkReverseTokens (Some t) o)
      | O => match parent with
             | None => None
             | Some p => next_from p (tail_visible p)
             end
      end
  end.

Definition next (r : ReverseTokens) : option (Token * ReverseTokens) :=
  match rt_tail r with
  | None => None
  | Some t => next_from t (rt_offset r)
  end.

Definition iter_rev (s : PersistentTokenSequence) : ReverseTokens :=
  mkReverseTokens (seq_tail s)
    (match seq_tail s with None => 0 | Some t => tail_visible t end).

(** [collect::<Vec<_>>()]; one more than the length is always enough fuel. *)
Fixpoint collect (fuel : nat) (r : ReverseTokens) : list Token :=
  match fuel with
  | O => []
  | S fuel' => match next r with
               | None => []
               | Some (t, r') => t :: collect fuel' r'
               end
  end.

Definition tokens (s : PersistentTokenSequence) : list Token :=
  rev (collect (S (seq_len s)) (iter_rev s)).

(** [PartialEq::eq]; [ptr_eq] is [Arc::ptr_eq] on the chunks. *)
Definition seq_eq (ptr_eq : SequenceChunk → SequenceChunk → bool)
    (a b : PersistentTokenSequence) : bool :=
  if negb (seq_len a =? seq_len b) then false
  else
    let deep := bool_decide (collect (S (seq_len a)) (iter_rev a)
                             = collect (S (seq_len b)) (iter_rev b)) in
    match seq_tail a, seq_tail b with
    | None, None => true
    | Some l, Some r =>
        if (tail_visible l =? tail_visible r) && ptr_eq (tail_chunk l) (tail_chunk r)
        then true else deep
    | _, _ => deep
    end.

(** ** Specification *)

(** The tokens a tail stands for. *)
Fixpoint tail_view (t : SequenceTail) : list Token :=
  match t with
  | mkSequenceTail (mkSequenceChunk parent _ tokens _ _) visible =>
      (match parent with None => [] | Some p => tail_view p end) ++ take visible tokens
  end.

Definition parent_view (p : option SequenceTail) : list Token :=
  match p with None => [] | Some t => tail_view t end.

Definition view (s : PersistentTokenSequence) : list Token := parent_view (seq_tail s).

(** The identity a token history must have, whatever its chunking. *)
Definition canonical_hash (l : list Token) : sha :=
  sha_update sha_new (ascii_bytes "cusco-sequence-v2" ++ (l ≫= token_bytes)).

Definition canonical_id (l : list Token) : BranchId := sha_finalize (canonical_hash l).

(** Well-formed chunks: cached lengths and digests are those of the tokens. *)
Fixpoint tail_ok (t : SequenceTail) : Prop :=
  match t with
  | mkSequenceTail (mkSequenceChunk parent start_len tokens start_hash end_hash) visible =>
      0 < visible ≤ length tokens
      ∧ start_len = length (parent_view parent)
      ∧ start_hash = canonical_hash (parent_view parent)
      ∧ end_hash = canonical_id (parent_view parent ++ tokens)
      ∧ match parent with None => True | Some p => tail_ok p end
  end.

Definition sequence_ok (s : PersistentTokenSequence) : Prop :=
  match seq_tail s with None => True | Some t => tail_ok t end.

(** The sequences the public operations can build. *)
Inductive built : PersistentTokenSequence → Prop :=
| built_default : built default_sequence
| built_append s l : built s → built (append s l)
| built_prefix s n s' : built s → prefix s n = Some s' → built s'.

End sequences.

#[global] Arguments tokens {HS} s : simpl never.

(** ** Proofs *)

Section sequence_proofs.
Context `{HS : Hasher} {HL : HasherLaws HS}.
Implicit Types (s : PersistentTokenSequence) (t : SequenceTail) (l : list Token).

Lemma tail_ind (P : SequenceTail → Prop) :
  (∀ parent n ts h e v,
     match parent with None => True | Some p => P p end →
     P (mkSequenceTail (mkSequenceChunk parent n ts h e) v)) →
  ∀ t, P t.
Proof.
  intros Hs. fix IH 1. intros [[[p|] n ts h e] v]; apply Hs; [apply IH|exact I].
Qed.

Lemma hash_tokens_canonical a b : hash_tokens (canonical_hash a) b = canonical_hash (a ++ b).
Proof.
  revert a. induction b as [|x b IH]; intros a; [by rewrite app_nil_r|].
  rewrite (cons_middle x a b), app_assoc, <- IH. cbn [hash_tokens foldl]. f_equal.
  unfold canonical_hash. rewrite sha_update_app, bind_app, bind_singleton.
  by rewrite <- app_assoc.
Qed.

Lemma empty_sequence_hash_canonical : empty_sequence_hash = canonical_hash [].
Proof. done. Qed.

Lemma tail_view_length t :
  tail_ok t → length (tail_view t) = chunk_start_len (tail_chunk t) + tail_visible t.
Proof.
  destruct t as [[parent n ts h e] v]. intros (Hv & -> & _). cbn.
  rewrite length_app, length_take. unfold parent_view. lia.
Qed.

Lemma view_length s : sequence_ok s → length (view s) = seq_len s.
Proof.
  destruct s as [[t|]]; [|done]. unfold view, seq_len. cbn. apply tail_view_length.
Qed.

Lemma hash_state_ok s : sequence_ok s → hash_state s = canonical_hash (view s).
Proof.
  destruct s as [[t|]]; cbn; [|intros _; apply empty_sequence_hash_canonical].
  destruct t as [[parent n ts h e] v]. intros (Hv & _ & -> & _). cbn.
  apply hash_tokens_canonical.
Qed.

Lemma append_chunk_ok s ts :
  sequence_ok s → ts ≠ [] →
  let '(s', h') := append_chunk (s, canonical_hash (view s)) ts in
  sequence_ok s' ∧ view s' = view s ++ ts ∧ h' = canonical_hash (view s').
Proof.
  intros Hs Hts. cbn. rewrite hash_tokens_canonical.
  rewrite take_ge by done. split; [|done]. unfold sequence_ok. cbn.
  split; [destruct ts; [done|cbn; lia]|].
  split; [symmetry; by apply view_length|].
  split; [done|]. split; [done|]. by destruct s as [[t|]].
Qed.

Lemma chunks_fuel_concat {A} fuel n (l : list A) :
  0 < n → length l ≤ fuel → concat (chunks_fuel fuel n l) = l.
Proof.
  intros Hn. revert l. induction fuel as [|fuel IH]; intros [|x l] Hl; cbn in *; try done; [lia|].
  rewrite IH.
  - by rewrite <- (take_drop n (x :: l)) at 3.
  - rewrite length_drop. cbn. lia.
Qed.

Lemma chunks_fuel_bounds {A} fuel n (l : list A) :
  0 < n → Forall (λ c, c ≠ [] ∧ length c ≤ n) (chunks_fuel fuel n l).
Proof.
  intros Hn. revert l. induction fuel as [|fuel IH]; intros [|x l]; cbn; constructor; [|by apply IH].
  destruct n; [lia|]. cbn. split; [done|]. rewrite length_take. lia.
Qed.

Lemma chunks_nonempty {A} n (l : list A) : 0 < n → Forall (λ c, c ≠ []) (chunks n l).
Proof.
  intros Hn. eapply Forall_impl; [|exact (chunks_fuel_bounds (length l) n l Hn)].
  by intros ? [].
Qed.

Lemma append_chunks_ok cs s :
  sequence_ok s → Forall (λ c, c ≠ []) cs →
  let '(s', h') := foldl append_chunk (s, canonical_hash (view s)) cs in
  sequence_ok s' ∧ view s' = view s ++ concat cs.
Proof.
  intros Hs Hcs. revert s Hs. induction Hcs as [|c cs Hc _ IH]; intros s Hs.
  - cbn. by rewrite app_nil_r.
  - pose proof (append_chunk_ok s c Hs Hc) as Hstep.
    cbn [foldl concat]. destruct (append_chunk _ c) as [s' h'].
    destruct Hstep as (Hs' & Hv & ->). specialize (IH s' Hs').
    destruct (foldl _ _ cs) as [s'' h'']. destruct IH as [? ->].
    by rewrite Hv, app_assoc.
Qed.

Lemma append_ok s l :
  sequence_ok s → sequence_ok (append s l) ∧ view (append s l) = view s ++ l.
Proof.
  intros Hs. unfold append. rewrite hash_state_ok by done.
  pose proof (append_chunks_ok (chunks LOGICAL_CHUNK_TOKENS l) s Hs) as Happ.
  destruct (foldl _ _ _) as [s' h']. cbn. destruct Happ as [? ->].
  - apply chunks_nonempty. unfold LOGICAL_CHUNK_TOKENS. lia.
  - split; [done|]. unfold chunks. by rewrite chunks_fuel_concat by (unfold LOGICAL_CHUNK_TOKENS; lia).
Qed.

Lemma tail_view_unfold parent sl ts h e v :
  tail_view (mkSequenceTail (mkSequenceChunk parent sl ts h e) v) = parent_view parent ++ take v ts.
Proof. done. Qed.

Lemma prefix_loop_ok n t :
  tail_ok t → n ≤ length (tail_view t) →
  sequence_ok (prefix_loop n t) ∧ view (prefix_loop n t) = take n (tail_view t).
Proof.
  induction t as [parent sl ts h e v IH] using tail_ind.
  intros (Hv & -> & -> & -> & Hp). rewrite tail_view_unfold, length_app, length_take.
  intros Hn. cbn [prefix_loop].
  destruct (Nat.ltb_spec (length (parent_view parent)) n) as [Hlt|Hge].
  - unfold sequence_ok, view. cbn [seq_tail parent_view]. rewrite tail_view_unfold.
    split; [repeat split; try done; lia|].
    rewrite take_app_ge by lia. f_equal. rewrite take_take. f_equal. lia.
  - rewrite take_app_le by done. destruct parent as [p|]; [by apply IH|].
    assert (n = 0) as -> by (cbn in Hge; lia). done.
Qed.

Lemma prefix_ok s n s' :
  sequence_ok s → prefix s n = Some s' → sequence_ok s' ∧ view s' = take n (view s).
Proof.
  unfold prefix. intros Hs. destruct (Nat.ltb_spec (seq_len s) n) as [|Hle]; [done|].
  intros [= <-]. destruct s as [[t|]]; cbn in *; [|by rewrite take_nil].
  apply prefix_loop_ok; [done|]. rewrite tail_view_length by done. done.
Qed.

Lemma prefix_some s n : sequence_ok s → n ≤ length (view s) → is_Some (prefix s n).
Proof.
  intros Hs Hn. rewrite view_length in Hn by done. unfold prefix.
  destruct (Nat.ltb_spec (seq_len s) n); [lia|eauto].
Qed.

Lemma prefix_none s n : sequence_ok s → length (view s) < n → prefix s n = None.
Proof.
  intros Hs Hn. rewrite view_length in Hn by done. unfold prefix.
  destruct (Nat.ltb_spec (seq_len s) n); [done|lia].
Qed.

Lemma built_ok s : built s → sequence_ok s.
Proof.
  induction 1 as [|s l _ IH|s n s' _ IH Hp]; [done|by apply append_ok|].
  by eapply prefix_ok.
Qed.

(** What a reverse iterator still has to yield. *)
Definition remaining (r : ReverseTokens) : list Token :=
  match rt_tail r with
  | None => []
  | Some t => parent_view (chunk_parent (tail_chunk t))
              ++ take (rt_offset r) (chunk_tokens (tail_chunk t))
  end.

Definition iterator_ok (r : ReverseTokens) : Prop :=
  match rt_tail r with
  | None => True
  | Some t => tail_ok t ∧ rt_offset r ≤ length (chunk_tokens (tail_chunk t))
  end.

Lemma remaining_tail t : remaining (mkReverseTokens (Some t) (tail_visible t)) = tail_view t.
Proof. by destruct t as [[p n ts h e] v]. Qed.

Lemma tail_visible_le t : tail_ok t → tail_visible t ≤ length (chunk_tokens (tail_chunk t)).
Proof. destruct t as [[p n ts h e] v]. cbn. lia. Qed.

Lemma next_from_ok t offset :
  tail_ok t → offset ≤ length (chunk_tokens (tail_chunk t)) →
  match next_from t offset with
  | None => remaining (mkReverseTokens (Some t) offset) = []
  | Some (x, r) => iterator_ok r
                   ∧ remaining (mkReverseTokens (Some t) offset) = remaining r ++ [x]
  end.
Proof.
  revert offset. induction t as [parent sl ts h e v IH] using tail_ind.
  intros [|o] Hok Ho; cbn [next_from].
  - destruct parent as [p|]; [|done].
    assert (remaining (mkReverseTokens
      (Some (mkSequenceTail (mkSequenceChunk (Some p) sl ts h e) v)) 0) = tail_view p) as ->
      by (unfold remaining; cbn; by rewrite app_nil_r).
    rewrite <- remaining_tail. destruct Hok as (_ & _ & _ & _ & Hp).
    by apply IH, tail_visible_le.
  - cbn in Ho. split; [split; [done|cbn; lia]|].
    unfold remaining. cbn [rt_tail rt_offset tail_chunk chunk_parent chunk_tokens].
    rewrite <- app_assoc. f_equal.
    apply take_S_r. rewrite nth_lookup.
    destruct (lookup_lt_is_Some_2 ts o) as [x Hx]; [lia|]. by rewrite Hx.
Qed.

Lemma collect_ok fuel r :
  iterator_ok r → length (remaining r) < fuel → collect fuel r = rev (remaining r).
Proof.
  revert r. induction fuel as [|fuel IH]; intros r Hr Hf; [lia|].
  destruct r as [[t|] o]; [|done]. cbn [collect]. unfold next. cbn [rt_tail rt_offset].
  destruct Hr as [Ht Ho]. pose proof (next_from_ok t o Ht Ho) as Hn.
  destruct (next_from t o) as [[x r']|].
  - destruct Hn as [Hr' Heq]. rewrite Heq in *. rewrite length_app in Hf. cbn [length] in Hf.
    rewrite rev_app_distr. cbn [rev app]. f_equal. apply IH; [done|lia].
  - by rewrite Hn.
Qed.

Lemma iter_rev_ok s :
  sequence_ok s → iterator_ok (iter_rev s) ∧ remaining (iter_rev s) = view s.
Proof.
  destruct s as [[t|]]; [|done]. destruct t as [[p n ts h e] v]. intros Hs.
  split; [|done]. split; [done|]. cbn. destruct Hs; lia.
Qed.

Lemma collect_iter_rev s :
  sequence_ok s → collect (S (seq_len s)) (iter_rev s) = rev (view s).
Proof.
  intros Hs. destruct (iter_rev_ok s Hs) as [Hi Hr].
  rewrite collect_ok, Hr; [done|done|]. rewrite Hr, view_length by done. lia.
Qed.

Lemma tokens_view s : sequence_ok s → tokens s = view s.
Proof. intros Hs. unfold tokens. rewrite collect_iter_rev by done. apply rev_involutive. Qed.

Lemma seq_id_ok s : sequence_ok s → seq_id s = canonical_id (view s).
Proof.
  destruct s as [[[[p n ts h e] v]|]]; [|done]. intros (Hv & -> & -> & -> & _).
  unfold seq_id, view. cbn [seq_tail tail_chunk tail_visible chunk_tokens chunk_end_hash
    chunk_start_hash parent_view]. rewrite tail_view_unfold.
  destruct (Nat.eqb_spec v (length ts)) as [->|].
  - by rewrite take_ge by done.
  - by rewrite hash_tokens_canonical.
Qed.

Section equality.
Context (ptr_eq : SequenceChunk → SequenceChunk → bool).
Hypothesis ptr_eq_sound : ∀ a b, ptr_eq a b = true → a = b.

Lemma seq_eq_ok a b :
  sequence_ok a → sequence_ok b → seq_eq ptr_eq a b = bool_decide (view a = view b).
Proof.
  intros Ha Hb. unfold seq_eq. rewrite !collect_iter_rev by done.
  assert (bool_decide (rev (view a) = rev (view b)) = bool_decide (view a = view b)) as ->.
  { apply bool_decide_ext. split; [|by intros ->]. intros Hr.
    by rewrite <- (rev_involutive (view a)), Hr, rev_involutive. }
  destruct (Nat.eqb_spec (seq_len a) (seq_len b)) as [Hl|Hl]; cbn.
  - destruct a as [[[ca va]|]], b as [[[cb vb]|]]; cbn; [|done|done|done].
    destruct (Nat.eqb_spec va vb) as [->|]; [|done]. cbn.
    destruct (ptr_eq ca cb) eqn:Hp; [|done].
    apply ptr_eq_sound in Hp as ->. by rewrite bool_decide_eq_true_2.
  - symmetry. apply bool_decide_eq_false_2. intros Hv. apply Hl.
    by rewrite <- !view_length, Hv.
Qed.

End equality.
End sequence_proofs.

(** ** A hasher that keeps its input, to evaluate examples with *)

#[export] Instance trace_hasher : Hasher := {|
  sha := list N;
  sha_new := [];
  sha_update := λ h b, h ++ b;
  sha_finalize := foldl (λ acc b, acc * 257 + b + 1)%N 0%N;
|}.

#[export] Instance trace_hasher_laws : HasherLaws trace_hasher.
Proof. split. intros h a b. cbn. by rewrite app_assoc. Qed.

Definition example_sequence : PersistentTokenSequence (HS:=trace_hasher) :=
  append (append default_sequence [1; 2; 3]%Z) [-4; 5]%Z.

Lemma example_sequence_built : built example_sequence.
Proof. apply built_append, built_append, built_default. Qed.

Example example_sequence_tokens : tokens example_sequence = [1; 2; 3; -4; 5]%Z.
Proof. reflexivity. Qed.

Example example_prefix_tokens : tokens <$> prefix example_sequence 2 = Some [1; 2]%Z.
Proof. reflexivity. Qed.

(** ** Properties *)

Section sequence_properties.
Context `{HS : Hasher} {HL : HasherLaws HS}.

(** C7: the persistent sequence implements a list of tokens. Appending any slice
    concatenates it, whatever the chunk boundaries; [prefix] fails exactly past
    the end and otherwise is the list prefix; the cached length is exact. *)
Theorem sequence_refines_list (s : PersistentTokenSequence) :
  built s →
  seq_len s = length (tokens s)
  ∧ (∀ l, tokens (append s l) = tokens s ++ l)
  ∧ (∀ n, match prefix s n with
          | Some p => n ≤ length (tokens s) ∧ tokens p = take n (tokens s)
          | None => length (tokens s) < n
          end).
Proof.
  intros Hs%built_ok. rewrite (tokens_view s) by done. split; [by rewrite view_length|]. split.
  - intros l. destruct (append_ok s l Hs) as [? <-]. by apply tokens_view.
  - intros n. destruct (prefix s n) as [p|] eqn:Hp.
    + destruct (prefix_ok s n p Hs Hp) as [Hok <-]. split; [|by apply tokens_view].
      destruct (decide (n ≤ length (view s))); [done|].
      rewrite prefix_none in Hp by (try done; lia). done.
    + destruct (decide (length (view s) < n)); [done|].
      destruct (prefix_some s n) as [? ?]; [done|lia|congruence].
Qed.

(** C29: the identity of a sequence is the digest of its token history alone: it
    does not depend on how the history was cut into chunks, appended or
    truncated, although it is assembled from the digests cached per chunk. *)
Theorem sequence_identity_canonical (s : PersistentTokenSequence) :
  built s → seq_id s = canonical_id (tokens s).
Proof. intros Hs%built_ok. rewrite tokens_view by done. by apply seq_id_ok. Qed.

(** [PartialEq] of sequences is equality of their tokens: the pointer
    short-cut on shared chunks never changes the answer. *)
Theorem sequence_eq_decides_tokens
    (ptr_eq : SequenceChunk → SequenceChunk → bool) (a b : PersistentTokenSequence) :
  (∀ x y, ptr_eq x y = true → x = y) →
  built a → built b →
  seq_eq ptr_eq a b = true ↔ tokens a = tokens b.
Proof.
  intros Hptr Ha%built_ok Hb%built_ok. rewrite seq_eq_ok, !tokens_view by done.
  apply bool_decide_eq_true.
Qed.

End sequence_properties.

Lemma sequence_refines_list_witness :
  seq_len example_sequence = 5 ∧ tokens (append example_sequence [6]%Z) = [1; 2; 3; -4; 5; 6]%Z.
Proof.
  pose proof (sequence_refines_list example_sequence example_sequence_built) as (Hl & Ha & _).
  split; [exact Hl|]. exact (Ha [6]%Z).
Defined.

Lemma sequence_identity_canonical_witness :
  seq_id example_sequence = canonical_id [1; 2; 3; -4; 5]%Z.
Proof. exact (sequence_identity_canonical example_sequence example_sequence_built). Defined.

Lemma sequence_eq_decides_tokens_witness :
  seq_eq (λ _ _, false) example_sequence (append default_sequence [1; 2; 3; -4; 5]%Z) = true.
Proof.
  apply (sequence_eq_decides_tokens (λ _ _, false) example_sequence
           (append default_sequence [1; 2; 3; -4; 5]%Z)).
  - discriminate.
  - exact example_sequence_built.
  - apply built_append, built_default.
  - reflexivity.
Defined.
