(* ===== verification/ContextStore.v ===== *)
(** The logical context store of [crates/context-store/src/lib.rs]: contexts over
    persistent token sequences, the catalogue of evaluated prefixes with its
    reference counts, the two-phase publication of a prefix and the
    longest-valid-prefix lookup.

    A [HashMap] is a [gmap]; the [BTreeMap] of represented lengths is a [gmap]
    read in descending key order by [range_rev]. Methods run in the
    state-and-error monad of the prelude. *)

From stdpp Require Import gmap strings list numbers.
From S2P Require Import Prelude.
From S2P Require Import TokenSequence.

(** ** Identifiers *)

Abbreviation LogicalContextId := N (only parsing).
Abbreviation ModelEpoch := N (only parsing).
Abbreviation AdapterEpoch := N (only parsing).
Abbreviation EvaluatedPrefixId := N (only parsing).
Abbreviation DependencyHash := N (only parsing).

(** [ComponentMask], a [u8] of flags. *)
Module ComponentMask.
Definition t : Type := N.
Definition EMPTY : t := 0%N.
Definition GLOBAL_KV : t := 1%N.
Definition SWA : t := 2%N.
Definition RECURRENT : t := 4%N.
Definition union (a b : t) : t := N.lor a b.
Definition contains (a required : t) : bool := (N.land a required =? required)%N.
End ComponentMask.

Inductive Error : Type :=
| ContextNotFound
| PrefixOutOfBounds
| IncompatibleEpoch
| IncompleteComponents
| InvalidDependency
| PublicationConflict
| MappingNotFound
| IdentityConflict.

#[export] Instance Error_eq_dec : EqDecision Error.
Proof. solve_decision. Defined.

Record ReferenceCounts : Type := mkReferenceCounts {
  rc_catalog : N;
  rc_contexts : N;
  rc_dependents : N;
}.

#[export] Instance ReferenceCounts_eq_dec : EqDecision ReferenceCounts.
Proof. solve_decision. Defined.

(** [map.range(..=hi).rev()] of a map keyed by lengths. *)
Definition range_rev {V} (m : gmap nat V) (hi : nat) : list (nat * V) :=
  omap (λ n, pair n <$> m !! n) (rev (seq 0 (S hi))).

Section store.
Context `{HS : Hasher}.
Variable ptr_eq : SequenceChunk → SequenceChunk → bool.

(** ** Data *)

Record EvaluatedPrefix : Type := mkEvaluatedPrefix {
  ep_id : EvaluatedPrefixId;
  ep_branch : BranchId;
  ep_represented_end : nat;
  ep_model_epoch : ModelEpoch;
  ep_adapter_epoch : AdapterEpoch;
  ep_parent : option EvaluatedPrefixId;
  ep_lineage : DependencyHash;
  ep_required_components : ComponentMask.t;
  ep_complete_components : ComponentMask.t;
  ep_evaluation_parameters : N;
  ep_sequence : PersistentTokenSequence;
}.

(** The derived [PartialEq] of [EvaluatedPrefix]. *)
Definition mapping_eq (a b : EvaluatedPrefix) : bool :=
  bool_decide (ep_id a = ep_id b)
  && bool_decide (ep_branch a = ep_branch b)
  && bool_decide (ep_represented_end a = ep_represented_end b)
  && bool_decide (ep_model_epoch a = ep_model_epoch b)
  && bool_decide (ep_adapter_epoch a = ep_adapter_epoch b)
  && bool_decide (ep_parent a = ep_parent b)
  && bool_decide (ep_lineage a = ep_lineage b)
  && bool_decide (ep_required_components a = ep_required_components b)
  && bool_decide (ep_complete_components a = ep_complete_components b)
  && bool_decide (ep_evaluation_parameters a = ep_evaluation_parameters b)
  && seq_eq ptr_eq (ep_sequence a) (ep_sequence b).

Record LogicalContext : Type := mkLogicalContext {
  lc_id : LogicalContextId;
  lc_tokens : PersistentTokenSequence;
  lc_model_epoch : ModelEpoch;
  lc_adapter_epoch : AdapterEpoch;
  lc_evaluated : option EvaluatedPrefixId;
  lc_revision : N;
}.

Record MappingEntry : Type := mkMappingEntry {
  me_mapping : EvaluatedPrefix;
  me_references : ReferenceCounts;
}.

(** [MappingEpochKey]. *)
Definition MappingEpochKey : Type := (ModelEpoch * AdapterEpoch)%type.

Record PreparedPublication : Type := mkPreparedPublication {
  pp_context : LogicalContextId;
  pp_expected_revision : N;
  pp_expected_current : option EvaluatedPrefixId;
  pp_mapping : EvaluatedPrefix;
}.

Record ContextStore : Type := mkContextStore {
  cs_next_context : N;
  cs_contexts : gmap N LogicalContext;
  cs_mappings : gmap N MappingEntry;
  cs_prefix_index : gmap (N * N) (gmap nat (list N));
}.

Definition default_store : ContextStore := mkContextStore 0 ∅ ∅ ∅.

Definition with_contexts (f : gmap N LogicalContext → gmap N LogicalContext) (s : ContextStore)
  : ContextStore :=
  mkContextStore (cs_next_context s) (f (cs_contexts s)) (cs_mappings s) (cs_prefix_index s).

Definition with_mappings (f : gmap N MappingEntry → gmap N MappingEntry) (s : ContextStore)
  : ContextStore :=
  mkContextStore (cs_next_context s) (cs_contexts s) (f (cs_mappings s)) (cs_prefix_index s).

Definition with_index
    (f : gmap (N * N) (gmap nat (list N)) → gmap (N * N) (gmap nat (list N)))
    (s : ContextStore) : ContextStore :=
  mkContextStore (cs_next_context s) (cs_contexts s) (cs_mappings s) (f (cs_prefix_index s)).

Definition set_references (f : ReferenceCounts → ReferenceCounts) (e : MappingEntry)
  : MappingEntry := mkMappingEntry (me_mapping e) (f (me_references e)).

Definition add_catalog (f : N → N) (r : ReferenceCounts) : ReferenceCounts :=
  mkReferenceCounts (f (rc_catalog r)) (rc_contexts r) (rc_dependents r).

Definition add_contexts (f : N → N) (r : ReferenceCounts) : ReferenceCounts :=
  mkReferenceCounts (rc_catalog r) (f (rc_contexts r)) (rc_dependents r).

Definition add_dependents (f : N → N) (r : ReferenceCounts) : ReferenceCounts :=
  mkReferenceCounts (rc_catalog r) (rc_contexts r) (f (rc_dependents r)).

Definition StoreM : Type → Type := M ContextStore Error.

(** ** Derived identities *)

Definition dependency_hash (parent : DependencyHash) (branch : BranchId)
    (represented_end : nat) : DependencyHash :=
  sha_finalize
    (sha_update (sha_update (sha_update (sha_update sha_new
      (ascii_bytes "cusco-dependency-v2"))
      (digest_bytes parent))
      (digest_bytes branch))
      (le_bytes 8 (N.of_nat represented_end))).

Definition mapping_id (model : ModelEpoch) (adapter : AdapterEpoch)
    (parent : option EvaluatedPrefixId) (branch : BranchId) (end_ : nat)
    (components : ComponentMask.t) (parameters : N) (lineage : DependencyHash)
  : EvaluatedPrefixId :=
  let h := sha_update sha_new (ascii_bytes "cusco-evaluated-prefix-v2") in
  let h := sha_update h (le_bytes 8 model) in
  let h := sha_update h (le_bytes 8 adapter) in
  let h := sha_update h (digest_bytes (default 0%N parent)) in
  let h := sha_update h (digest_bytes branch) in
  let h := sha_update h (le_bytes 8 (N.of_nat end_)) in
  let h := sha_update h [components] in
  let h := sha_update h (digest_bytes parameters) in
  sha_finalize (sha_update h (digest_bytes lineage)).

(** ** Reclamation *)

(** The index surgery of [reclaim] for one removed mapping. *)
Definition unindex (m : EvaluatedPrefix)
    (index : gmap (N * N) (gmap nat (list N))) : gmap (N * N) (gmap nat (list N)) :=
  let key := (ep_model_epoch m, ep_adapter_epoch m) in
  match index !! key with
  | None => index
  | Some lengths =>
      let end_ := ep_represented_end m in
      let lengths' :=
        match lengths !! end_ with
        | None => lengths
        | Some ids =>
            let ids' := filter (λ candidate, candidate ≠ ep_id m) ids in
            if bool_decide (ids' = []) then delete end_ lengths else <[end_ := ids']> lengths
        end in
      if bool_decide (lengths' = ∅) then delete key index else <[key := lengths']> index
  end.

Definition removable (s : ContextStore) (id : EvaluatedPrefixId) : bool :=
  match cs_mappings s !! id with
  | None => false
  | Some e => bool_decide (rc_catalog (me_references e) = 0%N)
              && bool_decide (rc_contexts (me_references e) = 0%N)
              && bool_decide (rc_dependents (me_references e) = 0%N)
  end.

(** The loop of [reclaim] from a candidate up the parents it frees; every turn
    removes a mapping, so the number of mappings is enough fuel. *)
Fixpoint reclaim_loop (fuel : nat) (id : EvaluatedPrefixId) (s : ContextStore) : ContextStore :=
  match fuel with
  | O => s
  | S fuel' =>
      if negb (removable s id) then s
      else match cs_mappings s !! id with
           | None => s
           | Some removed =>
               let m := me_mapping removed in
               let s1 := with_index (unindex m) (with_mappings (delete id) s) in
               match ep_parent m with
               | None => s1
               | Some parent =>
                   reclaim_loop fuel' parent
                     (with_mappings (alter (set_references (add_dependents N.pred)) parent) s1)
               end
           end
  end.

Definition reclaim (id : EvaluatedPrefixId) (s : ContextStore) : ContextStore :=
  reclaim_loop (size (cs_mappings s)) id s.

Definition adjust_context_refs (id : EvaluatedPrefixId) (increment : bool) (s : ContextStore)
  : ContextStore :=
  match cs_mappings s !! id with
  | None => s
  | Some _ =>
      if increment then with_mappings (alter (set_references (add_contexts N.succ)) id) s
      else reclaim id (with_mappings (alter (set_references (add_contexts N.pred)) id) s)
  end.

(** ** Contexts *)

Definition create (tokens : PersistentTokenSequence) (model_epoch : ModelEpoch)
    (adapter_epoch : AdapterEpoch) : StoreM LogicalContextId :=
  s ← get;
  let id := cs_next_context s in
  _ ← modify (λ s, mkContextStore (wrapping_add (cs_next_context s) 1)
        (<[id := mkLogicalContext id tokens model_epoch adapter_epoch None 0]> (cs_contexts s))
        (cs_mappings s) (cs_prefix_index s));
  mret id.

Definition branch (source : LogicalContextId) (at_ : nat) : StoreM LogicalContextId :=
  s ← get;
  source ← ok_or (cs_contexts s !! source) ContextNotFound;
  tokens ← ok_or (prefix (lc_tokens source) at_) PrefixOutOfBounds;
  create tokens (lc_model_epoch source) (lc_adapter_epoch source).

Definition append_context (context : LogicalContextId) (tokens : list Token) : StoreM unit :=
  s ← get;
  c ← ok_or (cs_contexts s !! context) ContextNotFound;
  match tokens with
  | [] => mret tt
  | _ :: _ =>
      revision ← expect (checked_add (lc_revision c) 1);
      modify (with_contexts (insert context
        (mkLogicalContext (lc_id c) (append (lc_tokens c) tokens) (lc_model_epoch c)
           (lc_adapter_epoch c) (lc_evaluated c) revision)))
  end.

Definition context (id : LogicalContextId) (s : ContextStore) : option LogicalContext :=
  cs_contexts s !! id.

Definition remove_context (id : LogicalContextId) : StoreM unit :=
  s ← get;
  c ← ok_or (cs_contexts s !! id) ContextNotFound;
  _ ← modify (with_contexts (delete id));
  match lc_evaluated c with
  | None => mret tt
  | Some mapping => modify (adjust_context_refs mapping false)
  end.

Definition set_epochs (id : LogicalContextId) (model_epoch : ModelEpoch)
    (adapter_epoch : AdapterEpoch) : StoreM unit :=
  s ← get;
  c ← ok_or (cs_contexts s !! id) ContextNotFound;
  if bool_decide (lc_model_epoch c = model_epoch)
     && bool_decide (lc_adapter_epoch c = adapter_epoch)
  then mret tt
  else
    revision ← expect (checked_add (lc_revision c) 1);
    _ ← modify (with_contexts (insert id
          (mkLogicalContext (lc_id c) (lc_tokens c) model_epoch adapter_epoch None revision)));
    match lc_evaluated c with
    | None => mret tt
    | Some mapping => modify (adjust_context_refs mapping false)
    end.

(** ** Validity of a mapping for a context *)

(** [context.tokens.prefix(end).as_ref() == Some(&sequence)]. *)
Definition prefix_matches (c : LogicalContext) (m : EvaluatedPrefix) : bool :=
  match prefix (lc_tokens c) (ep_represented_end m) with
  | Some p => seq_eq ptr_eq p (ep_sequence m)
  | None => false
  end.

(** One step of the ancestor walk: the parent must end strictly before its
    child, share its epochs and be complete. *)
Definition parent_link_ok (child parent : EvaluatedPrefix) : bool :=
  negb ((ep_represented_end child <=? ep_represented_end parent)
        || negb (bool_decide (ep_model_epoch parent = ep_model_epoch child))
        || negb (bool_decide (ep_adapter_epoch parent = ep_adapter_epoch child))
        || negb (ComponentMask.contains (ep_complete_components parent)
                   (ep_required_components parent))).

(** The loop over the ancestors; the represented end falls at every step, so
    one more than the first end is enough fuel. *)
Fixpoint ancestors_ok (fuel : nat) (s : ContextStore) (child : EvaluatedPrefix) : bool :=
  match fuel with
  | O => false
  | S fuel' =>
      match ep_parent child with
      | None => true
      | Some parent_id =>
          match cs_mappings s !! parent_id with
          | None => false
          | Some entry =>
              parent_link_ok child (me_mapping entry)
              && ancestors_ok fuel' s (me_mapping entry)
          end
      end
  end.

Definition mapping_valid_for_context (s : ContextStore) (mapping : EvaluatedPrefix)
    (c : LogicalContext) (child_end : option nat) : bool :=
  if negb (bool_decide (ep_model_epoch mapping = lc_model_epoch c))
     || negb (bool_decide (ep_adapter_epoch mapping = lc_adapter_epoch c))
     || negb (ComponentMask.contains (ep_complete_components mapping)
                (ep_required_components mapping))
     || (seq_len (lc_tokens c) <? ep_represented_end mapping)
     || match child_end with
        | Some end_ => end_ <? ep_represented_end mapping
        | None => false
        end
     || negb (prefix_matches c mapping)
  then false
  else ancestors_ok (S (ep_represented_end mapping)) s mapping.

(** ** Publication *)

Definition prepare_publication (context_id : LogicalContextId) (represented_end : nat)
    (parent : option EvaluatedPrefixId) (required_components : ComponentMask.t)
    (complete_components : ComponentMask.t) (evaluation_parameters : N)
  : StoreM PreparedPublication :=
  s ← get;
  c ← ok_or (cs_contexts s !! context_id) ContextNotFound;
  _ ← guard_not (seq_len (lc_tokens c) <? represented_end) PrefixOutOfBounds;
  _ ← guard_not (negb (ComponentMask.contains complete_components required_components))
        IncompleteComponents;
  prefix_ ← expect (prefix (lc_tokens c) represented_end);
  parent_lineage ←
    match parent with
    | Some id =>
        entry ← ok_or (cs_mappings s !! id) InvalidDependency;
        _ ← guard_not ((represented_end <=? ep_represented_end (me_mapping entry))
                       || negb (mapping_valid_for_context s (me_mapping entry) c
                                  (Some represented_end)))
              InvalidDependency;
        mret (ep_lineage (me_mapping entry))
    | None => mret 0%N
    end;
  let lineage := dependency_hash parent_lineage (seq_id prefix_) represented_end in
  let id := mapping_id (lc_model_epoch c) (lc_adapter_epoch c) parent (seq_id prefix_)
              represented_end required_components evaluation_parameters lineage in
  mret (mkPreparedPublication context_id (lc_revision c) (lc_evaluated c)
          (mkEvaluatedPrefix id (seq_id prefix_) represented_end (lc_model_epoch c)
             (lc_adapter_epoch c) parent lineage required_components complete_components
             evaluation_parameters prefix_)).

Definition validate_publication (prepared : PreparedPublication) (s : ContextStore)
  : result Error unit :=
  match cs_contexts s !! pp_context prepared with
  | None => Err ContextNotFound
  | Some c =>
      let m := pp_mapping prepared in
      if negb (bool_decide (lc_evaluated c = pp_expected_current prepared))
         || negb (bool_decide (lc_revision c = pp_expected_revision prepared))
      then Err PublicationConflict
      else if negb (bool_decide (lc_model_epoch c = ep_model_epoch m))
              || negb (bool_decide (lc_adapter_epoch c = ep_adapter_epoch m))
      then Err IncompatibleEpoch
      else if negb (prefix_matches c m) then Err PublicationConflict
      else match cs_mappings s !! ep_id m with
           | Some existing =>
               if negb (mapping_eq (me_mapping existing) m) then Err IdentityConflict else Ok tt
           | None =>
               match ep_parent m with
               | Some parent =>
                   if bool_decide (cs_mappings s !! parent = None) then Err InvalidDependency
                   else Ok tt
               | None => Ok tt
               end
           end
  end.

(** The index push of [commit_publication]. *)
Definition index_push (m : EvaluatedPrefix)
    (index : gmap (N * N) (gmap nat (list N))) : gmap (N * N) (gmap nat (list N)) :=
  let key := (ep_model_epoch m, ep_adapter_epoch m) in
  let lengths := default ∅ (index !! key) in
  let ids := default [] (lengths !! ep_represented_end m) in
  <[key := <[ep_represented_end m := ids ++ [ep_id m]]> lengths]> index.

(** The first half of [commit_publication]: catalogue a mapping not yet known. *)
Definition catalogue (m : EvaluatedPrefix) : StoreM unit :=
  s ← get;
  match cs_mappings s !! ep_id m with
  | Some _ => mret tt
  | None =>
      _ ← match ep_parent m with
          | None => mret tt
          | Some parent =>
              _ ← ok_or (cs_mappings s !! parent) InvalidDependency;
              modify (with_mappings (alter (set_references (add_dependents N.succ)) parent))
          end;
      _ ← modify (with_index (index_push m));
      modify (with_mappings (insert (ep_id m)
        (mkMappingEntry m (mkReferenceCounts 1 0 0))))
  end.

Definition commit_publication (prepared : PreparedPublication) : StoreM EvaluatedPrefix :=
  s ← get;
  _ ← lift_result (validate_publication prepared s);
  c ← expect (cs_contexts s !! pp_context prepared);
  let current := lc_evaluated c in
  let id := ep_id (pp_mapping prepared) in
  _ ← catalogue (pp_mapping prepared);
  _ ← (if bool_decide (current = Some id) then mret tt
       else
         _ ← match current with
             | Some old => modify (adjust_context_refs old false)
             | None => mret tt
             end;
         _ ← modify (adjust_context_refs id true);
         s ← get;
         c ← expect (cs_contexts s !! pp_context prepared);
         revision ← expect (checked_add (lc_revision c) 1);
         modify (with_contexts (insert (pp_context prepared)
           (mkLogicalContext (lc_id c) (lc_tokens c) (lc_model_epoch c) (lc_adapter_epoch c)
              (Some id) revision))));
  s ← get;
  entry ← expect (cs_mappings s !! id);
  mret (me_mapping entry).

(** ** Lookup and release *)

Definition mapping_lt (a b : EvaluatedPrefix) : bool := (ep_id a <? ep_id b)%N.

Definition valid_mapping_from_ids (s : ContextStore) (c : LogicalContext) (ids : list N)
  : option EvaluatedPrefix :=
  min_by mapping_lt
    (filter (λ m, mapping_valid_for_context s m c None = true)
       (me_mapping <$> omap (λ id, cs_mappings s !! id) ids)).

(** [iter.find_map(f)]. *)
Fixpoint find_map {A B} (f : A → option B) (l : list A) : option B :=
  match l with
  | [] => None
  | x :: l' => match f x with Some y => Some y | None => find_map f l' end
  end.

Definition longest_valid_prefix (context_id : LogicalContextId) (s : ContextStore)
  : result Error (option EvaluatedPrefix) :=
  match cs_contexts s !! context_id with
  | None => Err ContextNotFound
  | Some c =>
      match cs_prefix_index s !! (lc_model_epoch c, lc_adapter_epoch c) with
      | None => Ok None
      | Some lengths =>
          Ok (find_map (λ '(_, ids), valid_mapping_from_ids s c ids)
                (range_rev lengths (seq_len (lc_tokens c))))
      end
  end.

Definition mapping (id : EvaluatedPrefixId) (s : ContextStore) : option EvaluatedPrefix :=
  me_mapping <$> cs_mappings s !! id.

Definition references (id : EvaluatedPrefixId) (s : ContextStore) : option ReferenceCounts :=
  me_references <$> cs_mappings s !! id.

Definition release_mapping (id : EvaluatedPrefixId) : StoreM unit :=
  s ← get;
  _ ← ok_or (cs_mappings s !! id) MappingNotFound;
  _ ← modify (with_mappings (alter (set_references (add_catalog N.pred)) id));
  modify (reclaim id).

End store.

(** ** The prefix index *)

Definition indexed (index : gmap (N * N) (gmap nat (list N))) (key : N * N) (n : nat) : list N :=
  default [] (index !! key ≫= λ lengths, lengths !! n).

(** No empty bucket and no empty epoch is ever left in the index. *)
Definition index_dense (index : gmap (N * N) (gmap nat (list N))) : Prop :=
  ∀ key lengths, index !! key = Some lengths →
    lengths ≠ ∅ ∧ ∀ n ids, lengths !! n = Some ids → ids ≠ [].

Section index.
Context `{HS : Hasher}.
Implicit Types (m : EvaluatedPrefix) (index : gmap (N * N) (gmap nat (list N))).

Definition index_key m : N * N := (ep_model_epoch m, ep_adapter_epoch m).

Lemma indexed_push m index key n :
  indexed (index_push m index) key n =
    indexed index key n ++
      (if decide (key = index_key m ∧ n = ep_represented_end m) then [ep_id m] else []).
Proof.
  unfold indexed, index_push, index_key. rewrite lookup_insert.
  destruct (decide (_ = key)) as [<-|Hk]; cbn.
  - rewrite lookup_insert. destruct (decide (ep_represented_end m = n)) as [<-|Hn].
    + rewrite decide_True by done. by destruct (index !! _).
    + rewrite decide_False by naive_solver. rewrite app_nil_r. by destruct (index !! _).
  - rewrite decide_False by naive_solver. by rewrite app_nil_r.
Qed.

Lemma index_push_dense m index : index_dense index → index_dense (index_push m index).
Proof.
  intros Hd key lengths. unfold index_push. rewrite lookup_insert.
  case_decide as Hk; [|by apply Hd]. intros [= <-]. split; [apply insert_non_empty|].
  intros n ids. rewrite lookup_insert. case_decide; [intros [= <-]; by destruct (default _ _)|].
  destruct (index !! _) as [l|] eqn:Hl; cbn; [by apply (Hd _ l Hl)|done].
Qed.

Lemma indexed_unindex m index key n :
  index_dense index →
  indexed (unindex m index) key n =
    if decide (key = index_key m ∧ n = ep_represented_end m)
    then filter (λ c, c ≠ ep_id m) (indexed index key n) else indexed index key n.
Proof.
  intros Hd. unfold indexed, unindex. fold (index_key m).
  destruct (index !! index_key m) as [l|] eqn:Hl.
  2:{ destruct (decide _) as [[-> _]|]; [by rewrite Hl|done]. }
  set (l' := match l !! ep_represented_end m with None => _ | Some _ => _ end).
  assert (∀ j, default [] (l' !! j) = if decide (j = ep_represented_end m)
            then filter (λ c, c ≠ ep_id m) (default [] (l !! j)) else default [] (l !! j)) as Hl'.
  { intros j. unfold l'. destruct (l !! ep_represented_end m) as [ids|] eqn:Hids.
    - case_bool_decide as He; [rewrite lookup_delete|rewrite lookup_insert].
      + repeat case_decide; try congruence. subst j. by rewrite Hids.
      + repeat case_decide; try congruence. subst j. by rewrite Hids.
    - case_decide; [subst j; by rewrite Hids|done]. }
  case_bool_decide as He.
  - rewrite lookup_delete. destruct (decide (index_key m = key)) as [<-|Hk].
    + specialize (Hl' n). rewrite He, lookup_empty in Hl'. rewrite Hl. cbn in Hl' |- *.
      destruct (decide (n = _)) as [->|]; [rewrite decide_True by done|rewrite decide_False by naive_solver]; done.
    + by rewrite decide_False by naive_solver.
  - rewrite lookup_insert. destruct (decide (index_key m = key)) as [<-|Hk].
    + rewrite Hl. cbn. rewrite Hl'. repeat case_decide; naive_solver.
    + by rewrite decide_False by naive_solver.
Qed.

Lemma unindex_dense m index : index_dense index → index_dense (unindex m index).
Proof.
  intros Hd. unfold unindex. fold (index_key m).
  destruct (index !! index_key m) as [l|] eqn:Hl; [|done].
  pose proof (Hd _ _ Hl) as [_ Hne].
  case_bool_decide as He; intros key lengths.
  - rewrite lookup_delete. destruct (decide _); [done|]. apply Hd.
  - rewrite lookup_insert. destruct (decide _) as [Hk|]; [|apply Hd].
    intros [= <-]. split; [done|].
    intros n ids. destruct (l !! ep_represented_end m) as [ids0|] eqn:Hids; [|apply Hne].
    case_bool_decide; [rewrite lookup_delete|rewrite lookup_insert]; case_decide; naive_solver.
Qed.

End index.

(** ** The catalogue invariant *)

Section catalogue.
Context `{HS : Hasher}.
Implicit Types (s : ContextStore) (e : MappingEntry) (m : EvaluatedPrefix) (id : N)
  (ms : gmap N MappingEntry).

Definition one_if (P : Prop) `{Decision P} : N := if decide P then 1%N else 0%N.

(** How many contexts evaluate a mapping, and how many mappings extend it. *)
Definition context_count (cs : gmap N LogicalContext) id : N :=
  map_sum (λ c, one_if (lc_evaluated c = Some id)) cs.

Definition dependent_count (ms : gmap N MappingEntry) id : N :=
  map_sum (λ e, one_if (ep_parent (me_mapping e) = Some id)) ms.

Definition contexts_at (ms : gmap N MappingEntry) id : N :=
  from_option (λ e, rc_contexts (me_references e)) 0%N (ms !! id).

Definition dependents_at (ms : gmap N MappingEntry) id : N :=
  from_option (λ e, rc_dependents (me_references e)) 0%N (ms !! id).

Definition mapping_ok m : Prop :=
  sequence_ok (ep_sequence m)
  ∧ seq_len (ep_sequence m) = ep_represented_end m
  ∧ ComponentMask.contains (ep_complete_components m) (ep_required_components m) = true.

Definition owned e : Prop :=
  (0 < rc_catalog (me_references e) + rc_contexts (me_references e)
       + rc_dependents (me_references e))%N.

(** The catalogue with its counts and index. The context references are
    compared with [cnt], and the entry [cand] may be unowned: both are the
    intermediate states of the methods. *)
Record catalogue_ok (cnt : N → N) (cand : option N) s : Prop := {
  cat_entry : ∀ id e, cs_mappings s !! id = Some e →
    ep_id (me_mapping e) = id ∧ mapping_ok (me_mapping e)
    ∧ (rc_catalog (me_references e) ≤ 1)%N;
  cat_contexts : ∀ id, contexts_at (cs_mappings s) id = cnt id;
  cat_dependents : ∀ id,
    dependents_at (cs_mappings s) id = dependent_count (cs_mappings s) id;
  cat_owned : ∀ id e, cs_mappings s !! id = Some e → cand ≠ Some id → owned e;
  cat_index : ∀ key n id,
    id ∈ indexed (cs_prefix_index s) key n ↔
    ∃ e, cs_mappings s !! id = Some e
         ∧ index_key (me_mapping e) = key ∧ ep_represented_end (me_mapping e) = n;
  cat_dense : index_dense (cs_prefix_index s);
}.

Lemma one_if_true (P : Prop) `{Decision P} : P → one_if P = 1%N.
Proof. intros HP. unfold one_if. by rewrite decide_True. Qed.

Lemma one_if_false (P : Prop) `{Decision P} : ¬ P → one_if P = 0%N.
Proof. intros HP. unfold one_if. by rewrite decide_False. Qed.

Lemma one_if_le (P : Prop) `{Decision P} : (one_if P ≤ 1)%N.
Proof. unfold one_if. case_decide; lia. Qed.

(** Changing reference counts changes no mapping. *)
Lemma dependent_count_alter f ms id x :
  dependent_count (alter (set_references f) id ms) x = dependent_count ms x.
Proof. apply map_sum_alter. by intros []. Qed.

Lemma lookup_alter_refs f ms id x e :
  alter (set_references f) id ms !! x = Some e →
  ∃ e', ms !! x = Some e' ∧ me_mapping e = me_mapping e'
        ∧ me_references e = if decide (id = x) then f (me_references e') else me_references e'.
Proof.
  rewrite lookup_alter. destruct (decide (id = x)) as [->|]; [|naive_solver].
  destruct (ms !! x) as [e'|] eqn:Hx; [|done]. intros [= <-]. by exists e'.
Qed.

Lemma alter_refs_lookup f ms id x e' :
  ms !! x = Some e' →
  alter (set_references f) id ms !! x =
    Some (if decide (id = x) then set_references f e' else e').
Proof.
  intros Hx. rewrite lookup_alter. destruct (decide (id = x)) as [->|]; by rewrite Hx.
Qed.

(** The index only looks at the mappings, not at their counts. *)
Lemma index_alter f ms id (key : N * N) n x :
  (∃ e, alter (set_references f) id ms !! x = Some e
        ∧ index_key (me_mapping e) = key ∧ ep_represented_end (me_mapping e) = n) ↔
  (∃ e, ms !! x = Some e
        ∧ index_key (me_mapping e) = key ∧ ep_represented_end (me_mapping e) = n).
Proof.
  split.
  - intros (e & (e' & He' & Hm & _)%lookup_alter_refs & Hk & Hn).
    exists e'. by rewrite <- Hm.
  - intros (e & He & Hk & Hn). eexists. split; [by apply alter_refs_lookup|].
    by case_decide.
Qed.

(** What a change of counts at one entry must preserve. *)
Lemma catalogue_alter cnt cnt' cand cand' s f id :
  catalogue_ok cnt cand s →
  (∀ e, cs_mappings s !! id = Some e →
     (rc_catalog (f (me_references e)) ≤ 1)%N
     ∧ rc_dependents (f (me_references e)) = rc_dependents (me_references e)
     ∧ rc_contexts (f (me_references e)) = cnt' id
     ∧ (cand' ≠ Some id → owned (set_references f e))) →
  (cs_mappings s !! id = None → cnt' id = 0%N) →
  (∀ x, x ≠ id → cnt' x = cnt x ∧ (cand' ≠ Some x → cand ≠ Some x)) →
  catalogue_ok cnt' cand' (with_mappings (alter (set_references f) id) s).
Proof.
  intros [He Hc Hd Ho Hi Hdense] Hf Hnone Hother.
  split; unfold with_mappings; cbn [cs_mappings cs_prefix_index].
  - intros x e (e' & He' & Hm & Hr)%lookup_alter_refs. rewrite Hm.
    destruct (He x e' He') as (? & ? & ?). do 2 (split; [done|]). rewrite Hr.
    case_decide; [subst; by apply (Hf e')|done].
  - intros x. unfold contexts_at. rewrite lookup_alter.
    destruct (decide (id = x)) as [->|Hx].
    + destruct (cs_mappings s !! x) as [e|] eqn:Hx; cbn; [by apply (Hf e)|by rewrite Hnone].
    + destruct (Hother x) as [-> _]; [done|]. apply Hc.
  - intros x. rewrite dependent_count_alter, <- Hd. unfold dependents_at.
    rewrite lookup_alter. destruct (decide (id = x)) as [->|Hx]; [|done].
    destruct (cs_mappings s !! x) as [e|] eqn:Hx; cbn; [by apply (Hf e)|done].
  - intros x e (e' & He' & Hm & Hr)%lookup_alter_refs Hcand. unfold owned. rewrite Hr.
    destruct (decide (id = x)) as [->|Hx].
    + destruct (Hf e' He') as (_ & _ & _ & Hown). by apply Hown.
    + apply (Ho x e' He'). by apply Hother.
  - intros key n x. rewrite Hi. symmetry. apply index_alter.
  - done.
Qed.

End catalogue.

(** ** Reclamation preserves the catalogue *)

Section reclamation.
Context `{HS : Hasher}.
Implicit Types (s : ContextStore) (e : MappingEntry) (m : EvaluatedPrefix) (id : N)
  (ms : gmap N MappingEntry) (cnt : N → N).

(** One turn of the loop: [id] leaves, its parent loses a dependent. *)
Definition drop_mapping id e s : ContextStore :=
  let s1 := with_index (unindex (me_mapping e)) (with_mappings (delete id) s) in
  match ep_parent (me_mapping e) with
  | None => s1
  | Some parent => with_mappings (alter (set_references (add_dependents N.pred)) parent) s1
  end.

Lemma reclaim_loop_step fuel id s :
  reclaim_loop (S fuel) id s =
    match cs_mappings s !! id with
    | Some e =>
        if removable s id then
          match ep_parent (me_mapping e) with
          | None => drop_mapping id e s
          | Some parent => reclaim_loop fuel parent (drop_mapping id e s)
          end
        else s
    | None => s
    end.
Proof.
  cbn [reclaim_loop]. unfold removable, drop_mapping.
  destruct (cs_mappings s !! id) as [e|]; [|done].
  destruct (_ && _); [|done]. cbn [negb]. by destruct (ep_parent (me_mapping e)).
Qed.

Lemma removable_spec s id e :
  cs_mappings s !! id = Some e → removable s id = false ↔ owned e.
Proof.
  intros He. unfold removable, owned. rewrite He.
  rewrite !andb_false_iff, !bool_decide_eq_false. lia.
Qed.

Definition drop_refs (parent : option N) ms : gmap N MappingEntry :=
  match parent with
  | None => ms
  | Some p => alter (set_references (add_dependents N.pred)) p ms
  end.

Lemma drop_mapping_fields id e s :
  cs_mappings (drop_mapping id e s) = drop_refs (ep_parent (me_mapping e)) (delete id (cs_mappings s))
  ∧ cs_prefix_index (drop_mapping id e s) = unindex (me_mapping e) (cs_prefix_index s)
  ∧ cs_contexts (drop_mapping id e s) = cs_contexts s
  ∧ cs_next_context (drop_mapping id e s) = cs_next_context s.
Proof. unfold drop_mapping, drop_refs. by destruct (ep_parent (me_mapping e)). Qed.

Lemma drop_refs_lookup parent ms x e :
  drop_refs parent ms !! x = Some e →
  ∃ e', ms !! x = Some e' ∧ me_mapping e = me_mapping e'
        ∧ rc_catalog (me_references e) = rc_catalog (me_references e')
        ∧ rc_contexts (me_references e) = rc_contexts (me_references e')
        ∧ (parent ≠ Some x → me_references e = me_references e').
Proof.
  destruct parent as [p|]; cbn; [|naive_solver].
  intros (e' & He' & Hm & Hr)%lookup_alter_refs. exists e'. rewrite Hr.
  case_decide; naive_solver.
Qed.

Lemma drop_refs_lookup_None parent ms x : drop_refs parent ms !! x = None ↔ ms !! x = None.
Proof.
  destruct parent as [p|]; cbn; [|done]. rewrite lookup_alter.
  destruct (decide _) as [->|]; [|done]. apply fmap_None.
Qed.

Lemma drop_refs_back parent ms x e :
  ms !! x = Some e → ∃ e', drop_refs parent ms !! x = Some e' ∧ me_mapping e' = me_mapping e.
Proof.
  intros Hx. destruct parent as [p|]; cbn; [|eauto].
  eexists. split; [by apply alter_refs_lookup|]. by case_decide.
Qed.

Lemma dependents_drop parent ms x :
  dependents_at (drop_refs parent ms) x =
    (dependents_at ms x - one_if (parent = Some x))%N.
Proof.
  unfold dependents_at. destruct parent as [p|]; cbn.
  - rewrite lookup_alter. destruct (decide (p = x)) as [->|Hp].
    + rewrite one_if_true by done. destruct (ms !! x); cbn; lia.
    + rewrite one_if_false by congruence. lia.
  - rewrite one_if_false by done. lia.
Qed.

Lemma dependent_count_drop parent ms x :
  dependent_count (drop_refs parent ms) x = dependent_count ms x.
Proof. destruct parent; [apply dependent_count_alter|done]. Qed.

Lemma dependent_count_delete ms id e x :
  ms !! id = Some e →
  dependent_count ms x =
    (one_if (ep_parent (me_mapping e) = Some x) + dependent_count (delete id ms) x)%N.
Proof. apply (map_sum_delete (λ e, one_if (ep_parent (me_mapping e) = Some x))). Qed.

Lemma drop_mapping_ok cnt id e s :
  catalogue_ok cnt (Some id) s → cs_mappings s !! id = Some e → ¬ owned e →
  catalogue_ok cnt (ep_parent (me_mapping e)) (drop_mapping id e s).
Proof.
  intros [He Hc Hd Ho Hi Hdense] Hid Hown. unfold owned in Hown.
  destruct (drop_mapping_fields id e s) as (Hms & Hidx & _ & _).
  assert (∀ x, dependent_count (cs_mappings s) x =
    one_if (ep_parent (me_mapping e) = Some x) + dependent_count (delete id (cs_mappings s)) x)%N
    as Hdel by (intros x; by apply dependent_count_delete).
  assert (ep_parent (me_mapping e) ≠ Some id) as Hself.
  { intros Hp. specialize (Hd id). specialize (Hdel id). unfold dependents_at in Hd.
    rewrite Hid in Hd. cbn in Hd. rewrite one_if_true in Hdel by done. lia. }
  split; rewrite ?Hms, ?Hidx.
  - intros x e1 (e' & Hx & Hm & Hcat & _)%drop_refs_lookup.
    apply lookup_delete_Some in Hx as [_ Hx]. rewrite Hm, Hcat. by apply He.
  - intros x. rewrite <- Hc. unfold contexts_at.
    destruct (drop_refs _ _ !! x) as [e1|] eqn:Hx; cbn.
    + apply drop_refs_lookup in Hx as (e' & Hx & _ & _ & -> & _).
      apply lookup_delete_Some in Hx as [_ ->]. done.
    + apply drop_refs_lookup_None, lookup_delete_None in Hx as [<-| ->]; [|done].
      rewrite Hid. cbn. lia.
  - intros x. rewrite dependents_drop, dependent_count_drop.
    specialize (Hd x). specialize (Hdel x). unfold dependents_at in *.
    rewrite lookup_delete. destruct (decide (id = x)) as [<-|Hx]; cbn; [|lia].
    rewrite Hid in Hd. cbn in Hd. lia.
  - intros x e1 (e' & Hx & Hm & _ & _ & Hr)%drop_refs_lookup Hcand.
    apply lookup_delete_Some in Hx as [Hne Hx]. unfold owned. rewrite Hr by done.
    apply (Ho x e' Hx). congruence.
  - intros key n x. rewrite indexed_unindex by done.
    destruct (He id e Hid) as (Heid & _). split.
    + intros Hx. assert (x ∈ indexed (cs_prefix_index s) key n ∧ x ≠ id) as [Hin Hne].
      { destruct (decide (_ ∧ _)) as [[-> ->]|Hn].
        - apply list_elem_of_filter in Hx as [Hne Hx]. by rewrite Heid in Hne.
        - split; [done|]. intros ->. apply Hi in Hx as (e' & He' & Hk & Hn').
          rewrite Hid in He'. injection He' as <-. naive_solver. }
      apply Hi in Hin as (e' & He' & Hk & Hn).
      destruct (drop_refs_back (ep_parent (me_mapping e)) (delete id (cs_mappings s)) x e')
        as (e1 & He1 & Hm1); [by apply lookup_delete_Some|].
      exists e1. by rewrite Hm1.
    + intros (e1 & (e' & Hx & Hm & _)%drop_refs_lookup & Hk & Hn).
      apply lookup_delete_Some in Hx as [Hne Hx]. rewrite Hm in *.
      assert (x ∈ indexed (cs_prefix_index s) key n) as Hin by (apply Hi; eauto).
      destruct (decide (_ ∧ _)) as [_|]; [|done].
      apply list_elem_of_filter. by rewrite Heid.
  - by apply unindex_dense.
Qed.

Lemma catalogue_settle cnt id s :
  catalogue_ok cnt (Some id) s →
  (∀ e, cs_mappings s !! id = Some e → owned e) →
  catalogue_ok cnt None s.
Proof.
  intros [] Hown. split; try done. intros x e Hx _.
  destruct (decide (x = id)) as [->|]; [by apply Hown|naive_solver].
Qed.

(** What reclamation leaves of the store: a part of the catalogue, with every
    surviving entry unchanged but for its dependents. *)
Record shrinks s s' : Prop := {
  shrinks_contexts : cs_contexts s' = cs_contexts s;
  shrinks_next : cs_next_context s' = cs_next_context s;
  shrinks_entry : ∀ id e', cs_mappings s' !! id = Some e' →
    ∃ e, cs_mappings s !! id = Some e ∧ me_mapping e' = me_mapping e
         ∧ rc_catalog (me_references e') = rc_catalog (me_references e)
         ∧ rc_contexts (me_references e') = rc_contexts (me_references e);
  shrinks_kept : ∀ id e, cs_mappings s !! id = Some e →
    (0 < rc_catalog (me_references e) + rc_contexts (me_references e))%N →
    ∃ e', cs_mappings s' !! id = Some e' ∧ me_mapping e' = me_mapping e;
}.

Lemma shrinks_refl s : shrinks s s.
Proof. split; eauto. Qed.

Lemma drop_mapping_shrinks id e s :
  cs_mappings s !! id = Some e → ¬ owned e → shrinks s (drop_mapping id e s).
Proof.
  intros Hid Hown. destruct (drop_mapping_fields id e s) as (Hms & _ & Hcs & Hn).
  split; rewrite ?Hms; try done.
  - intros x e1 (e' & Hx & Hm & Hc & Hct & _)%drop_refs_lookup.
    apply lookup_delete_Some in Hx as [_ Hx]. eauto.
  - intros x e1 Hx Hpos. apply drop_refs_back. apply lookup_delete_Some. split; [|done].
    intros <-. rewrite Hid in Hx. injection Hx as <-. unfold owned in Hown. lia.
Qed.

Lemma shrinks_trans s1 s2 s3 : shrinks s1 s2 → shrinks s2 s3 → shrinks s1 s3.
Proof.
  intros [Hc1 Hn1 He1 Hk1] [Hc2 Hn2 He2 Hk2]. split; [congruence|congruence|..].
  - intros id e3 (e2 & H2 & -> & -> & ->)%He2. by apply He1.
  - intros id e1 H1 Hpos. destruct (Hk1 id e1 H1 Hpos) as (e2 & H2 & Hm).
    destruct (He1 id e2 H2) as (e1' & H1' & _ & Hcat & Hct).
    rewrite H1 in H1'. injection H1' as <-.
    rewrite <- Hm. apply Hk2; [done|lia].
Qed.

Lemma drop_mapping_size id e s :
  cs_mappings s !! id = Some e →
  S (size (cs_mappings (drop_mapping id e s))) = size (cs_mappings s).
Proof.
  intros Hid. destruct (drop_mapping_fields id e s) as (-> & _).
  assert (∀ ms, size (drop_refs (ep_parent (me_mapping e)) ms) = size ms) as ->.
  { intros ms. unfold drop_refs. destruct (ep_parent _) as [p|]; [|done].
    rewrite <- !size_dom. by rewrite dom_alter_L. }
  rewrite map_size_delete_Some by (by exists e).
  assert (size (cs_mappings s) ≠ 0) as Hsz; [|lia].
  intros Hz%map_size_empty_iff. rewrite Hz, lookup_empty in Hid. done.
Qed.

Lemma reclaim_loop_ok cnt fuel id s :
  catalogue_ok cnt (Some id) s → size (cs_mappings s) ≤ fuel →
  catalogue_ok cnt None (reclaim_loop fuel id s) ∧ shrinks s (reclaim_loop fuel id s).
Proof.
  revert id s. induction fuel as [|fuel IH]; intros id s Hok Hfuel.
  { split; [|apply shrinks_refl]. cbn. eapply catalogue_settle; [done|]. intros e He.
    assert (size (cs_mappings s) = 0) as Hz%map_size_empty_iff by lia.
    by rewrite Hz, lookup_empty in He. }
  rewrite reclaim_loop_step. destruct (cs_mappings s !! id) as [e|] eqn:Hid.
  2:{ split; [|apply shrinks_refl]. eapply catalogue_settle; [done|]. congruence. }
  destruct (removable s id) eqn:Hr.
  2:{ split; [|apply shrinks_refl]. eapply catalogue_settle; [done|].
      intros e' He'. rewrite Hid in He'. injection He' as <-. by eapply removable_spec. }
  assert (¬ owned e) as Hown by (rewrite <- (removable_spec s id e Hid); congruence).
  pose proof (drop_mapping_ok cnt id e s Hok Hid Hown) as Hok'.
  pose proof (drop_mapping_shrinks id e s Hid Hown) as Hsh.
  pose proof (drop_mapping_size id e s Hid) as Hsz.
  destruct (ep_parent (me_mapping e)) as [p|].
  - destruct (IH p _ Hok') as [? Hsh']; [lia|]. split; [done|]. by eapply shrinks_trans.
  - done.
Qed.

Lemma reclaim_ok cnt id s :
  catalogue_ok cnt (Some id) s →
  catalogue_ok cnt None (reclaim id s) ∧ shrinks s (reclaim id s).
Proof. intros Hok. by apply reclaim_loop_ok. Qed.

End reclamation.

(** ** The store invariant *)

Section invariant.
Context `{HS : Hasher} {HL : HasherLaws HS}.
Variable ptr_eq : SequenceChunk → SequenceChunk → bool.
Implicit Types (s : ContextStore) (e : MappingEntry) (m : EvaluatedPrefix) (id : N)
  (ms : gmap N MappingEntry) (cnt : N → N) (c : LogicalContext).

Record store_ok s : Prop := {
  st_context : ∀ id c, cs_contexts s !! id = Some c →
    lc_id c = id ∧ (id < cs_next_context s)%N ∧ sequence_ok (lc_tokens c);
  st_catalogue : catalogue_ok (context_count (cs_contexts s)) None s;
}.

Lemma catalogue_ext cnt cnt' cand s s' :
  catalogue_ok cnt cand s →
  cs_mappings s' = cs_mappings s → cs_prefix_index s' = cs_prefix_index s →
  (∀ x, cnt' x = cnt x) → catalogue_ok cnt' cand s'.
Proof.
  intros [He Hc Hd Ho Hi Hdense] Hms Hidx Hcnt.
  split; rewrite ?Hms, ?Hidx; try done. intros x. rewrite Hcnt. apply Hc.
Qed.

Lemma context_count_insert (cs : gmap N LogicalContext) id c c' x :
  cs !! id = Some c →
  (context_count (<[id:=c']> cs) x + one_if (lc_evaluated c = Some x)
   = one_if (lc_evaluated c' = Some x) + context_count cs x)%N.
Proof. apply (map_sum_insert_Some (λ c, one_if (lc_evaluated c = Some x))). Qed.

Lemma context_count_delete (cs : gmap N LogicalContext) id c x :
  cs !! id = Some c →
  context_count cs x =
    (one_if (lc_evaluated c = Some x) + context_count (delete id cs) x)%N.
Proof. apply (map_sum_delete (λ c, one_if (lc_evaluated c = Some x))). Qed.

Lemma evaluated_catalogued s cid c id :
  catalogue_ok (context_count (cs_contexts s)) None s →
  cs_contexts s !! cid = Some c → lc_evaluated c = Some id →
  ∃ e, cs_mappings s !! id = Some e ∧ (0 < rc_contexts (me_references e))%N.
Proof.
  intros Hcat Hc Hev. pose proof (cat_contexts _ _ _ Hcat id) as Hat.
  rewrite (context_count_delete _ cid c) in Hat by done.
  rewrite one_if_true in Hat by done. unfold contexts_at in Hat.
  destruct (cs_mappings s !! id) as [e|]; cbn in Hat; [|lia]. exists e. split; [done|lia].
Qed.

Lemma adjust_incr_ok cnt id s :
  catalogue_ok cnt None s → is_Some (cs_mappings s !! id) →
  catalogue_ok (λ x, cnt x + one_if (x = id))%N None (adjust_context_refs id true s).
Proof.
  intros Hok [e He]. unfold adjust_context_refs. rewrite He.
  eapply catalogue_alter; [exact Hok|..].
  - intros e' He'. rewrite He in He'. injection He' as <-. cbn.
    destruct (cat_entry _ _ _ Hok id e He) as (_ & _ & ?).
    pose proof (cat_contexts _ _ _ Hok id) as Hc. unfold contexts_at in Hc. rewrite He in Hc.
    cbn in Hc. rewrite one_if_true by done. repeat split; [done|lia|].
    unfold owned. cbn. lia.
  - congruence.
  - intros x Hx. rewrite one_if_false by done. split; [lia|done].
Qed.

Lemma adjust_decr_ok cnt id s :
  catalogue_ok cnt None s → is_Some (cs_mappings s !! id) →
  catalogue_ok (λ x, cnt x - one_if (x = id))%N None (adjust_context_refs id false s)
  ∧ shrinks (with_mappings (alter (set_references (add_contexts N.pred)) id) s)
      (adjust_context_refs id false s).
Proof.
  intros Hok [e He]. unfold adjust_context_refs. rewrite He. apply reclaim_ok.
  eapply catalogue_alter; [exact Hok|..].
  - intros e' He'. rewrite He in He'. injection He' as <-. cbn.
    destruct (cat_entry _ _ _ Hok id e He) as (_ & _ & ?).
    pose proof (cat_contexts _ _ _ Hok id) as Hc. unfold contexts_at in Hc. rewrite He in Hc.
    cbn in Hc. rewrite one_if_true by done. repeat split; [done|lia|done].
  - congruence.
  - intros x Hx. rewrite one_if_false by done. split; [lia|done].
Qed.

(** Cataloguing a new mapping. *)
Definition bump_refs (parent : option N) ms : gmap N MappingEntry :=
  match parent with
  | None => ms
  | Some p => alter (set_references (add_dependents N.succ)) p ms
  end.

Lemma bump_refs_lookup parent ms x e :
  bump_refs parent ms !! x = Some e →
  ∃ e', ms !! x = Some e' ∧ me_mapping e = me_mapping e'
        ∧ rc_catalog (me_references e) = rc_catalog (me_references e')
        ∧ rc_contexts (me_references e) = rc_contexts (me_references e')
        ∧ (owned e' → owned e).
Proof.
  destruct parent as [p|]; cbn; [|naive_solver].
  intros (e' & He' & Hm & Hr)%lookup_alter_refs. exists e'. unfold owned. rewrite Hr.
  case_decide; cbn; [|naive_solver]. repeat split; try done. lia.
Qed.

Lemma bump_refs_back parent ms x e :
  ms !! x = Some e → ∃ e', bump_refs parent ms !! x = Some e' ∧ me_mapping e' = me_mapping e.
Proof.
  intros Hx. destruct parent as [p|]; cbn; [|eauto].
  eexists. split; [by apply alter_refs_lookup|]. by case_decide.
Qed.

Lemma bump_refs_None parent ms x : bump_refs parent ms !! x = None ↔ ms !! x = None.
Proof.
  destruct parent as [p|]; cbn; [|done]. rewrite lookup_alter.
  destruct (decide _) as [->|]; [|done]. apply fmap_None.
Qed.

Definition catalogued s m : ContextStore :=
  with_mappings (insert (ep_id m) (mkMappingEntry m (mkReferenceCounts 1 0 0)))
    (with_index (index_push m) (with_mappings (bump_refs (ep_parent m)) s)).

Lemma dependent_count_catalogued s m x :
  cs_mappings s !! ep_id m = None →
  dependent_count (cs_mappings (catalogued s m)) x =
    (one_if (ep_parent m = Some x) + dependent_count (cs_mappings s) x)%N.
Proof.
  intros Hnone. unfold catalogued, dependent_count. cbn.
  rewrite map_sum_insert_None by (by apply bump_refs_None). cbn. f_equal.
  destruct (ep_parent m); [apply dependent_count_alter|done].
Qed.

Lemma catalogued_ok cnt s m :
  catalogue_ok cnt None s → mapping_ok m → cs_mappings s !! ep_id m = None →
  (∀ p, ep_parent m = Some p → is_Some (cs_mappings s !! p)) →
  catalogue_ok cnt None (catalogued s m).
Proof.
  intros [He Hc Hd Ho Hi Hdense] Hm Hnone Hparent.
  pose proof (λ x, dependent_count_catalogued s m x Hnone) as Hdep.
  assert (∀ x, x ≠ ep_id m → cs_mappings (catalogued s m) !! x
                             = bump_refs (ep_parent m) (cs_mappings s) !! x) as Hne
    by (intros x Hx; by apply lookup_insert_ne).
  assert (cs_mappings (catalogued s m) !! ep_id m
          = Some (mkMappingEntry m (mkReferenceCounts 1 0 0))) as Heq by apply lookup_insert_eq.
  split.
  - intros x e Hx. destruct (decide (x = ep_id m)) as [->|Hx'].
    + rewrite Heq in Hx. injection Hx as <-. cbn. done.
    + rewrite Hne in Hx by done. apply bump_refs_lookup in Hx as (e' & Hx & -> & -> & _).
      by apply He.
  - intros x. rewrite <- Hc. unfold contexts_at. destruct (decide (x = ep_id m)) as [->|Hx'].
    + by rewrite Heq, Hnone.
    + rewrite Hne by done. destruct (bump_refs _ _ !! x) as [e|] eqn:Hx.
      * apply bump_refs_lookup in Hx as (e' & -> & _ & _ & Hr & _). done.
      * apply bump_refs_None in Hx. by rewrite Hx.
  - intros x. rewrite Hdep, <- Hd. unfold dependents_at.
    destruct (decide (x = ep_id m)) as [->|Hx'].
    + rewrite Heq, Hnone. cbn. rewrite one_if_false; [done|].
      intros Hp. destruct (Hparent _ Hp) as [? Hs]. congruence.
    + rewrite Hne by done. destruct (ep_parent m) as [p|] eqn:Hp; cbn.
      * rewrite lookup_alter. destruct (decide (p = x)) as [->|Hpx].
        -- destruct (Hparent x eq_refl) as [e ->]. rewrite one_if_true by done. cbn. lia.
        -- rewrite one_if_false by congruence. lia.
      * rewrite one_if_false by done. lia.
  - intros x e Hx _. destruct (decide (x = ep_id m)) as [->|Hx'].
    + rewrite Heq in Hx. injection Hx as <-. unfold owned. cbn. lia.
    + rewrite Hne in Hx by done. apply bump_refs_lookup in Hx as (e' & Hx & _ & _ & _ & Hr).
      apply Hr. by eapply Ho.
  - intros key n x. unfold catalogued. cbn [cs_prefix_index with_mappings with_index].
    rewrite indexed_push. split.
    + intros [Hx|Hx]%elem_of_app.
      * apply Hi in Hx as (e & Hx & Hk & Hn).
        destruct (bump_refs_back (ep_parent m) _ x e Hx) as (e' & He' & Hm').
        exists e'. rewrite Hm', <- He'. split; [|done]. apply lookup_insert_ne. congruence.
      * destruct (decide _) as [[-> ->]|]; [|set_solver].
        apply list_elem_of_singleton in Hx as ->. exists (mkMappingEntry m (mkReferenceCounts 1 0 0)).
        split; [apply lookup_insert_eq|done].
    + intros (e & Hx & Hk & Hn). apply elem_of_app. destruct (decide (x = ep_id m)) as [->|Hx'].
      * right. change (_ !! _) with (cs_mappings (catalogued s m) !! ep_id m) in Hx.
        rewrite Heq in Hx. injection Hx as <-. rewrite decide_True by done. by left.
      * left. change (_ !! _) with (cs_mappings (catalogued s m) !! x) in Hx.
        rewrite Hne in Hx by done. apply bump_refs_lookup in Hx as (e' & Hx & Hm' & _).
        rewrite Hm' in *. apply Hi. eauto.
  - by apply index_push_dense.
Qed.

End invariant.
