(* ===== verification/ContextLaws.v ===== *)
(** Laws of the context store: every public operation keeps the store
    invariant, a publication commits all-or-nothing, and the
    longest-valid-prefix lookup is sound and maximal. *)

From stdpp Require Import gmap strings list numbers.
From S2P Require Import Prelude.
From S2P Require Import TokenSequence.
From S2P Require Import ContextStore.

Section laws.
Context `{HS : Hasher} {HL : HasherLaws HS}.
Context (ptr_eq : SequenceChunk → SequenceChunk → bool).
Hypothesis ptr_eq_sound : ∀ a b, ptr_eq a b = true → a = b.
Implicit Types (s : ContextStore) (e : MappingEntry) (m : EvaluatedPrefix) (id : N)
  (c : LogicalContext) (p : PreparedPublication).

(** ** Operations on contexts *)

Lemma drop_mapping_contexts id e s :
  cs_contexts (drop_mapping id e s) = cs_contexts s
  ∧ cs_next_context (drop_mapping id e s) = cs_next_context s.
Proof. apply drop_mapping_fields. Qed.

Lemma reclaim_contexts fuel id s :
  cs_contexts (reclaim_loop fuel id s) = cs_contexts s
  ∧ cs_next_context (reclaim_loop fuel id s) = cs_next_context s.
Proof.
  revert id s. induction fuel as [|fuel IH]; intros id s; [done|].
  rewrite reclaim_loop_step. destruct (cs_mappings s !! id) as [e|]; [|done].
  destruct (removable s id); [|done].
  destruct (drop_mapping_contexts id e s) as [<- <-].
  destruct (ep_parent _); [apply IH|done].
Qed.

(** Reference counts live in the catalogue only. *)
Lemma adjust_contexts id b s :
  cs_contexts (adjust_context_refs id b s) = cs_contexts s
  ∧ cs_next_context (adjust_context_refs id b s) = cs_next_context s.
Proof.
  unfold adjust_context_refs. destruct (cs_mappings s !! id); [|done].
  destruct b; [done|]. unfold reclaim. by rewrite !(proj1 (reclaim_contexts _ _ _)),
    !(proj2 (reclaim_contexts _ _ _)).
Qed.

(** A context whose evaluated mapping is unchanged may be replaced. *)
Lemma replace_context_ok s id c c' :
  store_ok s → cs_contexts s !! id = Some c →
  lc_id c' = id → sequence_ok (lc_tokens c') → lc_evaluated c' = lc_evaluated c →
  store_ok (with_contexts (insert id c') s).
Proof.
  intros [Hctx Hcat] Hc Hid Hseq Hev. split; cbn.
  - intros id' c'' Hin. destruct (decide (id = id')) as [<-|Hne].
    + rewrite lookup_insert_eq in Hin. injection Hin as <-.
      destruct (Hctx id c Hc) as (_ & ? & _). by rewrite Hid.
    + rewrite lookup_insert_ne in Hin by done. by apply Hctx.
  - eapply catalogue_ext; [exact Hcat|done|done|]. intros x.
    pose proof (context_count_insert (cs_contexts s) id c c' x Hc) as Hx.
    rewrite Hev in Hx. cbn. lia.
Qed.

(** Dropping the reference a context held, once it is out of the context table. *)
Lemma release_context_ref_ok s0 s id c (m : N) :
  store_ok s0 → cs_contexts s0 !! id = Some c → lc_evaluated c = Some m →
  cs_mappings s = cs_mappings s0 → cs_prefix_index s = cs_prefix_index s0 →
  cs_next_context s = cs_next_context s0 →
  (∀ id' c', cs_contexts s !! id' = Some c' →
     lc_id c' = id' ∧ (id' < cs_next_context s)%N ∧ sequence_ok (lc_tokens c')) →
  (∀ x, context_count (cs_contexts s) x + one_if (Some m = Some x)
        = context_count (cs_contexts s0) x)%N →
  store_ok (adjust_context_refs m false s).
Proof.
  intros [Hctx Hcat] Hc Hev Hms Hidx Hn Hctx' Hcnt.
  destruct (evaluated_catalogued s0 id c m Hcat Hc Hev) as (e & He & _).
  assert (catalogue_ok (context_count (cs_contexts s0)) None s) as Hcat' by
    (by eapply catalogue_ext).
  destruct (adjust_decr_ok _ m s Hcat') as [Hok Hsh]; [rewrite Hms; eauto|].
  pose proof (shrinks_contexts _ _ Hsh) as Hcs. cbn in Hcs.
  pose proof (shrinks_next _ _ Hsh) as Hnx. cbn in Hnx.
  split; rewrite Hcs, ?Hnx; [done|]. eapply catalogue_ext; [exact Hok|done|done|].
  intros x. cbn. rewrite <- Hcnt.
  assert (one_if (Some m = Some x) = one_if (x = m)) as ->; [|lia].
  unfold one_if. repeat case_decide; naive_solver.
Qed.

Lemma create_ok s tokens model adapter :
  store_ok s → sequence_ok tokens → (cs_next_context s < u64_max)%N →
  wp (create tokens model adapter)
     (λ id s', store_ok s' ∧ id = cs_next_context s
        ∧ cs_next_context s' = (cs_next_context s + 1)%N
        ∧ cs_contexts s !! id = None
        ∧ cs_contexts s' =
            <[id := mkLogicalContext id tokens model adapter None 0]> (cs_contexts s)
        ∧ cs_mappings s' = cs_mappings s)
     (λ _ _, False) s.
Proof.
  intros [Hctx Hcat] Hseq Hn. unfold create. wp_run.
  assert (wrapping_add (cs_next_context s) 1 = cs_next_context s + 1)%N as Hw.
  { unfold wrapping_add. apply N.mod_small. lia. }
  assert (cs_contexts s !! cs_next_context s = None) as Hnone.
  { destruct (cs_contexts s !! _) as [c|] eqn:Hc; [|done].
    destruct (Hctx _ c Hc) as (_ & ? & _). lia. }
  rewrite Hw. split; [|done]. split; cbn.
  - intros id c Hc. rewrite lookup_insert in Hc.
    destruct (decide _) as [<-|]; [injection Hc as <-; cbn; repeat split; [lia|done]|].
    destruct (Hctx id c Hc) as (? & ? & ?). repeat split; [done|lia|done].
  - eapply catalogue_ext; [exact Hcat|done|done|]. intros x. cbn.
    unfold context_count. rewrite map_sum_insert_None by done. cbn.
    by rewrite one_if_false.
Qed.

Lemma branch_ok s source at_ :
  store_ok s → (cs_next_context s < u64_max)%N →
  wp (branch source at_)
     (λ id s', store_ok s' ∧ cs_contexts s !! id = None
        ∧ ∃ c t, cs_contexts s !! source = Some c ∧ prefix (lc_tokens c) at_ = Some t
          ∧ cs_contexts s' = <[id := mkLogicalContext id t (lc_model_epoch c)
                                 (lc_adapter_epoch c) None 0]> (cs_contexts s)
          ∧ cs_mappings s' = cs_mappings s)
     (λ err s', s' = s ∧
        match err with
        | ContextNotFound => cs_contexts s !! source = None
        | PrefixOutOfBounds =>
            ∃ c, cs_contexts s !! source = Some c ∧ seq_len (lc_tokens c) < at_
        | _ => False
        end) s.
Proof.
  intros Hok Hn. unfold branch. wp_run.
  destruct (cs_contexts s !! source) as [c|] eqn:Hc; [|done]. wp_run.
  destruct (st_context _ Hok source c Hc) as (_ & _ & Hseq).
  destruct (prefix (lc_tokens c) at_) as [t|] eqn:Ht.
  - eapply wp_mono; [apply create_ok; [done| |done]|..]; [|naive_solver|done].
    by apply (prefix_ok _ _ _ Hseq Ht).
  - split; [done|]. exists c. split; [done|].
    unfold prefix in Ht. destruct (Nat.ltb_spec (seq_len (lc_tokens c)) at_); [done|].
    by destruct (seq_tail _).
Qed.

Lemma append_context_ok s id l :
  store_ok s →
  wlp (append_context id l)
     (λ _ s', store_ok s' ∧ cs_mappings s' = cs_mappings s
        ∧ ∃ c c', cs_contexts s !! id = Some c
          ∧ cs_contexts s' = <[id := c']> (cs_contexts s)
          ∧ tokens (lc_tokens c') = tokens (lc_tokens c) ++ l
          ∧ lc_evaluated c' = lc_evaluated c
          ∧ lc_revision c' = (lc_revision c + if decide (l = []) then 0 else 1)%N)
     (λ err s', s' = s ∧ err = ContextNotFound ∧ cs_contexts s !! id = None) s.
Proof.
  intros Hok. unfold append_context. wp_run.
  destruct (cs_contexts s !! id) as [c|] eqn:Hc; [|done].
  destruct (st_context _ Hok id c Hc) as (Hid & _ & Hseq).
  destruct l as [|t l]; wp_run.
  - split; [done|]. split; [done|]. exists c, c. rewrite app_nil_r, insert_id by done.
    rewrite decide_True by done. repeat split; try done. lia.
  - unfold checked_add. destruct (decide _) as [Hr|]; [|done]. wp_run.
    destruct (append_ok (lc_tokens c) (t :: l) Hseq) as [Hs' Hv].
    split; [|split; [done|]].
    + by eapply replace_context_ok.
    + eexists c, _. split; [done|]. split; [done|]. cbn [lc_tokens lc_evaluated lc_revision].
      by rewrite !tokens_view, decide_False.
Qed.

Lemma remove_context_ok s id :
  store_ok s →
  wp (remove_context id)
     (λ _ s', store_ok s' ∧ cs_contexts s' = delete id (cs_contexts s)
        ∧ is_Some (cs_contexts s !! id))
     (λ err s', s' = s ∧ err = ContextNotFound ∧ cs_contexts s !! id = None) s.
Proof.
  intros Hok. unfold remove_context. wp_run.
  destruct (cs_contexts s !! id) as [c|] eqn:Hc; [|done]. wp_run.
  pose proof (λ x, context_count_delete (cs_contexts s) id c x Hc) as Hdel.
  assert (∀ id' c', delete id (cs_contexts s) !! id' = Some c' →
    lc_id c' = id' ∧ (id' < cs_next_context s)%N ∧ sequence_ok (lc_tokens c')) as Hctx.
  { intros id' c' [_ Hc']%lookup_delete_Some. by apply (st_context _ Hok). }
  destruct (lc_evaluated c) as [m|] eqn:Hev; wp_run.
  - split.
    + eapply release_context_ref_ok; [exact Hok|exact Hc|exact Hev|done..|].
      intros x. rewrite (Hdel x). cbn. lia.
    + by rewrite (proj1 (adjust_contexts _ _ _)).
  - split; [|split; [done|by exists c]]. split; [done|].
    eapply catalogue_ext; [apply Hok|done|done|]. intros x. cbn. rewrite (Hdel x).
    rewrite one_if_false by done. lia.
Qed.

Lemma set_epochs_ok s id model adapter :
  store_ok s →
  wlp (set_epochs id model adapter)
     (λ _ s', store_ok s'
        ∧ ∃ c c', cs_contexts s !! id = Some c
          ∧ cs_contexts s' = <[id := c']> (cs_contexts s)
          ∧ lc_tokens c' = lc_tokens c
          ∧ lc_model_epoch c' = model ∧ lc_adapter_epoch c' = adapter
          ∧ (c' = c ∨ lc_evaluated c' = None ∧ lc_revision c' = (lc_revision c + 1)%N))
     (λ err s', s' = s ∧ err = ContextNotFound ∧ cs_contexts s !! id = None) s.
Proof.
  intros Hok. unfold set_epochs. wp_run.
  destruct (cs_contexts s !! id) as [c|] eqn:Hc; [|done].
  destruct (st_context _ Hok id c Hc) as (Hid & Hlt & Hseq).
  wp_case Hsame; wp_run.
  - apply andb_true_iff in Hsame as [<-%bool_decide_eq_true <-%bool_decide_eq_true].
    split; [done|]. exists c, c. rewrite insert_id by done. eauto 10.
  - unfold checked_add. destruct (decide _) as [Hr|]; [|done]. wp_run.
    set (c' := mkLogicalContext _ _ _ _ _ _).
    pose proof (λ x, context_count_insert (cs_contexts s) id c c' x Hc) as Hcnt.
    assert (∀ id' c0, <[id:=c']> (cs_contexts s) !! id' = Some c0 →
      lc_id c0 = id' ∧ (id' < cs_next_context s)%N ∧ sequence_ok (lc_tokens c0)) as Hctx.
    { intros id' c0 Hin. rewrite lookup_insert in Hin.
      destruct (decide _) as [<-|]; [by injection Hin as <-|by apply (st_context _ Hok)]. }
    destruct (lc_evaluated c) as [m|] eqn:Hev; wp_run.
    + split.
      * eapply release_context_ref_ok; [exact Hok|exact Hc|exact Hev|done..|].
        intros x. specialize (Hcnt x). rewrite (one_if_false (lc_evaluated c' = _)) in Hcnt by done.
        cbn. lia.
      * rewrite (proj1 (adjust_contexts _ _ _)). exists c, c'. repeat split; try done. by right.
    + split; [|exists c, c'; repeat split; try done; by right]. split; [done|].
      eapply catalogue_ext; [apply Hok|done|done|]. intros x. specialize (Hcnt x).
      rewrite !one_if_false in Hcnt by done. cbn. lia.
Qed.

Lemma release_mapping_ok s id :
  store_ok s →
  wp (release_mapping id)
     (λ _ s', store_ok s' ∧ cs_contexts s' = cs_contexts s
        ∧ ∀ x e, cs_mappings s !! x = Some e → x ≠ id →
            (0 < rc_catalog (me_references e) + rc_contexts (me_references e))%N →
            ∃ e', cs_mappings s' !! x = Some e' ∧ me_mapping e' = me_mapping e)
     (λ err s', s' = s ∧ err = MappingNotFound ∧ cs_mappings s !! id = None) s.
Proof.
  intros [Hctx Hcat]. unfold release_mapping. wp_run.
  destruct (cs_mappings s !! id) as [e|] eqn:He; [|done]. wp_run.
  assert (catalogue_ok (context_count (cs_contexts s)) (Some id)
    (with_mappings (alter (set_references (add_catalog N.pred)) id) s)) as Hmid.
  { eapply catalogue_alter; [exact Hcat|..].
    - intros e' He'. rewrite He in He'. injection He' as <-. cbn.
      destruct (cat_entry _ _ _ Hcat id e He) as (_ & _ & ?).
      pose proof (cat_contexts _ _ _ Hcat id) as Hc. unfold contexts_at in Hc.
      rewrite He in Hc. repeat split; [lia|done|done].
    - congruence.
    - intros x Hx. split; [done|]. naive_solver. }
  destruct (reclaim_ok _ id _ Hmid) as [Hok Hsh].
  pose proof (shrinks_contexts _ _ Hsh) as Hcs. cbn in Hcs.
  pose proof (shrinks_next _ _ Hsh) as Hnx. cbn in Hnx.
  split; [|split; [done|]].
  - split; rewrite Hcs, ?Hnx; done.
  - intros x e' Hx Hne Hpos. apply (shrinks_kept _ _ Hsh x e'); [|done].
    cbn. by rewrite lookup_alter_ne.
Qed.

(** ** Publication *)

Definition prepared_ok p : Prop := mapping_ok (pp_mapping p).

Lemma prefix_matches_view c m :
  sequence_ok (lc_tokens c) → sequence_ok (ep_sequence m) →
  prefix_matches ptr_eq c m = true ↔
  ep_represented_end m ≤ length (view (lc_tokens c))
  ∧ view (ep_sequence m) = take (ep_represented_end m) (view (lc_tokens c)).
Proof.
  intros Hc Hm. unfold prefix_matches.
  destruct (prefix (lc_tokens c) (ep_represented_end m)) as [t|] eqn:Ht.
  - destruct (prefix_ok _ _ _ Hc Ht) as [Htok Hv].
    rewrite seq_eq_ok, bool_decide_eq_true, Hv by done.
    split; [|naive_solver]. intros <-. split; [|done].
    destruct (decide (ep_represented_end m ≤ length (view (lc_tokens c)))); [done|].
    rewrite prefix_none in Ht by (try done; lia). done.
  - split; [done|]. intros [Hle _].
    destruct (prefix_some _ _ Hc Hle) as [? ?]. congruence.
Qed.

Lemma prepare_ok s id end_ parent required complete parameters :
  store_ok s →
  wp (prepare_publication ptr_eq id end_ parent required complete parameters)
     (λ p s', s' = s ∧ prepared_ok p ∧ pp_context p = id
        ∧ ∃ c, cs_contexts s !! id = Some c
          ∧ pp_expected_revision p = lc_revision c ∧ pp_expected_current p = lc_evaluated c
          ∧ ep_represented_end (pp_mapping p) = end_ ∧ ep_parent (pp_mapping p) = parent
          ∧ ep_model_epoch (pp_mapping p) = lc_model_epoch c
          ∧ ep_adapter_epoch (pp_mapping p) = lc_adapter_epoch c
          ∧ prefix_matches ptr_eq c (pp_mapping p) = true
          ∧ (∀ q, parent = Some q → is_Some (cs_mappings s !! q)))
     (λ err s', s' = s ∧
        match err with
        | ContextNotFound => cs_contexts s !! id = None
        | PrefixOutOfBounds => ∃ c, cs_contexts s !! id = Some c ∧ seq_len (lc_tokens c) < end_
        | IncompleteComponents => ComponentMask.contains complete required = false
        | InvalidDependency => is_Some parent
        | _ => False
        end) s.
Proof.
  intros Hok. unfold prepare_publication. wp_run.
  destruct (cs_contexts s !! id) as [c|] eqn:Hc; [|done]. wp_run.
  destruct (st_context _ Hok id c Hc) as (_ & _ & Hseq).
  destruct (Nat.ltb_spec (seq_len (lc_tokens c)) end_) as [Hlt|Hle]; [eauto|].
  destruct (ComponentMask.contains complete required) eqn:Hcomp; cbn [negb]; [|done].
  destruct (prefix_some (lc_tokens c) end_ Hseq) as [t Ht]; [by rewrite view_length|].
  destruct (prefix_ok _ _ _ Hseq Ht) as [Htok Hv]. rewrite Ht. wp_run.
  assert (∀ lineage, let p := mkPreparedPublication id (lc_revision c) (lc_evaluated c)
    (mkEvaluatedPrefix (mapping_id (lc_model_epoch c) (lc_adapter_epoch c) parent (seq_id t)
       end_ required parameters lineage) (seq_id t) end_ (lc_model_epoch c) (lc_adapter_epoch c)
       parent lineage required complete parameters t) in
    prepared_ok p ∧ prefix_matches ptr_eq c (pp_mapping p) = true) as Hp.
  { intros lineage. cbn. split.
    - repeat split; cbn; [done| |done]. rewrite <- view_length by done.
      rewrite Hv, length_take, view_length by done. lia.
    - apply prefix_matches_view; [done|done|]. cbn. split; [by rewrite view_length|done]. }
  destruct parent as [q|]; wp_run.
  - destruct (cs_mappings s !! q) as [e|] eqn:Hq; [|by eauto]. wp_run.
    wp_case Hbad; [by eauto|]. cbn. specialize (Hp (dependency_hash
      (ep_lineage (me_mapping e)) (seq_id t) end_)). destruct Hp as [Hp1 Hp2].
    split; [done|]. split; [exact Hp1|]. split; [done|]. exists c.
    repeat split; try done. intros ? [= <-]. eauto.
  - specialize (Hp (dependency_hash 0 (seq_id t) end_)). destruct Hp as [Hp1 Hp2].
    split; [done|]. split; [exact Hp1|]. split; [done|]. exists c.
    by repeat split.
Qed.

(** [catalogue] inserts the entry; it cannot fail once the publication is valid. *)
Lemma catalogue_run s m :
  (cs_mappings s !! ep_id m = None →
   ∀ q, ep_parent m = Some q → is_Some (cs_mappings s !! q)) →
  catalogue m s =
    Done tt (if decide (cs_mappings s !! ep_id m = None) then catalogued s m else s).
Proof.
  intros Hpar. unfold catalogue, get, mbind, M_bind, mret, M_ret.
  destruct (cs_mappings s !! ep_id m) as [e|]; [done|]. rewrite decide_True by done.
  destruct (ep_parent m) as [q|] eqn:Hq; unfold catalogued; rewrite Hq; [|done].
  destruct (Hpar eq_refl q eq_refl) as [e ->]. done.
Qed.

Lemma validate_ok p s :
  validate_publication ptr_eq p s = Ok tt →
  ∃ c, cs_contexts s !! pp_context p = Some c
    ∧ lc_evaluated c = pp_expected_current p ∧ lc_revision c = pp_expected_revision p
    ∧ lc_model_epoch c = ep_model_epoch (pp_mapping p)
    ∧ lc_adapter_epoch c = ep_adapter_epoch (pp_mapping p)
    ∧ prefix_matches ptr_eq c (pp_mapping p) = true
    ∧ (∀ e, cs_mappings s !! ep_id (pp_mapping p) = Some e →
         mapping_eq ptr_eq (me_mapping e) (pp_mapping p) = true)
    ∧ (cs_mappings s !! ep_id (pp_mapping p) = None →
       ∀ q, ep_parent (pp_mapping p) = Some q → is_Some (cs_mappings s !! q)).
Proof.
  unfold validate_publication. destruct (cs_contexts s !! pp_context p) as [c|]; [|done].
  destruct (negb _ || negb _) eqn:H1; [done|].
  destruct (negb _ || negb _) eqn:H2 in |- *; [done|].
  destruct (negb _) eqn:H3 in |- *; [done|].
  rewrite !orb_false_iff, !negb_false_iff, !bool_decide_eq_true in H1, H2.
  apply negb_false_iff in H3. intros Hv. exists c. repeat split; try tauto.
  - intros e He. rewrite He in Hv. by destruct (mapping_eq _ _ _).
  - intros Hn q Hq. rewrite Hn, Hq in Hv. case_bool_decide; [done|].
    by apply not_eq_None_Some.
Qed.

Lemma mapping_eq_view a b :
  mapping_ok a → mapping_ok b → mapping_eq ptr_eq a b = true →
  view (ep_sequence a) = view (ep_sequence b)
  ∧ ep_represented_end a = ep_represented_end b ∧ ep_id a = ep_id b.
Proof.
  intros (Ha & _) (Hb & _). unfold mapping_eq.
  rewrite !andb_true_iff, !bool_decide_eq_true, seq_eq_ok, bool_decide_eq_true by done.
  naive_solver.
Qed.

(** When the second half of a commit can panic: the mapping is known but kept
    alive by nothing that survives dropping the previous reference, or the
    revision counter is exhausted. *)
Definition fragile s p : Prop :=
  (∃ e, cs_mappings s !! ep_id (pp_mapping p) = Some e
        ∧ rc_catalog (me_references e) = 0%N ∧ rc_contexts (me_references e) = 0%N)
  ∨ (∃ c, cs_contexts s !! pp_context p = Some c ∧ (u64_max ≤ lc_revision c)%N).

(** The state once the previous reference of the context is dropped, and the
    one in which the context is switched to the mapping. *)
Definition unlinked s c : ContextStore :=
  match lc_evaluated c with
  | Some old => adjust_context_refs old false s
  | None => s
  end.

Definition relinked s c id : ContextStore := adjust_context_refs id true (unlinked s c).

Lemma wp_unlink P c (Q : unit → ContextStore → Prop) (R : Error → ContextStore → Prop) s :
  wp_gen P match lc_evaluated c with
           | Some old => modify (adjust_context_refs old false)
           | None => mret tt
           end Q R s = Q tt (unlinked s c).
Proof. unfold unlinked. by destruct (lc_evaluated c). Qed.

Lemma relinked_lookup s c id x :
  is_Some (cs_mappings (relinked s c id) !! x) ↔ is_Some (cs_mappings (unlinked s c) !! x).
Proof.
  unfold relinked, adjust_context_refs.
  destruct (cs_mappings (unlinked s c) !! id) as [e|] eqn:He; [|done]. cbn.
  rewrite lookup_alter. destruct (decide (id = x)) as [->|]; [|done].
  apply fmap_is_Some.
Qed.

Lemma relinked_fields s c id :
  cs_contexts (relinked s c id) = cs_contexts s
  ∧ cs_next_context (relinked s c id) = cs_next_context s.
Proof.
  unfold relinked. rewrite !(proj1 (adjust_contexts _ _ _)), !(proj2 (adjust_contexts _ _ _)).
  unfold unlinked.
  destruct (lc_evaluated c); [|done]. apply adjust_contexts.
Qed.

(** A mapping kept by something else than the reference [c] holds on it. *)
Definition kept_without c id e : Prop :=
  (0 < rc_catalog (me_references e))%N
  ∨ (lc_evaluated c ≠ Some id ∧ (0 < rc_contexts (me_references e))%N).

(** What survives dropping the reference to the previous mapping. *)
Lemma unlink_ok s cid c :
  store_ok s → cs_contexts s !! cid = Some c →
  let s1 := unlinked s c in
  catalogue_ok (λ x, context_count (cs_contexts s) x - one_if (lc_evaluated c = Some x))%N None s1
  ∧ (∀ x e, cs_mappings s !! x = Some e → kept_without c x e →
       ∃ e', cs_mappings s1 !! x = Some e' ∧ me_mapping e' = me_mapping e)
  ∧ (∀ x e', cs_mappings s1 !! x = Some e' →
       ∃ e, cs_mappings s !! x = Some e ∧ me_mapping e' = me_mapping e).
Proof.
  intros Hok Hc. cbn. unfold unlinked, kept_without.
  destruct (lc_evaluated c) as [old|] eqn:Hev.
  - destruct (evaluated_catalogued s cid c old (st_catalogue _ Hok) Hc Hev) as (eo & Heo & _).
    destruct (adjust_decr_ok _ old s (st_catalogue _ Hok)) as [Hcat Hsh]; [by exists eo|].
    split; [|split].
    + eapply catalogue_ext; [exact Hcat|done|done|]. intros x. cbn.
      unfold one_if. repeat case_decide; naive_solver.
    + intros x e Hx Hkept. destruct (decide (old = x)) as [->|Hne].
      * destruct Hkept as [Hpos|[? _]]; [|done].
        destruct (shrinks_kept _ _ Hsh x (set_references (add_contexts N.pred) e))
          as (e' & He' & Hm); [|cbn; lia|by exists e'].
        cbn. rewrite (alter_refs_lookup _ _ _ _ e) by done. by rewrite decide_True.
      * apply (shrinks_kept _ _ Hsh x e); [|destruct Hkept as [?|[_ ?]]; lia]. cbn.
        by rewrite lookup_alter_ne.
    + intros x e' (e & He & Hm & _)%(shrinks_entry _ _ Hsh). cbn in He.
      apply lookup_alter_refs in He as (e0 & He0 & Hm0 & _). exists e0. by rewrite Hm.
  - split; [|split; [intros x e ? _; by exists e|intros x e ?; by exists e]].
    eapply catalogue_ext; [apply Hok|done|done|]. intros x. cbn.
    rewrite one_if_false by done. lia.
Qed.

(** Switching the context to [id] restores the invariant. *)
Lemma relink_ok s cid c id revision :
  store_ok s → cs_contexts s !! cid = Some c →
  is_Some (cs_mappings (relinked s c id) !! id) →
  let s' := with_contexts (insert cid (mkLogicalContext (lc_id c) (lc_tokens c)
              (lc_model_epoch c) (lc_adapter_epoch c) (Some id) revision)) (relinked s c id) in
  store_ok s'
  ∧ (∀ x e, cs_mappings s !! x = Some e → kept_without c x e →
       ∃ e', cs_mappings s' !! x = Some e' ∧ me_mapping e' = me_mapping e)
  ∧ (∀ x e', cs_mappings s' !! x = Some e' →
       ∃ e, cs_mappings s !! x = Some e ∧ me_mapping e' = me_mapping e).
Proof.
  intros Hok Hc [e1 He1]%relinked_lookup. cbn.
  destruct (relinked_fields s c id) as [Hcs Hnx].
  destruct (unlink_ok s cid c Hok Hc) as (Hcat & Hkept & Hback).
  unfold relinked in *. set (s1 := unlinked s c) in *.
  pose proof (adjust_incr_ok _ id s1 Hcat) as Hinc. specialize (Hinc (ex_intro _ e1 He1)).
  set (c' := mkLogicalContext _ _ _ _ _ _).
  pose proof (λ x, context_count_insert (cs_contexts s) cid c c' x Hc) as Hcnt.
  split; [split|split]; cbn.
  - rewrite Hcs, Hnx. intros id' c0 Hin. rewrite lookup_insert in Hin.
    destruct (decide _) as [<-|]; [|by apply (st_context _ Hok)].
    injection Hin as <-. by apply (st_context _ Hok cid c).
  - eapply catalogue_ext; [exact Hinc|done|done|]. cbn. rewrite Hcs. intros x.
    specialize (Hcnt x). change (lc_evaluated c') with (Some id) in Hcnt.
    pose proof (context_count_delete (cs_contexts s) cid c x Hc).
    assert (one_if (Some id = Some x) = one_if (x = id)) as Hone
      by (unfold one_if; repeat case_decide; naive_solver).
    rewrite Hone in Hcnt. lia.
  - intros x ex Hx Hxpos. destruct (Hkept x ex Hx Hxpos) as (e' & He' & Hm).
    unfold adjust_context_refs. rewrite He1. cbn. eexists.
    split; [by apply alter_refs_lookup|]. by case_decide.
  - unfold adjust_context_refs. rewrite He1. cbn.
    intros x e' (e0 & He0 & -> & _)%lookup_alter_refs. by apply Hback.
Qed.

(** The result of cataloguing, and what it keeps of the store. *)
Lemma catalogue_step_ok s m :
  store_ok s → mapping_ok m →
  (cs_mappings s !! ep_id m = None →
   ∀ q, ep_parent m = Some q → is_Some (cs_mappings s !! q)) →
  let s1 := if decide (cs_mappings s !! ep_id m = None) then catalogued s m else s in
  store_ok s1 ∧ cs_contexts s1 = cs_contexts s ∧ cs_next_context s1 = cs_next_context s
  ∧ (∀ x e, cs_mappings s !! x = Some e → ∃ e', cs_mappings s1 !! x = Some e'
       ∧ me_mapping e' = me_mapping e ∧ rc_catalog (me_references e') = rc_catalog (me_references e)
       ∧ rc_contexts (me_references e') = rc_contexts (me_references e))
  ∧ (cs_mappings s !! ep_id m = None →
     cs_mappings s1 !! ep_id m = Some (mkMappingEntry m (mkReferenceCounts 1 0 0))).
Proof.
  intros Hok Hm Hpar. cbn. destruct (decide _) as [Hnone|Hsome].
  - pose proof (catalogued_ok _ s m (st_catalogue _ Hok) Hm Hnone (Hpar Hnone)) as Hcat.
    split; [split|]; [apply Hok|exact Hcat|]. do 2 (split; [done|]). split.
    + intros x e Hx. destruct (bump_refs_back (ep_parent m) _ x e Hx) as (e' & He' & Hm').
      exists e'. pose proof (bump_refs_lookup _ _ _ _ He') as (e0 & He0 & _ & Hc1 & Hc2 & _).
      rewrite Hx in He0. injection He0 as <-. split; [|done].
      unfold catalogued. cbn. rewrite lookup_insert_ne; [done|congruence].
    + intros _. apply lookup_insert_eq.
  - split; [done|]. do 2 (split; [done|]). split; [eauto 6|done].
Qed.

Lemma wp_catalogue P m (Q : unit → ContextStore → Prop) (R : Error → ContextStore → Prop) s :
  (cs_mappings s !! ep_id m = None →
   ∀ q, ep_parent m = Some q → is_Some (cs_mappings s !! q)) →
  wp_gen P (catalogue m) Q R s =
    Q tt (if decide (cs_mappings s !! ep_id m = None) then catalogued s m else s).
Proof. intros Hpar. unfold wp_gen. by rewrite catalogue_run. Qed.

(** The entry a valid publication finds or leaves under its identity. *)
Lemma published_entry s p c :
  store_ok s → prepared_ok p → validate_publication ptr_eq p s = Ok tt →
  cs_contexts s !! pp_context p = Some c →
  let m := pp_mapping p in
  let s1 := if decide (cs_mappings s !! ep_id m = None) then catalogued s m else s in
  ∃ e1, cs_mappings s1 !! ep_id m = Some e1 ∧ ep_id (me_mapping e1) = ep_id m
    ∧ tokens (ep_sequence (me_mapping e1)) = take (ep_represented_end m) (tokens (lc_tokens c))
    ∧ (fragile s p ∨ lc_evaluated c = Some (ep_id m) ∨ kept_without c (ep_id m) e1).
Proof.
  intros Hok Hp Hv Hc. cbv zeta.
  destruct (validate_ok p s Hv) as (c' & Hc' & _ & _ & _ & _ & Hpre & Hex & Hpar).
  rewrite Hc in Hc'. injection Hc' as <-. set (m := pp_mapping p) in *.
  destruct (catalogue_step_ok s m Hok Hp Hpar) as (_ & _ & _ & Hold & Hnew).
  destruct (st_context _ Hok _ c Hc) as (_ & _ & Hseq).
  apply prefix_matches_view in Hpre as [_ Hview]; [|done|apply Hp].
  destruct (cs_mappings s !! ep_id m) as [e|] eqn:He.
  - destruct (Hold (ep_id m) e He) as (e1 & He1 & Hm1 & Hcat1 & Hctx1).
    destruct (cat_entry _ _ _ (st_catalogue _ Hok) _ e He) as (Hid & Hmok & _).
    destruct (mapping_eq_view (me_mapping e) m Hmok Hp) as (Hveq & _); [by apply Hex|].
    exists e1. rewrite Hm1. split; [done|]. split; [done|]. split.
    + rewrite !tokens_view by (done || apply Hmok). by rewrite Hveq.
    + unfold kept_without. rewrite Hcat1, Hctx1.
      destruct (decide (rc_catalog (me_references e) = 0%N)); [|right; right; left; lia].
      destruct (decide (rc_contexts (me_references e) = 0%N)).
      { left. left. by exists e. }
      destruct (decide (lc_evaluated c = Some (ep_id m))); [by right; left|].
      right. right. right. split; [done|lia].
  - exists (mkMappingEntry m (mkReferenceCounts 1 0 0)). split; [by apply Hnew|].
    split; [done|]. split; [|right; right; left; cbn; lia]. cbn [me_mapping].
    rewrite !tokens_view by (done || apply Hp). done.
Qed.

Lemma commit_ok s p :
  store_ok s → prepared_ok p →
  let id := ep_id (pp_mapping p) in
  wp_gen (fragile s p) (commit_publication ptr_eq p)
    (λ m s', validate_publication ptr_eq p s = Ok tt ∧ store_ok s' ∧ ep_id m = id
       ∧ mapping id s' = Some m
       ∧ (∃ c c', cs_contexts s !! pp_context p = Some c
            ∧ cs_contexts s' = <[pp_context p := c']> (cs_contexts s)
            ∧ lc_tokens c' = lc_tokens c ∧ lc_model_epoch c' = lc_model_epoch c
            ∧ lc_adapter_epoch c' = lc_adapter_epoch c ∧ lc_evaluated c' = Some id
            ∧ lc_revision c' =
                (lc_revision c + if decide (lc_evaluated c = Some id) then 0 else 1)%N
            ∧ tokens (ep_sequence m) =
                take (ep_represented_end (pp_mapping p)) (tokens (lc_tokens c)))
       ∧ (∀ x e, cs_mappings s !! x = Some e → (0 < rc_catalog (me_references e))%N →
            mapping x s' = Some (me_mapping e)))
    (λ err s', s' = s ∧ validate_publication ptr_eq p s = Err err) s.
Proof.
  intros Hok Hp. cbv zeta. unfold commit_publication. wp_run.
  destruct (validate_publication ptr_eq p s) as [[]|err] eqn:Hv; [|done].
  destruct (validate_ok p s Hv) as (c & Hc & _ & _ & _ & _ & _ & _ & Hpar).
  destruct (published_entry s p c Hok Hp Hv Hc) as (e1 & He1 & Hid1 & Htok1 & Hkept1).
  destruct (catalogue_step_ok s _ Hok Hp Hpar) as (Hok1 & Hcs1 & _ & Hold & _).
  rewrite Hc. wp_run. rewrite wp_catalogue by done.
  set (m := pp_mapping p) in *. set (id := ep_id m) in *.
  set (s1 := if decide _ then _ else _) in *. clearbody s1.
  destruct (decide (lc_evaluated c = Some id)) as [Hsame|Hdiff].
  - rewrite bool_decide_true by done. wp_run. rewrite He1. wp_run.
    unfold mapping. rewrite He1. do 4 (split; [done|]). split.
    + exists c, c. rewrite Hcs1, insert_id, decide_True by done. repeat split; try done. lia.
    + intros x e Hx _. destruct (Hold x e Hx) as (e' & -> & <- & _). done.
  - rewrite bool_decide_false by done. rewrite <- Hcs1 in Hc.
    destruct (relinked_fields s1 c id) as [Hcs2 _].
    wp_run. rewrite wp_unlink. wp_run. fold (relinked s1 c id). rewrite Hcs2, Hc. wp_run.
    unfold checked_add. destruct (decide _) as [Hr|Hr]; wp_run.
    2:{ right. exists c. rewrite <- Hcs1. split; [done|lia]. }
    cbn [cs_mappings with_contexts].
    destruct (cs_mappings (relinked s1 c id) !! id) as [e2|] eqn:He2; wp_run.
    + destruct (relink_ok s1 _ c id (lc_revision c + 1) Hok1 Hc) as (Hok2 & Hkeep & Hback);
        [by eexists|]. cbn [cs_mappings with_contexts] in Hback.
      destruct (Hback id e2 He2) as (e1' & He1' & Hm2).
      rewrite He1 in He1'. injection He1' as <-. rewrite Hm2.
      split; [done|]. split; [done|]. split; [done|].
      split; [unfold mapping; cbn [cs_mappings with_contexts]; by rewrite He2, <- Hm2|].
      split.
      * eexists c, _. rewrite <- Hcs1. cbn [cs_contexts with_contexts]. rewrite Hcs2.
        split; [done|]. split; [done|]. rewrite decide_False by done. done.
      * intros x e Hx Hpos. destruct (Hold x e Hx) as (e' & He' & Hm' & Hc' & _).
        destruct (Hkeep x e' He') as (e'' & He'' & Hm''); [left; by rewrite Hc'|].
        unfold mapping. rewrite He''. cbn. by rewrite Hm'', Hm'.
    + destruct (unlink_ok s1 _ c Hok1 Hc) as (_ & Hkeep & _).
      destruct Hkept1 as [?|[?|Hkept1]]; [done|done|].
      destruct (Hkeep id e1 He1 Hkept1) as (e' & He' & _).
      destruct (proj2 (relinked_lookup s1 c id id)) as [e2 He2']; [by exists e'|]. congruence.
Qed.

(** ** Lookup *)

(** The dependency chain of a mapping is catalogued, strictly shortening, of one
    epoch and complete. *)
Inductive lineage_ok s : EvaluatedPrefix → Prop :=
| lineage_root m : ep_parent m = None → lineage_ok s m
| lineage_child m q e :
    ep_parent m = Some q → cs_mappings s !! q = Some e →
    ep_represented_end (me_mapping e) < ep_represented_end m →
    ep_model_epoch (me_mapping e) = ep_model_epoch m →
    ep_adapter_epoch (me_mapping e) = ep_adapter_epoch m →
    ComponentMask.contains (ep_complete_components (me_mapping e))
      (ep_required_components (me_mapping e)) = true →
    lineage_ok s (me_mapping e) → lineage_ok s m.

(** A mapping a context may resume from. *)
Definition usable s c m : Prop :=
  ep_model_epoch m = lc_model_epoch c ∧ ep_adapter_epoch m = lc_adapter_epoch c
  ∧ ep_represented_end m ≤ length (tokens (lc_tokens c))
  ∧ tokens (ep_sequence m) = take (ep_represented_end m) (tokens (lc_tokens c))
  ∧ lineage_ok s m.

Lemma parent_link_spec child parent :
  parent_link_ok child parent = true ↔
    ep_represented_end parent < ep_represented_end child
    ∧ ep_model_epoch parent = ep_model_epoch child
    ∧ ep_adapter_epoch parent = ep_adapter_epoch child
    ∧ ComponentMask.contains (ep_complete_components parent)
        (ep_required_components parent) = true.
Proof.
  unfold parent_link_ok.
  rewrite negb_true_iff, !orb_false_iff, !negb_false_iff, !bool_decide_eq_true, Nat.leb_gt.
  tauto.
Qed.

(** The ancestor walk decides [lineage_ok]: its fuel is enough. *)
Lemma ancestors_ok_spec fuel s m :
  ep_represented_end m < fuel → ancestors_ok fuel s m = true ↔ lineage_ok s m.
Proof.
  revert m. induction fuel as [|fuel IH]; intros m Hfuel; [lia|]. cbn [ancestors_ok].
  destruct (ep_parent m) as [q|] eqn:Hq; [|split; [by constructor|done]].
  destruct (cs_mappings s !! q) as [e|] eqn:He.
  - rewrite andb_true_iff, parent_link_spec. split.
    + intros ((Hlt & Hm & Ha & Hcomp) & Hrec). eapply lineage_child; try done.
      apply IH; [lia|done].
    + inversion 1; simplify_eq. split; [done|]. apply IH; [lia|done].
  - split; [done|]. inversion 1; congruence.
Qed.

Lemma mapping_valid_spec s c m :
  sequence_ok (lc_tokens c) → mapping_ok m →
  mapping_valid_for_context ptr_eq s m c None = true ↔ usable s c m.
Proof.
  intros Hc Hm. unfold mapping_valid_for_context, usable.
  destruct Hm as (Hseq & Hlen & Hcomp). rewrite Hcomp.
  pose proof (prefix_matches_view c m Hc Hseq) as Hpm.
  pose proof (ancestors_ok_spec (S (ep_represented_end m)) s m) as Hanc.
  rewrite !tokens_view, view_length in * by done.
  match goal with |- (if ?b then _ else _) = true ↔ _ => destruct b eqn:Hbad end.
  - split; [done|]. intros (H1 & H2 & H3 & H4 & H5).
    rewrite !orb_true_iff, !negb_true_iff, !bool_decide_eq_false, Nat.ltb_lt in Hbad.
    destruct Hbad as [[[[[?|?]|?]|?]|?]|Hp]; try done; [lia|].
    by rewrite (proj2 Hpm) in Hp.
  - rewrite !orb_false_iff, !negb_false_iff, !bool_decide_eq_true, Nat.ltb_ge in Hbad.
    rewrite Hanc by lia. tauto.
Qed.

(** The descending range is read longest first: the first hit of a search is the
    one with the greatest key. *)
Lemma range_rev_S {V} (lengths : gmap nat V) hi :
  range_rev lengths (S hi) =
    match lengths !! S hi with
    | Some v => (S hi, v) :: range_rev lengths hi
    | None => range_rev lengths hi
    end.
Proof.
  unfold range_rev. rewrite seq_S, rev_app_distr. cbn [rev app omap list_omap Nat.add].
  destruct (lengths !! S hi); done.
Qed.

Lemma find_longest {V B} (lengths : gmap nat V) (f : nat * V → option B) hi :
  match find_map f (range_rev lengths hi) with
  | Some y => ∃ n v, n ≤ hi ∧ lengths !! n = Some v ∧ f (n, v) = Some y
      ∧ ∀ n' v', n < n' ≤ hi → lengths !! n' = Some v' → f (n', v') = None
  | None => ∀ n v, n ≤ hi → lengths !! n = Some v → f (n, v) = None
  end.
Proof.
  induction hi as [|hi IH].
  - unfold range_rev. cbn. destruct (lengths !! 0) as [v|] eqn:Hv; cbn.
    + destruct (f (0, v)) as [y|] eqn:Hf.
      * exists 0, v. repeat split; [done|done|done|lia].
      * intros n v' Hn Hv'. assert (n = 0) as -> by lia. congruence.
    + intros n v' Hn Hv'. assert (n = 0) as -> by lia. congruence.
  - rewrite range_rev_S.
    destruct (lengths !! S hi) as [v|] eqn:Hv; cbn [find_map].
    + destruct (f (S hi, v)) as [y|] eqn:Hf.
      { exists (S hi), v. repeat split; [done|done|done|lia]. }
      destruct (find_map f _) as [y|].
      * destruct IH as (n & w & Hn & Hw & Hfw & Hmax). exists n, w. repeat split; [lia|done|done|].
        intros n' v' Hn' Hv'. destruct (decide (n' = S hi)) as [->|]; [congruence|].
        apply Hmax; [lia|done].
      * intros n w Hn Hw. destruct (decide (n = S hi)) as [->|]; [congruence|].
        apply IH; [lia|done].
    + destruct (find_map f _) as [y|].
      * destruct IH as (n & w & Hn & Hw & Hfw & Hmax). exists n, w. repeat split; [lia|done|done|].
        intros n' v' Hn' Hv'. destruct (decide (n' = S hi)) as [->|]; [congruence|].
        apply Hmax; [lia|done].
      * intros n w Hn Hw. destruct (decide (n = S hi)) as [->|]; [congruence|].
        apply IH; [lia|done].
Qed.

(** The bucket search finds the usable mapping of least identity. *)
Lemma valid_mapping_from_ids_spec s c ids :
  store_ok s → sequence_ok (lc_tokens c) →
  match valid_mapping_from_ids ptr_eq s c ids with
  | Some m => ep_id m ∈ ids ∧ mapping (ep_id m) s = Some m ∧ usable s c m
      ∧ ∀ id m', id ∈ ids → mapping id s = Some m' → usable s c m' → (ep_id m ≤ ep_id m')%N
  | None => ∀ id m', id ∈ ids → mapping id s = Some m' → ¬ usable s c m'
  end.
Proof.
  intros Hok Hc. unfold valid_mapping_from_ids.
  set (l := filter _ _).
  assert (∀ m, m ∈ l ↔ ∃ id, id ∈ ids ∧ mapping id s = Some m ∧ usable s c m) as Hl.
  { intros m. unfold l. rewrite list_elem_of_filter, list_elem_of_fmap. split.
    - intros [Hv (e & -> & (id & Hid & He)%list_elem_of_omap)].
      destruct (cat_entry _ _ _ (st_catalogue _ Hok) id e He) as (_ & Hm & _).
      apply mapping_valid_spec in Hv; [|done|done].
      exists id. unfold mapping. by rewrite He.
    - intros (id & Hid & Hm & Hu). unfold mapping in Hm.
      apply fmap_Some in Hm as (e & He & ->).
      destruct (cat_entry _ _ _ (st_catalogue _ Hok) id e He) as (_ & Hm & _).
      split; [by apply mapping_valid_spec|]. exists e. split; [done|].
      apply list_elem_of_omap. eauto. }
  destruct (min_by mapping_lt l) as [m|] eqn:Hmin.
  - pose proof (min_by_elem _ _ _ Hmin) as (id & Hid & Hm & Hu)%Hl.
    assert (ep_id m = id) as Heq.
    { unfold mapping in Hm. apply fmap_Some in Hm as (e & He & ->).
      by apply (cat_entry _ _ _ (st_catalogue _ Hok)). }
    rewrite Heq. do 3 (split; [done|]). intros id' m' Hid' Hm' Hu'. rewrite <- Heq.
    pose proof (min_by_least mapping_lt l m) as Hle. unfold mapping_lt in Hle.
    assert ((ep_id m' <? ep_id m)%N = false) as ?%N.ltb_ge; [|done].
    apply Hle; [..|done|apply Hl; eauto].
    + intros a b d ?%N.ltb_lt ?%N.ltb_lt. apply N.ltb_lt. lia.
    + intros a. apply N.ltb_irrefl.
    + intros a b d ?%N.ltb_ge ?%N.ltb_ge. apply N.ltb_ge. lia.
  - apply min_by_None in Hmin. intros id m' Hid Hm Hu.
    assert (m' ∈ l) as Hin by (apply Hl; eauto). rewrite Hmin in Hin. by apply not_elem_of_nil in Hin.
Qed.

Lemma lookup_indexed s key n id :
  store_ok s →
  (∃ lengths ids, cs_prefix_index s !! key = Some lengths ∧ lengths !! n = Some ids ∧ id ∈ ids) ↔
  (∃ m, mapping id s = Some m ∧ index_key m = key ∧ ep_represented_end m = n).
Proof.
  intros Hok. pose proof (cat_index _ _ _ (st_catalogue _ Hok) key n id) as Hidx.
  unfold indexed, mapping in *. split.
  - intros (lengths & ids & Hl & Hn & Hin). rewrite Hl in Hidx. cbn in Hidx. rewrite Hn in Hidx.
    apply Hidx in Hin as (e & -> & ?). by eexists.
  - intros (m & (e & He & ->)%fmap_Some & Hk & Hn).
    destruct (cs_prefix_index s !! key) as [lengths|]; cbn in Hidx.
    + destruct (lengths !! n) as [ids|] eqn:Hl; cbn in Hidx.
      * exists lengths, ids. repeat split; [done|]. apply Hidx. eauto.
      * exfalso. apply (not_elem_of_nil id), Hidx. eauto.
    + exfalso. apply (not_elem_of_nil id), Hidx. eauto.
Qed.

Lemma longest_valid_prefix_spec s cid c :
  store_ok s → cs_contexts s !! cid = Some c →
  ∃ r, longest_valid_prefix ptr_eq cid s = Ok r ∧
  match r with
  | Some m => mapping (ep_id m) s = Some m ∧ usable s c m
      ∧ ∀ id m', mapping id s = Some m' → usable s c m' →
          ep_represented_end m' ≤ ep_represented_end m
          ∧ (ep_represented_end m' = ep_represented_end m → (ep_id m ≤ ep_id m')%N)
  | None => ∀ id m', mapping id s = Some m' → ¬ usable s c m'
  end.
Proof.
  intros Hok Hc. unfold longest_valid_prefix. rewrite Hc.
  destruct (st_context _ Hok cid c Hc) as (_ & _ & Hseq).
  set (key := (lc_model_epoch c, lc_adapter_epoch c)).
  assert (∀ id m', mapping id s = Some m' → usable s c m' →
    ep_represented_end m' ≤ seq_len (lc_tokens c) ∧
    ∃ lengths ids, cs_prefix_index s !! key = Some lengths
      ∧ lengths !! ep_represented_end m' = Some ids ∧ id ∈ ids) as Hall.
  { intros id m' Hm Hu. pose proof Hu as (H1 & H2 & H3 & _).
    rewrite tokens_view, view_length in H3 by done. split; [done|].
    apply lookup_indexed; [done|]. exists m'. split; [done|]. split; [|done].
    unfold index_key, key. congruence. }
  destruct (cs_prefix_index s !! key) as [lengths|] eqn:Hkey.
  2:{ exists None. split; [done|]. intros id m' Hm Hu.
      by destruct (Hall id m' Hm Hu) as (_ & ? & ? & ? & _). }
  eexists. split; [done|].
  pose proof (find_longest lengths (λ '(_, ids), valid_mapping_from_ids ptr_eq s c ids)
    (seq_len (lc_tokens c))) as Hfind.
  destruct (find_map _ _) as [m|].
  - destruct Hfind as (n & ids & Hn & Hids & Hval & Hmax).
    pose proof (valid_mapping_from_ids_spec s c ids Hok Hseq) as Hspec. rewrite Hval in Hspec.
    destruct Hspec as (Hin & Hm & Hu & Hleast). do 2 (split; [done|]).
    destruct (proj1 (lookup_indexed s key n (ep_id m) Hok)) as (m0 & Hm0 & _ & Hend); [eauto|].
    assert (ep_represented_end m = n) as Hmn by congruence.
    intros id m' Hm' Hu'. destruct (Hall id m' Hm' Hu') as (Hle & lengths' & ids' & [= <-] & Hids' & Hin').
    assert (ep_represented_end m' ≤ n) as Hle'.
    { destruct (decide (ep_represented_end m' ≤ n)); [done|].
      pose proof (valid_mapping_from_ids_spec s c ids' Hok Hseq) as Hspec.
      rewrite (Hmax (ep_represented_end m') ids') in Hspec by (done || lia).
      by destruct (Hspec id m' Hin' Hm'). }
    split; [lia|]. intros Heq. rewrite Heq, Hmn, Hids in Hids'. injection Hids' as <-. eauto.
  - intros id m' Hm' Hu'. destruct (Hall id m' Hm' Hu') as (Hle & lengths' & ids' & [= <-] & Hids' & Hin').
    pose proof (valid_mapping_from_ids_spec s c ids' Hok Hseq) as Hspec.
    rewrite (Hfind (ep_represented_end m') ids') in Hspec by done.
    by destruct (Hspec id m' Hin' Hm').
Qed.

(** ** Executions *)

(** A client of the store: the store, and the publications prepared but not yet
    consumed by a commit. *)
Definition config : Type := ContextStore * list PreparedPublication.

(** Any public method may be called at any time, with any arguments; a
    publication is committed at most once, at any later time. *)
Inductive step : config → config → Prop :=
| step_create toks model adapter s ps s' :
    built toks → (cs_next_context s < u64_max)%N →
    after (create toks model adapter) s = Some s' → step (s, ps) (s', ps)
| step_branch source at_ s ps s' :
    (cs_next_context s < u64_max)%N →
    after (branch source at_) s = Some s' → step (s, ps) (s', ps)
| step_append cid l s ps s' :
    after (append_context cid l) s = Some s' → step (s, ps) (s', ps)
| step_remove cid s ps s' :
    after (remove_context cid) s = Some s' → step (s, ps) (s', ps)
| step_set_epochs cid model adapter s ps s' :
    after (set_epochs cid model adapter) s = Some s' → step (s, ps) (s', ps)
| step_release id s ps s' :
    after (release_mapping id) s = Some s' → step (s, ps) (s', ps)
| step_prepare cid end_ parent required complete parameters s ps p s' :
    prepare_publication ptr_eq cid end_ parent required complete parameters s = Done p s' →
    step (s, ps) (s', p :: ps)
| step_commit p s ps1 ps2 s' :
    after (commit_publication ptr_eq p) s = Some s' →
    step (s, ps1 ++ p :: ps2) (s', ps1 ++ ps2).

Definition reachable (g : config) : Prop := rtc step (default_store, []) g.

Definition config_ok (g : config) : Prop := store_ok g.1 ∧ Forall prepared_ok g.2.

Lemma default_store_ok : store_ok default_store.
Proof.
  split; [done|]. split; try done.
  intros key n id. unfold indexed. cbn. split; [intros []%not_elem_of_nil|naive_solver].
Qed.

Lemma step_ok g g' : config_ok g → step g g' → config_ok g'.
Proof.
  intros [Hok Hps] Hstep.
  destruct Hstep as
    [toks model adapter s ps s' Hb Hn Ha|source at_ s ps s' Hn Ha|cid l s ps s' Ha
    |cid s ps s' Ha|cid model adapter s ps s' Ha|id s ps s' Ha
    |cid end_ parent req comp params s ps p s' Hrun|p s ps1 ps2 s' Ha]; cbn in *.
  - apply (after_ok _ _ _ _ _ _ (create_ok _ _ _ _ Hok (built_ok _ Hb) Hn)) in Ha.
    destruct Ha as [(? & ? & _)|[? []]]. done.
  - apply (after_ok _ _ _ _ _ _ (branch_ok _ _ _ Hok Hn)) in Ha.
    destruct Ha as [(? & ? & _)|(? & -> & _)]; done.
  - apply (after_ok _ _ _ _ _ _ (append_context_ok _ _ _ Hok)) in Ha.
    destruct Ha as [(? & ? & _)|(? & -> & _)]; done.
  - apply (after_ok _ _ _ _ _ _ (remove_context_ok _ _ Hok)) in Ha.
    destruct Ha as [(? & ? & _)|(? & -> & _)]; done.
  - apply (after_ok _ _ _ _ _ _ (set_epochs_ok _ _ _ _ Hok)) in Ha.
    destruct Ha as [(? & ? & _)|(? & -> & _)]; done.
  - apply (after_ok _ _ _ _ _ _ (release_mapping_ok _ _ Hok)) in Ha.
    destruct Ha as [(? & ? & _)|(? & -> & _)]; done.
  - pose proof (prepare_ok s cid end_ parent req comp params Hok) as Hp.
    unfold wp_gen in Hp. rewrite Hrun in Hp. destruct Hp as (-> & Hp & _).
    split; [done|by constructor].
  - apply Forall_app in Hps as [Hps1 Hps2]. inversion Hps2 as [|? ? Hp Hps2']; subst.
    apply (after_ok _ _ _ _ _ _ (commit_ok s p Hok Hp)) in Ha.
    split; [|by apply Forall_app]. destruct Ha as [(? & _ & ? & _)|(? & -> & _)]; done.
Qed.

Lemma reachable_ok g : reachable g → config_ok g.
Proof.
  intros Hr. assert (config_ok (default_store, [])) as H0
    by (split; [apply default_store_ok|constructor]).
  revert H0. induction Hr as [|g1 g2 g3 Hstep _ IH]; [done|].
  intros H1. apply IH. by eapply step_ok.
Qed.

(** ** Properties *)

(** C3: in every state clients can reach, the catalogue is exact. A mapping is
    filed under its own identity and its sequence has the represented length;
    its context references count the contexts evaluating it and its dependent
    references the catalogued mappings extending it; it is owned by at least
    one reference (nothing is leaked), and whatever a context evaluates or a
    mapping depends on is still catalogued (nothing is reclaimed early); the
    prefix index holds exactly the catalogued mappings, without empty buckets. *)
Theorem context_store_invariant s ps :
  reachable (s, ps) →
  (∀ id e, cs_mappings s !! id = Some e →
     ep_id (me_mapping e) = id
     ∧ length (tokens (ep_sequence (me_mapping e))) = ep_represented_end (me_mapping e)
     ∧ rc_contexts (me_references e) = context_count (cs_contexts s) id
     ∧ rc_dependents (me_references e) = dependent_count (cs_mappings s) id
     ∧ (rc_catalog (me_references e) ≤ 1)%N ∧ owned e
     ∧ (∀ q, ep_parent (me_mapping e) = Some q → is_Some (cs_mappings s !! q)))
  ∧ (∀ cid c id, cs_contexts s !! cid = Some c → lc_evaluated c = Some id →
       is_Some (cs_mappings s !! id))
  ∧ (∀ key n id, id ∈ indexed (cs_prefix_index s) key n ↔
       ∃ m, mapping id s = Some m ∧ index_key m = key ∧ ep_represented_end m = n)
  ∧ index_dense (cs_prefix_index s).
Proof.
  intros [[Hctx Hcat] _]%reachable_ok. cbn in *. split; [|split; [|split]].
  - intros id e He. destruct (cat_entry _ _ _ Hcat id e He) as (Hid & (Hs & Hlen & _) & Hle).
    pose proof (cat_contexts _ _ _ Hcat id) as Hc. unfold contexts_at in Hc.
    pose proof (cat_dependents _ _ _ Hcat id) as Hd. unfold dependents_at in Hd.
    rewrite He in Hc, Hd. repeat split; try done.
    + by rewrite tokens_view, view_length.
    + by apply (cat_owned _ _ _ Hcat id e He).
    + intros q Hq. pose proof (cat_dependents _ _ _ Hcat q) as Hdq.
      rewrite (dependent_count_delete _ id e q He), one_if_true in Hdq by done.
      unfold dependents_at in Hdq. destruct (cs_mappings s !! q); [by eexists|cbn in Hdq; lia].
  - intros cid c id Hc Hev. destruct (evaluated_catalogued s cid c id Hcat Hc Hev) as (e & ? & _).
    by exists e.
  - intros key n id. rewrite (cat_index _ _ _ Hcat). unfold mapping. split.
    + intros (e & -> & ?). by eexists.
    + intros (m & (e & -> & ->)%fmap_Some & ?). by eexists.
  - apply (cat_dense _ _ _ Hcat).
Qed.

(** C9: [longest_valid_prefix] is sound and maximal. For a known context it
    returns a catalogued mapping whose tokens are a prefix of the context's,
    of the context's epochs and with a complete catalogued lineage; no usable
    mapping is longer, and among those of its length it has the least
    identity; it returns nothing only when nothing is usable. *)
Theorem longest_valid_prefix_maximal s ps cid :
  reachable (s, ps) →
  match cs_contexts s !! cid with
  | None => longest_valid_prefix ptr_eq cid s = Err ContextNotFound
  | Some c => ∃ r, longest_valid_prefix ptr_eq cid s = Ok r ∧
      match r with
      | Some m => mapping (ep_id m) s = Some m ∧ usable s c m
          ∧ ∀ id m', mapping id s = Some m' → usable s c m' →
              ep_represented_end m' ≤ ep_represented_end m
              ∧ (ep_represented_end m' = ep_represented_end m → (ep_id m ≤ ep_id m')%N)
      | None => ∀ id m', mapping id s = Some m' → ¬ usable s c m'
      end
  end.
Proof.
  intros [Hok _]%reachable_ok. cbn in Hok. destruct (cs_contexts s !! cid) as [c|] eqn:Hc.
  - by apply longest_valid_prefix_spec.
  - unfold longest_valid_prefix. by rewrite Hc.
Qed.

(** C10: a commit is atomic. On an error the store is untouched and the error is
    the one [validate_publication] predicted. On success the returned mapping
    is catalogued, covers exactly the represented prefix of the context's
    tokens and becomes what the context evaluates, the revision advances when
    that changed, no other context changes and every mapping the catalogue
    owns is kept. It can only panic when the revision is exhausted or the
    mapping is known but neither catalogue-owned nor evaluated. *)
Theorem commit_publication_atomic s ps p :
  reachable (s, ps) → p ∈ ps →
  let id := ep_id (pp_mapping p) in
  match commit_publication ptr_eq p s with
  | Done m s' =>
      validate_publication ptr_eq p s = Ok tt
      ∧ ep_id m = id ∧ mapping id s' = Some m
      ∧ (∃ c c', cs_contexts s !! pp_context p = Some c
           ∧ cs_contexts s' = <[pp_context p := c']> (cs_contexts s)
           ∧ lc_tokens c' = lc_tokens c ∧ lc_model_epoch c' = lc_model_epoch c
           ∧ lc_adapter_epoch c' = lc_adapter_epoch c ∧ lc_evaluated c' = Some id
           ∧ lc_revision c' =
               (lc_revision c + if decide (lc_evaluated c = Some id) then 0 else 1)%N
           ∧ tokens (ep_sequence m) =
               take (ep_represented_end (pp_mapping p)) (tokens (lc_tokens c)))
      ∧ (∀ x e, cs_mappings s !! x = Some e → (0 < rc_catalog (me_references e))%N →
           mapping x s' = Some (me_mapping e))
  | Fail err s' => s' = s ∧ validate_publication ptr_eq p s = Err err
  | Panic => fragile s p
  end.
Proof.
  intros [Hok Hps]%reachable_ok Hp. cbn in Hok, Hps. rewrite List.Forall_forall in Hps. setoid_rewrite <- list_elem_of_In in Hps.
  pose proof (commit_ok s p Hok (Hps p Hp)) as Hcommit. cbv zeta in *. unfold wp_gen in Hcommit.
  destruct (commit_publication ptr_eq p s); [|done|done]. tauto.
Qed.

(** Optimistic concurrency. Of two publications prepared for the same state
    of a context, once one commits and changes what the context evaluates, the
    other is refused with [PublicationConflict] and changes nothing. *)
Theorem commit_publication_first_wins s ps p q m s' :
  reachable (s, ps) → p ∈ ps →
  pp_context q = pp_context p → pp_expected_revision q = pp_expected_revision p →
  pp_expected_current p ≠ Some (ep_id (pp_mapping p)) →
  commit_publication ptr_eq p s = Done m s' →
  commit_publication ptr_eq q s' = Fail PublicationConflict s'.
Proof.
  intros [Hok Hps]%reachable_ok Hp Hctx Hrev Hcur Hrun. cbn in Hok, Hps.
  rewrite List.Forall_forall in Hps. setoid_rewrite <- list_elem_of_In in Hps.
  pose proof (commit_ok s p Hok (Hps p Hp)) as Hcommit. cbv zeta in *. unfold wp_gen in Hcommit.
  rewrite Hrun in Hcommit.
  destruct Hcommit as (Hv & _ & _ & _ & (c & c' & Hc & Hcs & _ & _ & _ & _ & Hr & _) & _).
  destruct (validate_ok p s Hv) as (c0 & Hc0 & Hev & Hrv & _).
  rewrite Hc in Hc0. injection Hc0 as <-.
  rewrite decide_False in Hr by congruence.
  unfold commit_publication, get, mbind, M_bind, lift_result, throw, validate_publication.
  rewrite Hctx, Hcs, lookup_insert_eq, (bool_decide_false (lc_revision c' = _)) by lia.
  by rewrite orb_true_r.
Qed.

(** Contexts are isolated. [branch] gives a fresh context holding exactly the
    prefix asked for and changes no other context; [append] extends its own
    context's tokens and no other's; both report an unknown context or an
    out-of-range cut without changing the store. *)
Theorem context_branch_append_isolated s ps source at_ :
  reachable (s, ps) → (cs_next_context s < u64_max)%N →
  match branch source at_ s with
  | Done id s' =>
      cs_contexts s !! id = None
      ∧ (∃ c c', cs_contexts s !! source = Some c ∧ cs_contexts s' !! id = Some c'
           ∧ tokens (lc_tokens c') = take at_ (tokens (lc_tokens c))
           ∧ lc_model_epoch c' = lc_model_epoch c ∧ lc_adapter_epoch c' = lc_adapter_epoch c)
      ∧ (∀ x, x ≠ id → cs_contexts s' !! x = cs_contexts s !! x)
      ∧ (∀ l s'', append_context id l s' = Done tt s'' →
           ∀ x, x ≠ id → cs_contexts s'' !! x = cs_contexts s !! x)
  | Fail err s' => s' = s ∧
      match cs_contexts s !! source with
      | None => err = ContextNotFound
      | Some c => err = PrefixOutOfBounds ∧ length (tokens (lc_tokens c)) < at_
      end
  | Panic => False
  end.
Proof.
  intros [Hok _]%reachable_ok Hn. cbn in Hok.
  pose proof (branch_ok s source at_ Hok Hn) as Hbr. unfold wp_gen in Hbr.
  destruct (branch source at_ s) as [id s'|err s'|]; [| |done].
  - destruct Hbr as (Hok' & Hnone & c & t & Hc & Ht & Hcs & _).
    destruct (st_context _ Hok source c Hc) as (_ & _ & Hseq).
    destruct (prefix_ok _ _ _ Hseq Ht) as [Htok Hv].
    split; [done|]. split; [|split].
    + eexists c, _. rewrite Hcs. split; [done|]. split; [apply lookup_insert_eq|].
      cbn [lc_tokens lc_model_epoch lc_adapter_epoch]. rewrite !tokens_view by done.
      by rewrite Hv.
    + intros x Hx. rewrite Hcs. by apply lookup_insert_ne.
    + intros l s'' Hrun x Hx. pose proof (append_context_ok s' id l Hok') as Happ.
      unfold wp_gen in Happ. rewrite Hrun in Happ.
      destruct Happ as (_ & _ & c0 & c1 & _ & -> & _).
      rewrite lookup_insert_ne, Hcs by done. by apply lookup_insert_ne.
  - destruct Hbr as [-> Herr]. split; [done|].
    destruct err; try done; [by rewrite Herr|].
    destruct Herr as (c & Hc & Hlt). destruct (st_context _ Hok source c Hc) as (_ & _ & Hseq).
    rewrite Hc. split; [done|]. by rewrite tokens_view, view_length.
Qed.

End laws.

(** ** A concrete client *)

Module Example.
#[local] Existing Instance trace_hasher.

Definition no_sharing (a b : SequenceChunk) : bool := false.

Definition run {A} (m : StoreM A) (s : ContextStore) : ContextStore :=
  default s (after m s).

Definition prep (cid : N) (end_ : nat) (parent : option N) (s : ContextStore)
  : option PreparedPublication :=
  match prepare_publication no_sharing cid end_ parent 1%N 1%N 7%N s with
  | Done p _ => Some p
  | _ => None
  end.

Lemma returns {A} (m : StoreM A) s :
  match m s with Done _ _ => true | _ => false end = true → ∃ a s', m s = Done a s'.
Proof. destruct (m s); [eauto|done|done]. Qed.

Lemma present {A} (o : option A) :
  match o with Some _ => true | None => false end = true → ∃ a, o = Some a.
Proof. destruct o; [eauto|done]. Qed.

Definition dummy : PreparedPublication :=
  mkPreparedPublication 0%N 0%N None
    (mkEvaluatedPrefix 0%N 0%N 0 0%N 0%N None 0%N 0%N 0%N 0%N default_sequence).

Definition toks : PersistentTokenSequence := append default_sequence [1; 2; 3; 4; 5; 6; 7; 8]%Z.

(** One context of eight tokens, with a mapping of its first four tokens and a
    second publication of the same state still pending. *)
Definition s1 : ContextStore := run (create toks 3%N 5%N) default_store.
Definition p1 : PreparedPublication := default dummy (prep 0%N 4 None s1).
Definition p2 : PreparedPublication := default dummy (prep 0%N 6 None s1).
Definition s2 : ContextStore := run (commit_publication no_sharing p1) s1.

(** Extended to all eight tokens, then both released from the catalogue. *)
Definition p3 : PreparedPublication :=
  default dummy (prep 0%N 8 (Some (ep_id (pp_mapping p1))) s2).
Definition s3 : ContextStore := run (commit_publication no_sharing p3) s2.
Definition s4 : ContextStore := run (release_mapping (ep_id (pp_mapping p1))) s3.
Definition s5 : ContextStore := run (release_mapping (ep_id (pp_mapping p3))) s4.
Definition p4 : PreparedPublication := default dummy (prep 0%N 4 None s5).

Lemma after_run {A} (m : StoreM A) s :
  match m s with Panic => false | _ => true end = true → after m s = Some (run m s).
Proof. unfold run, after. by destruct (m s). Qed.

Lemma prepare_pure cid end_ parent s :
  wlp (prepare_publication no_sharing cid end_ parent 1%N 1%N 7%N)
    (λ _ s', s' = s) (λ _ s', s' = s) s.
Proof.
  unfold prepare_publication. wp_run. destruct (cs_contexts s !! cid) as [c|]; [|done]. wp_run.
  destruct (seq_len (lc_tokens c) <? end_); [done|]. destruct (negb _); [done|].
  destruct (prefix (lc_tokens c) end_); [|done]. destruct parent as [q|]; wp_run; [|done].
  destruct (cs_mappings s !! q); [|done]. wp_run. by destruct (_ || _).
Qed.

Lemma prep_run cid end_ parent s :
  match prep cid end_ parent s with Some _ => true | None => false end = true →
  prepare_publication no_sharing cid end_ parent 1%N 1%N 7%N s
    = Done (default dummy (prep cid end_ parent s)) s.
Proof.
  pose proof (prepare_pure cid end_ parent s) as Hp. unfold wp_gen, prep in *.
  destruct (prepare_publication _ _ _ _ _ _ _ s) as [p s'| |]; [|done|done]. by rewrite Hp.
Qed.

Lemma reach1 : reachable no_sharing (s1, []).
Proof.
  eapply rtc_r; [apply rtc_refl|].
  apply (step_create _ toks 3%N 5%N default_store [] s1); [apply built_append, built_default|done|].
  apply after_run. vm_compute. reflexivity.
Qed.

Lemma prep_step cid end_ parent s ps :
  reachable no_sharing (s, ps) →
  match prep cid end_ parent s with Some _ => true | None => false end = true →
  reachable no_sharing (s, default dummy (prep cid end_ parent s) :: ps).
Proof. intros Hr Hp. eapply rtc_r; [exact Hr|]. eapply step_prepare, prep_run, Hp. Qed.

Lemma commit_step p s ps :
  reachable no_sharing (s, p :: ps) →
  match commit_publication no_sharing p s with Panic => false | _ => true end = true →
  reachable no_sharing (run (commit_publication no_sharing p) s, ps).
Proof. intros Hr Hp. eapply rtc_r; [exact Hr|]. apply (step_commit _ p s [] ps), after_run, Hp. Qed.

Lemma release_step id s ps :
  reachable no_sharing (s, ps) →
  match release_mapping id s with Panic => false | _ => true end = true →
  reachable no_sharing (run (release_mapping id) s, ps).
Proof. intros Hr Hp. eapply rtc_r; [exact Hr|]. eapply step_release, after_run, Hp. Qed.

Lemma reach_p12 : reachable no_sharing (s1, [p1; p2]).
Proof.
  refine (prep_step 0%N 4 None s1 [p2] (prep_step 0%N 6 None s1 [] reach1 _) _);
    vm_compute; reflexivity.
Qed.

Lemma reach2 : reachable no_sharing (s2, [p2]).
Proof. refine (commit_step p1 s1 [p2] reach_p12 _). vm_compute. reflexivity. Qed.

Lemma reach3 : reachable no_sharing (s3, [p2]).
Proof.
  refine (commit_step p3 s2 [p2] (prep_step 0%N 8 (Some (ep_id (pp_mapping p1))) s2 [p2] reach2 _) _);
    vm_compute; reflexivity.
Qed.

Lemma reach5 : reachable no_sharing (s5, [p4; p2]).
Proof.
  refine (prep_step 0%N 4 None s5 [p2] (release_step (ep_id (pp_mapping p3)) s4 [p2]
            (release_step (ep_id (pp_mapping p1)) s3 [p2] reach3 _) _) _);
    vm_compute; reflexivity.
Qed.

(** The re-publication defect. A client can reach a state in which
    committing a freshly prepared, valid publication panics: the mapping it
    names is kept alive only by a dependent that the context itself evaluates,
    so dropping the context's old reference reclaims it before
    [mappings[&id]] is read. *)
Theorem commit_publication_can_panic :
  reachable no_sharing (s5, [p4; p2])
  ∧ validate_publication no_sharing p4 s5 = Ok tt
  ∧ commit_publication no_sharing p4 s5 = Panic.
Proof. split; [apply reach5|]. split; vm_compute; reflexivity. Qed.

End Example.

Lemma context_store_invariant_witness :
  context_count (cs_contexts Example.s2) (ep_id (pp_mapping Example.p1)) = 1%N
  ∧ index_dense (cs_prefix_index Example.s2).
Proof.
  split; [vm_compute; reflexivity|].
  apply (context_store_invariant Example.no_sharing ltac:(discriminate) _ _ Example.reach2).
Defined.

Lemma longest_valid_prefix_maximal_witness :
  ∃ m, longest_valid_prefix Example.no_sharing 0%N Example.s2 = Ok (Some m)
    ∧ ep_represented_end m = 4
    ∧ ∀ c, cs_contexts Example.s2 !! 0%N = Some c → usable Example.s2 c m.
Proof.
  pose proof (longest_valid_prefix_maximal Example.no_sharing ltac:(discriminate)
                Example.s2 _ 0%N Example.reach2) as H.
  destruct (Example.present (context 0%N Example.s2) ltac:(vm_compute; reflexivity))
    as [c Hc]. unfold context in Hc. rewrite Hc in H |- *.
  destruct H as (r & Hr & H).
  assert (match longest_valid_prefix Example.no_sharing 0%N Example.s2 with
          | Ok (Some m) => ep_represented_end m = 4 | _ => False end) as Hend
    by (vm_compute; reflexivity).
  rewrite Hr in Hend. destruct r as [m|]; [|destruct Hend].
  exists m. split; [exact Hr|]. split; [exact Hend|]. intros c' [= <-]. apply H.
Defined.

Lemma commit_publication_atomic_witness :
  ∃ m s', commit_publication Example.no_sharing Example.p1 Example.s1 = Done m s'
    ∧ mapping (ep_id (pp_mapping Example.p1)) s' = Some m.
Proof.
  pose proof (commit_publication_atomic Example.no_sharing ltac:(discriminate)
                Example.s1 _ Example.p1 Example.reach_p12 ltac:(left)) as H.
  destruct (Example.returns (commit_publication Example.no_sharing Example.p1) Example.s1
              ltac:(vm_compute; reflexivity)) as (m & s' & Hrun).
  rewrite Hrun in H |- *. exists m, s'. split; [reflexivity|]. apply H.
Defined.

Lemma commit_publication_first_wins_witness :
  commit_publication Example.no_sharing Example.p2 Example.s2
    = Fail PublicationConflict Example.s2.
Proof.
  pose proof (λ m, commit_publication_first_wins Example.no_sharing ltac:(discriminate)
                Example.s1 _ Example.p1 Example.p2 m Example.s2 Example.reach_p12 ltac:(left)) as H.
  destruct (Example.returns (commit_publication Example.no_sharing Example.p1) Example.s1
              ltac:(vm_compute; reflexivity)) as (m & s' & Hrun).
  apply (H m); [vm_compute; reflexivity|vm_compute; reflexivity|vm_compute; discriminate|].
  unfold Example.s2, Example.run, after. rewrite Hrun. reflexivity.
Defined.

Lemma context_branch_append_isolated_witness :
  ∃ id s', branch 0%N 3 Example.s2 = Done id s' ∧ cs_contexts Example.s2 !! id = None.
Proof.
  pose proof (context_branch_append_isolated Example.no_sharing ltac:(discriminate)
                Example.s2 _ 0%N 3 Example.reach2 ltac:(vm_compute; reflexivity)) as H.
  destruct (Example.returns (branch 0%N 3) Example.s2 ltac:(vm_compute; reflexivity))
    as (id & s' & Hrun).
  rewrite Hrun in H. destruct H as [H _]. exists id, s'. split; [exact Hrun|exact H].
Defined.
