(* ===== verification/PhysicalManager.v ===== *)
(** The physical manager of [crates/physical-manager/src/lib.rs]: accounting for
    the device, host and storage copies of evaluated state, the prepared
    transitions that bind a context to a composite of copies, the transfers and
    growth reservations they hold, and eviction of unprotected device copies.

    A [HashMap] is a [gmap] and [self.map[&id]] panics on a missing key.
    Reference counts are [N]: a decrement of zero panics, increments do not
    reach the width. Byte totals are [usize] sums with their wrap-around. *)

From stdpp Require Import gmap strings list numbers.
From S2P Require Import Prelude.
From S2P Require Import TokenSequence.
From S2P Require Import ContextStore.

(** ** Identifiers and enumerations *)

Abbreviation PhysicalRepresentationId := N (only parsing).
Abbreviation ActiveBindingId := N (only parsing).
Abbreviation PreparedTransitionId := N (only parsing).
Abbreviation TransferId := N (only parsing).
Abbreviation GrowthReservationId := N (only parsing).
Abbreviation DeviceBlockTableId := N (only parsing).

Inductive Component : Type := GlobalKv | SlidingWindow | Recurrent.

#[export] Instance Component_eq_dec : EqDecision Component.
Proof. solve_decision. Defined.

Definition mask (c : Component) : ComponentMask.t :=
  match c with
  | GlobalKv => ComponentMask.GLOBAL_KV
  | SlidingWindow => ComponentMask.SWA
  | Recurrent => ComponentMask.RECURRENT
  end.

Inductive Tier : Type := Device | Host | Storage.

Inductive TransitionClass : Type := ReferenceOnly | NonDestructive | Quiesced | Recompute.

#[export] Instance TransitionClass_eq_dec : EqDecision TransitionClass.
Proof. solve_decision. Defined.

(** ** Data *)

Module Refs.
Record ReferenceCounts : Type := mk { logical : N; active : N; reservations : N; transfers : N }.

Definition protected (r : ReferenceCounts) : bool :=
  negb (active r =? 0)%N || negb (reservations r =? 0)%N || negb (transfers r =? 0)%N.

Definition set_logical (f : N → N) (r : ReferenceCounts) :=
  mk (f (logical r)) (active r) (reservations r) (transfers r).
Definition set_active (f : N → N) (r : ReferenceCounts) :=
  mk (logical r) (f (active r)) (reservations r) (transfers r).
Definition set_reservations (f : N → N) (r : ReferenceCounts) :=
  mk (logical r) (active r) (f (reservations r)) (transfers r).
Definition set_transfers (f : N → N) (r : ReferenceCounts) :=
  mk (logical r) (active r) (reservations r) (f (transfers r)).
End Refs.

Record PhysicalRepresentation : Type := mkRepresentation {
  pr_id : PhysicalRepresentationId;
  pr_mapping : EvaluatedPrefixId;
  pr_component : Component;
  pr_represented_end : nat;
  pr_bytes : N;
  pr_device : bool;
  pr_host : bool;
  pr_storage : bool;
  pr_references : Refs.ReferenceCounts;
  pr_last_used : N;
  pr_reuse_value : N;
}.

(** Field updates. *)
Definition set_tiers (device host storage : bool) (r : PhysicalRepresentation)
  : PhysicalRepresentation :=
  mkRepresentation (pr_id r) (pr_mapping r) (pr_component r) (pr_represented_end r) (pr_bytes r)
    device host storage (pr_references r) (pr_last_used r) (pr_reuse_value r).

Definition set_refs (f : Refs.ReferenceCounts → Refs.ReferenceCounts)
    (r : PhysicalRepresentation) : PhysicalRepresentation :=
  mkRepresentation (pr_id r) (pr_mapping r) (pr_component r) (pr_represented_end r) (pr_bytes r)
    (pr_device r) (pr_host r) (pr_storage r) (f (pr_references r)) (pr_last_used r)
    (pr_reuse_value r).

Definition set_last_used (t : N) (r : PhysicalRepresentation) : PhysicalRepresentation :=
  mkRepresentation (pr_id r) (pr_mapping r) (pr_component r) (pr_represented_end r) (pr_bytes r)
    (pr_device r) (pr_host r) (pr_storage r) (pr_references r) t (pr_reuse_value r).

Record DeviceBlock : Type := mkDeviceBlock {
  db_representation : PhysicalRepresentationId;
  db_component : Component;
  db_bytes : N;
}.

Record DeviceBlockTable : Type := mkDeviceBlockTable {
  bt_id : DeviceBlockTableId;
  bt_binding : ActiveBindingId;
  bt_mapping : EvaluatedPrefixId;
  bt_executor_mapping : N;
  bt_blocks : list DeviceBlock;
}.

Record Capacity : Type := mkCapacity { device_bytes : N; host_bytes : N }.

Record Metrics : Type := mkMetrics {
  device_total : N;
  device_active : N;
  device_growth_reserved : N;
  device_transition_reserved : N;
  device_detached_transfer_reserved : N;
  device_warm : N;
  host_total : N;
  host_used_metric : N;
  transfer_bytes : N;
  promotions : N;
  demotions : N;
  evictions : N;
  prepared : N;
  committed : N;
  aborted : N;
  recomputed : N;
  mapped_publications : N;
  reference_switches : N;
}.

Inductive TraceEvent : Type :=
| Registered (representation : PhysicalRepresentationId) (tier : Tier) (bytes : N)
| Prepared (transition : PreparedTransitionId) (class : TransitionClass) (reserved_bytes : N)
| TransferCompleted (transfer : TransferId) (bytes : N) (success : bool)
| Committed (transition : PreparedTransitionId) (binding : ActiveBindingId)
| Aborted (transition : PreparedTransitionId)
| Promoted (representation : PhysicalRepresentationId) (bytes : N)
| Demoted (representation : PhysicalRepresentationId) (bytes : N)
| Evicted (representation : PhysicalRepresentationId) (tier : Tier) (bytes : N).

Record ActiveBinding : Type := mkActiveBinding {
  ab_id : ActiveBindingId;
  ab_mapping : EvaluatedPrefixId;
  ab_representations : list PhysicalRepresentationId;
}.

Record PreparedTransition : Type := mkPreparedTransition {
  pt_context : LogicalContextId;
  pt_revision : N;
  pt_mapping : EvaluatedPrefixId;
  pt_representations : list PhysicalRepresentationId;
  pt_transfers : list TransferId;
  pt_reserved_bytes : N;
  pt_class : TransitionClass;
}.

Record Transfer : Type := mkTransfer {
  tr_representation : PhysicalRepresentationId;
  tr_bytes : N;
  tr_completed : bool;
  tr_success : bool;
  tr_detached : bool;
}.

Record GrowthReservation : Type := mkGrowthReservation { gr_bytes : N }.

Module PMError.
Inductive Error : Type :=
| RepresentationNotFound
| BindingNotFound
| TransitionNotFound
| TransferNotFound
| GrowthReservationNotFound
| DeviceCapacity
| HostCapacity
| InvalidComposite
| NoPromotionSource
| TransferPending
| TransferFailed
| StaleRevision
| Protected.
End PMError.
Import PMError.

Record PhysicalManager : Type := mkPhysicalManager {
  pm_capacity : Capacity;
  pm_next_id : N;
  pm_clock : N;
  pm_representations : gmap N PhysicalRepresentation;
  pm_bindings : gmap N ActiveBinding;
  pm_transitions : gmap N PreparedTransition;
  pm_transfers : gmap N Transfer;
  pm_growth : gmap N GrowthReservation;
  pm_block_tables : gmap N DeviceBlockTable;
  pm_metrics : Metrics;
  pm_events : list TraceEvent;
}.

Definition PMM : Type → Type := M PhysicalManager Error.

Definition new (capacity : Capacity) : PhysicalManager :=
  mkPhysicalManager capacity 1 0 ∅ ∅ ∅ ∅ ∅ ∅
    (mkMetrics (device_bytes capacity) 0 0 0 0 0 (host_bytes capacity) 0 0 0 0 0 0 0 0 0 0 0) [].

(** Field updates of the manager. *)
Definition on_representations (f : gmap N PhysicalRepresentation → gmap N PhysicalRepresentation)
    (s : PhysicalManager) : PhysicalManager :=
  mkPhysicalManager (pm_capacity s) (pm_next_id s) (pm_clock s) (f (pm_representations s))
    (pm_bindings s) (pm_transitions s) (pm_transfers s) (pm_growth s) (pm_block_tables s)
    (pm_metrics s) (pm_events s).
Definition on_bindings (f : gmap N ActiveBinding → gmap N ActiveBinding)
    (s : PhysicalManager) : PhysicalManager :=
  mkPhysicalManager (pm_capacity s) (pm_next_id s) (pm_clock s) (pm_representations s)
    (f (pm_bindings s)) (pm_transitions s) (pm_transfers s) (pm_growth s) (pm_block_tables s)
    (pm_metrics s) (pm_events s).
Definition on_transitions (f : gmap N PreparedTransition → gmap N PreparedTransition)
    (s : PhysicalManager) : PhysicalManager :=
  mkPhysicalManager (pm_capacity s) (pm_next_id s) (pm_clock s) (pm_representations s)
    (pm_bindings s) (f (pm_transitions s)) (pm_transfers s) (pm_growth s) (pm_block_tables s)
    (pm_metrics s) (pm_events s).
Definition on_transfers (f : gmap N Transfer → gmap N Transfer)
    (s : PhysicalManager) : PhysicalManager :=
  mkPhysicalManager (pm_capacity s) (pm_next_id s) (pm_clock s) (pm_representations s)
    (pm_bindings s) (pm_transitions s) (f (pm_transfers s)) (pm_growth s) (pm_block_tables s)
    (pm_metrics s) (pm_events s).
Definition on_growth (f : gmap N GrowthReservation → gmap N GrowthReservation)
    (s : PhysicalManager) : PhysicalManager :=
  mkPhysicalManager (pm_capacity s) (pm_next_id s) (pm_clock s) (pm_representations s)
    (pm_bindings s) (pm_transitions s) (pm_transfers s) (f (pm_growth s)) (pm_block_tables s)
    (pm_metrics s) (pm_events s).
Definition on_block_tables (f : gmap N DeviceBlockTable → gmap N DeviceBlockTable)
    (s : PhysicalManager) : PhysicalManager :=
  mkPhysicalManager (pm_capacity s) (pm_next_id s) (pm_clock s) (pm_representations s)
    (pm_bindings s) (pm_transitions s) (pm_transfers s) (pm_growth s) (f (pm_block_tables s))
    (pm_metrics s) (pm_events s).
Definition on_metrics (f : Metrics → Metrics) (s : PhysicalManager) : PhysicalManager :=
  mkPhysicalManager (pm_capacity s) (pm_next_id s) (pm_clock s) (pm_representations s)
    (pm_bindings s) (pm_transitions s) (pm_transfers s) (pm_growth s) (pm_block_tables s)
    (f (pm_metrics s)) (pm_events s).
Definition push_event (e : TraceEvent) (s : PhysicalManager) : PhysicalManager :=
  mkPhysicalManager (pm_capacity s) (pm_next_id s) (pm_clock s) (pm_representations s)
    (pm_bindings s) (pm_transitions s) (pm_transfers s) (pm_growth s) (pm_block_tables s)
    (pm_metrics s) (pm_events s ++ [e]).
Definition set_ids (next_id clock : N) (s : PhysicalManager) : PhysicalManager :=
  mkPhysicalManager (pm_capacity s) next_id clock (pm_representations s)
    (pm_bindings s) (pm_transitions s) (pm_transfers s) (pm_growth s) (pm_block_tables s)
    (pm_metrics s) (pm_events s).

(** ** Counters *)

Definition add_transfer_bytes (n : N) (m : Metrics) : Metrics :=
  mkMetrics (device_total m) (device_active m) (device_growth_reserved m)
    (device_transition_reserved m) (device_detached_transfer_reserved m) (device_warm m)
    (host_total m) (host_used_metric m) (wrapping_add (transfer_bytes m) n) (promotions m)
    (demotions m) (evictions m) (prepared m) (committed m) (aborted m) (recomputed m)
    (mapped_publications m) (reference_switches m).

Inductive Counter : Type :=
| CPromotions | CDemotions | CEvictions | CPrepared | CCommitted | CAborted | CRecomputed
| CMappedPublications | CReferenceSwitches.

#[export] Instance Counter_eq_dec : EqDecision Counter.
Proof. solve_decision. Defined.

(** [self.metrics.counter += 1]. *)
Definition bump (c : Counter) (m : Metrics) : Metrics :=
  let on (d : Counter) (n : N) := if decide (c = d) then wrapping_add n 1 else n in
  mkMetrics (device_total m) (device_active m) (device_growth_reserved m)
    (device_transition_reserved m) (device_detached_transfer_reserved m) (device_warm m)
    (host_total m) (host_used_metric m) (transfer_bytes m)
    (on CPromotions (promotions m)) (on CDemotions (demotions m)) (on CEvictions (evictions m))
    (on CPrepared (prepared m)) (on CCommitted (committed m)) (on CAborted (aborted m))
    (on CRecomputed (recomputed m)) (on CMappedPublications (mapped_publications m))
    (on CReferenceSwitches (reference_switches m)).

Definition count (c : Counter) : PMM unit := modify (on_metrics (bump c)).

Definition emit (e : TraceEvent) : PMM unit := modify (push_event e).

(** [self.id()] and [self.tick()]. *)
Definition id_ : PMM N :=
  s ← get;
  next ← expect (checked_add (pm_next_id s) 1);
  _ ← modify (set_ids next (pm_clock s));
  mret (pm_next_id s).

Definition tick : PMM N :=
  s ← get;
  clock ← expect (checked_add (pm_clock s) 1);
  _ ← modify (set_ids (pm_next_id s) clock);
  mret clock.

(** ** Byte totals *)

Definition where_ (b : bool) (n : N) : N := if b then n else 0%N.

Definition device_used (s : PhysicalManager) : N :=
  usize_sum (λ r, where_ (pr_device r) (pr_bytes r)) (pm_representations s).

Definition protected_device_bytes (s : PhysicalManager) : N :=
  usize_sum (λ r, where_ (pr_device r && negb (Refs.active (pr_references r) =? 0)%N) (pr_bytes r))
    (pm_representations s).

Definition detached_transfer_reserved_bytes (s : PhysicalManager) : N :=
  usize_sum (λ t, where_ (tr_detached t && negb (tr_completed t)) (tr_bytes t)) (pm_transfers s).

Definition host_used (s : PhysicalManager) : N :=
  usize_sum (λ r, where_ (pr_host r) (pr_bytes r)) (pm_representations s).

Definition growth_reserved (s : PhysicalManager) : N :=
  usize_sum gr_bytes (pm_growth s).

Definition transition_reserved (s : PhysicalManager) : N :=
  usize_sum pt_reserved_bytes (pm_transitions s).

Definition warm (r : PhysicalRepresentation) : bool :=
  pr_device r && negb (Refs.protected (pr_references r)).

Definition refresh (s : PhysicalManager) : PhysicalManager :=
  on_metrics (λ m, mkMetrics (device_total m) (protected_device_bytes s) (growth_reserved s)
    (transition_reserved s) (detached_transfer_reserved_bytes s)
    (usize_sum (λ r, where_ (warm r) (pr_bytes r)) (pm_representations s))
    (host_total m) (host_used s) (transfer_bytes m) (promotions m) (demotions m) (evictions m)
    (prepared m) (committed m) (aborted m) (recomputed m) (mapped_publications m)
    (reference_switches m)) s.

Definition refresh_capacity_metrics : PMM unit := modify refresh.

(** ** Updates of one representation *)

(** [self.representations.get_mut(&id).unwrap()] followed by an assignment. *)
Definition update_rep (id : PhysicalRepresentationId)
    (f : PhysicalRepresentation → PhysicalRepresentation) : PMM unit :=
  s ← get;
  _ ← expect (pm_representations s !! id);
  modify (on_representations (alter f id)).

(** [.. .references.active -= 1] and its siblings: an underflow is a panic. *)
Definition release_ref (count : Refs.ReferenceCounts → N)
    (set : (N → N) → Refs.ReferenceCounts → Refs.ReferenceCounts)
    (id : PhysicalRepresentationId) : PMM unit :=
  s ← get;
  r ← expect (pm_representations s !! id);
  if (count (pr_references r) =? 0)%N then panic
  else modify (on_representations (alter (set_refs (set N.pred)) id)).

Definition release_active := release_ref Refs.active Refs.set_active.
Definition release_reservation := release_ref Refs.reservations Refs.set_reservations.
Definition release_transfer := release_ref Refs.transfers Refs.set_transfers.

(** ** Capacity and eviction *)

Definition ensure_host_capacity (additional : N) : PMM unit :=
  s ← get;
  match checked_add (host_used s) additional with
  | Some used => guard_not (negb (used <=? host_bytes (pm_capacity s))%N) HostCapacity
  | None => throw HostCapacity
  end.

(** The tier flags after [evict] dropped one, if there was one to drop. *)
Definition drop_tier (tier : Tier) (r : PhysicalRepresentation) : option PhysicalRepresentation :=
  match tier with
  | Device => if pr_device r then Some (set_tiers false (pr_host r) (pr_storage r) r) else None
  | Host => if pr_host r then Some (set_tiers (pr_device r) false (pr_storage r) r) else None
  | Storage => if pr_storage r then Some (set_tiers (pr_device r) (pr_host r) false r) else None
  end.

Definition evict (id : PhysicalRepresentationId) (tier : Tier) : PMM unit :=
  s ← get;
  r ← ok_or (pm_representations s !! id) RepresentationNotFound;
  _ ← guard_not (Refs.protected (pr_references r)) Protected;
  match drop_tier tier r with
  | None => mret tt
  | Some r' =>
      _ ← modify (on_representations (insert id r'));
      _ ← count CEvictions;
      _ ← emit (Evicted id tier (pr_bytes r));
      refresh_capacity_metrics
  end.

(** The key of [min_by_key] in [ensure_device_space], in lexicographic order. *)
Definition eviction_lt (a b : PhysicalRepresentation) : bool :=
  (pr_reuse_value a <? pr_reuse_value b)%N
  || ((pr_reuse_value a =? pr_reuse_value b)%N
      && ((pr_last_used a <? pr_last_used b)%N
          || ((pr_last_used a =? pr_last_used b)%N && (pr_id a <? pr_id b)%N))).

Definition eviction_candidate (s : PhysicalManager) : option PhysicalRepresentation :=
  min_by eviction_lt (filter (λ r, warm r = true) (map_values (pm_representations s))).

(** [self.device_used().checked_add(additional).is_none_or(|used| used > capacity)]. *)
Definition lacks_space (additional : N) (s : PhysicalManager) : bool :=
  match checked_add (device_used s) additional with
  | None => true
  | Some used => (device_bytes (pm_capacity s) <? used)%N
  end.

(** The eviction loop. Every turn takes one representation off the device, so
    one more turn than there are representations is enough fuel. *)
Fixpoint ensure_device_space_loop (fuel : nat) (additional : N) : PMM unit :=
  match fuel with
  | O => panic
  | S fuel' =>
      s ← get;
      if lacks_space additional s then
        candidate ← ok_or (eviction_candidate s) DeviceCapacity;
        _ ← evict (pr_id candidate) Device;
        ensure_device_space_loop fuel' additional
      else mret tt
  end.

Definition ensure_device_space (additional : N) : PMM unit :=
  s ← get;
  ensure_device_space_loop (S (size (pm_representations s))) additional.

Definition reservations (s : PhysicalManager) : N :=
  wrapping_add (wrapping_add (growth_reserved s) (transition_reserved s))
    (detached_transfer_reserved_bytes s).

Definition ensure_device_capacity (additional_guarded : N) : PMM unit :=
  s ← get;
  required ← ok_or (checked_add (protected_device_bytes s) (reservations s)
                      ≫= λ value, checked_add value additional_guarded) DeviceCapacity;
  _ ← guard_not (device_bytes (pm_capacity s) <? required)%N DeviceCapacity;
  ensure_device_space additional_guarded.

(** ** Registration and logical references *)

Definition fresh_representation (id mapping : N) (component : Component) (represented_end : nat)
    (bytes : N) (tier : Tier) (last_used reuse_value : N) : PhysicalRepresentation :=
  mkRepresentation id mapping component represented_end bytes
    (match tier with Device => true | _ => false end)
    (match tier with Host => true | _ => false end)
    (match tier with Storage => true | _ => false end)
    (Refs.mk 1 0 0 0) last_used reuse_value.

Definition register (mapping : EvaluatedPrefixId) (component : Component) (represented_end : nat)
    (bytes : N) (tier : Tier) (reuse_value : N) : PMM PhysicalRepresentationId :=
  _ ← match tier with
      | Device => ensure_device_capacity bytes
      | Host => ensure_host_capacity bytes
      | Storage => mret tt
      end;
  id ← id_;
  last_used ← tick;
  _ ← modify (on_representations (insert id
        (fresh_representation id mapping component represented_end bytes tier last_used
           reuse_value)));
  _ ← emit (Registered id tier bytes);
  _ ← refresh_capacity_metrics;
  mret id.

Definition release_logical_reference (id : PhysicalRepresentationId) : PMM unit :=
  s ← get;
  r ← ok_or (pm_representations s !! id) RepresentationNotFound;
  let r' := set_refs (Refs.set_logical N.pred) r in
  _ ← modify (on_representations (insert id r'));
  _ ← (if (Refs.logical (pr_references r') =? 0)%N && negb (Refs.protected (pr_references r'))
       then modify (on_representations (delete id)) else mret tt);
  refresh_capacity_metrics.

(** ** Bindings and block tables *)

Definition active_binding (context : LogicalContextId) (s : PhysicalManager) : option (N * N) :=
  (λ b, (ab_id b, ab_mapping b)) <$> pm_bindings s !! context.

(** The block descriptions of a composite that must be on the device. *)
Definition device_blocks (e : Error) (ids : list PhysicalRepresentationId)
  : PMM (list DeviceBlock) :=
  map_M (λ id,
    s ← get;
    r ← expect (pm_representations s !! id);
    _ ← guard_not (negb (pr_device r)) e;
    mret (mkDeviceBlock id (pr_component r) (pr_bytes r))) ids.

Definition publish_device_block_table (context : LogicalContextId) (binding : ActiveBindingId)
    (executor_mapping : N) : PMM DeviceBlockTableId :=
  s ← get;
  active ← ok_or (pm_bindings s !! context) BindingNotFound;
  _ ← guard_not (negb (ab_id active =? binding)%N) BindingNotFound;
  blocks ← device_blocks InvalidComposite (ab_representations active);
  id ← id_;
  _ ← modify (on_block_tables (insert context
        (mkDeviceBlockTable id binding (ab_mapping active) executor_mapping blocks)));
  _ ← count CMappedPublications;
  mret id.

Definition unbind (context : LogicalContextId) : PMM unit :=
  s ← get;
  binding ← ok_or (pm_bindings s !! context) BindingNotFound;
  _ ← modify (on_bindings (delete context));
  _ ← modify (on_block_tables (delete context));
  _ ← for_each release_active (ab_representations binding);
  refresh_capacity_metrics.

(** [release_binding] has the body of [unbind]. *)
Definition release_binding (context : LogicalContextId) : PMM unit :=
  s ← get;
  binding ← ok_or (pm_bindings s !! context) BindingNotFound;
  _ ← modify (on_bindings (delete context));
  _ ← modify (on_block_tables (delete context));
  _ ← for_each release_active (ab_representations binding);
  refresh_capacity_metrics.

(** ** Growth reservations *)

Definition reserve_growth (bytes : N) : PMM GrowthReservationId :=
  _ ← ensure_device_capacity bytes;
  id ← id_;
  _ ← modify (on_growth (insert id (mkGrowthReservation bytes)));
  _ ← refresh_capacity_metrics;
  mret id.

Definition release_growth (id : GrowthReservationId) : PMM unit :=
  s ← get;
  _ ← ok_or (pm_growth s !! id) GrowthReservationNotFound;
  _ ← modify (on_growth (delete id));
  refresh_capacity_metrics.

(** ** Preparing a transition *)

(** The scan of [validate_composite]: the components present, in order. *)
Fixpoint scan_composite (reps : gmap N PhysicalRepresentation) (mapping : EvaluatedPrefixId)
    (represented_end : nat) (present : list Component) (ids : list PhysicalRepresentationId)
  : result Error (list Component) :=
  match ids with
  | [] => Ok present
  | id :: ids' =>
      match reps !! id with
      | None => Err RepresentationNotFound
      | Some r =>
          if negb (pr_mapping r =? mapping)%N
             || negb (pr_represented_end r =? represented_end)
             || bool_decide (pr_component r ∈ present)
          then Err InvalidComposite
          else scan_composite reps mapping represented_end (present ++ [pr_component r]) ids'
      end
  end.

Definition validate_composite (s : PhysicalManager) (mapping : EvaluatedPrefixId)
    (represented_end : nat) (required : ComponentMask.t)
    (ids : list PhysicalRepresentationId) : result Error unit :=
  present ← scan_composite (pm_representations s) mapping represented_end [] ids;
  if forallb (λ c, eqb (ComponentMask.contains required (mask c)) (bool_decide (c ∈ present)))
       [GlobalKv; SlidingWindow; Recurrent]
  then Ok tt else Err InvalidComposite.

(** The first loop of [prepare_transition]: the bytes to bring to the device
    and whether something must be recomputed. *)
Fixpoint plan (reps : gmap N PhysicalRepresentation) (allow_recompute : bool)
    (missing_bytes : N) (recompute : bool) (ids : list PhysicalRepresentationId)
  : PMM (N * bool) :=
  match ids with
  | [] => mret (missing_bytes, recompute)
  | id :: ids' =>
      r ← expect (reps !! id);
      if pr_device r then plan reps allow_recompute missing_bytes recompute ids'
      else if pr_host r || pr_storage r then
        missing ← ok_or (checked_add missing_bytes (pr_bytes r)) DeviceCapacity;
        plan reps allow_recompute missing recompute ids'
      else if allow_recompute then
        missing ← ok_or (checked_add missing_bytes (pr_bytes r)) DeviceCapacity;
        plan reps allow_recompute missing true ids'
      else throw NoPromotionSource
  end.

Definition needs_transfer (r : PhysicalRepresentation) : bool :=
  negb (pr_device r) && (pr_host r || pr_storage r).

(** The body of the second loop: protect one member, start its transfer. *)
Definition reserve_member (id : PhysicalRepresentationId) : PMM (list TransferId) :=
  s ← get;
  r ← expect (pm_representations s !! id);
  _ ← update_rep id (set_refs (Refs.set_reservations N.succ));
  if needs_transfer r then
    transfer ← id_;
    _ ← update_rep id (set_refs (Refs.set_transfers N.succ));
    _ ← modify (on_transfers (insert transfer (mkTransfer id (pr_bytes r) false false false)));
    mret [transfer]
  else mret [].

Definition classify (recompute : bool) (missing_bytes : N) (bound : bool) : TransitionClass :=
  if recompute then Recompute
  else if (missing_bytes =? 0)%N then ReferenceOnly
  else if bound then NonDestructive
  else Quiesced.

Definition prepare_transition (context : LogicalContextId) (revision : N)
    (mapping : EvaluatedPrefixId) (represented_end : nat) (required : ComponentMask.t)
    (ids : list PhysicalRepresentationId) (allow_recompute : bool)
  : PMM (PreparedTransitionId * TransitionClass * list TransferId) :=
  s ← get;
  _ ← lift_result (validate_composite s mapping represented_end required ids);
  '(missing_bytes, recompute) ←
    plan (pm_representations s) allow_recompute 0 false ids;
  _ ← ensure_device_capacity missing_bytes;
  s ← get;
  let class := classify recompute missing_bytes
                 (bool_decide (is_Some (pm_bindings s !! context))) in
  transition_id ← id_;
  transfers ← map_M reserve_member ids;
  let transfer_ids := concat transfers in
  _ ← modify (on_transitions (insert transition_id
        (mkPreparedTransition context revision mapping ids transfer_ids missing_bytes class)));
  _ ← count CPrepared;
  _ ← emit (Prepared transition_id class missing_bytes);
  _ ← refresh_capacity_metrics;
  mret (transition_id, class, transfer_ids).

Definition transition_class (id : PreparedTransitionId) (s : PhysicalManager)
  : option TransitionClass := pt_class <$> pm_transitions s !! id.

(** ** Completing its transfers and recomputations *)

Definition set_device (r : PhysicalRepresentation) : PhysicalRepresentation :=
  set_tiers true (pr_host r) (pr_storage r) r.

Definition complete_transfer (id : TransferId) (success : bool) : PMM unit :=
  s ← get;
  t ← ok_or (pm_transfers s !! id) TransferNotFound;
  if tr_completed t then mret tt else
  _ ← (if success then
         s ← get;
         r ← expect (pm_representations s !! tr_representation t);
         _ ← (if pr_device r then mret tt
              else
                _ ← ensure_device_space (tr_bytes t);
                _ ← update_rep (tr_representation t) set_device;
                _ ← count CPromotions;
                emit (Promoted (tr_representation t) (tr_bytes t)));
         modify (on_metrics (add_transfer_bytes (tr_bytes t)))
       else mret tt);
  s ← get;
  t' ← expect (pm_transfers s !! id);
  _ ← modify (on_transfers (insert id
        (mkTransfer (tr_representation t') (tr_bytes t') true success (tr_detached t'))));
  _ ← release_transfer (tr_representation t);
  _ ← emit (TransferCompleted id (tr_bytes t) success);
  _ ← refresh_capacity_metrics;
  if tr_detached t' then modify (on_transfers (delete id)) else mret tt.

Definition complete_recompute (transition : PreparedTransitionId)
    (representation : PhysicalRepresentationId) : PMM unit :=
  s ← get;
  p ← ok_or (pm_transitions s !! transition) TransitionNotFound;
  _ ← guard_not (negb (bool_decide (pt_class p = Recompute))
                 || negb (bool_decide (representation ∈ pt_representations p))) InvalidComposite;
  r ← expect (pm_representations s !! representation);
  _ ← (if pr_device r then mret tt
       else
         _ ← ensure_device_space (pr_bytes r);
         _ ← update_rep representation set_device;
         count CRecomputed);
  refresh_capacity_metrics.

(** ** Committing and aborting *)

(** [for transfer in &transition.transfers { ... }] of both commits. *)
Definition check_transfers (ids : list TransferId) : PMM unit :=
  for_each (λ id,
    s ← get;
    t ← expect (pm_transfers s !! id);
    _ ← guard_not (negb (tr_completed t)) TransferPending;
    guard_not (negb (tr_success t)) TransferFailed) ids.

(** [representations.iter().any(|rep| !self.representations[rep].device)]. *)
Fixpoint any_off_device (ids : list PhysicalRepresentationId) : PMM bool :=
  match ids with
  | [] => mret false
  | id :: ids' =>
      s ← get;
      r ← expect (pm_representations s !! id);
      if pr_device r then any_off_device ids' else mret true
  end.

Definition release_transition_refs (transition : PreparedTransition) : PMM unit :=
  for_each release_reservation (pt_representations transition).

(** The new members become active and are stamped with the clock. *)
Definition activate (id : PhysicalRepresentationId) : PMM unit :=
  s ← get;
  update_rep id (λ r, set_last_used (pm_clock s) (set_refs (Refs.set_active N.succ) r)).

Definition commit_transition (id : PreparedTransitionId) (current_revision : N)
  : PMM ActiveBindingId :=
  s ← get;
  transition ← ok_or (pm_transitions s !! id) TransitionNotFound;
  _ ← guard_not (negb (pt_revision transition =? current_revision)%N) StaleRevision;
  _ ← check_transfers (pt_transfers transition);
  off ← any_off_device (pt_representations transition);
  _ ← guard_not off TransferPending;
  _ ← modify (on_transitions (delete id));
  _ ← release_transition_refs transition;
  _ ← modify (on_block_tables (delete (pt_context transition)));
  s ← get;
  let old := pm_bindings s !! pt_context transition in
  _ ← (if bool_decide (pt_class transition = ReferenceOnly) && bool_decide (is_Some old)
       then count CReferenceSwitches else mret tt);
  _ ← match old with
      | Some old =>
          _ ← modify (on_bindings (delete (pt_context transition)));
          for_each release_active (ab_representations old)
      | None => mret tt
      end;
  _ ← for_each activate (pt_representations transition);
  binding ← id_;
  _ ← modify (on_bindings (insert (pt_context transition)
        (mkActiveBinding binding (pt_mapping transition) (pt_representations transition))));
  _ ← count CCommitted;
  _ ← for_each (λ transfer, modify (on_transfers (delete transfer))) (pt_transfers transition);
  _ ← emit (Committed id binding);
  _ ← refresh_capacity_metrics;
  mret binding.

Definition commit_mapped_transition (transition : PreparedTransitionId) (current_revision : N)
    (executor_mapping : N) : PMM (ActiveBindingId * DeviceBlockTableId) :=
  s ← get;
  p ← ok_or (pm_transitions s !! transition) TransitionNotFound;
  _ ← guard_not (negb (pt_revision p =? current_revision)%N) StaleRevision;
  _ ← check_transfers (pt_transfers p);
  blocks ← device_blocks TransferPending (pt_representations p);
  table_id ← id_;
  binding ← commit_transition transition current_revision;
  _ ← modify (on_block_tables (insert (pt_context p)
        (mkDeviceBlockTable table_id binding (pt_mapping p) executor_mapping blocks)));
  _ ← count CMappedPublications;
  mret (binding, table_id).

Definition device_block_table (context : LogicalContextId) (s : PhysicalManager)
  : option DeviceBlockTable := pm_block_tables s !! context.

(** Completed transfers are forgotten, pending ones go on without the transition. *)
Definition detach_transfer (id : TransferId) : PMM unit :=
  s ← get;
  t ← expect (pm_transfers s !! id);
  if tr_completed t then modify (on_transfers (delete id))
  else modify (on_transfers (insert id
         (mkTransfer (tr_representation t) (tr_bytes t) (tr_completed t) (tr_success t) true))).

Definition abort_transition (id : PreparedTransitionId) : PMM unit :=
  s ← get;
  transition ← ok_or (pm_transitions s !! id) TransitionNotFound;
  _ ← modify (on_transitions (delete id));
  _ ← for_each detach_transfer (pt_transfers transition);
  _ ← release_transition_refs transition;
  _ ← count CAborted;
  _ ← emit (Aborted id);
  refresh_capacity_metrics.

(** ** Demotion *)

Definition demote_to_host (id : PhysicalRepresentationId) : PMM unit :=
  s ← get;
  r ← ok_or (pm_representations s !! id) RepresentationNotFound;
  _ ← guard_not (Refs.protected (pr_references r)) Protected;
  _ ← (if pr_host r then mret tt else ensure_host_capacity (pr_bytes r));
  _ ← modify (on_representations (insert id (set_tiers false true (pr_storage r) r)));
  _ ← (if pr_device r
       then _ ← count CDemotions; emit (Demoted id (pr_bytes r)) else mret tt);
  refresh_capacity_metrics.

Definition demote_to_storage (id : PhysicalRepresentationId) : PMM unit :=
  s ← get;
  r ← ok_or (pm_representations s !! id) RepresentationNotFound;
  _ ← guard_not (Refs.protected (pr_references r)) Protected;
  _ ← modify (on_representations (insert id (set_tiers false false true r)));
  _ ← (if pr_device r
       then _ ← count CDemotions; emit (Demoted id (pr_bytes r)) else mret tt);
  refresh_capacity_metrics.

Definition metrics (s : PhysicalManager) : Metrics := pm_metrics s.
Definition events (s : PhysicalManager) : list TraceEvent := pm_events s.
