(* ===== verification/PhysicalLaws.v ===== *)
(** Laws of the physical manager: the reference counts, the capacity bound and
    the block tables are invariants of every operation, no operation panics,
    eviction takes unprotected copies in key order, commits are atomic. *)

From stdpp Require Import gmap strings list numbers.
From S2P Require Import Prelude.
From S2P Require Import TokenSequence.
From S2P Require Import ContextStore.
From S2P Require Import PhysicalManager.
Import PMError.

Implicit Types (s : PhysicalManager) (r : PhysicalRepresentation) (id : N)
  (reps : gmap N PhysicalRepresentation).

Section laws.
(** The capacity the manager was created with. *)
Context (cap : Capacity).

(** ** The accounting of representations *)

(** The counts the references of a representation must have. *)
Record Owners : Type := mkOwners { own_active : N → N; own_reserved : N → N; own_transfer : N → N }.

Definition refs_ok (o : Owners) reps : Prop := ∀ id,
  match reps !! id with
  | Some r => Refs.active (pr_references r) = own_active o id
              ∧ Refs.reservations (pr_references r) = own_reserved o id
              ∧ Refs.transfers (pr_references r) = own_transfer o id
  | None => own_active o id = 0%N ∧ own_reserved o id = 0%N ∧ own_transfer o id = 0%N
  end.

Definition on_device r : N := where_ (pr_device r) (pr_bytes r).
Definition on_host r : N := where_ (pr_host r) (pr_bytes r).

Record core_ok (o : Owners) s : Prop := {
  co_id : ∀ id r, pm_representations s !! id = Some r → pr_id r = id ∧ (id < pm_next_id s)%N;
  co_refs : refs_ok o (pm_representations s);
  co_active : ∀ id r, pm_representations s !! id = Some r →
    (0 < Refs.active (pr_references r))%N → pr_device r = true;
  co_device : (map_sum on_device (pm_representations s) ≤ device_bytes (pm_capacity s))%N;
  co_host : (map_sum on_host (pm_representations s) ≤ host_bytes (pm_capacity s))%N;
  co_capacity : (device_bytes (pm_capacity s) ≤ usize_max)%N
                ∧ (host_bytes (pm_capacity s) ≤ usize_max)%N;
  co_fixed : pm_capacity s = cap;
}.

(** What an update of the representations leaves alone. *)
Record frame s s' : Prop := {
  fr_capacity : pm_capacity s' = pm_capacity s;
  fr_next : pm_next_id s' = pm_next_id s;
  fr_clock : pm_clock s' = pm_clock s;
  fr_bindings : pm_bindings s' = pm_bindings s;
  fr_transitions : pm_transitions s' = pm_transitions s;
  fr_transfers : pm_transfers s' = pm_transfers s;
  fr_growth : pm_growth s' = pm_growth s;
  fr_tables : pm_block_tables s' = pm_block_tables s;
}.

#[export] Instance frame_preorder : PreOrder frame.
Proof.
  split; [by intros s; split|]. intros s1 s2 s3 [] []. split; congruence.
Qed.

(** The fields of a representation no operation changes. *)
Definition shape r : N * N * Component * nat * N :=
  (pr_id r, pr_mapping r, pr_component r, pr_represented_end r, pr_bytes r).

Definition stable reps reps' : Prop :=
  ∀ id r, reps !! id = Some r → ∃ r', reps' !! id = Some r' ∧ shape r' = shape r.

#[export] Instance stable_preorder : PreOrder stable.
Proof.
  split; [intros m id r Hr; eauto|]. intros m1 m2 m3 H1 H2 id r Hr.
  destruct (H1 id r Hr) as (r' & Hr' & <-). eauto.
Qed.

Lemma device_used_sum o s : core_ok o s → device_used s = map_sum on_device (pm_representations s).
Proof.
  intros Hok. pose proof (co_device _ _ Hok). pose proof (co_capacity _ _ Hok) as [? _].
  apply usize_sum_small. change (map_sum _ _) with (map_sum on_device (pm_representations s)). lia.
Qed.

Lemma host_used_sum o s : core_ok o s → host_used s = map_sum on_host (pm_representations s).
Proof.
  intros Hok. pose proof (co_host _ _ Hok). pose proof (co_capacity _ _ Hok) as [_ ?].
  apply usize_sum_small. change (map_sum _ _) with (map_sum on_host (pm_representations s)). lia.
Qed.

Lemma where_le b n : (where_ b n ≤ n)%N.
Proof. destruct b; cbn; lia. Qed.

(** The core only looks at the representations, the capacity and the counter. *)
Lemma core_ok_frame o s s' :
  core_ok o s → pm_capacity s' = pm_capacity s → (pm_next_id s ≤ pm_next_id s')%N →
  pm_representations s' = pm_representations s → core_ok o s'.
Proof.
  intros [] Hcap Hnext Hreps. split; rewrite ?Hcap, ?Hreps; try done.
  intros id r Hr. destruct (co_id0 id r Hr). split; [done|lia].
Qed.

Lemma refs_ok_ext o o' reps :
  refs_ok o reps →
  (∀ id, own_active o' id = own_active o id ∧ own_reserved o' id = own_reserved o id
         ∧ own_transfer o' id = own_transfer o id) → refs_ok o' reps.
Proof. intros Ho Heq id. destruct (Heq id) as (-> & -> & ->). apply Ho. Qed.

Lemma core_ok_ext o o' s :
  core_ok o s →
  (∀ id, own_active o' id = own_active o id ∧ own_reserved o' id = own_reserved o id
         ∧ own_transfer o' id = own_transfer o id) → core_ok o' s.
Proof. intros [] Heq. split; try done. by eapply refs_ok_ext. Qed.

(** Replacing one representation by one of the same shape. *)
Lemma replace_rep_ok o o' s id r r' :
  core_ok o s → pm_representations s !! id = Some r → shape r' = shape r →
  (map_sum on_device (<[id:=r']> (pm_representations s)) ≤ device_bytes (pm_capacity s))%N →
  (map_sum on_host (<[id:=r']> (pm_representations s)) ≤ host_bytes (pm_capacity s))%N →
  Refs.active (pr_references r') = own_active o' id →
  Refs.reservations (pr_references r') = own_reserved o' id →
  Refs.transfers (pr_references r') = own_transfer o' id →
  ((0 < Refs.active (pr_references r'))%N → pr_device r' = true) →
  (∀ x, x ≠ id → own_active o' x = own_active o x ∧ own_reserved o' x = own_reserved o x
                 ∧ own_transfer o' x = own_transfer o x) →
  core_ok o' (on_representations (insert id r') s)
  ∧ stable (pm_representations s) (<[id:=r']> (pm_representations s)).
Proof.
  intros Hok Hr Hshape Hdev Hhost Ha Hres Htr Hact Hother.
  assert (∀ x r0, <[id:=r']> (pm_representations s) !! x = Some r0 →
    x = id ∧ r0 = r' ∨ x ≠ id ∧ pm_representations s !! x = Some r0) as Hcases.
  { intros x r0. rewrite lookup_insert. destruct (decide _) as [<-|Hne]; [|naive_solver].
    intros [= <-]. by left. }
  destruct Hok as [Hid Hrefs Hactive Hd Hh Hcap Hfix].
  split; [split; cbn; try done|].
  - intros x r0 [[-> ->]|[_ Hx]]%Hcases; [|by apply Hid].
    assert (pr_id r' = pr_id r) as -> by (unfold shape in Hshape; congruence). by apply (Hid id r).
  - intros x. specialize (Hrefs x). rewrite lookup_insert. destruct (decide (id = x)) as [<-|Hx]; [done|].
    destruct (Hother x) as (-> & -> & ->); done.
  - intros x r0 [[-> ->]|[_ Hx]]%Hcases; [done|by eapply Hactive].
  - intros x r0 Hx. rewrite lookup_insert. destruct (decide (id = x)) as [<-|]; [|eauto].
    exists r'. split; [done|]. congruence.
Qed.

(** Changing only the counts of one representation. *)
Lemma alter_refs_ok o o' s id r f :
  core_ok o s → pm_representations s !! id = Some r →
  Refs.active (f (pr_references r)) = own_active o' id →
  Refs.reservations (f (pr_references r)) = own_reserved o' id →
  Refs.transfers (f (pr_references r)) = own_transfer o' id →
  ((0 < Refs.active (f (pr_references r)))%N → pr_device r = true) →
  (∀ x, x ≠ id → own_active o' x = own_active o x ∧ own_reserved o' x = own_reserved o x
                 ∧ own_transfer o' x = own_transfer o x) →
  core_ok o' (on_representations (alter (set_refs f) id) s)
  ∧ stable (pm_representations s) (alter (set_refs f) id (pm_representations s)).
Proof.
  intros Hok Hr Ha Hres Htr Hact Hother.
  assert (on_representations (alter (set_refs f) id) s
          = on_representations (insert id (set_refs f r)) s) as ->.
  { unfold on_representations. by rewrite (alter_insert_id _ _ _ _ Hr). }
  rewrite (alter_insert_id _ _ _ _ Hr).
  eapply replace_rep_ok; try done; cbn.
  - etrans; [|apply (co_device _ _ Hok)]. by eapply map_sum_update.
  - etrans; [|apply (co_host _ _ Hok)]. by eapply map_sum_update.
Qed.

(** ** Eviction *)

Definition off_device r : PhysicalRepresentation :=
  set_tiers false (pr_host r) (pr_storage r) r.

(** [id] was an unprotected device copy [r] and has lost its device tier. *)
Definition evicted reps reps' id r : Prop :=
  reps !! id = Some r ∧ warm r = true ∧ reps' !! id = Some (off_device r).

(** Only unprotected device copies left, and nothing else changed. *)
Definition shed reps reps' : Prop :=
  ∀ id, reps' !! id = reps !! id ∨ ∃ r, evicted reps reps' id r.

(** Whatever was evicted comes before whatever could still be. *)
Definition in_order reps reps' : Prop :=
  ∀ id r id' r', evicted reps reps' id r → reps' !! id' = Some r' → warm r' = true →
    eviction_lt r' r = false.

(** The published capacity metrics are the current totals. *)
Definition accurate s : Prop := pm_metrics (refresh s) = pm_metrics s.

Lemma accurate_refresh s : accurate (refresh s).
Proof. done. Qed.

Record evicting (o : Owners) s s' : Prop := {
  ev_core : core_ok o s';
  ev_frame : frame s s';
  ev_shed : shed (pm_representations s) (pm_representations s');
  ev_order : in_order (pm_representations s) (pm_representations s');
  ev_metrics : accurate s → accurate s';
}.

Lemma evicting_refl o s : core_ok o s → evicting o s s.
Proof.
  intros Hok. split; [done|done|by left| |done]. intros id r id' r' (Hr & Hw & Heq) _ _.
  rewrite Hr in Heq. injection Heq as Heq. unfold warm in Hw. by rewrite Heq in Hw.
Qed.

Lemma shed_stable reps reps' : shed reps reps' → stable reps reps'.
Proof.
  intros Hs id r Hr. destruct (Hs id) as [Heq|(r0 & Hr0 & _ & Heq)].
  - exists r. by rewrite Heq.
  - rewrite Hr in Hr0. injection Hr0 as <-. by exists (off_device r).
Qed.

Lemma evict_ok o s id r tier :
  core_ok o s → pm_representations s !! id = Some r → Refs.protected (pr_references r) = false →
  wp (evict id tier)
    (λ _ s', core_ok o s' ∧ frame s s'
       ∧ pm_representations s' = match drop_tier tier r with
                                 | Some r' => <[id := r']> (pm_representations s)
                                 | None => pm_representations s
                                 end
       ∧ (accurate s → accurate s'))
    (λ _ _, False) s.
Proof.
  intros Hok Hr Hprot. unfold evict. wp_run. rewrite Hr. wp_run. rewrite Hprot.
  destruct (drop_tier tier r) as [r'|] eqn:Hdrop; wp_run; [|done].
  unfold count, emit, refresh_capacity_metrics. wp_run.
  assert (shape r' = shape r ∧ pr_references r' = pr_references r
    ∧ (on_device r' ≤ on_device r)%N ∧ (on_host r' ≤ on_host r)%N) as (Hshape & Href & Hd & Hh).
  { unfold on_device, on_host. destruct tier; cbn in Hdrop;
      destruct (pr_device r) eqn:?, (pr_host r) eqn:?, (pr_storage r) eqn:?;
      simplify_eq; cbn; rewrite ?N.le_0_l; repeat split; cbn; lia. }
  assert (Refs.active (pr_references r) = 0%N) as Hact.
  { unfold Refs.protected in Hprot. destruct (N.eqb_spec (Refs.active (pr_references r)) 0); done. }
  pose proof (co_refs _ _ Hok id) as Hrefs. rewrite Hr in Hrefs. destruct Hrefs as (H1 & H2 & H3).
  destruct (replace_rep_ok o o s id r r' Hok Hr Hshape) as [Hok' _]; rewrite ?Href; try done.
  - etrans; [|apply (co_device _ _ Hok)]. by eapply map_sum_update.
  - etrans; [|apply (co_host _ _ Hok)]. by eapply map_sum_update.
  - rewrite Hact. lia.
  - split; [by eapply core_ok_frame|done].
Qed.

Lemma eviction_candidate_spec o s :
  core_ok o s →
  match eviction_candidate s with
  | Some c => pm_representations s !! pr_id c = Some c ∧ warm c = true
      ∧ ∀ id r, pm_representations s !! id = Some r → warm r = true → eviction_lt r c = false
  | None => ∀ id r, pm_representations s !! id = Some r → warm r = false
  end.
Proof.
  intros Hok. unfold eviction_candidate.
  assert (∀ r, r ∈ filter (λ r, warm r = true) (map_values (pm_representations s)) ↔
    warm r = true ∧ ∃ id, pm_representations s !! id = Some r) as Hin.
  { intros r. rewrite list_elem_of_filter. unfold map_values. rewrite list_elem_of_fmap.
    split; intros [Hw He]; split; try done.
    - destruct He as ([k v] & -> & Hk%elem_of_map_to_list). by exists k.
    - destruct He as [id Hid%elem_of_map_to_list]. by exists (id, r). }
  destruct (min_by _ _) as [c|] eqn:Hmin.
  - pose proof (min_by_elem _ _ _ Hmin) as [Hw [id Hid]]%Hin.
    destruct (co_id _ _ Hok id c Hid) as [<- _]. split; [done|]. split; [done|].
    intros id' r Hr Hwr. eapply min_by_least; [| | |exact Hmin|apply Hin; eauto].
    all: unfold eviction_lt; intros *; rewrite ?orb_true_iff, ?orb_false_iff, ?andb_true_iff,
      ?andb_false_iff, ?orb_true_iff, ?orb_false_iff, ?andb_true_iff, ?andb_false_iff,
      ?N.ltb_lt, ?N.ltb_ge, ?N.eqb_eq, ?N.eqb_neq; lia.
  - apply min_by_None in Hmin. intros id r Hr. destruct (warm r) eqn:Hw; [|done].
    assert (r ∈ filter (λ r, warm r = true) (map_values (pm_representations s))) as Hr'
      by (apply Hin; eauto).
    rewrite Hmin in Hr'. by apply not_elem_of_nil in Hr'.
Qed.

Lemma lacks_space_spec o s additional :
  core_ok o s →
  lacks_space additional s = true ↔
  (device_bytes (pm_capacity s) < map_sum on_device (pm_representations s) + additional)%N.
Proof.
  intros Hok. unfold lacks_space. rewrite (device_used_sum o s Hok). unfold checked_add.
  destruct (co_capacity _ _ Hok) as [Hcap _]. unfold usize_max in Hcap.
  destruct (decide _); [by rewrite N.ltb_lt|]. split; [lia|done].
Qed.

(** The number of device copies, which falls at every turn of the loop. *)
Definition device_copies reps : N := map_sum (λ r, where_ (pr_device r) 1) reps.

Lemma device_copies_size reps : (device_copies reps ≤ N.of_nat (size reps))%N.
Proof. apply map_sum_le_size. intros k r _. apply where_le. Qed.

Lemma in_order_step reps reps' c :
  reps !! pr_id c = Some c → warm c = true →
  (∀ id r, reps !! id = Some r → warm r = true → eviction_lt r c = false) →
  shed (<[pr_id c := off_device c]> reps) reps' →
  in_order (<[pr_id c := off_device c]> reps) reps' →
  shed reps reps' ∧ in_order reps reps'.
Proof.
  intros Hc Hw Hleast Hshed Hord. split.
  - intros id. destruct (Hshed id) as [Heq|(r & Hr & Hwr & Heq)].
    + rewrite lookup_insert in Heq. destruct (decide (pr_id c = id)) as [<-|]; [|by left].
      right. by exists c.
    + rewrite lookup_insert in Hr. destruct (decide (pr_id c = id)) as [<-|].
      * injection Hr as <-. done.
      * right. by exists r.
  - intros id r id' r' (Hr & Hwr & Heq) Hr' Hwr'.
    assert (reps !! id' = Some r') as Hold.
    { destruct (Hshed id') as [Heq'|(r0 & _ & _ & Heq')]; [|rewrite Hr' in Heq'; by injection Heq' as ->].
      rewrite lookup_insert in Heq'. destruct (decide _); [|by rewrite <- Heq'].
      rewrite Hr' in Heq'. by injection Heq' as ->. }
    destruct (decide (pr_id c = id)) as [<-|Hne].
    + rewrite Hc in Hr. injection Hr as <-. by eapply Hleast.
    + eapply (Hord id); [|done..]. split; [by rewrite lookup_insert_ne|done].
Qed.

Lemma ensure_device_space_loop_ok o fuel additional s :
  core_ok o s → (device_copies (pm_representations s) < N.of_nat fuel)%N →
  wp (ensure_device_space_loop fuel additional)
    (λ _ s', evicting o s s'
       ∧ (map_sum on_device (pm_representations s') + additional
          ≤ device_bytes (pm_capacity s))%N)
    (λ err s', evicting o s s' ∧ err = DeviceCapacity
       ∧ (∀ id r, pm_representations s' !! id = Some r → warm r = false)
       ∧ (device_bytes (pm_capacity s)
          < map_sum on_device (pm_representations s') + additional)%N) s.
Proof.
  revert s. induction fuel as [|fuel IH]; intros s Hok Hfuel; [lia|].
  pose proof (evicting_refl o s Hok) as Hrefl.
  cbn [ensure_device_space_loop]. wp_run.
  pose proof (lacks_space_spec o s additional Hok) as Hlack.
  destruct (lacks_space additional s).
  2:{ wp_run. split; [done|]. destruct (N.le_gt_cases
        (map_sum on_device (pm_representations s) + additional) (device_bytes (pm_capacity s)))
        as [|Hgt]; [done|]. by apply Hlack in Hgt. }
  wp_run. pose proof (eviction_candidate_spec o s Hok) as Hcand.
  destruct (eviction_candidate s) as [c|].
  2:{ do 3 (split; [done|]). by apply Hlack. }
  destruct Hcand as (Hc & Hw & Hleast). wp_run.
  assert (pr_device c = true ∧ Refs.protected (pr_references c) = false) as [Hdev Hprot].
  { unfold warm in Hw. apply andb_true_iff in Hw as [? ?%negb_true_iff]. done. }
  eapply wp_mono; [by eapply evict_ok| |done]. cbn beta.
  intros _ s1 (Hok1 & Hfr1 & Hreps1 & Hacc1). unfold drop_tier in Hreps1. rewrite Hdev in Hreps1.
  change (set_tiers _ _ _ _) with (off_device c) in Hreps1.
  assert (∀ s', evicting o s1 s' → evicting o s s') as Htrans.
  { intros s' [Hcore Hfr Hshed Hord Hacc]. rewrite Hreps1 in Hshed, Hord.
    destruct (in_order_step _ _ c Hc Hw Hleast Hshed Hord) as [Hs Ho].
    split; [done|by etrans|done|done|tauto]. }
  eapply wp_mono; [apply IH; [done|]|..]; cbn beta.
  - rewrite Hreps1. unfold device_copies in *.
    pose proof (map_sum_insert_Some (λ r, where_ (pr_device r) 1) _ (pr_id c) (off_device c) c Hc) as Hs.
    cbn in Hs. rewrite Hdev in Hs. cbn in Hs. lia.
  - intros _ s' [Hev Hle]. rewrite (fr_capacity _ _ Hfr1) in Hle. auto.
  - intros err s' (Hev & Herr & Hnone & Hgt). rewrite (fr_capacity _ _ Hfr1) in Hgt. auto.
Qed.

Lemma ensure_device_space_ok o additional s :
  core_ok o s →
  wp (ensure_device_space additional)
    (λ _ s', evicting o s s'
       ∧ (map_sum on_device (pm_representations s') + additional
          ≤ device_bytes (pm_capacity s))%N)
    (λ err s', evicting o s s' ∧ err = DeviceCapacity
       ∧ (∀ id r, pm_representations s' !! id = Some r → warm r = false)
       ∧ (device_bytes (pm_capacity s)
          < map_sum on_device (pm_representations s') + additional)%N) s.
Proof.
  intros Hok. unfold ensure_device_space. wp_run. apply ensure_device_space_loop_ok; [done|].
  pose proof (device_copies_size (pm_representations s)). lia.
Qed.

(** What the admission check of [ensure_device_capacity] established. *)
Definition admitted s additional : Prop :=
  (protected_device_bytes s + reservations s + additional ≤ device_bytes (pm_capacity s))%N.

Lemma ensure_device_capacity_ok o additional s :
  core_ok o s →
  wp (ensure_device_capacity additional)
    (λ _ s', evicting o s s' ∧ admitted s additional
       ∧ (map_sum on_device (pm_representations s') + additional
          ≤ device_bytes (pm_capacity s))%N)
    (λ err s', evicting o s s' ∧ err = DeviceCapacity) s.
Proof.
  intros Hok. unfold ensure_device_capacity. wp_run.
  pose proof (evicting_refl o s Hok) as Hrefl.
  destruct (checked_add (protected_device_bytes s) (reservations s)) as [v|] eqn:H1; cbn; [|done].
  destruct (checked_add v additional) as [req|] eqn:H2; [|done]. wp_run.
  destruct (N.ltb_spec (device_bytes (pm_capacity s)) req) as [|Hle]; [done|].
  assert (admitted s additional) as Hadm.
  { unfold admitted, checked_add in *. repeat case_decide; simplify_eq. lia. }
  eapply wp_mono; [by apply ensure_device_space_ok|..]; cbn beta; naive_solver.
Qed.

Lemma ensure_host_capacity_ok o additional s :
  core_ok o s →
  wp (ensure_host_capacity additional)
    (λ _ s', s' = s
       ∧ (map_sum on_host (pm_representations s) + additional ≤ host_bytes (pm_capacity s))%N)
    (λ err s', s' = s ∧ err = HostCapacity) s.
Proof.
  intros Hok. unfold ensure_host_capacity. wp_run. rewrite (host_used_sum o s Hok).
  unfold checked_add. destruct (decide _); wp_run; [|done].
  destruct (N.leb_spec (map_sum on_host (pm_representations s) + additional)
    (host_bytes (pm_capacity s))); done.
Qed.

(** ** Taking and releasing references *)

Inductive Kind : Type := KActive | KReserved | KTransfer.

Definition kind_count (k : Kind) : Refs.ReferenceCounts → N :=
  match k with
  | KActive => Refs.active | KReserved => Refs.reservations | KTransfer => Refs.transfers
  end.

Definition kind_set (k : Kind) : (N → N) → Refs.ReferenceCounts → Refs.ReferenceCounts :=
  match k with
  | KActive => Refs.set_active | KReserved => Refs.set_reservations
  | KTransfer => Refs.set_transfers
  end.

(** The owners once the members of [l] have one more owner of a kind. *)
Definition add_own (k : Kind) (o : Owners) (l : list N) : Owners :=
  match k with
  | KActive => mkOwners (λ id, own_active o id + occ id l)%N (own_reserved o) (own_transfer o)
  | KReserved => mkOwners (own_active o) (λ id, own_reserved o id + occ id l)%N (own_transfer o)
  | KTransfer => mkOwners (own_active o) (own_reserved o) (λ id, own_transfer o id + occ id l)%N
  end.

(** Everything of a representation but its counts and its stamp. *)
Definition body r : N * N * Component * nat * N * (bool * bool * bool) * N :=
  (shape r, (pr_device r, pr_host r, pr_storage r), pr_reuse_value r).

Definition same_body reps reps' : Prop := ∀ id, body <$> reps' !! id = body <$> reps !! id.

#[export] Instance same_body_preorder : PreOrder same_body.
Proof. split; [done|]. intros m1 m2 m3 H1 H2 id. by rewrite H2. Qed.

Lemma same_body_stable reps reps' : same_body reps reps' → stable reps reps'.
Proof.
  intros Hs id r Hr. specialize (Hs id). rewrite Hr in Hs. cbn in Hs.
  apply fmap_Some in Hs as (r' & Hr' & Hb). exists r'. split; [done|]. unfold body in Hb. congruence.
Qed.

Lemma same_body_device reps reps' id r :
  same_body reps reps' → reps !! id = Some r → pr_device r = true →
  ∃ r', reps' !! id = Some r' ∧ pr_device r' = true.
Proof.
  intros Hs Hr Hd. specialize (Hs id). rewrite Hr in Hs. cbn in Hs.
  apply fmap_Some in Hs as (r' & Hr' & Hb). exists r'. split; [done|]. unfold body in Hb. congruence.
Qed.

Lemma same_body_alter f id reps :
  (∀ r, body (f r) = body r) → same_body reps (alter f id reps).
Proof.
  intros Hf x. rewrite lookup_alter. destruct (decide (id = x)) as [->|]; [|done].
  destruct (reps !! x); cbn; [by rewrite Hf|done].
Qed.

(** The post-condition of an update of counts. *)
Definition recounted (o : Owners) s s' : Prop :=
  core_ok o s' ∧ frame s s' ∧ same_body (pm_representations s) (pm_representations s').

Lemma release_ok k o x s :
  core_ok (add_own k o [x]) s →
  wp (release_ref (kind_count k) (kind_set k) x) (λ _ s', recounted o s s') (λ _ _, False) s.
Proof.
  intros Hok. unfold release_ref. wp_run.
  pose proof (co_refs _ _ Hok x) as Hx.
  assert (occ x [x] = 1%N) as Hocc by (rewrite occ_cons, occ_nil, decide_True; done).
  destruct (pm_representations s !! x) as [r|] eqn:Hr.
  2:{ destruct Hx as (? & ? & ?). destruct k; cbn in *; lia. }
  wp_run. destruct Hx as (H1 & H2 & H3).
  destruct (N.eqb_spec (kind_count k (pr_references r)) 0) as [Hz|Hnz].
  { destruct k; cbn in *; lia. }
  wp_run. destruct (alter_refs_ok (add_own k o [x]) o s x r (kind_set k N.pred) Hok Hr)
    as [Hok' _].
  1-3: destruct k; cbn in *; lia.
  - intros Hpos. apply (co_active _ _ Hok x r Hr). destruct k; cbn in *; lia.
  - intros y Hy. assert (occ y [x] = 0%N) as Hoy by (rewrite occ_cons, occ_nil, decide_False; done).
    destruct k; cbn [add_own own_active own_reserved own_transfer]; rewrite Hoy; repeat split; lia.
  - split; [done|]. split; [done|]. cbn. by apply same_body_alter.
Qed.

Lemma acquire_ok k o x r s :
  core_ok o s → pm_representations s !! x = Some r → (k = KActive → pr_device r = true) →
  wp (update_rep x (set_refs (kind_set k N.succ)))
    (λ _ s', recounted (add_own k o [x]) s s') (λ _ _, False) s.
Proof.
  intros Hok Hr Hdev. unfold update_rep. wp_run. rewrite Hr. wp_run.
  pose proof (co_refs _ _ Hok x) as Hx. rewrite Hr in Hx. destruct Hx as (H1 & H2 & H3).
  assert (occ x [x] = 1%N) as Hocc by (rewrite occ_cons, occ_nil, decide_True; done).
  destruct (alter_refs_ok o (add_own k o [x]) s x r (kind_set k N.succ) Hok Hr) as [Hok' _].
  1-3: destruct k; cbn in *; lia.
  - intros Hpos. destruct k; [by apply Hdev|..]; apply (co_active _ _ Hok x r Hr); exact Hpos.
  - intros y Hy. assert (occ y [x] = 0%N) as Hoy by (rewrite occ_cons, occ_nil, decide_False; done).
    destruct k; cbn [add_own own_active own_reserved own_transfer]; rewrite Hoy; repeat split; lia.
  - split; [done|]. split; [done|]. cbn. by apply same_body_alter.
Qed.

Lemma recounted_trans o1 o2 s1 s2 s3 :
  recounted o1 s1 s2 → recounted o2 s2 s3 → recounted o2 s1 s3.
Proof. intros (_ & Hf & Hb) (Hok & Hf' & Hb'). split; [done|]. split; by etrans. Qed.

Lemma add_own_cons k o x l id :
  own_active (add_own k o (x :: l)) id = own_active (add_own k (add_own k o l) [x]) id
  ∧ own_reserved (add_own k o (x :: l)) id = own_reserved (add_own k (add_own k o l) [x]) id
  ∧ own_transfer (add_own k o (x :: l)) id = own_transfer (add_own k (add_own k o l) [x]) id.
Proof.
  destruct k; cbn [add_own own_active own_reserved own_transfer]; rewrite !occ_cons, ?occ_nil;
    repeat split; lia.
Qed.

Lemma release_all_ok k o l s :
  core_ok (add_own k o l) s →
  wp (for_each (release_ref (kind_count k) (kind_set k)) l)
    (λ _ s', recounted o s s') (λ _ _, False) s.
Proof.
  revert s. induction l as [|x l IH]; intros s Hok; cbn [for_each]; wp_run.
  - split; [|split; done]. eapply core_ok_ext; [exact Hok|]. intros id.
    destruct k; cbn; rewrite ?N.add_0_r; done.
  - eapply wp_mono; [apply (release_ok k (add_own k o l))| |done].
    + eapply core_ok_ext; [exact Hok|]. intros id.
      destruct (add_own_cons k o x l id) as (-> & -> & ->). done.
    + cbn beta. intros _ s1 Hs1. eapply wp_mono; [apply IH, Hs1| |done]. cbn beta.
      intros _ s2 Hs2. by eapply recounted_trans.
Qed.

(** [activate] takes an active reference and stamps the representation. *)
Lemma activate_ok o x r s :
  core_ok o s → pm_representations s !! x = Some r → pr_device r = true →
  wp (activate x) (λ _ s', recounted (add_own KActive o [x]) s s') (λ _ _, False) s.
Proof.
  intros Hok Hr Hdev. unfold activate, update_rep. wp_run. rewrite Hr. wp_run.
  pose proof (co_refs _ _ Hok x) as Hx. rewrite Hr in Hx. destruct Hx as (H1 & H2 & H3).
  assert (occ x [x] = 1%N) as Hocc by (rewrite occ_cons, occ_nil, decide_True; done).
  unfold recounted, on_representations. cbn [pm_representations].
  split; [|split; [done|by apply same_body_alter]].
  rewrite (alter_insert_id _ _ _ _ Hr).
  set (r' := set_last_used _ _).
  destruct (replace_rep_ok o (add_own KActive o [x]) s x r r' Hok Hr) as [Hok' _]; try done.
  - etrans; [|apply (co_device _ _ Hok)]. by eapply map_sum_update.
  - etrans; [|apply (co_host _ _ Hok)]. by eapply map_sum_update.
  - cbn in *. lia.
  - intros y Hy. assert (occ y [x] = 0%N) as Hoy by (rewrite occ_cons, occ_nil, decide_False; done).
    cbn [add_own own_active own_reserved own_transfer]. rewrite Hoy. repeat split; lia.
Qed.

Lemma activate_all_ok o l s :
  core_ok o s →
  (∀ x, x ∈ l → ∃ r, pm_representations s !! x = Some r ∧ pr_device r = true) →
  wp (for_each activate l) (λ _ s', recounted (add_own KActive o l) s s') (λ _ _, False) s.
Proof.
  revert o s. induction l as [|x l IH]; intros o s Hok Hl; cbn [for_each]; wp_run.
  - split; [|split; done]. eapply core_ok_ext; [exact Hok|]. intros id. cbn.
    by rewrite N.add_0_r.
  - destruct (Hl x) as (r & Hr & Hdev); [by left|].
    eapply wp_mono; [by eapply activate_ok| |done]. cbn beta. intros _ s1 Hs1.
    destruct Hs1 as (Hok1 & Hf1 & Hb1).
    eapply wp_mono; [apply (IH _ s1 Hok1)| |done].
    + intros y Hy. destruct (Hl y) as (ry & Hry & Hdy); [by right|].
      by eapply same_body_device.
    + cbn beta. intros _ s2 Hs2. destruct Hs2 as (Hok2 & Hf2 & Hb2).
      split; [|split; by etrans]. eapply core_ok_ext; [exact Hok2|]. intros id.
      cbn [add_own own_active own_reserved own_transfer].
      rewrite !occ_cons, occ_nil. split; [lia|done].
Qed.

(** ** The invariant of the manager *)

(** Who owns a representation: bindings, transitions and pending transfers. *)
Definition owners s : Owners := mkOwners
  (λ id, map_sum (λ b, occ id (ab_representations b)) (pm_bindings s))
  (λ id, map_sum (λ t, occ id (pt_representations t)) (pm_transitions s))
  (λ id, map_sum (λ t, where_ (negb (tr_completed t) && (tr_representation t =? id)%N) 1)
           (pm_transfers s)).

(** The transitions that wait for a transfer. *)
Definition holders s (x : TransferId) : N :=
  map_sum (λ t, occ x (pt_transfers t)) (pm_transitions s).

Definition member reps (mapping : EvaluatedPrefixId) (id : PhysicalRepresentationId) : Prop :=
  ∃ r, reps !! id = Some r ∧ pr_mapping r = mapping.

Definition block_of reps (id : PhysicalRepresentationId) (b : DeviceBlock) : Prop :=
  db_representation b = id
  ∧ ∃ r, reps !! id = Some r ∧ db_component b = pr_component r ∧ db_bytes b = pr_bytes r.

(** Everything but the accounting of representations. [extra] are transfers held
    by a transition that is being taken apart or put together. *)
Record rest_ok (extra : list TransferId) s : Prop := {
  rk_transfer : ∀ x t, pm_transfers s !! x = Some t →
    (x < pm_next_id s)%N ∧ (tr_detached t = true → tr_completed t = false)
    ∧ (holders s x + occ x extra = if tr_detached t then 0 else 1)%N;
  rk_pending : ∀ x t, pm_transfers s !! x = Some t → tr_completed t = false →
    ∃ r, pm_representations s !! tr_representation t = Some r ∧ pr_bytes r = tr_bytes t;
  rk_held : ∀ x, (0 < holders s x + occ x extra)%N → is_Some (pm_transfers s !! x);
  rk_fresh : (∀ x, is_Some (pm_transitions s !! x) → (x < pm_next_id s)%N)
             ∧ (∀ x, is_Some (pm_growth s !! x) → (x < pm_next_id s)%N);
  rk_binding : ∀ c b, pm_bindings s !! c = Some b →
    Forall (member (pm_representations s) (ab_mapping b)) (ab_representations b);
  rk_transition : ∀ x t, pm_transitions s !! x = Some t →
    Forall (member (pm_representations s) (pt_mapping t)) (pt_representations t);
  rk_table : ∀ c tb, pm_block_tables s !! c = Some tb → ∃ b,
    pm_bindings s !! c = Some b ∧ bt_binding tb = ab_id b ∧ bt_mapping tb = ab_mapping b
    ∧ Forall2 (block_of (pm_representations s)) (ab_representations b) (bt_blocks tb);
}.

Record pm_ok s : Prop := {
  ok_core : core_ok (owners s) s;
  ok_rest : rest_ok [] s;
  ok_metrics : accurate s;
}.

(** Room for the identifiers one call draws. *)
Definition roomy s : Prop :=
  (pm_next_id s + 4 ≤ u64_max)%N ∧ (pm_clock s + 1 ≤ u64_max)%N.

Lemma member_stable reps reps' mapping id :
  stable reps reps' → member reps mapping id → member reps' mapping id.
Proof.
  intros Hs (r & Hr & Hm). destruct (Hs id r Hr) as (r' & Hr' & Hsh).
  exists r'. split; [done|]. unfold shape in Hsh. congruence.
Qed.

Lemma block_of_stable reps reps' id b :
  stable reps reps' → block_of reps id b → block_of reps' id b.
Proof.
  intros Hs (Hid & r & Hr & Hc & Hb). split; [done|].
  destruct (Hs id r Hr) as (r' & Hr' & Hsh). exists r'. split; [done|].
  unfold shape in Hsh. split; congruence.
Qed.

(** The rest follows representations that only change in place. *)
Lemma rest_ok_reps extra s s' :
  rest_ok extra s →
  pm_bindings s' = pm_bindings s → pm_transitions s' = pm_transitions s →
  pm_transfers s' = pm_transfers s → pm_growth s' = pm_growth s →
  pm_block_tables s' = pm_block_tables s → (pm_next_id s ≤ pm_next_id s')%N →
  stable (pm_representations s) (pm_representations s') → rest_ok extra s'.
Proof.
  intros [Ht Hpend Hh [Hf1 Hf2] Hb Hp Htab] Eb Ep Et Eg Etab Hn Hst.
  assert (∀ x, holders s' x = holders s x) as Ehold by (intros x; unfold holders; by rewrite Ep).
  split; rewrite ?Eb, ?Ep, ?Et, ?Eg, ?Etab.
  - intros x t Hx. rewrite Ehold. destruct (Ht x t Hx) as (? & ? & ?). repeat split; try done. lia.
  - intros x t Hx Hc. destruct (Hpend x t Hx Hc) as (r & Hr & Hbytes).
    destruct (Hst _ r Hr) as (r' & Hr' & Hsh). exists r'. split; [done|].
    unfold shape in Hsh. congruence.
  - intros x. rewrite Ehold. apply Hh.
  - split; intros x Hx; [specialize (Hf1 x Hx)|specialize (Hf2 x Hx)]; lia.
  - intros c b Hc. eapply List.Forall_impl; [|by apply (Hb c)]. intros id. by apply member_stable.
  - intros c b Hc. eapply List.Forall_impl; [|by apply (Hp c)]. intros id. by apply member_stable.
  - intros c tb Hc. destruct (Htab c tb Hc) as (b & Hbc & H1 & H2 & H3). exists b.
    do 3 (split; [done|]). eapply List.Forall2_impl; [|exact H3]. intros id blk. by apply block_of_stable.
Qed.

Lemma rest_ok_frame extra s s' :
  rest_ok extra s → frame s s' → stable (pm_representations s) (pm_representations s') →
  rest_ok extra s'.
Proof. intros Hr [] Hst. eapply rest_ok_reps; try done. lia. Qed.

Lemma owners_eq s s' :
  pm_bindings s' = pm_bindings s → pm_transitions s' = pm_transitions s →
  pm_transfers s' = pm_transfers s → owners s' = owners s.
Proof. intros Eb Ep Et. unfold owners. by rewrite Eb, Ep, Et. Qed.

Lemma owners_frame s s' : frame s s' → owners s' = owners s.
Proof. intros [_ _ _ Eb Ep Et _ _]. unfold owners. by rewrite Eb, Ep, Et. Qed.

(** A refreshed state keeps the invariant of the state it was computed from. *)
Lemma pm_ok_refresh s : core_ok (owners s) s → rest_ok [] s → pm_ok (refresh s).
Proof.
  intros Hc Hr. split; [..|apply accurate_refresh].
  - by apply (core_ok_frame (owners s) s).
  - by eapply rest_ok_frame.
Qed.

Lemma evicting_ok s s' : pm_ok s → evicting (owners s) s s' → pm_ok s'.
Proof.
  intros [Hc Hr Hm] [Hc' Hf Hs _ Hm']. split; [|by eapply rest_ok_frame, shed_stable|by apply Hm'].
  by rewrite (owners_frame _ _ Hf).
Qed.

Lemma set_ids_ok n c s : pm_ok s → (pm_next_id s ≤ n)%N → pm_ok (set_ids n c s).
Proof.
  intros [Hc Hr Hm] Hn. split.
  - by apply (core_ok_frame (owners s) s).
  - by eapply rest_ok_reps.
  - done.
Qed.

Lemma wp_id P (Q : N → PhysicalManager → Prop) (R : Error → PhysicalManager → Prop) s :
  (pm_next_id s + 1 ≤ u64_max)%N →
  wp_gen P id_ Q R s = Q (pm_next_id s) (set_ids (pm_next_id s + 1) (pm_clock s) s).
Proof. intros Hn. unfold id_. wp_run. unfold checked_add. by rewrite decide_True. Qed.

Lemma wp_tick P (Q : N → PhysicalManager → Prop) (R : Error → PhysicalManager → Prop) s :
  (pm_clock s + 1 ≤ u64_max)%N →
  wp_gen P tick Q R s = Q (pm_clock s + 1)%N (set_ids (pm_next_id s) (pm_clock s + 1) s).
Proof. intros Hn. unfold tick. wp_run. unfold checked_add. by rewrite decide_True. Qed.

(** ** Operations on single representations *)

Lemma unprotected_unowned s id r :
  pm_ok s → pm_representations s !! id = Some r → Refs.protected (pr_references r) = false →
  own_active (owners s) id = 0%N ∧ own_reserved (owners s) id = 0%N
  ∧ own_transfer (owners s) id = 0%N.
Proof.
  intros Hok Hr Hp. pose proof (co_refs _ _ (ok_core _ Hok) id) as Hx. rewrite Hr in Hx.
  unfold Refs.protected in Hp. rewrite !orb_false_iff, !negb_false_iff, !N.eqb_eq in Hp. lia.
Qed.

Lemma insert_rep_ok o s id r :
  core_ok o s → pm_representations s !! id = None →
  pr_id r = id → (id < pm_next_id s)%N →
  Refs.active (pr_references r) = 0%N → Refs.reservations (pr_references r) = 0%N →
  Refs.transfers (pr_references r) = 0%N →
  (map_sum on_device (pm_representations s) + on_device r ≤ device_bytes (pm_capacity s))%N →
  (map_sum on_host (pm_representations s) + on_host r ≤ host_bytes (pm_capacity s))%N →
  core_ok o (on_representations (insert id r) s)
  ∧ stable (pm_representations s) (<[id:=r]> (pm_representations s)).
Proof.
  intros Hok Hnone Hid Hlt Ha Hres Htr Hd Hh. destruct Hok as [Hids Hrefs Hact _ _ Hcap Hfix].
  split; [split; cbn; try done|].
  - intros x r0. rewrite lookup_insert. destruct (decide (id = x)) as [<-|]; [|apply Hids].
    intros [= <-]. done.
  - intros x. specialize (Hrefs x). rewrite lookup_insert.
    destruct (decide (id = x)) as [<-|]; [|done]. rewrite Hnone in Hrefs.
    destruct Hrefs as (-> & -> & ->). done.
  - intros x r0. rewrite lookup_insert. destruct (decide (id = x)); [|apply Hact].
    intros [= <-]. lia.
  - rewrite map_sum_insert_None by done. lia.
  - rewrite map_sum_insert_None by done. lia.
  - intros x r0 Hx. exists r0. rewrite lookup_insert_ne by congruence. done.
Qed.

Lemma register_ok s mapping component end_ bytes tier value :
  pm_ok s → roomy s →
  wp (register mapping component end_ bytes tier value)
    (λ id s', pm_ok s' ∧ pm_representations s !! id = None
       ∧ ∃ r, pm_representations s' !! id = Some r ∧ shape r = (id, mapping, component, end_, bytes)
              ∧ pr_references r = Refs.mk 1 0 0 0)
    (λ err s', pm_ok s' ∧ evicting (owners s) s s') s.
Proof.
  intros Hok [Hn Hk]. unfold register. wp_run.
  pose proof (ok_core _ Hok) as Hcore.
  set (P1 := λ s1 : PhysicalManager, evicting (owners s) s s1
    ∧ (map_sum on_device (pm_representations s1)
       + where_ (match tier with Device => true | _ => false end) bytes
       ≤ device_bytes (pm_capacity s))%N
    ∧ (map_sum on_host (pm_representations s1)
       + where_ (match tier with Host => true | _ => false end) bytes
       ≤ host_bytes (pm_capacity s))%N).
  apply (wp_mono _ _ (λ _ s1, P1 s1) _ (λ _ s', evicting (owners s) s s')).
  - pose proof (evicting_refl _ _ Hcore) as Hrefl.
    pose proof (co_device _ _ Hcore). pose proof (co_host _ _ Hcore).
    destruct tier.
    + eapply wp_mono; [by apply ensure_device_capacity_ok|..]; cbn beta; [|by intros ? ? []].
      intros _ s1 (Hev & _ & Hle). split; [done|]. split; [done|]. cbn.
      pose proof (co_host _ _ (ev_core _ _ _ Hev)) as Hh.
      rewrite (fr_capacity _ _ (ev_frame _ _ _ Hev)) in Hh. lia.
    + eapply wp_mono; [by apply (ensure_host_capacity_ok (owners s))|..]; cbn beta;
        [|by intros ? ? [-> _]].
      intros _ s1 [-> Hle]. split; [done|]. cbn. split; [lia|done].
    + wp_run. split; [done|]. cbn. lia.
  - intros _ s1 (Hev & Hd & Hh).
    pose proof (evicting_ok _ _ Hok Hev) as Hok1.
    destruct (ev_frame _ _ _ Hev) as [Hcap Hnext Hclock _ _ _ _ _].
    unfold emit, refresh_capacity_metrics. wp_run.
    rewrite wp_id by lia. wp_run. rewrite wp_tick by (cbn; lia). wp_run.
    set (id := pm_next_id s1).
    set (s2 := set_ids _ _ (set_ids _ _ s1)).
    set (r := fresh_representation id _ _ _ _ _ _ _).
    assert (pm_ok s2) as Hok2.
    { apply set_ids_ok; [apply set_ids_ok; [done|]|]; cbn; lia. }
    assert (pm_representations s1 !! id = None) as Hnone.
    { destruct (pm_representations s1 !! id) as [r0|] eqn:Hr0; [|done].
      destruct (co_id _ _ (ok_core _ Hok1) id r0 Hr0). lia. }
    destruct (insert_rep_ok (owners s2) s2 id r (ok_core _ Hok2)) as [Hc3 Hst]; try done.
    { cbn. lia. }
    { cbn [pm_capacity set_ids s2]. rewrite Hcap. exact Hd. }
    { cbn [pm_capacity set_ids s2]. rewrite Hcap. exact Hh. }
    split; [|split].
    + apply pm_ok_refresh.
      * by eapply core_ok_frame.
      * by eapply rest_ok_reps; [apply (ok_rest _ Hok2)|..].
    + destruct (ev_shed _ _ _ Hev id) as [<-|(r0 & _ & _ & Hr0)]; [done|congruence].
    + exists r. split; [apply lookup_insert_eq|done].
  - intros err s' Hev. split; [by eapply evicting_ok|done].
Qed.

Lemma release_logical_reference_ok s id :
  pm_ok s →
  wp (release_logical_reference id) (λ _ s', pm_ok s')
    (λ err s', s' = s ∧ err = RepresentationNotFound ∧ pm_representations s !! id = None) s.
Proof.
  intros Hok. unfold release_logical_reference, refresh_capacity_metrics. wp_run.
  destruct (pm_representations s !! id) as [r|] eqn:Hr; [|done]. wp_run.
  set (r' := set_refs _ r). pose proof (ok_core _ Hok) as Hcore.
  pose proof (co_refs _ _ Hcore id) as Hx. rewrite Hr in Hx. destruct Hx as (H1 & H2 & H3).
  destruct (replace_rep_ok (owners s) (owners s) s id r r' Hcore Hr) as [Hc1 Hst]; try done.
  { etrans; [|apply (co_device _ _ Hcore)]. by eapply map_sum_update. }
  { etrans; [|apply (co_host _ _ Hcore)]. by eapply map_sum_update. }
  { apply (co_active _ _ Hcore id r Hr). }
  destruct (_ && _) eqn:Hgone; wp_run.
  2:{ apply pm_ok_refresh; [done|]. by eapply rest_ok_reps; [apply (ok_rest _ Hok)|..]. }
  apply andb_true_iff in Hgone as [_ Hp%negb_true_iff].
  destruct (unprotected_unowned s id r Hok Hr Hp) as (Ha & Hres & Htr).
  set (s2 := on_representations (delete id) _).
  assert (pm_representations s2 = delete id (pm_representations s)) as Hreps.
  { cbn. by rewrite delete_insert_eq. }
  assert (∀ m x, member (pm_representations s) m x → x ≠ id → member (pm_representations s2) m x)
    as Hmem.
  { intros m x (r0 & Hr0 & Hm) Hne. exists r0. rewrite Hreps, lookup_delete_ne by done. done. }
  assert (∀ x c b, x ∈ ab_representations b → pm_bindings s !! c = Some b → x ≠ id) as Hbound.
  { intros x c b Hin Hb ->. cbn in Ha. rewrite <- map_sum_zero in Ha. specialize (Ha c b Hb).
    by apply occ_not_elem in Ha. }
  assert (∀ x c t, x ∈ pt_representations t → pm_transitions s !! c = Some t → x ≠ id) as Hresv.
  { intros x c t Hin Hb ->. cbn in Hres. rewrite <- map_sum_zero in Hres. specialize (Hres c t Hb).
    by apply occ_not_elem in Hres. }
  apply pm_ok_refresh.
  - destruct Hcore as [Hid Hrefs Hact Hd Hh Hcap Hfix]. split; rewrite ?Hreps; try done.
    + intros x r0 [_ Hx]%lookup_delete_Some. by apply Hid.
    + intros x. rewrite lookup_delete. destruct (decide (id = x)) as [<-|]; [done|]. apply Hrefs.
    + intros x r0 [_ Hx]%lookup_delete_Some. by eapply Hact.
    + etrans; [apply map_sum_delete_le|exact Hd].
    + etrans; [apply map_sum_delete_le|exact Hh].
  - destruct (ok_rest _ Hok) as [Ht Hpend Hh Hf Hb Hp' Htab]. split; try done.
    + intros x t Hx Hc. destruct (Hpend x t Hx Hc) as (r0 & Hr0 & Hbytes). exists r0.
      rewrite Hreps, lookup_delete_ne; [done|]. intros ->. cbn in Htr.
      rewrite <- map_sum_zero in Htr. specialize (Htr x t Hx). rewrite Hc, N.eqb_refl in Htr. done.
    + intros c b Hc. pose proof (Hb c b Hc) as Hall. rewrite List.Forall_forall in *.
      intros x Hx. apply Hmem; [by apply Hall|]. eapply Hbound; [by apply list_elem_of_In|done].
    + intros c b Hc. pose proof (Hp' c b Hc) as Hall. rewrite List.Forall_forall in *.
      intros x Hx. apply Hmem; [by apply Hall|]. eapply Hresv; [by apply list_elem_of_In|done].
    + intros c tb Hc. destruct (Htab c tb Hc) as (b & Hbc & E1 & E2 & Hall). exists b.
      do 3 (split; [done|]).
      assert (∀ x, x ∈ ab_representations b → x ≠ id) as Hne by (intros x Hx; by eapply Hbound).
      clear -Hall Hne Hreps. induction Hall as [|x blk l l' (Hx & r0 & Hr0 & ?) _ IH]; constructor.
      * split; [done|]. exists r0. rewrite Hreps, lookup_delete_ne; [done|].
        intros ->. by apply (Hne x); [left|].
      * apply IH. intros y Hy. apply Hne. by right.
Qed.

Lemma evict_public_ok s id tier :
  pm_ok s →
  wp (evict id tier) (λ _ s', pm_ok s')
    (λ err s', s' = s ∧ match err with
       | RepresentationNotFound => pm_representations s !! id = None
       | Protected => ∃ r, pm_representations s !! id = Some r
                           ∧ Refs.protected (pr_references r) = true
       | _ => False end) s.
Proof.
  intros Hok. destruct (pm_representations s !! id) as [r|] eqn:Hr.
  2:{ unfold evict. wp_run. by rewrite Hr. }
  destruct (Refs.protected (pr_references r)) eqn:Hp.
  { unfold evict. wp_run. rewrite Hr. wp_run. rewrite Hp. eauto. }
  eapply wp_mono; [by apply (evict_ok (owners s) s id r tier (ok_core _ Hok))| |done].
  cbn beta. intros _ s' (Hc & Hf & Hreps & Hacc). split.
  - by rewrite (owners_frame _ _ Hf).
  - eapply rest_ok_frame; [apply (ok_rest _ Hok)|done|]. rewrite Hreps.
    destruct (drop_tier tier r) as [r'|] eqn:Hd; [|reflexivity].
    intros x r0 Hx. rewrite lookup_insert. destruct (decide (id = x)) as [<-|]; [|eauto].
    rewrite Hr in Hx. injection Hx as <-. exists r'. split; [done|].
    destruct tier, r as [? ? ? ? ? [] [] [] ? ? ?]; cbn in Hd; by simplify_eq.
  - apply Hacc, (ok_metrics _ Hok).
Qed.

(** Both demotions leave an unprotected copy off the device, on one other tier. *)
Lemma demoted_ok s id r host storage :
  pm_ok s → pm_representations s !! id = Some r → Refs.protected (pr_references r) = false →
  (map_sum on_host (<[id:=set_tiers false host storage r]> (pm_representations s))
   ≤ host_bytes (pm_capacity s))%N →
  core_ok (owners s) (on_representations (insert id (set_tiers false host storage r)) s)
  ∧ rest_ok [] (on_representations (insert id (set_tiers false host storage r)) s).
Proof.
  intros Hok Hr Hp Hhost. pose proof (ok_core _ Hok) as Hcore.
  pose proof (co_refs _ _ Hcore id) as Hx. rewrite Hr in Hx. destruct Hx as (H1 & H2 & H3).
  destruct (replace_rep_ok (owners s) (owners s) s id r (set_tiers false host storage r) Hcore Hr)
    as [Hc Hst]; try done.
  - etrans; [|apply (co_device _ _ Hcore)]. eapply map_sum_update; [done|]. cbn. apply N.le_0_l.
  - intros Hpos. destruct (unprotected_unowned s id r Hok Hr Hp) as (Ha & _). cbn in *. lia.
  - split; [done|]. by eapply rest_ok_reps; [apply (ok_rest _ Hok)|..].
Qed.

Lemma demote_to_host_ok s id :
  pm_ok s →
  wp (demote_to_host id) (λ _ s', pm_ok s')
    (λ err s', s' = s ∧ match err with
       | RepresentationNotFound => pm_representations s !! id = None
       | Protected => ∃ r, pm_representations s !! id = Some r
                           ∧ Refs.protected (pr_references r) = true
       | HostCapacity => True
       | _ => False end) s.
Proof.
  intros Hok. unfold demote_to_host. wp_run.
  destruct (pm_representations s !! id) as [r|] eqn:Hr; [|done]. wp_run.
  destruct (Refs.protected (pr_references r)) eqn:Hp; [by eauto|].
  pose proof (map_sum_insert_Some on_host (pm_representations s) id
    (set_tiers false true (pr_storage r) r) r Hr) as Hsum.
  pose proof (co_host _ _ (ok_core _ Hok)) as Hhost.
  apply (wp_mono _ _ (λ _ s1, s1 = s ∧ (map_sum on_host
      (<[id:=set_tiers false true (pr_storage r) r]> (pm_representations s))
      ≤ host_bytes (pm_capacity s))%N) _ (λ err s1, s1 = s ∧ err = HostCapacity)).
  - unfold on_host at 2 3 in Hsum. cbn [pr_host set_tiers pr_bytes where_] in Hsum.
    destruct (pr_host r); wp_run; cbn [where_] in Hsum.
    + split; [done|]. lia.
    + eapply wp_mono; [apply (ensure_host_capacity_ok _ _ _ (ok_core _ Hok))| |done].
      cbn beta. intros _ s1 [-> Hle]. split; [done|]. lia.
  - intros _ s1 [-> Hle].
    destruct (demoted_ok s id r true (pr_storage r) Hok Hr Hp Hle) as [Hc Hrest].
    unfold count, emit, refresh_capacity_metrics. wp_run.
    destruct (pr_device r); wp_run; apply pm_ok_refresh.
    + by eapply core_ok_frame.
    + by eapply rest_ok_frame.
    + done.
    + done.
  - intros err s1 [-> ->]. done.
Qed.

Lemma demote_to_storage_ok s id :
  pm_ok s →
  wp (demote_to_storage id) (λ _ s', pm_ok s')
    (λ err s', s' = s ∧ match err with
       | RepresentationNotFound => pm_representations s !! id = None
       | Protected => ∃ r, pm_representations s !! id = Some r
                           ∧ Refs.protected (pr_references r) = true
       | _ => False end) s.
Proof.
  intros Hok. unfold demote_to_storage. wp_run.
  destruct (pm_representations s !! id) as [r|] eqn:Hr; [|done]. wp_run.
  destruct (Refs.protected (pr_references r)) eqn:Hp; [by eauto|].
  destruct (demoted_ok s id r false true Hok Hr Hp) as [Hc Hrest].
  { etrans; [|apply (co_host _ _ (ok_core _ Hok))]. eapply map_sum_update; [done|].
    apply N.le_0_l. }
  unfold count, emit, refresh_capacity_metrics. wp_run.
  destruct (pr_device r); wp_run; apply pm_ok_refresh.
  - by eapply core_ok_frame.
  - by eapply rest_ok_frame.
  - done.
  - done.
Qed.

(** ** Growth reservations and bindings *)

Lemma rest_ok_growth s (g : gmap N GrowthReservation) :
  rest_ok [] s → (∀ x, is_Some (g !! x) → (x < pm_next_id s)%N) →
  rest_ok [] (on_growth (λ _, g) s).
Proof. intros [Ht Hpend Hh [Hf _] Hb Hp Htab] Hg. by split. Qed.

Lemma reserve_growth_ok s bytes :
  pm_ok s → roomy s →
  wp (reserve_growth bytes)
    (λ id s', pm_ok s' ∧ pm_growth s' !! id = Some (mkGrowthReservation bytes)
       ∧ admitted s bytes ∧ pm_bindings s' = pm_bindings s)
    (λ err s', pm_ok s' ∧ evicting (owners s) s s' ∧ err = DeviceCapacity) s.
Proof.
  intros Hok [Hn _]. unfold reserve_growth. wp_run.
  eapply wp_mono; [by apply ensure_device_capacity_ok, ok_core|..]; cbn beta.
  - intros _ s1 (Hev & Hadm & _). pose proof (evicting_ok _ _ Hok Hev) as Hok1.
    destruct (ev_frame _ _ _ Hev) as [_ Hnext _ Hbind _ _ _ _].
    unfold refresh_capacity_metrics. wp_run. rewrite wp_id by lia. wp_run.
    set (s2 := set_ids _ _ s1).
    assert (pm_ok s2) as Hok2 by (apply set_ids_ok; [done|lia]).
    split; [|split; [apply lookup_insert_eq|split; done]].
    apply pm_ok_refresh; [by eapply core_ok_frame; [apply Hok2|..]|].
    apply (rest_ok_growth s2 (<[pm_next_id s1 := _]> (pm_growth s2))); [apply Hok2|].
    intros x. rewrite lookup_insert. destruct (decide _) as [<-|]; [cbn; lia|].
    apply (rk_fresh _ _ (ok_rest _ Hok2)).
  - intros err s' [Hev ->]. split; [by eapply evicting_ok|done].
Qed.

Lemma release_growth_ok s id :
  pm_ok s →
  wp (release_growth id) (λ _ s', pm_ok s' ∧ pm_growth s' = delete id (pm_growth s))
    (λ err s', s' = s ∧ err = GrowthReservationNotFound ∧ pm_growth s !! id = None) s.
Proof.
  intros Hok. unfold release_growth, refresh_capacity_metrics. wp_run.
  destruct (pm_growth s !! id) as [g|] eqn:Hg; [|done]. wp_run. split; [|done].
  apply pm_ok_refresh; [by eapply core_ok_frame; [apply Hok|..]|].
  apply (rest_ok_growth s (delete id (pm_growth s))); [apply Hok|].
  intros x [g' [_ Hx]%lookup_delete_Some]. apply (rk_fresh _ _ (ok_rest _ Hok)). by exists g'.
Qed.

(** Taking a binding out leaves its members with one active owner too many. *)
Lemma drop_binding_ok extra s c b :
  core_ok (owners s) s → rest_ok extra s → pm_bindings s !! c = Some b →
  let s1 := on_block_tables (delete c) (on_bindings (delete c) s) in
  core_ok (add_own KActive (owners s1) (ab_representations b)) s1 ∧ rest_ok extra s1.
Proof.
  intros Hc Hr Hb. split.
  - eapply core_ok_frame; [eapply core_ok_ext; [exact Hc|]|done|reflexivity|done].
    intros id. cbn [add_own own_active own_reserved own_transfer owners]. split; [|done].
    rewrite (map_sum_delete _ (pm_bindings s) c b Hb). cbn. lia.
  - destruct Hr as [Ht Hpend Hh Hf Hbs Hp Htab]. split; try done.
    + cbn. intros c' b' [_ Hb']%lookup_delete_Some. by apply (Hbs c').
    + cbn. intros c' tb [Hne Hc']%lookup_delete_Some. destruct (Htab c' tb Hc') as (b' & Hb' & Hrest).
      exists b'. split; [|done]. by rewrite lookup_delete_ne.
Qed.

Lemma unbind_ok s c :
  pm_ok s →
  wp (unbind c)
    (λ _ s', pm_ok s' ∧ pm_bindings s' = delete c (pm_bindings s)
       ∧ pm_block_tables s' = delete c (pm_block_tables s)
       ∧ same_body (pm_representations s) (pm_representations s'))
    (λ err s', s' = s ∧ err = BindingNotFound ∧ pm_bindings s !! c = None) s.
Proof.
  intros Hok. unfold unbind, refresh_capacity_metrics. wp_run.
  destruct (pm_bindings s !! c) as [b|] eqn:Hb; [|done]. wp_run.
  destruct (drop_binding_ok [] s c b (ok_core _ Hok) (ok_rest _ Hok) Hb) as [Hc1 Hr1].
  eapply wp_mono; [by apply (release_all_ok KActive)| |done].
  cbn beta. intros _ s2 (Hc2 & Hf2 & Hb2). wp_run.
  split; [|split; [apply (fr_bindings _ _ Hf2)|split; [apply (fr_tables _ _ Hf2)|done]]].
  apply pm_ok_refresh; [by rewrite (owners_frame _ _ Hf2)|].
  by eapply rest_ok_frame, same_body_stable.
Qed.

Lemma release_binding_unbind c s : release_binding c s = unbind c s.
Proof. done. Qed.

(** ** Block tables *)

Lemma device_blocks_ok e ids s :
  (∀ id, id ∈ ids → is_Some (pm_representations s !! id)) →
  wp (device_blocks e ids)
    (λ bs s', s' = s ∧ Forall2 (block_of (pm_representations s)) ids bs
       ∧ ∀ id, id ∈ ids → ∃ r, pm_representations s !! id = Some r ∧ pr_device r = true)
    (λ err s', s' = s ∧ err = e
       ∧ ∃ id r, id ∈ ids ∧ pm_representations s !! id = Some r ∧ pr_device r = false) s.
Proof.
  unfold device_blocks. induction ids as [|id ids IH]; intros Hids; cbn [map_M]; wp_run.
  { split; [done|]. split; [constructor|]. intros id []%not_elem_of_nil. }
  destruct (Hids id) as [r Hr]; [by left|]. rewrite Hr. wp_run.
  destruct (pr_device r) eqn:Hd; cbn [negb]; wp_run.
  2:{ do 2 (split; [done|]). exists id, r. split; [by left|done]. }
  eapply wp_mono; [apply IH; intros; apply Hids; by right|..]; cbn beta.
  - intros bs s' (-> & Hbs & Hdev). wp_run. split; [done|]. split.
    + constructor; [|done]. split; [done|]. by exists r.
    + intros x [->|Hx]%elem_of_cons; [by exists r|by apply Hdev].
  - intros err s' (-> & -> & x & rx & Hx & ?). do 2 (split; [done|]). exists x, rx.
    split; [by right|done].
Qed.

Lemma members_present reps mapping ids :
  Forall (member reps mapping) ids → ∀ id, id ∈ ids → is_Some (reps !! id).
Proof.
  rewrite List.Forall_forall. intros Hall id Hid%list_elem_of_In.
  destruct (Hall id Hid) as (r & Hr & _). by exists r.
Qed.

(** Publishing a table that describes the current binding. *)
Lemma table_ok extra s c b tb :
  rest_ok extra s → pm_bindings s !! c = Some b →
  bt_binding tb = ab_id b → bt_mapping tb = ab_mapping b →
  Forall2 (block_of (pm_representations s)) (ab_representations b) (bt_blocks tb) →
  rest_ok extra (on_block_tables (insert c tb) s).
Proof.
  intros [Ht Hpend Hh Hf Hb Hp Htab] Hc H1 H2 H3. split; try done. cbn.
  intros c' tb'. rewrite lookup_insert. destruct (decide (c = c')) as [<-|]; [|apply Htab].
  intros [= <-]. by exists b.
Qed.

Lemma publish_ok s c binding executor_mapping :
  pm_ok s → roomy s →
  wp (publish_device_block_table c binding executor_mapping)
    (λ id s', pm_ok s' ∧ pm_representations s' = pm_representations s
       ∧ pm_bindings s' = pm_bindings s
       ∧ ∃ b tb, pm_bindings s !! c = Some b ∧ ab_id b = binding
         ∧ pm_block_tables s' = <[c := tb]> (pm_block_tables s)
         ∧ bt_id tb = id ∧ bt_binding tb = binding ∧ bt_mapping tb = ab_mapping b
         ∧ bt_executor_mapping tb = executor_mapping
         ∧ Forall2 (block_of (pm_representations s)) (ab_representations b) (bt_blocks tb))
    (λ err s', s' = s) s.
Proof.
  intros Hok [Hn _]. unfold publish_device_block_table, count. wp_run.
  destruct (pm_bindings s !! c) as [b|] eqn:Hb; [|done]. wp_run.
  destruct (N.eqb_spec (ab_id b) binding) as [Heq|]; cbn [negb]; wp_run; [|done].
  pose proof (rk_binding _ _ (ok_rest _ Hok) c b Hb) as Hmem.
  eapply wp_mono; [apply (device_blocks_ok _ _ s (members_present _ _ _ Hmem))|..]; cbn beta.
  2:{ intros err s' (-> & _). done. }
  intros bs s' (-> & Hbs & _). wp_run. rewrite wp_id by lia. wp_run.
  set (s2 := set_ids _ _ s). assert (pm_ok s2) as Hok2 by (apply set_ids_ok; [done|lia]).
  split; [|do 2 (split; [done|]); exists b; eexists; repeat split; try done].
  split; [by eapply core_ok_frame; [apply Hok2|..]| |exact (f_equal _ (ok_metrics _ Hok2))].
  apply (rest_ok_frame [] (on_block_tables (insert c
    (mkDeviceBlockTable (pm_next_id s) binding (ab_mapping b) executor_mapping bs)) s2));
    [|done|reflexivity].
  eapply (table_ok [] s2 c b); [apply Hok2|done|done|done|done].
Qed.

(** ** Promotion *)

Lemma promote_ok o x r s :
  core_ok o s → pm_representations s !! x = Some r → pr_device r = false →
  (map_sum on_device (pm_representations s) + pr_bytes r ≤ device_bytes (pm_capacity s))%N →
  wp (update_rep x set_device)
    (λ _ s', core_ok o s' ∧ frame s s'
       ∧ pm_representations s' = <[x := set_device r]> (pm_representations s)
       ∧ stable (pm_representations s) (pm_representations s'))
    (λ _ _, False) s.
Proof.
  intros Hok Hr Hd Hle. unfold update_rep. wp_run. rewrite Hr. wp_run.
  pose proof (co_refs _ _ Hok x) as Hx. rewrite Hr in Hx. destruct Hx as (H1 & H2 & H3).
  unfold on_representations. cbn [pm_representations]. rewrite (alter_insert_id _ _ _ _ Hr).
  pose proof (map_sum_insert_Some on_device _ x (set_device r) r Hr) as Hsum.
  unfold on_device at 2 3 in Hsum. cbn in Hsum. rewrite Hd in Hsum. cbn in Hsum.
  destruct (replace_rep_ok o o s x r (set_device r) Hok Hr) as [Hok' Hst]; try done.
  - lia.
  - etrans; [|apply (co_host _ _ Hok)]. by eapply map_sum_update.
Qed.

(** A protected copy is never evicted: what is seen before a scan for space is
    seen after it. *)
Lemma evicting_lookup o s s' id r :
  evicting o s s' → pm_representations s !! id = Some r → warm r = false →
  pm_representations s' !! id = Some r.
Proof.
  intros Hev Hr Hw. destruct (ev_shed _ _ _ Hev id) as [->|(r0 & Hr0 & Hw0 & _)]; [done|congruence].
Qed.

(** The promotion step shared by transfers and recomputations. *)
Lemma bring_to_device_ok x r bytes s (k : PMM unit) :
  pm_ok s → pm_representations s !! x = Some r → pr_bytes r = bytes →
  (∀ s1, wp k (λ _ s', frame s1 s' ∧ pm_representations s' = pm_representations s1)
           (λ _ _, False) s1) →
  wp (if pr_device r then mret tt
      else _ ← ensure_device_space bytes; _ ← update_rep x set_device; k)
    (λ _ s', core_ok (owners s) s' ∧ frame s s'
       ∧ stable (pm_representations s) (pm_representations s')
       ∧ ∃ r', pm_representations s' !! x = Some r' ∧ pr_device r' = true)
    (λ err s', pm_ok s' ∧ evicting (owners s) s s' ∧ err = DeviceCapacity) s.
Proof.
  intros Hok Hr Hbytes Hk. destruct (pr_device r) eqn:Hd; wp_run.
  { split; [apply Hok|]. split; [done|]. split; [reflexivity|]. by exists r. }
  eapply wp_mono; [by apply (ensure_device_space_ok (owners s)), ok_core|..]; cbn beta.
  2:{ intros err s' (Hev & -> & _). split; [by eapply evicting_ok|done]. }
  intros _ s1 [Hev Hle]. wp_run.
  assert (pm_representations s1 !! x = Some r) as Hr1.
  { eapply evicting_lookup; [done|done|]. unfold warm. by rewrite Hd. }
  destruct Hev as [Hc1 Hf1 Hs1 _ _].
  eapply wp_mono; [apply (promote_ok (owners s) x r s1 Hc1 Hr1 Hd)| |done]; cbn beta.
  { rewrite (fr_capacity _ _ Hf1), Hbytes. done. }
  intros _ s2 (Hc2 & Hf2 & Hreps2 & Hst2).
  eapply wp_mono; [apply Hk| |done]. cbn beta. intros _ s3 [Hf3 Hreps3].
  split; [|split; [by do 2 (etrans; [done|])|split]].
  - eapply core_ok_frame; [exact Hc2|apply Hf3| |done]. by rewrite (fr_next _ _ Hf3).
  - rewrite Hreps3. etrans; [|done]. by apply shed_stable.
  - exists (set_device r). rewrite Hreps3, Hreps2. split; [apply lookup_insert_eq|done].
Qed.

Lemma complete_recompute_ok s x rep :
  pm_ok s →
  wp (complete_recompute x rep)
    (λ _ s', pm_ok s' ∧ pm_bindings s' = pm_bindings s
       ∧ ∃ r', pm_representations s' !! rep = Some r' ∧ pr_device r' = true)
    (λ err s', pm_ok s' ∧ evicting (owners s) s s') s.
Proof.
  intros Hok. pose proof (evicting_refl _ _ (ok_core _ Hok)) as Hrefl.
  unfold complete_recompute, count, refresh_capacity_metrics. wp_run.
  destruct (pm_transitions s !! x) as [p|] eqn:Hp; [|done]. wp_run.
  destruct (bool_decide (pt_class p = Recompute)); cbn [negb orb]; [|done].
  destruct (bool_decide_reflect (rep ∈ pt_representations p)) as [Hin|]; cbn [negb]; [|done].
  destruct (members_present _ _ _ (rk_transition _ _ (ok_rest _ Hok) x p Hp) rep Hin) as [r Hr].
  rewrite Hr. wp_run. eapply wp_mono; [eapply bring_to_device_ok; [done|done|done|]|..]; cbn beta.
  - intros s1. by wp_run.
  - intros _ s1 (Hc & Hf & Hst & r' & Hr' & Hd'). wp_run.
    split; [|split; [apply (fr_bindings _ _ Hf)|by exists r']].
    apply pm_ok_refresh; [by rewrite (owners_frame _ _ Hf)|].
    eapply rest_ok_frame; [apply (ok_rest _ Hok)|done..].
  - intros err s' (? & ? & _). done.
Qed.

(** The transfer table once a transfer is done: attached ones wait for their
    transition, detached ones are forgotten. *)
Definition settle_transfer (id : TransferId) (t : Transfer) (success : bool)
    (ts : gmap N Transfer) : gmap N Transfer :=
  if tr_detached t then delete id ts
  else <[id := mkTransfer (tr_representation t) (tr_bytes t) true success false]> ts.

Lemma settle_rest_ok s id t success :
  rest_ok [] s → pm_transfers s !! id = Some t → tr_completed t = false →
  rest_ok [] (on_transfers (settle_transfer id t success) s).
Proof.
  intros [Ht Hpend Hh Hf Hb Hp Htab] Hid Hc. destruct (Ht id t Hid) as (Hlt & _ & Hhold).
  split; try done; cbn; unfold settle_transfer.
  - intros x t'. destruct (tr_detached t).
    + intros [_ Hx]%lookup_delete_Some. by apply Ht.
    + rewrite lookup_insert. destruct (decide (id = x)) as [<-|]; [|by apply Ht]. by intros [= <-].
  - intros x t'. destruct (tr_detached t).
    + intros [_ Hx]%lookup_delete_Some. by eapply Hpend.
    + rewrite lookup_insert. destruct (decide (id = x)) as [<-|]; [|by eapply Hpend]. by intros [= <-].
  - intros x Hx. specialize (Hh x Hx).
    destruct (tr_detached t).
    + rewrite lookup_delete_ne; [done|]. intros ->.
      change (0 < holders s x + occ x [])%N in Hx. lia.
    + rewrite lookup_insert. by destruct (decide _).
Qed.

(** Marking a pending transfer as done takes away one transfer owner. *)
Lemma done_owners s id t tc x :
  pm_transfers s !! id = Some t → tr_completed t = false → tr_completed tc = true →
  own_transfer (owners s) x =
    (own_transfer (owners (on_transfers (insert id tc) s)) x + occ x [tr_representation t])%N.
Proof.
  intros Hid Hc Hdone. cbn [owners own_transfer on_transfers pm_transfers].
  rewrite occ_cons, occ_nil.
  pose proof (map_sum_insert_Some (λ t, where_ (negb (tr_completed t) && (tr_representation t =? x)%N) 1)
    (pm_transfers s) id tc t Hid) as Hsum. cbn beta in Hsum. rewrite Hc, Hdone in Hsum. cbn in Hsum.
  destruct (decide (x = tr_representation t)) as [->|]; [rewrite N.eqb_refl in Hsum; cbn in Hsum; lia|].
  rewrite (proj2 (N.eqb_neq (tr_representation t) x)) in Hsum by congruence. cbn in Hsum. lia.
Qed.

(** Forgetting a completed transfer changes no total. *)
Lemma forget_owners s id t :
  pm_transfers s !! id = Some t → tr_completed t = true →
  ∀ x, own_transfer (owners (on_transfers (delete id) s)) x = own_transfer (owners s) x.
Proof.
  intros Hid Hc x. cbn. rewrite (map_sum_delete _ (pm_transfers s) id t Hid). by rewrite Hc.
Qed.

Lemma forget_detached s id t :
  pm_transfers s !! id = Some t → tr_completed t = true →
  detached_transfer_reserved_bytes (on_transfers (delete id) s) = detached_transfer_reserved_bytes s.
Proof.
  intros Hid Hc. unfold detached_transfer_reserved_bytes, usize_sum. cbn.
  rewrite (map_sum_delete _ (pm_transfers s) id t Hid).
  rewrite Hc, andb_false_r. by rewrite N.add_0_l.
Qed.

Lemma accurate_forget s id t :
  accurate s → pm_transfers s !! id = Some t → tr_completed t = true →
  accurate (on_transfers (delete id) s).
Proof.
  unfold accurate. intros Hacc Hid Hc. etrans; [|exact Hacc]. unfold refresh, on_metrics.
  cbn [pm_metrics]. by rewrite (forget_detached s id t).
Qed.

Lemma complete_transfer_ok s id success :
  pm_ok s →
  wp (complete_transfer id success)
    (λ _ s', pm_ok s' ∧ pm_bindings s' = pm_bindings s ∧ pm_transitions s' = pm_transitions s
       ∧ ∃ t, pm_transfers s !! id = Some t
          ∧ pm_transfers s' = (if tr_completed t then pm_transfers s
                               else settle_transfer id t success (pm_transfers s))
          ∧ (tr_completed t = false → success = true →
             ∃ r, pm_representations s' !! tr_representation t = Some r ∧ pr_device r = true))
    (λ err s', pm_ok s' ∧ evicting (owners s) s s') s.
Proof.
  intros Hok. pose proof (evicting_refl _ _ (ok_core _ Hok)) as Hrefl.
  unfold complete_transfer, count, emit, refresh_capacity_metrics. wp_run.
  destruct (pm_transfers s !! id) as [t|] eqn:Ht; [|done]. wp_run.
  destruct (tr_completed t) eqn:Hc; wp_run.
  { split; [done|]. do 2 (split; [done|]). exists t. by rewrite Hc. }
  destruct (rk_pending _ _ (ok_rest _ Hok) id t Ht Hc) as (r & Hr & Hbytes).
  apply (wp_mono _ _ (λ _ s1, core_ok (owners s) s1 ∧ frame s s1
       ∧ stable (pm_representations s) (pm_representations s1)
       ∧ (success = true → ∃ r', pm_representations s1 !! tr_representation t = Some r'
                                 ∧ pr_device r' = true))
    _ (λ err s', pm_ok s' ∧ evicting (owners s) s s' ∧ err = DeviceCapacity)).
  { destruct success; wp_run; [|by split; [apply Hok|]]. rewrite Hr. wp_run.
    eapply wp_mono; [eapply bring_to_device_ok; [done|done|done|]| |done]; cbn beta.
    - intros s1. by wp_run.
    - intros _ s1 (Hc1 & Hf1 & Hst1 & Hdev). wp_run. split; [by eapply core_ok_frame|].
      split; [|done]. etrans; [exact Hf1|by split]. }
  2:{ intros err s' (? & ? & _). done. }
  intros _ s1 (Hc1 & Hf1 & Hst1 & Hdev). wp_run.
  rewrite (fr_transfers _ _ Hf1), Ht. wp_run.
  set (tc := mkTransfer _ _ true success _). set (sA := on_transfers (insert id tc) s1).
  assert (core_ok (add_own KTransfer (owners sA) [tr_representation t]) sA) as HcA.
  { eapply core_ok_frame; [eapply core_ok_ext; [exact Hc1|]|done|done|done].
    rewrite <- (owners_frame _ _ Hf1). intros x.
    split; [done|]. split; [done|]. symmetry.
    apply (done_owners s1 id t tc x); [by rewrite (fr_transfers _ _ Hf1)|done|done]. }
  eapply wp_mono; [apply (release_ok KTransfer (owners sA) (tr_representation t) sA HcA)| |done].
  cbn beta. intros _ sB (HcB & HfB & HbB). wp_run.
  set (sC := refresh (push_event _ sB)).
  set (sD := on_transfers (settle_transfer id t success) s).
  assert (rest_ok [] sD) as HrD by (by apply settle_rest_ok; [apply Hok|..]).
  assert (stable (pm_representations s) (pm_representations sB)) as HstB.
  { etrans; [exact Hst1|]. change (pm_representations s1) with (pm_representations sA).
    by apply same_body_stable. }
  assert (pm_transfers sB = <[id:=tc]> (pm_transfers s)) as HtB
    by (rewrite (fr_transfers _ _ HfB); cbn; by rewrite (fr_transfers _ _ Hf1)).
  assert (success = true → ∃ r', pm_representations sB !! tr_representation t = Some r'
            ∧ pr_device r' = true) as HdevB.
  { intros Hs. destruct (Hdev Hs) as (r' & Hr' & Hd'). by eapply same_body_device. }
  assert (∀ s', pm_representations s' = pm_representations sB → pm_bindings s' = pm_bindings s →
    pm_transitions s' = pm_transitions s → pm_growth s' = pm_growth s →
    pm_block_tables s' = pm_block_tables s → pm_next_id s' = pm_next_id s →
    pm_transfers s' = pm_transfers sD → rest_ok [] s') as Hrest.
  { intros s' E1 E2 E3 E4 E5 E6 E7. eapply rest_ok_reps; [exact HrD|done..|cbn; lia|].
    by rewrite E1. }
  assert (owners sC = owners sA) as HoC by (apply owners_eq; apply HfB).
  assert (core_ok (owners sC) sC) as HcC by (rewrite HoC; by eapply core_ok_frame).
  assert (pm_transfers sC = <[id:=tc]> (pm_transfers s)) as HtC by exact HtB.
  assert (pm_bindings sC = pm_bindings s) as HbC by (etrans; [apply HfB|apply Hf1]).
  assert (pm_transitions sC = pm_transitions s) as HpC by (etrans; [apply HfB|apply Hf1]).
  assert (pm_growth sC = pm_growth s) as HgC by (etrans; [apply HfB|apply Hf1]).
  assert (pm_block_tables sC = pm_block_tables s) as HkC by (etrans; [apply HfB|apply Hf1]).
  assert (pm_next_id sC = pm_next_id s) as HnC by (etrans; [apply HfB|apply Hf1]).
  assert (tr_detached tc = tr_detached t) as Hdt by done.
  destruct (tr_detached t) eqn:Hdet; wp_run.
  - assert (pm_transfers sC !! id = Some tc) as HidC by (rewrite HtC; apply lookup_insert_eq).
    split; [split|do 2 (split; [done|]); exists t; rewrite Hc].
    + eapply core_ok_frame; [eapply core_ok_ext; [exact HcC|]|done..].
      intros x. split; [done|]. split; [done|]. by apply (forget_owners sC id tc).
    + apply Hrest; try done. cbn [pm_transfers on_transfers sD]. rewrite HtC.
      unfold settle_transfer. by rewrite Hdet, delete_insert_eq.
    + by apply (accurate_forget sC id tc).
    + split; [done|]. split; [|done]. cbn [pm_transfers on_transfers]. rewrite HtC.
      unfold settle_transfer. by rewrite Hdet, delete_insert_eq.
  - split; [split|do 2 (split; [done|]); exists t; rewrite Hc].
    + done.
    + apply Hrest; try done. rewrite HtC. cbn [sD pm_transfers on_transfers].
      unfold settle_transfer. rewrite Hdet. done.
    + done.
    + split; [done|]. split; [|done]. rewrite HtC. unfold settle_transfer. by rewrite Hdet.
Qed.

(** ** Preparing a transition *)

Lemma scan_composite_ok reps mapping end_ present ids out :
  scan_composite reps mapping end_ present ids = Ok out → NoDup present →
  NoDup out ∧ length out = length present + length ids
  ∧ Forall (member reps mapping) ids
  ∧ Forall (λ id, ∃ r, reps !! id = Some r ∧ pr_represented_end r = end_) ids.
Proof.
  revert present. induction ids as [|id ids IH]; intros present; cbn [scan_composite].
  { intros [= <-] Hnd. cbn. repeat split; [done|lia|constructor|constructor]. }
  destruct (reps !! id) as [r|] eqn:Hr; [|done].
  destruct (_ || _) eqn:Hbad; [done|]. intros Hscan Hnd.
  rewrite !orb_false_iff, !negb_false_iff, N.eqb_eq, Nat.eqb_eq, bool_decide_eq_false in Hbad.
  destruct Hbad as [[Hm He] Hnew].
  destruct (IH _ Hscan) as (Hout & Hlen & Hall & Hend).
  { apply list.NoDup_app. split; [done|]. split; [|apply list.NoDup_singleton].
    intros x Hx ->%list_elem_of_singleton. done. }
  rewrite length_app in Hlen. cbn in *.
  repeat split; [done|lia|constructor; [by exists r|done]|constructor; [by exists r|done]].
Qed.

Lemma components_bound (l : list Component) : NoDup l → length l ≤ 3.
Proof.
  intros Hnd. apply (submseteq_length l [GlobalKv; SlidingWindow; Recurrent]).
  apply NoDup_submseteq; [done|]. intros [] _; rewrite !elem_of_cons; tauto.
Qed.

Lemma validate_composite_ok s mapping end_ required ids :
  validate_composite s mapping end_ required ids = Ok tt →
  length ids ≤ 3 ∧ Forall (member (pm_representations s) mapping) ids.
Proof.
  unfold validate_composite, mbind, result_bind.
  destruct (scan_composite _ _ _ _ _) as [out|] eqn:Hscan; [|done]. intros _.
  destruct (scan_composite_ok _ _ _ _ _ _ Hscan) as (Hnd & Hlen & Hall & _); [constructor|].
  split; [|done]. apply components_bound in Hnd. cbn in Hlen. lia.
Qed.

(** The bytes a member needs on the device. *)
Definition missing_of reps id : N :=
  from_option (λ r, where_ (negb (pr_device r)) (pr_bytes r)) 0%N (reps !! id).

Lemma plan_ok reps allow missing recompute ids s :
  (∀ id, id ∈ ids → is_Some (reps !! id)) →
  wp (plan reps allow missing recompute ids)
    (λ '(m, _) s', s' = s ∧ m = (missing + list_sum (missing_of reps) ids)%N)
    (λ err s', s' = s ∧ (err = DeviceCapacity ∨ err = NoPromotionSource)) s.
Proof.
  revert missing recompute. induction ids as [|id ids IH]; intros missing recompute Hids;
    cbn [plan]; wp_run; [split; [done|cbn; lia]|].
  destruct (Hids id) as [r Hr]; [by left|]. rewrite Hr. wp_run.
  assert (∀ x, x ∈ ids → is_Some (reps !! x)) as Hids' by (intros; apply Hids; by right).
  assert (missing_of reps id = where_ (negb (pr_device r)) (pr_bytes r)) as Hm
    by (unfold missing_of; by rewrite Hr).
  assert (∀ m rc, (m = missing + missing_of reps id)%N → wp (plan reps allow m rc ids)
    (λ '(m, _) s', s' = s ∧ m = (missing + list_sum (missing_of reps) (id :: ids))%N)
    (λ err s', s' = s ∧ (err = DeviceCapacity ∨ err = NoPromotionSource)) s) as Hrec.
  { intros m rc ->. eapply wp_mono; [by apply IH| |done]. cbn beta.
    intros [m rc'] s' [-> ->]. split; [done|]. rewrite list_sum_cons. lia. }
  destruct (pr_device r); [apply Hrec; rewrite Hm; cbn; lia|]. cbn in Hm.
  destruct (pr_host r || pr_storage r).
  - wp_run. unfold checked_add. destruct (decide _); [|auto]. apply Hrec. lia.
  - destruct allow; wp_run; [|auto]. unfold checked_add. destruct (decide _); [|auto].
    apply Hrec. lia.
Qed.

(** What the reservation loop keeps. *)
Record reserving s s' : Prop := {
  rv_capacity : pm_capacity s' = pm_capacity s;
  rv_clock : pm_clock s' = pm_clock s;
  rv_bindings : pm_bindings s' = pm_bindings s;
  rv_transitions : pm_transitions s' = pm_transitions s;
  rv_growth : pm_growth s' = pm_growth s;
  rv_tables : pm_block_tables s' = pm_block_tables s;
  rv_next : (pm_next_id s ≤ pm_next_id s')%N;
  rv_body : same_body (pm_representations s) (pm_representations s');
}.

#[export] Instance reserving_preorder : PreOrder reserving.
Proof.
  split; [intros s; split; [done..|lia|done]|]. intros s1 s2 s3 [] [].
  split; [congruence..|lia|by etrans].
Qed.

Lemma frame_reserving s s' :
  frame s s' → same_body (pm_representations s) (pm_representations s') → reserving s s'.
Proof. intros [] Hb. split; [done..|lia|done]. Qed.

Lemma rest_ok_insert_transfer extra s id r bytes :
  rest_ok extra s → pm_representations s !! id = Some r → pr_bytes r = bytes →
  pm_transfers s !! pm_next_id s = None →
  rest_ok (extra ++ [pm_next_id s])
    (set_ids (pm_next_id s + 1) (pm_clock s)
       (on_transfers (insert (pm_next_id s) (mkTransfer id bytes false false false)) s)).
Proof.
  intros [Ht Hpend Hh [Hf1 Hf2] Hb Hp Htab] Hr Hbytes Hnone.
  assert (∀ x, holders s x + occ x extra = 0 ↔ pm_transfers s !! x = None ∨
    ∃ t, pm_transfers s !! x = Some t ∧ tr_detached t = true)%N as Hzero.
  { intros x. split.
    - intros Hz. destruct (pm_transfers s !! x) as [t|] eqn:Hx; [|by left]. right. exists t.
      split; [done|]. destruct (Ht x t Hx) as (_ & _ & He). destruct (tr_detached t); [done|lia].
    - intros [Hn|(t & Hx & Hd)].
      + destruct (decide (0 < holders s x + occ x extra)%N) as [Hpos|]; [|lia].
        destruct (Hh x Hpos) as [? ?]. congruence.
      + destruct (Ht x t Hx) as (_ & _ & He). by rewrite Hd in He. }
  split; cbn; try done.
  - intros x t. rewrite occ_app, occ_cons, occ_nil, lookup_insert.
    change (holders _ x) with (holders s x).
    destruct (decide (pm_next_id s = x)) as [<-|Hx].
    + intros [= <-]. cbn. rewrite decide_True by done.
      assert (holders s (pm_next_id s) + occ (pm_next_id s) extra = 0)%N by (apply Hzero; by left).
      split; [lia|]; split; [done|lia].
    + intros Hxt. destruct (Ht x t Hxt) as (? & ? & He). rewrite decide_False by done.
      split; [lia|]; split; [done|lia].
  - intros x t. rewrite lookup_insert. destruct (decide (pm_next_id s = x)) as [<-|]; [|by apply Hpend].
    intros [= <-] _. by exists r.
  - intros x Hx. change (holders _ x) with (holders s x) in Hx.
    rewrite occ_app, occ_cons, occ_nil in Hx. rewrite lookup_insert.
    destruct (decide (pm_next_id s = x)) as [|Hne]; [by eexists|]. rewrite decide_False in Hx by done.
    apply Hh. lia.
  - split; intros x Hx; [specialize (Hf1 x Hx)|specialize (Hf2 x Hx)]; lia.
Qed.

Lemma add_own_app k o l x id :
  own_active (add_own k o (l ++ [x])) id = own_active (add_own k (add_own k o l) [x]) id
  ∧ own_reserved (add_own k o (l ++ [x])) id = own_reserved (add_own k (add_own k o l) [x]) id
  ∧ own_transfer (add_own k o (l ++ [x])) id = own_transfer (add_own k (add_own k o l) [x]) id.
Proof.
  destruct k; cbn [add_own own_active own_reserved own_transfer]; rewrite ?occ_app;
    repeat split; lia.
Qed.

Lemma insert_transfer_owners s x t id :
  pm_transfers s !! x = None → tr_completed t = false →
  own_transfer (owners (on_transfers (insert x t) s)) id
    = (own_transfer (owners s) id + occ id [tr_representation t])%N.
Proof.
  intros Hx Hc. cbn [owners own_transfer on_transfers pm_transfers].
  rewrite map_sum_insert_None by done. rewrite Hc, occ_cons, occ_nil. cbn.
  destruct (decide (id = tr_representation t)) as [->|]; [rewrite N.eqb_refl; cbn; lia|].
  rewrite (proj2 (N.eqb_neq (tr_representation t) id)) by congruence. cbn. lia.
Qed.

(** One member of the composite: protected, and its transfer started. *)
Lemma reserve_member_ok members extra id r s :
  core_ok (add_own KReserved (owners s) members) s → rest_ok extra s →
  pm_representations s !! id = Some r → (pm_next_id s + 1 ≤ u64_max)%N →
  wp (reserve_member id)
    (λ ids s', core_ok (add_own KReserved (owners s') (members ++ [id])) s'
       ∧ rest_ok (extra ++ ids) s' ∧ reserving s s' ∧ (pm_next_id s' ≤ pm_next_id s + 1)%N)
    (λ _ _, False) s.
Proof.
  intros Hc Hr Hid Hn. unfold reserve_member. wp_run. rewrite Hid. wp_run.
  eapply wp_mono; [apply (acquire_ok KReserved _ id r s Hc Hid); done| |done].
  cbn beta. intros _ s1 (Hc1 & Hf1 & Hb1).
  assert (core_ok (add_own KReserved (owners s1) (members ++ [id])) s1) as Hc1'.
  { eapply core_ok_ext; [exact Hc1|]. rewrite (owners_frame _ _ Hf1). apply add_own_app. }
  pose proof (rest_ok_frame _ _ _ Hr Hf1 (same_body_stable _ _ Hb1)) as Hr1.
  pose proof (frame_reserving _ _ Hf1 Hb1) as Hv1.
  destruct (needs_transfer r); wp_run.
  2:{ rewrite app_nil_r. do 3 (split; [done|]). rewrite (fr_next _ _ Hf1). lia. }
  rewrite wp_id by (rewrite (fr_next _ _ Hf1); lia). wp_run.
  set (s2 := set_ids _ _ s1).
  assert (core_ok (add_own KReserved (owners s2) (members ++ [id])) s2) as Hc2
    by (eapply core_ok_frame; [exact Hc1'|done|cbn; lia|done]).
  destruct (same_body_stable _ _ Hb1 id r Hid) as (r1 & Hid1 & Hsh1).
  eapply wp_mono; [apply (acquire_ok KTransfer _ id r1 s2 Hc2 Hid1); done| |done].
  cbn beta. intros _ s3 (Hc3 & Hf3 & Hb3). wp_run.
  set (t := mkTransfer _ _ _ _ _). set (x := pm_next_id s1).
  assert (pm_transfers s1 !! x = None) as Hnone.
  { destruct (pm_transfers s1 !! x) as [t0|] eqn:Hx; [|done].
    destruct (rk_transfer _ _ Hr1 x t0 Hx). lia. }
  assert (pm_transfers s3 !! x = None) as Hnone3 by (by rewrite (fr_transfers _ _ Hf3)).
  split; [|split; [|split]].
  - eapply core_ok_frame; [eapply core_ok_ext; [exact Hc3|]|done..].
    intros y. cbn [add_own own_active own_reserved own_transfer].
    rewrite (insert_transfer_owners s3 x t y Hnone3) by done.
    rewrite <- (owners_frame _ _ Hf3). done.
  - eapply (rest_ok_reps _ (set_ids (x + 1) (pm_clock s1) (on_transfers (insert x t) s1)));
      [|cbn; try apply Hf3..].
    + apply rest_ok_insert_transfer with (r := r1); [done|done| |done]. unfold shape in Hsh1. cbn. congruence.
    + rewrite (fr_transfers _ _ Hf3). done.
    + rewrite (fr_next _ _ Hf3). cbn. lia.
    + change (pm_representations s1) with (pm_representations s2). by apply same_body_stable.
  - transitivity s1; [exact Hv1|]. transitivity s2; [split; try done; cbn; lia|].
    transitivity s3; [by apply frame_reserving|]. split; try done; cbn; lia.
  - change (pm_next_id s3 ≤ pm_next_id s + 1)%N. rewrite (fr_next _ _ Hf3). cbn.
    rewrite (fr_next _ _ Hf1). lia.
Qed.

Lemma reserve_all_ok ids members extra s :
  core_ok (add_own KReserved (owners s) members) s → rest_ok extra s →
  (∀ id, id ∈ ids → is_Some (pm_representations s !! id)) →
  (pm_next_id s + N.of_nat (length ids) ≤ u64_max)%N →
  wp (map_M reserve_member ids)
    (λ tss s', core_ok (add_own KReserved (owners s') (members ++ ids)) s'
       ∧ rest_ok (extra ++ concat tss) s' ∧ reserving s s')
    (λ _ _, False) s.
Proof.
  revert members extra s. induction ids as [|id ids IH]; intros members extra s Hc Hr Hids Hn;
    cbn [map_M]; wp_run.
  { rewrite !app_nil_r. done. }
  destruct (Hids id) as [r Hid]; [by left|]. cbn [length] in Hn.
  eapply wp_mono; [eapply reserve_member_ok; [exact Hc|exact Hr|exact Hid|lia]| |done].
  cbn beta. intros ts s1 (Hc1 & Hr1 & Hv1 & Hn1). wp_run.
  eapply wp_mono; [apply (IH (members ++ [id]) (extra ++ ts) s1 Hc1 Hr1)| |done].
  - intros x Hx. destruct (Hids x) as [rx Hrx]; [by right|].
    destruct (same_body_stable _ _ (rv_body _ _ Hv1) x rx Hrx) as (rx' & ? & _). by exists rx'.
  - lia.
  - cbn beta. intros tss s2 (Hc2 & Hr2 & Hv2). wp_run. cbn [concat].
    rewrite <- !app_assoc in Hc2, Hr2. do 2 (split; [done|]). by etrans.
Qed.

(** Recording the transition hands the collected transfers over to it. *)
Lemma insert_transition_ok s tid t :
  core_ok (add_own KReserved (owners s) (pt_representations t)) s →
  rest_ok (pt_transfers t) s → pm_transitions s !! tid = None → (tid < pm_next_id s)%N →
  Forall (member (pm_representations s) (pt_mapping t)) (pt_representations t) →
  let s' := on_transitions (insert tid t) s in
  core_ok (owners s') s' ∧ rest_ok [] s'.
Proof.
  intros Hc [Ht Hpend Hh [Hf1 Hf2] Hb Hp Htab] Hnone Hlt Hmem. cbv zeta.
  assert (∀ x, holders (on_transitions (insert tid t) s) x = occ x (pt_transfers t) + holders s x)%N
    as Hhold by (intros x; unfold holders; cbn; by rewrite map_sum_insert_None).
  split; [|split; cbn; try done].
  - eapply core_ok_frame; [eapply core_ok_ext; [exact Hc|]|done|cbn; lia|done].
    intros x. cbn [add_own own_active own_reserved own_transfer owners].
    split; [done|]. split; [|done]. cbn. rewrite map_sum_insert_None by done. lia.
  - intros x t' Hx. rewrite Hhold. destruct (Ht x t' Hx) as (? & ? & He).
    split; [lia|]. split; [done|]. lia.
  - intros x. rewrite Hhold. intros Hx. apply Hh. lia.
  - split; [|done]. intros x. rewrite lookup_insert. destruct (decide (tid = x)) as [<-|]; [done|].
    apply Hf1.
  - intros x t'. rewrite lookup_insert. destruct (decide (tid = x)) as [<-|]; [|apply Hp].
    by intros [= <-].
Qed.

Lemma prepare_transition_ok s context revision mapping end_ required ids allow :
  pm_ok s → roomy s →
  wp (prepare_transition context revision mapping end_ required ids allow)
    (λ '(tid, class, ts) s', pm_ok s' ∧ pm_transitions s !! tid = None
       ∧ pm_bindings s' = pm_bindings s ∧ pm_block_tables s' = pm_block_tables s
       ∧ pm_growth s' = pm_growth s
       ∧ validate_composite s mapping end_ required ids = Ok tt
       ∧ pm_transitions s' = <[tid := mkPreparedTransition context revision mapping ids ts
           (list_sum (missing_of (pm_representations s)) ids) class]> (pm_transitions s)
       ∧ admitted s (list_sum (missing_of (pm_representations s)) ids))
    (λ err s', pm_ok s' ∧ evicting (owners s) s s') s.
Proof.
  intros Hok [Hn _]. pose proof (evicting_refl _ _ (ok_core _ Hok)) as Hrefl.
  unfold prepare_transition, count, emit, refresh_capacity_metrics. wp_run.
  destruct (validate_composite s mapping end_ required ids) as [[]|] eqn:Hval; [|done].
  destruct (validate_composite_ok _ _ _ _ _ Hval) as [Hlen Hmem].
  pose proof (members_present _ _ _ Hmem) as Hpres.
  eapply wp_mono; [by apply plan_ok| |by intros err s' [-> _]].
  cbn beta. intros [missing rc] s0 [-> ->]. wp_run. rewrite N.add_0_l.
  set (missing := list_sum _ ids).
  eapply wp_mono; [by apply ensure_device_capacity_ok, ok_core|..]; cbn beta.
  2:{ intros err s' [Hev _]. split; [by eapply evicting_ok|done]. }
  intros _ s1 (Hev & Hadm & _). wp_run.
  pose proof (evicting_ok _ _ Hok Hev) as Hok1.
  destruct Hev as [_ [_ Hnext _ Hbind Htrans _ Hgrow Htab] Hshed _ _].
  rewrite wp_id by lia. wp_run. set (s2 := set_ids _ _ s1).
  assert (pm_ok s2) as Hok2 by (apply set_ids_ok; [done|lia]).
  pose proof (shed_stable _ _ Hshed) as Hst.
  eapply wp_mono; [apply (reserve_all_ok ids [] [] s2)| |done].
  - eapply core_ok_ext; [apply (ok_core _ Hok2)|]. intros x. cbn. by rewrite N.add_0_r.
  - apply Hok2.
  - intros x Hx. destruct (Hpres x Hx) as [r Hr]. destruct (Hst x r Hr) as (r' & ? & _). by exists r'.
  - cbn. lia.
  - cbn beta. intros tss s3 (Hc3 & Hr3 & Hv3). wp_run. cbn [app] in Hc3, Hr3.
    set (t := mkPreparedTransition _ _ _ _ _ _ _).
    assert (pm_transitions s3 = pm_transitions s) as Htr3
      by (etrans; [apply Hv3|exact Htrans]).
    assert (pm_transitions s !! pm_next_id s1 = None) as Hnone.
    { destruct (pm_transitions s !! pm_next_id s1) eqn:Hx; [|done].
      pose proof (proj1 (rk_fresh _ _ (ok_rest _ Hok)) (pm_next_id s1)). rewrite Hx in *.
      rewrite Hnext in *. assert (pm_next_id s < pm_next_id s)%N; [eauto|lia]. }
    destruct (insert_transition_ok s3 (pm_next_id s1) t) as [Hc4 Hr4]; try done.
    + by rewrite Htr3.
    + pose proof (rv_next _ _ Hv3). cbn in *. lia.
    + eapply List.Forall_impl; [|exact Hmem]. intros x. apply member_stable.
      etrans; [exact Hst|]. change (pm_representations s1) with (pm_representations s2).
      apply same_body_stable, Hv3.
    + split; [apply pm_ok_refresh|].
      * by eapply core_ok_frame.
      * by eapply rest_ok_frame.
      * split; [done|]. split; [etrans; [apply Hv3|exact Hbind]|].
        split; [etrans; [apply Hv3|exact Htab]|]. split; [etrans; [apply Hv3|exact Hgrow]|].
        split; [done|]. split; [|done]. cbn. by rewrite Htr3.
Qed.

(** ** Taking a transition apart *)

(** A loop over the transfers of a transition changes nothing but them. *)
Record settling s s' : Prop := {
  se_capacity : pm_capacity s' = pm_capacity s;
  se_next : pm_next_id s' = pm_next_id s;
  se_clock : pm_clock s' = pm_clock s;
  se_representations : pm_representations s' = pm_representations s;
  se_bindings : pm_bindings s' = pm_bindings s;
  se_transitions : pm_transitions s' = pm_transitions s;
  se_growth : pm_growth s' = pm_growth s;
  se_tables : pm_block_tables s' = pm_block_tables s;
  se_owners : ∀ x, own_transfer (owners s') x = own_transfer (owners s) x;
}.

#[export] Instance settling_preorder : PreOrder settling.
Proof.
  split; [by intros s; split|]. intros s1 s2 s3 [] []. split; try congruence.
Qed.

Lemma settling_core o l s s' :
  (∀ id, own_active o id = own_active (add_own KReserved (owners s) l) id
    ∧ own_reserved o id = own_reserved (add_own KReserved (owners s) l) id
    ∧ own_transfer o id = own_transfer (add_own KReserved (owners s) l) id) →
  core_ok o s → settling s s' → core_ok (add_own KReserved (owners s') l) s'.
Proof.
  intros Ho Hc []. eapply core_ok_frame; [eapply core_ok_ext; [exact Hc|]|done| |done]; [|lia].
  intros id. destruct (Ho id) as (-> & -> & ->). specialize (se_owners0 id).
  cbn in *. rewrite se_owners0, se_bindings0, se_transitions0. done.
Qed.

Lemma settle_all_ok (cond : Transfer → Prop) (f : TransferId → PMM unit) :
  (∀ x l s t, rest_ok (x :: l) s → pm_transfers s !! x = Some t → cond t →
    wp (f x) (λ _ s', rest_ok l s' ∧ settling s s'
      ∧ ∀ y, y ≠ x → pm_transfers s' !! y = pm_transfers s !! y) (λ _ _, False) s) →
  ∀ l s, rest_ok l s → (∀ x t, x ∈ l → pm_transfers s !! x = Some t → cond t) →
  wp (for_each f l) (λ _ s', rest_ok [] s' ∧ settling s s') (λ _ _, False) s.
Proof.
  intros Hf. induction l as [|x l IH]; intros s Hr Hcond; cbn [for_each]; wp_run; [done|].
  assert (occ x (x :: l) = 1 + occ x l)%N as Hocc by (rewrite occ_cons, decide_True; done).
  destruct (rk_held _ _ Hr x) as [t Ht]; [lia|].
  destruct (rk_transfer _ _ Hr x t Ht) as (_ & _ & Hone).
  assert (x ∉ l) as Hx by (apply occ_not_elem; destruct (tr_detached t); lia).
  eapply wp_mono; [eapply Hf; [done|done|]| |done].
  { apply (Hcond x t); [by left|done]. }
  cbn beta. intros _ s1 (Hr1 & Hs1 & Hsame).
  eapply wp_mono; [apply (IH s1 Hr1)| |done].
  - intros y t' Hy. rewrite Hsame by (intros ->; done). apply Hcond. by right.
  - cbn beta. intros _ s2 [Hr2 Hs2]. split; [done|]. by etrans.
Qed.

(** Removing a held transfer, or rewriting it in place as detached. *)
Lemma rest_ok_delete_transfer x l s :
  rest_ok (x :: l) s → rest_ok l (on_transfers (delete x) s).
Proof.
  intros [Ht Hpend Hh Hf Hb Hp Htab].
  assert (∀ y, occ y (x :: l) = (if decide (y = x) then 1 else 0) + occ y l)%N as Hocc by done.
  assert (holders s x + occ x l = 0)%N as Hz.
  { destruct (Hh x) as [t Hx]; [rewrite Hocc, decide_True; [lia|done]|].
    destruct (Ht x t Hx) as (_ & _ & He). rewrite Hocc, decide_True in He by done.
    destruct (tr_detached t); lia. }
  split; cbn; try done.
  - intros y t [Hne Hy]%lookup_delete_Some. destruct (Ht y t Hy) as (? & ? & He).
    rewrite Hocc, decide_False in He by congruence. done.
  - intros y t [Hne Hy]%lookup_delete_Some. by eapply Hpend.
  - intros y Hy. change (holders _ y) with (holders s y) in Hy.
    rewrite lookup_delete_ne by (intros ->; lia). apply Hh. rewrite Hocc. lia.
Qed.

Lemma rest_ok_detach_transfer x l s t :
  rest_ok (x :: l) s → pm_transfers s !! x = Some t → tr_completed t = false →
  rest_ok l (on_transfers (insert x
    (mkTransfer (tr_representation t) (tr_bytes t) (tr_completed t) (tr_success t) true)) s).
Proof.
  intros [Ht Hpend Hh Hf Hb Hp Htab] Hx Hc.
  assert (∀ y, occ y (x :: l) = (if decide (y = x) then 1 else 0) + occ y l)%N as Hocc by done.
  destruct (Ht x t Hx) as (Hlt & Hd & Hone). rewrite Hocc, decide_True in Hone by done.
  split; cbn; try done.
  - intros y t'. change (holders _ y) with (holders s y). rewrite lookup_insert.
    destruct (decide (x = y)) as [<-|Hne].
    + intros [= <-]. cbn. rewrite Hc. destruct (tr_detached t); [lia|]. split; [done|]. split; [done|lia].
    + intros Hy. destruct (Ht y t' Hy) as (? & ? & He). rewrite Hocc, decide_False in He by congruence.
      done.
  - intros y t'. rewrite lookup_insert. destruct (decide (x = y)) as [<-|]; [|by eapply Hpend].
    intros [= <-] _. by apply (Hpend x t).
  - intros y Hy. change (holders _ y) with (holders s y) in Hy. rewrite lookup_insert.
    destruct (decide (x = y)); [by eexists|]. apply Hh. rewrite Hocc. lia.
Qed.

Lemma forget_all_ok l s :
  rest_ok l s → (∀ x t, x ∈ l → pm_transfers s !! x = Some t → tr_completed t = true) →
  wp (for_each (λ x, modify (on_transfers (delete x)) : PMM unit) l)
    (λ _ s', rest_ok [] s' ∧ settling s s') (λ _ _, False) s.
Proof.
  apply (settle_all_ok (λ t, tr_completed t = true)). clear. intros x l s t Hr Hx Hc. wp_run.
  split; [by apply rest_ok_delete_transfer|]. split.
  - split; try done. by apply (forget_owners s x t).
  - intros y Hy. cbn. by rewrite lookup_delete_ne.
Qed.

Lemma detach_all_ok l s :
  rest_ok l s →
  wp (for_each detach_transfer l) (λ _ s', rest_ok [] s' ∧ settling s s') (λ _ _, False) s.
Proof.
  intros Hr. apply (settle_all_ok (λ _, True)); [|done|done].
  clear. intros x l s t Hr Hx _. unfold detach_transfer. wp_run. rewrite Hx. wp_run.
  destruct (tr_completed t) eqn:Hc; wp_run.
  - split; [by apply rest_ok_delete_transfer|]. split.
    + split; try done. by apply (forget_owners s x t).
    + intros y Hy. cbn. by rewrite lookup_delete_ne.
  - split; [rewrite <- Hc; apply rest_ok_detach_transfer; congruence|]. split.
    + split; try done. intros y. cbn.
      set (t' := mkTransfer _ _ _ _ true).
      pose proof (map_sum_insert_Some
        (λ t, where_ (negb (tr_completed t) && (tr_representation t =? y)%N) 1)
        (pm_transfers s) x t' t Hx) as Hs.
      cbn beta in Hs. rewrite Hc in Hs. cbn in Hs. lia.
    + intros y Hy. cbn. by rewrite lookup_insert_ne.
Qed.

(** A transition out of the table leaves its members with one reservation and
    its transfers with one holder too many. *)
Lemma drop_transition_ok s id t :
  pm_ok s → pm_transitions s !! id = Some t →
  let s1 := on_transitions (delete id) s in
  core_ok (add_own KReserved (owners s1) (pt_representations t)) s1 ∧ rest_ok (pt_transfers t) s1.
Proof.
  intros [Hc [Ht Hpend Hh [Hf1 Hf2] Hb Hp Htab] _] Hid. cbv zeta.
  assert (∀ x, holders s x = occ x (pt_transfers t) + holders (on_transitions (delete id) s) x)%N
    as Hhold by (intros x; unfold holders; by rewrite (map_sum_delete _ (pm_transitions s) id t Hid)).
  split; [|split; cbn; try done].
  - eapply core_ok_frame; [eapply core_ok_ext; [exact Hc|]|done|cbn; lia|done].
    intros x. cbn [add_own own_active own_reserved own_transfer owners].
    split; [done|]. split; [|done]. rewrite (map_sum_delete _ (pm_transitions s) id t Hid).
    cbn. lia.
  - intros x t' Hx. destruct (Ht x t' Hx) as (? & ? & He). rewrite Hhold, occ_nil in He.
    split; [done|]. split; [done|]. lia.
  - intros x Hx. apply Hh. rewrite Hhold. lia.
  - split; [|done]. intros x [t' [_ Hx]%lookup_delete_Some]. apply Hf1. by exists t'.
  - intros x t' [_ Hx]%lookup_delete_Some. by apply (Hp x).
Qed.

Lemma abort_transition_ok s id :
  pm_ok s →
  wp (abort_transition id)
    (λ _ s', pm_ok s' ∧ pm_transitions s' = delete id (pm_transitions s)
       ∧ pm_bindings s' = pm_bindings s ∧ pm_block_tables s' = pm_block_tables s
       ∧ same_body (pm_representations s) (pm_representations s')
       ∧ is_Some (pm_transitions s !! id))
    (λ err s', s' = s ∧ err = TransitionNotFound ∧ pm_transitions s !! id = None) s.
Proof.
  intros Hok. unfold abort_transition, release_transition_refs, count, emit, refresh_capacity_metrics.
  wp_run. destruct (pm_transitions s !! id) as [t|] eqn:Ht; [|done]. wp_run.
  destruct (drop_transition_ok s id t Hok Ht) as [Hc1 Hr1]. set (s1 := on_transitions _ s) in *.
  eapply wp_mono; [by apply detach_all_ok| |done]. cbn beta. intros _ s2 [Hr2 Hs2]. wp_run.
  pose proof (settling_core _ (pt_representations t) _ _ (λ _, conj eq_refl (conj eq_refl eq_refl))
    Hc1 Hs2) as Hc2.
  eapply wp_mono; [by apply (release_all_ok KReserved)| |done].
  cbn beta. intros _ s3 (Hc3 & Hf3 & Hb3). wp_run.
  rewrite (se_representations _ _ Hs2) in Hb3. change (pm_representations s1) with (pm_representations s) in Hb3.
  split; [apply pm_ok_refresh|].
  - rewrite <- (owners_frame _ _ Hf3) in Hc3. by eapply core_ok_frame.
  - eapply rest_ok_reps; [exact Hr2|try apply Hf3..|].
    + cbn. rewrite (fr_next _ _ Hf3). lia.
    + rewrite (se_representations _ _ Hs2). by apply same_body_stable.
  - split; [etrans; [apply Hf3|apply Hs2]|]. split; [etrans; [apply Hf3|apply Hs2]|].
    split; [etrans; [apply Hf3|apply Hs2]|]. split; [done|by eexists].
Qed.

(** ** Committing *)

Lemma check_transfers_ok ids s :
  (∀ x, x ∈ ids → is_Some (pm_transfers s !! x)) →
  wp (check_transfers ids)
    (λ _ s', s' = s ∧ ∀ x t, x ∈ ids → pm_transfers s !! x = Some t →
       tr_completed t = true ∧ tr_success t = true)
    (λ err s', s' = s ∧ ∃ x t, x ∈ ids ∧ pm_transfers s !! x = Some t
       ∧ tr_completed t && tr_success t = false) s.
Proof.
  unfold check_transfers. induction ids as [|x ids IH]; intros Hids; cbn [for_each]; wp_run.
  { split; [done|]. intros x t []%not_elem_of_nil. }
  destruct (Hids x) as [t Ht]; [by left|]. rewrite Ht. wp_run.
  destruct (tr_completed t) eqn:Hc; cbn [negb]; wp_run.
  2:{ split; [done|]. exists x, t. rewrite Hc. split; [by left|done]. }
  destruct (tr_success t) eqn:Hsu; cbn [negb]; wp_run.
  2:{ split; [done|]. exists x, t. rewrite Hc, Hsu. split; [by left|done]. }
  eapply wp_mono; [apply IH; intros; apply Hids; by right|..]; cbn beta.
  2:{ intros err s' (-> & y & t' & Hy & ?). split; [done|]. exists y, t'. split; [by right|done]. }
  intros _ s' [-> Hall]. split; [done|].
  intros y t' [->|Hy]%elem_of_cons Ht'; [|by eapply Hall]. rewrite Ht in Ht'. by injection Ht' as <-.
Qed.

Lemma any_off_device_ok ids s :
  (∀ x, x ∈ ids → is_Some (pm_representations s !! x)) →
  wp (any_off_device ids)
    (λ off s', s' = s ∧ (off = false →
       ∀ x, x ∈ ids → ∃ r, pm_representations s !! x = Some r ∧ pr_device r = true)
       ∧ ((∀ x, x ∈ ids → ∃ r, pm_representations s !! x = Some r ∧ pr_device r = true) →
          off = false))
    (λ _ _, False) s.
Proof.
  induction ids as [|x ids IH]; intros Hids; cbn [any_off_device]; wp_run.
  { split; [done|]. split; [|done]. intros _ x []%not_elem_of_nil. }
  destruct (Hids x) as [r Hr]; [by left|]. rewrite Hr. wp_run.
  destruct (pr_device r) eqn:Hd; wp_run.
  - eapply wp_mono; [apply IH; intros; apply Hids; by right| |done].
    cbn beta. intros off s' (-> & H1 & H2). split; [done|]. split.
    + intros Hoff y [->|Hy]%elem_of_cons; [by exists r|by apply H1].
    + intros Hall. apply H2. intros y Hy. apply Hall. by right.
  - split; [done|]. split; [done|]. intros Hall. destruct (Hall x) as (r' & Hr' & Hd'); [by left|].
    congruence.
Qed.

(** Inserting a binding whose members were just activated. *)
Lemma insert_binding_ok extra s c b :
  core_ok (add_own KActive (owners s) (ab_representations b)) s → rest_ok extra s →
  pm_bindings s !! c = None → pm_block_tables s !! c = None →
  Forall (member (pm_representations s) (ab_mapping b)) (ab_representations b) →
  let s' := on_bindings (insert c b) s in core_ok (owners s') s' ∧ rest_ok extra s'.
Proof.
  intros Hc [Ht Hpend Hh Hf Hb Hp Htab] Hnone Hnotab Hmem. cbv zeta. split; [|split; cbn; try done].
  - eapply core_ok_frame; [eapply core_ok_ext; [exact Hc|]|done|cbn; lia|done].
    intros x. cbn [add_own own_active own_reserved own_transfer owners]. split; [|done].
    cbn. rewrite map_sum_insert_None by done. lia.
  - intros c' b'. rewrite lookup_insert. destruct (decide (c = c')) as [<-|]; [|apply Hb].
    by intros [= <-].
  - intros c' tb Hc'. rewrite lookup_insert_ne by congruence. by apply Htab.
Qed.

Lemma drop_table_ok extra s c :
  rest_ok extra s → rest_ok extra (on_block_tables (delete c) s).
Proof.
  intros [Ht Hpend Hh Hf Hb Hp Htab]. split; cbn; try done.
  intros c' tb [_ Hx]%lookup_delete_Some. by apply Htab.
Qed.

(** What the commit puts the context on. *)
Record rebinding (extra : list TransferId) c s s' : Prop := {
  rb_core : core_ok (owners s') s';
  rb_rest : rest_ok extra s';
  rb_capacity : pm_capacity s' = pm_capacity s;
  rb_next : pm_next_id s' = pm_next_id s;
  rb_clock : pm_clock s' = pm_clock s;
  rb_bindings : pm_bindings s' = delete c (pm_bindings s);
  rb_tables : pm_block_tables s' = delete c (pm_block_tables s);
  rb_transitions : pm_transitions s' = pm_transitions s;
  rb_transfers : pm_transfers s' = pm_transfers s;
  rb_growth : pm_growth s' = pm_growth s;
  rb_body : same_body (pm_representations s) (pm_representations s');
}.

(** The previous binding of the context, if any, is released with its table. *)
Lemma release_old_ok extra s c s2 :
  core_ok (owners s) s → rest_ok extra s →
  frame (on_block_tables (delete c) s) s2 → pm_representations s2 = pm_representations s →
  wp (match pm_bindings s !! c with
      | Some old =>
          _ ← modify (on_bindings (delete c)); for_each release_active (ab_representations old)
      | None => mret tt
      end)
    (λ _ s', rebinding extra c s s') (λ _ _, False) s2.
Proof.
  intros Hc Hr Hf2 Hreps2.
  destruct (pm_bindings s !! c) as [b|] eqn:Hb; wp_run.
  - destruct (drop_binding_ok extra s c b Hc Hr Hb) as [Hc1 Hr1].
    set (s3 := on_block_tables (delete c) (on_bindings (delete c) s)) in *.
    assert (owners (on_bindings (delete c) s2) = owners s3) as Ho.
    { apply owners_eq; cbn; [by rewrite (fr_bindings _ _ Hf2)|apply Hf2|apply Hf2]. }
    eapply wp_mono; [apply (release_all_ok KActive (owners (on_bindings (delete c) s2)))| |done].
    { rewrite Ho. eapply core_ok_frame; [exact Hc1|apply Hf2| |done].
      cbn. by rewrite (fr_next _ _ Hf2). }
    cbn beta. intros _ s4 (Hc4 & Hf4 & Hb4). cbn [on_bindings pm_representations] in Hb4.
    rewrite Hreps2 in Hb4. cbn in Hb4. destruct Hf2, Hf4. cbn in *.
    split; try congruence.
    + rewrite (owners_eq (on_bindings (delete c) s2) s4) by done. done.
    + eapply rest_ok_reps; [exact Hr1|cbn; try congruence..|].
      * rewrite fr_next1, fr_next0. lia.
      * by apply same_body_stable.
  - destruct Hf2. cbn in *. split; try congruence.
    + eapply core_ok_frame; [|done| |done]; [|rewrite fr_next0; lia].
      rewrite (owners_eq s s2) by done. done.
    + eapply rest_ok_reps; [apply (drop_table_ok extra s c Hr)|cbn; try congruence..|].
      * rewrite fr_next0. lia.
      * by rewrite Hreps2.
    + by rewrite delete_id.
Qed.

(** When a transition may be committed. *)
Definition committable s id revision : Prop :=
  ∃ t, pm_transitions s !! id = Some t ∧ pt_revision t = revision
    ∧ (∀ x tr, x ∈ pt_transfers t → pm_transfers s !! x = Some tr →
         tr_completed tr && tr_success tr = true)
    ∧ (∀ x, x ∈ pt_representations t →
         ∃ r, pm_representations s !! x = Some r ∧ pr_device r = true).

Lemma commit_transition_ok s id revision :
  pm_ok s → (pm_next_id s + 1 ≤ u64_max)%N →
  wp (commit_transition id revision)
    (λ binding s', pm_ok s'
       ∧ committable s id revision ∧ ∃ t, pm_transitions s !! id = Some t
         ∧ binding = pm_next_id s ∧ pm_next_id s' = (pm_next_id s + 1)%N
         ∧ pm_bindings s' = <[pt_context t := mkActiveBinding binding (pt_mapping t)
                                                (pt_representations t)]> (pm_bindings s)
         ∧ pm_transitions s' = delete id (pm_transitions s)
         ∧ pm_block_tables s' = delete (pt_context t) (pm_block_tables s)
         ∧ same_body (pm_representations s) (pm_representations s'))
    (λ err s', s' = s ∧ ¬ committable s id revision) s.
Proof.
  intros Hok Hn.
  unfold commit_transition, release_transition_refs, count, emit, refresh_capacity_metrics.
  wp_run. destruct (pm_transitions s !! id) as [t|] eqn:Ht.
  2:{ wp_run. split; [done|]. intros (t & Ht' & _). congruence. }
  wp_run.
  destruct (N.eqb_spec (pt_revision t) revision) as [Hrev|]; cbn [negb]; wp_run.
  2:{ split; [done|]. intros (t' & Ht' & ? & _). congruence. }
  pose proof (rk_transition _ _ (ok_rest _ Hok) id t Ht) as Hmem.
  assert (∀ x, x ∈ pt_transfers t → is_Some (pm_transfers s !! x)) as Hheld.
  { intros x Hx%occ_elem. apply (rk_held _ _ (ok_rest _ Hok)). unfold holders.
    rewrite (map_sum_delete _ (pm_transitions s) id t Ht). lia. }
  eapply wp_mono; [by apply check_transfers_ok|..]; cbn beta.
  2:{ intros err s0 (-> & x & tr & Hx & Htr & Hbad). split; [done|].
      intros (t' & Ht' & _ & Hall & _). rewrite Ht in Ht'. injection Ht' as <-.
      rewrite (Hall x tr Hx Htr) in Hbad. done. }
  intros _ s0 [-> Hdone]. wp_run.
  eapply wp_mono; [by eapply any_off_device_ok, members_present| |done].
  cbn beta. intros off s0 (-> & Hdev & Hoff). wp_run. destruct off.
  { split; [done|]. intros (t' & Ht' & _ & _ & Hall). rewrite Ht in Ht'. injection Ht' as <-.
    by specialize (Hoff Hall). }
  specialize (Hdev eq_refl).
  destruct (drop_transition_ok s id t Hok Ht) as [Hc1 Hr1]. set (s1 := on_transitions _ s) in *.
  eapply wp_mono; [by apply (release_all_ok KReserved)| |done].
  cbn beta. intros _ s2 (Hc2 & Hf2 & Hb2). wp_run.
  rewrite <- (owners_frame _ _ Hf2) in Hc2.
  pose proof (rest_ok_frame _ _ _ Hr1 Hf2 (same_body_stable _ _ Hb2)) as Hr2.
  cbn [pm_representations s1 on_transitions] in Hb2.
  set (c := pt_context t) in *. set (s3 := on_block_tables (delete c) s2).
  apply (wp_mono _ _ (λ _ s', frame s3 s' ∧ pm_representations s' = pm_representations s2)
    _ (λ _ _, False)); [by destruct (_ && _); wp_run| |done].
  intros _ s4 [Hf4 Hreps4]. wp_run. change (pm_bindings s3) with (pm_bindings s2).
  eapply wp_mono; [by apply (release_old_ok (pt_transfers t) s2 c s4)| |done].
  cbn beta. intros _ s5 Hrb. wp_run.
  assert (same_body (pm_representations s) (pm_representations s5)) as Hb5
    by (etrans; [exact Hb2|apply Hrb]).
  eapply wp_mono; [apply (activate_all_ok _ (pt_representations t) s5 (rb_core _ _ _ _ Hrb))| |done].
  { intros x Hx. destruct (Hdev x Hx) as (r & Hr & Hd). by eapply same_body_device. }
  cbn beta. intros _ s6 (Hc6 & Hf6 & Hb6). wp_run.
  assert (pm_next_id s6 = pm_next_id s) as Hn6
    by (rewrite (fr_next _ _ Hf6), (rb_next _ _ _ _ Hrb); apply Hf2).
  rewrite wp_id by lia. wp_run. rewrite Hn6.
  set (b := mkActiveBinding _ _ _). set (s7 := set_ids _ _ s6).
  assert (pm_bindings s7 = delete c (pm_bindings s)) as Hb7.
  { change (pm_bindings s6 = delete c (pm_bindings s)).
    rewrite (fr_bindings _ _ Hf6), (rb_bindings _ _ _ _ Hrb). by rewrite (fr_bindings _ _ Hf2). }
  assert (pm_block_tables s7 = delete c (pm_block_tables s)) as Ht7.
  { change (pm_block_tables s6 = delete c (pm_block_tables s)).
    rewrite (fr_tables _ _ Hf6), (rb_tables _ _ _ _ Hrb). by rewrite (fr_tables _ _ Hf2). }
  assert (same_body (pm_representations s) (pm_representations s7)) as Hbd7
    by (etrans; [exact Hb5|exact Hb6]).
  destruct (insert_binding_ok (pt_transfers t) s7 c b) as [Hc8 Hr8].
  { eapply core_ok_frame; [eapply core_ok_ext; [exact Hc6|]|done|cbn; lia|done].
    change (owners s7) with (owners s6). by rewrite (owners_frame _ _ Hf6). }
  { eapply rest_ok_reps; [apply (rb_rest _ _ _ _ Hrb)|cbn; try apply Hf6..|].
    - cbn. rewrite <- Hn6, (fr_next _ _ Hf6). lia.
    - cbn. by apply same_body_stable. }
  { rewrite Hb7. apply lookup_delete_eq. }
  { rewrite Ht7. apply lookup_delete_eq. }
  { eapply List.Forall_impl; [|exact Hmem]. intros x. by apply member_stable, same_body_stable. }
  set (s8 := on_metrics (bump CCommitted) (on_bindings _ s7)).
  assert (pm_transfers s8 = pm_transfers s) as Htr8.
  { change (pm_transfers s6 = pm_transfers s).
    rewrite (fr_transfers _ _ Hf6), (rb_transfers _ _ _ _ Hrb). apply Hf2. }
  eapply wp_mono; [apply (forget_all_ok (pt_transfers t) s8)| |done].
  { by eapply rest_ok_frame. }
  { intros x tr Hx Htr. rewrite Htr8 in Htr. by apply (Hdone x tr). }
  cbn beta. intros _ s9 [Hr9 Hs9]. wp_run.
  split; [apply pm_ok_refresh|].
  - eapply core_ok_frame; [eapply core_ok_ext; [exact Hc8|]|apply Hs9| |apply Hs9].
    + intros x. cbn. pose proof (se_owners _ _ Hs9 x) as Ho. cbn in Ho.
      rewrite Ho, (se_bindings _ _ Hs9), (se_transitions _ _ Hs9). done.
    + cbn. rewrite (se_next _ _ Hs9). done.
  - by eapply rest_ok_frame.
  - split.
    { exists t. do 2 (split; [done|]). split; [|done]. intros x tr Hx Htr.
      destruct (Hdone x tr Hx Htr) as [-> ->]. done. }
    exists t. do 2 (split; [done|]).
    split; [cbn; by rewrite (se_next _ _ Hs9)|].
    split.
    { cbn. rewrite (se_bindings _ _ Hs9).
      change (<[c:=b]> (pm_bindings s7) = <[c:=b]> (pm_bindings s)). rewrite Hb7.
      apply insert_delete_eq. }
    split.
    { cbn. rewrite (se_transitions _ _ Hs9). cbn.
      rewrite (fr_transitions _ _ Hf6), (rb_transitions _ _ _ _ Hrb). apply Hf2. }
    split; [cbn; rewrite (se_tables _ _ Hs9); exact Ht7|].
    cbn. by rewrite (se_representations _ _ Hs9).
Qed.

Lemma committable_next n c s id revision :
  committable (set_ids n c s) id revision ↔ committable s id revision.
Proof. done. Qed.

(** The mapped commit validates everything first: the inner commit cannot fail. *)
Lemma commit_mapped_transition_ok s id revision executor_mapping :
  pm_ok s → roomy s →
  wp (commit_mapped_transition id revision executor_mapping)
    (λ '(binding, table) s', pm_ok s' ∧ committable s id revision
       ∧ ∃ t tb, pm_transitions s !! id = Some t
         ∧ pm_bindings s' = <[pt_context t := mkActiveBinding binding (pt_mapping t)
                                                (pt_representations t)]> (pm_bindings s)
         ∧ pm_transitions s' = delete id (pm_transitions s)
         ∧ pm_block_tables s' = <[pt_context t := tb]> (pm_block_tables s)
         ∧ bt_id tb = table ∧ bt_binding tb = binding ∧ bt_mapping tb = pt_mapping t
         ∧ bt_executor_mapping tb = executor_mapping
         ∧ Forall2 (block_of (pm_representations s)) (pt_representations t) (bt_blocks tb)
         ∧ same_body (pm_representations s) (pm_representations s'))
    (λ err s', s' = s ∧ ¬ committable s id revision) s.
Proof.
  intros Hok [Hn Hk]. unfold commit_mapped_transition, count.
  wp_run. destruct (pm_transitions s !! id) as [t|] eqn:Ht.
  2:{ wp_run. split; [done|]. intros (t & Ht' & _). congruence. }
  wp_run. destruct (N.eqb_spec (pt_revision t) revision) as [Hrev|]; cbn [negb]; wp_run.
  2:{ split; [done|]. intros (t' & Ht' & ? & _). congruence. }
  pose proof (rk_transition _ _ (ok_rest _ Hok) id t Ht) as Hmem.
  assert (∀ x, x ∈ pt_transfers t → is_Some (pm_transfers s !! x)) as Hheld.
  { intros x Hx%occ_elem. apply (rk_held _ _ (ok_rest _ Hok)). unfold holders.
    rewrite (map_sum_delete _ (pm_transitions s) id t Ht). lia. }
  eapply wp_mono; [by apply check_transfers_ok|..]; cbn beta.
  2:{ intros err s0 (-> & x & tr & Hx & Htr & Hbad). split; [done|].
      intros (t' & Ht' & _ & Hall & _). rewrite Ht in Ht'. injection Ht' as <-.
      rewrite (Hall x tr Hx Htr) in Hbad. done. }
  intros _ s0 [-> Hdone]. wp_run.
  eapply wp_mono; [by eapply device_blocks_ok, members_present|..]; cbn beta.
  2:{ intros err s0 (-> & _ & x & r & Hx & Hr & Hoff). split; [done|].
      intros (t' & Ht' & _ & _ & Hall). rewrite Ht in Ht'. injection Ht' as <-.
      destruct (Hall x Hx) as (r' & Hr' & ?). congruence. }
  intros bs s0 (-> & Hbs & Hdev). wp_run. rewrite wp_id by lia. wp_run.
  set (s1 := set_ids _ _ s).
  assert (pm_ok s1) as Hok1 by (apply set_ids_ok; [done|lia]).
  assert (committable s id revision) as Hcan.
  { exists t. do 2 (split; [done|]). split; [|done]. intros x tr Hx Htr.
    destruct (Hdone x tr Hx Htr) as [-> ->]. done. }
  eapply wp_mono; [apply (commit_transition_ok s1 id revision Hok1); cbn; lia|..]; cbn beta.
  2:{ intros err s2 [_ Hno]. by destruct Hno. }
  intros binding s2 (Hok2 & _ & t' & Ht' & _ & _ & Hb2 & Htr2 & Htab2 & Hbody). wp_run.
  assert (t' = t) as -> by (change (pm_transitions s !! id = Some t') in Ht'; congruence).
  set (tb := mkDeviceBlockTable _ _ _ _ _).
  split; [split|split; [done|exists t, tb]].
  - eapply core_ok_frame; [apply (ok_core _ Hok2)|done|done|done].
  - apply (rest_ok_frame [] (on_block_tables (insert (pt_context t) tb) s2)); [|done|reflexivity].
    eapply (table_ok [] s2 (pt_context t)); [apply Hok2|rewrite Hb2; apply lookup_insert_eq|done|done|].
    cbn. eapply List.Forall2_impl; [|exact Hbs]. intros x blk. by apply block_of_stable, same_body_stable.
  - exact (f_equal _ (ok_metrics _ Hok2)).
  - do 3 (split; [done|]). split; [|done].
    cbn. rewrite Htab2. apply insert_delete_eq.
Qed.

End laws.
