(* ===== verification/PhysicalProperties.v ===== *)
(** What the physical manager promises, over every sequence of calls: exact
    accounting, the capacity bound, no panic, atomic commits, the eviction
    order, and the two places where its accounting falls short. *)

From stdpp Require Import gmap strings list numbers.
From S2P Require Import Prelude.
From S2P Require Import TokenSequence.
From S2P Require Import ContextStore.
From S2P Require Import PhysicalManager.
From S2P Require Import PhysicalLaws.
Import PMError.

Implicit Types (s : PhysicalManager) (r : PhysicalRepresentation) (id : N).

(** ** Executions *)

(** The public methods with their arguments. *)
Inductive request : Type :=
| Register (mapping : N) (component : Component) (represented_end : nat) (bytes : N) (tier : Tier)
    (reuse_value : N)
| PublishTable (context binding executor_mapping : N)
| CommitMapped (transition revision executor_mapping : N)
| Unbind (context : N)
| ReleaseLogical (id : N)
| ReserveGrowth (bytes : N)
| ReleaseGrowth (id : N)
| PrepareTransition (context revision mapping : N) (represented_end : nat)
    (required : ComponentMask.t) (ids : list N) (allow_recompute : bool)
| CompleteTransfer (id : N) (success : bool)
| CompleteRecompute (transition representation : N)
| CommitTransition (id revision : N)
| ReleaseBinding (context : N)
| AbortTransition (id : N)
| DemoteToHost (id : N)
| DemoteToStorage (id : N)
| Evict (id : N) (tier : Tier).

Definition forget {A} (m : PMM A) : PMM unit := _ ← m; mret tt.

Definition handle (q : request) : PMM unit :=
  match q with
  | Register m c e b t v => forget (register m c e b t v)
  | PublishTable c b x => forget (publish_device_block_table c b x)
  | CommitMapped t r x => forget (commit_mapped_transition t r x)
  | Unbind c => unbind c
  | ReleaseLogical i => release_logical_reference i
  | ReserveGrowth b => forget (reserve_growth b)
  | ReleaseGrowth i => release_growth i
  | PrepareTransition c r m e q ids a => forget (prepare_transition c r m e q ids a)
  | CompleteTransfer i ok => complete_transfer i ok
  | CompleteRecompute t i => complete_recompute t i
  | CommitTransition i r => forget (commit_transition i r)
  | ReleaseBinding c => release_binding c
  | AbortTransition i => abort_transition i
  | DemoteToHost i => demote_to_host i
  | DemoteToStorage i => demote_to_storage i
  | Evict i t => evict i t
  end.

(** Any method may be called next, while identifiers are left. *)
Definition step s s' : Prop := roomy s ∧ ∃ q, after (handle q) s = Some s'.

Definition fits_usize (c : Capacity) : Prop :=
  (device_bytes c ≤ usize_max)%N ∧ (host_bytes c ≤ usize_max)%N.

Definition reachable (c : Capacity) s : Prop := fits_usize c ∧ rtc step (new c) s.

Lemma forget_wp {A} (m : PMM A) (Q : PhysicalManager → Prop) s :
  wp m (λ _ s', Q s') (λ _ s', Q s') s → wp (forget m) (λ _ s', Q s') (λ _ s', Q s') s.
Proof. intros Hm. unfold forget. by wp_run. Qed.

Lemma new_ok c : fits_usize c → pm_ok c (new c).
Proof.
  intros Hc. destruct Hc as [Hd Hh]. split; [split; try done|split; try done|done].
  - cbn. apply N.le_0_l.
  - cbn. apply N.le_0_l.
  - split; intros x [? Hx]; discriminate Hx.
Qed.

Ltac by_law H := eapply wp_mono; [apply H|..]; cbn beta; naive_solver.

(** Every call keeps the invariant and returns. *)
Lemma handle_ok c q s :
  pm_ok c s → roomy s → wp (handle q) (λ _ s', pm_ok c s') (λ _ s', pm_ok c s') s.
Proof.
  intros Hok Hroom. destruct q; cbn [handle]; try apply forget_wp.
  - by_law (register_ok c s mapping component represented_end bytes tier reuse_value Hok Hroom).
  - by_law (publish_ok c s context binding executor_mapping Hok Hroom).
  - eapply wp_mono; [by apply commit_mapped_transition_ok|..]; cbn beta.
    + by intros [] s' [? _].
    + by intros err s' [-> _].
  - by_law (unbind_ok c s context Hok).
  - by_law (release_logical_reference_ok c s id Hok).
  - by_law (reserve_growth_ok c s bytes Hok Hroom).
  - by_law (release_growth_ok c s id Hok).
  - eapply wp_mono; [by apply prepare_transition_ok|..]; cbn beta.
    + by intros [[] ?] s' [? _].
    + by intros err s' [? _].
  - by_law (complete_transfer_ok c s id success Hok).
  - by_law (complete_recompute_ok c s transition representation Hok).
  - eapply wp_mono; [apply commit_transition_ok; [done|destruct Hroom; lia]|..]; cbn beta.
    + by intros ? s' [? _].
    + by intros err s' [-> _].
  - by_law (unbind_ok c s context Hok).
  - by_law (abort_transition_ok c s id Hok).
  - by_law (demote_to_host_ok c s id Hok).
  - by_law (demote_to_storage_ok c s id Hok).
  - by_law (evict_public_ok c s id tier Hok).
Qed.

Lemma pm_step_ok c s s' : pm_ok c s → step s s' → pm_ok c s'.
Proof.
  intros Hok [Hroom [q Hq]].
  destruct (after_ok _ _ _ _ _ _ (handle_ok c q s Hok Hroom) Hq) as [[_ ?]|[_ ?]]; done.
Qed.

Lemma pm_reachable_ok c s : reachable c s → pm_ok c s.
Proof.
  intros [Hc Hr]. pose proof (new_ok c Hc) as H0. revert H0.
  induction Hr as [|s1 s2 s3 Hstep _ IH]; [done|]. intros H1. apply IH. by eapply pm_step_ok.
Qed.


(** ** Properties *)

(** C4: the accounting is exact in every reachable state. The active, reservation
    and transfer counts of a representation are the numbers of bindings,
    prepared transitions and pending transfers that use it; members of an
    active binding exist, describe the binding's mapping and stay on the
    device; a visible block table describes exactly the current binding. *)
Theorem physical_accounting_exact c s :
  reachable c s →
  (∀ id r, pm_representations s !! id = Some r →
     Refs.active (pr_references r) = own_active (owners s) id
     ∧ Refs.reservations (pr_references r) = own_reserved (owners s) id
     ∧ Refs.transfers (pr_references r) = own_transfer (owners s) id)
  ∧ (∀ ctx b id, pm_bindings s !! ctx = Some b → id ∈ ab_representations b →
       ∃ r, pm_representations s !! id = Some r ∧ pr_mapping r = ab_mapping b
            ∧ pr_device r = true ∧ Refs.protected (pr_references r) = true)
  ∧ (∀ ctx tb, pm_block_tables s !! ctx = Some tb → ∃ b,
       pm_bindings s !! ctx = Some b ∧ bt_binding tb = ab_id b ∧ bt_mapping tb = ab_mapping b
       ∧ Forall2 (block_of (pm_representations s)) (ab_representations b) (bt_blocks tb)).
Proof.
  intros Hr%pm_reachable_ok. destruct Hr as [Hc Hrest _]. split; [|split].
  - intros id r Hr. pose proof (co_refs _ _ _ Hc id) as Hx. by rewrite Hr in Hx.
  - intros ctx b id Hb Hid. pose proof (rk_binding _ _ Hrest ctx b Hb) as Hmem.
    rewrite List.Forall_forall in Hmem. apply list_elem_of_In in Hid as Hid'.
    destruct (Hmem id Hid') as (r & Hr & Hm). exists r. do 2 (split; [done|]).
    pose proof (co_refs _ _ _ Hc id) as Hx. rewrite Hr in Hx. destruct Hx as [Ha _].
    assert (0 < Refs.active (pr_references r))%N as Hpos.
    { rewrite Ha. cbn. rewrite (map_sum_delete _ _ ctx b Hb). apply occ_elem in Hid. lia. }
    split; [by apply (co_active _ _ _ Hc id)|].
    unfold Refs.protected. destruct (N.eqb_spec (Refs.active (pr_references r)) 0); [lia|done].
  - apply (rk_table _ _ Hrest).
Qed.

(** Residency never exceeds capacity. In every reachable state the bytes on
    the device and on the host are within the configured capacities (so the
    [usize] sums never wrap), and the published metrics are those totals. *)
Theorem physical_capacity_bound c s :
  reachable c s →
  (map_sum on_device (pm_representations s) ≤ device_bytes c)%N
  ∧ (map_sum on_host (pm_representations s) ≤ host_bytes c)%N
  ∧ device_used s = map_sum on_device (pm_representations s)
  ∧ host_used s = map_sum on_host (pm_representations s)
  ∧ device_active (metrics s) = protected_device_bytes s
  ∧ device_growth_reserved (metrics s) = growth_reserved s
  ∧ device_transition_reserved (metrics s) = transition_reserved s
  ∧ device_detached_transfer_reserved (metrics s) = detached_transfer_reserved_bytes s
  ∧ host_used_metric (metrics s) = host_used s.
Proof.
  intros Hr%pm_reachable_ok. destruct Hr as [Hc _ Hm].
  split; [rewrite <- (co_fixed _ _ _ Hc); apply Hc|].
  split; [rewrite <- (co_fixed _ _ _ Hc); apply Hc|].
  split; [by eapply device_used_sum|]. split; [by eapply host_used_sum|].
  unfold metrics. rewrite <- Hm. done.
Qed.

(** No call panics. From any reachable state with identifiers left, every
    public method returns a value or an error: no map index is missing, no
    reference count underflows, the eviction loop ends, and the state it
    leaves satisfies the same invariant. *)
Theorem physical_manager_total c s q :
  reachable c s → roomy s → ∃ s', after (handle q) s = Some s' ∧ reachable c s'.
Proof.
  intros Hr Hroom. pose proof (handle_ok c q s (pm_reachable_ok _ _ Hr) Hroom) as Hwp.
  unfold wp_gen in Hwp. unfold after.
  assert (∃ s', after (handle q) s = Some s') as [s' Hs'].
  { unfold after. destruct (handle q s); [eauto|eauto|done]. }
  exists s'. split; [exact Hs'|]. destruct Hr as [Hc Hr]. split; [done|].
  eapply rtc_r; [exact Hr|]. split; [done|]. by exists q.
Qed.

(** C30: a mapped commit is atomic. It succeeds exactly when the transition
    exists at the expected revision with all its transfers successful and all
    its members on the device; then the context's binding and block table are
    both replaced, the transition is consumed and no copy moves. Otherwise it
    fails and changes nothing. *)
Theorem commit_mapped_all_or_nothing c s id revision executor_mapping :
  reachable c s → roomy s →
  match commit_mapped_transition id revision executor_mapping s with
  | Done (binding, table) s' =>
      committable s id revision ∧ ∃ t tb, pm_transitions s !! id = Some t
      ∧ pm_bindings s' = <[pt_context t := mkActiveBinding binding (pt_mapping t)
                                             (pt_representations t)]> (pm_bindings s)
      ∧ pm_transitions s' = delete id (pm_transitions s)
      ∧ pm_block_tables s' = <[pt_context t := tb]> (pm_block_tables s)
      ∧ bt_id tb = table ∧ bt_binding tb = binding ∧ bt_mapping tb = pt_mapping t
      ∧ bt_executor_mapping tb = executor_mapping
      ∧ Forall2 (block_of (pm_representations s)) (pt_representations t) (bt_blocks tb)
      ∧ same_body (pm_representations s) (pm_representations s')
  | Fail _ s' => s' = s ∧ ¬ committable s id revision
  | Panic => False
  end.
Proof.
  intros Hr%pm_reachable_ok Hroom.
  pose proof (commit_mapped_transition_ok c s id revision executor_mapping Hr Hroom) as Hwp.
  unfold wp_gen in Hwp. destruct (commit_mapped_transition _ _ _ s) as [[b t] s'| |]; [|done|done].
  tauto.
Qed.

(** C31: eviction for space is sound and follows the policy. Making room takes the
    device tier from unprotected copies only, changes nothing else, always in
    the order (reuse value, last use, identifier); on success the request was
    admitted against the reservations and fits; it fails only with
    [DeviceCapacity]. *)
Theorem eviction_policy c s additional :
  reachable c s →
  match ensure_device_capacity additional s with
  | Done _ s' =>
      shed (pm_representations s) (pm_representations s')
      ∧ in_order (pm_representations s) (pm_representations s') ∧ frame s s'
      ∧ (protected_device_bytes s + reservations s + additional ≤ device_bytes c)%N
      ∧ (device_used s' + additional ≤ device_bytes c)%N
  | Fail err s' =>
      err = DeviceCapacity ∧ shed (pm_representations s) (pm_representations s')
      ∧ in_order (pm_representations s) (pm_representations s') ∧ frame s s'
  | Panic => False
  end.
Proof.
  intros Hr%pm_reachable_ok.
  pose proof (ensure_device_capacity_ok c (owners s) additional s (ok_core _ _ Hr)) as Hwp.
  unfold wp_gen in Hwp. rewrite <- (co_fixed _ _ _ (ok_core _ _ Hr)).
  destruct (ensure_device_capacity additional s) as [[] s'|err s'|]; [| |done].
  - destruct Hwp as ([Hcore Hf Hshed Hord _] & Hadm & Hle).
    rewrite (device_used_sum _ _ _ Hcore). done.
  - destruct Hwp as ([Hcore Hf Hshed Hord _] & ->). done.
Qed.

(** preparing and aborting never disturb what runs. A prepared transition is
    recorded under a fresh identifier with the bytes its off-device members
    need, admitted against the reservations; bindings, block tables and growth
    reservations stay as they were. Aborting removes it and again leaves
    bindings, tables and every copy alone. *)
Theorem prepare_abort_undisturbing c s context revision mapping end_ required ids allow :
  reachable c s → roomy s →
  match prepare_transition context revision mapping end_ required ids allow s with
  | Done (tid, class, ts) s' =>
      let missing := list_sum (missing_of (pm_representations s)) ids in
      pm_transitions s !! tid = None
      ∧ pm_transitions s' = <[tid := mkPreparedTransition context revision mapping ids ts
                                       missing class]> (pm_transitions s)
      ∧ (protected_device_bytes s + reservations s + missing ≤ device_bytes c)%N
      ∧ pm_bindings s' = pm_bindings s ∧ pm_block_tables s' = pm_block_tables s
      ∧ pm_growth s' = pm_growth s
      ∧ ∃ s'', abort_transition tid s' = Done tt s''
          ∧ pm_transitions s'' = pm_transitions s
          ∧ pm_bindings s'' = pm_bindings s ∧ pm_block_tables s'' = pm_block_tables s
          ∧ same_body (pm_representations s') (pm_representations s'')
  | Fail _ s' => frame s s' ∧ shed (pm_representations s) (pm_representations s')
  | Panic => False
  end.
Proof.
  intros Hr%pm_reachable_ok Hroom.
  pose proof (prepare_transition_ok c s context revision mapping end_ required ids allow Hr Hroom)
    as Hwp.
  unfold wp_gen in Hwp. rewrite <- (co_fixed _ _ _ (ok_core _ _ Hr)).
  destruct (prepare_transition _ _ _ _ _ _ _ s) as [[[tid class] ts] s'|err s'|]; [| |done].
  - destruct Hwp as (Hok' & Hnone & Hb & Ht & Hg & _ & Htr & Hadm). cbv zeta.
    do 6 (split; [done|]).
    pose proof (abort_transition_ok c s' tid Hok') as Habort. unfold wp_gen in Habort.
    destruct (abort_transition tid s') as [[] s''|err s''|]; [| |done].
    + destruct Habort as (_ & Htr' & Hb' & Ht' & Hbody & _). exists s''. split; [done|].
      rewrite Htr', Htr, delete_insert_id by done. rewrite Hb', Ht'. done.
    + destruct Habort as (_ & _ & Hno). by rewrite Htr, lookup_insert_eq in Hno.
  - destruct Hwp as [_ [_ Hf Hshed _ _]]. done.
Qed.

(** ** Concrete executions *)

Module Runs.
Definition cap : Capacity := mkCapacity 100 50.

Definition run1 (q : request) (s : PhysicalManager) : PhysicalManager :=
  default s (after (handle q) s).

Definition run (qs : list request) : PhysicalManager := foldl (λ s q, run1 q s) (new cap) qs.

(** Each call returned, with identifiers left. *)
Fixpoint legal (qs : list request) (s : PhysicalManager) : bool :=
  match qs with
  | [] => true
  | q :: qs' =>
      (pm_next_id s + 4 <=? u64_max)%N && (pm_clock s + 1 <=? u64_max)%N
      && match after (handle q) s with
         | Some s' => legal qs' s'
         | None => false
         end
  end.

Lemma legal_steps qs s :
  rtc step (new cap) s → legal qs s = true → rtc step (new cap) (foldl (λ s q, run1 q s) s qs).
Proof.
  revert s. induction qs as [|q qs IH]; intros s H0 Hl; [exact H0|].
  cbn [legal] in Hl. destruct (after (handle q) s) as [s'|] eqn:Hq.
  - rewrite !andb_true_iff, !N.leb_le in Hl. destruct Hl as [[Hn Hk] Hl]. cbn [foldl].
    assert (run1 q s = s') as -> by (unfold run1; by rewrite Hq).
    apply IH; [|done]. eapply rtc_r; [exact H0|]. split; [done|by exists q].
  - by rewrite andb_false_r in Hl.
Qed.

Lemma run_reachable qs : legal qs (new cap) = true → reachable cap (run qs).
Proof.
  intros Hl. split; [split; vm_compute; discriminate|]. by apply legal_steps.
Qed.

(** A context bound to one 40-byte device copy, with its block table. *)
Definition bound : list request :=
  [Register 7 GlobalKv 16 40 Device 1;
   PrepareTransition 0 5 7 16 1%N [1%N] false;
   CommitMapped 2 5 9].

(** A second composite of a device copy and a host copy, not yet prepared; an
    unrelated device copy of higher reuse value completes the device. *)
Definition mixed : list request :=
  [Register 7 GlobalKv 16 40 Device 1;
   Register 8 GlobalKv 16 40 Device 9;
   Register 7 SlidingWindow 16 40 Host 1].

(** Two bound copies beside a growth reservation. *)
Definition crowded : list request :=
  [Register 7 GlobalKv 16 60 Device 1;
   ReserveGrowth 40;
   Register 8 GlobalKv 16 40 Device 1;
   PrepareTransition 0 5 7 16 1%N [1%N] false;
   PrepareTransition 1 5 8 16 1%N [3%N] false;
   CommitTransition 4 5;
   CommitTransition 5 5].

Lemma bound_reachable : reachable cap (run bound).
Proof. apply run_reachable. vm_compute. reflexivity. Qed.

Lemma mixed_reachable : reachable cap (run mixed).
Proof. apply run_reachable. vm_compute. reflexivity. Qed.

Lemma crowded_reachable : reachable cap (run crowded).
Proof. apply run_reachable. vm_compute. reflexivity. Qed.

Lemma roomy_check s :
  ((pm_next_id s + 4 <=? u64_max) && (pm_clock s + 1 <=? u64_max))%N = true → roomy s.
Proof. rewrite andb_true_iff, !N.leb_le. done. Qed.

(** The composite of mapping 7 is prepared: its host member must move. *)
Definition prepare_mixed := PrepareTransition 0 5 7 16 3%N [1%N; 3%N] false.

(** Preparing can destroy a member of the very composite it prepares. The
    members are protected only after space was made, so making room for the
    host member evicts the device member, whose only copy is lost; the call
    still succeeds, and although its one transfer then completes, the
    transition can neither be committed nor recomputed. *)
Theorem prepare_evicts_own_member :
  reachable cap (run mixed)
  ∧ let s := run (mixed ++ [prepare_mixed; CompleteTransfer 5 true]) in
    (∃ r, pm_representations (run mixed) !! 1%N = Some r ∧ pr_device r = true)
    ∧ (∃ r, pm_representations s !! 1%N = Some r
            ∧ pr_device r = false ∧ pr_host r = false ∧ pr_storage r = false)
    ∧ pt_class <$> pm_transitions s !! 4%N = Some Quiesced
    ∧ commit_transition 4 5 s = Fail TransferPending s
    ∧ complete_recompute 4 1 s = Fail InvalidComposite s.
Proof.
  split; [apply mixed_reachable|]. vm_compute.
  split; [eexists; split; reflexivity|]. split; [eexists; split; [reflexivity|repeat split; reflexivity]|].
  split; [reflexivity|]. split; reflexivity.
Qed.

(** The admission check does not bound what is committed. Reference-only
    transitions reserve no bytes and their members only count once active, so
    the active bytes and the growth reservation together can exceed the
    device. *)
Theorem admission_overcommits :
  reachable cap (run crowded)
  ∧ (device_bytes cap < device_active (metrics (run crowded))
                        + device_growth_reserved (metrics (run crowded)))%N.
Proof. split; [apply crowded_reachable|]. vm_compute. reflexivity. Qed.

End Runs.

Lemma physical_accounting_exact_witness :
  ∃ r, pm_representations (Runs.run Runs.bound) !! 1%N = Some r ∧ pr_device r = true
       ∧ Refs.protected (pr_references r) = true.
Proof.
  pose proof (physical_accounting_exact Runs.cap (Runs.run Runs.bound) Runs.bound_reachable)
    as (_ & H & _).
  destruct (H 0%N (mkActiveBinding 4 7 [1%N]) 1%N) as (r & Hr & _ & Hd & Hp).
  - vm_compute. reflexivity.
  - left.
  - exists r. split; [exact Hr|]. split; [exact Hd|exact Hp].
Defined.

Lemma physical_capacity_bound_witness :
  (device_used (Runs.run Runs.mixed) = 80)%N
  ∧ device_used (Runs.run Runs.mixed)
    = map_sum on_device (pm_representations (Runs.run Runs.mixed)).
Proof.
  split; [vm_compute; reflexivity|].
  apply (physical_capacity_bound Runs.cap (Runs.run Runs.mixed) Runs.mixed_reachable).
Defined.

Lemma physical_manager_total_witness :
  ∃ s', after (handle Runs.prepare_mixed) (Runs.run Runs.mixed) = Some s'.
Proof.
  destruct (physical_manager_total Runs.cap (Runs.run Runs.mixed) Runs.prepare_mixed
    Runs.mixed_reachable) as (s' & Hs' & _).
  - apply Runs.roomy_check. vm_compute. reflexivity.
  - exists s'. exact Hs'.
Defined.

Lemma commit_mapped_all_or_nothing_witness :
  ¬ committable (Runs.run Runs.bound) 2 5.
Proof.
  pose proof (commit_mapped_all_or_nothing Runs.cap (Runs.run Runs.bound) 2 5 9
    Runs.bound_reachable ltac:(apply Runs.roomy_check; vm_compute; reflexivity)) as H.
  destruct (commit_mapped_transition 2 5 9 (Runs.run Runs.bound)) as [[b t] s'|err s'|] eqn:Hrun.
  - exfalso. assert (match commit_mapped_transition 2 5 9 (Runs.run Runs.bound) with
                     | Fail _ _ => true | _ => false end = true) as Hf by (vm_compute; reflexivity).
    rewrite Hrun in Hf. discriminate Hf.
  - apply H.
  - destruct H.
Defined.

Lemma eviction_policy_witness :
  match ensure_device_capacity 40 (Runs.run Runs.mixed) with
  | Done _ s' => shed (pm_representations (Runs.run Runs.mixed)) (pm_representations s')
  | _ => True
  end.
Proof.
  pose proof (eviction_policy Runs.cap (Runs.run Runs.mixed) 40 Runs.mixed_reachable) as H.
  destruct (ensure_device_capacity 40 (Runs.run Runs.mixed)) as [a s'| |]; [|exact I|exact I].
  exact (proj1 H).
Defined.

Lemma prepare_abort_undisturbing_witness :
  match prepare_transition 0 5 7 16 3%N [1%N; 3%N] false (Runs.run Runs.mixed) with
  | Done _ s' => pm_bindings s' = pm_bindings (Runs.run Runs.mixed)
  | _ => True
  end.
Proof.
  pose proof (prepare_abort_undisturbing Runs.cap (Runs.run Runs.mixed) 0 5 7 16 3%N [1%N; 3%N] false
    Runs.mixed_reachable ltac:(apply Runs.roomy_check; vm_compute; reflexivity)) as H.
  destruct (prepare_transition 0 5 7 16 3%N [1%N; 3%N] false (Runs.run Runs.mixed))
    as [[[tid class] ts] s'| |]; [|exact I|exact I].
  destruct H as (_ & _ & _ & H & _). exact H.
Defined.
