(* ===== verification/FairPolicy.v ===== *)
(** The weighted fair queue of [crates/server/src/scheduler.rs]: runnable jobs in
    arrival order, a deficit per flow (principal and class), age promotion, and
    the selection of the head with the largest deficit.

    Deficits are [i64]: sums saturate or wrap as the code's do. The clock is an
    argument; the availability test is the closure the dispatcher passes. *)

From stdpp Require Import gmap strings list numbers.
From S2P Require Import Prelude.

(** ** Signed 64-bit integers *)

Definition i64_min : Z := (- 9223372036854775808)%Z.
Definition i64_max : Z := 9223372036854775807%Z.

Definition clamp (x : Z) : Z := Z.max i64_min (Z.min i64_max x).
Definition i64_saturating_add (a b : Z) : Z := clamp (a + b).
Definition i64_saturating_mul (a b : Z) : Z := clamp (a * b).
Definition i64_wrap (x : Z) : Z :=
  ((x + 9223372036854775808) mod 18446744073709551616 - 9223372036854775808)%Z.

(** ** Data *)

Inductive SchedulingClass : Type := Interactive | Standard | Batch.

#[export] Instance SchedulingClass_eq_dec : EqDecision SchedulingClass.
Proof. solve_decision. Defined.

Record SchedulerPolicyConfig : Type := mkPolicyConfig {
  version : N;
  interactive_weight : N;
  standard_weight : N;
  batch_weight : N;
  deficit_refill : N;
  prefill_tokens : N;
  promotion_rounds : N;
  diagnostic_capacity : N;
}.

Definition default_policy : SchedulerPolicyConfig := mkPolicyConfig 1 4 2 1 1 32 64 1024.

(** [SchedulerPolicyConfig::validate], as a test. *)
Definition policy_valid (c : SchedulerPolicyConfig) : bool :=
  (version c =? 1)%N
  && negb ((interactive_weight c =? 0)%N || (standard_weight c =? 0)%N || (batch_weight c =? 0)%N
           || (deficit_refill c =? 0)%N || (prefill_tokens c =? 0)%N
           || (promotion_rounds c =? 0)%N || (diagnostic_capacity c =? 0)%N).

Record FlowKey : Type := mkFlowKey { principal : string; class : SchedulingClass }.

#[export] Instance FlowKey_eq_dec : EqDecision FlowKey.
Proof. solve_decision. Defined.

#[export] Instance SchedulingClass_countable : Countable SchedulingClass.
Proof.
  refine (inj_countable'
    (λ c, match c with Interactive => 0%N | Standard => 1%N | Batch => 2%N end)
    (λ n, match n with 0%N => Interactive | 1%N => Standard | _ => Batch end) _).
  by intros [].
Defined.

#[export] Instance FlowKey_countable : Countable FlowKey.
Proof.
  refine (inj_countable' (λ f, (principal f, class f)) (λ '(p, c), mkFlowKey p c) _).
  by intros [].
Defined.

Record PolicyEntry : Type := mkPolicyEntry {
  pe_id : N;
  pe_flow : FlowKey;
  pe_admitted_round : N;
  pe_admitted_at : N;
}.

Record Selection : Type := mkSelection {
  sel_id : N;
  sel_queue_age_rounds : N;
  sel_queue_age_ms : N;
  sel_promotions : N;
  sel_charge_scale : Z;
}.

Record FairPolicy : Type := mkFairPolicy {
  fp_config : SchedulerPolicyConfig;
  fp_runnable : list PolicyEntry;
  fp_deficits : gmap FlowKey Z;
  fp_round : N;
  fp_cursor : nat;
}.

Definition new_policy (config : SchedulerPolicyConfig) : FairPolicy := mkFairPolicy config [] ∅ 0 0.

Definition with_runnable (l : list PolicyEntry) (p : FairPolicy) : FairPolicy :=
  mkFairPolicy (fp_config p) l (fp_deficits p) (fp_round p) (fp_cursor p).

Definition with_deficits (d : gmap FlowKey Z) (p : FairPolicy) : FairPolicy :=
  mkFairPolicy (fp_config p) (fp_runnable p) d (fp_round p) (fp_cursor p).

(** ** Operations *)

Definition enqueue (id : N) (flow : FlowKey) (admitted_round admitted_at : N) (p : FairPolicy)
  : FairPolicy :=
  with_runnable (fp_runnable p ++ [mkPolicyEntry id flow admitted_round admitted_at]) p.

(** [round.saturating_sub(admitted) / promotion_rounds], at most two. *)
Definition effective_class (p : FairPolicy) (e : PolicyEntry) : SchedulingClass * N :=
  let promotions :=
    N.min (saturating_sub (fp_round p) (pe_admitted_round e) / promotion_rounds (fp_config p)) 2 in
  let c :=
    match class (pe_flow e), promotions with
    | Batch, 1%N => Standard
    | Batch, 2%N => Interactive
    | Standard, N.pos _ => Interactive
    | c, _ => c
    end in
  (c, promotions).

Definition weight (p : FairPolicy) (c : SchedulingClass) : Z :=
  let w := match c with
           | Interactive => interactive_weight (fp_config p)
           | Standard => standard_weight (fp_config p)
           | Batch => batch_weight (fp_config p)
           end in
  Z.of_N (N.min (w * deficit_refill (fp_config p)) u32_max).

Record Head : Type := mkHead {
  hd_index : nat;
  hd_flow : FlowKey;
  hd_class : SchedulingClass;
  hd_promotions : N;
  hd_credit : Z;
}.

(** The scan for heads: the first available entry of every flow. *)
Fixpoint scan_heads (p : FairPolicy) (available : N → bool) (index : nat) (heads : list Head)
    (entries : list PolicyEntry) : list Head :=
  match entries with
  | [] => heads
  | e :: entries' =>
      if bool_decide (pe_flow e ∈ hd_flow <$> heads)
      then scan_heads p available (S index) heads entries'
      else if negb (available (pe_id e)) then scan_heads p available (S index) heads entries'
      else
        let '(c, promotions) := effective_class p e in
        scan_heads p available (S index)
          (heads ++ [mkHead index (pe_flow e) c promotions (weight p c)]) entries'
  end.

Definition deficit (d : gmap FlowKey Z) (flow : FlowKey) : Z := default 0%Z (d !! flow).

Definition refill_one (d : gmap FlowKey Z) (h : Head) : gmap FlowKey Z :=
  <[hd_flow h :=
      Z.min (i64_saturating_add (deficit d (hd_flow h)) (hd_credit h))
            (i64_saturating_mul (hd_credit h) 8)]> d.

Definition refill (heads : list Head) (d : gmap FlowKey Z) : gmap FlowKey Z :=
  foldl refill_one d heads.

Definition total_weight (heads : list Head) : Z :=
  Z.max (i64_wrap (foldr (λ h acc, (hd_credit h + acc)%Z) 0%Z heads)) 1.

(** [iter.max().unwrap_or_default()]. *)
Definition max_deficit (d : gmap FlowKey Z) (heads : list Head) : Z :=
  match heads with
  | [] => 0%Z
  | h :: heads' => foldl (λ m h, Z.max m (deficit d (hd_flow h))) (deficit d (hd_flow h)) heads'
  end.

Definition select (available : N → bool) (now : N) (p : FairPolicy)
  : option Selection * FairPolicy :=
  match scan_heads p available 0 [] (fp_runnable p) with
  | [] => (None, p)
  | heads =>
      let round := saturating_add (fp_round p) 1 in
      let d := refill heads (fp_deficits p) in
      let eligible := filter (λ h, deficit d (hd_flow h) = max_deficit d heads) heads in
      match eligible !! (fp_cursor p mod length eligible) with
      | None => (None, p)
      | Some selected =>
          let cursor := S (fp_cursor p) mod length eligible in
          match fp_runnable p !! hd_index selected with
          | None => (None, p)
          | Some entry =>
              (Some (mkSelection (pe_id entry)
                       (saturating_sub round (pe_admitted_round entry))
                       (saturating_sub now (pe_admitted_at entry))
                       (hd_promotions selected) (total_weight heads)),
               mkFairPolicy (fp_config p) (delete (hd_index selected) (fp_runnable p)) d round cursor)
          end
      end
  end.

Definition charge (flow : FlowKey) (tokens : N) (scale : Z) (p : FairPolicy) : FairPolicy :=
  with_deficits
    (<[flow := i64_wrap (deficit (fp_deficits p) flow
                         - i64_saturating_mul (i64_wrap (Z.of_N (N.max tokens 1))) scale)]>
       (fp_deficits p)) p.

(** [in_jobs]: some retained job belongs to the flow. *)
Definition clear_if_idle (flow : FlowKey) (in_jobs : bool) (p : FairPolicy) : FairPolicy :=
  if negb (existsb (λ e, bool_decide (pe_flow e = flow)) (fp_runnable p)) && negb in_jobs
  then with_deficits (delete flow (fp_deficits p)) p
  else p.

Definition remove (id : N) (p : FairPolicy) : bool * FairPolicy :=
  let l := filter (λ e, pe_id e ≠ id) (fp_runnable p) in
  (negb (length l =? length (fp_runnable p)), with_runnable l p).
