(* ===== verification/FairPolicyLaws.v ===== *)
(** Laws of the fair queue: selection is work-conserving, first-in-first-out
    within a flow, takes a largest deficit, and no flow starves. *)

From stdpp Require Import gmap strings list numbers.
From S2P Require Import Prelude.
From S2P Require Import FairPolicy.

Implicit Types (p : FairPolicy) (e : PolicyEntry) (h : Head) (f g : FlowKey)
  (d : gmap FlowKey Z) (heads : list Head).

(** ** The heads *)

(** [h] is the first available entry of its flow in [l]. *)
Definition head_of p (available : N → bool) (l : list PolicyEntry) h : Prop :=
  ∃ e, l !! hd_index h = Some e ∧ pe_flow e = hd_flow h ∧ available (pe_id e) = true
    ∧ (hd_class h, hd_promotions h) = effective_class p e
    ∧ hd_credit h = weight p (hd_class h)
    ∧ ∀ j e', j < hd_index h → l !! j = Some e' → pe_flow e' = hd_flow h →
        available (pe_id e') = false.

Record heads_ok p (available : N → bool) (l : list PolicyEntry) heads : Prop := {
  ho_head : ∀ h, h ∈ heads → head_of p available l h;
  ho_nodup : base.NoDup (hd_flow <$> heads);
  ho_complete : ∀ e, e ∈ l → available (pe_id e) = true → pe_flow e ∈ hd_flow <$> heads;
}.

Lemma head_of_app p available l l' h : head_of p available l h → head_of p available (l ++ l') h.
Proof.
  intros (e & Hl & Hf & Ha & Hc & Hw & Hfirst). exists e.
  pose proof (lookup_lt_Some _ _ _ Hl) as Hlt.
  split; [by rewrite lookup_app_l|]. do 4 (split; [done|]).
  intros j e' Hj He'. rewrite lookup_app_l in He' by lia. by eapply Hfirst.
Qed.

Lemma scan_heads_ok p available entries pre heads :
  heads_ok p available pre heads →
  heads_ok p available (pre ++ entries) (scan_heads p available (length pre) heads entries).
Proof.
  revert pre heads. induction entries as [|e entries IH]; intros pre heads Hok.
  { by rewrite app_nil_r. }
  cbn [scan_heads]. rewrite (cons_middle e pre entries), app_assoc.
  replace (S (length pre)) with (length (pre ++ [e])) by (rewrite length_app; cbn; lia).
  destruct Hok as [Hh Hnd Hcomp].
  assert ((available (pe_id e) = true → pe_flow e ∈ hd_flow <$> heads) →
    heads_ok p available (pre ++ [e]) heads) as Hskip.
  { intros Hin. split; [|done|].
    - intros h Hx. by apply head_of_app, Hh.
    - intros e' [He'| ->%list_elem_of_singleton]%elem_of_app; [by apply Hcomp|done]. }
  case_bool_decide as Hin; [apply IH; by apply Hskip|].
  destruct (available (pe_id e)) eqn:Hav; cbn [negb]; [|apply IH; by eapply Hskip].
  destruct (effective_class p e) as [c promotions] eqn:Hcl.
  apply IH. split.
  - intros h [Hx| ->%list_elem_of_singleton]%elem_of_app; [by apply head_of_app, Hh|].
    exists e. cbn. rewrite lookup_app_r, Nat.sub_diag by lia. do 3 (split; [done|]).
    split; [done|]. split; [done|]. intros j e' Hj He' Hf.
    rewrite lookup_app_l in He' by lia. destruct (available (pe_id e')) eqn:Ha; [|done].
    exfalso. apply Hin. rewrite <- Hf. apply Hcomp; [by eapply list_elem_of_lookup_2|done].
  - rewrite fmap_app. apply list.NoDup_app. split; [done|]. split; [|apply list.NoDup_singleton].
    intros x Hx ->%list_elem_of_singleton. done.
  - intros e' [He'| ->%list_elem_of_singleton]%elem_of_app Ha; rewrite fmap_app, elem_of_app.
    + left. by apply Hcomp.
    + right. by left.
Qed.

Lemma heads_of_runnable p available :
  heads_ok p available (fp_runnable p) (scan_heads p available 0 [] (fp_runnable p)).
Proof.
  apply (scan_heads_ok p available (fp_runnable p) [] []).
  split; [by intros h ?%not_elem_of_nil|constructor|by intros e ?%not_elem_of_nil].
Qed.

(** ** Refilling and the largest deficit *)

Definition refilled d h : Z :=
  Z.min (i64_saturating_add (deficit d (hd_flow h)) (hd_credit h))
        (i64_saturating_mul (hd_credit h) 8).

Lemma refill_other heads d f : f ∉ hd_flow <$> heads → refill heads d !! f = d !! f.
Proof.
  revert d. induction heads as [|h heads IH]; intros d; [done|]. cbn.
  rewrite not_elem_of_cons. intros [Hne Hf]. unfold refill in *. rewrite IH by done.
  unfold refill_one. by rewrite lookup_insert_ne.
Qed.

Lemma refill_head heads d h :
  base.NoDup (hd_flow <$> heads) → h ∈ heads → deficit (refill heads d) (hd_flow h) = refilled d h.
Proof.
  revert d. induction heads as [|h0 heads IH]; intros d; [by intros _ ?%not_elem_of_nil|].
  cbn. rewrite list.NoDup_cons. intros [Hnotin Hnd] [->|Hh]%elem_of_cons.
  - unfold deficit at 1. change (foldl refill_one (refill_one d h0) heads)
      with (refill heads (refill_one d h0)). rewrite refill_other by done.
    unfold refill_one. by rewrite lookup_insert_eq.
  - change (foldl refill_one (refill_one d h0) heads) with (refill heads (refill_one d h0)).
    rewrite IH by done. unfold refilled. do 2 f_equal. unfold deficit, refill_one.
    rewrite lookup_insert_ne; [done|]. intros Heq. apply Hnotin. rewrite Heq.
    by apply list_elem_of_fmap_2.
Qed.

Lemma max_deficit_fold d heads m :
  let r := foldl (λ m h, Z.max m (deficit d (hd_flow h))) m heads in
  (m ≤ r)%Z ∧ (∀ h, h ∈ heads → (deficit d (hd_flow h) ≤ r)%Z)
  ∧ (r = m ∨ ∃ h, h ∈ heads ∧ deficit d (hd_flow h) = r).
Proof.
  revert m. induction heads as [|h heads IH]; intros m; cbn.
  { split; [lia|]. split; [by intros h ?%not_elem_of_nil|by left]. }
  destruct (IH (Z.max m (deficit d (hd_flow h)))) as (H1 & H2 & H3). split; [lia|]. split.
  - intros h' [->|Hh]%elem_of_cons; [lia|by apply H2].
  - destruct H3 as [H3|(h' & Hh' & H3)].
    + destruct (Z.max_spec m (deficit d (hd_flow h))) as [[_ Hm]|[_ Hm]]; rewrite Hm in *;
        [right; exists h; split; [by left|done]|by left].
    + right. exists h'. split; [by right|done].
Qed.

Lemma max_deficit_ok d heads :
  heads ≠ [] →
  (∀ h, h ∈ heads → (deficit d (hd_flow h) ≤ max_deficit d heads)%Z)
  ∧ ∃ h, h ∈ heads ∧ deficit d (hd_flow h) = max_deficit d heads.
Proof.
  destruct heads as [|h heads]; [done|]. intros _. unfold max_deficit.
  destruct (max_deficit_fold d heads (deficit d (hd_flow h))) as (H1 & H2 & H3). split.
  - intros h' [->|Hh]%elem_of_cons; [done|by apply H2].
  - destruct H3 as [H3|(h' & Hh' & H3)].
    + exists h. split; [by left|done].
    + exists h'. split; [by right|done].
Qed.

(** ** Selection *)

(** What a selection does: [h] is one of the heads [heads], with the largest
    deficit after the refill, and its entry leaves the queue. *)
Definition selects (available : N → bool) p heads h (sel : Selection) p' : Prop :=
  heads_ok p available (fp_runnable p) heads ∧ h ∈ heads
  ∧ (∃ e, fp_runnable p !! hd_index h = Some e ∧ sel_id sel = pe_id e ∧ pe_flow e = hd_flow h)
  ∧ sel_charge_scale sel = total_weight heads
  ∧ sel_promotions sel = hd_promotions h
  ∧ fp_runnable p' = delete (hd_index h) (fp_runnable p)
  ∧ fp_deficits p' = refill heads (fp_deficits p)
  ∧ fp_config p' = fp_config p
  ∧ fp_round p' = saturating_add (fp_round p) 1
  ∧ ∀ h', h' ∈ heads →
      (deficit (fp_deficits p') (hd_flow h') ≤ deficit (fp_deficits p') (hd_flow h))%Z.

Lemma select_ok available now p :
  match select available now p with
  | (None, p') => p' = p ∧ ∀ e, e ∈ fp_runnable p → available (pe_id e) = false
  | (Some sel, p') => ∃ heads h, selects available p heads h sel p'
  end.
Proof.
  unfold select. pose proof (heads_of_runnable p available) as Hok.
  set (heads := scan_heads p available 0 [] (fp_runnable p)) in *.
  destruct heads as [|h0 heads0] eqn:Hheads.
  { split; [done|]. intros e He. destruct (available (pe_id e)) eqn:Ha; [|done].
    pose proof (ho_complete _ _ _ _ Hok e He Ha) as Hin. by apply not_elem_of_nil in Hin. }
  rewrite <- Hheads in *. cbv zeta. set (d := refill heads (fp_deficits p)).
  destruct (max_deficit_ok d heads) as (Hmax & hm & Hhm & Heq); [by rewrite Hheads|].
  set (eligible := filter _ heads).
  assert (0 < length eligible) as Hpos.
  { destruct eligible eqn:He; [|cbn; lia].
    assert (hm ∈ eligible) as Hin by (apply list_elem_of_filter; done).
    rewrite He in Hin. by apply not_elem_of_nil in Hin. }
  destruct (lookup_lt_is_Some_2 eligible (fp_cursor p mod length eligible)) as [h Hh].
  { apply Nat.mod_upper_bound. lia. }
  rewrite Hh. apply list_elem_of_lookup_2 in Hh. apply list_elem_of_filter in Hh as [Hdef Hh].
  destruct (ho_head _ _ _ _ Hok h Hh) as (e & He & Hf & Ha & Hcl & Hw & Hfirst).
  rewrite He. exists heads, h. cbn.
  split; [done|]. split; [done|]. split; [by exists e|]. do 6 (split; [done|]).
  intros h' Hh'. change (deficit d (hd_flow h') ≤ deficit d (hd_flow h))%Z.
  rewrite Hdef. by apply Hmax.
Qed.

(** ** Turns: select, charge the quantum, queue the job again *)

(** One turn of the dispatcher on jobs that always have more work. [jobs] is the
    job table; the charge and the re-queuing are those of a completion. *)
Definition turn (jobs : gmap N PolicyEntry) (tokens now : N) p : option (FlowKey * FairPolicy) :=
  match select (λ _, true) now p with
  | (None, _) => None
  | (Some sel, p') =>
      j ← jobs !! sel_id sel;
      Some (pe_flow j,
        enqueue (sel_id sel) (pe_flow j) (pe_admitted_round j) (pe_admitted_at j)
          (charge (pe_flow j) tokens (sel_charge_scale sel) p'))
  end.

(** The flows served by the turns for quanta of the given sizes. *)
Fixpoint served (jobs : gmap N PolicyEntry) (tokens : list N) p : list FlowKey :=
  match tokens with
  | [] => []
  | t :: tokens' =>
      match turn jobs t 0 p with
      | None => []
      | Some (f, p') => f :: served jobs tokens' p'
      end
  end.

Definition tracked (jobs : gmap N PolicyEntry) p : Prop :=
  ∀ e, e ∈ fp_runnable p → jobs !! pe_id e = Some e.

(** ** Sums over flows *)

Definition zsum {A} (f : A → Z) (l : list A) : Z := foldr (λ x acc, (f x + acc)%Z) 0%Z l.

Lemma zsum_cons {A} (f : A → Z) x l : zsum f (x :: l) = (f x + zsum f l)%Z.
Proof. done. Qed.

Lemma zsum_perm {A} (f : A → Z) l l' : l ≡ₚ l' → zsum f l = zsum f l'.
Proof. induction 1; rewrite ?zsum_cons; lia. Qed.

Lemma zsum_ext {A} (f g : A → Z) l : (∀ x, x ∈ l → f x = g x) → zsum f l = zsum g l.
Proof.
  induction l as [|x l IH]; intros Hfg; [done|]. rewrite !zsum_cons, (Hfg x) by left.
  rewrite IH; [done|]. intros y Hy. apply Hfg. by right.
Qed.

Lemma zsum_le {A} (f g : A → Z) l : (∀ x, x ∈ l → (f x ≤ g x)%Z) → (zsum f l ≤ zsum g l)%Z.
Proof.
  induction l as [|x l IH]; intros Hfg; [done|]. rewrite !zsum_cons.
  pose proof (Hfg x ltac:(left)).
  assert (zsum f l ≤ zsum g l)%Z; [|lia]. apply IH. intros y Hy. apply Hfg. by right.
Qed.

Lemma zsum_plus {A} (f g : A → Z) l : zsum (λ x, f x + g x)%Z l = (zsum f l + zsum g l)%Z.
Proof. induction l as [|x l IH]; [done|]. rewrite !zsum_cons, IH. lia. Qed.

Lemma zsum_const {A} (c : Z) (l : list A) : zsum (λ _, c) l = (c * Z.of_nat (length l))%Z.
Proof. induction l as [|x l IH]; [cbn; lia|]. rewrite zsum_cons, IH. cbn [length]. lia. Qed.

Lemma zsum_fmap {A B} (g : A → B) (f : B → Z) l : zsum f (g <$> l) = zsum (λ x, f (g x)) l.
Proof. induction l as [|x l IH]; [done|]. rewrite fmap_cons, !zsum_cons, IH. done. Qed.

(** The indicator of one flow. *)
Definition pay (f : FlowKey) (amount : Z) : FlowKey → Z :=
  λ g, if decide (g = f) then amount else 0%Z.

Lemma zsum_pay f amount l :
  base.NoDup l → zsum (pay f amount) l = if decide (f ∈ l) then amount else 0%Z.
Proof.
  induction 1 as [|x l Hx _ IH]; [done|]. rewrite zsum_cons, IH. unfold pay.
  destruct (decide (x = f)) as [->|Hne].
  - rewrite decide_False, decide_True by (done || by left). lia.
  - destruct (decide (f ∈ l)) as [Hin|Hin].
    + rewrite decide_True by (by right). lia.
    + rewrite decide_False by (rewrite elem_of_cons; naive_solver). lia.
Qed.

(** ** One turn, in exact arithmetic *)

(** The largest credit a configuration grants in a round. *)
Definition max_credit (c : SchedulerPolicyConfig) : Z :=
  Z.of_N (N.min (N.max (interactive_weight c) (N.max (standard_weight c) (batch_weight c))
                 * deficit_refill c) u32_max).

Lemma weight_bounds p c :
  policy_valid (fp_config p) = true → (1 ≤ weight p c ≤ max_credit (fp_config p))%Z.
Proof.
  unfold policy_valid, weight, max_credit, u32_max. intros Hv.
  rewrite andb_true_iff, negb_true_iff, !orb_false_iff, !N.eqb_neq in Hv.
  destruct Hv as (_ & (((((Hi & Hs) & Hb) & Hd) & _) & _) & _).
  destruct c; nia.
Qed.

Lemma clamp_exact x : (i64_min ≤ x ≤ i64_max)%Z → clamp x = x.
Proof. unfold clamp. lia. Qed.

Lemma i64_wrap_exact x : (i64_min ≤ x ≤ i64_max)%Z → i64_wrap x = x.
Proof. unfold i64_wrap, i64_min, i64_max. intros ?. rewrite Z.mod_small; lia. Qed.

(** The credit the heads give a flow. *)
Definition credit_of heads g : Z :=
  from_option hd_credit 1%Z (List.find (λ h, bool_decide (hd_flow h = g)) heads).

Lemma credit_of_head heads h :
  base.NoDup (hd_flow <$> heads) → h ∈ heads → credit_of heads (hd_flow h) = hd_credit h.
Proof.
  unfold credit_of. induction heads as [|h0 heads IH]; [by intros _ ?%not_elem_of_nil|].
  rewrite fmap_cons, list.NoDup_cons. cbn [List.find]. intros [Hnotin Hnd] [->|Hh]%elem_of_cons.
  - by rewrite bool_decide_true.
  - rewrite bool_decide_false; [by apply IH|]. intros Heq. apply Hnotin. rewrite Heq.
    by apply list_elem_of_fmap_2.
Qed.

Lemma heads_flows available p heads :
  heads_ok p available (fp_runnable p) heads → (∀ i, available i = true) →
  hd_flow <$> heads ≡ₚ remove_dups (pe_flow <$> fp_runnable p).
Proof.
  intros [Hh Hnd Hcomp] Hall. apply NoDup_Permutation; [done|apply NoDup_remove_dups|].
  intros g. rewrite elem_of_remove_dups. split.
  - intros (h & -> & Hin)%list_elem_of_fmap. destruct (Hh h Hin) as (e & He & <- & _).
    apply list_elem_of_fmap_2. by eapply list_elem_of_lookup_2.
  - intros (e & -> & Hin)%list_elem_of_fmap. by apply Hcomp.
Qed.

Lemma credit_bounds p available heads g :
  policy_valid (fp_config p) = true → heads_ok p available (fp_runnable p) heads →
  g ∈ hd_flow <$> heads → (1 ≤ credit_of heads g ≤ max_credit (fp_config p))%Z.
Proof.
  intros Hv [Hh Hnd _] (h & -> & Hin)%list_elem_of_fmap. rewrite credit_of_head by done.
  destruct (Hh h Hin) as (e & _ & _ & _ & _ & -> & _). by apply weight_bounds.
Qed.

Lemma total_weight_sum p available heads F :
  policy_valid (fp_config p) = true → heads_ok p available (fp_runnable p) heads →
  hd_flow <$> heads ≡ₚ F → heads ≠ [] → (max_credit (fp_config p) * Z.of_nat (length F) ≤ i64_max)%Z →
  total_weight heads = zsum (credit_of heads) F
  ∧ (1 ≤ zsum (credit_of heads) F ≤ max_credit (fp_config p) * Z.of_nat (length F))%Z.
Proof.
  intros Hv Hok HF Hne Hwidth.
  assert (zsum (credit_of heads) F = zsum hd_credit heads) as Hsum.
  { rewrite <- (zsum_perm _ _ _ HF), zsum_fmap. apply zsum_ext. intros h Hh.
    apply credit_of_head; [apply Hok|done]. }
  assert (zsum (λ _, 1%Z) F ≤ zsum (credit_of heads) F)%Z as Hlow.
  { apply zsum_le. intros g Hg. rewrite <- HF in Hg. by eapply credit_bounds. }
  assert (zsum (credit_of heads) F ≤ zsum (λ _, max_credit (fp_config p)) F)%Z as Hhigh.
  { apply zsum_le. intros g Hg. rewrite <- HF in Hg. by eapply credit_bounds. }
  rewrite zsum_const in Hlow, Hhigh.
  assert (0 < length F) as Hlen.
  { rewrite <- HF, length_fmap. destruct heads; [done|cbn; lia]. }
  unfold total_weight. fold (zsum hd_credit heads). rewrite <- Hsum.
  rewrite i64_wrap_exact by (unfold i64_min in *; lia). lia.
Qed.

(** The deficits after a turn of a policy whose numbers stay far from the width. *)
Lemma turn_ok jobs tokens p (D K : Z) :
  policy_valid (fp_config p) = true → tracked jobs p → fp_runnable p ≠ [] →
  (Z.of_N tokens ≤ K)%Z → (1 ≤ K)%Z →
  let F := remove_dups (pe_flow <$> fp_runnable p) in
  (∀ f, f ∈ F → (Z.abs (deficit (fp_deficits p) f) ≤ D)%Z) →
  (D + (1 + K) * (max_credit (fp_config p) * Z.of_nat (length F)) + 8 * max_credit (fp_config p) ≤ i64_max)%Z →
  ∃ f p' (c : FlowKey → Z) cost,
    turn jobs tokens 0 p = Some (f, p') ∧ f ∈ F
    ∧ fp_runnable p' ≡ₚ fp_runnable p ∧ fp_config p' = fp_config p ∧ tracked jobs p'
    ∧ (∀ g, g ∈ F → (1 ≤ c g ≤ max_credit (fp_config p))%Z)
    ∧ (zsum c F ≤ cost ≤ K * (max_credit (fp_config p) * Z.of_nat (length F)))%Z
    ∧ (∀ g, g ∈ F → deficit (fp_deficits p') g =
         (Z.min (deficit (fp_deficits p) g + c g) (8 * c g) - pay f cost g)%Z)
    ∧ (∀ g, g ∈ F → (Z.min (deficit (fp_deficits p) g + c g) (8 * c g)
         ≤ Z.min (deficit (fp_deficits p) f + c f) (8 * c f))%Z).
Proof.
  intros Hv Htr Hne Htok HK F HD Hwidth. unfold turn.
  pose proof (select_ok (λ _, true) 0 p) as Hsel.
  destruct (select (λ _, true) 0 p) as [[sel|] p1].
  2:{ destruct Hsel as [_ Hall]. destruct (fp_runnable p) as [|e l]; [done|].
      by specialize (Hall e ltac:(left)). }
  destruct Hsel as (heads & h & Hok & Hh & (e & He & Hid & Hflow) & Hscale & _ & Hrun & Hdef & Hcfg
    & _ & Hmax).
  pose proof (heads_flows _ _ _ Hok (λ _, eq_refl)) as HF. fold F in HF.
  assert (0 < length F) as Hlen.
  { rewrite <- HF, length_fmap. destruct heads; [by apply not_elem_of_nil in Hh|cbn; lia]. }
  assert (hd_flow h ∈ F) as HhF by (rewrite <- HF; by apply list_elem_of_fmap_2).
  pose proof (HD _ HhF) as HD0. set (n := Z.of_nat (length F)) in *.
  pose proof (weight_bounds p Batch Hv) as Hmc. set (mc := max_credit (fp_config p)) in *.
  assert (0 ≤ mc * n)%Z as Hmn by (apply Z.mul_nonneg_nonneg; lia).
  assert (mc * n ≤ (1 + K) * (mc * n))%Z as Hn by nia.
  destruct (total_weight_sum p _ heads F Hv Hok HF) as [HT HTb];
    [intros ->; by apply not_elem_of_nil in Hh|fold n; lia|].
  fold n in HTb.
  assert (e ∈ fp_runnable p) as Hein by (by eapply list_elem_of_lookup_2).
  rewrite Hid, (Htr e Hein). cbn [mbind option_bind].
  set (T := zsum (credit_of heads) F) in *.
  set (cost := (Z.max (Z.of_N tokens) 1 * T)%Z).
  assert (∀ g, g ∈ F → (1 ≤ credit_of heads g ≤ max_credit (fp_config p))%Z) as Hc.
  { intros g Hg. rewrite <- HF in Hg. by eapply credit_bounds. }
  assert (∀ g, g ∈ F → deficit (fp_deficits p1) g =
    Z.min (deficit (fp_deficits p) g + credit_of heads g) (8 * credit_of heads g)) as Hrefill.
  { intros g Hg. pose proof (HD g Hg). pose proof (Hc g Hg). rewrite <- HF in Hg.
    apply list_elem_of_fmap in Hg as (h' & -> & Hh'). rewrite Hdef.
    rewrite refill_head by (done || apply Hok). unfold refilled.
    rewrite credit_of_head in * by (done || apply Hok).
    unfold i64_saturating_add, i64_saturating_mul.
    rewrite !clamp_exact by (unfold i64_min, i64_max in *; lia). lia. }
  exists (hd_flow h). rewrite Hflow. eexists _, (credit_of heads), cost.
  split; [reflexivity|]. split; [done|].
  assert (0 ≤ cost ≤ K * (max_credit (fp_config p) * Z.of_nat (length F)))%Z as Hcost
    by (unfold cost in *; nia).
  split; [|split; [exact Hcfg|split; [|split; [exact Hc|split; [unfold cost in *; nia|split]]]]].
  - cbn. rewrite Hrun. destruct e as [i f r a]. cbn in *. subst.
    rewrite (delete_Permutation (fp_runnable p) _ _ He) at 2. symmetry. apply Permutation_cons_append.
  - intros e' He'. cbn in He'. rewrite Hrun in He'. apply elem_of_app in He' as [He'|He'].
    + apply Htr. by eapply list_elem_of_delete_inv.
    + apply list_elem_of_singleton in He' as ->. cbn. rewrite (Htr e Hein). f_equal.
      destruct e; cbn in *; congruence.
  - intros g Hg. cbn [enqueue with_runnable charge with_deficits fp_deficits].
    unfold deficit at 1. rewrite lookup_insert. unfold pay.
    destruct (decide (hd_flow h = g)) as [<-|Hne'].
    + rewrite decide_True by done. cbn [default]. rewrite Hrefill by done.
      pose proof (HD _ HhF). pose proof (Hc _ HhF). rewrite Hscale, HT.
      rewrite (i64_wrap_exact (Z.of_N (N.max tokens 1))) by (unfold i64_min in *; nia).
      unfold i64_saturating_mul.
      replace (Z.of_N (N.max tokens 1)) with (Z.max (Z.of_N tokens) 1) by lia. fold cost.
      rewrite (clamp_exact cost) by (unfold i64_min, i64_max in *; lia).
      apply i64_wrap_exact. unfold i64_min, i64_max in *. lia.
    + rewrite decide_False by congruence. fold (deficit (fp_deficits p1) g).
      rewrite Hrefill by done. lia.
  - intros g Hg. rewrite <- !Hrefill by done. rewrite <- HF in Hg.
    apply list_elem_of_fmap in Hg as (h' & -> & Hh'). by apply Hmax.
Qed.

(** ** No flow starves *)

Definition flows p : list FlowKey := remove_dups (pe_flow <$> fp_runnable p).

Lemma flows_perm p p' : fp_runnable p' ≡ₚ fp_runnable p → flows p' ≡ₚ flows p.
Proof.
  intros Hp. apply NoDup_Permutation; [apply NoDup_remove_dups..|]. intros g.
  unfold flows. by rewrite !elem_of_remove_dups, Hp.
Qed.

Section starvation.
Context (jobs : gmap N PolicyEntry) (f : FlowKey) (others : list FlowKey) (D K W : Z).
Hypothesis D_pos : (0 ≤ D)%Z.
Hypothesis K_pos : (1 ≤ K)%Z.

Let n : Z := Z.of_nat (S (length others)).
Let L : Z := (D + K * (W * n))%Z.
Let U : Z := (D + 8 * W + K * (W * n))%Z.
Hypothesis width : (U + (1 + K) * (W * n) + 8 * W ≤ i64_max)%Z.

(** The state of the wait: [f] has kept its credit, nobody is far in debt and
    the others hold at most [B] together. *)
Record waiting p (B : Z) : Prop := {
  wt_valid : policy_valid (fp_config p) = true;
  wt_credit : max_credit (fp_config p) = W;
  wt_tracked : tracked jobs p;
  wt_flows : flows p ≡ₚ f :: others;
  wt_own : (- D ≤ deficit (fp_deficits p) f)%Z;
  wt_bounds : ∀ g, g ∈ f :: others → (- L ≤ deficit (fp_deficits p) g ≤ U)%Z;
  wt_others : (zsum (deficit (fp_deficits p)) others ≤ B)%Z;
}.

Lemma waiting_turn p B t :
  waiting p B → (Z.of_N t ≤ K)%Z →
  ∃ g p', turn jobs t 0 p = Some (g, p') ∧ (g = f ∨ waiting p' (B - 1)).
Proof.
  intros [Hv HW Htr HF Hown Hb Hsum] Ht.
  assert (fp_runnable p ≠ []) as Hne.
  { intros Hnil. unfold flows in HF. rewrite Hnil in HF. cbn in HF.
    by apply Permutation_nil_cons in HF. }
  pose proof (turn_ok jobs t p U K Hv Htr Hne Ht K_pos) as Hturn. cbv zeta in Hturn.
  fold (flows p) in Hturn.
  assert (length (flows p) = S (length others)) as Hlen by (rewrite HF; done).
  rewrite Hlen, HW in Hturn. fold n in Hturn.
  pose proof (weight_bounds p Batch Hv) as HW1. rewrite HW in HW1.
  assert (0 ≤ K * (W * n))%Z as Hkn by (apply Z.mul_nonneg_nonneg; [lia|apply Z.mul_nonneg_nonneg; lia]).
  destruct Hturn as (g & p' & c & cost & Hrun & Hg & Hperm & Hcfg & Htr' & Hc & Hcost & Hd & Hbest).
  { intros x Hx. rewrite HF in Hx. pose proof (Hb x Hx). unfold L, U in *. lia. }
  { exact width. }
  exists g, p'. split; [exact Hrun|]. destruct (decide (g = f)) as [|Hgf]; [by left|right].
  assert (f ∈ flows p) as Hf by (rewrite HF; left).
  assert (∀ x, x ∈ f :: others → x ∈ flows p) as Hin by (intros x; by rewrite HF).
  assert (base.NoDup (f :: others)) as Hnd by (rewrite <- HF; apply NoDup_remove_dups).
  apply list.NoDup_cons in Hnd as [Hfo Hndo].
  assert (g ∈ others) as Hgo.
  { rewrite HF in Hg. apply elem_of_cons in Hg as [?|?]; [done|done]. }
  pose proof (Hbest f Hf) as Hbf. pose proof (Hc f Hf) as Hcf.
  assert (0 ≤ zsum c (flows p))%Z as Hpos.
  { rewrite <- (Z.mul_0_l (Z.of_nat (length (flows p)))), <- zsum_const. apply zsum_le.
    intros x Hx. specialize (Hc x Hx). lia. }
  split; [by rewrite Hcfg|by rewrite Hcfg|done|by rewrite (flows_perm _ _ Hperm)|..].
  - rewrite Hd by done. unfold pay. rewrite decide_False by done. lia.
  - intros x Hx. rewrite Hd by (by apply Hin). pose proof (Hb x Hx). pose proof (Hc x (Hin x Hx)).
    clear Hd Hc Hsum Hb width. unfold L, U. set (Q := (K * (W * n))%Z) in *.
    unfold pay. destruct (decide (x = g)) as [->|]; lia.
  - rewrite (zsum_ext _ (λ x, Z.min (deficit (fp_deficits p) x + c x) (8 * c x)
                             + - pay g cost x)%Z) by (intros x Hx; rewrite Hd; [lia|apply Hin; by right]).
    rewrite zsum_plus.
    assert (zsum (λ x, - pay g cost x)%Z others = - cost)%Z as ->.
    { rewrite (zsum_ext _ (pay g (- cost)%Z)) by (intros x _; unfold pay; by case_decide).
      rewrite zsum_pay by done. by rewrite decide_True. }
    assert (zsum (λ x, Z.min (deficit (fp_deficits p) x + c x) (8 * c x))%Z others
            ≤ zsum (deficit (fp_deficits p)) others + zsum c others)%Z as Hle.
    { rewrite <- zsum_plus. apply zsum_le. intros x _. lia. }
    rewrite (zsum_perm c _ _ HF), zsum_cons in Hcost. lia.
Qed.

Lemma waiting_served tokens p B :
  waiting p B → Forall (λ t, (Z.of_N t ≤ K)%Z) tokens →
  (B + L * Z.of_nat (length others) < Z.of_nat (length tokens))%Z →
  f ∈ served jobs tokens p.
Proof.
  revert p B. induction tokens as [|t tokens IH]; intros p B Hw Hall Hlen.
  - exfalso. pose proof (wt_others _ _ Hw) as Hsum.
    assert (zsum (λ _, - L)%Z others ≤ zsum (deficit (fp_deficits p)) others)%Z as Hlow.
    { apply zsum_le. intros x Hx. apply (wt_bounds _ _ Hw). by right. }
    rewrite zsum_const in Hlow. cbn in Hlen. lia.
  - inversion Hall as [|? ? Ht Hall']; subst.
    destruct (waiting_turn p B t Hw Ht) as (g & p' & Hrun & Hcase). cbn [served]. rewrite Hrun.
    destruct Hcase as [->|Hw']; [left|right]. eapply IH; [exact Hw'|done|].
    cbn [length] in Hlen. lia.
Qed.

End starvation.

(** ** Properties *)

(** The fair queue is work-conserving and fair within a flow. [select]
    returns nothing only when no queued entry is available; otherwise it takes
    exactly one entry out of the queue, an available one with no earlier
    available entry of its flow, whose flow has a largest deficit among all
    available entries, and the round advances. *)
Theorem fair_select_spec available now p :
  match select available now p with
  | (None, p') => p' = p ∧ ∀ e, e ∈ fp_runnable p → available (pe_id e) = false
  | (Some sel, p') => ∃ i e,
      fp_runnable p !! i = Some e ∧ sel_id sel = pe_id e ∧ available (pe_id e) = true
      ∧ fp_runnable p' = delete i (fp_runnable p)
      ∧ (∀ j e', j < i → fp_runnable p !! j = Some e' → pe_flow e' = pe_flow e →
           available (pe_id e') = false)
      ∧ (∀ e', e' ∈ fp_runnable p → available (pe_id e') = true →
           (deficit (fp_deficits p') (pe_flow e') ≤ deficit (fp_deficits p') (pe_flow e))%Z)
      ∧ fp_config p' = fp_config p ∧ fp_round p' = saturating_add (fp_round p) 1
  end.
Proof.
  pose proof (select_ok available now p) as Hsel.
  destruct (select available now p) as [[sel|] p']; [|done].
  destruct Hsel as (heads & h & Hok & Hh & (e & He & Hid & Hf) & _ & _ & Hrun & _ & Hcfg & Hrd & Hmax).
  destruct (ho_head _ _ _ _ Hok h Hh) as (e' & He' & _ & Ha & _ & _ & Hfirst).
  rewrite He in He'. injection He' as <-.
  exists (hd_index h), e. do 4 (split; [done|]). split; [by rewrite Hf|]. split; [|done].
  intros e' Hin Hav. pose proof (ho_complete _ _ _ _ Hok e' Hin Hav) as Hflow.
  apply list_elem_of_fmap in Hflow as (h' & -> & Hh'). rewrite Hf. by apply Hmax.
Qed.

(** C32: no flow starves. With a valid policy and jobs that always have more work,
    a flow with a queued job is served within a bounded number of turns: with
    [n] flows, quanta of at most [K] charged tokens, largest credit [W] and
    deficits within [D], [(n - 1) * (2 D + K W n)] turns cannot all pass it
    over, whatever the quanta are (while the deficits stay within [i64]). *)
Theorem fair_queue_no_starvation jobs p f tokens (D K : Z) :
  policy_valid (fp_config p) = true → tracked jobs p →
  f ∈ pe_flow <$> fp_runnable p → (1 ≤ K)%Z →
  (∀ g, g ∈ flows p → (Z.abs (deficit (fp_deficits p) g) ≤ D)%Z) →
  Forall (λ t, (Z.of_N t ≤ K)%Z) tokens →
  let n := Z.of_nat (length (flows p)) in
  let W := max_credit (fp_config p) in
  (D + 16 * W + (1 + 2 * K) * (W * n) ≤ i64_max)%Z →
  ((n - 1) * (2 * D + K * (W * n)) < Z.of_nat (length tokens))%Z →
  f ∈ served jobs tokens p.
Proof.
  intros Hv Htr Hf HK HD Hall n W Hwidth Hlen.
  assert (f ∈ flows p) as Hfl by (unfold flows; by apply elem_of_remove_dups).
  destruct (elem_of_Permutation (flows p) f) as [Hperm _].
  destruct (Hperm Hfl) as [others Ho].
  assert (n = Z.of_nat (S (length others))) as Hn by (unfold n; by rewrite Ho).
  pose proof (HD f Hfl) as HDf. pose proof (weight_bounds p Batch Hv) as HW. fold W in HW.
  assert (0 ≤ K * (W * n))%Z as Hkn by (apply Z.mul_nonneg_nonneg; [lia|apply Z.mul_nonneg_nonneg; lia]).
  apply (waiting_served jobs f others D K W) with (B := (D * Z.of_nat (length others))%Z).
  - lia.
  - done.
  - rewrite <- Hn. lia.
  - split; [done|done|done|done|lia|..].
    + intros g Hg. rewrite <- Ho in Hg. pose proof (HD g Hg). rewrite <- Hn. lia.
    + rewrite <- (zsum_const D others). apply zsum_le. intros g Hg.
      assert (g ∈ flows p) as Hgf by (rewrite Ho; by right). pose proof (HD g Hgf). lia.
  - done.
  - rewrite <- Hn. rewrite Hn in Hlen at 1. nia.
Qed.

Definition promoted (c : SchedulingClass) : SchedulingClass :=
  match c with Batch => Standard | _ => Interactive end.

(** Age promotion. An entry keeps its class for [promotion_rounds] rounds,
    then moves one class up, and after twice as many is interactive, whatever
    class it was submitted with. *)
Theorem aging_promotion p e :
  promotion_rounds (fp_config p) ≠ 0%N →
  let waited := saturating_sub (fp_round p) (pe_admitted_round e) in
  let r := promotion_rounds (fp_config p) in
  effective_class p e =
    if (waited <? r)%N then (class (pe_flow e), 0%N)
    else if (waited <? 2 * r)%N then (promoted (class (pe_flow e)), 1%N)
    else (Interactive, 2%N).
Proof.
  intros Hr waited r. unfold effective_class. fold waited r.
  destruct (N.ltb_spec waited r) as [Hlt|Hge].
  { rewrite N.div_small by done. cbn. by destruct (class (pe_flow e)). }
  destruct (N.ltb_spec waited (2 * r)) as [Hlt2|Hge2].
  - assert (waited / r = 1)%N as -> by (symmetry; apply (N.div_unique _ _ _ (waited - r)); lia).
    cbn. by destruct (class (pe_flow e)).
  - assert (2 ≤ waited / r)%N as Hdiv by (apply N.div_le_lower_bound; lia).
    rewrite N.min_r by done. by destruct (class (pe_flow e)).
Qed.

Module TwoFlows.
Definition urgent : PolicyEntry := mkPolicyEntry 1 (mkFlowKey "a" Interactive) 0 0.
Definition background : PolicyEntry := mkPolicyEntry 2 (mkFlowKey "b" Batch) 0 0.
Definition jobs : gmap N PolicyEntry := <[1%N := urgent]> (<[2%N := background]> ∅).
Definition policy : FairPolicy :=
  enqueue 2 (mkFlowKey "b" Batch) 0 0 (enqueue 1 (mkFlowKey "a" Interactive) 0 0
    (new_policy default_policy)).

(** With unit quanta the batch flow is first served on the third turn. *)
Example first_turns :
  served jobs [1; 1; 1; 1; 1; 1]%N policy =
    [mkFlowKey "a" Interactive; mkFlowKey "a" Interactive; mkFlowKey "b" Batch;
     mkFlowKey "a" Interactive; mkFlowKey "a" Interactive; mkFlowKey "a" Interactive].
Proof. vm_compute. reflexivity. Qed.
End TwoFlows.

Lemma fair_queue_no_starvation_witness :
  mkFlowKey "b" Batch ∈ served TwoFlows.jobs (replicate 257 32%N) TwoFlows.policy.
Proof.
  apply (fair_queue_no_starvation TwoFlows.jobs TwoFlows.policy (mkFlowKey "b" Batch)
           (replicate 257 32%N) 0 32).
  - reflexivity.
  - intros e He. apply elem_of_cons in He as [->|He]; [reflexivity|].
    apply list_elem_of_singleton in He as ->. reflexivity.
  - right. left.
  - lia.
  - intros g _. vm_compute. discriminate.
  - apply Forall_replicate. lia.
  - vm_compute. discriminate.
  - vm_compute. reflexivity.
Defined.

Lemma aging_promotion_witness :
  effective_class (mkFairPolicy default_policy [] ∅ 130 0) TwoFlows.background = (Interactive, 2%N).
Proof.
  rewrite (aging_promotion (mkFairPolicy default_policy [] ∅ 130 0) TwoFlows.background).
  - reflexivity.
  - discriminate.
Defined.
