(* ===== verification/Engine.v ===== *)
(** The vocabulary of the inference engine ([crates/server/src/lib.rs]): the
    server's errors and their codes and statuses, the request control with its
    compare-and-exchange transitions, the quanta a session reports, the session
    interface and the default [generate] loop over it.

    [RequestControl] is shared between threads: every atomic operation and every
    lock of the abort callback is one definition here, so that the interleaving
    of the threads that use them can be stated (EngineLaws). *)

From stdpp Require Import gmap strings list numbers.
From S2P Require Import Prelude.

(** ** Errors *)

Module ServerError.

Inductive Error : Type :=
| Unauthorized
| Forbidden
| ModelNotFound (id : string)
| ContextNotFound
| Deadline
| Cancelled
| Busy
| ShuttingDown
| PayloadTooLarge
| HeadersTooLarge
| BodyTimeout
| BadRequest (message : string)
| Conflict (message : string)
| UnsafeListener (address : string)
| State (message : string).

#[global] Instance Error_eq_dec : EqDecision Error.
Proof. solve_decision. Defined.

Definition code (e : Error) : string :=
  match e with
  | Unauthorized => "unauthorized"
  | Forbidden => "forbidden"
  | ModelNotFound _ => "model_not_found"
  | ContextNotFound => "context_not_found"
  | Deadline => "deadline_exceeded"
  | Cancelled => "cancelled"
  | Busy => "queue_overloaded"
  | ShuttingDown => "server_shutting_down"
  | PayloadTooLarge => "payload_too_large"
  | HeadersTooLarge => "headers_too_large"
  | BodyTimeout => "body_timeout"
  | BadRequest _ => "invalid_request"
  | Conflict _ => "lineage_conflict"
  | UnsafeListener _ => "unsafe_listener"
  | State _ => "state_error"
  end.

(** The status line and the [Retry-After] header of the response. *)
Definition into_response (e : Error) : N * option string :=
  let status :=
    match e with
    | Unauthorized => 401
    | Forbidden => 403
    | ModelNotFound _ | ContextNotFound => 404
    | Deadline | BodyTimeout => 408
    | Cancelled | BadRequest _ => 400
    | Conflict _ => 409
    | Busy => 429
    | ShuttingDown => 503
    | PayloadTooLarge => 413
    | HeadersTooLarge => 431
    | UnsafeListener _ | State _ => 500
    end%N in
  (status, match e with Busy => Some "1" | _ => None end).

End ServerError.

(** ** Request control *)

Module Control.

Inductive ControlState : Type := RUNNING | CANCELLED | DEADLINE | COMPLETE.

#[global] Instance ControlState_eq_dec : EqDecision ControlState.
Proof. solve_decision. Defined.

(** A callback is known by a number; [rc_fired] is the trace of the callbacks
    that were invoked, the effect of [abort()]. *)
Record RequestControl : Type := mkControl {
  rc_state : ControlState;
  rc_abort : option N;
  rc_fired : list N;
}.

Definition new : RequestControl := mkControl RUNNING None [].

Definition check (c : RequestControl) : result ServerError.Error unit :=
  match rc_state c with
  | RUNNING => Ok tt
  | DEADLINE => Err ServerError.Deadline
  | _ => Err ServerError.Cancelled
  end.

(** [compare_exchange(CONTROL_RUNNING, target, ..)]: whether it succeeded. *)
Definition compare_exchange (target : ControlState) (c : RequestControl) : bool * RequestControl :=
  match rc_state c with
  | RUNNING => (true, mkControl target (rc_abort c) (rc_fired c))
  | _ => (false, c)
  end.

(** One call of a callback. *)
Definition fire (callback : N) (c : RequestControl) : RequestControl :=
  mkControl (rc_state c) (rc_abort c) (rc_fired c ++ [callback]).

Definition abort (c : RequestControl) : RequestControl :=
  match rc_abort c with
  | Some callback => fire callback c
  | None => c
  end.

Definition cancel (c : RequestControl) : RequestControl :=
  let '(won, c') := compare_exchange CANCELLED c in
  if won then abort c' else c'.

Definition expire (c : RequestControl) : RequestControl :=
  let '(won, c') := compare_exchange DEADLINE c in
  if won then abort c' else c'.

Definition complete (c : RequestControl) : RequestControl := (compare_exchange COMPLETE c).2.

Definition is_complete (c : RequestControl) : bool := bool_decide (rc_state c = COMPLETE).

(** The store that opens [register_abort]. *)
Definition store_abort (callback : N) (c : RequestControl) : RequestControl :=
  mkControl (rc_state c) (Some callback) (rc_fired c).

Definition register_abort (callback : N) (c : RequestControl) : RequestControl :=
  let c' := store_abort callback c in
  match check c' with
  | Ok _ => c'
  | Err _ => fire callback c'
  end.

(** Dropping the [AbortRegistration]. *)
Definition drop_registration (c : RequestControl) : RequestControl :=
  mkControl (rc_state c) None (rc_fired c).

End Control.

(** ** Quanta and sessions *)

Inductive QuantumKind : Type := Preparation | Prefill | Decode | Publication.

#[export] Instance QuantumKind_eq_dec : EqDecision QuantumKind.
Proof. solve_decision. Defined.

Record QuantumObservation : Type := mkObservation {
  qo_kind : QuantumKind;
  qo_charged_tokens : N;
  qo_context_placement : string;
  qo_executor_slot_occupied : bool;
  qo_transition_cost_bytes : N;
  qo_capacity_reserved_bytes : N;
}.

Definition model_free (kind : QuantumKind) (charged_tokens : N) : QuantumObservation :=
  mkObservation kind charged_tokens "model_free" false 0 0.

Record PrefillMetrics : Type := mkPrefill {
  pf_total_tokens : N;
  pf_cached_tokens : N;
  pf_uncached_tokens : N;
  pf_tokenization_ns : N;
  pf_prefix_lookup_ns : N;
  pf_mapping_activation_ns : N;
  pf_uncached_prefill_ns : N;
  pf_total_ns : N;
  pf_transfer_bytes : N;
  pf_device_bytes : N;
  pf_host_bytes : N;
}.

Definition default_prefill : PrefillMetrics := mkPrefill 0 0 0 0 0 0 0 0 0 0 0.

Record EngineOutput : Type := mkOutput {
  eo_successor_tokens : list Z;
  eo_input_tokens : N;
  eo_cached_tokens : N;
  eo_evaluated_tokens : N;
  eo_prefill : PrefillMetrics;
}.

Definition default_output : EngineOutput := mkOutput [] 0 0 0 default_prefill.

(** A token identifier is an [i32]; a piece is a list of bytes. *)
Inductive SessionStep : Type :=
| Progress (observation : QuantumObservation)
| Token (id : Z) (piece : list N) (terminal_or_control : bool) (observation : QuantumObservation)
| Finished (output : EngineOutput).

Inductive FrontierControl : Type := Continue | Stop.

#[export] Instance FrontierControl_eq_dec : EqDecision FrontierControl.
Proof. solve_decision. Defined.

(** The trait [ExecutionSession]. A method may read the request's control, which
    other threads change: its current value is an argument. *)
Class ExecutionSession (S : Type) := {
  session_step : Control.RequestControl → S → result ServerError.Error SessionStep * S;
  session_finish : Control.RequestControl → S → result ServerError.Error EngineOutput * S;
}.

(** [InferenceEngine::generate] after [start_session]: the loop over the quanta.
    [views] gives the control each call of the session reads, one per call;
    [None] is a run cut off before it ended. The sink is a state transformer. *)
Section generate.
Context `{ExecutionSession T} {K : Type}.
Variable sink : Z → list N → bool → K → result ServerError.Error FrontierControl * K.

Fixpoint generate (views : list Control.RequestControl) (s : T) (k : K)
  : option (result ServerError.Error EngineOutput * K) :=
  match views with
  | [] => None
  | view :: views' =>
      match session_step view s with
      | (Err e, _) => Some (Err e, k)
      | (Ok (Progress _), s') => generate views' s' k
      | (Ok (Token id piece terminal_or_control _), s') =>
          match sink id piece terminal_or_control k with
          | (Err e, k') => Some (Err e, k')
          | (Ok Stop, k') =>
              match views' with
              | [] => None
              | view' :: _ => Some ((session_finish view' s').1, k')
              end
          | (Ok Continue, k') => generate views' s' k'
          end
      | (Ok (Finished output), _) => Some (Ok output, k)
      end
  end.
End generate.
