(* ===== verification/Diagnostics.v ===== *)
(** The scheduler's diagnostics ([SchedulerDiagnostics] of
    [crates/server/src/scheduler.rs]): a bounded line channel to a sink thread,
    and the loss counters of the lines that did not fit.

    The channel is a list with a capacity; the sink thread takes lines from its
    front. JSON serialization is a parameter. Only the scheduler thread emits;
    the sink may take lines before each [try_send], which the [drain] arguments
    say. *)

From stdpp Require Import gmap strings list numbers.
From S2P Require Import Prelude Engine FairPolicy.

(** ** Records *)

Inductive PrioritySource : Type := AdapterDefault | ControlledWorkload.

Record SchedulerDecision : Type := mkDecision {
  sd_transport_correlation_id : string;
  sd_inference_operation_id : string;
  sd_execution_session_id : string;
  sd_principal : string;
  sd_class : SchedulingClass;
  sd_priority_source : PrioritySource;
  sd_model_id : string;
  sd_model_epoch : N;
  sd_queue_age_ms : N;
  sd_queue_age_rounds : N;
  sd_age_promotions : N;
  sd_quantum_kind : QuantumKind;
  sd_charged_tokens : N;
  sd_quantum_duration_ns : N;
  sd_context_placement : string;
  sd_executor_slot_occupied : bool;
  sd_transition_cost_bytes : N;
  sd_capacity_reserved_bytes : N;
  sd_cancelled : bool;
  sd_deadline_expired : bool;
  sd_reason : string;
}.

Record DiagnosticLossSummary : Type := mkLossSummary {
  ls_total : N;
  ls_by_kind : gmap string N;
}.

Inductive DiagnosticRecord : Type :=
| DecisionRecord (d : SchedulerDecision)
| LossRecord (s : DiagnosticLossSummary).

Record DiagnosticLoss : Type := mkLoss {
  dl_pending_total : N;
  dl_pending_by_kind : gmap string N;
  dl_all_by_kind : gmap string N;
}.

Definition default_loss : DiagnosticLoss := mkLoss 0 ∅ ∅.

(** [dg_queue] is the content of the channel and [dg_lines] the lines the sink got. *)
Record SchedulerDiagnostics : Type := mkDiagnostics {
  dg_capacity : N;
  dg_queue : list string;
  dg_lines : list string;
  dg_emitted : N;
  dg_delivered : N;
  dg_lost : N;
  dg_loss : DiagnosticLoss;
}.

Definition with_sink (capacity : N) : SchedulerDiagnostics :=
  mkDiagnostics capacity [] [] 0 0 0 default_loss.

Definition with_loss (f : DiagnosticLoss → DiagnosticLoss) (d : SchedulerDiagnostics) :=
  mkDiagnostics (dg_capacity d) (dg_queue d) (dg_lines d) (dg_emitted d) (dg_delivered d)
    (dg_lost d) (f (dg_loss d)).

(** One turn of the sink thread. *)
Definition sink_one (d : SchedulerDiagnostics) : SchedulerDiagnostics :=
  match dg_queue d with
  | [] => d
  | line :: rest =>
      mkDiagnostics (dg_capacity d) rest (dg_lines d ++ [line]) (dg_emitted d)
        (wrapping_add (dg_delivered d) 1) (dg_lost d) (dg_loss d)
  end.

Definition drain (n : nat) (d : SchedulerDiagnostics) : SchedulerDiagnostics :=
  Nat.iter n sink_one d.

(** [sender.try_send(line)]. *)
Definition try_send (line : string) (d : SchedulerDiagnostics) : bool * SchedulerDiagnostics :=
  if (N.of_nat (length (dg_queue d)) <? dg_capacity d)%N
  then (true, mkDiagnostics (dg_capacity d) (dg_queue d ++ [line]) (dg_lines d) (dg_emitted d)
                (dg_delivered d) (dg_lost d) (dg_loss d))
  else (false, d).

Definition count_emitted (d : SchedulerDiagnostics) : SchedulerDiagnostics :=
  mkDiagnostics (dg_capacity d) (dg_queue d) (dg_lines d) (wrapping_add (dg_emitted d) 1)
    (dg_delivered d) (dg_lost d) (dg_loss d).

(** [*map.entry(kind).or_default() += 1]. *)
Definition bump (kind : string) (m : gmap string N) : gmap string N :=
  <[kind := wrapping_add (default 0%N (m !! kind)) 1]> m.

Definition record_loss (kind : string) (d : SchedulerDiagnostics) : SchedulerDiagnostics :=
  mkDiagnostics (dg_capacity d) (dg_queue d) (dg_lines d) (dg_emitted d) (dg_delivered d)
    (wrapping_add (dg_lost d) 1)
    (mkLoss (saturating_add (dl_pending_total (dg_loss d)) 1)
            (bump kind (dl_pending_by_kind (dg_loss d)))
            (bump kind (dl_all_by_kind (dg_loss d)))).

Definition loss_by_kind (d : SchedulerDiagnostics) : gmap string N := dl_all_by_kind (dg_loss d).

Section emit.
Variable to_string : DiagnosticRecord → option string.

Definition flush_loss_summary (d : SchedulerDiagnostics) : SchedulerDiagnostics :=
  if (dl_pending_total (dg_loss d) =? 0)%N then d
  else
    match to_string (LossRecord (mkLossSummary (dl_pending_total (dg_loss d))
                                   (dl_pending_by_kind (dg_loss d)))) with
    | None => d
    | Some line =>
        match try_send line d with
        | (true, d') =>
            with_loss (λ l, mkLoss 0 ∅ (dl_all_by_kind l)) (count_emitted d')
        | (false, d') => d'
        end
    end.

(** [drain1] and [drain2] are how many lines the sink takes before each send. *)
Definition emit (drain1 drain2 : nat) (kind : string) (record : DiagnosticRecord)
    (d : SchedulerDiagnostics) : SchedulerDiagnostics :=
  match to_string record with
  | None => record_loss "serialization_error" d
  | Some line =>
      match try_send line (drain drain2 (flush_loss_summary (drain drain1 d))) with
      | (true, d') => count_emitted d'
      | (false, d') => record_loss kind d'
      end
  end.
End emit.

(** [flush_diagnostics] polls this until it holds or its timeout passes. *)
Definition flushed (target : N) (d : SchedulerDiagnostics) : bool :=
  negb (dg_delivered d <? target)%N.
