(* ===== verification/Scheduler.v ===== *)
(** The workload scheduler of [crates/server/src/scheduler.rs].

    [World] is what the scheduler thread owns (jobs, slots, policy, the
    [shutting_down] flag) together with what it shares: the response channel of
    every session, the counters, the request controls, the task queues of the
    slot workers. The handlers of [run_scheduler] are definitions of the state
    monad over it; an [expect] of the code is an [expect] here, so "no panic" is
    a statement. What the environment decides (the clock, fresh identifiers,
    whether a thread can be spawned, how far the diagnostic sink got) is the
    argument [Env].

    Only the fields of a request that the scheduler reads or sets are modelled;
    the session is a type parameter. Channels are named by the session that
    opened them. *)

From stdpp Require Import gmap strings list numbers.
From S2P Require Import Prelude Engine FairPolicy Diagnostics.

(** ** Data *)

Record ModelSlotKey : Type := mkSlotKey { model_id : string; model_epoch : N }.

#[export] Instance ModelSlotKey_eq_dec : EqDecision ModelSlotKey.
Proof. solve_decision. Defined.

#[export] Instance ModelSlotKey_countable : Countable ModelSlotKey.
Proof.
  refine (inj_countable' (λ k, (model_id k, model_epoch k)) (λ '(i, e), mkSlotKey i e) _).
  by intros [].
Defined.

Record SchedulingMetadata : Type := mkMetadata {
  sm_class : SchedulingClass;
  sm_source : PrioritySource;
  sm_principal : string;
  sm_correlation_id : string;
  sm_inference_id : string;
}.

Record EngineRequest : Type := mkRequest {
  rq_model : ModelSlotKey;
  rq_prompt : string;
  rq_max_tokens : N;
  rq_prior_tokens : list Z;
  rq_grammar : option string;
  rq_control : N;
  rq_scheduling : SchedulingMetadata;
  rq_prefill_chunk_tokens : N;
}.

Inductive ClientMessage : Type :=
| MToken (id : Z) (piece : list N) (terminal_or_control : bool)
| MFinished (output : EngineOutput)
| MFailed (e : ServerError.Error).

(** An [mpsc] channel: everything sent, how much of it was received, and whether
    the receiver still exists. *)
Record Channel : Type := mkChannel {
  ch_sent : list ClientMessage;
  ch_read : nat;
  ch_open : bool;
}.

Record SchedulerCounters : Type := mkCounters {
  sc_admitted : N;
  sc_completed : N;
  sc_cancelled : N;
  sc_deadlines : N;
  sc_failed : N;
  sc_rounds : N;
  sc_runnable : N;
  sc_waiting : N;
}.

Definition default_counters : SchedulerCounters := mkCounters 0 0 0 0 0 0 0 0.

Record Env : Type := mkEnv {
  env_now : N;
  env_uuid : string;
  env_spawns : bool;
  env_drain1 : nat;
  env_drain2 : nat;
}.

Inductive Command : Type :=
| Submit (id : N) (request : EngineRequest) (response : N)
| ContinueJob (id : N)
| StopJob (id : N)
| CancelJob (id : N)
| Shutdown.

Inductive SlotAction (Session : Type) : Type :=
| Start (request : EngineRequest)
| Step (session : Session)
| Finish (session : Session).

Arguments Start {Session} request.
Arguments Step {Session} session.
Arguments Finish {Session} session.

Record SlotTask (Session : Type) : Type := mkTask {
  tk_id : N;
  tk_action : SlotAction Session;
  tk_selection : option Selection;
}.

Arguments mkTask {Session}.
Arguments tk_id {Session}.
Arguments tk_action {Session}.
Arguments tk_selection {Session}.

Record SlotCompletion (Session : Type) : Type := mkCompletion {
  sp_id : N;
  sp_result : result ServerError.Error SessionStep;
  sp_session : option Session;
  sp_selection : option Selection;
  sp_quantum_duration_ns : N;
}.

Arguments mkCompletion {Session}.
Arguments sp_id {Session}.
Arguments sp_result {Session}.
Arguments sp_session {Session}.
Arguments sp_selection {Session}.
Arguments sp_quantum_duration_ns {Session}.

Inductive SchedulerEvent (Session : Type) : Type :=
| ClientEvent (c : Command)
| SlotCompleted (c : SlotCompletion Session).

Arguments ClientEvent {Session} c.
Arguments SlotCompleted {Session} c.

(** [sw_queue]: the tasks sent and not completed, the first one being executed.
    The task [Shutdown], always sent together with the removal of the worker, is
    part of [retire_slot_if_idle] and [shutdown_slots]. *)
Record SlotWorker (Session : Type) : Type := mkWorker {
  sw_queue : list (SlotTask Session);
  sw_alive : bool;
  sw_busy : bool;
}.

Arguments mkWorker {Session}.
Arguments sw_queue {Session}.
Arguments sw_alive {Session}.
Arguments sw_busy {Session}.

Record Job (Session : Type) : Type := mkJob {
  jb_request : option EngineRequest;
  jb_session : option Session;
  jb_control : N;
  jb_response : N;
  jb_flow : FlowKey;
  jb_scheduling : SchedulingMetadata;
  jb_slot : ModelSlotKey;
  jb_execution_session_id : string;
  jb_admitted_round : N;
  jb_admitted_at : N;
  jb_in_flight : bool;
  jb_cancel_requested : bool;
}.

Arguments mkJob {Session}.
Arguments jb_request {Session}.
Arguments jb_session {Session}.
Arguments jb_control {Session}.
Arguments jb_response {Session}.
Arguments jb_flow {Session}.
Arguments jb_scheduling {Session}.
Arguments jb_slot {Session}.
Arguments jb_execution_session_id {Session}.
Arguments jb_admitted_round {Session}.
Arguments jb_admitted_at {Session}.
Arguments jb_in_flight {Session}.
Arguments jb_cancel_requested {Session}.

(** [w_orphans]: the tasks that were still queued at a worker when it was told
    to shut down and joined. *)
Record World (Session : Type) : Type := mkWorld {
  w_jobs : gmap N (Job Session);
  w_slots : gmap ModelSlotKey (SlotWorker Session);
  w_orphans : list (SlotTask Session);
  w_policy : FairPolicy;
  w_shutting_down : bool;
  w_counters : SchedulerCounters;
  w_channels : gmap N Channel;
  w_controls : gmap N Control.RequestControl;
  w_diagnostics : SchedulerDiagnostics;
}.

Arguments mkWorld {Session}.
Arguments w_jobs {Session}.
Arguments w_slots {Session}.
Arguments w_orphans {Session}.
Arguments w_policy {Session}.
Arguments w_shutting_down {Session}.
Arguments w_counters {Session}.
Arguments w_channels {Session}.
Arguments w_controls {Session}.
Arguments w_diagnostics {Session}.

Section scheduler.
Context {Session : Type}.
Variable to_string : DiagnosticRecord → option string.

Abbreviation World := (World Session).
Abbreviation Job := (Job Session).
Abbreviation SlotWorker := (SlotWorker Session).
Abbreviation SlotTask := (SlotTask Session).

(** Handlers return nothing and have no error; they may panic. *)
Abbreviation W := (M World Empty_set).

(** ** Primitive updates *)

Definition with_jobs (f : gmap N Job → gmap N Job) (w : World) : World :=
  mkWorld (f (w_jobs w)) (w_slots w) (w_orphans w) (w_policy w) (w_shutting_down w)
    (w_counters w) (w_channels w) (w_controls w) (w_diagnostics w).

Definition with_slots (f : gmap ModelSlotKey SlotWorker → gmap ModelSlotKey SlotWorker)
    (w : World) : World :=
  mkWorld (w_jobs w) (f (w_slots w)) (w_orphans w) (w_policy w) (w_shutting_down w)
    (w_counters w) (w_channels w) (w_controls w) (w_diagnostics w).

Definition with_orphans (f : list SlotTask → list SlotTask) (w : World) : World :=
  mkWorld (w_jobs w) (w_slots w) (f (w_orphans w)) (w_policy w) (w_shutting_down w)
    (w_counters w) (w_channels w) (w_controls w) (w_diagnostics w).

Definition with_policy (f : FairPolicy → FairPolicy) (w : World) : World :=
  mkWorld (w_jobs w) (w_slots w) (w_orphans w) (f (w_policy w)) (w_shutting_down w)
    (w_counters w) (w_channels w) (w_controls w) (w_diagnostics w).

Definition with_shutting_down (b : bool) (w : World) : World :=
  mkWorld (w_jobs w) (w_slots w) (w_orphans w) (w_policy w) b
    (w_counters w) (w_channels w) (w_controls w) (w_diagnostics w).

Definition with_counters (f : SchedulerCounters → SchedulerCounters) (w : World) : World :=
  mkWorld (w_jobs w) (w_slots w) (w_orphans w) (w_policy w) (w_shutting_down w)
    (f (w_counters w)) (w_channels w) (w_controls w) (w_diagnostics w).

Definition with_channels (f : gmap N Channel → gmap N Channel) (w : World) : World :=
  mkWorld (w_jobs w) (w_slots w) (w_orphans w) (w_policy w) (w_shutting_down w)
    (w_counters w) (f (w_channels w)) (w_controls w) (w_diagnostics w).

Definition with_controls (f : gmap N Control.RequestControl → gmap N Control.RequestControl)
    (w : World) : World :=
  mkWorld (w_jobs w) (w_slots w) (w_orphans w) (w_policy w) (w_shutting_down w)
    (w_counters w) (w_channels w) (f (w_controls w)) (w_diagnostics w).

Definition with_diagnostics (f : SchedulerDiagnostics → SchedulerDiagnostics) (w : World) : World :=
  mkWorld (w_jobs w) (w_slots w) (w_orphans w) (w_policy w) (w_shutting_down w)
    (w_counters w) (w_channels w) (w_controls w) (f (w_diagnostics w)).

(** ** Field updates *)

Definition take_request (j : Job) : Job :=
  mkJob None (jb_session j) (jb_control j) (jb_response j) (jb_flow j) (jb_scheduling j)
    (jb_slot j) (jb_execution_session_id j) (jb_admitted_round j) (jb_admitted_at j)
    (jb_in_flight j) (jb_cancel_requested j).

Definition set_session (s : option Session) (j : Job) : Job :=
  mkJob (jb_request j) s (jb_control j) (jb_response j) (jb_flow j) (jb_scheduling j)
    (jb_slot j) (jb_execution_session_id j) (jb_admitted_round j) (jb_admitted_at j)
    (jb_in_flight j) (jb_cancel_requested j).

Definition set_in_flight (b : bool) (j : Job) : Job :=
  mkJob (jb_request j) (jb_session j) (jb_control j) (jb_response j) (jb_flow j) (jb_scheduling j)
    (jb_slot j) (jb_execution_session_id j) (jb_admitted_round j) (jb_admitted_at j)
    b (jb_cancel_requested j).

Definition request_cancel (j : Job) : Job :=
  mkJob (jb_request j) (jb_session j) (jb_control j) (jb_response j) (jb_flow j) (jb_scheduling j)
    (jb_slot j) (jb_execution_session_id j) (jb_admitted_round j) (jb_admitted_at j)
    (jb_in_flight j) true.

Definition update_job (id : N) (f : Job → Job) : W unit := modify (with_jobs (alter f id)).

Definition set_busy (b : bool) (s : SlotWorker) : SlotWorker :=
  mkWorker (sw_queue s) (sw_alive s) b.

Definition push_task (t : SlotTask) (s : SlotWorker) : SlotWorker :=
  mkWorker (sw_queue s ++ [t]) (sw_alive s) (sw_busy s).

Definition count_admitted (c : SchedulerCounters) : SchedulerCounters :=
  mkCounters (wrapping_add (sc_admitted c) 1) (sc_completed c) (sc_cancelled c) (sc_deadlines c)
    (sc_failed c) (sc_rounds c) (sc_runnable c) (sc_waiting c).

(** The counter [send_terminal] increments. *)
Definition count_terminal (r : result ServerError.Error EngineOutput) (c : SchedulerCounters)
  : SchedulerCounters :=
  match r with
  | Ok _ => mkCounters (sc_admitted c) (wrapping_add (sc_completed c) 1) (sc_cancelled c)
              (sc_deadlines c) (sc_failed c) (sc_rounds c) (sc_runnable c) (sc_waiting c)
  | Err ServerError.Cancelled =>
      mkCounters (sc_admitted c) (sc_completed c) (wrapping_add (sc_cancelled c) 1)
        (sc_deadlines c) (sc_failed c) (sc_rounds c) (sc_runnable c) (sc_waiting c)
  | Err ServerError.Deadline =>
      mkCounters (sc_admitted c) (sc_completed c) (sc_cancelled c)
        (wrapping_add (sc_deadlines c) 1) (sc_failed c) (sc_rounds c) (sc_runnable c) (sc_waiting c)
  | Err _ =>
      mkCounters (sc_admitted c) (sc_completed c) (sc_cancelled c) (sc_deadlines c)
        (wrapping_add (sc_failed c) 1) (sc_rounds c) (sc_runnable c) (sc_waiting c)
  end.

Definition store_runnable (n : N) (c : SchedulerCounters) : SchedulerCounters :=
  mkCounters (sc_admitted c) (sc_completed c) (sc_cancelled c) (sc_deadlines c) (sc_failed c)
    (sc_rounds c) n (sc_waiting c).

(** [waiting.fetch_add(1)] and [waiting.fetch_sub(1)]: both wrap. *)
Definition waiting_add (c : SchedulerCounters) : SchedulerCounters :=
  mkCounters (sc_admitted c) (sc_completed c) (sc_cancelled c) (sc_deadlines c) (sc_failed c)
    (sc_rounds c) (sc_runnable c) (wrapping_add (sc_waiting c) 1).

Definition waiting_sub (c : SchedulerCounters) : SchedulerCounters :=
  mkCounters (sc_admitted c) (sc_completed c) (sc_cancelled c) (sc_deadlines c) (sc_failed c)
    (sc_rounds c) (sc_runnable c) (wrapping_add (sc_waiting c) usize_max).

(** [response.send(message)]: fails when the receiver is gone. *)
Definition send_on (message : ClientMessage) (c : Channel) : Channel :=
  mkChannel (ch_sent c ++ [message]) (ch_read c) (ch_open c).

Definition send_message (response : N) (message : ClientMessage) : W bool :=
  w ← get;
  match w_channels w !! response with
  | Some c =>
      if ch_open c
      then _ ← modify (with_channels (alter (send_on message) response)); mret true
      else mret false
  | None => mret false
  end.

Definition cancel_control (control : N) : W unit :=
  modify (with_controls (alter Control.cancel control)).

(** ** The handlers *)

Definition send_terminal (job : Job) (r : result ServerError.Error EngineOutput) : W unit :=
  _ ← send_message (jb_response job)
        match r with Ok output => MFinished output | Err e => MFailed e end;
  modify (with_counters (count_terminal r)).

(** The state error of a worker that is gone. *)
Definition worker_stopped : ServerError.Error := ServerError.State "model slot worker stopped".

(** [ensure_slot]; spawning may fail with the operating system's error. *)
Definition ensure_slot (env : Env) (key : ModelSlotKey) : W (result ServerError.Error unit) :=
  w ← get;
  match w_slots w !! key with
  | Some _ => mret (Ok tt)
  | None =>
      if env_spawns env
      then _ ← modify (with_slots (insert key (mkWorker [] true false))); mret (Ok tt)
      else mret (Err (ServerError.State "spawn failed"))
  end.

(** [slot.sender.send(task)]. *)
Definition send_task (key : ModelSlotKey) (t : SlotTask) : W (result ServerError.Error unit) :=
  w ← get;
  slot ← expect (w_slots w !! key);
  if sw_alive slot
  then _ ← modify (with_slots (alter (push_task t) key)); mret (Ok tt)
  else mret (Err worker_stopped).

(** [ensure_slot(..).and_then(|slot| { slot.busy = true; slot.sender.send(..) })]. *)
Definition start_task (env : Env) (key : ModelSlotKey) (t : SlotTask)
  : W (result ServerError.Error unit) :=
  r ← ensure_slot env key;
  match r with
  | Err e => mret (Err e)
  | Ok _ =>
      _ ← modify (with_slots (alter (set_busy true) key));
      send_task key t
  end.

(** The closure [dispatch_one] passes to [select]. *)
Definition available (w : World) (id : N) : bool :=
  match w_jobs w !! id with
  | Some job =>
      negb (jb_in_flight job)
      && negb (match w_slots w !! jb_slot job with Some slot => sw_busy slot | None => false end)
  | None => false
  end.

Definition dispatch_one (env : Env) : W bool :=
  w ← get;
  let '(selection, policy) := select (available w) (env_now env) (w_policy w) in
  _ ← modify (with_policy (λ _, policy));
  match selection with
  | None => mret false
  | Some selection =>
      let id := sel_id selection in
      job ← expect (w_jobs w !! id);
      action ←
        match jb_request job with
        | Some request => _ ← update_job id take_request; mret (Start request)
        | None =>
            session ← expect (jb_session job);
            _ ← update_job id (set_session None);
            mret (Step session)
        end;
      _ ← update_job id (set_in_flight true);
      sent ← start_task env (jb_slot job) (mkTask id action (Some selection));
      match sent with
      | Ok _ => mret true
      | Err error =>
          w ← get;
          job ← expect (w_jobs w !! id);
          _ ← modify (with_jobs (delete id));
          _ ← send_terminal job (Err error);
          mret true
      end
  end.

Definition clear_flow (flow : FlowKey) : W unit :=
  w ← get;
  modify (with_policy
    (clear_if_idle flow (existsb (λ j, bool_decide (jb_flow j = flow)) (map_values (w_jobs w))))).

Definition submit_job (env : Env) (request : EngineRequest) (response : N) (admitted_round : N)
  : Job :=
  mkJob (Some request) None (rq_control request) response
    (mkFlowKey (sm_principal (rq_scheduling request)) (sm_class (rq_scheduling request)))
    (rq_scheduling request) (rq_model request) (env_uuid env) admitted_round (env_now env)
    false false.

Definition handle_command (env : Env) (command : Command) : W unit :=
  match command with
  | Submit id request response =>
      w ← get;
      let job := submit_job env request response (fp_round (w_policy w)) in
      _ ← modify (with_jobs (insert id job));
      _ ← modify (with_counters count_admitted);
      modify (with_policy (enqueue id (jb_flow job) (jb_admitted_round job) (jb_admitted_at job)))
  | ContinueJob id =>
      w ← get;
      match w_jobs w !! id with
      | Some job =>
          _ ← modify (with_policy
                (enqueue id (jb_flow job) (jb_admitted_round job) (jb_admitted_at job)));
          modify (with_counters waiting_sub)
      | None => mret tt
      end
  | StopJob id =>
      _ ← modify (with_counters waiting_sub);
      _ ← modify (with_policy (λ p, (remove id p).2));
      w ← get;
      match w_jobs w !! id with
      | None => mret tt
      | Some job =>
          match jb_session job with
          | None =>
              _ ← cancel_control (jb_control job);
              update_job id request_cancel
          | Some session =>
              _ ← update_job id (set_session None);
              _ ← update_job id (set_in_flight true);
              sent ← start_task env (jb_slot job) (mkTask id (Finish session) None);
              match sent with
              | Ok _ => mret tt
              | Err error =>
                  w ← get;
                  job ← expect (w_jobs w !! id);
                  _ ← modify (with_jobs (delete id));
                  send_terminal job (Err error)
              end
          end
      end
  | CancelJob id =>
      w ← get;
      let was_runnable := (remove id (w_policy w)).1 in
      _ ← modify (with_policy (λ p, (remove id p).2));
      match w_jobs w !! id with
      | None => mret tt
      | Some job =>
          _ ← cancel_control (jb_control job);
          if jb_in_flight job then update_job id request_cancel
          else
            w ← get;
            job ← expect (w_jobs w !! id);
            _ ← modify (with_jobs (delete id));
            _ ← (if bool_decide (is_Some (jb_session job)) && negb was_runnable
                 then modify (with_counters waiting_sub) else mret tt);
            _ ← send_terminal job (Err ServerError.Cancelled);
            clear_flow (jb_flow job)
      end
  | Shutdown => panic
  end.

Definition retire_slot_if_idle (key : ModelSlotKey) : W unit :=
  w ← get;
  if existsb (λ j, bool_decide (jb_slot j = key)) (map_values (w_jobs w)) then mret tt
  else
    match w_slots w !! key with
    | None => mret tt
    | Some slot =>
        _ ← modify (with_slots (delete key));
        modify (with_orphans (λ l, l ++ sw_queue slot))
    end.

Definition is_err_with (e : ServerError.Error) (t : option (result ServerError.Error EngineOutput))
  : bool :=
  match t with
  | Some (Err e') => bool_decide (e' = e)
  | _ => false
  end.

Definition decision (job : Job) (selection : Selection) (observation : QuantumObservation)
    (duration : N) (terminal : option (result ServerError.Error EngineOutput)) : SchedulerDecision :=
  {| sd_transport_correlation_id := sm_correlation_id (jb_scheduling job);
     sd_inference_operation_id := sm_inference_id (jb_scheduling job);
     sd_execution_session_id := jb_execution_session_id job;
     sd_principal := sm_principal (jb_scheduling job);
     sd_class := sm_class (jb_scheduling job);
     sd_priority_source := sm_source (jb_scheduling job);
     sd_model_id := model_id (jb_slot job);
     sd_model_epoch := model_epoch (jb_slot job);
     sd_queue_age_ms := sel_queue_age_ms selection;
     sd_queue_age_rounds := sel_queue_age_rounds selection;
     sd_age_promotions := sel_promotions selection;
     sd_quantum_kind := qo_kind observation;
     sd_charged_tokens := qo_charged_tokens observation;
     sd_quantum_duration_ns := duration;
     sd_context_placement := qo_context_placement observation;
     sd_executor_slot_occupied := qo_executor_slot_occupied observation;
     sd_transition_cost_bytes := qo_transition_cost_bytes observation;
     sd_capacity_reserved_bytes := qo_capacity_reserved_bytes observation;
     sd_cancelled := is_err_with ServerError.Cancelled terminal;
     sd_deadline_expired := is_err_with ServerError.Deadline terminal;
     sd_reason := if (0 <? sel_promotions selection)%N then "age_promoted" else "class_ready" |}.

Definition settlement : Type :=
  QuantumObservation * option (result ServerError.Error EngineOutput) * bool.

(** What the result of a quantum means for the job: the observation, the
    terminal result if there is one, and whether the job now waits for its
    consumer. A token is sent on the way. *)
Definition settle (job : Job) (r : result ServerError.Error SessionStep)
  : W settlement :=
  match r with
  | Ok (Progress observation) => mret (observation, None, false)
  | Ok (Token id piece terminal_or_control observation) =>
      sent ← (if jb_cancel_requested job then mret false
              else send_message (jb_response job) (MToken id piece terminal_or_control));
      if (sent : bool)
      then _ ← modify (with_counters waiting_add); mret (observation, None, true)
      else mret (observation, Some (Err ServerError.Cancelled), false)
  | Ok (Finished output) =>
      mret (model_free Publication 1,
            Some (if jb_cancel_requested job then Err ServerError.Cancelled else Ok output), false)
  | Err error =>
      mret (model_free Preparation 1,
            Some (Err (if jb_cancel_requested job then ServerError.Cancelled else error)), false)
  end.

Definition charge_quantum (env : Env) (job : Job) (selection : option Selection)
    (observation : QuantumObservation) (duration : N)
    (terminal : option (result ServerError.Error EngineOutput)) : W unit :=
  match selection with
  | None => mret tt
  | Some selection =>
      _ ← modify (with_policy
            (charge (jb_flow job) (qo_charged_tokens observation) (sel_charge_scale selection)));
      modify (with_diagnostics
        (emit to_string (env_drain1 env) (env_drain2 env) "scheduler_decision"
           (DecisionRecord (decision job selection observation duration terminal))))
  end.

Definition handle_completion (env : Env) (completion : SlotCompletion Session) : W unit :=
  w ← get;
  match w_jobs w !! sp_id completion with
  | None => mret tt
  | Some job =>
      _ ← modify (with_slots (alter (set_busy false) (jb_slot job)));
      _ ← update_job (sp_id completion) (set_in_flight false);
      _ ← update_job (sp_id completion) (set_session (sp_session completion));
      settled ← settle job (sp_result completion);
      let '(observation, terminal, wait_for_consumer) := (settled : settlement) in
      let terminal :=
        match terminal with
        | None => if jb_cancel_requested job then Some (Err ServerError.Cancelled) else None
        | Some t => Some t
        end in
      _ ← charge_quantum env job (sp_selection completion) observation
            (sp_quantum_duration_ns completion) terminal;
      match terminal with
      | Some r =>
          w ← get;
          job ← expect (w_jobs w !! sp_id completion);
          _ ← modify (with_jobs (delete (sp_id completion)));
          _ ← send_terminal job r;
          _ ← clear_flow (jb_flow job);
          retire_slot_if_idle (jb_slot job)
      | None =>
          if wait_for_consumer then mret tt
          else modify (with_policy
                 (enqueue (sp_id completion) (jb_flow job) (jb_admitted_round job)
                    (jb_admitted_at job)))
      end
  end.

(** ** Shutdown *)

Definition cancel_job (job : Job) : W unit :=
  _ ← cancel_control (jb_control job);
  _ ← send_message (jb_response job) (MFailed ServerError.Cancelled);
  mret tt.

Definition cancel_all_jobs : W unit :=
  w ← get;
  _ ← modify (with_jobs (λ _, ∅));
  for_each cancel_job (map_values (w_jobs w)).

Definition shutdown_slots : W unit :=
  w ← get;
  _ ← modify (with_slots (λ _, ∅));
  modify (with_orphans (λ l, l ++ concat (map sw_queue (map_values (w_slots w))))).

Definition doom_job (entry : N * Job) : W unit :=
  _ ← cancel_control (jb_control entry.2);
  update_job entry.1 request_cancel.

Definition begin_shutdown : W unit :=
  w ← get;
  _ ← modify (with_shutting_down true);
  _ ← modify (with_policy (with_runnable []));
  for_each doom_job (map_to_list (w_jobs w)).

(** ** The loop of [run_scheduler] *)

(** [while dispatch_one(..) {}], cut off after [fuel] calls: [false] if it was. *)
Fixpoint dispatch_all (env : Env) (fuel : nat) : W bool :=
  match fuel with
  | O => mret false
  | S fuel =>
      more ← dispatch_one env;
      if (more : bool) then dispatch_all env fuel else mret true
  end.

(** What follows the dispatch loop: [true] if the thread returns. *)
Definition settle_round : W bool :=
  w ← get;
  _ ← modify (with_counters (store_runnable (N.of_nat (length (fp_runnable (w_policy w))))));
  if w_shutting_down w && forallb (λ slot, negb (sw_busy slot)) (map_values (w_slots w))
  then _ ← cancel_all_jobs; _ ← shutdown_slots; mret true
  else mret false.

(** The [match] on the received event. *)
Definition handle_event (env : Env) (event : SchedulerEvent Session) : W unit :=
  match event with
  | ClientEvent Shutdown => begin_shutdown
  | ClientEvent command =>
      w ← get;
      if negb (w_shutting_down w) then handle_command env command
      else
        match command with
        | Submit _ _ response =>
            _ ← send_message response (MFailed ServerError.ShuttingDown); mret tt
        | _ => mret tt
        end
  | SlotCompleted completion => handle_completion env completion
  end.

End scheduler.
