(* ===== verification/SchedulerLaws.v ===== *)
(** What each handler of the workload scheduler does to its world: a job moves
    between the queue, a slot and the hands of its consumer, one message at most
    is sent, and nothing else changes. *)

From stdpp Require Import gmap strings list numbers.
From S2P Require Import Prelude Engine FairPolicy FairPolicyLaws Diagnostics Scheduler.

Lemma alter_twice `{Countable K} {A} (f g : A → A) (k : K) (m : gmap K A) x :
  m !! k = Some x → alter g k (alter f k m) = <[k := g (f x)]> m.
Proof.
  intros Hk. rewrite (alter_insert_id f m k x) by done.
  rewrite (alter_insert_id g _ k (f x)) by apply lookup_insert_eq. apply insert_insert_eq.
Qed.

Section laws.
Context {Session : Type}.
Variable to_string : DiagnosticRecord → option string.

Abbreviation World := (World Session).
Abbreviation Job := (Job Session).
Abbreviation SlotWorker := (SlotWorker Session).

Implicit Types (w : World) (j : Job) (id i : N) (k : ModelSlotKey).

(** ** Views of the world *)

(** How often a session is queued, and how many tasks of it the slots hold. *)
Definition queued w i : N := occ i (pe_id <$> fp_runnable (w_policy w)).

Definition tasks_of i (slots : gmap ModelSlotKey SlotWorker) : N :=
  map_sum (λ sl, occ i (tk_id <$> sw_queue sl)) slots.

Definition outstanding w i : N := tasks_of i (w_slots w).

Definition send_open (m : ClientMessage) (c : Channel) : Channel :=
  if ch_open c then send_on m c else c.

Definition terminal_message (r : result ServerError.Error EngineOutput) : ClientMessage :=
  match r with Ok output => MFinished output | Err e => MFailed e end.

(** Slot workers are alive, hold only tasks of jobs of their model, and are busy
    only on behalf of a job in flight. *)
Record slot_ok (jobs : gmap N Job) k (sl : SlotWorker) : Prop := {
  so_alive : sw_alive sl = true;
  so_tasks : ∀ t, t ∈ sw_queue sl → ∃ j, jobs !! tk_id t = Some j ∧ jb_slot j = k;
  so_busy : sw_busy sl = true →
    ∃ i j, jobs !! i = Some j ∧ jb_slot j = k ∧ jb_in_flight j = true;
}.

Definition slots_ok w : Prop := ∀ k sl, w_slots w !! k = Some sl → slot_ok (w_jobs w) k sl.

(** The change a handler makes for one session: its job, its place in the queue
    and at the slots, and at most one message on its channel. *)
Record delta id w w' (j' : option Job) (dq do : N) (msg : option ClientMessage) : Prop := {
  de_jobs : w_jobs w' = partial_alter (λ _, j') id (w_jobs w);
  de_queued : ∀ i, queued w' i = if decide (i = id) then dq else queued w i;
  de_outstanding : ∀ i, outstanding w' i = if decide (i = id) then do else outstanding w i;
  de_channels : w_channels w' =
    match msg with
    | Some m => alter (send_open m) id (w_channels w)
    | None => w_channels w
    end;
  de_orphans : w_orphans w' = w_orphans w;
  de_shutting : w_shutting_down w' = w_shutting_down w;
  de_config : fp_config (w_policy w') = fp_config (w_policy w);
  de_length : (N.of_nat (length (fp_runnable (w_policy w'))) + queued w id
               = N.of_nat (length (fp_runnable (w_policy w))) + dq)%N;
  de_slots : slots_ok w';
}.

(** ** Primitives *)

Lemma delete_job_eq id (m : gmap N Job) : delete id m = partial_alter (λ _, None) id m.
Proof. done. Qed.

Lemma insert_job_eq id j (m : gmap N Job) : <[id := j]> m = partial_alter (λ _, Some j) id m.
Proof. done. Qed.

Lemma alter_job_eq id (f : Job → Job) (m : gmap N Job) j :
  m !! id = Some j → alter f id m = partial_alter (λ _, Some (f j)) id m.
Proof. intros Hj. by rewrite (alter_insert_id f m id j). Qed.

Lemma send_message_spec (r : N) m w (Q : bool → World → Prop) R :
  Q (match w_channels w !! r with Some c => ch_open c | None => false end)
    (with_channels (alter (send_open m) r) w) →
  wp (send_message r m) Q R w.
Proof.
  intros HQ. unfold send_message. wp_run.
  assert (∀ f, alter f r (w_channels w) = w_channels w → with_channels (alter f r) w = w) as Hid.
  { intros f Hf. unfold with_channels. rewrite Hf. by destruct w. }
  destruct (w_channels w !! r) as [c|] eqn:Hc.
  - destruct (ch_open c) eqn:Ho; wp_run.
    + replace (with_channels (alter (send_on m) r) w) with (with_channels (alter (send_open m) r) w); [done|].
      unfold with_channels. f_equal. rewrite !(alter_insert_id _ _ r c) by done.
      unfold send_open. by rewrite Ho.
    + rewrite Hid in HQ; [done|]. rewrite (alter_insert_id _ _ r c) by done.
      unfold send_open. rewrite Ho. by apply insert_id.
  - wp_run. rewrite Hid in HQ; [done|]. apply map_eq. intros x. rewrite lookup_alter.
    destruct (decide (r = x)) as [<-|]; [by rewrite Hc|done].
Qed.

Lemma send_terminal_spec j r w (Q : unit → World → Prop) R :
  Q tt (with_counters (count_terminal r)
          (with_channels (alter (send_open (terminal_message r)) (jb_response j)) w)) →
  wp (send_terminal j r) Q R w.
Proof.
  intros HQ. unfold send_terminal. wp_run. apply send_message_spec. wp_run.
  fold (terminal_message r). exact HQ.
Qed.

(** Starting a task makes the worker busy with one more task, or fails to spawn
    and changes nothing. *)
Definition started k (t : SlotTask Session) (m m' : gmap ModelSlotKey SlotWorker) : Prop :=
  ∃ sl, (m !! k = Some sl ∨ m !! k = None ∧ sl = mkWorker [] true false)
    ∧ m' = <[k := mkWorker (sw_queue sl ++ [t]) true true]> m.

Lemma start_task_spec env k t w (Q : result ServerError.Error unit → World → Prop) R :
  (∀ sl, w_slots w !! k = Some sl → sw_alive sl = true) →
  (∀ m', started k t (w_slots w) m' → Q (Ok tt) (with_slots (λ _, m') w)) →
  (∀ e, Q (Err e) w) →
  wp (start_task env k t) Q R w.
Proof.
  intros Halive Hok Herr. unfold start_task, ensure_slot. wp_run.
  destruct (w_slots w !! k) as [sl|] eqn:Hk; wp_run; unfold send_task; wp_run; cbn.
  - rewrite lookup_alter_eq, Hk. cbn. wp_run. cbn. rewrite (Halive sl eq_refl). wp_run.
    replace (with_slots _ _) with
      (with_slots (λ _, <[k := mkWorker (sw_queue sl ++ [t]) true true]> (w_slots w)) w).
    + apply Hok. exists sl. split; [by left|done].
    + unfold with_slots. cbn. f_equal. rewrite (alter_twice _ _ k _ sl) by done.
      unfold push_task, set_busy. cbn. by rewrite (Halive sl eq_refl).
  - destruct (env_spawns env); wp_run; [|apply Herr]. unfold send_task. wp_run. cbn.
    rewrite lookup_alter_eq, lookup_insert_eq. cbn. wp_run. cbn.
    replace (with_slots _ _) with
      (with_slots (λ _, <[k := mkWorker ([] ++ [t]) true true]> (w_slots w)) w).
    + apply Hok. eexists. split; [right; split; [done|reflexivity]|done].
    + unfold with_slots. cbn. f_equal.
      rewrite (alter_twice _ _ k _ (mkWorker [] true false)) by apply lookup_insert_eq.
      by rewrite insert_insert_eq.
Qed.

(** ** Slots and tasks *)

Lemma tasks_started i k t m m' :
  started k t m m' → tasks_of i m' = (tasks_of i m + if decide (i = tk_id t) then 1 else 0)%N.
Proof.
  intros (sl & Hsl & ->). unfold tasks_of.
  assert (occ i (tk_id <$> sw_queue sl ++ [t]) =
          (occ i (tk_id <$> sw_queue sl) + if decide (i = tk_id t) then 1 else 0)%N) as Hocc.
  { rewrite fmap_app, occ_app. f_equal. cbn [fmap list_fmap]. rewrite occ_cons, occ_nil. lia. }
  destruct Hsl as [Hk|[Hk ->]].
  - pose proof (map_sum_insert_Some (λ sl, occ i (tk_id <$> sw_queue sl)) m k
      (mkWorker (sw_queue sl ++ [t]) true true) sl Hk) as Hs. cbn beta iota in Hs.
    cbn [sw_queue] in Hs. rewrite Hocc in Hs. lia.
  - rewrite map_sum_insert_None by done. cbn [sw_queue app fmap list_fmap].
    rewrite occ_cons, occ_nil. lia.
Qed.

Lemma tasks_elem k sl (m : gmap ModelSlotKey SlotWorker) t :
  m !! k = Some sl → t ∈ sw_queue sl → (0 < tasks_of (tk_id t) m)%N.
Proof.
  intros Hk Ht. pose proof (map_sum_le (λ sl, occ (tk_id t) (tk_id <$> sw_queue sl)) m k sl Hk) as Hle.
  assert (0 < occ (tk_id t) (tk_id <$> sw_queue sl))%N as Hpos by (by apply occ_elem, list_elem_of_fmap_2).
  unfold tasks_of. cbn beta in Hle. lia.
Qed.

Lemma slot_ok_update (jobs : gmap N Job) id j j' k sl :
  jobs !! id = Some j → jb_slot j' = jb_slot j → (jb_in_flight j = true → jb_in_flight j' = true) →
  slot_ok jobs k sl → slot_ok (<[id := j']> jobs) k sl.
Proof.
  intros Hj Hslot Hfl [Ha Ht Hb]. split; [done|..].
  - intros t Hin. destruct (Ht t Hin) as (j0 & Hj0 & Hk). destruct (decide (tk_id t = id)) as [Heq|Hne].
    + exists j'. rewrite Heq in *. rewrite lookup_insert_eq. split; [done|]. congruence.
    + exists j0. by rewrite lookup_insert_ne.
  - intros Hbusy. destruct (Hb Hbusy) as (i & j0 & Hj0 & Hk & Hf). exists i.
    destruct (decide (i = id)) as [->|Hne].
    + exists j'. rewrite lookup_insert_eq. split; [done|]. split; [congruence|]. apply Hfl. congruence.
    + exists j0. by rewrite lookup_insert_ne.
Qed.

Lemma slot_ok_insert_new (jobs : gmap N Job) id j k sl :
  jobs !! id = None → slot_ok jobs k sl → slot_ok (<[id := j]> jobs) k sl.
Proof.
  intros Hn [Ha Ht Hb]. split; [done|..].
  - intros t Hin. destruct (Ht t Hin) as (j0 & Hj0 & Hk). exists j0.
    rewrite lookup_insert_ne; [done|congruence].
  - intros Hbusy. destruct (Hb Hbusy) as (i & j0 & Hj0 & Hk). exists i, j0.
    rewrite lookup_insert_ne; [done|congruence].
Qed.

Lemma slot_ok_delete (jobs : gmap N Job) id j k sl :
  jobs !! id = Some j → jb_in_flight j = false → id ∉ tk_id <$> sw_queue sl →
  slot_ok jobs k sl → slot_ok (delete id jobs) k sl.
Proof.
  intros Hj Hfl Hq [Ha Ht Hb]. split; [done|..].
  - intros t Hin. destruct (Ht t Hin) as (j0 & Hj0 & Hk). exists j0.
    rewrite lookup_delete_ne; [done|]. intros ->. apply Hq. by apply list_elem_of_fmap_2.
  - intros Hbusy. destruct (Hb Hbusy) as (i & j0 & Hj0 & Hk & Hf). exists i, j0.
    rewrite lookup_delete_ne; [done|]. intros ->. congruence.
Qed.

Lemma slots_ok_delete w id j :
  slots_ok w → w_jobs w !! id = Some j → jb_in_flight j = false → outstanding w id = 0%N →
  ∀ k sl, w_slots w !! k = Some sl → slot_ok (delete id (w_jobs w)) k sl.
Proof.
  intros Hok Hj Hfl Ho k sl Hk. eapply slot_ok_delete; [exact Hj|done| |by apply Hok].
  intros (t & -> & Ht)%list_elem_of_fmap. pose proof (tasks_elem k sl _ t Hk Ht) as Hpos.
  unfold outstanding in Ho. lia.
Qed.

(** A started task, once its job is marked in flight. *)
Lemma slots_ok_started (jobs : gmap N Job) (m m' : gmap ModelSlotKey SlotWorker) id j j' t :
  (∀ k sl, m !! k = Some sl → slot_ok jobs k sl) →
  jobs !! id = Some j → jb_slot j' = jb_slot j → jb_in_flight j' = true → tk_id t = id →
  started (jb_slot j) t m m' →
  ∀ k sl, m' !! k = Some sl → slot_ok (<[id := j']> jobs) k sl.
Proof.
  intros Hok Hj Hslot Hfl Ht (sl0 & Hsl0 & ->) k sl Hk.
  destruct (decide (k = jb_slot j)) as [->|Hne].
  - rewrite lookup_insert_eq in Hk. injection Hk as <-. split; [done|..].
    + intros t' [Ht'| ->%list_elem_of_singleton]%elem_of_app.
      * destruct Hsl0 as [Hsl0|[_ ->]]; [|by apply not_elem_of_nil in Ht'].
        pose proof (slot_ok_update jobs id j j' _ _ Hj Hslot ltac:(done) (Hok _ _ Hsl0)) as [_ Hx _].
        by apply Hx.
      * exists j'. rewrite Ht, lookup_insert_eq. done.
    + intros _. exists id, j'. by rewrite lookup_insert_eq.
  - rewrite lookup_insert_ne in Hk by congruence.
    by apply (slot_ok_update jobs id j j'); [..|apply Hok].
Qed.

(** ** The queue *)

Definition queue_of i (p : FairPolicy) : N := occ i (pe_id <$> fp_runnable p).

Lemma queue_enqueue i id flow r a p :
  queue_of i (enqueue id flow r a p) = (queue_of i p + if decide (i = id) then 1 else 0)%N.
Proof.
  unfold queue_of. cbn [enqueue with_runnable fp_runnable]. rewrite fmap_app, occ_app.
  cbn [fmap list_fmap pe_id]. rewrite occ_cons, occ_nil. lia.
Qed.

Lemma occ_filter_ne i id l :
  occ i (pe_id <$> filter (λ e, pe_id e ≠ id) l)
  = if decide (i = id) then 0%N else occ i (pe_id <$> l).
Proof.
  induction l as [|e l IH]; [by destruct (decide (i = id))|].
  rewrite filter_cons. cbn [fmap list_fmap]. rewrite occ_cons.
  destruct (decide (pe_id e ≠ id)) as [Hne|Heq]; cbn [fmap list_fmap]; rewrite ?occ_cons, IH;
    destruct (decide (i = id)) as [->|Hi]; [|done| |].
  - destruct (decide (id = pe_id e)); [congruence|done].
  - done.
  - destruct (decide (i = pe_id e)) as [Hp|]; [|done]. destruct Heq. congruence.
Qed.

Lemma length_filter_ne id l :
  (N.of_nat (length (filter (λ e, pe_id e ≠ id) l)) + occ id (pe_id <$> l) = N.of_nat (length l))%N.
Proof.
  induction l as [|e l IH]; [done|]. rewrite filter_cons. cbn [fmap list_fmap]. rewrite occ_cons.
  destruct (decide (pe_id e ≠ id)) as [Hne|Heq]; destruct (decide (id = pe_id e)) as [Hd|Hd];
    cbn [length]; [congruence|lia|lia|]. destruct Heq. congruence.
Qed.

Lemma queue_remove i id p :
  queue_of i (remove id p).2 = if decide (i = id) then 0%N else queue_of i p.
Proof. apply occ_filter_ne. Qed.

(** [remove] reports whether the job was queued. *)
Lemma remove_found id p : (remove id p).1 = negb (queue_of id p =? 0)%N.
Proof.
  unfold remove. cbn [fst]. f_equal.
  pose proof (length_filter_ne id (fp_runnable p)) as Hlen. fold (queue_of id p) in Hlen.
  destruct (Nat.eqb_spec (length (filter (λ e, pe_id e ≠ id) (fp_runnable p)))
              (length (fp_runnable p))) as [He|Hne]; symmetry.
  - apply N.eqb_eq. lia.
  - apply N.eqb_neq. intros Hz. apply Hne. lia.
Qed.

Lemma queue_clear i flow b p : fp_runnable (clear_if_idle flow b p) = fp_runnable p
  ∧ fp_config (clear_if_idle flow b p) = fp_config p
  ∧ queue_of i (clear_if_idle flow b p) = queue_of i p.
Proof. unfold clear_if_idle. by destruct (_ && _). Qed.

Lemma queue_delete i n e l :
  l !! n = Some e →
  (occ i (pe_id <$> delete n l) + (if decide (i = pe_id e) then 1 else 0) = occ i (pe_id <$> l))%N.
Proof.
  intros He. rewrite <- (take_drop_middle l n e He) at 2. rewrite delete_take_drop.
  rewrite !fmap_app, !occ_app. cbn [fmap list_fmap]. rewrite occ_cons. lia.
Qed.

(** The selection of the policy takes one available entry out of the queue. *)
Lemma select_queue av now p sel p' :
  select av now p = (Some sel, p') →
  av (sel_id sel) = true
  ∧ (∀ i, (queue_of i p' + (if decide (i = sel_id sel) then 1 else 0) = queue_of i p)%N)
  ∧ S (length (fp_runnable p')) = length (fp_runnable p)
  ∧ fp_config p' = fp_config p.
Proof.
  intros Hs. pose proof (select_ok av now p) as Hok. rewrite Hs in Hok.
  destruct Hok as (heads & h & Hh & Hin & (e & He & Hid & _) & _ & _ & Hrun & _ & Hcfg & _).
  destruct (ho_head _ _ _ _ Hh h Hin) as (e' & He' & _ & Ha & _). rewrite He in He'.
  injection He' as <-. rewrite Hid. split; [done|]. split; [|split; [|done]].
  - intros i. unfold queue_of. rewrite Hrun. by apply queue_delete.
  - rewrite Hrun, length_delete by eauto. pose proof (lookup_lt_Some _ _ _ He). lia.
Qed.

(** ** Dispatch *)

(** What the handlers rely on; the system maintains it. *)
Record world_ok w : Prop := {
  wo_slots : slots_ok w;
  wo_response : ∀ i j, w_jobs w !! i = Some j → jb_response j = i;
  wo_rests : ∀ i j, w_jobs w !! i = Some j → jb_in_flight j = false → outstanding w i = 0%N;
  wo_fresh : ∀ i j, w_jobs w !! i = Some j → is_Some (jb_request j) → jb_session j = None;
  wo_work : ∀ i j, w_jobs w !! i = Some j → jb_in_flight j = false → (0 < queued w i)%N →
    is_Some (jb_request j) ∨ is_Some (jb_session j);
}.

(** The job while a slot works on it. *)
Definition flying j : Job := set_in_flight true (set_session None (take_request j)).

Lemma available_job w i :
  available w i = true → ∃ j, w_jobs w !! i = Some j ∧ jb_in_flight j = false
    ∧ ∀ sl, w_slots w !! jb_slot j = Some sl → sw_busy sl = false.
Proof.
  unfold available. destruct (w_jobs w !! i) as [j|]; [|done].
  intros [Hf Hb]%andb_true_iff. exists j. split; [done|]. split; [by apply negb_true_iff|].
  intros sl Hsl. rewrite Hsl in Hb. by apply negb_true_iff.
Qed.

(** A job is handed to its slot, or dropped with an error if none can be had. *)
Lemma launch_spec env id j t w w0 dq (Q : result ServerError.Error unit → World → Prop) R :
  slots_ok w0 → outstanding w0 id = 0%N →
  w_jobs w0 !! id = Some j → jb_in_flight j = false → jb_response j = id → tk_id t = id →
  w_jobs w = <[id := flying j]> (w_jobs w0) →
  (∀ i, queued w i = if decide (i = id) then dq else queued w0 i) →
  (N.of_nat (length (fp_runnable (w_policy w))) + queued w0 id
     = N.of_nat (length (fp_runnable (w_policy w0))) + dq)%N →
  fp_config (w_policy w) = fp_config (w_policy w0) →
  w_slots w = w_slots w0 → w_channels w = w_channels w0 → w_orphans w = w_orphans w0 →
  w_shutting_down w = w_shutting_down w0 →
  (∀ w', delta id w0 w' (Some (flying j)) dq 1 None → w_counters w' = w_counters w → Q (Ok tt) w') →
  (∀ e w', w' = w →
     (∀ w'', w'' = with_counters (count_terminal (Err e))
              (with_channels (alter (send_open (MFailed e)) id) (with_jobs (delete id) w)) →
        delta id w0 w'' None dq 0 (Some (MFailed e))) → Q (Err e) w') →
  wp (start_task env (jb_slot j) t) Q R w.
Proof.
  intros Hs Ho Hj Hfl Hresp Ht Hjobs Hq Hlen Hcfg Hslots Hch Horph Hshut Hok Herr.
  apply start_task_spec.
  - intros sl Hsl. rewrite Hslots in Hsl. by apply (Hs _ _ Hsl).
  - intros m' Hst. apply Hok; [|done]. rewrite Hslots in Hst. split; cbn; try done.
    + intros i. unfold outstanding. cbn. rewrite (tasks_started _ _ _ _ _ Hst), Ht.
      fold (outstanding w0 i). destruct (decide (i = id)) as [->|]; lia.
    + intros k sl Hk. cbn in Hk |- *. rewrite Hjobs.
      by apply (slots_ok_started (w_jobs w0) (w_slots w0) m' id j (flying j) t).
  - intros e. apply Herr; [done|]. intros w'' ->. split; cbn; try done.
    + rewrite Hjobs, delete_job_eq, insert_job_eq. apply map_eq. intros x.
      rewrite !lookup_partial_alter. by repeat case_decide.
    + intros i. unfold outstanding. cbn. rewrite Hslots. fold (outstanding w0 i).
      by destruct (decide (i = id)) as [->|].
    + by rewrite Hch.
    + intros k sl Hk. cbn in Hk |- *. rewrite Hslots in Hk. rewrite Hjobs, delete_insert_eq.
      by apply (slots_ok_delete w0 id j).
Qed.

Definition dispatched w (more : bool) w' : Prop :=
  if more then
    ∃ id j, w_jobs w !! id = Some j ∧ jb_in_flight j = false ∧ (0 < queued w id)%N ∧
      ((delta id w w' (Some (flying j)) (queued w id - 1) 1 None ∧ w_counters w' = w_counters w)
       ∨ ∃ e, delta id w w' None (queued w id - 1) 0 (Some (MFailed e))
           ∧ w_counters w' = count_terminal (Err e) (w_counters w))
  else w' = w ∧ ∀ e, e ∈ fp_runnable (w_policy w) → available w (pe_id e) = false.

Lemma dispatch_one_spec env w :
  world_ok w → wp (dispatch_one env) (dispatched w) (λ _ _, False) w.
Proof.
  intros [Hs Hresp Hrest Hfresh Hwork]. unfold dispatch_one. wp_run.
  destruct (select (available w) (env_now env) (w_policy w)) as [[sel|] p] eqn:Hsel; wp_run.
  2:{ pose proof (select_ok (available w) (env_now env) (w_policy w)) as Hok. rewrite Hsel in Hok.
      destruct Hok as [-> Hnone]. split; [by destruct w|done]. }
  destruct (select_queue _ _ _ _ _ Hsel) as (Hav & Hq & Hlen & Hcfg).
  destruct (available_job _ _ Hav) as (j & Hj & Hfl & _). set (id := sel_id sel) in *.
  cbn. rewrite Hj.
  assert (0 < queued w id)%N as Hpos.
  { pose proof (Hq id) as Hqi. destruct (decide (id = id)); [|done]. unfold queued.
    fold (queue_of id (w_policy w)). lia. }
  pose proof (Hrest id j Hj Hfl) as Ho.
  assert (∀ i, queue_of i p = if decide (i = id) then (queued w id - 1)%N else queued w i) as Hq'.
  { intros i. pose proof (Hq i) as Hqi. unfold queued. fold (queue_of i (w_policy w)).
    fold (queue_of id (w_policy w)). destruct (decide (i = id)) as [->|]; lia. }
  assert (∀ action w1, w_jobs w1 = <[id := flying j]> (w_jobs w) → w_policy w1 = p →
    w_slots w1 = w_slots w → w_channels w1 = w_channels w → w_orphans w1 = w_orphans w →
    w_shutting_down w1 = w_shutting_down w → w_counters w1 = w_counters w →
    wp (sent ← start_task env (jb_slot j) (mkTask id action (Some sel));
        match sent with
        | Ok _ => mret true
        | Err error =>
            w ← get;
            job ← expect (w_jobs w !! id);
            _ ← modify (with_jobs (delete id));
            _ ← send_terminal job (Err error);
            mret true
        end) (dispatched w) (λ _ _, False) w1) as Hlaunch.
  { intros action w1 Hj1 Hp1 Hs1 Hc1 Ho1 Hsh1 Hcnt1. rewrite wp_bind.
    eapply (launch_spec env id j _ w1 w (queued w id - 1)%N); try done.
    - by apply Hresp.
    - intros i. unfold queued at 1. rewrite Hp1. apply Hq'.
    - rewrite Hp1. lia.
    - by rewrite Hp1.
    - intros w' Hd Hcnt. wp_run. exists id, j. split; [done|]. split; [done|]. split; [done|].
      left. split; [done|congruence].
    - intros e w' -> Hfail. wp_run. cbn. rewrite Hj1, lookup_insert_eq. wp_run.
      apply send_terminal_spec. wp_run. exists id, j. split; [done|]. split; [done|].
      split; [done|]. right. exists e. cbn. rewrite (Hresp id j Hj). split; [by apply Hfail|].
      by rewrite Hcnt1. }
  destruct (jb_request j) as [request|] eqn:Hreq.
  - unfold update_job. wp_run. rewrite <- wp_bind. apply Hlaunch; try done. cbn.
    rewrite (alter_twice _ _ id _ j) by done. f_equal. unfold flying. f_equal.
    assert (jb_session j = None) as Hsn by (apply (Hfresh id j Hj); rewrite Hreq; by eexists).
    destruct j. cbn in *. by subst.
  - destruct (Hwork id j Hj Hfl Hpos) as [[? Hx]|[session Hsess]]; [congruence|].
    wp_run. rewrite Hsess. unfold update_job. wp_run. rewrite <- wp_bind. apply Hlaunch; try done. cbn.
    rewrite (alter_twice _ _ id _ j) by done. f_equal. unfold flying. f_equal. destruct j. cbn in *. by subst.
Qed.

(** ** Commands *)

Lemma partial_alter_same {A} id (m : gmap N A) o : m !! id = o → partial_alter (λ _, o) id m = m.
Proof. intros <-. apply partial_alter_self. Qed.

(** A change of the queue only. *)
Lemma delta_queue id w w' dq :
  slots_ok w →
  w_jobs w' = w_jobs w → w_slots w' = w_slots w → w_channels w' = w_channels w →
  w_orphans w' = w_orphans w → w_shutting_down w' = w_shutting_down w →
  fp_config (w_policy w') = fp_config (w_policy w) →
  (∀ i, queued w' i = if decide (i = id) then dq else queued w i) →
  (N.of_nat (length (fp_runnable (w_policy w'))) + queued w id
     = N.of_nat (length (fp_runnable (w_policy w))) + dq)%N →
  delta id w w' (w_jobs w !! id) dq (outstanding w id) None.
Proof.
  intros Hs Hj Hsl Hc Ho Hsh Hcf Hq Hlen. split; try done.
  - by rewrite partial_alter_same.
  - intros i. unfold outstanding. rewrite Hsl. by destruct (decide (i = id)) as [->|].
  - intros k sl. rewrite Hsl, Hj. apply Hs.
Qed.

Lemma enqueue_length id flow r a p :
  N.of_nat (length (fp_runnable (enqueue id flow r a p))) = (N.of_nat (length (fp_runnable p)) + 1)%N.
Proof. cbn. rewrite length_app. cbn [length]. lia. Qed.

Lemma queued_enqueue w i id flow r a :
  queue_of i (enqueue id flow r a (w_policy w))
  = if decide (i = id) then (queued w id + 1)%N else queued w i.
Proof.
  rewrite queue_enqueue. unfold queued, queue_of. destruct (decide (i = id)) as [->|]; lia.
Qed.

Lemma submit_spec env id request response w :
  slots_ok w → w_jobs w !! id = None →
  wp (handle_command env (Submit id request response))
     (λ _ w', (∃ round, delta id w w' (Some (submit_job env request response round))
                 (queued w id + 1) (outstanding w id) None)
        ∧ w_counters w' = count_admitted (w_counters w))
     (λ _ _, False) w.
Proof.
  intros Hs Hn. cbn [handle_command]. wp_run. cbn. split; [|done].
  exists (fp_round (w_policy w)). split; cbn; try done.
  - intros i. apply queued_enqueue.
  - intros i. by destruct (decide (i = id)) as [->|].
  - rewrite length_app. cbn [length]. lia.
  - intros k sl Hk. cbn in Hk |- *. apply slot_ok_insert_new; [done|by apply Hs].
Qed.

Lemma continue_spec env id w :
  slots_ok w →
  wp (handle_command env (ContinueJob id))
     (λ _ w', if decide (w_jobs w !! id = None) then w' = w
              else delta id w w' (w_jobs w !! id) (queued w id + 1) (outstanding w id) None
                   ∧ w_counters w' = waiting_sub (w_counters w))
     (λ _ _, False) w.
Proof.
  intros Hs. cbn [handle_command]. wp_run. destruct (w_jobs w !! id) as [j|] eqn:Hj; wp_run; cbn.
  - split; [|done]. rewrite <- Hj. apply delta_queue; try done; cbn.
    + intros i. apply queued_enqueue.
    + rewrite length_app. cbn [length]. lia.
  - done.
Qed.

Lemma stop_spec env id w :
  world_ok w →
  (∀ j, w_jobs w !! id = Some j → jb_in_flight j = false ∧ is_Some (jb_session j)) →
  wp (handle_command env (StopJob id))
     (λ _ w', match w_jobs w !! id with
              | None => delta id w w' None 0 (outstanding w id) None
                        ∧ w_counters w' = waiting_sub (w_counters w)
              | Some j =>
                  (delta id w w' (Some (flying j)) 0 1 None
                   ∧ w_counters w' = waiting_sub (w_counters w))
                  ∨ ∃ e, delta id w w' None 0 0 (Some (MFailed e))
                      ∧ w_counters w' = count_terminal (Err e) (waiting_sub (w_counters w))
              end)
     (λ _ _, False) w.
Proof.
  intros [Hs Hresp Hrest Hfresh Hwork] Hpark. cbn [handle_command]. wp_run. cbn.
  pose proof (length_filter_ne id (fp_runnable (w_policy w))) as Hlen.
  destruct (w_jobs w !! id) as [j|] eqn:Hj; wp_run.
  - destruct (Hpark j eq_refl) as [Hfl [session Hsess]]. rewrite Hsess. unfold update_job. wp_run.
    eapply (launch_spec env id j _ _ w 0%N); cbn; try done.
    + by apply (Hrest id j).
    + by apply Hresp.
    + rewrite (alter_twice _ _ id _ j) by done. f_equal. unfold flying. f_equal.
      destruct (jb_request j) eqn:Hreq.
      * rewrite (Hfresh id j Hj) in Hsess; [done|]. rewrite Hreq. by eexists.
      * destruct j. cbn in *. by subst.
    + intros i. apply occ_filter_ne.
    + unfold queued. lia.
    + intros w' Hd Hcnt. wp_run. left. done.
    + intros e w' -> Hfail. wp_run. cbn. rewrite (alter_twice _ _ id _ j), lookup_insert_eq by done.
      wp_run. apply send_terminal_spec. right. exists e. cbn.
      rewrite (Hresp id j Hj). split; [by apply Hfail|done].
  - split; [|done]. rewrite <- Hj. apply delta_queue; try done; cbn.
    + intros i. apply occ_filter_ne.
    + unfold queued. lia.
Qed.

Lemma clear_flow_spec flow w (Q : unit → World → Prop) R :
  (∀ p, fp_runnable p = fp_runnable (w_policy w) → fp_config p = fp_config (w_policy w) →
     Q tt (with_policy (λ _, p) w)) →
  wp (clear_flow flow) Q R w.
Proof.
  intros HQ. unfold clear_flow. wp_run.
  set (b := existsb _ _). destruct (queue_clear 0 flow b (w_policy w)) as (Hr & Hc & _).
  exact (HQ _ Hr Hc).
Qed.

Definition cancelled_counters (waited : bool) (c : SchedulerCounters) : SchedulerCounters :=
  count_terminal (Err ServerError.Cancelled) (if waited then waiting_sub c else c).

Lemma cancel_spec env id w :
  world_ok w →
  wp (handle_command env (CancelJob id))
     (λ _ w', match w_jobs w !! id with
              | None => delta id w w' None 0 (outstanding w id) None ∧ w_counters w' = w_counters w
              | Some j =>
                  if jb_in_flight j
                  then delta id w w' (Some (request_cancel j)) 0 (outstanding w id) None
                       ∧ w_counters w' = w_counters w
                  else delta id w w' None 0 0 (Some (MFailed ServerError.Cancelled))
                       ∧ w_counters w' = cancelled_counters
                           (bool_decide (is_Some (jb_session j)) && (queued w id =? 0)%N)
                           (w_counters w)
              end)
     (λ _ _, False) w.
Proof.
  intros [Hs Hresp Hrest Hfresh Hwork]. cbn [handle_command]. wp_run. cbn.
  pose proof (length_filter_ne id (fp_runnable (w_policy w))) as Hlen.
  assert (∀ i, occ i (pe_id <$> filter (λ e, pe_id e ≠ id) (fp_runnable (w_policy w)))
            = if decide (i = id) then 0%N else queued w i) as Hq by (intros i; apply occ_filter_ne).
  destruct (w_jobs w !! id) as [j|] eqn:Hj; wp_run.
  2:{ split; [|done]. rewrite <- Hj. apply delta_queue; try done. unfold queued. cbn. lia. }
  unfold cancel_control. wp_run. destruct (jb_in_flight j) eqn:Hfl.
  - unfold update_job. wp_run. split; [|done]. split; cbn; try done.
    + by rewrite (alter_job_eq id _ _ j).
    + intros i. by destruct (decide (i = id)) as [->|].
    + unfold queued. lia.
    + intros k sl Hk. cbn in Hk |- *. rewrite (alter_insert_id _ _ id j) by done.
      by apply (slot_ok_update _ id j); [..|apply Hs].
  - wp_run. cbn. rewrite Hj. wp_run.
    fold (remove id (w_policy w)). pose proof (remove_found id (w_policy w)) as Hfound.
    pose proof (Hrest id j Hj Hfl) as Ho.
    assert (∀ c w1, w_jobs w1 = delete id (w_jobs w) → w_slots w1 = w_slots w →
      fp_runnable (w_policy w1) = filter (λ e, pe_id e ≠ id) (fp_runnable (w_policy w)) →
      fp_config (w_policy w1) = fp_config (w_policy w) → w_channels w1 = w_channels w →
      w_orphans w1 = w_orphans w → w_shutting_down w1 = w_shutting_down w →
      w_counters w1 = c → wp (_ ← send_terminal j (Err ServerError.Cancelled); clear_flow (jb_flow j))
        (λ _ w', delta id w w' None 0 0 (Some (MFailed ServerError.Cancelled))
           ∧ w_counters w' = count_terminal (Err ServerError.Cancelled) c) (λ _ _, False) w1) as Hend.
    { intros c w1 H1 H2 H3 H4 H5 H6 H7 H8. wp_run. apply send_terminal_spec.
      apply clear_flow_spec. intros p Hr Hc. cbn in Hr, Hc. split; [|by cbn; rewrite H8].
      split; cbn; try done.
      - intros i. unfold queued at 1. cbn. rewrite Hr, H3. apply Hq.
      - intros i. unfold outstanding. cbn. rewrite H2. fold (outstanding w i).
        by destruct (decide (i = id)) as [->|].
      - by rewrite H5, (Hresp id j Hj).
      - congruence.
      - rewrite Hr, H3. unfold queued. lia.
      - intros k sl Hk. cbn in Hk |- *. rewrite H2 in Hk. rewrite H1.
        by apply (slots_ok_delete w id j). }
    unfold cancelled_counters. cbn [remove fst] in Hfound. rewrite Hfound, negb_involutive.
    fold (queued w id). change (queue_of id (w_policy w)) with (queued w id).
    destruct (bool_decide (is_Some (jb_session j)) && (queued w id =? 0)%N); wp_run;
      rewrite <- wp_bind; by apply Hend.
Qed.

(** ** Completions *)

(** The job once its quantum is over. *)
Definition landed (session : option Session) j : Job := set_session session (set_in_flight false j).

(** How a completion settles: the terminal result, if any, and otherwise the
    token its consumer gets. *)
Definition verdict j (open : bool) (r : result ServerError.Error SessionStep)
  : option (result ServerError.Error EngineOutput) :=
  match r with
  | Ok (Progress _) => if jb_cancel_requested j then Some (Err ServerError.Cancelled) else None
  | Ok (Token _ _ _ _) =>
      if jb_cancel_requested j || negb open then Some (Err ServerError.Cancelled) else None
  | Ok (Finished output) =>
      Some (if jb_cancel_requested j then Err ServerError.Cancelled else Ok output)
  | Err e => Some (Err (if jb_cancel_requested j then ServerError.Cancelled else e))
  end.

Definition completed w id j session (r : result ServerError.Error SessionStep) w' : Prop :=
  let open := match w_channels w !! id with Some c => ch_open c | None => false end in
  match verdict j open r, r with
  | Some res, _ =>
      delta id w w' None (queued w id) 0 (Some (terminal_message res))
      ∧ w_counters w' = count_terminal res (w_counters w)
  | None, Ok (Token tok piece toc _) =>
      delta id w w' (Some (landed session j)) (queued w id) 0 (Some (MToken tok piece toc))
      ∧ w_counters w' = waiting_add (w_counters w)
  | None, _ =>
      delta id w w' (Some (landed session j)) (queued w id + 1) 0 None
      ∧ w_counters w' = w_counters w
  end.

Lemma retire_spec key w (Q : unit → World → Prop) R :
  slots_ok w →
  (∀ m, (∀ i, tasks_of i m = outstanding w i) → (∀ k sl, m !! k = Some sl → w_slots w !! k = Some sl) →
     Q tt (with_slots (λ _, m) w)) →
  wp (retire_slot_if_idle key) Q R w.
Proof.
  intros Hs HQ. unfold retire_slot_if_idle. wp_run.
  assert (Q tt w) as Hsame.
  { specialize (HQ (w_slots w)). replace (with_slots _ w) with w in HQ by (by destruct w).
    by apply HQ. }
  destruct (existsb _ _) eqn:Hex; wp_run; [done|].
  destruct (w_slots w !! key) as [sl|] eqn:Hk; wp_run; [|done].
  assert (sw_queue sl = []) as Hempty.
  { destruct (sw_queue sl) as [|t l] eqn:Hq; [done|exfalso].
    destruct (so_tasks _ _ _ (Hs key sl Hk) t) as (j & Hj & Hslot); [rewrite Hq; by left|].
    apply not_true_iff_false in Hex. apply Hex, existsb_exists. exists j. split.
    - apply list_elem_of_In, list_elem_of_fmap. exists (tk_id t, j).
      split; [done|]. by apply elem_of_map_to_list.
    - by apply bool_decide_eq_true. }
  specialize (HQ (delete key (w_slots w))).
  replace (with_orphans _ _) with (with_slots (λ _, delete key (w_slots w)) w).
  - apply HQ; [|by intros k' sl' [_ Hk']%lookup_delete_Some].
    intros i. unfold outstanding, tasks_of.
    rewrite (map_sum_delete _ (w_slots w) key sl Hk), Hempty. cbn. lia.
  - destruct w. cbn in *. unfold with_orphans, with_slots. cbn. by rewrite Hempty, app_nil_r.
Qed.

(** The end of a job: its terminal message, then its flow and its slot. *)
Lemma conclude_spec id j r w w0 :
  slots_ok w0 → outstanding w0 id = 0%N →
  (∃ j0, w_jobs w0 !! id = Some j0 ∧ jb_slot j0 = jb_slot j) → jb_response j = id →
  (∃ j', w_jobs w = <[id := j']> (w_jobs w0)) →
  fp_runnable (w_policy w) = fp_runnable (w_policy w0) →
  fp_config (w_policy w) = fp_config (w_policy w0) →
  w_slots w = alter (set_busy false) (jb_slot j) (w_slots w0) → w_channels w = w_channels w0 →
  w_orphans w = w_orphans w0 → w_shutting_down w = w_shutting_down w0 →
  wp (_ ← modify (with_jobs (delete id));
      _ ← send_terminal j r;
      _ ← clear_flow (jb_flow j);
      retire_slot_if_idle (jb_slot j))
    (λ _ w', delta id w0 w' None (queued w0 id) 0 (Some (terminal_message r))
       ∧ w_counters w' = count_terminal r (w_counters w)) (λ _ _, False) w.
Proof.
  intros Hs Ho (j1 & Hj & Hjs) Hresp [j' Hjobs] Hr Hc Hsl Hch Horph Hshut. wp_run. apply send_terminal_spec.
  wp_run. apply clear_flow_spec. intros p Hpr Hpc. cbn in Hpr, Hpc.
  assert (delete id (w_jobs w) = delete id (w_jobs w0)) as Hdel.
  { rewrite Hjobs. apply delete_insert_eq. }
  assert (∀ i, tasks_of i (w_slots w) = outstanding w0 i) as Htasks.
  { intros i. rewrite Hsl. unfold outstanding, tasks_of. by apply map_sum_alter. }
  assert (∀ k sl, w_slots w !! k = Some sl → slot_ok (delete id (w_jobs w0)) k sl) as Hok.
  { intros k sl. rewrite Hsl, lookup_alter. destruct (decide (jb_slot j = k)) as [<-|Hne].
    - intros (sl0 & Hsl0 & ->)%fmap_Some.
      pose proof (Hs _ _ Hsl0) as [Ha Ht Hb]. split; [done| |done].
      cbn. intros t Hin. destruct (Ht t Hin) as (j0 & Hj0 & Hk). exists j0.
      rewrite lookup_delete_ne; [done|]. intros Heq.
      pose proof (tasks_elem _ _ _ _ Hsl0 Hin) as Hpos. rewrite <- Heq in Hpos.
      unfold outstanding in Ho. lia.
    - intros Hk. destruct (Hs _ _ Hk) as [Ha Ht Hb]. split; [done|..].
      + intros t Hin. destruct (Ht t Hin) as (j0 & Hj0 & Hk0). exists j0.
        rewrite lookup_delete_ne; [done|]. intros Heq.
        pose proof (tasks_elem _ _ _ _ Hk Hin) as Hpos. rewrite <- Heq in Hpos.
        unfold outstanding in Ho. lia.
      + intros Hbusy. destruct (Hb Hbusy) as (i & j0 & Hj0 & Hk0 & Hf). exists i, j0.
        rewrite lookup_delete_ne; [done|]. intros ->. congruence. }
  apply retire_spec.
  - intros k sl Hk. cbn in Hk |- *. rewrite Hdel. by apply Hok.
  - intros m Hm1 Hm2. cbn in Hm2. split; [|done]. split; cbn; try done.
    + intros i. unfold queued. cbn. rewrite Hpr, Hr. by destruct (decide (i = id)) as [->|].
    + intros i. unfold outstanding. cbn. rewrite Hm1. unfold outstanding at 1. cbn.
      rewrite Htasks. by destruct (decide (i = id)) as [->|].
    + by rewrite Hch, Hresp.
    + congruence.
    + rewrite Hpr, Hr. lia.
    + intros k sl Hk. cbn in Hk |- *. rewrite Hdel. by apply Hok, Hm2.
Qed.

Lemma charge_quantum_spec env j sel obs dur term w (Q : unit → World → Prop) R :
  (∀ p d, fp_runnable p = fp_runnable (w_policy w) → fp_config p = fp_config (w_policy w) →
     Q tt (with_diagnostics (λ _, d) (with_policy (λ _, p) w))) →
  wp (charge_quantum to_string env j sel obs dur term) Q R w.
Proof.
  intros HQ. unfold charge_quantum. destruct sel as [sel|]; wp_run.
  - by eapply (HQ (charge (jb_flow j) (qo_charged_tokens obs) (sel_charge_scale sel) (w_policy w))).
  - specialize (HQ (w_policy w) (w_diagnostics w) eq_refl eq_refl). by destruct w.
Qed.

(** The world after the completion is recorded and before it is acted on. *)
Record recording id j session w0 w : Prop := {
  rc_jobs : w_jobs w = <[id := landed session j]> (w_jobs w0);
  rc_runnable : fp_runnable (w_policy w) = fp_runnable (w_policy w0);
  rc_config : fp_config (w_policy w) = fp_config (w_policy w0);
  rc_slots : w_slots w = alter (set_busy false) (jb_slot j) (w_slots w0);
  rc_orphans : w_orphans w = w_orphans w0;
  rc_shutting : w_shutting_down w = w_shutting_down w0;
}.

Lemma recording_delta id j session w0 w dq msg :
  slots_ok w0 → outstanding w0 id = 0%N → w_jobs w0 !! id = Some j → 
  w_jobs w = <[id := landed session j]> (w_jobs w0) →
  w_slots w = alter (set_busy false) (jb_slot j) (w_slots w0) →
  w_orphans w = w_orphans w0 → w_shutting_down w = w_shutting_down w0 →
  fp_config (w_policy w) = fp_config (w_policy w0) →
  w_channels w = match msg with
                 | Some m => alter (send_open m) id (w_channels w0)
                 | None => w_channels w0
                 end →
  (∀ i, queued w i = if decide (i = id) then dq else queued w0 i) →
  (N.of_nat (length (fp_runnable (w_policy w))) + queued w0 id
     = N.of_nat (length (fp_runnable (w_policy w0))) + dq)%N →
  delta id w0 w (Some (landed session j)) dq 0 msg.
Proof.
  intros Hs Ho Hj Hjobs Hsl Horph Hshut Hcfg Hch Hq Hlen. split; try done.
  - intros i. unfold outstanding at 1, tasks_of. rewrite Hsl, map_sum_alter by done.
    fold (tasks_of i (w_slots w0)). fold (outstanding w0 i).
    by destruct (decide (i = id)) as [->|].
  - intros k sl. rewrite Hsl, Hjobs, lookup_alter. destruct (decide (jb_slot j = k)) as [<-|Hne].
    + intros (sl0 & Hsl0 & ->)%fmap_Some. pose proof (Hs _ _ Hsl0) as [Ha Ht Hb].
      split; [done| |done]. cbn. intros t Hin. destruct (Ht t Hin) as (j0 & Hj0 & Hk). exists j0.
      rewrite lookup_insert_ne; [done|]. intros Heq.
      pose proof (tasks_elem _ _ _ _ Hsl0 Hin) as Hpos. rewrite <- Heq in Hpos.
      unfold outstanding in Ho. lia.
    + intros Hk. destruct (Hs _ _ Hk) as [Ha Ht Hb]. split; [done|..].
      * intros t Hin. destruct (Ht t Hin) as (j0 & Hj0 & Hk0). exists j0.
        rewrite lookup_insert_ne; [done|]. intros Heq.
        pose proof (tasks_elem _ _ _ _ Hk Hin) as Hpos. rewrite <- Heq in Hpos.
        unfold outstanding in Ho. lia.
      * intros Hbusy. destruct (Hb Hbusy) as (i & j0 & Hj0 & Hk0 & Hf). exists i, j0.
        rewrite lookup_insert_ne; [done|]. intros <-. congruence.
Qed.

Lemma completion_spec env c j w :
  slots_ok w → w_jobs w !! sp_id c = Some j → jb_response j = sp_id c →
  outstanding w (sp_id c) = 0%N →
  wp (handle_completion to_string env c)
    (λ _ w', completed w (sp_id c) j (sp_session c) (sp_result c) w') (λ _ _, False) w.
Proof.
  intros Hs Hj Hresp Ho. unfold handle_completion. wp_run. rewrite Hj. unfold update_job. wp_run.
  set (id := sp_id c) in *. set (session := sp_session c).
  match goal with |- wp_gen _ _ _ _ ?x => set (w1 := x) end.
  assert (w_jobs w1 = <[id := landed session j]> (w_jobs w)) as Hjobs.
  { subst w1. cbn. by rewrite (alter_twice _ _ id _ j). }
  assert (w_slots w1 = alter (set_busy false) (jb_slot j) (w_slots w)) as Hsl by done.
  assert (∀ w2 obs r, w_jobs w2 = w_jobs w1 → w_slots w2 = w_slots w1 → w_orphans w2 = w_orphans w1 →
    w_shutting_down w2 = w_shutting_down w1 → w_policy w2 = w_policy w1 →
    w_channels w2 = w_channels w1 → w_counters w2 = w_counters w1 →
    wp (_ ← charge_quantum to_string env j (sp_selection c) obs (sp_quantum_duration_ns c) (Some r);
        w ← get;
        job ← expect (w_jobs w !! id);
        _ ← modify (with_jobs (delete id));
        _ ← send_terminal job r;
        _ ← clear_flow (jb_flow job);
        retire_slot_if_idle (jb_slot job))
      (λ _ w', delta id w w' None (queued w id) 0 (Some (terminal_message r))
         ∧ w_counters w' = count_terminal r (w_counters w)) (λ _ _, False) w2) as Hterm.
  { intros w2 obs r H1 H2 H3 H4 H5 H6 H7. wp_run. apply charge_quantum_spec. intros p d Hr Hc.
    wp_run. cbn. rewrite H1, Hjobs, lookup_insert_eq. wp_run.
    set (w3 := with_diagnostics (λ _, d) (with_policy (λ _, p) w2)).
    assert (w_counters w = w_counters w3) as -> by (cbn; by rewrite H7).
    pose proof (conclude_spec id (landed session j) r w3 w) as Hend.
    rewrite wp_bind, wp_modify, wp_bind in Hend. apply Hend; cbn; try done.
    - by exists j.
    - exists (landed session j). congruence.
    - by rewrite Hr, H5.
    - by rewrite Hc, H5. }
  assert (∀ o, (w_channels w !! id) = o → (match w_channels w1 !! jb_response j with
      Some c => ch_open c | None => false end) = match o with Some c => ch_open c | None => false end)
    as Hopen by (intros o <-; by rewrite Hresp).
  unfold completed. specialize (Hopen _ eq_refl).
  set (open := match w_channels w !! id with Some c => ch_open c | None => false end) in *.
  destruct (sp_result c) as [[obs|tok piece toc obs|output]|e] eqn:Hres; unfold settle, verdict.
  - wp_run. cbv beta iota. destruct (jb_cancel_requested j) eqn:Hcr.
    + rewrite <- wp_bind. by apply Hterm.
    + wp_run. apply charge_quantum_spec. intros p d Hr Hc. wp_run. split; [|done].
      eapply recording_delta; cbn; try done.
      * intros i.
        change (queue_of i (enqueue id (jb_flow j) (jb_admitted_round j) (jb_admitted_at j) p)
          = if decide (i = id) then (queued w id + 1)%N else queued w i).
        rewrite queue_enqueue. unfold queue_of. rewrite Hr. unfold queued. subst w1. cbn.
        destruct (decide (i = id)) as [->|]; lia.
      * rewrite length_app, Hr. cbn [length]. change (w_policy w1) with (w_policy w). lia.
  - destruct (jb_cancel_requested j) eqn:Hcr; cbn [orb].
    + wp_run. cbv beta iota. rewrite <- wp_bind. by apply Hterm.
    + wp_run. apply send_message_spec. rewrite Hopen, Hresp. destruct open eqn:Ho'; cbn [negb]; wp_run.
      * cbv beta iota. wp_run. apply charge_quantum_spec. intros p d Hr Hc. wp_run. split; [|done].
        eapply recording_delta; cbn; try done.
        -- intros i. unfold queued at 1. cbn. rewrite Hr. by destruct (decide (i = id)) as [->|].
        -- by rewrite Hr.
      * cbv beta iota. rewrite <- wp_bind. apply Hterm; try done. cbn. apply map_eq. intros x. rewrite lookup_alter.
        destruct (decide (id = x)) as [<-|]; [|done]. fold open in Ho'. subst open.
        destruct (w_channels w !! id) as [ch|]; [|done]. cbn. unfold send_open. by rewrite Ho'.
  - wp_run. cbv beta iota. rewrite <- wp_bind. by apply Hterm.
  - wp_run. cbv beta iota. rewrite <- wp_bind. by apply Hterm.
Qed.

(** ** Shutdown *)

(** Everything but jobs, channels and controls is left alone. *)
Definition same_rest w w' : Prop :=
  w_slots w' = w_slots w ∧ w_orphans w' = w_orphans w ∧ w_policy w' = w_policy w
  ∧ w_shutting_down w' = w_shutting_down w ∧ w_counters w' = w_counters w.

Lemma cancel_jobs_spec (l : list Job) w (Q : unit → World → Prop) R :
  base.NoDup (jb_response <$> l) →
  (∀ w', w_jobs w' = w_jobs w → same_rest w w' →
     (∀ i, w_channels w' !! i =
        if decide (i ∈ jb_response <$> l)
        then send_open (MFailed ServerError.Cancelled) <$> w_channels w !! i
        else w_channels w !! i) → Q tt w') →
  wp (for_each cancel_job l) Q R w.
Proof.
  revert w. induction l as [|j l IH]; intros w Hnd HQ; cbn [for_each].
  - wp_run. apply HQ; [done..|]. intros i. destruct (decide _) as [Hin|]; [|done].
    by apply not_elem_of_nil in Hin.
  - rewrite fmap_cons, list.NoDup_cons in Hnd. destruct Hnd as [Hnotin Hnd].
    wp_run. unfold cancel_job at 1, cancel_control. wp_run. apply send_message_spec. wp_run.
    apply IH; [done|]. intros w' Hj Hrest Hch. apply HQ; [done|done|].
    intros i. rewrite Hch. cbn. rewrite lookup_alter.
    destruct (decide (jb_response j = i)) as [<-|Hne].
    + rewrite decide_False by done. rewrite decide_True by by left. done.
    + destruct (decide (i ∈ jb_response <$> l)) as [Hin|Hout].
      * rewrite decide_True by by right. done.
      * rewrite decide_False; [done|]. by intros [->|?]%elem_of_cons.
Qed.

Lemma doom_jobs_spec (l : list (N * Job)) w (Q : unit → World → Prop) R :
  base.NoDup l.*1 →
  (∀ w', w_channels w' = w_channels w → same_rest w w' →
     (∀ i, w_jobs w' !! i =
        if decide (i ∈ l.*1) then request_cancel <$> w_jobs w !! i else w_jobs w !! i) → Q tt w') →
  wp (for_each doom_job l) Q R w.
Proof.
  revert w. induction l as [|[id j] l IH]; intros w Hnd HQ; cbn [for_each].
  - wp_run. apply HQ; [done..|]. intros i. destruct (decide _) as [Hin|]; [|done].
    by apply not_elem_of_nil in Hin.
  - rewrite fmap_cons, list.NoDup_cons in Hnd. destruct Hnd as [Hnotin Hnd]. cbn in Hnotin.
    wp_run. unfold doom_job at 1, cancel_control, update_job. wp_run.
    apply IH; [done|]. intros w' Hch Hrest Hj. apply HQ; [done|done|].
    intros i. rewrite Hj. cbn. rewrite lookup_alter.
    destruct (decide (id = i)) as [<-|Hne].
    + rewrite decide_False by done. rewrite decide_True by by left. done.
    + destruct (decide (i ∈ l.*1)) as [Hin|Hout].
      * rewrite decide_True by by right. done.
      * rewrite decide_False; [done|]. by intros [->|?]%elem_of_cons.
Qed.

Lemma key_in_map {A} (m : gmap N A) i : i ∈ (map_to_list m).*1 ↔ is_Some (m !! i).
Proof.
  rewrite list_elem_of_fmap. split.
  - intros ([i' x] & -> & Hin). apply elem_of_map_to_list in Hin. by eexists.
  - intros [x Hx]. exists (i, x). split; [done|]. by apply elem_of_map_to_list.
Qed.

(** Shutting down cancels every job, empties the queue and changes nothing else. *)
Lemma begin_shutdown_spec w (Q : unit → World → Prop) R :
  (∀ w', w_channels w' = w_channels w → w_slots w' = w_slots w → w_orphans w' = w_orphans w →
     fp_runnable (w_policy w') = [] → w_shutting_down w' = true → w_counters w' = w_counters w →
     w_jobs w' = request_cancel <$> w_jobs w → Q tt w') →
  wp begin_shutdown Q R w.
Proof.
  intros HQ. unfold begin_shutdown. wp_run. apply doom_jobs_spec.
  - apply NoDup_fst_map_to_list.
  - intros w' Hch (Hs & Ho & Hp & Hsh & Hc) Hj. cbn in *.
    apply HQ; try done; [by rewrite Hp|]. apply map_eq. intros i. rewrite Hj, lookup_fmap.
    destruct (decide _) as [Hin|Hout]; [done|]. rewrite key_in_map in Hout.
    destruct (w_jobs w !! i); [|done]. destruct Hout. by eexists.
Qed.

Definition idle_slots w : bool := forallb (λ sl, negb (sw_busy sl)) (map_values (w_slots w)).

Lemma settle_round_spec w (Q : bool → World → Prop) R :
  (∀ i j, w_jobs w !! i = Some j → jb_response j = i) →
  (w_shutting_down w && idle_slots w = false →
     Q false (with_counters (store_runnable (N.of_nat (length (fp_runnable (w_policy w))))) w)) →
  (w_shutting_down w && idle_slots w = true →
     ∀ w', w_jobs w' = ∅ → w_slots w' = ∅ → w_policy w' = w_policy w → w_shutting_down w' = true →
     (∀ i, w_channels w' !! i =
        if decide (is_Some (w_jobs w !! i))
        then send_open (MFailed ServerError.Cancelled) <$> w_channels w !! i
        else w_channels w !! i) →
     w_counters w' = store_runnable (N.of_nat (length (fp_runnable (w_policy w)))) (w_counters w) →
     Q true w') →
  wp settle_round Q R w.
Proof.
  intros Hresp Hgo Hend. unfold settle_round. wp_run. fold (idle_slots w). cbn.
  destruct (w_shutting_down w && idle_slots w) eqn:Hb; wp_run; [|by apply Hgo].
  unfold cancel_all_jobs. wp_run.
  assert (jb_response <$> map_values (w_jobs w) = (map_to_list (w_jobs w)).*1) as Hlist.
  { unfold map_values. rewrite <- list_fmap_compose. apply list_fmap_ext.
    intros n [i j] Hl. cbn. apply Hresp. apply elem_of_map_to_list.
    by eapply list_elem_of_lookup_2. }
  apply cancel_jobs_spec.
  { change (base.NoDup (jb_response <$> map_values (w_jobs w))). rewrite Hlist.
    apply NoDup_fst_map_to_list. }
  intros w' Hj (Hs & Ho & Hp & Hsh & Hc) Hch. wp_run. unfold shutdown_slots. wp_run. wp_run.
  apply Hend; try done; cbn.
  - rewrite Hsh. cbn. apply andb_true_iff in Hb. tauto.
  - intros i. rewrite Hch. cbn.
    destruct (decide (i ∈ jb_response <$> map_values (w_jobs w))) as [Hin|Hout];
      rewrite Hlist, key_in_map in *.
    + by rewrite decide_True.
    + by rewrite decide_False.
Qed.

End laws.
