(* ===== verification/SchedulerSystem.v ===== *)
(** The workload scheduler together with what it talks to: the client sessions
    ([SchedulerClientSession]), the event channel, the slot workers' threads and
    the request controls, as a system of interleaved actions
    ([crates/server/src/scheduler.rs]).

    Every action is one atomic step of one thread: a client opening a call of its
    session (and sending its command), receiving a message or being dropped; a
    slot worker completing the task at the head of its queue with whatever answer
    the engine gives; the scheduler thread running one [dispatch_one] or handling
    one event. A run is any sequence of actions. *)

From stdpp Require Import gmap strings list numbers.
From S2P Require Import Prelude Engine FairPolicy Diagnostics Scheduler.

(** ** The client session *)

Inductive Call : Type := InStep | InFinish.

#[export] Instance Call_eq_dec : EqDecision Call.
Proof. solve_decision. Defined.

(** [cl_call]: the method the client is blocked in, if any. *)
Record Client : Type := mkClient {
  cl_control : N;
  cl_waiting_ack : bool;
  cl_finished : option EngineOutput;
  cl_call : option Call;
}.

(** How a call begins: it returns at once, or sends a command and waits. *)
Inductive Opening : Type :=
| Returns (output : EngineOutput)
| Waits (command : option Command) (c : Client).

Definition open_step (id : N) (c : Client) : Opening :=
  match cl_finished c with
  | Some output => Returns output
  | None =>
      if cl_waiting_ack c
      then Waits (Some (ContinueJob id)) (mkClient (cl_control c) false None (Some InStep))
      else Waits None (mkClient (cl_control c) false None (Some InStep))
  end.

Definition open_finish (id : N) (c : Client) : Opening :=
  match cl_finished c with
  | Some output => Returns output
  | None =>
      if cl_waiting_ack c
      then Waits (Some (StopJob id)) (mkClient (cl_control c) false None (Some InFinish))
      else Waits (Some (CancelJob id)) (mkClient (cl_control c) false None (Some InFinish))
  end.

(** [SchedulerClientSession::receive] once a message is there. *)
Definition receive (m : ClientMessage) (c : Client)
  : result ServerError.Error SessionStep * Client :=
  match m with
  | MToken id piece terminal_or_control =>
      (Ok (Token id piece terminal_or_control (model_free Decode 1)),
       mkClient (cl_control c) true (cl_finished c) None)
  | MFinished output =>
      (Ok (Finished output), mkClient (cl_control c) (cl_waiting_ack c) (Some output) None)
  | MFailed e => (Err e, mkClient (cl_control c) (cl_waiting_ack c) (cl_finished c) None)
  end.

(** What [finish] makes of the step it received. *)
Definition close_finish (r : result ServerError.Error SessionStep)
  : result ServerError.Error EngineOutput :=
  match r with
  | Ok (Finished output) => Ok output
  | Ok _ => Err (ServerError.State "scheduler returned work after stop")
  | Err e => Err e
  end.

(** ** The system *)

Inductive Phase : Type := Dispatching | Receiving | Returned.

#[export] Instance Phase_eq_dec : EqDecision Phase.
Proof. solve_decision. Defined.

Record System (Session : Type) : Type := mkSystem {
  sy_world : World Session;
  sy_events : list (SchedulerEvent Session);
  sy_phase : Phase;
  sy_clients : gmap N Client;
  sy_next_id : N;
}.

Arguments mkSystem {Session}.
Arguments sy_world {Session}.
Arguments sy_events {Session}.
Arguments sy_phase {Session}.
Arguments sy_clients {Session}.
Arguments sy_next_id {Session}.

(** What the engine answers to a task. A panic is caught by the worker. *)
Inductive Answer (Session : Type) : Type :=
| Started (s : Session)
| Stepped (r : result ServerError.Error SessionStep) (s : Session)
| Ended (r : result ServerError.Error EngineOutput)
| Refused (e : ServerError.Error)
| Panicked.

Arguments Started {Session} s.
Arguments Stepped {Session} r s.
Arguments Ended {Session} r.
Arguments Refused {Session} e.
Arguments Panicked {Session}.

Inductive Action (Session : Type) : Type :=
| AStart (request : EngineRequest) (correlation_id inference_id : string)
| AOpenStep (id : N)
| AOpenFinish (id : N)
| AReceive (id : N)
| ADrop (id : N)
| AControl (control : N) (value : Control.RequestControl)
| AShutdown
| ASlot (key : ModelSlotKey) (answer : Answer Session) (duration_ns : N)
| ASink
| ADispatch (env : Env)
| AEvent (env : Env).

Arguments AStart {Session}.
Arguments AOpenStep {Session}.
Arguments AOpenFinish {Session}.
Arguments AReceive {Session}.
Arguments ADrop {Session}.
Arguments AControl {Session}.
Arguments AShutdown {Session}.
Arguments ASlot {Session}.
Arguments ASink {Session}.
Arguments ADispatch {Session}.
Arguments AEvent {Session}.

(** The outcome of an action: it is not enabled, it leads to a state, or the
    thread panics. *)
Inductive Performed (Session : Type) : Type :=
| Disabled
| Moves (s : System Session)
| Panics.

Arguments Disabled {Session}.
Arguments Moves {Session} s.
Arguments Panics {Session}.

Section system.
Context {Session : Type}.
Variable to_string : DiagnosticRecord → option string.

Abbreviation System := (System Session).
Abbreviation World := (World Session).
Abbreviation Event := (SchedulerEvent Session).

Definition with_world (f : World → World) (s : System) : System :=
  mkSystem (f (sy_world s)) (sy_events s) (sy_phase s) (sy_clients s) (sy_next_id s).

Definition with_clients (f : gmap N Client → gmap N Client) (s : System) : System :=
  mkSystem (sy_world s) (sy_events s) (sy_phase s) (f (sy_clients s)) (sy_next_id s).

(** [commands.send(event)], which fails once the scheduler thread has returned. *)
Definition post (e : Event) (s : System) : System :=
  match sy_phase s with
  | Returned => s
  | _ => mkSystem (sy_world s) (sy_events s ++ [e]) (sy_phase s) (sy_clients s) (sy_next_id s)
  end.

(** ** [WorkloadScheduler] *)

Definition new_world (config : SchedulerPolicyConfig) : World :=
  mkWorld ∅ ∅ [] (new_policy config) false default_counters ∅ ∅
    (with_sink (diagnostic_capacity config)).

Definition new_scheduler (config : SchedulerPolicyConfig) : result ServerError.Error System :=
  if policy_valid config
  then Ok (mkSystem (new_world config) [] Dispatching ∅ 0)
  else Err (ServerError.State "invalid scheduler policy").

(** What [start_session] fills in. *)
Definition prepare_request (config : SchedulerPolicyConfig) (correlation_id inference_id : string)
    (r : EngineRequest) : EngineRequest :=
  let m := rq_scheduling r in
  mkRequest (rq_model r) (rq_prompt r) (rq_max_tokens r) (rq_prior_tokens r) (rq_grammar r)
    (rq_control r)
    (mkMetadata (sm_class m) (sm_source m) (sm_principal m)
       (if bool_decide (sm_correlation_id m = "") then correlation_id else sm_correlation_id m)
       (if bool_decide (sm_inference_id m = "") then inference_id else sm_inference_id m))
    (prefill_tokens config).

Definition start_session (correlation_id inference_id : string) (r : EngineRequest) (s : System)
  : result ServerError.Error unit * System :=
  match w_controls (sy_world s) !! rq_control r with
  | None => (Err ServerError.Cancelled, s)
  | Some control =>
      match Control.check control with
      | Err e => (Err e, s)
      | Ok _ =>
          let id := sy_next_id s in
          match checked_add id 1 with
          | None => (Err (ServerError.State "scheduler session id space exhausted"), s)
          | Some next =>
              let s := mkSystem (sy_world s) (sy_events s) (sy_phase s) (sy_clients s) next in
              match sy_phase s with
              | Returned => (Err ServerError.ShuttingDown, s)
              | _ =>
                  let request :=
                    prepare_request (fp_config (w_policy (sy_world s))) correlation_id
                      inference_id r in
                  let s := with_world (with_channels (insert id (mkChannel [] 0 true))) s in
                  let s := with_clients (insert id (mkClient (rq_control r) false None None)) s in
                  (Ok tt, post (ClientEvent (Submit id request id)) s)
              end
          end
      end
  end.

(** ** Client actions *)

Definition open_call (call : Client → Opening) (id : N) (s : System) : Performed Session :=
  match sy_clients s !! id with
  | None => Disabled
  | Some c =>
      match cl_call c with
      | Some _ => Disabled
      | None =>
          match call c with
          | Returns _ => Moves s
          | Waits None c' => Moves (with_clients (insert id c') s)
          | Waits (Some command) c' =>
              match sy_phase s with
              | Returned => Moves s
              | _ => Moves (post (ClientEvent command) (with_clients (insert id c') s))
              end
          end
      end
  end.

(** Whether some [Sender] of the channel is left: in a job, or in a [Submit] on
    its way. *)
Definition holds_sender (response : N) (e : Event) : bool :=
  match e with
  | ClientEvent (Submit _ _ r) => (r =? response)%N
  | _ => false
  end.

Definition connected (response : N) (s : System) : bool :=
  existsb (λ j, jb_response j =? response)%N (map_values (w_jobs (sy_world s)))
  || existsb (holds_sender response) (sy_events s).

Definition read_one (c : Channel) : Channel := mkChannel (ch_sent c) (S (ch_read c)) (ch_open c).

Definition close (c : Channel) : Channel := mkChannel (ch_sent c) (ch_read c) false.

Definition receive_call (id : N) (s : System) : Performed Session :=
  match sy_clients s !! id, w_channels (sy_world s) !! id with
  | Some c, Some ch =>
      match cl_call c with
      | None => Disabled
      | Some _ =>
          match ch_sent ch !! ch_read ch with
          | Some m =>
              Moves (with_world (with_channels (alter read_one id))
                       (with_clients (insert id (receive m c).2) s))
          | None =>
              if connected id s then Disabled
              else Moves (with_clients
                     (insert id (mkClient (cl_control c) (cl_waiting_ack c) (cl_finished c) None)) s)
          end
      end
  | _, _ => Disabled
  end.

(** [Drop for SchedulerClientSession], and of its receiver. *)
Definition drop_client (id : N) (s : System) : Performed Session :=
  match sy_clients s !! id with
  | None => Disabled
  | Some c =>
      match cl_call c with
      | Some _ => Disabled
      | None =>
          let s' := with_world (with_channels (alter close id)) (with_clients (delete id) s) in
          match cl_finished c with
          | Some _ => Moves s'
          | None =>
              Moves (post (ClientEvent (CancelJob id))
                (with_world (with_controls (alter Control.cancel (cl_control c))) s'))
          end
      end
  end.

(** ** Slot workers *)

(** The body of the worker's loop: the completion's result and session. *)
Definition execute (action : SlotAction Session) (answer : Answer Session)
  : option (result ServerError.Error SessionStep * option Session) :=
  match action, answer with
  | Start _, Started s => Some (Ok (Progress (model_free Preparation 1)), Some s)
  | Start _, Refused e => Some (Err e, None)
  | Step _, Stepped r s => Some (r, Some s)
  | Finish _, Ended (Ok output) => Some (Ok (Finished output), None)
  | Finish _, Ended (Err e) => Some (Err e, None)
  | _, Panicked => Some (Err (ServerError.State "model slot worker panicked"), None)
  | _, _ => None
  end.

Definition pop_task (slot : SlotWorker Session) : SlotWorker Session :=
  mkWorker (tail (sw_queue slot)) (sw_alive slot) (sw_busy slot).

Definition run_task (key : ModelSlotKey) (answer : Answer Session) (duration : N) (s : System)
  : Performed Session :=
  match w_slots (sy_world s) !! key with
  | None => Disabled
  | Some slot =>
      match sw_queue slot with
      | [] => Disabled
      | t :: _ =>
          match execute (tk_action t) answer with
          | None => Disabled
          | Some (r, session) =>
              Moves (post (SlotCompleted (mkCompletion (tk_id t) r session (tk_selection t) duration))
                       (with_world (with_slots (alter pop_task key)) s))
          end
      end
  end.

(** ** The scheduler thread *)

Definition dispatch_action (env : Env) (s : System) : Performed Session :=
  match sy_phase s with
  | Dispatching =>
      match dispatch_one env (sy_world s) with
      | Done true w =>
          Moves (mkSystem w (sy_events s) Dispatching (sy_clients s) (sy_next_id s))
      | Done false w =>
          match settle_round w with
          | Done true w => Moves (mkSystem w [] Returned (sy_clients s) (sy_next_id s))
          | Done false w =>
              Moves (mkSystem w (sy_events s) Receiving (sy_clients s) (sy_next_id s))
          | _ => Panics
          end
      | _ => Panics
      end
  | _ => Disabled
  end.

Definition event_action (env : Env) (s : System) : Performed Session :=
  match sy_phase s, sy_events s with
  | Receiving, e :: rest =>
      match handle_event to_string env e (sy_world s) with
      | Done _ w => Moves (mkSystem w rest Dispatching (sy_clients s) (sy_next_id s))
      | _ => Panics
      end
  | _, _ => Disabled
  end.

Definition perform (a : Action Session) (s : System) : Performed Session :=
  match a with
  | AStart request correlation_id inference_id =>
      Moves (start_session correlation_id inference_id request s).2
  | AOpenStep id => open_call (open_step id) id s
  | AOpenFinish id => open_call (open_finish id) id s
  | AReceive id => receive_call id s
  | ADrop id => drop_client id s
  | AControl control value => Moves (with_world (with_controls (insert control value)) s)
  | AShutdown => Moves (post (ClientEvent Shutdown) s)
  | ASlot key answer duration => run_task key answer duration s
  | ASink => Moves (with_world (with_diagnostics sink_one) s)
  | ADispatch env => dispatch_action env s
  | AEvent env => event_action env s
  end.

(** [generate] never calls [finish] but on a session whose last step was a
    token. *)
Definition disciplined (a : Action Session) (s : System) : bool :=
  match a with
  | AOpenFinish id =>
      match sy_clients s !! id with Some c => cl_waiting_ack c | None => true end
  | _ => true
  end.

Fixpoint run (l : list (Action Session)) (s : System) : Performed Session :=
  match l with
  | [] => Moves s
  | a :: l' =>
      match perform a s with
      | Moves s' => run l' s'
      | r => r
      end
  end.

Inductive reachable (config : SchedulerPolicyConfig) : System → Prop :=
| reachable_new s : new_scheduler config = Ok s → reachable config s
| reachable_step s a s' : reachable config s → perform a s = Moves s' → reachable config s'.

(** The states reached when every client follows [generate]. *)
Inductive generated (config : SchedulerPolicyConfig) : System → Prop :=
| generated_new s : new_scheduler config = Ok s → generated config s
| generated_step s a s' :
    generated config s → disciplined a s = true → perform a s = Moves s' → generated config s'.

End system.
