(* ===== verification/SchedulerInv.v ===== *)
(** The invariant of the scheduler system: for every session, where its job is,
    what is on its channel and what its client still owes; and the slots, the
    phase of the loop and the counters. Every action preserves it. *)

From stdpp Require Import gmap strings list numbers.
From S2P Require Import Prelude Engine FairPolicy FairPolicyLaws Diagnostics Scheduler.
From S2P Require Import SchedulerLaws SchedulerSystem.

(** ** Counting *)

Definition flag (b : bool) : N := if b then 1%N else 0%N.

Definition count {A} (P : A → bool) (l : list A) : N := list_sum (λ x, flag (P x)) l.

#[global] Arguments count : simpl never.

Lemma count_nil {A} (P : A → bool) : count P [] = 0%N.
Proof. done. Qed.

Lemma count_cons {A} (P : A → bool) x l : count P (x :: l) = (flag (P x) + count P l)%N.
Proof. done. Qed.

Lemma count_app {A} (P : A → bool) l l' : count P (l ++ l') = (count P l + count P l')%N.
Proof. induction l as [|x l IH]; [done|]. rewrite <- app_comm_cons, !count_cons, IH. lia. Qed.

Lemma count_snoc {A} (P : A → bool) l x : count P (l ++ [x]) = (count P l + flag (P x))%N.
Proof. rewrite count_app, count_cons, count_nil. lia. Qed.

Lemma count_elem {A} (P : A → bool) l x : x ∈ l → P x = true → (0 < count P l)%N.
Proof.
  induction 1 as [x l|x y l Hin IH]; intros HP; rewrite count_cons; [rewrite HP; cbn; lia|].
  specialize (IH HP). lia.
Qed.

Lemma count_pos {A} (P : A → bool) l : (0 < count P l)%N → ∃ x, x ∈ l ∧ P x = true.
Proof.
  induction l as [|x l IH]; [by rewrite count_nil|]. rewrite count_cons.
  destruct (P x) eqn:Hx; [intros _; exists x; split; [left|done]|]. cbn [flag]. intros Hpos.
  destruct IH as (y & Hy & HP); [lia|]. exists y. split; [by right|done].
Qed.

(** ** Messages and events *)

Definition is_token (m : ClientMessage) : bool :=
  match m with MToken _ _ _ => true | _ => false end.

Definition is_terminal (m : ClientMessage) : bool := negb (is_token m).

Definition unread (ch : Channel) : list ClientMessage := drop (ch_read ch) (ch_sent ch).

Section inv.
Context {Session : Type}.
Variable to_string : DiagnosticRecord → option string.

Abbreviation World := (World Session).
Abbreviation Job := (Job Session).
Abbreviation System := (System Session).
Abbreviation Event := (SchedulerEvent Session).

Implicit Types (w : World) (s : System) (e : Event) (j : Job) (id i : N).

Definition is_submit id e : bool :=
  match e with ClientEvent (Submit i _ _) => (i =? id)%N | _ => false end.

Definition is_ack id e : bool :=
  match e with ClientEvent (ContinueJob i | StopJob i) => (i =? id)%N | _ => false end.

Definition is_cancel id e : bool :=
  match e with ClientEvent (CancelJob i) => (i =? id)%N | _ => false end.

Definition is_done id e : bool :=
  match e with SlotCompleted c => (sp_id c =? id)%N | _ => false end.

Definition any_submit e : bool :=
  match e with ClientEvent (Submit _ _ _) => true | _ => false end.

(** What a well-formed event carries: the channel named by its session, and a
    session with every result after which the job goes on. *)
Definition event_ok e : Prop :=
  match e with
  | ClientEvent (Submit id _ response) => response = id
  | ClientEvent _ => True
  | SlotCompleted c =>
      match sp_result c with
      | Ok (Progress _) | Ok (Token _ _ _ _) => is_Some (sp_session c)
      | _ => True
      end
  end.

(** ** Views *)

(** Everything the system holds about one session. *)
Record View : Type := mkView {
  v_job : option Job;
  v_queued : N;
  v_tasks : N;
  v_submits : N;
  v_acks : N;
  v_cancels : N;
  v_done : N;
  v_channel : option Channel;
  v_client : option Client;
}.

Definition view s id : View :=
  mkView (w_jobs (sy_world s) !! id) (queued (sy_world s) id) (outstanding (sy_world s) id)
    (count (is_submit id) (sy_events s)) (count (is_ack id) (sy_events s))
    (count (is_cancel id) (sy_events s)) (count (is_done id) (sy_events s))
    (w_channels (sy_world s) !! id) (sy_clients s !! id).

Definition empty_view : View := mkView None 0 0 0 0 0 0 None None.

Definition waiting_ack (c : option Client) : bool :=
  match c with Some c => cl_waiting_ack c | None => false end.

(** The tokens of a session that its job does not know to be consumed: unread on
    the channel, read by the client, or acknowledged by an event on its way. *)
Definition credit (acks : N) (ch : Channel) (client : option Client) : N :=
  (acks + flag (waiting_ack client) + count is_token (unread ch))%N.

(** A job is in flight with one task or completion to come, or queued once, or
    waiting for its consumer (who owes an acknowledgement, or has left and
    cancelled), or left over by a shutdown. *)
Definition place_ok (shutting : bool) j (queued tasks finished cancels cr : N)
    (client : option Client) : Prop :=
  if jb_in_flight j
  then queued = 0%N ∧ (tasks + finished = 1)%N ∧ jb_request j = None ∧ jb_session j = None
       ∧ cr = 0%N
  else tasks = 0%N ∧ finished = 0%N ∧
    ((queued = 1%N ∧ cr = 0%N ∧ (is_Some (jb_request j) ∨ is_Some (jb_session j)))
     ∨ (queued = 0%N ∧ is_Some (jb_session j) ∧ (cr = 1%N ∨ cr = 0%N ∧ client = None ∧ (0 < cancels)%N))
     ∨ (queued = 0%N ∧ shutting = true)).

Record channel_ok (ch : Channel) (client : option Client) : Prop := {
  co_read : ch_read ch ≤ length (ch_sent ch);
  co_open : ch_open ch = bool_decide (is_Some client);
  co_last : ∀ n m, ch_sent ch !! n = Some m → is_terminal m = true → S n = length (ch_sent ch);
  co_call : ∀ c, client = Some c → is_Some (cl_call c) → cl_waiting_ack c = false;
  co_finished : ∀ c, client = Some c → is_Some (cl_finished c) →
    (0 < count is_terminal (ch_sent ch))%N;
}.

Definition view_ok (shutting returned : bool) (id : N) (v : View) : Prop :=
  match v_channel v with
  | None => v = empty_view
  | Some ch =>
      channel_ok ch (v_client v)
      ∧ (v_submits v ≤ 1)%N
      ∧ (credit (v_acks v) ch (v_client v) ≤ 1)%N
      ∧ match v_job v with
        | None =>
            v_queued v = 0%N ∧ v_tasks v = 0%N ∧ v_done v = 0%N
            ∧ (if decide (v_submits v = 0%N)
               then v_client v ≠ None → returned = false → count is_terminal (ch_sent ch) = 1%N
               else ch_sent ch = [] ∧ credit (v_acks v) ch (v_client v) = 0%N)
        | Some j =>
            v_submits v = 0%N ∧ jb_response j = id
            ∧ (is_Some (jb_request j) → jb_session j = None)
            ∧ count is_terminal (ch_sent ch) = 0%N
            ∧ (shutting = true → jb_cancel_requested j = true)
            ∧ place_ok shutting j (v_queued v) (v_tasks v) (v_done v) (v_cancels v)
                (credit (v_acks v) ch (v_client v)) (v_client v)
        end
  end.

(** ** The invariant *)

Definition settled_total (c : SchedulerCounters) : N :=
  (sc_completed c + sc_cancelled c + sc_deadlines c + sc_failed c)%N.

Record counters_ok s : Prop := {
  ct_total : (settled_total (w_counters (sy_world s)) + N.of_nat (size (w_jobs (sy_world s)))
              = sc_admitted (w_counters (sy_world s)))%N;
  ct_admitted : (sc_admitted (w_counters (sy_world s)) + count any_submit (sy_events s)
                 ≤ sy_next_id s)%N;
}.

Definition phase_ok s : Prop :=
  match sy_phase s with
  | Dispatching => True
  | Receiving =>
      (∀ x : PolicyEntry, x ∈ fp_runnable (w_policy (sy_world s)) →
         available (sy_world s) (pe_id x) = false)
      ∧ (w_shutting_down (sy_world s) = true → idle_slots (sy_world s) = false)
  | Returned => w_jobs (sy_world s) = ∅ ∧ w_slots (sy_world s) = ∅ ∧ sy_events s = []
      ∧ w_shutting_down (sy_world s) = true
  end.

Record inv s : Prop := {
  in_view : ∀ id, view_ok (w_shutting_down (sy_world s)) (bool_decide (sy_phase s = Returned)) id
              (view s id);
  in_known : ∀ id, (sy_next_id s ≤ id)%N → w_channels (sy_world s) !! id = None;
  in_next : (sy_next_id s ≤ u64_max)%N;
  in_slots : slots_ok (sy_world s);
  in_orphans : sy_phase s ≠ Returned → w_orphans (sy_world s) = [];
  in_phase : phase_ok s;
  in_shut : w_shutting_down (sy_world s) = true → fp_runnable (w_policy (sy_world s)) = [];
  in_events : ∀ e, e ∈ sy_events s → event_ok e;
  in_rounds : sc_rounds (w_counters (sy_world s)) = 0%N;
  in_counters : sy_phase s ≠ Returned → counters_ok s;
}.

(** ** The initial system, and what the invariant gives the handlers *)

Lemma inv_new config s : new_scheduler config = Ok s → inv s.
Proof.
  unfold new_scheduler. destruct (policy_valid config); [|done]. intros [= <-].
  split; try done.
  - intros e He. by apply not_elem_of_nil in He.
Qed.

Lemma inv_channel s id j :
  inv s → w_jobs (sy_world s) !! id = Some j → ∃ ch, w_channels (sy_world s) !! id = Some ch.
Proof.
  intros Hinv Hj. pose proof (in_view s Hinv id) as Hv. unfold view_ok in Hv. cbn in Hv.
  destruct (w_channels (sy_world s) !! id) as [ch|]; [by exists ch|].
  injection Hv as Hv. congruence.
Qed.

Lemma inv_job s id j :
  inv s → w_jobs (sy_world s) !! id = Some j →
  ∃ ch, w_channels (sy_world s) !! id = Some ch ∧ channel_ok ch (sy_clients s !! id)
    ∧ (credit (count (is_ack id) (sy_events s)) ch (sy_clients s !! id) ≤ 1)%N
    ∧ count (is_submit id) (sy_events s) = 0%N ∧ jb_response j = id
    ∧ (is_Some (jb_request j) → jb_session j = None)
    ∧ count is_terminal (ch_sent ch) = 0%N
    ∧ (w_shutting_down (sy_world s) = true → jb_cancel_requested j = true)
    ∧ place_ok (w_shutting_down (sy_world s)) j (queued (sy_world s) id) (outstanding (sy_world s) id)
        (count (is_done id) (sy_events s)) (count (is_cancel id) (sy_events s))
        (credit (count (is_ack id) (sy_events s)) ch (sy_clients s !! id)) (sy_clients s !! id).
Proof.
  intros Hinv Hj. destruct (inv_channel s id j Hinv Hj) as [ch Hch]. exists ch. split; [done|].
  pose proof (in_view s Hinv id) as Hv. unfold view_ok in Hv. cbn in Hv. rewrite Hch, Hj in Hv.
  tauto.
Qed.

(** A session without a job is nowhere. *)
Lemma inv_no_job s id :
  inv s → w_jobs (sy_world s) !! id = None →
  queued (sy_world s) id = 0%N ∧ outstanding (sy_world s) id = 0%N
  ∧ count (is_done id) (sy_events s) = 0%N.
Proof.
  intros Hinv Hj. pose proof (in_view s Hinv id) as Hv. unfold view_ok in Hv. cbn in Hv.
  rewrite Hj in Hv. destruct (w_channels (sy_world s) !! id) as [ch|].
  - tauto.
  - injection Hv as Hv. tauto.
Qed.

Lemma inv_world s : inv s → world_ok (sy_world s).
Proof.
  intros Hinv. split.
  - apply (in_slots s Hinv).
  - intros i j Hj. by destruct (inv_job s i j Hinv Hj) as (ch & _ & _ & _ & _ & Hr & _).
  - intros i j Hj Hf. destruct (inv_job s i j Hinv Hj) as (ch & _ & _ & _ & _ & _ & _ & _ & _ & Hp).
    unfold place_ok in Hp. rewrite Hf in Hp. tauto.
  - intros i j Hj. by destruct (inv_job s i j Hinv Hj) as (ch & _ & _ & _ & _ & _ & Hr & _).
  - intros i j Hj Hf Hq. destruct (inv_job s i j Hinv Hj) as (ch & _ & _ & _ & _ & _ & _ & _ & _ & Hp).
    unfold place_ok in Hp. rewrite Hf in Hp. destruct Hp as (_ & _ & [Hp|[Hp|Hp]]); [tauto|lia|lia].
Qed.

(** ** Counters *)

Lemma settled_terminal r c :
  (settled_total c < u64_max)%N →
  settled_total (count_terminal r c) = (settled_total c + 1)%N
  ∧ sc_admitted (count_terminal r c) = sc_admitted c
  ∧ sc_rounds (count_terminal r c) = sc_rounds c
  ∧ sc_waiting (count_terminal r c) = sc_waiting c.
Proof.
  unfold settled_total. intros Hlt.
  assert (∀ x, (x < u64_max)%N → wrapping_add x 1 = (x + 1)%N) as Hw.
  { intros x Hx. unfold wrapping_add. apply N.mod_small. lia. }
  destruct r as [output|[]]; cbn; rewrite Hw by lia; repeat split; lia.
Qed.

Lemma size_removed id (m : gmap N Job) j :
  m !! id = Some j → N.of_nat (size m) = (N.of_nat (size (delete id m)) + 1)%N.
Proof.
  intros Hj. rewrite <- (insert_delete_id m id j Hj) at 1.
  rewrite map_size_insert_None by apply lookup_delete_eq. lia.
Qed.

Lemma size_replaced id (m : gmap N Job) j j' :
  m !! id = Some j → size (partial_alter (λ _, Some j') id m) = size m.
Proof. intros Hj. by rewrite <- insert_job_eq, map_size_insert_Some by eauto. Qed.

(** ** Sending *)

Lemma unread_send ch m :
  ch_read ch ≤ length (ch_sent ch) →
  unread (send_open m ch) = unread ch ++ (if ch_open ch then [m] else []).
Proof.
  intros Hr. unfold unread, send_open. destruct (ch_open ch); cbn; [|by rewrite app_nil_r].
  by rewrite drop_app_le.
Qed.

Lemma channel_send ch client m :
  channel_ok ch client → count is_terminal (ch_sent ch) = 0%N →
  channel_ok (send_open m ch) client
  ∧ count is_terminal (ch_sent (send_open m ch)) = flag (ch_open ch && is_terminal m)
  ∧ ∀ acks, credit acks (send_open m ch) client
      = (credit acks ch client + flag (ch_open ch && is_token m))%N.
Proof.
  intros Hok Hterm. pose proof Hok as [Hread Hopen Hlast Hcall Hfin].
  assert (∀ acks, credit acks (send_open m ch) client
      = (credit acks ch client + flag (ch_open ch && is_token m))%N) as Hcr.
  { intros acks. unfold credit. rewrite unread_send by done. rewrite count_app.
    destruct (ch_open ch); cbn [andb]; rewrite ?count_cons, ?count_nil; cbn [flag]; lia. }
  split; [|split; [|done]].
  - unfold send_open. destruct (ch_open ch) eqn:Ho; [|exact Hok].
    split; cbn; [rewrite length_app; cbn; lia|congruence| |done|].
    + intros n m' Hn Ht. rewrite lookup_app in Hn. rewrite length_app. cbn.
      destruct (ch_sent ch !! n) as [m0|] eqn:Hn0.
      * injection Hn as ->. apply list_elem_of_lookup_2 in Hn0.
        pose proof (count_elem is_terminal _ _ Hn0 Ht). lia.
      * apply lookup_ge_None in Hn0. destruct (n - length (ch_sent ch)) eqn:Hd; [lia|done].
    + intros c Hc Hf. pose proof (Hfin c Hc Hf). rewrite count_app. lia.
  - unfold send_open. destruct (ch_open ch); cbn [andb ch_sent send_on flag]; [|done].
    rewrite count_snoc, Hterm. lia.
Qed.

(** The view a job leaves behind when its terminal message is sent. *)
Lemma view_ended sd id ch client acks cancels m :
  channel_ok ch client → count is_terminal (ch_sent ch) = 0%N → is_terminal m = true →
  (credit acks ch client ≤ 1)%N →
  view_ok sd false id (mkView None 0 0 0 acks cancels 0 (Some (send_open m ch)) client).
Proof.
  intros Hch Ht Hm Hcr. destruct (channel_send ch client m Hch Ht) as (Hok & Hterm & Hcredit).
  unfold view_ok. cbn. split; [done|]. split; [lia|]. split.
  - rewrite Hcredit. unfold is_terminal in Hm. apply negb_true_iff in Hm. rewrite Hm, andb_false_r.
    cbn [flag]. lia.
  - repeat split. intros Hcl _. rewrite Hterm, Hm, (co_open _ _ Hch).
    rewrite bool_decide_true; [done|]. destruct client; [by eexists|done].
Qed.

Lemma view_with_job sd r id j q tasks acks cancels d ch client :
  channel_ok ch client → (credit acks ch client ≤ 1)%N → jb_response j = id →
  (is_Some (jb_request j) → jb_session j = None) → count is_terminal (ch_sent ch) = 0%N →
  (sd = true → jb_cancel_requested j = true) →
  place_ok sd j q tasks d cancels (credit acks ch client) client →
  view_ok sd r id (mkView (Some j) q tasks 0 acks cancels d (Some ch) client).
Proof.
  intros. unfold view_ok. cbn. do 2 (split; [done|]). done.
Qed.

Lemma place_flying sd j tasks d cancels client :
  (tasks + d = 1)%N → place_ok sd (flying j) 0 tasks d cancels 0 client.
Proof. intros. unfold place_ok. cbn. by repeat split. Qed.

(** ** Actions of the scheduler thread *)

Lemma inv_delta s w' (ev' : list Event) id (j' : option Job) dq do msg :
  inv s → sy_phase s ≠ Returned →
  delta id (sy_world s) w' j' dq do msg →
  (∀ i, i ≠ id → count (is_submit i) ev' = count (is_submit i) (sy_events s)
     ∧ count (is_ack i) ev' = count (is_ack i) (sy_events s)
     ∧ count (is_cancel i) ev' = count (is_cancel i) (sy_events s)
     ∧ count (is_done i) ev' = count (is_done i) (sy_events s)) →
  (∀ e, e ∈ ev' → event_ok e) →
  view_ok (w_shutting_down (sy_world s)) false id
    (mkView j' dq do (count (is_submit id) ev') (count (is_ack id) ev')
       (count (is_cancel id) ev') (count (is_done id) ev')
       (match msg with
        | Some m => send_open m <$> w_channels (sy_world s) !! id
        | None => w_channels (sy_world s) !! id
        end) (sy_clients s !! id)) →
  (w_shutting_down (sy_world s) = true → dq = 0%N) →
  sc_rounds (w_counters w') = 0%N →
  counters_ok (mkSystem w' ev' Dispatching (sy_clients s) (sy_next_id s)) →
  inv (mkSystem w' ev' Dispatching (sy_clients s) (sy_next_id s)).
Proof.
  intros Hinv Hph Hd Hcnt Hev Hview Hshut Hrounds Hct.
  assert (∀ i, i ≠ id → w_channels w' !! i = w_channels (sy_world s) !! i) as Hother.
  { intros i Hne. rewrite (de_channels _ _ _ _ _ _ _ Hd). destruct msg; [|done].
    by rewrite lookup_alter_ne. }
  split; cbn; try done.
  - intros i. destruct (decide (i = id)) as [->|Hne].
    + unfold view. cbn. rewrite (de_jobs _ _ _ _ _ _ _ Hd), lookup_partial_alter_eq.
      rewrite (de_queued _ _ _ _ _ _ _ Hd), (de_outstanding _ _ _ _ _ _ _ Hd), !decide_True by done.
      rewrite (de_shutting _ _ _ _ _ _ _ Hd), (de_channels _ _ _ _ _ _ _ Hd).
      destruct msg; [rewrite lookup_alter_eq|]; exact Hview.
    + pose proof (in_view s Hinv i) as Hv. rewrite bool_decide_false in Hv by done.
      destruct (Hcnt i Hne) as (H1 & H2 & H3 & H4).
      unfold view in *. cbn. rewrite (de_jobs _ _ _ _ _ _ _ Hd), lookup_partial_alter_ne by done.
      rewrite (de_queued _ _ _ _ _ _ _ Hd), (de_outstanding _ _ _ _ _ _ _ Hd), !decide_False by done.
      rewrite (de_shutting _ _ _ _ _ _ _ Hd), Hother, H1, H2, H3, H4 by done. exact Hv.
  - intros i Hi. pose proof (in_known s Hinv i Hi) as Hk. destruct (decide (i = id)) as [->|Hne].
    + rewrite (de_channels _ _ _ _ _ _ _ Hd). destruct msg; [|done].
      by rewrite lookup_alter_eq, Hk.
    + by rewrite Hother.
  - apply (in_next s Hinv).
  - apply (de_slots _ _ _ _ _ _ _ Hd).
  - intros _. rewrite (de_orphans _ _ _ _ _ _ _ Hd). by apply (in_orphans s Hinv).
  - rewrite (de_shutting _ _ _ _ _ _ _ Hd). intros Hsh. pose proof (in_shut s Hinv Hsh) as Hnil.
    pose proof (de_length _ _ _ _ _ _ _ Hd) as Hlen. rewrite Hnil, (Hshut Hsh) in Hlen.
    apply nil_length_inv. cbn in Hlen. lia.
Qed.

(** The thread returns: every job gets its cancellation. *)
Lemma inv_return s w' :
  inv s → w_shutting_down (sy_world s) = true →
  w_jobs w' = ∅ → w_slots w' = ∅ → w_policy w' = w_policy (sy_world s) →
  w_shutting_down w' = true →
  (∀ i, w_channels w' !! i =
     if decide (is_Some (w_jobs (sy_world s) !! i))
     then send_open (MFailed ServerError.Cancelled) <$> w_channels (sy_world s) !! i
     else w_channels (sy_world s) !! i) →
  sc_rounds (w_counters w') = 0%N →
  inv (mkSystem w' [] Returned (sy_clients s) (sy_next_id s)).
Proof.
  intros Hinv Hsd Hj Hs Hp Hsd' Hch Hr.
  assert (∀ i, queued w' i = 0%N) as Hq.
  { intros i. unfold queued. rewrite Hp. by rewrite (in_shut s Hinv Hsd). }
  assert (∀ i, outstanding w' i = 0%N) as Ho.
  { intros i. unfold outstanding, tasks_of. rewrite Hs. apply map_sum_empty. }
  split; cbn; try done.
  - intros id. unfold view. cbn. rewrite Hj, lookup_empty, Hq, Ho, !count_nil, Hch.
    destruct (w_jobs (sy_world s) !! id) as [j|] eqn:Hjob.
    + rewrite decide_True by by eexists.
      destruct (inv_job s id j Hinv Hjob) as (ch & Hc & Hcok & Hcr & _ & _ & _ & Hterm & _).
      rewrite Hc. destruct (channel_send ch (sy_clients s !! id) (MFailed ServerError.Cancelled))
        as (Hok & _ & Hcredit); [done..|].
      unfold view_ok. cbn. split; [done|]. split; [done|]. split; [|by repeat split].
      rewrite Hcredit, andb_false_r. unfold credit in *. cbn [flag]. lia.
    + rewrite decide_False by (by intros [? ?]).
      pose proof (in_view s Hinv id) as Hv. unfold view_ok in Hv. cbn in Hv.
      destruct (w_channels (sy_world s) !! id) as [ch|].
      * destruct Hv as (Hok & _ & Hcr & _). unfold view_ok. cbn. split; [done|]. split; [done|].
        split; [unfold credit in *; lia|by repeat split].
      * unfold view, empty_view in Hv. by assert (sy_clients s !! id = None) as -> by congruence.
  - intros i Hi. rewrite Hch, (in_known s Hinv i Hi). by destruct (decide _).
  - apply (in_next s Hinv).
  - intros k sl. by rewrite Hs, lookup_empty.
  - intros _. rewrite Hp. by apply (in_shut s Hinv).
  - intros e He. by apply not_elem_of_nil in He.
Qed.

Lemma inv_dispatch env s :
  inv s → sy_phase s = Dispatching →
  ∃ s', dispatch_action env s = Moves s' ∧ inv s'.
Proof.
  intros Hinv Hph. unfold dispatch_action. rewrite Hph.
  pose proof (inv_world s Hinv) as Hwo.
  destruct (wp_done _ _ _ (dispatch_one_spec env (sy_world s) Hwo)) as (more & w & Hrun & Hdisp).
  rewrite Hrun. assert (sy_phase s ≠ Returned) as Hnr by congruence.
  destruct more.
  - eexists. split; [done|]. destruct Hdisp as (id & j & Hj & Hfl & Hq & Hdisp).
    destruct (inv_job s id j Hinv Hj) as (ch & Hch & Hcok & Hcr & Hsub & Hresp & Hfresh & Hterm & Hsd & Hpl).
    unfold place_ok in Hpl. rewrite Hfl in Hpl.
    destruct Hpl as (Ht & Hdone & [(Hq1 & Hcr0 & _)|[Hq0|Hq0]]); [|lia|lia].
    rewrite Hq1 in Hdisp. change (1 - 1)%N with 0%N in Hdisp.
    pose proof (in_counters s Hinv Hnr) as [Htot Hadm]. pose proof (in_next s Hinv) as Hnext.
    pose proof (size_removed id _ j Hj) as Hsize. pose proof (in_rounds s Hinv) as Hrounds.
    destruct Hdisp as [[Hd Hc]|(e & Hd & Hc)].
    + eapply (inv_delta s w _ id); try done.
      * apply (in_events s Hinv).
      * rewrite Hch, Hsub, Hdone. by apply view_with_job.
      * by rewrite Hc.
      * split; cbn; rewrite Hc; [|done]. rewrite (de_jobs _ _ _ _ _ _ _ Hd).
        by rewrite (size_replaced id _ j).
    + destruct (settled_terminal (Err e) (w_counters (sy_world s))) as (H1 & H2 & H3 & _); [lia|].
      eapply (inv_delta s w _ id); try done.
      * apply (in_events s Hinv).
      * rewrite Hch, Hsub, Hdone. by apply view_ended.
      * by rewrite Hc, H3.
      * split; cbn; rewrite Hc, ?H1, H2; [|done]. rewrite (de_jobs _ _ _ _ _ _ _ Hd).
        rewrite <- delete_job_eq. lia.
  - destruct Hdisp as [-> Hnone].
    set (w := sy_world s) in *.
    pose proof (settle_round_spec w
      (λ b w', inv (if b then mkSystem w' [] Returned (sy_clients s) (sy_next_id s)
                    else mkSystem w' (sy_events s) Receiving (sy_clients s) (sy_next_id s)))
      (λ _ _, False) (wo_response _ Hwo)) as Hspec.
    assert (wp settle_round (λ b w', inv (if b then mkSystem w' [] Returned (sy_clients s) (sy_next_id s)
                    else mkSystem w' (sy_events s) Receiving (sy_clients s) (sy_next_id s)))
      (λ _ _, False) w) as Hwp.
    { apply Hspec; clear Hspec.
      - intros Hidle. destruct Hinv as [Hv Hk Hn Hs Ho Hp Hsh Hev Hr Hc].
        assert (∀ i, view_ok (w_shutting_down w) false i (view s i)) as Hv'.
        { intros i. pose proof (Hv i) as Hvi. by rewrite bool_decide_false in Hvi. }
        pose proof (Hc Hnr) as [Htot Hadm].
        pose proof (Ho Hnr) as Horph.
        split; try done. split; [done|]. cbn. intros Hshut. by rewrite Hshut in Hidle.
      - intros Hb w' Hj Hs Hp Hsd Hch Hc. apply andb_true_iff in Hb as [Hsd0 _].
        apply inv_return; try done. by rewrite Hc, <- (in_rounds s Hinv). }
    destruct (wp_done settle_round _ w Hwp) as (b & w' & Hs & Hi). rewrite Hs.
    destruct b; eexists; (split; [done|exact Hi]).
Qed.

(** ** Events *)

Lemma flag_le b : (flag b ≤ 1)%N.
Proof. destruct b; cbn; lia. Qed.

(** The counts of the other sessions, and the credit of this one, when the first
    event is taken. *)
Ltac other_sessions Hev :=
  let i := fresh "i" in let Hne := fresh "Hne" in
  intros i Hne; rewrite Hev, !count_cons; cbn [is_submit is_ack is_cancel is_done];
  rewrite ?(proj2 (N.eqb_neq _ i)) by (intros Heq; apply Hne; symmetry; exact Heq);
  cbn [flag]; repeat split; lia.

Lemma credit_ack acks ch client n : credit (n + acks) ch client = (n + credit acks ch client)%N.
Proof. unfold credit. lia. Qed.

Lemma wrapping_add_small a b : (a + b ≤ u64_max)%N → wrapping_add a b = (a + b)%N.
Proof. intros. unfold wrapping_add. apply N.mod_small. lia. Qed.

(** Taking an event off the queue without a change of the world. *)
Lemma inv_ignored s e rest id :
  inv s → sy_events s = e :: rest → sy_phase s ≠ Returned →
  (∀ i, i ≠ id → is_submit i e = false ∧ is_ack i e = false ∧ is_cancel i e = false
     ∧ is_done i e = false) →
  is_submit id e = false → is_done id e = false → any_submit e = false →
  (w_shutting_down (sy_world s) = true ∨ w_jobs (sy_world s) !! id = None) →
  inv (mkSystem (sy_world s) rest Dispatching (sy_clients s) (sy_next_id s)).
Proof.
  intros Hinv Hev Hnr Hother Hsub Hdone Hany Hcase.
  pose proof (in_counters s Hinv Hnr) as [Htot Hadm]. rewrite Hev, count_cons in Hadm.
  apply (inv_delta s (sy_world s) rest id (w_jobs (sy_world s) !! id) (queued (sy_world s) id)
           (outstanding (sy_world s) id) None); try done.
  - apply delta_queue; try done; [apply (in_slots s Hinv)|].
    intros i. by destruct (decide (i = id)) as [->|].
  - intros i Hne. destruct (Hother i Hne) as (H1 & H2 & H3 & H4).
    rewrite Hev, !count_cons, H1, H2, H3, H4. by repeat split.
  - intros e' He'. apply (in_events s Hinv). rewrite Hev. by right.
  - pose proof (in_view s Hinv id) as Hv. rewrite bool_decide_false in Hv by done.
    unfold view in Hv. rewrite Hev, !count_cons, Hsub, Hdone in Hv.
    destruct (w_channels (sy_world s) !! id) as [ch|] eqn:Hch; unfold view_ok in *; cbn in Hv |- *.
    2:{ unfold empty_view in *. injection Hv as ? ? ? ? ? ? ? ?.
        repeat match goal with H : (_ + _ = 0)%N |- _ => apply N.eq_add_0 in H as [_ H] end.
        congruence. }
    rewrite !credit_ack in Hv. destruct Hv as (Hok & Hs1 & Hcr & Hj). split; [done|].
    split; [lia|]. split; [lia|].
    destruct (w_jobs (sy_world s) !! id) as [j|] eqn:Hjob.
    + destruct Hj as (H1 & H2 & H3 & H4 & H5 & Hp). destruct Hcase as [Hsd|]; [|done].
      do 4 (split; [done|]). split; [done|]. unfold place_ok in *.
      destruct (jb_in_flight j).
      * destruct Hp as (Hq & Ht & Hr & Hs & Hc). repeat split; try done. lia.
      * destruct Hp as (Ht & Hd & Hp). split; [done|]. split; [done|].
        destruct Hp as [(Hq & _)|[(Hq & _)|Hp]]; [|by right; right|by right; right].
        exfalso. unfold queued in Hq. by rewrite (in_shut s Hinv Hsd) in Hq.
    + destruct Hj as (H1 & H2 & H3 & Hs). repeat split; try done.
      change (0 + count (is_submit id) rest)%N with (count (is_submit id) rest) in Hs.
      destruct (decide (count (is_submit id) rest = 0%N)); [done|].
      destruct Hs as [Hnil Hz]. split; [done|]. lia.
  - intros Hsd. unfold queued. by rewrite (in_shut s Hinv Hsd).
  - apply (in_rounds s Hinv).
  - split; cbn; [done|]. rewrite Hany in Hadm. exact Hadm.
Qed.

Lemma inv_submit env s id request response rest :
  inv s → sy_events s = ClientEvent (Submit id request response) :: rest →
  sy_phase s = Receiving →
  wp (handle_event to_string env (ClientEvent (Submit id request response)))
    (λ _ w', inv (mkSystem w' rest Dispatching (sy_clients s) (sy_next_id s)))
    (λ _ _, False) (sy_world s).
Proof.
  intros Hinv Hev Hph. assert (sy_phase s ≠ Returned) as Hnr by congruence.
  pose proof (in_counters s Hinv Hnr) as [Htot Hadm]. rewrite Hev, count_cons in Hadm.
  pose proof (in_next s Hinv) as Hnext. pose proof (in_rounds s Hinv) as Hrounds.
  assert (∀ e', e' ∈ rest → event_ok e') as Hevok.
  { intros e' He'. apply (in_events s Hinv). rewrite Hev. by right. }
  assert (response = id) as ->.
  { apply (in_events s Hinv (ClientEvent (Submit id request response))). rewrite Hev. by left. }
  pose proof (in_view s Hinv id) as Hv. rewrite bool_decide_false in Hv by done.
  unfold view in Hv. rewrite Hev, !count_cons in Hv. cbn [is_submit is_ack is_cancel is_done] in Hv.
  rewrite N.eqb_refl in Hv. cbn [flag any_submit] in *. rewrite !N.add_0_l in Hv.
  unfold view_ok in Hv. cbn in Hv.
  destruct (w_channels (sy_world s) !! id) as [ch|] eqn:Hch.
  2:{ exfalso. injection Hv as ? ? ? Hz ? ? ?. lia. }
  destruct Hv as (Hok & Hs1 & Hcr & Hv).
  destruct (w_jobs (sy_world s) !! id) as [j|] eqn:Hjob; [exfalso; destruct Hv as [Hz _]; lia|].
  destruct Hv as (Hq & Ht & Hd & Hv). rewrite decide_False in Hv by lia.
  destruct Hv as [Hsent Hcr0]. assert (count (is_submit id) rest = 0%N) as Hsub0 by lia.
  assert (count is_terminal (ch_sent ch) = 0%N) as Hterm by by rewrite Hsent.
  cbn [handle_event]. wp_run. destruct (w_shutting_down (sy_world s)) eqn:Hsd; cbn [negb].
  - wp_run. apply send_message_spec. wp_run.
    eapply (inv_delta s _ rest id None 0 0 (Some (MFailed ServerError.ShuttingDown))); try done.
    + split; cbn; try done.
      * by rewrite partial_alter_same.
      * intros i. by destruct (decide (i = id)) as [->|].
      * intros i. by destruct (decide (i = id)) as [->|].
      * unfold queued in *. lia.
      * apply (in_slots s Hinv).
    + other_sessions Hev.
    + rewrite Hch, Hsub0, Hd, Hsd. apply view_ended; try done.
    + split; cbn; [done|]. lia.
  - eapply wp_mono; [apply (submit_spec env id request id (sy_world s)); [apply (in_slots s Hinv)|done]| |done].
    cbn beta. intros _ w' ((round & Hdelta) & Hc). rewrite Hq, Ht in Hdelta.
    eapply (inv_delta s _ rest id); try done.
    + other_sessions Hev.
    + rewrite Hch, Hsub0, Hd. apply view_with_job; try done; [by rewrite Hsd|].
      rewrite Hcr0. unfold place_ok. cbn. repeat split. left. repeat split. left. by eexists.
    + rewrite Hsd. done.
    + by rewrite Hc.
    + split; cbn; rewrite Hc; cbn; rewrite wrapping_add_small by lia.
      * rewrite (de_jobs _ _ _ _ _ _ _ Hdelta), <- insert_job_eq, map_size_insert_None by done.
        change (settled_total (count_admitted (w_counters (sy_world s))))
          with (settled_total (w_counters (sy_world s))). lia.
      * lia.
Qed.

(** The queue of events moves on and the job's own view is what changes. *)
Lemma event_tail s e rest :
  inv s → sy_events s = e :: rest → sy_phase s = Receiving →
  sy_phase s ≠ Returned ∧ counters_ok s ∧ (∀ e', e' ∈ rest → event_ok e')
  ∧ (count any_submit (sy_events s) = flag (any_submit e) + count any_submit rest)%N.
Proof.
  intros Hinv Hev Hph. assert (sy_phase s ≠ Returned) as Hnr by congruence.
  split; [done|]. split; [by apply (in_counters s Hinv)|]. split.
  - intros e' He'. apply (in_events s Hinv). rewrite Hev. by right.
  - by rewrite Hev, count_cons.
Qed.

(** A job whose client acknowledges is waiting for it. *)
Lemma acknowledged s id j :
  inv s → w_jobs (sy_world s) !! id = Some j → w_shutting_down (sy_world s) = false →
  (0 < count (is_ack id) (sy_events s))%N →
  jb_in_flight j = false ∧ queued (sy_world s) id = 0%N ∧ outstanding (sy_world s) id = 0%N
  ∧ is_Some (jb_session j) ∧ count (is_done id) (sy_events s) = 0%N
  ∧ ∃ ch, w_channels (sy_world s) !! id = Some ch
      ∧ credit (count (is_ack id) (sy_events s)) ch (sy_clients s !! id) = 1%N.
Proof.
  intros Hinv Hj Hsd Hack.
  destruct (inv_job s id j Hinv Hj) as (ch & Hch & Hok & Hcr & Hsub & Hresp & Hfresh & Hterm & _ & Hp).
  assert (0 < credit (count (is_ack id) (sy_events s)) ch (sy_clients s !! id))%N as Hpos
    by (unfold credit; lia).
  unfold place_ok in Hp. rewrite Hsd in Hp. destruct (jb_in_flight j); [lia|].
  destruct Hp as (Ht & Hd & [Hp|[(Hq & Hs & Hp)|[_ Hp]]]); [lia| |done].
  do 5 (split; [done|]). exists ch. split; [done|]. lia.
Qed.

Lemma inv_continue env s id rest :
  inv s → sy_events s = ClientEvent (ContinueJob id) :: rest → sy_phase s = Receiving →
  wp (handle_event to_string env (ClientEvent (ContinueJob id)))
    (λ _ w', inv (mkSystem w' rest Dispatching (sy_clients s) (sy_next_id s)))
    (λ _ _, False) (sy_world s).
Proof.
  intros Hinv Hev Hph. destruct (event_tail s _ rest Hinv Hev Hph) as (Hnr & [Htot Hadm] & Hevok & Hany).
  assert (w_shutting_down (sy_world s) = true ∨ w_jobs (sy_world s) !! id = None →
    inv (mkSystem (sy_world s) rest Dispatching (sy_clients s) (sy_next_id s))) as Hign.
  { intros Hcase. eapply inv_ignored; try done.
    intros i Hne. cbn. by rewrite (proj2 (N.eqb_neq id i)) by congruence. }
  cbn [handle_event]. wp_run. destruct (w_shutting_down (sy_world s)) eqn:Hsd; cbn [negb];
    [wp_run; apply Hign; by left|].
  eapply wp_mono; [apply (continue_spec env id (sy_world s)), (in_slots s Hinv)| |done].
  cbn beta. intros _ w'. destruct (decide _) as [Hn|Hsome]; [intros ->; apply Hign; by right|].
  intros [Hd Hc]. destruct (w_jobs (sy_world s) !! id) as [j|] eqn:Hj; [|done].
  destruct (inv_job s id j Hinv Hj) as (ch & Hch & Hok & Hcr & Hsub & Hresp & Hfresh & Hterm & Hcan & _).
  destruct (acknowledged s id j Hinv Hj Hsd) as (Hfl & Hq & Ht & Hs & Hdone & ch' & Hch' & Hcr1).
  { rewrite Hev, count_cons. cbn. rewrite N.eqb_refl. cbn. lia. }
  rewrite Hch in Hch'. injection Hch' as <-. rewrite Hq, Ht in Hd.
  rewrite Hev, !count_cons in Hcr1, Hsub, Hdone. cbn [is_submit is_ack is_done] in Hcr1, Hsub, Hdone.
  rewrite N.eqb_refl in Hcr1. cbn [flag] in Hcr1, Hsub, Hdone. rewrite credit_ack in Hcr1.
  rewrite N.add_0_l in Hsub, Hdone.
  eapply (inv_delta s _ rest id); try done.
  - other_sessions Hev.
  - rewrite Hch, Hsub, Hdone. apply view_with_job; try done; [lia|].
    unfold place_ok. rewrite Hfl. repeat split. left. split; [done|]. split; [lia|]. by right.
  - by rewrite Hsd.
  - rewrite Hc. apply (in_rounds s Hinv).
  - rewrite Hany in Hadm. split; cbn; rewrite Hc; [|exact Hadm].
    by rewrite (de_jobs _ _ _ _ _ _ _ Hd), (size_replaced id _ j).
Qed.

Lemma inv_stop env s id rest :
  inv s → sy_events s = ClientEvent (StopJob id) :: rest → sy_phase s = Receiving →
  wp (handle_event to_string env (ClientEvent (StopJob id)))
    (λ _ w', inv (mkSystem w' rest Dispatching (sy_clients s) (sy_next_id s)))
    (λ _ _, False) (sy_world s).
Proof.
  intros Hinv Hev Hph. destruct (event_tail s _ rest Hinv Hev Hph) as (Hnr & [Htot Hadm] & Hevok & Hany).
  assert (0 < count (is_ack id) (sy_events s))%N as Hack.
  { rewrite Hev, count_cons. cbn. rewrite N.eqb_refl. cbn. lia. }
  assert (w_shutting_down (sy_world s) = true ∨ w_jobs (sy_world s) !! id = None →
    inv (mkSystem (sy_world s) rest Dispatching (sy_clients s) (sy_next_id s))) as Hign.
  { intros Hcase. eapply inv_ignored; try done.
    intros i Hne. cbn. by rewrite (proj2 (N.eqb_neq id i)) by congruence. }
  cbn [handle_event]. wp_run. destruct (w_shutting_down (sy_world s)) eqn:Hsd; cbn [negb];
    [wp_run; apply Hign; by left|].
  eapply wp_mono; [apply (stop_spec env id (sy_world s) (inv_world s Hinv))| |done].
  { intros j Hj. destruct (acknowledged s id j Hinv Hj Hsd Hack) as (Hfl & _ & _ & Hs & _). done. }
  cbn beta. intros _ w'. pose proof (in_next s Hinv) as Hnext.
  destruct (w_jobs (sy_world s) !! id) as [j|] eqn:Hj.
  - destruct (inv_job s id j Hinv Hj) as (ch & Hch & Hok & Hcr & Hsub & Hresp & Hfresh & Hterm & Hcan & _).
    destruct (acknowledged s id j Hinv Hj Hsd Hack) as (Hfl & Hq & Ht & Hs & Hdone & ch' & Hch' & Hcr1).
    rewrite Hch in Hch'. injection Hch' as <-.
    rewrite Hev, !count_cons in Hcr1, Hsub, Hdone. cbn [is_submit is_ack is_done] in Hcr1, Hsub, Hdone.
    rewrite N.eqb_refl in Hcr1. cbn [flag] in Hcr1, Hsub, Hdone. rewrite credit_ack in Hcr1.
    rewrite N.add_0_l in Hsub, Hdone. rewrite Hany in Hadm.
    pose proof (size_removed id _ j Hj) as Hsize.
    intros [[Hd Hc]|(e & Hd & Hc)].
    + eapply (inv_delta s _ rest id); try done.
      * other_sessions Hev.
      * rewrite Hch, Hsub, Hdone. apply view_with_job; try done; [lia|].
        replace (credit _ _ _) with 0%N by lia. by apply place_flying.
      * rewrite Hc. apply (in_rounds s Hinv).
      * split; cbn; rewrite Hc; [|exact Hadm].
        by rewrite (de_jobs _ _ _ _ _ _ _ Hd), (size_replaced id _ j).
    + destruct (settled_terminal (Err e) (waiting_sub (w_counters (sy_world s)))) as (H1 & H2 & H3 & _).
      { change (settled_total (waiting_sub _)) with (settled_total (w_counters (sy_world s))). lia. }
      eapply (inv_delta s _ rest id); try done.
      * other_sessions Hev.
      * rewrite Hch, Hsub, Hdone. apply view_ended; try done. lia.
      * rewrite Hc, H3. apply (in_rounds s Hinv).
      * split; cbn; rewrite Hc, ?H1, H2; [|exact Hadm].
        rewrite (de_jobs _ _ _ _ _ _ _ Hd), <- delete_job_eq.
        change (settled_total (waiting_sub _)) with (settled_total (w_counters (sy_world s))).
        change (sc_admitted (waiting_sub _)) with (sc_admitted (w_counters (sy_world s))). lia.
  - intros [Hd Hc]. destruct (inv_no_job s id Hinv Hj) as (Hq & Ht & Hdone).
    pose proof (Hign (or_intror eq_refl)) as Hsame.
    (* the world differs in the waiting counter only *)
    rewrite Hany in Hadm. rewrite Ht in Hd.
    pose proof (in_view _ Hsame id) as Hv. cbn in Hv. unfold view in Hv. cbn in Hv.
    rewrite Hj, Hq, Ht in Hv.
    eapply (inv_delta s _ rest id); try done.
    + other_sessions Hev.
    + rewrite Hc. apply (in_rounds s Hinv).
    + split; cbn; rewrite Hc; [|exact Hadm].
      by rewrite (de_jobs _ _ _ _ _ _ _ Hd), partial_alter_same.
Qed.

Lemma settled_waiting_sub b c :
  settled_total (if b : bool then waiting_sub c else c) = settled_total c
  ∧ sc_admitted (if b then waiting_sub c else c) = sc_admitted c
  ∧ sc_rounds (if b then waiting_sub c else c) = sc_rounds c.
Proof. by destruct b. Qed.

Lemma inv_cancel env s id rest :
  inv s → sy_events s = ClientEvent (CancelJob id) :: rest → sy_phase s = Receiving →
  wp (handle_event to_string env (ClientEvent (CancelJob id)))
    (λ _ w', inv (mkSystem w' rest Dispatching (sy_clients s) (sy_next_id s)))
    (λ _ _, False) (sy_world s).
Proof.
  intros Hinv Hev Hph. destruct (event_tail s _ rest Hinv Hev Hph) as (Hnr & [Htot Hadm] & Hevok & Hany).
  assert (w_shutting_down (sy_world s) = true ∨ w_jobs (sy_world s) !! id = None →
    inv (mkSystem (sy_world s) rest Dispatching (sy_clients s) (sy_next_id s))) as Hign.
  { intros Hcase. eapply inv_ignored; try done.
    intros i Hne. cbn. by rewrite (proj2 (N.eqb_neq id i)) by congruence. }
  cbn [handle_event]. wp_run. destruct (w_shutting_down (sy_world s)) eqn:Hsd; cbn [negb];
    [wp_run; apply Hign; by left|].
  eapply wp_mono; [apply (cancel_spec env id (sy_world s) (inv_world s Hinv))| |done].
  cbn beta. intros _ w'. pose proof (in_next s Hinv) as Hnext. rewrite Hany in Hadm.
  destruct (w_jobs (sy_world s) !! id) as [j|] eqn:Hj.
  - destruct (inv_job s id j Hinv Hj) as (ch & Hch & Hok & Hcr & Hsub & Hresp & Hfresh & Hterm & Hcan & Hp).
    pose proof (size_removed id _ j Hj) as Hsize.
    rewrite Hev, !count_cons in Hcr, Hsub, Hp. cbn [is_submit is_ack is_done is_cancel] in Hcr, Hsub, Hp.
    cbn [flag] in Hcr, Hsub, Hp. rewrite !N.add_0_l in Hcr, Hsub, Hp.
    unfold place_ok in Hp. destruct (jb_in_flight j) eqn:Hfl; intros [Hd Hc].
    + destruct Hp as (Hq & Ht & Hr & Hs & Hcr0).
      eapply (inv_delta s _ rest id); try done.
      * other_sessions Hev.
      * rewrite Hch, Hsub. apply view_with_job; try done.
        unfold place_ok. cbn. rewrite Hfl. by repeat split.
      * rewrite Hc. apply (in_rounds s Hinv).
      * split; cbn; rewrite Hc; [|exact Hadm].
        by rewrite (de_jobs _ _ _ _ _ _ _ Hd), (size_replaced id _ j).
    + destruct Hp as (Ht & Hdone & _). unfold cancelled_counters in Hc.
      set (b := bool_decide (is_Some (jb_session j)) && (queued (sy_world s) id =? 0)%N) in *.
      destruct (settled_waiting_sub b (w_counters (sy_world s))) as (G1 & G2 & G3).
      destruct (settled_terminal (Err ServerError.Cancelled)
        (if b then waiting_sub (w_counters (sy_world s)) else w_counters (sy_world s)))
        as (H1 & H2 & H3 & _); [rewrite G1; lia|].
      eapply (inv_delta s _ rest id); try done.
      * other_sessions Hev.
      * rewrite Hch, Hsub, Hdone. by apply view_ended.
      * rewrite Hc, H3, G3. apply (in_rounds s Hinv).
      * split; cbn; rewrite Hc, ?H1, H2, G2; [|exact Hadm]. rewrite G1.
        rewrite (de_jobs _ _ _ _ _ _ _ Hd), <- delete_job_eq. lia.
  - intros [Hd Hc]. destruct (inv_no_job s id Hinv Hj) as (Hq & Ht & Hdone).
    pose proof (Hign (or_intror eq_refl)) as Hsame. rewrite Ht in Hd.
    pose proof (in_view _ Hsame id) as Hv. cbn in Hv. unfold view in Hv. cbn in Hv.
    rewrite Hj, Hq, Ht in Hv.
    eapply (inv_delta s _ rest id); try done.
    + other_sessions Hev.
    + rewrite Hc. apply (in_rounds s Hinv).
    + split; cbn; rewrite Hc; [|exact Hadm].
      by rewrite (de_jobs _ _ _ _ _ _ _ Hd), partial_alter_same.
Qed.

Lemma inv_shutdown env s rest :
  inv s → sy_events s = ClientEvent Shutdown :: rest → sy_phase s = Receiving →
  wp (handle_event to_string env (ClientEvent Shutdown))
    (λ _ w', inv (mkSystem w' rest Dispatching (sy_clients s) (sy_next_id s)))
    (λ _ _, False) (sy_world s).
Proof.
  intros Hinv Hev Hph. destruct (event_tail s _ rest Hinv Hev Hph) as (Hnr & [Htot Hadm] & Hevok & Hany).
  cbn [handle_event]. apply begin_shutdown_spec. intros w' Hch Hsl Ho Hrun Hsd Hc Hj.
  assert (∀ i, outstanding w' i = outstanding (sy_world s) i) as Hout.
  { intros i. unfold outstanding. by rewrite Hsl. }
  split; cbn; try done.
  - intros id. pose proof (in_view s Hinv id) as Hv. rewrite bool_decide_false in Hv by done.
    unfold view in *. cbn. rewrite Hj, lookup_fmap, Hout, Hch, Hsd. unfold queued at 1.
    rewrite Hrun. change (occ id (pe_id <$> [])) with 0%N.
    rewrite Hev, !count_cons in Hv. cbn [is_submit is_ack is_cancel is_done flag] in Hv.
    rewrite !N.add_0_l in Hv. unfold view_ok in *. cbn in Hv |- *.
    destruct (w_channels (sy_world s) !! id) as [ch|].
    2:{ unfold empty_view in *. injection Hv as Hjob ? ? ? ? ? ?. rewrite Hjob. cbn. congruence. }
    destruct Hv as (Hok & Hs1 & Hcr & Hv). do 3 (split; [done|]).
    destruct (w_jobs (sy_world s) !! id) as [j|]; cbn.
    + destruct Hv as (H1 & H2 & H3 & H4 & H5 & Hp). do 5 (split; [done|]).
      unfold place_ok in *. cbn. destruct (jb_in_flight j); [tauto|].
      destruct Hp as (Ht & Hd & Hp). split; [done|]. split; [done|]. right. by right.
    + tauto.
  - intros i Hi. rewrite Hch. by apply (in_known s Hinv).
  - apply (in_next s Hinv).
  - intros k sl. rewrite Hsl, Hj. intros Hk. destruct (in_slots s Hinv k sl Hk) as [Ha Ht Hb].
    split; [done|..].
    + intros t Hin. destruct (Ht t Hin) as (j & Hjt & Hs). exists (request_cancel j).
      by rewrite lookup_fmap, Hjt.
    + intros Hbusy. destruct (Hb Hbusy) as (i & j & Hji & Hs). exists i, (request_cancel j).
      by rewrite lookup_fmap, Hji.
  - intros _. rewrite Ho. by apply (in_orphans s Hinv).
  - rewrite Hc. apply (in_rounds s Hinv).
  - intros _. rewrite Hany in Hadm. split; cbn; rewrite Hc; [|exact Hadm].
    by rewrite Hj, map_size_fmap.
Qed.

Lemma inv_completed env s c rest :
  inv s → sy_events s = SlotCompleted c :: rest → sy_phase s = Receiving →
  wp (handle_event to_string env (SlotCompleted c))
    (λ _ w', inv (mkSystem w' rest Dispatching (sy_clients s) (sy_next_id s)))
    (λ _ _, False) (sy_world s).
Proof.
  intros Hinv Hev Hph. destruct (event_tail s _ rest Hinv Hev Hph) as (Hnr & [Htot Hadm] & Hevok & Hany).
  assert (event_ok (SlotCompleted c)) as Hcok.
  { apply (in_events s Hinv). rewrite Hev. by left. }
  pose proof (in_next s Hinv) as Hnext. rewrite Hany in Hadm. set (id := sp_id c).
  assert (0 < count (is_done id) (sy_events s))%N as Hdpos.
  { rewrite Hev, count_cons. cbn. rewrite N.eqb_refl. cbn. lia. }
  destruct (w_jobs (sy_world s) !! id) as [j|] eqn:Hj.
  2:{ destruct (inv_no_job s id Hinv Hj) as (_ & _ & Hd). lia. }
  destruct (inv_job s id j Hinv Hj) as (ch & Hch & Hok & Hcr & Hsub & Hresp & Hfresh & Hterm & Hcan & Hp).
  pose proof (size_removed id _ j Hj) as Hsize. unfold place_ok in Hp.
  destruct (jb_in_flight j) eqn:Hfl; [|lia]. destruct Hp as (Hq & Ht & Hr & Hs & Hcr0).
  assert (outstanding (sy_world s) id = 0%N) as Ht0 by lia.
  assert (count (is_done id) rest = 0%N) as Hd0.
  { rewrite Hev, count_cons in Ht. cbn [is_done] in Ht. fold id in Ht. rewrite N.eqb_refl in Ht.
    cbn [flag] in Ht. lia. }
  rewrite Hev, count_cons in Hcr, Hsub, Hcr0. cbn [is_submit is_ack flag] in Hcr, Hsub, Hcr0.
  rewrite N.add_0_l in Hcr, Hsub, Hcr0.
  cbn [handle_event].
  eapply wp_mono; [apply (completion_spec to_string env c j (sy_world s) (in_slots s Hinv)); done| |done].
  fold id. cbn beta. intros _ w'. unfold completed. rewrite Hch, Hq, N.add_0_l.
  destruct (verdict j (ch_open ch) (sp_result c)) as [res|] eqn:Hver.
  - intros [Hd Hc]. destruct (settled_terminal res (w_counters (sy_world s))) as (H1 & H2 & H3 & _); [lia|].
    eapply (inv_delta s _ rest id); try done.
    + other_sessions Hev.
    + rewrite Hch, Hsub, Hd0. apply view_ended; try done. by destruct res.
    + rewrite Hc, H3. apply (in_rounds s Hinv).
    + split; cbn; rewrite Hc, ?H1, H2; [|exact Hadm].
      rewrite (de_jobs _ _ _ _ _ _ _ Hd), <- delete_job_eq. lia.
  - assert (jb_cancel_requested j = false) as Hnc.
    { destruct (jb_cancel_requested j) eqn:Hx; [|done]. exfalso. unfold verdict in Hver.
      rewrite Hx in Hver. by destruct (sp_result c) as [[]|]. }
    assert (w_shutting_down (sy_world s) = false) as Hsd.
    { destruct (w_shutting_down (sy_world s)) eqn:Hx; [|done]. by rewrite Hcan in Hnc. }
    assert (is_Some (jb_request (landed (sp_session c) j)) → jb_session (landed (sp_session c) j) = None)
      as Hfr by (cbn; rewrite Hr; by intros [? ?]).
    cbn in Hcok. destruct (sp_result c) as [[obs|tok piece toc obs|output]|e] eqn:Hres;
      intros [Hd Hc].
    + eapply (inv_delta s _ rest id); try done.
      * other_sessions Hev.
      * rewrite Hch, Hsub, Hd0, Hsd. apply view_with_job; try done.
        unfold place_ok. cbn. split; [done|]. split; [done|]. left. split; [done|]. split; [done|].
        by right.
      * by rewrite Hsd.
      * rewrite Hc. apply (in_rounds s Hinv).
      * split; cbn; rewrite Hc; [|exact Hadm].
        by rewrite (de_jobs _ _ _ _ _ _ _ Hd), (size_replaced id _ j).
    + assert (ch_open ch = true) as Hopen.
      { unfold verdict in Hver. rewrite Hnc in Hver. by destruct (ch_open ch). }
      destruct (channel_send ch (sy_clients s !! id) (MToken tok piece toc) Hok Hterm)
        as (Hok' & Hterm' & Hcr').
      rewrite Hopen in Hterm', Hcr'. cbn [is_terminal is_token negb andb flag] in Hterm', Hcr'.
      eapply (inv_delta s _ rest id); try done.
      * other_sessions Hev.
      * rewrite Hch, Hsub, Hd0, Hsd. apply view_with_job; try done; [rewrite Hcr'; lia|].
        unfold place_ok. cbn. split; [done|]. split; [done|]. right. left. split; [done|].
        split; [done|]. left. rewrite Hcr'. lia.
      * rewrite Hc. apply (in_rounds s Hinv).
      * split; cbn; rewrite Hc; [|exact Hadm].
        by rewrite (de_jobs _ _ _ _ _ _ _ Hd), (size_replaced id _ j).
    + by unfold verdict in Hver.
    + by unfold verdict in Hver.
Qed.

(** Handling an event never panics and keeps the invariant. *)
Lemma inv_event env s e rest :
  inv s → sy_events s = e :: rest → sy_phase s = Receiving →
  ∃ s', event_action to_string env s = Moves s' ∧ inv s'.
Proof.
  intros Hinv Hev Hph. unfold event_action. rewrite Hph, Hev.
  assert (wp (handle_event to_string env e)
    (λ _ w', inv (mkSystem w' rest Dispatching (sy_clients s) (sy_next_id s)))
    (λ _ _, False) (sy_world s)) as Hwp.
  { destruct e as [[id request response|id|id|id|]|c].
    - by apply inv_submit.
    - by apply inv_continue.
    - by apply inv_stop.
    - by apply inv_cancel.
    - by apply inv_shutdown.
    - by apply inv_completed. }
  destruct (wp_done _ _ _ Hwp) as (a & w' & Hrun & Hi). rewrite Hrun. by eexists.
Qed.

(** ** Actions of the other threads *)

Definition core_same w w' : Prop :=
  w_jobs w' = w_jobs w ∧ w_slots w' = w_slots w ∧ w_orphans w' = w_orphans w
  ∧ w_policy w' = w_policy w ∧ w_shutting_down w' = w_shutting_down w
  ∧ w_counters w' = w_counters w.

(** An action on the side of one session: its channel, its client, the events. *)
Lemma inv_side s s' id :
  inv s → core_same (sy_world s) (sy_world s') → sy_phase s' = sy_phase s →
  (sy_next_id s ≤ sy_next_id s' ≤ u64_max)%N →
  (∀ i, i ≠ id → view s' i = view s i) →
  view_ok (w_shutting_down (sy_world s)) (bool_decide (sy_phase s = Returned)) id (view s' id) →
  (∀ i, (sy_next_id s' ≤ i)%N → w_channels (sy_world s') !! i = None) →
  (∀ e, e ∈ sy_events s' → e ∈ sy_events s ∨ event_ok e) →
  (sy_phase s = Returned → sy_events s' = sy_events s) →
  (count any_submit (sy_events s') + sy_next_id s ≤ count any_submit (sy_events s) + sy_next_id s')%N →
  inv s'.
Proof.
  intros Hinv (Hj & Hsl & Ho & Hp & Hsd & Hc) Hph Hnext Hother Hid Hknown Hev Hret Hcnt.
  split.
  - intros i. rewrite Hsd, Hph. destruct (decide (i = id)) as [->|Hne]; [done|].
    rewrite Hother by done. apply (in_view s Hinv).
  - done.
  - lia.
  - intros k sl. rewrite Hsl, Hj. apply (in_slots s Hinv).
  - rewrite Hph, Ho. apply (in_orphans s Hinv).
  - pose proof (in_phase s Hinv) as Hpo. unfold phase_ok in *. rewrite Hph.
    destruct (sy_phase s) eqn:Hps; [done| |].
    + destruct Hpo as [H1 H2]. split.
      * intros x Hx. rewrite Hp in Hx. unfold available. rewrite Hj, Hsl. by apply H1.
      * rewrite Hsd. unfold idle_slots. by rewrite Hsl.
    + destruct Hpo as (H1 & H2 & H3 & H4). by rewrite Hj, Hsl, Hret, Hsd.
  - rewrite Hsd, Hp. apply (in_shut s Hinv).
  - intros e He. destruct (Hev e He) as [Hin|]; [by apply (in_events s Hinv)|done].
  - rewrite Hc. apply (in_rounds s Hinv).
  - rewrite Hph. intros Hnr. destruct (in_counters s Hinv Hnr) as [H1 H2].
    split; rewrite Hc, ?Hj; [done|]. lia.
Qed.

Lemma post_spec e s :
  post e s = s ∧ sy_phase s = Returned
  ∨ sy_phase s ≠ Returned
    ∧ post e s = mkSystem (sy_world s) (sy_events s ++ [e]) (sy_phase s) (sy_clients s) (sy_next_id s).
Proof. unfold post. destruct (sy_phase s) eqn:Hp; [right|right|left]; by split. Qed.

Lemma start_session_inv correlation_id inference_id r s :
  inv s → inv (start_session correlation_id inference_id r s).2.
Proof.
  intros Hinv. unfold start_session.
  destruct (w_controls (sy_world s) !! rq_control r) as [control|]; [|done].
  destruct (Control.check control); [|done].
  unfold checked_add. destruct (decide (sy_next_id s + 1 ≤ u64_max)%N) as [Hle|]; [|done]. cbn.
  set (id := sy_next_id s). pose proof (in_known s Hinv id (N.le_refl _)) as Hch.
  pose proof (in_view s Hinv id) as Hv. unfold view_ok in Hv. unfold view in Hv at 1. cbn in Hv.
  rewrite Hch in Hv. unfold view, empty_view in Hv. injection Hv as H1 H2 H3 H4 H5 H6 H7 H8 H9.
  destruct (sy_phase s) eqn:Hph; cbn.
  3:{ apply (inv_side s _ id); cbn; try done.
      - lia.
      - rewrite Hph. unfold view. cbn. rewrite H1, H2, H3, H4, H5, H6, H7, H8, H9. done.
      - intros i Hi. apply (in_known s Hinv). lia.
      - by left.
      - lia. }
  all: unfold post; cbn; apply (inv_side s _ id); cbn; try done.
  all: try (intros; apply (in_known s Hinv); lia).
  all: try lia.
  all: try (intros i Hi; rewrite lookup_insert_ne by lia; apply (in_known s Hinv); lia).
  all: try (intros e [He| ->%list_elem_of_singleton]%elem_of_app; [by left|by right]).
  all: try (rewrite count_snoc; cbn; lia).
  all: try (intros i Hne; unfold view; cbn; rewrite !count_snoc, !lookup_insert_ne by done;
    cbn [is_submit is_ack is_cancel is_done]; rewrite (proj2 (N.eqb_neq id i)) by done;
    cbn [flag]; by rewrite !N.add_0_r).
  all: try (by rewrite Hph).
  all: unfold queued in H2; unfold outstanding in H3.
  all: unfold view, queued, outstanding; cbn; rewrite !count_snoc, !lookup_insert_eq, H1, H2, H3, H4, H5, H6, H7.
  all: cbn [is_submit is_ack is_cancel is_done]; rewrite N.eqb_refl; unfold view_ok; cbn.
  all: split; [split; cbn; try done; intros ? [= <-]; by intros [? ?]|]; by repeat split.
Qed.

(** A client moves on without touching what is on its channel. *)
Lemma view_client sd r id (jo : option Job) q tasks sb acks acks' x x' d ch ch' c c' :
  view_ok sd r id (mkView jo q tasks sb acks x d (Some ch) (Some c)) →
  channel_ok ch' (Some c') → ch_sent ch' = ch_sent ch →
  credit acks' ch' (Some c') = credit acks ch (Some c) →
  view_ok sd r id (mkView jo q tasks sb acks' x' d (Some ch') (Some c')).
Proof.
  unfold view_ok. cbn. intros (Hok & Hs & Hcr & Hj) Hok' Hsent Hcredit. rewrite Hcredit, Hsent.
  split; [done|]. split; [done|]. split; [done|]. destruct jo as [j|].
  - destruct Hj as (H1 & H2 & H3 & H4 & H5 & Hp). do 5 (split; [done|]).
    unfold place_ok in *. destruct (jb_in_flight j); [done|].
    destruct Hp as (Ht & Hd & [Hp|[(Hq & Hse & Hp)|Hp]]); split; [done| |done| |done|]; split; try done.
    + by left.
    + right. left. split; [done|]. split; [done|]. destruct Hp as [Hp|(_ & Hn & _)]; [by left|done].
    + by right; right.
  - destruct Hj as (H1 & H2 & H3 & H4). do 3 (split; [done|]).
    destruct (decide (sb = 0%N)); [|done]. intros _. by apply H4.
Qed.

Lemma view_some s id c :
  inv s → sy_clients s !! id = Some c →
  ∃ ch, w_channels (sy_world s) !! id = Some ch ∧ channel_ok ch (Some c).
Proof.
  intros Hinv Hc. pose proof (in_view s Hinv id) as Hv. unfold view_ok in Hv. unfold view in Hv at 1.
  cbn in Hv. destruct (w_channels (sy_world s) !! id) as [ch|] eqn:Hch.
  - exists ch. rewrite Hc in Hv. split; [done|apply Hv].
  - unfold view, empty_view in Hv. congruence.
Qed.

Ltac view_at s id Hch Hc Hinv :=
  let Hv := fresh "Hv" in
  pose proof (in_view s Hinv id) as Hv; unfold view, queued, outstanding in Hv;
  rewrite Hch, Hc in Hv.

(** The three ways a call begins. *)
Lemma inv_call s id c c' command :
  inv s → sy_clients s !! id = Some c →
  cl_finished c = None → cl_finished c' = None → cl_waiting_ack c' = false →
  match command with
  | Some (ContinueJob i | StopJob i) => i = id ∧ cl_waiting_ack c = true
  | Some (CancelJob i) => i = id ∧ cl_waiting_ack c = false
  | None => cl_waiting_ack c = false
  | _ => False
  end →
  match command with
  | Some command => sy_phase s ≠ Returned →
      inv (post (ClientEvent command) (with_clients (insert id c') s))
  | None => inv (with_clients (insert id c') s)
  end.
Proof.
  intros Hinv Hc Hf Hf' Hack' Hcmd.
  destruct (view_some s id c Hinv Hc) as (ch & Hch & Hok). view_at s id Hch Hc Hinv.
  assert (channel_ok ch (Some c')) as Hok'.
  { destruct Hok as [H1 H2 H3 H4 H5]. split; try done.
    - intros ? [= <-] _. done.
    - intros ? [= <-]. rewrite Hf'. by intros [? ?]. }
  destruct command as [command|].
  - intros Hnr. destruct (post_spec (ClientEvent command) (with_clients (insert id c') s)) as [[_ ?]|[_ ->]]; [done|].
    cbn. apply (inv_side s _ id); cbn; try done.
    + split; [lia|apply (in_next s Hinv)].
    + intros i Hne. unfold view. cbn. rewrite !count_snoc, lookup_insert_ne by done.
      assert (is_submit i (ClientEvent (Session := Session) command) = false
        ∧ is_ack i (ClientEvent (Session := Session) command) = false
        ∧ is_cancel i (ClientEvent (Session := Session) command) = false) as (-> & -> & ->).
      { destruct command; cbn; try done; destruct Hcmd as [-> _];
          by rewrite (proj2 (N.eqb_neq id i)) by done. }
      cbn [is_done flag]. by rewrite !N.add_0_r.
    + unfold view, queued, outstanding. cbn. rewrite !count_snoc, lookup_insert_eq, Hch.
      assert (is_submit id (ClientEvent (Session := Session) command) = false) as ->.
      { by destruct command. }
      cbn [is_done flag]. rewrite !N.add_0_r. eapply view_client; [exact Hv|done|done|].
      unfold credit. cbn [waiting_ack]. rewrite Hack'.
      destruct command; try done; destruct Hcmd as [-> ->]; cbn; rewrite ?N.eqb_refl; cbn; lia.
    + apply (in_known s Hinv).
    + intros e [He| ->%list_elem_of_singleton]%elem_of_app; [by left|right]. by destruct command.
    + rewrite count_snoc. destruct command; cbn; try done; lia.
  - apply (inv_side s _ id); cbn; try done.
    + split; [lia|apply (in_next s Hinv)].
    + intros i Hne. unfold view. cbn. by rewrite lookup_insert_ne.
    + unfold view, queued, outstanding. cbn. rewrite lookup_insert_eq, Hch.
      eapply view_client; [exact Hv|done|done|].
      unfold credit. cbn [waiting_ack]. by rewrite Hack', Hcmd.
    + apply (in_known s Hinv).
    + by left.
Qed.

Lemma open_call_inv finishing id s s' :
  inv s →
  open_call (if finishing : bool then open_finish id else open_step id) id s = Moves s' → inv s'.
Proof.
  intros Hinv. unfold open_call. destruct (sy_clients s !! id) as [c|] eqn:Hc; [|done].
  destruct (cl_call c) eqn:Hcall; [done|]. unfold open_finish, open_step.
  destruct (cl_finished c) eqn:Hf.
  { destruct finishing; cbn; rewrite Hf; by intros [= <-]. }
  assert (∀ call, cl_waiting_ack c = false →
    inv (with_clients (insert id (mkClient (cl_control c) false None call)) s)) as Hquiet.
  { intros call Hack. by apply (inv_call s id c (mkClient (cl_control c) false None call) None). }
  assert (∀ call command, match command with
      | ContinueJob i | StopJob i => i = id ∧ cl_waiting_ack c = true
      | CancelJob i => i = id ∧ cl_waiting_ack c = false
      | _ => False
      end → sy_phase s ≠ Returned →
    inv (post (ClientEvent command)
           (with_clients (insert id (mkClient (cl_control c) false None call)) s))) as Hsend.
  { intros call command Hcmd Hnr.
    by apply (inv_call s id c (mkClient (cl_control c) false None call) (Some command)). }
  destruct finishing; cbn; rewrite Hf; destruct (cl_waiting_ack c) eqn:Hack;
    try (intros [= <-]; by apply Hquiet);
    destruct (sy_phase s) eqn:Hph; intros [= <-]; try done; by apply Hsend.
Qed.

Lemma unread_cons ch m :
  ch_sent ch !! ch_read ch = Some m → unread ch = m :: unread (read_one ch).
Proof. intros Hm. unfold unread. cbn. by apply drop_S. Qed.

Lemma receive_inv id s s' : inv s → receive_call id s = Moves s' → inv s'.
Proof.
  intros Hinv. unfold receive_call. destruct (sy_clients s !! id) as [c|] eqn:Hc; [|done].
  destruct (view_some s id c Hinv Hc) as (ch & Hch & Hok). rewrite Hch.
  destruct (cl_call c) as [call|] eqn:Hcall; [|done].
  view_at s id Hch Hc Hinv.
  assert (cl_waiting_ack c = false) as Hack by (by eapply (co_call _ _ Hok)).
  destruct (ch_sent ch !! ch_read ch) as [m|] eqn:Hm.
  - intros [= <-]. apply (inv_side s _ id); cbn; try done.
    + split; [lia|apply (in_next s Hinv)].
    + intros i Hne. unfold view. cbn. by rewrite lookup_insert_ne, lookup_alter_ne.
    + unfold view, queued, outstanding. cbn. rewrite lookup_insert_eq, lookup_alter_eq, Hch.
      eapply view_client; [exact Hv| |done|].
      * destruct Hok as [H1 H2 H3 H4 H5]. split; cbn; try done.
        -- apply lookup_lt_Some in Hm. lia.
        -- intros ? [= <-]. destruct m; cbn; by intros [? ?].
        -- intros ? [= <-]. destruct m; cbn; try by apply (H5 c).
           intros _. eapply count_elem; [by eapply list_elem_of_lookup_2|done].
      * unfold credit. cbn [waiting_ack]. rewrite Hack, (unread_cons ch m Hm), count_cons.
        destruct m; cbn; rewrite ?Hack; cbn; lia.
    + intros i Hi. destruct (decide (i = id)) as [->|Hne].
      * rewrite (in_known s Hinv id Hi) in Hch. done.
      * rewrite lookup_alter_ne by done. by apply (in_known s Hinv).
    + by left.
  - destruct (connected id s); [done|]. intros [= <-]. apply (inv_side s _ id); cbn; try done.
    + split; [lia|apply (in_next s Hinv)].
    + intros i Hne. unfold view. cbn. by rewrite lookup_insert_ne.
    + unfold view, queued, outstanding. cbn. rewrite lookup_insert_eq, Hch.
      eapply view_client; [exact Hv| |done|done].
      destruct Hok as [H1 H2 H3 H4 H5]. split; try done.
      * intros ? [= <-]. by intros [? ?].
      * intros ? [= <-]. by apply (H5 c).
    + apply (in_known s Hinv).
    + by left.
Qed.

(** The view a leaving client leaves: its cancellation is on its way, unless the
    job has ended. *)
Lemma view_dropped s id ch c x :
  inv s → sy_clients s !! id = Some c → w_channels (sy_world s) !! id = Some ch →
  ((0 < x)%N ∨ is_Some (cl_finished c) ∨ sy_phase s = Returned) →
  view_ok (w_shutting_down (sy_world s)) (bool_decide (sy_phase s = Returned)) id
    (mkView (w_jobs (sy_world s) !! id) (queued (sy_world s) id) (outstanding (sy_world s) id)
       (count (is_submit id) (sy_events s)) (count (is_ack id) (sy_events s))
       x (count (is_done id) (sy_events s)) (Some (close ch)) None).
Proof.
  intros Hinv Hc Hch Hcase. pose proof (in_view s Hinv id) as Hv. unfold view in Hv.
  rewrite Hch, Hc in Hv. unfold view_ok in *. cbn in Hv |- *.
  destruct Hv as (Hok & Hs & Hcr & Hj). set (acks := count (is_ack id) (sy_events s)) in *.
  assert (credit acks ch (Some c) = credit acks (close ch) None + flag (cl_waiting_ack c))%N as Hcredit.
  { unfold credit, unread. cbn. lia. }
  pose proof (flag_le (cl_waiting_ack c)) as Hflag.
  split; [destruct Hok; by split|]. split; [done|]. split; [lia|].
  destruct (w_jobs (sy_world s) !! id) as [j|] eqn:Hjob.
  - destruct Hj as (H1 & H2 & H3 & H4 & H5 & Hp). do 5 (split; [done|]).
    unfold place_ok in *. destruct (jb_in_flight j).
    + destruct Hp as (Hq & Ht & Hr & Hse & Hz). repeat split; try done. lia.
    + destruct Hp as (Ht & Hd & Hp). split; [done|]. split; [done|].
      destruct Hp as [(Hq & Hz & Hw)|[(Hq & Hse & Hp)|Hp]]; [left| |by right; right].
      * split; [done|]. split; [lia|done].
      * right. left. split; [done|]. split; [done|].
        destruct (decide (credit acks (close ch) None = 1%N)); [by left|right].
        split; [lia|]. split; [done|]. destruct Hcase as [|[Hfin|Hret]]; [done| |].
        -- pose proof (co_finished _ _ Hok c eq_refl Hfin). lia.
        -- pose proof (in_phase s Hinv) as Hpo. unfold phase_ok in Hpo. rewrite Hret in Hpo.
           destruct Hpo as [Hnil _]. by rewrite Hnil in Hjob.
  - destruct Hj as (H1 & H2 & H3 & H4). do 3 (split; [done|]).
    destruct (decide _); [done|]. split; [tauto|]. lia.
Qed.

Lemma drop_inv id s s' : inv s → drop_client id s = Moves s' → inv s'.
Proof.
  intros Hinv. unfold drop_client. destruct (sy_clients s !! id) as [c|] eqn:Hc; [|done].
  destruct (view_some s id c Hinv Hc) as (ch & Hch & Hok).
  destruct (cl_call c) as [call|] eqn:Hcall; [done|].
  assert (∀ i, (sy_next_id s ≤ i)%N → alter close id (w_channels (sy_world s)) !! i = None) as Hknown.
  { intros i Hi. destruct (decide (i = id)) as [->|Hne].
    - by rewrite (in_known s Hinv id Hi) in Hch.
    - rewrite lookup_alter_ne by done. by apply (in_known s Hinv). }
  pose proof (in_next s Hinv) as Hnext.
  destruct (cl_finished c) as [o|] eqn:Hf; [|].
  - intros [= <-]. apply (inv_side s _ id); cbn; try done; [| |by left].
    + intros i Hne. unfold view. cbn. by rewrite lookup_delete_ne, lookup_alter_ne.
    + unfold view. cbn. rewrite lookup_delete_eq, lookup_alter_eq, Hch.
      eapply view_dropped; [done|done|done|]. right. left. rewrite Hf. by eexists.
  - intros [= <-].
    match goal with |- inv (post ?e ?x) => destruct (post_spec e x) as [[-> Hret]|[Hnr ->]] end;
      cbn in *.
    + apply (inv_side s _ id); cbn; try done; [| |by left].
      * intros i Hne. unfold view. cbn. by rewrite lookup_delete_ne, lookup_alter_ne.
      * unfold view. cbn. rewrite lookup_delete_eq, lookup_alter_eq, Hch.
        eapply view_dropped; [done|done|done|]. by right; right.
    + apply (inv_side s _ id); cbn; try done.
      * intros i Hne. unfold view. cbn. rewrite !count_snoc, lookup_delete_ne, lookup_alter_ne by done.
        cbn [is_submit is_ack is_cancel is_done]. rewrite (proj2 (N.eqb_neq id i)) by done.
        cbn [flag]. by rewrite !N.add_0_r.
      * unfold view. cbn. rewrite !count_snoc, lookup_delete_eq, lookup_alter_eq, Hch.
        cbn [is_submit is_ack is_cancel is_done flag]. rewrite !N.add_0_r.
        eapply view_dropped; [done|done|done|]. left. rewrite N.eqb_refl. cbn. lia.
      * intros e [He| ->%list_elem_of_singleton]%elem_of_app; [by left|by right].
      * rewrite count_snoc. cbn. lia.
Qed.

(** ** Slots *)

Lemma execute_ok action (answer : Answer Session) r session :
  execute action answer = Some (r, session) →
  match r with Ok (Progress _) | Ok (Token _ _ _ _) => is_Some session | _ => True end.
Proof.
  destruct action, answer as [?|r0 ?|[]| |]; cbn; intros [= <- <-]; try done; try by eexists.
  destruct r0 as [[]|]; try done; by eexists.
Qed.

Lemma run_task_inv key answer duration s s' :
  inv s → run_task key answer duration s = Moves s' → inv s'.
Proof.
  intros Hinv. unfold run_task. destruct (w_slots (sy_world s) !! key) as [sl|] eqn:Hk; [|done].
  destruct (sw_queue sl) as [|t queue] eqn:Hqueue; [done|].
  destruct (execute (tk_action t) answer) as [[r session]|] eqn:Hex; [|done]. intros [= <-].
  assert (sy_phase s ≠ Returned) as Hnr.
  { intros Hret. pose proof (in_phase s Hinv) as Hpo. unfold phase_ok in Hpo. rewrite Hret in Hpo.
    destruct Hpo as (_ & Hnil & _). by rewrite Hnil in Hk. }
  match goal with |- inv (post ?e ?x) => destruct (post_spec e x) as [[_ Hret]|[_ ->]]; [done|] end.
  cbn. set (id := tk_id t).
  assert (∀ i, tasks_of i (alter pop_task key (w_slots (sy_world s))) + flag (id =? i)
     = tasks_of i (w_slots (sy_world s)))%N as Htasks.
  { intros i. unfold tasks_of.
    pose proof (map_sum_alter_Some (λ sl, occ i (tk_id <$> sw_queue sl)) pop_task
      (w_slots (sy_world s)) key sl Hk) as Hsum.
    cbn beta in Hsum. cbn [sw_queue pop_task] in Hsum. rewrite Hqueue in Hsum. cbn [tail fmap list_fmap] in Hsum.
    rewrite occ_cons in Hsum. fold id in Hsum. destruct (decide (i = id)) as [->|Hne].
    - rewrite N.eqb_refl. cbn [flag]. lia.
    - rewrite (proj2 (N.eqb_neq id i)) by done. cbn [flag]. lia. }
  pose proof (in_counters s Hinv Hnr) as [Htot Hadm].
  split; cbn.
  - intros i. pose proof (in_view s Hinv i) as Hv. unfold view, outstanding in *. cbn.
    rewrite !count_snoc. cbn [is_submit is_ack is_cancel is_done sp_id flag]. rewrite !N.add_0_r.
    fold id. specialize (Htasks i). unfold view_ok in *. cbn in Hv |- *.
    destruct (w_channels (sy_world s) !! i) as [ch|].
    + destruct Hv as (Hok & Hs & Hcr & Hj). do 3 (split; [done|]).
      unfold queued in *. cbn.
      destruct (w_jobs (sy_world s) !! i) as [j|].
      * destruct Hj as (H1 & H2 & H3 & H4 & H5 & Hp). do 5 (split; [done|]).
        unfold place_ok in *. destruct (jb_in_flight j).
        -- destruct Hp as (Hq & Ht & Hrest). split; [done|]. split; [lia|done].
        -- destruct Hp as (Ht & Hd & Hrest). split; [lia|]. split; [lia|done].
      * destruct Hj as (H1 & H2 & H3 & H4). split; [done|]. split; [lia|]. split; [lia|done].
    + unfold empty_view in *. unfold queued in *. cbn. injection Hv as E1 E2 E3 E4 E5 E6 E7 E8.
      rewrite E1, E2, E4, E5, E6, E8. f_equal; lia.
  - apply (in_known s Hinv).
  - apply (in_next s Hinv).
  - intros k sl'. cbn. rewrite lookup_alter. destruct (decide (key = k)) as [<-|Hne].
    + rewrite Hk. intros [= <-]. destruct (in_slots s Hinv key sl Hk) as [Ha Ht Hb].
      split; cbn; [done| |done]. intros t' Hin. apply Ht. rewrite Hqueue in Hin |- *. by right.
    + apply (in_slots s Hinv).
  - apply (in_orphans s Hinv).
  - pose proof (in_phase s Hinv) as Hpo. unfold phase_ok in *. cbn. destruct (sy_phase s) eqn:Hps; [done| |done].
    destruct Hpo as [H1 H2]. split.
    + intros x Hx. specialize (H1 x Hx). unfold available in *. cbn.
      destruct (w_jobs (sy_world s) !! pe_id x) as [j|]; [|done]. rewrite lookup_alter.
      destruct (decide (key = jb_slot j)) as [Heq|]; [|done]. rewrite <- Heq, Hk in *. done.
    + intros Hsd. specialize (H2 Hsd). unfold idle_slots in *. cbn.
      apply not_true_iff_false. intros Hall. apply not_true_iff_false in H2. apply H2.
      rewrite forallb_forall in Hall |- *. intros sl0 Hin0.
      apply list_elem_of_In, list_elem_of_fmap in Hin0 as ([k0 sl1] & -> & Hin0).
      apply elem_of_map_to_list in Hin0. cbn.
      destruct (decide (key = k0)) as [<-|Hne].
      * rewrite Hk in Hin0. injection Hin0 as <-.
        apply (Hall (pop_task sl)). apply list_elem_of_In, list_elem_of_fmap.
        exists (key, pop_task sl). split; [done|]. apply elem_of_map_to_list.
        by rewrite lookup_alter_eq, Hk.
      * apply (Hall sl1). apply list_elem_of_In, list_elem_of_fmap. exists (k0, sl1).
        split; [done|]. apply elem_of_map_to_list. by rewrite lookup_alter_ne.
  - apply (in_shut s Hinv).
  - intros e [He| ->%list_elem_of_singleton]%elem_of_app; [by apply (in_events s Hinv)|].
    cbn. by eapply execute_ok.
  - apply (in_rounds s Hinv).
  - intros _. split; cbn; [done|]. rewrite count_snoc. cbn. lia.
Qed.

(** ** Every action *)

Lemma inv_core_only s s' :
  inv s → core_same (sy_world s) (sy_world s') → sy_phase s' = sy_phase s →
  sy_next_id s' = sy_next_id s → sy_clients s' = sy_clients s →
  w_channels (sy_world s') = w_channels (sy_world s) → 
  (sy_events s' = sy_events s
   ∨ sy_phase s ≠ Returned ∧ sy_events s' = sy_events s ++ [ClientEvent Shutdown]) →
  inv s'.
Proof.
  intros Hinv Hcore Hph Hnext Hcl Hch Hev. pose proof Hcore as (Hj & Hsl & Ho & Hp & Hsd & Hc).
  assert (∀ i, view s' i = view s i) as Hview.
  { intros i. unfold view, queued, outstanding. rewrite Hj, Hsl, Hp, Hch, Hcl.
    destruct Hev as [->|[_ ->]]; [done|]. by rewrite !count_snoc; cbn; rewrite !N.add_0_r. }
  apply (inv_side s s' 0); try done.
  - rewrite Hnext. split; [lia|apply (in_next s Hinv)].
  - rewrite Hview. apply (in_view s Hinv).
  - intros i. rewrite Hch, Hnext. apply (in_known s Hinv).
  - destruct Hev as [->|[_ ->]]; intros e He; [by left|].
    apply elem_of_app in He as [He| ->%list_elem_of_singleton]; [by left|by right].
  - by destruct Hev as [->|[? _]].
  - rewrite Hnext. destruct Hev as [->|[_ ->]]; [lia|]. rewrite count_snoc. cbn. lia.
Qed.

Lemma inv_perform a s :
  inv s →
  match perform to_string a s with
  | Disabled => True
  | Moves s' => inv s'
  | Panics => False
  end.
Proof.
  intros Hinv. destruct a as [r ci ii|id|id|id|id|k v| |key answer d| |env|env]; cbn [perform].
  - by apply start_session_inv.
  - destruct (open_call (open_step id) id s) eqn:Hm; [done| |].
    + by apply (open_call_inv false id s).
    + unfold open_call in Hm. repeat case_match; done.
  - destruct (open_call (open_finish id) id s) eqn:Hm; [done| |].
    + by apply (open_call_inv true id s).
    + unfold open_call in Hm. repeat case_match; done.
  - destruct (receive_call id s) eqn:Hm; [done| |].
    + by apply (receive_inv id s).
    + unfold receive_call in Hm. repeat case_match; done.
  - destruct (drop_client id s) eqn:Hm; [done| |].
    + by apply (drop_inv id s).
    + unfold drop_client in Hm. repeat case_match; done.
  - by apply (inv_core_only s); [..|left].
  - destruct (post_spec (ClientEvent Shutdown) s) as [[-> _]|[Hnr ->]]; [done|].
    by apply (inv_core_only s); [..|right].
  - destruct (run_task key answer d s) eqn:Hm; [done| |].
    + by eapply run_task_inv.
    + unfold run_task in Hm. repeat case_match; done.
  - by apply (inv_core_only s); [..|left].
  - destruct (decide (sy_phase s = Dispatching)) as [Hph|Hph].
    + destruct (inv_dispatch env s Hinv Hph) as (s' & -> & Hi). done.
    + unfold dispatch_action. by destruct (sy_phase s).
  - destruct (sy_events s) as [|e rest] eqn:Hev.
    + unfold event_action. rewrite Hev. by destruct (sy_phase s).
    + destruct (decide (sy_phase s = Receiving)) as [Hph|Hph].
      * destruct (inv_event env s e rest Hinv Hev Hph) as (s' & -> & Hi). done.
      * unfold event_action. by destruct (sy_phase s).
Qed.

Lemma inv_reachable config s : reachable to_string config s → inv s.
Proof.
  induction 1 as [s Hs|s a s' _ IH Hp]; [by eapply inv_new|].
  pose proof (inv_perform a s IH) as Hi. by rewrite Hp in Hi.
Qed.

End inv.
