(* ===== verification/SchedulerProperties.v ===== *)
(** What the scheduler promises, for every interleaving of clients, slot workers
    and the scheduler thread. *)

From stdpp Require Import gmap strings list numbers.
From S2P Require Import Prelude Engine FairPolicy FairPolicyLaws Diagnostics Scheduler.
From S2P Require Import SchedulerLaws SchedulerSystem SchedulerInv.

(** ** Runs *)

Section runs.
Context {Session : Type}.
Variable to_string : DiagnosticRecord → option string.

Implicit Types (s : System Session) (j : Job Session).

Definition moved (r : Performed Session) : bool := match r with Moves _ => true | _ => false end.

Definition final (trace : list (Action Session)) (s : System Session) : System Session :=
  match run to_string trace s with Moves s' => s' | _ => s end.

Lemma final_reachable config trace s :
  reachable to_string config s → moved (run to_string trace s) = true →
  reachable to_string config (final trace s).
Proof.
  unfold final. revert s. induction trace as [|a trace IH]; intros s Hs; [done|]. cbn.
  destruct (perform to_string a s) as [|s'|] eqn:Hp; [done| |done].
  intros Hm. specialize (IH s' ltac:(by eapply reachable_step) Hm).
  by destruct (run to_string trace s').
Qed.

(** The slot of a task. *)
Lemma tasks_somewhere id (m : gmap ModelSlotKey (SlotWorker Session)) :
  (0 < tasks_of id m)%N → ∃ k sl t queue, m !! k = Some sl ∧ sw_queue sl = t :: queue.
Proof.
  intros (k & sl & Hk & Hocc)%map_sum_pos. exists k, sl.
  destruct (sw_queue sl) as [|t queue]; [done|]. by exists t, queue.
Qed.

Lemma slot_enabled s k sl t queue :
  w_slots (sy_world s) !! k = Some sl → sw_queue sl = t :: queue →
  ∃ s', perform (Session := Session) to_string (ASlot k Panicked 0) s = Moves s'.
Proof.
  intros Hk Hq. cbn [perform]. unfold run_task. rewrite Hk, Hq. by destruct (tk_action t); eexists.
Qed.

Lemma flight_enabled s id j :
  inv s → sy_events s = [] → w_jobs (sy_world s) !! id = Some j → jb_in_flight j = true →
  ∃ k s', perform to_string (ASlot k Panicked 0) s = Moves s'.
Proof.
  intros Hinv Hev Hj Hf.
  destruct (inv_job s id j Hinv Hj) as (ch & _ & _ & _ & _ & _ & _ & _ & _ & Hp).
  unfold place_ok in Hp. rewrite Hf, Hev in Hp. destruct Hp as (_ & Ht & _).
  rewrite count_nil in Ht.
  destruct (tasks_somewhere id (w_slots (sy_world s))) as (k & sl & t & queue & Hk & Hq).
  { unfold outstanding in Ht. lia. }
  exists k. by eapply slot_enabled.
Qed.

Lemma busy_enabled s k sl :
  inv s → sy_events s = [] → w_slots (sy_world s) !! k = Some sl → sw_busy sl = true →
  ∃ k' s', perform to_string (ASlot k' Panicked 0) s = Moves s'.
Proof.
  intros Hinv Hev Hk Hb. destruct (so_busy _ _ _ (in_slots s Hinv k sl Hk) Hb) as (i & j & Hj & _ & Hf).
  by eapply flight_enabled.
Qed.

Lemma connected_job s id :
  inv s → sy_events s = [] → connected id s = true → is_Some (w_jobs (sy_world s) !! id).
Proof.
  intros Hinv Hev. unfold connected. rewrite Hev. cbn. rewrite orb_false_r.
  intros Hex. apply existsb_exists in Hex as (j & Hin & Hr). apply N.eqb_eq in Hr.
  apply list_elem_of_In, list_elem_of_fmap in Hin as ([i j'] & -> & Hin).
  apply elem_of_map_to_list in Hin. cbn in Hr.
  destruct (inv_job s i j' Hinv Hin) as (_ & _ & _ & _ & _ & Hresp & _).
  rewrite Hresp in Hr. subst i. by eexists.
Qed.

(** The threads that move a session on. *)
Definition server_side (a : Action Session) : bool :=
  match a with ASlot _ _ _ | ADispatch _ | AEvent _ => true | _ => false end.

(** C27: no deadlock. In every reachable state, a client blocked in [step] or
    [finish] either has an answer (a message to read, or the disconnection of its
    channel), or the scheduler thread or a slot worker can move. *)
Theorem scheduler_no_deadlock config s id c :
  reachable to_string config s → sy_clients s !! id = Some c → is_Some (cl_call c) →
  (∃ s', perform to_string (AReceive id) s = Moves s')
  ∨ ∃ a s', server_side a = true ∧ perform to_string a s = Moves s'.
Proof.
  intros Hr Hc [call Hcall]. pose proof (inv_reachable to_string config s Hr) as Hinv.
  destruct (view_some s id c Hinv Hc) as (ch & Hch & Hok).
  destruct (ch_sent ch !! ch_read ch) as [m|] eqn:Hm.
  { left. eexists. cbn. unfold receive_call. by rewrite Hc, Hch, Hcall, Hm. }
  destruct (connected id s) eqn:Hcon.
  2:{ left. eexists. cbn. unfold receive_call. by rewrite Hc, Hch, Hcall, Hm, Hcon. }
  right. set (env := mkEnv 0 "" true 0 0). destruct (sy_phase s) eqn:Hph.
  - destruct (inv_dispatch env s Hinv Hph) as (s' & Hs' & _). by exists (ADispatch env), s'.
  - destruct (sy_events s) as [|e rest] eqn:Hev.
    2:{ destruct (inv_event to_string env s e rest Hinv Hev Hph) as (s' & Hs' & _).
        by exists (AEvent env), s'. }
    cut (∃ k s', perform to_string (ASlot k Panicked 0) s = Moves s').
    { intros (k & s' & Hs'). by exists (ASlot k Panicked 0), s'. }
    destruct (connected_job s id Hinv Hev Hcon) as [j Hj].
    destruct (inv_job s id j Hinv Hj) as (ch' & Hch' & _ & _ & _ & _ & _ & _ & _ & Hp).
    rewrite Hch in Hch'. injection Hch' as <-.
    assert (credit (count (is_ack id) (sy_events s)) ch (sy_clients s !! id) = 0%N) as Hcr.
    { unfold credit, unread. rewrite Hev, Hc, drop_ge by (by apply lookup_ge_None).
      cbn [waiting_ack]. by rewrite (co_call _ _ Hok c eq_refl) by (rewrite Hcall; by eexists). }
    pose proof (in_phase s Hinv) as Hpo. unfold phase_ok in Hpo. rewrite Hph in Hpo.
    destruct Hpo as [Hnone Hshut].
    unfold place_ok in Hp. destruct (jb_in_flight j) eqn:Hf; [by eapply flight_enabled|].
    destruct Hp as (_ & _ & [(Hq & _)|[(_ & _ & [Hx|(_ & Hx & _)])|(_ & Hsd)]]); [|lia|congruence|].
    + assert (0 < queued (sy_world s) id)%N as Hpos by lia.
      apply occ_elem, list_elem_of_fmap in Hpos as (x & Hx & Hin). specialize (Hnone x Hin).
      unfold available in Hnone. rewrite <- Hx, Hj, Hf in Hnone. cbn in Hnone.
      destruct (w_slots (sy_world s) !! jb_slot j) as [sl|] eqn:Hsl; [|done].
      eapply busy_enabled; [done|done|done|]. by apply negb_false_iff.
    + specialize (Hshut Hsd). unfold idle_slots in Hshut.
      assert (∃ sl, sl ∈ map_values (w_slots (sy_world s)) ∧ sw_busy sl = true) as (sl & Hin & Hb).
      { clear -Hshut. induction (map_values (w_slots (sy_world s))) as [|sl l IH]; [done|].
        cbn in Hshut. destruct (sw_busy sl) eqn:Hb; [exists sl; split; [left|done]|].
        destruct (IH Hshut) as (sl' & Hin & Hb'). exists sl'. split; [by right|done]. }
      apply list_elem_of_fmap in Hin as ([k sl'] & -> & Hin). apply elem_of_map_to_list in Hin.
      by eapply busy_enabled.
  - exfalso. pose proof (in_phase s Hinv) as Hpo. unfold phase_ok in Hpo. rewrite Hph in Hpo.
    destruct Hpo as (Hj & _ & Hev & _). destruct (connected_job s id Hinv Hev Hcon) as [j Hj'].
    by rewrite Hj in Hj'.
Qed.

(** C5: no handler panics, and a job is in exactly one place. From every
    reachable state no action of any thread hits an [expect] or [unreachable];
    and every retained job is either in flight, with exactly one task or
    completion of it in the whole system and no queue entry, or at rest with
    none and at most one queue entry. *)
Theorem scheduler_one_place config s :
  reachable to_string config s →
  (∀ a, perform to_string a s ≠ Panics) ∧
  ∀ id j, w_jobs (sy_world s) !! id = Some j →
    let at_slots := (outstanding (sy_world s) id + count (is_done id) (sy_events s))%N in
    jb_response j = id
    ∧ if jb_in_flight j then at_slots = 1%N ∧ queued (sy_world s) id = 0%N
      else at_slots = 0%N ∧ (queued (sy_world s) id ≤ 1)%N
           ∧ (0 < queued (sy_world s) id → is_Some (jb_request j) ∨ is_Some (jb_session j))%N.
Proof.
  intros Hr. pose proof (inv_reachable to_string config s Hr) as Hinv. split.
  - intros a Hp. pose proof (inv_perform to_string a s Hinv) as Hi. by rewrite Hp in Hi.
  - intros id j Hj at_slots. subst at_slots.
    destruct (inv_job s id j Hinv Hj) as (ch & _ & _ & _ & _ & Hresp & _ & _ & _ & Hp).
    split; [done|]. unfold place_ok in Hp. destruct (jb_in_flight j); [tauto|].
    destruct Hp as (Ht & Hd & Hp). split; [lia|].
    destruct Hp as [(Hq & _ & Hw)|[[Hq _]|[Hq _]]]; rewrite Hq; (split; [lia|]); [done|lia|lia].
Qed.

(** C6: no session gets two terminal messages, and none that is still owed one goes
    without. A channel never carries two terminal messages, and nothing follows one; and
    until the scheduler has returned, the terminal message of a session whose client is
    still there has been sent exactly if its job is gone, neither retained nor in a
    submission that is still queued. A submission that is queued behind a shutdown is
    never read, and its client gets no message but a closed channel. *)
Theorem scheduler_one_terminal config s id ch :
  reachable to_string config s → w_channels (sy_world s) !! id = Some ch →
  (∀ n m, ch_sent ch !! n = Some m → is_terminal m = true → S n = length (ch_sent ch))
  ∧ (is_Some (sy_clients s !! id) → sy_phase s ≠ Returned →
       let retained := is_Some (w_jobs (sy_world s) !! id)
                       ∨ (0 < count (is_submit id) (sy_events s))%N in
       (retained → count is_terminal (ch_sent ch) = 0%N)
       ∧ (¬ retained → count is_terminal (ch_sent ch) = 1%N)).
Proof.
  intros Hr Hch. pose proof (inv_reachable to_string config s Hr) as Hinv.
  pose proof (in_view s Hinv id) as Hv. unfold view_ok in Hv. cbn in Hv. rewrite Hch in Hv.
  destruct Hv as (Hok & Hs & Hcr & Hj). split; [apply (co_last _ _ Hok)|].
  intros [c Hc] Hnr retained. subst retained.
  destruct (w_jobs (sy_world s) !! id) as [j|] eqn:Hjob.
  - split; [tauto|]. intros []. left. by eexists.
  - destruct Hj as (_ & _ & _ & Hterm). destruct (decide _) as [Hz|Hnz].
    + split; [intros [[? ?]|?]; [done|lia]|]. intros _. apply Hterm; [by rewrite Hc|].
      by apply bool_decide_false.
    + split; [intros _; by destruct Hterm as [-> _]|]. intros []. right. lia.
Qed.

(** The counters add up. Until the scheduler returns, every admitted session
    is retained or was counted as completed, cancelled, expired or failed, none of
    the 64-bit counters having wrapped; and the round counter that the status
    publishes is never anything but zero. *)
Theorem scheduler_counters_exact config s :
  reachable to_string config s → sy_phase s ≠ Returned →
  let c := w_counters (sy_world s) in
  (sc_completed c + sc_cancelled c + sc_deadlines c + sc_failed c
   + N.of_nat (size (w_jobs (sy_world s))) = sc_admitted c)%N
  ∧ (sc_admitted c + count any_submit (sy_events s) ≤ sy_next_id s ≤ u64_max)%N
  ∧ sc_rounds c = 0%N.
Proof.
  intros Hr Hnr c. pose proof (inv_reachable to_string config s Hr) as Hinv.
  destruct (in_counters s Hinv Hnr) as [H1 H2]. split; [exact H1|]. split; [|apply (in_rounds s Hinv)].
  split; [exact H2|apply (in_next s Hinv)].
Qed.

Lemma dispatch_all_ends env n s :
  inv s → sy_phase s = Dispatching → length (fp_runnable (w_policy (sy_world s))) < n →
  ∃ w', dispatch_all env n (sy_world s) = Done true w'
    ∧ ∀ e, e ∈ fp_runnable (w_policy w') → available w' (pe_id e) = false.
Proof.
  revert s. induction n as [|n IH]; intros s Hinv Hph Hlen; [lia|].
  destruct (wp_done _ _ _ (dispatch_one_spec env (sy_world s) (inv_world s Hinv)))
    as (more & w & Hrun & Hd).
  destruct (inv_dispatch env s Hinv Hph) as (s' & Hs' & Hinv').
  unfold dispatch_action in Hs'. rewrite Hph, Hrun in Hs'. cbn [dispatch_all].
  unfold mbind, M_bind. rewrite Hrun. destruct more.
  - injection Hs' as <-. apply (IH _ Hinv'); [done|]. cbn.
    destruct Hd as (id & j & _ & _ & Hq & Hd).
    assert (N.of_nat (length (fp_runnable (w_policy w))) + queued (sy_world s) id
      = N.of_nat (length (fp_runnable (w_policy (sy_world s)))) + (queued (sy_world s) id - 1))%N as Hl.
    { destruct Hd as [[Hd _]|(e & Hd & _)]; exact (de_length _ _ _ _ _ _ _ Hd). }
    lia.
  - destruct Hd as [-> Hnone]. by eexists.
Qed.

(** The dispatch loop terminates. [while dispatch_one(..) {}] makes at most
    one call per queued job and one more, and when it stops no queued job is left
    whose slot is free. *)
Theorem dispatch_loop_terminates config s env :
  reachable to_string config s → sy_phase s = Dispatching →
  let n := length (fp_runnable (w_policy (sy_world s))) in
  ∃ w', dispatch_all env (S n) (sy_world s) = Done true w'
    ∧ ∀ e, e ∈ fp_runnable (w_policy w') → available w' (pe_id e) = false.
Proof.
  intros Hr Hph n. apply dispatch_all_ends; [by eapply inv_reachable|done|]. lia.
Qed.

(** The state after the scheduler thread handled an event. *)
Lemma event_done env s e rest :
  inv s → sy_events s = e :: rest → sy_phase s = Receiving →
  ∃ w', handle_event to_string env e (sy_world s) = Done tt w'
    ∧ perform to_string (AEvent env) s
        = Moves (mkSystem w' rest Dispatching (sy_clients s) (sy_next_id s)).
Proof.
  intros Hinv Hev Hph. destruct (inv_event to_string env s e rest Hinv Hev Hph) as (s' & Hs' & _).
  unfold event_action in Hs'. rewrite Hph, Hev in Hs'. cbn [perform]. unfold event_action.
  rewrite Hph, Hev. destruct (handle_event to_string env e (sy_world s)) as [[] w'|[]|]; [|done].
  by exists w'.
Qed.

Lemma done_wp {A} (m : M (World Session) Empty_set A) Q w a w' :
  wp m Q (λ _ _, False) w → m w = Done a w' → Q a w'.
Proof. unfold wp_gen. intros Hwp Hm. by rewrite Hm in Hwp. Qed.

(** Cancellation is prompt. The cancellation of a job at rest (queued or
    waiting for its consumer) ends it at once with [Cancelled]; one of a job in
    flight marks it, and whatever its quantum then returns, its completion ends
    it with [Cancelled]. *)
Theorem cancellation_is_prompt config s env id rest j :
  reachable to_string config s → sy_phase s = Receiving →
  w_jobs (sy_world s) !! id = Some j →
  let ended s' := w_jobs (sy_world s') !! id = None
    ∧ w_channels (sy_world s') !! id
      = send_open (MFailed ServerError.Cancelled) <$> w_channels (sy_world s) !! id in
  (sy_events s = ClientEvent (CancelJob id) :: rest → w_shutting_down (sy_world s) = false →
     ∃ s', perform to_string (AEvent env) s = Moves s'
       ∧ if jb_in_flight j
         then w_jobs (sy_world s') !! id = Some (request_cancel j)
         else ended s')
  ∧ (∀ c, sy_events s = SlotCompleted c :: rest → sp_id c = id → jb_cancel_requested j = true →
     ∃ s', perform to_string (AEvent env) s = Moves s' ∧ ended s').
Proof.
  intros Hr Hph Hj ended. pose proof (inv_reachable to_string config s Hr) as Hinv. split.
  - intros Hev Hsd. destruct (event_done env s _ rest Hinv Hev Hph) as (w' & Hw & Hp).
    eexists. split; [exact Hp|].
    cbn [handle_event] in Hw. unfold mbind, M_bind, get in Hw. rewrite Hsd in Hw. cbn [negb] in Hw.
    pose proof (done_wp _ _ _ _ _ (cancel_spec env id (sy_world s) (inv_world s Hinv)) Hw) as Hd.
    cbn beta in Hd. rewrite Hj in Hd. unfold ended. cbn.
    destruct (jb_in_flight j); destruct Hd as [Hd _];
      rewrite (de_jobs _ _ _ _ _ _ _ Hd), lookup_partial_alter_eq; [done|].
    by rewrite (de_channels _ _ _ _ _ _ _ Hd), lookup_alter_eq.
  - intros c Hev Hid Hcan. destruct (event_done env s _ rest Hinv Hev Hph) as (w' & Hw & Hp).
    eexists. split; [exact Hp|].
    destruct (inv_job s id j Hinv Hj) as (ch & _ & _ & _ & _ & Hresp & _ & _ & _ & Hplace).
    assert (outstanding (sy_world s) id = 0%N) as Ho.
    { unfold place_ok in Hplace. rewrite Hev, count_cons in Hplace. cbn [is_done] in Hplace.
      rewrite (proj2 (N.eqb_eq _ id) Hid) in Hplace. cbn [flag] in Hplace.
      destruct (jb_in_flight j); lia. }
    subst id. cbn [handle_event] in Hw.
    pose proof (done_wp _ _ _ _ _ (completion_spec to_string env c j (sy_world s)
      (in_slots s Hinv) Hj Hresp Ho) Hw) as Hd.
    cbn beta in Hd. unfold completed, verdict in Hd. rewrite Hcan in Hd. unfold ended. cbn.
    destruct (sp_result c) as [[]|]; destruct Hd as [Hd _];
      rewrite (de_jobs _ _ _ _ _ _ _ Hd), lookup_partial_alter_eq;
      (split; [done|]); by rewrite (de_channels _ _ _ _ _ _ _ Hd), lookup_alter_eq.
Qed.

(** A shutdown drains. Once the scheduler is shutting down nothing is
    dispatched any more and every retained job is marked cancelled, so that its
    next completion ends it; the thread returns only when no slot is busy, and
    then it retains neither jobs nor slots. *)
Theorem shutdown_drains config s :
  reachable to_string config s → w_shutting_down (sy_world s) = true →
  (∀ env, dispatch_one env (sy_world s) = Done false (sy_world s))
  ∧ (∀ id j, w_jobs (sy_world s) !! id = Some j → jb_cancel_requested j = true)
  ∧ (∀ env s', sy_phase s = Dispatching → perform to_string (ADispatch env) s = Moves s' →
       sy_phase s' = Returned ↔ idle_slots (sy_world s) = true)
  ∧ (sy_phase s = Returned → w_jobs (sy_world s) = ∅ ∧ w_slots (sy_world s) = ∅).
Proof.
  intros Hr Hsd. pose proof (inv_reachable to_string config s Hr) as Hinv.
  assert (∀ env, dispatch_one env (sy_world s) = Done false (sy_world s)) as Hnone.
  { intros env.
    destruct (wp_done _ _ _ (dispatch_one_spec env (sy_world s) (inv_world s Hinv)))
      as (more & w & Hrun & Hd). rewrite Hrun. destruct more.
    - destruct Hd as (id & j & _ & _ & Hq & _). unfold queued in Hq.
      by rewrite (in_shut s Hinv Hsd) in Hq.
    - by destruct Hd as [-> _]. }
  split; [exact Hnone|]. split; [|split].
  - intros id j Hj. destruct (inv_job s id j Hinv Hj) as (ch & _ & _ & _ & _ & _ & _ & _ & Hcan & _).
    by apply Hcan.
  - intros env s' Hph. cbn [perform]. unfold dispatch_action. rewrite Hph, Hnone.
    assert (wp settle_round (λ b _, b = idle_slots (sy_world s)) (λ _ _, False) (sy_world s)) as Hwp.
    { apply settle_round_spec.
      - intros i j Hj. by destruct (inv_job s i j Hinv Hj) as (_ & _ & _ & _ & _ & Hresp & _).
      - rewrite Hsd. intros Hi. cbn in Hi. by rewrite Hi.
      - rewrite Hsd. intros Hi. cbn in Hi. by rewrite Hi. }
    destruct (wp_done settle_round _ _ Hwp) as (b & w' & Hs & ->). rewrite Hs.
    destruct (idle_slots (sy_world s)); intros [= <-]; cbn; split; done.
  - intros Hph. pose proof (in_phase s Hinv) as Hpo. unfold phase_ok in Hpo. rewrite Hph in Hpo.
    tauto.
Qed.
End runs.

(** ** A concrete run *)

Module Demo.

Definition lines (_ : DiagnosticRecord) : option string := Some "record".

Definition env : Env := mkEnv 7 "execution" true 1 0.

Definition slot : ModelSlotKey := mkSlotKey "model" 1.

Definition request : EngineRequest :=
  mkRequest slot "hello" 4 [] None 0
    (mkMetadata Standard AdapterDefault "alice" "" "") 0.

Definition start : System nat :=
  mkSystem (new_world default_policy) [] Dispatching ∅ 0.

(** A session is opened and handed to its slot. *)
Definition opening : list (Action nat) :=
  [AControl 0 Control.new; AStart request "c" "i"; ADispatch env; AEvent env; ADispatch env;
   ADispatch env].

Definition opened : System nat := final lines opening start.

(** Its client blocks in [step]. *)
Definition blocked : System nat := final lines [AOpenStep 0] opened.

(** The engine has started the session: it is queued again. *)
Definition requeued : System nat := final lines [ASlot slot (Started 9) 5; AEvent env] blocked.

(** The client leaves while the job is in flight. *)
Definition left : System nat := final lines [ADrop 0] opened.

Definition marked : System nat :=
  final lines [AEvent env; ADispatch env; ASlot slot (Started 9) 5] left.

(** The scheduler is told to shut down. *)
Definition closing : System nat :=
  final lines [AShutdown; AEvent env; ADispatch env; ASlot slot (Started 9) 5; AEvent env] opened.

Lemma start_reachable : reachable lines default_policy start.
Proof. by apply reachable_new. Qed.

Lemma opened_reachable : reachable lines default_policy opened.
Proof. apply final_reachable; [exact start_reachable|]. vm_compute. reflexivity. Qed.

Lemma blocked_reachable : reachable lines default_policy blocked.
Proof. apply final_reachable; [exact opened_reachable|]. vm_compute. reflexivity. Qed.

Lemma requeued_reachable : reachable lines default_policy requeued.
Proof. apply final_reachable; [exact blocked_reachable|]. vm_compute. reflexivity. Qed.

Lemma left_reachable : reachable lines default_policy left.
Proof. apply final_reachable; [exact opened_reachable|]. vm_compute. reflexivity. Qed.

Lemma marked_reachable : reachable lines default_policy marked.
Proof. apply final_reachable; [exact left_reachable|]. vm_compute. reflexivity. Qed.

Lemma closing_reachable : reachable lines default_policy closing.
Proof. apply final_reachable; [exact opened_reachable|]. vm_compute. reflexivity. Qed.

(** Reading a fact off a computed state. *)
Lemma looked_up {A} (o : option A) (P : A → bool) :
  match o with Some x => P x | None => false end = true → ∃ x, o = Some x ∧ P x = true.
Proof. destruct o as [x|]; [by exists x|done]. Qed.

Definition is_cancel_of (id : N) (l : list (SchedulerEvent nat)) : bool :=
  match l with ClientEvent (CancelJob i) :: _ => (i =? id)%N | _ => false end.

Lemma cancel_first id l : is_cancel_of id l = true → ∃ rest, l = ClientEvent (CancelJob id) :: rest.
Proof. destruct l as [|[[| | |i|]|]]; try done. intros ->%N.eqb_eq. by eexists. Qed.

Definition is_done_of (id : N) (l : list (SchedulerEvent nat)) : bool :=
  match l with SlotCompleted c :: _ => (sp_id c =? id)%N | _ => false end.

Lemma done_first id l : is_done_of id l = true → ∃ c rest, l = SlotCompleted c :: rest ∧ sp_id c = id.
Proof. destruct l as [|[|c]]; try done. intros Hid%N.eqb_eq. by eexists _, _. Qed.

(** A client that calls [finish] twice makes the waiting counter wrap: the first
    call cancels the session while its token is on the way, and the [Stop] of the
    second finds no job but decrements all the same. *)
Definition twice : list (Action nat) :=
  opening ++
  [ASlot slot (Started 9) 5; AEvent env; ADispatch env; ADispatch env;
   ASlot slot (Stepped (Ok (Token 11 [104%N; 105%N] false (model_free Decode 1))) 9) 5;
   AOpenFinish 0;
   AEvent env; ADispatch env; AEvent env; ADispatch env; AReceive 0; AOpenFinish 0; AEvent env].

End Demo.

(** The waiting counter can wrap below zero. [Stop] decrements it before it
    looks for the job, so a client that calls [finish] again after a [finish] that
    was answered by a token makes it [usize::MAX] while no job waits. *)
Theorem waiting_counter_can_wrap :
  ∃ s : System nat, reachable Demo.lines default_policy s
    ∧ sc_waiting (w_counters (sy_world s)) = usize_max ∧ size (w_jobs (sy_world s)) = 0.
Proof.
  exists (final Demo.lines Demo.twice Demo.start). split; [|split; vm_compute; reflexivity].
  apply final_reachable; [exact Demo.start_reachable|]. vm_compute. reflexivity.
Qed.

Lemma scheduler_no_deadlock_witness :
  (∃ s', perform Demo.lines (AReceive 0) Demo.blocked = Moves s')
  ∨ ∃ a s', server_side a = true ∧ perform Demo.lines a Demo.blocked = Moves s'.
Proof.
  destruct (Demo.looked_up (sy_clients Demo.blocked !! 0%N)
    (λ c, match cl_call c with Some _ => true | None => false end)) as (c & Hc & Hcall);
    [vm_compute; reflexivity|].
  apply (scheduler_no_deadlock Demo.lines default_policy Demo.blocked 0 c Demo.blocked_reachable Hc).
  destruct (cl_call c) as [call|]; [by exists call|done].
Defined.

Lemma scheduler_one_place_witness :
  perform Demo.lines (AEvent Demo.env) Demo.marked ≠ Panics
  ∧ ∃ j, w_jobs (sy_world Demo.marked) !! 0%N = Some j
      ∧ (outstanding (sy_world Demo.marked) 0 + count (is_done 0) (sy_events Demo.marked) = 1)%N.
Proof.
  destruct (scheduler_one_place Demo.lines default_policy Demo.marked Demo.marked_reachable)
    as [Hp Hone]. split; [apply Hp|].
  destruct (Demo.looked_up (w_jobs (sy_world Demo.marked) !! 0%N) jb_in_flight) as (j & Hj & Hf);
    [vm_compute; reflexivity|].
  exists j. split; [exact Hj|]. destruct (Hone 0%N j Hj) as [_ Hplace]. rewrite Hf in Hplace.
  exact (proj1 Hplace).
Defined.

Lemma scheduler_one_terminal_witness :
  ∃ ch, w_channels (sy_world Demo.blocked) !! 0%N = Some ch
    ∧ ∀ n m, ch_sent ch !! n = Some m → is_terminal m = true → S n = length (ch_sent ch).
Proof.
  destruct (Demo.looked_up (w_channels (sy_world Demo.blocked) !! 0%N) ch_open) as (ch & Hch & _);
    [vm_compute; reflexivity|].
  exists ch. split; [exact Hch|].
  exact (proj1 (scheduler_one_terminal Demo.lines default_policy Demo.blocked 0 ch
    Demo.blocked_reachable Hch)).
Defined.

Lemma scheduler_counters_exact_witness :
  sc_admitted (w_counters (sy_world Demo.blocked)) = 1%N
  ∧ sc_rounds (w_counters (sy_world Demo.blocked)) = 0%N.
Proof.
  split; [vm_compute; reflexivity|].
  apply (scheduler_counters_exact Demo.lines default_policy Demo.blocked Demo.blocked_reachable).
  vm_compute. discriminate.
Defined.

Lemma dispatch_loop_terminates_witness :
  length (fp_runnable (w_policy (sy_world Demo.requeued))) = 1
  ∧ ∃ w', dispatch_all Demo.env 2 (sy_world Demo.requeued) = Done true w'
      ∧ ∀ e, e ∈ fp_runnable (w_policy w') → available w' (pe_id e) = false.
Proof.
  split; [vm_compute; reflexivity|].
  apply (dispatch_loop_terminates Demo.lines default_policy Demo.requeued Demo.env
    Demo.requeued_reachable).
  vm_compute. reflexivity.
Defined.

Lemma cancellation_is_prompt_witness :
  ∃ s', perform Demo.lines (AEvent Demo.env) Demo.marked = Moves s'
    ∧ w_jobs (sy_world s') !! 0%N = None.
Proof.
  destruct (Demo.looked_up (w_jobs (sy_world Demo.marked) !! 0%N) jb_cancel_requested)
    as (j & Hj & Hcan); [vm_compute; reflexivity|].
  destruct (Demo.done_first 0 (sy_events Demo.marked)) as (c & rest & Hev & Hid);
    [vm_compute; reflexivity|].
  assert (sy_phase Demo.marked = Receiving) as Hph by (vm_compute; reflexivity).
  destruct (proj2 (cancellation_is_prompt Demo.lines default_policy Demo.marked Demo.env 0 rest j
    Demo.marked_reachable Hph Hj) c Hev Hid Hcan) as (s' & Hs' & Hgone & _).
  exists s'. split; [exact Hs'|exact Hgone].
Defined.

Lemma shutdown_drains_witness :
  dispatch_one Demo.env (sy_world Demo.closing) = Done false (sy_world Demo.closing).
Proof.
  apply (shutdown_drains Demo.lines default_policy Demo.closing Demo.closing_reachable).
  vm_compute. reflexivity.
Defined.
