(* ===== verification/ContextStrategy.v ===== *)
(** The [window_tail] compaction strategy of
    [crates/server/src/context_strategy.rs]: which tokens of a context survive
    when it is cut down to a budget.

    Tokens are strings of bytes; the patterns the code searches for are ASCII, so
    searching bytes is searching characters. Indices and lengths are [nat] (a
    slice's length is far below [usize::MAX]); the sort by index is an insertion
    sort, stable as [sort_by_key] is. *)

From stdpp Require Import base strings list numbers sorting.
From S2P Require Import Prelude.

(** ** Data *)

Definition BUILTIN_STRATEGY_VERSION : N := 1.
Definition COMPACTION_BLOCK_TOKENS : nat := 64.
Definition WINDOW_TAIL_STRATEGY_ID : string := "window_tail".

Inductive CompactionNoMatchFallback : Type :=
| NoCompact
| Reject.

Inductive CompactionTrigger : Type :=
| TriggerRequest
| TriggerNone.

Record CompactionRequest : Type := mkCompactionRequest {
  req_declaration_id : option string;
  req_strategy_preferences : list string;
  req_fallback_when_no_match : CompactionNoMatchFallback;
  req_trigger : CompactionTrigger;
  req_target_tokens : option nat;
}.

Definition default_compaction_request : CompactionRequest :=
  mkCompactionRequest None [] NoCompact TriggerRequest None.

Inductive CompactionResultReason : Type :=
| RequestSatisfied
| AnchorsOnly
| BudgetTrimmed
| NoReason.

Record CompactionResult : Type := mkCompactionResult {
  compact_mode : string;
  compact_reason : CompactionResultReason;
  requested_strategy_ids : list string;
  selected_strategy_id : option string;
  requested_strategy_budget : nat;
  resulting_budget : nat;
  retained_indices : list nat;
  retained_message_count : nat;
  source_message_count : nat;
  retained_anchor_count : nat;
  success : bool;
  fallback : bool;
  resulting_context_epoch : N;
}.

Record CompactionProposal : Type := mkProposal {
  resulting_tokens : list string;
  proposal_result : CompactionResult;
}.

Record CompactionStrategyInfo : Type := mkStrategyInfo {
  si_strategy_id : string;
  si_version : N;
  si_compact_mode : string;
  si_default_target_tokens : nat;
  si_target_alignment_tokens : nat;
  si_reason : string;
}.

Definition strategy_catalog : list CompactionStrategyInfo :=
  [mkStrategyInfo WINDOW_TAIL_STRATEGY_ID BUILTIN_STRATEGY_VERSION "window_tail" 3072
     COMPACTION_BLOCK_TOKENS "Keep newest turns while preserving anchor boundaries"].

(** ** Choosing a strategy *)

Definition known_strategy (requested : string) : bool :=
  existsb (λ s, bool_decide (si_strategy_id s = requested)) strategy_catalog.

Definition select_strategy (preferences : list string) : option string :=
  match preferences with
  | [] => Some WINDOW_TAIL_STRATEGY_ID
  | _ => List.find known_strategy preferences
  end.

(** The version is one digit, printed in decimal. *)
Definition deterministic_strategy_id (strategy : string) : string :=
  (strategy +:+ ":v" +:+ "1")%string.

(** ** Turns and anchors *)

Definition starts_with (pattern s : string) : bool := String.prefix pattern s.

Definition contains (pattern s : string) : bool :=
  match String.index 0 pattern s with Some _ => true | None => false end.

Definition is_role_boundary (token : string) : bool :=
  contains "<start_of_turn" token || bool_decide (token = "</s>").

Definition is_anchor (token : string) : bool :=
  starts_with "<start_of_turn>system" token || starts_with "<start_of_turn>tool" token
  || starts_with "<system" token || starts_with "<|system|>" token.

(** [enumerate]. *)
Definition enumerate {A} (l : list A) : list (nat * A) := imap pair l.

Definition anchor_indices (tokens : list string) : list nat :=
  (filter (λ p, is_anchor p.2 = true) (enumerate tokens)).*1.

(** The loop that cuts a list before every boundary: finished turns and the
    current one. *)
Definition split_step {A} (boundary : A → bool) (state : list (list A) * list A) (x : A)
  : list (list A) * list A :=
  let '(turns, current) := state in
  match current with
  | [] => (turns, [x])
  | _ => if boundary x then (turns ++ [current], [x]) else (turns, current ++ [x])
  end.

Definition split {A} (boundary : A → bool) (l : list A) : list (list A) :=
  let '(turns, current) := foldl (split_step boundary) ([], []) l in
  match current with [] => turns | _ => turns ++ [current] end.

Definition split_indexed_turns (tokens : list string) : list (list (nat * string)) :=
  split (λ p, is_role_boundary p.2) (enumerate tokens).

Definition split_turns (tokens : list string) : list (list string) :=
  match split is_role_boundary tokens with
  | [] => [tokens]
  | turns => turns
  end.

Definition source_messages (tokens : list string) : nat := length (split_turns tokens).

Definition turn_has_policy_anchor (turn : list (nat * string)) : bool :=
  existsb (λ p, is_anchor p.2) turn.

(** ** The strategy *)

Definition requested_budget_of (target : nat) : nat := Nat.max target 1.

Definition selection_budget_of (requested_budget : nat) : nat :=
  if COMPACTION_BLOCK_TOKENS <=? requested_budget
  then requested_budget - requested_budget mod COMPACTION_BLOCK_TOKENS
  else requested_budget.

(** First pass: the turns with an anchor. The state is [(retained, used_tokens)]. *)
Definition keep_anchored (state : list (nat * string) * nat) (turn : list (nat * string))
  : list (nat * string) * nat :=
  if turn_has_policy_anchor turn then (state.1 ++ turn, state.2 + length turn) else state.

(** Second pass, newest turn first: what still fits. *)
Definition keep_fitting (anchors : list nat) (budget : nat)
    (state : list (nat * string) * nat) (turn : list (nat * string)) : list (nat * string) * nat :=
  if existsb (λ p, bool_decide (p.1 ∈ anchors)) turn then state
  else if budget <? state.2 + length turn then state
  else (state.1 ++ turn, state.2 + length turn).

(** Nothing was kept: the newest turn, or its tail. *)
Definition keep_last (budget : nat) (turns : list (list (nat * string)))
    (state : list (nat * string) * nat) : list (nat * string) * nat :=
  match state.1, last turns with
  | [], Some turn =>
      if budget <? COMPACTION_BLOCK_TOKENS then (turn, length turn)
      else let tail := drop (length turn - budget) turn in (tail, length tail)
  | _, _ => state
  end.

Fixpoint insert_by_index (p : nat * string) (l : list (nat * string)) : list (nat * string) :=
  match l with
  | [] => [p]
  | q :: l' => if p.1 <=? q.1 then p :: l else q :: insert_by_index p l'
  end.

(** [sort_by_key(|(index, _)| *index)]. *)
Definition sort_by_index (l : list (nat * string)) : list (nat * string) :=
  foldr insert_by_index [] l.

(** What the passes keep, and the tokens they count as used. *)
Definition retain (source_tokens : list string) (requested_budget : nat)
  : list (nat * string) * nat :=
  let budget := selection_budget_of requested_budget in
  let anchors := anchor_indices source_tokens in
  let turns := split_indexed_turns source_tokens in
  keep_last budget turns
    (foldl (keep_fitting anchors budget) (foldl keep_anchored ([], 0) turns) (rev turns)).

Definition count_anchors (anchors retained : list nat) : nat :=
  length (filter (λ i, i ∈ anchors) retained).

Definition apply_window_tail_strategy (source_tokens : list string) (target : nat)
    (requested : list string) : result string CompactionProposal :=
  let requested_budget := requested_budget_of target in
  let anchors := anchor_indices source_tokens in
  match source_tokens with
  | [] =>
      Ok (mkProposal []
        (mkCompactionResult "window_tail" NoReason requested (Some WINDOW_TAIL_STRATEGY_ID)
           requested_budget 0 [] 0 0 0 true false 1))
  | _ =>
      if length source_tokens <=? requested_budget then
        let retained := seq 0 (length source_tokens) in
        Ok (mkProposal source_tokens
          (mkCompactionResult "window_tail" RequestSatisfied requested
             (Some WINDOW_TAIL_STRATEGY_ID) requested_budget (length source_tokens) retained
             (source_messages source_tokens) (source_messages source_tokens) (length anchors)
             true false 1))
      else
        let '(kept, used_tokens) := retain source_tokens requested_budget in
        let retained := sort_by_index kept in
        let indices := retained.*1 in
        let tokens := retained.*2 in
        let reason :=
          if (requested_budget <? used_tokens)
             || (negb (bool_decide (anchors = []))
                 && negb (existsb (λ i, bool_decide (i ∈ anchors)) indices))
          then AnchorsOnly else BudgetTrimmed in
        Ok (mkProposal tokens
          (mkCompactionResult "window_tail" reason requested (Some WINDOW_TAIL_STRATEGY_ID)
             requested_budget (length tokens) indices (length (split_turns tokens))
             (source_messages source_tokens) (count_anchors anchors indices) true
             (requested_budget <? used_tokens) 1))
  end.

Example trims :
  (λ p, retained_indices (proposal_result p)) <$> (match apply_window_tail_strategy
    ["<start_of_turn>system"; "be brief"; "</s>"; "<start_of_turn>user"; "hello"; "</s>"; "<start_of_turn>model"; "hi"]
    5 [] with Ok p => Some p | Err _ => None end) = Some [0; 1; 5; 6; 7].
Proof. vm_compute. reflexivity. Qed.
