(* ===== verification/ContextStrategyLaws.v ===== *)
(** What compaction keeps: a selection of the source in order, every anchored
    turn, the newest turns that fit, within the budget. *)

From stdpp Require Import base strings list numbers sorting.
From S2P Require Import Prelude ContextStrategy.

Implicit Types (tokens : list string) (turn : list (nat * string)) (kept : list (nat * string)).

(** ** Cutting into turns *)

Lemma split_fold {A} (b : A → bool) (l : list A) turns current :
  Forall (λ t, t ≠ []) turns →
  let '(turns', current') := foldl (split_step b) (turns, current) l in
  concat turns' ++ current' = concat turns ++ current ++ l ∧ Forall (λ t, t ≠ []) turns'.
Proof.
  revert turns current. induction l as [|x l IH]; intros turns current Hne; cbn [foldl].
  { by rewrite app_nil_r. }
  unfold split_step at 2. destruct current as [|y current]; [apply (IH turns [x] Hne)|].
  destruct (b x).
  - specialize (IH (turns ++ [y :: current]) [x]). destruct (foldl _ _ l) as [turns' current'].
    destruct IH as [IH1 IH2].
    + apply Forall_app. split; [done|]. by repeat constructor.
    + split; [|done]. rewrite IH1, concat_app. cbn. by rewrite app_nil_r, <- !app_assoc.
  - specialize (IH turns ((y :: current) ++ [x]) Hne). destruct (foldl _ _ l) as [turns' current'].
    destruct IH as [IH1 IH2]. split; [|done]. rewrite IH1. by rewrite <- !app_assoc.
Qed.

Lemma split_ok {A} (b : A → bool) (l : list A) :
  concat (split b l) = l ∧ Forall (λ t, t ≠ []) (split b l).
Proof.
  unfold split. pose proof (split_fold b l [] [] (Forall_nil_2 _)) as H.
  destruct (foldl (split_step b) ([], []) l) as [turns current]. destruct H as [H1 H2]. cbn in H1.
  destruct current as [|x current]; [by rewrite app_nil_r in H1|].
  rewrite concat_app. cbn. rewrite app_nil_r. split; [done|].
  apply Forall_app. split; [done|]. by repeat constructor.
Qed.

Lemma enumerate_fst {A} (l : list A) : (enumerate l).*1 = seq 0 (length l).
Proof.
  unfold enumerate. rewrite fmap_imap.
  apply list_eq. intros i. rewrite list_lookup_imap. destruct (l !! i) as [x|] eqn:Hx; cbn.
  - symmetry. apply lookup_seq. apply lookup_lt_Some in Hx. split; [done|lia].
  - symmetry. apply lookup_seq_ge. by apply lookup_ge_None in Hx.
Qed.

Lemma enumerate_snd {A} (l : list A) : (enumerate l).*2 = l.
Proof.
  unfold enumerate. rewrite fmap_imap. apply list_eq. intros i. rewrite list_lookup_imap.
  by destruct (l !! i).
Qed.

Lemma turns_concat tokens : concat (split_indexed_turns tokens) = enumerate tokens.
Proof. apply split_ok. Qed.

(** ** Anchors *)

Lemma anchor_indices_elem tokens i :
  i ∈ anchor_indices tokens ↔ ∃ t, (i, t) ∈ enumerate tokens ∧ is_anchor t = true.
Proof.
  unfold anchor_indices. rewrite list_elem_of_fmap. split.
  - intros ([i' t] & -> & [Ha Hin]%list_elem_of_filter). by exists t.
  - intros (t & Hin & Ha). exists (i, t). split; [done|]. by apply list_elem_of_filter.
Qed.

Lemma enumerate_functional {A} (l : list A) i x y :
  (i, x) ∈ enumerate l → (i, y) ∈ enumerate l → x = y.
Proof.
  unfold enumerate. rewrite !elem_of_lookup_imap.
  intros (i1 & x1 & [= -> ->] & H1) (i2 & y2 & [= <- ->] & H2). congruence.
Qed.

(** The two tests for an anchored turn agree on the turns of the source. *)
Lemma anchored_turn tokens turn :
  turn ∈ split_indexed_turns tokens →
  existsb (λ p, bool_decide (p.1 ∈ anchor_indices tokens)) turn = turn_has_policy_anchor turn.
Proof.
  intros Hturn. unfold turn_has_policy_anchor. apply eq_iff_eq_true. rewrite !existsb_exists.
  assert (∀ p, In p turn → p ∈ enumerate tokens) as Hin.
  { intros p Hp. rewrite <- turns_concat. apply list_elem_of_In, in_concat. exists turn.
    split; [by apply list_elem_of_In|done]. }
  split; intros ([i t] & Hp & Ha); exists (i, t); (split; [done|]); cbn in *.
  - apply bool_decide_eq_true in Ha. apply anchor_indices_elem in Ha as (t' & Ht' & Ha).
    by rewrite (enumerate_functional tokens i t t' (Hin _ Hp) Ht').
  - apply bool_decide_eq_true, anchor_indices_elem. exists t. split; [by apply Hin|done].
Qed.

(** ** The passes *)

Definition total (ts : list (list (nat * string))) : nat := length (concat ts).

Definition anchored (ts : list (list (nat * string))) : list (list (nat * string)) :=
  filter (λ t, turn_has_policy_anchor t = true) ts.

Definition loose (ts : list (list (nat * string))) : list (list (nat * string)) :=
  filter (λ t, turn_has_policy_anchor t ≠ true) ts.

Lemma keep_anchored_ok ts kept used :
  foldl keep_anchored (kept, used) ts = (kept ++ concat (anchored ts), used + total (anchored ts)).
Proof.
  revert kept used. induction ts as [|t ts IH]; intros kept used; cbn [foldl].
  { cbn. by rewrite app_nil_r, Nat.add_0_r. }
  unfold keep_anchored at 2. unfold anchored. rewrite filter_cons.
  destruct (turn_has_policy_anchor t); cbn [decide decide_rel].
  - rewrite IH, decide_True by done. unfold total. cbn. rewrite length_app, <- app_assoc.
    f_equal. fold (anchored ts). lia.
  - rewrite IH. by rewrite decide_False.
Qed.

(** The turns the second pass takes, from the newest. *)
Fixpoint fitting (budget used : nat) (ts : list (list (nat * string))) : list (list (nat * string)) :=
  match ts with
  | [] => []
  | t :: ts' =>
      if turn_has_policy_anchor t then fitting budget used ts'
      else if budget <? used + length t then fitting budget used ts'
      else t :: fitting budget (used + length t) ts'
  end.

Lemma keep_fitting_ok anchors budget ts kept used :
  (∀ t, t ∈ ts → existsb (λ p, bool_decide (p.1 ∈ anchors)) t = turn_has_policy_anchor t) →
  foldl (keep_fitting anchors budget) (kept, used) ts
  = (kept ++ concat (fitting budget used ts), used + total (fitting budget used ts)).
Proof.
  revert kept used. induction ts as [|t ts IH]; intros kept used Ha; cbn [foldl fitting].
  { cbn. by rewrite app_nil_r, Nat.add_0_r. }
  assert (∀ t, t ∈ ts → existsb (λ p, bool_decide (p.1 ∈ anchors)) t = turn_has_policy_anchor t)
    as Ha' by (intros; apply Ha; by right).
  unfold keep_fitting at 2. rewrite (Ha t) by left. destruct (turn_has_policy_anchor t); [by apply IH|].
  cbn [fst snd]. destruct (budget <? used + length t); [by apply IH|].
  rewrite IH by done. unfold total. cbn. rewrite length_app, <- app_assoc. f_equal. lia.
Qed.

Lemma fitting_sublist budget used ts : fitting budget used ts `sublist_of` loose ts.
Proof.
  revert used. induction ts as [|t ts IH]; intros used; cbn [fitting]; [constructor|].
  unfold loose. rewrite filter_cons. destruct (turn_has_policy_anchor t).
  - rewrite decide_False by (intros Hn; by apply Hn). apply IH.
  - rewrite decide_True by done. destruct (budget <? used + length t); [apply sublist_cons, IH|apply sublist_skip, IH].
Qed.

Lemma fitting_budget budget used ts :
  used + total (fitting budget used ts) ≤ Nat.max used budget.
Proof.
  revert used. induction ts as [|t ts IH]; intros used; cbn [fitting]; [unfold total; cbn; lia|].
  destruct (turn_has_policy_anchor t); [apply IH|].
  destruct (Nat.ltb_spec budget (used + length t)); [apply IH|].
  specialize (IH (used + length t)). unfold total in *. cbn. rewrite length_app. lia.
Qed.

(** ** Permutations of turns *)

Lemma concat_submseteq {A} (l k : list (list A)) : l ⊆+ k → concat l ⊆+ concat k.
Proof.
  induction 1 as [|x l k _ IH|x y l|x l k _ IH|l k m _ IH1 _ IH2]; cbn.
  - done.
  - by apply submseteq_skips_l.
  - rewrite !app_assoc. by rewrite (Permutation_app_comm y x).
  - etrans; [exact IH|]. by apply submseteq_inserts_l.
  - by etrans.
Qed.

Lemma chosen_submseteq budget used ts :
  concat (anchored ts) ++ concat (fitting budget used (rev ts)) ⊆+ concat ts.
Proof.
  rewrite <- concat_app. apply concat_submseteq.
  assert (anchored ts ++ loose ts ≡ₚ ts) as Hsplit by (apply filter_app_complement).
  transitivity (anchored ts ++ loose ts); [|by rewrite Hsplit].
  apply submseteq_app; [done|].
  etrans; [apply sublist_submseteq, fitting_sublist|].
  assert (loose (rev ts) ≡ₚ loose ts) as Hrev; [|by rewrite Hrev].
  unfold loose. by rewrite <- (Permutation_rev ts).
Qed.

Lemma enumerate_NoDup tokens : base.NoDup (enumerate tokens).*1.
Proof. rewrite enumerate_fst. apply NoDup_seq. Qed.

Lemma submseteq_NoDup_fst tokens kept : kept ⊆+ enumerate tokens → base.NoDup kept.*1.
Proof.
  intros [k Hk]%submseteq_Permutation. pose proof (enumerate_NoDup tokens) as Hnd.
  rewrite Hk, fmap_app in Hnd. by apply list.NoDup_app in Hnd as [? _].
Qed.

(** ** The sort *)

Definition before (p q : nat * string) : Prop := p.1 < q.1.

Lemma insert_perm p l : insert_by_index p l ≡ₚ p :: l.
Proof.
  induction l as [|q l IH]; cbn; [done|]. destruct (p.1 <=? q.1); [done|].
  rewrite IH. apply Permutation_swap.
Qed.

Lemma sort_perm l : sort_by_index l ≡ₚ l.
Proof. induction l as [|p l IH]; cbn; [done|]. by rewrite insert_perm, IH. Qed.

Lemma insert_sorted p l :
  StronglySorted before l → p.1 ∉ l.*1 → StronglySorted before (insert_by_index p l).
Proof.
  induction l as [|q l IH]; cbn; intros Hs Hp; [by repeat constructor|].
  inversion Hs as [|? ? Hs' Hq]; subst. rewrite not_elem_of_cons in Hp. destruct Hp as [Hne Hp].
  destruct (Nat.leb_spec p.1 q.1).
  - constructor; [done|]. constructor; [unfold before; lia|].
    eapply Forall_impl; [exact Hq|]. unfold before. intros r Hr. lia.
  - constructor; [by apply IH|]. rewrite insert_perm. constructor; [unfold before; lia|done].
Qed.

Lemma sort_sorted l : base.NoDup l.*1 → StronglySorted before (sort_by_index l).
Proof.
  induction l as [|p l IH]; cbn; [constructor|].
  intros [Hp Hnd]%list.NoDup_cons. apply insert_sorted; [by apply IH|].
  by rewrite sort_perm.
Qed.

Lemma enumerate_sorted tokens : StronglySorted before (enumerate tokens).
Proof.
  assert (∀ n, StronglySorted before (imap (λ i x, (n + i, x)) tokens)) as Hn; [|apply (Hn 0)].
  induction tokens as [|x tokens IH]; intros n; cbn; [constructor|]. constructor.
  - rewrite (imap_ext _ (λ i x, (S n + i, x))); [apply IH|]. intros i y _. cbn. f_equal. lia.
  - apply Forall_forall. intros [i y] (i' & x' & [= -> ->] & _)%elem_of_lookup_imap.
    unfold before. cbn. lia.
Qed.

Lemma filter_sorted (P : nat * string → Prop) `{∀ p, Decision (P p)} l :
  StronglySorted before l → StronglySorted before (filter P l).
Proof.
  induction 1 as [|p l Hs IH Hp]; [constructor|]. rewrite filter_cons.
  destruct (decide (P p)); [|done]. constructor; [done|]. rewrite Forall_forall in Hp |- *.
  intros q [_ Hq]%list_elem_of_filter. by apply Hp.
Qed.

#[local] Instance before_antisymm : AntiSymm (=) before.
Proof. intros p q Hp Hq. unfold before in *. lia. Qed.

(** Sorting what was kept restores the order of the source. *)
Lemma sort_kept tokens kept :
  kept ⊆+ enumerate tokens → sort_by_index kept = filter (λ p, p ∈ kept) (enumerate tokens).
Proof.
  intros Hsub. pose proof (submseteq_NoDup_fst tokens kept Hsub) as Hnd.
  apply (StronglySorted_unique before).
  - by apply sort_sorted.
  - apply filter_sorted, enumerate_sorted.
  - rewrite sort_perm. apply NoDup_Permutation.
    + by eapply NoDup_fmap_1.
    + apply NoDup_filter. eapply NoDup_fmap_1, enumerate_NoDup.
    + intros p. rewrite list_elem_of_filter. split; [|tauto]. intros Hp. split; [done|].
      by eapply elem_of_submseteq.
Qed.

(** ** What is retained *)

(** The turns the two passes choose. *)
Definition chosen (tokens : list string) (budget : nat) : list (list (nat * string)) :=
  let turns := split_indexed_turns tokens in
  anchored turns ++ fitting budget (total (anchored turns)) (rev turns).

(** The last turn, or its tail, when they choose none. *)
Definition last_resort (budget : nat) turn : list (nat * string) :=
  if budget <? COMPACTION_BLOCK_TOKENS then turn else drop (length turn - budget) turn.

Definition retained_ok (tokens : list string) (budget : nat) kept : Prop :=
  kept ⊆+ enumerate tokens
  ∧ ((chosen tokens budget ≠ [] ∧ kept = concat (chosen tokens budget))
     ∨ (chosen tokens budget = [] ∧ ∃ turn, last (split_indexed_turns tokens) = Some turn
          ∧ kept = last_resort budget turn)).

Lemma turns_nonempty tokens : Forall (λ t, t ≠ []) (split_indexed_turns tokens).
Proof. apply split_ok. Qed.

Lemma chosen_turns tokens budget turn :
  turn ∈ chosen tokens budget → turn ∈ split_indexed_turns tokens.
Proof.
  unfold chosen. intros [Ht|Ht]%elem_of_app.
  - by apply list_elem_of_filter in Ht as [_ Ht].
  - assert (fitting budget (total (anchored (split_indexed_turns tokens)))
      (rev (split_indexed_turns tokens)) ⊆+ loose (rev (split_indexed_turns tokens))) as Hsub
      by apply sublist_submseteq, fitting_sublist.
    pose proof (elem_of_submseteq _ _ _ Ht Hsub) as Hl.
    apply list_elem_of_filter in Hl as [_ Hl]. by apply list_elem_of_In, in_rev, list_elem_of_In in Hl.
Qed.

Lemma concat_nil_chosen tokens budget : concat (chosen tokens budget) = [] → chosen tokens budget = [].
Proof.
  destruct (chosen tokens budget) as [|t ts] eqn:Hc; [done|]. cbn. intros [Ht _]%app_eq_nil.
  exfalso. pose proof (turns_nonempty tokens) as Hne. rewrite Forall_forall in Hne.
  apply (Hne t); [|done]. apply (chosen_turns tokens budget). rewrite Hc. left.
Qed.

Lemma retain_spec tokens requested_budget :
  tokens ≠ [] →
  ∃ kept, retain tokens requested_budget = (kept, length kept)
    ∧ retained_ok tokens (selection_budget_of requested_budget) kept.
Proof.
  intros Hne. unfold retain. set (budget := selection_budget_of requested_budget).
  set (turns := split_indexed_turns tokens).
  rewrite keep_anchored_ok, keep_fitting_ok.
  2:{ intros t Ht. apply anchored_turn. by apply list_elem_of_In, in_rev, list_elem_of_In in Ht. }
  cbn [app Nat.add]. rewrite <- concat_app.
  change (anchored turns ++ _) with (chosen tokens budget).
  assert (total (anchored turns) + total (fitting budget (total (anchored turns)) (rev turns))
    = length (concat (chosen tokens budget))) as ->.
  { unfold chosen, total. by rewrite concat_app, length_app. }
  assert (concat (chosen tokens budget) ⊆+ enumerate tokens) as Hsub.
  { rewrite <- turns_concat. unfold chosen. rewrite concat_app. apply chosen_submseteq. }
  unfold keep_last. cbn [fst]. destruct (concat (chosen tokens budget)) as [|p l] eqn:Hk.
  - assert (chosen tokens budget = []) as Hnil by (by apply concat_nil_chosen).
    destruct (last turns) as [turn|] eqn:Hlast.
    2:{ exfalso. apply last_None in Hlast. apply Hne. pose proof (turns_concat tokens) as Hc.
        fold turns in Hc. rewrite Hlast in Hc. apply (f_equal (fmap snd)) in Hc.
        by rewrite enumerate_snd in Hc. }
    assert (turn ⊆+ enumerate tokens) as Hturn.
    { rewrite <- turns_concat. fold turns. apply last_Some in Hlast as [ts ->].
      rewrite concat_app. cbn. rewrite app_nil_r. apply submseteq_inserts_l. done. }
    exists (last_resort budget turn). unfold last_resort.
    destruct (budget <? COMPACTION_BLOCK_TOKENS) eqn:Hb.
    + split; [done|]. split; [done|]. right. split; [done|]. exists turn. unfold last_resort.
      by rewrite Hb.
    + split; [done|]. split; [by etrans; [apply sublist_submseteq, sublist_drop|]|].
      right. split; [done|]. exists turn. unfold last_resort. by rewrite Hb.
  - exists (p :: l). split; [done|]. split; [done|]. left. split; [|done].
    intros Hnil. by rewrite Hnil in Hk.
Qed.

Lemma selection_budget_le b : selection_budget_of b ≤ b.
Proof. unfold selection_budget_of. destruct (_ <=? b); lia. Qed.

Lemma small_selection_budget b :
  selection_budget_of b < COMPACTION_BLOCK_TOKENS → b < COMPACTION_BLOCK_TOKENS.
Proof.
  unfold selection_budget_of, COMPACTION_BLOCK_TOKENS. destruct (Nat.leb_spec 64 b); [|lia].
  pose proof (Nat.mod_upper_bound b 64). pose proof (Nat.div_mod_eq b 64). lia.
Qed.

Lemma last_resort_length budget turn :
  COMPACTION_BLOCK_TOKENS ≤ budget → length (last_resort budget turn) ≤ budget.
Proof.
  intros Hb. unfold last_resort. rewrite (proj2 (Nat.ltb_ge _ _)) by done.
  rewrite length_drop. lia.
Qed.

(** ** Properties *)

Lemma pairs_lookup tokens kept :
  (∀ p, p ∈ kept → p ∈ enumerate tokens) →
  (λ i, tokens !! i) <$> kept.*1 = Some <$> kept.*2.
Proof.
  intros Hk. rewrite <- !list_fmap_compose. apply list_fmap_ext. intros i [j x] Hp. cbn.
  assert ((j, x) ∈ enumerate tokens) as Hin by (apply Hk; by eapply list_elem_of_lookup_2).
  unfold enumerate in Hin. by apply elem_of_lookup_imap in Hin as (j' & x' & [= -> ->] & ?).
Qed.

Lemma fst_filter_seq tokens kept :
  kept ⊆+ enumerate tokens →
  (sort_by_index kept).*1 = filter (λ i, i ∈ kept.*1) (seq 0 (length tokens)).
Proof.
  intros Hsub. assert (AntiSymm (=) lt) by (intros i j ??; lia).
  apply (StronglySorted_unique lt).
  - pose proof (sort_sorted kept (submseteq_NoDup_fst tokens kept Hsub)) as Hs.
    induction Hs as [|p l Hs IH Hp]; cbn; constructor; [done|]. by apply Forall_fmap.
  - assert (∀ n k, StronglySorted lt (filter (λ i, i ∈ kept.*1) (seq k n))) as Hs; [|apply Hs].
    induction n as [|n IH]; intros k; [constructor|]. cbn [seq]. rewrite filter_cons.
    destruct (decide _); [|done]. constructor; [done|]. apply Forall_forall.
    intros i [_ Hi]%list_elem_of_filter. apply elem_of_seq in Hi. lia.
  - rewrite (sort_perm kept). pose proof (submseteq_NoDup_fst tokens kept Hsub) as Hnd.
    apply NoDup_Permutation; [done|apply NoDup_filter, NoDup_seq|].
    intros i. rewrite list_elem_of_filter. split; [|tauto]. intros Hi. split; [done|].
    apply list_elem_of_fmap in Hi as ([j x] & -> & Hp). rewrite <- (enumerate_fst tokens).
    apply list_elem_of_fmap. exists (j, x). split; [done|]. by eapply elem_of_submseteq.
Qed.

Definition policy_anchored tokens : list nat := (concat (anchored (split_indexed_turns tokens))).*1.

Lemma retained_anchored tokens budget kept i :
  retained_ok tokens budget kept → i ∈ policy_anchored tokens → i ∈ kept.*1.
Proof.
  unfold policy_anchored. intros [_ [[_ ->]|[Hnil _]]] Hi.
  - unfold chosen. rewrite concat_app, fmap_app. apply elem_of_app. by left.
  - unfold chosen in Hnil. apply app_eq_nil in Hnil as [Ha _]. rewrite Ha in Hi. by apply not_elem_of_nil in Hi.
Qed.

Lemma anchor_in_anchored tokens i : i ∈ anchor_indices tokens → i ∈ policy_anchored tokens.
Proof.
  intros (t & Hin & Ha)%anchor_indices_elem. rewrite <- turns_concat in Hin.
  apply list_elem_of_In, in_concat in Hin as (turn & Hturn & Hp).
  apply list_elem_of_fmap. exists (i, t). split; [done|]. apply list_elem_of_In, in_concat.
  exists turn. split; [|done]. apply list_elem_of_In, list_elem_of_filter.
  split; [|by apply list_elem_of_In]. apply existsb_exists. by exists (i, t).
Qed.

Lemma policy_anchored_lt tokens i : i ∈ policy_anchored tokens → i < length tokens.
Proof.
  intros (p & -> & Hp)%list_elem_of_fmap.
  apply list_elem_of_In, in_concat in Hp as (turn & Hturn%list_elem_of_In & Hp).
  apply list_elem_of_filter in Hturn as [_ Hturn].
  assert (p ∈ enumerate tokens) as Hin.
  { rewrite <- turns_concat. apply list_elem_of_In, in_concat. exists turn.
    split; [by apply list_elem_of_In|done]. }
  assert (p.1 ∈ seq 0 (length tokens)) as Hs; [|apply elem_of_seq in Hs; lia].
  rewrite <- enumerate_fst. apply list_elem_of_fmap. by exists p.
Qed.

Lemma count_all_anchors tokens l :
  base.NoDup l → (∀ i, i ∈ anchor_indices tokens → i ∈ l) →
  count_anchors (anchor_indices tokens) l = length (anchor_indices tokens).
Proof.
  intros Hnd Hl. unfold count_anchors. apply Permutation_length, NoDup_Permutation.
  - by apply NoDup_filter.
  - apply (submseteq_NoDup_fst tokens). apply sublist_submseteq, sublist_filter.
  - intros i. rewrite list_elem_of_filter. naive_solver.
Qed.

(** What every answer of the strategy satisfies, whichever branch made it. *)
Definition selection_ok tokens (target : nat) (p : CompactionProposal) : Prop :=
  let r := proposal_result p in
  retained_indices r = filter (λ i, i ∈ retained_indices r) (seq 0 (length tokens))
  ∧ (λ i, tokens !! i) <$> retained_indices r = Some <$> resulting_tokens p
  ∧ policy_anchored tokens ⊆ retained_indices r
  ∧ retained_anchor_count r = length (anchor_indices tokens)
  ∧ resulting_budget r = length (resulting_tokens p)
  ∧ fallback r = (Nat.max target 1 <? length (resulting_tokens p)).

Lemma selection_all tokens target reason ids strategy k k' :
  length tokens ≤ Nat.max target 1 →
  selection_ok tokens target
    (mkProposal tokens (mkCompactionResult "window_tail" reason ids strategy
       (requested_budget_of target) (length tokens) (seq 0 (length tokens)) k k'
       (length (anchor_indices tokens)) true false 1)).
Proof.
  intros Hle. repeat split; cbn [proposal_result retained_indices resulting_tokens
    retained_anchor_count resulting_budget fallback].
  - symmetry. assert (∀ l : list nat, (∀ i, i ∈ l → i ∈ seq 0 (length tokens)) →
      filter (λ i, i ∈ seq 0 (length tokens)) l = l) as Hf; [|by apply Hf].
    induction l as [|i l IH]; intros Hl; [done|]. rewrite filter_cons, decide_True by (apply Hl; left).
    f_equal. apply IH. intros j Hj. apply Hl. by right.
  - pose proof (pairs_lookup tokens (enumerate tokens) (λ _ h, h)) as H.
    by rewrite enumerate_fst, enumerate_snd in H.
  - intros i Hi%policy_anchored_lt. apply elem_of_seq. lia.
  - symmetry. by apply Nat.ltb_ge.
Qed.

Lemma selection_kept tokens target kept reason ids strategy k k' :
  retained_ok tokens (selection_budget_of (Nat.max target 1)) kept →
  selection_ok tokens target
    (mkProposal (sort_by_index kept).*2 (mkCompactionResult "window_tail" reason ids strategy
       (requested_budget_of target) (length (sort_by_index kept).*2) (sort_by_index kept).*1 k k'
       (count_anchors (anchor_indices tokens) (sort_by_index kept).*1) true
       (Nat.max target 1 <? length kept) 1)).
Proof.
  intros Hok. pose proof (proj1 Hok) as Hsub.
  assert (∀ i, i ∈ (sort_by_index kept).*1 ↔ i ∈ kept.*1) as Hin by (intros; by rewrite sort_perm).
  repeat split; cbn [proposal_result retained_indices resulting_tokens
    retained_anchor_count resulting_budget fallback].
  - rewrite (fst_filter_seq tokens kept Hsub) at 1. apply list_filter_iff. intros i. by rewrite Hin.
  - apply pairs_lookup. intros p Hp. rewrite sort_perm in Hp. by eapply elem_of_submseteq.
  - intros i Hi. apply Hin. by eapply retained_anchored.
  - apply count_all_anchors.
    + rewrite sort_perm. by eapply submseteq_NoDup_fst.
    + intros i Hi%anchor_in_anchored. apply Hin. by eapply retained_anchored.
  - rewrite length_fmap. by rewrite (Permutation_length (sort_perm kept)).
Qed.

(** The answer, by branch. *)
Lemma apply_cases tokens target requested :
  ∃ p, apply_window_tail_strategy tokens target requested = Ok p
    ∧ selection_ok tokens target p
    ∧ ((length tokens ≤ Nat.max target 1 ∧ resulting_tokens p = tokens)
       ∨ (Nat.max target 1 < length tokens
          ∧ ∃ kept, retained_ok tokens (selection_budget_of (Nat.max target 1)) kept
              ∧ resulting_tokens p = (sort_by_index kept).*2)).
Proof.
  unfold apply_window_tail_strategy. destruct tokens as [|x tokens'] eqn:Ht.
  { eexists. split; [done|]. split; [|left; split; [cbn; lia|done]].
    apply (selection_all []). cbn. lia. }
  rewrite <- Ht. unfold requested_budget_of at 1.
  destruct (Nat.leb_spec (length tokens) (Nat.max target 1)).
  { eexists. split; [done|]. split; [by apply selection_all|by left]. }
  destruct (retain_spec tokens (requested_budget_of target)) as (kept & Hret & Hok); [by subst|].
  rewrite Hret. eexists. split; [done|]. split; [by apply selection_kept|].
  right. split; [done|]. by exists kept.
Qed.

(** Compaction always succeeds and answers a selection of the source: the
    retained indices are in source order without repetition, the resulting tokens
    are the tokens at those indices, every turn holding a policy anchor is kept
    whole, no anchor is lost, and the reported budget and [fallback] flag are
    those of the resulting tokens. *)
Theorem window_tail_selection tokens target requested :
  ∃ p, apply_window_tail_strategy tokens target requested = Ok p ∧ selection_ok tokens target p.
Proof. destruct (apply_cases tokens target requested) as (p & ? & ? & _). eauto. Qed.

Lemma chosen_length tokens budget :
  length (concat (chosen tokens budget)) ≤ Nat.max (length (policy_anchored tokens)) budget.
Proof.
  unfold chosen, policy_anchored. rewrite concat_app, length_app, length_fmap. apply fitting_budget.
Qed.

Lemma split_step_map {A B} (f : A → B) (b : B → bool) turns current x :
  split_step b (map (map f) turns, map f current) (f x)
  = (map (map f) (split_step (λ x, b (f x)) (turns, current) x).1,
     map f (split_step (λ x, b (f x)) (turns, current) x).2).
Proof.
  destruct current as [|y current]; [done|]. unfold split_step. cbn [map].
  destruct (b (f x)); cbn [fst snd]; by rewrite map_app.
Qed.

Lemma split_map {A B} (f : A → B) (b : B → bool) (l : list A) :
  split b (map f l) = map (map f) (split (λ x, b (f x)) l).
Proof.
  assert (∀ state,
    foldl (split_step b) (map (map f) state.1, map f state.2) (map f l)
    = (map (map f) (foldl (split_step (λ x, b (f x))) state l).1,
       map f (foldl (split_step (λ x, b (f x))) state l).2)) as Hf.
  { induction l as [|x l IH]; intros [turns current]; [done|]. cbn [map foldl].
    cbn [fst snd]. rewrite split_step_map. apply IH. }
  unfold split. specialize (Hf ([], [])). cbn [map fst snd] in Hf. rewrite Hf. destruct (foldl _ _ l) as [turns [|x current]]; [done|].
  cbn [fst snd]. by rewrite map_app.
Qed.

Lemma split_turns_indexed tokens :
  tokens ≠ [] → split_turns tokens = map (map snd) (split_indexed_turns tokens).
Proof.
  intros Hne. unfold split_turns, split_indexed_turns.
  pose proof (split_map snd is_role_boundary (enumerate tokens)) as Hm.
  change (map snd (enumerate tokens)) with (enumerate tokens).*2 in Hm.
  rewrite enumerate_snd in Hm. rewrite Hm.
  destruct (split _ (enumerate tokens)) eqn:Hs; [|done].
  pose proof (proj1 (split_ok (λ p, is_role_boundary p.2) (enumerate tokens))) as Hc.
  rewrite Hs in Hc. apply (f_equal (fmap snd)) in Hc. by rewrite enumerate_snd in Hc.
Qed.

Lemma sort_last_turn tokens turn :
  last (split_indexed_turns tokens) = Some turn → sort_by_index turn = turn.
Proof.
  intros [ts Hts]%last_Some. pose proof (enumerate_sorted tokens) as Hs.
  pose proof (enumerate_NoDup tokens) as Hnd. rewrite <- turns_concat, Hts, concat_app in Hs, Hnd.
  cbn in Hs, Hnd. rewrite app_nil_r in Hs, Hnd. apply (StronglySorted_unique before).
  - apply sort_sorted. rewrite fmap_app in Hnd. by apply list.NoDup_app in Hnd as (_ & _ & ?).
  - by apply StronglySorted_app_1_r in Hs.
  - apply sort_perm.
Qed.

(** What is kept fits the requested budget, unless the anchored turns alone
    exceed it (then nothing else is kept), or the budget is below one block and
    no turn fits, when the result is the newest turn, whole. *)
Theorem window_tail_budget tokens target requested p :
  apply_window_tail_strategy tokens target requested = Ok p →
  length (resulting_tokens p) ≤ Nat.max (Nat.max target 1) (length (policy_anchored tokens))
  ∨ (target < COMPACTION_BLOCK_TOKENS
     ∧ last (split_turns tokens) = Some (resulting_tokens p)).
Proof.
  intros Hp. destruct (apply_cases tokens target requested) as (p' & Hp' & _ & Hcase).
  rewrite Hp in Hp'. injection Hp' as <-.
  destruct Hcase as [[Hle ->]|(Hlt & kept & [Hsub Hk] & ->)]; [left; lia|].
  pose proof (selection_budget_le (Nat.max target 1)) as Hb.
  rewrite length_fmap, (Permutation_length (sort_perm kept)).
  destruct Hk as [[_ ->]|(Hnil & turn & Hlast & ->)].
  { left. etrans; [apply chosen_length|]. lia. }
  destruct (Nat.ltb_spec (selection_budget_of (Nat.max target 1)) COMPACTION_BLOCK_TOKENS) as [Hs|Hs].
  - right. split.
    + apply small_selection_budget in Hs. lia.
    + rewrite split_turns_indexed by (by intros ->).
      unfold last_resort. rewrite (proj2 (Nat.ltb_lt _ _)) by done.
      rewrite (sort_last_turn tokens turn Hlast).
      pose proof (fmap_last (map snd) (split_indexed_turns tokens)) as Hl. rewrite Hlast in Hl. exact Hl.
  - left. pose proof (last_resort_length _ turn Hs). lia.
Qed.

Lemma window_tail_budget_witness :
  apply_window_tail_strategy ["<system"; "</s>"; "a"; "</s>"; "b"] 3 []
    = Ok (mkProposal ["<system"; "</s>"; "b"]
        (mkCompactionResult "window_tail" BudgetTrimmed [] (Some WINDOW_TAIL_STRATEGY_ID) 3 3
           [0; 3; 4] 2 3 1 true false 1))
  ∧ (3 ≤ Nat.max (Nat.max 3 1) (length (policy_anchored ["<system"; "</s>"; "a"; "</s>"; "b"]))
     ∨ (3 < COMPACTION_BLOCK_TOKENS
        ∧ last (split_turns ["<system"; "</s>"; "a"; "</s>"; "b"]) = Some ["<system"; "</s>"; "b"])).
Proof.
  assert (apply_window_tail_strategy ["<system"; "</s>"; "a"; "</s>"; "b"] 3 []
    = Ok (mkProposal ["<system"; "</s>"; "b"]
        (mkCompactionResult "window_tail" BudgetTrimmed [] (Some WINDOW_TAIL_STRATEGY_ID) 3 3
           [0; 3; 4] 2 3 1 true false 1))) as H by (vm_compute; reflexivity).
  split; [exact H|]. exact (window_tail_budget _ _ _ _ H).
Defined.
