(* ===== verification/Text.v ===== *)
(** Text as the standard library of the implementation has it: a string is a list
    of Unicode scalar values, its bytes are its UTF-8 encoding, and a byte slice is
    read back with the maximal-subpart rule of [str::from_utf8] and
    [String::from_utf8_lossy]. Bytes and characters are [N]. *)

From stdpp Require Import base list numbers.
From Stdlib Require Import Lia.
From S2P Require Import Prelude.

Abbreviation bytes := (list N).
Abbreviation text := (list N).

(** ** Characters *)

Definition scalarb (c : N) : bool :=
  ((c <? 55296) || ((57344 <=? c) && (c <? 1114112)))%N.

Definition scalar (c : N) : Prop := scalarb c = true.

Definition REPLACEMENT : N := 65533.

Definition between (lo hi b : N) : bool := ((lo <=? b) && (b <=? hi))%N.

(** [char::is_whitespace]: the Unicode White_Space property. *)
Definition is_whitespace (c : N) : bool :=
  between 9 13 c || (c =? 32)%N || (c =? 133)%N || (c =? 160)%N || (c =? 5760)%N
  || between 8192 8202 c || between 8232 8233 c || (c =? 8239)%N || (c =? 8287)%N || (c =? 12288)%N.

(** [trim_start_matches(char::is_whitespace)]. *)
Fixpoint trim_start (s : text) : text :=
  match s with
  | [] => []
  | c :: s' => if is_whitespace c then trim_start s' else s
  end.

(** ** Encoding *)

Definition encode_char (c : N) : bytes :=
  if (c <? 128)%N then [c]
  else if (c <? 2048)%N then [192 + c / 64; 128 + c mod 64]%N
  else if (c <? 65536)%N then [224 + c / 4096; 128 + (c / 64) mod 64; 128 + c mod 64]%N
  else [240 + c / 262144; 128 + (c / 4096) mod 64; 128 + (c / 64) mod 64; 128 + c mod 64]%N.

Definition encode (s : text) : bytes := concat (encode_char <$> s).

(** ** Decoding *)

Definition continuation (b : N) : bool := between 128 191 b.

Definition char_width (b : N) : nat :=
  if (b <? 128)%N then 1
  else if between 194 223 b then 2
  else if between 224 239 b then 3
  else if between 240 244 b then 4
  else 0.

(** The second byte of a wide character is narrower for four leading bytes. *)
Definition second_byte (b0 b1 : N) : bool :=
  if (b0 =? 224)%N then between 160 191 b1
  else if (b0 =? 237)%N then between 128 159 b1
  else if (b0 =? 240)%N then between 144 191 b1
  else if (b0 =? 244)%N then between 128 143 b1
  else continuation b1.

(** What a slice starts with: a character and its width, bytes that cannot start
    one, or the beginning of a character the slice cuts. *)
Inductive Scan : Type :=
| Char (c : N) (len : nat)
| Invalid (len : nat)
| Incomplete.

Definition scan_char (b0 : N) (rest : bytes) : Scan :=
  match char_width b0, rest with
  | 1, _ => Char b0 1
  | 2, [] => Incomplete
  | 2, b1 :: _ => if continuation b1 then Char ((b0 - 192) * 64 + (b1 - 128))%N 2 else Invalid 1
  | 3, [] => Incomplete
  | 3, b1 :: rest1 =>
      if negb (second_byte b0 b1) then Invalid 1
      else match rest1 with
        | [] => Incomplete
        | b2 :: _ =>
            if continuation b2
            then Char ((b0 - 224) * 4096 + (b1 - 128) * 64 + (b2 - 128))%N 3
            else Invalid 2
        end
  | 4, [] => Incomplete
  | 4, b1 :: rest1 =>
      if negb (second_byte b0 b1) then Invalid 1
      else match rest1 with
        | [] => Incomplete
        | b2 :: rest2 =>
            if negb (continuation b2) then Invalid 2
            else match rest2 with
              | [] => Incomplete
              | b3 :: _ =>
                  if continuation b3
                  then Char ((b0 - 240) * 262144 + (b1 - 128) * 4096 + (b2 - 128) * 64 + (b3 - 128))%N 4
                  else Invalid 3
              end
        end
  | _, _ => Invalid 1
  end.

(** [String::from_utf8_lossy]: a replacement character for every maximal invalid
    subpart. [skip] counts the bytes of the character being passed over. *)
Fixpoint lossy (skip : nat) (bs : bytes) : text :=
  match bs with
  | [] => []
  | b :: rest =>
      match skip with
      | S skip' => lossy skip' rest
      | O =>
          match scan_char b rest with
          | Char c len => c :: lossy (len - 1) rest
          | Invalid len => REPLACEMENT :: lossy (len - 1) rest
          | Incomplete => [REPLACEMENT]
          end
      end
  end.

Definition from_utf8_lossy (bs : bytes) : text := lossy 0 bs.

(** [str::from_utf8]: valid, or [valid_up_to] and [error_len] of the error. *)
Inductive Utf8 : Type :=
| Utf8Ok
| Utf8Error (valid_up_to : nat) (error_len : option nat).

Fixpoint validate (skip position : nat) (bs : bytes) : Utf8 :=
  match bs with
  | [] => Utf8Ok
  | b :: rest =>
      match skip with
      | S skip' => validate skip' (S position) rest
      | O =>
          match scan_char b rest with
          | Char _ len => validate (len - 1) (S position) rest
          | Invalid len => Utf8Error position (Some len)
          | Incomplete => Utf8Error position None
          end
      end
  end.

Definition from_utf8 (bs : bytes) : Utf8 := validate 0 0 bs.

(** ** Lemmas: one character *)

Lemma between_true lo hi b : between lo hi b = true ↔ (lo ≤ b ≤ hi)%N.
Proof. unfold between. rewrite andb_true_iff, !N.leb_le. tauto. Qed.

Lemma between_false lo hi b : between lo hi b = false ↔ (b < lo ∨ hi < b)%N.
Proof. unfold between. rewrite andb_false_iff, !N.leb_gt. tauto. Qed.

Lemma scalar_iff c : scalar c ↔ (c < 55296 ∨ (57344 ≤ c < 1114112))%N.
Proof.
  unfold scalar, scalarb. rewrite orb_true_iff, andb_true_iff, N.leb_le, !N.ltb_lt. tauto.
Qed.

Lemma width_2 b : (194 ≤ b ≤ 223)%N → char_width b = 2.
Proof.
  intros Hb. unfold char_width. rewrite (proj2 (N.ltb_ge _ _)) by lia.
  by rewrite (proj2 (between_true 194 223 b)).
Qed.

Lemma width_3 b : (224 ≤ b ≤ 239)%N → char_width b = 3.
Proof.
  intros Hb. unfold char_width. rewrite (proj2 (N.ltb_ge _ _)) by lia.
  rewrite (proj2 (between_false 194 223 b)) by lia. by rewrite (proj2 (between_true 224 239 b)).
Qed.

Lemma width_4 b : (240 ≤ b ≤ 244)%N → char_width b = 4.
Proof.
  intros Hb. unfold char_width. rewrite (proj2 (N.ltb_ge _ _)) by lia.
  rewrite (proj2 (between_false 194 223 b)), (proj2 (between_false 224 239 b)) by lia.
  by rewrite (proj2 (between_true 240 244 b)).
Qed.

Lemma split_64 c : c = (64 * (c / 64) + c mod 64)%N ∧ (0 ≤ c mod 64 < 64)%N ∧ (0 ≤ c / 64)%N.
Proof.
  split; [apply N.Div0.div_mod|]. split; [|apply N.le_0_l].
  split; [apply N.le_0_l|by apply N.mod_upper_bound].
Qed.

(** The four shapes of an encoded character: its leading byte, the bytes that
    follow, and how they read back. *)
Variant Encoded (c : N) : bytes → Prop :=
| Encoded1 : (c < 128)%N → Encoded c [c]
| Encoded2 b0 b1 :
    char_width b0 = 2 → continuation b1 = true →
    c = ((b0 - 192) * 64 + (b1 - 128))%N → Encoded c [b0; b1]
| Encoded3 b0 b1 b2 :
    char_width b0 = 3 → second_byte b0 b1 = true → continuation b1 = true → continuation b2 = true →
    c = ((b0 - 224) * 4096 + (b1 - 128) * 64 + (b2 - 128))%N → Encoded c [b0; b1; b2]
| Encoded4 b0 b1 b2 b3 :
    char_width b0 = 4 → second_byte b0 b1 = true → continuation b1 = true →
    continuation b2 = true → continuation b3 = true →
    c = ((b0 - 240) * 262144 + (b1 - 128) * 4096 + (b2 - 128) * 64 + (b3 - 128))%N →
    Encoded c [b0; b1; b2; b3].

(** The base-64 digits the encoder computes. *)
Lemma digits c :
  ∃ q r2 r1 r0, c = (q * 262144 + r2 * 4096 + r1 * 64 + r0)%N
    ∧ (r2 < 64)%N ∧ (r1 < 64)%N ∧ (r0 < 64)%N
    ∧ (c / 64 = q * 4096 + r2 * 64 + r1)%N ∧ (c / 4096 = q * 64 + r2)%N ∧ (c / 262144 = q)%N
    ∧ (c mod 64 = r0)%N ∧ ((c / 64) mod 64 = r1)%N ∧ ((c / 4096) mod 64 = r2)%N.
Proof.
  exists (c / 64 / 64 / 64)%N, ((c / 64 / 64) mod 64)%N, ((c / 64) mod 64)%N, (c mod 64)%N.
  destruct (split_64 c) as [D0 [[_ ?] _]], (split_64 (c / 64)) as [D1 [[_ ?] _]],
    (split_64 (c / 64 / 64)) as [D2 [[_ ?] _]].
  assert (c / 4096 = c / 64 / 64)%N as -> by (by rewrite N.Div0.div_div).
  assert (c / 262144 = c / 64 / 64 / 64)%N as -> by (by rewrite !N.Div0.div_div).
  assert (c / 64 / 64 = c / 64 / 64 / 64 * 64 + (c / 64 / 64) mod 64)%N as D2' by (rewrite D2 at 1; ring).
  assert (c / 64 = c / 64 / 64 / 64 * 4096 + (c / 64 / 64) mod 64 * 64 + (c / 64) mod 64)%N as D1'.
  { rewrite D1 at 1. rewrite D2' at 1. ring. }
  assert (c = c / 64 / 64 / 64 * 262144 + (c / 64 / 64) mod 64 * 4096 + (c / 64) mod 64 * 64 + c mod 64)%N as D0'.
  { rewrite D0 at 1. rewrite D1' at 1. ring. }
  done.
Qed.

Lemma second_byte_3 q r :
  (q < 16)%N → (r < 64)%N → (2048 ≤ q * 4096 + r * 64 + 63)%N →
  (q * 4096 + r * 64 < 55296 ∨ 57344 ≤ q * 4096 + r * 64 + 63)%N →
  second_byte (224 + q) (128 + r) = true.
Proof.
  intros ????. unfold second_byte. repeat match goal with
  | |- context [N.eqb ?a ?b] => destruct (N.eqb_spec a b)
  end; apply between_true; lia.
Qed.

Lemma second_byte_4 q r :
  (r < 64)%N → (65536 ≤ q * 262144 + r * 4096 + 4095)%N → (q * 262144 + r * 4096 < 1114112)%N →
  second_byte (240 + q) (128 + r) = true.
Proof.
  intros ???. unfold second_byte. repeat match goal with
  | |- context [N.eqb ?a ?b] => destruct (N.eqb_spec a b)
  end; apply between_true; lia.
Qed.

Lemma continuation_digit r : (r < 64)%N → continuation (128 + r) = true.
Proof. intros. apply between_true. lia. Qed.

Lemma encode_char_shape c : scalar c → Encoded c (encode_char c).
Proof.
  intros Hs%scalar_iff. unfold encode_char.
  destruct (digits c) as (q & r2 & r1 & r0 & Hc & ? & ? & ? & -> & -> & -> & -> & -> & ->).
  destruct (N.ltb_spec c 128); [by constructor|].
  destruct (N.ltb_spec c 2048).
  { replace (q * 4096 + r2 * 64 + r1)%N with r1 by lia.
    constructor; [apply width_2; lia|by apply continuation_digit|lia]. }
  destruct (N.ltb_spec c 65536).
  { replace (q * 64 + r2)%N with r2 by lia. replace (q * 4096 + r2 * 64 + r1)%N with (r2 * 64 + r1)%N by lia.
    constructor; [apply width_3; lia|apply second_byte_3; lia|by apply continuation_digit..|lia]. }
  constructor; [apply width_4; lia|apply second_byte_4; lia|by apply continuation_digit..|lia].
Qed.

Lemma second_continuation b0 b1 : second_byte b0 b1 = true → continuation b1 = true.
Proof.
  unfold second_byte. intros Hs. apply between_true.
  destruct (b0 =? 224)%N, (b0 =? 237)%N, (b0 =? 240)%N, (b0 =? 244)%N;
    apply between_true in Hs; lia.
Qed.

Lemma width_lead b : 1 < char_width b → continuation b = false.
Proof.
  unfold char_width, continuation. intros Hw. apply between_false.
  destruct (N.ltb_spec b 128); [lia|]. repeat case_match; try lia;
    match goal with H : between _ _ b = true |- _ => apply between_true in H end; lia.
Qed.

Lemma scan_encoded c e :
  Encoded c e → ∃ b r, e = b :: r ∧ continuation b = false ∧ Forall (λ x, continuation x = true) r
    ∧ (∀ rest, scan_char b (r ++ rest) = Char c (length e))
    ∧ (∀ p q, r = p ++ q → q ≠ [] → scan_char b p = Incomplete).
Proof.
  destruct 1 as [Hc|b0 b1 Hw H1 ->|b0 b1 b2 Hw H1 H1' H2 ->|b0 b1 b2 b3 Hw H1 H1' H2 H3 ->];
    eexists _, _; (split; [done|]).
  - repeat split; [apply between_false; lia|constructor| |].
    + intros rest. unfold scan_char, char_width. by rewrite (proj2 (N.ltb_lt _ _) Hc).
    + by intros [] [].
  - repeat split; [apply width_lead; lia|by repeat constructor| |]; unfold scan_char; rewrite Hw.
    + intros rest. cbn [app]. by rewrite H1.
    + intros [|? [|]] [|? q]; try done.
  - repeat split; [apply width_lead; lia|by repeat constructor| |]; unfold scan_char; rewrite Hw.
    + intros rest. cbn [app]. by rewrite H1, H2.
    + intros [|? [|? []]] [|? q]; try done. intros [= <- _ _] _. by rewrite H1.
  - repeat split; [apply width_lead; lia|by repeat constructor| |]; unfold scan_char; rewrite Hw.
    + intros rest. cbn [app]. by rewrite H1, H2, H3.
    + intros [|? [|? [|? [|? p]]]] [|? q]; try done; intros Hr _; inversion Hr; subst;
        cbn; by rewrite H1, ?H2.
Qed.

(** ** Lemmas: strings *)

Lemma encode_cons c s : encode (c :: s) = encode_char c ++ encode s.
Proof. done. Qed.

Lemma encode_app s s' : encode (s ++ s') = encode s ++ encode s'.
Proof. unfold encode. by rewrite fmap_app, concat_app. Qed.

Lemma lossy_skip n bs rest : length bs = n → lossy n (bs ++ rest) = lossy 0 rest.
Proof. revert n. induction bs as [|b bs IH]; intros [|n] Hn; cbn; [done..|]. apply IH. by injection Hn. Qed.

Lemma lossy_char c rest : scalar c → lossy 0 (encode_char c ++ rest) = c :: lossy 0 rest.
Proof.
  intros (b & r & He & _ & _ & Hscan & _)%encode_char_shape%scan_encoded. rewrite He.
  cbn [app lossy]. rewrite Hscan, He. cbn [length]. f_equal. apply lossy_skip. lia.
Qed.

Lemma lossy_encode s rest : Forall scalar s → lossy 0 (encode s ++ rest) = s ++ lossy 0 rest.
Proof.
  induction 1 as [|c s Hc _ IH]; [done|]. rewrite encode_cons, <- app_assoc, lossy_char by done.
  by rewrite IH.
Qed.

(** Reading back what was encoded. *)
Lemma from_utf8_lossy_encode s : Forall scalar s → from_utf8_lossy (encode s) = s.
Proof.
  intros Hs. unfold from_utf8_lossy. rewrite <- (app_nil_r (encode s)), lossy_encode by done.
  apply app_nil_r.
Qed.

Lemma validate_skip n position bs rest :
  length bs = n → validate n position (bs ++ rest) = validate 0 (position + n) rest.
Proof.
  revert n position. induction bs as [|b bs IH]; intros [|n] position Hn; cbn; [by rewrite Nat.add_0_r|done..|].
  rewrite (IH n) by (by injection Hn). f_equal. lia.
Qed.

Lemma validate_encode s position rest :
  Forall scalar s →
  validate 0 position (encode s ++ rest) = validate 0 (position + length (encode s)) rest.
Proof.
  intros Hs. revert position. induction Hs as [|c s Hc _ IH]; intros position.
  { cbn. by rewrite Nat.add_0_r. }
  rewrite encode_cons, <- app_assoc.
  pose proof (encode_char_shape c Hc) as (b & r & He & _ & _ & Hscan & _)%scan_encoded.
  rewrite He. cbn [app validate]. rewrite Hscan, He. cbn [length].
  rewrite validate_skip by lia. rewrite IH, length_app. f_equal. cbn [length]. lia.
Qed.

Lemma from_utf8_encode s : Forall scalar s → from_utf8 (encode s) = Utf8Ok.
Proof. intros Hs. unfold from_utf8. by rewrite <- (app_nil_r (encode s)), validate_encode. Qed.

(** The bytes a slice cuts off a character: a proper, non-empty prefix of it. *)
Definition cut_char (p : bytes) : Prop :=
  ∃ c q, scalar c ∧ encode_char c = p ++ q ∧ p ≠ [] ∧ q ≠ [].

(** A prefix of encoded text is encoded text, then perhaps a cut character. *)
Lemma encode_prefix s p q :
  Forall scalar s → encode s = p ++ q →
  ∃ s1 s2, s = s1 ++ s2 ∧ ((p = encode s1 ∧ q = encode s2)
    ∨ ∃ c cut rest s3, s2 = c :: s3 ∧ p = encode s1 ++ cut ∧ encode_char c = cut ++ rest
        ∧ q = rest ++ encode s3 ∧ cut ≠ [] ∧ rest ≠ []).
Proof.
  intros Hs. revert p q. induction Hs as [|c s Hc Hs IH]; intros p q Hpq.
  { cbn in Hpq. symmetry in Hpq. apply app_eq_nil in Hpq as [-> ->]. exists [], []. by split; [|left]. }
  rewrite encode_cons in Hpq. apply app_eq_app in Hpq as (k & [[Hp Hq]|[Hp Hq]]).
  - destruct k as [|x k].
    { rewrite app_nil_r in Hp. exists [c], s. split; [done|]. left.
      rewrite encode_cons, Hp. cbn. by rewrite !app_nil_r. }
    destruct p as [|y p].
    { exists [], (c :: s). split; [done|]. left. by rewrite encode_cons, Hp, Hq. }
    exists [], (c :: s). split; [done|]. right. by exists c, (y :: p), (x :: k), s.
  - destruct (IH k q) as (s1 & s2 & -> & Hcase); [done|]. exists (c :: s1), s2. split; [done|].
    destruct Hcase as [[-> ->]|(c' & cut & rest & s3 & -> & -> & He & -> & ? & ?)]; [by left|].
    right. exists c', cut, rest, s3. by rewrite encode_cons, Hp, <- !app_assoc.
Qed.

(** A boundary inside a character is followed by a continuation byte, so encoded
    text can only occur at the boundaries of encoded text. *)
Lemma encode_occurrence s p t q :
  Forall scalar s → Forall scalar t → t ≠ [] → encode s = p ++ encode t ++ q →
  ∃ s1, s1 `prefix_of` s ∧ p = encode s1.
Proof.
  intros Hs Ht Hne Heq. destruct (encode_prefix s p _ Hs Heq) as (s1 & s2 & -> & Hcase).
  destruct Hcase as [[-> _]|(c & cut & rest & s3 & -> & _ & He & Hq & Hcut & Hrest)].
  { exists s1. split; [by eexists|done]. }
  exfalso. apply Forall_app in Hs as [_ Hs]. inversion Hs as [|? ? Hc _]; subst.
  destruct t as [|d t]; [done|]. inversion Ht as [|? ? Hd _]; subst.
  pose proof (encode_char_shape c Hc) as (b & r & Hb & _ & Hr & _)%scan_encoded.
  pose proof (encode_char_shape d Hd) as (b' & r' & Hb' & Hlead & _)%scan_encoded.
  rewrite He in Hb. destruct cut as [|x cut]; [done|]. injection Hb as -> <-.
  apply Forall_app in Hr as [_ Hr]. destruct rest as [|y rest]; [done|].
  inversion Hr as [|? ? Hy _]; subst. rewrite encode_cons, Hb' in Hq. injection Hq as -> _.
  by rewrite Hy in Hlead.
Qed.
