(* ===== verification/Generation.v ===== *)
(** The generation frontier of [crates/server/src/generation.rs]: it turns the
    byte pieces of sampled tokens into text, holds back what may be the beginning
    of a stop sequence or of a character, and ends the text before the first stop.

    The callback [emit] is a function on a state of its own, so that its errors
    and what it was given are visible. Lengths and offsets are [nat]: the frontier
    counts the bytes of one generation. A slice beyond the end of [pending] is a
    panic. *)

From stdpp Require Import base strings list numbers.
From S2P Require Import Prelude Text Engine.

(** ** Data *)

Definition MAX_STOP_SEQUENCES : nat := 4.
Definition MAX_STOP_BYTES : nat := 256.
Definition MAX_EFFECTIVE_STOP_SEQUENCES : nat := MAX_STOP_SEQUENCES + 3.

Inductive FinishReason : Type := FinishStop | FinishLength.

Inductive StopAlignment : Type := TokenAligned | CrossToken | IntraToken.

Record FrontierResult : Type := mkFrontierResult {
  fr_text : text;
  fr_generated_tokens : nat;
  fr_finish_reason : FinishReason;
  fr_stop_alignment : option StopAlignment;
}.

Record GenerationFrontier : Type := mkFrontier {
  gf_stops : list bytes;
  gf_pending : bytes;
  gf_pending_offset : nat;
  gf_token_boundaries : list nat;
  gf_sampled_tokens : nat;
  gf_visible : text;
  gf_stripping : bool;
  gf_finish_reason : option FinishReason;
  gf_stop_alignment : option StopAlignment;
}.

(** *** Field updates *)

Definition sampled (token_end : nat) (f : GenerationFrontier) : GenerationFrontier :=
  mkFrontier (gf_stops f) (gf_pending f) (gf_pending_offset f)
    (gf_token_boundaries f ++ [token_end]) (S (gf_sampled_tokens f)) (gf_visible f)
    (gf_stripping f) (gf_finish_reason f) (gf_stop_alignment f).

Definition extend_pending (piece : bytes) (f : GenerationFrontier) : GenerationFrontier :=
  mkFrontier (gf_stops f) (gf_pending f ++ piece) (gf_pending_offset f)
    (gf_token_boundaries f) (gf_sampled_tokens f) (gf_visible f)
    (gf_stripping f) (gf_finish_reason f) (gf_stop_alignment f).

Definition finished (reason : FinishReason) (f : GenerationFrontier) : GenerationFrontier :=
  mkFrontier (gf_stops f) (gf_pending f) (gf_pending_offset f)
    (gf_token_boundaries f) (gf_sampled_tokens f) (gf_visible f)
    (gf_stripping f) (Some reason) (gf_stop_alignment f).

Definition stopped (alignment : StopAlignment) (absolute_end : nat) (f : GenerationFrontier)
  : GenerationFrontier :=
  mkFrontier (gf_stops f) [] absolute_end (gf_token_boundaries f) (gf_sampled_tokens f)
    (gf_visible f) (gf_stripping f) (gf_finish_reason f) (Some alignment).

Definition retain_boundaries (f : GenerationFrontier) : GenerationFrontier :=
  mkFrontier (gf_stops f) (gf_pending f) (gf_pending_offset f)
    (filter (λ b, gf_pending_offset f ≤ b) (gf_token_boundaries f)) (gf_sampled_tokens f)
    (gf_visible f) (gf_stripping f) (gf_finish_reason f) (gf_stop_alignment f).

Definition stop_stripping (f : GenerationFrontier) : GenerationFrontier :=
  mkFrontier (gf_stops f) (gf_pending f) (gf_pending_offset f)
    (gf_token_boundaries f) (gf_sampled_tokens f) (gf_visible f)
    false (gf_finish_reason f) (gf_stop_alignment f).

Definition push_visible (delta : text) (f : GenerationFrontier) : GenerationFrontier :=
  mkFrontier (gf_stops f) (gf_pending f) (gf_pending_offset f)
    (gf_token_boundaries f) (gf_sampled_tokens f) (gf_visible f ++ delta)
    (gf_stripping f) (gf_finish_reason f) (gf_stop_alignment f).

Definition drain (consumed : nat) (f : GenerationFrontier) : GenerationFrontier :=
  mkFrontier (gf_stops f) (drop consumed (gf_pending f)) (gf_pending_offset f + consumed)
    (gf_token_boundaries f) (gf_sampled_tokens f) (gf_visible f)
    (gf_stripping f) (gf_finish_reason f) (gf_stop_alignment f).

(** ** Construction *)

Definition with_limit (stops : list text) (raw_continuation : bool) (limit : nat)
  : result string GenerationFrontier :=
  if limit <? length stops then Err "too many stop sequences"%string
  else if existsb (λ stop, (length (encode stop) =? 0) || (MAX_STOP_BYTES <? length (encode stop))) stops
  then Err "stop sequences must contain 1 to 256 UTF-8 bytes"%string
  else Ok (mkFrontier (encode <$> stops) [] 0 [0] 0 [] (negb raw_continuation) None None).

Definition new (stops : list text) (raw_continuation : bool) : result string GenerationFrontier :=
  with_limit stops raw_continuation MAX_STOP_SEQUENCES.

Definition new_effective (stops : list text) (raw_continuation : bool)
  : result string GenerationFrontier :=
  with_limit stops raw_continuation MAX_EFFECTIVE_STOP_SEQUENCES.

(** ** Searching for stops *)

(** [bs.windows(stop.len()).position(|window| window == stop)], for a stop that is
    not empty. *)
Fixpoint position (stop bs : bytes) : option nat :=
  match bs with
  | [] => None
  | _ :: rest =>
      if bool_decide (stop `prefix_of` bs) then Some 0 else S <$> position stop rest
  end.

(** The candidates [(start, order, end)]. *)
Definition stop_candidates (stops : list bytes) (bs : bytes) : list (nat * nat * nat) :=
  omap (λ '(order, stop), (λ start, (start, order, start + length stop)) <$> position stop bs)
    (imap pair stops).

Definition earlier (a b : nat * nat * nat) : bool :=
  (a.1.1 <? b.1.1) || ((a.1.1 =? b.1.1) && (a.1.2 <? b.1.2)).

Definition first_stop (stops : list bytes) (bs : bytes) : option (nat * nat) :=
  (λ c, (c.1.1, c.2)) <$> min_by earlier (stop_candidates stops bs).

Definition stop_match (f : GenerationFrontier) : option (nat * nat) :=
  first_stop (gf_stops f) (gf_pending f).

(** The longest proper prefix of the stop that ends the bytes. *)
Definition stop_suffix (stop bs : bytes) : nat :=
  let maximum := Nat.min (length stop - 1) (length bs) in
  default 0 (List.find (λ len, bool_decide (take len stop `suffix_of` bs)) (rev (seq 1 maximum))).

Definition longest_possible_stop_suffix (f : GenerationFrontier) : nat :=
  foldr Nat.max 0 ((λ stop, stop_suffix stop (gf_pending f)) <$> gf_stops f).

Definition classify (boundaries : list nat) (start stop_end : nat) : StopAlignment :=
  if bool_decide (start ∈ boundaries) && bool_decide (stop_end ∈ boundaries) then TokenAligned
  else if existsb (λ b, (start <? b) && (b <? stop_end)) boundaries then CrossToken
  else IntraToken.

Definition classify_stop (f : GenerationFrontier) (start stop_end : nat) : StopAlignment :=
  classify (gf_token_boundaries f) start stop_end.

Definition utf8_complete_prefix (bs : bytes) : nat :=
  match from_utf8 bs with
  | Utf8Ok => length bs
  | Utf8Error valid_up_to None => valid_up_to
  | Utf8Error _ (Some _) => length bs
  end.

(** ** Emitting, pushing and finishing *)

Section frontier.
Context {K : Type}.
Variable emit : text → K → result ServerError.Error unit * K.

Abbreviation F := (M (GenerationFrontier * K) ServerError.Error).

Definition frontier : F GenerationFrontier := gets fst.

Definition update (h : GenerationFrontier → GenerationFrontier) : F unit :=
  modify (λ s, (h s.1, s.2)).

Definition call_emit (delta : text) : F unit := λ s,
  match emit delta s.2 with
  | (Ok _, k) => Done tt (s.1, k)
  | (Err e, k) => Fail e (s.1, k)
  end.

Definition emit_prefix (requested : nat) (final_flush : bool) : F unit :=
  f ← frontier;
  if length (gf_pending f) <? requested then panic
  else
    let consumed :=
      if final_flush then requested else utf8_complete_prefix (take requested (gf_pending f)) in
    if consumed =? 0 then mret tt
    else
      let rendered := from_utf8_lossy (take consumed (gf_pending f)) in
      let delta := if gf_stripping f then trim_start rendered else rendered in
      match delta with
      | [] => update (drain consumed)
      | _ =>
          _ ← update stop_stripping;
          _ ← call_emit delta;
          _ ← update (push_visible delta);
          update (drain consumed)
      end.

Definition push (piece : bytes) (terminal_or_control : bool) : F FrontierControl :=
  f ← frontier;
  match gf_finish_reason f with
  | Some _ => mret Stop
  | None =>
      let token_start := default (gf_pending_offset f) (list.last (gf_token_boundaries f)) in
      _ ← update (sampled (token_start + length piece));
      if terminal_or_control then
        _ ← emit_prefix (length (gf_pending f)) true;
        _ ← update (finished FinishStop);
        mret Stop
      else
        _ ← update (extend_pending piece);
        f ← frontier;
        match stop_match f with
        | Some (start, stop_end) =>
            let absolute_start := gf_pending_offset f + start in
            let absolute_end := gf_pending_offset f + stop_end in
            _ ← emit_prefix start true;
            f ← frontier;
            _ ← update (stopped (classify_stop f absolute_start absolute_end) absolute_end);
            _ ← update (finished FinishStop);
            mret Stop
        | None =>
            let retained := longest_possible_stop_suffix f in
            _ ← emit_prefix (length (gf_pending f) - retained) false;
            _ ← update retain_boundaries;
            mret Continue
        end
  end.

Definition finish : F FrontierResult :=
  f ← frontier;
  _ ← match gf_finish_reason f with
      | Some _ => mret tt
      | None =>
          _ ← emit_prefix (length (gf_pending f)) true;
          update (finished FinishLength)
      end;
  f ← frontier;
  match gf_finish_reason f with
  | Some reason =>
      mret (mkFrontierResult (gf_visible f) (gf_sampled_tokens f) reason (gf_stop_alignment f))
  | None => panic
  end.

(** A whole generation: the pieces until one stops it, then the end. *)
Fixpoint push_all (pieces : list (bytes * bool)) : F unit :=
  match pieces with
  | [] => mret tt
  | (piece, terminal_or_control) :: pieces' =>
      control ← push piece terminal_or_control;
      match control with
      | Stop => mret tt
      | Continue => push_all pieces'
      end
  end.

Definition run (pieces : list (bytes * bool)) : F FrontierResult :=
  _ ← push_all pieces;
  finish.
End frontier.

(** The callback that records what it is given. *)
Definition collect (delta : text) (deltas : list text) : result ServerError.Error unit * list text :=
  (Ok tt, deltas ++ [delta]).

Definition chars (s : string) : text := (λ b, Ascii.N_of_ascii b) <$> String.list_ascii_of_string s.

Example stops_across_tokens :
  match new [chars "END"] false with
  | Ok f =>
      match run collect [(chars "  hel", false); (chars "loE", false); (chars "ND!", false)] (f, []) with
      | Done r (_, deltas) => Some (r, deltas)
      | _ => None
      end
  | Err _ => None
  end = Some (mkFrontierResult (chars "hello") 3 FinishStop (Some CrossToken), [chars "hel"; chars "lo"]).
Proof. vm_compute. reflexivity. Qed.
