(* ===== verification/GenerationLaws.v ===== *)
(** The frontier against a scanner that searches the whole history after every
    piece: the same text, the same stop, the same classification; and what the
    frontier never lets through. *)

From stdpp Require Import base strings list numbers.
From Stdlib Require Import Lia.
From S2P Require Import Prelude Text Engine Generation.

Implicit Types (stop bs : bytes) (stops : list bytes).

(** ** Occurrences *)

Definition occurs stop bs : Prop := ∃ i, stop `prefix_of` drop i bs.

Lemma position_Some stop bs i :
  position stop bs = Some i → stop `prefix_of` drop i bs ∧ ∀ j, j < i → ¬ stop `prefix_of` drop j bs.
Proof.
  revert i. induction bs as [|b bs IH]; intros i; [done|]. cbn [position].
  case_bool_decide as Hp; [intros [= <-]; split; [done|lia]|].
  destruct (position stop bs) as [i'|]; [|done]. intros [= <-].
  destruct (IH i') as [Hi Hj]; [done|]. split; [done|]. intros [|j] Hlt; [done|]. apply Hj. lia.
Qed.

Lemma prefix_of_nil stop i bs : stop ≠ [] → length bs ≤ i → ¬ stop `prefix_of` drop i bs.
Proof. intros Hne Hi. rewrite drop_ge by done. by intros ->%prefix_nil_inv. Qed.

Lemma position_None stop bs : stop ≠ [] → position stop bs = None → ¬ occurs stop bs.
Proof.
  intros Hne. induction bs as [|b bs IH]; cbn [position].
  - intros _ [i Hi]. rewrite drop_nil in Hi. by apply prefix_nil_inv in Hi.
  - case_bool_decide as Hp; [done|]. destruct (position stop bs); [done|]. intros _ [[|i] Hi]; [done|].
    apply IH; [done|]. by exists i.
Qed.

Lemma position_is stop bs i :
  i < length bs → stop `prefix_of` drop i bs → (∀ j, j < i → ¬ stop `prefix_of` drop j bs) →
  position stop bs = Some i.
Proof.
  revert i. induction bs as [|b bs IH]; intros i Hlt Hp Hj; [cbn in Hlt; lia|]. cbn [position].
  destruct i as [|i].
  - by rewrite bool_decide_true.
  - rewrite bool_decide_false by (apply (Hj 0); lia). rewrite (IH i); [done|cbn in Hlt; lia|done|].
    intros j ?. apply (Hj (S j)). lia.
Qed.

Lemma position_lt stop bs i : stop ≠ [] → position stop bs = Some i → i < length bs.
Proof.
  intros Hne [Hp _]%position_Some. destruct (decide (i < length bs)); [done|].
  exfalso. eapply prefix_of_nil; [done| |done]. lia.
Qed.

(** Searching may start where nothing occurs before. *)
Lemma position_window stop bs k :
  stop ≠ [] → k ≤ length bs → (∀ j, j < k → ¬ stop `prefix_of` drop j bs) →
  position stop bs = Nat.add k <$> position stop (drop k bs).
Proof.
  intros Hne Hk Hj. destruct (position stop (drop k bs)) as [i|] eqn:Hi; cbn.
  - pose proof (position_lt _ _ _ Hne Hi) as Hlt. rewrite length_drop in Hlt.
    apply position_Some in Hi as [Hp Hbefore]. rewrite drop_drop in Hp. apply position_is; [lia|done|].
    intros j Hlt'. destruct (decide (j < k)); [by apply Hj|].
    replace j with (k + (j - k)) by lia. rewrite <- drop_drop. apply Hbefore. lia.
  - destruct (position stop bs) as [i|] eqn:Hi'; [|done]. exfalso.
    apply position_Some in Hi' as [Hp _]. apply (position_None _ _ Hne Hi).
    destruct (decide (i < k)) as [Hlt|]; [by destruct (Hj i Hlt)|].
    exists (i - k). rewrite drop_drop. by replace (k + (i - k)) with i by lia.
Qed.

(** ** The first stop *)

Lemma min_by_map {A B} (h : A → B) (lt : A → A → bool) (lt' : B → B → bool) (l : list A) :
  (∀ a b, lt' (h a) (h b) = lt a b) → min_by lt' (h <$> l) = h <$> min_by lt l.
Proof.
  intros Hlt. induction l as [|x l IH]; [done|]. cbn. rewrite IH.
  destruct (min_by lt l) as [y|]; [|done]. cbn. rewrite Hlt. by destruct (lt y x).
Qed.

Lemma omap_map {A B} (h : B → B) (g g' : A → option B) (l : list A) :
  (∀ x, x ∈ l → g' x = h <$> g x) → omap g' l = h <$> omap g l.
Proof.
  induction l as [|x l IH]; intros Hg; [done|]. cbn. rewrite (Hg x) by left.
  rewrite IH by (intros; apply Hg; by right). by destruct (g x).
Qed.

Lemma candidate_elem stops bs start order stop_end :
  (start, order, stop_end) ∈ stop_candidates stops bs ↔
  ∃ stop, stops !! order = Some stop ∧ position stop bs = Some start ∧ stop_end = start + length stop.
Proof.
  unfold stop_candidates. rewrite list_elem_of_omap. split.
  - intros ([o stop] & Hin & Hc). apply elem_of_lookup_imap in Hin as (o' & s' & [= -> ->] & Hs).
    destruct (position s' bs) as [i|] eqn:Hi; [|done]. injection Hc as <- <- <-. by exists s'.
  - intros (stop & Hs & Hp & ->). exists (order, stop). rewrite elem_of_lookup_imap, Hp.
    split; [by exists order, stop|done].
Qed.

Lemma earlier_trans a b c : earlier a b = true → earlier b c = true → earlier a c = true.
Proof.
  unfold earlier. rewrite !orb_true_iff, !andb_true_iff, !Nat.ltb_lt, !Nat.eqb_eq. lia.
Qed.

Lemma earlier_irrefl a : earlier a a = false.
Proof. unfold earlier. by rewrite !Nat.ltb_irrefl, andb_false_r. Qed.

Lemma earlier_total a b c : earlier b a = false → earlier c b = false → earlier c a = false.
Proof.
  unfold earlier. rewrite !orb_false_iff, !andb_false_iff, !Nat.ltb_ge, !Nat.eqb_neq. lia.
Qed.

Lemma first_stop_Some stops bs start stop_end :
  first_stop stops bs = Some (start, stop_end) →
  (∃ stop, stop ∈ stops ∧ position stop bs = Some start ∧ stop_end = start + length stop)
  ∧ ∀ stop i, stop ∈ stops → stop ≠ [] → i < start → ¬ stop `prefix_of` drop i bs.
Proof.
  unfold first_stop. intros ([[s o] e] & Hc & [= -> ->])%fmap_Some.
  pose proof (min_by_elem _ _ _ Hc) as (stop & Hs & Hp & ->)%candidate_elem. split.
  { exists stop. split; [by eapply list_elem_of_lookup_2|done]. }
  intros stop' i Hstop' Hne Hi Hpre. destruct (position stop' bs) as [j|] eqn:Hj.
  2:{ apply (position_None _ _ Hne Hj). by exists i. }
  apply list_elem_of_lookup_1 in Hstop' as [o' Ho'].
  assert ((j, o', j + length stop') ∈ stop_candidates stops bs) as Hcand by (apply candidate_elem; eauto).
  pose proof (min_by_least earlier _ _ earlier_trans earlier_irrefl earlier_total Hc _ Hcand) as Hleast.
  unfold earlier in Hleast. apply orb_false_iff in Hleast as [Hge%Nat.ltb_ge _]. cbn in Hge.
  apply position_Some in Hj as [_ Hbefore]. apply (Hbefore i); [lia|done].
Qed.

Lemma first_stop_None stops bs stop :
  first_stop stops bs = None → stop ∈ stops → stop ≠ [] → ¬ occurs stop bs.
Proof.
  unfold first_stop. intros Hc%fmap_None%min_by_None [o Ho]%list_elem_of_lookup_1 Hne.
  apply position_None; [done|]. destruct (position stop bs) as [i|] eqn:Hi; [|done].
  assert ((i, o, i + length stop) ∈ stop_candidates stops bs) as Hin by (apply candidate_elem; eauto).
  rewrite Hc in Hin. by apply not_elem_of_nil in Hin.
Qed.

Lemma first_stop_none stops bs : (∀ stop, stop ∈ stops → ¬ occurs stop bs) → first_stop stops bs = None.
Proof.
  intros Hno. unfold first_stop. destruct (min_by _ _) as [[[s o] e]|] eqn:Hc; [|done].
  pose proof (min_by_elem _ _ _ Hc) as (stop & Hs & [Hp _]%position_Some & _)%candidate_elem.
  exfalso. apply (Hno stop); [by eapply list_elem_of_lookup_2|by exists s].
Qed.

(** The search in the pending bytes is the search in the whole history. *)
Lemma first_stop_window stops bs k :
  k ≤ length bs → (∀ stop, stop ∈ stops → stop ≠ []) →
  (∀ stop j, stop ∈ stops → j < k → ¬ stop `prefix_of` drop j bs) →
  first_stop stops bs = (λ p, (k + p.1, k + p.2)) <$> first_stop stops (drop k bs).
Proof.
  intros Hk Hne Hj. unfold first_stop.
  assert (stop_candidates stops bs
    = (λ c, (k + c.1.1, c.1.2, k + c.2)) <$> stop_candidates stops (drop k bs)) as ->.
  { unfold stop_candidates. apply omap_map. intros [o stop] Hin.
    apply elem_of_lookup_imap in Hin as (o' & s' & [= -> ->] & Hs%list_elem_of_lookup_2).
    rewrite (position_window s' bs k) by eauto. destruct (position s' (drop k bs)); [|done].
    cbn. by rewrite Nat.add_assoc. }
  rewrite (min_by_map _ earlier).
  - by destruct (min_by earlier _).
  - intros [[a b] c] [[a' b'] c']. unfold earlier. cbn [fst snd]. f_equal; [|f_equal].
    + apply eq_iff_eq_true. rewrite !Nat.ltb_lt. lia.
    + apply eq_iff_eq_true. rewrite !Nat.eqb_eq. lia.
Qed.

(** ** Held-back suffixes *)

Lemma find_rev_seq (p : nat → bool) m :
  match List.find p (rev (seq 1 m)) with
  | Some x => 1 ≤ x ≤ m ∧ ∀ y, 1 ≤ y ≤ m → p y = true → y ≤ x
  | None => ∀ y, 1 ≤ y ≤ m → p y = false
  end.
Proof.
  induction m as [|m IH]; [cbn; lia|]. rewrite seq_S, rev_app_distr. cbn [rev app List.find Nat.add].
  destruct (p (S m)) eqn:Hp; [split; [lia|intros; lia]|].
  destruct (List.find p (rev (seq 1 m))) as [x|].
  - destruct IH as [Hx Hy]. split; [lia|]. intros y Hy' Hpy. destruct (decide (y = S m)); [congruence|].
    apply Hy; [lia|done].
  - intros y Hy. destruct (decide (y = S m)); [congruence|]. apply IH. lia.
Qed.

Lemma stop_suffix_max stop bs len :
  len < length stop → take len stop `suffix_of` bs → len ≤ stop_suffix stop bs.
Proof.
  intros Hlen Hs. unfold stop_suffix.
  assert (len ≤ length bs) as Hbs.
  { apply suffix_length in Hs. rewrite length_take in Hs. lia. }
  destruct (decide (len = 0)) as [->|Hpos]; [lia|].
  pose proof (find_rev_seq (λ len, bool_decide (take len stop `suffix_of` bs))
    (Nat.min (length stop - 1) (length bs))) as Hf. cbn beta in *.
  destruct (List.find _ _) as [x|]; cbn.
  - apply Hf; [lia|by apply bool_decide_true].
  - specialize (Hf len ltac:(lia)). by rewrite bool_decide_true in Hf.
Qed.

Lemma stop_suffix_length stop bs : stop_suffix stop bs ≤ length bs.
Proof.
  unfold stop_suffix. pose proof (find_rev_seq (λ len, bool_decide (take len stop `suffix_of` bs))
    (Nat.min (length stop - 1) (length bs))) as Hf. cbn beta in *.
  destruct (List.find _ _) as [x|]; cbn; lia.
Qed.

Lemma foldr_max_le (l : list nat) x : x ∈ l → x ≤ foldr Nat.max 0 l.
Proof. induction 1; cbn; lia. Qed.

Lemma longest_suffix_max f stop len :
  stop ∈ gf_stops f → len < length stop → take len stop `suffix_of` gf_pending f →
  len ≤ longest_possible_stop_suffix f.
Proof.
  intros Hin Hlen Hs. etrans; [by apply stop_suffix_max|]. apply foldr_max_le.
  apply list_elem_of_fmap. by exists stop.
Qed.

Lemma longest_suffix_length f : longest_possible_stop_suffix f ≤ length (gf_pending f).
Proof.
  unfold longest_possible_stop_suffix. induction (gf_stops f) as [|stop stops IH]; cbn; [lia|].
  pose proof (stop_suffix_length stop (gf_pending f)). lia.
Qed.

(** ** Text of the emitted chunks *)

Definition strip (raw : bool) (s : text) : text := if raw then s else trim_start s.

Definition rendered (chunks : list bytes) : text := concat (from_utf8_lossy <$> chunks).

Definition is_nil {A} (l : list A) : bool := match l with [] => true | _ => false end.

Lemma trim_start_app s s' :
  trim_start (s ++ s') = if is_nil (trim_start s) then trim_start s' else trim_start s ++ s'.
Proof. induction s as [|c s IH]; [done|]. cbn. by destruct (is_whitespace c). Qed.

Lemma rendered_app chunks c : rendered (chunks ++ [c]) = rendered chunks ++ from_utf8_lossy c.
Proof. unfold rendered. rewrite fmap_app, concat_app. cbn. by rewrite app_nil_r. Qed.

(** What the frontier has let through: the chunks it drained from the history. *)
Record text_inv (raw : bool) (chunks : list bytes) (f : GenerationFrontier) (deltas : list text)
  : Prop := {
  ti_offset : gf_pending_offset f = length (concat chunks);
  ti_visible : gf_visible f = strip raw (rendered chunks);
  ti_stripping : gf_stripping f = negb raw && is_nil (trim_start (rendered chunks));
  ti_deltas : concat deltas = gf_visible f;
  ti_nonempty : Forall (λ d, d ≠ []) deltas;
}.

(** The fields emission leaves alone. *)
Record same_rest (f f' : GenerationFrontier) : Prop := {
  sr_stops : gf_stops f' = gf_stops f;
  sr_boundaries : gf_token_boundaries f' = gf_token_boundaries f;
  sr_sampled : gf_sampled_tokens f' = gf_sampled_tokens f;
  sr_finish : gf_finish_reason f' = gf_finish_reason f;
  sr_alignment : gf_stop_alignment f' = gf_stop_alignment f;
}.

Definition consumed_of (f : GenerationFrontier) (requested : nat) (final_flush : bool) : nat :=
  if final_flush then requested else utf8_complete_prefix (take requested (gf_pending f)).

Lemma validate_bound skip n bs v e : validate skip n bs = Utf8Error v e → n ≤ v ≤ n + length bs.
Proof.
  revert skip n. induction bs as [|b bs IH]; intros skip n; [done|]. cbn.
  destruct skip as [|skip]; [destruct (scan_char b bs)|].
  - intros H%IH. lia.
  - intros [= <- _]. lia.
  - intros [= <- _]. lia.
  - intros H%IH. lia.
Qed.

Lemma complete_prefix_le bs : utf8_complete_prefix bs ≤ length bs.
Proof.
  unfold utf8_complete_prefix, from_utf8. destruct (validate 0 0 bs) as [|v [e|]] eqn:Hv; [done..|].
  apply validate_bound in Hv. lia.
Qed.

Lemma consumed_le f requested final_flush :
  requested ≤ length (gf_pending f) → consumed_of f requested final_flush ≤ requested.
Proof.
  intros Hr. unfold consumed_of. destruct final_flush; [done|].
  etrans; [apply complete_prefix_le|]. rewrite length_take. lia.
Qed.

Lemma emit_prefix_spec raw chunks requested final_flush f deltas :
  text_inv raw chunks f deltas → requested ≤ length (gf_pending f) →
  ∃ f' deltas', emit_prefix collect requested final_flush (f, deltas) = Done tt (f', deltas')
    ∧ text_inv raw (chunks ++ [take (consumed_of f requested final_flush) (gf_pending f)]) f' deltas'
    ∧ same_rest f f'
    ∧ gf_pending f' = drop (consumed_of f requested final_flush) (gf_pending f).
Proof.
  intros [Ho Hv Hs Hd Hn] Hr. unfold emit_prefix, frontier, gets, mbind, M_bind. cbn [fst].
  rewrite (proj2 (Nat.ltb_ge _ _)) by done. fold (consumed_of f requested final_flush).
  pose proof (consumed_le f requested final_flush Hr) as Hle. set (n := consumed_of f requested final_flush) in *.
  assert (length (take n (gf_pending f)) = n) as Hlen by (rewrite length_take; lia).
  destruct (Nat.eqb_spec n 0) as [->|Hpos].
  { exists f, deltas. split; [done|]. rewrite take_0, drop_0. split; [|by split].
    split; rewrite ?rendered_app, ?concat_app, ?app_nil_r; done. }
  set (r := from_utf8_lossy (take n (gf_pending f))).
  assert (strip raw (rendered chunks ++ r)
    = gf_visible f ++ (if gf_stripping f then trim_start r else r)) as Hvis.
  { rewrite Hv, Hs. destruct raw; [done|]. cbn. rewrite trim_start_app.
    destruct (trim_start (rendered chunks)); done. }
  assert (is_nil (if gf_stripping f then trim_start r else r) = false ∨
    negb raw && is_nil (trim_start (rendered chunks ++ r)) = gf_stripping f) as Hstrip.
  { destruct (gf_stripping f) eqn:Hf; symmetry in Hs.
    - apply andb_true_iff in Hs as [-> Hs]. rewrite trim_start_app, Hs.
      destruct (trim_start r); [by right|by left].
    - right. destruct raw; [done|]. cbn in *. rewrite trim_start_app, Hs.
      by destruct (trim_start (rendered chunks)). }
  destruct (if gf_stripping f then trim_start r else r) as [|x delta] eqn:Hdelta.
  - eexists _, _. split; [done|]. split; [|by split]. rewrite app_nil_r in Hvis.
    destruct Hstrip as [|Hstrip]; [done|].
    split; cbn; rewrite ?rendered_app; fold r; rewrite ?Hvis, ?Hstrip; try done.
    rewrite concat_app, length_app. cbn. rewrite app_nil_r, Hlen. by rewrite Ho.
  - eexists _, _. split; [done|]. split; [|by split]. split; cbn.
    + rewrite concat_app, length_app. cbn. rewrite app_nil_r, Hlen. by rewrite Ho.
    + rewrite rendered_app. fold r. by rewrite Hvis.
    + rewrite rendered_app. fold r. destruct raw; [done|]. cbn in *.
      rewrite Hvis. by destruct (gf_visible f).
    + rewrite concat_app. cbn. by rewrite app_nil_r, Hd.
    + apply Forall_app. split; [done|]. by repeat constructor.
Qed.

(** ** The reference scanner *)

Record Reference : Type := mkReference {
  ref_bytes : bytes;
  ref_tokens : nat;
  ref_reason : FinishReason;
  ref_alignment : option StopAlignment;
}.

(** Searches the whole history after every piece, with all token boundaries. *)
Fixpoint reference stops (history : bytes) (boundaries : list nat) (tokens : nat)
    (pieces : list (bytes * bool)) : Reference :=
  match pieces with
  | [] => mkReference history tokens FinishLength None
  | (piece, terminal_or_control) :: pieces' =>
      let history' := history ++ piece in
      let boundaries' := boundaries ++ [length history'] in
      if terminal_or_control then mkReference history (S tokens) FinishStop None
      else match first_stop stops history' with
        | Some (start, stop_end) =>
            mkReference (take start history') (S tokens) FinishStop
              (Some (classify boundaries' start stop_end))
        | None => reference stops history' boundaries' (S tokens) pieces'
        end
  end.

Definition scan stops pieces : Reference := reference stops [] [0] 0 pieces.

(** ** The invariant of the frontier *)

Section invariant.
Variable raw : bool.
Variable stops : list bytes.
Hypothesis stops_nonempty : ∀ stop, stop ∈ stops → stop ≠ [].

(** A chunk that was emitted early is the complete part of a slice of the history. *)
Definition early (history : bytes) (chunks : list bytes) : Prop :=
  ∀ before c after, chunks = before ++ c :: after →
    ∃ x, (concat before ++ x) `prefix_of` history ∧ c = take (utf8_complete_prefix x) x.

Record frontier_inv (history : bytes) (boundaries : list nat) (tokens : nat)
    (chunks : list bytes) (f : GenerationFrontier) (deltas : list text) : Prop := {
  fi_text : text_inv raw chunks f deltas;
  fi_stops : gf_stops f = stops;
  fi_history : history = concat chunks ++ gf_pending f;
  fi_boundaries : gf_token_boundaries f = filter (λ b, gf_pending_offset f ≤ b) boundaries;
  fi_last : list.last boundaries = Some (length history);
  fi_tokens : gf_sampled_tokens f = tokens;
  fi_running : gf_finish_reason f = None ∧ gf_stop_alignment f = None;
  fi_quiet : ∀ stop, stop ∈ stops → ¬ occurs stop history;
  fi_held : ∀ stop len, stop ∈ stops → len < length stop →
    take len stop `suffix_of` history → len ≤ length (gf_pending f);
  fi_early : early history chunks;
}.

Lemma classify_filter boundaries k start stop_end :
  k ≤ start → start ≤ stop_end →
  classify (filter (λ b, k ≤ b) boundaries) start stop_end = classify boundaries start stop_end.
Proof.
  intros Hk Hle. unfold classify.
  assert (∀ b, k ≤ b → bool_decide (b ∈ filter (λ b, k ≤ b) boundaries) = bool_decide (b ∈ boundaries)) as Hin.
  { intros b Hb. apply bool_decide_ext. rewrite list_elem_of_filter. tauto. }
  rewrite !Hin by lia.
  assert (existsb (λ b, (start <? b) && (b <? stop_end)) (filter (λ b, k ≤ b) boundaries)
    = existsb (λ b, (start <? b) && (b <? stop_end)) boundaries) as ->; [|done].
  apply eq_iff_eq_true. rewrite !existsb_exists.
  setoid_rewrite andb_true_iff. setoid_rewrite Nat.ltb_lt. setoid_rewrite <- list_elem_of_In.
  setoid_rewrite list_elem_of_filter. split; intros (b & Hb); exists b; [tauto|]. split; [|tauto].
  split; [lia|tauto].
Qed.

(** No occurrence in the longer history starts before the pending bytes. *)
Lemma occurrence_pending history boundaries tokens chunks f deltas piece stop j :
  frontier_inv history boundaries tokens chunks f deltas →
  stop ∈ stops → j < gf_pending_offset f → ¬ stop `prefix_of` drop j (history ++ piece).
Proof.
  intros Hinv Hstop Hj Hpre. destruct (Hinv) as [[Ho _ _ _ _] _ Hh _ _ _ _ Hquiet Hheld _].
  assert (length history = gf_pending_offset f + length (gf_pending f)) as Hlen.
  { by rewrite Hh, length_app, Ho. }
  rewrite drop_app_le in Hpre by lia. destruct (decide (length stop ≤ length (drop j history))) as [Hin|Hin].
  - apply (Hquiet stop Hstop). exists j. destruct Hpre as [r Hr].
    exists (drop (length stop) (drop j history)).
    rewrite <- (take_drop (length stop) (drop j history)) at 1. f_equal.
    apply (f_equal (take (length stop))) in Hr. rewrite take_app_le in Hr by done.
    by rewrite take_app_length in Hr.
  - assert (take (length (drop j history)) stop = drop j history) as Htake.
    { destruct Hpre as [r Hr]. apply (f_equal (take (length (drop j history)))) in Hr.
      rewrite take_app_length in Hr. rewrite take_app_le in Hr by lia. done. }
    assert (length (drop j history) ≤ length (gf_pending f)) as Hle.
    { apply (Hheld stop); [done|lia|]. rewrite Htake. apply suffix_drop. }
    rewrite length_drop in Hle. lia.
Qed.

Lemma history_length history boundaries tokens chunks f deltas :
  frontier_inv history boundaries tokens chunks f deltas →
  length history = gf_pending_offset f + length (gf_pending f).
Proof. intros [[Ho _ _ _ _] _ Hh _ _ _ _ _ _ _]. by rewrite Hh, length_app, Ho. Qed.

Lemma history_drop history boundaries tokens chunks f deltas piece :
  frontier_inv history boundaries tokens chunks f deltas →
  drop (gf_pending_offset f) (history ++ piece) = gf_pending f ++ piece.
Proof.
  intros [[Ho _ _ _ _] _ Hh _ _ _ _ _ _ _]. rewrite Hh, Ho, <- app_assoc. apply drop_app_length.
Qed.

(** The frontier's search agrees with the search of the whole history. *)
Lemma stop_match_reference history boundaries tokens chunks f deltas piece :
  frontier_inv history boundaries tokens chunks f deltas →
  first_stop stops (history ++ piece)
  = (λ p, (gf_pending_offset f + p.1, gf_pending_offset f + p.2)) <$>
      first_stop stops (gf_pending f ++ piece).
Proof.
  intros Hinv. rewrite <- (history_drop _ _ _ _ _ _ piece Hinv). apply first_stop_window; [|done|].
  - rewrite length_app, (history_length _ _ _ _ _ _ Hinv). lia.
  - intros stop j Hstop Hj. by eapply occurrence_pending.
Qed.

(** The boundary recorded for a token is where the history ends after it. *)
Lemma token_end history boundaries tokens chunks f deltas (piece : bytes) :
  frontier_inv history boundaries tokens chunks f deltas →
  default (gf_pending_offset f) (list.last (gf_token_boundaries f)) + length piece
  = length (history ++ piece).
Proof.
  intros Hinv. pose proof (history_length _ _ _ _ _ _ Hinv) as Hlen.
  destruct Hinv as [_ _ _ Hb Hl _ _ _ _ _]. rewrite length_app. f_equal. rewrite Hb.
  apply last_Some in Hl as [l ->]. rewrite list.filter_app, list.filter_cons, decide_True by lia.
  cbn. by rewrite last_snoc.
Qed.

(** The state after a token was counted and its bytes were appended. *)
Definition extended (piece : bytes) (history : bytes) (f : GenerationFrontier) : GenerationFrontier :=
  extend_pending piece (sampled (length (history ++ piece)) f).

Lemma extended_text chunks f deltas piece history :
  text_inv raw chunks f deltas → text_inv raw chunks (extended piece history f) deltas.
Proof. intros []. by split. Qed.

Lemma filter_boundaries (boundaries : list nat) k k' last :
  k ≤ k' → k ≤ last →
  filter (λ b, k' ≤ b) (filter (λ b, k ≤ b) boundaries ++ [last])
  = filter (λ b, k' ≤ b) (boundaries ++ [last]).
Proof.
  intros Hk Hl. rewrite !list.filter_app. f_equal. rewrite list_filter_filter.
  apply list_filter_iff. intros b. lia.
Qed.

(** A suffix of the longer history that begins a stop lies in the pending bytes. *)
Lemma held_extended history boundaries tokens chunks f deltas piece stop len :
  frontier_inv history boundaries tokens chunks f deltas →
  stop ∈ stops → len < length stop → take len stop `suffix_of` history ++ piece →
  take len stop `suffix_of` gf_pending f ++ piece ∧ len ≤ length (gf_pending f ++ piece).
Proof.
  intros Hinv Hstop Hlen Hsuf. pose proof (history_length _ _ _ _ _ _ Hinv) as Hl.
  rewrite <- (history_drop _ _ _ _ _ _ piece Hinv).
  assert (length (take len stop) = len) as Htl by (rewrite length_take; lia).
  pose proof (suffix_length _ _ Hsuf) as Hle. rewrite Htl, length_app in Hle.
  assert (len ≤ length (gf_pending f) + length piece) as Hbound.
  { destruct (decide (len ≤ length piece)) as [|Hgt]; [lia|].
    destruct Hsuf as [r Hr]. assert (length r = length history + length piece - len) as Hlr.
    { apply (f_equal length) in Hr. rewrite !length_app, Htl in Hr. lia. }
    assert (take (len - length piece) stop `suffix_of` history) as Hs.
    { exists r. apply (f_equal (take (length history))) in Hr. rewrite take_app_length in Hr.
      rewrite Hr, take_app_ge by lia. f_equal. rewrite take_take. f_equal. lia. }
    destruct Hinv as [_ _ _ _ _ _ _ _ Hheld _]. specialize (Hheld stop (len - length piece) Hstop ltac:(lia) Hs). lia. }
  split.
  - destruct Hsuf as [r Hr]. exists (drop (gf_pending_offset f) r). rewrite Hr.
    apply drop_app_le. apply (f_equal length) in Hr. rewrite !length_app, Htl in Hr. lia.
  - rewrite length_drop, length_app. lia.
Qed.

Lemma early_extend history piece chunks x :
  early history chunks → (concat chunks ++ x) `prefix_of` history ++ piece →
  early (history ++ piece) (chunks ++ [take (utf8_complete_prefix x) x]).
Proof.
  intros He Hx before c after Heq. symmetry in Heq. apply app_eq_app in Heq as (l & [[Hl Hl']|[Hl Hl']]).
  - destruct l as [|c' l]; cbn in Hl'.
    + rewrite app_nil_r in Hl. subst before. injection Hl' as <- _. by exists x.
    + injection Hl' as <- Hnil. by destruct l.
  - destruct l as [|c' l]; cbn in Hl'.
    + rewrite app_nil_r in Hl. subst before. injection Hl' as -> _. by exists x.
    + injection Hl' as -> ->. destruct (He before c' l Hl) as (y & Hy & ->).
      exists y. split; [|done]. by apply prefix_app_r.
Qed.

(** *** One piece that stops nothing *)

Lemma push_continue history boundaries tokens chunks f deltas piece :
  frontier_inv history boundaries tokens chunks f deltas →
  first_stop stops (history ++ piece) = None →
  ∃ chunks' f' deltas', push collect piece false (f, deltas) = Done Continue (f', deltas')
    ∧ frontier_inv (history ++ piece) (boundaries ++ [length (history ++ piece)]) (S tokens)
        chunks' f' deltas'.
Proof.
  intros Hinv Hnone. pose proof (token_end _ _ _ _ _ _ piece Hinv) as Hend.
  pose proof (stop_match_reference _ _ _ _ _ _ piece Hinv) as Hm. rewrite Hnone in Hm.
  symmetry in Hm. apply fmap_None in Hm.
  pose proof (history_length _ _ _ _ _ _ Hinv) as Hlen.
  destruct (Hinv) as [Ht Hst Hh Hb Hl Hn [Hf Ha] Hq Hheld He].
  set (g := extended piece history f).
  assert (length (gf_pending g) - longest_possible_stop_suffix g ≤ length (gf_pending g)) as Hr by lia.
  destruct (emit_prefix_spec raw chunks _ false g deltas (extended_text _ _ _ piece history Ht) Hr)
    as (f' & deltas' & Hemit & Ht' & [Hs1 Hs2 Hs3 Hs4 Hs5] & Hpend).
  set (x := take (length (gf_pending g) - longest_possible_stop_suffix g) (gf_pending g)) in *.
  assert (take (consumed_of g (length (gf_pending g) - longest_possible_stop_suffix g) false) (gf_pending g)
    = take (utf8_complete_prefix x) x) as Hc.
  { change (take (utf8_complete_prefix x) (gf_pending g) = take (utf8_complete_prefix x) x).
    generalize (complete_prefix_le x). generalize (utf8_complete_prefix x). intros m Hm'.
    unfold x in *. rewrite length_take in Hm'. rewrite take_take. f_equal. lia. }
  rewrite Hc in Ht'. set (n := consumed_of g _ false) in *.
  exists (chunks ++ [take (utf8_complete_prefix x) x]), (retain_boundaries f'), deltas'. split.
  { unfold push, frontier, gets, update, modify, mbind, M_bind. cbn [fst snd]. rewrite Hf.
    rewrite Hend. cbn [fst snd]. fold (extended piece history f). fold g.
    unfold stop_match. change (gf_stops g) with (gf_stops f).
    change (gf_pending g) with (gf_pending f ++ piece) at 1. rewrite Hst, Hm, Hemit. done. }
  assert (concat (chunks ++ [take (utf8_complete_prefix x) x]) ++ gf_pending f' = history ++ piece) as Hhist.
  { rewrite concat_app. cbn [concat]. rewrite app_nil_r, <- Hc, Hpend, <- app_assoc, take_drop.
    unfold g. cbn. by rewrite Hh, <- app_assoc. }
  pose proof (ti_offset _ _ _ _ Ht') as Ho'.
  assert (gf_pending_offset f ≤ gf_pending_offset f') as Hmono.
  { rewrite Ho', concat_app, length_app. rewrite <- (ti_offset _ _ _ _ Ht). lia. }
  split; cbn.
  - destruct Ht'. by split.
  - by rewrite Hs1.
  - done.
  - rewrite Hs2. unfold g. cbn. rewrite Hb. apply filter_boundaries; [done|]. rewrite length_app. lia.
  - apply last_snoc.
  - rewrite Hs3. unfold g. cbn. by rewrite Hn.
  - by rewrite Hs4, Hs5.
  - intros stop Hstop. by eapply first_stop_None; eauto.
  - intros stop len Hstop Hlt Hsuf.
    destruct (held_extended _ _ _ _ _ _ piece stop len Hinv Hstop Hlt Hsuf) as [Hsuf' Hle].
    rewrite Hpend, length_drop.
    assert (len ≤ longest_possible_stop_suffix g) as Hlong.
    { apply (longest_suffix_max g stop); [by unfold g; cbn; rewrite Hst|done|done]. }
    assert (n ≤ length (gf_pending g) - longest_possible_stop_suffix g) as Hn' by (by apply consumed_le).
    pose proof (longest_suffix_length g). lia.
  - apply early_extend; [done|]. rewrite Hh, <- app_assoc. apply prefix_app.
    unfold x. exists (drop (length (gf_pending g) - longest_possible_stop_suffix g) (gf_pending g)).
    rewrite take_drop. done.
Qed.

(** *** The end of a generation *)

(** What the frontier shows once the history ended as the reference says. *)
Definition ended (history : bytes) (ref : Reference) (f : GenerationFrontier) (deltas : list text)
  : Prop :=
  ∃ chunks c, early history chunks ∧ ref_bytes ref `prefix_of` history
    ∧ concat (chunks ++ [c]) = ref_bytes ref
    ∧ gf_visible f = strip raw (rendered (chunks ++ [c]))
    ∧ concat deltas = gf_visible f ∧ Forall (λ d, d ≠ []) deltas
    ∧ gf_sampled_tokens f = ref_tokens ref
    ∧ gf_stop_alignment f = ref_alignment ref.

(** Flushing everything that is pending. *)
Lemma flush_all history boundaries tokens chunks f g deltas alignment reason :
  frontier_inv history boundaries tokens chunks f deltas →
  text_inv raw chunks g deltas → gf_pending g = gf_pending f →
  gf_sampled_tokens g = alignment → gf_stop_alignment g = None →
  ∃ f' deltas', emit_prefix collect (length (gf_pending g)) true (g, deltas) = Done tt (f', deltas')
    ∧ gf_finish_reason f' = gf_finish_reason g
    ∧ ended history (mkReference history alignment reason None) f' deltas'.
Proof.
  intros Hinv Hg Hp Hs Ha. destruct Hinv as [_ _ Hh _ _ _ _ _ _ He].
  destruct (emit_prefix_spec raw chunks (length (gf_pending g)) true g deltas Hg ltac:(lia))
    as (f' & deltas' & Hemit & [_ Hv _ Hd Hne] & [Hs1 Hs2 Hs3 Hs4 Hs5] & _).
  unfold consumed_of in Hv. rewrite firstn_all in Hv.
  exists f', deltas'. split; [done|]. split; [done|].
  exists chunks, (gf_pending g). cbn. rewrite concat_app. cbn. rewrite app_nil_r, Hs3, Hs5, Hp.
  rewrite Hp in Hv. by repeat split.
Qed.

Lemma push_stop history boundaries tokens chunks f deltas piece start stop_end :
  frontier_inv history boundaries tokens chunks f deltas →
  first_stop stops (history ++ piece) = Some (start, stop_end) →
  ∃ f' deltas', push collect piece false (f, deltas) = Done Stop (f', deltas')
    ∧ gf_finish_reason f' = Some FinishStop
    ∧ ended (history ++ piece) (mkReference (take start (history ++ piece)) (S tokens) FinishStop
        (Some (classify (boundaries ++ [length (history ++ piece)]) start stop_end))) f' deltas'.
Proof.
  intros Hinv Hsome. pose proof (token_end _ _ _ _ _ _ piece Hinv) as Hend.
  pose proof (stop_match_reference _ _ _ _ _ _ piece Hinv) as Hm. rewrite Hsome in Hm.
  symmetry in Hm. apply fmap_Some in Hm as ([s e] & Hm & [= -> ->]).
  pose proof (history_length _ _ _ _ _ _ Hinv) as Hlen.
  pose proof (first_stop_Some _ _ _ _ Hm) as [(stop & Hstop & Hpos & ->) _].
  apply position_lt in Hpos as Hs; [|by eauto].
  destruct (Hinv) as [Ht Hst Hh Hb Hl Hn [Hf Ha] Hq Hheld He].
  set (g := extended piece history f).
  assert (s ≤ length (gf_pending g)) as Hr by (unfold g; cbn; lia).
  destruct (emit_prefix_spec raw chunks s true g deltas (extended_text _ _ _ piece history Ht) Hr)
    as (f' & deltas' & Hemit & [Ho' Hv _ Hd Hne] & [Hs1 Hs2 Hs3 Hs4 Hs5] & Hpend).
  unfold consumed_of in *. eexists _, deltas'. split; [|split].
  { unfold push, frontier, gets, update, modify, mbind, M_bind. cbn [fst snd]. rewrite Hf.
    rewrite Hend. cbn [fst snd]. fold (extended piece history f). fold g.
    unfold stop_match. change (gf_stops g) with (gf_stops f).
    change (gf_pending g) with (gf_pending f ++ piece) at 1. rewrite Hst, Hm, Hemit. done. }
  { done. }
  exists chunks, (take s (gf_pending g)).
  cbn [ref_bytes ref_tokens ref_reason ref_alignment gf_visible gf_sampled_tokens gf_stop_alignment
    finished stopped]. repeat split; try done.
  - intros before c after Heq. destruct (He before c after Heq) as (y & Hy & ->).
    exists y. split; [|done]. by apply prefix_app_r.
  - exists (drop (gf_pending_offset f + s) (history ++ piece)). by rewrite take_drop.
  - rewrite concat_app. cbn [concat]. rewrite app_nil_r, (ti_offset _ _ _ _ Ht).
    change (gf_pending g) with (gf_pending f ++ piece). rewrite Hh, <- app_assoc.
    by rewrite take_app_add.
  - cbn [fst]. rewrite Hs3. unfold g. cbn. by rewrite Hn.
  - cbn [fst]. f_equal. unfold classify_stop. rewrite Hs2. unfold g. cbn [extended extend_pending sampled gf_token_boundaries gf_pending_offset].
    rewrite Hb. rewrite <- (classify_filter (boundaries ++ [_]) (gf_pending_offset f)) by lia.
    f_equal. rewrite list.filter_app. f_equal. rewrite list.filter_cons, decide_True; [done|].
    rewrite length_app. lia.
Qed.

Lemma push_terminal history boundaries tokens chunks f deltas piece :
  frontier_inv history boundaries tokens chunks f deltas →
  ∃ f' deltas', push collect piece true (f, deltas) = Done Stop (f', deltas')
    ∧ gf_finish_reason f' = Some FinishStop
    ∧ ended history (mkReference history (S tokens) FinishStop None) f' deltas'.
Proof.
  intros Hinv. pose proof (token_end _ _ _ _ _ _ piece Hinv) as Hend.
  destruct (Hinv) as [Ht Hst _ _ _ Hn [Hf Ha] _ _ _].
  set (g := sampled (length (history ++ piece)) f).
  assert (text_inv raw chunks g deltas) as Hg by (destruct Ht; by split).
  destruct (flush_all _ _ _ _ _ g deltas (S tokens) FinishStop Hinv Hg) as (f' & deltas' & Hemit & _ & Hended);
    [done|unfold g; cbn; by rewrite Hn|done|].
  exists (finished FinishStop f'), deltas'. split; [|split; [done|exact Hended]].
  unfold push, frontier, gets, update, modify, mbind, M_bind. cbn [fst snd]. rewrite Hf, Hend.
  cbn [fst snd]. fold g. change (length (gf_pending f)) with (length (gf_pending g)). by rewrite Hemit.
Qed.

(** The bytes of the pieces before the first terminal token. *)
Fixpoint spoken (pieces : list (bytes * bool)) : bytes :=
  match pieces with
  | [] => []
  | (_, true) :: _ => []
  | (piece, false) :: pieces' => piece ++ spoken pieces'
  end.

(** What the whole run shows. *)
Definition run_ok (whole : bytes) (ref : Reference) (out : outcome (GenerationFrontier * list text)
    ServerError.Error FrontierResult) : Prop :=
  ∃ history f' deltas', history `prefix_of` whole ∧ ended history ref f' deltas'
    ∧ out = Done (mkFrontierResult (gf_visible f') (ref_tokens ref) (ref_reason ref) (ref_alignment ref))
        (f', deltas').

Lemma finish_stopped whole history ref f deltas :
  history `prefix_of` whole → ended history ref f deltas → gf_finish_reason f = Some (ref_reason ref) →
  run_ok whole ref (finish collect (f, deltas)).
Proof.
  intros Hw He Hf. exists history, f, deltas. split; [done|]. split; [done|].
  unfold finish, frontier, gets, mbind, M_bind. cbn [fst]. rewrite Hf. cbn. rewrite Hf.
  destruct He as (? & ? & _ & _ & _ & _ & _ & _ & -> & ->). done.
Qed.

Lemma run_cons piece terminal pieces s :
  run collect ((piece, terminal) :: pieces) s
  = match push collect piece terminal s with
    | Done Stop s' => finish collect s'
    | Done Continue s' => run collect pieces s'
    | Fail e s' => Fail e s'
    | Panic => Panic
    end.
Proof. unfold run, mbind, M_bind. cbn [push_all]. unfold mbind, M_bind. by destruct (push _ _ _ _) as [[]| |]. Qed.

Lemma run_reference history boundaries tokens chunks f deltas pieces :
  frontier_inv history boundaries tokens chunks f deltas →
  run_ok (history ++ spoken pieces) (reference stops history boundaries tokens pieces)
    (run collect pieces (f, deltas)).
Proof.
  revert history boundaries tokens chunks f deltas.
  induction pieces as [|[piece terminal] pieces IH]; intros history boundaries tokens chunks f deltas Hinv.
  - destruct (Hinv) as [Ht _ _ _ _ Hn [Hf Ha] _ _ _].
    destruct (flush_all _ _ _ _ _ f deltas tokens FinishLength Hinv Ht eq_refl Hn Ha)
      as (f' & deltas' & Hemit & _ & He).
    exists history, (finished FinishLength f'), deltas'.
    split; [by apply prefix_app_r|]. split; [exact He|].
    unfold run, finish, frontier, update, modify, gets, mbind, M_bind. cbn [push_all fst].
    cbn [mret M_ret fst]. rewrite Hf, Hemit.
    destruct He as (? & ? & _ & _ & _ & _ & _ & _ & Hs & Hal). cbn in *. by rewrite Hs, Hal.
  - rewrite run_cons. cbn [reference spoken]. destruct terminal.
    + destruct (push_terminal _ _ _ _ _ _ piece Hinv) as (f' & deltas' & -> & Hf & He).
      apply (finish_stopped _ history); [by apply prefix_app_r|done..].
    + rewrite app_assoc. destruct (first_stop stops (history ++ piece)) as [[start stop_end]|] eqn:Hs.
      * destruct (push_stop _ _ _ _ _ _ _ _ _ Hinv Hs) as (f' & deltas' & -> & Hf & He).
        apply (finish_stopped _ (history ++ piece)); [by apply prefix_app_r|done..].
      * destruct (push_continue _ _ _ _ _ _ _ Hinv Hs) as (chunks' & f' & deltas' & -> & Hinv').
        by eapply IH.
Qed.
End invariant.

(** ** A frontier made by the code *)

Lemma with_limit_stops texts raw limit f :
  with_limit texts raw limit = Ok f →
  f = mkFrontier (encode <$> texts) [] 0 [0] 0 [] (negb raw) None None
  ∧ ∀ stop, stop ∈ encode <$> texts → stop ≠ [].
Proof.
  unfold with_limit. destruct (limit <? length texts); [done|].
  destruct (existsb _ texts) eqn:He; [done|]. intros [= <-]. split; [done|].
  intros stop (t & -> & Ht)%list_elem_of_fmap Hnil.
  apply not_true_iff_false in He. apply He. apply existsb_exists. exists t.
  split; [by apply list_elem_of_In|]. by rewrite Hnil.
Qed.

Lemma initial_inv raw stops :
  (∀ stop, stop ∈ stops → stop ≠ []) →
  frontier_inv raw stops [] [0] 0 [] (mkFrontier stops [] 0 [0] 0 [] (negb raw) None None) [].
Proof.
  intros Hne. split; cbn; try done.
  - split; cbn; try done; destruct raw; done.
  - intros stop Hstop [i Hi]. rewrite drop_nil in Hi. apply prefix_nil_inv in Hi. by eapply Hne.
  - intros stop len _ Hlen Hs. apply suffix_length in Hs. rewrite length_take in Hs. cbn in Hs. lia.
  - intros before c after Hn. by destruct before.
Qed.

Lemma run_scan texts raw limit f pieces :
  with_limit texts raw limit = Ok f →
  run_ok raw (spoken pieces) (scan (encode <$> texts) pieces) (run collect pieces (f, [])).
Proof.
  intros [-> Hne]%with_limit_stops. eapply (run_reference raw _ Hne []). by apply initial_inv.
Qed.

(** ** Valid text *)

(** An early chunk of valid text is valid text. *)
Lemma complete_prefix_encode s x q :
  Forall scalar s → encode s = x ++ q →
  ∃ s1 s2, s = s1 ++ s2 ∧ take (utf8_complete_prefix x) x = encode s1.
Proof.
  intros Hs Heq. destruct (encode_prefix s x q Hs Heq) as (s1 & s2 & -> & Hcase).
  exists s1, s2. split; [done|]. apply Forall_app in Hs as [Hs1 Hs2].
  destruct Hcase as [[-> _]|(c & cut & rest & s3 & -> & -> & He & _ & Hcut & Hrest)].
  - unfold utf8_complete_prefix. rewrite from_utf8_encode by done. apply firstn_all.
  - unfold utf8_complete_prefix, from_utf8. rewrite validate_encode by done.
    inversion Hs2 as [|? ? Hc _]; subst.
    pose proof (encode_char_shape c Hc) as (b & r & Hb & _ & _ & _ & Hscan)%scan_encoded.
    rewrite He in Hb. destruct cut as [|y cut]; [done|]. injection Hb as -> <-.
    cbn [validate]. rewrite (Hscan cut rest) by done. cbn. by rewrite take_app_length.
Qed.

Lemma early_chunks s history chunks :
  Forall scalar s → history `prefix_of` encode s → early history chunks →
  concat chunks `prefix_of` history →
  ∃ s1 s2, s = s1 ++ s2 ∧ concat chunks = encode s1 ∧ rendered chunks = s1.
Proof.
  intros Hs [w Hw] He Hpre. induction chunks as [|c chunks IH] using rev_ind.
  { exists [], s. done. }
  destruct IH as (s1 & s2 & -> & Hc & Hr).
  { intros before c' after Heq. destruct (He before c' (after ++ [c])) as (y & Hy & ->).
    { by rewrite Heq, <- app_assoc. } by exists y. }
  { etrans; [|exact Hpre]. rewrite concat_app. by apply prefix_app_r. }
  destruct (He chunks c []) as (x & [w' Hx] & Hchunk); [done|].
  apply Forall_app in Hs as [Hs1 Hs2].
  assert (encode s2 = x ++ w' ++ w) as Hx2.
  { rewrite Hx, Hc, encode_app, <- !app_assoc in Hw. by apply app_inv_head in Hw. }
  destruct (complete_prefix_encode s2 x _ Hs2 Hx2) as (s3 & s4 & -> & Hc').
  rewrite <- Hchunk in Hc'. apply Forall_app in Hs2 as [Hs3 _].
  exists (s1 ++ s3), s4. split; [by rewrite app_assoc|]. split.
  - rewrite concat_app, Hc, Hc', encode_app. cbn. by rewrite app_nil_r.
  - rewrite rendered_app, Hr, Hc'. by rewrite from_utf8_lossy_encode.
Qed.

(** When the spoken bytes are valid text, so is what is shown. *)
Lemma ended_text raw history ref f deltas s s' :
  Forall scalar s → history `prefix_of` encode s → ended raw history ref f deltas →
  ref_bytes ref = encode s' → Forall scalar s' → gf_visible f = strip raw s'.
Proof.
  intros Hs Hw (chunks & c & He & Hpre & Hc & -> & _) Hb Hs'. f_equal.
  assert (concat chunks `prefix_of` history) as Hch.
  { etrans; [|exact Hpre]. rewrite <- Hc, concat_app. by apply prefix_app_r. }
  destruct (early_chunks s history chunks Hs Hw He Hch) as (s1 & s2 & -> & Hc1 & Hr).
  apply Forall_app in Hs as [Hs1 _]. rewrite rendered_app, Hr.
  rewrite concat_app in Hc. cbn in Hc. rewrite app_nil_r, Hc1, Hb in Hc.
  unfold from_utf8_lossy. rewrite <- (lossy_encode s1 c) by done. rewrite Hc.
  by apply from_utf8_lossy_encode.
Qed.

(** ** What the reference scanner shows *)

Lemma occurs_app stop a b : occurs stop b → occurs stop (a ++ b).
Proof. intros [i Hi]. exists (length a + i). by rewrite <- drop_drop, drop_app_length. Qed.

Lemma reference_quiet stops history boundaries tokens pieces stop :
  (∀ stop, stop ∈ stops → stop ≠ []) → stop ∈ stops → ¬ occurs stop history →
  ¬ occurs stop (ref_bytes (reference stops history boundaries tokens pieces)).
Proof.
  intros Hne Hstop. revert history boundaries tokens.
  induction pieces as [|[piece terminal] pieces IH]; intros history boundaries tokens Hq; [done|].
  cbn [reference]. destruct terminal; [done|].
  destruct (first_stop stops (history ++ piece)) as [[start stop_end]|] eqn:Hs.
  2:{ apply IH. by eapply first_stop_None; eauto. }
  apply first_stop_Some in Hs as [_ Hbefore]. cbn. intros [i Hi].
  destruct (decide (i < start)) as [Hlt|Hge].
  - apply (Hbefore stop i Hstop (Hne _ Hstop) Hlt). etrans; [exact Hi|].
    exists (drop (start - i) (drop i (history ++ piece))).
    rewrite skipn_firstn_comm. by rewrite take_drop.
  - eapply (prefix_of_nil stop i); [eauto| |exact Hi]. rewrite length_take. lia.
Qed.

Lemma reference_text texts history boundaries tokens pieces s :
  Forall (Forall scalar) texts → (∀ stop, stop ∈ encode <$> texts → stop ≠ []) → Forall scalar s →
  history ++ spoken pieces = encode s →
  ∃ s', s' `prefix_of` s
    ∧ ref_bytes (reference (encode <$> texts) history boundaries tokens pieces) = encode s'.
Proof.
  intros Ht Hne Hs. revert history boundaries tokens.
  induction pieces as [|[piece terminal] pieces IH]; intros history boundaries tokens Heq;
    cbn [reference spoken] in *.
  { exists s. by rewrite app_nil_r in Heq. }
  destruct terminal. { exists s. by rewrite app_nil_r in Heq. }
  rewrite app_assoc in Heq.
  destruct (first_stop _ (history ++ piece)) as [[start stop_end]|] eqn:Hf; [|by apply IH].
  apply first_stop_Some in Hf as [(stop & Hstop & [[q Hq] _]%position_Some & _) _].
  pose proof (Hne _ Hstop) as Hn. apply list_elem_of_fmap in Hstop as (t & -> & Hin).
  rewrite Forall_forall in Ht. destruct (encode_occurrence s (take start (history ++ piece)) t
    (q ++ spoken pieces) Hs (Ht t (proj1 (list_elem_of_In _ _) Hin))) as (s1 & Hpre & Hb).
  - by intros ->.
  - rewrite <- Heq, (app_assoc (encode t)), <- Hq, app_assoc. by rewrite take_drop.
  - exists s1. by rewrite <- Hb.
Qed.

Lemma trim_start_suffix s : trim_start s `suffix_of` s.
Proof.
  induction s as [|c s IH]; [done|]. cbn. destruct (is_whitespace c); [by apply suffix_cons_r|done].
Qed.

Lemma strip_suffix raw s : strip raw s `suffix_of` s.
Proof. destruct raw; [done|apply trim_start_suffix]. Qed.

Lemma quiet_strip stop raw s : ¬ occurs stop (encode s) → ¬ occurs stop (encode (strip raw s)).
Proof.
  intros Hq Ho. apply Hq. destruct (strip_suffix raw s) as [s1 Hs]. rewrite Hs, encode_app.
  by apply occurs_app.
Qed.

Lemma scan_nothing stops pieces boundaries tokens history :
  (∀ stop, stop ∈ stops → ¬ occurs stop (history ++ concat pieces)) →
  reference stops history boundaries tokens ((λ p, (p, false)) <$> pieces)
  = mkReference (history ++ concat pieces) (length pieces + tokens) FinishLength None.
Proof.
  revert boundaries tokens history. induction pieces as [|p pieces IH]; intros boundaries tokens history Hno.
  { cbn. by rewrite app_nil_r. }
  cbn [fmap list_fmap concat reference] in *. rewrite app_assoc in Hno.
  rewrite first_stop_none.
  - rewrite IH by done. rewrite <- app_assoc. f_equal. cbn. lia.
  - intros stop Hstop [i [r Hr]]. apply (Hno stop Hstop). exists i.
    destruct (decide (i ≤ length (history ++ p))).
    + rewrite drop_app_le by done. rewrite Hr, <- app_assoc. by eexists.
    + rewrite drop_ge in Hr by lia. symmetry in Hr. apply app_eq_nil in Hr as [-> _]. apply prefix_nil.
Qed.

Lemma spoken_all pieces : spoken ((λ p, (p, false)) <$> pieces) = concat pieces.
Proof. induction pieces as [|p pieces IH]; [done|]. cbn. by rewrite <- IH. Qed.

(** ** Properties *)

(** On any bytes, the frontier behaves as a scanner that searches the whole
    history for the earliest stop after every token: the bytes it shows, in the
    chunks it decoded, are the scanner's; the count, the finish reason and the
    alignment of the stop (judged against all token boundaries) are the scanner's;
    the text is what it emitted, piece by non-empty piece. *)
Theorem generation_matches_scanner texts raw limit f pieces :
  with_limit texts raw limit = Ok f →
  let ref := scan (encode <$> texts) pieces in
  ∃ chunks f' deltas, concat chunks = ref_bytes ref
    ∧ run collect pieces (f, []) = Done (mkFrontierResult (strip raw (rendered chunks))
        (ref_tokens ref) (ref_reason ref) (ref_alignment ref)) (f', deltas)
    ∧ concat deltas = strip raw (rendered chunks) ∧ Forall (λ d, d ≠ []) deltas.
Proof.
  intros Hf ref. destruct (run_scan texts raw limit f pieces Hf)
    as (history & f' & deltas & _ & (chunks & c & _ & _ & Hc & Hv & Hd & Hne & _) & Hrun).
  exists (chunks ++ [c]), f', deltas. rewrite Hv in Hrun, Hd. done.
Qed.

Lemma generation_matches_scanner_witness :
  ∃ f, with_limit [chars "END"] false 4 = Ok f ∧
  ∃ chunks f' deltas, concat chunks = ref_bytes (scan [chars "END"] [(chars " loEN", false); (chars "D", false)])
    ∧ run collect [(chars " loEN", false); (chars "D", false)] (f, [])
      = Done (mkFrontierResult (strip false (rendered chunks)) 2 FinishStop (Some CrossToken)) (f', deltas)
    ∧ concat deltas = strip false (rendered chunks) ∧ Forall (λ d, d ≠ []) deltas.
Proof.
  eexists. split; [vm_compute; reflexivity|].
  exact (generation_matches_scanner [chars "END"] false 4 _
    [(chars " loEN", false); (chars "D", false)] eq_refl).
Defined.

(** C33: A text cut into pieces anywhere, inside characters included, is shown as it
    was: when no stop occurs in it, the pieces of a valid text give back the text
    (without its leading white space, unless the continuation is raw), and every
    piece is counted. *)
Theorem generation_roundtrip texts raw limit f s pieces :
  with_limit texts raw limit = Ok f →
  Forall scalar s → concat pieces = encode s →
  (∀ t, t ∈ texts → ¬ occurs (encode t) (encode s)) →
  ∃ f' deltas, run collect ((λ p, (p, false)) <$> pieces) (f, [])
      = Done (mkFrontierResult (strip raw s) (length pieces) FinishLength None) (f', deltas)
    ∧ concat deltas = strip raw s.
Proof.
  intros Hf Hs Hp Hno.
  destruct (run_scan texts raw limit f ((λ p, (p, false)) <$> pieces) Hf)
    as (history & f' & deltas & Hw & He & Hrun).
  unfold scan in *. rewrite scan_nothing in He, Hrun.
  2,3: intros stop (t & -> & Ht)%list_elem_of_fmap; cbn; rewrite Hp; by apply Hno.
  rewrite spoken_all, Hp in Hw. cbn [app] in He, Hrun.
  exists f', deltas. pose proof (ended_text _ _ _ _ _ s s Hs Hw He Hp Hs) as Hv.
  rewrite Hv in Hrun. cbn in Hrun. rewrite Nat.add_0_r in Hrun. split; [done|].
  destruct He as (? & ? & _ & _ & _ & _ & Hd & _). by rewrite Hd.
Qed.

Lemma generation_roundtrip_witness :
  ∃ f, with_limit [chars "END"] false 4 = Ok f
  ∧ ∃ f' deltas, run collect [([32; 226; 130], false); ([172], false); (chars "E", false)]%N (f, [])
      = Done (mkFrontierResult [8364; 69]%N 3 FinishLength None) (f', deltas)
    ∧ concat deltas = [8364; 69]%N.
Proof.
  eexists. split; [vm_compute; reflexivity|].
  apply (generation_roundtrip [chars "END"] false 4 _ [32; 8364; 69]%N
    [[32; 226; 130]; [172]; [69]]%N eq_refl).
  - by repeat constructor.
  - vm_compute. reflexivity.
  - intros t ->%list_elem_of_singleton. apply position_None; [done|]. vm_compute. reflexivity.
Defined.

(** C24: No stop sequence is ever shown: when the sampled bytes are valid text, the
    result is a beginning of that text in which no stop occurs. *)
Theorem generation_hides_stops texts raw limit f s pieces :
  with_limit texts raw limit = Ok f → Forall (Forall scalar) texts →
  Forall scalar s → spoken pieces = encode s →
  ∃ s' r f' deltas, s' `prefix_of` s ∧ run collect pieces (f, []) = Done r (f', deltas)
    ∧ fr_text r = strip raw s' ∧ concat deltas = fr_text r
    ∧ ∀ t, t ∈ texts → ¬ occurs (encode t) (encode (fr_text r)).
Proof.
  intros Hf Ht Hs Hp. pose proof (with_limit_stops _ _ _ _ Hf) as [_ Hne].
  destruct (reference_text texts [] [0] 0 pieces s Ht Hne Hs Hp) as (s' & Hpre & Hb).
  destruct (run_scan texts raw limit f pieces Hf) as (history & f' & deltas & Hw & He & Hrun).
  assert (Forall scalar s') as Hs' by (destruct Hpre as [w ->]; by apply Forall_app in Hs as [? _]).
  rewrite Hp in Hw. pose proof (ended_text _ _ _ _ _ s s' Hs Hw He Hb Hs') as Hv.
  eexists s', _, f', deltas. split; [done|]. split; [exact Hrun|]. cbn. rewrite Hv. split; [done|]. split.
  { destruct He as (? & ? & _ & _ & _ & _ & Hd & _). by rewrite Hd. }
  intros t Hin. apply quiet_strip. rewrite <- Hb.
  assert (encode t ∈ encode <$> texts) as Hint by (apply list_elem_of_fmap; by exists t).
  apply reference_quiet; [done|done|]. intros [i Hi]. rewrite drop_nil in Hi.
  apply prefix_nil_inv in Hi. by eapply Hne.
Qed.

Lemma generation_hides_stops_witness :
  ∃ f, with_limit [chars "END"] false 4 = Ok f
  ∧ ∃ s' r f' deltas, s' `prefix_of` chars "loEND!"
    ∧ run collect [(chars "loE", false); (chars "ND!", false)] (f, []) = Done r (f', deltas)
    ∧ fr_text r = strip false s' ∧ concat deltas = fr_text r
    ∧ ∀ t, t ∈ [chars "END"] → ¬ occurs (encode t) (encode (fr_text r)).
Proof.
  eexists. split; [vm_compute; reflexivity|].
  apply (generation_hides_stops [chars "END"] false 4 _ (chars "loEND!")
    [(chars "loE", false); (chars "ND!", false)] eq_refl);
    [by repeat constructor|by repeat constructor|vm_compute; reflexivity].
Defined.
