(* ===== verification/Gate.v ===== *)
(** The pre-queue gate of [crates/server/src/lib.rs] ([PrequeueGate]): a semaphore
    whose number of permits can be reconfigured while permits are out. Permits
    above a lowered limit are retired as they come back.

    The semaphore is the runtime library's: a type class gives its operations on
    one permit at a time, and [SemaphoreLaws] the documented behaviour the gate
    relies on. The gate is proved to be a counter of held permits under a limit. *)

From stdpp Require Import base numbers.
From Stdlib Require Import Lia.
From S2P Require Import Prelude Engine.

(** ** The semaphore *)

Class Semaphore (S : Type) : Type := {
  sem_new : N → S;
  sem_available : S → N;
  sem_try_acquire : S → option S;
  sem_release : S → S;
  sem_add_permits : N → S → S;
  sem_forget_permits : N → S → N * S;
}.

(** [Semaphore::MAX_PERMITS]: [usize::MAX >> 3]. *)
Definition MAX_PERMITS : N := usize_max / 8.

Class SemaphoreLaws (S : Type) `{!Semaphore S} : Prop := {
  available_new n : (n ≤ MAX_PERMITS)%N → sem_available (sem_new n) = n;
  try_acquire_some s s' :
    sem_try_acquire s = Some s' → sem_available s = (sem_available s' + 1)%N;
  try_acquire_none s : sem_try_acquire s = None ↔ sem_available s = 0%N;
  available_release s :
    (sem_available s < MAX_PERMITS)%N → sem_available (sem_release s) = (sem_available s + 1)%N;
  available_add s n :
    (sem_available s + n ≤ MAX_PERMITS)%N →
    sem_available (sem_add_permits n s) = (sem_available s + n)%N;
  forget_permits s n :
    (sem_forget_permits n s).1 = N.min n (sem_available s)
    ∧ sem_available (sem_forget_permits n s).2 = (sem_available s - n)%N;
}.

(** ** The gate *)

Section gate.
Context {S : Type} `{!Semaphore S}.

Record PrequeueState : Type := mkPrequeueState {
  ps_limit : N;
  ps_retire_on_drop : N;
}.

Record PrequeueGate : Type := mkGate {
  pg_semaphore : S;
  pg_state : PrequeueState;
}.

Definition new (limit : N) : PrequeueGate := mkGate (sem_new limit) (mkPrequeueState limit 0).

Definition try_acquire (g : PrequeueGate) : result ServerError.Error unit * PrequeueGate :=
  match sem_try_acquire (pg_semaphore g) with
  | Some s => (Ok tt, mkGate s (pg_state g))
  | None => (Err ServerError.Busy, g)
  end.

(** [acquire] waits for the semaphore: [None] while it has no permit. The
    semaphore is never closed. *)
Definition acquire (g : PrequeueGate) : option PrequeueGate :=
  (λ s, mkGate s (pg_state g)) <$> sem_try_acquire (pg_semaphore g).

Definition set_limit (limit : N) (g : PrequeueGate) : PrequeueGate :=
  let state := pg_state g in
  if (limit <? ps_limit state)%N then
    let reduction := (ps_limit state - limit)%N in
    let '(retired, s) := sem_forget_permits reduction (pg_semaphore g) in
    mkGate s (mkPrequeueState limit (ps_retire_on_drop state + (reduction - retired)))
  else
    let increase := (limit - ps_limit state)%N in
    let cancelled_retirements := N.min increase (ps_retire_on_drop state) in
    mkGate (sem_add_permits (increase - cancelled_retirements) (pg_semaphore g))
      (mkPrequeueState limit (ps_retire_on_drop state - cancelled_retirements)).

(** [PrequeuePermit::drop]: the permit goes back, or is forgotten. *)
Definition drop_permit (g : PrequeueGate) : PrequeueGate :=
  let state := pg_state g in
  if (ps_retire_on_drop state =? 0)%N
  then mkGate (sem_release (pg_semaphore g)) state
  else mkGate (pg_semaphore g) (mkPrequeueState (ps_limit state) (ps_retire_on_drop state - 1)).
End gate.

Arguments PrequeueGate S : clear implicits.

(** ** Specification: permits held under a limit *)

Record Counter : Type := mkCounter {
  ct_limit : N;
  ct_held : N;
}.

Inductive GateOp : Type :=
| TryAcquire
| SetLimit (limit : N)
| DropPermit.

(** An admissible history: limits the semaphore can hold, and only held permits
    are dropped. *)
Definition counter_step (op : GateOp) (c : Counter) : option (bool * Counter) :=
  match op with
  | TryAcquire =>
      if (ct_held c <? ct_limit c)%N
      then Some (true, mkCounter (ct_limit c) (ct_held c + 1)) else Some (false, c)
  | SetLimit limit =>
      if (limit <=? MAX_PERMITS)%N then Some (true, mkCounter limit (ct_held c)) else None
  | DropPermit =>
      if (ct_held c =? 0)%N then None else Some (true, mkCounter (ct_limit c) (ct_held c - 1))
  end.

Section refinement.
Context {S : Type} `{!Semaphore S, !SemaphoreLaws S}.
Implicit Types (g : PrequeueGate S) (c : Counter).

Definition gate_step (op : GateOp) g : bool * PrequeueGate S :=
  match op with
  | TryAcquire => match try_acquire g with (Ok _, g') => (true, g') | (Err _, g') => (false, g') end
  | SetLimit limit => (true, set_limit limit g)
  | DropPermit => (true, drop_permit g)
  end.

(** Permits are either available, held or to be retired, and none is available
    while some are to be retired. *)
Record gate_refines g c : Prop := {
  gr_limit : ps_limit (pg_state g) = ct_limit c;
  gr_balance : (sem_available (pg_semaphore g) + ct_held c
    = ct_limit c + ps_retire_on_drop (pg_state g))%N;
  gr_retire : (0 < ps_retire_on_drop (pg_state g))%N → sem_available (pg_semaphore g) = 0%N;
  gr_bound : (ct_limit c ≤ MAX_PERMITS)%N;
}.

Lemma refines_new limit : (limit ≤ MAX_PERMITS)%N → gate_refines (new limit) (mkCounter limit 0).
Proof. intros Hl. split; cbn; rewrite ?available_new by done; try done; lia. Qed.

Lemma refines_try g c :
  gate_refines g c →
  ∃ b c', counter_step TryAcquire c = Some (b, c') ∧ (gate_step TryAcquire g).1 = b
    ∧ gate_refines (gate_step TryAcquire g).2 c'.
Proof.
  intros [Hl Hb Hr Hm]. cbn. unfold try_acquire.
  destruct (sem_try_acquire (pg_semaphore g)) as [s|] eqn:Hs.
  - apply try_acquire_some in Hs. rewrite (proj2 (N.ltb_lt _ _)) by lia.
    eexists _, _. split; [done|]. split; [done|]. split; cbn; [done|lia|lia|done].
  - apply try_acquire_none in Hs. rewrite (proj2 (N.ltb_ge _ _)) by lia.
    eexists _, _. split; [done|]. split; [done|]. by split.
Qed.

Lemma refines_set_limit limit g c :
  gate_refines g c → (limit ≤ MAX_PERMITS)%N → gate_refines (set_limit limit g) (mkCounter limit (ct_held c)).
Proof.
  intros [Hl Hb Hr Hm] Hmax. unfold set_limit. destruct (N.ltb_spec limit (ps_limit (pg_state g))).
  - destruct (forget_permits (pg_semaphore g) (ps_limit (pg_state g) - limit)) as [H1 H2].
    destruct (sem_forget_permits _ _) as [retired s]. cbn in *. split; cbn; [done|lia|lia|done].
  - assert (sem_available (pg_semaphore g) ≤ ct_limit c)%N as Hav.
    { destruct (decide (ps_retire_on_drop (pg_state g) = 0%N)); lia. }
    split; cbn; rewrite ?available_add by lia; [done|lia|lia|done].
Qed.

Lemma refines_drop g c :
  gate_refines g c → (0 < ct_held c)%N → gate_refines (drop_permit g) (mkCounter (ct_limit c) (ct_held c - 1)).
Proof.
  intros [Hl Hb Hr Hm] Hheld. unfold drop_permit.
  destruct (N.eqb_spec (ps_retire_on_drop (pg_state g)) 0) as [Hz|Hz].
  - split; cbn; rewrite ?available_release by lia; [done|lia|lia|done].
  - split; cbn; [done|lia|lia|done].
Qed.

Fixpoint gate_run (ops : list GateOp) g : list bool * PrequeueGate S :=
  match ops with
  | [] => ([], g)
  | op :: ops' =>
      let '(b, g') := gate_step op g in
      let '(bs, g'') := gate_run ops' g' in (b :: bs, g'')
  end.

Fixpoint counter_run (ops : list GateOp) c : option (list bool * Counter) :=
  match ops with
  | [] => Some ([], c)
  | op :: ops' =>
      '(b, c') ← counter_step op c;
      '(bs, c'') ← counter_run ops' c';
      mret (b :: bs, c'')
  end.

Lemma refines_step op g c b c' :
  gate_refines g c → counter_step op c = Some (b, c') →
  (gate_step op g).1 = b ∧ gate_refines (gate_step op g).2 c'.
Proof.
  intros Hg Hc. destruct op as [|limit|].
  - destruct (refines_try g c Hg) as (b' & c'' & Hc' & ? & ?). rewrite Hc in Hc'. by injection Hc' as <- <-.
  - cbn in Hc. destruct (N.leb_spec limit MAX_PERMITS); [|done]. injection Hc as <- <-.
    split; [done|]. by apply refines_set_limit.
  - cbn in Hc. destruct (N.eqb_spec (ct_held c) 0); [done|]. injection Hc as <- <-.
    split; [done|]. apply refines_drop; [done|lia].
Qed.

(** The gate is a counter: for every history of acquisitions, reconfigurations
    and returned permits, a permit is granted exactly when fewer than the current
    limit are held, also while a lowered limit is still being drained. *)
Theorem prequeue_gate_refines_counter ops limit bs c :
  (limit ≤ MAX_PERMITS)%N →
  counter_run ops (mkCounter limit 0) = Some (bs, c) →
  (gate_run ops (new limit)).1 = bs ∧ gate_refines (gate_run ops (new limit)).2 c.
Proof.
  intros Hl. pose proof (refines_new limit Hl) as Hg. revert Hg.
  generalize (mkCounter limit 0) as c0. generalize (new limit) as g. revert bs c.
  induction ops as [|op ops IH]; intros bs c g c0 Hg; cbn [counter_run gate_run].
  { by intros [= <- <-]. }
  destruct (counter_step op c0) as [[b c1]|] eqn:Hc; [|done]. cbn.
  destruct (counter_run ops c1) as [[bs' c2]|] eqn:Hrun; [|done]. intros [= <- <-].
  destruct (refines_step op g c0 b c1 Hg Hc) as [Hb Hg'].
  destruct (gate_step op g) as [b' g']. cbn in *. subst b'.
  destruct (IH bs' c2 g' c1 Hg' Hrun) as [Hbs Hg'']. destruct (gate_run ops g'). cbn in *. by subst.
Qed.
End refinement.

(** A semaphore that is its count. *)
Definition count_semaphore : Semaphore N := {|
  sem_new n := n;
  sem_available n := n;
  sem_try_acquire n := if (n =? 0)%N then None else Some (n - 1)%N;
  sem_release n := (n + 1)%N;
  sem_add_permits n s := (s + n)%N;
  sem_forget_permits n s := (N.min n s, (s - n)%N);
|}.

Lemma count_semaphore_laws : @SemaphoreLaws N count_semaphore.
Proof.
  split; cbn; try done.
  - intros s s'. destruct (N.eqb_spec s 0); [done|]. intros [= <-]. lia.
  - intros s. destruct (N.eqb_spec s 0); by split.
Qed.

Lemma prequeue_gate_refines_counter_witness :
  (2 ≤ MAX_PERMITS)%N
  ∧ (@gate_run N count_semaphore [TryAcquire; TryAcquire; SetLimit 1; TryAcquire; DropPermit; TryAcquire]
       (@new N count_semaphore 2)).1 = [true; true; true; false; true; false]
  ∧ @gate_refines N count_semaphore
      (@gate_run N count_semaphore [TryAcquire; TryAcquire; SetLimit 1; TryAcquire; DropPermit; TryAcquire]
        (@new N count_semaphore 2)).2 (mkCounter 1 1).
Proof.
  assert (2 ≤ MAX_PERMITS)%N as Hl by (vm_compute; discriminate).
  split; [exact Hl|].
  apply (@prequeue_gate_refines_counter N count_semaphore count_semaphore_laws _ 2 _ (mkCounter 1 1) Hl).
  vm_compute. reflexivity.
Defined.
