(* ===== verification/Admission.v ===== *)
(** The admission of requests by [Server] ([crates/server/src/lib.rs]): a count of
    active requests, a bounded queue of tickets, their promotion, cancellation,
    release and reconfiguration.

    Every function here is one section of the code that runs under the lock of
    [Inner]. A queued request waits on a oneshot channel whose sender is in its
    queue entry: the channels are a map from tickets. A request's control is known
    by a number, an index of the store of controls, since the map of controls, the
    guard and the session share it. *)

From stdpp Require Import gmap strings list numbers.
From Stdlib Require Import Lia.
From S2P Require Import Prelude Engine Gate.

(** ** Configuration *)

Record ServerConfig : Type := mkServerConfig {
  active_requests : N;
  queue_count : N;
  queue_bytes : N;
  request_bytes : N;
  pre_queue_concurrency : N;
  default_output_tokens : N;
  header_bytes : N;
  body_timeout_ms : N;
  wall_time_ms : N;
  active_time_ms : N;
  stream_buffer : N;
  shutdown_grace_ms : N;
  compaction_enabled : bool;
  compaction_workers : N;
  compaction_declarations : N;
  compaction_declaration_rate_per_minute : N;
  compaction_declaration_lifetime_ms : N;
}.

(** The limits [configure] requires to be positive. *)
Definition limits (c : ServerConfig) : list N :=
  [active_requests c; queue_count c; queue_bytes c; request_bytes c; pre_queue_concurrency c;
   default_output_tokens c; header_bytes c; body_timeout_ms c; wall_time_ms c; active_time_ms c;
   stream_buffer c; shutdown_grace_ms c; compaction_workers c; compaction_declarations c;
   compaction_declaration_rate_per_minute c; compaction_declaration_lifetime_ms c].

Definition with_active_requests (n : N) (c : ServerConfig) : ServerConfig :=
  mkServerConfig n (queue_count c) (queue_bytes c) (request_bytes c) (pre_queue_concurrency c)
    (default_output_tokens c) (header_bytes c) (body_timeout_ms c) (wall_time_ms c)
    (active_time_ms c) (stream_buffer c) (shutdown_grace_ms c) (compaction_enabled c)
    (compaction_workers c) (compaction_declarations c) (compaction_declaration_rate_per_minute c)
    (compaction_declaration_lifetime_ms c).

Definition default_config : ServerConfig :=
  mkServerConfig 1 32 (N.shiftl 16 20) (N.shiftl 1 20) 16 16 (N.shiftl 32 10) 10000 300000 240000
    8 30000 true 1 128 32 3600000.

(** ** State *)

Record QueueEntry : Type := mkQueueEntry {
  qe_ticket : N;
  qe_request_id : string;
  qe_bytes : N;
}.

Inductive Channel : Type := Open | Sent | SenderGone | ReceiverGone.

#[export] Instance Channel_eq_dec : EqDecision Channel.
Proof. solve_decision. Defined.

(** The fields of [Inner] that admission uses, with the channels and controls that
    its entries point to. *)
Record Inner : Type := mkInner {
  controls : gmap string N;
  pending_cancelled : gset string;
  active : N;
  admission_limit : N;
  queue : list QueueEntry;
  queued_bytes : N;
  next_ticket : N;
  shutting_down : bool;
  config : ServerConfig;
  channels : gmap N Channel;
  store : gmap N Control.RequestControl;
}.

Definition initial (c : ServerConfig) : Inner :=
  mkInner ∅ ∅ 0 (active_requests c) [] 0 0 false c ∅ ∅.

Record AdmissionGuard : Type := mkGuard {
  ag_ticket : option N;
  ag_request_id : option string;
  ag_control : N;
  ag_active : bool;
}.

Record AdmissionMetrics : Type := mkAdmissionMetrics {
  am_active : N;
  am_queued : N;
  am_queued_bytes : N;
}.

(** *** Field updates *)

Definition set_controls (m : gmap string N) (i : Inner) : Inner :=
  mkInner m (pending_cancelled i) (active i) (admission_limit i) (queue i) (queued_bytes i)
    (next_ticket i) (shutting_down i) (config i) (channels i) (store i).

Definition set_pending_cancelled (s : gset string) (i : Inner) : Inner :=
  mkInner (controls i) s (active i) (admission_limit i) (queue i) (queued_bytes i)
    (next_ticket i) (shutting_down i) (config i) (channels i) (store i).

Definition set_active (n : N) (i : Inner) : Inner :=
  mkInner (controls i) (pending_cancelled i) n (admission_limit i) (queue i) (queued_bytes i)
    (next_ticket i) (shutting_down i) (config i) (channels i) (store i).

Definition set_limit_config (limit : N) (c : ServerConfig) (i : Inner) : Inner :=
  mkInner (controls i) (pending_cancelled i) (active i) limit (queue i) (queued_bytes i)
    (next_ticket i) (shutting_down i) c (channels i) (store i).

Definition set_queue (q : list QueueEntry) (bytes : N) (chans : gmap N Channel) (i : Inner) : Inner :=
  mkInner (controls i) (pending_cancelled i) (active i) (admission_limit i) q bytes
    (next_ticket i) (shutting_down i) (config i) chans (store i).

Definition set_next_ticket (n : N) (i : Inner) : Inner :=
  mkInner (controls i) (pending_cancelled i) (active i) (admission_limit i) (queue i) (queued_bytes i)
    n (shutting_down i) (config i) (channels i) (store i).

Definition set_shutting_down (i : Inner) : Inner :=
  mkInner (controls i) (pending_cancelled i) (active i) (admission_limit i) (queue i) (queued_bytes i)
    (next_ticket i) true (config i) (channels i) (store i).

Definition set_store (st : gmap N Control.RequestControl) (i : Inner) : Inner :=
  mkInner (controls i) (pending_cancelled i) (active i) (admission_limit i) (queue i) (queued_bytes i)
    (next_ticket i) (shutting_down i) (config i) (channels i) st.

Definition on_control (h : Control.RequestControl → Control.RequestControl) (ctl : N) (i : Inner)
  : Inner :=
  set_store (alter h ctl (store i)) i.

Definition check_control (ctl : N) (i : Inner) : result ServerError.Error unit :=
  match store i !! ctl with
  | Some c => Control.check c
  | None => Ok tt
  end.

(** ** The queue *)

(** [a - b] of [usize] in a release build. *)
Definition usize_sub (a b : N) : N := ((a + (usize_max + 1) - b) mod (usize_max + 1))%N.

(** [ready.send(())]: whether the receiver was there to get it. *)
Definition send (ticket : N) (chans : gmap N Channel) : bool * gmap N Channel :=
  match chans !! ticket with
  | Some Open => (true, <[ticket := Sent]> chans)
  | _ => (false, chans)
  end.

Definition close_sender (c : Channel) : Channel :=
  match c with Open => SenderGone | _ => c end.

Definition close_receiver (c : Channel) : Channel :=
  match c with Open => ReceiverGone | _ => c end.

(** Dropping a queue entry drops its sender. *)
Definition drop_sender (ticket : N) (chans : gmap N Channel) : gmap N Channel :=
  alter close_sender ticket chans.

Fixpoint promote_loop (limit : N) (q : list QueueEntry) (active bytes : N) (chans : gmap N Channel)
  : list QueueEntry * N * N * gmap N Channel :=
  match q with
  | [] => (q, active, bytes, chans)
  | entry :: q' =>
      if (active <? limit)%N then
        let bytes' := usize_sub bytes (qe_bytes entry) in
        let '(sent, chans') := send (qe_ticket entry) chans in
        promote_loop limit q' (if sent then active + 1 else active)%N bytes' chans'
      else (q, active, bytes, chans)
  end.

Definition promote_queued (i : Inner) : Inner :=
  let '(q, n, bytes, chans) :=
    promote_loop (admission_limit i) (queue i) (active i) (queued_bytes i) (channels i) in
  set_active n (set_queue q bytes chans i).

(** [queue.iter().position(..)] then [queue.remove(..)]. *)
Fixpoint remove_first (p : QueueEntry → bool) (q : list QueueEntry)
  : option (QueueEntry * list QueueEntry) :=
  match q with
  | [] => None
  | entry :: q' =>
      if p entry then Some (entry, q')
      else match remove_first p q' with
        | Some (found, rest) => Some (found, entry :: rest)
        | None => None
        end
  end.

Definition unqueue (p : QueueEntry → bool) (i : Inner) : option Inner :=
  match remove_first p (queue i) with
  | Some (entry, rest) =>
      Some (set_queue rest (usize_sub (queued_bytes i) (qe_bytes entry))
              (drop_sender (qe_ticket entry) (channels i)) i)
  | None => None
  end.

(** ** Operations *)

Definition try_admit (request_id : string) (control : N) (i : Inner)
  : result ServerError.Error AdmissionGuard * Inner :=
  if bool_decide (request_id ∈ pending_cancelled i) then
    (Err ServerError.Cancelled, set_pending_cancelled (pending_cancelled i ∖ {[request_id]}) i)
  else if shutting_down i then (Err ServerError.ShuttingDown, i)
  else if (admission_limit i <=? active i)%N || negb (bool_decide (queue i = [])) then
    (Err ServerError.Busy, i)
  else
    (Ok (mkGuard None (Some request_id) control true),
     set_controls (<[request_id := control]> (controls i)) (set_active (active i + 1) i)).

(** The locked section of [reserve_admission]: admitted, or waiting on a ticket. *)
Definition reserve_enter (request_id : string) (control bytes : N) (i : Inner)
  : result ServerError.Error AdmissionGuard * Inner :=
  if bool_decide (request_id ∈ pending_cancelled i) then
    (Err ServerError.Cancelled, set_pending_cancelled (pending_cancelled i ∖ {[request_id]}) i)
  else if shutting_down i then (Err ServerError.ShuttingDown, i)
  else if (request_bytes (config i) <? bytes)%N then (Err ServerError.PayloadTooLarge, i)
  else
    let i := set_controls (<[request_id := control]> (controls i)) i in
    if (active i <? admission_limit i)%N && bool_decide (queue i = []) then
      (Ok (mkGuard None (Some request_id) control true), set_active (active i + 1) i)
    else if (queue_count (config i) <=? N.of_nat (length (queue i)))%N
            || (saturating_sub (queue_bytes (config i)) (queued_bytes i) <? bytes)%N then
      (Err ServerError.Busy, set_controls (delete request_id (controls i)) i)
    else
      let ticket := next_ticket i in
      match checked_add (next_ticket i) 1 with
      | None => (Err (ServerError.State "admission ticket space exhausted"), i)
      | Some next =>
          (Ok (mkGuard (Some ticket) (Some request_id) control false),
           set_next_ticket next
             (set_queue (queue i ++ [mkQueueEntry ticket request_id bytes])
                (wrapping_add (queued_bytes i) bytes) (<[ticket := Open]> (channels i)) i))
      end.

(** [AdmissionGuard::drop]. *)
Definition release_or_cancel_admission (ticket : option N) (request_id : option string)
    (was_active : bool) (i : Inner) : Inner :=
  let i :=
    match request_id with
    | Some id =>
        match controls i !! id with
        | Some control => on_control Control.complete control (set_controls (delete id (controls i)) i)
        | None => i
        end
    | None => i
    end in
  let i :=
    if was_active then set_active (saturating_sub (active i) 1) i
    else match ticket with
      | Some t =>
          match unqueue (λ entry, (qe_ticket entry =? t)%N) i with
          | Some i' => i'
          | None => set_active (saturating_sub (active i) 1) i
          end
      | None => i
      end in
  promote_queued i.

Definition drop_guard (g : AdmissionGuard) (i : Inner) : Inner :=
  release_or_cancel_admission (ag_ticket g) (ag_request_id g) (ag_active g) i.

(** What [reserve_admission] does when its wait ends. *)
Definition wake_ready (g : AdmissionGuard) (i : Inner)
  : result ServerError.Error AdmissionGuard * Inner :=
  match check_control (ag_control g) i with
  | Ok _ => (Ok (mkGuard None (ag_request_id g) (ag_control g) true), i)
  | Err e => (Err e, drop_guard g i)
  end.

Definition wake_closed (g : AdmissionGuard) (i : Inner)
  : result ServerError.Error AdmissionGuard * Inner :=
  (match check_control (ag_control g) i with
   | Ok _ => Err ServerError.Cancelled
   | Err e => Err e
   end,
   drop_guard (mkGuard None (ag_request_id g) (ag_control g) false) i).

Definition wake_timeout (g : AdmissionGuard) (i : Inner)
  : result ServerError.Error AdmissionGuard * Inner :=
  (Err ServerError.Deadline, drop_guard g (on_control Control.expire (ag_control g) i)).

Definition cancel (request : string) (i : Inner) : Inner :=
  let i :=
    match controls i !! request with
    | Some control => on_control Control.cancel control i
    | None => set_pending_cancelled (pending_cancelled i ∪ {[request]}) i
    end in
  promote_queued (default i (unqueue (λ entry, bool_decide (qe_request_id entry = request)) i)).

Definition set_admission_limit (limit : N) (i : Inner) : Inner :=
  promote_queued (set_limit_config limit (with_active_requests limit (config i)) i).

Definition configure_inner (c : ServerConfig) (i : Inner) : Inner :=
  promote_queued (set_limit_config (active_requests c) c i).

(** The fields of [Server] that [configure] changes. *)
Record Server (S : Type) : Type := mkServer {
  sv_inner : Inner;
  sv_pre_queue : PrequeueGate S;
  sv_compaction_workers : PrequeueGate S;
}.

Arguments mkServer {S} _ _ _.
Arguments sv_inner {S} _.
Arguments sv_pre_queue {S} _.
Arguments sv_compaction_workers {S} _.

Definition configure {S} `{Semaphore S} (c : ServerConfig) (s : Server S)
  : result ServerError.Error unit * Server S :=
  if existsb (λ n, (n =? 0)%N) (limits c) then
    (Err (ServerError.State "server limits must be nonzero"), s)
  else
    (Ok tt, mkServer (configure_inner c (sv_inner s))
       (set_limit (pre_queue_concurrency c) (sv_pre_queue s))
       (set_limit (compaction_workers c) (sv_compaction_workers s))).

Definition admission_metrics (i : Inner) : AdmissionMetrics :=
  mkAdmissionMetrics (active i) (N.of_nat (length (queue i))) (queued_bytes i).

Definition begin_shutdown (i : Inner) : Inner := set_shutting_down i.

Definition cancel_all (m : gmap string N) (i : Inner) : Inner :=
  foldr (λ control, on_control Control.cancel control) i (map_values m).

Definition cancel_remaining (i : Inner) : Inner :=
  let i := cancel_all (controls i) i in
  set_queue [] 0 (foldr (λ entry, drop_sender (qe_ticket entry)) (channels i) (queue i)) i.
