(* ===== verification/AdmissionLaws.v ===== *)
(** The admission queue with the requests that wait on it, run as an interleaving
    of its locked sections: what is counted, what is queued and who is granted. *)

From stdpp Require Import gmap strings list numbers sorting.
From Stdlib Require Import Lia.
From S2P Require Import Prelude Engine Gate Admission.

(** A waiting request: its guard, and whether its receiver was dropped. *)
Abbreviation waiter := (AdmissionGuard * bool)%type.
Abbreviation waiters := (gmap N waiter).

(** ** Granted tickets *)

Definition is_sent (chans : gmap N Channel) (w : waiter) : N :=
  match ag_ticket w.1 with
  | Some t => if decide (chans !! t = Some Sent) then 1 else 0
  | None => 0
  end.

(** How many of the waiting requests were granted a place they have not taken yet. *)
Definition sent (chans : gmap N Channel) (W : waiters) : N := map_sum (is_sent chans) W.

Definition keyed (W : waiters) : Prop := ∀ t w, W !! t = Some w → ag_ticket w.1 = Some t.

Lemma sent_same chans chans' W :
  keyed W → (∀ t w, W !! t = Some w → (chans !! t = Some Sent ↔ chans' !! t = Some Sent)) →
  sent chans W = sent chans' W.
Proof.
  intros Hk Hc. apply map_sum_ext. intros t w Hw. unfold is_sent. rewrite (Hk t w Hw).
  destruct (Hc t w Hw). destruct (decide (chans !! t = Some Sent)), (decide (chans' !! t = Some Sent)); tauto.
Qed.

Lemma sent_delete chans W t w :
  keyed W → W !! t = Some w →
  sent chans W = ((if decide (chans !! t = Some Sent) then 1 else 0) + sent chans (delete t W))%N.
Proof.
  intros Hk Hw. unfold sent. rewrite (map_sum_delete _ _ _ _ Hw). f_equal.
  unfold is_sent. by rewrite (Hk t w Hw).
Qed.

Lemma keyed_delete W t : keyed W → keyed (delete t W).
Proof. intros Hk t' w [_ Hw]%lookup_delete_Some. by apply Hk. Qed.

Lemma sent_flip chans W t w :
  keyed W → W !! t = Some w → chans !! t ≠ Some Sent →
  sent (<[t := Sent]> chans) W = (sent chans W + 1)%N.
Proof.
  intros Hk Hw Hn. rewrite !(sent_delete _ W t w) by done. rewrite lookup_insert_eq.
  rewrite decide_True, decide_False by done.
  rewrite (sent_same (<[t := Sent]> chans) chans); [lia|by apply keyed_delete|].
  intros t' w' [Hne _]%lookup_delete_Some. by rewrite lookup_insert_ne.
Qed.

Lemma sent_insert chans W t g d :
  keyed W → W !! t = None → ag_ticket g = Some t → chans !! t ≠ Some Sent →
  sent chans (<[t := (g, d)]> W) = sent chans W.
Proof.
  intros Hk Hw Hg Hn. unfold sent. rewrite map_sum_insert_None by done.
  unfold is_sent at 1. cbn. rewrite Hg, decide_False by done. lia.
Qed.

(** ** The structure of the queue *)

Definition tickets (q : list QueueEntry) : list N := qe_ticket <$> q.

Definition weight (q : list QueueEntry) : N := list_sum qe_bytes q.

(** A queued entry is waited for, on an open channel unless its receiver is gone. *)
Definition awaited (W : waiters) (chans : gmap N Channel) (t : N) : Prop :=
  ∃ g d, W !! t = Some (g, d) ∧ chans !! t = Some (if d : bool then ReceiverGone else Open).

Record queue_ok (W : waiters) (q : list QueueEntry) (bytes : N) (chans : gmap N Channel) : Prop := {
  qo_sorted : StronglySorted N.lt (tickets q);
  qo_awaited : Forall (λ e, awaited W chans (qe_ticket e)) q;
  qo_open : ∀ t w, W !! t = Some w → chans !! t = Some Open → t ∈ tickets q;
  qo_bytes : bytes = weight q;
  qo_small : (weight q ≤ usize_max)%N;
}.

Record waiters_ok (W : waiters) (next : N) : Prop := {
  wo_keyed : keyed W;
  wo_inactive : ∀ t w, W !! t = Some w → ag_active w.1 = false;
  wo_bound : ∀ t w, W !! t = Some w → (t < next)%N;
}.

(** The count: [k] is by how much it falls short of the places granted. *)
Definition counted (W : waiters) (held k : N) (active : N) (chans : gmap N Channel) : Prop :=
  (active + k = held + sent chans W)%N.

Lemma usize_sub_exact a b : (b ≤ a ≤ usize_max)%N → usize_sub a b = (a - b)%N.
Proof.
  intros H. unfold usize_sub. replace (a + (usize_max + 1) - b)%N with ((a - b) + 1 * (usize_max + 1))%N by lia.
  rewrite N.Div0.mod_add. apply N.mod_small. lia.
Qed.

Lemma weight_cons e q : weight (e :: q) = (qe_bytes e + weight q)%N.
Proof. done. Qed.

Lemma weight_app q q' : weight (q ++ q') = (weight q + weight q')%N.
Proof. induction q as [|e q IH]; [done|]. cbn [app]. rewrite !weight_cons, IH. lia. Qed.

Lemma sorted_not_elem t q : StronglySorted N.lt (t :: tickets q) → t ∉ tickets q.
Proof.
  intros Hs. inversion Hs as [|? ? _ Hf]; subst. intros Hin.
  rewrite Forall_forall in Hf. specialize (Hf t Hin). lia.
Qed.

(** What changing one channel leaves true of the others. *)
Lemma awaited_other W chans t c t' :
  t ≠ t' → awaited W chans t' → awaited W (<[t := c]> chans) t'.
Proof. intros Hne (g & d & ? & ?). exists g, d. by rewrite lookup_insert_ne. Qed.

Lemma queue_ok_pop W e q bytes chans c :
  queue_ok W (e :: q) bytes chans → c ≠ Open →
  queue_ok W q (usize_sub bytes (qe_bytes e)) (<[qe_ticket e := c]> chans).
Proof.
  intros [Hs Ha Ho Hb Hm] Hc. rewrite weight_cons in Hb, Hm.
  pose proof (sorted_not_elem _ _ Hs) as Hnot. inversion Hs as [|? ? Hs' _]; subst. split.
  - done.
  - inversion Ha as [|? ? _ Ha']; subst. apply Forall_forall. intros e' He'.
    rewrite Forall_forall in Ha'. apply awaited_other; [|by apply Ha'].
    intros Heq. apply Hnot. rewrite Heq. by apply list_elem_of_fmap_2.
  - intros t w Hw. destruct (decide (qe_ticket e = t)) as [<-|Hne].
    + rewrite lookup_insert_eq. by intros [= ->].
    + rewrite lookup_insert_ne by done. intros Hopen. specialize (Ho t w Hw Hopen).
      by apply elem_of_cons in Ho as [->|].
  - rewrite usize_sub_exact by lia. lia.
  - lia.
Qed.

(** ** Promotion *)

(** Promotion keeps the structure, counts what it grants, and leaves no one waiting
    while a place is free. *)
Lemma promote_loop_ok W held k limit q active bytes chans :
  keyed W → queue_ok W q bytes chans → counted W held k active chans →
  let '(q', active', bytes', chans') := promote_loop limit q active bytes chans in
  queue_ok W q' bytes' chans' ∧ counted W held k active' chans'
  ∧ ((active' < limit)%N → q' = []).
Proof.
  intros Hk. revert active bytes chans. induction q as [|e q IH]; intros active bytes chans Hq Hc; cbn.
  { done. }
  destruct (N.ltb_spec active limit) as [Hlt|Hge]; [|split; [done|]; split; [done|lia]].
  pose proof (qo_awaited _ _ _ _ Hq) as Ha. inversion Ha as [|? ? (g & d & Hw & Hch) _]; subst.
  unfold send. rewrite Hch. destruct d.
  - apply IH; [|done]. rewrite <- (insert_id chans (qe_ticket e) ReceiverGone) by done.
    by apply queue_ok_pop.
  - apply IH; [by apply queue_ok_pop|]. unfold counted in *.
    rewrite (sent_flip _ _ _ _ Hk Hw) by congruence. lia.
Qed.

(** ** The invariant of the locked state *)

Record pre_ok (W : waiters) (held k : N) (i : Inner) : Prop := {
  po_waiters : waiters_ok W (next_ticket i);
  po_queue : queue_ok W (queue i) (queued_bytes i) (channels i);
  po_count : counted W held k (active i) (channels i);
}.

(** Between two locked sections nobody waits while a place is free. *)
Record inner_ok (W : waiters) (held k : N) (i : Inner) : Prop := {
  io_pre : pre_ok W held k i;
  io_work : (active i < admission_limit i)%N → queue i = [];
}.

Lemma promote_queued_ok W held k i : pre_ok W held k i → inner_ok W held k (promote_queued i).
Proof.
  intros [Hw Hq Hc]. unfold promote_queued.
  pose proof (promote_loop_ok W held k (admission_limit i) _ _ _ _ (wo_keyed _ _ Hw) Hq Hc) as Hp.
  destruct (promote_loop _ _ _ _ _) as [[[q n] bytes] chans]. destruct Hp as (? & ? & ?).
  split; [by split|done].
Qed.

Lemma remove_first_Some p q e rest :
  remove_first p q = Some (e, rest) → ∃ a b, q = a ++ e :: b ∧ rest = a ++ b ∧ p e = true.
Proof.
  revert rest. induction q as [|x q IH]; intros rest; [done|]. cbn. destruct (p x) eqn:Hp.
  - intros [= -> ->]. by exists [], rest.
  - destruct (remove_first p q) as [[found r]|]; [|done]. intros [= -> <-].
    destruct (IH r eq_refl) as (a & b & -> & -> & ?). by exists (x :: a), b.
Qed.

Lemma remove_first_None p q e : remove_first p q = None → e ∈ q → p e = false.
Proof.
  induction q as [|x q IH]; cbn; intros Hr Hin; [by apply not_elem_of_nil in Hin|].
  destruct (p x) eqn:Hp; [done|]. destruct (remove_first p q) as [[]|]; [done|].
  apply elem_of_cons in Hin as [->|Hin]; [done|by apply IH].
Qed.

Lemma tickets_middle a e b :
  StronglySorted N.lt (tickets (a ++ e :: b)) →
  StronglySorted N.lt (tickets (a ++ b)) ∧ qe_ticket e ∉ tickets (a ++ b).
Proof.
  unfold tickets. rewrite !fmap_app. cbn [fmap list_fmap]. induction a as [|x a IH]; cbn [fmap list_fmap app].
  - intros Hs. split; [by inversion Hs|by apply (sorted_not_elem _ b)].
  - intros Hs. inversion Hs as [|? ? Hs' Hf]; subst. destruct (IH Hs') as [IH1 IH2].
    rewrite Forall_app in Hf. destruct Hf as [Hf1 Hf2]. inversion Hf2; subst. split.
    + constructor; [done|]. by apply Forall_app.
    + rewrite not_elem_of_cons. split; [lia|done].
Qed.

Lemma drop_sender_not_open W chans t :
  awaited W chans t → ∃ c, drop_sender t chans = (<[t := c]> chans) ∧ c ≠ Open ∧ c ≠ Sent.
Proof.
  intros (g & d & _ & Hc). unfold drop_sender. rewrite (alter_insert_id _ _ _ _ Hc).
  eexists. split; [done|]. by destruct d.
Qed.

(** Removing an entry from the queue, wherever it is. *)
Lemma unqueue_ok W held k i p i' :
  pre_ok W held k i → unqueue p i = Some i' →
  pre_ok W held k i' ∧ (∃ e, e ∈ queue i ∧ p e = true ∧ (qe_ticket e ∉ tickets (queue i'))
    ∧ channels i' !! qe_ticket e ≠ Some Sent).
Proof.
  intros [Hw [Hs Ha Ho Hb Hm] Hc] Hu. unfold unqueue in Hu.
  destruct (remove_first p (queue i)) as [[e rest]|] eqn:Hr; [|done]. injection Hu as <-.
  apply remove_first_Some in Hr as (a & b & Hq & -> & Hp). rewrite Hq in *.
  destruct (tickets_middle _ _ _ Hs) as [Hs' Hnot].
  pose proof Ha as Ha'. rewrite Forall_app in Ha'. destruct Ha' as [Haa Hab].
  inversion Hab as [|? ? Hae Hab']; subst.
  destruct (drop_sender_not_open _ _ _ Hae) as (c & Hd & Hc1 & Hc2).
  split.
  2:{ exists e. cbn. rewrite Hd, lookup_insert_eq. split; [apply elem_of_app; right; left|].
      split; [done|]. split; [done|congruence]. }
  rewrite weight_app, weight_cons in Hb, Hm. split; [done| |].
  - cbn. rewrite Hd. split.
    + done.
    + apply Forall_forall. intros e' He'. apply awaited_other.
      * intros Heq. apply Hnot. rewrite Heq. by apply list_elem_of_fmap_2.
      * rewrite Forall_forall in Haa, Hab'. apply elem_of_app in He' as [?|?]; auto.
    + intros t w Hwt. destruct (decide (qe_ticket e = t)) as [<-|Hne].
      * rewrite lookup_insert_eq. congruence.
      * rewrite lookup_insert_ne by done. intros Hopen. specialize (Ho t w Hwt Hopen).
        unfold tickets in *. rewrite fmap_app in *. cbn in Ho. set_solver.
    + rewrite usize_sub_exact, weight_app by lia. lia.
    + rewrite weight_app. lia.
  - unfold counted in *. cbn. rewrite Hd, Hc. f_equal. apply sent_same; [apply Hw|].
    intros t w Hwt. destruct (decide (qe_ticket e = t)) as [<-|Hne].
    + rewrite lookup_insert_eq. destruct Hae as (g & d & _ & ->). destruct d; split; congruence.
    + by rewrite lookup_insert_ne.
Qed.

Lemma unqueue_None i t :
  unqueue (λ e, (qe_ticket e =? t)%N) i = None → t ∉ tickets (queue i).
Proof.
  unfold unqueue. destruct (remove_first _ (queue i)) as [[]|] eqn:Hr; [done|].
  intros _ (e & -> & He)%list_elem_of_fmap. apply (remove_first_None _ _ _ Hr) in He.
  by rewrite N.eqb_refl in He.
Qed.

(** Forgetting a request that no longer waits in the queue. *)
Lemma forget_ok W held k i t w held' k' n :
  pre_ok W held k i → W !! t = Some w → t ∉ tickets (queue i) →
  counted (delete t W) held' k' n (channels i) →
  pre_ok (delete t W) held' k' (set_active n i).
Proof.
  intros [[Hk Hi Hb] [Hs Ha Ho Hby Hm] Hc] Hwt Hnot Hc'. split; [|split|]; cbn; try done.
  - split; [by apply keyed_delete|..]; intros t' w' [_ Hw]%lookup_delete_Some; eauto.
  - apply Forall_forall. intros e He. rewrite Forall_forall in Ha.
    destruct (Ha e He) as (g & d & Hw & Hch). exists g, d. split; [|done].
    rewrite lookup_delete_ne; [done|]. intros ->. apply Hnot. by apply list_elem_of_fmap_2.
  - intros t' w' [Hne Hw]%lookup_delete_Some Hopen. by eapply Ho.
Qed.

(** The parts of the state the counts do not depend on. *)
Lemma pre_ok_frame W held k i i' :
  pre_ok W held k i → next_ticket i' = next_ticket i → queue i' = queue i →
  queued_bytes i' = queued_bytes i → channels i' = channels i → active i' = active i →
  pre_ok W held k i'.
Proof. intros [? ? ?] H1 H2 H3 H4 H5. split; rewrite ?H1, ?H2, ?H3, ?H4, ?H5; done. Qed.

Lemma set_active_id i : set_active (active i) i = i.
Proof. by destruct i. Qed.

(** ** Dropping a guard *)

(** [complete] and the map of controls, the first part of a release. *)
Definition settle (request_id : option string) (i : Inner) : Inner :=
  match request_id with
  | Some id =>
      match controls i !! id with
      | Some control => on_control Control.complete control (set_controls (delete id (controls i)) i)
      | None => i
      end
  | None => i
  end.

Lemma settle_ok W held k r i : pre_ok W held k i → pre_ok W held k (settle r i).
Proof.
  intros Hi. destruct r as [id|]; [|done]. cbn. destruct (controls i !! id); [|done].
  by eapply pre_ok_frame.
Qed.

(** Dropping the guard of an admitted request. *)
Lemma release_held W held k i r :
  pre_ok W (held + 1) k i →
  ∃ k', inner_ok W held k' (release_or_cancel_admission None r true i) ∧ (k = 0 → k' = 0)%N.
Proof.
  intros Hi. apply (settle_ok _ _ _ r) in Hi. unfold release_or_cancel_admission. fold (settle r i).
  set (j := settle r i) in *. clearbody j. destruct Hi as [Hw Hq Hc]. unfold counted in Hc.
  exists (if (active j =? 0)%N then k - 1 else k)%N. split.
  - apply promote_queued_ok. split; [done|done|]. unfold counted, saturating_sub. cbn.
    destruct (N.eqb_spec (active j) 0); lia.
  - destruct (N.eqb_spec (active j) 0); lia.
Qed.

(** Whether the place of a waiting guard is accounted for: it is queued, or granted. *)
Definition accounted (t : N) (i : Inner) : Prop :=
  t ∈ tickets (queue i) ∨ channels i !! t = Some Sent.

Lemma settle_same r i :
  queue (settle r i) = queue i ∧ channels (settle r i) = channels i ∧ next_ticket (settle r i) = next_ticket i.
Proof. destruct r as [id|]; [|done]. cbn. by destruct (controls i !! id). Qed.

(** Dropping the guard of a waiting request: its entry, its grant, or, when it has
    neither any more, somebody else's place. *)
Lemma release_waiting W held k i t g d :
  pre_ok W held k i → W !! t = Some (g, d) →
  ∃ k', inner_ok (delete t W) held k' (drop_guard g i) ∧ (accounted t i → k = 0 → k' = 0)%N.
Proof.
  intros Hi Hwt. pose proof (po_waiters _ _ _ _ Hi) as [Hk Hin _].
  unfold drop_guard. pose proof (Hk t _ Hwt) as Ht. pose proof (Hin t _ Hwt) as Hact.
  cbn in Ht, Hact. rewrite Ht, Hact.
  apply (settle_ok _ _ _ (ag_request_id g)) in Hi. unfold release_or_cancel_admission.
  fold (settle (ag_request_id g) i). unfold accounted.
  destruct (settle_same (ag_request_id g) i) as (<- & <- & _).
  set (j := settle (ag_request_id g) i) in *. clearbody j. cbn [andb].
  destruct (unqueue _ j) as [j'|] eqn:Hu.
  - destruct (unqueue_ok _ _ _ _ _ _ Hi Hu) as [Hj' (e & _ & Hte%N.eqb_eq & Hnot & Hns)].
    rewrite Hte in *. exists k. split; [|done]. apply promote_queued_ok. rewrite <- (set_active_id j').
    eapply forget_ok; eauto. unfold counted. rewrite (po_count _ _ _ _ Hj').
    rewrite (sent_delete _ W t (g, d)) by done. by rewrite decide_False.
  - apply unqueue_None in Hu. pose proof (po_count _ _ _ _ Hi) as Hc. unfold counted in Hc.
    rewrite (sent_delete _ W t (g, d)) in Hc by done.
    exists (if decide (channels j !! t = Some Sent) then
        if (active j =? 0)%N then k - 1 else k
      else if (active j =? 0)%N then k else k + 1)%N. split.
    + apply promote_queued_ok. eapply forget_ok; eauto. unfold counted, saturating_sub.
      destruct (decide _), (N.eqb_spec (active j) 0); lia.
    + intros [?|Hs] ->; [done|]. rewrite decide_True by done. by destruct (active j =? 0)%N.
Qed.

(** Dropping a guard whose ticket was taken: the sender is gone. *)
Lemma release_closed W held k i t g d :
  pre_ok W held k i → W !! t = Some (g, d) → channels i !! t = Some SenderGone →
  inner_ok (delete t W) held k (drop_guard (mkGuard None (ag_request_id g) (ag_control g) false) i).
Proof.
  intros Hi Hwt Hs. pose proof (po_waiters _ _ _ _ Hi) as [Hk _ _].
  apply (settle_ok _ _ _ (ag_request_id g)) in Hi.
  unfold drop_guard, release_or_cancel_admission. cbn [ag_request_id ag_ticket ag_active].
  fold (settle (ag_request_id g) i). destruct (settle_same (ag_request_id g) i) as (_ & Hch & _).
  rewrite <- Hch in Hs. set (j := settle (ag_request_id g) i) in *. clearbody j.
  apply promote_queued_ok. rewrite <- (set_active_id j). eapply forget_ok; eauto.
  - intros (e & -> & He)%list_elem_of_fmap. pose proof (qo_awaited _ _ _ _ (po_queue _ _ _ _ Hi)) as Ha.
    rewrite Forall_forall in Ha. destruct (Ha e He) as (? & d' & _ & Hc). destruct d'; congruence.
  - unfold counted. rewrite (po_count _ _ _ _ Hi), (sent_delete _ W t (g, d)) by done.
    rewrite decide_False by congruence. done.
Qed.

(** ** Entering *)

Lemma sorted_snoc l t : StronglySorted N.lt l → Forall (λ x, (x < t)%N) l → StronglySorted N.lt (l ++ [t]).
Proof.
  induction 1 as [|x l Hs IH Hx]; intros Hf; cbn; [by repeat constructor|].
  inversion Hf; subst. constructor; [by apply IH|]. apply Forall_app. split; [done|]. by repeat constructor.
Qed.

Lemma queue_tickets_bound W held k i :
  pre_ok W held k i → Forall (λ t, (t < next_ticket i)%N) (tickets (queue i)).
Proof.
  intros [[_ _ Hb] [_ Ha _ _ _] _]. apply Forall_forall. intros t (e & -> & He)%list_elem_of_fmap.
  rewrite Forall_forall in Ha. destruct (Ha e He) as (g & d & Hw & _). by eapply Hb.
Qed.

(** A new ticket at the end of the queue. *)
Lemma enqueue_ok W held k i r ctl bytes next :
  pre_ok W held k i → (queue_bytes (config i) ≤ usize_max)%N →
  (bytes ≤ saturating_sub (queue_bytes (config i)) (queued_bytes i))%N →
  checked_add (next_ticket i) 1 = Some next →
  pre_ok (<[next_ticket i := (mkGuard (Some (next_ticket i)) (Some r) ctl false, false)]> W) held k
    (set_next_ticket next
       (set_queue (queue i ++ [mkQueueEntry (next_ticket i) r bytes])
          (wrapping_add (queued_bytes i) bytes) (<[next_ticket i := Open]> (channels i)) i)).
Proof.
  intros Hi Hmax Hbytes Hnext. pose proof (queue_tickets_bound _ _ _ _ Hi) as Hbound.
  destruct Hi as [[Hk Hin Hb] [Hs Ha Ho Hby Hm] Hc]. set (t := next_ticket i) in *.
  assert (W !! t = None) as Hfresh.
  { destruct (W !! t) as [w|] eqn:Hw; [|done]. specialize (Hb t w Hw). lia. }
  assert (∀ t' w, W !! t' = Some w → t ≠ t') as Hne by (intros t' w Hw ->; congruence).
  unfold checked_add in Hnext. destruct (decide _); [|done]. injection Hnext as <-.
  unfold saturating_sub in Hbytes. split; [|split|]; cbn.
  - split; intros t' w' [[<- <-]|[_ Hw]]%lookup_insert_Some; cbn; try done; try lia; eauto.
    specialize (Hb t' w' Hw). lia.
  - unfold tickets. rewrite fmap_app. by apply sorted_snoc.
  - apply Forall_app. split.
    + apply Forall_forall. intros e He. rewrite Forall_forall in Ha. apply awaited_other.
      * rewrite Forall_forall in Hbound. intros Heq.
        specialize (Hbound (qe_ticket e) (list_elem_of_fmap_2 _ _ _ He)). lia.
      * destruct (Ha e He) as (g & d & Hw & ?). exists g, d. by rewrite lookup_insert_ne by eauto.
    + constructor; [|done]. eexists _, false. cbn. by rewrite !lookup_insert_eq.
  - intros t' w' [[<- _]|[Hne' Hw]]%lookup_insert_Some.
    + intros _. unfold tickets. rewrite fmap_app. apply elem_of_app. right. left.
    + rewrite lookup_insert_ne by done. intros Hopen. unfold tickets. rewrite fmap_app.
      apply elem_of_app. left. by eapply Ho.
  - rewrite weight_app, Hby. unfold wrapping_add. cbn. rewrite N.mod_small; unfold usize_max in *; lia.
  - rewrite weight_app. cbn. lia.
  - unfold counted in *. cbn. rewrite Hc. f_equal. rewrite sent_insert; cbn.
    + apply sent_same; [done|]. intros t' w Hw. by rewrite lookup_insert_ne by eauto.
    + done.
    + done.
    + done.
    + by rewrite lookup_insert_eq.
Qed.

(** What a locked section that may hand out a guard leaves: nothing, a held guard,
    or a waiter. *)
Definition entered (W : waiters) (held k : N) (out : result ServerError.Error AdmissionGuard * Inner)
  : Prop :=
  match out with
  | (Err _, i') => inner_ok W held k i'
  | (Ok g, i') =>
      if ag_active g then ag_ticket g = None ∧ inner_ok W (held + 1) k i'
      else ∃ t, ag_ticket g = Some t ∧ inner_ok (<[t := (g, false)]> W) held k i'
  end.

Lemma inner_ok_frame W held k i i' :
  inner_ok W held k i → next_ticket i' = next_ticket i → queue i' = queue i →
  queued_bytes i' = queued_bytes i → channels i' = channels i → active i' = active i →
  admission_limit i' = admission_limit i → inner_ok W held k i'.
Proof.
  intros [Hp Hw] Hn Hq Hb Hc Ha Hl. split; [by eapply pre_ok_frame|]. by rewrite Ha, Hl, Hq.
Qed.

Lemma admit_ok W held k i i' :
  inner_ok W held k i → queue i = [] → i' = set_active (active i + 1) i → inner_ok W (held + 1) k i'.
Proof.
  intros [[Hw Hq Hc] _] He ->. split; [split|]; cbn; try done. unfold counted in *. cbn. lia.
Qed.

Lemma reserve_enter_ok W held k i r ctl bytes :
  inner_ok W held k i → (queue_bytes (config i) ≤ usize_max)%N →
  entered W held k (reserve_enter r ctl bytes i).
Proof.
  intros Hi Hmax. unfold reserve_enter. case_bool_decide; [by eapply inner_ok_frame|].
  destruct (shutting_down i); [done|]. destruct (request_bytes (config i) <? bytes)%N; [done|].
  set (j := set_controls _ i). assert (inner_ok W held k j) as Hj by (by eapply inner_ok_frame).
  destruct (N.ltb_spec (active j) (admission_limit j)) as [Hlt|Hge].
  { rewrite bool_decide_true by (by apply (io_work _ _ _ _ Hj)). cbn. split; [done|].
    eapply admit_ok; [exact Hj|by apply (io_work _ _ _ _ Hj)|done]. }
  cbn [andb]. destruct (_ || _) eqn:Hfull; [by eapply inner_ok_frame|].
  destruct (checked_add (next_ticket j) 1) as [next|] eqn:Hn; [|done].
  apply orb_false_iff in Hfull as [_ Hb%N.ltb_ge]. cbn [entered ag_active]. eexists. split; [done|].
  split; [apply enqueue_ok; [apply Hj|done|done|done]|]. cbn in *. lia.
Qed.

Lemma try_admit_ok W held k i r ctl :
  inner_ok W held k i → entered W held k (try_admit r ctl i).
Proof.
  intros Hi. unfold try_admit. case_bool_decide; [by eapply inner_ok_frame|].
  destruct (shutting_down i); [done|]. destruct (_ || _) eqn:Hb; [done|].
  apply orb_false_iff in Hb as [_ Hq%negb_false_iff%bool_decide_eq_true]. cbn. split; [done|].
  eapply inner_ok_frame; [by eapply admit_ok|done..].
Qed.

(** ** The interleaving of requests *)

(** The locked state, the requests that wait for their ticket, and the guards of
    the requests that were admitted. *)
Record System : Type := mkSystem {
  sy_inner : Inner;
  sy_waiting : waiters;
  sy_held : list AdmissionGuard;
}.

(** A request reserves or is tried; its wait ends by the channel; its future is
    dropped, by its deadline or by the client, first the receiver and then the
    guard; an admitted request ends. Cancellation, reconfiguration and shutdown
    come from other tasks, which also change the controls. *)
Inductive Event : Type :=
| Reserve (request_id : string) (control bytes : N)
| TryAdmit (request_id : string) (control : N)
| Ready (ticket : N)
| Closed (ticket : N)
| DropReceiver (ticket : N)
| DropWaiter (ticket : N) (timed_out : bool)
| Finish (index : nat)
| Cancel (request_id : string)
| SetLimit (limit : N)
| Configure (c : ServerConfig)
| BeginShutdown
| CancelRemaining
| SetControl (control : N) (c : Control.RequestControl).

Definition enter (out : result ServerError.Error AdmissionGuard * Inner) (s : System) : System :=
  match out with
  | (Err _, i) => mkSystem i (sy_waiting s) (sy_held s)
  | (Ok g, i) =>
      match ag_ticket g with
      | None => mkSystem i (sy_waiting s) (g :: sy_held s)
      | Some t => mkSystem i (<[t := (g, false)]> (sy_waiting s)) (sy_held s)
      end
  end.

(** A waiting request goes on, with a guard or without. *)
Definition leave (t : N) (out : result ServerError.Error AdmissionGuard * Inner) (s : System) : System :=
  mkSystem out.2 (delete t (sy_waiting s))
    (match out.1 with Ok g => g :: sy_held s | Err _ => sy_held s end).

Definition on_inner (h : Inner → Inner) (s : System) : System :=
  mkSystem (h (sy_inner s)) (sy_waiting s) (sy_held s).

Definition step (ev : Event) (s : System) : option System :=
  let i := sy_inner s in
  match ev with
  | Reserve r control bytes => Some (enter (reserve_enter r control bytes i) s)
  | TryAdmit r control => Some (enter (try_admit r control i) s)
  | Ready t =>
      match sy_waiting s !! t, channels i !! t with
      | Some (g, false), Some Sent => Some (leave t (wake_ready g i) s)
      | _, _ => None
      end
  | Closed t =>
      match sy_waiting s !! t, channels i !! t with
      | Some (g, false), Some SenderGone => Some (leave t (wake_closed g i) s)
      | _, _ => None
      end
  | DropReceiver t =>
      match sy_waiting s !! t with
      | Some (g, false) =>
          Some (mkSystem (set_queue (queue i) (queued_bytes i) (alter close_receiver t (channels i)) i)
                  (<[t := (g, true)]> (sy_waiting s)) (sy_held s))
      | _ => None
      end
  | DropWaiter t timed_out =>
      match sy_waiting s !! t with
      | Some (g, true) =>
          Some (leave t (if timed_out : bool then wake_timeout g i
                         else (Err ServerError.Cancelled, drop_guard g i)) s)
      | _ => None
      end
  | Finish n =>
      match sy_held s !! n with
      | Some g => Some (mkSystem (drop_guard g i) (sy_waiting s) (delete n (sy_held s)))
      | None => None
      end
  | Cancel r => Some (on_inner (cancel r) s)
  | SetLimit limit => Some (on_inner (set_admission_limit limit) s)
  | Configure c =>
      if existsb (λ n, (n =? 0)%N) (limits c) || (usize_max <? queue_bytes c)%N then None
      else Some (on_inner (configure_inner c) s)
  | BeginShutdown => Some (on_inner begin_shutdown s)
  | CancelRemaining => Some (on_inner cancel_remaining s)
  | SetControl control c => Some (on_inner (λ i, set_store (<[control := c]> (store i)) i) s)
  end.

Fixpoint steps (evs : list Event) (s : System) : option System :=
  match evs with
  | [] => Some s
  | ev :: evs' => s' ← step ev s; steps evs' s'
  end.

Definition start (c : ServerConfig) : System := mkSystem (initial c) ∅ [].

(** The places granted: guards in use, and tickets granted but not picked up. *)
Definition granted (s : System) : N :=
  (N.of_nat (length (sy_held s)) + sent (channels (sy_inner s)) (sy_waiting s))%N.

(** ** The invariant *)

Record system_ok (k : N) (s : System) : Prop := {
  so_inner : inner_ok (sy_waiting s) (N.of_nat (length (sy_held s))) k (sy_inner s);
  so_held : Forall (λ g, ag_ticket g = None ∧ ag_active g = true) (sy_held s);
  so_config : (queue_bytes (config (sy_inner s)) ≤ usize_max)%N;
}.

(** Nothing in the admission but [configure] changes the size of the queue. *)
Lemma promote_config i : config (promote_queued i) = config i ∧ admission_limit (promote_queued i) = admission_limit i.
Proof. unfold promote_queued. by destruct (promote_loop _ _ _ _ _) as [[[??]?]?]. Qed.

Lemma release_config t r b i :
  config (release_or_cancel_admission t r b i) = config i
  ∧ admission_limit (release_or_cancel_admission t r b i) = admission_limit i.
Proof.
  unfold release_or_cancel_admission. fold (settle r i).
  assert (config (settle r i) = config i ∧ admission_limit (settle r i) = admission_limit i) as [<- <-].
  { destruct r as [id|]; [|done]. cbn. by destruct (controls i !! id). }
  set (j := settle r i). clearbody j. rewrite !(proj1 (promote_config _)), !(proj2 (promote_config _)).
  destruct b; [done|]. destruct t as [t|]; [|done]. unfold unqueue.
  by destruct (remove_first _ (queue j)) as [[]|].
Qed.

Lemma enter_config i i' out :
  out.2 = i' → config i' = config i → ∀ s, config (sy_inner (enter out s)) = config i.
Proof. destruct out as [[g|e] j]; cbn; intros <- Hc s; [by destruct (ag_ticket g)|done]. Qed.

Lemma enter_ok k s out :
  system_ok k s → entered (sy_waiting s) (N.of_nat (length (sy_held s))) k out →
  config out.2 = config (sy_inner s) → (∀ g, out.1 = Ok g → ag_active g = bool_decide (ag_ticket g = None)) →
  system_ok k (enter out s).
Proof.
  intros [Hi Hh Hc] He Hconf Hg. destruct out as [[g|e] i]; cbn in *.
  - specialize (Hg g eq_refl). destruct (ag_active g) eqn:Ha.
    + destruct He as [Ht He]. rewrite Ht. split; cbn [sy_waiting sy_held sy_inner length].
      * by rewrite Nat2N.inj_succ, <- N.add_1_r.
      * by constructor.
      * by rewrite Hconf.
    + destruct He as (t & Ht & He). rewrite Ht. split; cbn; [done|done|by rewrite Hconf].
  - split; cbn; [done|done|by rewrite Hconf].
Qed.

Lemma cancel_all_frame m i :
  next_ticket (cancel_all m i) = next_ticket i ∧ queue (cancel_all m i) = queue i
  ∧ queued_bytes (cancel_all m i) = queued_bytes i ∧ channels (cancel_all m i) = channels i
  ∧ active (cancel_all m i) = active i ∧ admission_limit (cancel_all m i) = admission_limit i
  ∧ config (cancel_all m i) = config i.
Proof. unfold cancel_all. induction (map_values m) as [|c l IH]; [done|exact IH]. Qed.

Lemma drop_senders chans q t :
  foldr (λ e, drop_sender (qe_ticket e)) chans q !! t
  = if decide (t ∈ tickets q) then close_sender <$> chans !! t else chans !! t.
Proof.
  induction q as [|e q IH]; [done|]. cbn [foldr]. unfold drop_sender at 1. rewrite lookup_alter.
  unfold tickets. cbn [fmap list_fmap]. fold (tickets q). destruct (decide (qe_ticket e = t)) as [<-|Hne].
  - rewrite decide_True by left. rewrite IH. destruct (decide _); [|done].
    destruct (chans !! qe_ticket e) as [c|]; [|done]. by destruct c.
  - rewrite IH. destruct (decide (t ∈ tickets q)).
    + rewrite decide_True by by right. done.
    + rewrite decide_False; [done|]. rewrite not_elem_of_cons. split; [congruence|done].
Qed.

Lemma cancel_remaining_ok W held k i : inner_ok W held k i → inner_ok W held k (cancel_remaining i).
Proof.
  intros [Hp _]. unfold cancel_remaining. destruct (cancel_all_frame (controls i) i) as (H1 & H2 & H3 & H4 & H5 & _).
  assert (pre_ok W held k (cancel_all (controls i) i)) as Hj by (by eapply pre_ok_frame).
  set (j := cancel_all (controls i) i) in *. clearbody j. clear Hp H1 H2 H3 H4 H5 i.
  destruct Hj as [Hw [Hs Ha Ho Hb Hm] Hc]. split; [split|]; cbn; try done.
  - split; cbn; [constructor|constructor| |done|done]. intros t w Hwt. rewrite drop_senders.
    destruct (decide (t ∈ tickets (queue j))) as [Hin|Hin].
    + destruct (channels j !! t) as [[]|]; done.
    + intros Hopen. by destruct (Hin (Ho t w Hwt Hopen)).
  - unfold counted in *. rewrite Hc. f_equal. apply sent_same; [apply Hw|]. intros t w Hwt.
    rewrite drop_senders. destruct (decide _); [|done]. by destruct (channels j !! t) as [[]|].
Qed.

Lemma drop_receiver_ok W held k i t g :
  inner_ok W held k i → W !! t = Some (g, false) →
  inner_ok (<[t := (g, true)]> W) held k
    (set_queue (queue i) (queued_bytes i) (alter close_receiver t (channels i)) i).
Proof.
  intros [[[Hk Hin Hb] [Hs Ha Ho Hby Hm] Hc] Hwork] Hwt.
  assert (keyed (<[t := (g, true)]> W)) as Hk'.
  { intros t' w [[<- <-]|[_ Hw]]%lookup_insert_Some; [by apply (Hk t (g, false))|by apply Hk]. }
  split; [split|]; cbn; try done.
  - split; [done|..]; intros t' w [[<- <-]|[_ Hw]]%lookup_insert_Some; eauto.
    by apply (Hin t (g, false)).
  - split; cbn; try done.
    + apply Forall_forall. intros e He. rewrite Forall_forall in Ha. destruct (Ha e He) as (g' & d & Hw & Hch).
      unfold awaited. rewrite lookup_insert, lookup_alter. destruct (decide (t = qe_ticket e)) as [->|].
      * rewrite Hw in Hwt. injection Hwt as -> ->. exists g, true. by rewrite Hch.
      * by exists g', d.
    + intros t' w Hw. rewrite lookup_alter. destruct (decide (t = t')) as [->|Hne].
      * by destruct (channels i !! t') as [[]|].
      * rewrite lookup_insert_ne in Hw by done. by apply (Ho t' w).
  - unfold counted in *. cbn. rewrite Hc. f_equal. unfold sent.
    pose proof (map_sum_insert_Some (is_sent (alter close_receiver t (channels i))) W t (g, true) (g, false) Hwt) as Hi.
    assert (is_sent (alter close_receiver t (channels i)) (g, true)
      = is_sent (alter close_receiver t (channels i)) (g, false)) as Heq by done.
    rewrite Heq in Hi. fold (sent (channels i) W). rewrite (sent_same _ (alter close_receiver t (channels i))); [unfold sent; lia|done|].
    intros t' w _. rewrite lookup_alter. destruct (decide (t = t')) as [<-|]; [|done].
    by destruct (channels i !! t) as [[]|].
Qed.

(** The event gives back no place but its own. *)
Definition clean (ev : Event) (s : System) : Prop :=
  match ev with
  | DropWaiter t _ => accounted t (sy_inner s)
  | _ => True
  end.

Definition preserved (k : N) (careful : Prop) (s' : System) : Prop :=
  ∃ k', system_ok k' s' ∧ (careful → k = 0 → k' = 0)%N.

Lemma preserved_same k careful s' : system_ok k s' → preserved k careful s'.
Proof. by exists k. Qed.

Lemma on_inner_ok k s h :
  system_ok k s → inner_ok (sy_waiting s) (N.of_nat (length (sy_held s))) k (h (sy_inner s)) →
  (queue_bytes (config (h (sy_inner s))) ≤ usize_max)%N → system_ok k (on_inner h s).
Proof. intros [_ Hh _] Hi Hc. by split. Qed.

Lemma reserve_config r ctl bytes i :
  config (reserve_enter r ctl bytes i).2 = config i
  ∧ ∀ g, (reserve_enter r ctl bytes i).1 = Ok g → ag_active g = bool_decide (ag_ticket g = None).
Proof.
  unfold reserve_enter. case_bool_decide; [done|]. destruct (shutting_down i); [done|].
  destruct (_ <? bytes)%N; [done|]. destruct (_ && _); [split; [done|]; by intros g [= <-]|].
  destruct (_ || _); [done|]. destruct (checked_add _ _); [|done]. split; [done|]. by intros g [= <-].
Qed.

Lemma try_config r ctl i :
  config (try_admit r ctl i).2 = config i
  ∧ ∀ g, (try_admit r ctl i).1 = Ok g → ag_active g = bool_decide (ag_ticket g = None).
Proof.
  unfold try_admit. case_bool_decide; [done|]. destruct (shutting_down i); [done|].
  destruct (_ || _); [done|]. split; [done|]. by intros g [= <-].
Qed.

(** A granted request that goes on holds the place it was granted. *)
Lemma take_grant W held k i t g :
  inner_ok W held k i → W !! t = Some (g, false) → channels i !! t = Some Sent →
  inner_ok (delete t W) (held + 1) k i.
Proof.
  intros [Hp Hwork] Hwt Hs. split; [|done]. rewrite <- (set_active_id i). eapply forget_ok; eauto.
  - intros (e & -> & He)%list_elem_of_fmap. pose proof (qo_awaited _ _ _ _ (po_queue _ _ _ _ Hp)) as Ha.
    rewrite Forall_forall in Ha. destruct (Ha e He) as (? & d' & _ & Hc). destruct d'; congruence.
  - pose proof (po_count _ _ _ _ Hp) as Hc. pose proof (po_waiters _ _ _ _ Hp) as [Hk _ _].
    unfold counted in *. rewrite (sent_delete _ W t (g, false)) in Hc by done.
    rewrite decide_True in Hc by done. lia.
Qed.

Lemma ready_step k s t g :
  system_ok k s → sy_waiting s !! t = Some (g, false) → channels (sy_inner s) !! t = Some Sent →
  preserved k True (leave t (wake_ready g (sy_inner s)) s).
Proof.
  intros [Hi Hh Hc] Hw Hs. unfold wake_ready. destruct (check_control _ _).
  - apply preserved_same. split; cbn [leave sy_inner sy_waiting sy_held length fst snd]; [|by constructor|done].
    rewrite Nat2N.inj_succ, <- N.add_1_r. by eapply take_grant.
  - destruct (release_waiting _ _ k (sy_inner s) t g false (io_pre _ _ _ _ Hi) Hw) as (k' & Hk' & Hz).
    exists k'. split; [|by intros _; apply Hz; right]. split; cbn; [done|done|].
    unfold drop_guard. by rewrite (proj1 (release_config _ _ _ _)).
Qed.

Lemma closed_step k s t g :
  system_ok k s → sy_waiting s !! t = Some (g, false) → channels (sy_inner s) !! t = Some SenderGone →
  system_ok k (leave t (wake_closed g (sy_inner s)) s).
Proof.
  intros [Hi Hh Hc] Hw Hs. unfold wake_closed. split; cbn [leave sy_inner sy_waiting sy_held fst snd].
  - replace (match _ with Ok g => g :: sy_held s | Err _ => sy_held s end) with (sy_held s)
      by (by destruct (check_control _ _)).
    by eapply release_closed; [apply Hi|..].
  - by destruct (check_control _ _).
  - unfold drop_guard. by rewrite (proj1 (release_config _ _ _ _)).
Qed.

Lemma drop_waiter_step k s t g timed_out :
  system_ok k s → sy_waiting s !! t = Some (g, true) →
  preserved k (accounted t (sy_inner s))
    (leave t (if timed_out : bool then wake_timeout g (sy_inner s)
              else (Err ServerError.Cancelled, drop_guard g (sy_inner s))) s).
Proof.
  intros [Hi Hh Hc] Hw. set (i := if timed_out then on_control Control.expire (ag_control g) (sy_inner s)
    else sy_inner s).
  assert (pre_ok (sy_waiting s) (N.of_nat (length (sy_held s))) k i) as Hp.
  { destruct timed_out; [|apply Hi]. eapply pre_ok_frame; [apply Hi|done..]. }
  destruct (release_waiting _ _ k i t g true Hp Hw) as (k' & Hk' & Hz). exists k'. split.
  - split; [destruct timed_out; exact Hk'|by destruct timed_out|].
    assert (config (drop_guard g i) = config (sy_inner s)) as Hconf.
    { unfold drop_guard. rewrite (proj1 (release_config _ _ _ _)). by destruct timed_out. }
    destruct timed_out; cbn; change (drop_guard g _) with (drop_guard g i); by rewrite Hconf.
  - intros Ha. apply Hz. unfold accounted in *. by destruct timed_out.
Qed.

Lemma length_delete_Some {A} (l : list A) n x : l !! n = Some x → length l = S (length (delete n l)).
Proof. intros Hn. rewrite (list.delete_Permutation _ _ _ Hn) at 1. done. Qed.

Lemma finish_step k s n g :
  system_ok k s → sy_held s !! n = Some g →
  preserved k True (mkSystem (drop_guard g (sy_inner s)) (sy_waiting s) (delete n (sy_held s))).
Proof.
  intros [Hi Hh Hc] Hn.
  assert (ag_ticket g = None ∧ ag_active g = true) as [Ht Ha] by (by eapply Forall_lookup_1 in Hh).
  pose proof (io_pre _ _ _ _ Hi) as Hp. rewrite (length_delete_Some _ _ _ Hn) in Hp.
  rewrite Nat2N.inj_succ, <- N.add_1_r in Hp. unfold drop_guard. rewrite Ht, Ha.
  destruct (release_held _ _ _ _ (ag_request_id g) Hp) as (k' & Hk' & Hz).
  exists k'. split; [|by intros _; apply Hz]. split; cbn; [done| |by rewrite (proj1 (release_config _ _ _ _))].
  by apply Forall_delete.
Qed.

Lemma cancel_ok W held k i r :
  inner_ok W held k i → inner_ok W held k (cancel r i) ∧ config (cancel r i) = config i
  ∧ admission_limit (cancel r i) = admission_limit i.
Proof.
  intros [Hp _]. unfold cancel. set (j := match controls i !! r with Some _ => _ | None => _ end).
  assert (pre_ok W held k j ∧ config j = config i ∧ admission_limit j = admission_limit i) as (Hj & <- & <-).
  { unfold j. destruct (controls i !! r); (split; [by eapply pre_ok_frame|done]). }
  clearbody j. rewrite (proj1 (promote_config _)), (proj2 (promote_config _)).
  destruct (unqueue _ j) as [j'|] eqn:Hu; cbn.
  - destruct (unqueue_ok _ _ _ _ _ _ Hj Hu) as [Hj' _]. split; [by apply promote_queued_ok|].
    unfold unqueue in Hu. destruct (remove_first _ _) as [[]|]; [|done]. by injection Hu as <-.
  - split; [by apply promote_queued_ok|done].
Qed.

Lemma admission_step_ok k s ev s' :
  system_ok k s → step ev s = Some s' → preserved k (clean ev s) s'.
Proof.
  intros Hs Hstep. pose proof (so_inner _ _ Hs) as Hi. pose proof (so_config _ _ Hs) as Hc.
  destruct ev; cbn [step clean] in *.
  - injection Hstep as <-. apply preserved_same. apply enter_ok; [done| |apply reserve_config..].
    by apply reserve_enter_ok.
  - injection Hstep as <-. apply preserved_same. apply enter_ok; [done| |apply try_config..].
    by apply try_admit_ok.
  - destruct (sy_waiting s !! ticket) as [[g []]|] eqn:Hw; try done.
    destruct (channels (sy_inner s) !! ticket) as [[]|] eqn:Hch; try done. injection Hstep as <-.
    by apply ready_step.
  - destruct (sy_waiting s !! ticket) as [[g []]|] eqn:Hw; try done.
    destruct (channels (sy_inner s) !! ticket) as [[]|] eqn:Hch; try done. injection Hstep as <-.
    apply preserved_same. by apply closed_step.
  - destruct (sy_waiting s !! ticket) as [[g []]|] eqn:Hw; try done. injection Hstep as <-.
    apply preserved_same. split; cbn; [by apply drop_receiver_ok|apply Hs|done].
  - destruct (sy_waiting s !! ticket) as [[g []]|] eqn:Hw; try done. injection Hstep as <-.
    by apply drop_waiter_step.
  - destruct (sy_held s !! index) as [g|] eqn:Hn; [|done]. injection Hstep as <-. by apply finish_step.
  - injection Hstep as <-. apply preserved_same.
    destruct (cancel_ok _ _ _ _ request_id Hi) as (? & Hcc & _). apply on_inner_ok; [done..|by rewrite Hcc].
  - injection Hstep as <-. apply preserved_same. apply on_inner_ok; [done| |].
    + apply promote_queued_ok. eapply pre_ok_frame; [apply Hi|done..].
    + unfold set_admission_limit. by rewrite (proj1 (promote_config _)).
  - destruct (_ || _) eqn:Hv; [done|]. apply orb_false_iff in Hv as [_ Hv%N.ltb_ge].
    injection Hstep as <-. apply preserved_same. apply on_inner_ok; [done| |].
    + apply promote_queued_ok. eapply pre_ok_frame; [apply Hi|done..].
    + unfold configure_inner. by rewrite (proj1 (promote_config _)).
  - injection Hstep as <-. apply preserved_same. apply on_inner_ok; [done|by eapply inner_ok_frame|done].
  - injection Hstep as <-. apply preserved_same. apply on_inner_ok; [done|by apply cancel_remaining_ok|].
    cbn. by rewrite (proj2 (proj2 (proj2 (proj2 (proj2 (proj2 (cancel_all_frame _ _))))))).
  - injection Hstep as <-. apply preserved_same. apply on_inner_ok; [done|by eapply inner_ok_frame|done].
Qed.

Lemma start_ok c : (queue_bytes c ≤ usize_max)%N → system_ok 0 (start c).
Proof.
  intros Hc. split; cbn; [|constructor|done].
  split; [split|]; cbn; [by split|split; cbn; try constructor; done|done|done].
Qed.

(** Runs, and runs in which no wait is dropped that was neither queued nor granted. *)
Fixpoint all_clean (evs : list Event) (s : System) : Prop :=
  match evs with
  | [] => True
  | ev :: evs' => clean ev s ∧ ∀ s', step ev s = Some s' → all_clean evs' s'
  end.

Lemma steps_ok evs k s s' :
  system_ok k s → steps evs s = Some s' → preserved k (all_clean evs s) s'.
Proof.
  revert k s. induction evs as [|ev evs IH]; intros k s Hs Hsteps; cbn in Hsteps.
  { injection Hsteps as <-. by apply preserved_same. }
  destruct (step ev s) as [s1|] eqn:Hstep; [|done].
  destruct (admission_step_ok k s ev s1 Hs Hstep) as (k1 & Hs1 & Hz1).
  destruct (IH k1 s1 Hs1 Hsteps) as (k2 & Hs2 & Hz2). exists k2. split; [done|].
  intros [Hc Hall] Hk. apply Hz2; [by apply Hall|by apply Hz1].
Qed.

(** ** The limit *)

Definition capped (i i' : Inner) : Prop :=
  admission_limit i' = admission_limit i
  ∧ ((active i ≤ admission_limit i)%N → (active i' ≤ admission_limit i)%N).

Lemma capped_refl i : capped i i.
Proof. done. Qed.

Lemma capped_trans i i' i'' : capped i i' → capped i' i'' → capped i i''.
Proof. intros [H1 H2] [H3 H4]. rewrite H1 in *. split; [done|]. auto. Qed.

Lemma promote_loop_capped limit q active bytes chans :
  (active ≤ limit)%N → ((promote_loop limit q active bytes chans).1.1.2 ≤ limit)%N.
Proof.
  revert active bytes chans. induction q as [|e q IH]; intros active bytes chans Ha; cbn; [done|].
  destruct (N.ltb_spec active limit); [|done]. unfold send.
  destruct (chans !! qe_ticket e) as [[]|]; apply IH; lia.
Qed.

Lemma promote_capped i : capped i (promote_queued i).
Proof.
  unfold promote_queued. pose proof (promote_loop_capped (admission_limit i) (queue i) (active i)
    (queued_bytes i) (channels i)) as Hp.
  destruct (promote_loop _ _ _ _ _) as [[[q n] bytes] chans]. by split.
Qed.

Lemma unqueue_capped p i : capped i (default i (unqueue p i)).
Proof. unfold unqueue. by destruct (remove_first p (queue i)) as [[]|]. Qed.

Lemma release_capped t r b i : capped i (release_or_cancel_admission t r b i).
Proof.
  unfold release_or_cancel_admission. fold (settle r i).
  assert (capped i (settle r i)) as Hs.
  { destruct r as [id|]; [|done]. cbn. by destruct (controls i !! id). }
  eapply capped_trans; [exact Hs|]. set (j := settle r i). clearbody j.
  eapply capped_trans; [|apply promote_capped]. destruct b.
  - split; [done|]. cbn. unfold saturating_sub. lia.
  - destruct t as [t|]; [|done]. pose proof (unqueue_capped (λ e, (qe_ticket e =? t)%N) j) as Hu.
    destruct (unqueue _ j); [done|]. split; [done|]. cbn. unfold saturating_sub. lia.
Qed.

Lemma reserve_capped r ctl bytes i : capped i (reserve_enter r ctl bytes i).2.
Proof.
  unfold reserve_enter. case_bool_decide; [done|]. destruct (shutting_down i); [done|].
  destruct (_ <? bytes)%N; [done|]. destruct (_ && _) eqn:Ha.
  { apply andb_true_iff in Ha as [Ha%N.ltb_lt _]. split; [done|]. cbn in *. lia. }
  destruct (_ || _); [done|]. by destruct (checked_add _ _).
Qed.

Lemma try_capped r ctl i : capped i (try_admit r ctl i).2.
Proof.
  unfold try_admit. case_bool_decide; [done|]. destruct (shutting_down i); [done|].
  destruct (_ || _) eqn:Ha; [done|]. apply orb_false_iff in Ha as [Ha%N.leb_gt _].
  split; [done|]. cbn in *. lia.
Qed.

Lemma cancel_capped r i : capped i (cancel r i).
Proof.
  unfold cancel. eapply capped_trans; [|apply promote_capped].
  eapply capped_trans; [|apply unqueue_capped]. by destruct (controls i !! r).
Qed.

Definition fixed_limit (ev : Event) : bool :=
  match ev with SetLimit _ | Configure _ => false | _ => true end.

Lemma enter_inner out s : sy_inner (enter out s) = out.2.
Proof. destruct out as [[g|e] i]; cbn; [by destruct (ag_ticket g)|done]. Qed.

Lemma wake_capped g i :
  capped i (wake_ready g i).2 ∧ capped i (wake_closed g i).2 ∧ capped i (wake_timeout g i).2.
Proof.
  unfold wake_ready, wake_closed, wake_timeout, drop_guard.
  split; [destruct (check_control _ _); [done|apply release_capped]|].
  split; [apply release_capped|]. cbn [snd]. eapply capped_trans; [|apply release_capped]. done.
Qed.

Lemma step_capped ev s s' :
  fixed_limit ev = true → step ev s = Some s' → capped (sy_inner s) (sy_inner s').
Proof.
  intros Hev Hstep. destruct ev; try done; cbn [step] in Hstep;
    repeat match goal with
    | H : match ?x with _ => _ end = Some _ |- _ => destruct x; try done
    end; injection Hstep as <-; rewrite ?enter_inner; cbn [sy_inner leave on_inner].
  - apply reserve_capped.
  - apply try_capped.
  - apply wake_capped.
  - apply wake_capped.
  - done.
  - destruct timed_out; [apply wake_capped|apply release_capped].
  - apply release_capped.
  - apply cancel_capped.
  - done.
  - destruct (cancel_all_frame (controls (sy_inner s)) (sy_inner s)) as (_ & _ & _ & _ & Ha & Hl & _).
    split; cbn; [done|]. by rewrite Ha.
  - done.
Qed.

Lemma steps_capped evs s s' :
  Forall (λ ev, fixed_limit ev = true) evs → steps evs s = Some s' → capped (sy_inner s) (sy_inner s').
Proof.
  revert s. induction evs as [|ev evs IH]; intros s Hf Hs; cbn in Hs; [by injection Hs as <-|].
  inversion Hf; subst. destruct (step ev s) as [s1|] eqn:Hstep; [|done].
  eapply capped_trans; [by eapply step_capped|by apply IH].
Qed.

(** ** Properties *)

(** Whatever the interleaving of reservations, releases, cancellations,
    timeouts, reconfigurations and shutdown: tickets are served in the order they
    were taken, the queue's byte count is the sum of its entries, every queued
    entry has its waiter, nobody waits while the count is under the limit, and the
    count never exceeds the places granted, so no place is lost. *)
Theorem admission_invariant c evs s :
  (queue_bytes c ≤ usize_max)%N → steps evs (start c) = Some s →
  let i := sy_inner s in
  StronglySorted N.lt (qe_ticket <$> queue i)
  ∧ queued_bytes i = list_sum qe_bytes (queue i)
  ∧ Forall (λ e, awaited (sy_waiting s) (channels i) (qe_ticket e)) (queue i)
  ∧ ((active i < admission_limit i)%N → queue i = [])
  ∧ (active i ≤ granted s)%N.
Proof.
  intros Hc Hs. destruct (steps_ok evs 0 _ s (start_ok c Hc) Hs) as (k & [[[_ Hq Hcount] Hw] _ _] & _).
  destruct Hq. unfold counted, granted in *. repeat split; try done. lia.
Qed.

(** C34: As long as no wait is dropped whose ticket was neither queued nor granted,
    the count is exactly the number of places granted, and with an unchanged limit
    no more than that many requests run. *)
Theorem admission_exact c evs s :
  (queue_bytes c ≤ usize_max)%N → steps evs (start c) = Some s → all_clean evs (start c) →
  active (sy_inner s) = granted s
  ∧ (Forall (λ ev, fixed_limit ev = true) evs → (granted s ≤ active_requests c)%N).
Proof.
  intros Hc Hs Hcl. destruct (steps_ok evs 0 _ s (start_ok c Hc) Hs) as (k & [[[_ _ Hcount] _] _ _] & Hz).
  rewrite (Hz Hcl eq_refl) in Hcount. unfold counted, granted in *. split; [lia|]. intros Hf.
  destruct (steps_capped evs _ s Hf Hs) as [_ Hcap]. cbn in Hcap. specialize (Hcap ltac:(lia)). lia.
Qed.

Module AdmissionDemo.

Definition queueing : list Event :=
  [TryAdmit "a" 0; Reserve "b" 1 10; Reserve "c" 2 5; Finish 0; Ready 0].

(** A queued request is cancelled by its identifier, and its client goes away
    before the cancellation wakes it. *)
Definition cancelled_and_gone : list Event :=
  [TryAdmit "a" 0; Reserve "b" 1 10; Cancel "b"; DropReceiver 0; DropWaiter 0 false; Reserve "c" 2 10].

Definition final (evs : list Event) : System := default (start default_config) (steps evs (start default_config)).

Definition runs (evs : list Event) : bool :=
  match steps evs (start default_config) with Some _ => true | None => false end.

Lemma runs_final evs : runs evs = true → steps evs (start default_config) = Some (final evs).
Proof. unfold runs, final. by destruct (steps evs (start default_config)). Qed.

Lemma config_small : (queue_bytes default_config ≤ usize_max)%N.
Proof. vm_compute. discriminate. Qed.
End AdmissionDemo.
Import AdmissionDemo.

Lemma admission_invariant_witness :
  steps queueing (start default_config) = Some (final queueing)
  ∧ (active (sy_inner (final queueing)) ≤ granted (final queueing))%N.
Proof.
  assert (steps queueing (start default_config) = Some (final queueing)) as H
    by (apply runs_final; vm_compute; reflexivity).
  split; [exact H|].
  exact (proj2 (proj2 (proj2 (proj2 (admission_invariant _ _ _ config_small H))))).
Defined.

Lemma admission_exact_witness :
  steps queueing (start default_config) = Some (final queueing)
  ∧ active (sy_inner (final queueing)) = granted (final queueing).
Proof.
  assert (steps queueing (start default_config) = Some (final queueing)) as H
    by (apply runs_final; vm_compute; reflexivity).
  split; [exact H|]. refine (proj1 (admission_exact _ _ _ config_small H _)).
  repeat (split; [exact I|]; intros ? _). exact I.
Defined.

(** The count can fall short: when a queued request was cancelled by its
    identifier and its client goes away before it is woken, the guard finds no
    queue entry, takes the ticket for a granted one and gives back the place of
    another request; with a limit of one, two requests then run. *)
Theorem admission_over_grants :
  ∃ s, steps cancelled_and_gone (start default_config) = Some s
    ∧ Forall (λ ev, fixed_limit ev = true) cancelled_and_gone
    ∧ admission_limit (sy_inner s) = 1%N ∧ granted s = 2%N.
Proof.
  exists (final cancelled_and_gone). split; [apply runs_final; vm_compute; reflexivity|]. split; [by repeat constructor|].
  split; vm_compute; reflexivity.
Qed.
