(* ===== verification/Lifecycle.v ===== *)
(** The model lifecycle of [crates/server/src/lifecycle.rs]: registration with
    epochs, aliases, removal, and loading what the catalogue recorded.

    The engine and the catalogue are interfaces: [ModelEngine] is the part of the
    trait [InferenceEngine] that the lifecycle calls, [Catalog] the operations on
    the SQLite table. The file system, the digest of a model file and the [publish]
    callback, which may write to the catalogue, are parameters. Every operation holds
    the operation lock, so it is one function; a map is visited in an order the code
    leaves open, which [model] takes as an argument. *)

From stdpp Require Import gmap strings list numbers.
From Stdlib Require Import Lia.
From S2P Require Import Prelude Engine.

(** ** Data *)

Record ModelRecord : Type := mkModel {
  mr_id : string;
  mr_revision : string;
  mr_path : string;
  mr_sha256 : string;
  mr_aliases : list string;
  mr_family : string;
  mr_size_bytes : N;
  mr_epoch : N;
}.

#[export] Instance ModelRecord_eq_dec : EqDecision ModelRecord.
Proof. solve_decision. Defined.

Definition default_model_family : string := "gemma4".

Definition with_aliases (a : list string) (m : ModelRecord) : ModelRecord :=
  mkModel (mr_id m) (mr_revision m) (mr_path m) (mr_sha256 m) a (mr_family m) (mr_size_bytes m) (mr_epoch m).

Definition with_family (f : string) (m : ModelRecord) : ModelRecord :=
  mkModel (mr_id m) (mr_revision m) (mr_path m) (mr_sha256 m) (mr_aliases m) f (mr_size_bytes m) (mr_epoch m).

Definition with_size (n : N) (m : ModelRecord) : ModelRecord :=
  mkModel (mr_id m) (mr_revision m) (mr_path m) (mr_sha256 m) (mr_aliases m) (mr_family m) n (mr_epoch m).

Definition with_epoch (n : N) (m : ModelRecord) : ModelRecord :=
  mkModel (mr_id m) (mr_revision m) (mr_path m) (mr_sha256 m) (mr_aliases m) (mr_family m) (mr_size_bytes m) n.

(** ** Interfaces *)

Class ModelEngine (E : Type) : Type := {
  prepare_model : ModelRecord → E → result ServerError.Error unit * E;
  commit_model : ModelRecord → option N → E → E;
  retire_model : string → N → E → E;
}.

(** The catalogue: rows by identifier. A refused publication changes nothing. *)
Class Catalog (C : Type) : Type := {
  cat_rows : C → gmap string ModelRecord;
  cat_publish : ModelRecord → C → result string unit * C;
  cat_remove : string → C → result string bool * C;
}.

Class CatalogLaws (C : Type) `{!Catalog C} : Prop := {
  publish_ok m c c' : cat_publish m c = (Ok tt, c') → cat_rows c' = <[mr_id m := m]> (cat_rows c);
  publish_err m c e c' : cat_publish m c = (Err e, c') → cat_rows c' = cat_rows c;
  remove_ok id c b c' : cat_remove id c = (Ok b, c') → cat_rows c' = delete id (cat_rows c);
  remove_err id c e c' : cat_remove id c = (Err e, c') → cat_rows c' = cat_rows c;
}.

(** ** Aliases *)

(** [dedup()]: of equal neighbours the first. *)
Fixpoint dedup (l : list string) : list string :=
  match l with
  | [] => []
  | a :: l' =>
      match l' with
      | b :: _ => if bool_decide (a = b) then dedup l' else a :: dedup l'
      | [] => [a]
      end
  end.

Definition normalize (l : list string) : list string := dedup (sort_strings l).

(** ** The service *)

Section lifecycle.
Context {E C : Type} `{!ModelEngine E, !Catalog C}.
(** [fs::metadata(path).len()], and the hexadecimal digest of the file. *)
Variable file_len : string → result string N.
Variable file_sha256 : string → result string string.

Record Lifecycle : Type := mkLifecycle {
  lc_models : gmap string ModelRecord;
  lc_next_epoch : N;
  lc_engine : E;
  lc_catalog : option C;
}.

Abbreviation L := (M Lifecycle ServerError.Error).

Definition new (engine : E) : Lifecycle := mkLifecycle ∅ 1 engine None.

Definition attach_catalog (catalog : C) (s : Lifecycle) : Lifecycle :=
  mkLifecycle (lc_models s) (lc_next_epoch s) (lc_engine s) (Some catalog).

Definition state_err {A} (r : result string A) : L A :=
  match r with Ok a => mret a | Err e => throw (ServerError.State e) end.

(** *** Calls of the engine and the catalogue *)

Definition prepare (m : ModelRecord) : L unit := λ s,
  let '(r, e) := prepare_model m (lc_engine s) in
  lift_result r (mkLifecycle (lc_models s) (lc_next_epoch s) e (lc_catalog s)).

Definition on_engine (h : E → E) : L unit :=
  modify (λ s, mkLifecycle (lc_models s) (lc_next_epoch s) (h (lc_engine s)) (lc_catalog s)).

Definition catalog_publish (m : ModelRecord) : L unit := λ s,
  match lc_catalog s with
  | None => Done tt s
  | Some c =>
      let '(r, c') := cat_publish m c in
      state_err r (mkLifecycle (lc_models s) (lc_next_epoch s) (lc_engine s) (Some c'))
  end.

Definition catalog_remove (id : string) : L unit := λ s,
  match lc_catalog s with
  | None => Done tt s
  | Some c =>
      let '(r, c') := cat_remove id c in
      (_ ← state_err r; mret tt) (mkLifecycle (lc_models s) (lc_next_epoch s) (lc_engine s) (Some c'))
  end.

(** *** Looking up *)

Definition models (s : Lifecycle) : list ModelRecord := map_values (lc_models s).

(** [order] is the order in which the map is visited. *)
Definition model (order : list ModelRecord) (id : string) (s : Lifecycle)
  : result ServerError.Error ModelRecord :=
  match lc_models s !! id with
  | Some m => Ok m
  | None =>
      match List.find (λ m, existsb (λ a, bool_decide (a = id)) (mr_aliases m)) order with
      | Some m => Ok m
      | None => Err (ServerError.ModelNotFound id)
      end
  end.

(** *** Registration *)

(** The aliases of the new model are taken from every other. *)
Definition take_aliases (aliases : list string) (m : ModelRecord) : ModelRecord :=
  with_aliases (filter (λ a, a ∉ aliases) (mr_aliases m)) m.

Definition install (m : ModelRecord) (models : gmap string ModelRecord) : gmap string ModelRecord :=
  <[mr_id m := m]> (take_aliases (mr_aliases m) <$> models).

Definition unchanged (existing m : ModelRecord) : bool :=
  bool_decide (mr_revision existing = mr_revision m)
  && bool_decide (mr_path existing = mr_path m)
  && bool_decide (mr_sha256 existing = mr_sha256 m)
  && bool_decide (mr_family existing = mr_family m)
  && (mr_size_bytes existing =? mr_size_bytes m)%N.

Definition completed_record (m : ModelRecord) : L ModelRecord :=
  let m := with_aliases (normalize (mr_aliases m)) m in
  let m := if bool_decide (mr_family m = "") then with_family default_model_family m else m in
  if (mr_size_bytes m =? 0)%N then
    len ← state_err (file_len (mr_path m));
    mret (with_size len m)
  else mret m.

(** What the caller does with the catalogue before the record is installed. *)
Definition Publication : Type := ModelRecord → option C → result ServerError.Error unit * option C.

Definition on_catalog {A} (h : option C → A * option C) : L A := λ s,
  let '(a, c) := h (lc_catalog s) in Done a (mkLifecycle (lc_models s) (lc_next_epoch s) (lc_engine s) c).

Definition register (m : ModelRecord) (publish : Publication) : L ModelRecord :=
  m ← completed_record m;
  s ← get;
  match existing ← lc_models s !! mr_id m; if unchanged existing m then Some existing else None with
  | Some existing =>
      _ ← prepare existing;
      mret existing
  | None =>
      let epoch := lc_next_epoch s in
      let previous_epoch := mr_epoch <$> lc_models s !! mr_id m in
      let m := with_epoch epoch m in
      _ ← prepare m;
      published ← on_catalog (publish m);
      match published with
      | Err e => _ ← on_engine (retire_model (mr_id m) (mr_epoch m)); throw e
      | Ok _ =>
          _ ← modify (λ s, mkLifecycle (install m (lc_models s)) (lc_next_epoch s) (lc_engine s) (lc_catalog s));
          next ← ok_or (checked_add epoch 1) (ServerError.State "model epoch space exhausted");
          _ ← modify (λ s, mkLifecycle (lc_models s) next (lc_engine s) (lc_catalog s));
          _ ← on_engine (commit_model m previous_epoch);
          mret m
      end
  end.

Definition register_from_catalog (m : ModelRecord) : L ModelRecord :=
  _ ← guard_not (mr_epoch m =? 0)%N (ServerError.State "catalog model epoch must be nonzero");
  _ ← prepare m;
  s ← get;
  let previous_epoch := mr_epoch <$> lc_models s !! mr_id m in
  _ ← modify (λ s, mkLifecycle (install m (lc_models s))
        (N.max (lc_next_epoch s) (saturating_add (mr_epoch m) 1)) (lc_engine s) (lc_catalog s));
  _ ← on_engine (commit_model m previous_epoch);
  mret m.

(** *** Aliases and removal *)

Definition alias (id : string) (a : string) : L ModelRecord :=
  s ← get;
  match lc_models s !! id with
  | None => throw (ServerError.ModelNotFound id)
  | Some _ =>
      let candidate := take_aliases [a] <$> lc_models s in
      m ← expect (candidate !! id);
      let m := with_aliases (normalize (mr_aliases m ++ [a])) m in
      _ ← catalog_publish m;
      _ ← modify (λ s, mkLifecycle (<[id := m]> candidate) (lc_next_epoch s) (lc_engine s) (lc_catalog s));
      mret m
  end.

Definition remove (id : string) : L unit :=
  s ← get;
  match lc_models s !! id with
  | None => throw (ServerError.ModelNotFound id)
  | Some m =>
      _ ← catalog_remove id;
      _ ← modify (λ s, mkLifecycle (delete id (lc_models s)) (lc_next_epoch s) (lc_engine s) (lc_catalog s));
      on_engine (retire_model (mr_id m) (mr_epoch m))
  end.

Definition verify (order : list ModelRecord) (id : string) : L bool :=
  s ← get;
  m ← lift_result (model order id s);
  digest ← state_err (file_sha256 (mr_path m));
  mret (bool_decide (digest = mr_sha256 m)).
End lifecycle.

Arguments Lifecycle : clear implicits.
