(* ===== verification/LifecycleLaws.v ===== *)
(** What the model lifecycle keeps true, and what registration promises. *)

From stdpp Require Import gmap strings list numbers.
From Stdlib Require Import Lia.
From S2P Require Import Prelude Engine Lifecycle.

(** ** Aliases *)

Lemma dedup_elem l a : a ∈ dedup l ↔ a ∈ l.
Proof.
  induction l as [|b l IH]; [done|]. destruct l as [|c l]; [done|].
  change (dedup (b :: c :: l)) with (if bool_decide (b = c) then dedup (c :: l) else b :: dedup (c :: l)).
  case_bool_decide as Hbc.
  - rewrite IH. subst. set_solver.
  - rewrite !(elem_of_cons _ a b), IH. done.
Qed.

Lemma normalize_elem l a : a ∈ normalize l ↔ a ∈ l.
Proof. unfold normalize. by rewrite dedup_elem, sort_strings_perm. Qed.

(** ** Well-formed tables *)

(** Records are filed under their identifier, and no alias names two models. *)
Record table_ok (models : gmap string ModelRecord) : Prop := {
  to_filed : ∀ id m, models !! id = Some m → mr_id m = id;
  to_alias : ∀ id1 id2 m1 m2 a, models !! id1 = Some m1 → models !! id2 = Some m2 →
    a ∈ mr_aliases m1 → a ∈ mr_aliases m2 → id1 = id2;
}.

Lemma take_aliases_elem l m a : a ∈ mr_aliases (take_aliases l m) ↔ a ∈ mr_aliases m ∧ a ∉ l.
Proof. unfold take_aliases. cbn. rewrite list_elem_of_filter. tauto. Qed.

Lemma table_ok_taken l models : table_ok models → table_ok (take_aliases l <$> models).
Proof.
  intros [Hf Ha]. split.
  - intros id m. rewrite lookup_fmap. intros (m' & Hm & ->)%fmap_Some. by apply Hf in Hm.
  - intros id1 id2 m1 m2 a. rewrite !lookup_fmap.
    intros (m1' & H1 & ->)%fmap_Some (m2' & H2 & ->)%fmap_Some.
    rewrite !take_aliases_elem. intros [? _] [? _]. by eapply Ha.
Qed.

(** A record may join a table that gave up its aliases. *)
Lemma table_ok_insert models m (l : list string) :
  table_ok models → (∀ id m' a, id ≠ mr_id m → models !! id = Some m' → a ∈ mr_aliases m' → a ∉ l) →
  (∀ a, a ∈ mr_aliases m → a ∈ l ∨ ∃ m', models !! mr_id m = Some m' ∧ a ∈ mr_aliases m') →
  table_ok (<[mr_id m := m]> models).
Proof.
  intros [Hf Ha] Hfree Hm. split.
  - intros id m' [[<- <-]|[_ Hm']]%lookup_insert_Some; [done|by apply Hf].
  - assert (∀ id m' a, id ≠ mr_id m → models !! id = Some m' → a ∈ mr_aliases m' → a ∉ mr_aliases m) as Hdis.
    { intros id m' a Hne Hm' Hin Hin'. destruct (Hm a Hin') as [Hl|(m'' & Hm'' & Hin'')].
      - by apply (Hfree id m' a).
      - apply Hne. by eapply Ha. }
    intros id1 id2 m1 m2 a [[<- <-]|[Hne1 H1]]%lookup_insert_Some [[<- <-]|[Hne2 H2]]%lookup_insert_Some Hin1 Hin2.
    + done.
    + by destruct (Hdis id2 m2 a).
    + by destruct (Hdis id1 m1 a).
    + by eapply Ha.
Qed.

Lemma table_ok_install m models : table_ok models → table_ok (install m models).
Proof.
  intros Hok. unfold install. apply (table_ok_insert _ _ (mr_aliases m)).
  - by apply table_ok_taken.
  - intros id m' a _. rewrite lookup_fmap. intros (m'' & _ & ->)%fmap_Some. rewrite take_aliases_elem. tauto.
  - by left.
Qed.

Lemma table_ok_delete id models : table_ok models → table_ok (delete id models).
Proof.
  intros [Hf Ha]. split.
  - intros id' m [_ Hm]%lookup_delete_Some. by apply Hf.
  - intros id1 id2 m1 m2 a [_ H1]%lookup_delete_Some [_ H2]%lookup_delete_Some. by eapply Ha.
Qed.

Lemma table_ok_alias id a models m :
  table_ok models → (take_aliases [a] <$> models) !! id = Some m →
  table_ok (<[id := with_aliases (normalize (mr_aliases m ++ [a])) m]> (take_aliases [a] <$> models)).
Proof.
  intros Hok Hm. pose proof (table_ok_taken [a] _ Hok) as Hok'.
  pose proof (to_filed _ Hok' id m Hm) as <-.
  apply (table_ok_insert _ (with_aliases (normalize (mr_aliases m ++ [a])) m) [a]); [done| |].
  - intros id' m' b _. rewrite lookup_fmap. intros (m'' & _ & ->)%fmap_Some.
    rewrite take_aliases_elem. tauto.
  - cbn. intros b. rewrite normalize_elem, elem_of_app. intros [Hb|Hb]; [right|by left]. by exists m.
Qed.

(** ** The service *)

Section service.
Context {E C : Type} `{!ModelEngine E, !Catalog C}.
Variable file_len : string → result string N.
Implicit Types (s : Lifecycle E C).

(** Epochs below the next one, until the counter is exhausted. *)
Record lifecycle_ok s : Prop := {
  lo_table : table_ok (lc_models s);
  lo_epoch : ∀ id m, lc_models s !! id = Some m → (mr_epoch m < lc_next_epoch s)%N ∨ lc_next_epoch s = u64_max;
  lo_bound : (1 ≤ lc_next_epoch s ≤ u64_max)%N;
}.

(** Nothing but the engine or the catalogue changed. *)
Definition same_table s s' : Prop :=
  lc_models s' = lc_models s ∧ lc_next_epoch s' = lc_next_epoch s.

Lemma same_table_ok s s' : lifecycle_ok s → same_table s s' → lifecycle_ok s'.
Proof. intros [? ? ?] [Hm He]. by split; rewrite ?Hm, ?He. Qed.

Lemma wp_prepare m (Q : unit → _ → Prop) R s :
  (∀ s', same_table s s' → Q tt s' ∧ ∀ e, R e s') → wp (prepare m) Q R s.
Proof.
  intros H. unfold wp_gen, prepare. destruct (prepare_model m (lc_engine s)) as [[[]|e] eng]; cbn; by apply H.
Qed.

Lemma wp_on_engine h (Q : unit → _ → Prop) R s :
  (∀ s', same_table s s' → Q tt s') → wp (@on_engine E C h) Q R s.
Proof. intros H. unfold on_engine. rewrite wp_modify. by apply H. Qed.

Lemma wp_state_err {A} (r : result string A) (Q : A → _ → Prop) R s :
  wp (@state_err E C A r) Q R s
  = match r with Ok a => Q a s | Err e => R (ServerError.State e) s end.
Proof. by destruct r. Qed.

Lemma wp_catalog_publish m (Q : unit → _ → Prop) R s :
  (∀ s', same_table s s' → Q tt s' ∧ ∀ e, R e s') → wp (catalog_publish m) Q R s.
Proof.
  intros H. unfold wp_gen, catalog_publish. destruct (lc_catalog s) as [c|]; [|by apply H].
  destruct (cat_publish m c) as [[[]|e] c']; cbn; by apply H.
Qed.

Lemma wp_on_catalog {A} (h : option C → A * option C) (Q : A → _ → Prop) R s :
  (∀ a s', same_table s s' → Q a s') → wp (on_catalog h) Q R s.
Proof. intros H. unfold wp_gen, on_catalog. destruct (h (lc_catalog s)) as [a c]. by apply H. Qed.

Lemma wp_catalog_remove id (Q : unit → _ → Prop) R s :
  (∀ s', same_table s s' → Q tt s' ∧ ∀ e, R e s') → wp (catalog_remove id) Q R s.
Proof.
  intros H. unfold wp_gen, catalog_remove. destruct (lc_catalog s) as [c|]; [|by apply H].
  destruct (cat_remove id c) as [[b|e] c']; cbn; by apply H.
Qed.

Lemma completed_record_spec m (Q : ModelRecord → _ → Prop) R s :
  (∀ m', mr_id m' = mr_id m → (∀ a, a ∈ mr_aliases m' ↔ a ∈ mr_aliases m) → Q m' s) →
  (∀ e, R e s) → wp (completed_record file_len m) Q R s.
Proof.
  intros HQ HR. unfold completed_record.
  set (m1 := with_aliases (normalize (mr_aliases m)) m).
  set (m2 := if bool_decide (mr_family m1 = "") then with_family default_model_family m1 else m1).
  assert (mr_id m2 = mr_id m ∧ ∀ a, a ∈ mr_aliases m2 ↔ a ∈ mr_aliases m) as [Hid Ha].
  { unfold m2. case_bool_decide; (split; [done|]; intros a; cbn; apply normalize_elem). }
  destruct (mr_size_bytes m2 =? 0)%N.
  - rewrite wp_bind, wp_state_err. destruct (file_len (mr_path m2)) as [len|e]; [|done].
    rewrite wp_ret. by apply HQ.
  - rewrite wp_ret. by apply HQ.
Qed.

(** *** Registration *)

(** Success: the answer is the record filed under its identifier, its epoch is new
    unless it was there already, and the others gave up its aliases. *)
Definition registered (m : ModelRecord) s (r : ModelRecord) s' : Prop :=
  mr_id r = mr_id m ∧ lc_models s' !! mr_id m = Some r
  ∧ ((lc_models s !! mr_id m = Some r ∧ same_table s s')
     ∨ (mr_epoch r = lc_next_epoch s ∧ lc_next_epoch s' = (lc_next_epoch s + 1)%N
        ∧ (∀ a, a ∈ mr_aliases r ↔ a ∈ mr_aliases m))).

Lemma register_spec m publish s :
  lifecycle_ok s →
  wp (register file_len m publish)
    (λ r s', lifecycle_ok s' ∧ registered m s r s')
    (λ _ s', lifecycle_ok s' ∧ (same_table s s' ∨ lc_next_epoch s = u64_max)) s.
Proof.
  intros Hok. unfold register. rewrite wp_bind. apply completed_record_spec.
  2:{ intros _. split; [done|by left]. }
  intros m' Hid Ha. rewrite wp_bind, wp_get.
  destruct (existing ← lc_models s !! mr_id m'; _) as [existing|] eqn:Hex.
  - apply bind_Some in Hex as (x & Hx & Hu). destruct (unchanged x m'); [|done]. injection Hu as ->.
    rewrite wp_bind. apply wp_prepare. intros s' Hs'. split.
    + rewrite wp_ret. split; [by eapply same_table_ok|]. rewrite Hid in Hx.
      split; [by eapply to_filed; [apply Hok|]|]. destruct Hs' as [Hm He]. rewrite Hm. split; [done|]. by left.
    + intros _. split; [by eapply same_table_ok|by left].
  - rewrite wp_bind. apply wp_prepare. intros s1 Hs1. pose proof (same_table_ok _ _ Hok Hs1) as Hok1.
    destruct Hs1 as [Hm1 He1]. split; [|by intros _; split; [|left]].
    set (r := with_epoch (lc_next_epoch s) m') in *.
    rewrite wp_bind. apply wp_on_catalog. intros published s1' [Hm1' He1'].
    assert (same_table s s1') as Hs1 by (split; congruence). clear dependent s1. rename s1' into s1.
    pose proof (same_table_ok _ _ Hok Hs1) as Hok1. destruct Hs1 as [Hm1 He1].
    destruct published as [[]|e].
    2:{ rewrite wp_bind. apply wp_on_engine. intros s2 [Hm2 He2]. rewrite wp_throw.
        split; [by eapply same_table_ok|]. left. unfold same_table. by rewrite Hm2, He2. }
    rewrite wp_bind, wp_modify, wp_bind, wp_ok_or. unfold checked_add.
    assert (table_ok (install r (lc_models s1))) as Htable by (apply table_ok_install, Hok1).
    assert (∀ n id m0, install r (lc_models s1) !! id = Some m0 →
      (lc_next_epoch s < n ∨ n = u64_max)%N → (lc_next_epoch s1 ≤ n ≤ u64_max)%N → (mr_epoch m0 < n)%N ∨ n = u64_max) as Hepoch.
    { intros n id m0 Hm0 Hn Hle. unfold install in Hm0.
      apply lookup_insert_Some in Hm0 as [[_ <-]|[_ Hm0]]; [done|].
      rewrite lookup_fmap in Hm0. apply fmap_Some in Hm0 as (m00 & Hm00 & ->).
      cbn. destruct (lo_epoch _ Hok1 id m00 Hm00); [left; lia|]. pose proof (lo_bound _ Hok1). lia. }
    pose proof (lo_bound _ Hok) as Hbound.
    destruct (decide (lc_next_epoch s + 1 ≤ u64_max)%N).
    + rewrite wp_bind, wp_modify, wp_bind. apply wp_on_engine. intros s2 [Hm2 He2]. cbn in Hm2, He2.
      rewrite wp_ret. split.
      * split; rewrite ?Hm2, ?He2; [done| |lia]. intros id m0 Hm0. apply (Hepoch _ id); [done|lia|lia].
      * split; [done|]. rewrite Hm2. split.
        { unfold install. cbn. rewrite Hid. apply lookup_insert_eq. }
        right. by rewrite He2.
    + split; [|right; lia]. split; cbn; [done| |lia]. intros id m0 Hm0. apply (Hepoch _ id); [done|lia|lia].
Qed.

Lemma register_from_catalog_spec m s :
  lifecycle_ok s → (mr_epoch m ≤ u64_max)%N →
  wp (register_from_catalog m) (λ r s', lifecycle_ok s' ∧ r = m)
    (λ _ s', lifecycle_ok s' ∧ same_table s s') s.
Proof.
  intros Hok Hm. unfold register_from_catalog. rewrite wp_bind, wp_guard_not.
  destruct (mr_epoch m =? 0)%N; [done|]. rewrite wp_bind. apply wp_prepare. intros s1 Hs1.
  pose proof (same_table_ok _ _ Hok Hs1) as Hok1. split; [|done].
  rewrite wp_bind, wp_get, wp_bind, wp_modify, wp_bind. apply wp_on_engine. intros s2 [Hm2 He2].
  rewrite wp_ret. split; [|done]. cbn in Hm2, He2. pose proof (lo_bound _ Hok1) as Hb.
  unfold saturating_add in He2. split; rewrite ?Hm2, ?He2.
  - apply table_ok_install, Hok1.
  - intros id m0. unfold install. intros [[_ <-]|[_ Hm0]]%lookup_insert_Some; [lia|].
    rewrite lookup_fmap in Hm0. apply fmap_Some in Hm0 as (m00 & Hm00 & ->). cbn.
    destruct (lo_epoch _ Hok1 id m00 Hm00); lia.
  - lia.
Qed.

Lemma alias_spec id a s :
  lifecycle_ok s →
  wp (alias id a)
    (λ r s', lifecycle_ok s' ∧ lc_models s' !! id = Some r ∧ a ∈ mr_aliases r)
    (λ _ s', lifecycle_ok s' ∧ same_table s s') s.
Proof.
  intros Hok. unfold alias. rewrite wp_bind, wp_get. destruct (lc_models s !! id) as [x|] eqn:Hx.
  2:{ rewrite wp_throw. done. }
  rewrite wp_bind, wp_expect. rewrite lookup_fmap, Hx. cbn [fmap option_fmap option_map].
  set (m := take_aliases [a] x). assert ((take_aliases [a] <$> lc_models s) !! id = Some m) as Hm
    by (by rewrite lookup_fmap, Hx).
  rewrite wp_bind. apply wp_catalog_publish. intros s1 [Hm1 He1]. split.
  2:{ intros _. split; [by eapply same_table_ok|done]. }
  rewrite wp_bind, wp_modify, wp_ret. split; [|split].
  - split; cbn.
    + apply table_ok_alias; [apply Hok|done].
    + rewrite He1. intros id' m' [[_ <-]|[_ Hm']]%lookup_insert_Some.
      * cbn. by apply (lo_epoch _ Hok id x).
      * rewrite lookup_fmap in Hm'. apply fmap_Some in Hm' as (m'' & Hm'' & ->). by apply (lo_epoch _ Hok id' m'').
    + rewrite He1. apply Hok.
  - cbn. apply lookup_insert_eq.
  - apply normalize_elem, elem_of_app. right. left.
Qed.

Lemma remove_spec id s :
  lifecycle_ok s →
  wp (remove id) (λ _ s', lifecycle_ok s' ∧ lc_models s' = delete id (lc_models s))
    (λ _ s', lifecycle_ok s' ∧ same_table s s') s.
Proof.
  intros Hok. unfold remove. rewrite wp_bind, wp_get. destruct (lc_models s !! id) as [x|] eqn:Hx.
  2:{ by rewrite wp_throw. }
  rewrite wp_bind. apply wp_catalog_remove. intros s1 [Hm1 He1]. split.
  2:{ intros _. split; [by eapply same_table_ok|done]. }
  rewrite wp_bind, wp_modify. apply wp_on_engine. intros s2 [Hm2 He2]. cbn in Hm2, He2.
  rewrite Hm2, Hm1. split; [|done]. split; rewrite ?Hm2, ?Hm1, ?He2, ?He1.
  - apply table_ok_delete, Hok.
  - intros id' m' [_ Hm']%lookup_delete_Some. by apply (lo_epoch _ Hok id').
  - apply Hok.
Qed.

(** ** Looking up *)

Lemma find_unique (order : list ModelRecord) (p : ModelRecord → bool) m :
  m ∈ order → p m = true → (∀ m', m' ∈ order → p m' = true → m' = m) → List.find p order = Some m.
Proof.
  intros Hin Hp Hu. destruct (List.find p order) as [m'|] eqn:Hf.
  - apply find_some in Hf as [Hin' Hp']. f_equal. apply Hu; [by apply list_elem_of_In|done].
  - apply list_elem_of_In in Hin. by rewrite (find_none _ _ Hf m Hin) in Hp.
Qed.

Lemma models_elem s m : m ∈ models s ↔ ∃ id, lc_models s !! id = Some m.
Proof.
  unfold models, map_values. rewrite list_elem_of_fmap. split.
  - intros ([id m'] & -> & Hin%elem_of_map_to_list). by exists id.
  - intros [id Hm]. exists (id, m). split; [done|]. by apply elem_of_map_to_list.
Qed.

(** An alias resolves to the model that has it, in whatever order the map is visited. *)
Lemma alias_resolves s order a m :
  lifecycle_ok s → order ≡ₚ models s → lc_models s !! a = None →
  m ∈ models s → a ∈ mr_aliases m → model order a s = Ok m.
Proof.
  intros Hok Ho Hnone Hin Ha. unfold model. rewrite Hnone.
  rewrite (find_unique order _ m); [done|by rewrite Ho| |].
  - apply existsb_exists. exists a. split; [by apply list_elem_of_In|]. by apply bool_decide_true.
  - intros m' Hin' (a' & Ha' & <-%bool_decide_eq_true)%existsb_exists. rewrite Ho in Hin'.
    apply models_elem in Hin as [id Hm], Hin' as [id' Hm'].
    pose proof (to_alias _ (lo_table _ Hok) id id' m m' a' Hm Hm' Ha (proj2 (list_elem_of_In _ _) Ha')) as <-.
    congruence.
Qed.

Lemma model_order s order order' id :
  lifecycle_ok s → order ≡ₚ models s → order' ≡ₚ models s → model order id s = model order' id s.
Proof.
  intros Hok Ho Ho'. destruct (lc_models s !! id) as [m|] eqn:Hid; [by unfold model; rewrite Hid|].
  destruct (model order id s) as [m|e] eqn:Hm.
  - unfold model in Hm. rewrite Hid in Hm. destruct (List.find _ order) as [m'|] eqn:Hf; [|done].
    injection Hm as ->. apply find_some in Hf as [Hin (a & Ha & <-%bool_decide_eq_true)%existsb_exists].
    apply list_elem_of_In in Hin, Ha. rewrite Ho in Hin. symmetry. by apply alias_resolves.
  - unfold model in *. rewrite Hid in *. destruct (List.find _ order) eqn:Hf; [done|].
    injection Hm as <-. destruct (List.find _ order') as [m'|] eqn:Hf'; [|done].
    apply find_some in Hf' as [Hin Hp]. apply list_elem_of_In in Hin. rewrite Ho', <- Ho in Hin.
    apply list_elem_of_In in Hin. by rewrite (find_none _ _ Hf m' Hin) in Hp.
Qed.

(** ** Histories *)

Inductive LifecycleOp : Type :=
| Attach (catalog : C)
| Register (m : ModelRecord) (publish : Publication (C := C))
| Load (m : ModelRecord)
| Alias (id a : string)
| Remove (id : string).

(** The state an operation leaves, with or without an error; [None] is a panic. *)
Definition apply_op (op : LifecycleOp) s : option (Lifecycle E C) :=
  match op with
  | Attach c => Some (attach_catalog c s)
  | Register m publish => after (register file_len m publish) s
  | Load m => after (register_from_catalog m) s
  | Alias id a => after (alias id a) s
  | Remove id => after (remove id) s
  end.

Definition representable (op : LifecycleOp) : Prop :=
  match op with Load m => (mr_epoch m ≤ u64_max)%N | _ => True end.

Fixpoint apply_ops (ops : list LifecycleOp) s : option (Lifecycle E C) :=
  match ops with
  | [] => Some s
  | op :: ops' => s' ← apply_op op s; apply_ops ops' s'
  end.

Lemma after_wp {A} (m : M (Lifecycle E C) ServerError.Error A) (P : Lifecycle E C → Prop) s :
  wp m (λ _ s', P s') (λ _ s', P s') s → ∃ s', after m s = Some s' ∧ P s'.
Proof. unfold wp_gen, after. destruct (m s); naive_solver. Qed.

Lemma apply_op_ok op s :
  lifecycle_ok s → representable op → ∃ s', apply_op op s = Some s' ∧ lifecycle_ok s'.
Proof.
  intros Hok Hr. destruct op; cbn in *.
  - eexists. split; [done|]. by destruct Hok; split.
  - apply after_wp. eapply wp_mono; [by apply register_spec|..]; naive_solver.
  - apply after_wp. eapply wp_mono; [by apply register_from_catalog_spec|..]; naive_solver.
  - apply after_wp. eapply wp_mono; [by apply alias_spec|..]; naive_solver.
  - apply after_wp. eapply wp_mono; [by apply remove_spec|..]; naive_solver.
Qed.

Lemma new_service_ok engine : lifecycle_ok (new engine).
Proof. split; cbn; [split; naive_solver|naive_solver|vm_compute; split; discriminate]. Qed.

Lemma apply_ops_ok ops s :
  lifecycle_ok s → Forall representable ops → ∃ s', apply_ops ops s = Some s' ∧ lifecycle_ok s'.
Proof.
  revert s. induction ops as [|op ops IH]; intros s Hok Hr; [by exists s|].
  inversion Hr; subst. cbn. destruct (apply_op_ok op s) as (s1 & -> & Hok1); [done..|].
  by apply IH.
Qed.

(** C35: The table of models is well formed after any history of operations, failed
    ones included, and none panics: every record is filed under its identifier, no
    alias names two models, epochs stay below the next one; so a name resolves the
    same way whatever order the map is visited in. *)
Theorem lifecycle_well_formed ops engine :
  Forall representable ops →
  ∃ s, apply_ops ops (new engine) = Some s ∧ table_ok (lc_models s)
    ∧ (∀ id m, lc_models s !! id = Some m → (mr_epoch m < lc_next_epoch s)%N ∨ lc_next_epoch s = u64_max)
    ∧ ∀ order order' id, order ≡ₚ models s → order' ≡ₚ models s → model order id s = model order' id s.
Proof.
  intros Hr. destruct (apply_ops_ok ops (new engine) (new_service_ok engine) Hr) as (s & Hs & Hok).
  exists s. split; [done|]. split; [apply Hok|]. split; [apply Hok|]. intros. by apply model_order.
Qed.

(** Registration, on a table built by the service: on success the record is
    filed with a fresh epoch (or was there already, and nothing changes), and every
    alias it has resolves to it unless the alias is itself an identifier; on an
    error the table and the next epoch are as before, unless the epochs ran out. *)
Theorem register_publishes ops engine s m publish :
  Forall representable ops → apply_ops ops (new engine) = Some s →
  match register file_len m publish s with
  | Done r s' =>
      registered m s r s'
      ∧ ∀ order a, order ≡ₚ models s' → a ∈ mr_aliases r → lc_models s' !! a = None →
          model order a s' = Ok r
  | Fail _ s' => same_table s s' ∨ lc_next_epoch s = u64_max
  | Panic => False
  end.
Proof.
  intros Hr Hs. destruct (apply_ops_ok ops (new engine) (new_service_ok engine) Hr) as (s0 & Hs0 & Hok).
  assert (s0 = s) as -> by congruence. pose proof (register_spec m publish s Hok) as Hw.
  unfold wp_gen in Hw. destruct (register file_len m publish s) as [r s'|e s'|]; [|tauto|done].
  destruct Hw as [Hok' Hreg]. split; [done|]. intros order a Ho Ha Hnone.
  eapply alias_resolves; [done..| |done]. apply models_elem. exists (mr_id m). apply Hreg.
Qed.

(** Registering the same file again answers the record that is there: other aliases
    the caller declares are ignored. *)
Lemma register_again m publish s existing :
  lifecycle_ok s → mr_size_bytes m ≠ 0%N → mr_family m ≠ "" → lc_models s !! mr_id m = Some existing →
  unchanged existing m = true →
  wp (register file_len m publish) (λ r s', r = existing ∧ same_table s s') (λ _ s', same_table s s') s.
Proof.
  intros Hok Hsize Hfam Hex Hu. unfold register. rewrite wp_bind. unfold completed_record.
  cbn [mr_family with_aliases]. rewrite bool_decide_false by done.
  cbn [mr_size_bytes with_aliases]. destruct (N.eqb_spec (mr_size_bytes m) 0); [done|].
  rewrite wp_ret, wp_bind, wp_get. cbn [mr_id with_aliases]. rewrite Hex. cbn [mbind option_bind].
  change (unchanged existing (with_aliases (normalize (mr_aliases m)) m)) with (unchanged existing m).
  rewrite Hu, wp_bind. apply wp_prepare. intros s' Hs'. by rewrite wp_ret.
Qed.
End service.

(** ** Runs *)

Module LifecycleDemo.

(** The engine with the trait's default methods. *)
#[export] Instance plain_engine : ModelEngine unit := {|
  prepare_model _ e := (Ok tt, e);
  commit_model _ _ e := e;
  retire_model _ _ e := e;
|}.

(** The table of the catalogue: an upsert, and a deletion that says if it deleted. *)
#[export] Instance table_catalog : Catalog (gmap string ModelRecord) := {|
  cat_rows c := c;
  cat_publish m c :=
    if (mr_epoch m =? 0)%N then (Err "model epoch must be nonzero"%string, c)
    else (Ok tt, <[mr_id m := m]> c);
  cat_remove id c := (Ok (bool_decide (is_Some (c !! id))), delete id c);
|}.

Lemma table_catalog_laws : CatalogLaws (gmap string ModelRecord).
Proof.
  split; cbn.
  - intros m c c'. destruct (mr_epoch m =? 0)%N; [done|]. by intros [= <-].
  - intros m c e c'. destruct (mr_epoch m =? 0)%N; [|done]. by intros [= _ <-].
  - by intros id c b c' [= _ <-].
  - by intros id c e c'.
Qed.

Definition no_file (_ : string) : result string N := Err "no file"%string.

Definition model_a : ModelRecord := mkModel "a" "r1" "a.gguf" "00" [] "gemma4" 10 1.
Definition model_b : ModelRecord := mkModel "b" "r1" "b.gguf" "01" ["latest"] "gemma4" 10 2.

Definition rows : gmap string ModelRecord := <["a" := model_a]> {["b" := model_b]}.

(** Starting the server: the catalogue is attached and its rows are loaded in the
    order of their identifiers. *)
Definition boot (catalog : gmap string ModelRecord) (ids : list string) : option (Lifecycle unit (gmap string ModelRecord)) :=
  apply_ops no_file (Attach catalog :: (Load <$> omap (λ id, catalog !! id) ids)) (new tt).

Definition name (id : string) (s : Lifecycle unit (gmap string ModelRecord)) : option string :=
  match model (models s) id s with Ok m => Some (mr_id m) | Err _ => None end.

Definition move_alias : option (Lifecycle unit (gmap string ModelRecord)) :=
  s ← boot rows ["a"; "b"]; apply_op no_file (Alias "a" "latest") s.

Definition restarted : option (Lifecycle unit (gmap string ModelRecord)) :=
  s ← move_alias; catalog ← lc_catalog s; boot catalog ["a"; "b"].

Definition demo_ops : list (LifecycleOp (C := gmap string ModelRecord)) :=
  [Attach ∅; Register model_b (λ _ c, (Ok tt, c)); Alias "b" "newest"].
End LifecycleDemo.
Import LifecycleDemo.

Lemma lifecycle_well_formed_witness :
  Forall representable demo_ops
  ∧ ∃ s, apply_ops no_file demo_ops (new tt) = Some s ∧ table_ok (lc_models s).
Proof.
  assert (Forall representable demo_ops) as H by (by repeat constructor). split; [exact H|].
  destruct (lifecycle_well_formed no_file demo_ops tt H) as (s & Hs & Hok & _). by exists s.
Defined.

Lemma register_publishes_witness :
  ∃ s, apply_ops no_file demo_ops (new tt) = Some s
  ∧ match register no_file model_a (λ _ c, (Ok tt, c)) s with
    | Done r s' => registered model_a s r s'
    | Fail _ s' => same_table s s' ∨ lc_next_epoch s = u64_max
    | Panic => False
    end.
Proof.
  assert (Forall representable demo_ops) as H by (by repeat constructor).
  destruct (apply_ops_ok no_file demo_ops (new tt) (new_service_ok no_file tt) H) as (s & Hs & _). exists s. split; [exact Hs|].
  pose proof (register_publishes no_file demo_ops tt s model_a (λ _ c, (Ok tt, c)) H Hs) as Hp.
  destruct (register no_file model_a (λ _ c, (Ok tt, c)) s); [exact (proj1 Hp)|exact Hp|exact Hp].
Defined.

(** Moving an alias is lost by a restart: [alias] publishes the record that gains
    the alias and not the one that loses it, whose row still has it; loaded later,
    that row takes the alias back. *)
Theorem alias_move_lost_on_restart :
  ∃ s s', move_alias = Some s ∧ restarted = Some s'
    ∧ name "latest" s = Some "a"%string ∧ name "latest" s' = Some "b"%string.
Proof.
  destruct move_alias as [s|] eqn:Hs; [|by vm_compute in Hs].
  destruct restarted as [s'|] eqn:Hs'; [|by vm_compute in Hs'].
  exists s, s'. split; [done|]. split; [done|]. split.
  - assert ((move_alias ≫= name "latest") = Some "a"%string) as H by (vm_compute; reflexivity).
    by rewrite Hs in H.
  - assert ((restarted ≫= name "latest") = Some "b"%string) as H by (vm_compute; reflexivity).
    by rewrite Hs' in H.
Qed.
