(* ===== verification/Responses.v ===== *)
(** Responses ([crates/server/src/responses.rs]): the resource a response is, its
    JSON projection, and the projection of a generation's event stream to the
    events of a streamed response.

    Printing a JSON value is a parameter. Time and fresh identifiers are arguments. *)

From stdpp Require Import base strings list numbers.
From Stdlib Require Import Lia.
From S2P Require Import Prelude Json Engine Generation ContextStrategy.

(** ** Data *)

Definition RESPONSE_SCHEMA_VERSION : N := 1.

Record ResponseTextPart : Type := mkPart {
  rp_text : string;
  rp_annotations : list Value;
  rp_logprobs : list Value;
}.

Record ResponseMessage : Type := mkMessage {
  rm_id : string;
  rm_role : string;
  rm_status : string;
  rm_content : list ResponseTextPart;
}.

Record ResponseFunctionCall : Type := mkCall {
  rf_id : string;
  rf_call_id : string;
  rf_name : string;
  rf_arguments : string;
  rf_status : string;
}.

Inductive ResponseInputItem : Type :=
| IMessage (role text : string)
| IFunctionCallOutput (call_id output : string)
| IFunctionCall (call_id name arguments : string).

Inductive ResponseOutputItem : Type :=
| OMessage (m : ResponseMessage)
| OFunctionCall (c : ResponseFunctionCall).

Record ResponseMetadata : Type := mkMetadata {
  me_correlation_id : string;
  me_inference_id : string;
  me_execution_session_id : string;
}.

Definition default_metadata : ResponseMetadata := mkMetadata "" "" "".

Record ContextUpdateMetadata : Type := mkUpdateMetadata {
  cu_operation_id : string;
  cu_operation : string;
  cu_base_response_id : string;
  cu_base_revision : N;
  cu_correlation_id : string;
}.

Record ResponseUsage : Type := mkResponseUsage {
  ru_input_tokens : N;
  ru_cached_tokens : N;
  ru_output_tokens : N;
}.

Record ResponseResource : Type := mkResource {
  rr_schema_version : N;
  rr_id : string;
  rr_owner : string;
  rr_model : string;
  rr_created_at : N;
  rr_status : string;
  rr_store : bool;
  rr_previous_response_id : option string;
  rr_input : list ResponseInputItem;
  rr_output : list ResponseOutputItem;
  rr_tools : list Value;
  rr_tool_choice : Value;
  rr_finish_reason : option FinishReason;
  rr_usage : option ResponseUsage;
  rr_metadata : ResponseMetadata;
  rr_lineage_revision : N;
  rr_context_update : option ContextUpdateMetadata;
}.

Definition default_tool_choice : Value := VString "auto".

(** The usage a generation reports and the events it streams. *)
Record Usage : Type := mkUsage {
  us_input_tokens : N;
  us_generated_tokens : N;
  us_evaluated_tokens : N;
  us_cached_tokens : N;
  us_prefill : PrefillMetrics;
  us_model : string;
  us_model_revision : string;
  us_context_id : string;
  us_compaction_result : option CompactionResult;
  us_latency_ms : N;
  us_status : string;
  us_correlation_id : string;
  us_inference_id : string;
  us_execution_session_id : string;
}.

Inductive StreamEvent : Type :=
| EvStarted (request_id context_id correlation_id inference_id execution_session_id : string)
| EvToken (token : string) (index : N)
| EvFinished (reason : FinishReason) (usage : Usage)
| EvError (message : string).

Definition response_usage (u : Usage) : ResponseUsage :=
  mkResponseUsage (us_input_tokens u) (us_cached_tokens u) (us_generated_tokens u).

(** [new_function_call], given the two fresh identifiers. *)
Definition new_function_call (uuid1 uuid2 name arguments : string) : ResponseFunctionCall :=
  mkCall ("fc_" +:+ uuid1) ("call_" +:+ uuid2) name arguments "completed".

(** ** JSON projection *)

Definition opt_value {A} (f : A → Value) (o : option A) : Value :=
  match o with Some a => f a | None => Null end.

Definition reason_value (r : FinishReason) : Value :=
  VString (match r with FinishStop => "stop" | FinishLength => "length" end).

Definition metadata_value (m : ResponseMetadata) : Value :=
  Object [("correlation_id", VString (me_correlation_id m)); ("inference_id", VString (me_inference_id m));
          ("execution_session_id", VString (me_execution_session_id m))].

Definition update_value (u : ContextUpdateMetadata) : Value :=
  Object [("operation_id", VString (cu_operation_id u)); ("operation", VString (cu_operation u));
          ("base_response_id", VString (cu_base_response_id u));
          ("base_revision", Number (cu_base_revision u));
          ("correlation_id", VString (cu_correlation_id u))].

Definition project_part (p : ResponseTextPart) : Value :=
  Object [("type", VString "output_text"); ("text", VString (rp_text p));
          ("annotations", Array (rp_annotations p)); ("logprobs", Array (rp_logprobs p))].

Definition project_message (m : ResponseMessage) : Value :=
  Object [("id", VString (rm_id m)); ("type", VString "message"); ("role", VString (rm_role m));
          ("status", VString (rm_status m)); ("content", Array (project_part <$> rm_content m))].

Definition project_output_item (item : ResponseOutputItem) : Value :=
  match item with
  | OMessage m => project_message m
  | OFunctionCall c =>
      Object [("id", VString (rf_id c)); ("type", VString "function_call");
              ("call_id", VString (rf_call_id c)); ("name", VString (rf_name c));
              ("arguments", VString (rf_arguments c)); ("status", VString (rf_status c))]
  end.

Definition usage_value (u : ResponseUsage) : Value :=
  Object [("input_tokens", Number (ru_input_tokens u));
          ("input_tokens_details", Object [("cached_tokens", Number (ru_cached_tokens u))]);
          ("output_tokens", Number (ru_output_tokens u));
          ("output_tokens_details", Object [("reasoning_tokens", Number 0)]);
          ("total_tokens", Number (wrapping_add (ru_input_tokens u) (ru_output_tokens u)))].

Definition project_resource (r : ResponseResource) : Value :=
  Object [("id", VString (rr_id r)); ("object", VString "response");
          ("created_at", Number (rr_created_at r)); ("status", VString (rr_status r));
          ("background", Bool false); ("error", Null); ("incomplete_details", Null);
          ("instructions", Null); ("max_output_tokens", Null);
          ("metadata", metadata_value (rr_metadata r)); ("model", VString (rr_model r));
          ("output", Array (project_output_item <$> rr_output r)); ("parallel_tool_calls", Bool true);
          ("previous_response_id", opt_value VString (rr_previous_response_id r));
          ("prompt_cache_key", Null); ("reasoning", Null); ("safety_identifier", Null);
          ("service_tier", VString "default"); ("store", Bool (rr_store r));
          ("temperature", Float "1.0");
          ("text", Object [("format", Object [("type", VString "text")]); ("verbosity", VString "medium")]);
          ("tool_choice", rr_tool_choice r); ("tools", Array (rr_tools r)); ("top_logprobs", Number 0);
          ("top_p", Float "1.0"); ("truncation", VString "disabled");
          ("usage", opt_value usage_value (rr_usage r));
          ("finish_reason", opt_value reason_value (rr_finish_reason r));
          ("cusco", Object [("lineage_revision", Number (rr_lineage_revision r));
                            ("context_update", opt_value update_value (rr_context_update r))])].

(** ** A completed response *)

Record CompleteResponse : Type := mkComplete {
  cr_id : string;
  cr_owner : string;
  cr_model : string;
  cr_text : string;
  cr_reason : FinishReason;
  cr_usage : Usage;
  cr_store : bool;
  cr_previous_response_id : option string;
  cr_tools : list Value;
  cr_tool_choice : Value;
  cr_lineage_revision : N;
  cr_input : list ResponseInputItem;
  cr_function_call : option ResponseFunctionCall;
}.

Definition text_part (s : string) : ResponseTextPart := mkPart s [] [].

Definition usage_metadata (u : Usage) : ResponseMetadata :=
  mkMetadata (us_correlation_id u) (us_inference_id u) (us_execution_session_id u).

Definition complete (now : N) (p : CompleteResponse) : ResponseResource :=
  let output :=
    match cr_function_call p with
    | None => [OMessage (mkMessage "msg_0" "assistant" "completed" [text_part (cr_text p)])]
    | Some call => [OFunctionCall call]
    end in
  mkResource RESPONSE_SCHEMA_VERSION (cr_id p) (cr_owner p) (cr_model p) now "completed" (cr_store p)
    (cr_previous_response_id p) (cr_input p) output (cr_tools p) (cr_tool_choice p)
    (Some (cr_reason p)) (Some (response_usage (cr_usage p))) (usage_metadata (cr_usage p))
    (cr_lineage_revision p) None.

(** ** The streamed response *)

Inductive ResponseEvent : Type :=
| Created (r : ResponseResource)
| OutputItemAdded (m : ResponseMessage)
| FunctionCallAdded (c : ResponseFunctionCall)
| ContentPartAdded (p : ResponseTextPart)
| TextDelta (delta : string)
| TextDone (p : ResponseTextPart)
| ContentPartDone (p : ResponseTextPart)
| OutputItemDone (m : ResponseMessage)
| FunctionCallDone (c : ResponseFunctionCall)
| Completed (r : ResponseResource)
| ErrorEvent (message : string).

Record StreamResponse : Type := mkStreamResponse {
  sr_model : string;
  sr_owner : string;
  sr_store : bool;
  sr_previous_response_id : option string;
  sr_input : list ResponseInputItem;
  sr_tools : list Value;
  sr_tool_choice : Value;
  sr_buffer_output : bool;
  sr_lineage_revision : N;
}.

Record ResponseProjection : Type := mkProjection {
  pj_resource : ResponseResource;
  pj_sequence : N;
  pj_buffer_output : bool;
  pj_function_call : option ResponseFunctionCall;
}.

(** *** Field updates of the resource *)

Definition set_started (id : string) (m : ResponseMetadata) (r : ResponseResource) : ResponseResource :=
  mkResource (rr_schema_version r) id (rr_owner r) (rr_model r) (rr_created_at r) (rr_status r)
    (rr_store r) (rr_previous_response_id r) (rr_input r) (rr_output r) (rr_tools r) (rr_tool_choice r)
    (rr_finish_reason r) (rr_usage r) m (rr_lineage_revision r) (rr_context_update r).

Definition set_output (output : list ResponseOutputItem) (r : ResponseResource) : ResponseResource :=
  mkResource (rr_schema_version r) (rr_id r) (rr_owner r) (rr_model r) (rr_created_at r) (rr_status r)
    (rr_store r) (rr_previous_response_id r) (rr_input r) output (rr_tools r) (rr_tool_choice r)
    (rr_finish_reason r) (rr_usage r) (rr_metadata r) (rr_lineage_revision r) (rr_context_update r).

Definition set_finished (reason : FinishReason) (u : ResponseUsage) (r : ResponseResource) : ResponseResource :=
  mkResource (rr_schema_version r) (rr_id r) (rr_owner r) (rr_model r) (rr_created_at r) "completed"
    (rr_store r) (rr_previous_response_id r) (rr_input r) (rr_output r) (rr_tools r) (rr_tool_choice r)
    (Some reason) (Some u) (rr_metadata r) (rr_lineage_revision r) (rr_context_update r).

Definition with_resource (r : ResponseResource) (p : ResponseProjection) : ResponseProjection :=
  mkProjection r (pj_sequence p) (pj_buffer_output p) (pj_function_call p).

Definition new_projection (now : N) (model : string) : ResponseProjection :=
  mkProjection
    (mkResource RESPONSE_SCHEMA_VERSION "" "" model now "in_progress" false None [] [] []
       default_tool_choice None None default_metadata 0 None)
    0 false None.

Definition with_request (request : StreamResponse) (p : ResponseProjection) : ResponseProjection :=
  let r := pj_resource p in
  mkProjection
    (mkResource (rr_schema_version r) (rr_id r) (sr_owner request) (rr_model r) (rr_created_at r)
       (rr_status r) (sr_store request) (sr_previous_response_id request) (sr_input request)
       (rr_output r) (sr_tools request) (sr_tool_choice request) (rr_finish_reason r) (rr_usage r)
       (rr_metadata r) (sr_lineage_revision request) (rr_context_update r))
    (pj_sequence p) (sr_buffer_output request) (pj_function_call p).

Definition stream_projection (now : N) (request : StreamResponse) : ResponseProjection :=
  with_request request (new_projection now (sr_model request)).

Definition completed_resource (p : ResponseProjection) : option ResponseResource :=
  if bool_decide (rr_status (pj_resource p) = "completed") then Some (pj_resource p) else None.

Definition generated_text (p : ResponseProjection) : string :=
  match rr_output (pj_resource p) with
  | OMessage m :: _ => match rm_content m with part :: _ => rp_text part | [] => "" end
  | _ => ""
  end.

Definition set_function_call (call : option ResponseFunctionCall) (p : ResponseProjection)
  : ResponseProjection :=
  mkProjection (pj_resource p) (pj_sequence p) (pj_buffer_output p) call.

Definition message (status : string) (p : ResponseProjection) : ResponseMessage :=
  mkMessage "msg_0" "assistant" status [text_part (generated_text p)].

(** [message.content[0].text.push_str(token)]; the content of the projection's own
    message is never empty. *)
Definition push_text (token : string) (m : ResponseMessage) : option ResponseMessage :=
  match rm_content m with
  | [] => None
  | part :: rest =>
      Some (mkMessage (rm_id m) (rm_role m) (rm_status m)
              (mkPart (rp_text part +:+ token) (rp_annotations part) (rp_logprobs part) :: rest))
  end.

(** The events one generation event becomes; [None] is the panic of [push_text]. *)
Definition project_events (event : StreamEvent) (p : ResponseProjection)
  : option (list ResponseEvent * ResponseProjection) :=
  match event with
  | EvStarted request_id _ correlation_id inference_id execution_session_id =>
      let p := with_resource (set_started request_id
                 (mkMetadata correlation_id inference_id execution_session_id) (pj_resource p)) p in
      let m := message "in_progress" p in
      let p := with_resource (set_output [OMessage m] (pj_resource p)) p in
      Some (if pj_buffer_output p then [Created (pj_resource p)]
            else [Created (pj_resource p); OutputItemAdded m; ContentPartAdded (text_part "")], p)
  | EvToken token _ =>
      match
        match rr_output (pj_resource p) with
        | OMessage m :: rest =>
            m' ← push_text token m;
            mret (with_resource (set_output (OMessage m' :: rest) (pj_resource p)) p)
        | _ => Some p
        end
      with
      | Some p => Some (if pj_buffer_output p then [] else [TextDelta token], p)
      | None => None
      end
  | EvFinished reason usage =>
      let p := with_resource (set_finished reason (response_usage usage) (pj_resource p)) p in
      match pj_function_call p with
      | Some call =>
          let p := set_function_call None (with_resource (set_output [OFunctionCall call] (pj_resource p)) p) in
          Some ([FunctionCallAdded call; FunctionCallDone call; Completed (pj_resource p)], p)
      | None =>
          let m := message "completed" p in
          let p := with_resource (set_output [OMessage m] (pj_resource p)) p in
          part ← head (rm_content m);
          Some ((if pj_buffer_output p
                 then [OutputItemAdded m; ContentPartAdded (text_part ""); TextDelta (rp_text part)] else [])
                ++ [TextDone part; ContentPartDone part; OutputItemDone m; Completed (pj_resource p)], p)
      end
  | EvError msg => Some ([ErrorEvent msg], p)
  end.

Definition part_event (type : string) (n : N) (fields : list (string * Value)) : Value :=
  Object ([("type", VString type); ("sequence_number", Number n); ("item_id", VString "msg_0");
           ("output_index", Number 0); ("content_index", Number 0)] ++ fields).

Definition item_event (type : string) (n : N) (item : Value) : Value :=
  Object [("type", VString type); ("sequence_number", Number n); ("item", item); ("output_index", Number 0)].

Definition event_value (n : N) (event : ResponseEvent) : Value :=
  match event with
  | Created r =>
      Object [("type", VString "response.created"); ("sequence_number", Number n); ("response", project_resource r)]
  | OutputItemAdded m => item_event "response.output_item.added" n (project_message m)
  | FunctionCallAdded c => item_event "response.output_item.added" n (project_output_item (OFunctionCall c))
  | ContentPartAdded p => part_event "response.content_part.added" n [("part", project_part p)]
  | TextDelta delta =>
      part_event "response.output_text.delta" n [("delta", VString delta); ("logprobs", Array [])]
  | TextDone p =>
      part_event "response.output_text.done" n [("text", VString (rp_text p)); ("logprobs", Array [])]
  | ContentPartDone p => part_event "response.content_part.done" n [("part", project_part p)]
  | OutputItemDone m => item_event "response.output_item.done" n (project_message m)
  | FunctionCallDone c => item_event "response.output_item.done" n (project_output_item (OFunctionCall c))
  | Completed r =>
      Object [("type", VString "response.completed"); ("sequence_number", Number n); ("response", project_resource r)]
  | ErrorEvent msg =>
      Object [("type", VString "error"); ("sequence_number", Number n); ("code", VString "server_error");
              ("message", VString msg); ("param", Null)]
  end.

(** [project_event]: the value carries the sequence number and moves it on. *)
Definition project_event (event : ResponseEvent) (p : ResponseProjection) : Value * ResponseProjection :=
  (event_value (pj_sequence p) event,
   mkProjection (pj_resource p) (wrapping_add (pj_sequence p) 1) (pj_buffer_output p) (pj_function_call p)).

Fixpoint project_rows (events : list ResponseEvent) (p : ResponseProjection)
  : list Value * ResponseProjection :=
  match events with
  | [] => ([], p)
  | event :: events' =>
      let '(v, p) := project_event event p in
      let '(vs, p) := project_rows events' p in
      (v :: vs, p)
  end.

Section rows.
(** [Display] of a JSON value. *)
Variable show : Value → string.

Definition row (v : Value) : string :=
  "data: " +:+ show v +:+ String (Ascii.ascii_of_nat 10) (String (Ascii.ascii_of_nat 10) "").

Definition project (event : StreamEvent) (p : ResponseProjection) : option (string * ResponseProjection) :=
  '(events, p) ← project_events event p;
  let '(values, p) := project_rows events p in
  Some (foldl (λ rows v, rows +:+ row v) "" values, p).
End rows.
