(* ===== verification/ResponsesLaws.v ===== *)
(** A streamed response and a response completed at once are the same resource. *)

From stdpp Require Import base strings list numbers.
From Stdlib Require Import Lia.
From S2P Require Import Prelude Json Engine Generation ContextStrategy Responses.

Fixpoint project_all (events : list StreamEvent) (p : ResponseProjection)
  : option (list ResponseEvent * ResponseProjection) :=
  match events with
  | [] => Some ([], p)
  | event :: events' =>
      '(out, p) ← project_events event p;
      '(outs, p) ← project_all events' p;
      Some (out ++ outs, p)
  end.

(** A whole stream: it starts, the tokens come, a tool call may be recognized, it ends. *)
Definition project_stream (started : StreamEvent) (tokens : list (string * N))
    (call : option ResponseFunctionCall) (finished : StreamEvent) (p : ResponseProjection)
  : option (list ResponseEvent * ResponseProjection) :=
  '(out1, p) ← project_events started p;
  '(out2, p) ← project_all ((λ t, EvToken t.1 t.2) <$> tokens) p;
  '(out3, p) ← project_events finished (set_function_call call p);
  Some (out1 ++ out2 ++ out3, p).

Definition joined (tokens : list (string * N)) : string := foldr (λ t s, t.1 +:+ s) "" tokens.

(** The text a client of the stream puts together. *)
Fixpoint delta_text (events : list ResponseEvent) : string :=
  match events with
  | [] => ""
  | TextDelta d :: events' => d +:+ delta_text events'
  | _ :: events' => delta_text events'
  end.

Lemma delta_text_app a b : delta_text (a ++ b) = delta_text a +:+ delta_text b.
Proof.
  induction a as [|e a IH]; [done|]. cbn [app delta_text]. destruct e; try exact IH.
  by rewrite IH, append_assoc.
Qed.

(** While tokens come, the output is one message in progress. *)
Definition talking (text : string) : list ResponseOutputItem :=
  [OMessage (mkMessage "msg_0" "assistant" "in_progress" [text_part text])].

Lemma project_tokens tokens p text :
  rr_output (pj_resource p) = talking text →
  project_all ((λ t, EvToken t.1 t.2) <$> tokens) p
  = Some (if pj_buffer_output p then [] else (λ t, TextDelta t.1) <$> tokens,
          with_resource (set_output (talking (text +:+ joined tokens)) (pj_resource p)) p).
Proof.
  revert p text. induction tokens as [|[t n] tokens IH]; intros p text Hout.
  - cbn. rewrite append_nil_r, <- Hout. destruct p as [[] ? [] ?]; done.
  - cbn [fmap list_fmap project_all project_events]. rewrite Hout. cbn [talking push_text rm_content text_part mbind option_bind mret option_ret].
    set (p' := with_resource _ p). cbn [fst snd].
    rewrite (IH p' (text +:+ t)) by done. unfold p'. cbn.
    destruct (pj_buffer_output p); cbn; by rewrite append_assoc.
Qed.

(** A response that is streamed ends as the resource a response completed at
    once would be, with the text of all tokens or the recognized tool call; its last
    event carries it, and the deltas a client puts together are that text whether
    the output is buffered or not. *)
Theorem stream_equals_complete now request request_id context_id c i e tokens call reason usage :
  usage_metadata usage = mkMetadata c i e →
  let resource := complete now (mkComplete request_id (sr_owner request) (sr_model request)
    (joined tokens) reason usage (sr_store request) (sr_previous_response_id request) (sr_tools request)
    (sr_tool_choice request) (sr_lineage_revision request) (sr_input request) call) in
  ∃ events p,
    project_stream (EvStarted request_id context_id c i e) tokens call (EvFinished reason usage)
      (stream_projection now request) = Some (events, p)
    ∧ completed_resource p = Some resource
    ∧ list.last events = Some (Completed resource)
    ∧ (call = None ∨ sr_buffer_output request = false → delta_text events = joined tokens).
Proof.
  intros Hu resource. unfold project_stream.
  set (p0 := stream_projection now request). destruct (project_events _ p0) as [[out1 p1]|] eqn:H1; [|done].
  cbn in H1. injection H1 as <- <-.
  cbn [mbind option_bind].
  match goal with |- context [project_all _ ?p] => set (p1 := p) end.
  rewrite (project_tokens tokens p1 "") by done.
  assert (delta_text ((λ t : string * N, TextDelta t.1) <$> tokens) = joined tokens) as Hdeltas.
  { clear. induction tokens as [|[t n] tokens IH]; [done|]. cbn. by rewrite IH. }
  unfold resource, complete.
  cbn [cr_usage cr_id cr_owner cr_model cr_text cr_reason cr_store cr_previous_response_id cr_tools
    cr_tool_choice cr_lineage_revision cr_input cr_function_call].
  rewrite Hu.
  destruct call as [call|].
  - eexists _, _. split; [reflexivity|]. split; [reflexivity|]. split.
    + rewrite app_assoc, last_app_cons. reflexivity.
    + intros [?|Hb]; [done|]. cbn in Hb |- *. rewrite Hb. cbn. rewrite delta_text_app, Hdeltas. cbn.
      by rewrite append_nil_r.
  - cbn. eexists _, _. split; [reflexivity|]. split; [reflexivity|]. split.
    + destruct (sr_buffer_output request); cbn [app]; [done|].
      rewrite !app_comm_cons, last_app_cons. reflexivity.
    + intros _. destruct (sr_buffer_output request); cbn.
      * by rewrite append_nil_r.
      * rewrite delta_text_app, Hdeltas. cbn. by rewrite append_nil_r.
Qed.

Definition demo_usage : Usage :=
  mkUsage 1 2 3 0 default_prefill "m" "r" "ctx" None 5 "completed" "c" "i" "i".

Definition demo_request : StreamResponse := mkStreamResponse "m" "o" true None [] [] Null false 1.

Lemma stream_equals_complete_witness :
  usage_metadata demo_usage = mkMetadata "c" "i" "i"
  ∧ ∃ events p, project_stream (EvStarted "resp_1" "ctx" "c" "i" "i") [("he", 0%N); ("llo", 1%N)] None
      (EvFinished FinishStop demo_usage) (stream_projection 7 demo_request) = Some (events, p)
    ∧ delta_text events = "hello".
Proof.
  assert (usage_metadata demo_usage = mkMetadata "c" "i" "i") as H by reflexivity. split; [exact H|].
  destruct (stream_equals_complete 7 demo_request "resp_1" "ctx" "c" "i" "i" [("he", 0%N); ("llo", 1%N)]
    None FinishStop demo_usage H) as (events & p & Hp & _ & _ & Hd).
  exists events, p. split; [exact Hp|]. exact (Hd (or_introl eq_refl)).
Defined.

(** Rows are numbered one after the other. *)
Lemma project_rows_numbered events p :
  (pj_sequence p + N.of_nat (length events) ≤ u64_max)%N →
  (project_rows events p).1 = imap (λ k event, event_value (pj_sequence p + N.of_nat k) event) events
  ∧ pj_sequence (project_rows events p).2 = (pj_sequence p + N.of_nat (length events))%N.
Proof.
  revert p. induction events as [|event events IH]; intros p Hb; [cbn; split; [done|lia]|].
  cbn [project_rows project_event]. set (p' := mkProjection _ _ _ _).
  assert (pj_sequence p' = (pj_sequence p + 1)%N) as Hp'.
  { unfold p'. cbn. unfold wrapping_add. rewrite N.mod_small; [done|]. cbn [length] in Hb. lia. }
  destruct (IH p') as [IH1 IH2]; [rewrite Hp'; cbn [length] in Hb; lia|].
  destruct (project_rows events p') as [vs p'']. cbn [fst snd] in *. rewrite IH2, Hp'. cbn [imap length]. split.
  - f_equal; [f_equal; lia|]. rewrite IH1. apply imap_ext. intros k x _. rewrite Hp'. cbn. f_equal. lia.
  - lia.
Qed.
