(* ===== verification/ResponseStore.v ===== *)
(** Stored responses: the file store with its lineage of successors
    ([crates/server/src/response_store.rs]), the service that adds transient
    responses ([responses.rs]) and the context updates that fold a lineage
    ([context_updates.rs]).

    The file system answers each call from a list of outcomes ([true] is success, an
    exhausted list is success), so that a failure between two calls can be stated.
    The content of a file, its serialization and parsing are the serialization
    library's: parameters. Time and fresh identifiers are arguments. Each method is
    one step; [put] takes the lock of the table three times, but between them it
    touches nothing but its own resource. *)

From stdpp Require Import gmap strings list numbers pretty.
From Stdlib Require Import Lia.
From S2P Require Import Prelude Json Engine Generation Responses.

Definition RESPONSE_RETENTION_SECONDS : N := (30 * 24 * 60 * 60)%N.

Definition expired (r : ResponseResource) (timestamp : N) : bool :=
  (RESPONSE_RETENTION_SECONDS <=? saturating_sub timestamp (rr_created_at r))%N.

Inductive StoreError : Type :=
| NotFound (id : string)
| Io
| Malformed (detail : string)
| StaleRevision (expected current : N)
| StoreConflict (id : string).

Section store.
(** What a file holds, [serde_json::to_vec_pretty] and [serde_json::from_slice]. *)
Context {Content : Type}.
Variable to_json : ResponseResource → Content.
Variable from_json : Content → result string ResponseResource.

Record Store : Type := mkStore {
  fs_resources : gmap string Content;
  fs_recovered : gmap string ResponseResource;
  fs_io : list bool;
}.

Abbreviation F := (M Store StoreError).

(** ** The file system *)

Definition io : F unit := λ s,
  match fs_io s with
  | [] => Done tt s
  | true :: rest => Done tt (mkStore (fs_resources s) (fs_recovered s) rest)
  | false :: rest => Fail Io (mkStore (fs_resources s) (fs_recovered s) rest)
  end.

Definition on_files (h : gmap string Content → gmap string Content) : F unit :=
  modify (λ s, mkStore (h (fs_resources s)) (fs_recovered s) (fs_io s)).

Definition on_recovered (h : gmap string ResponseResource → gmap string ResponseResource) : F unit :=
  modify (λ s, mkStore (fs_resources s) (h (fs_recovered s)) (fs_io s)).

Definition resource_path (id : string) : string := id +:+ ".json".

(** [fs::remove_file]: an absent file is an error. *)
Definition remove_file (name : string) : F unit :=
  s ← get;
  match fs_resources s !! name with
  | None => throw Io
  | Some _ => _ ← io; on_files (delete name)
  end.

(** [File::open(directory)?.sync_all()]. *)
Definition sync_directory : F unit := _ ← io; io.

(** The file is written aside (create, write, synchronize), then renamed in place. *)
Definition write_resource (r : ResponseResource) : F unit :=
  _ ← io; _ ← io; _ ← io;
  _ ← io; _ ← on_files <[resource_path (rr_id r) := to_json r]>;
  sync_directory.

(** ** The store *)

Definition prune_expired (now : N) : F unit :=
  s ← get;
  let expired_ids := rr_id <$> List.filter (λ r, expired r now) (map_values (fs_recovered s)) in
  _ ← for_each (λ id, _ ← remove_file (resource_path id); on_recovered (delete id)) expired_ids;
  match expired_ids with
  | [] => mret tt
  | _ => sync_directory
  end.

Definition put (now : N) (r : ResponseResource) : F unit :=
  _ ← prune_expired now;
  _ ← write_resource r;
  on_recovered <[rr_id r := r]>.

Definition follows (base_id : string) (r : ResponseResource) : bool :=
  bool_decide (rr_previous_response_id r = Some base_id).

Definition put_successor (now : N) (base_id : string) (expected_revision : N) (r : ResponseResource) : F unit :=
  _ ← prune_expired now;
  s ← get;
  base ← ok_or (fs_recovered s !! base_id) (NotFound base_id);
  _ ← guard_not (negb (rr_lineage_revision base =? expected_revision)%N)
        (StaleRevision expected_revision (rr_lineage_revision base));
  _ ← guard_not (existsb (follows base_id) (map_values (fs_recovered s))) (StoreConflict base_id);
  _ ← write_resource r;
  on_recovered <[rr_id r := r]>.

Definition get_resource (id : string) : F ResponseResource :=
  s ← get;
  ok_or (fs_recovered s !! id) (NotFound id).

Definition delete_resource (id : string) : F unit :=
  s ← get;
  _ ← guard_not (bool_decide (fs_recovered s !! id = None)) (NotFound id);
  _ ← guard_not (existsb (follows id) (map_values (fs_recovered s))) (StoreConflict id);
  _ ← remove_file (resource_path id);
  _ ← sync_directory;
  on_recovered (delete id).

(** ** Opening *)

(** [path.extension() == Some("json")]: a leading dot makes no extension. *)
Definition json_file (name : string) : bool :=
  bool_decide (".json" = String.substring (String.length name - 5) 5 name)
  && (5 <? String.length name).

Definition recover_entry (now : N) (name : string) : F unit :=
  if negb (json_file name) then mret tt
  else
    _ ← io;
    s ← get;
    match fs_resources s !! name with
    | None => throw Io
    | Some content =>
        match from_json content with
        | Err e => throw (Malformed e)
        | Ok r =>
            _ ← guard_not (negb (bool_decide (name = resource_path (rr_id r)))) (Malformed (rr_id r));
            if expired r now then remove_file name else on_recovered <[rr_id r := r]>
        end
    end.

(** [FileResponseResourceStore::open] on what the directory holds: two directories
    are created, the entries listed and visited by name. *)
Definition open (now : N) : F unit :=
  _ ← on_recovered (λ _, ∅);
  _ ← io; _ ← io; _ ← io;
  s ← get;
  for_each (recover_entry now) (sort_strings ((map_to_list (fs_resources s)).*1)).

(** ** The service *)

Definition TRANSIENT_RESPONSE_CAPACITY : nat := Pos.to_nat 1024.

Record TransientResponses : Type := mkTransient {
  tr_resources : gmap string ResponseResource;
  tr_insertion_order : list string;
}.

Record ResponseService : Type := mkService {
  rs_store : Store;
  rs_transient : TransientResponses;
}.

Abbreviation S := (M ResponseService StoreError).

Definition lift_store {A} (m : F A) : S A := λ s,
  match m (rs_store s) with
  | Done a st => Done a (mkService st (rs_transient s))
  | Fail e st => Fail e (mkService st (rs_transient s))
  | Panic => Panic
  end.

(** [while resources.len() > CAPACITY { pop_front .. }]: structural in the order. *)
Fixpoint evict (resources : gmap string ResponseResource) (order : list string) : TransientResponses :=
  if size resources <=? TRANSIENT_RESPONSE_CAPACITY then mkTransient resources order
  else match order with
    | [] => mkTransient resources []
    | id :: order' => evict (delete id resources) order'
    end.

Definition remember_transient (r : ResponseResource) (t : TransientResponses) : TransientResponses :=
  let order :=
    if bool_decide (tr_resources t !! rr_id r = None)
    then tr_insertion_order t ++ [rr_id r] else tr_insertion_order t in
  evict (<[rr_id r := r]> (tr_resources t)) order.

Definition remember (now : N) (r : ResponseResource) : S unit :=
  if rr_store r then
    match rr_previous_response_id r with
    | Some base_id => lift_store (put_successor now base_id (saturating_sub (rr_lineage_revision r) 1) r)
    | None => lift_store (put now r)
    end
  else modify (λ s, mkService (rs_store s) (remember_transient r (rs_transient s))).

Definition persist (now : N) (r : ResponseResource) : S unit := lift_store (put now r).

Definition commit_successor (now : N) (base_id : string) (expected_revision : N) (r : ResponseResource) : S unit :=
  lift_store (put_successor now base_id expected_revision r).

Definition retrieve (id owner : string) : S ResponseResource :=
  s ← get;
  r ← match tr_resources (rs_transient s) !! id with
      | Some r => mret r
      | None => lift_store (get_resource id)
      end;
  _ ← guard_not (negb (bool_decide (rr_owner r = owner))) (NotFound id);
  mret r.

Definition delete_response (id owner : string) : S unit :=
  _ ← retrieve id owner;
  s ← get;
  let t := rs_transient s in
  _ ← guard_not (existsb (follows id) (map_values (tr_resources t))) (StoreConflict id);
  match tr_resources t !! id with
  | Some _ =>
      modify (λ s, mkService (rs_store s)
        (mkTransient (delete id (tr_resources t)) (filter (λ x, x ≠ id) (tr_insertion_order t))))
  | None => lift_store (delete_resource id)
  end.

(** ** Context updates *)

Definition CONTEXT_UPDATE_CAPABILITY : string := "cusco.context_update.v1".

Inductive ContextUpdateOperation : Type :=
| Fold (items : list ResponseInputItem).

Record ContextUpdateRequest : Type := mkUpdateRequest {
  ur_base_response_id : string;
  ur_expected_revision : N;
  ur_operation_id : option string;
  ur_operation : ContextUpdateOperation;
}.

Record ContextUpdateResult : Type := mkUpdateResult {
  ur_capability : string;
  ur_result_operation_id : string;
  ur_correlation_id : string;
  ur_result_base_response_id : string;
  ur_base_revision : N;
  ur_revision : N;
  ur_response : Value;
}.

Definition operation_name (op : ContextUpdateOperation) : string :=
  match op with Fold _ => "fold" end.

Definition operation_items (op : ContextUpdateOperation) : list ResponseInputItem :=
  match op with Fold items => items end.

Definition is_message (item : ResponseInputItem) : bool :=
  match item with IMessage _ _ => true | _ => false end.

(** [response_store_error]; the text of a conflict is the error's display. *)
Variable display : StoreError → string.

Definition response_store_error (e : StoreError) : ServerError.Error :=
  match e with
  | NotFound _ => ServerError.ContextNotFound
  | StaleRevision _ _ | StoreConflict _ => ServerError.Conflict (display e)
  | _ => ServerError.State (display e)
  end.

Abbreviation U := (M ResponseService ServerError.Error).

Definition map_err {A} (m : S A) : U A := λ s,
  match m s with
  | Done a s' => Done a s'
  | Fail e s' => Fail (response_store_error e) s'
  | Panic => Panic
  end.

(** An item of the update as an output; a tool call is the [unreachable] arm. *)
Definition output_item (uuid : string) (index : N) (item : ResponseInputItem) : U ResponseOutputItem :=
  match item with
  | IMessage _ text =>
      mret (OMessage (mkMessage ("msg_" +:+ uuid +:+ "_" +:+ pretty index) "assistant" "completed"
                        [text_part text]))
  | _ => panic
  end.

(** [uuids] are the fresh identifiers of the operation, the response and its items;
    [before] and [later] the states of the request's control when it is checked. *)
Definition apply (now : N) (uuid_operation uuid_response : string) (uuid_item : N → string)
    (before later : Control.RequestControl) (owner correlation_id : string)
    (request : ContextUpdateRequest) : U ContextUpdateResult :=
  _ ← guard_not (bool_decide (ur_base_response_id request = ""))
        (ServerError.BadRequest "base_response_id must not be empty");
  let items := operation_items (ur_operation request) in
  _ ← guard_not (match items with [] => true | _ => false end)
        (ServerError.BadRequest "fold items must not be empty");
  _ ← guard_not (existsb (λ item, negb (is_message item)) items)
        (ServerError.BadRequest "fold items must be portable message items");
  base ← map_err (retrieve (ur_base_response_id request) owner);
  _ ← guard_not (negb (rr_store base))
        (ServerError.BadRequest "context updates require a stored base response");
  _ ← lift_result (Control.check before);
  let operation_id := default ("ctxupd_" +:+ uuid_operation) (ur_operation_id request) in
  _ ← guard_not (bool_decide (operation_id = "")) (ServerError.BadRequest "operation_id must not be empty");
  output ← map_M (λ p, output_item (uuid_item p.1) p.1 p.2) (imap (λ k item, (N.of_nat k, item)) items);
  let revision := saturating_add (ur_expected_revision request) 1 in
  let response :=
    mkResource RESPONSE_SCHEMA_VERSION ("resp_" +:+ uuid_response) owner (rr_model base) now "completed"
      true (Some (ur_base_response_id request)) items output (rr_tools base) (rr_tool_choice base)
      (Some FinishStop) None (mkMetadata correlation_id operation_id "") revision
      (Some (mkUpdateMetadata operation_id (operation_name (ur_operation request))
               (ur_base_response_id request) (ur_expected_revision request) correlation_id)) in
  _ ← lift_result (Control.check later);
  _ ← map_err (commit_successor now (ur_base_response_id request) (ur_expected_revision request) response);
  mret (mkUpdateResult CONTEXT_UPDATE_CAPABILITY operation_id correlation_id
          (ur_base_response_id request) (ur_expected_revision request) revision (project_resource response)).
End store.

Arguments Store : clear implicits.
Arguments ResponseService : clear implicits.
