(* ===== verification/ResponseStoreLaws.v ===== *)
(** Lineages stay linear whatever the file system does; without its failures a
    restart recovers what was stored. *)

From stdpp Require Import gmap strings list numbers pretty.
From Stdlib Require Import Lia.
From S2P Require Import Prelude Json Engine Generation Responses ResponseStore.

(** ** File names *)

#[export] Instance resource_path_inj : Inj (=) (=) resource_path.
Proof. intros a b. apply append_inj_r. Qed.

Lemma json_file_path id : id ≠ "" → json_file (resource_path id) = true.
Proof.
  intros Hid. unfold json_file, resource_path. rewrite append_length. cbn [String.length].
  replace (String.length id + 5 - 5) with (String.length id) by lia.
  pose proof (substring_append id ".json") as Hs. cbn [String.length] in Hs.
  rewrite Hs, bool_decide_true by done. cbn [andb].
  apply Nat.ltb_lt. destruct id; [done|]. cbn [String.length]. lia.
Qed.

(** ** Linear lineages *)

Definition filed (rec : gmap string ResponseResource) : Prop :=
  ∀ id r, rec !! id = Some r → rr_id r = id.

(** No two stored responses follow the same one. *)
Definition linear (rec : gmap string ResponseResource) : Prop :=
  ∀ id1 id2 r1 r2 base_id, rec !! id1 = Some r1 → rec !! id2 = Some r2 →
    rr_previous_response_id r1 = Some base_id → rr_previous_response_id r2 = Some base_id → id1 = id2.

Lemma filed_sub rec rec' : rec' ⊆ rec → filed rec → filed rec'.
Proof. intros Hs Hf id r Hr. apply Hf. by eapply lookup_weaken. Qed.

Lemma linear_sub rec rec' : rec' ⊆ rec → linear rec → linear rec'.
Proof. intros Hs Hl id1 id2 r1 r2 b H1 H2. apply (Hl id1 id2 r1 r2 b); by eapply lookup_weaken. Qed.

Lemma filed_insert rec r : filed rec → filed (<[rr_id r := r]> rec).
Proof. intros Hf id r' [[<- <-]|[_ Hr]]%lookup_insert_Some; [done|by apply Hf]. Qed.

Lemma follower (rec : gmap string ResponseResource) id r base_id :
  existsb (follows base_id) (map_values rec) = false → rec !! id = Some r →
  rr_previous_response_id r ≠ Some base_id.
Proof.
  intros Hno Hr Hp. apply not_true_iff_false in Hno. apply Hno, existsb_exists. exists r.
  split; [|by apply bool_decide_true]. apply list_elem_of_In. unfold map_values.
  apply list_elem_of_fmap. exists (id, r). split; [done|]. by apply elem_of_map_to_list.
Qed.

Lemma linear_insert rec r :
  linear rec →
  (∀ base_id, rr_previous_response_id r = Some base_id → existsb (follows base_id) (map_values rec) = false) →
  linear (<[rr_id r := r]> rec).
Proof.
  intros Hl Hno id1 id2 r1 r2 b [[<- <-]|[_ H1]]%lookup_insert_Some [[<- <-]|[_ H2]]%lookup_insert_Some Hp1 Hp2.
  - done.
  - by destruct (follower _ _ _ _ (Hno b Hp1) H2 Hp2).
  - by destruct (follower _ _ _ _ (Hno b Hp2) H1 Hp1).
  - by eapply Hl.
Qed.

(** ** The store, with failures *)

Section store.
Context {Content : Type}.
Variable to_json : ResponseResource → Content.
Variable from_json : Content → result string ResponseResource.
Implicit Types (s : Store Content).

Abbreviation recovered := (@fs_recovered Content).

(** A call of the file system changes no table. *)
Definition same_recovered s s' : Prop := recovered s' = recovered s.

Lemma wp_io (Q : unit → _ → Prop) (R : StoreError → _ → Prop) s :
  (∀ s', same_recovered s s' → Q tt s' ∧ R Io s') → wp io Q R s.
Proof. intros H. unfold wp_gen, io. destruct (fs_io s) as [|[] ?]; by apply H. Qed.

Lemma wp_write r (Q : unit → _ → Prop) (R : StoreError → _ → Prop) s :
  (∀ s', same_recovered s s' → Q tt s' ∧ R Io s') → wp (write_resource to_json r) Q R s.
Proof.
  intros H. unfold write_resource, sync_directory, on_files, same_recovered in *.
  do 4 (rewrite wp_bind; apply wp_io; unfold same_recovered; intros ? ?; split; [|by apply H; congruence]).
  rewrite wp_bind, wp_modify, wp_bind. apply wp_io. unfold same_recovered. intros ? ?. cbn in *.
  split; [|by apply H; congruence]. apply wp_io. unfold same_recovered. intros ? ?. apply H. congruence.
Qed.

(** What a method leaves of the table, however it ends. *)
Definition shrinks s s' : Prop := recovered s' ⊆ recovered s.

Lemma wp_remove name (Q : unit → _ → Prop) (R : StoreError → _ → Prop) s :
  (∀ s', same_recovered s s' → Q tt s' ∧ R Io s') → wp (remove_file name) Q R s.
Proof.
  intros H. unfold remove_file, on_files. rewrite wp_bind, wp_get.
  destruct (fs_resources s !! name); [|rewrite wp_throw; by apply H].
  rewrite wp_bind. apply wp_io. intros s' Hs'. split; [|by apply H].
  rewrite wp_modify. by apply H.
Qed.

Lemma wp_sync (Q : unit → _ → Prop) (R : StoreError → _ → Prop) s :
  (∀ s', same_recovered s s' → Q tt s' ∧ R Io s') → wp sync_directory Q R s.
Proof.
  intros H. unfold sync_directory, same_recovered in *. rewrite wp_bind. apply wp_io. intros ? Hs1.
  split; [|by apply H]. apply wp_io. unfold same_recovered in *. intros ? ?. apply H. congruence.
Qed.

Lemma store_shrinks_refl s : shrinks s s.
Proof. by unfold shrinks. Qed.

Lemma prune_shrinks now s : wp (prune_expired now) (λ _ s', shrinks s s') (λ _ s', shrinks s s') s.
Proof.
  unfold prune_expired. rewrite wp_bind, wp_get. set (ids := rr_id <$> _). rewrite wp_bind.
  eapply wp_mono; [apply (wp_for_each False _ (λ _ s', shrinks s s') (λ _ s', shrinks s s'))|..].
  - unfold shrinks. done.
  - intros id l s' Hs'. rewrite wp_bind. apply wp_remove. unfold same_recovered. intros s1 H1.
    split; [|unfold shrinks; by rewrite H1]. unfold on_recovered. rewrite wp_modify. unfold shrinks in *. cbn.
    rewrite H1. etrans; [apply delete_subseteq|done].
  - intros ? s' Hs'. cbn in Hs'. destruct ids; [by rewrite wp_ret|]. apply wp_sync.
    unfold same_recovered, shrinks in *. intros s1 H1. by rewrite H1.
  - done.
Qed.

Lemma put_spec now r s :
  wp (put to_json now r)
    (λ _ s', ∃ rec, rec ⊆ recovered s ∧ recovered s' = <[rr_id r := r]> rec)
    (λ _ s', shrinks s s') s.
Proof.
  unfold put. rewrite wp_bind. eapply wp_mono; [apply prune_shrinks|..]; [|done].
  intros ? s1 H1. cbn in H1. rewrite wp_bind. apply wp_write. unfold same_recovered, shrinks. intros s2 H2.
  unfold on_recovered. rewrite wp_modify. split; [|by rewrite H2].
  exists (recovered s1). split; [done|]. cbn. by rewrite H2.
Qed.

(** The compare-and-set of a lineage: the base is there, at the expected revision,
    and nothing follows it yet. *)
Lemma put_successor_spec now base_id expected r s :
  wp (put_successor to_json now base_id expected r)
    (λ _ s', ∃ rec base, rec ⊆ recovered s ∧ recovered s' = <[rr_id r := r]> rec
      ∧ rec !! base_id = Some base ∧ rr_lineage_revision base = expected
      ∧ existsb (follows base_id) (map_values rec) = false)
    (λ _ s', shrinks s s') s.
Proof.
  unfold put_successor. rewrite wp_bind. eapply wp_mono; [apply prune_shrinks|..]; [|done].
  intros ? s1 H1. cbn in H1. rewrite wp_bind, wp_get, wp_bind, wp_ok_or.
  destruct (recovered s1 !! base_id) as [b|] eqn:Hb; [|done].
  rewrite wp_bind, wp_guard_not. destruct (N.eqb_spec (rr_lineage_revision b) expected) as [Hrev|]; [|done].
  cbn [negb]. rewrite wp_bind, wp_guard_not.
  destruct (existsb (follows base_id) (map_values (recovered s1))) eqn:Hf; [done|].
  rewrite wp_bind. apply wp_write. unfold same_recovered, shrinks. intros s2 H2.
  unfold on_recovered. rewrite wp_modify. split; [|by rewrite H2].
  exists (recovered s1), b. split; [done|]. split; [cbn; by rewrite H2|done].
Qed.

Lemma delete_shrinks id s : wp (delete_resource id) (λ _ s', shrinks s s') (λ _ s', shrinks s s') s.
Proof.
  unfold delete_resource. rewrite wp_bind, wp_get, wp_bind, wp_guard_not.
  destruct (bool_decide _); [apply store_shrinks_refl|]. rewrite wp_bind, wp_guard_not.
  destruct (existsb _ _); [apply store_shrinks_refl|]. rewrite wp_bind. apply wp_remove. unfold same_recovered, shrinks.
  intros s1 H1. split; [|by rewrite H1]. rewrite wp_bind. apply wp_sync. unfold same_recovered.
  intros s2 H2. split; [|by rewrite H2, H1]. unfold on_recovered. rewrite wp_modify. cbn.
  rewrite H2, H1. apply delete_subseteq.
Qed.

(** ** The service *)

Record transient_ok (t : TransientResponses) : Prop := {
  to_nodup : base.NoDup (tr_insertion_order t);
  to_keys : ∀ id, id ∈ tr_insertion_order t ↔ is_Some (tr_resources t !! id);
  to_small : size (tr_resources t) ≤ TRANSIENT_RESPONSE_CAPACITY;
}.

Record service_ok (s : ResponseService Content) : Prop := {
  so_filed : filed (recovered (rs_store s));
  so_linear : linear (recovered (rs_store s));
  so_transient : transient_ok (rs_transient s);
}.

Lemma order_size (m : gmap string ResponseResource) order :
  base.NoDup order → (∀ id, id ∈ order ↔ is_Some (m !! id)) → length order = size m.
Proof.
  intros Hn Hk. rewrite <- size_dom, <- (size_list_to_set (C := gset string) order) by done. f_equal.
  apply set_eq. intros id. by rewrite elem_of_list_to_set, elem_of_dom, Hk.
Qed.

Lemma evict_transient_ok m order :
  base.NoDup order → (∀ id, id ∈ order ↔ is_Some (m !! id)) → transient_ok (evict m order).
Proof.
  revert m. induction order as [|id order IH]; intros m Hn Hk; pose proof (order_size m _ Hn Hk) as Hsize.
  - unfold evict. rewrite (proj2 (Nat.leb_le _ _)) by (rewrite <- Hsize; cbn; lia).
    split; [done|done|]. cbn in *. rewrite <- Hsize. lia.
  - cbn [evict]. destruct (Nat.leb_spec (size m) TRANSIENT_RESPONSE_CAPACITY) as [|Hgt]; [by split|].
    apply list.NoDup_cons in Hn as [Hnot Hn]. apply IH; [done|]. intros id'.
    destruct (decide (id = id')) as [<-|Hne].
    + rewrite lookup_delete_eq. split; [done|]. by intros [].
    + rewrite lookup_delete_ne, <- Hk, elem_of_cons by done. split; [by right|]. by intros [->|].
Qed.

Lemma remember_transient_ok r t : transient_ok t → transient_ok (remember_transient r t).
Proof.
  intros [Hn Hk _]. unfold remember_transient. apply evict_transient_ok.
  - case_bool_decide as Hnone; [|done]. apply list.NoDup_app. split; [done|]. split.
    + intros id Hin ->%list_elem_of_singleton. apply Hk in Hin as [? Hin]. congruence.
    + apply NoDup_singleton.
  - intros id. rewrite lookup_insert_is_Some. case_bool_decide as Hnone.
    + rewrite elem_of_app, list_elem_of_singleton, Hk. destruct (decide (rr_id r = id)); naive_solver.
    + rewrite Hk. split; [destruct (decide (rr_id r = id)); by auto|]. intros [<-|[_ ?]]; [|done].
      destruct (tr_resources t !! rr_id r); [by eexists|done].
Qed.

Lemma lift_store_ok {A} (m : M (Store Content) StoreError A) (s : ResponseService Content) :
  service_ok s →
  wp m (λ _ st, filed (recovered st) ∧ linear (recovered st))
    (λ _ st, filed (recovered st) ∧ linear (recovered st)) (rs_store s) →
  wp (lift_store m) (λ _ sv, service_ok sv) (λ _ sv, service_ok sv) s.
Proof.
  intros [_ _ Ht]. unfold wp_gen, lift_store. destruct (m (rs_store s)); [| |done];
    intros [? ?]; by split.
Qed.

Lemma shrinks_ok s s' : shrinks s s' → filed (recovered s) → linear (recovered s) →
  filed (recovered s') ∧ linear (recovered s').
Proof. intros Hs Hf Hl. split; [by eapply filed_sub|by eapply linear_sub]. Qed.

Lemma put_ok now r (s : ResponseService Content) :
  service_ok s → rr_previous_response_id r = None →
  wp (lift_store (put to_json now r)) (λ _ sv, service_ok sv) (λ _ sv, service_ok sv) s.
Proof.
  intros Hok Hp. apply lift_store_ok; [done|]. destruct Hok as [Hf Hl _].
  eapply wp_mono; [apply put_spec|..]; cbn.
  - intros ? s' (rec & Hsub & ->). split; [by apply filed_insert; eapply filed_sub|].
    apply linear_insert; [by eapply linear_sub|]. congruence.
  - intros ? s' Hs. by eapply shrinks_ok.
Qed.

Lemma commit_successor_ok now base_id expected r (s : ResponseService Content) :
  service_ok s → rr_previous_response_id r = Some base_id →
  wp (commit_successor to_json now base_id expected r) (λ _ sv, service_ok sv) (λ _ sv, service_ok sv) s.
Proof.
  intros Hok Hp. apply lift_store_ok; [done|]. destruct Hok as [Hf Hl _].
  eapply wp_mono; [apply put_successor_spec|..]; cbn.
  - intros ? s' (rec & b & Hsub & -> & _ & _ & Hno). split; [by apply filed_insert; eapply filed_sub|].
    apply linear_insert; [by eapply linear_sub|]. intros b'. rewrite Hp. by intros [= <-].
  - intros ? s' Hs. by eapply shrinks_ok.
Qed.

Lemma remember_ok now r (s : ResponseService Content) :
  service_ok s → wp (remember to_json now r) (λ _ sv, service_ok sv) (λ _ sv, service_ok sv) s.
Proof.
  intros Hok. unfold remember. destruct (rr_store r).
  - destruct (rr_previous_response_id r) eqn:Hp; [by apply commit_successor_ok|by apply put_ok].
  - rewrite wp_modify. destruct Hok as [? ? ?]. split; [done|done|]. by apply remember_transient_ok.
Qed.

Lemma retrieve_same id owner (s : ResponseService Content) :
  wp (retrieve id owner) (λ _ sv, sv = s) (λ _ sv, sv = s) s.
Proof.
  unfold retrieve. rewrite wp_bind, wp_get, wp_bind.
  assert (∀ r, wp (_ ← guard_not (negb (bool_decide (rr_owner r = owner))) (NotFound id); mret r)
    (λ _ sv, sv = s) (λ _ sv, sv = s) s) as Hg.
  { intros r. rewrite wp_bind, wp_guard_not. by destruct (negb _). }
  destruct (tr_resources (rs_transient s) !! id); [by rewrite wp_ret|].
  unfold wp_gen at 1, lift_store, get_resource, mbind at 1, M_bind, get. unfold ok_or.
  destruct (recovered (rs_store s) !! id); cbn; destruct s; [apply Hg|done].
Qed.

Lemma delete_response_ok id owner (s : ResponseService Content) :
  service_ok s → wp (delete_response id owner) (λ _ sv, service_ok sv) (λ _ sv, service_ok sv) s.
Proof.
  intros Hok. unfold delete_response. rewrite wp_bind.
  eapply wp_mono; [apply retrieve_same|..]; cbn; [|by intros ? s' ->].
  intros ? s' ->. rewrite wp_bind, wp_get, wp_bind, wp_guard_not. destruct (existsb _ _); [done|].
  destruct (tr_resources (rs_transient s) !! id) as [r|] eqn:Hr.
  - rewrite wp_modify. destruct Hok as [? ? [Hn Hk Hs]]. split; [done|done|]. split; cbn.
    + by apply NoDup_filter.
    + intros id'. rewrite list_elem_of_filter, Hk. rewrite lookup_delete_is_Some. naive_solver.
    + rewrite map_size_delete_Some by done. lia.
  - apply lift_store_ok; [done|]. eapply wp_mono; [apply delete_shrinks|..]; cbn;
      intros ? s' Hs; eapply shrinks_ok; try done; apply Hok.
Qed.

(** ** Context updates *)

Variable display : StoreError → string.

Lemma map_err_ok {A} (m : M (ResponseService Content) StoreError A) (Q : A → _ → Prop) (P : _ → Prop)
    (sv0 : ResponseService Content) :
  wp m Q (λ _ sv, P sv) sv0 → wp (map_err display m) Q (λ _ sv, P sv) sv0.
Proof. unfold wp_gen, map_err. by destruct (m sv0). Qed.

Lemma outputs_ok (uuid : N → string) (pairs : list (N * ResponseInputItem))
    (sv0 : ResponseService Content) :
  Forall (λ p, is_message p.2 = true) pairs →
  wp (map_M (λ p, output_item (uuid p.1) p.1 p.2) pairs) (λ _ sv, sv = sv0) (λ _ _, False) sv0.
Proof.
  induction 1 as [|[n item] pairs Hm _ IH]; [done|]. cbn [map_M]. rewrite wp_bind.
  destruct item; try done. cbn [output_item fst snd]. rewrite wp_ret, wp_bind.
  eapply wp_mono; [exact IH|..]; cbn beta; [|done]. intros ? sv ->. by rewrite wp_ret.
Qed.

(** An update leaves what its commit leaves. *)
Lemma apply_spec (P : ResponseService Content → Prop) now u1 u2 u3 before later owner correlation request sv0 :
  P sv0 →
  (∀ r sv, rr_previous_response_id r = Some (ur_base_response_id request) → rr_id r ≠ "" → P sv →
    wp (commit_successor to_json now (ur_base_response_id request) (ur_expected_revision request) r)
      (λ _ sv, P sv) (λ _ sv, P sv) sv) →
  wp (apply to_json display now u1 u2 u3 before later owner correlation request)
    (λ _ sv, P sv) (λ _ sv, P sv) sv0.
Proof.
  intros Hok Hcommit. unfold apply. rewrite wp_bind, wp_guard_not. destruct (bool_decide _); [done|].
  set (items := operation_items (ur_operation request)).
  rewrite wp_bind, wp_guard_not. destruct (match items with [] => true | _ :: _ => false end); [done|].
  rewrite wp_bind, wp_guard_not. destruct (existsb _ _) eqn:Hmsg; [done|].
  rewrite wp_bind. apply map_err_ok. eapply wp_mono; [apply retrieve_same|..]; cbn; [|by intros ? sv ->].
  intros b sv ->. rewrite wp_bind, wp_guard_not. destruct (negb _); [done|].
  rewrite wp_bind, wp_lift. destruct (Control.check before); [|done].
  rewrite wp_bind, wp_guard_not. destruct (bool_decide _); [done|].
  rewrite wp_bind. eapply wp_mono; [apply outputs_ok|..]; cbn beta; [| |done].
  - apply Forall_forall. intros [n item] (k & item' & [= -> ->] & Hin)%elem_of_lookup_imap.
    apply list_elem_of_lookup_2, list_elem_of_In in Hin. cbn. destruct (is_message item') eqn:Hi; [done|].
    apply not_true_iff_false in Hmsg. destruct Hmsg. apply existsb_exists. exists item'. by rewrite Hi.
  - intros out sv ->. rewrite wp_bind, wp_lift. destruct (Control.check later); [|done].
    rewrite wp_bind. apply map_err_ok. eapply wp_mono; [by apply Hcommit|..]; cbn; [|done].
    by intros ? sv Hsv.
Qed.

Lemma apply_ok now u1 u2 u3 before later owner correlation request (sv0 : ResponseService Content) :
  service_ok sv0 →
  wp (apply to_json display now u1 u2 u3 before later owner correlation request)
    (λ _ sv, service_ok sv) (λ _ sv, service_ok sv) sv0.
Proof. intros Hok. apply apply_spec; [done|]. intros r sv Hp _ Hsv. by apply commit_successor_ok. Qed.

(** ** Histories *)

Inductive ResponseOp : Type :=
| Remember (now : N) (r : ResponseResource)
| Commit (now : N) (base_id : string) (expected_revision : N) (r : ResponseResource)
| Delete (id owner : string)
| Update (now : N) (uuid_operation uuid_response : string) (uuid_item : N → string)
    (before later : Control.RequestControl) (owner correlation_id : string) (request : ContextUpdateRequest).

(** A successor is committed under the base it names. *)
Definition admissible (op : ResponseOp) : Prop :=
  match op with
  | Commit _ base_id _ r => rr_previous_response_id r = Some base_id
  | _ => True
  end.

Definition response_step (op : ResponseOp) (sv : ResponseService Content) : option (ResponseService Content) :=
  match op with
  | Remember now r => after (remember to_json now r) sv
  | Commit now base_id expected r => after (commit_successor to_json now base_id expected r) sv
  | Delete id owner => after (delete_response id owner) sv
  | Update now u1 u2 u3 before later owner correlation request =>
      after (apply to_json display now u1 u2 u3 before later owner correlation request) sv
  end.

Fixpoint response_run (ops : list ResponseOp) (sv : ResponseService Content) : option (ResponseService Content) :=
  match ops with
  | [] => Some sv
  | op :: ops' => sv' ← response_step op sv; response_run ops' sv'
  end.

Definition empty_service (io : list bool) : ResponseService Content :=
  mkService (mkStore ∅ ∅ io) (mkTransient ∅ []).

Lemma empty_ok io : service_ok (empty_service io).
Proof.
  split; cbn; [intros id r Hr; by rewrite lookup_empty in Hr|intros ????? H; by rewrite lookup_empty in H|].
  split; cbn; [constructor| |rewrite map_size_empty; lia].
  intros id. rewrite lookup_empty. split; [intros H; by apply not_elem_of_nil in H|by intros []].
Qed.

Lemma served_wp {St E A} (m : M St E A) (P : St → Prop) (x : St) :
  wp m (λ _ st, P st) (λ _ st, P st) x → ∃ st, after m x = Some st ∧ P st.
Proof. unfold wp_gen, after. destruct (m x); naive_solver. Qed.

Lemma response_step_ok op sv :
  service_ok sv → admissible op → ∃ sv', response_step op sv = Some sv' ∧ service_ok sv'.
Proof.
  intros Hok Ha. destruct op; cbn in *; apply served_wp.
  - by apply remember_ok.
  - by apply commit_successor_ok.
  - by apply delete_response_ok.
  - by apply apply_ok.
Qed.

Lemma response_run_ok ops sv :
  service_ok sv → Forall admissible ops → ∃ sv', response_run ops sv = Some sv' ∧ service_ok sv'.
Proof.
  revert sv. induction ops as [|op ops IH]; intros sv Hok Ha; [by exists sv|].
  inversion Ha; subst. cbn. destruct (response_step_ok op sv) as (sv1 & -> & Hok1); [done..|]. by apply IH.
Qed.

(** ** Restarting *)

(** The directory holds exactly the stored responses, and no call will fail. *)
Record stored s : Prop := {
  sd_quiet : fs_io s = [];
  sd_filed : filed (recovered s);
  sd_named : ∀ id, is_Some (recovered s !! id) → id ≠ "";
  sd_files : ∀ id, fs_resources s !! resource_path id = to_json <$> recovered s !! id;
  sd_names : ∀ name, is_Some (fs_resources s !! name) → ∃ id, name = resource_path id;
}.

Lemma wp_io_quiet (Q : unit → _ → Prop) (R : StoreError → _ → Prop) s :
  fs_io s = [] → Q tt s → wp io Q R s.
Proof. intros Hs HQ. unfold wp_gen, io. by rewrite Hs. Qed.

Lemma wp_sync_quiet (Q : unit → _ → Prop) (R : StoreError → _ → Prop) s :
  fs_io s = [] → Q tt s → wp sync_directory Q R s.
Proof. intros Hs HQ. unfold sync_directory. rewrite wp_bind. do 2 (apply wp_io_quiet; [done|]). done. Qed.

Definition forgotten (id : string) s : Store Content :=
  mkStore (delete (resource_path id) (fs_resources s)) (delete id (recovered s)) (fs_io s).

Lemma stored_forgotten id s : stored s → stored (forgotten id s).
Proof.
  intros [Hq Hf Hn Hd Hs]. split; cbn; [done|..].
  - eapply filed_sub; [apply delete_subseteq|done].
  - intros id' [r [_ Hr]%lookup_delete_Some]. apply Hn. by exists r.
  - intros id'. destruct (decide (id = id')) as [<-|Hne]; [by rewrite !lookup_delete_eq|].
    rewrite !lookup_delete_ne; [done|done|]. by intros ?%(inj resource_path).
  - intros name [c [_ Hc]%lookup_delete_Some]. apply Hs. by exists c.
Qed.

Definition written (r : ResponseResource) s : Store Content :=
  mkStore (<[resource_path (rr_id r) := to_json r]> (fs_resources s)) (<[rr_id r := r]> (recovered s)) (fs_io s).

Lemma stored_written r s : stored s → rr_id r ≠ "" → stored (written r s).
Proof.
  intros [Hq Hf Hn Hd Hs] Hr. split; cbn; [done|..].
  - by apply filed_insert.
  - intros id. rewrite lookup_insert_is_Some. intros [<-|[_ ?]]; [done|by apply Hn].
  - intros id. destruct (decide (rr_id r = id)) as [<-|Hne]; [by rewrite !lookup_insert_eq|].
    rewrite !lookup_insert_ne; [done|done|]. by intros ?%(inj resource_path).
  - intros name. rewrite lookup_insert_is_Some. intros [<-|[_ ?]]; [by eexists|by apply Hs].
Qed.

Lemma wp_remove_quiet id (k : M (Store Content) StoreError unit) s :
  stored s →
  wp k (λ _ s', stored s') (λ _ s', stored s')
    (mkStore (delete (resource_path id) (fs_resources s)) (recovered s) (fs_io s)) →
  wp (_ ← remove_file (resource_path id); k) (λ _ s', stored s') (λ _ s', stored s') s.
Proof.
  intros Hs Hk. unfold remove_file. rewrite wp_bind, wp_bind, wp_get.
  destruct (fs_resources s !! resource_path id); [|by rewrite wp_throw].
  rewrite wp_bind. apply wp_io_quiet; [apply Hs|]. unfold on_files. rewrite wp_modify. exact Hk.
Qed.

Lemma prune_stored now s : stored s → wp (prune_expired now) (λ _ s', stored s') (λ _ s', stored s') s.
Proof.
  intros Hs. unfold prune_expired. rewrite wp_bind, wp_get. set (ids := rr_id <$> _). rewrite wp_bind.
  eapply wp_mono; [apply (wp_for_each False _ (λ _ s', stored s') (λ _ s', stored s'))|..].
  - done.
  - intros id l s' Hs'. apply wp_remove_quiet; [done|]. unfold on_recovered. rewrite wp_modify.
    exact (stored_forgotten id s' Hs').
  - intros ? s' Hs'. cbn in Hs'. destruct ids; [done|]. apply wp_sync_quiet; [apply Hs'|done].
  - done.
Qed.

Lemma write_stored r s :
  stored s → rr_id r ≠ "" →
  wp (_ ← write_resource to_json r; on_recovered <[rr_id r := r]>) (λ _ s', stored s') (λ _ s', stored s') s.
Proof.
  intros Hs Hr. pose proof (sd_quiet _ Hs) as Hq. unfold write_resource, on_files, on_recovered.
  rewrite wp_bind. do 4 (rewrite wp_bind; apply wp_io_quiet; [done|]).
  rewrite wp_bind, wp_modify. apply wp_sync_quiet; [done|]. rewrite wp_modify. exact (stored_written r s Hs Hr).
Qed.

Lemma put_stored now r s :
  stored s → rr_id r ≠ "" → wp (put to_json now r) (λ _ s', stored s') (λ _ s', stored s') s.
Proof.
  intros Hs Hr. unfold put. rewrite wp_bind. eapply wp_mono; [by apply prune_stored|..]; [|done].
  intros ? s1 H1. by apply write_stored.
Qed.

Lemma put_successor_stored now base_id expected r s :
  stored s → rr_id r ≠ "" →
  wp (put_successor to_json now base_id expected r) (λ _ s', stored s') (λ _ s', stored s') s.
Proof.
  intros Hs Hr. unfold put_successor. rewrite wp_bind. eapply wp_mono; [by apply prune_stored|..]; [|done].
  intros ? s1 H1. cbn in H1. rewrite wp_bind, wp_get, wp_bind, wp_ok_or.
  destruct (recovered s1 !! base_id) as [b|]; [|done]. rewrite wp_bind, wp_guard_not.
  destruct (negb _); [done|]. rewrite wp_bind, wp_guard_not. destruct (existsb _ _); [done|].
  by apply write_stored.
Qed.

Lemma delete_stored id s : stored s → wp (delete_resource id) (λ _ s', stored s') (λ _ s', stored s') s.
Proof.
  intros Hs. unfold delete_resource. rewrite wp_bind, wp_get, wp_bind, wp_guard_not.
  destruct (bool_decide _); [done|]. rewrite wp_bind, wp_guard_not. destruct (existsb _ _); [done|].
  apply wp_remove_quiet; [done|]. rewrite wp_bind. apply wp_sync_quiet; [apply Hs|].
  unfold on_recovered. rewrite wp_modify. exact (stored_forgotten id s Hs).
Qed.

Definition named (op : ResponseOp) : Prop :=
  match op with
  | Remember _ r | Commit _ _ _ r => rr_id r ≠ ""
  | _ => True
  end.

Lemma lift_stored {A} (m : M (Store Content) StoreError A) (sv0 : ResponseService Content) :
  wp m (λ _ st, stored st) (λ _ st, stored st) (rs_store sv0) →
  wp (lift_store m) (λ _ sv, stored (rs_store sv)) (λ _ sv, stored (rs_store sv)) sv0.
Proof. unfold wp_gen, lift_store. by destruct (m (rs_store sv0)). Qed.

Lemma response_step_stored op sv :
  stored (rs_store sv) → named op → ∃ sv', response_step op sv = Some sv' ∧ stored (rs_store sv').
Proof.
  intros Hs Hn. destruct op; cbn in *; apply (served_wp _ (λ sv, stored (rs_store sv))).
  - unfold remember. destruct (rr_store r); [|done]. destruct (rr_previous_response_id r); apply lift_stored.
    + by apply put_successor_stored.
    + by apply put_stored.
  - apply lift_stored. by apply put_successor_stored.
  - unfold delete_response. rewrite wp_bind. eapply wp_mono; [apply retrieve_same|..]; cbn; [|by intros ? ? ->].
    intros ? ? ->. rewrite wp_bind, wp_get, wp_bind, wp_guard_not. destruct (existsb _ _); [done|].
    destruct (tr_resources (rs_transient sv) !! id); [done|]. apply lift_stored. by apply delete_stored.
  - apply (apply_spec (λ sv, stored (rs_store sv))); [done|]. intros r sv1 _ Hr Hsv1. apply lift_stored.
    by apply put_successor_stored.
Qed.

Lemma response_run_stored ops sv sv' :
  stored (rs_store sv) → Forall named ops → response_run ops sv = Some sv' → stored (rs_store sv').
Proof.
  revert sv. induction ops as [|op ops IH]; intros sv Hs Hn Hrun; cbn in Hrun; [by injection Hrun as <-|].
  inversion Hn; subst. destruct (response_step_stored op sv) as (sv1 & Hstep & Hs1); [done..|].
  rewrite Hstep in Hrun. by eapply IH.
Qed.

(** *** Opening the directory *)

Hypothesis json_roundtrip : ∀ r, from_json (to_json r) = Ok r.

Definition live (now : N) (rec : gmap string ResponseResource) : gmap string ResponseResource :=
  filter (λ p, expired p.2 now = false) rec.

(** Names still to visit are untouched; the others are recovered, or gone if expired. *)
Record opening (now : N) s0 (names : list string) s : Prop := {
  og_quiet : fs_io s = [];
  og_nodup : base.NoDup names;
  og_names : ∀ name, name ∈ names → ∃ id, name = resource_path id ∧ is_Some (recovered s0 !! id);
  og_todo : ∀ id, resource_path id ∈ names →
    recovered s !! id = None ∧ fs_resources s !! resource_path id = to_json <$> recovered s0 !! id;
  og_done : ∀ id, resource_path id ∉ names →
    recovered s !! id = live now (recovered s0) !! id
    ∧ fs_resources s !! resource_path id = to_json <$> live now (recovered s0) !! id;
  og_files : ∀ name, is_Some (fs_resources s !! name) → ∃ id, name = resource_path id;
}.

Lemma live_lookup now rec id r :
  rec !! id = Some r → live now rec !! id = if expired r now then None else Some r.
Proof.
  intros Hr. unfold live. destruct (expired r now) eqn:He.
  - apply map_lookup_filter_None. right. intros r' Hr'. rewrite Hr in Hr'. injection Hr' as <-. cbn. congruence.
  - by apply map_lookup_filter_Some.
Qed.

Lemma opening_step now s0 name names s :
  stored s0 → opening now s0 (name :: names) s →
  wp (recover_entry from_json now name) (λ _ s', opening now s0 names s') (λ _ _, False) s.
Proof.
  intros H0 [Hq Hnd Hn Ht Hd Hf]. destruct (Hn name) as (id & -> & r & Hr); [by left|].
  apply list.NoDup_cons in Hnd as [Hnot Hnd]. destruct (Ht id) as [Hrec Hfile]; [by left|].
  rewrite Hr in Hfile. cbn in Hfile. pose proof (sd_filed _ H0 id r Hr) as Hid.
  unfold recover_entry. rewrite json_file_path by (apply (sd_named _ H0); by exists r). cbn [negb].
  rewrite wp_bind. apply wp_io_quiet; [done|]. rewrite wp_bind, wp_get, Hfile, json_roundtrip.
  rewrite wp_bind, wp_guard_not, Hid, bool_decide_true by done. cbn [negb].
  pose proof (live_lookup now _ id r Hr) as Hlive.
  assert (∀ id', resource_path id' ∉ names → id' ≠ id → resource_path id' ∉ resource_path id :: names) as Hother.
  { intros id' Hin Hne. rewrite not_elem_of_cons. split; [by intros ?%(inj resource_path)|done]. }
  destruct (expired r now).
  - unfold remove_file, on_files. rewrite wp_bind, wp_get, Hfile, wp_bind. apply wp_io_quiet; [done|].
    rewrite wp_modify. split; cbn; [done|done|intros ??; apply Hn; by right|..].
    + intros id' Hin. destruct (Ht id') as [? <-]; [by right|]. split; [done|]. apply lookup_delete_ne.
      intros Heq. rewrite <- Heq in Hin. done.
    + intros id' Hin. destruct (decide (id' = id)) as [->|Hne]; [by rewrite Hrec, Hlive, lookup_delete_eq|].
      destruct (Hd id' (Hother id' Hin Hne)) as [-> <-]. split; [done|]. apply lookup_delete_ne.
      by intros ?%(inj resource_path).
    + intros name' [c [_ Hc]%lookup_delete_Some]. apply Hf. by exists c.
  - unfold on_recovered. rewrite wp_modify. split; cbn; [done|done|intros ??; apply Hn; by right|..|done].
    + intros id' Hin. destruct (Ht id') as [? <-]; [by right|]. split; [|done].
      rewrite lookup_insert_ne; [done|]. by intros ->.
    + intros id' Hin. destruct (decide (id' = id)) as [->|Hne]; [by rewrite Hlive, lookup_insert_eq, Hfile|].
      destruct (Hd id' (Hother id' Hin Hne)) as [<- <-]. by rewrite lookup_insert_ne.
Qed.

Lemma open_recovers now s :
  stored s → wp (open from_json now) (λ _ s', recovered s' = live now (recovered s)) (λ _ _, False) s.
Proof.
  intros Hs. pose proof (sd_quiet _ Hs) as Hq. unfold open, on_recovered. rewrite wp_bind, wp_modify.
  do 3 (rewrite wp_bind; apply wp_io_quiet; [done|]). rewrite wp_bind, wp_get. cbn [fs_resources].
  eapply wp_mono; [apply (wp_for_each False _ (opening now s) (λ _ _, False))|..].
  - assert (∀ id, resource_path id ∈ sort_strings (map_to_list (fs_resources s)).*1 ↔ is_Some (recovered s !! id)) as Hin.
    { intros id. rewrite sort_strings_perm, list_elem_of_fmap. rewrite <- (fmap_is_Some to_json), <- (sd_files _ Hs id). split.
      - intros ([name c] & Heq & Hc%elem_of_map_to_list). cbn in Heq. rewrite Heq. by exists c.
      - intros [c Hc]. exists (resource_path id, c). split; [done|]. by apply elem_of_map_to_list. }
    split; cbn.
    + done.
    + rewrite sort_strings_perm. apply NoDup_fst_map_to_list.
    + intros name Hname. assert (∃ id, name = resource_path id) as [id ->].
      { apply (sd_names _ Hs). rewrite sort_strings_perm in Hname.
        apply list_elem_of_fmap in Hname as ([name' c] & -> & Hc%elem_of_map_to_list). by exists c. }
      exists id. split; [done|]. by apply Hin.
    + intros id _. rewrite lookup_empty. split; [done|apply Hs].
    + intros id Hnot. rewrite Hin in Hnot. apply eq_None_not_Some in Hnot.
      assert (live now (recovered s) !! id = None) as ->.
      { unfold live. apply map_lookup_filter_None. by left. }
      rewrite lookup_empty, (sd_files _ Hs), Hnot. done.
    + apply Hs.
  - intros name names s' Hs'. by apply opening_step.
  - intros ? s' Hs'. cbn in Hs'. apply map_eq. intros id. apply (og_done _ _ _ _ Hs' id). apply not_elem_of_nil.
  - done.
Qed.

(** *** Starting on what is there *)

(** Each file is that of a stored response. A write that fails after the file is in place
    breaks it ([failed_commit_survives_restart]). *)
Definition from_table (rec : gmap string ResponseResource) (files : gmap string Content) : Prop :=
  ∀ name content, files !! name = Some content → ∃ id r, rec !! id = Some r ∧ content = to_json r.

Definition clean s : Prop := from_table (recovered s) (fs_resources s).

Definition with_outcomes (io : list bool) s : Store Content := mkStore (fs_resources s) (recovered s) io.

(** A start, perhaps after others that failed. *)
Inductive opened : Store Content → Store Content → Prop :=
| OpenedNow now io s s' : open from_json now (with_outcomes io s) = Done tt s' → opened s s'
| OpenedAgain now io s s1 e s' : open from_json now (with_outcomes io s) = Fail e s1 → opened s1 s' → opened s s'.

(** What opening makes of a directory with the files of the table [rec]. *)
Definition opens rec s : Prop := from_table rec (fs_resources s) ∧ recovered s ⊆ rec.

Lemma opens_io rec s (Q : unit → _ → Prop) :
  opens rec s → (∀ s', opens rec s' → fs_resources s' = fs_resources s → Q tt s') →
  wp io Q (λ _ s', opens rec s') s.
Proof. intros Hs HQ. unfold wp_gen, io. destruct (fs_io s) as [|[] l]; [by apply HQ|by apply HQ|done]. Qed.

Lemma recover_opens rec now name s :
  filed rec → opens rec s → wp (recover_entry from_json now name) (λ _ s', opens rec s') (λ _ s', opens rec s') s.
Proof.
  intros Hrec Hs. unfold recover_entry. destruct (json_file name); cbn [negb]; [|by rewrite wp_ret].
  rewrite wp_bind. apply (opens_io rec); [done|]. intros s1 Hs1 _. clear s Hs. rewrite wp_bind, wp_get.
  destruct (fs_resources s1 !! name) as [content|] eqn:Hname; [|done].
  destruct (proj1 Hs1 _ _ Hname) as (id & r & Hr & ->). rewrite json_roundtrip, wp_bind, wp_guard_not.
  case_match; [done|]. destruct (expired r now).
  - unfold remove_file. rewrite wp_bind, wp_get, Hname, wp_bind. apply (opens_io rec); [done|]. intros s' [Hf Ht] _.
    unfold on_files. rewrite wp_modify. split; [|done]. intros name' c. cbn. intros [_ Hc]%lookup_delete_Some. by eapply Hf.
  - unfold on_recovered. rewrite wp_modify. destruct Hs1 as [Hf Ht]. split; [done|]. cbn.
    apply insert_subseteq_l; [|done]. by rewrite (Hrec _ _ Hr).
Qed.

Lemma open_opens rec now io s :
  filed rec → from_table rec (fs_resources s) →
  wp (open from_json now) (λ _ s', opens rec s') (λ _ s', opens rec s') (with_outcomes io s).
Proof.
  intros Hrec Hs. unfold open, on_recovered. rewrite wp_bind, wp_modify.
  match goal with |- wp_gen _ _ _ _ ?s0 => assert (opens rec s0) as H0; [|clear Hs; revert H0; generalize s0] end.
  { split; [done|apply map_empty_subseteq]. }
  clear s. intros s Hs. do 3 (rewrite wp_bind; apply (opens_io rec); [exact Hs|];
    intros s1 Hs1 _; clear s Hs; rename s1 into s, Hs1 into Hs).
  rewrite wp_bind, wp_get. apply (wp_for_each False _ (λ _ s', opens rec s') (λ _ s', opens rec s')); [done|..].
  intros name names s' Hs'. by apply recover_opens.
Qed.

Lemma opened_sub rec s s' : filed rec → from_table rec (fs_resources s) → opened s s' → recovered s' ⊆ rec.
Proof.
  intros Hrec Hs. induction 1 as [now io s s' H|now io s s1 e s' H _ IH]; pose proof (open_opens rec now io s Hrec Hs) as Ho;
    unfold wp_gen in Ho; rewrite H in Ho; [apply Ho|by apply IH, Ho].
Qed.

(** The states of the service: what the operations make of it, and starts of the server,
    on directories that are clean. A call of the file system can fail at any time. *)
Inductive history : ResponseService Content → Prop :=
| HistoryEmpty io : history (empty_service io)
| HistoryStep op sv sv' : history sv → admissible op → response_step op sv = Some sv' → history sv'
| HistoryRestart sv st : history sv → clean (rs_store sv) → opened (rs_store sv) st →
    history (mkService st (mkTransient ∅ [])).

Lemma history_ok sv : history sv → service_ok sv.
Proof.
  induction 1 as [io|op sv sv' _ IH Ha Hstep|sv st _ IH Hclean Hopened].
  - apply empty_ok.
  - destruct (response_step_ok op sv IH Ha) as (sv1 & Hsv1 & Hok). congruence.
  - apply opened_sub with (rec := recovered (rs_store sv)) in Hopened; [|apply IH|done]. split; cbn.
    + eapply filed_sub; [done|apply IH].
    + eapply linear_sub; [done|apply IH].
    + apply (so_transient _ (empty_ok [])).
Qed.

Lemma history_run ops sv sv' : history sv → Forall admissible ops → response_run ops sv = Some sv' → history sv'.
Proof.
  intros Hsv Ha. revert sv Hsv. induction Ha as [|op ops Hop _ IH]; cbn; intros sv Hsv Hrun; [by injection Hrun as <-|].
  destruct (response_step op sv) as [sv1|] eqn:Hstep; [|done]. apply (IH sv1); [by eapply HistoryStep|done].
Qed.

(** C36: Lineages are linear. After any history of remembered responses, committed
    successors, deletions, context updates and starts of the server, with any failures of
    the file system in between, no two stored responses follow the same one, each is
    filed under its identifier, the transient responses are exactly those in the
    insertion order and never more than the capacity; and no operation panics, nor does a
    start. A start is in the history if the directory has no file but those of the
    stored responses, as it does unless a write failed after its file was in place; that
    case is excepted, as it leaves two successors ([failed_commit_survives_restart]). *)
Theorem response_lineage_linear sv :
  history sv →
  linear (recovered (rs_store sv)) ∧ filed (recovered (rs_store sv)) ∧ transient_ok (rs_transient sv)
  ∧ (∀ op, admissible op → response_step op sv ≠ None)
  ∧ (clean (rs_store sv) → ∀ now io, open from_json now (with_outcomes io (rs_store sv)) ≠ Panic).
Proof.
  intros Hsv%history_ok. pose proof Hsv as [Hf Hl Ht]. split_and!; [done..| |].
  - intros op Ha. by destruct (response_step_ok op sv Hsv Ha) as (sv' & -> & _).
  - intros Hclean now io Hopen. pose proof (open_opens _ now io _ Hf Hclean) as Ho. unfold wp_gen in Ho. by rewrite Hopen in Ho.
Qed.

(** C37: What was stored survives: after any history without failures of the file
    system, opening the directory again succeeds and recovers exactly the stored
    responses that have not expired. *)
Theorem response_restart_roundtrip ops sv now :
  Forall named ops → response_run ops (empty_service []) = Some sv →
  ∃ s', open from_json now (rs_store sv) = Done tt s'
    ∧ fs_recovered s' = filter (λ p, expired p.2 now = false) (fs_recovered (rs_store sv)).
Proof.
  intros Hn Hrun. assert (stored (rs_store (empty_service []))) as H0.
  { split; cbn.
    - done.
    - intros id r Hr. by rewrite lookup_empty in Hr.
    - intros id. rewrite lookup_empty. by intros [].
    - intros id. by rewrite !lookup_empty.
    - intros name. rewrite lookup_empty. by intros []. }
  pose proof (response_run_stored ops _ sv H0 Hn Hrun) as Hs.
  destruct (wp_done _ _ _ (open_recovers now _ Hs)) as ([] & s' & Ho & Hr). by exists s'.
Qed.
End store.

(** ** Runs *)

Module ResponseDemo.

Definition root (id : string) : ResponseResource :=
  mkResource 1 id "o" "m" 5 "completed" true None [] [] [] Null None None default_metadata 0 None.

Definition successor (id base_id : string) : ResponseResource :=
  mkResource 1 id "o" "m" 6 "completed" true (Some base_id) [] [] [] Null None None default_metadata 1 None.

Definition history : list ResponseOp :=
  [Remember 5 (root "resp_a"); Commit 6 "resp_a" 0 (successor "resp_b" "resp_a");
   Commit 6 "resp_a" 0 (successor "resp_c" "resp_a")].

(** A file that holds the resource itself. *)
Definition as_file (r : ResponseResource) : ResponseResource := r.
Definition of_file (r : ResponseResource) : result string ResponseResource := Ok r.
Definition no_text (_ : StoreError) : string := "".

Definition run_history : option (ResponseService ResponseResource) :=
  response_run as_file no_text history (empty_service []).

Definition ids (s : Store ResponseResource) : list string := sort_strings ((map_to_list (fs_recovered s)).*1).

(** The last call of the commit, the synchronization of the directory, fails. *)
Definition failing : option (ResponseService ResponseResource) :=
  sv ← response_run as_file no_text [Remember 5 (root "resp_a"); Commit 6 "resp_a" 0 (successor "resp_b" "resp_a")]
    (empty_service [true; true; true; true; true; true; true; true; true; true; true; false]);
  response_run as_file no_text [Commit 6 "resp_a" 0 (successor "resp_c" "resp_a")] sv.

Definition reopened : option (Store ResponseResource) :=
  sv ← failing; after (open of_file 7) (rs_store sv).
End ResponseDemo.
Import ResponseDemo.

(** The server stops after a first history, fails to start, starts, and goes on. *)
Definition stopped : ResponseService ResponseResource := default (empty_service []) run_history.

Definition started : Store ResponseResource :=
  default (rs_store stopped) (after (open of_file 7) (rs_store stopped)).

Definition resumed : ResponseService ResponseResource :=
  default stopped (response_run as_file no_text [Commit 8 "resp_b" 1 (successor "resp_d" "resp_b")]
                     (mkService started (mkTransient ∅ []))).

Lemma stopped_clean : clean as_file (rs_store stopped).
Proof.
  intros name r Hr%elem_of_map_to_list. exists (rr_id r), r. split; [|done].
  assert (List.Forall (λ p, fs_recovered (rs_store stopped) !! rr_id p.2 = Some p.2) (map_to_list (fs_resources (rs_store stopped)))) as H
    by (vm_compute; repeat constructor).
  rewrite list.Forall_forall in H. exact (H _ Hr).
Qed.

Lemma response_lineage_linear_witness :
  ids (rs_store resumed) = ["resp_a"; "resp_b"; "resp_d"] ∧ linear (fs_recovered (rs_store resumed)).
Proof.
  split; [vm_compute; reflexivity|].
  apply (response_lineage_linear as_file of_file no_text (λ r, eq_refl)).
  apply (history_run as_file of_file no_text [Commit 8 "resp_b" 1 (successor "resp_d" "resp_b")]
           (mkService started (mkTransient ∅ []))); [|by repeat constructor|vm_compute; reflexivity].
  apply (HistoryRestart _ _ _ stopped); [|exact stopped_clean|].
  - apply (history_run as_file of_file no_text ResponseDemo.history (empty_service [])); [constructor|by repeat constructor|].
    vm_compute. reflexivity.
  - apply (OpenedAgain _ 7 [false] _ (mkStore (fs_resources (rs_store stopped)) ∅ []) Io); [vm_compute; reflexivity|].
    apply (OpenedNow _ 7 []). vm_compute. reflexivity.
Defined.

Lemma response_restart_roundtrip_witness :
  ∃ sv s', run_history = Some sv ∧ open of_file 7 (rs_store sv) = Done tt s'
    ∧ fs_recovered s' = filter (λ p, expired p.2 7 = false) (fs_recovered (rs_store sv)).
Proof.
  destruct run_history as [sv|] eqn:Hrun; [|by vm_compute in Hrun].
  assert (Forall named history) as Hn by (by repeat constructor).
  destruct (response_restart_roundtrip as_file of_file no_text (λ r, eq_refl) history sv 7 Hn Hrun) as (s' & Ho & Hr).
  exists sv, s'. split; [reflexivity|]. split; [exact Ho|exact Hr].
Defined.

(** A commit that reports a failure may have reached the disk: when only the last
    synchronization fails, the successor is absent from the running table, another
    one is committed, and a restart recovers both. *)
Lemma failed_commit_survives_restart :
  (ids <$> (rs_store <$> failing)) = Some ["resp_a"; "resp_c"]
  ∧ (ids <$> reopened) = Some ["resp_a"; "resp_b"; "resp_c"].
Proof. split; vm_compute; reflexivity. Qed.
