(* ===== verification/Contexts.v ===== *)
(** The server's contexts ([crates/server/src/lib.rs]): creating, importing,
    branching, reading and deleting them, and the commit with which an inference
    replaces the record it read.

    Each definition is one locked section. An operation that takes the lock twice,
    [branch_context], is two definitions, so that other operations can come
    between them; so are the read and the commit of an inference. [step] is the
    interleaving of these sections. A fresh identifier is an argument. *)

From stdpp Require Import gmap strings list numbers.
From Stdlib Require Import Lia.
From S2P Require Import Prelude Engine.

(** ** Operations *)

Record ContextRecord : Type := mkContext {
  cr_id : string;
  cr_revision : N;
  cr_tokens : list string;
  cr_native_tokens : list Z;
}.

Abbreviation Contexts := (gmap string ContextRecord).

Definition create_context (uuid : string) (cs : Contexts) : ContextRecord * Contexts :=
  let record := mkContext uuid 0 [] [] in
  (record, <[uuid := record]> cs).

Definition import_context (uuid : string) (tokens : list string) (cs : Contexts)
  : ContextRecord * Contexts :=
  let record := mkContext uuid 0 tokens [] in
  (record, <[uuid := record]> cs).

Definition context (id : string) (cs : Contexts) : result ServerError.Error ContextRecord :=
  match cs !! id with
  | Some record => Ok record
  | None => Err ServerError.ContextNotFound
  end.

Definition contexts (cs : Contexts) : list ContextRecord := map_values cs.

(** The two locked sections of [branch_context]: the copy of the source, and the
    insertion of the copy under a new identifier. *)
Definition branch_read (source : string) (cs : Contexts) : result ServerError.Error ContextRecord :=
  context source cs.

Definition branch_insert (uuid : string) (source : ContextRecord) (cs : Contexts)
  : ContextRecord * Contexts :=
  let record := mkContext uuid 0 (cr_tokens source) (cr_native_tokens source) in
  (record, <[uuid := record]> cs).

Definition delete_context (id : string) (cs : Contexts) : result ServerError.Error unit * Contexts :=
  match cs !! id with
  | Some _ => (Ok tt, delete id cs)
  | None => (Err ServerError.ContextNotFound, cs)
  end.

(** The locked section that ends an inference: [source] is the record it read,
    [successor_id] the identifier of a new context. *)
Definition commit_inference (source : option ContextRecord) (successor_id : string)
    (tokens : list string) (native : list Z) (cs : Contexts)
  : result ServerError.Error string * Contexts :=
  match source with
  | Some source =>
      match cs !! cr_id source with
      | None => (Err ServerError.ContextNotFound, cs)
      | Some stored =>
          if negb (cr_revision stored =? cr_revision source)%N then
            (Err (ServerError.State "context changed during compaction"), cs)
          else
            (Ok (cr_id stored),
             <[cr_id source := mkContext (cr_id stored) (wrapping_add (cr_revision stored) 1)
                                 tokens native]> cs)
      end
  | None =>
      (Ok successor_id, <[successor_id := mkContext successor_id 1 tokens native]> cs)
  end.

(** ** Interleaving *)

(** The contexts with what the running requests hold: the records they read, and
    the identifiers given out so far. *)
Record System : Type := mkSystem {
  sy_contexts : Contexts;
  sy_held : list ContextRecord;
  sy_issued : gset string;
}.

Definition initial : System := mkSystem ∅ [] ∅.

Definition issue (uuid : string) (cs : Contexts) (s : System) : System :=
  mkSystem cs (sy_held s) ({[uuid]} ∪ sy_issued s).

(** One locked section of any request. A new identifier has not been given out. *)
Inductive step (s : System) : System → Prop :=
| StepCreate uuid :
    uuid ∉ sy_issued s → step s (issue uuid (create_context uuid (sy_contexts s)).2 s)
| StepImport uuid tokens :
    uuid ∉ sy_issued s → step s (issue uuid (import_context uuid tokens (sy_contexts s)).2 s)
| StepRead id record :
    context id (sy_contexts s) = Ok record →
    step s (mkSystem (sy_contexts s) (record :: sy_held s) (sy_issued s))
| StepBranch uuid source :
    uuid ∉ sy_issued s → source ∈ sy_held s →
    step s (issue uuid (branch_insert uuid source (sy_contexts s)).2 s)
| StepDelete id :
    step s (mkSystem (delete_context id (sy_contexts s)).2 (sy_held s) (sy_issued s))
| StepCommit source tokens native uuid :
    source ∈ sy_held s →
    step s (mkSystem (commit_inference (Some source) uuid tokens native (sy_contexts s)).2
              (sy_held s) (sy_issued s))
| StepCommitNew uuid tokens native :
    uuid ∉ sy_issued s →
    step s (issue uuid (commit_inference None uuid tokens native (sy_contexts s)).2 s).

(** [runs n s]: [s] is reachable in [n] steps. *)
Inductive runs : nat → System → Prop :=
| RunsStart : runs 0 initial
| RunsStep n s s' : runs n s → step s s' → runs (S n) s'.

(** ** The revision identifies the record *)

(** A stored record is filed under its identifier, which was given out; a record
    that a request holds is not newer than the stored one, and equal to it when
    the revisions agree. *)
Definition held_ok (cs : Contexts) (issued : gset string) (record : ContextRecord) : Prop :=
  cr_id record ∈ issued
  ∧ ∀ stored, cs !! cr_id record = Some stored →
      (cr_revision record ≤ cr_revision stored)%N
      ∧ (cr_revision record = cr_revision stored → record = stored).

Definition stored_ok (bound : N) (cs : Contexts) (issued : gset string) : Prop :=
  ∀ id record, cs !! id = Some record →
    cr_id record = id ∧ id ∈ issued ∧ (cr_revision record ≤ bound)%N.

Definition system_ok (n : nat) (s : System) : Prop :=
  stored_ok (N.of_nat n) (sy_contexts s) (sy_issued s)
  ∧ ∀ record, record ∈ sy_held s → held_ok (sy_contexts s) (sy_issued s) record.

Lemma stored_ok_weaken b b' cs issued uuid :
  (b ≤ b')%N → stored_ok b cs issued → stored_ok b' cs ({[uuid]} ∪ issued).
Proof. intros Hb H id record Hr. destruct (H _ _ Hr) as (?&?&?). split_and!; [done|set_solver|lia]. Qed.

(** Storing under a new identifier. *)
Lemma system_ok_new n s uuid record :
  uuid ∉ sy_issued s → cr_id record = uuid → (cr_revision record ≤ 1)%N →
  system_ok n s → system_ok (S n) (issue uuid (<[uuid := record]> (sy_contexts s)) s).
Proof.
  intros Hnew Hid Hrev [Hstored Hheld]. split.
  - intros id r Hr. cbn in *. destruct (decide (id = uuid)) as [->|Hne].
    + rewrite lookup_insert_eq in Hr. simplify_eq. split_and!; [done|set_solver|lia].
    + rewrite lookup_insert_ne in Hr by done. eapply stored_ok_weaken; [|done..]. lia.
  - cbn. intros r [Hin Hle]%Hheld. split; [set_solver|].
    intros stored Hr. rewrite lookup_insert_ne in Hr by (intros Heq; by rewrite Heq in Hnew). auto.
Qed.

Lemma system_ok_commit n s source tokens native uuid :
  (N.of_nat (S n) ≤ u64_max)%N → source ∈ sy_held s → system_ok n s →
  system_ok (S n) (mkSystem (commit_inference (Some source) uuid tokens native (sy_contexts s)).2
                     (sy_held s) (sy_issued s)).
Proof.
  intros Hbound _ [Hstored Hheld]. unfold commit_inference.
  assert (stored_ok (N.of_nat (S n)) (sy_contexts s) (sy_issued s)) as Hweak.
  { intros id r Hr. destruct (Hstored _ _ Hr) as (?&?&?). split_and!; [done..|lia]. }
  destruct (sy_contexts s !! cr_id source) as [stored|] eqn:Hs; [|by split].
  destruct (N.eqb_spec (cr_revision stored) (cr_revision source)) as [Heq|Hne]; cbn; [|by split].
  destruct (Hstored _ _ Hs) as (Hid & Hin & Hrev).
  assert (wrapping_add (cr_revision stored) 1 = cr_revision stored + 1)%N as Hnext.
  { unfold wrapping_add. rewrite N.mod_small; lia. }
  split; cbn.
  - intros id r Hr. destruct (decide (id = cr_id source)) as [->|Hd].
    + rewrite lookup_insert_eq in Hr. simplify_eq. cbn. rewrite Hnext. split_and!; [done..|lia].
    + rewrite lookup_insert_ne in Hr by done. auto.
  - intros r [Hr Hle]%Hheld. split; [done|]. intros r' Hr'.
    destruct (decide (cr_id r = cr_id source)) as [Hd|Hd].
    + rewrite Hd, lookup_insert_eq in Hr'. simplify_eq. cbn. rewrite Hnext.
      rewrite Hd in Hle. destruct (Hle _ Hs). split; [lia|]. intros. lia.
    + rewrite lookup_insert_ne in Hr' by done. auto.
Qed.

Lemma step_system_ok n s s' :
  (N.of_nat (S n) ≤ u64_max)%N → system_ok n s → step s s' → system_ok (S n) s'.
Proof.
  intros Hbound Hok Hstep. pose proof Hok as [Hstored Hheld].
  assert (stored_ok (N.of_nat (S n)) (sy_contexts s) (sy_issued s)) as Hweak.
  { intros id r Hr. destruct (Hstored _ _ Hr) as (?&?&?). split_and!; [done..|lia]. }
  destruct Hstep as [uuid ?|uuid tokens ?|id record Hread|uuid source ??|id|source ????|uuid ???].
  1,2,4,7: apply system_ok_new; cbn; auto; lia.
  - unfold context in Hread. destruct (sy_contexts s !! id) as [r|] eqn:Hr; simplify_eq.
    destruct (Hstored _ _ Hr) as (Hid & Hin & _). split; [done|]. cbn.
    intros r' [->|?]%elem_of_cons; [|by apply Hheld]. split; [by rewrite Hid|]. intros stored Hs. rewrite Hid, Hr in Hs. simplify_eq. split; [lia|done].
  - unfold delete_context. destruct (sy_contexts s !! id) eqn:Hd; [|by split]. split; cbn.
    + intros id' r [? Hr]%lookup_delete_Some. auto.
    + intros r [Hr Hle]%Hheld. split; [done|].
      intros stored [_ Hs]%lookup_delete_Some. auto.
  - by apply system_ok_commit.
Qed.

Lemma runs_system_ok n s : (N.of_nat n ≤ u64_max)%N → runs n s → system_ok n s.
Proof.
  intros Hn Hr. induction Hr as [|n s s' _ IH Hstep].
  - split; [|by intros ? ?%elem_of_nil]. intros id r Hr. cbn in Hr. simplify_map_eq.
  - eapply step_system_ok; [done|apply IH; lia|done].
Qed.

(** No inference overwrites a change it has not seen. However the operations
    of any number of requests interleave, as long as fewer than 2^64 of them ran,
    the commit of a request that read [source] succeeds exactly when [source] is
    still the stored record, and then replaces it with the next revision and leaves
    every other context alone; otherwise it changes nothing and says whether the
    context was deleted or changed. *)
Theorem context_commit_linear n s source uuid tokens native :
  (N.of_nat n ≤ u64_max)%N → runs n s → source ∈ sy_held s →
  let '(r, cs') := commit_inference (Some source) uuid tokens native (sy_contexts s) in
  match sy_contexts s !! cr_id source with
  | None => r = Err ServerError.ContextNotFound ∧ cs' = sy_contexts s
  | Some stored =>
      if decide (stored.(cr_revision) = source.(cr_revision)) then
        stored = source ∧ r = Ok (cr_id source)
        ∧ cs' = <[cr_id source := mkContext (cr_id source)
                    (wrapping_add (cr_revision source) 1) tokens native]> (sy_contexts s)
      else r = Err (ServerError.State "context changed during compaction") ∧ cs' = sy_contexts s
  end.
Proof.
  intros Hn Hr Hin. destruct (runs_system_ok n s Hn Hr) as [_ Hheld].
 destruct (Hheld _ Hin) as [_ Hle]. unfold commit_inference.
  destruct (sy_contexts s !! cr_id source) as [stored|] eqn:Hs; [|done].
  destruct (Hle _ eq_refl) as [_ Heq].
  destruct (N.eqb_spec (cr_revision stored) (cr_revision source)) as [H|H]; cbn.
  - rewrite Heq by done. by rewrite decide_True.
  - by rewrite decide_False.
Qed.

Lemma context_commit_linear_witness :
  ∃ s source, runs 3 s ∧ source ∈ sy_held s
    ∧ cr_revision <$> sy_contexts s !! cr_id source = Some 1%N
    ∧ (commit_inference (Some source) "y" ["b"] [] (sy_contexts s)).1
      = Err (ServerError.State "context changed during compaction").
Proof.
  pose (source := mkContext "x" 0 [] []).
  pose (s1 := issue "x" (create_context "x" ∅).2 initial).
  pose (s2 := mkSystem (sy_contexts s1) [source] (sy_issued s1)).
  pose (s3 := mkSystem (commit_inference (Some source) "" ["a"] [] (sy_contexts s2)).2
                (sy_held s2) (sy_issued s2)).
  assert (runs 3 s3) as Hr.
  { apply RunsStep with s2; [apply RunsStep with s1; [apply RunsStep with initial; [constructor|]|]|].
    - apply (StepCreate initial). set_solver.
    - apply (StepRead s1 "x"). vm_compute. reflexivity.
    - apply (StepCommit s2); cbn; set_solver. }
  assert (source ∈ sy_held s3) as Hin by (cbn; set_solver).
  exists s3, source. split; [done|]. split; [done|]. split; [vm_compute; reflexivity|].
  pose proof (context_commit_linear 3 s3 source "y" ["b"] [] ltac:(vm_compute; done) Hr Hin) as H.
  destruct (commit_inference (Some source) "y" ["b"] [] (sy_contexts s3)) as [r cs'] eqn:Hc.
  assert (sy_contexts s3 !! cr_id source = Some (mkContext "x" 1 ["a"] [])) as Hl by (vm_compute; reflexivity).
  rewrite Hl in H. cbn in H. destruct H as [H _]. exact H.
Defined.
