(* ===== verification/Declarations.v ===== *)
(** The compaction declarations of [crates/server/src/lib.rs]: short-lived records
    that a principal creates, reads and revokes, limited in number and in how many
    one principal creates per minute.

    The clock is an argument: the milliseconds since the Unix epoch, or nothing when
    the system clock is set before it. A fresh identifier is an argument too. *)

From stdpp Require Import gmap strings list numbers.
From Stdlib Require Import Lia.
From S2P Require Import Prelude Engine Admission.

(** ** Data *)

Record CompactionDeclaration : Type := mkDeclaration {
  cd_declaration_id : string;
  cd_context_id : string;
  cd_strategy_preferences : list string;
  cd_target_tokens : option nat;
  cd_expires_at_ms : N;
}.

Record CreateCompactionDeclaration : Type := mkCreate {
  cc_context_id : string;
  cc_strategy_preferences : list string;
  cc_target_tokens : option nat;
  cc_expires_in_ms : N;
}.

Record DeclarationRecord : Type := mkDeclarationRecord {
  dr_declaration : CompactionDeclaration;
  dr_principal : string;
}.

Record DeclarationState : Type := mkDeclarationState {
  ds_records : gmap string DeclarationRecord;
  ds_creation_times : gmap string (list N);
}.

Definition no_declarations : DeclarationState := mkDeclarationState ∅ ∅.

Definition set_records (m : gmap string DeclarationRecord) (s : DeclarationState) : DeclarationState :=
  mkDeclarationState m (ds_creation_times s).

Definition set_times (m : gmap string (list N)) (s : DeclarationState) : DeclarationState :=
  mkDeclarationState (ds_records s) m.

(** ** Operations *)

Abbreviation D := (M DeclarationState ServerError.Error).

(** [SystemTime::now().duration_since(UNIX_EPOCH)..as_millis() as u64] *)
Definition unix_ms (clock : option N) : D N :=
  now ← ok_or clock (ServerError.State "system clock before unix epoch");
  mret (now mod (u64_max + 1))%N.

(** [while recent.front().is_some_and(stale) { recent.pop_front(); }] *)
Fixpoint pop_stale (stale : N → bool) (recent : list N) : list N :=
  match recent with
  | created :: rest => if stale created then pop_stale stale rest else recent
  | [] => []
  end.

Definition minute_old (now created : N) : bool := (60000 <=? saturating_sub now created)%N.

Definition live_record (now : N) (record : DeclarationRecord) : bool :=
  (now <? cd_expires_at_ms (dr_declaration record))%N.

(** The [retain] of the creation times: what is left of each queue, if anything. *)
Definition prune_queue (now : N) (recent : list N) : option (list N) :=
  match pop_stale (minute_old now) recent with
  | [] => None
  | left_over => Some left_over
  end.

Definition prune_declarations (now : N) (s : DeclarationState) : DeclarationState :=
  mkDeclarationState
    (filter (λ '(_, record), live_record now record = true) (ds_records s))
    (omap (prune_queue now) (ds_creation_times s)).

(** [create_compaction_declaration_for] *)
Definition create_declaration (config : ServerConfig) (clock : option N) (uuid principal : string)
    (request : CreateCompactionDeclaration) : D CompactionDeclaration :=
  _ ← guard_not (negb (compaction_enabled config)) (ServerError.BadRequest "compaction is disabled");
  _ ← guard_not ((cc_expires_in_ms request =? 0)%N
                 || (compaction_declaration_lifetime_ms config <? cc_expires_in_ms request)%N)
        (ServerError.BadRequest "invalid compaction declaration lifetime");
  now ← unix_ms clock;
  let declaration :=
    mkDeclaration uuid (cc_context_id request) (cc_strategy_preferences request)
      (cc_target_tokens request) (saturating_add now (cc_expires_in_ms request)) in
  _ ← modify (prune_declarations now);
  let stale_cutoff_ms := saturating_sub now 60000 in
  records ← gets ds_records;
  _ ← guard_not (compaction_declarations config <=? N.of_nat (size records))%N ServerError.Busy;
  times ← gets ds_creation_times;
  let recent := pop_stale (λ created, (created <=? stale_cutoff_ms)%N) (default [] (times !! principal)) in
  _ ← modify (set_times (<[principal := recent]> times));
  _ ← guard_not (compaction_declaration_rate_per_minute config <=? N.of_nat (length recent))%N
        ServerError.Busy;
  _ ← modify (set_times (<[principal := recent ++ [now]]> times));
  _ ← modify (λ s, set_records (<[uuid := mkDeclarationRecord declaration principal]> (ds_records s)) s);
  mret declaration.

(** [compaction_declaration_for] *)
Definition declaration_for (clock : option N) (principal id : string) : D CompactionDeclaration :=
  now ← unix_ms clock;
  records ← gets ds_records;
  record ← ok_or (records !! id) (ServerError.BadRequest "compaction declaration not found");
  if (cd_expires_at_ms (dr_declaration record) <=? now)%N then
    _ ← modify (set_records (delete id records));
    throw (ServerError.BadRequest "compaction declaration expired")
  else
    _ ← guard_not (negb (bool_decide (dr_principal record = principal))) ServerError.Forbidden;
    mret (dr_declaration record).

(** [revoke_compaction_declaration_for] *)
Definition revoke_declaration (principal id : string) : D unit :=
  records ← gets ds_records;
  record ← ok_or (records !! id) (ServerError.BadRequest "compaction declaration not found");
  _ ← guard_not (negb (bool_decide (dr_principal record = principal))) ServerError.Forbidden;
  modify (set_records (delete id records)).

(** ** Runs *)

Inductive DeclarationOp : Type :=
| Create (uuid principal : string) (request : CreateCompactionDeclaration)
| Read (principal id : string)
| Revoke (principal id : string).

(** A creation that was granted: to whom, when, under which identifier, and what for. *)
Record Grant : Type := mkGrant {
  gr_principal : string;
  gr_time : N;
  gr_id : string;
  gr_request : CreateCompactionDeclaration;
}.

Definition grant_of (now : N) (op : DeclarationOp) (granted : bool) : list Grant :=
  match op with
  | Create uuid principal request => if granted then [mkGrant principal now uuid request] else []
  | _ => []
  end.

Definition op_run (config : ServerConfig) (now : N) (op : DeclarationOp) : D unit :=
  match op with
  | Create uuid principal request =>
      _ ← create_declaration config (Some now) uuid principal request; mret tt
  | Read principal id => _ ← declaration_for (Some now) principal id; mret tt
  | Revoke principal id => revoke_declaration principal id
  end.

(** One operation at its time; the grants in order. *)
Definition serve (config : ServerConfig) (state : DeclarationState * list Grant)
    (request : N * DeclarationOp) : DeclarationState * list Grant :=
  let '(s, granted) := state in
  let '(now, op) := request in
  match op_run config now op s with
  | Done _ s' => (s', granted ++ grant_of now op true)
  | Fail _ s' => (s', granted)
  | Panic => (s, granted)
  end.

Definition serve_all (config : ServerConfig) (requests : list (N * DeclarationOp))
  : DeclarationState * list Grant :=
  foldl (serve config) (no_declarations, []) requests.
