(* ===== verification/DeclarationsLaws.v ===== *)
(** What the compaction declarations promise: their number and the rate at which
    one principal creates them are bounded, and only their creator reads them,
    before they expire. *)

From stdpp Require Import gmap strings list numbers.
From Stdlib Require Import Lia.
From S2P Require Import Prelude Engine Admission Declarations.

Definition times_of (principal : string) (granted : list Grant) : list N :=
  gr_time <$> filter (λ g, gr_principal g = principal) granted.

(** What was granted, as it was asked for, until what was asked for has passed. *)
Definition granted_declaration (g : Grant) : CompactionDeclaration :=
  mkDeclaration (gr_id g) (cc_context_id (gr_request g)) (cc_strategy_preferences (gr_request g))
    (cc_target_tokens (gr_request g)) (saturating_add (gr_time g) (cc_expires_in_ms (gr_request g))).

Definition queue_of (principal : string) (s : DeclarationState) : list N :=
  default [] (ds_creation_times s !! principal).

(** How many of the times are in the minute that starts at [t]. *)
Definition in_minute (t : N) (times : list N) : N :=
  N.of_nat (length (filter (λ g, (t ≤ g)%N ∧ (g < t + 60000)%N) times)).

Arguments times_of : simpl never.
Arguments queue_of : simpl never.
Arguments in_minute : simpl never.

(** *** Queues *)

Lemma pop_stale_app stale recent :
  ∃ old, recent = old ++ pop_stale stale recent ∧ Forall (λ c, stale c = true) old.
Proof.
  induction recent as [|c recent IH]; cbn; [by exists []|].
  destruct (stale c) eqn:Hc; [|by exists []].
  destruct IH as (old & Heq & Hold). exists (c :: old). split; [|by constructor].
  cbn. by f_equal.
Qed.

Lemma prune_queue_default now o :
  default [] (o ≫= prune_queue now) = pop_stale (minute_old now) (default [] o).
Proof. destruct o as [recent|]; [|done]. cbn. unfold prune_queue. by destruct (pop_stale _ recent). Qed.

Lemma pruned_queue now p s :
  queue_of p (prune_declarations now s) = pop_stale (minute_old now) (queue_of p s).
Proof. unfold queue_of. cbn. rewrite lookup_omap. apply prune_queue_default. Qed.

Lemma set_queue_of p p' recent s :
  queue_of p (set_times (<[p' := recent]> (ds_creation_times s)) s)
  = if decide (p' = p) then recent else queue_of p s.
Proof.
  unfold queue_of. cbn. case_decide as Hp.
  - by rewrite Hp, lookup_insert_eq.
  - by rewrite lookup_insert_ne.
Qed.

(** *** Grants *)

Lemma times_of_app p granted g :
  times_of p (granted ++ [g])
  = times_of p granted ++ (if decide (gr_principal g = p) then [gr_time g] else []).
Proof.
  unfold times_of. rewrite list.filter_app, fmap_app. f_equal.
  destruct (decide (gr_principal g = p)); [by rewrite filter_cons_True|by rewrite filter_cons_False].
Qed.

Lemma in_minute_app t a b : in_minute t (a ++ b) = (in_minute t a + in_minute t b)%N.
Proof. unfold in_minute. rewrite list.filter_app, length_app. lia. Qed.

Lemma in_minute_le t times : (in_minute t times ≤ N.of_nat (length times))%N.
Proof. unfold in_minute. pose proof (length_filter (λ g, (t ≤ g)%N ∧ (g < t + 60000)%N) times). lia. Qed.

Lemma in_minute_none t times : (∀ g, g ∈ times → (g < t)%N ∨ (t + 60000 ≤ g)%N) → in_minute t times = 0%N.
Proof.
  intros H. unfold in_minute. induction times as [|g times IH]; [done|].
  rewrite list.filter_cons, decide_False; [|destruct (H g); [constructor|lia..]].
  apply IH. intros g' Hg. apply H. by constructor.
Qed.

(** ** The invariant *)

Section bounded.
Variable config : ServerConfig.

Definition rate : N := compaction_declaration_rate_per_minute config.

(** The queue of a principal is what is left of its grants after dropping some
    that are a minute old. *)
Definition queue_ok (now : N) (p : string) (granted : list Grant) (queue : list N) : Prop :=
  ∃ old, times_of p granted = old ++ queue
    ∧ (∀ g, g ∈ old → (g + 60000 ≤ now)%N)
    ∧ (N.of_nat (length queue) ≤ rate)%N.

Definition record_ok (now : N) (granted : list Grant) (id : string) (record : DeclarationRecord)
  : Prop :=
  ∃ g, g ∈ granted ∧ gr_id g = id ∧ record = mkDeclarationRecord (granted_declaration g) (gr_principal g)
    ∧ (gr_time g ≤ now)%N ∧ (cc_expires_in_ms (gr_request g) ≤ compaction_declaration_lifetime_ms config)%N.

Record declarations_ok (now : N) (state : DeclarationState * list Grant) : Prop := {
  ok_count : (N.of_nat (size (ds_records state.1)) ≤ compaction_declarations config)%N;
  ok_records id record :
    ds_records state.1 !! id = Some record → record_ok now state.2 id record;
  ok_queues p : queue_ok now p state.2 (queue_of p state.1);
  ok_past p g : g ∈ times_of p state.2 → (0 < g ≤ now)%N;
  ok_minutes p t : (in_minute t (times_of p state.2) ≤ rate)%N;
}.

Lemma queue_ok_later now now' p granted queue :
  (now ≤ now')%N → queue_ok now p granted queue → queue_ok now' p granted queue.
Proof.
  intros Hn (old & Heq & Hold & Hlen). exists old. split_and!; [done| |done].
  intros g Hg. specialize (Hold g Hg). lia.
Qed.

Lemma queue_ok_pruned now p granted queue stale :
  (∀ c, c ∈ queue → stale c = true → (c + 60000 ≤ now)%N) →
  queue_ok now p granted queue → queue_ok now p granted (pop_stale stale queue).
Proof.
  intros Hstale (old & Heq & Hold & Hlen).
  destruct (pop_stale_app stale queue) as (popped & Hq & Hp).
  rewrite Hq in Heq, Hlen. exists (old ++ popped). split_and!.
  - by rewrite <- app_assoc.
  - intros g [Hg|Hg]%elem_of_app; [by apply Hold|]. apply Hstale.
    + rewrite Hq. apply elem_of_app. by left.
    + rewrite Forall_forall in Hp. apply Hp. by apply list_elem_of_In.
  - rewrite length_app in Hlen. lia.
Qed.

Lemma declarations_ok_later now now' state :
  (now ≤ now')%N → declarations_ok now state → declarations_ok now' state.
Proof.
  intros Hn [Hc Hr Hq Hp Hm]. constructor; [done| | | |done].
  - intros id record Hl. destruct (Hr _ _ Hl) as (g & ? & ? & ? & ? & ?). exists g. split_and!; [done..|lia|done].
  - intros p. by eapply queue_ok_later.
  - intros p g Hg. specialize (Hp _ _ Hg). lia.
Qed.

(** Records only leave. *)
Lemma declarations_ok_fewer now s granted records :
  records ⊆ ds_records s → declarations_ok now (s, granted) → declarations_ok now (set_records records s, granted).
Proof.
  intros Hsub [Hc Hr Hq Hp Hm]. constructor; cbn in *; [|intros id record Hl|done..].
  - pose proof (map_subseteq_size _ _ Hsub). lia.
  - eapply Hr, lookup_weaken; done.
Qed.

Lemma queue_past now p granted queue :
  (∀ g, g ∈ times_of p granted → (0 < g ≤ now)%N) → queue_ok now p granted queue →
  ∀ c, c ∈ queue → (0 < c ≤ now)%N.
Proof.
  intros Hp (old & Heq & _) c Hc. apply Hp. rewrite Heq. apply elem_of_app. by right.
Qed.

Lemma declarations_ok_prune now s granted :
  declarations_ok now (s, granted) → declarations_ok now (prune_declarations now s, granted).
Proof.
  intros Hok. pose proof Hok as [Hc Hr Hq Hp Hm]. constructor; cbn in *; [| | |done..].
  - pose proof (map_subseteq_size _ _ (map_filter_subseteq
      (λ '(_, record), live_record now record = true) (ds_records s))). lia.
  - intros id record [Hl _]%map_lookup_filter_Some. by apply Hr.
  - intros p. rewrite pruned_queue. apply queue_ok_pruned; [|by apply Hq].
    intros c Hin Hs. apply N.leb_le in Hs. unfold saturating_sub in Hs. lia.
Qed.

Lemma declarations_ok_queue now s granted principal recent :
  declarations_ok now (s, granted) → queue_ok now principal granted recent →
  declarations_ok now (set_times (<[principal := recent]> (ds_creation_times s)) s, granted).
Proof.
  intros [Hc Hr Hq Hp Hm] Hrecent. constructor; cbn in *; [done|done| |done|done].
  intros p. rewrite set_queue_of. by case_decide; subst.
Qed.

(** Granting a declaration: the time joins the queue, the record is stored. *)
Lemma declarations_ok_grant now s granted g recent :
  gr_time g = now → (0 < now)%N → (cc_expires_in_ms (gr_request g) ≤ compaction_declaration_lifetime_ms config)%N →
  declarations_ok now (s, granted) →
  queue_ok now (gr_principal g) granted recent → (N.of_nat (length recent) < rate)%N →
  (N.of_nat (size (ds_records s)) < compaction_declarations config)%N →
  declarations_ok now
    (set_records (<[gr_id g := mkDeclarationRecord (granted_declaration g) (gr_principal g)]> (ds_records s))
       (set_times (<[gr_principal g := recent ++ [now]]> (ds_creation_times s)) s),
     granted ++ [g]).
Proof.
  intros Htime Hnow Hlife [Hc Hr Hq Hp Hm] (old & Heq & Hold & Hlen) Hroom Hcap. constructor; cbn in *.
  - rewrite map_size_insert. destruct (ds_records s !! _); cbn; lia.
  - intros id r [[<- <-]|[_ Hl]]%lookup_insert_Some.
    + exists g. split_and!; [apply elem_of_app; right; by constructor|done..|lia|done].
    + destruct (Hr _ _ Hl) as (g' & ? & ?). exists g'. split; [|done]. apply elem_of_app. by left.
  - intros p. change (queue_of p _) with
      (queue_of p (set_times (<[gr_principal g := recent ++ [now]]> (ds_creation_times s)) s)).
    unfold queue_ok. rewrite set_queue_of, times_of_app, Htime. case_decide as Hd; [subst p|].
    + exists old. rewrite Heq, length_app. cbn. split_and!; [by rewrite app_assoc|done|lia].
    + rewrite app_nil_r. apply Hq.
  - intros p x. rewrite times_of_app, Htime. intros [Hg|Hg]%elem_of_app; [by eapply Hp|].
    case_decide; [|by apply elem_of_nil in Hg]. apply list_elem_of_singleton in Hg. lia.
  - intros p t. rewrite times_of_app, Htime. case_decide as Hd; [subst p|by rewrite app_nil_r].
    destruct (decide ((t ≤ now)%N ∧ (now < t + 60000)%N)) as [Hin|Hout].
    + rewrite Heq, !in_minute_app, (in_minute_none t old).
      2:{ intros x Hx. specialize (Hold x Hx). lia. }
      pose proof (in_minute_le t recent). pose proof (in_minute_le t [now]). cbn [length] in *. lia.
    + rewrite in_minute_app, (in_minute_none t [now]); [specialize (Hm (gr_principal g) t); lia|].
      intros x Hx%list_elem_of_singleton. lia.
Qed.

Lemma create_declaration_ok now uuid principal request s granted :
  (0 < now ≤ u64_max)%N → declarations_ok now (s, granted) →
  wp (create_declaration config (Some now) uuid principal request)
    (λ _ s', declarations_ok now (s', granted ++ [mkGrant principal now uuid request]))
    (λ _ s', declarations_ok now (s', granted)) s.
Proof.
  intros Hnow Hok. unfold create_declaration, unix_ms. wp_run.
  wp_case Henabled; [done|]. wp_case Hlife; [done|].
  apply orb_false_iff in Hlife as [_ Hlife]. apply N.ltb_ge in Hlife.
  rewrite (N.mod_small now) by lia. pose proof (declarations_ok_prune _ _ _ Hok) as Hpruned.
  set (pruned := prune_declarations now s) in *. wp_case Hcount; [done|]. apply N.leb_gt in Hcount.
  set (recent := pop_stale _ _).
  assert (queue_ok now principal granted recent) as Hrecent.
  { apply queue_ok_pruned; [|apply Hpruned]. intros c Hc Hs%N.leb_le.
    assert (0 < c ≤ now)%N by (eapply queue_past; [intros; by eapply (ok_past _ _ Hpruned)|apply Hpruned|done]).
    unfold saturating_sub in Hs. lia. }
  wp_case Hrate; [by apply declarations_ok_queue|]. apply N.leb_gt in Hrate.
  assert (declarations_ok now (set_times (<[principal := recent]> (ds_creation_times pruned)) pruned, granted))
    as Hpopped by by apply declarations_ok_queue.
  apply (declarations_ok_grant now _ granted (mkGrant principal now uuid request) recent) in Hpopped; [|done|lia|done..].
  cbn in *. by rewrite insert_insert_eq in Hpopped.
Qed.

Lemma read_ok now principal id s granted :
  (now ≤ u64_max)%N → declarations_ok now (s, granted) →
  wp (declaration_for (Some now) principal id)
    (λ d s', s' = s ∧ ∃ record, ds_records s !! id = Some record ∧ dr_declaration record = d
               ∧ dr_principal record = principal ∧ (now < cd_expires_at_ms d)%N)
    (λ _ s', declarations_ok now (s', granted)) s.
Proof.
  intros Hnow Hok. unfold declaration_for, unix_ms. wp_run.
  rewrite (N.mod_small now) by lia. destruct (ds_records s !! id) as [record|] eqn:Hl; [|done].
  destruct (N.leb_spec (cd_expires_at_ms (dr_declaration record)) now) as [He|He]; wp_run.
  - apply declarations_ok_fewer; [apply delete_subseteq|done].
  - wp_case Hp; [done|]. split; [done|]. exists record. apply negb_false_iff, bool_decide_eq_true in Hp. done.
Qed.

Lemma revoke_ok now principal id s granted :
  declarations_ok now (s, granted) →
  wp (revoke_declaration principal id)
    (λ _ s', declarations_ok now (s', granted)) (λ _ s', declarations_ok now (s', granted)) s.
Proof.
  intros Hok. unfold revoke_declaration. wp_run. destruct (ds_records s !! id) as [record|]; [|done].
  wp_run. wp_case Hp; [done|]. apply declarations_ok_fewer; [apply delete_subseteq|done].
Qed.

Lemma serve_ok now op state :
  (0 < now ≤ u64_max)%N → declarations_ok now state → declarations_ok now (serve config state (now, op)).
Proof.
  intros Hnow Hok. destruct state as [s granted]. cbn.
  assert (wp (op_run config now op)
    (λ _ s', declarations_ok now (s', granted ++ grant_of now op true))
    (λ _ s', declarations_ok now (s', granted)) s) as H.
  { destruct op as [uuid principal request|principal id|principal id]; cbn [op_run grant_of].
    - rewrite wp_bind. by apply create_declaration_ok.
    - rewrite wp_bind, app_nil_r. eapply wp_mono; [apply read_ok; [lia|done]|cbn beta|done]. by intros d s' [-> _].
    - rewrite app_nil_r. by apply revoke_ok. }
  revert H. unfold wp_gen. by destruct (op_run config now op s).
Qed.

Fixpoint chronological (last : N) (requests : list (N * DeclarationOp)) : Prop :=
  match requests with
  | [] => True
  | (now, _) :: rest => (last ≤ now)%N ∧ (0 < now ≤ u64_max)%N ∧ chronological now rest
  end.

Lemma serve_all_ok requests last state :
  declarations_ok last state → chronological last requests →
  declarations_ok (foldl (λ _ r, r.1) last requests) (foldl (serve config) state requests).
Proof.
  revert last state. induction requests as [|[now op] requests IH]; intros last state Hok Hc; [done|].
  destruct Hc as (Hle & Hnow & Hc). cbn. apply IH; [|done]. apply serve_ok; [done|].
  by eapply declarations_ok_later.
Qed.

Lemma no_declarations_ok last : declarations_ok last (no_declarations, []).
Proof.
  constructor.
  - apply N.le_0_l.
  - intros id record Hl. cbn in Hl. simplify_map_eq.
  - intros p. exists []. split_and!; [done|by intros ? ?%elem_of_nil|apply N.le_0_l].
  - by intros p g ?%elem_of_nil.
  - intros p t. apply N.le_0_l.
Qed.

(** C38: the limits on declarations hold. With a clock that does not go back, and
    whatever principals create, read and revoke: there are never more declarations
    than configured; in no sixty seconds is one principal granted more than its
    rate; and a declaration that is read was granted to the principal that reads it,
    under the identifier it reads, and is as it was asked for then; the lifetime that was
    asked for, which is within the configured one, has not passed; and reading it changes
    nothing. *)
Theorem declarations_bounded requests :
  chronological 1 requests →
  let '(s, granted) := serve_all config requests in
  (N.of_nat (size (ds_records s)) ≤ compaction_declarations config)%N
  ∧ (∀ p t, in_minute t (times_of p granted) ≤ rate)%N
  ∧ ∀ now p id d s',
      (foldl (λ _ r, r.1) 1%N requests ≤ now ≤ u64_max)%N →
      declaration_for (Some now) p id s = Done d s' →
      s' = s ∧ ∃ g, g ∈ granted ∧ gr_principal g = p ∧ gr_id g = id ∧ d = granted_declaration g
        ∧ (gr_time g ≤ now < gr_time g + cc_expires_in_ms (gr_request g))%N
        ∧ (cc_expires_in_ms (gr_request g) ≤ compaction_declaration_lifetime_ms config)%N.
Proof.
  intros Hc. pose proof (serve_all_ok requests 1 _ (no_declarations_ok 1) Hc) as Hok.
  unfold serve_all. destruct (foldl (serve config) _ requests) as [s granted].
  split_and!; [apply Hok|apply Hok|]. intros now p id d s' Hnow Hread.
  pose proof (declarations_ok_later _ now _ (proj1 Hnow) Hok) as Hok'.
  pose proof (read_ok now p id s granted (proj2 Hnow) Hok') as H.
  unfold wp_gen in H. rewrite Hread in H. destruct H as (-> & record & Hl & <- & <- & Hlt).
  destruct (ok_records _ _ Hok' _ _ Hl) as (g & Hin & Hid & -> & Ht & Hlife). split; [done|]. exists g.
  split_and!; [done..| |done]. cbn in Hlt. unfold saturating_add in Hlt. lia.
Qed.
End bounded.

(** Two principals, a rate of two: the third creation of one within a minute is
    refused, the other is served, and a minute later the first is again. *)
Module DeclarationDemo.
Definition config : ServerConfig :=
  mkServerConfig 1 1 1 1 1 1 1 1 1 1 1 1 true 1 10 2 600000.
Definition ask : CreateCompactionDeclaration := mkCreate "ctx" [] None 500000.
Definition requests : list (N * DeclarationOp) :=
  [(100000, Create "d1" "ann" ask); (110000, Create "d2" "ann" ask); (120000, Create "d3" "ann" ask);
   (130000, Create "d4" "bob" ask); (165000, Create "d5" "ann" ask); (170000, Revoke "bob" "d1")]%N.
End DeclarationDemo.

Lemma declarations_bounded_witness :
  chronological 1 DeclarationDemo.requests
  ∧ ((λ g, (gr_principal g, gr_time g, gr_id g)) <$> (serve_all DeclarationDemo.config DeclarationDemo.requests).2)
    = [("ann", 100000, "d1"); ("ann", 110000, "d2"); ("bob", 130000, "d4"); ("ann", 165000, "d5")]%N
  ∧ (N.of_nat (size (ds_records (serve_all DeclarationDemo.config DeclarationDemo.requests).1)) ≤ 10)%N
  ∧ ∃ g, g ∈ (serve_all DeclarationDemo.config DeclarationDemo.requests).2 ∧ gr_principal g = "ann" ∧ gr_id g = "d2"
      ∧ (gr_time g ≤ 200000 < gr_time g + cc_expires_in_ms (gr_request g))%N.
Proof.
  assert (chronological 1 DeclarationDemo.requests) as Hc by (vm_compute; repeat split; congruence).
  split; [exact Hc|]. split; [vm_compute; reflexivity|].
  pose proof (declarations_bounded DeclarationDemo.config _ Hc) as H.
  assert (match declaration_for (Some 200000%N) "ann" "d2" (serve_all DeclarationDemo.config DeclarationDemo.requests).1 with
          | Done _ _ => True | _ => False end) as Hread by (vm_compute; exact I).
  destruct (serve_all DeclarationDemo.config DeclarationDemo.requests) as [s granted] eqn:Hs.
  destruct H as (Hcount & _ & H). split; [exact Hcount|]. cbn [fst snd] in *.
  destruct (declaration_for (Some 200000%N) "ann" "d2" s) as [d s'| |] eqn:Hd; [|destruct Hread..].
  destruct (H 200000%N "ann" "d2" d s' ltac:(vm_compute; split; discriminate) Hd) as (_ & g & Hg & Hp & Hid & _ & Ht & _).
  exists g. split; [exact Hg|]. split; [exact Hp|]. split; [exact Hid|exact Ht].
Defined.
