(* ===== verification/Prompt.v ===== *)
(** Prompt rendering ([crates/server/src/prompt.rs]): the Gemma chat template, and
    the operations that extend a rendered prompt without rendering it again.

    A message's content is any string, so a content may itself contain the
    template's markers. *)

From stdpp Require Import base strings list numbers.
From Stdlib Require Import Lia.
From S2P Require Import Prelude Engine.

Record Message : Type := mkMsg {
  msg_role : string;
  msg_content : string;
}.

(** ** Strings *)

Definition newline : string := String (Ascii.ascii_of_nat 10) "".

(** [s.strip_suffix(p)], the part of [s] before a final [p]. *)
Definition strip_end (p s : string) : option string :=
  let n := String.length s - String.length p in
  if (String.length p <=? String.length s)%nat
     && bool_decide (String.substring n (String.length p) s = p)
  then Some (String.substring 0 n s) else None.

(** [s.rfind(p)] *)
Fixpoint rfind (p s : string) : option nat :=
  match (match s with String _ s' => rfind p s' | EmptyString => None end) with
  | Some i => Some (S i)
  | None => if String.prefix p s then Some 0 else None
  end.

(** [s.insert_str(position, t)] *)
Definition insert_str (position : nat) (t s : string) : string :=
  String.substring 0 position s +:+ t +:+ String.substring position (String.length s - position) s.

(** ** The template *)

Definition START_USER : string := "<start_of_turn>user" +:+ newline.
Definition GENERATION_PROMPT : string := "<start_of_turn>model" +:+ newline.
Definition END_TURN : string := "<end_of_turn>" +:+ newline.
Definition GENERATION_SUFFIX : string := END_TURN +:+ GENERATION_PROMPT.

Definition unsupported (family : string) : ServerError.Error :=
  ServerError.BadRequest
    ("unsupported_capability: model family " +:+ family +:+ " has no chat template").

Definition lacks_prompt : ServerError.Error :=
  ServerError.State "rendered Gemma conversation lacks its generation prompt".

(** One message of the loop. *)
Definition turn (m : Message) : string :=
  "<start_of_turn>" +:+ (if bool_decide (msg_role m = "assistant") then "model" else "user")
  +:+ newline +:+ msg_content m +:+ END_TURN.

Definition expected_role (index : nat) : string := if Nat.even index then "user" else "assistant".

Fixpoint render_turns (index : nat) (messages : list Message) (prompt : string)
  : result ServerError.Error string :=
  match messages with
  | [] => Ok prompt
  | m :: messages' =>
      if negb (bool_decide (msg_role m = expected_role index)) then
        Err (ServerError.BadRequest
          ("Gemma chat messages must alternate user and assistant roles; expected "
           +:+ expected_role index))
      else render_turns (S index) messages' (prompt +:+ turn m)
  end.

Definition is_system (m : Message) : bool := bool_decide (msg_role m = "system").

(** The messages without a leading system message, and its content. *)
Definition split_system (messages : list Message) : option string * list Message :=
  match messages with
  | m :: rest => if is_system m then (Some (msg_content m), rest) else (None, messages)
  | [] => (None, [])
  end.

(** The first message with the system's content in front of its own. *)
Definition with_system (system : option string) (m : Message) : Message :=
  match system with
  | Some s => mkMsg (msg_role m) (s +:+ newline +:+ newline +:+ msg_content m)
  | None => m
  end.

Definition gemma4 (messages : list Message) : result ServerError.Error string :=
  match messages with
  | [] => Err (ServerError.BadRequest "messages must not be empty")
  | _ =>
      let '(system, messages) := split_system messages in
      if existsb is_system messages then
        Err (ServerError.BadRequest "system messages are accepted only in the first position")
      else
        match messages with
        | first :: rest =>
            if negb (bool_decide (msg_role first = "user")) then
              Err (ServerError.BadRequest "Gemma chat must begin with a user message")
            else
              match render_turns 0 (with_system system first :: rest) "" with
              | Ok prompt => Ok (prompt +:+ GENERATION_PROMPT)
              | Err e => Err e
              end
        | [] => Err (ServerError.BadRequest "Gemma chat must begin with a user message")
        end
  end.

Definition apply_chat_template (family : string) (messages : list Message)
  : result ServerError.Error string :=
  if bool_decide (family = "gemma4") then gemma4 messages else Err (unsupported family).

(** ** Extending a prompt *)

Definition append_rendered (family prompt continuation : string) : result ServerError.Error string :=
  if bool_decide (prompt = "") then Ok continuation
  else if bool_decide (family = "gemma4") then
    match strip_end GENERATION_PROMPT prompt with
    | Some before => Ok (before +:+ continuation)
    | None => Err lacks_prompt
    end
  else Err (unsupported family).

Definition append_assistant_content (family prompt content : string)
  : result ServerError.Error string :=
  if bool_decide (family = "gemma4") then
    match strip_end GENERATION_PROMPT prompt with
    | Some _ => Ok (prompt +:+ content +:+ END_TURN +:+ GENERATION_PROMPT)
    | None => Err lacks_prompt
    end
  else Err (unsupported family).

Definition insert_generation_instructions (family prompt instructions : string)
  : result ServerError.Error string :=
  if bool_decide (family = "gemma4") then
    match rfind GENERATION_SUFFIX prompt with
    | Some position => Ok (insert_str position instructions prompt)
    | None => Err (ServerError.State "rendered Gemma conversation lacks its generation suffix")
    end
  else Err (unsupported family).

Definition terminal_markers (family : string) : list string :=
  if bool_decide (family = "gemma4") then ["<end_of_turn>"; "</end_of_turn>"; "</start_of_turn>"]
  else [].

(** ** Lemmas: strings *)

Lemma substring_prefix a b : String.substring 0 (String.length a) (a +:+ b) = a.
Proof.
  induction a as [|x a IH]; [by destruct b|]. exact (f_equal (String x) IH).
Qed.

Lemma strip_end_app p a : strip_end p (a +:+ p) = Some a.
Proof.
  unfold strip_end. rewrite append_length.
  replace (String.length a + String.length p - String.length p)%nat with (String.length a) by lia.
  rewrite (proj2 (Nat.leb_le _ _)) by lia. rewrite substring_append, bool_decide_true by done.
  by rewrite substring_prefix.
Qed.

Lemma prefix_length p s : String.prefix p s = true → (String.length p ≤ String.length s)%nat.
Proof.
  revert s. induction p as [|x p IH]; intros [|y s] H; cbn in *; try lia; try done.
  destruct (Ascii.ascii_dec x y); [|done]. apply IH in H. lia.
Qed.

Lemma rfind_short p s : (String.length s < String.length p)%nat → rfind p s = None.
Proof.
  induction s as [|y s IH]; intros Hl.
  - cbn. destruct p; [cbn in Hl; lia|done].
  - cbn [rfind]. rewrite IH by (cbn in Hl; lia).
    destruct (String.prefix p (String y s)) eqn:Hp; [|done]. apply prefix_length in Hp. lia.
Qed.

Lemma prefix_refl p : String.prefix p p = true.
Proof. induction p as [|x p IH]; [done|]. cbn. by destruct (Ascii.ascii_dec x x). Qed.

(** A final occurrence is the last one. *)
Lemma rfind_app p a : p ≠ "" → rfind p (a +:+ p) = Some (String.length a).
Proof.
  intros Hp. induction a as [|x a IH].
  - change ("" +:+ p) with p. destruct p as [|y p']; [done|].
    cbn [rfind]. rewrite rfind_short by (cbn; lia). by rewrite prefix_refl.
  - change (String x a +:+ p) with (String x (a +:+ p)). cbn [rfind]. by rewrite IH.
Qed.

Lemma insert_str_app a t b : insert_str (String.length a) t (a +:+ b) = a +:+ t +:+ b.
Proof.
  unfold insert_str. rewrite substring_prefix, append_length.
  replace (String.length a + String.length b - String.length a)%nat with (String.length b) by lia.
  by rewrite substring_append.
Qed.

(** ** Lemmas: rendering *)

Fixpoint render (messages : list Message) : string :=
  match messages with
  | [] => ""
  | m :: messages' => turn m +:+ render messages'
  end.

(** The roles of the messages alternate, from the role of [index] on. *)
Fixpoint alternating (index : nat) (messages : list Message) : Prop :=
  match messages with
  | [] => True
  | m :: messages' => msg_role m = expected_role index ∧ alternating (S index) messages'
  end.

Lemma render_app ms ms' : render (ms ++ ms') = render ms +:+ render ms'.
Proof. induction ms as [|m ms IH]; [done|]. cbn. by rewrite IH, append_assoc. Qed.

Lemma render_turns_ok index ms prompt :
  alternating index ms → render_turns index ms prompt = Ok (prompt +:+ render ms).
Proof.
  revert index prompt. induction ms as [|m ms IH]; intros index prompt H; cbn.
  - by rewrite append_nil_r.
  - destruct H as [Hr Ha]. rewrite bool_decide_true by done. cbn. by rewrite IH, append_assoc.
Qed.

Lemma render_turns_inv index ms prompt p :
  render_turns index ms prompt = Ok p → alternating index ms.
Proof.
  revert index prompt. induction ms as [|m ms IH]; intros index prompt H; cbn in *; [done|].
  destruct (bool_decide (msg_role m = expected_role index)) eqn:Hr; cbn in H; [|done].
  apply bool_decide_eq_true in Hr. split; [done|]. by eapply IH.
Qed.

Lemma alternating_app index ms ms' :
  alternating index (ms ++ ms') ↔ alternating index ms ∧ alternating (index + length ms) ms'.
Proof.
  revert index. induction ms as [|m ms IH]; intros index; cbn.
  - rewrite Nat.add_0_r. tauto.
  - rewrite IH. replace (index + S (length ms))%nat with (S index + length ms)%nat by lia. tauto.
Qed.

Lemma alternating_even index k ms : Nat.even k = true → alternating (k + index) ms ↔ alternating index ms.
Proof.
  intros Hk. revert index. induction ms as [|m ms IH]; intros index; cbn; [done|].
  replace (S (k + index)) with (k + S index)%nat by lia. rewrite IH.
  unfold expected_role. rewrite Nat.even_add, Hk. by destruct (Nat.even index).
Qed.

Lemma alternating_no_system index ms : alternating index ms → existsb is_system ms = false.
Proof.
  revert index. induction ms as [|m ms IH]; intros index H; cbn; [done|]. destruct H as [Hr Ha].
  rewrite (IH _ Ha), orb_false_r. unfold is_system. apply bool_decide_eq_false. rewrite Hr.
  unfold expected_role. by destruct (Nat.even index).
Qed.

(** What a conversation becomes before it is rendered. *)
Definition effective (messages : list Message) : list Message :=
  match split_system messages with
  | (system, first :: rest) => with_system system first :: rest
  | (_, []) => []
  end.

Definition well_formed (messages : list Message) : Prop :=
  (split_system messages).2 ≠ [] ∧ alternating 0 (split_system messages).2.

Lemma with_system_role system m : msg_role (with_system system m) = msg_role m.
Proof. by destruct system. Qed.

(** The template accepts exactly the well-formed conversations. *)
Lemma gemma4_spec ms p :
  gemma4 ms = Ok p ↔ well_formed ms ∧ p = render (effective ms) +:+ GENERATION_PROMPT.
Proof.
  unfold gemma4, well_formed, effective. destruct ms as [|m0 ms0]; [cbn; naive_solver|].
  destruct (split_system (m0 :: ms0)) as [system [|first rest]]; [cbn; naive_solver|].
  cbn [snd]. split.
  - destruct (existsb is_system _); [done|].
    destruct (bool_decide (msg_role first = "user")); [|done].
    cbn [negb]. destruct (render_turns _ _ _) as [q|] eqn:Hq; [|done]. intros [= <-].
    pose proof (render_turns_inv _ _ _ _ Hq) as Ha. rewrite render_turns_ok in Hq by done.
    injection Hq as <-. split; [|done]. split; [done|].
    destruct Ha as [Hr Ha]. rewrite with_system_role in Hr. by split.
  - intros [[_ Ha] ->]. rewrite (alternating_no_system _ _ Ha). destruct Ha as [Hr Ha].
    rewrite bool_decide_true by done. cbn [negb]. rewrite render_turns_ok; [done|].
    split; [by rewrite with_system_role|done].
Qed.

Lemma split_system_app ms ms' :
  (split_system ms).2 ≠ [] → split_system (ms ++ ms') = ((split_system ms).1, (split_system ms).2 ++ ms').
Proof. destruct ms as [|m ms]; [done|]. intros _. cbn. by destruct (is_system m). Qed.

Lemma effective_app ms ms' : (split_system ms).2 ≠ [] → effective (ms ++ ms') = effective ms ++ ms'.
Proof.
  intros H. unfold effective. rewrite split_system_app by done.
  by destruct (split_system ms) as [system [|first rest]].
Qed.

(** [ms] is rendered, and [more] continues it: the whole is rendered. *)
Lemma gemma4_app ms more p :
  gemma4 ms = Ok p → alternating (length (split_system ms).2) more →
  gemma4 (ms ++ more) = Ok (render (effective ms) +:+ render more +:+ GENERATION_PROMPT).
Proof.
  intros [[Hne Ha] _]%gemma4_spec Hmore. apply gemma4_spec. split.
  - unfold well_formed. rewrite split_system_app by done. cbn [snd]. split.
    + by destruct (split_system ms).2.
    + by apply alternating_app.
  - by rewrite effective_app, render_app, append_assoc.
Qed.

Lemma render_one m : render [m] = turn m.
Proof. apply append_nil_r. Qed.

Lemma turn_user content : turn (mkMsg "user" content) = START_USER +:+ content +:+ END_TURN.
Proof. reflexivity. Qed.

Lemma turn_assistant content :
  turn (mkMsg "assistant" content) = GENERATION_PROMPT +:+ content +:+ END_TURN.
Proof. reflexivity. Qed.

(** The last user message is at the end of the rendering, and its content does not
    matter to the template. *)
Lemma effective_last before :
  ∃ x, ∀ content,
    render (effective (before ++ [mkMsg "user" content])) = x +:+ content +:+ END_TURN.
Proof.
  destruct (split_system before) as [system ms] eqn:Hs.
  destruct ms as [|first rest].
  - assert (before = [] ∨ ∃ m, before = [m] ∧ is_system m = true) as [->|(m & -> & Hm)].
    { destruct before as [|m before]; [by left|]. right. cbn in Hs.
      destruct (is_system m) eqn:Hm; simplify_eq. by exists m. }
    + exists START_USER. intros content. change (effective _) with [mkMsg "user" content].
      by rewrite render_one, turn_user.
    + exists (START_USER +:+ msg_content m +:+ newline +:+ newline). intros content.
      unfold effective, split_system. cbn [app]. rewrite Hm. cbn [with_system msg_role msg_content].
      by rewrite render_one, turn_user, !append_assoc.
  - exists (render (effective before) +:+ START_USER). intros content.
    rewrite effective_app by by rewrite Hs. rewrite render_app, render_one, turn_user.
    by rewrite !append_assoc.
Qed.

Lemma well_formed_last before content content' :
  well_formed (before ++ [mkMsg "user" content]) → well_formed (before ++ [mkMsg "user" content']).
Proof.
  unfold well_formed. destruct before as [|m before]; [done|]. cbn. destruct (is_system m); cbn.
  all: rewrite !alternating_app; cbn; intros [_ H]; split; [by destruct before|tauto].
Qed.

Lemma render_generation_suffix x content :
  (x +:+ content +:+ END_TURN) +:+ GENERATION_PROMPT = (x +:+ content) +:+ GENERATION_SUFFIX.
Proof. unfold GENERATION_SUFFIX. by rewrite !append_assoc. Qed.

Lemma append_nonempty a b : b ≠ "" → a +:+ b ≠ "".
Proof. by destruct a. Qed.

(** Extending a rendered conversation gives what rendering the whole
    conversation gives: with the assistant's answer, with a second rendered
    conversation, and with instructions at the end of the last user message. *)
Theorem prompt_incremental ms p :
  apply_chat_template "gemma4" ms = Ok p →
  (∀ content, Nat.even (length (split_system ms).2) = false →
     append_assistant_content "gemma4" p content
     = apply_chat_template "gemma4" (ms ++ [mkMsg "assistant" content]))
  ∧ (∀ more q, Nat.even (length (split_system ms).2) = true →
       apply_chat_template "gemma4" more = Ok q → (split_system more).1 = None →
       append_rendered "gemma4" p q = apply_chat_template "gemma4" (ms ++ more))
  ∧ (∀ before content instructions, ms = before ++ [mkMsg "user" content] →
       insert_generation_instructions "gemma4" p instructions
       = apply_chat_template "gemma4" (before ++ [mkMsg "user" (content +:+ instructions)])).
Proof.
  unfold apply_chat_template. rewrite bool_decide_true by done. intros Hp.
  pose proof (proj1 (gemma4_spec _ _) Hp) as [Hwf ->]. split_and!.
  - intros content Hodd. unfold append_assistant_content. rewrite bool_decide_true by done.
    rewrite strip_end_app, (gemma4_app _ _ _ Hp).
    + by rewrite render_one, turn_assistant, !append_assoc.
    + cbn. unfold expected_role. by rewrite Hodd.
  - intros more q Heven Hq Hsys. unfold append_rendered.
    rewrite bool_decide_false by (by apply append_nonempty; vm_compute). rewrite bool_decide_true by done.
    rewrite strip_end_app. apply gemma4_spec in Hq as [[Hne Ha] ->].
    assert (split_system more = (None, more)) as Hmore.
    { destruct more as [|m more]; [done|]. cbn in *. by destruct (is_system m). }
    rewrite Hmore in Ha. rewrite (gemma4_app _ _ _ Hp).
    + unfold effective at 2. rewrite Hmore. by destruct more.
    + rewrite <- (Nat.add_0_r (length _)). by apply alternating_even.
  - intros before content instructions ->. destruct (effective_last before) as [x Hx].
    unfold insert_generation_instructions. rewrite bool_decide_true by done.
    rewrite Hx, render_generation_suffix, rfind_app, insert_str_app by done. symmetry.
    apply gemma4_spec. split; [by eapply well_formed_last|]. rewrite Hx.
    unfold GENERATION_SUFFIX. by rewrite !append_assoc.
Qed.

Lemma prompt_incremental_witness :
  ∃ p, apply_chat_template "gemma4" [mkMsg "system" "Be brief."; mkMsg "user" "Hello"] = Ok p
    ∧ append_assistant_content "gemma4" p "Hi"
      = apply_chat_template "gemma4"
          [mkMsg "system" "Be brief."; mkMsg "user" "Hello"; mkMsg "assistant" "Hi"].
Proof.
  eexists. split; [vm_compute; reflexivity|].
  apply (prompt_incremental [mkMsg "system" "Be brief."; mkMsg "user" "Hello"]); vm_compute; reflexivity.
Defined.
