(* ===== verification/Inference.v ===== *)
(** An admitted inference of [crates/server/src/lib.rs], from the request to the
    commit of its context: the declared compaction, the generation through the
    frontier, and the usage it reports; with the built-in [DeterministicEngine].

    [Shared] is what the inference shares with the other requests. Before each
    access of it (a lock, an atomic, a clock) other requests may run: [rn_others]
    holds what they do, one function per access, and a run that has used them all
    is cut off. The engine's sessions are the interface [ExecutionSession]; where
    the events go is the parameter [emit]. *)

From stdpp Require Import gmap strings list numbers.
From Stdlib Require Import Lia.
From S2P Require Import Prelude Engine Scheduler Gate Admission Declarations Contexts.
From S2P Require Import Prompt ContextStrategy Text Generation Lifecycle Responses.

(** ** Strings *)

(** A string of the code is a sequence of characters, stored as their bytes. *)
Definition string_of (t : text) : string :=
  String.string_of_list_ascii (Ascii.ascii_of_N <$> encode t).

Definition text_of (s : string) : text := from_utf8_lossy (chars s).

Fixpoint split_words (current : text) (t : text) : list text :=
  match t with
  | [] => match current with [] => [] | _ => [current] end
  | c :: t' =>
      if is_whitespace c then
        match current with
        | [] => split_words [] t'
        | _ => current :: split_words [] t'
        end
      else split_words (current ++ [c]) t'
  end.

(** [split_whitespace().map(str::to_owned)] *)
Definition words (t : text) : list string := string_of <$> split_words [] t.

(** ** Requests *)

(** The floating-point fields are bit patterns. *)
Record SamplingConfig : Type := mkSampling {
  sg_temperature : N;
  sg_top_p : N;
  sg_seed : N;
}.

Record EngineRequest : Type := mkEngineRequest {
  er_model : ModelRecord;
  er_prompt : string;
  er_max_tokens : N;
  er_prior_tokens : list Z;
  er_sampling : SamplingConfig;
  er_grammar : option string;
  er_control : N;
  er_scheduling : SchedulingMetadata;
  er_prefill_chunk_tokens : N;
}.

Record InferRequest : Type := mkInferRequest {
  iq_model : string;
  iq_prompt : string;
  iq_max_tokens : N;
  iq_context_id : option string;
  iq_deadline_ms : option N;
  iq_stop : list string;
  iq_raw_continuation : bool;
  iq_compaction : option CompactionRequest;
  iq_sampling : SamplingConfig;
  iq_grammar : option string;
  iq_scheduling : SchedulingMetadata;
}.

Record InferResponse : Type := mkInferResponse {
  ir_id : string;
  ir_text : text;
  ir_usage : Usage;
}.

(** ** The built-in engine *)

Module Deterministic.

Record DeterministicSession : Type := mkSession {
  ds_request : EngineRequest;
  ds_pieces : list string;
  ds_index : N;
  ds_prepared : bool;
}.

Definition i32_wrap (x : Z) : Z := ((x + 2147483648) mod 4294967296 - 2147483648)%Z.

Definition finish (view : Control.RequestControl) (s : DeterministicSession)
  : result ServerError.Error EngineOutput :=
  match Control.check view with
  | Err e => Err e
  | Ok _ =>
      let input_tokens := N.of_nat (length (ds_pieces s)) in
      Ok (mkOutput (er_prior_tokens (ds_request s)) input_tokens 0 input_tokens
            (mkPrefill input_tokens 0 input_tokens 0 0 0 0 0 0 0 0))
  end.

Definition step (view : Control.RequestControl) (s : DeterministicSession)
  : result ServerError.Error SessionStep * DeterministicSession :=
  match Control.check view with
  | Err e => (Err e, s)
  | Ok _ =>
      if negb (ds_prepared s) then
        (Ok (Progress (model_free Preparation (N.of_nat (length (ds_pieces s))))),
         mkSession (ds_request s) (ds_pieces s) (ds_index s) true)
      else if (er_max_tokens (ds_request s) <=? ds_index s)%N || bool_decide (ds_pieces s = []) then
        (match finish view s with Ok output => Ok (Finished output) | Err e => Err e end, s)
      else
        let piece := nth (N.to_nat (ds_index s mod N.of_nat (length (ds_pieces s)))) (ds_pieces s) "" in
        let piece := if (ds_index s =? 0)%N then piece else (" " +:+ piece)%string in
        (Ok (Token (i32_wrap (- Z.of_N (ds_index s) - 1)) (chars piece) false (model_free Decode 1)),
         mkSession (ds_request s) (ds_pieces s) (ds_index s + 1) (ds_prepared s))
  end.

Definition start_session (request : EngineRequest) (view : Control.RequestControl)
  : result ServerError.Error DeterministicSession :=
  match Control.check view with
  | Err e => Err e
  | Ok _ => Ok (mkSession request (rev (words (text_of (er_prompt request)))) 0 false)
  end.

#[export] Instance session : ExecutionSession DeterministicSession := {
  session_step := step;
  session_finish := λ view s, (finish view s, s);
}.

End Deterministic.

#[export] Existing Instance Deterministic.session.

(** ** State *)

Record Shared (E C : Type) : Type := mkShared {
  sh_inner : Inner;
  sh_contexts : Contexts;
  sh_declarations : DeclarationState;
  sh_lifecycle : Lifecycle.Lifecycle E C;
  sh_instant : N;
  sh_clock : option N;
}.

Arguments mkShared {E C}.
Arguments sh_inner {E C}.
Arguments sh_contexts {E C}.
Arguments sh_declarations {E C}.
Arguments sh_lifecycle {E C}.
Arguments sh_instant {E C}.
Arguments sh_clock {E C}.

(** The inference: the frontier and the index of the next delta are its own; [rn_out]
    is what [emit] keeps. *)
Record Run (E C K : Type) : Type := mkRun {
  rn_shared : Shared E C;
  rn_others : list (Shared E C → Shared E C);
  rn_frontier : GenerationFrontier;
  rn_delta_index : N;
  rn_out : K;
}.

Arguments mkRun {E C K}.
Arguments rn_shared {E C K}.
Arguments rn_others {E C K}.
Arguments rn_frontier {E C K}.
Arguments rn_delta_index {E C K}.
Arguments rn_out {E C K}.

(** An inference returns with an error, or the model stops following it. *)
Inductive Interrupt : Type :=
| Returned (e : ServerError.Error)
| CutOff.

(** ** Accesses of the shared state *)

Section inference.
Context {E C K T : Type} `{!ExecutionSession T}.
Variable start_session :
  EngineRequest → Control.RequestControl → E → result ServerError.Error T * E.
Variable emit :
  StreamEvent → Shared E C → K → result ServerError.Error unit * Shared E C * K.
(** The order in which [model] visits the models. *)
Variable model_order : Lifecycle.Lifecycle E C → list ModelRecord.

Abbreviation R := (M (Run E C K) Interrupt).

Definition fail {A} (e : ServerError.Error) : R A := throw (Returned e).

Definition lift {A} (r : result ServerError.Error A) : R A :=
  match r with Ok a => mret a | Err e => fail e end.

Definition set_shared (sh : Shared E C) (s : Run E C K) : Run E C K :=
  mkRun sh (rn_others s) (rn_frontier s) (rn_delta_index s) (rn_out s).

Definition set_frontier (f : GenerationFrontier) (s : Run E C K) : Run E C K :=
  mkRun (rn_shared s) (rn_others s) f (rn_delta_index s) (rn_out s).

(** What the other requests do before the next access. *)
Definition others_act : R unit := λ s,
  match rn_others s with
  | act :: rest =>
      Done tt (mkRun (act (rn_shared s)) rest (rn_frontier s) (rn_delta_index s) (rn_out s))
  | [] => Fail CutOff s
  end.

Definition access {A} (f : Shared E C → A) : R A :=
  _ ← others_act; gets (λ s, f (rn_shared s)).

Definition section {A} (f : Shared E C → result ServerError.Error A * Shared E C) : R A := λ s,
  let '(r, sh) := f (rn_shared s) in lift r (set_shared sh s).

(** A locked section. *)
Definition locked {A} (f : Shared E C → result ServerError.Error A * Shared E C) : R A :=
  _ ← others_act; section f.

Definition set_inner (i : Inner) (sh : Shared E C) : Shared E C :=
  mkShared i (sh_contexts sh) (sh_declarations sh) (sh_lifecycle sh) (sh_instant sh) (sh_clock sh).

Definition set_contexts (cs : Contexts) (sh : Shared E C) : Shared E C :=
  mkShared (sh_inner sh) cs (sh_declarations sh) (sh_lifecycle sh) (sh_instant sh) (sh_clock sh).

Definition set_declarations (d : DeclarationState) (sh : Shared E C) : Shared E C :=
  mkShared (sh_inner sh) (sh_contexts sh) d (sh_lifecycle sh) (sh_instant sh) (sh_clock sh).

Definition set_engine (e : E) (sh : Shared E C) : Shared E C :=
  let l := sh_lifecycle sh in
  mkShared (sh_inner sh) (sh_contexts sh) (sh_declarations sh)
    (mkLifecycle (lc_models l) (lc_next_epoch l) e (lc_catalog l)) (sh_instant sh) (sh_clock sh).

(** [control.check()?] and [control.expire()] *)
Definition check (ctl : N) : R unit :=
  r ← access (λ sh, check_control ctl (sh_inner sh)); lift r.

Definition expire (ctl : N) : R unit :=
  locked (λ sh, (Ok tt, set_inner (on_control Control.expire ctl (sh_inner sh)) sh)).

Definition view_control (ctl : N) : R Control.RequestControl :=
  access (λ sh, default Control.new (store (sh_inner sh) !! ctl)).

Definition find_model (id : string) : R ModelRecord :=
  r ← access (λ sh, model (model_order (sh_lifecycle sh)) id (sh_lifecycle sh)); lift r.

Definition on_declarations {A} (m : D A) : R A := λ s,
  match m (sh_declarations (rn_shared s)) with
  | Done a d => Done a (set_shared (set_declarations d (rn_shared s)) s)
  | Fail e d => Fail (Returned e) (set_shared (set_declarations d (rn_shared s)) s)
  | Panic => Panic
  end.

(** [compaction_declaration_for]: the clock is read before the lock is taken. *)
Definition find_declaration (principal id : string) : R CompactionDeclaration :=
  clock ← access sh_clock;
  _ ← others_act;
  on_declarations (declaration_for clock principal id).

(** ** The engine and the frontier *)

(** A method of the frontier. *)
Definition on_frontier {A} (m : M (GenerationFrontier * Run E C K) ServerError.Error A) : R A := λ s,
  match m (rn_frontier s, s) with
  | Done a (f, s') => Done a (set_frontier f s')
  | Fail e (f, s') => Fail (Returned e) (set_frontier f s')
  | Panic => Panic
  end.

(** The closure that sends a delta. *)
Definition emit_delta (delta : text) (s : Run E C K) : result ServerError.Error unit * Run E C K :=
  let '(r, sh, out) := emit (EvToken (string_of delta) (rn_delta_index s)) (rn_shared s) (rn_out s) in
  let index :=
    match r with Ok _ => wrapping_add (rn_delta_index s) 1 | Err _ => rn_delta_index s end in
  (r, mkRun sh (rn_others s) (rn_frontier s) index out).

(** [InferenceEngine::generate]: one iteration per quantum of the session. *)
Fixpoint generate_loop (quanta : nat) (ctl : N) (sink : Z → bytes → bool → R FrontierControl) (s : T)
  : R EngineOutput :=
  match quanta with
  | 0 => throw CutOff
  | S quanta' =>
      view ← view_control ctl;
      let '(r, s') := session_step view s in
      quantum ← lift r;
      match quantum with
      | Progress _ => generate_loop quanta' ctl sink s'
      | Token id piece terminal_or_control _ =>
          control ← sink id piece terminal_or_control;
          match control with
          | Stop =>
              view ← view_control ctl;
              lift (session_finish view s').1
          | Continue => generate_loop quanta' ctl sink s'
          end
      | Finished output => mret output
      end
  end.

Definition generate (request : EngineRequest) (sink : Z → bytes → bool → R FrontierControl)
  : R EngineOutput :=
  view ← view_control (er_control request);
  session ← locked (λ sh,
    let '(r, engine) := start_session request view (lc_engine (sh_lifecycle sh)) in
    (r, set_engine engine sh));
  others ← gets rn_others;
  generate_loop (length others) (er_control request) sink session.

(** ** The inference *)

(** What a declaration sets in the request's compaction. *)
Definition declared (d : CompactionDeclaration) (c : CompactionRequest) : CompactionRequest :=
  mkCompactionRequest (req_declaration_id c) (cd_strategy_preferences d)
    (req_fallback_when_no_match c) (req_trigger c)
    (match req_target_tokens c with Some n => Some n | None => cd_target_tokens d end).

Definition resolve_declaration (req : InferRequest) : R (option CompactionRequest) :=
  match iq_compaction req with
  | None => mret None
  | Some c =>
      match req_declaration_id c with
      | None => mret (Some c)
      | Some declaration_id =>
          d ← find_declaration (sm_principal (iq_scheduling req)) declaration_id;
          context_id ← lift (match iq_context_id req with
            | Some id => Ok id
            | None => Err (ServerError.BadRequest "compaction declaration requires context")
            end);
          if negb (bool_decide (context_id = cd_context_id d)) then
            fail (ServerError.BadRequest "compaction declaration context mismatch")
          else mret (Some (declared d c))
      end
  end.

(** The control that admission registered for the request. *)
Definition find_control (request_id : string) : R N :=
  control ← access (λ sh, controls (sh_inner sh) !! request_id);
  match control with Some control => mret control | None => fail ServerError.Cancelled end.

Definition find_context (id : option string) : R (option ContextRecord) :=
  match id with
  | None => mret None
  | Some id => r ← access (λ sh, context id (sh_contexts sh)); record ← lift r; mret (Some record)
  end.

Definition engine_request (model : ModelRecord) (prompt : string) (max_tokens : N)
    (prior_tokens : list Z) (req : InferRequest) (ctl : N) : EngineRequest :=
  mkEngineRequest model prompt max_tokens prior_tokens (iq_sampling req) (iq_grammar req) ctl
    (iq_scheduling req) 32.

Definition DEFAULT_TARGET : nat := 3072.

(** The result when no strategy matches and the request allows to go on. *)
Definition no_compaction (source : ContextRecord) (c : CompactionRequest) : CompactionResult :=
  let n := length (cr_tokens source) in
  mkCompactionResult "window_tail" NoReason (req_strategy_preferences c) None
    (default DEFAULT_TARGET (req_target_tokens c)) n (seq 0 n) n n 0 false true
    (saturating_add (cr_revision source) 1).

Definition compacted (source : ContextRecord) (selected : string) (r : CompactionResult)
  : CompactionResult :=
  mkCompactionResult (compact_mode r) (compact_reason r) (requested_strategy_ids r)
    (Some (deterministic_strategy_id selected)) (requested_strategy_budget r) (resulting_budget r)
    (retained_indices r) (retained_message_count r) (source_message_count r)
    (retained_anchor_count r) (success r) (fallback r) (saturating_add (cr_revision source) 1).

(** The compaction of the context that was read: the tokens to go on with, the
    engine's tokens for them, and what to report. *)
Definition compact (req : InferRequest) (ctl : N) (model : ModelRecord) (source : ContextRecord)
    (c : CompactionRequest) : R (list string * list Z * option CompactionResult) :=
  match select_strategy (req_strategy_preferences c) with
  | None =>
      match req_fallback_when_no_match c with
      | Reject => fail (ServerError.BadRequest "unsupported_compaction_strategy")
      | NoCompact =>
          mret (cr_tokens source, cr_native_tokens source, Some (no_compaction source c))
      end
  | Some selected =>
      if negb (bool_decide (selected = WINDOW_TAIL_STRATEGY_ID)) then
        fail (ServerError.BadRequest "unsupported compaction strategy for this release")
      else
        proposal ← lift (match apply_window_tail_strategy (cr_tokens source)
                           (default DEFAULT_TARGET (req_target_tokens c)) [selected] with
                         | Ok proposal => Ok proposal
                         | Err e => Err (ServerError.BadRequest e)
                         end);
        _ ← check ctl;
        let result := Some (compacted source selected (proposal_result proposal)) in
        if bool_decide (resulting_tokens proposal = cr_tokens source) then
          mret (cr_tokens source, cr_native_tokens source, result)
        else
          prepared ← generate
            (engine_request model (String.concat " " (resulting_tokens proposal)) 0 [] req ctl)
            (λ _ _ _, fail (ServerError.State "compaction preparation unexpectedly generated output"));
          _ ← check ctl;
          mret (resulting_tokens proposal, eo_successor_tokens prepared, result)
  end.

Definition prepare_context (req : InferRequest) (ctl : N) (model : ModelRecord)
    (source : option ContextRecord) (c : option CompactionRequest)
  : R (list string * list Z * option CompactionResult) :=
  match c, source with
  | None, None => mret ([], [], None)
  | None, Some source => mret (cr_tokens source, cr_native_tokens source, None)
  | Some _, None => fail (ServerError.BadRequest "compaction requires an existing context")
  | Some c, Some source => compact req ctl model source c
  end.

(** The closure given to the engine. The instants are nanoseconds. *)
Definition token_sink (deadline : option N) (ctl : N) (_ : Z) (piece : bytes)
    (terminal_or_control : bool) : R FrontierControl :=
  _ ← match deadline with
      | Some deadline =>
          now ← access sh_instant;
          if (deadline <=? now)%N then expire ctl else mret tt
      | None => mret tt
      end;
  _ ← check ctl;
  on_frontier (push emit_delta piece terminal_or_control).

Definition nanoseconds (ms : N) : N := (ms * 1000000)%N.

(** The commit, and the usage to report. *)
Definition conclude (request_id : string) (req : InferRequest) (successor_id : string) (started : N)
    (model : ModelRecord) (source : option ContextRecord) (logical_context_tokens : list string)
    (compaction_result : option CompactionResult) (generated : EngineOutput) (result : FrontierResult)
  : R (InferResponse * StreamEvent) :=
  let tokens := logical_context_tokens ++ words (text_of (iq_prompt req)) ++ words (fr_text result) in
  context_id ← locked (λ sh,
    let '(r, cs) := commit_inference source successor_id tokens (eo_successor_tokens generated)
                      (sh_contexts sh) in
    (r, set_contexts cs sh));
  now ← access sh_instant;
  let usage := mkUsage (eo_input_tokens generated) (N.of_nat (fr_generated_tokens result))
    (eo_evaluated_tokens generated) (eo_cached_tokens generated) (eo_prefill generated)
    (mr_id model) (mr_revision model) context_id compaction_result
    ((now - started) / 1000000)%N "completed"
    (sm_correlation_id (iq_scheduling req)) (sm_inference_id (iq_scheduling req))
    (sm_inference_id (iq_scheduling req)) in
  mret (mkInferResponse request_id (fr_text result) usage,
        EvFinished (fr_finish_reason result) usage).

(** [infer_admitted]. The frontier it is given is in the state. *)
Definition infer_admitted (request_id : string) (req : InferRequest) (successor_id : string)
  : R (InferResponse * StreamEvent) :=
  compaction ← resolve_declaration req;
  started ← access sh_instant;
  let deadline := (λ ms, started + nanoseconds ms)%N <$> iq_deadline_ms req in
  _ ← (if bool_decide (iq_deadline_ms req = Some 0%N) then fail ServerError.Deadline else mret tt);
  ctl ← find_control request_id;
  _ ← check ctl;
  model ← find_model (iq_model req);
  source ← find_context (iq_context_id req);
  prepared ← prepare_context req ctl model source compaction;
  let '(logical_context_tokens, prior_tokens, compaction_result) := prepared in
  generated ← generate (engine_request model (iq_prompt req) (iq_max_tokens req) prior_tokens req ctl)
    (token_sink deadline ctl);
  result ← on_frontier (finish emit_delta);
  _ ← check ctl;
  _ ← match iq_deadline_ms req with
      | Some ms =>
          now ← access sh_instant;
          if (nanoseconds ms <? now - started)%N then fail ServerError.Deadline else mret tt
      | None => mret tt
      end;
  conclude request_id req successor_id started model source logical_context_tokens
    compaction_result generated result.
End inference.

Arguments set_frontier {E C K} f s.

(** ** Starting an inference *)

Section starting.
Context {E C K : Type}.
Variable model_order : Lifecycle.Lifecycle E C → list ModelRecord.

Definition effective_stop_sequences (req : InferRequest)
  : M (Run E C K) Interrupt (list string) :=
  model ← find_model model_order (iq_model req);
  mret (foldl (λ stops marker, if existsb (λ stop, bool_decide (stop = marker)) stops then stops
                               else stops ++ [marker])
          (iq_stop req) (terminal_markers (mr_family model))).

(** The frontier of a new inference. *)
Definition start_frontier (req : InferRequest) : M (Run E C K) Interrupt unit :=
  stops ← effective_stop_sequences req;
  frontier ← lift (match new_effective (text_of <$> stops) (iq_raw_continuation req) with
                   | Ok f => Ok f
                   | Err e => Err (ServerError.State e)
                   end);
  modify (λ s, mkRun (rn_shared s) (rn_others s) frontier 0 (rn_out s)).

Definition started_event (request_id : string) (req : InferRequest) (successor_id : string)
  : StreamEvent :=
  EvStarted request_id successor_id (sm_correlation_id (iq_scheduling req))
    (sm_inference_id (iq_scheduling req)) (sm_inference_id (iq_scheduling req)).

Definition push_event (e : StreamEvent) : M (Run E C (list StreamEvent)) Interrupt unit :=
  modify (λ s, mkRun (rn_shared s) (rn_others s) (rn_frontier s) (rn_delta_index s) (rn_out s ++ [e])).
End starting.

(** ** A whole inference *)

Section whole.
Context {E C T : Type} `{!ExecutionSession T}.
Variable start_session :
  EngineRequest → Control.RequestControl → E → result ServerError.Error T * E.
Variable model_order : Lifecycle.Lifecycle E C → list ModelRecord.

(** The events of a response that is not streamed are collected. *)
Definition collect_event (e : StreamEvent) (sh : Shared E C) (events : list StreamEvent)
  : result ServerError.Error unit * Shared E C * list StreamEvent :=
  (Ok tt, sh, events ++ [e]).

(** [infer_reserved]; [uuid] is the identifier a new context would get. *)
Definition infer_reserved (uuid request_id : string) (req : InferRequest)
  : M (Run E C (list StreamEvent)) Interrupt (InferResponse * list StreamEvent) :=
  _ ← start_frontier model_order req;
  let successor_id := default uuid (iq_context_id req) in
  _ ← modify (λ s, mkRun (rn_shared s) (rn_others s) (rn_frontier s) (rn_delta_index s) []);
  _ ← push_event (started_event request_id req successor_id);
  result ← infer_admitted start_session collect_event model_order request_id req successor_id;
  _ ← push_event result.2;
  events ← gets rn_out;
  mret (result.1, events).

(** A guard that is dropped at the end of its scope, whatever happens in it. *)
Definition guarded {K A} (g : AdmissionGuard) (m : M (Run E C K) Interrupt A)
  : M (Run E C K) Interrupt A := λ s,
  let release := locked (λ sh, (Ok tt, set_inner (drop_guard g (sh_inner sh)) sh)) in
  match m s with
  | Done a s' => (_ ← release; mret a) s'
  | Fail (Returned e) s' => (_ ← release; throw (Returned e)) s'
  | Fail CutOff s' => Fail CutOff s'
  | Panic => Panic
  end.

(** [infer]; [ctl] is the address of the new control. *)
Definition infer (uuid request_id : string) (ctl : N) (req : InferRequest)
  : M (Run E C (list StreamEvent)) Interrupt (InferResponse * list StreamEvent) :=
  admission ← locked (λ sh,
    let inner := set_store (<[ctl := Control.new]> (store (sh_inner sh))) (sh_inner sh) in
    let '(r, inner) := try_admit request_id ctl inner in
    (r, set_inner inner sh));
  guarded admission (infer_reserved uuid request_id req).

(** *** Streaming *)

(** The channel to the client: what was sent, and how many events the receiver
    still takes before it is dropped. *)
Record EventStream : Type := mkStream {
  es_sent : list StreamEvent;
  es_room : nat;
}.

Definition blocking_send (e : StreamEvent) (st : EventStream) : bool * EventStream :=
  match es_room st with
  | 0 => (false, st)
  | S room => (true, mkStream (es_sent st ++ [e]) room)
  end.

(** The closure of [infer_stream_reserved]. *)
Definition stream_event (ctl : N) (e : StreamEvent) (sh : Shared E C) (st : EventStream)
  : result ServerError.Error unit * Shared E C * EventStream :=
  let '(sent, st') := blocking_send e st in
  if sent then (Ok tt, sh, st')
  else (Err ServerError.Cancelled,
        set_inner (on_control Control.cancel ctl (sh_inner sh)) sh, st').

Definition display (e : ServerError.Error) : string :=
  match e with
  | ServerError.Unauthorized => "unauthorized"
  | ServerError.Forbidden => "admin scope required"
  | ServerError.ModelNotFound id => "model not installed: " +:+ id
  | ServerError.ContextNotFound => "context not found"
  | ServerError.Deadline => "deadline exceeded"
  | ServerError.Cancelled => "request cancelled"
  | ServerError.Busy => "scheduler admission capacity exhausted"
  | ServerError.ShuttingDown => "server is shutting down"
  | ServerError.PayloadTooLarge => "request exceeds the configured byte limit"
  | ServerError.HeadersTooLarge => "request headers exceed the configured byte limit"
  | ServerError.BodyTimeout => "request body timed out"
  | ServerError.BadRequest m => "invalid request: " +:+ m
  | ServerError.Conflict m => "lineage conflict: " +:+ m
  | ServerError.UnsafeListener address => "unsafe unauthenticated listener: " +:+ address
  | ServerError.State m => "state error: " +:+ m
  end.

(** The task that [infer_stream_reserved] spawns: the inference, then one terminal
    event; the admission is dropped at the end. *)
Definition stream_worker (request_id : string) (req : InferRequest) (successor_id : string)
    (admission : AdmissionGuard) : M (Run E C EventStream) Interrupt unit :=
  guarded admission (λ s,
    let terminal event := modify (λ s, mkRun (rn_shared s) (rn_others s) (rn_frontier s)
                                        (rn_delta_index s) (blocking_send event (rn_out s)).2) in
    match infer_admitted start_session (stream_event (ag_control admission)) model_order
            request_id req successor_id s with
    | Done (_, event) s' => terminal event s'
    | Fail (Returned e) s' => terminal (EvError (display e)) s'
    | Fail CutOff s' => Fail CutOff s'
    | Panic => Panic
    end).
End whole.
