(* ===== verification/Interleaving.v ===== *)
(** A request among others: from one access of the shared state to the next, what the
    others do and the steps of the request itself. [move] is one such step, and its
    reflexive transitive closure orders the states that a request meets.

    [weaves] says of a handler that it goes by such steps only, with what it read in
    them; its rules follow the shape of a handler. *)

From stdpp Require Import gmap strings list numbers relations.
From S2P Require Import Prelude Engine Scheduler Gate Admission Declarations Contexts Lifecycle Responses Generation Inference.

(** A point of a run: the states that were met before, what the others still do, and
    the state that is shared. *)
Record Point (E C : Type) : Type := mkPoint {
  pt_past : list (Shared E C);
  pt_others : list (Shared E C → Shared E C);
  pt_shared : Shared E C;
}.

Arguments mkPoint {E C}.
Arguments pt_past {E C}.
Arguments pt_others {E C}.
Arguments pt_shared {E C}.

Section moves.
Context {E C : Type}.

(** A step of one's own, which may depend on the states that were met. *)
Variable own : list (Shared E C) → Shared E C → Shared E C → Prop.

Inductive move : Point E C → Point E C → Prop :=
| MoveOther act past l sh : move (mkPoint past (act :: l) sh) (mkPoint (sh :: past) l (act sh))
| MoveOwn past l sh sh' : own (sh :: past) sh sh' → move (mkPoint past l sh) (mkPoint (sh :: past) l sh').

(** The states that were met by a point, its own included. *)
Definition met (p : Point E C) : list (Shared E C) := pt_shared p :: pt_past p.

Lemma move_met p q : move p q → met p `suffix_of` met q.
Proof. destruct 1; eexists [_]; done. Qed.

Lemma moves_met p q : rtc move p q → met p `suffix_of` met q.
Proof. induction 1 as [|p q r H _ IH]; [done|]. etrans; [by apply move_met|done]. Qed.

(** [a] was read in a state that was met. *)
Definition was_read {A} (f : Shared E C → A) (a : A) (states : list (Shared E C)) : Prop :=
  ∃ sh, sh ∈ states ∧ a = f sh.

(** What stays true as more states are met. *)
Definition lasting (P : list (Shared E C) → Prop) : Prop := ∀ states states', states `suffix_of` states' → P states → P states'.

Lemma was_read_lasting {A} (f : Shared E C → A) a : lasting (was_read f a).
Proof. intros states states' [front ->] (sh & Hsh & ->). exists sh. split; [|done]. apply list.elem_of_app. by right. Qed.
End moves.

(** A step may rely on what is known of the states that were met. *)
Lemma moves_knowing {E C} own (P : list (Shared E C) → Prop) p q :
  lasting P → P (met p) → rtc (move (λ past sh sh', P past → own past sh sh')) p q → rtc (move own) p q.
Proof.
  intros HP. induction 2 as [|p q r Hmove _ IH]; [apply rtc_refl|]. eapply rtc_l.
  - destruct Hmove as [|past l sh sh' Hown]; [apply MoveOther|by apply MoveOwn, Hown].
  - apply IH. eapply HP; [by eapply move_met|done].
Qed.

(** ** Handlers *)

Section weaves.
Context {E C K : Type}.
Implicit Types (own : list (Shared E C) → Shared E C → Shared E C → Prop).

Abbreviation R := (M (Run E C K) Interrupt).

(** Where a run is, after the states [past]. *)
Definition at_run (past : list (Shared E C)) (s : Run E C K) : Point E C :=
  mkPoint past (rn_others s) (rn_shared s).

Definition arrives own (p : Point E C) (V : list (Shared E C) → Prop) (s' : Run E C K) : Prop :=
  ∃ past', rtc (move own) p (at_run past' s') ∧ V (rn_shared s' :: past').

(** The handler changes what is shared by such steps only, and never panics; [V] holds
    of its value and the states it met. *)
Definition weaves own {A} (V : A → list (Shared E C) → Prop) (m : R A) : Prop :=
  ∀ past s, wp m (λ a, arrives own (at_run past s) (V a)) (λ _, arrives own (at_run past s) (λ _, True)) s.

Lemma arrives_here own past s (V : list (Shared E C) → Prop) :
  V (rn_shared s :: past) → arrives own (at_run past s) V s.
Proof. intros HV. exists past. by split; [apply rtc_refl|]. Qed.

Lemma weaves_weaken own {A} (V V' : A → list (Shared E C) → Prop) (m : R A) :
  (∀ a states, V a states → V' a states) → weaves own V m → weaves own V' m.
Proof.
  intros HV Hm past s. eapply wp_mono; [apply (Hm past)|cbn beta|done]. intros a s' (past' & ? & ?). exists past'. auto.
Qed.

Abbreviation woven own m := (weaves own (λ _ _, True) m).

Lemma weaves_any own {A} (V : A → list (Shared E C) → Prop) (m : R A) : weaves own V m → woven own m.
Proof. apply weaves_weaken. done. Qed.

Lemma weaves_ret own {A} (a : A) : woven own (mret a : R A).
Proof. intros past s. by apply arrives_here. Qed.

Lemma weaves_fail own {A} (V : A → list (Shared E C) → Prop) e : weaves own V (Inference.fail e : R A).
Proof. intros past s. by apply arrives_here. Qed.

Lemma weaves_lift own {A} (r : result ServerError.Error A) : woven own (lift r : R A).
Proof. destruct r; [apply weaves_ret|apply weaves_fail]. Qed.

Lemma weaves_bind own {A B} (V : B → list (Shared E C) → Prop) (m : R A) (k : A → R B) :
  woven own m → (∀ a, weaves own V (k a)) → weaves own V (m ≫= k).
Proof.
  intros Hm Hk past s. rewrite wp_bind. eapply wp_mono; [apply (Hm past)|cbn beta|done]. intros a s' (past' & Hto & _).
  eapply wp_mono; [apply (Hk a past')|..]; cbn beta; intros b s'' (past'' & Hto' & HV); exists past'';
    (split; [by etrans|done]).
Qed.

(** The steps of the continuation may rely on what was read. *)
Lemma weaves_read own {A B} (V : A → list (Shared E C) → Prop) (m : R A) (k : A → R B) :
  weaves own V m → (∀ a, lasting (V a)) →
  (∀ a, woven (λ past sh sh', V a past → own past sh sh') (k a)) →
  woven own (m ≫= k).
Proof.
  intros Hm HV Hk past s. rewrite wp_bind. eapply wp_mono; [apply (Hm past)|cbn beta|done]. intros a s' (past' & Hto & Ha).
  eapply wp_mono; [apply (Hk a past')|..]; cbn beta; intros b s'' (past'' & Hto' & _); exists past'';
    (split; [|done]); (etrans; [exact Hto|]); by eapply (moves_knowing _ (V a)).
Qed.

Lemma weaves_act own : woven own (others_act : R unit).
Proof.
  intros past s. unfold others_act, wp_gen. destruct (rn_others s) as [|act rest] eqn:Ho; [by apply arrives_here|].
  exists (rn_shared s :: past). split; [|done]. unfold at_run. rewrite Ho. cbn. apply rtc_once, (MoveOther own act).
Qed.

Lemma weaves_access own {A} (f : Shared E C → A) : weaves own (was_read f) (access f : R A).
Proof.
  apply weaves_bind; [apply weaves_act|]. intros _ past s. rewrite wp_gets. apply arrives_here.
  exists (rn_shared s). by split; [left|].
Qed.

(** A step of one's own. *)
Lemma arrives_own own past s s' (V : list (Shared E C) → Prop) :
  rn_others s' = rn_others s → own (rn_shared s :: past) (rn_shared s) (rn_shared s') →
  V (rn_shared s' :: rn_shared s :: past) → arrives own (at_run past s) V s'.
Proof.
  intros Ho Hown HV. exists (rn_shared s :: past). split; [|done]. unfold at_run. rewrite Ho. by apply rtc_once, MoveOwn.
Qed.

Lemma weaves_section own {A} (f : Shared E C → result ServerError.Error A * Shared E C) :
  (∀ past sh, (f sh).2 = sh ∨ own past sh (f sh).2) → woven own (section f : R A).
Proof.
  intros Hf past s. unfold section, wp_gen. specialize (Hf (rn_shared s :: past) (rn_shared s)).
  destruct (f (rn_shared s)) as [[a|e] sh] eqn:Hsh; cbn in *;
    (destruct Hf as [->|Hf]; [exists past; by split; [apply rtc_refl|]|by apply arrives_own]).
Qed.

Lemma weaves_locked own {A} (f : Shared E C → result ServerError.Error A * Shared E C) :
  (∀ past sh, (f sh).2 = sh ∨ own past sh (f sh).2) → woven own (locked f : R A).
Proof. intros Hf. apply weaves_bind; [apply weaves_act|]. intros _. by apply weaves_section. Qed.

Lemma weaves_declarations own {A} (m : D A) :
  (∀ past sh, let steps d := d = sh_declarations sh ∨ own past sh (set_declarations d sh) in
     wp m (λ _, steps) (λ _, steps) (sh_declarations sh)) →
  woven own (on_declarations m : R A).
Proof.
  intros Hm past s. specialize (Hm (rn_shared s :: past) (rn_shared s)). cbn zeta in Hm. unfold on_declarations, wp_gen in *.
  destruct (m _) as [a d|e d|]; [..|done]; (destruct Hm as [->|Hm]; [|by apply arrives_own]);
    exists past; (split; [|done]); destruct s as [[]]; apply rtc_refl.
Qed.
End weaves.

Abbreviation woven own m := (weaves own (λ _ _, True) m).

(** Follows the shape of a handler. *)
Ltac weave :=
  repeat first [ progress intros | (eapply weaves_any; apply weaves_access) | apply weaves_act | apply weaves_lift | apply weaves_ret
               | apply weaves_fail | apply weaves_bind ].
