(* ===== verification/InferenceLaws.v ===== *)
(** What an inference promises: it commits its context exactly when it succeeds, the
    events it sends are its text, it gives its admission back on every path, and it
    ends when its session does. *)

From stdpp Require Import gmap strings list numbers relations.
From Stdlib Require Import Lia.
From S2P Require Import Prelude Engine FairPolicy Diagnostics Scheduler Gate Admission.
From S2P Require Import Declarations Contexts Prompt ContextStrategy Text Generation GenerationLaws.
From S2P Require Import Lifecycle Responses Inference Interleaving.

(** ** The frontier with any sink *)

Lemma position_bound stop bs i : position stop bs = Some i → i ≤ length bs.
Proof.
  revert i. induction bs as [|b bs IH]; intros i H; [done|]. cbn in *.
  case_bool_decide; simplify_eq; [lia|]. apply fmap_Some in H as (j & Hj & ->).
  specialize (IH _ Hj). lia.
Qed.

Section frontier_sink.
Context {K : Type} (emit : text → K → result ServerError.Error unit * K).
(** [J]: the text made visible so far and what the sink keeps; [Z]: what the sink
    keeps after it failed. *)
Variables (J : text → K → Prop) (Z : K → Prop).
Hypothesis emit_ok : ∀ vis delta k, J vis k →
  match emit delta k with
  | (Ok _, k') => J (vis ++ delta) k'
  | (Err _, k') => Z k'
  end.

Definition frontier_inv (s : GenerationFrontier * K) : Prop := J (gf_visible s.1) s.2.

Lemma emit_prefix_sink requested final_flush s :
  frontier_inv s → requested ≤ length (gf_pending s.1) →
  wp (emit_prefix emit requested final_flush)
    (λ _ s', frontier_inv s' ∧ gf_finish_reason s'.1 = gf_finish_reason s.1)
    (λ _ s', Z s'.2) s.
Proof.
  intros Hs Hr. unfold emit_prefix, frontier. wp_run.
  rewrite (proj2 (Nat.ltb_ge _ _)) by done. case_match; [done|].
  destruct (if gf_stripping s.1 then _ else _) as [|x delta]; [done|].
  unfold update. wp_run. unfold call_emit, wp_gen. cbn [fst snd].
  pose proof (emit_ok (gf_visible s.1) (x :: delta) s.2 Hs) as He.
  destruct (emit (x :: delta) s.2) as [[[]|e] k']; [|exact He]. by split.
Qed.

Lemma wp_bind_emit {B} requested final_flush (k : unit → M (GenerationFrontier * K) ServerError.Error B)
    (Q : B → GenerationFrontier * K → Prop) s :
  frontier_inv s → requested ≤ length (gf_pending s.1) →
  (∀ s', frontier_inv s' → gf_finish_reason s'.1 = gf_finish_reason s.1 →
     wp (k tt) Q (λ _ s', Z s'.2) s') →
  wp (emit_prefix emit requested final_flush ≫= k) Q (λ _ s', Z s'.2) s.
Proof.
  intros Hs Hr Hk. rewrite wp_bind. eapply wp_mono; [by apply emit_prefix_sink|cbn beta|done].
  intros [] s' [??]. by apply Hk.
Qed.

Lemma push_sink piece terminal s :
  frontier_inv s →
  wp (push emit piece terminal) (λ _ s', frontier_inv s') (λ _ s', Z s'.2) s.
Proof.
  intros Hs. unfold push, frontier. wp_run. destruct (gf_finish_reason s.1); [done|].
  unfold update. wp_run. destruct terminal.
  - apply wp_bind_emit; [done|cbn; lia|]. intros s' Hs' _. by wp_run.
  - wp_run. cbn [fst]. destruct (stop_match _) as [[start stop_end]|] eqn:Hm.
    + apply wp_bind_emit; [done| |].
      * apply first_stop_Some in Hm as [(stop & _ & Hp & _) _]. by apply position_bound in Hp.
      * intros s' Hs' _. by wp_run.
    + apply wp_bind_emit; [done|cbn; lia|]. intros s' Hs' _. by wp_run.
Qed.

Lemma finish_sink s :
  frontier_inv s →
  wp (finish emit) (λ r s', frontier_inv s' ∧ fr_text r = gf_visible s'.1) (λ _ s', Z s'.2) s.
Proof.
  intros Hs. unfold finish, frontier. wp_run. destruct (gf_finish_reason s.1) as [reason|] eqn:Hr.
  - wp_run. by rewrite Hr.
  - wp_run. eapply wp_mono; [by apply emit_prefix_sink|cbn beta|done].
    intros [] s' [Hs' _]. unfold update. by wp_run.
Qed.
End frontier_sink.

(** ** What the parts of an inference leave alone *)

Section frame.
Context {E C K T : Type} `{!ExecutionSession T}.
Variable start_session :
  EngineRequest → Control.RequestControl → E → result ServerError.Error T * E.
Variable emit :
  StreamEvent → Shared E C → K → result ServerError.Error unit * Shared E C * K.
Variable model_order : Lifecycle.Lifecycle E C → list ModelRecord.
(** What is known of the shared state and of what the others still do. *)
Variable J : list (Shared E C → Shared E C) → Shared E C → Prop.

Record invariant : Prop := {
  inv_others act l sh : J (act :: l) sh → J l (act sh);
  inv_expire ctl l sh : J l sh → J l (set_inner (on_control Control.expire ctl (sh_inner sh)) sh);
  inv_declarations d l sh : J l sh → J l (set_declarations d sh);
  inv_engine e l sh : J l sh → J l (set_engine e sh);
}.

Hypothesis invariant_J : invariant.

(** What the sink kept, after the text so far and that many deltas. *)
Variable O : text → N → K → Prop.

Definition sink_ok : Prop := ∀ vis delta n l sh k, J l sh → O vis n k →
  match emit (EvToken (string_of delta) n) sh k with
  | (Ok _, sh', k') => J l sh' ∧ O (vis ++ delta) (wrapping_add n 1) k'
  | (Err _, sh', _) => J l sh'
  end.

Hypothesis emit_ok : sink_ok.

Definition calm (s : Run E C K) : Prop := J (rn_others s) (rn_shared s).

Definition live (s : Run E C K) : Prop :=
  calm s ∧ O (gf_visible (rn_frontier s)) (rn_delta_index s) (rn_out s).

(** From a live state, the part leaves a live one, and a calm one if it fails; its
    value satisfies [V]. *)
Definition yields {A} (m : M (Run E C K) Interrupt A) (V : A → Prop) : Prop :=
  ∀ s, live s → wp m (λ a s', live s' ∧ V a) (λ _ s', calm s') s.

Abbreviation keeps m := (yields m (λ _, True)).

Lemma yields_weaken {A} (m : M (Run E C K) Interrupt A) (V V' : A → Prop) :
  (∀ a, V a → V' a) → yields m V → yields m V'.
Proof. intros HV Hm s Hs. eapply wp_mono; [by apply Hm|cbn beta|done]. intros a s' [??]. auto. Qed.

Lemma yields_ret {A} (a : A) (V : A → Prop) : V a → yields (mret a) V.
Proof. intros Ha s Hs. rewrite wp_ret. by split. Qed.

Lemma yields_bind {A B} (m : M (Run E C K) Interrupt A) (k : A → M (Run E C K) Interrupt B) V V' :
  yields m V → (∀ a, V a → yields (k a) V') → yields (m ≫= k) V'.
Proof.
  intros Hm Hk s Hs. rewrite wp_bind. eapply wp_mono; [by apply Hm|cbn beta|done].
  intros a s' [Hs' Ha]. by apply Hk.
Qed.

Lemma yields_fail {A} e (V : A → Prop) : yields (fail e) V.
Proof. intros s [Hs _]. exact Hs. Qed.

Lemma yields_cut_off {A} (V : A → Prop) : yields (throw CutOff) V.
Proof. intros s [Hs _]. exact Hs. Qed.

Lemma yields_lift {A} (r : result ServerError.Error A) (V : A → Prop) :
  (∀ a, r = Ok a → V a) → yields (lift r) V.
Proof. intros Hr. destruct r; [by apply yields_ret, Hr|apply yields_fail]. Qed.

Lemma yields_gets {A} (f : Run E C K → A) : keeps (gets f).
Proof. intros s Hs. rewrite wp_gets. by split. Qed.

Lemma yields_act : keeps others_act.
Proof.
  intros s [HJ HO]. unfold calm, others_act, wp_gen in *. destruct (rn_others s) as [|act rest] eqn:Ho.
  - unfold calm. by rewrite Ho.
  - split; [split; cbn; [by apply (inv_others invariant_J)|done]|done].
Qed.

Lemma yields_access {A} (f : Shared E C → A) : keeps (access f).
Proof. eapply yields_bind; [apply yields_act|]. intros. apply yields_gets. Qed.

Lemma yields_locked {A} (f : Shared E C → result ServerError.Error A * Shared E C) :
  (∀ l sh, J l sh → J l (f sh).2) → keeps (locked f).
Proof.
  intros Hf. eapply yields_bind; [apply yields_act|]. intros _ _ s [HJ HO]. unfold section, wp_gen.
  specialize (Hf _ _ HJ). destruct (f (rn_shared s)) as [[a|e] sh]; cbn in *; [by repeat split|done].
Qed.

Lemma yields_check ctl : keeps (check ctl).
Proof. eapply yields_bind; [apply yields_access|]. intros. by apply yields_lift. Qed.

Lemma yields_expire ctl : keeps (expire ctl).
Proof. apply yields_locked. intros l sh. apply (inv_expire invariant_J). Qed.

Definition run_inv (vis : text) (k : Run E C K) : Prop :=
  calm k ∧ O vis (rn_delta_index k) (rn_out k).

Lemma yields_frontier {A} (m : M (GenerationFrontier * Run E C K) ServerError.Error A) (V : A → text → Prop) :
  (∀ s, frontier_inv run_inv s →
        wp m (λ a s', frontier_inv run_inv s'
                ∧ V a (gf_visible s'.1))
          (λ _ s', calm s'.2) s) →
  ∀ s, live s → wp (on_frontier m) (λ a s', live s' ∧ V a (gf_visible (rn_frontier s')))
                     (λ _ s', calm s') s.
Proof.
  intros Hm s [Hc HO]. specialize (Hm (rn_frontier s, s) (conj Hc HO)).
  unfold on_frontier, wp_gen in *. destruct (m (rn_frontier s, s)) as [a [f s']|e [f s']|]; [|done..].
  destruct Hm as [[Hc' HO'] HV]. by repeat split.
Qed.

Lemma emit_delta_ok vis delta k :
  run_inv vis k →
  match emit_delta emit delta k with
  | (Ok _, k') => run_inv (vis ++ delta) k'
  | (Err _, k') => calm k'
  end.
Proof.
  intros [HJ HO]. unfold emit_delta. specialize (emit_ok _ delta _ _ (rn_shared k) _ HJ HO).
  destruct (emit _ (rn_shared k) (rn_out k)) as [[[[]|e] sh] out]; [|exact emit_ok].
  destruct emit_ok as [HJ' HO']. by split.
Qed.

Lemma yields_push piece terminal : keeps (on_frontier (push (emit_delta emit) piece terminal)).
Proof.
  intros s Hs. eapply wp_mono; [eapply (yields_frontier _ (λ _ _, True)); [|done]|cbn beta|done].
  - intros s' Hs'. by eapply wp_mono; [apply (push_sink _ run_inv (calm) emit_delta_ok)|cbn beta|].
  - by intros a s' [? _].
Qed.

(** What [finish] returns is the text the frontier made visible. *)
Lemma finish_text s :
  live s →
  wp (on_frontier (finish (emit_delta emit)))
    (λ r s', live s' ∧ fr_text r = gf_visible (rn_frontier s')) (λ _ s', calm s') s.
Proof.
  apply (yields_frontier _ (λ r vis, fr_text r = vis)). intros s' Hs'.
  by apply (finish_sink _ run_inv (calm) emit_delta_ok).
Qed.

(** *** The engine *)

Lemma yields_generate_loop quanta ctl sink session :
  (∀ id piece terminal, keeps (sink id piece terminal)) →
  keeps (generate_loop quanta ctl sink session).
Proof.
  intros Hsink. revert session. induction quanta as [|quanta IH]; intros session; cbn [generate_loop].
  - apply yields_cut_off.
  - eapply yields_bind; [apply yields_access|]. intros control _.
    destruct (session_step control session) as [r session'].
    eapply yields_bind; [by apply (yields_lift r (λ _, True))|]. intros quantum _.
    destruct quantum; [apply IH| |by apply yields_ret].
    eapply yields_bind; [apply Hsink|]. intros action _. destruct action; [apply IH|].
    eapply yields_bind; [apply yields_access|]. intros control' _. by apply yields_lift.
Qed.

Lemma yields_generate request sink :
  (∀ id piece terminal, keeps (sink id piece terminal)) →
  keeps (generate start_session request sink).
Proof.
  intros Hsink. eapply yields_bind; [apply yields_access|]. intros control _.
  eapply yields_bind; [apply yields_locked|].
  { intros l sh. destruct (start_session request control _). apply (inv_engine invariant_J). }
  intros session _. eapply yields_bind; [apply yields_gets|]. intros others _.
  by apply yields_generate_loop.
Qed.

Lemma yields_token_sink deadline ctl id piece terminal :
  keeps (token_sink emit deadline ctl id piece terminal).
Proof.
  eapply (yields_bind _ _ (λ _, True)).
  - destruct deadline; [|by apply yields_ret]. eapply yields_bind; [apply yields_access|].
    intros now _. case_match; [apply yields_expire|by apply yields_ret].
  - intros _ _. eapply yields_bind; [apply yields_check|]. intros. apply yields_push.
Qed.

(** *** Preparing the context *)

(** The compaction to apply: the requested one, or what its declaration makes of it. *)
Definition resolved (req : InferRequest) (c : option CompactionRequest) : Prop :=
  match iq_compaction req with
  | None => c = None
  | Some asked =>
      match req_declaration_id asked with
      | None => c = Some asked
      | Some _ => ∃ d, iq_context_id req = Some (cd_context_id d) ∧ c = Some (declared d asked)
      end
  end.

(** The tokens an inference continues: those of its context, compacted. *)
Definition logical_tokens (source : option ContextRecord) (c : option CompactionRequest)
    (tokens : list string) : Prop :=
  match source, c with
  | None, _ => c = None ∧ tokens = []
  | Some source, None => tokens = cr_tokens source
  | Some source, Some c =>
      match select_strategy (req_strategy_preferences c) with
      | None => req_fallback_when_no_match c = NoCompact ∧ tokens = cr_tokens source
      | Some strategy =>
          ∃ proposal, apply_window_tail_strategy (cr_tokens source)
                        (default DEFAULT_TARGET (req_target_tokens c)) [strategy] = Ok proposal
                      ∧ tokens = resulting_tokens proposal
      end
  end.

Lemma declaration_result now principal id ds :
  wp (declaration_for now principal id) (λ _ _, True) (λ _ _, True) ds.
Proof.
  unfold declaration_for, unix_ms. wp_run. destruct now; [|done]. wp_run.
  destruct (ds_records ds !! id); [|done]. wp_run. case_match; wp_run; [done|]. by case_match.
Qed.

Lemma yields_find_declaration principal id : keeps (find_declaration principal id).
Proof.
  eapply yields_bind; [apply yields_access|]. intros clock _. eapply yields_bind; [apply yields_act|].
  intros _ _ s [HJ HO]. unfold on_declarations.
  pose proof (declaration_result clock principal id (sh_declarations (rn_shared s))) as H.
  unfold wp_gen in *.
  destruct (declaration_for _ _ _ _); [split; [split|done]; [|done]| |done]; by apply (inv_declarations invariant_J).
Qed.

Lemma yields_resolve req : yields (resolve_declaration req) (resolved req).
Proof.
  unfold resolve_declaration, resolved. destruct (iq_compaction req) as [asked|]; [|by apply yields_ret].
  destruct (req_declaration_id asked) as [id|]; [|by apply yields_ret].
  eapply yields_bind; [apply yields_find_declaration|]. intros d _.
  eapply (yields_bind _ _ (λ id, iq_context_id req = Some id)).
  { apply yields_lift. intros id'. by destruct (iq_context_id req); intros [= <-]. }
  intros context_id ->. case_match eqn:Hc; [apply yields_fail|]. apply yields_ret.
  apply negb_false_iff, bool_decide_eq_true in Hc as ->. by exists d.
Qed.

Lemma keeps_find_context id : keeps (find_context id).
Proof.
  destruct id as [id|]; [|by apply yields_ret]. eapply yields_bind; [apply yields_access|].
  intros r _. eapply (yields_bind _ _ (λ _, True)); [by apply yields_lift|]. intros. by apply yields_ret.
Qed.

Lemma yields_compact req ctl model source c :
  yields (compact start_session req ctl model source c)
    (λ r, logical_tokens (Some source) (Some c) r.1.1).
Proof.
  unfold compact. cbn [logical_tokens]. destruct (select_strategy _) as [strategy|].
  2:{ destruct (req_fallback_when_no_match c); [by apply yields_ret|apply yields_fail]. }
  case_bool_decide; cbn [negb]; [|apply yields_fail].
  eapply (yields_bind _ _ (λ proposal, apply_window_tail_strategy (cr_tokens source)
    (default DEFAULT_TARGET (req_target_tokens c)) [strategy] = Ok proposal)).
  { apply yields_lift. intros proposal. by case_match; intros [= <-]. }
  intros proposal Hp. eapply yields_bind; [apply yields_check|]. intros _ _.
  case_bool_decide as Hsame.
  - apply yields_ret. exists proposal. by split.
  - eapply yields_bind; [apply yields_generate; intros; apply yields_fail|]. intros prepared _.
    eapply yields_bind; [apply yields_check|]. intros _ _. apply yields_ret. by exists proposal.
Qed.

Lemma yields_prepare req ctl model source c :
  yields (prepare_context start_session req ctl model source c)
    (λ r, logical_tokens source c r.1.1).
Proof.
  unfold prepare_context. destruct c as [c|], source as [source|].
  - apply yields_compact.
  - apply yields_fail.
  - by apply yields_ret.
  - by apply yields_ret.
Qed.
End frame.

(** *** The whole inference *)

Section until_commit.
Context {E C K T : Type} `{!ExecutionSession T}.
Variable start_session :
  EngineRequest → Control.RequestControl → E → result ServerError.Error T * E.
Variable emit :
  StreamEvent → Shared E C → K → result ServerError.Error unit * Shared E C * K.
Variable model_order : Lifecycle.Lifecycle E C → list ModelRecord.

Abbreviation Invariant := (list (Shared E C → Shared E C) → Shared E C → Prop).

Lemma wp_yields {A B} (J : Invariant) O (m : M (Run E C K) Interrupt A) (k : A → M (Run E C K) Interrupt B) V
    Q (R : Interrupt → Run E C K → Prop) s :
  yields J O m V → (∀ e s', calm J s' → R e s') → live J O s →
  (∀ a s', live J O s' → V a → wp (k a) Q R s') →
  wp (m ≫= k) Q R s.
Proof.
  intros Hm HR Hs Hk. rewrite wp_bind. eapply wp_mono; [by apply Hm|cbn beta|done].
  intros a s' [??]. by apply Hk.
Qed.

(** An access fails only when the run is cut off. *)
Lemma wp_access {A B} (J : Invariant) O (f : Shared E C → A) (k : A → M (Run E C K) Interrupt B)
    (Q : B → Run E C K → Prop) (R : Interrupt → Run E C K → Prop) s :
  invariant J → live J O s → (∀ s', R CutOff s') →
  (∀ a s', live J O s' → wp (k a) Q R s') →
  wp (a ← access f; k a) Q R s.
Proof.
  intros HJ Hs HR Hk. pose proof (yields_act J HJ O s Hs) as Ha. unfold access. rewrite !wp_bind.
  revert Ha. unfold others_act, wp_gen. destruct (rn_others s); [done|]. intros [Hlive _].
  by apply Hk.
Qed.

(** Reading the source narrows what is known to [J']. *)
Definition narrows (J : Invariant) (O : text → N → K → Prop) (found : option ContextRecord → Invariant → Prop) : Prop :=
  ∀ source J', found source J' → invariant J' ∧ sink_ok emit J' O ∧ ∀ l sh, J' l sh → J l sh.

Lemma narrows_same (J : Invariant) O : invariant J → sink_ok emit J O → narrows J O (λ _ J', J' = J).
Proof. by intros ?? source J' ->. Qed.

Lemma keeps_found (J : Invariant) O id s :
  invariant J → live J O s →
  wp (find_context (K := K) id) (λ source s', ∃ J', J' = J ∧ live J' O s') (λ _ s', calm J s') s.
Proof.
  intros HJ Hs. eapply wp_mono; [by apply (keeps_find_context J HJ O)|cbn beta|done]. intros source s' [? _]. by exists J.
Qed.

(** Up to the commit: what is left to show is about [conclude], in a state where the
    sink has been given the whole text. *)
Lemma infer_until_commit (J : Invariant) (O : text → N → K → Prop) request_id req successor_id found
    (Q : InferResponse * StreamEvent → Run E C K → Prop) (R : Interrupt → Run E C K → Prop) s :
  invariant J → sink_ok emit J O → narrows J O found →
  (∀ s1, live J O s1 → wp (find_context (K := K) (iq_context_id req)) (λ source s2, ∃ J', found source J' ∧ live J' O s2)
                         (λ _ s2, calm J s2) s1) →
  live J O s → (∀ e s', calm J s' → R e s') → (∀ s', R CutOff s') →
  (∀ c source J' tokens started model compaction generated result s',
     resolved req c → found source J' → logical_tokens source c tokens →
     live J' (λ vis n k, O vis n k ∧ vis = fr_text result) s' →
     wp (conclude request_id req successor_id started model source tokens compaction generated result)
       Q R s') →
  wp (infer_admitted start_session emit model_order request_id req successor_id) Q R s.
Proof.
  intros HJ Hemit Hnarrows Hfound Hs HR Hcut Hconclude. unfold infer_admitted.
  eapply wp_yields; [by apply yields_resolve|done..|]. clear s Hs. intros c s Hs Hc.
  eapply wp_access; [done..|]. clear s Hs. intros started s Hs. cbn zeta.
  eapply (wp_yields J _ _ _ (λ _, True)); [|done..|].
  { case_bool_decide; [apply yields_fail|by apply yields_ret]. }
  clear s Hs. intros _ s Hs _.
  eapply (wp_yields J _ _ _ (λ _, True)); [|done..|].
  { eapply yields_bind; [by apply yields_access|]. intros [ctl|] _; [by apply yields_ret|apply yields_fail]. }
  clear s Hs. intros ctl s Hs _.
  eapply wp_yields; [by apply yields_check|done..|]. clear s Hs. intros _ s Hs _.
  eapply (wp_yields J _ _ _ (λ _, True)); [|done..|].
  { eapply yields_bind; [by apply yields_access|]. intros r _. by apply yields_lift. }
  clear s Hs. intros model s Hs _. rewrite wp_bind.
  eapply wp_mono; [by apply Hfound|cbn beta|by auto]. clear s Hs Hfound. intros source s (J' & Hsource & Hs).
  destruct (Hnarrows _ _ Hsource) as (HJ' & Hemit' & Hinto).
  assert (∀ e s', calm J' s' → R e s') as HR' by (intros e s' Hs'; apply HR, Hinto, Hs'). clear HR Hnarrows Hinto Hemit HJ.
  eapply wp_yields; [by apply yields_prepare|done..|]. clear s Hs.
  intros [[tokens prior] compaction] s Hs Htokens. cbn [fst snd] in Htokens.
  eapply wp_yields; [apply yields_generate; [done|intros; by apply yields_token_sink]|done..|].
  clear s Hs. intros generated s Hs _. rewrite wp_bind.
  eapply wp_mono; [by apply (finish_text emit J' O Hemit')|cbn beta|intros; by apply HR'].
  clear s Hs. intros result s [[Hcalm HO] Htext].
  assert (live J' (λ vis n k, O vis n k ∧ vis = fr_text result) s) as Hs by by repeat split.
  clear Hcalm HO Htext. eapply wp_yields; [by apply yields_check|done..|]. clear s Hs. intros _ s Hs _.
  eapply (wp_yields J' _ _ _ (λ _, True)); [|done..|].
  { destruct (iq_deadline_ms req); [|by apply yields_ret]. eapply yields_bind; [by apply yields_access|].
    intros now _. case_match; [apply yields_fail|by apply yields_ret]. }
  clear s Hs. intros _ s Hs _. by eapply Hconclude.
Qed.

(** Followed through the commit, when the commit leaves it alone as well. *)
Lemma infer_admitted_out (J : Invariant) (O : text → N → K → Prop) request_id req successor_id s :
  invariant J → (∀ cs l sh, J l sh → J l (set_contexts cs sh)) → sink_ok emit J O →
  live J O s →
  wp (infer_admitted start_session emit model_order request_id req successor_id)
    (λ '(response, terminal) s', calm J s' ∧ O (ir_text response) (rn_delta_index s') (rn_out s')
       ∧ ir_id response = request_id ∧ ∃ reason, terminal = EvFinished reason (ir_usage response))
    (λ e s', e ≠ CutOff → calm J s') s.
Proof.
  intros HJ Hcontexts Hemit Hs.
  eapply (infer_until_commit J O); [done..|by apply narrows_same|by intros; apply keeps_found|done|done|done|].
  clear s Hs. intros c source J' tokens started model compaction generated result s _ -> _ Hs.
  unfold conclude. cbn zeta. eapply wp_yields; [apply yields_locked; [done|]|done..|].
  { intros l sh HJsh. destruct (commit_inference _ _ _ _ _) as [r cs]. by apply Hcontexts. }
  clear s Hs. intros id s Hs _. eapply wp_access; [done..|]. clear s Hs.
  intros now s [Hcalm [HO Hvis]]. rewrite wp_ret. cbn. rewrite <- Hvis. split_and!; [done..|]. by eexists.
Qed.
End until_commit.

(** *** What others leave alone *)

Section following.
Context {E C X : Type} (view : Shared E C → X).

(** The other request leaves it alone. *)
Definition quiet (act : Shared E C → Shared E C) : Prop :=
  ∀ sh, view (act sh) = view sh.

Definition following (x : X) (l : list (Shared E C → Shared E C)) (sh : Shared E C) : Prop :=
  view sh = x ∧ Forall quiet l.

Record frame_ok : Prop := {
  frame_expire ctl sh : view (set_inner (on_control Control.expire ctl (sh_inner sh)) sh) = view sh;
  frame_declarations d sh : view (set_declarations d sh) = view sh;
  frame_engine e sh : view (set_engine e sh) = view sh;
}.

Lemma following_invariant x : frame_ok → invariant (following x).
Proof.
  intros Hframe. split; [|intros ? l sh [Hx Hq]; split; [|done]..].
  - intros act l sh [Hx [Hact Hq]%list.Forall_cons]. split; [by rewrite Hact|done].
  - by rewrite frame_expire.
  - by rewrite frame_declarations.
  - by rewrite frame_engine.
Qed.
End following.

Section commit.
Context {E C K T : Type} `{!ExecutionSession T}.
Variable start_session :
  EngineRequest → Control.RequestControl → E → result ServerError.Error T * E.
Variable emit :
  StreamEvent → Shared E C → K → result ServerError.Error unit * Shared E C * K.
Variable model_order : Lifecycle.Lifecycle E C → list ModelRecord.

(** The contexts change by what the others do only. *)
Abbreviation goes := (rtc (move (E := E) (C := C) (λ _ sh sh', sh_contexts sh' = sh_contexts sh))).
Abbreviation contexts_at p := (sh_contexts (pt_shared p)).

Definition at_contexts (cs : Contexts) (p : Point E C) : Point E C :=
  mkPoint (pt_past p) (pt_others p) (set_contexts cs (pt_shared p)).

(** The run is where [p] goes. *)
Definition reaches (p : Point E C) (l : list (Shared E C → Shared E C)) (sh : Shared E C) : Prop :=
  ∃ past, goes p (mkPoint past l sh).

Lemma reaches_here past l sh : reaches (mkPoint past l sh) l sh.
Proof. exists past. apply rtc_refl. Qed.

Lemma reaches_own p l sh sh' : sh_contexts sh' = sh_contexts sh → reaches p l sh → reaches p l sh'.
Proof. intros Hcs [past Hto]. exists (sh :: past). eapply rtc_r; [exact Hto|by apply MoveOwn]. Qed.

Lemma reaches_invariant p : invariant (reaches p).
Proof.
  split; [|intros ? l sh; by apply reaches_own..].
  intros act l sh [past Hto]. exists (sh :: past). eapply rtc_r; [exact Hto|apply MoveOther].
Qed.

Definition source_of (cs : Contexts) (req : InferRequest) (source : option ContextRecord) : Prop :=
  match iq_context_id req with
  | None => source = None
  | Some id => ∃ record, cs !! id = Some record ∧ source = Some record
  end.

(** The source was read at [q], on the way from [p]. *)
Definition read_from (p : Point E C) (req : InferRequest) (source : option ContextRecord)
    (J : list (Shared E C → Shared E C) → Shared E C → Prop) : Prop :=
  ∃ q, goes p q ∧ source_of (contexts_at q) req source ∧ J = reaches q.

Abbreviation anything := (λ (_ : text) (_ : N) (_ : K), True).

Hypothesis emit_contexts : ∀ e sh k, sh_contexts (emit e sh k).1.2 = sh_contexts sh.

Lemma reaches_sink p : sink_ok emit (reaches p) anything.
Proof.
  intros vis delta n l sh k Hto _. specialize (emit_contexts (EvToken (string_of delta) n) sh k).
  destruct (emit _ sh k) as [[[[]|e] sh'] k']; cbn in *; [split; [|done]|]; by eapply reaches_own.
Qed.

Lemma read_from_narrows p req : narrows emit (reaches p) anything (read_from p req).
Proof.
  intros source J' (q & Hto & _ & ->). split; [apply reaches_invariant|]. split; [apply reaches_sink|].
  intros l sh [past Hq]. exists past. by etrans.
Qed.

Lemma wp_find_context p req s :
  live (reaches p) anything s →
  wp (find_context (K := K) (iq_context_id req)) (λ source s', ∃ J', read_from p req source J' ∧ live J' anything s')
    (λ _ s', calm (reaches p) s') s.
Proof.
  intros Hs. unfold find_context, read_from, source_of. destruct (iq_context_id req) as [id|].
  - rewrite wp_bind. unfold access. rewrite wp_bind.
    eapply wp_mono; [by apply (yields_act _ (reaches_invariant p) anything)|cbn beta|done].
    intros _ s' [[[past Hto] _] _]. rewrite wp_gets. unfold context.
    destruct (sh_contexts (rn_shared s') !! id) as [record|] eqn:Hr; [|by exists past].
    cbn [lift]. rewrite wp_bind, wp_ret. eexists. split; [|split; [apply (reaches_here past)|done]].
    eexists. split; [exact Hto|]. split; [|done]. by exists record.
  - destruct Hs as [[past Hto] _]. rewrite wp_ret. eexists. split; [|split; [apply (reaches_here past)|done]].
    eexists. split; [exact Hto|]. by split.
Qed.

(** What a commit makes of the contexts: the record that was read is still there, at
    the revision that was read, and is replaced; or there is a new one. *)
Definition committed (source : option ContextRecord) (successor_id : string) (tokens : list string)
    (native : list Z) (cs : Contexts) (id : string) (cs' : Contexts) : Prop :=
  match source with
  | Some source => ∃ stored, cs !! Contexts.cr_id source = Some stored ∧ cr_revision stored = cr_revision source
      ∧ id = Contexts.cr_id stored
      ∧ cs' = <[Contexts.cr_id source := mkContext id (wrapping_add (cr_revision source) 1) tokens native]> cs
  | None => id = successor_id ∧ cs' = <[successor_id := mkContext successor_id 1 tokens native]> cs
  end.

Lemma commit_committed source successor_id tokens native cs :
  match commit_inference source successor_id tokens native cs with
  | (Ok id, cs') => committed source successor_id tokens native cs id cs'
  | (Err _, cs') => cs' = cs
  end.
Proof.
  unfold commit_inference, committed. destruct source as [source|]; [|done].
  destruct (cs !! Contexts.cr_id source) as [stored|] eqn:Hs; [|done].
  destruct (N.eqb_spec (cr_revision stored) (cr_revision source)) as [Heq|]; cbn; [|done].
  exists stored. by rewrite Heq.
Qed.

(** The commit: the contexts change exactly when it succeeds. *)
Lemma wp_commit {B} p O source successor_id tokens native (k : string → M (Run E C K) Interrupt B)
    (Q : B → Run E C K → Prop) (R : Interrupt → Run E C K → Prop) s :
  live (reaches p) O s → (∀ e s', calm (reaches p) s' → R e s') →
  (∀ id q cs s', goes p q → committed source successor_id tokens native (contexts_at q) id cs →
     live (reaches (at_contexts cs q)) O s' → wp (k id) Q R s') →
  wp (id ← locked (λ sh,
        let '(r, cs) := commit_inference source successor_id tokens native (sh_contexts sh) in
        (r, set_contexts cs sh)); k id) Q R s.
Proof.
  intros Hs HR Hk. unfold locked. rewrite !wp_bind.
  eapply wp_mono; [by apply (yields_act _ (reaches_invariant p) O)|cbn beta|done].
  intros _ s' [[[past Hto] HO] _]. unfold section, wp_gen at 1.
  pose proof (commit_committed source successor_id tokens native (sh_contexts (rn_shared s'))) as H.
  destruct (commit_inference _ _ _ _ _) as [[id|e] cs]; cbn.
  - eapply Hk; [exact Hto|exact H|]. split; [|done]. apply (reaches_here past).
  - apply HR. eapply reaches_own; [|by exists past]. by rewrite H.
Qed.

(** C18: an inference commits exactly when it succeeds, and only over the context it
    read. With any engine, a sink that leaves the contexts alone, and whatever the other
    requests do, also to the contexts, before each access: it never panics; if it returns
    an error, the contexts changed by what the others did only; if it succeeds, they
    changed in one more step. The source was read in a state [q] of the run; at the
    commit, in a later state [w], the context is still there at the revision that was
    read, and its record is replaced by one at the next revision (or a new context is
    made): the tokens that were read, compacted the way the request or its declaration
    asks, followed by the words of the prompt and of the text. *)
Theorem infer_commit_exact request_id req successor_id s :
  let start := mkPoint [] (rn_others s) (rn_shared s) in
  match infer_admitted start_session emit model_order request_id req successor_id s with
  | Done (response, terminal) s' =>
      ∃ c source tokens native reason q w cs,
        resolved req c ∧ logical_tokens source c tokens
        ∧ goes start q ∧ source_of (contexts_at q) req source
        ∧ goes q w
        ∧ committed source successor_id
            (tokens ++ words (text_of (iq_prompt req)) ++ words (ir_text response)) native
            (contexts_at w) (us_context_id (ir_usage response)) cs
        ∧ reaches (at_contexts cs w) (rn_others s') (rn_shared s')
        ∧ ir_id response = request_id ∧ terminal = EvFinished reason (ir_usage response)
  | Fail (Returned _) s' => reaches start (rn_others s') (rn_shared s')
  | Fail CutOff _ => True
  | Panic => False
  end.
Proof.
  intros start.
  assert (wp (infer_admitted start_session emit model_order request_id req successor_id)
    (λ '(response, terminal) s', ∃ c source tokens native reason q w cs,
        resolved req c ∧ logical_tokens source c tokens
        ∧ goes start q ∧ source_of (contexts_at q) req source ∧ goes q w
        ∧ committed source successor_id
            (tokens ++ words (text_of (iq_prompt req)) ++ words (ir_text response)) native
            (contexts_at w) (us_context_id (ir_usage response)) cs
        ∧ reaches (at_contexts cs w) (rn_others s') (rn_shared s')
        ∧ ir_id response = request_id ∧ terminal = EvFinished reason (ir_usage response))
    (λ e s', e ≠ CutOff → reaches start (rn_others s') (rn_shared s')) s) as H.
  2:{ unfold wp_gen in H. destruct (infer_admitted _ _ _ _ _ _ s) as [[response terminal] s'|[e|] s'|]; try done. by apply H. }
  eapply (infer_until_commit _ _ _ (reaches start) anything _ _ _ (read_from start req)).
  - apply reaches_invariant.
  - apply reaches_sink.
  - apply read_from_narrows.
  - apply wp_find_context.
  - split; [apply (reaches_here [])|done].
  - intros e s' Hs' _. exact Hs'.
  - done.
  - intros c source J' tokens started model compaction generated result s' Hc (q & Hq & Hsource & ->) Htokens Hs.
    unfold conclude. cbn zeta. eapply wp_commit; [exact Hs| |].
    { intros e s1 [past Hs1] _. exists past. by etrans. }
    clear s' Hs. intros id w cs s' Hw Hcommit Hs.
    eapply wp_access; [apply reaches_invariant|exact Hs|done|]. clear s' Hs. intros now s' [Hcs _]. rewrite wp_ret.
    by exists c, source, tokens, (eo_successor_tokens generated), (fr_finish_reason result), q, w, cs.
Qed.
End commit.

(** ** The events *)

Section whole.
Context {E C T : Type} `{!ExecutionSession T}.
Variable start_session :
  EngineRequest → Control.RequestControl → E → result ServerError.Error T * E.
Variable model_order : Lifecycle.Lifecycle E C → list ModelRecord.

Definition token_events (deltas : list text) : list StreamEvent :=
  imap (λ i delta, EvToken (string_of delta) (N.of_nat i mod (u64_max + 1))%N) deltas.

(** What was collected after the start: the deltas of the text so far. *)
Definition collected (first : StreamEvent) (vis : text) (n : N) (out : list StreamEvent) : Prop :=
  ∃ deltas, out = first :: token_events deltas ∧ vis = concat deltas
    ∧ n = (N.of_nat (length deltas) mod (u64_max + 1))%N.

Lemma collect_event_ok (J : list (Shared E C → Shared E C) → Shared E C → Prop) first :
  sink_ok collect_event J (collected first).
Proof.
  intros vis delta n l sh out HJ (deltas & -> & -> & ->). cbn. split; [done|].
  exists (deltas ++ [delta]). split_and!.
  - unfold token_events. rewrite imap_app. cbn. by rewrite Nat.add_0_r.
  - rewrite concat_app. cbn. by rewrite app_nil_r.
  - unfold wrapping_add. rewrite N.Div0.add_mod_idemp_l, length_app. cbn. f_equal. lia.
Qed.

(** A new frontier has made nothing visible. *)
Lemma start_frontier_ok {K} J req (s : Run E C K) :
  invariant J → calm J s →
  wp (start_frontier model_order req)
    (λ _ s', calm J s' ∧ gf_visible (rn_frontier s') = [] ∧ rn_delta_index s' = 0%N)
    (λ _ s', calm J s') s.
Proof.
  intros HJ Hs. assert (live J (λ _ _ _, True) s) as Hl by by split.
  unfold start_frontier. rewrite wp_bind. eapply wp_mono; [|cbn beta|].
  - eapply (yields_bind J (λ _ _ _, True) _ _ (λ _, True) (λ _, True)); [|intros; by apply yields_ret|done].
    eapply yields_bind; [by apply yields_access|]. intros r _. by apply yields_lift.
  - intros stops s' [[Hs' _] _]. rewrite wp_bind. unfold new_effective, with_limit.
    repeat case_match; cbn; try apply Hs'; simplify_eq. by repeat split.
  - done.
Qed.

(** A whole inference, with what is followed and what was collected. *)
Lemma infer_reserved_ok J uuid request_id req s :
  invariant J → (∀ cs l sh, J l sh → J l (set_contexts cs sh)) → calm J s →
  wp (infer_reserved start_session model_order uuid request_id req)
    (λ '(response, events) s', calm J s' ∧ ∃ deltas reason,
       events = started_event request_id req (default uuid (iq_context_id req))
                :: token_events deltas ++ [EvFinished reason (ir_usage response)]
       ∧ ir_text response = concat deltas ∧ ir_id response = request_id)
    (λ e s', e ≠ CutOff → calm J s') s.
Proof.
  intros HJ Hcontexts Hs. unfold infer_reserved. rewrite wp_bind.
  eapply wp_mono; [by apply (start_frontier_ok J)|cbn beta|done]. clear s Hs.
  intros _ s (Hs & Hvis & Hindex). wp_run. unfold push_event. wp_run. cbn [rn_out rn_frontier rn_shared rn_others rn_delta_index app].
  set (first := started_event _ _ _).
  eapply wp_mono; [apply (infer_admitted_out start_session collect_event model_order J (collected first))|cbn beta|done];
    [done|done|apply collect_event_ok| |].
  - split; [exact Hs|]. exists []. cbn. by rewrite Hvis, Hindex.
  - intros [response terminal] s' (Hs' & (deltas & Hout & Htext & _) & Hid & reason & ->). wp_run.
    split; [exact Hs'|]. exists deltas, reason. cbn. by rewrite Hout.
Qed.

(** The events of an inference are its text. Whatever the engine and the
    other requests do, a successful inference has sent one start, then the text in
    order, one numbered delta per event, and one end that carries the usage of the
    response; nothing of the text is missing, repeated or reordered. *)
Theorem infer_events uuid request_id req s :
  match infer_reserved start_session model_order uuid request_id req s with
  | Done (response, events) _ => ∃ deltas reason,
      events = started_event request_id req (default uuid (iq_context_id req))
               :: token_events deltas ++ [EvFinished reason (ir_usage response)]
      ∧ ir_text response = concat deltas ∧ ir_id response = request_id
  | Fail _ _ => True
  | Panic => False
  end.
Proof.
  pose proof (infer_reserved_ok (λ _ _, True) uuid request_id req s ltac:(by split) ltac:(done) I) as H.
  unfold wp_gen in H. destruct (infer_reserved _ _ _ _ _ s) as [[response events] s'| |]; [|done..].
  apply H.
Qed.

(** ** Admission *)

(** The admission state, without the states of the controls. *)
Definition admission_view (sh : Shared E C) : Inner := set_store ∅ (sh_inner sh).

Abbreviation admission_as x := (following admission_view x).

Lemma admission_followed x : invariant (admission_as x).
Proof. apply following_invariant. by split. Qed.

Lemma admission_contexts x cs l sh : admission_as x l sh → admission_as x l (set_contexts cs sh).
Proof. done. Qed.

(** What a request that was admitted leaves: its control is not registered. *)
Definition released (request_id : string) (i : Inner) : Inner :=
  set_controls (delete request_id (controls i)) i.

Lemma drop_admitted request_id ctl i guard i' j :
  try_admit request_id ctl i = (Ok guard, i') → set_store ∅ j = set_store ∅ i' →
  set_store ∅ (drop_guard guard j) = set_store ∅ (released request_id i).
Proof.
  unfold try_admit. repeat case_match; intros Ha Hj; simplify_eq.
  match goal with H : _ || _ = false |- _ => apply orb_false_iff in H as [_ Hqueue] end.
  apply negb_false_iff, bool_decide_eq_true in Hqueue.
  destruct i, j. unfold set_store in Hj. cbn in *. simplify_eq/=.
  unfold drop_guard, release_or_cancel_admission. cbn. rewrite lookup_insert_eq. cbn.
  rewrite delete_insert_eq. unfold saturating_sub. rewrite N.add_sub.
  unfold promote_queued. cbn. reflexivity.
Qed.

Lemma try_admit_store request_id ctl i j :
  set_store ∅ j = set_store ∅ i →
  (try_admit request_id ctl j).1 = (try_admit request_id ctl i).1
  ∧ set_store ∅ (try_admit request_id ctl j).2 = set_store ∅ (try_admit request_id ctl i).2.
Proof.
  intros Hj. destruct i, j. unfold set_store in Hj. injection Hj; intros; subst.
  unfold try_admit. cbn. case_bool_decide; [done|]. destruct shutting_down; [done|].
  by destruct (_ || _).
Qed.

(** Dropping the guard at the end of its scope. *)
Lemma guarded_ok {K A} (m : M (Run E C K) Interrupt A) guard request_id i (s : Run E C K) :
  (∀ j, admission_view j = admission_view (rn_shared s) →
     set_store ∅ (drop_guard guard (sh_inner j)) = set_store ∅ (released request_id i)) →
  calm (admission_as (admission_view (rn_shared s))) s →
  wp m (λ _ s', calm (admission_as (admission_view (rn_shared s))) s')
    (λ e s', e ≠ CutOff → calm (admission_as (admission_view (rn_shared s))) s') s →
  wp (guarded guard m) (λ _ s', admission_view (rn_shared s') = set_store ∅ (released request_id i))
    (λ e s', e ≠ CutOff → admission_view (rn_shared s') = set_store ∅ (released request_id i)) s.
Proof.
  intros Hdrop Hs Hm. unfold guarded, wp_gen in *.
  assert (∀ s' : Run E C K, calm (admission_as (admission_view (rn_shared s))) s' →
    match locked (λ sh, (Ok tt, set_inner (drop_guard guard (sh_inner sh)) sh)) s' with
    | Done _ s'' => admission_view (rn_shared s'') = set_store ∅ (released request_id i)
    | Fail e _ => e = CutOff
    | Panic => False
    end) as Hrelease.
  { intros s' [Hv Hq]. unfold locked, mbind, M_bind, others_act.
    destruct (rn_others s') as [|act rest]; [done|]. apply list.Forall_cons in Hq as [Hact _].
    cbn. apply Hdrop. by rewrite Hact. }
  destruct (m s) as [a s'|[e|] s'|]; [|specialize (Hm ltac:(done))|done..].
  all: specialize (Hrelease s' Hm); unfold mbind, M_bind.
  all: destruct (locked _ s') as [| |]; cbn; [done| |done]; intros; by subst.
Qed.

(** An inference gives its admission back on every path. While the other
    requests leave the admission state alone, an inference that was admitted leaves
    it, whether it succeeds or fails, as it was without the request: the number of
    active requests, the queue and every other control are unchanged. One that is
    refused fails with the refusal and has changed nothing else. *)
Theorem infer_releases_admission uuid request_id ctl req s :
  Forall (quiet admission_view) (rn_others s) →
  let i := sh_inner (rn_shared s) in
  let after_run := set_store ∅ (released request_id i) in
  match infer start_session model_order uuid request_id ctl req s with
  | Done _ s' => admission_view (rn_shared s') = after_run ∧ ∃ guard, (try_admit request_id ctl i).1 = Ok guard
  | Fail (Returned e) s' =>
      match (try_admit request_id ctl i).1 with
      | Ok _ => admission_view (rn_shared s') = after_run
      | Err refusal => e = refusal ∧ admission_view (rn_shared s') = set_store ∅ (try_admit request_id ctl i).2
      end
  | Fail CutOff _ => True
  | Panic => False
  end.
Proof.
  intros Hq i after_run. unfold infer, locked, mbind, M_bind, others_act.
  destruct (rn_others s) as [|act rest]; [done|]. apply list.Forall_cons in Hq as [Hact Hq].
  unfold section. cbn [rn_shared].
  set (j := set_store (<[ctl := Control.new]> (store (sh_inner (act (rn_shared s))))) (sh_inner (act (rn_shared s)))).
  assert (set_store ∅ j = set_store ∅ i) as Hj by exact (Hact (rn_shared s)).
  destruct (try_admit_store request_id ctl i j Hj) as [Hr Hi].
  destruct (try_admit request_id ctl j) as [[guard|refusal] j'] eqn:Ha; cbn [fst snd] in Hr, Hi;
    rewrite <- Hr; cbn; [|by split].
  match goal with |- context [guarded guard _ ?s1] => pose (s' := s1) end. fold s'.
  pose proof (guarded_ok (infer_reserved start_session model_order uuid request_id req) guard request_id i s') as H.
  assert (calm (admission_as (admission_view (rn_shared s'))) s') as Hs' by by split.
  specialize (H ltac:(intros sh Hsh; rewrite (drop_admitted _ _ _ _ _ _ Ha Hsh);
    destruct i, j; unfold set_store in Hj; injection Hj; intros; by subst) Hs').
  unfold wp_gen in H. 
  pose proof (infer_reserved_ok _ uuid request_id req s' (admission_followed _)
    (admission_contexts _) Hs') as Hrun.
  assert (wp (infer_reserved start_session model_order uuid request_id req)
    (λ _ s1, calm (admission_as (admission_view (rn_shared s'))) s1)
    (λ e s1, e ≠ CutOff → calm (admission_as (admission_view (rn_shared s'))) s1) s') as Hkeep.
  { eapply wp_mono; [exact Hrun|cbn beta|done]. by intros [response events] s1 [? _]. }
  specialize (H Hkeep). revert H. destruct (guarded guard _ s') as [[response events] s1|[e|] s1|];
    [|intros H; by apply H|done..].
  intros H. split; [exact H|by exists guard].
Qed.
End whole.

(** ** An inference ends *)

Section ends.
Context {E C K T : Type} `{!ExecutionSession T}.
Variable start_session :
  EngineRequest → Control.RequestControl → E → result ServerError.Error T * E.
Variable emit :
  StreamEvent → Shared E C → K → result ServerError.Error unit * Shared E C * K.
Variable model_order : Lifecycle.Lifecycle E C → list ModelRecord.

(** [m] returns within [n] accesses. *)
Definition within {A} (n : nat) (m : M (Run E C K) Interrupt A) : Prop :=
  ∀ s, n ≤ length (rn_others s) →
    wp m (λ _ s', length (rn_others s) ≤ n + length (rn_others s')) (λ e _, e ≠ CutOff) s.

Lemma within_weaken {A} n n' (m : M (Run E C K) Interrupt A) : n ≤ n' → within n m → within n' m.
Proof.
  intros Hle Hm s Hs. eapply wp_mono; [apply Hm; lia|cbn beta; lia|done].
Qed.

Lemma within_bind {A B} n n' (m : M (Run E C K) Interrupt A) (k : A → M (Run E C K) Interrupt B) :
  within n m → (∀ a, within n' (k a)) → within (n + n') (m ≫= k).
Proof.
  intros Hm Hk s Hs. rewrite wp_bind. eapply wp_mono; [apply Hm; lia|cbn beta|done].
  intros a s' Hs'. eapply wp_mono; [apply Hk; lia|cbn beta; lia|done].
Qed.

Lemma within_ret {A} (a : A) : within 0 (mret a).
Proof. intros s _. by rewrite wp_ret. Qed.

Lemma within_fail {A} e : within (A := A) 0 (fail e).
Proof. intros s _. unfold fail. by rewrite wp_throw. Qed.

Lemma within_ret_bind {A B} n (a : A) (k : A → M (Run E C K) Interrupt B) :
  within n (k a) → within n (mret a ≫= k).
Proof. intros H s Hs. exact (H s Hs). Qed.

Lemma within_lift {A} (r : result ServerError.Error A) : within 0 (lift r).
Proof. destruct r; [apply within_ret|apply within_fail]. Qed.

Lemma within_act : within 1 others_act.
Proof. intros s Hs. unfold others_act, wp_gen. destruct (rn_others s); cbn in *; lia. Qed.

Lemma within_access {A} (f : Shared E C → A) : within 1 (access f).
Proof. eapply (within_bind 1 0); [apply within_act|]. intros _ s _. by rewrite wp_gets. Qed.

Lemma within_locked {A} (f : Shared E C → result ServerError.Error A * Shared E C) : within 1 (locked f).
Proof.
  eapply (within_bind 1 0); [apply within_act|]. intros _ s _. unfold section, wp_gen.
  destruct (f (rn_shared s)) as [[a|e] sh]; cbn; [lia|done].
Qed.

Lemma within_check ctl : within 1 (check ctl).
Proof. eapply (within_bind 1 0); [apply within_access|intros; apply within_lift]. Qed.

Lemma within_find_declaration principal id : within 2 (find_declaration principal id).
Proof.
  eapply (within_bind 1 1); [apply within_access|]. intros clock.
  eapply (within_bind 1 0); [apply within_act|]. intros _ s _. unfold on_declarations.
  pose proof (declaration_result clock principal id (sh_declarations (rn_shared s))) as H.
  unfold wp_gen in *. by destruct (declaration_for _ _ _ _).
Qed.

(** The frontier does not wait for anyone. *)
Lemma within_frontier {A} (m : M (GenerationFrontier * Run E C K) ServerError.Error A) :
  (∀ n s, frontier_inv (λ _ k, length (rn_others k) = n) s →
     wp m (λ _ s', length (rn_others s'.2) = n) (λ _ _, True) s) →
  within 0 (on_frontier m).
Proof.
  intros Hm s _. specialize (Hm (length (rn_others s)) (rn_frontier s, s) eq_refl).
  unfold on_frontier, wp_gen in *. destruct (m _) as [a [f s']|e [f s']|]; [|done..]. cbn in *. lia.
Qed.

Lemma emit_delta_others n (vis delta : text) (k : Run E C K) :
  length (rn_others k) = n →
  match emit_delta emit delta k with
  | (Ok _, k') => length (rn_others k') = n
  | (Err _, k') => True
  end.
Proof. intros Hn. unfold emit_delta. by destruct (emit _ _ _) as [[[[]|e] sh] out]. Qed.

Lemma within_push piece terminal : within 0 (on_frontier (push (emit_delta emit) piece terminal)).
Proof.
  apply within_frontier. intros n s Hs.
  exact (push_sink _ (λ _ k, length (rn_others k) = n) (λ _, True) (emit_delta_others n) piece terminal s Hs).
Qed.

Lemma within_finish : within 0 (on_frontier (finish (emit_delta emit))).
Proof.
  apply within_frontier. intros n s Hs.
  eapply wp_mono; [exact (finish_sink _ (λ _ k, length (rn_others k) = n) (λ _, True) (emit_delta_others n) s Hs)|cbn beta|done].
  by intros r s' [? _].
Qed.

Lemma within_token_sink deadline ctl id piece terminal :
  within 3 (token_sink emit deadline ctl id piece terminal).
Proof.
  eapply (within_bind 2 1).
  - destruct deadline; [|eapply within_weaken, within_ret; lia].
    eapply (within_bind 1 1); [apply within_access|]. intros now.
    case_match; [apply within_locked|eapply within_weaken, within_ret; lia].
  - intros _. eapply (within_bind 1 0); [apply within_check|intros; apply within_push].
Qed.

(** *** Sessions that end *)

(** A bound on the quanta that are left. *)
Context (rank : T → nat) (limit : EngineRequest → nat).

Record session_ends : Prop := {
  ends_step view session quantum session' :
    session_step view session = (Ok quantum, session') →
    match quantum with Finished _ => True | _ => rank session' < rank session end;
  ends_start request view engine session engine' :
    start_session request view engine = (Ok session, engine') → rank session ≤ limit request;
}.

Hypothesis session_end : session_ends.

Lemma within_generate_loop quanta ctl sink session :
  rank session < quanta → (∀ id piece terminal, within 3 (sink id piece terminal)) →
  within (5 * (rank session + 1)) (generate_loop quanta ctl sink session).
Proof.
  intros Hrank Hsink. revert session Hrank. induction quanta as [|quanta IH]; [lia|].
  intros session Hrank. cbn [generate_loop]. eapply (within_weaken (1 + (4 + 5 * rank session))); [lia|].
  eapply within_bind; [apply within_access|]. intros control.
  destruct (session_step control session) as [[quantum|e] session'] eqn:Hstep.
  2:{ eapply within_weaken, within_fail; lia. }
  pose proof (ends_step session_end _ _ _ _ Hstep) as Hless.
  apply within_ret_bind. destruct quantum as [o|id piece terminal o|output].
  - eapply within_weaken; [|apply IH; lia]. lia.
  - eapply (within_weaken (3 + (1 + 5 * rank session))); [lia|].
    eapply within_bind; [apply Hsink|]. intros [].
    + eapply within_weaken; [|apply IH; lia]. lia.
    + eapply (within_weaken 1); [lia|]. eapply (within_bind 1 0); [apply within_access|].
      intros control'. apply within_lift.
  - eapply within_weaken, within_ret. lia.
Qed.

Lemma within_generate request sink :
  (∀ id piece terminal, within 3 (sink id piece terminal)) →
  within (2 + 5 * (limit request + 1)) (generate start_session request sink).
Proof.
  intros Hsink s Hs. unfold generate. rewrite wp_bind.
  eapply wp_mono; [apply (within_access _ s); lia|cbn beta|done]. intros control s1 Hs1. rewrite wp_bind.
  set (start := locked _).
  assert (wp start (λ session s2, length (rn_others s1) ≤ 1 + length (rn_others s2) ∧ rank session ≤ limit request)
            (λ e _, e ≠ CutOff) s1) as Hstart.
  { unfold start, locked. rewrite wp_bind. eapply wp_mono; [apply (within_act s1); lia|cbn beta|done].
    intros _ s2 Hs2. unfold section, wp_gen.
    destruct (start_session request control _) as [[session|e] engine] eqn:Hstart; cbn; [|done].
    split; [lia|]. by eapply (ends_start session_end). }
  eapply wp_mono; [exact Hstart|cbn beta|done]. intros session s2 [Hs2 Hrank]. wp_run.
  eapply wp_mono; [apply within_generate_loop; [lia|exact Hsink|lia]|cbn beta; lia|done].
Qed.

Lemma within_resolve req : within 2 (resolve_declaration req).
Proof.
  unfold resolve_declaration. destruct (iq_compaction req) as [c|]; [|eapply within_weaken, within_ret; lia].
  destruct (req_declaration_id c); [|eapply within_weaken, within_ret; lia].
  eapply (within_bind 2 0); [apply within_find_declaration|]. intros d.
  eapply (within_bind 0 0); [apply within_lift|]. intros id. case_match; [apply within_fail|apply within_ret].
Qed.

Lemma within_prepare req ctl model source c limit0 :
  (∀ prompt prior, limit (engine_request model prompt 0 prior req ctl) ≤ limit0) →
  within (4 + 5 * (limit0 + 1)) (prepare_context start_session req ctl model source c).
Proof.
  intros Hlimit. unfold prepare_context. destruct c as [c|], source as [source|].
  2-4: eapply within_weaken; [|apply within_fail || apply within_ret]; lia.
  unfold compact. destruct (select_strategy _) as [strategy|].
  2:{ case_match; eapply within_weaken; [|apply within_ret| |apply within_fail]; lia. }
  case_match; [eapply within_weaken, within_fail; lia|].
  eapply (within_bind 0); [apply within_lift|]. intros proposal.
  eapply (within_weaken (1 + (3 + 5 * (limit0 + 1)))); [lia|].
  eapply within_bind; [apply within_check|]. intros _. case_match; [eapply within_weaken, within_ret; lia|].
  eapply (within_weaken ((2 + 5 * (limit0 + 1)) + 1)); [lia|]. eapply within_bind.
  - eapply within_weaken; [|apply within_generate; intros; eapply within_weaken, within_fail; lia].
    specialize (Hlimit (String.concat " " (resulting_tokens proposal)) []). lia.
  - intros prepared. eapply (within_bind 1 0); [apply within_check|]. intros. apply within_ret.
Qed.

(** C39: an inference ends. If every quantum brings the engine's session nearer to
    its end, as measured by [rank], an inference returns, with a response or an
    error, after a number of accesses of the shared state that is known from the
    request, whatever the other requests do at them. *)
Theorem infer_finishes request_id req successor_id limit0 s :
  (∀ model prompt tokens prior ctl, (tokens ≤ iq_max_tokens req)%N →
     limit (engine_request model prompt tokens prior req ctl) ≤ limit0) →
  10 * (limit0 + 1) + 17 ≤ length (rn_others s) →
  match infer_admitted start_session emit model_order request_id req successor_id s with
  | Done _ _ | Fail (Returned _) _ => True
  | Fail CutOff _ | Panic => False
  end.
Proof.
  intros Hlimit Hs.
  assert (within (10 * (limit0 + 1) + 17)
            (infer_admitted start_session emit model_order request_id req successor_id)) as H.
  2:{ specialize (H s Hs). unfold wp_gen in H. by destruct (infer_admitted _ _ _ _ _ _ s) as [|[]|]. }
  clear s Hs. unfold infer_admitted.
  eapply (within_weaken (2 + (1 + (0 + (1 + (1 + (1 + (1 + ((4 + 5 * (limit0 + 1))
            + ((2 + 5 * (limit0 + 1)) + (0 + (1 + (1 + 2))))))))))))); [lia|].
  eapply within_bind; [apply within_resolve|]. intros c.
  eapply within_bind; [apply within_access|]. intros started. cbn zeta.
  eapply within_bind; [case_match; [apply within_fail|apply within_ret]|]. intros _.
  eapply within_bind.
  { eapply (within_bind 1 0); [apply within_access|]. intros [ctl|]; [apply within_ret|apply within_fail]. }
  intros ctl. eapply within_bind; [apply within_check|]. intros _. eapply within_bind.
  { eapply (within_bind 1 0); [apply within_access|]. intros. apply within_lift. }
  intros model. eapply within_bind.
  { unfold find_context. destruct (iq_context_id req); [|eapply within_weaken, within_ret; lia].
    eapply (within_bind 1 0); [apply within_access|]. intros r.
    eapply (within_bind 0 0); [apply within_lift|]. intros. apply within_ret. }
  intros source. eapply within_bind; [apply within_prepare; intros; apply Hlimit; lia|]. intros [[tokens prior] compaction].
  eapply within_bind.
  { eapply within_weaken; [|apply within_generate, within_token_sink].
    specialize (Hlimit model (iq_prompt req) (iq_max_tokens req) prior ctl ltac:(lia)). lia. }
  intros generated. eapply within_bind; [apply within_finish|]. intros result.
  eapply within_bind; [apply within_check|]. intros _. eapply within_bind.
  { destruct (iq_deadline_ms req); [|eapply within_weaken, within_ret; lia].
    eapply (within_bind 1 0); [apply within_access|]. intros now.
    case_match; [apply within_fail|apply within_ret]. }
  intros _. unfold conclude. cbn zeta. eapply (within_bind 1 1); [apply within_locked|]. intros id.
  eapply (within_bind 1 0); [apply within_access|]. intros. apply within_ret.
Qed.
End ends.

(** ** With the built-in engine *)

Module InferenceDemo.

Definition start (request : EngineRequest) (view : Control.RequestControl) (engine : unit)
  : result ServerError.Error Deterministic.DeterministicSession * unit :=
  (Deterministic.start_session request view, engine).

Definition order (l : Lifecycle.Lifecycle unit unit) : list ModelRecord := models l.

(** How many quanta a session of the built-in engine can still take. *)
Definition rank (s : Deterministic.DeterministicSession) : nat :=
  N.to_nat (er_max_tokens (Deterministic.ds_request s) - Deterministic.ds_index s)
  + (if Deterministic.ds_prepared s then 0 else 1).

Definition limit (request : EngineRequest) : nat := N.to_nat (er_max_tokens request) + 1.

Lemma deterministic_ends : session_ends start rank limit.
Proof.
  split.
  - intros view session quantum session'. cbn. unfold Deterministic.step.
    destruct (Control.check view); [|done]. destruct (Deterministic.ds_prepared session) eqn:Hp; cbn.
    + destruct (N.leb_spec (er_max_tokens (Deterministic.ds_request session)) (Deterministic.ds_index session));
        cbn; [destruct (Deterministic.finish view session); intros [= <- <-]; done|].
      case_bool_decide; [destruct (Deterministic.finish view session); intros [= <- <-]; done|].
      intros [= <- <-]. unfold rank. cbn. rewrite Hp. lia.
    + intros [= <- <-]. unfold rank. cbn. rewrite Hp. lia.
  - intros request view [] session []. unfold start, Deterministic.start_session.
    destruct (Control.check view); [|done]. intros [= <-]. unfold rank, limit. cbn. lia.
Qed.

Definition inner : Inner :=
  set_store {[7%N := Control.new]} (set_controls {["r" := 7%N]} (Admission.initial default_config)).

Definition shared (i : Inner) : Shared unit unit :=
  mkShared i {["c" := mkContext "c" 3 ["old"] []]} no_declarations
    (mkLifecycle {["m" := mkModel "m" "1" "m.gguf" "" [] "gemma4" 1 1]} 2 tt None) 0 (Some 1000%N).

Definition request : InferRequest :=
  mkInferRequest "m" "one two" 3 (Some "c") (Some 1000%N) [] false None (mkSampling 0 0 0) None
    (Scheduler.mkMetadata Standard AdapterDefault "ann" "" "").

Definition no_frontier : GenerationFrontier := mkFrontier [] [] 0 [0] 0 [] true None None.

(** Sixty-seven accesses are enough for three tokens. *)
Definition begin (i : Inner) : Run unit unit (list StreamEvent) :=
  mkRun (shared i) (replicate 67 id) no_frontier 0 [].

Definition run : outcome (Run unit unit (list StreamEvent)) Interrupt (InferResponse * StreamEvent) :=
  infer_admitted start collect_event order "r" request "new" (begin inner).

Lemma undisturbed {X} (view : Shared unit unit → X) n : Forall (quiet view) (replicate n id).
Proof. induction n; [constructor|]. by constructor. Qed.

Definition succeeded {S A} (o : outcome S Interrupt A) : bool :=
  match o with Done _ _ => true | _ => false end.

Example run_succeeds : succeeded run = true.
Proof. vm_compute. reflexivity. Qed.

Example run_text :
  match run with
  | Done (response, _) s' => string_of (ir_text response) = "two one two"
      ∧ sh_contexts (rn_shared s') !! "c"
        = Some (mkContext "c" 4 ["old"; "one"; "two"; "two"; "one"; "two"] [])
  | _ => False
  end.
Proof. vm_compute. split; reflexivity. Qed.

(** Other requests that store a context, at the first access, or a revision of the
    context that is read, at a later one. *)
Definition store_other (id : string) (revision : N) (sh : Shared unit unit) : Shared unit unit :=
  set_contexts (<[id := mkContext id revision ["other"] []]> (sh_contexts sh)) sh.

Definition with_others (others : list (Shared unit unit → Shared unit unit))
  : Run unit unit (list StreamEvent) := mkRun (shared inner) others no_frontier 0 [].

Definition disturbed : Run unit unit (list StreamEvent) := with_others (store_other "d" 1 :: replicate 67 id).

Definition disturbed_run : outcome (Run unit unit (list StreamEvent)) Interrupt (InferResponse * StreamEvent) :=
  infer_admitted start collect_event order "r" request "new" disturbed.

Example disturbed_run_succeeds : succeeded disturbed_run = true.
Proof. vm_compute. reflexivity. Qed.

(** A context that another request replaced after it was read is not replaced again. *)
Example stale_commit_refused :
  match infer_admitted start collect_event order "r" request "new"
          (with_others (replicate 20 id ++ store_other "c" 4 :: replicate 47 id)) with
  | Fail (Returned e) s' => e = ServerError.State "context changed during compaction"
      ∧ sh_contexts (rn_shared s') !! "c" = Some (mkContext "c" 4 ["other"] [])
  | _ => False
  end.
Proof. vm_compute. split; reflexivity. Qed.
End InferenceDemo.

Lemma infer_commit_exact_witness :
  ∃ response terminal s' c source tokens native (q w : Point unit unit) cs,
    InferenceDemo.disturbed_run = Done (response, terminal) s'
    ∧ resolved InferenceDemo.request c ∧ logical_tokens source c tokens
    ∧ source_of (sh_contexts (pt_shared q)) InferenceDemo.request source
    ∧ committed source "new" (tokens ++ words (text_of "one two") ++ words (ir_text response)) native
        (sh_contexts (pt_shared w)) (us_context_id (ir_usage response)) cs
    ∧ reaches (at_contexts cs w) (rn_others s') (rn_shared s').
Proof.
  pose proof InferenceDemo.disturbed_run_succeeds as Hrun.
  pose proof (infer_commit_exact InferenceDemo.start collect_event InferenceDemo.order (λ e sh k, eq_refl) "r"
    InferenceDemo.request "new" InferenceDemo.disturbed) as H.
  cbn zeta in H. change (infer_admitted _ _ _ _ _ _ _) with InferenceDemo.disturbed_run in H.
  destruct InferenceDemo.disturbed_run as [[response terminal] s'| |]; [|discriminate Hrun..].
  destruct H as (c & source & tokens & native & reason & q & w & cs & Hc & Ht & _ & Hsource & _ & Hcommit & Hto & _).
  exists response, terminal, s', c, source, tokens, native, q, w, cs. split; [reflexivity|].
  split; [exact Hc|]. split; [exact Ht|]. split; [exact Hsource|]. split; [exact Hcommit|exact Hto].
Defined.

Lemma infer_releases_admission_witness :
  ∃ r s', infer InferenceDemo.start InferenceDemo.order "new" "q" 8 InferenceDemo.request
            (InferenceDemo.begin InferenceDemo.inner) = Done r s'
    ∧ admission_view (rn_shared s') = set_store ∅ (released "q" InferenceDemo.inner).
Proof.
  pose proof (infer_releases_admission InferenceDemo.start InferenceDemo.order "new" "q" 8
    InferenceDemo.request (InferenceDemo.begin InferenceDemo.inner)
    (InferenceDemo.undisturbed admission_view 67)) as H.
  assert (InferenceDemo.succeeded (infer InferenceDemo.start InferenceDemo.order "new" "q" 8
    InferenceDemo.request (InferenceDemo.begin InferenceDemo.inner)) = true) as Hrun by (vm_compute; reflexivity).
  cbn zeta in H. destruct (infer _ _ _ _ _ _ _) as [r s'| |]; [|discriminate Hrun..].
  exists r, s'. split; [reflexivity|]. exact (proj1 H).
Defined.

Lemma infer_finishes_witness :
  10 * (4 + 1) + 17 ≤ 67
  ∧ match InferenceDemo.run with
    | Done _ _ | Fail (Returned _) _ => True
    | Fail CutOff _ | Panic => False
    end.
Proof.
  split; [lia|].
  apply (infer_finishes InferenceDemo.start collect_event InferenceDemo.order InferenceDemo.rank
    InferenceDemo.limit InferenceDemo.deterministic_ends "r" InferenceDemo.request "new" 4
    (InferenceDemo.begin InferenceDemo.inner)).
  - intros model prompt tokens prior ctl Hle. unfold InferenceDemo.limit. cbn in *. lia.
  - apply Nat.leb_le. vm_compute. reflexivity.
Defined.
