(* ===== verification/Residency.v ===== *)
(** Resident models ([crates/server/src/residency.rs]): which models are loaded, the
    budgets they must fit in, spilling their contexts, evicting idle models, and
    reloading under a new epoch.

    An [Arc] is an address into [rs_heap], so that a session can hold a model that is
    no longer in the table. A load takes the lock three times and loads the model in
    between without it: [find_resident], [choose_victims] and [install] are its
    locked sections, and [load] is their composition when nothing comes between.
    The loader and the engines are parameters. *)

From stdpp Require Import gmap strings list numbers pretty.
From Stdlib Require Import Lia.
From S2P Require Import Prelude Engine Lifecycle Admission.

(** ** Data *)

Record ResidencyConfig : Type := mkResidencyConfig {
  rc_device_bytes : N;
  rc_host_bytes : N;
  rc_storage_bytes : N;
  rc_context_reserve_bytes : N;
  rc_n_ctx : N;
  rc_gpu_layers : Z;
  rc_require_competent : bool;
}.

Definition validate (c : ResidencyConfig) : result ServerError.Error ResidencyConfig :=
  if (rc_device_bytes c =? 0)%N || (rc_host_bytes c =? 0)%N || (rc_storage_bytes c =? 0)%N
     || (rc_n_ctx c =? 0)%N
  then Err (ServerError.State "residency budgets and context size must be nonzero")
  else Ok c.

Record OperatingPoint : Type := mkPoint {
  op_model_bytes : N;
  op_context_bytes : N;
  op_device_bytes : N;
  op_host_bytes : N;
  op_gpu_layers : Z;
  op_model_layers : Z;
  op_competent : bool;
}.

Record ResidencyMetrics : Type := mkResidencyMetrics {
  me_loads : N;
  me_load_failures : N;
  me_reuses : N;
  me_unloads : N;
  me_reloads : N;
  me_context_spills : N;
  me_context_reloads : N;
  me_device_bytes : N;
  me_host_bytes : N;
  me_storage_bytes : N;
  me_active_slots : N;
  me_sessions : N;
}.

Definition default_metrics : ResidencyMetrics := mkResidencyMetrics 0 0 0 0 0 0 0 0 0 0 0 0.

Record ResidentModel (E : Type) : Type := mkResident {
  rm_record : ModelRecord;
  rm_engine : E;
  rm_point : OperatingPoint;
  rm_active : N;
  rm_sessions : N;
  rm_retiring : bool;
  rm_context_resident : bool;
  rm_last_used : N;
}.

Arguments mkResident {E}.
Arguments rm_record {E}.
Arguments rm_engine {E}.
Arguments rm_point {E}.
Arguments rm_active {E}.
Arguments rm_sessions {E}.
Arguments rm_retiring {E}.
Arguments rm_context_resident {E}.
Arguments rm_last_used {E}.

(** What an engine promises residency: spilling the contexts that are not in use,
    and how many there were. *)
Class Spilling (E : Type) : Type := demote_inactive : E → result ServerError.Error N * E.

Abbreviation Key := (string * N)%type.

Record ResidencyState (E : Type) : Type := mkResidency {
  rs_entries : gmap Key N;
  rs_heap : gmap N (ResidentModel E);
  rs_next : N;
  rs_clock : N;
  rs_metrics : ResidencyMetrics;
}.

Arguments mkResidency {E}.
Arguments rs_entries {E}.
Arguments rs_heap {E}.
Arguments rs_next {E}.
Arguments rs_clock {E}.
Arguments rs_metrics {E}.

Record ResidentModelStatus : Type := mkResidentStatus {
  st_id : string;
  st_revision : string;
  st_epoch : N;
  st_active_slots : N;
  st_sessions : N;
  st_retiring : bool;
  st_context_resident : bool;
  st_last_used : N;
  st_operating_point : OperatingPoint;
}.

(** ** Estimates *)

(** The [format!] of the configuration a measurement is filed under, and the key.
    [sha256_hex], the version and the device come from outside. *)
Section profile.
Variables (sha256_hex : string → string) (abi_version llama_version gpu_device : string).

Definition profile_key (c : ResidencyConfig) (m : ModelRecord) : string * string * string * string :=
  let model_identity :=
    if bool_decide (mr_sha256 m = "") then mr_id m +:+ "@" +:+ mr_revision m else mr_sha256 m in
  let config :=
    "abi=" +:+ abi_version +:+ ";llama=" +:+ llama_version +:+ ";n_ctx=" +:+ pretty (rc_n_ctx c)
    +:+ ";n_batch=" +:+ pretty (rc_n_ctx c) +:+ ";gpu_layers=" +:+ pretty (rc_gpu_layers c)
    +:+ ";mapped=true" in
  let gpu_id := if (0 <? rc_gpu_layers c)%Z then "configured-gpu:" +:+ gpu_device else "cpu" in
  (model_identity, sha256_hex config, gpu_id,
   "executor-abi=" +:+ abi_version +:+ ";llama=" +:+ llama_version).
End profile.

Record MeasuredExecutionProfile : Type := mkProfile {
  pr_model_bytes : N;
  pr_device_model_bytes : N;
  pr_host_model_bytes : N;
  pr_context_state_bytes : N;
  pr_device_execution_reserve_bytes : N;
  pr_host_staging_bytes : N;
  pr_allocator_headroom_bytes : N;
  pr_model_layers : Z;
  pr_competent : bool;
}.

(** The operating point of a measurement. *)
Definition profile_point (c : ResidencyConfig) (p : MeasuredExecutionProfile) : OperatingPoint :=
  mkPoint (pr_model_bytes p) (pr_context_state_bytes p)
    (wrapping_add (wrapping_add (pr_device_model_bytes p) (pr_device_execution_reserve_bytes p))
       (pr_allocator_headroom_bytes p))
    (wrapping_add (pr_host_model_bytes p) (pr_host_staging_bytes p))
    (rc_gpu_layers c) (pr_model_layers p) (pr_competent p).

(** [cached_profile]; [measured] is what the catalogue answers, if there is one. *)
Definition cached_profile (c : ResidencyConfig)
    (measured : option (result string (option MeasuredExecutionProfile)))
  : result ServerError.Error (option OperatingPoint) :=
  if (0 <? rc_gpu_layers c)%Z then Ok None
  else
    match measured with
    | None => Ok None
    | Some (Err e) => Err (ServerError.State e)
    | Some (Ok record) => Ok (profile_point c <$> record)
    end.

(** [estimate]; [len] is the size of the model's file. *)
Definition estimate (c : ResidencyConfig)
    (measured : option (result string (option MeasuredExecutionProfile)))
    (len : result string N) (m : ModelRecord) : result ServerError.Error OperatingPoint :=
  match cached_profile c measured with
  | Err e => Err e
  | Ok (Some point) => Ok point
  | Ok None =>
      match (if (mr_size_bytes m =? 0)%N then len else Ok (mr_size_bytes m)) with
      | Err e => Err (ServerError.State e)
      | Ok model_bytes =>
          if (rc_storage_bytes c <? model_bytes)%N then
            Err (ServerError.State "model exceeds the configured storage residency budget")
          else
            let bytes := saturating_add model_bytes (rc_context_reserve_bytes c) in
            let gpu := (0 <? rc_gpu_layers c)%Z in
            Ok (mkPoint model_bytes (rc_context_reserve_bytes c)
                  (if gpu then bytes else 0) (if gpu then 0 else bytes)
                  (rc_gpu_layers c) 0 (negb (rc_require_competent c) || gpu))
      end
  end.

(** ** Budgets *)

Definition add_point (total : N * N * N) (p : OperatingPoint) : N * N * N :=
  let '(device, host, storage) := total in
  (saturating_add device (op_device_bytes p), saturating_add host (op_host_bytes p),
   saturating_add storage (op_model_bytes p)).

Definition fits_with (c : ResidencyConfig) (point : OperatingPoint) (retained : list OperatingPoint)
  : bool :=
  let '(device, host, storage) :=
    foldl add_point (op_device_bytes point, op_host_bytes point, op_model_bytes point) retained in
  (device <=? rc_device_bytes c)%N && (host <=? rc_host_bytes c)%N && (storage <=? rc_storage_bytes c)%N.

Section residency.
Context {E : Type} `{!Spilling E}.
Variable config : ResidencyConfig.

Definition effective_point (e : ResidentModel E) : OperatingPoint :=
  let p := rm_point e in
  if rm_context_resident e then p
  else
    let stored := saturating_add (op_model_bytes p) (op_context_bytes p) in
    if (op_device_bytes p =? 0)%N then
      mkPoint stored (op_context_bytes p) (op_device_bytes p)
        (saturating_sub (op_host_bytes p) (op_context_bytes p))
        (op_gpu_layers p) (op_model_layers p) (op_competent p)
    else
      mkPoint stored (op_context_bytes p) (saturating_sub (op_device_bytes p) (op_context_bytes p))
        (op_host_bytes p) (op_gpu_layers p) (op_model_layers p) (op_competent p).

Definition fits (point : OperatingPoint) (retained : list (ResidentModel E)) : bool :=
  fits_with config point (effective_point <$> retained).

Abbreviation R := (M (ResidencyState E) ServerError.Error).

Definition exhausted : ServerError.Error := ServerError.State "residency capacity is exhausted".

Definition key_of (e : ResidentModel E) : Key := (mr_id (rm_record e), mr_epoch (rm_record e)).

(** *** Field updates *)

Definition set_heap (h : gmap N (ResidentModel E)) (s : ResidencyState E) : ResidencyState E :=
  mkResidency (rs_entries s) h (rs_next s) (rs_clock s) (rs_metrics s).

Definition set_entries (m : gmap Key N) (s : ResidencyState E) : ResidencyState E :=
  mkResidency m (rs_heap s) (rs_next s) (rs_clock s) (rs_metrics s).

Definition set_metrics (m : ResidencyMetrics) (s : ResidencyState E) : ResidencyState E :=
  mkResidency (rs_entries s) (rs_heap s) (rs_next s) (rs_clock s) m.

Definition set_engine (engine : E) (e : ResidentModel E) : ResidentModel E :=
  mkResident (rm_record e) engine (rm_point e) (rm_active e) (rm_sessions e) (rm_retiring e)
    (rm_context_resident e) (rm_last_used e).

Definition set_active (n : N) (e : ResidentModel E) : ResidentModel E :=
  mkResident (rm_record e) (rm_engine e) (rm_point e) n (rm_sessions e) (rm_retiring e)
    (rm_context_resident e) (rm_last_used e).

Definition set_sessions (n : N) (e : ResidentModel E) : ResidentModel E :=
  mkResident (rm_record e) (rm_engine e) (rm_point e) (rm_active e) n (rm_retiring e)
    (rm_context_resident e) (rm_last_used e).

Definition set_retiring (e : ResidentModel E) : ResidentModel E :=
  mkResident (rm_record e) (rm_engine e) (rm_point e) (rm_active e) (rm_sessions e) true
    (rm_context_resident e) (rm_last_used e).

Definition set_context_resident (b : bool) (e : ResidentModel E) : ResidentModel E :=
  mkResident (rm_record e) (rm_engine e) (rm_point e) (rm_active e) (rm_sessions e) (rm_retiring e)
    b (rm_last_used e).

Definition set_last_used (n : N) (e : ResidentModel E) : ResidentModel E :=
  mkResident (rm_record e) (rm_engine e) (rm_point e) (rm_active e) (rm_sessions e) (rm_retiring e)
    (rm_context_resident e) n.

(** An atomic operation on a model, or a change under the lock. *)
Definition on_model (a : N) (h : ResidentModel E → ResidentModel E) : R unit :=
  modify (λ s, set_heap (alter h a (rs_heap s)) s).

Definition model_at (a : N) : R (ResidentModel E) :=
  e ← gets (λ s, rs_heap s !! a); expect e.

(** [entries.remove(&key)] *)
Definition remove_entry (key : Key) : R unit :=
  modify (λ s, set_entries (delete key (rs_entries s)) s).

(** The counters that only grow: loads, failures, reuses, unloads, reloads, context
    reloads; the spills saturate. *)
Definition count (loads failures reuses unloads reloads context_reloads spills : N) : R unit :=
  modify (λ s, let m := rs_metrics s in
    set_metrics (mkResidencyMetrics (wrapping_add (me_loads m) loads)
      (wrapping_add (me_load_failures m) failures) (wrapping_add (me_reuses m) reuses)
      (wrapping_add (me_unloads m) unloads) (wrapping_add (me_reloads m) reloads)
      (saturating_add (me_context_spills m) spills) (wrapping_add (me_context_reloads m) context_reloads)
      (me_device_bytes m) (me_host_bytes m) (me_storage_bytes m) (me_active_slots m) (me_sessions m)) s).

(** [state.clock = state.clock.wrapping_add(1); last_used.store(state.clock)] *)
Definition tick : R N :=
  s ← get;
  let clock := wrapping_add (rs_clock s) 1 in
  _ ← modify (λ s, mkResidency (rs_entries s) (rs_heap s) (rs_next s) clock (rs_metrics s));
  mret clock.

(** *** The models in the table *)

Definition resident_at (s : ResidencyState E) (a : N) : option (N * ResidentModel E) :=
  pair a <$> rs_heap s !! a.

Definition residents (s : ResidencyState E) : list (N * ResidentModel E) :=
  omap (resident_at s) (map_values (rs_entries s)).

Definition sum_of (f : ResidentModel E → N) (l : list (N * ResidentModel E)) : N :=
  list_sum (λ p, f p.2) l.

Definition refresh_metrics : R unit :=
  modify (λ s, let m := rs_metrics s in let l := residents s in
    let total f := (sum_of f l mod (u64_max + 1))%N in
    set_metrics (mkResidencyMetrics (me_loads m) (me_load_failures m) (me_reuses m) (me_unloads m)
      (me_reloads m) (me_context_spills m) (me_context_reloads m)
      (total (λ e, op_device_bytes (effective_point e)))
      (total (λ e, op_host_bytes (effective_point e)))
      (total (λ e, op_model_bytes (effective_point e)))
      (total rm_active) (total rm_sessions)) s).

Definition older (x y : N * ResidentModel E) : bool :=
  (rm_last_used x.2 <? rm_last_used y.2)%N
  || ((rm_last_used x.2 =? rm_last_used y.2)%N
      && (mr_epoch (rm_record x.2) <? mr_epoch (rm_record y.2))%N).

Fixpoint insert_lru (x : N * ResidentModel E) (l : list (N * ResidentModel E))
  : list (N * ResidentModel E) :=
  match l with
  | [] => [x]
  | y :: l' => if older y x then y :: insert_lru x l' else x :: l
  end.

(** [sort_by_key(|entry| (last_used, epoch))] *)
Definition sort_lru (l : list (N * ResidentModel E)) : list (N * ResidentModel E) :=
  foldr insert_lru [] l.

Definition idle (e : ResidentModel E) : bool := (rm_active e =? 0)%N && (rm_sessions e =? 0)%N.

(** ** Spilling *)

(** Spills the first idle model whose contexts are on the device, if any; whether
    it freed something. *)
Definition spill_one (candidates : list N) : R bool :=
  s ← get;
  match List.find (λ a, match rs_heap s !! a with Some e => rm_context_resident e | None => false end)
          candidates with
  | None => mret false
  | Some a =>
      e ← model_at a;
      let '(r, engine) := demote_inactive (rm_engine e) in
      _ ← on_model a (set_engine engine);
      spilled ← lift_result r;
      if (spilled =? 0)%N then mret false
      else
        _ ← on_model a (set_context_resident false);
        _ ← count 0 0 0 0 0 0 spilled;
        mret true
  end.

(** The loop of [load]: spill until the estimate fits or nothing is left to spill. *)
Fixpoint spill_loop (fuel : nat) (point : OperatingPoint) (candidates : list N) : R unit :=
  match fuel with
  | 0 => mret tt
  | S fuel' =>
      s ← get;
      if fits point (residents s).*2 then mret tt
      else
        more ← spill_one candidates;
        if (more : bool) then spill_loop fuel' point candidates else mret tt
  end.

(** The idle models to evict, oldest first: as few as make room. *)
Fixpoint pick_victims (point : OperatingPoint) (retained candidates : list (N * ResidentModel E))
    (victims : list N) : result ServerError.Error (list N) :=
  if fits point retained.*2 then Ok victims
  else
    match candidates with
    | [] => Err exhausted
    | v :: candidates' =>
        pick_victims point (filter (λ p, p.1 ≠ v.1) retained) candidates' (victims ++ [v.1])
    end.

(** The second locked section of [load]. *)
Definition choose_victims (point : OperatingPoint) (model_id : string) : R (list N) :=
  s ← get;
  let candidates := sort_lru (filter (λ p, idle p.2 = true ∧ mr_id (rm_record p.2) ≠ model_id) (residents s)) in
  _ ← spill_loop (S (length candidates)) point candidates.*1;
  s ← get;
  lift_result (pick_victims point (residents s) candidates []).

(** ** Loading *)

(** The first locked section: a model that is loaded already. *)
Definition find_resident (key : Key) : R (option N) :=
  s ← get;
  match rs_entries s !! key with
  | None => mret None
  | Some a =>
      clock ← tick;
      _ ← on_model a (set_last_used clock);
      _ ← count 0 0 1 0 0 0 0;
      mret (Some a)
  end.

Definition load_failed {A} (e : ServerError.Error) : R A := _ ← count 0 1 0 0 0 0 0; throw e.

(** A measurement never weakens the estimate. *)
Definition measured_point (point est : OperatingPoint) : OperatingPoint :=
  mkPoint (N.max (op_model_bytes point) (op_model_bytes est))
    (N.max (op_context_bytes point) (op_context_bytes est))
    (N.max (op_device_bytes point) (op_device_bytes est))
    (N.max (op_host_bytes point) (op_host_bytes est))
    (op_gpu_layers point) (op_model_layers point) (op_competent point).

Definition with_headroom (p : OperatingPoint) : OperatingPoint :=
  mkPoint (op_model_bytes p) (op_context_bytes p)
    (saturating_add (op_device_bytes p) (op_device_bytes p / 20)) (op_host_bytes p)
    (op_gpu_layers p) (op_model_layers p) (op_competent p).

(** The profile published for a measurement. *)
Definition profile_of (p : OperatingPoint) : MeasuredExecutionProfile :=
  mkProfile (op_model_bytes p) (op_device_bytes p) (op_host_bytes p) (op_context_bytes p) 0 0
    (op_device_bytes p / 20) (op_model_layers p) (op_competent p).

(** [publish]: what the catalogue answers, if there is one. *)
Definition publish_profile (publish : MeasuredExecutionProfile → option (result string unit))
    (p : OperatingPoint) : result ServerError.Error unit :=
  if (0 <? rc_gpu_layers config)%Z then Ok tt
  else
    match publish (profile_of p) with
    | Some (Err e) => Err (ServerError.State e)
    | _ => Ok tt
    end.

(** Evicts a chosen victim, unless it has become active. *)
Definition unload_victim (v : N) : R unit :=
  e ← model_at v;
  s ← get;
  match rs_entries s !! key_of e with
  | Some _ =>
      if (rm_active e =? 0)%N then
        _ ← remove_entry (key_of e);
        count 0 0 0 1 0 0 0
      else mret tt
  | None => mret tt
  end.

(** The third locked section. *)
Definition install (m : ModelRecord) (victims : list N) (engine : E) (measured point : OperatingPoint)
    (publish : MeasuredExecutionProfile → option (result string unit)) : R N :=
  s ← get;
  let key := (mr_id m, mr_epoch m) in
  match rs_entries s !! key with
  | Some a => _ ← count 0 0 1 0 0 0 0; mret a
  | None =>
      let victim_keys := omap (λ v, key_of <$> rs_heap s !! v) victims in
      let retained :=
        filter (λ p, key_of p.2 ∉ victim_keys ∨ rm_active p.2 ≠ 0%N) (residents s) in
      if negb (fits point retained.*2) then
        load_failed (ServerError.State "measured operating point exceeds residency capacity")
      else
        match publish_profile publish measured with
        | Err e => load_failed e
        | Ok _ =>
            _ ← for_each unload_victim victims;
            clock ← tick;
            s ← get;
            let a := rs_next s in
            _ ← modify (λ s, mkResidency (<[key := a]> (rs_entries s))
                  (<[a := mkResident m engine point 0 0 false true clock]> (rs_heap s))
                  (a + 1) (rs_clock s) (rs_metrics s));
            _ ← count 1 0 0 0 0 0 0;
            _ ← refresh_metrics;
            mret a
        end
  end.

(** What a load finds outside: the control before and after, the estimate, and the
    loaded engine with its measurement. *)
Record Loading : Type := mkLoading {
  ld_check : result ServerError.Error unit;
  ld_estimate : result ServerError.Error OperatingPoint;
  ld_loaded : result ServerError.Error (E * OperatingPoint);
  ld_check_after : result ServerError.Error unit;
  ld_publish : MeasuredExecutionProfile → option (result string unit);
}.

(** [load], when no other request comes between its locked sections. *)
Definition load (m : ModelRecord) (outside : Loading) : R N :=
  _ ← lift_result (ld_check outside);
  found ← find_resident (mr_id m, mr_epoch m);
  match found with
  | Some a => mret a
  | None =>
      est ← lift_result (ld_estimate outside);
      victims ← choose_victims est (mr_id m);
      match ld_loaded outside with
      | Err e => load_failed e
      | Ok (engine, point) =>
          let measured := measured_point point est in
          let point := with_headroom measured in
          match ld_check_after outside with
          | Err e => load_failed e
          | Ok _ =>
              if rc_require_competent config && negb (op_competent point) then
                load_failed (ServerError.State "executor operating point is below the competent floor")
              else install m victims engine measured point (ld_publish outside)
          end
      end
  end.

(** ** Using a model *)

(** Spills other idle models until the contexts of [target] fit again. *)
Fixpoint reload_loop (fuel : nat) (target : N) (point : OperatingPoint) (candidates : list N) : R unit :=
  s ← get;
  if fits point (filter (λ p, p.1 ≠ target) (residents s)).*2 then
    _ ← on_model target (set_context_resident true);
    count 0 0 0 0 0 1 0
  else
    match fuel with
    | 0 => throw exhausted
    | S fuel' =>
        more ← spill_one candidates;
        if (more : bool) then reload_loop fuel' target point candidates else throw exhausted
    end.

(** [acquire_entry] *)
Definition acquire_entry (target : N) : R bool :=
  e ← model_at target;
  s ← get;
  if negb (bool_decide (rs_entries s !! key_of e = Some target)) then mret false
  else
    let candidates :=
      sort_lru (filter (λ p, p.1 ≠ target ∧ idle p.2 = true ∧ rm_context_resident p.2 = true) (residents s)) in
    _ ← (if rm_context_resident e then mret tt
         else reload_loop (length candidates) target (rm_point e) candidates.*1);
    _ ← on_model target (λ e, set_active (wrapping_add (rm_active e) 1) e);
    clock ← tick;
    _ ← on_model target (set_last_used clock);
    _ ← refresh_metrics;
    mret true.

(** Unloads a retiring model that is no longer used. *)
Definition retire_if_idle (a : N) : R unit :=
  e ← model_at a;
  s ← get;
  _ ← (if rm_retiring e && idle e then
         match rs_entries s !! key_of e with
         | Some _ =>
             _ ← remove_entry (key_of e);
             count 0 0 0 1 0 0 0
         | None => mret tt
         end
       else mret tt);
  refresh_metrics.

(** [release_entry]: the counter first, then the lock. *)
Definition drop_active (a : N) : R unit := on_model a (λ e, set_active (usize_sub (rm_active e) 1) e).

Definition release_entry (a : N) : R unit := _ ← drop_active a; retire_if_idle a.

Definition add_session (a : N) : R unit := on_model a (λ e, set_sessions (wrapping_add (rm_sessions e) 1) e).

Definition drop_session_count (a : N) : R unit :=
  on_model a (λ e, set_sessions (usize_sub (rm_sessions e) 1) e).

(** Dropping a [ResidentSession]. *)
Definition drop_session (a : N) : R unit := _ ← drop_session_count a; retire_if_idle a.

(** [ResidentSession::acquire] *)
Definition lease (a : N) : R unit :=
  acquired ← acquire_entry a;
  guard_not (negb acquired)
    (ServerError.State "resident model disappeared while its session was suspended").

(** A quantum of a session; [inner] is what the engine's session does. *)
Definition session_quantum {A} (a : N) (inner : result ServerError.Error A) : R A :=
  _ ← lease a;
  _ ← release_entry a;
  lift_result inner.

(** The loop of [start_session]: load, and load again if the model was unloaded before
    it could be acquired. Each attempt finds its own answers outside; the list is
    long enough when the loop does not run out of it. *)
Fixpoint load_acquired (m : ModelRecord) (attempts : list Loading) : R N :=
  match attempts with
  | [] => panic
  | outside :: attempts' =>
      a ← load m outside;
      acquired ← acquire_entry a;
      if (acquired : bool) then mret a else load_acquired m attempts'
  end.

(** [start_session]; [inner] is the engine's answer. *)
Definition start_session (m : ModelRecord) (attempts : list Loading)
    (inner : result ServerError.Error unit) : R N :=
  a ← load_acquired m attempts;
  match inner with
  | Ok _ => _ ← add_session a; _ ← release_entry a; mret a
  | Err e => _ ← release_entry a; throw e
  end.

(** ** Epochs *)

(** One model of another epoch is retired, and unloaded if it is idle. *)
Definition retire_epoch (entry : Key * N) : R unit :=
  let '(key, a) := entry in
  _ ← on_model a set_retiring;
  e ← model_at a;
  if idle e then
    _ ← remove_entry key;
    count 0 0 0 1 1 0 0
  else mret tt.

Definition retire_other_epochs (m : ModelRecord) : R unit :=
  s ← get;
  _ ← for_each retire_epoch
        (filter (λ '(key, _), key.1 = mr_id m ∧ key.2 ≠ mr_epoch m) (map_to_list (rs_entries s)));
  refresh_metrics.

Definition retire_model (id : string) (epoch : N) : R unit :=
  s ← get;
  _ ← match rs_entries s !! (id, epoch) with
      | Some a =>
          _ ← on_model a set_retiring;
          e ← model_at a;
          if idle e then
            _ ← remove_entry (id, epoch);
            count 0 0 0 1 0 0 0
          else mret tt
      | None => mret tt
      end;
  refresh_metrics.

(** ** Reports *)

Definition metrics : R ResidencyMetrics := _ ← refresh_metrics; gets rs_metrics.

Definition model_status (e : ResidentModel E) : ResidentModelStatus :=
  mkResidentStatus (mr_id (rm_record e)) (mr_revision (rm_record e)) (mr_epoch (rm_record e))
    (rm_active e) (rm_sessions e) (rm_retiring e) (rm_context_resident e) (rm_last_used e) (rm_point e).

Fixpoint insert_status (x : ResidentModelStatus) (l : list ResidentModelStatus)
  : list ResidentModelStatus :=
  match l with
  | [] => [x]
  | y :: l' =>
      if String.ltb (st_id y) (st_id x)
         || (String.eqb (st_id y) (st_id x) && (st_epoch y <? st_epoch x)%N)
      then y :: insert_status x l' else x :: l
  end.

(** [sort_by_key(|status| (id, epoch))] *)
Definition status (s : ResidencyState E) : list ResidentModelStatus :=
  foldr insert_status [] ((λ p, model_status p.2) <$> residents s).
End residency.

Arguments Loading : clear implicits.
