(* ===== verification/ResidencyLaws.v ===== *)
(** What residency promises: the models in the table fit in the device and host
    budgets, whatever requests do between the locked sections of a load, and the
    victims of a load are the fewest least recently used models that make room. *)

From stdpp Require Import gmap strings list numbers.
From Stdlib Require Import Lia Sorting.Sorted.
From S2P Require Import Prelude Engine Lifecycle Admission Residency.

(** ** Sums of points *)

Lemma saturating_add_min a b : saturating_add a b = N.min (a + b) u64_max.
Proof. done. Qed.

Lemma fold_points l d h m :
  let t := foldl add_point (d, h, m) l in
  (N.min (d + list_sum op_device_bytes l) u64_max ≤ t.1.1
   ∧ N.min (h + list_sum op_host_bytes l) u64_max ≤ t.1.2)%N.
Proof.
  revert d h m. induction l as [|p l IH]; intros d h m; cbn zeta.
  - cbn. lia.
  - cbn [foldl add_point]. destruct (IH (saturating_add d (op_device_bytes p))
      (saturating_add h (op_host_bytes p)) (saturating_add m (op_model_bytes p))) as [Hd Hh].
    rewrite saturating_add_min in Hd at 1. rewrite saturating_add_min in Hh at 1.
    rewrite !list_sum_cons. split; (etrans; [|eassumption]); lia.
Qed.

Section laws.
Context {E : Type} `{!Spilling E}.
Variable config : ResidencyConfig.
Hypothesis device_small : (rc_device_bytes config < u64_max)%N.
Hypothesis host_small : (rc_host_bytes config < u64_max)%N.

Abbreviation device := (λ e : ResidentModel E, op_device_bytes (effective_point e)).
Abbreviation host := (λ e : ResidentModel E, op_host_bytes (effective_point e)).

Lemma list_sum_fmap {A B} (g : A → B) (f : B → N) l : list_sum f (g <$> l) = list_sum (λ x, f (g x)) l.
Proof. induction l as [|x l IH]; [done|]. by rewrite fmap_cons, !list_sum_cons, IH. Qed.

(** What fits is within the budgets. *)
Lemma fits_spec point (retained : list (N * ResidentModel E)) :
  fits config point retained.*2 = true →
  (op_device_bytes point + sum_of device retained ≤ rc_device_bytes config)%N
  ∧ (op_host_bytes point + sum_of host retained ≤ rc_host_bytes config)%N.
Proof.
  unfold fits, fits_with.
  pose proof (fold_points (effective_point <$> retained.*2) (op_device_bytes point)
    (op_host_bytes point) (op_model_bytes point)) as H.
  destruct (foldl add_point _ _) as [[d h] m]. destruct H as [Hsd Hsh]. cbn in Hsd, Hsh.
  rewrite !list_sum_fmap in Hsd, Hsh. unfold sum_of.
  intros [[Hd'%N.leb_le Hh'%N.leb_le]%andb_true_iff _]%andb_true_iff. lia.
Qed.

(** ** Totals over the table *)

Definition at_address (f : ResidentModel E → N) (h : gmap N (ResidentModel E)) (a : N) : N :=
  match h !! a with Some e => f e | None => 0%N end.

Definition total (f : ResidentModel E → N) (s : ResidencyState E) : N :=
  map_sum (at_address f (rs_heap s)) (rs_entries s).

Lemma map_sum_values {K A} `{Countable K} (f : A → N) (m : gmap K A) :
  map_sum f m = list_sum f (map_values m).
Proof.
  unfold map_sum, map_values. rewrite map_fold_foldr.
  induction (map_to_list m) as [|[k v] l IH]; [done|]. cbn [foldr fmap list_fmap]. rewrite list_sum_cons.
  by rewrite <- IH.
Qed.

Lemma sum_cons f p (l : list (N * ResidentModel E)) : sum_of f (p :: l) = (f p.2 + sum_of f l)%N.
Proof. done. Qed.

Lemma sum_filter (P : N * ResidentModel E → Prop) `{!∀ p, Decision (P p)} f s :
  sum_of f (filter P (residents s))
  = map_sum (λ a, match rs_heap s !! a with
                  | Some e => if decide (P (a, e)) then f e else 0%N
                  | None => 0%N
                  end) (rs_entries s).
Proof.
  rewrite map_sum_values. unfold residents. induction (map_values (rs_entries s)) as [|a l IH]; [done|].
  rewrite list_sum_cons, <- IH. cbn [omap list_omap]. unfold resident_at at 1.
  destruct (rs_heap s !! a) as [e|]; cbn [fmap option_fmap option_map]; [|done].
  rewrite list.filter_cons. by case_decide.
Qed.

Lemma sum_residents f s : sum_of f (residents s) = total f s.
Proof.
  unfold total. rewrite map_sum_values. unfold residents.
  induction (map_values (rs_entries s)) as [|a l IH]; [done|].
  rewrite list_sum_cons, <- IH. cbn [omap list_omap]. unfold resident_at at 1, at_address.
  by destruct (rs_heap s !! a).
Qed.

(** ** The invariant *)

(** The table is sound: each entry is a model filed under its key. *)
Definition table_ok (s : ResidencyState E) : Prop :=
  ∀ key a, rs_entries s !! key = Some a → ∃ e, rs_heap s !! a = Some e ∧ key_of e = key.

Record residency_ok (known : gset N) (s : ResidencyState E) : Prop := {
  ok_table : table_ok s;
  ok_known a : a ∈ known → is_Some (rs_heap s !! a);
  ok_fresh a : is_Some (rs_heap s !! a) → (a < rs_next s)%N;
  ok_device : (total device s ≤ rc_device_bytes config)%N;
  ok_host : (total host s ≤ rc_host_bytes config)%N;
}.

(** Only the table, the heap and the next address matter. *)
Lemma residency_ok_ext known s s' :
  rs_entries s' = rs_entries s → rs_heap s' = rs_heap s → rs_next s' = rs_next s →
  residency_ok known s → residency_ok known s'.
Proof.
  intros He Hh Hn [Ht Hk Hf Hd Hho]. split; unfold table_ok, total in *; by rewrite ?He, ?Hh, ?Hn.
Qed.

Lemma residency_ok_known known known' s :
  (∀ a, a ∈ known' → is_Some (rs_heap s !! a)) → residency_ok known s → residency_ok known' s.
Proof. intros H [????]. by split. Qed.

(** Entries only leave. *)
Lemma residency_ok_fewer known s m :
  m ⊆ rs_entries s → residency_ok known s → residency_ok known (set_entries m s).
Proof.
  intros Hsub [Ht Hk Hf Hd Hh].
  assert (∀ f, (total f (set_entries m s) ≤ total f s)%N) as Hle by (intros f; apply map_sum_subseteq; done).
  split; cbn; [|done|done|etrans; [apply Hle|done]..].
  intros key a Hl. apply Ht. by eapply lookup_weaken.
Qed.

(** A model changes so that it uses no more. *)
Lemma residency_ok_alter known s a h :
  (∀ e, rs_heap s !! a = Some e →
     key_of (h e) = key_of e ∧ (device (h e) ≤ device e)%N ∧ (host (h e) ≤ host e)%N) →
  residency_ok known s → residency_ok known (set_heap (alter h a (rs_heap s)) s).
Proof.
  intros Hh [Ht Hk Hf Hd Hho].
  assert (∀ f, (∀ e, rs_heap s !! a = Some e → f (h e) ≤ f e)%N →
            (total f (set_heap (alter h a (rs_heap s)) s) ≤ total f s)%N) as Hle.
  { intros f Hfe. apply map_sum_mono. intros k b _. unfold at_address. cbn.
    destruct (decide (b = a)) as [->|Hne]; [|by rewrite lookup_alter_ne].
    rewrite lookup_alter_eq. destruct (rs_heap s !! a) as [e|]; cbn; [by apply Hfe|lia]. }
  assert (∀ b, is_Some (alter h a (rs_heap s) !! b) ↔ is_Some (rs_heap s !! b)) as Hdom.
  { intros b. destruct (decide (b = a)) as [->|]; [rewrite lookup_alter_eq, fmap_is_Some|rewrite lookup_alter_ne]; done. }
  split; cbn.
  - intros key b Hl. destruct (Ht _ _ Hl) as (e & He & Hkey). cbn.
    destruct (decide (b = a)) as [->|]; [|rewrite lookup_alter_ne by done; eauto].
    rewrite lookup_alter_eq, He. exists (h e). split; [done|]. rewrite <- Hkey. by apply Hh.
  - intros b Hb. by apply Hdom, Hk.
  - intros b Hb%Hdom. by apply Hf.
  - etrans; [apply Hle; intros; by apply Hh|done].
  - etrans; [apply Hle; intros; by apply Hh|done].
Qed.

(** ** The operations preserve it *)

Abbreviation R := (M (ResidencyState E) ServerError.Error).

Definition preserves {A} (known : gset N) (m : R A) : Prop :=
  ∀ s, residency_ok known s → wp m (λ _ s', residency_ok known s') (λ _ s', residency_ok known s') s.

Lemma preserves_bind {A B} known (m : R A) (k : A → R B) :
  preserves known m → (∀ a, preserves known (k a)) → preserves known (m ≫= k).
Proof.
  intros Hm Hk s Hs. rewrite wp_bind. eapply wp_mono; [by apply Hm|cbn beta|done]. intros a s' Hs'. by apply Hk.
Qed.

Lemma preserves_ret {A} known (a : A) : preserves known (mret a).
Proof. intros s Hs. by rewrite wp_ret. Qed.

Lemma preserves_throw {A} known e : preserves (A := A) known (throw e).
Proof. intros s Hs. by rewrite wp_throw. Qed.

Lemma preserves_lift {A} known (r : result ServerError.Error A) : preserves known (lift_result r).
Proof. intros s Hs. rewrite wp_lift. by destruct r. Qed.

Lemma preserves_get {B} known (k : ResidencyState E → R B) :
  (∀ s, residency_ok known s → wp (k s) (λ _ s', residency_ok known s') (λ _ s', residency_ok known s') s) →
  preserves known (get ≫= k).
Proof. intros Hk s Hs. rewrite wp_bind, wp_get. by apply Hk. Qed.

Lemma preserves_count known a b c d e f g : preserves known (count a b c d e f g).
Proof. intros s Hs. unfold count. rewrite wp_modify. by eapply residency_ok_ext, Hs. Qed.

Lemma preserves_tick known : preserves known tick.
Proof.
  apply preserves_get. intros s Hs. rewrite wp_bind, wp_modify, wp_ret. by eapply residency_ok_ext, Hs.
Qed.

Lemma preserves_refresh known : preserves known refresh_metrics.
Proof. intros s Hs. unfold refresh_metrics. rewrite wp_modify. by eapply residency_ok_ext, Hs. Qed.

(** A change that the budgets do not see. *)
Definition unseen (h : ResidentModel E → ResidentModel E) : Prop :=
  ∀ e, key_of (h e) = key_of e ∧ (device (h e) ≤ device e)%N ∧ (host (h e) ≤ host e)%N.

Lemma unseen_refl h : (∀ e, rm_record (h e) = rm_record e ∧ rm_point (h e) = rm_point e
  ∧ rm_context_resident (h e) = rm_context_resident e) → unseen h.
Proof.
  intros H e. destruct (H e) as (Hr & Hp & Hc). unfold key_of, effective_point. by rewrite Hr, Hp, Hc.
Qed.

Lemma unseen_spilled : unseen (set_context_resident false).
Proof.
  intros e. split; [done|]. unfold effective_point, saturating_sub. cbn.
  destruct (rm_context_resident e); destruct (N.eqb_spec (op_device_bytes (rm_point e)) 0); cbn; lia.
Qed.

Lemma preserves_on_model known a h : unseen h → preserves known (on_model a h).
Proof.
  intros Hh s Hs. unfold on_model. rewrite wp_modify. apply residency_ok_alter; [|done]. intros e _. apply Hh.
Qed.

Lemma wp_model_at {B} known a (k : ResidentModel E → R B) (Q : B → ResidencyState E → Prop) Z s :
  residency_ok known s → a ∈ known → (∀ e, rs_heap s !! a = Some e → wp (k e) Q Z s) →
  wp (model_at a ≫= k) Q Z s.
Proof.
  intros Hs Ha Hk. unfold model_at. rewrite !wp_bind, wp_gets, wp_expect.
  destruct (ok_known _ _ Hs a Ha) as [e He]. rewrite He. by apply Hk.
Qed.

Lemma preserves_spill_one known candidates :
  (∀ a, a ∈ candidates → a ∈ known) → preserves known (spill_one candidates).
Proof.
  intros Hc. apply preserves_get. intros s Hs.
  destruct (List.find _ candidates) as [a|] eqn:Hf; [|by rewrite wp_ret].
  apply List.find_some in Hf as [Ha%list_elem_of_In _].
  eapply wp_model_at; [done|by apply Hc|]. intros e He.
  destruct (demote_inactive (rm_engine e)) as [r engine].
  eapply preserves_bind; [|intros _|exact Hs].
  - by apply preserves_on_model, unseen_refl.
  - eapply preserves_bind; [apply preserves_lift|]. intros spilled.
    case_match; [apply preserves_ret|]. eapply preserves_bind; [apply preserves_on_model, unseen_spilled|].
    intros _. eapply preserves_bind; [apply preserves_count|]. intros. apply preserves_ret.
Qed.

Lemma preserves_spill_loop known fuel point candidates :
  (∀ a, a ∈ candidates → a ∈ known) → preserves known (spill_loop config fuel point candidates).
Proof.
  intros Hc. induction fuel as [|fuel IH]; cbn [spill_loop]; [apply preserves_ret|].
  apply preserves_get. intros s Hs. case_match; [by rewrite wp_ret|].
  eapply preserves_bind; [by apply preserves_spill_one| |exact Hs].
  intros more. destruct more; [exact IH|apply preserves_ret].
Qed.

Lemma insert_lru_perm (x : N * ResidentModel E) l : insert_lru x l ≡ₚ x :: l.
Proof.
  induction l as [|y l IH]; cbn; [done|]. destruct (older y x); [|done]. rewrite IH. apply Permutation_swap.
Qed.

Lemma sort_lru_perm (l : list (N * ResidentModel E)) : sort_lru l ≡ₚ l.
Proof. induction l as [|x l IH]; [done|]. cbn. by rewrite insert_lru_perm, IH. Qed.

Lemma residents_elem s a (e : ResidentModel E) : (a, e) ∈ residents s → rs_heap s !! a = Some e.
Proof.
  unfold residents. intros (b & _ & Hb)%list_elem_of_omap. unfold resident_at in Hb.
  destruct (rs_heap s !! b) eqn:He; by simplify_eq/=.
Qed.

(** The candidates of a loop are models of the heap. *)
Lemma candidates_known (P : N * ResidentModel E → Prop) `{!∀ p, Decision (P p)} s a :
  a ∈ (sort_lru (filter P (residents s))).*1 → is_Some (rs_heap s !! a).
Proof.
  rewrite sort_lru_perm. intros ([b e] & -> & [_ Hin]%list_elem_of_filter)%list_elem_of_fmap.
  apply residents_elem in Hin. by exists e.
Qed.

Lemma pick_victims_elem point (retained candidates : list (N * ResidentModel E)) victims r v :
  pick_victims config point retained candidates victims = Ok r → v ∈ r → v ∈ victims ∨ v ∈ candidates.*1.
Proof.
  revert retained victims. induction candidates as [|c candidates IH]; intros retained victims; cbn.
  - case_match; [intros [= <-]; by left|done].
  - case_match; [intros [= <-]; by left|]. intros Hr Hv.
    destruct (IH _ _ Hr Hv) as [[H1|H1%list_elem_of_singleton]%elem_of_app|H1].
    + by left.
    + right. subst v. constructor.
    + right. by constructor.
Qed.

Lemma choose_ok known point id s :
  residency_ok known s →
  wp (choose_victims config point id)
    (λ victims s', residency_ok known s' ∧ ∀ v, v ∈ victims → is_Some (rs_heap s' !! v))
    (λ _ s', residency_ok known s') s.
Proof.
  intros Hs. unfold choose_victims. rewrite wp_bind, wp_get. cbn zeta.
  set (candidates := sort_lru _). rewrite wp_bind.
  assert (residency_ok (known ∪ list_to_set candidates.*1) s) as Hs'.
  { eapply residency_ok_known; [|exact Hs]. intros a [Ha|Ha]%elem_of_union; [by eapply ok_known|].
    apply elem_of_list_to_set in Ha. by eapply candidates_known. }
  eapply wp_mono; [apply (preserves_spill_loop (known ∪ list_to_set candidates.*1))|cbn beta|cbn beta].
  - intros a Ha. apply elem_of_union_r, elem_of_list_to_set, Ha.
  - exact Hs'.
  - intros _ s1 Hs1. rewrite wp_bind, wp_get, wp_lift.
    assert (residency_ok known s1) as Hok.
    { eapply residency_ok_known; [|exact Hs1]. intros a Ha. eapply ok_known; [exact Hs1|set_solver]. }
    destruct (pick_victims _ _ _ _ _) as [victims|e] eqn:Hp; [|done]. split; [done|].
    intros v Hv. eapply ok_known; [exact Hs1|]. destruct (pick_victims_elem _ _ _ _ _ _ Hp Hv) as [[]%elem_of_nil|Hc].
    apply elem_of_union_r, elem_of_list_to_set, Hc.
  - intros _ s1 Hs1. eapply residency_ok_known; [|exact Hs1]. intros a Ha. eapply ok_known; [exact Hs1|set_solver].
Qed.

(** *** Using a model *)

(** What spilling leaves alone: the table, and what each model is. *)
Definition fixed (e : ResidentModel E) : ModelRecord * OperatingPoint := (rm_record e, rm_point e).

Definition frozen (s s' : ResidencyState E) : Prop :=
  rs_entries s' = rs_entries s ∧ ∀ a, fixed <$> rs_heap s' !! a = fixed <$> rs_heap s !! a.

Lemma frozen_alter s a h :
  (∀ e, fixed (h e) = fixed e) → frozen s (set_heap (alter h a (rs_heap s)) s).
Proof.
  intros Hh. split; [done|]. intros b. cbn. destruct (decide (b = a)) as [->|]; [|by rewrite lookup_alter_ne].
  rewrite lookup_alter_eq. destruct (rs_heap s !! a); [cbn; by rewrite Hh|done].
Qed.

Lemma frozen_trans s s' s'' : frozen s s' → frozen s' s'' → frozen s s''.
Proof. intros [He Hh] [He' Hh']. split; [congruence|]. intros a. by rewrite Hh', Hh. Qed.

Lemma spill_one_frozen candidates s :
  wlp (spill_one candidates) (λ _ s', frozen s s') (λ _ s', frozen s s') s.
Proof.
  unfold spill_one. rewrite wp_bind, wp_get. destruct (List.find _ candidates) as [a|]; [|by rewrite wp_ret].
  unfold model_at. rewrite !wp_bind, wp_gets, wp_expect. destruct (rs_heap s !! a) as [e|]; [|done].
  destruct (demote_inactive (rm_engine e)) as [r engine]. unfold on_model, count. rewrite wp_bind, wp_modify.
  pose proof (frozen_alter s a (set_engine engine) ltac:(done)) as H1.
  rewrite wp_bind, wp_lift. destruct r as [spilled|]; [|exact H1]. case_match; [by rewrite wp_ret|].
  rewrite wp_bind, wp_modify, wp_bind, wp_modify, wp_ret.
  eapply frozen_trans; [exact H1|]. by apply (frozen_alter _ a (set_context_resident false)).
Qed.

Lemma wp_wlp {A} (m : R A) Q Z Q' Z' s :
  wp m Q Z s → wlp m Q' Z' s → wp m (λ a s', Q a s' ∧ Q' a s') (λ e s', Z e s' ∧ Z' e s') s.
Proof. unfold wp_gen. by destruct (m s). Qed.

(** The target is in the table with that point. *)
Definition holds_target (target : N) (key : Key) (point : OperatingPoint) (s : ResidencyState E) : Prop :=
  rs_entries s !! key = Some target
  ∧ ∃ e, rs_heap s !! target = Some e ∧ key_of e = key ∧ rm_point e = point.

Lemma holds_target_frozen target key point s s' :
  frozen s s' → holds_target target key point s → holds_target target key point s'.
Proof.
  intros [He Hh] (Hk & e & Hl & Hkey & Hp). split; [by rewrite He|]. specialize (Hh target).
  rewrite Hl in Hh. destruct (rs_heap s' !! target) as [e'|]; [|done]. cbn in Hh. unfold fixed in Hh.
  simplify_eq. exists e'. unfold key_of. split; [done|]. split; congruence.
Qed.

(** The total with the target's contexts back: its point and the other models. *)
Lemma total_resident (f : ResidentModel E → N) target key point s :
  table_ok s → holds_target target key point s →
  (total f (set_heap (alter (set_context_resident true) target (rs_heap s)) s)
   = at_address f (alter (set_context_resident true) target (rs_heap s)) target
     + sum_of f (filter (λ p, p.1 ≠ target) (residents s)))%N.
Proof.
  intros Ht (Hk & _). unfold total. cbn. rewrite sum_filter.
  rewrite (map_sum_delete _ _ _ _ Hk). f_equal. rewrite (map_sum_delete _ (rs_entries s) _ _ Hk).
  destruct (Ht _ _ Hk) as (e & He & Hkey). rewrite He, decide_False by (cbn; tauto). rewrite N.add_0_l.
  apply map_sum_ext. intros k b [Hne Hb]%lookup_delete_Some.
  destruct (Ht _ _ Hb) as (e' & He' & Hkey'). unfold at_address.
  assert (b ≠ target) as Hbt by (intros ->; congruence).
  rewrite lookup_alter_ne by done. rewrite He', decide_True; done.
Qed.

(** The contexts of the target come back where there is room for them. *)
Lemma resident_ok known target key point s :
  residency_ok known s → holds_target target key point s →
  fits config point (filter (λ p, p.1 ≠ target) (residents s)).*2 = true →
  residency_ok known (set_heap (alter (set_context_resident true) target (rs_heap s)) s).
Proof.
  intros Hs Hheld [Hd Hh]%fits_spec. destruct (proj2 Hheld) as (e & He & Hkey & Hp).
  pose proof (ok_table _ _ Hs) as Ht. set (s' := set_heap _ s).
  assert (∀ f, (total f s' = f (set_context_resident true e)
      + sum_of f (filter (λ p, p.1 ≠ target) (residents s)))%N) as Htotal.
  { intros f. unfold s'. rewrite (total_resident f target key point s Ht Hheld).
    unfold at_address. by rewrite lookup_alter_eq, He. }
  assert (∀ b, is_Some (rs_heap s' !! b) ↔ is_Some (rs_heap s !! b)) as Hdom.
  { intros b. cbn. destruct (decide (b = target)) as [->|];
      [rewrite lookup_alter_eq, fmap_is_Some|rewrite lookup_alter_ne]; done. }
  split.
  - intros k b Hb. destruct (Ht _ _ Hb) as (e' & He' & Hk'). cbn.
    destruct (decide (b = target)) as [->|]; [|rewrite lookup_alter_ne by done; eauto].
    rewrite lookup_alter_eq, He'. by eexists.
  - intros b Hb. by apply Hdom, (ok_known _ _ Hs).
  - intros b Hb%Hdom. by apply (ok_fresh _ _ Hs).
  - rewrite Htotal. unfold effective_point at 1. cbn. by rewrite Hp.
  - rewrite Htotal. unfold effective_point at 1. cbn. by rewrite Hp.
Qed.

Lemma reload_ok known target key point fuel candidates s :
  (∀ a, a ∈ candidates → a ∈ known) → residency_ok known s → holds_target target key point s →
  wp (reload_loop config fuel target point candidates)
    (λ _ s', residency_ok known s') (λ _ s', residency_ok known s') s.
Proof.
  intros Hc. revert s. induction fuel as [|fuel IH]; intros s Hs Hheld; cbn [reload_loop];
    rewrite wp_bind, wp_get; destruct (fits config point _) eqn:Hfits.
  2: { by rewrite wp_throw. }
  3: { rewrite wp_bind.
       eapply wp_mono; [eapply wp_wlp; [by apply preserves_spill_one|apply spill_one_frozen]|cbn beta|cbn beta; tauto].
       intros more s' [Hs' Hf]. destruct more; [|by rewrite wp_throw].
       apply IH; [done|]. by eapply holds_target_frozen. }
  all: rewrite wp_bind; unfold on_model; rewrite wp_modify; apply preserves_count.
  all: by eapply resident_ok.
Qed.

Lemma acquire_entry_ok known target : target ∈ known → preserves known (acquire_entry config target).
Proof.
  intros Htarget s Hs. unfold acquire_entry. eapply wp_model_at; [done..|]. intros e He.
  rewrite wp_bind, wp_get. case_bool_decide as Hkey; cbn [negb]; [|by rewrite wp_ret]. cbn zeta.
  set (candidates := sort_lru _).
  assert (∀ A (k : unit → R A) (m : R unit),
    wp m (λ _ s', residency_ok known s') (λ _ s', residency_ok known s') s →
    (∀ u, preserves known (k u)) →
    wp (m ≫= k) (λ _ s', residency_ok known s') (λ _ s', residency_ok known s') s) as Hbind.
  { intros A k m Hm Hk. rewrite wp_bind. eapply wp_mono; [exact Hm|cbn beta|done]. intros u s' Hs'. by apply Hk. }
  apply Hbind.
  - destruct (rm_context_resident e); [by rewrite wp_ret|].
    set (known' := known ∪ list_to_set candidates.*1).
    assert (residency_ok known' s) as Hs'.
    { eapply residency_ok_known; [|exact Hs]. intros a [Ha|Ha]%elem_of_union; [by eapply ok_known|].
      apply elem_of_list_to_set in Ha. by eapply candidates_known. }
    assert (∀ s', residency_ok known' s' → residency_ok known s') as Hless.
    { intros s' Hk. eapply residency_ok_known; [|exact Hk]. intros a Ha. eapply ok_known; [exact Hk|set_solver]. }
    eapply wp_mono; [apply (reload_ok known' target (key_of e) (rm_point e)); [|done|]|cbn beta; auto..].
    + intros a Ha. apply elem_of_union_r, elem_of_list_to_set, Ha.
    + split; [done|]. by exists e.
  - intros _. eapply preserves_bind; [by apply preserves_on_model, unseen_refl|]. intros _.
    eapply preserves_bind; [apply preserves_tick|]. intros clock.
    eapply preserves_bind; [by apply preserves_on_model, unseen_refl|]. intros _.
    eapply preserves_bind; [apply preserves_refresh|]. intros _. apply preserves_ret.
Qed.

(** *** Unloading *)

Lemma preserves_remove known key : preserves known (remove_entry key).
Proof.
  intros s Hs. unfold remove_entry. rewrite wp_modify. apply residency_ok_fewer; [apply delete_subseteq|done].
Qed.

Lemma preserves_unload known key a b : preserves known (_ ← remove_entry key; count 0 0 0 a b 0 0).
Proof. eapply preserves_bind; [apply preserves_remove|intros; apply preserves_count]. Qed.

Lemma preserves_retire_if_idle known a : a ∈ known → preserves known (retire_if_idle a).
Proof.
  intros Ha s Hs. unfold retire_if_idle. eapply wp_model_at; [done..|]. intros e He.
  rewrite wp_bind, wp_get. eapply preserves_bind; [|intros; apply preserves_refresh|exact Hs].
  destruct (_ && _); [|apply preserves_ret]. destruct (rs_entries s !! key_of e); [|apply preserves_ret].
  apply preserves_unload.
Qed.

Lemma preserves_retire_epoch known key a : a ∈ known → preserves known (retire_epoch (key, a)).
Proof.
  intros Ha. eapply preserves_bind; [by apply preserves_on_model, unseen_refl|]. intros _ s Hs.
  eapply wp_model_at; [done..|]. intros e He. revert s Hs He. intros s Hs _.
  destruct (idle e); [by apply preserves_unload|by rewrite wp_ret].
Qed.

Lemma preserves_for_each {A} known (f : A → R unit) l :
  (∀ x, x ∈ l → preserves known (f x)) → preserves known (for_each f l).
Proof.
  induction l as [|x l IH]; intros Hf; [apply preserves_ret|]. cbn [for_each].
  eapply preserves_bind; [apply Hf; constructor|]. intros _. apply IH. intros y Hy. apply Hf. by constructor.
Qed.

(** The addresses in the table. *)
Definition table_addresses (s : ResidencyState E) : gset N := list_to_set (map_values (rs_entries s)).

Lemma residency_ok_table known s : residency_ok known s → residency_ok (known ∪ table_addresses s) s.
Proof.
  intros Hs. eapply residency_ok_known; [|exact Hs]. intros a [Ha|Ha]%elem_of_union; [by eapply ok_known|].
  unfold table_addresses in Ha. apply elem_of_list_to_set in Ha. unfold map_values in Ha.
  apply list_elem_of_fmap in Ha as ([key b] & -> & Hb%elem_of_map_to_list).
  destruct (ok_table _ _ Hs _ _ Hb) as (e & He & _). by exists e.
Qed.

Lemma in_table key a s : rs_entries s !! key = Some a → a ∈ table_addresses s.
Proof.
  intros Hk. unfold table_addresses. apply elem_of_list_to_set. unfold map_values.
  apply list_elem_of_fmap. exists (key, a). split; [done|]. by apply elem_of_map_to_list.
Qed.

Lemma preserves_wider known known' {A} (m : R A) s :
  preserves (known ∪ known') m → residency_ok (known ∪ known') s →
  wp m (λ _ s', residency_ok known s') (λ _ s', residency_ok known s') s.
Proof.
  intros Hm Hs. assert (∀ s', residency_ok (known ∪ known') s' → residency_ok known s') as Hless.
  { intros s' Hk. eapply residency_ok_known; [|exact Hk]. intros a Ha. eapply ok_known; [exact Hk|set_solver]. }
  eapply wp_mono; [by apply Hm|cbn beta; auto..].
Qed.

Lemma preserves_retire_others known m : preserves known (retire_other_epochs m).
Proof.
  apply preserves_get. intros s Hs%residency_ok_table. eapply preserves_wider; [|exact Hs].
  eapply preserves_bind; [|intros; apply preserves_refresh]. apply preserves_for_each.
  intros [key a] [_ Hin%elem_of_map_to_list]%list_elem_of_filter.
  apply preserves_retire_epoch, elem_of_union_r. by eapply in_table.
Qed.

Lemma preserves_retire_model known id epoch : preserves known (retire_model id epoch).
Proof.
  apply preserves_get. intros s Hs%residency_ok_table. eapply preserves_wider; [|exact Hs].
  eapply preserves_bind; [|intros; apply preserves_refresh].
  destruct (rs_entries s !! (id, epoch)) as [a|] eqn:Ha; [|apply preserves_ret].
  eapply preserves_bind; [by apply preserves_on_model, unseen_refl|]. intros _ s' Hs'.
  eapply wp_model_at; [done|apply elem_of_union_r; by eapply in_table|]. intros e _.
  destruct (idle e); [by apply preserves_unload|by rewrite wp_ret].
Qed.

Lemma preserves_find_resident known key : preserves known (find_resident key).
Proof.
  apply preserves_get. intros s Hs. destruct (rs_entries s !! key); [|by rewrite wp_ret].
  eapply preserves_bind; [apply preserves_tick|intros clock|exact Hs].
  eapply preserves_bind; [by apply preserves_on_model, unseen_refl|]. intros _.
  eapply preserves_bind; [apply preserves_count|]. intros _. apply preserves_ret.
Qed.

(** *** Installing a loaded model *)

(** A victim is still what is stored under its key, or nothing is. *)
Definition victim_stored (s : ResidencyState E) (v : N) : Prop :=
  ∀ e, rs_heap s !! v = Some e →
    rs_entries s !! key_of e = Some v ∨ rs_entries s !! key_of e = None.

(** After the victims before [rest] have been visited. *)
Definition unloading (s : ResidencyState E) (victims rest : list N) (s' : ResidencyState E) : Prop :=
  rs_entries s' ⊆ rs_entries s ∧ rs_heap s' = rs_heap s ∧ rs_next s' = rs_next s
  ∧ ∀ v e, v ∈ victims → rs_heap s !! v = Some e → rm_active e = 0%N →
      v ∈ rest ∨ rs_entries s' !! key_of e = None.

Lemma unload_ok s victims v rest s' :
  is_Some (rs_heap s !! v) → unloading s victims (v :: rest) s' →
  wp (unload_victim v) (λ _ s'', unloading s victims rest s'') (λ _ _, False) s'.
Proof.
  intros [e He] (Hsub & Hheap & Hnext & Hdone). unfold unload_victim, model_at.
  rewrite !wp_bind, wp_gets, wp_expect, Hheap, He, wp_bind, wp_get.
  assert (∀ m', m' ⊆ rs_entries s' → (rm_active e = 0%N → m' !! key_of e = None) →
    ∀ w e', w ∈ victims → rs_heap s !! w = Some e' → rm_active e' = 0%N → w ∈ rest ∨ m' !! key_of e' = None)
    as Hnext'.
  { intros m' Hm' Hgone w e' Hw He' Ha. destruct (Hdone w e' Hw He' Ha) as [[->|Hin]%elem_of_cons|Hnone].
    - right. rewrite He in He'. simplify_eq. by apply Hgone.
    - by left.
    - right. eapply lookup_weaken_None; done. }
  destruct (rs_entries s' !! key_of e) as [b|] eqn:Hb.
  - destruct (N.eqb_spec (rm_active e) 0) as [Hz|Hz].
    + unfold remove_entry, count. rewrite wp_bind, !wp_modify. split_and!; [|done..|].
      * etrans; [apply delete_subseteq|done].
      * apply Hnext'; [apply delete_subseteq|]. intros _. cbn. apply lookup_delete_eq.
    + rewrite wp_ret. split_and!; [done..|]. by apply Hnext'.
  - rewrite wp_ret. split_and!; [done..|]. by apply Hnext'.
Qed.

(** The model that is stored, and the totals with it. *)
Lemma insert_ok known s m key e a :
  residency_ok known s → m ⊆ rs_entries s → m !! key = None → key_of e = key → a = rs_next s →
  (op_device_bytes (effective_point e) + map_sum (at_address device (rs_heap s)) m ≤ rc_device_bytes config)%N →
  (op_host_bytes (effective_point e) + map_sum (at_address host (rs_heap s)) m ≤ rc_host_bytes config)%N →
  ∀ s', rs_entries s' = <[key := a]> m → rs_heap s' = <[a := e]> (rs_heap s) → rs_next s' = (a + 1)%N →
  residency_ok ({[a]} ∪ known) s'.
Proof.
  intros Hs Hsub Hkey He -> Hd Hh s' Hentries Hheap Hnext.
  assert (rs_heap s !! rs_next s = None) as Hfree.
  { destruct (rs_heap s !! rs_next s) eqn:Hl; [|done]. pose proof (ok_fresh _ _ Hs (rs_next s) ltac:(eauto)). lia. }
  assert (∀ k b, m !! k = Some b → ∃ e', rs_heap s !! b = Some e' ∧ key_of e' = k ∧ b ≠ rs_next s) as Hm.
  { intros k b Hb. destruct (ok_table _ _ Hs k b) as (e' & He' & Hk'); [by eapply lookup_weaken|].
    exists e'. split_and!; [done..|]. intros ->. congruence. }
  assert (∀ f, (total f s' = f e + map_sum (at_address f (rs_heap s)) m)%N) as Htotal.
  { intros f. unfold total. rewrite Hentries, Hheap, map_sum_insert_None by done. f_equal.
    - unfold at_address. by rewrite lookup_insert_eq.
    - apply map_sum_ext. intros k b (e' & _ & _ & Hne)%Hm. unfold at_address. by rewrite lookup_insert_ne. }
  split.
  - intros k b. rewrite Hentries, Hheap. intros [[<- <-]|[_ Hb]]%lookup_insert_Some.
    + exists e. by rewrite lookup_insert_eq.
    + destruct (Hm _ _ Hb) as (e' & He' & Hk' & Hne). exists e'. by rewrite lookup_insert_ne.
  - intros b [->%elem_of_singleton|Hb]%elem_of_union; rewrite Hheap; [rewrite lookup_insert_eq; eauto|].
    apply lookup_insert_is_Some'. right. by eapply ok_known.
  - intros b. rewrite Hheap, Hnext. intros [<-|Hb]%lookup_insert_is_Some'; [lia|].
    pose proof (ok_fresh _ _ Hs b Hb). lia.
  - by rewrite Htotal.
  - by rewrite Htotal.
Qed.

(** What is left after the unloading was counted as retained. *)
Lemma remaining_retained f s (victims : list N) m :
  table_ok s → m ⊆ rs_entries s → (∀ v, v ∈ victims → is_Some (rs_heap s !! v) ∧ victim_stored s v) →
  (∀ v e, v ∈ victims → rs_heap s !! v = Some e → rm_active e = 0%N → m !! key_of e = None) →
  (map_sum (at_address f (rs_heap s)) m
   ≤ sum_of f (filter (λ p, key_of p.2 ∉ omap (λ v, key_of <$> rs_heap s !! v) victims
                            ∨ rm_active p.2 ≠ 0%N) (residents s)))%N.
Proof.
  intros Ht Hsub Hvictims Hgone. rewrite sum_filter. etrans; [|by apply map_sum_subseteq].
  apply map_sum_mono. intros k b Hb. unfold at_address.
  assert (rs_entries s !! k = Some b) as Hk by by eapply lookup_weaken.
  destruct (Ht _ _ Hk) as (e & He & Hkey). rewrite He. rewrite decide_True; [done|]. cbn.
  destruct (decide (rm_active e = 0%N)) as [Hz|]; [left|by right].
  intros (v & Hv & Hvk)%list_elem_of_omap. destruct (Hvictims v Hv) as [[e' He'] Hstored].
  rewrite He' in Hvk. apply (inj Some) in Hvk.
  destruct (Hstored e' He') as [Hs|Hs]; rewrite Hvk, Hkey in Hs; [|congruence].
  assert (b = v) as -> by congruence. assert (e' = e) as -> by congruence.
  pose proof (Hgone v e Hv He Hz) as Hnone. congruence.
Qed.

Lemma load_failed_ok {A} known e (Q : A → ResidencyState E → Prop) s :
  residency_ok known s → wp (load_failed e) Q (λ _ s', residency_ok known s') s.
Proof.
  intros Hs. unfold load_failed, count. rewrite wp_bind, wp_modify, wp_throw. by eapply residency_ok_ext, Hs.
Qed.

Lemma install_ok known m victims engine measured point publish s :
  residency_ok known s → (∀ v, v ∈ victims → is_Some (rs_heap s !! v) ∧ victim_stored s v) →
  wp (install config m victims engine measured point publish)
    (λ a s', residency_ok ({[a]} ∪ known) s') (λ _ s', residency_ok known s') s.
Proof.
  intros Hs Hvictims. unfold install. rewrite wp_bind, wp_get. cbn zeta.
  destruct (rs_entries s !! _) as [a|] eqn:Hkey.
  { unfold count. rewrite wp_bind, wp_modify, wp_ret.
    eapply residency_ok_ext with (s := s); [done..|]. eapply residency_ok_known; [|exact Hs].
    intros b [->%elem_of_singleton|Hb]%elem_of_union; [|by eapply ok_known].
    destruct (ok_table _ _ Hs _ _ Hkey) as (e & He & _). by exists e. }
  destruct (fits config point _) eqn:Hfits; cbn [negb]; [|by apply load_failed_ok].
  destruct (publish_profile _ _ _); [|by apply load_failed_ok]. apply fits_spec in Hfits as [Hd Hh].
  rewrite wp_bind. eapply wp_mono; [|cbn beta|].
  - apply (wp_for_each False unload_victim (λ rest s', unloading s victims rest s'
      ∧ ∀ v, v ∈ rest → v ∈ victims) (λ _ _, False)).
    + split; [|done]. split_and!; [done..|]. intros v e Hv _ _. by left.
    + intros v rest s' [Hu Hrest]. eapply wp_mono; [apply unload_ok, Hu|cbn beta|done].
      * by apply Hvictims, Hrest; constructor.
      * intros _ s'' Hu'. split; [done|]. intros w Hw. apply Hrest. by constructor.
  - intros _ s1 [(Hsub & Hheap & Hnext & Hgone) _]. unfold tick, count, refresh_metrics.
    wp_run. cbn [rs_next rs_entries rs_heap].
    set (new := mkResident m engine point 0 0 false true _).
    assert (rs_entries s1 !! (mr_id m, mr_epoch m) = None) as Hfree by by eapply lookup_weaken_None.
    assert (∀ v e, v ∈ victims → rs_heap s !! v = Some e → rm_active e = 0%N →
      rs_entries s1 !! key_of e = None) as Hgone'.
    { intros v e Hv He Hz. by destruct (Hgone v e Hv He Hz) as [[]%elem_of_nil|]. }
    pose proof (λ f, remaining_retained f s victims (rs_entries s1) (ok_table _ _ Hs) Hsub Hvictims Hgone')
      as Hleft.
    eapply (insert_ok known s (rs_entries s1) (mr_id m, mr_epoch m) new); cbn; try done; [..|by rewrite Hheap].
    + etrans; [|exact Hd]. apply N.add_le_mono_l, Hleft.
    + etrans; [|exact Hh]. apply N.add_le_mono_l, Hleft.
  - done.
Qed.

(** ** Interleaving *)

(** Requests run the locked sections and the atomic operations in any order. A load
    that has chosen its victims waits for its model. *)
Record System : Type := mkSystem {
  sy_state : ResidencyState E;
  sy_chosen : list (list N);
  sy_addresses : gset N;
}.

Inductive Action : Type :=
| AFind (key : Key)
| AChoose (point : OperatingPoint) (id : string)
| AInstall (m : ModelRecord) (victims : list N) (engine : E) (measured point : OperatingPoint)
    (publish : MeasuredExecutionProfile → option (result string unit))
| AFailed
| AAcquire (a : N)
| ADropActive (a : N)
| ARetireIfIdle (a : N)
| AAddSession (a : N)
| ADropSession (a : N)
| ARetireOthers (m : ModelRecord)
| ARetireModel (id : string) (epoch : N)
| AMetrics.

(** The operations that give nothing to remember. *)
Definition action (act : Action) : R unit :=
  match act with
  | AFailed => count 0 1 0 0 0 0 0
  | AAcquire a => _ ← acquire_entry config a; mret tt
  | ADropActive a => drop_active a
  | ARetireIfIdle a => retire_if_idle a
  | AAddSession a => add_session a
  | ADropSession a => drop_session_count a
  | ARetireOthers m => retire_other_epochs m
  | ARetireModel id epoch => retire_model id epoch
  | _ => _ ← metrics; mret tt
  end.

(** A request only uses models it was given. A load is modelled while nothing else
    has been loaded again under the key of one of its victims. *)
Definition allowed (s : System) (act : Action) : Prop :=
  match act with
  | AInstall _ victims _ _ _ _ =>
      victims ∈ sy_chosen s ∧ ∀ v, v ∈ victims → victim_stored (sy_state s) v
  | AAcquire a | ADropActive a | ARetireIfIdle a | AAddSession a | ADropSession a => a ∈ sy_addresses s
  | _ => True
  end.

#[export] Instance victim_stored_dec s v : Decision (victim_stored s v).
Proof.
  destruct (rs_heap s !! v) as [e|] eqn:He.
  - destruct (decide (rs_entries s !! key_of e = Some v ∨ rs_entries s !! key_of e = None)) as [H|H].
    + left. intros e' He'. by simplify_eq.
    + right. intros Hv. by apply H, Hv.
  - left. intros e' He'. by simplify_eq.
Defined.

#[export] Instance allowed_dec s act : Decision (allowed s act).
Proof.
  destruct act; cbn; try apply _.
  destruct (decide (victims ∈ sy_chosen s ∧ Forall (victim_stored (sy_state s)) victims)) as [H|H];
    rewrite list.Forall_forall in H; [by left|by right].
Defined.

Definition perform (s : System) (act : Action) : option System :=
  let keep o := (λ s', mkSystem s' (sy_chosen s) (sy_addresses s)) <$> o in
  match act with
  | AFind key =>
      match find_resident key (sy_state s) with
      | Done (Some a) s' => Some (mkSystem s' (sy_chosen s) ({[a]} ∪ sy_addresses s))
      | Done None s' | Fail _ s' => Some (mkSystem s' (sy_chosen s) (sy_addresses s))
      | Panic => None
      end
  | AChoose point id =>
      match choose_victims config point id (sy_state s) with
      | Done victims s' => Some (mkSystem s' (victims :: sy_chosen s) (sy_addresses s))
      | Fail _ s' => Some (mkSystem s' (sy_chosen s) (sy_addresses s))
      | Panic => None
      end
  | AInstall m victims engine measured point publish =>
      match install config m victims engine measured point publish (sy_state s) with
      | Done a s' => Some (mkSystem s' (sy_chosen s) ({[a]} ∪ sy_addresses s))
      | Fail _ s' => Some (mkSystem s' (sy_chosen s) (sy_addresses s))
      | Panic => None
      end
  | _ => keep (after (action act) (sy_state s))
  end.

Definition empty_residency : ResidencyState E := mkResidency ∅ ∅ 0 0 default_metrics.

Inductive reachable : System → Prop :=
| ReachStart : reachable (mkSystem empty_residency [] ∅)
| ReachStep s act s' : reachable s → allowed s act → perform s act = Some s' → reachable s'.

(** A run of actions, each of them allowed. *)
Fixpoint perform_all (s : System) (acts : list Action) : option System :=
  match acts with
  | [] => Some s
  | act :: acts' => if decide (allowed s act) then s' ← perform s act; perform_all s' acts' else None
  end.

Lemma reachable_perform_all s acts s' : reachable s → perform_all s acts = Some s' → reachable s'.
Proof.
  revert s. induction acts as [|act acts IH]; intros s Hs; cbn; [by intros [= <-]|].
  destruct (decide _) as [Ha|]; [|done]. destruct (perform s act) as [s1|] eqn:Hp; cbn; [|done].
  apply IH. by eapply ReachStep.
Qed.

Definition chosen_addresses (chosen : list (list N)) : gset N := list_to_set (concat chosen).

Definition system_ok (s : System) : Prop :=
  residency_ok (sy_addresses s ∪ chosen_addresses (sy_chosen s)) (sy_state s).

Lemma preserves_action s act :
  allowed s act → preserves (sy_addresses s ∪ chosen_addresses (sy_chosen s)) (action act).
Proof.
  intros Ha.
  assert (preserves (sy_addresses s ∪ chosen_addresses (sy_chosen s)) (_ ← metrics; mret tt)) as Hm.
  { eapply preserves_bind; [|intros; apply preserves_ret].
    eapply preserves_bind; [apply preserves_refresh|]. intros _ s1 Hs1. by rewrite wp_gets. }
  destruct act; cbn [action allowed] in *; try exact Hm.
  - apply preserves_count.
  - eapply preserves_bind; [by apply acquire_entry_ok, elem_of_union_l|intros; apply preserves_ret].
  - by apply preserves_on_model, unseen_refl.
  - by apply preserves_retire_if_idle, elem_of_union_l.
  - by apply preserves_on_model, unseen_refl.
  - by apply preserves_on_model, unseen_refl.
  - apply preserves_retire_others.
  - apply preserves_retire_model.
Qed.

(** A model that is found is in the heap. *)
Lemma find_resident_table key s :
  table_ok s →
  wp (find_resident key)
    (λ found s', match found with Some a => is_Some (rs_heap s' !! a) | None => True end) (λ _ _, True) s.
Proof.
  intros Ht. unfold find_resident. rewrite wp_bind, wp_get.
  destruct (rs_entries s !! key) as [a|] eqn:Ha; [|by rewrite wp_ret].
  destruct (Ht _ _ Ha) as (e & He & _). unfold tick, on_model, count. wp_run. cbn.
  rewrite lookup_alter_eq, He. by eexists.
Qed.

Lemma perform_ok s act :
  allowed s act → system_ok s → ∃ s', perform s act = Some s' ∧ system_ok s'.
Proof.
  intros Ha Hs. pose proof (preserves_action s act Ha (sy_state s) Hs) as Hact. unfold system_ok in Hs.
  set (known := sy_addresses s ∪ chosen_addresses (sy_chosen s)) in *.
  assert (∀ (m : R unit), wp m (λ _ s', residency_ok known s') (λ _ s', residency_ok known s') (sy_state s) →
    ∃ s', (λ s', mkSystem s' (sy_chosen s) (sy_addresses s)) <$> after m (sy_state s) = Some s' ∧ system_ok s') as Hkeep.
  { intros m Hm. unfold after, wp_gen in *. destruct (m (sy_state s)); [by eexists..|done]. }
  destruct act; cbn [perform]; try (apply Hkeep; exact Hact).
  - pose proof (preserves_find_resident known key (sy_state s) Hs) as H.
    pose proof (find_resident_table key (sy_state s) (ok_table _ _ Hs)) as Hfound.
    unfold wp_gen in H, Hfound. destruct (find_resident key (sy_state s)) as [[a|] s'|e s'|]; [|by eexists..|done].
    eexists. split; [done|]. eapply residency_ok_known; [|exact H]. cbn. intros b Hb.
    assert (b = a ∨ b ∈ known) as [->|Hb'] by set_solver; [exact Hfound|by eapply ok_known].
  - pose proof (choose_ok known point id (sy_state s) Hs) as H. unfold wp_gen in H.
    destruct (choose_victims _ _ _ _) as [victims s'|e s'|]; [|by eexists|done]. destruct H as [H Hv].
    eexists. split; [done|]. eapply residency_ok_known; [|exact H]. cbn. unfold chosen_addresses. cbn.
    intros b. rewrite elem_of_union, elem_of_list_to_set, elem_of_app. intros [Hb|[Hb|Hb]]; [|by apply Hv|].
    + eapply ok_known; [exact H|]. set_solver.
    + eapply ok_known; [exact H|]. apply elem_of_union_r, elem_of_list_to_set, Hb.
  - destruct Ha as [Hchosen Hstored].
    assert (∀ v, v ∈ victims → is_Some (rs_heap (sy_state s) !! v) ∧ victim_stored (sy_state s) v) as Hv.
    { intros v Hv. split; [|by apply Hstored]. eapply ok_known; [exact Hs|]. apply elem_of_union_r.
      apply elem_of_list_to_set, list_elem_of_In, in_concat. exists victims. by rewrite <- !list_elem_of_In. }
    pose proof (install_ok known m victims engine measured point publish (sy_state s) Hs Hv) as H.
    unfold wp_gen in H. destruct (install _ _ _ _ _ _ _ _) as [a s'|e s'|]; [|by eexists|done].
    eexists. split; [done|]. unfold system_ok. cbn. by rewrite <- (assoc_L (∪)).
Qed.

Lemma reachable_residency_ok s : reachable s → system_ok s.
Proof.
  induction 1 as [|s act s' _ IH Ha Hp].
  - split; cbn; [intros ? ? ?; by simplify_map_eq| | |apply N.le_0_l..].
    + intros a Ha. set_solver.
    + intros a [e He]. by simplify_map_eq.
  - destruct (perform_ok s act Ha IH) as (s'' & Hs'' & Hok). congruence.
Qed.

(** C26: the resident models fit, unless a victim comes back. However requests
    interleave between the locked sections of loads, as long as no load is installed
    while another model is in the table under the key of one of its victims, no operation
    panics, every entry of the table is a model filed under its identifier and epoch, the
    device bytes and the host bytes of all models in the table are within their budgets,
    and the metrics report these two exactly. The condition is needed: without it the
    code exceeds the budget ([ResidencyDemo.reloaded_victim_overcommits]). *)
Theorem residency_within_budget sys :
  reachable sys →
  let s := sy_state sys in
  table_ok s
  ∧ (total device s ≤ rc_device_bytes config)%N ∧ (total host s ≤ rc_host_bytes config)%N
  ∧ (∃ m s', metrics s = Done m s' ∧ me_device_bytes m = total device s ∧ me_host_bytes m = total host s)
  ∧ ∀ act, allowed sys act → perform sys act ≠ None.
Proof.
  intros Hr s. pose proof (reachable_residency_ok _ Hr) as Hok. pose proof Hok as [Ht _ _ Hd Hh].
  split_and!; [done..| |].
  - eexists _, _. split; [reflexivity|]. cbn. rewrite !sum_residents. split; apply N.mod_small.
    + fold s in Hd. lia.
    + fold s in Hh. lia.
  - intros act Ha. by destruct (perform_ok sys act Ha Hok) as (s' & -> & _).
Qed.

End laws.

(** ** Victims *)

Section victims.
Context {E : Type} `{!Spilling E}.
Variable config : ResidencyConfig.

Lemma older_trans (x y z : N * ResidentModel E) :
  older y x = false → older z y = false → older z x = false.
Proof.
  unfold older. rewrite !orb_false_iff, !andb_false_iff, !N.ltb_ge, !N.eqb_neq. lia.
Qed.

Definition by_age (x y : N * ResidentModel E) : Prop := older y x = false.

Lemma insert_lru_sorted x l : StronglySorted by_age l → StronglySorted by_age (insert_lru x l).
Proof.
  induction 1 as [|y l Hs IH Hy]; cbn; [repeat constructor|]. destruct (older y x) eqn:Hyx.
  - constructor; [done|]. assert (by_age y x) as Hle.
    { unfold by_age, older in *. apply orb_false_iff. rewrite andb_false_iff, N.ltb_ge, N.eqb_neq, N.ltb_ge.
      apply orb_true_iff in Hyx. rewrite andb_true_iff, !N.ltb_lt, N.eqb_eq in Hyx. lia. }
    rewrite insert_lru_perm. by constructor.
  - constructor; [by constructor|]. constructor; [done|]. eapply list.Forall_impl; [done|].
    intros z Hz. by eapply older_trans.
Qed.

Lemma sort_lru_sorted l : StronglySorted by_age (sort_lru l).
Proof. induction l as [|x l IH]; [constructor|]. by apply insert_lru_sorted. Qed.

Definition without (gone : list N) (l : list (N * ResidentModel E)) : list (N * ResidentModel E) :=
  filter (λ p, p.1 ∉ gone) l.

Lemma without_cons v gone l : without gone (filter (λ p, p.1 ≠ v) l) = without (v :: gone) l.
Proof.
  unfold without. rewrite list_filter_filter. apply list_filter_iff. intros p. rewrite not_elem_of_cons. tauto.
Qed.

Lemma pick_victims_spec point retained candidates victims r :
  pick_victims config point retained candidates victims = Ok r →
  ∃ n, r = victims ++ take n candidates.*1
    ∧ fits config point (without (take n candidates.*1) retained).*2 = true
    ∧ ∀ k, k < n → fits config point (without (take k candidates.*1) retained).*2 = false.
Proof.
  assert (∀ l, without [] l = l) as Hnil.
  { intros l. unfold without. induction l as [|p l IH]; [done|]. rewrite filter_cons_True by apply not_elem_of_nil. by f_equal. }
  revert retained victims. induction candidates as [|c candidates IH]; intros retained victims; cbn.
  all: destruct (fits config point retained.*2) eqn:Hf.
  1,3: intros [= <-]; exists 0; cbn; rewrite app_nil_r, Hnil; split; [done|]; split; [done|lia].
  - done.
  - intros (n & -> & Hn & Hk)%IH. exists (S n). cbn. rewrite <- without_cons. split; [by rewrite <- app_assoc|].
    split; [done|]. intros [|k] Hlt; [cbn; by rewrite Hnil|]. cbn. rewrite <- without_cons. apply Hk. lia.
Qed.

(** a load evicts as few models as possible, and the least recently used. The
    chosen victims are the first of the idle models of other identifiers, ordered
    by their last use; without them the model to load fits beside the models in the
    table, and with one of them fewer it would not. *)
Theorem victims_least_recent point id s victims s' :
  choose_victims config point id s = Done victims s' →
  ∃ candidates n,
    candidates ≡ₚ filter (λ p, idle p.2 = true ∧ mr_id (rm_record p.2) ≠ id) (residents s)
    ∧ StronglySorted by_age candidates
    ∧ victims = take n candidates.*1
    ∧ fits config point (without victims (residents s')).*2 = true
    ∧ ∀ k, k < n → fits config point (without (take k candidates.*1) (residents s')).*2 = false.
Proof.
  unfold choose_victims, mbind, M_bind, get. cbn zeta.
  set (candidates := sort_lru _). destruct (spill_loop _ _ _ _ s) as [[] s1|e s1|]; [|done..].
  destruct (pick_victims _ _ _ _ _) as [r|e] eqn:Hp; cbn; [|done]. intros [= <- <-].
  destruct (pick_victims_spec _ _ _ _ _ Hp) as (n & -> & Hn & Hk). exists candidates, n.
  split; [apply sort_lru_perm|]. split; [apply sort_lru_sorted|]. by split_and!.
Qed.
End victims.

(** ** A run *)

Module ResidencyDemo.

(** An engine that is the number of its idle contexts. *)
#[export] Instance contexts_spilling : Spilling N := λ n, (Ok n, 0%N).

Definition config : ResidencyConfig := mkResidencyConfig 0 100 1000 5 2048 0 false.

Definition model (id : string) (epoch : N) : ModelRecord := mkModel id "r" "" "" [] "gemma4" 40 epoch.

Definition point : OperatingPoint := mkPoint 40 5 0 45 0 1 true.

Definition loaded (contexts : N) : Loading N :=
  mkLoading (Ok tt) (Ok point) (Ok (contexts, point)) (Ok tt) (λ _, None).

Definition no_catalog (_ : MeasuredExecutionProfile) : option (result string unit) := None.

Definition install_model (id : string) (epoch : N) (victims : list N) : Action (E := N) :=
  AInstall (model id epoch) victims 1%N point point no_catalog.

(** Two models are loaded; a third is, and evicts the one that was used longest ago. *)
Definition three_models : list (Action (E := N)) :=
  [AFind ("a", 1%N); AChoose point "a"; install_model "a" 1 [];
   AChoose point "b"; install_model "b" 2 []; AAcquire 0%N; ADropActive 0%N; ARetireIfIdle 0%N;
   AChoose point "c"; install_model "c" 3 [1%N]; AMetrics].

Definition start : System (E := N) := mkSystem empty_residency [] ∅.

Definition final : System (E := N) := default start (perform_all config start three_models).

Example three_models_final :
  (rs_entries (sy_state final) !! ("b", 2%N), rs_entries (sy_state final) !! ("c", 3%N),
   me_host_bytes (rs_metrics (sy_state final)), me_unloads (rs_metrics (sy_state final)))
  = (None, Some 2%N, 85%N, 1%N).
Proof. by vm_compute. Qed.

(** A session starts on a model after a load has chosen it as a victim: the load
    evicts the model although the session exists, and the session's next quantum
    fails. *)
Definition session_meets_load : list (Action (E := N)) :=
  [AChoose point "a"; install_model "a" 1 []; AChoose point "b"; install_model "b" 2 [];
   AChoose point "c"; AFind ("a", 1%N); AAcquire 0%N; AAddSession 0%N; ADropActive 0%N;
   ARetireIfIdle 0%N; install_model "c" 3 [0%N]].

Definition evicted : System (E := N) := default start (perform_all config start session_meets_load).

Lemma session_evicted_by_load :
  perform_all config start session_meets_load = Some evicted
  ∧ rm_sessions <$> rs_heap (sy_state evicted) !! 0%N = Some 1%N
  ∧ rs_entries (sy_state evicted) !! ("a", 1%N) = None
  ∧ match session_quantum config 0%N (Ok tt) (sy_state evicted) with
    | Fail e _ => e = ServerError.State "resident model disappeared while its session was suspended"
    | _ => False
    end.
Proof. vm_compute. by repeat split. Qed.

(** Without the condition on victims. A victim is known by its key: the load of ["c"] takes
    the model that was loaded again under the key of its victim from the table although
    it is in use, and the load of ["e"] counts on the place of a model that it does not
    evict, because the victim that it chose is in use. Three models are in the table, with
    room for two. *)
Definition victims_reloaded : list (Action (E := N)) :=
  [AChoose point "a"; install_model "a" 1 []; AChoose point "b"; install_model "b" 2 [];
   AChoose point "c"; AChoose point "d"; install_model "d" 4 [0%N];
   AChoose point "a"; install_model "a" 1 [1%N]; AFind ("d", 4%N); AChoose point "e"; AAcquire 3%N;
   ARetireModel "d" 4; install_model "c" 3 [0%N];
   AChoose point "a"; install_model "a" 1 []; install_model "e" 5 [3%N]].

Definition unconditional (acts : list (Action (E := N))) : option (System (E := N)) :=
  foldl (λ s act, s ← s; perform config s act) (Some start) acts.

Example reloaded_victim_overcommits :
  match unconditional victims_reloaded with
  | Some s => (me_host_bytes (rs_metrics (sy_state s)), rc_host_bytes config, map_to_list (rs_entries (sy_state s)))
              = (135%N, 100%N, [("c", 3%N, 4%N); ("e", 5%N, 6%N); ("a", 1%N, 5%N)])
  | None => False
  end.
Proof. vm_compute. reflexivity. Qed.

(** Spilled contexts count as storage, but nothing checks the storage budget when
    the load that spilled them then fails. *)
Definition small_storage : ResidencyConfig := mkResidencyConfig 0 50 42 5 2048 0 false.

Lemma spilling_exceeds_storage :
  match perform_all small_storage start
          [AChoose point "a"; install_model "a" 1 []; AAcquire 0%N; AAddSession 0%N; ADropActive 0%N;
           ADropSession 0%N; AChoose point "b"; AMetrics] with
  | Some s => (rc_storage_bytes small_storage <? me_storage_bytes (rs_metrics (sy_state s)))%N = true
  | None => False
  end.
Proof. by vm_compute. Qed.
End ResidencyDemo.

#[local] Existing Instance ResidencyDemo.contexts_spilling.

Lemma residency_within_budget_witness :
  (total (λ e, op_host_bytes (effective_point e)) (sy_state ResidencyDemo.final)
   ≤ rc_host_bytes ResidencyDemo.config)%N.
Proof.
  apply (residency_within_budget ResidencyDemo.config) with (sys := ResidencyDemo.final);
    [reflexivity..|].
  apply reachable_perform_all with (s := ResidencyDemo.start) (acts := ResidencyDemo.three_models);
    [apply ReachStart|by vm_compute].
Defined.

Lemma victims_least_recent_witness :
  ∃ s', choose_victims ResidencyDemo.config ResidencyDemo.point "d" (sy_state ResidencyDemo.final)
          = Done [0%N] s'
    ∧ fits ResidencyDemo.config ResidencyDemo.point (without [0%N] (residents s')).*2 = true.
Proof.
  destruct (choose_victims _ _ _ _) as [victims s'|e s'|] eqn:Hc; [|by vm_compute in Hc..].
  assert (victims = [0%N]) as -> by (by vm_compute in Hc; simplify_eq).
  exists s'. split; [done|].
  apply (victims_least_recent ResidencyDemo.config ResidencyDemo.point "d") in Hc as (c & n & H).
  apply H.
Defined.
