(* ===== verification/Executor.v ===== *)
(** The safe executor ([crates/executor/src/lib.rs]): one native execution slot, its
    representations, samplers and checkpoints, behind status codes.

    The native library is behind the C interface [Abi]: a function of it takes the
    executor and gives a status, its outputs and the executor it leaves. A pointer
    that may be null is an option. Floating-point numbers are bit patterns. The
    reference counts of representations are the native library's own: a handle that
    is held stays valid. *)

From stdpp Require Import gmap strings list numbers.
From Stdlib Require Import Lia.
From S2P Require Import Prelude Text Inference Residency.

Module ExecError.

Inductive Error : Type :=
| InvalidPath
| Cancelled
| Incompatible
| RollbackFailed
| Backend (code : Z).

#[global] Instance Error_eq_dec : EqDecision Error.
Proof. solve_decision. Defined.

(** [OK], [INVALID], ... of the C interface. *)
Definition OK : Z := 0.
Definition INVALID : Z := 1.
Definition CANCELLED : Z := 4.
Definition INCOMPATIBLE : Z := 5.
Definition ROLLBACK_FAILED : Z := 6.
Definition BUFFER_TOO_SMALL : Z := 7.

Definition status (code : Z) : result Error unit :=
  if (code =? OK)%Z then Ok tt
  else if (code =? CANCELLED)%Z then Err Cancelled
  else if (code =? INCOMPATIBLE)%Z then Err Incompatible
  else if (code =? ROLLBACK_FAILED)%Z then Err RollbackFailed
  else Err (Backend code).
End ExecError.

(** ** Data *)

Record Capabilities : Type := mkCapabilities {
  ca_abi_version : N;
  ca_global_kv : bool;
  ca_swa : bool;
  ca_recurrent : bool;
  ca_vocabulary : Z;
  ca_mapped_execution : bool;
  ca_max_mappings : N;
  ca_training_context_tokens : N;
}.

(** The C struct: its flags are numbers. *)
Record RawCapabilities : Type := mkRawCapabilities {
  raw_abi_version : N;
  raw_has_global_kv : N;
  raw_has_swa : N;
  raw_has_recurrent : N;
  raw_n_vocab : Z;
  raw_has_mapped_execution : N;
  raw_max_mappings : N;
  raw_training_context_tokens : N;
}.

Record RawOperatingPoint : Type := mkRawPoint {
  rp_model_bytes : N;
  rp_context_bytes : N;
  rp_device_bytes : N;
  rp_host_bytes : N;
  rp_gpu_layers : Z;
  rp_model_layers : Z;
  rp_competent : N;
}.

Record Decode : Type := mkDecode {
  dc_logits : list N;
  dc_token : Z;
}.

Record RepresentationDescriptor : Type := mkDescriptor {
  ds_identity : N;
  ds_component_mask : N;
  ds_tier : N;
  ds_represented_position : N;
  ds_serialized_bytes : N;
  ds_completion_fence : N;
}.

Record MappingState : Type := mkMappingState {
  mst_bytes : list N;
  mst_position : N;
}.

Record MappingMetrics : Type := mkMappingMetrics {
  mm_active_identity : N;
  mm_resident_mappings : N;
  mm_reference_switches : N;
  mm_fork_bytes_copied : N;
  mm_export_bytes_copied : N;
  mm_import_bytes_copied : N;
  mm_total_bytes_copied : N;
  mm_graph_recaptures : option N;
}.

(** ** The C interface *)

Class Abi : Type := {
  CuscoExecutor : Type;
  CuscoRepresentation : Type;
  CuscoPreparedMapping : Type;
  CuscoSampler : Type;
  CuscoCheckpoint : Type;
  CuscoPreparedRestore : Type;
  representation_eq_dec :: EqDecision CuscoRepresentation;

  cusco_executor_open : string → N → Z → Z * option CuscoExecutor;
  cusco_executor_capabilities : CuscoExecutor → RawCapabilities;
  cusco_executor_model_architecture : CuscoExecutor → N → Z * (list N * N);
  cusco_executor_tokenize : string → CuscoExecutor → Z * list Z * CuscoExecutor;
  cusco_executor_render_token : Z → N → CuscoExecutor → Z * (list N * N) * CuscoExecutor;
  cusco_executor_token_is_eog : CuscoExecutor → Z → N;
  cusco_sampler_create :
    SamplingConfig → option string → CuscoExecutor → Z * option CuscoSampler * CuscoExecutor;
  cusco_sampler_sample : list N → CuscoSampler → Z * Z * CuscoSampler;
  cusco_executor_decode : list Z → CuscoExecutor → Z * (list N * Z) * CuscoExecutor;

  cusco_executor_capture : CuscoExecutor → Z * option CuscoCheckpoint * CuscoExecutor;
  cusco_checkpoint_size : CuscoCheckpoint → N;
  cusco_checkpoint_checksum : CuscoCheckpoint → N;
  cusco_executor_prepare_restore :
    CuscoCheckpoint → N → CuscoExecutor → Z * option CuscoPreparedRestore * CuscoExecutor;
  cusco_executor_commit_restore : CuscoPreparedRestore → CuscoExecutor → Z * unit * CuscoExecutor;

  cusco_executor_active_representation :
    CuscoExecutor → Z * option CuscoRepresentation * CuscoExecutor;
  cusco_representation_identity : CuscoRepresentation → N;
  cusco_representation_describe :
    CuscoRepresentation → CuscoExecutor → Z * RepresentationDescriptor * CuscoExecutor;
  cusco_executor_prepare_mapping_fork :
    CuscoRepresentation → CuscoExecutor → Z * option CuscoPreparedMapping * CuscoExecutor;
  cusco_executor_commit_mapping :
    CuscoPreparedMapping → CuscoExecutor → Z * option CuscoRepresentation * CuscoExecutor;
  cusco_executor_activate_mapping : CuscoRepresentation → CuscoExecutor → Z * unit * CuscoExecutor;
  cusco_executor_mapping_state_size : CuscoRepresentation → CuscoExecutor → N;
  cusco_executor_export_mapping :
    CuscoRepresentation → N → CuscoExecutor → Z * (list N * N * N) * CuscoExecutor;
  cusco_executor_import_mapping :
    list N → N → CuscoExecutor → Z * option CuscoRepresentation * CuscoExecutor;
  cusco_executor_active_mapping_identity : CuscoExecutor → N;
  cusco_executor_mapping_count : CuscoExecutor → N;
  cusco_executor_reference_switches : CuscoExecutor → N;
  cusco_executor_mapping_fork_bytes_copied : CuscoExecutor → N;
  cusco_executor_mapping_export_bytes_copied : CuscoExecutor → N;
  cusco_executor_mapping_import_bytes_copied : CuscoExecutor → N;
  cusco_executor_mapping_bytes_copied : CuscoExecutor → N;
  cusco_executor_graph_recaptures_supported : CuscoExecutor → N;
  cusco_executor_graph_recaptures : CuscoExecutor → N;

  cusco_executor_operating_point : CuscoExecutor → RawOperatingPoint;
  cusco_executor_replace_state_for_proof : list Z → CuscoExecutor → Z * unit * CuscoExecutor;
  cusco_executor_cancel_next_decode_for_proof : CuscoExecutor → CuscoExecutor;
  cusco_executor_cancel : CuscoExecutor → CuscoExecutor;
  cusco_executor_reset_cancel : CuscoExecutor → CuscoExecutor;
}.

(** ** Methods *)

Section executor.
Context `{HA : Abi}.

Abbreviation X := (M CuscoExecutor ExecError.Error).

Record RepresentationHandle : Type := mkHandle {
  rh_raw : CuscoRepresentation;
  rh_identity : N;
}.

(** [PartialEq] of handles. *)
Definition handle_eq (a b : RepresentationHandle) : bool :=
  (rh_identity a =? rh_identity b)%N && bool_decide (rh_raw a = rh_raw b).

Record Checkpoint : Type := mkCheckpoint {
  ck_raw : CuscoCheckpoint;
  ck_bytes : N;
  ck_checksum : N;
}.

(** A call of the C interface, [status(..)?] of what it answers. *)
Definition call {A} (f : CuscoExecutor → Z * A * CuscoExecutor) : X A := λ x,
  let '(code, a, x') := f x in
  match ExecError.status code with
  | Ok _ => Done a x'
  | Err e => Fail e x'
  end.

(** [NonNull::new(p).ok_or(Error::Backend(3))] *)
Definition non_null {A} (p : option A) : X A := ok_or p (ExecError.Backend 3).

(** [CString::new]: a string with a zero byte is refused. *)
Definition c_string (s : string) : option string :=
  if existsb (Ascii.eqb Ascii.zero) (String.list_ascii_of_string s) then None else Some s.

Definition open (path : string) (n_ctx : N) (gpu_layers : Z) : result ExecError.Error CuscoExecutor :=
  match c_string path with
  | None => Err ExecError.InvalidPath
  | Some path =>
      let '(code, p) := cusco_executor_open path n_ctx gpu_layers in
      _ ← ExecError.status code;
      match p with Some x => Ok x | None => Err (ExecError.Backend 3) end
  end.

Definition capabilities (x : CuscoExecutor) : Capabilities :=
  let c := cusco_executor_capabilities x in
  let flag n := negb (n =? 0)%N in
  mkCapabilities (raw_abi_version c) (flag (raw_has_global_kv c)) (flag (raw_has_swa c))
    (flag (raw_has_recurrent c)) (raw_n_vocab c) (flag (raw_has_mapped_execution c))
    (raw_max_mappings c) (raw_training_context_tokens c).

(** The bytes of the architecture; a buffer of 32 bytes is tried first. *)
Definition architecture_bytes (x : CuscoExecutor) : result ExecError.Error (list N) :=
  let '(code, (buffer, size)) := cusco_executor_model_architecture x 32 in
  let '(code, (buffer, size)) :=
    if (code =? ExecError.BUFFER_TOO_SMALL)%Z then cusco_executor_model_architecture x size
    else (code, (buffer, size)) in
  _ ← ExecError.status code;
  Ok (take (N.to_nat size) buffer).

Definition tokenize (text : string) : X (list Z) :=
  match c_string text with
  | None => throw ExecError.InvalidPath
  | Some text => call (cusco_executor_tokenize text)
  end.

(** [render_token] into a buffer of [capacity] bytes. *)
Definition render_token (token : Z) (capacity : N) : X (list N) :=
  x ← get;
  let '(code, (buffer, size), x') := cusco_executor_render_token token capacity x in
  _ ← modify (λ _, x');
  '(buffer, size) ←
    (if (code =? ExecError.BUFFER_TOO_SMALL)%Z then call (cusco_executor_render_token token size)
     else _ ← lift_result (ExecError.status code); mret (buffer, size));
  mret (take (N.to_nat size) buffer).

(** [token_to_piece] *)
Definition token_to_piece (token : Z) : X text :=
  buffer ← render_token token 32;
  mret (from_utf8_lossy buffer).

Definition operating_point (x : CuscoExecutor) : OperatingPoint :=
  let p := cusco_executor_operating_point x in
  mkPoint (rp_model_bytes p) (rp_context_bytes p) (rp_device_bytes p) (rp_host_bytes p)
    (rp_gpu_layers p) (rp_model_layers p) (negb (rp_competent p =? 0)%N).

(** [CancellationHandle::cancel] and [reset_cancellation] *)
Definition cancel : X unit := modify cusco_executor_cancel.
Definition reset_cancellation : X unit := modify cusco_executor_reset_cancel.

Definition replace_state_for_proof (tokens : list Z) : X unit :=
  call (cusco_executor_replace_state_for_proof tokens).

Definition cancel_next_decode_for_proof : X unit := modify cusco_executor_cancel_next_decode_for_proof.

Definition token_is_eog (x : CuscoExecutor) (token : Z) : bool :=
  negb (cusco_executor_token_is_eog x token =? 0)%N.

Definition sampler_with_grammar (config : SamplingConfig) (grammar : option string) : X CuscoSampler :=
  match grammar with
  | Some g =>
      match c_string g with
      | None => throw (ExecError.Backend ExecError.INVALID)
      | Some g => p ← call (cusco_sampler_create config (Some g)); non_null p
      end
  | None => p ← call (cusco_sampler_create config None); non_null p
  end.

Definition sampler (config : SamplingConfig) : X CuscoSampler := sampler_with_grammar config None.

Definition decode (tokens : list Z) : X Decode :=
  '(logits, token) ← call (cusco_executor_decode tokens);
  mret (mkDecode logits token).

(** [Sampler::sample] *)
Definition sample (sampler : CuscoSampler) (d : Decode) : result ExecError.Error Z * CuscoSampler :=
  let '(code, token, sampler') := cusco_sampler_sample (dc_logits d) sampler in
  match ExecError.status code with
  | Ok _ => (Ok token, sampler')
  | Err e => (Err e, sampler')
  end.

Definition capture_checkpoint : X Checkpoint :=
  p ← call cusco_executor_capture;
  raw ← non_null p;
  mret (mkCheckpoint raw (cusco_checkpoint_size raw) (cusco_checkpoint_checksum raw)).

Definition prepare_restore (checkpoint : Checkpoint) (checksum : N) : X CuscoPreparedRestore :=
  p ← call (cusco_executor_prepare_restore (ck_raw checkpoint) checksum);
  non_null p.

Definition commit_restore (prepared : CuscoPreparedRestore) : X unit :=
  call (cusco_executor_commit_restore prepared).

Definition handle (raw : CuscoRepresentation) : RepresentationHandle :=
  mkHandle raw (cusco_representation_identity raw).

Definition active_representation : X RepresentationHandle :=
  p ← call cusco_executor_active_representation;
  raw ← non_null p;
  mret (handle raw).

Definition prepare_mapping_fork (source : RepresentationHandle) : X CuscoPreparedMapping :=
  p ← call (cusco_executor_prepare_mapping_fork (rh_raw source));
  non_null p.

Definition commit_mapping (prepared : CuscoPreparedMapping) : X RepresentationHandle :=
  p ← call (cusco_executor_commit_mapping prepared);
  raw ← non_null p;
  mret (handle raw).

Definition activate_mapping (h : RepresentationHandle) : X unit :=
  call (cusco_executor_activate_mapping (rh_raw h)).

Definition describe_representation (h : RepresentationHandle) : X RepresentationDescriptor :=
  call (cusco_representation_describe (rh_raw h)).

Definition export_mapping (h : RepresentationHandle) : X MappingState :=
  x ← get;
  let size := cusco_executor_mapping_state_size (rh_raw h) x in
  '(bytes, written, position) ← call (cusco_executor_export_mapping (rh_raw h) size);
  mret (mkMappingState (take (N.to_nat written) bytes) position).

Definition import_mapping (state : MappingState) : X RepresentationHandle :=
  p ← call (cusco_executor_import_mapping (mst_bytes state) (mst_position state));
  raw ← non_null p;
  mret (handle raw).

Definition mapping_metrics (x : CuscoExecutor) : MappingMetrics :=
  mkMappingMetrics (cusco_executor_active_mapping_identity x) (cusco_executor_mapping_count x)
    (cusco_executor_reference_switches x) (cusco_executor_mapping_fork_bytes_copied x)
    (cusco_executor_mapping_export_bytes_copied x) (cusco_executor_mapping_import_bytes_copied x)
    (cusco_executor_mapping_bytes_copied x)
    (if (cusco_executor_graph_recaptures_supported x =? 0)%N then None
     else Some (cusco_executor_graph_recaptures x)).

(** Equality of logits, bit by bit. *)
Definition logits_identical (a b : list N) : bool :=
  (length a =? length b)%nat && forallb (λ p, (p.1 =? p.2)%N) (zip a b).
End executor.
