(* ===== verification/Mapped.v ===== *)
(** Mapped execution ([crates/server/src/mapped.rs]): sessions that evaluate their
    prompt from the longest prefix the context store knows, on a fork of the
    native mapping that holds it, publish every completed block as a new prefix, and
    spill the mappings that are not in use to files.

    [MappedState] is what the lock of the engine protects: the executor, the context
    store and the physical manager are the components of [Executor],
    [ContextStore] and [PhysicalManager], and [Mapped] lifts their methods. A
    quantum of a session holds the lock from its first access to its end, so that a
    step is one transition. What comes from outside is in [Quantum]: the answers of
    the request's control, whether the abort callback fires, and the clock. *)

From stdpp Require Import gmap strings list numbers pretty.
From Stdlib Require Import Lia.
From S2P Require Import Prelude TokenSequence ContextStore PhysicalManager Engine Lifecycle.
From S2P Require Import Inference Residency Executor.

Definition ADAPTER_EPOCH : N := 0.
Definition EXECUTION_SLOT : N := u64_max.

(** ** Errors *)

Definition context_message (e : ContextStore.Error) : string :=
  match e with
  | ContextStore.ContextNotFound => "logical context does not exist"
  | PrefixOutOfBounds => "represented prefix exceeds the token sequence"
  | IncompatibleEpoch => "evaluated prefix has incompatible model or adapter epochs"
  | IncompleteComponents => "evaluated prefix is incomplete"
  | InvalidDependency => "evaluated prefix dependency is invalid"
  | PublicationConflict => "context changed after publication was prepared"
  | MappingNotFound => "evaluated prefix does not exist"
  | IdentityConflict => "evaluated prefix identity conflicts with published content"
  end.

Definition physical_message (e : PMError.Error) : string :=
  match e with
  | PMError.RepresentationNotFound => "physical representation does not exist"
  | PMError.BindingNotFound => "active binding does not exist"
  | PMError.TransitionNotFound => "prepared transition does not exist"
  | PMError.TransferNotFound => "transfer does not exist"
  | PMError.GrowthReservationNotFound => "growth reservation does not exist"
  | PMError.DeviceCapacity => "device capacity is exhausted"
  | PMError.HostCapacity => "host capacity is exhausted"
  | PMError.InvalidComposite => "composite physical state is incomplete or inconsistent"
  | PMError.NoPromotionSource => "no source copy is available for promotion"
  | PMError.TransferPending => "transition still has incomplete transfers"
  | PMError.TransferFailed => "a transition transfer failed"
  | PMError.StaleRevision => "logical context revision changed"
  | PMError.Protected => "physical representation is protected by an owner"
  end.

Definition executor_message (e : ExecError.Error) : string :=
  match e with
  | ExecError.InvalidPath => "invalid path"
  | ExecError.Cancelled => "operation cancelled"
  | ExecError.Incompatible => "incompatible checkpoint"
  | ExecError.RollbackFailed => "restore failed and the prior binding could not be recovered"
  | ExecError.Backend code => "executor backend error " +:+ pretty code
  end.

(** [a.saturating_mul(b)] *)
Definition saturating_mul (a b : N) : N := N.min (a * b) u64_max.

(** ** Profiles *)

Module ProfileComponent.
Inductive t : Type := Kv | Swa | Recurrent.

Definition mask (c : t) : ComponentMask.t :=
  match c with
  | Kv => ComponentMask.GLOBAL_KV
  | Swa => ComponentMask.SWA
  | Recurrent => ComponentMask.RECURRENT
  end.

Definition component (c : t) : Component :=
  match c with
  | Kv => GlobalKv
  | Swa => SlidingWindow
  | Recurrent => PhysicalManager.Recurrent
  end.
End ProfileComponent.

Record ExecutionProfile : Type := mkExecutionProfile {
  xp_architecture : string;
  xp_block_size : N;
  xp_required_components : list ProfileComponent.t;
}.

Definition required_mask (p : ExecutionProfile) : ComponentMask.t :=
  foldl (λ mask c, ComponentMask.union mask (ProfileComponent.mask c)) ComponentMask.EMPTY
    (xp_required_components p).

Definition components (p : ExecutionProfile) : list Component :=
  ProfileComponent.component <$> xp_required_components p.

Definition validate_profile (p : ExecutionProfile) : result ServerError.Error unit :=
  if bool_decide (xp_architecture p = "") || (xp_block_size p =? 0)%N then
    Err (ServerError.State "invalid execution profile")
  else
    let required := required_mask p in
    if negb (ComponentMask.contains required ComponentMask.GLOBAL_KV)
       || negb (ComponentMask.contains required ComponentMask.SWA)
       || negb (ComponentMask.contains required ComponentMask.RECURRENT)
    then Err (ServerError.State "execution profile omits a required component")
    else Ok tt.

(** [bundled_for_architecture]; [catalog] is the bundled catalogue, parsed and
    checked against its schema. *)
Definition bundled_for_architecture (catalog : result string (list ExecutionProfile))
    (architecture : string) : result ServerError.Error ExecutionProfile :=
  match catalog with
  | Err e => Err (ServerError.State e)
  | Ok families =>
      match List.filter (λ p, bool_decide (xp_architecture p = architecture)) families with
      | [] => Err (ServerError.State ("unsupported model architecture: " +:+ architecture))
      | [profile] => _ ← validate_profile profile; Ok profile
      | _ => Err (ServerError.State
               ("multiple execution profiles for model architecture: " +:+ architecture))
      end
  end.

(** ** Files *)

(** Each call of the file system takes its outcome from a list; an exhausted list is
    success. A failed write may leave a part of the file. *)
Inductive IoOutcome : Type :=
| IoOk
| IoFailed (message : string) (partial : option (list N)).

(** The files of the spill directory, by name. *)
Record Disk : Type := mkDisk {
  dk_files : gmap string (list N);
  dk_io : list IoOutcome;
}.

Abbreviation D := (M Disk ServerError.Error).

Definition fs_call (succeeded : gmap string (list N) → gmap string (list N))
    (failed : option (list N) → gmap string (list N) → gmap string (list N)) : D unit := λ d,
  match dk_io d with
  | [] => Done tt (mkDisk (succeeded (dk_files d)) [])
  | IoOk :: rest => Done tt (mkDisk (succeeded (dk_files d)) rest)
  | IoFailed message partial :: rest =>
      Fail (ServerError.State message) (mkDisk (failed partial (dk_files d)) rest)
  end.

Definition no_such_file {A} : D A := throw (ServerError.State "No such file or directory").

Definition fs_write (name : string) (bytes : list N) : D unit :=
  fs_call <[name := bytes]>
    (λ partial files, match partial with Some bytes => <[name := bytes]> files | None => files end).

Definition fs_rename (from to : string) : D unit :=
  d ← get;
  match dk_files d !! from with
  | None => no_such_file
  | Some bytes => fs_call (λ files, <[to := bytes]> (delete from files)) (λ _ files, files)
  end.

Definition fs_read (name : string) : D (list N) :=
  _ ← fs_call (λ files, files) (λ _ files, files);
  d ← get;
  match dk_files d !! name with
  | None => no_such_file
  | Some bytes => mret bytes
  end.

Definition fs_remove_file (name : string) : D unit :=
  d ← get;
  match dk_files d !! name with
  | None => no_such_file
  | Some _ => fs_call (delete name) (λ _ files, files)
  end.

Definition ends_with (suffix s : string) : bool :=
  (String.length suffix <=? String.length s)
  && bool_decide (String.substring (String.length s - String.length suffix) (String.length suffix) s
                  = suffix).

(** One entry of the directory: its name, and whether it is a file. *)
Definition reset_entry (entry : string * bool) : D unit :=
  let '(name, is_file) := entry in
  _ ← fs_call (λ files, files) (λ _ files, files);
  _ ← fs_call (λ files, files) (λ _ files, files);
  if negb is_file then mret tt
  else if ends_with ".seq" name || ends_with ".seq.tmp" name then fs_remove_file name
  else mret tt.

(** [reset_spill_directory]; [entries] is what [read_dir] lists. *)
Definition reset_spill_directory (entries : list (string * bool)) : D unit :=
  _ ← fs_call (λ files, files) (λ _ files, files);
  _ ← fs_call (λ files, files) (λ _ files, files);
  for_each reset_entry entries.

Section mapped.
Context `{HS : Hasher} `{HA : Abi}.
Variable ptr_eq : SequenceChunk → SequenceChunk → bool.
(** [hex::encode] of a 32-byte identifier. *)
Variable hex_encode : N → string.

(** ** State *)

Record MappedMetrics : Type := mkMappedMetrics {
  mx_requests : N;
  mx_cache_hits : N;
  mx_cached_tokens : N;
  mx_decoded_tokens : N;
  mx_published_blocks : N;
  mx_reference_switches : N;
  mx_fork_bytes_copied : N;
  mx_export_bytes_copied : N;
  mx_import_bytes_copied : N;
  mx_total_bytes_copied : N;
  mx_graph_recaptures : option N;
}.

Definition default_mapped_metrics : MappedMetrics := mkMappedMetrics 0 0 0 0 0 0 0 0 0 0 None.

Record SpilledMapping : Type := mkSpilled {
  sp_path : string;
  sp_bytes : N;
  sp_position : N;
}.

Record ResidentMapping : Type := mkResidentMapping {
  rm_native : option RepresentationHandle;
  rm_spill : option SpilledMapping;
  rm_representations : list N;
  rm_continuation : Decode;
}.

Record MappedState : Type := mkMapped {
  ms_executor : CuscoExecutor;
  ms_root : RepresentationHandle;
  ms_logical : ContextStore;
  ms_physical : PhysicalManager;
  ms_model_epoch : N;
  ms_resident : gmap N ResidentMapping;
  ms_metrics : MappedMetrics;
  ms_spill_bytes : N;
  ms_disk : Disk;
}.

Record MappedEngine : Type := mkMappedEngine {
  en_profile : ExecutionProfile;
  en_model_path : string;
  en_context_capacity : N;
  en_spill_dir : option string;
  en_spill_capacity : N;
}.

Abbreviation W := (M MappedState ServerError.Error).

Definition set_executor (x : CuscoExecutor) (s : MappedState) : MappedState :=
  mkMapped x (ms_root s) (ms_logical s) (ms_physical s) (ms_model_epoch s) (ms_resident s)
    (ms_metrics s) (ms_spill_bytes s) (ms_disk s).

Definition set_logical (l : ContextStore) (s : MappedState) : MappedState :=
  mkMapped (ms_executor s) (ms_root s) l (ms_physical s) (ms_model_epoch s) (ms_resident s)
    (ms_metrics s) (ms_spill_bytes s) (ms_disk s).

Definition set_physical (p : PhysicalManager) (s : MappedState) : MappedState :=
  mkMapped (ms_executor s) (ms_root s) (ms_logical s) p (ms_model_epoch s) (ms_resident s)
    (ms_metrics s) (ms_spill_bytes s) (ms_disk s).

Definition set_resident (r : gmap N ResidentMapping) (s : MappedState) : MappedState :=
  mkMapped (ms_executor s) (ms_root s) (ms_logical s) (ms_physical s) (ms_model_epoch s) r
    (ms_metrics s) (ms_spill_bytes s) (ms_disk s).

Definition set_mapped_metrics (m : MappedMetrics) (s : MappedState) : MappedState :=
  mkMapped (ms_executor s) (ms_root s) (ms_logical s) (ms_physical s) (ms_model_epoch s)
    (ms_resident s) m (ms_spill_bytes s) (ms_disk s).

Definition set_spill_bytes (n : N) (s : MappedState) : MappedState :=
  mkMapped (ms_executor s) (ms_root s) (ms_logical s) (ms_physical s) (ms_model_epoch s)
    (ms_resident s) (ms_metrics s) n (ms_disk s).

Definition set_disk (d : Disk) (s : MappedState) : MappedState :=
  mkMapped (ms_executor s) (ms_root s) (ms_logical s) (ms_physical s) (ms_model_epoch s)
    (ms_resident s) (ms_metrics s) (ms_spill_bytes s) d.

(** A method of a component, its errors turned into [Error::State] of their text. *)
Definition lifted {S E A} (part : MappedState → S) (put : S → MappedState → MappedState)
    (wrap : E → ServerError.Error) (m : M S E A) : W A := λ s,
  match m (part s) with
  | Done a p => Done a (put p s)
  | Fail e p => Fail (wrap e) (put p s)
  | Panic => Panic
  end.

Definition on_executor {A} (m : M CuscoExecutor ExecError.Error A) : W A :=
  lifted ms_executor set_executor (λ e, ServerError.State (executor_message e)) m.

Definition on_logical {A} (m : StoreM A) : W A :=
  lifted ms_logical set_logical (λ e, ServerError.State (context_message e)) m.

Definition on_physical {A} (m : PMM A) : W A :=
  lifted ms_physical set_physical (λ e, ServerError.State (physical_message e)) m.

Definition on_disk {A} (m : D A) : W A := lifted ms_disk set_disk id m.

(** [let _ = m;] *)
Definition ignore {A} (m : W A) : W unit := λ s,
  match m s with
  | Done _ s' | Fail _ s' => Done tt s'
  | Panic => Panic
  end.

(** What is done before an error is passed on. *)
Definition on_error {A} (m : W A) (cleanup : W unit) : W A := λ s,
  match m s with
  | Done a s' => Done a s'
  | Fail e s' => match cleanup s' with Done _ s'' | Fail _ s'' => Fail e s'' | Panic => Panic end
  | Panic => Panic
  end.

(** [result.expect(..)] *)
Definition expect_ok {A} (m : W A) : W A := λ s,
  match m s with
  | Done a s' => Done a s'
  | _ => Panic
  end.

Definition update_metrics (f : MappedMetrics → MappedMetrics) : W unit :=
  modify (λ s, set_mapped_metrics (f (ms_metrics s)) s).

Definition add_decoded (n : N) (m : MappedMetrics) : MappedMetrics :=
  mkMappedMetrics (mx_requests m) (mx_cache_hits m) (mx_cached_tokens m)
    (wrapping_add (mx_decoded_tokens m) n) (mx_published_blocks m) (mx_reference_switches m)
    (mx_fork_bytes_copied m) (mx_export_bytes_copied m) (mx_import_bytes_copied m)
    (mx_total_bytes_copied m) (mx_graph_recaptures m).

Definition add_published (m : MappedMetrics) : MappedMetrics :=
  mkMappedMetrics (mx_requests m) (mx_cache_hits m) (mx_cached_tokens m) (mx_decoded_tokens m)
    (wrapping_add (mx_published_blocks m) 1) (mx_reference_switches m)
    (mx_fork_bytes_copied m) (mx_export_bytes_copied m) (mx_import_bytes_copied m)
    (mx_total_bytes_copied m) (mx_graph_recaptures m).

(** The metrics of a finished request. *)
Definition add_request (cached : N) (native : MappingMetrics) (m : MappedMetrics) : MappedMetrics :=
  mkMappedMetrics (wrapping_add (mx_requests m) 1)
    (wrapping_add (mx_cache_hits m) (if (cached =? 0)%N then 0 else 1))
    (wrapping_add (mx_cached_tokens m) cached) (mx_decoded_tokens m) (mx_published_blocks m)
    (mm_reference_switches native) (mm_fork_bytes_copied native) (mm_export_bytes_copied native)
    (mm_import_bytes_copied native) (mm_total_bytes_copied native) (mm_graph_recaptures native).

(** ** Opening *)

(** [open_at_epoch_with_spill]; [catalog] is the bundled profiles, [entries] what is in
    the spill directory, and [model_path] a path that is UTF-8. *)
Definition open_at_epoch_with_spill (catalog : result string (list ExecutionProfile))
    (entries : list (string * bool)) (architecture_text : list N → option string)
    (model_path : string) (n_ctx : N) (gpu_layers : Z) (device host model_epoch : N)
    (spill_dir : option string) (spill_capacity : N) : D (MappedEngine * MappedState) :=
  let state_error {A} (m : result ExecError.Error A) : D A :=
    match m with Ok a => mret a | Err e => throw (ServerError.State (executor_message e)) end in
  _ ← match spill_dir with Some _ => reset_spill_directory entries | None => mret tt end;
  x ← state_error (Executor.open model_path n_ctx gpu_layers);
  bytes ← state_error (architecture_bytes x);
  architecture ← state_error
    match architecture_text bytes with
    | Some text => Ok text
    | None => Err (ExecError.Backend ExecError.INCOMPATIBLE)
    end;
  profile ← lift_result (bundled_for_architecture catalog architecture);
  let c := capabilities x in
  _ ← guard_not (negb (ca_mapped_execution c) || negb (ca_global_kv c) || negb (ca_swa c)
                 || negb (ca_recurrent c))
        (ServerError.State "executor does not satisfy the execution profile");
  _ ← guard_not (ca_training_context_tokens c =? 0)%N
        (ServerError.State "executor did not report the model context capacity");
  '(root, x) ←
    match active_representation x with
    | Done root x' => mret (root, x')
    | Fail e _ => throw (ServerError.State (executor_message e))
    | Panic => panic
    end;
  d ← get;
  mret (mkMappedEngine profile model_path n_ctx spill_dir spill_capacity,
        mkMapped x root default_store (PhysicalManager.new (mkCapacity device host)) model_epoch ∅
          default_mapped_metrics 0 d).

(** [MappedEngine::open_at_epoch] and [MappedEngine::open] *)
Definition open_at_epoch catalog architecture_text model_path n_ctx gpu_layers device host model_epoch
  : D (MappedEngine * MappedState) :=
  open_at_epoch_with_spill catalog [] architecture_text model_path n_ctx gpu_layers device host
    model_epoch None 0.

Definition open_mapped catalog architecture_text model_path n_ctx gpu_layers device host
  : D (MappedEngine * MappedState) :=
  open_at_epoch catalog architecture_text model_path n_ctx gpu_layers device host 1.

(** ** Spilling *)

Definition spill_path (id : N) : string := hex_encode id +:+ ".seq".
Definition temporary_path (id : N) : string := hex_encode id +:+ ".seq.tmp".

Definition set_native (native : option RepresentationHandle) (r : ResidentMapping) : ResidentMapping :=
  mkResidentMapping native (rm_spill r) (rm_representations r) (rm_continuation r).

Definition set_spill (spill : option SpilledMapping) (r : ResidentMapping) : ResidentMapping :=
  mkResidentMapping (rm_native r) spill (rm_representations r) (rm_continuation r).

(** The mappings whose native state is not the active one; [order] is the order in
    which the map of the resident mappings is visited. *)
Definition spill_candidates (order : list N) (active : N) (resident : gmap N ResidentMapping)
  : list (N * RepresentationHandle) :=
  omap (λ id,
    r ← resident !! id;
    native ← rm_native r;
    if (rh_identity native =? active)%N then None else Some (id, native)) order.

(** One turn of the loop of [spill_inactive_mappings]; whether it spilled. *)
Definition spill_mapping (spill_capacity : N) (candidate : N * RepresentationHandle) : W bool :=
  let '(id, native) := candidate in
  mapping ← on_executor (export_mapping native);
  s ← get;
  let bytes := N.of_nat (length (mst_bytes mapping)) in
  if (spill_capacity <? saturating_add (ms_spill_bytes s) bytes)%N then mret false
  else
    _ ← on_disk (fs_write (temporary_path id) (mst_bytes mapping));
    _ ← on_disk (fs_rename (temporary_path id) (spill_path id));
    s ← get;
    r ← expect (ms_resident s !! id);
    _ ← for_each (λ representation, on_physical (demote_to_storage representation))
          (rm_representations r);
    _ ← modify (λ s, set_resident
          (<[id := set_spill (Some (mkSpilled (spill_path id) bytes (mst_position mapping)))
                     (set_native None r)]> (ms_resident s)) s);
    _ ← modify (λ s, set_spill_bytes (wrapping_add (ms_spill_bytes s) bytes) s);
    mret true.

Fixpoint spill_all (spill_capacity : N) (candidates : list (N * RepresentationHandle)) (spilled : N)
  : W N :=
  match candidates with
  | [] => mret spilled
  | candidate :: candidates' =>
      done ← spill_mapping spill_capacity candidate;
      spill_all spill_capacity candidates' (if (done : bool) then spilled + 1 else spilled)
  end.

Definition spill_inactive_mappings (en : MappedEngine) (order : list N) : W N :=
  match en_spill_dir en with
  | None => mret 0%N
  | Some _ =>
      s ← get;
      let active := mm_active_identity (mapping_metrics (ms_executor s)) in
      let candidates := spill_candidates order active (ms_resident s) in
      match candidates with
      | [] => mret 0%N
      | _ =>
          _ ← ignore (on_physical (release_binding EXECUTION_SLOT));
          spill_all (en_spill_capacity en) candidates 0
      end
  end.

(** ** Prefixes *)

Definition abort_quietly (transition : N) : W unit := ignore (on_physical (abort_transition transition)).

Definition activate_quietly (h : RepresentationHandle) : W unit :=
  ignore (on_executor (activate_mapping h)).

Definition identity_u32 (h : RepresentationHandle) : W N :=
  if (rh_identity h <=? u32_max)%N then mret (rh_identity h)
  else throw (ServerError.State "native representation identity exhausted").

(** The native mapping of a prefix, read back from its file if it was spilled. *)
Definition restore_native (r : ResidentMapping) : W RepresentationHandle :=
  match rm_native r with
  | Some native => mret native
  | None =>
      spilled ← ok_or (rm_spill r) (ServerError.State "mapping has neither native nor spilled state");
      bytes ← on_disk (fs_read (sp_path spilled));
      _ ← guard_not (negb (N.of_nat (length bytes) =? sp_bytes spilled)%N)
            (ServerError.State "spilled mapping size changed");
      on_executor (import_mapping (mkMappingState bytes (sp_position spilled)))
  end.

(** The mapping is native again: its file is gone. *)
Definition forget_spill (id : N) (native : RepresentationHandle) : W unit :=
  s ← get;
  r ← expect (ms_resident s !! id);
  spilled ← expect (rm_spill r);
  _ ← modify (λ s, set_resident (<[id := set_spill None r]> (ms_resident s)) s);
  _ ← ignore (on_disk (fs_remove_file (sp_path spilled)));
  _ ← modify (λ s, set_spill_bytes (saturating_sub (ms_spill_bytes s) (sp_bytes spilled)) s);
  s ← get;
  r ← expect (ms_resident s !! id);
  modify (λ s, set_resident (<[id := set_native (Some native) r]> (ms_resident s)) s).

Definition activate_prefix (context_id : N) (prefix : option EvaluatedPrefix) : W unit :=
  match prefix with
  | None => s ← get; on_executor (activate_mapping (ms_root s))
  | Some p =>
      s ← get;
      resident ← ok_or (ms_resident s !! ep_id p)
        (ServerError.State "logical mapping has no resident native mapping");
      let restored := bool_decide (rm_native resident = None) in
      native ← restore_native resident;
      s ← get;
      c ← ok_or (context context_id (ms_logical s))
        (ServerError.State "logical context disappeared");
      let revision := lc_revision c in
      previous ← on_executor active_representation;
      '(prepared, _, transfers) ←
        on_physical (prepare_transition EXECUTION_SLOT revision (ep_id p) (ep_represented_end p)
                       (ep_required_components p) (rm_representations resident) false);
      _ ← for_each (λ transfer,
            on_error (on_physical (complete_transfer transfer true)) (abort_quietly prepared)) transfers;
      _ ← on_error (on_executor (activate_mapping native)) (abort_quietly prepared);
      identity ← identity_u32 native;
      _ ← on_error (on_physical (commit_mapped_transition prepared revision identity))
            (activate_quietly previous);
      if (restored : bool) then forget_spill (ep_id p) native else mret tt
  end.

(** [snapshot_active_mapping] *)
Definition snapshot_active_mapping (active : RepresentationHandle) : W RepresentationHandle :=
  prepared ← on_executor (prepare_mapping_fork active);
  on_executor (commit_mapping prepared).

Definition fork_for_request_branch (source : RepresentationHandle) : W RepresentationHandle :=
  prepared ← on_executor (prepare_mapping_fork source);
  mapping ← on_executor (commit_mapping prepared);
  _ ← on_executor (activate_mapping mapping);
  mret mapping.

(** ** Publication *)

Definition release_representations (ids : list N) : W unit :=
  for_each (λ id, ignore (on_physical (release_logical_reference id))) ids.

(** The native mapping to fall back to: that of [parent], or the active one. *)
Definition fallback_mapping (parent : option N) : W RepresentationHandle :=
  s ← get;
  let native := id ← parent; r ← ms_resident s !! id; rm_native r in
  active ← on_executor active_representation;
  mret (default active native).

(** Registers one representation per component, in host memory. *)
Fixpoint register_components (mapping_id represented_end bytes : N) (rollback : RepresentationHandle)
    (todo : list Component) (registered : list N) : W (list N) :=
  match todo with
  | [] => mret registered
  | component :: todo' =>
      id ← on_error
        (on_physical (PhysicalManager.register mapping_id component (N.to_nat represented_end) bytes Host represented_end))
        (_ ← release_representations registered; activate_quietly rollback);
      register_components mapping_id represented_end bytes rollback todo' (registered ++ [id])
  end.

(** The bytes each component of a representation is charged with, if the device can
    hold them all beside what cannot be evicted. *)
Definition component_bytes (profile : ExecutionProfile) (serialized : N) (m : Metrics)
  : result ServerError.Error N :=
  let count := N.of_nat (length (xp_required_components profile)) in
  let overflow := ServerError.State "representation size overflow" in
  match checked_add serialized (saturating_sub count 1) with
  | None => Err overflow
  | Some sum =>
      if (count =? 0)%N then Err overflow
      else
        let per_component := (sum / count)%N in
        if (u64_max <? per_component * count)%N then Err overflow
        else
          let unavailable :=
            saturating_add (saturating_add (saturating_add (device_active m) (device_growth_reserved m))
              (device_transition_reserved m)) (device_detached_transfer_reserved m) in
          if (saturating_sub (device_total m) unavailable <? per_component * count)%N
          then Err (ServerError.State "device capacity cannot publish the completed block")
          else Ok per_component
  end.

Definition publish_block (profile : ExecutionProfile) (context_id represented_end : N)
    (parent : option N) (native : RepresentationHandle) (continuation : Decode) : W N :=
  let required := required_mask profile in
  let end_ := N.to_nat represented_end in
  descriptor ← on_executor (describe_representation native);
  s ← get;
  per_component ← lift_result
    (component_bytes profile (ds_serialized_bytes descriptor) (PhysicalManager.metrics (ms_physical s)));
  rollback ← fallback_mapping parent;
  publication ← on_logical (prepare_publication ptr_eq context_id end_ parent required required 0);
  _ ← on_logical (λ l, match validate_publication ptr_eq publication l with
                       | Ok _ => Done tt l
                       | Err e => Fail e l
                       end);
  let mapping_id := ep_id (pp_mapping publication) in
  s ← get;
  let existing := ms_resident s !! mapping_id in
  '(representations, registered) ←
    match existing with
    | Some r => mret (rm_representations r, [])
    | None =>
        ids ← register_components mapping_id represented_end per_component rollback (components profile) [];
        mret (ids, ids)
    end;
  let undo := (_ ← release_representations registered; activate_quietly rollback) in
  s ← get;
  c ← ok_or (context context_id (ms_logical s)) (ServerError.State "logical context disappeared");
  expected_revision ← ok_or (checked_add (lc_revision c) 1)
    (ServerError.State "logical context revision exhausted");
  '(transition, _, transfers) ←
    on_error (on_physical (prepare_transition EXECUTION_SLOT expected_revision mapping_id end_ required
                             representations false)) undo;
  _ ← for_each (λ transfer,
        on_error (on_physical (complete_transfer transfer true))
          (_ ← abort_quietly transition; undo)) transfers;
  let published_native := default native (existing ≫= rm_native) in
  identity ← identity_u32 published_native;
  _ ← on_error (on_physical (commit_mapped_transition transition expected_revision identity)) undo;
  mapping ← expect_ok (on_logical (commit_publication ptr_eq publication));
  _ ← match existing with
      | Some _ => mret tt
      | None =>
          _ ← modify (λ s, set_resident
                (<[ep_id mapping := mkResidentMapping (Some native) None representations continuation]>
                   (ms_resident s)) s);
          update_metrics add_published
      end;
  mret (ep_id mapping).

(** ** Sessions *)

Inductive MappedStage : Type :=
| StPreparation
| StPrefill
| StDecode
| StPublication
| StFinished.

Record MappedSession : Type := mkMappedSession {
  se_profile : ExecutionProfile;
  se_context_capacity : N;
  se_request : EngineRequest;
  se_stage : MappedStage;
  se_tokens : list Z;
  se_logical_context : option N;
  se_active_mapping : option RepresentationHandle;
  se_parent : option N;
  se_next : option Decode;
  se_sampler : option CuscoSampler;
  se_input_tokens : N;
  se_cached : N;
  se_evaluated_tokens : N;
  se_evaluated : N;
  se_generated : N;
  se_prefill : PrefillMetrics;
  se_finished : option EngineOutput;
}.

Definition new_session (profile : ExecutionProfile) (capacity : N) (request : EngineRequest)
  : MappedSession :=
  mkMappedSession profile capacity request StPreparation [] None None None None None 0 0 0 0 0
    default_prefill None.

(** What a quantum finds outside: the answers of the control, in order, when the
    abort callback fires, and the clock. *)
Record Quantum : Type := mkQuantum {
  q_check : nat → result ServerError.Error unit;
  q_interrupted : nat → bool;
  q_elapsed : nat → N;
}.

(** The engine's state and the session that runs. *)
Record Running : Type := mkRunning {
  rn_shared : MappedState;
  rn_session : MappedSession;
}.

Abbreviation S_ := (M Running ServerError.Error).

Definition shared {A} (m : W A) : S_ A := λ s,
  match m (rn_shared s) with
  | Done a w => Done a (mkRunning w (rn_session s))
  | Fail e w => Fail e (mkRunning w (rn_session s))
  | Panic => Panic
  end.

Definition session : S_ MappedSession := gets rn_session.

Definition update (f : MappedSession → MappedSession) : S_ unit :=
  modify (λ s, mkRunning (rn_shared s) (f (rn_session s))).

Definition check (q : Quantum) (n : nat) : S_ unit := lift_result (q_check q n).

(** The callback of [register_abort] cancels the native executor: it may fire as soon
    as it is registered, or later, before the tokens are evaluated. *)
Definition interruption (q : Quantum) (n : nat) : S_ unit :=
  if q_interrupted q n then shared (on_executor cancel) else mret tt.

Definition reset_cancellation : S_ unit := shared (on_executor Executor.reset_cancellation).

(** *** Field updates *)

Definition set_stage (stage : MappedStage) (s : MappedSession) : MappedSession :=
  mkMappedSession (se_profile s) (se_context_capacity s) (se_request s) stage (se_tokens s)
    (se_logical_context s) (se_active_mapping s) (se_parent s) (se_next s) (se_sampler s)
    (se_input_tokens s) (se_cached s) (se_evaluated_tokens s) (se_evaluated s) (se_generated s)
    (se_prefill s) (se_finished s).

Definition set_tokens (tokens : list Z) (s : MappedSession) : MappedSession :=
  mkMappedSession (se_profile s) (se_context_capacity s) (se_request s) (se_stage s) tokens
    (se_logical_context s) (se_active_mapping s) (se_parent s) (se_next s) (se_sampler s)
    (se_input_tokens s) (se_cached s) (se_evaluated_tokens s) (se_evaluated s) (se_generated s)
    (se_prefill s) (se_finished s).

(** What the lookup of the prefix leaves. *)
Definition set_prefix (cached uncached : N) (parent : option N) (next : option Decode)
    (s : MappedSession) : MappedSession :=
  mkMappedSession (se_profile s) (se_context_capacity s) (se_request s) (se_stage s) (se_tokens s)
    (se_logical_context s) (se_active_mapping s) parent next (se_sampler s) (se_input_tokens s)
    cached uncached cached (se_generated s) (se_prefill s) (se_finished s).

Definition set_active_mapping (active : option RepresentationHandle) (s : MappedSession)
  : MappedSession :=
  mkMappedSession (se_profile s) (se_context_capacity s) (se_request s) (se_stage s) (se_tokens s)
    (se_logical_context s) active (se_parent s) (se_next s) (se_sampler s) (se_input_tokens s)
    (se_cached s) (se_evaluated_tokens s) (se_evaluated s) (se_generated s) (se_prefill s)
    (se_finished s).

Definition set_logical_context (context_id : N) (s : MappedSession) : MappedSession :=
  mkMappedSession (se_profile s) (se_context_capacity s) (se_request s) (se_stage s) (se_tokens s)
    (Some context_id) (se_active_mapping s) (se_parent s) (se_next s) (se_sampler s)
    (se_input_tokens s) (se_cached s) (se_evaluated_tokens s) (se_evaluated s) (se_generated s)
    (se_prefill s) (se_finished s).

Definition set_parent (parent : N) (s : MappedSession) : MappedSession :=
  mkMappedSession (se_profile s) (se_context_capacity s) (se_request s) (se_stage s) (se_tokens s)
    (se_logical_context s) (se_active_mapping s) (Some parent) (se_next s) (se_sampler s)
    (se_input_tokens s) (se_cached s) (se_evaluated_tokens s) (se_evaluated s) (se_generated s)
    (se_prefill s) (se_finished s).

Definition set_next (next : Decode) (s : MappedSession) : MappedSession :=
  mkMappedSession (se_profile s) (se_context_capacity s) (se_request s) (se_stage s) (se_tokens s)
    (se_logical_context s) (se_active_mapping s) (se_parent s) (Some next) (se_sampler s)
    (se_input_tokens s) (se_cached s) (se_evaluated_tokens s) (se_evaluated s) (se_generated s)
    (se_prefill s) (se_finished s).

Definition set_sampler (sampler : option CuscoSampler) (s : MappedSession) : MappedSession :=
  mkMappedSession (se_profile s) (se_context_capacity s) (se_request s) (se_stage s) (se_tokens s)
    (se_logical_context s) (se_active_mapping s) (se_parent s) (se_next s) sampler
    (se_input_tokens s) (se_cached s) (se_evaluated_tokens s) (se_evaluated s) (se_generated s)
    (se_prefill s) (se_finished s).

Definition set_input_tokens (n : N) (s : MappedSession) : MappedSession :=
  mkMappedSession (se_profile s) (se_context_capacity s) (se_request s) (se_stage s) (se_tokens s)
    (se_logical_context s) (se_active_mapping s) (se_parent s) (se_next s) (se_sampler s) n
    (se_cached s) (se_evaluated_tokens s) (se_evaluated s) (se_generated s) (se_prefill s)
    (se_finished s).

Definition set_evaluated (n : N) (s : MappedSession) : MappedSession :=
  mkMappedSession (se_profile s) (se_context_capacity s) (se_request s) (se_stage s) (se_tokens s)
    (se_logical_context s) (se_active_mapping s) (se_parent s) (se_next s) (se_sampler s)
    (se_input_tokens s) (se_cached s) (se_evaluated_tokens s) n (se_generated s) (se_prefill s)
    (se_finished s).

Definition set_generated (n : N) (s : MappedSession) : MappedSession :=
  mkMappedSession (se_profile s) (se_context_capacity s) (se_request s) (se_stage s) (se_tokens s)
    (se_logical_context s) (se_active_mapping s) (se_parent s) (se_next s) (se_sampler s)
    (se_input_tokens s) (se_cached s) (se_evaluated_tokens s) (se_evaluated s) n (se_prefill s)
    (se_finished s).

Definition set_prefill (p : PrefillMetrics) (s : MappedSession) : MappedSession :=
  mkMappedSession (se_profile s) (se_context_capacity s) (se_request s) (se_stage s) (se_tokens s)
    (se_logical_context s) (se_active_mapping s) (se_parent s) (se_next s) (se_sampler s)
    (se_input_tokens s) (se_cached s) (se_evaluated_tokens s) (se_evaluated s) (se_generated s) p
    (se_finished s).

Definition set_finished (output : EngineOutput) (s : MappedSession) : MappedSession :=
  mkMappedSession (se_profile s) (se_context_capacity s) (se_request s) (se_stage s) (se_tokens s)
    (se_logical_context s) (se_active_mapping s) (se_parent s) (se_next s) (se_sampler s)
    (se_input_tokens s) (se_cached s) (se_evaluated_tokens s) (se_evaluated s) (se_generated s)
    (se_prefill s) (Some output).

Definition with_tokenization (ns : N) (p : PrefillMetrics) : PrefillMetrics :=
  mkPrefill (pf_total_tokens p) (pf_cached_tokens p) (pf_uncached_tokens p) ns
    (pf_prefix_lookup_ns p) (pf_mapping_activation_ns p) (pf_uncached_prefill_ns p) (pf_total_ns p)
    (pf_transfer_bytes p) (pf_device_bytes p) (pf_host_bytes p).

Definition with_lookup (ns : N) (p : PrefillMetrics) : PrefillMetrics :=
  mkPrefill (pf_total_tokens p) (pf_cached_tokens p) (pf_uncached_tokens p) (pf_tokenization_ns p) ns
    (pf_mapping_activation_ns p) (pf_uncached_prefill_ns p) (pf_total_ns p) (pf_transfer_bytes p)
    (pf_device_bytes p) (pf_host_bytes p).

Definition with_activation (ns total cached uncached : N) (p : PrefillMetrics) : PrefillMetrics :=
  mkPrefill total cached uncached (pf_tokenization_ns p) (pf_prefix_lookup_ns p) ns
    (pf_uncached_prefill_ns p) (pf_total_ns p) (pf_transfer_bytes p) (pf_device_bytes p)
    (pf_host_bytes p).

Definition with_uncached (ns : N) (p : PrefillMetrics) : PrefillMetrics :=
  mkPrefill (pf_total_tokens p) (pf_cached_tokens p) (pf_uncached_tokens p) (pf_tokenization_ns p)
    (pf_prefix_lookup_ns p) (pf_mapping_activation_ns p)
    (saturating_add (pf_uncached_prefill_ns p) ns) (pf_total_ns p) (pf_transfer_bytes p)
    (pf_device_bytes p) (pf_host_bytes p).

Definition with_totals (ns : N) (m : Metrics) (p : PrefillMetrics) : PrefillMetrics :=
  mkPrefill (pf_total_tokens p) (pf_cached_tokens p) (pf_uncached_tokens p) (pf_tokenization_ns p)
    (pf_prefix_lookup_ns p) (pf_mapping_activation_ns p) (pf_uncached_prefill_ns p) ns
    (transfer_bytes m) (device_total m) (host_used_metric m).

Definition update_prefill (f : PrefillMetrics → PrefillMetrics) : S_ unit :=
  update (λ s, set_prefill (f (se_prefill s)) s).

(** *** The quanta *)

Definition on_device (kind : QuantumKind) (charged cost : N) : QuantumObservation :=
  mkObservation kind charged "device" true cost 0.

(** A length as a [usize]. *)
Definition len {A} (l : list A) : N := N.of_nat (length l).

Definition prepare (q : Quantum) : S_ SessionStep :=
  _ ← check q 0;
  _ ← reset_cancellation;
  _ ← interruption q 0;
  s ← session;
  let request := se_request s in
  prompt ← shared (on_executor (tokenize (er_prompt request)));
  _ ← check q 1;
  _ ← update_prefill (with_tokenization (q_elapsed q 0));
  _ ← update (set_input_tokens (len prompt));
  total ← ok_or (sum ← checked_add (len (er_prior_tokens request)) (len prompt);
                 checked_add sum (er_max_tokens request))
            (ServerError.State "request token count overflow");
  _ ← guard_not (se_context_capacity s <? total)%N
        (ServerError.State "request exceeds model context capacity");
  let tokens := er_prior_tokens request ++ prompt in
  _ ← update (set_tokens tokens);
  w ← gets rn_shared;
  context_id ← shared (on_logical
    (create (append default_sequence tokens) (ms_model_epoch w) ADAPTER_EPOCH));
  prefix ← shared (on_logical (λ l, match longest_valid_prefix ptr_eq context_id l with
                                    | Ok p => Done p l
                                    | Err e => Fail e l
                                    end));
  _ ← update_prefill (with_lookup (q_elapsed q 1));
  let cached := match prefix with Some p => N.of_nat (ep_represented_end p) | None => 0%N end in
  let uncached := saturating_sub (len tokens) cached in
  w ← gets rn_shared;
  _ ← update (set_prefix cached uncached (ep_id <$> prefix)
        (rm_continuation <$> (p ← prefix; ms_resident w !! ep_id p)));
  let before := transfer_bytes (PhysicalManager.metrics (ms_physical w)) in
  _ ← shared (activate_prefix context_id prefix);
  source ← shared (on_executor active_representation);
  mapping ← shared (fork_for_request_branch source);
  _ ← update (set_active_mapping (Some mapping));
  w ← gets rn_shared;
  let after := transfer_bytes (PhysicalManager.metrics (ms_physical w)) in
  _ ← update (set_logical_context context_id);
  _ ← update_prefill (with_activation (q_elapsed q 2) (len tokens) cached uncached);
  _ ← update (set_stage StPrefill);
  mret (Progress (on_device Preparation 1 (saturating_sub after before))).

(** [activate_owned] *)
Definition activate_owned : S_ unit :=
  s ← session;
  mapping ← expect (se_active_mapping s);
  shared (on_executor (activate_mapping mapping)).

(** [&tokens[from..to]] *)
Definition slice (from to : N) (tokens : list Z) : option (list Z) :=
  if (from <=? to)%N && (to <=? len tokens)%N
  then Some (drop (N.to_nat from) (take (N.to_nat to) tokens)) else None.

(** A divisor: zero is a panic. *)
Definition divisor (n : N) : option N := if (n =? 0)%N then None else Some n.

(** Publishes the block that the evaluated tokens complete, if they complete one. *)
Definition publish_completed : S_ unit :=
  s ← session;
  _ ← expect (divisor (xp_block_size (se_profile s)));
  if (se_evaluated s mod xp_block_size (se_profile s) =? 0)%N then
    mapping ← expect (se_active_mapping s);
    snapshot ← shared (snapshot_active_mapping mapping);
    context_id ← expect (se_logical_context s);
    next ← expect (se_next s);
    id ← shared (publish_block (se_profile s) context_id (se_evaluated s) (se_parent s) snapshot next);
    update (set_parent id)
  else mret tt.

(** The native evaluation of tokens on the session's mapping, and its publication. *)
Definition evaluate_now (q : Quantum) (n : nat) (tokens : list Z) (evaluated : N) : S_ unit :=
  next ← shared (on_executor (Executor.decode tokens));
  _ ← update (set_next next);
  _ ← check q n;
  _ ← shared (update_metrics (add_decoded (len tokens)));
  _ ← update (set_evaluated evaluated);
  publish_completed.

Definition evaluate (q : Quantum) (n : nat) (tokens : list Z) (evaluated : N) : S_ unit :=
  _ ← interruption q n;
  evaluate_now q n tokens evaluated.

(** The end of the next quantum of the prefill. *)
Definition prefill_end (s : MappedSession) : N :=
  let block := xp_block_size (se_profile s) in
  let next_block := saturating_mul (se_evaluated s / block + 1) block in
  N.min (N.min (len (se_tokens s)) next_block)
    (saturating_add (se_evaluated s) (er_prefill_chunk_tokens (se_request s))).

Definition prefill (q : Quantum) : S_ SessionStep :=
  s ← session;
  let request := se_request s in
  if (len (se_tokens s) <=? se_evaluated s)%N then
    _ ← guard_not ((0 <? er_max_tokens request)%N && bool_decide (se_next s = None))
          (ServerError.State "an exact cached prefix cannot supply uncached logits");
    sampler ← shared (on_executor (sampler_with_grammar (er_sampling request) (er_grammar request)));
    _ ← update (set_sampler (Some sampler));
    _ ← update (set_stage StDecode);
    mret (Progress (model_free Prefill 1))
  else
    _ ← check q 0;
    _ ← reset_cancellation;
    _ ← interruption q 0;
    _ ← check q 1;
    _ ← activate_owned;
    _ ← expect (divisor (xp_block_size (se_profile s)));
    let end_ := prefill_end s in
    let charged := saturating_sub end_ (se_evaluated s) in
    batch ← expect (slice (se_evaluated s) end_ (se_tokens s));
    _ ← evaluate q 2 batch end_;
    _ ← update_prefill (with_uncached (q_elapsed q 0));
    mret (Progress (on_device Prefill (N.max charged 1) 0)).

(** [publish]: the session's mapping is left, and the request's figures recorded. *)
Definition publish (q : Quantum) : S_ EngineOutput :=
  s ← session;
  match se_finished s with
  | Some output => mret output
  | None =>
      _ ← check q 0;
      _ ← update (set_sampler None);
      _ ← match se_active_mapping s with
          | Some active =>
              _ ← update (set_active_mapping None);
              fallback ← shared (fallback_mapping (se_parent s));
              if handle_eq active fallback then mret tt
              else shared (on_executor (activate_mapping fallback))
          | None => mret tt
          end;
      w ← gets rn_shared;
      _ ← shared (update_metrics (add_request (se_cached s) (mapping_metrics (ms_executor w))));
      _ ← update_prefill (with_totals (q_elapsed q 0) (PhysicalManager.metrics (ms_physical w)));
      s ← session;
      let output := mkOutput (se_tokens s) (se_input_tokens s) (se_cached s) (se_evaluated_tokens s)
                      (se_prefill s) in
      _ ← update (set_finished output);
      _ ← update (set_stage StFinished);
      mret output
  end.

Definition finished_step (q : Quantum) : S_ SessionStep := output ← publish q; mret (Finished output).

(** [decode]; the checks are numbered after those of the publication. *)
Definition decode (q : Quantum) : S_ SessionStep :=
  s ← session;
  let request := se_request s in
  if (er_max_tokens request <=? se_generated s)%N then
    _ ← update (set_stage StPublication);
    finished_step q
  else
    _ ← check q 0;
    _ ← reset_cancellation;
    _ ← interruption q 0;
    _ ← check q 1;
    _ ← activate_owned;
    sampler ← expect (se_sampler s);
    next ← expect (se_next s);
    let '(sampled, sampler) := sample sampler next in
    _ ← update (set_sampler (Some sampler));
    sampled ← shared (on_executor (lift_result sampled));
    w ← gets rn_shared;
    let terminal_or_control := token_is_eog (ms_executor w) sampled in
    piece ← (if terminal_or_control then mret []
             else shared (on_executor (render_token sampled 32)));
    _ ← check q 2;
    _ ← update (set_tokens (se_tokens s ++ [sampled]));
    context_id ← expect (se_logical_context s);
    _ ← shared (on_logical (append_context context_id [sampled]));
    let generated := wrapping_add (se_generated s) 1 in
    _ ← update (set_generated generated);
    _ ← (if terminal_or_control || (generated =? er_max_tokens request)%N
         then update (set_stage StPublication)
         else evaluate q 3 [sampled] (wrapping_add (se_evaluated s) 1));
    mret (Token sampled piece terminal_or_control (on_device Engine.Decode 1 0)).

(** [ExecutionSession::step] and [finish] *)
Definition step (q : Quantum) : S_ SessionStep :=
  s ← session;
  match se_stage s with
  | StPreparation => prepare q
  | StPrefill => prefill q
  | StDecode => decode q
  | StPublication => finished_step q
  | StFinished => output ← expect (se_finished s); mret (Finished output)
  end.

Definition finish (q : Quantum) : S_ EngineOutput := publish q.

(** Dropping a session. *)
Definition drop_session (s : MappedSession) : W unit :=
  match se_active_mapping s with
  | None => mret tt
  | Some active =>
      w ← get;
      let native := id ← se_parent s; r ← ms_resident w !! id; rm_native r in
      let fallback := default (ms_root w) native in
      if handle_eq active fallback then mret tt else activate_quietly fallback
  end.

(** [start_session]; [view] is the control when it is checked. *)
Definition start_session (en : MappedEngine) (request : EngineRequest)
    (view : result ServerError.Error unit) : result ServerError.Error MappedSession :=
  _ ← view;
  if (er_prefill_chunk_tokens request =? 0)%N then
    Err (ServerError.State "prefill chunk size must be nonzero")
  else if negb (bool_decide (mr_path (er_model request) = en_model_path en)) then
    Err (ServerError.State "mapped execution admits only a resident process-owned model")
  else Ok (new_session (en_profile en) (en_context_capacity en) request).

(** The accessors of the engine: [metrics], [profile], [model_path],
    [model_architecture] and [operating_point]. *)
Definition metrics (w : MappedState) : MappedMetrics := ms_metrics w.
Definition engine_profile (en : MappedEngine) : ExecutionProfile := en_profile en.
Definition model_path (en : MappedEngine) : string := en_model_path en.
Definition model_architecture (en : MappedEngine) : string := xp_architecture (en_profile en).
Definition operating_point (w : MappedState) : OperatingPoint := Executor.operating_point (ms_executor w).

(** [demote_inactive] *)
Definition demote_inactive := spill_inactive_mappings.
End mapped.
