(* ===== verification/PhysicalRoom.v ===== *)
(** How many identifiers and clock ticks the methods of the physical manager draw:
    what a caller must have left for them not to run out. *)

From stdpp Require Import gmap strings list numbers.
From Stdlib Require Import Lia.
From S2P Require Import Prelude TokenSequence ContextStore PhysicalManager PhysicalLaws.

(** A method that draws at most [n] identifiers and [k] ticks. *)
Definition draws {A} (n k : N) (m : PMM A) : Prop := ∀ s,
  wlp m
    (λ _ s', pm_next_id s' ≤ pm_next_id s + n ∧ pm_clock s' ≤ pm_clock s + k)%N
    (λ _ s', pm_next_id s' ≤ pm_next_id s + n ∧ pm_clock s' ≤ pm_clock s + k)%N s.

Abbreviation quiet := (draws 0 0).

Create HintDb draws.

Lemma draws_bind {A B} n k n' k' (m : PMM A) (f : A → PMM B) :
  draws n k m → (∀ a, draws n' k' (f a)) → draws (n + n') (k + k') (a ← m; f a).
Proof.
  intros Hm Hf s. specialize (Hm s). unfold wp_gen, mbind, M_bind in *.
  destruct (m s) as [a s1|e s1|]; [|lia|done]. specialize (Hf a s1). unfold wp_gen in Hf.
  destruct (f a s1); [lia..|done].
Qed.

Lemma draws_weaken {A} n k n' k' (m : PMM A) :
  draws n k m → (n ≤ n')%N → (k ≤ k')%N → draws n' k' m.
Proof. intros Hm ? ? s. specialize (Hm s). unfold wp_gen in *. destruct (m s); [lia..|done]. Qed.

Lemma draws_then {A B} n k (m : PMM A) (f : A → PMM B) :
  draws n k m → (∀ a, quiet (f a)) → draws n k (a ← m; f a).
Proof. intros Hm Hf. rewrite <- (N.add_0_r n), <- (N.add_0_r k). by apply draws_bind. Qed.

Lemma quiet_bind {A B} (m : PMM A) (f : A → PMM B) :
  quiet m → (∀ a, quiet (f a)) → quiet (a ← m; f a).
Proof. apply (draws_bind 0 0 0 0). Qed.

Lemma quiet_same {A} (m : PMM A) :
  (∀ s, match m s with
        | Done _ s' | Fail _ s' => pm_next_id s' = pm_next_id s ∧ pm_clock s' = pm_clock s
        | Panic => True
        end) → quiet m.
Proof. intros Hm s. specialize (Hm s). unfold wp_gen. destruct (m s); [..|done]; lia. Qed.

Lemma quiet_ret {A} (a : A) : quiet (mret a).
Proof. by apply quiet_same. Qed.

Lemma quiet_get : quiet get.
Proof. by apply quiet_same. Qed.

Lemma quiet_panic {A} : quiet (panic (A := A)).
Proof. by apply quiet_same. Qed.

Lemma quiet_throw {A} e : quiet (throw (A := A) e).
Proof. by apply quiet_same. Qed.

Lemma quiet_modify f :
  (∀ s, pm_next_id (f s) = pm_next_id s ∧ pm_clock (f s) = pm_clock s) → quiet (modify f).
Proof. intros Hf. by apply quiet_same. Qed.

Lemma quiet_ok_or {A} (o : option A) e : quiet (ok_or o e).
Proof. destruct o; [apply quiet_ret|apply quiet_throw]. Qed.

Lemma quiet_expect {A} (o : option A) : quiet (expect o).
Proof. destruct o; [apply quiet_ret|apply quiet_panic]. Qed.

Lemma quiet_guard b e : quiet (guard_not b e).
Proof. destruct b; [apply quiet_throw|apply quiet_ret]. Qed.

Lemma quiet_lift {A} (r : result PMError.Error A) : quiet (lift_result r).
Proof. destruct r; [apply quiet_ret|apply quiet_throw]. Qed.

Lemma quiet_for_each {A} (f : A → PMM unit) l : (∀ x, quiet (f x)) → quiet (for_each f l).
Proof.
  intros Hf. induction l as [|x l IH]; cbn; [apply quiet_ret|]. apply quiet_bind; [apply Hf|done].
Qed.

#[export] Hint Resolve quiet_ret quiet_get quiet_panic quiet_throw quiet_ok_or quiet_expect
  quiet_guard quiet_lift : draws.

(** A method that is quiet because all of its parts are. *)
Ltac solve_quiet :=
  repeat first
    [ solve [auto with draws]
    | apply quiet_bind; [|intros ?]
    | apply quiet_for_each; intros ?
    | apply quiet_modify; intros []; split; reflexivity
    | match goal with
      | |- draws _ _ (match ?x with _ => _ end) => destruct x
      end ].

Section quiet_methods.
Implicit Types (id : N).

Lemma quiet_count c : quiet (count c).
Proof. unfold count. solve_quiet. Qed.

Lemma quiet_emit e : quiet (emit e).
Proof. unfold emit. solve_quiet. Qed.

Lemma quiet_refresh : quiet refresh_capacity_metrics.
Proof. unfold refresh_capacity_metrics. solve_quiet. Qed.

Lemma quiet_update_rep id f : quiet (update_rep id f).
Proof. unfold update_rep. solve_quiet. Qed.

Lemma quiet_release_ref c f id : quiet (release_ref c f id).
Proof. unfold release_ref. solve_quiet. Qed.
End quiet_methods.

#[export] Hint Resolve quiet_count quiet_emit quiet_refresh quiet_update_rep quiet_release_ref : draws.

(** Skips the quiet beginning of a method. *)
Ltac skip_quiet :=
  repeat match goal with
  | |- draws ?n ?k _ => apply (draws_bind 0 0 n k); [solve [solve_quiet]|intros ?]
  end.

Section drawing_methods.
Implicit Types (id : N).

Lemma quiet_evict id tier : quiet (evict id tier).
Proof. unfold evict. solve_quiet. Qed.

Lemma quiet_make_space fuel n : quiet (ensure_device_space_loop fuel n).
Proof.
  induction fuel as [|fuel IH]; cbn; [apply quiet_panic|].
  apply quiet_bind; [apply quiet_get|intros s]. destruct (lacks_space n s); [|apply quiet_ret].
  apply quiet_bind; [apply quiet_ok_or|intros r]. apply quiet_bind; [apply quiet_evict|done].
Qed.

Lemma quiet_ensure_space n : quiet (ensure_device_space n).
Proof. unfold ensure_device_space. apply quiet_bind; [apply quiet_get|intros]. apply quiet_make_space. Qed.

#[local] Hint Resolve quiet_evict quiet_ensure_space : draws.

Lemma quiet_ensure_capacity n : quiet (ensure_device_capacity n).
Proof.
  unfold ensure_device_capacity. apply quiet_bind; [apply quiet_get|intros].
  apply quiet_bind; [apply quiet_ok_or|intros]. apply quiet_bind; [apply quiet_guard|intros].
  apply quiet_ensure_space.
Qed.

Lemma draws_id : draws 1 0 id_.
Proof.
  intros s. unfold id_, wp_gen, get, modify, expect, mbind, M_bind, mret, M_ret, checked_add. cbn.
  case_decide; cbn; [lia|done].
Qed.

Lemma draws_tick : draws 0 1 tick.
Proof.
  intros s. unfold tick, wp_gen, get, modify, expect, mbind, M_bind, mret, M_ret, checked_add. cbn.
  case_decide; cbn; [lia|done].
Qed.

Lemma draws_register mapping component end_ bytes value :
  draws 1 1 (register mapping component end_ bytes Host value).
Proof.
  unfold register. apply (draws_bind 0 0 1 1); [unfold ensure_host_capacity; solve_quiet|intros _].
  apply (draws_bind 1 0 0 1); [apply draws_id|intros id].
  apply (draws_bind 0 1 0 0); [apply draws_tick|intros t]. solve_quiet.
Qed.

Lemma draws_reserve_member id : draws 1 0 (reserve_member id).
Proof.
  unfold reserve_member. apply (draws_bind 0 0 1 0); [apply quiet_get|intros s].
  apply (draws_bind 0 0 1 0); [apply quiet_expect|intros r].
  apply (draws_bind 0 0 1 0); [apply quiet_update_rep|intros []].
  destruct (needs_transfer r); [|by eapply draws_weaken; [apply quiet_ret|..]].
  apply (draws_bind 1 0 0 0); [apply draws_id|intros t]. solve_quiet.
Qed.

Lemma draws_map {A B} (f : A → PMM B) l :
  (∀ x, draws 1 0 (f x)) → draws (N.of_nat (length l)) 0 (map_M f l).
Proof.
  intros Hf. induction l as [|x l IH]; [apply quiet_ret|]. cbn [map_M length].
  rewrite Nat2N.inj_succ, <- N.add_1_l. apply (draws_bind 1 0 _ 0); [apply Hf|intros y].
  apply draws_then; [done|intros; apply quiet_ret].
Qed.

Lemma quiet_plan reps allow missing recompute ids : quiet (plan reps allow missing recompute ids).
Proof.
  revert missing recompute. induction ids as [|id ids IH]; intros missing recompute; cbn; solve_quiet;
    apply IH.
Qed.

Lemma draws_prepare context revision mapping end_ required ids allow :
  draws 4 0 (prepare_transition context revision mapping end_ required ids allow).
Proof.
  destruct (decide (length ids ≤ 3)) as [Hlen|Hlen].
  - unfold prepare_transition. apply (draws_bind 0 0 4 0); [apply quiet_get|intros s].
    apply (draws_bind 0 0 4 0); [apply quiet_lift|intros _].
    apply (draws_bind 0 0 4 0); [apply quiet_plan|intros [missing recompute]].
    apply (draws_bind 0 0 4 0); [apply quiet_ensure_capacity|intros _].
    apply (draws_bind 0 0 4 0); [apply quiet_get|intros s'].
    apply (draws_bind 1 0 3 0); [apply draws_id|intros t].
    apply draws_then; [|intros; solve_quiet].
    eapply draws_weaken; [apply draws_map, draws_reserve_member|lia|done].
  - intros s. unfold prepare_transition, wp_gen, get, mbind, M_bind.
    destruct (validate_composite s mapping end_ required ids) as [[]|e] eqn:Hv.
    + apply validate_composite_ok in Hv as [? _]. lia.
    + cbn. lia.
Qed.

Lemma quiet_complete_transfer id success : quiet (complete_transfer id success).
Proof.
  unfold complete_transfer, release_transfer.
  solve_quiet.
Qed.

Lemma quiet_abort id : quiet (abort_transition id).
Proof. unfold abort_transition, detach_transfer, release_transition_refs, release_reservation. solve_quiet. Qed.

Lemma quiet_any_off ids : quiet (any_off_device ids).
Proof. induction ids; cbn; solve_quiet. Qed.

Lemma quiet_check ids : quiet (check_transfers ids).
Proof. unfold check_transfers. solve_quiet. Qed.

#[local] Hint Resolve quiet_any_off quiet_check : draws.

Lemma draws_commit id revision : draws 1 0 (commit_transition id revision).
Proof.
  unfold commit_transition, release_transition_refs, release_reservation, release_active, activate.
  skip_quiet. apply draws_then; [apply draws_id|intros; solve_quiet].
Qed.

Lemma draws_commit_mapped id revision executor_mapping :
  draws 2 0 (commit_mapped_transition id revision executor_mapping).
Proof.
  unfold commit_mapped_transition. skip_quiet. apply (draws_bind 0 0 2 0).
  - generalize (pt_representations a0) as ids. induction ids as [|x ids IH]; cbn; solve_quiet.
  - intros blocks. apply (draws_bind 1 0 1 0); [apply draws_id|intros table].
    apply draws_then; [apply draws_commit|intros; solve_quiet].
Qed.

Lemma quiet_release_logical id : quiet (release_logical_reference id).
Proof. unfold release_logical_reference. solve_quiet. Qed.

Lemma quiet_demote id : quiet (demote_to_storage id).
Proof. unfold demote_to_storage. solve_quiet. Qed.

Lemma quiet_release_binding context : quiet (release_binding context).
Proof. unfold release_binding, release_active. solve_quiet. Qed.
End drawing_methods.
