(* ===== verification/ExecutorLaws.v ===== *)
(** What the server relies on of the native executor, as an interface: a mapping
    holds a sequence of tokens; evaluating tokens extends the active mapping and
    gives the logits of the whole sequence; forks, exports and imports copy it; and
    nothing else changes it. This is what [cusco_executor.h] documents, with one
    assumption of its own: an activation or an import that fails is rolled back. *)

From stdpp Require Import gmap strings list numbers.
From Stdlib Require Import Lia.
From S2P Require Import Prelude Inference Executor.

Class NativeView (HA : Abi) : Type := {
  (** The logits and the token after a sequence, the tokens of a text, and a fresh
      sampler of a configuration and a grammar. *)
  evaluation : list Z → list N * Z;
  vocabulary : string → list Z;
  end_of_generation : Z → N;
  fresh_sampler : SamplingConfig → option string → CuscoSampler;

  (** What a mapping holds while its handle is held, which mapping is active, what a
      prepared fork holds, and what the bytes of an export restore. *)
  tokens_in : CuscoExecutor → CuscoRepresentation → option (list Z);
  active_in : CuscoExecutor → CuscoRepresentation;
  fork_tokens : CuscoPreparedMapping → list Z;
  restored_tokens : list N → N → option (list Z);
}.

(** Every mapping keeps its tokens; the active mapping stays active. *)
Definition mappings_kept `{HV : NativeView} (x x' : CuscoExecutor) : Prop :=
  ∀ r l, tokens_in x r = Some l → tokens_in x' r = Some l.

Definition unchanged `{HV : NativeView} (x x' : CuscoExecutor) : Prop :=
  mappings_kept x x' ∧ active_in x' = active_in x.

Class AbiLaws `(HV : NativeView) : Prop := {
  law_open path n_ctx gpu_layers :
    let '(code, p) := cusco_executor_open path n_ctx gpu_layers in
    code = ExecError.OK → ∀ x, p = Some x → tokens_in x (active_in x) = Some [];
  law_decode x tokens :
    let '(code, out, x') := cusco_executor_decode tokens x in
    active_in x' = active_in x
    ∧ (∀ r l, r ≠ active_in x → tokens_in x r = Some l → tokens_in x' r = Some l)
    ∧ (∀ l, tokens_in x (active_in x) = Some l →
         is_Some (tokens_in x' (active_in x))
         ∧ (code = ExecError.OK →
            tokens_in x' (active_in x) = Some (l ++ tokens) ∧ out = evaluation (l ++ tokens)));
  law_active x :
    let '(code, r, x') := cusco_executor_active_representation x in
    unchanged x x' ∧ (code = ExecError.OK → ∀ raw, r = Some raw → raw = active_in x);
  law_activate x r :
    let '(code, _, x') := cusco_executor_activate_mapping r x in
    mappings_kept x x' ∧ code ≠ ExecError.ROLLBACK_FAILED
    ∧ active_in x' = if decide (code = ExecError.OK) then r else active_in x;
  law_prepare_fork x r :
    let '(code, p, x') := cusco_executor_prepare_mapping_fork r x in
    unchanged x x'
    ∧ (code = ExecError.OK → ∀ raw l, p = Some raw → tokens_in x r = Some l → fork_tokens raw = l);
  law_commit x p :
    let '(code, r, x') := cusco_executor_commit_mapping p x in
    unchanged x x'
    ∧ (code = ExecError.OK → ∀ raw, r = Some raw →
         tokens_in x raw = None ∧ tokens_in x' raw = Some (fork_tokens p));
  law_export x r size :
    let '(code, (bytes, written, position), x') := cusco_executor_export_mapping r size x in
    unchanged x x'
    ∧ (code = ExecError.OK → ∀ l, tokens_in x r = Some l →
         restored_tokens (take (N.to_nat written) bytes) position = Some l);
  law_import x bytes position :
    let '(code, r, x') := cusco_executor_import_mapping bytes position x in
    unchanged x x' ∧ code ≠ ExecError.ROLLBACK_FAILED
    ∧ (code = ExecError.OK → ∀ raw l, r = Some raw → restored_tokens bytes position = Some l →
         tokens_in x raw = None ∧ tokens_in x' raw = Some l);
  law_tokenize x text :
    let '(code, tokens, x') := cusco_executor_tokenize text x in
    unchanged x x' ∧ (code = ExecError.OK → tokens = vocabulary text);
  law_render x token capacity : unchanged x (cusco_executor_render_token token capacity x).2;
  law_end_of_generation x token : cusco_executor_token_is_eog x token = end_of_generation token;
  law_sampler x config grammar :
    let '(code, s, x') := cusco_sampler_create config grammar x in
    unchanged x x' ∧ (code = ExecError.OK → ∀ raw, s = Some raw → raw = fresh_sampler config grammar);
  law_describe x r : unchanged x (cusco_representation_describe r x).2;
  law_cancel x : unchanged x (cusco_executor_cancel x);
  law_reset x : unchanged x (cusco_executor_reset_cancel x);
}.

Section laws.
Context `{HL : AbiLaws}.

Lemma status_ok code u : ExecError.status code = Ok u → code = ExecError.OK.
Proof.
  unfold ExecError.status. destruct (code =? ExecError.OK)%Z eqn:H; [by intros _; apply Z.eqb_eq|].
  intros Hs. by repeat (case_match; [done|]).
Qed.

Lemma status_err e : ExecError.status ExecError.OK ≠ Err e.
Proof. done. Qed.

Lemma unchanged_refl x : unchanged x x.
Proof. split; [by intros r l|done]. Qed.

Lemma unchanged_trans x y z : unchanged x y → unchanged y z → unchanged x z.
Proof. intros [H1 A1] [H2 A2]. split; [|congruence]. intros r l Hl. by apply H2, H1. Qed.

(** A method of the executor that changes no mapping. *)
Definition harmless {A} (m : M CuscoExecutor ExecError.Error A) (Q : CuscoExecutor → A → Prop) : Prop :=
  ∀ x, wp m (λ a x', unchanged x x' ∧ Q x' a) (λ _ x', unchanged x x') x.

Lemma call_spec {A} (f : CuscoExecutor → Z * A * CuscoExecutor) (Q : A → CuscoExecutor → Prop)
    (R : CuscoExecutor → Prop) x :
  (let '(code, a, x') := f x in (code = ExecError.OK → Q a x') ∧ (code ≠ ExecError.OK → R x')) →
  wp (call f) Q (λ _, R) x.
Proof.
  unfold call, wp_gen. destruct (f x) as [[code a] x']. intros [HQ HR].
  destruct (ExecError.status code) as [u|e] eqn:Hs; [by eapply HQ, status_ok|].
  apply HR. intros ->. done.
Qed.

Lemma wp_non_null {A} (p : option A) (Q : A → CuscoExecutor → Prop) R x :
  (∀ raw, p = Some raw → Q raw x) → R (ExecError.Backend 3) x → wp (non_null p) Q R x.
Proof. intros HQ HR. destruct p as [raw|]; [by apply HQ|done]. Qed.

(** ** Methods *)

Lemma decode_spec x tokens :
  wp (decode tokens)
    (λ d x', active_in x' = active_in x
       ∧ (∀ r l, r ≠ active_in x → tokens_in x r = Some l → tokens_in x' r = Some l)
       ∧ ∀ l, tokens_in x (active_in x) = Some l →
           tokens_in x' (active_in x) = Some (l ++ tokens)
           ∧ d = mkDecode (evaluation (l ++ tokens)).1 (evaluation (l ++ tokens)).2)
    (λ _ x', active_in x' = active_in x
       ∧ (∀ r l, r ≠ active_in x → tokens_in x r = Some l → tokens_in x' r = Some l)
       ∧ (is_Some (tokens_in x (active_in x)) → is_Some (tokens_in x' (active_in x)))) x.
Proof.
  unfold decode. rewrite wp_bind. apply call_spec. pose proof (law_decode x tokens) as H.
  destruct (cusco_executor_decode tokens x) as [[code [logits token]] x'].
  destruct H as (Ha & Hk & Hl). split.
  - intros Hc. rewrite wp_ret. split_and!; [done..|]. intros l Hx.
    destruct (Hl l Hx) as [_ Hd]. by destruct (Hd Hc) as [? <-].
  - intros _. split_and!; [done..|]. intros [l Hx]. by apply (Hl l Hx).
Qed.

Lemma active_representation_spec :
  ∀ x, wp active_representation
    (λ h x', unchanged x x' ∧ rh_raw h = active_in x) (λ _ x', unchanged x x') x.
Proof.
  intros x. unfold active_representation. rewrite wp_bind. apply call_spec. pose proof (law_active x) as H.
  destruct (cusco_executor_active_representation x) as [[code p] x']. destruct H as [Hu Hp].
  split; [|done]. intros Hc. rewrite wp_bind. apply wp_non_null; [|done].
  intros raw ->. rewrite wp_ret. split; [done|]. by apply Hp.
Qed.

Lemma activate_spec x h :
  wp (activate_mapping h)
    (λ _ x', mappings_kept x x' ∧ active_in x' = rh_raw h) (λ _ x', unchanged x x') x.
Proof.
  unfold activate_mapping. apply call_spec. pose proof (law_activate x (rh_raw h)) as H.
  destruct (cusco_executor_activate_mapping (rh_raw h) x) as [[code u] x']. destruct H as (Hk & _ & Ha).
  split; intros Hc.
  - by rewrite decide_True in Ha.
  - rewrite decide_False in Ha by done. by split.
Qed.

Lemma prepare_fork_spec x h :
  wp (prepare_mapping_fork h)
    (λ p x', unchanged x x' ∧ ∀ l, tokens_in x (rh_raw h) = Some l → fork_tokens p = l)
    (λ _ x', unchanged x x') x.
Proof.
  unfold prepare_mapping_fork. rewrite wp_bind. apply call_spec.
  pose proof (law_prepare_fork x (rh_raw h)) as H.
  destruct (cusco_executor_prepare_mapping_fork (rh_raw h) x) as [[code p] x']. destruct H as [Hu Hp].
  split; [|done]. intros Hc. apply wp_non_null; [|done]. intros raw ->. split; [done|]. intros l. by apply Hp.
Qed.

Lemma commit_mapping_spec x p :
  wp (commit_mapping p)
    (λ h x', unchanged x x' ∧ tokens_in x (rh_raw h) = None
       ∧ tokens_in x' (rh_raw h) = Some (fork_tokens p))
    (λ _ x', unchanged x x') x.
Proof.
  unfold commit_mapping. rewrite wp_bind. apply call_spec. pose proof (law_commit x p) as H.
  destruct (cusco_executor_commit_mapping p x) as [[code r] x']. destruct H as [Hu Hp].
  split; [|done]. intros Hc. rewrite wp_bind. apply wp_non_null; [|done].
  intros raw ->. rewrite wp_ret. split; [done|]. by apply Hp.
Qed.

Lemma export_spec x h :
  wp (export_mapping h)
    (λ m x', unchanged x x' ∧ ∀ l, tokens_in x (rh_raw h) = Some l →
       restored_tokens (mst_bytes m) (mst_position m) = Some l)
    (λ _ x', unchanged x x') x.
Proof.
  unfold export_mapping. rewrite wp_bind, wp_get. cbn zeta. rewrite wp_bind. apply call_spec.
  pose proof (law_export x (rh_raw h) (cusco_executor_mapping_state_size (rh_raw h) x)) as H.
  destruct (cusco_executor_export_mapping _ _ x) as [[code [[bytes written] position]] x'].
  destruct H as [Hu Hp]. split; [|done]. intros Hc. rewrite wp_ret. split; [done|]. by apply Hp.
Qed.

Lemma import_spec x m :
  wp (import_mapping m)
    (λ h x', unchanged x x' ∧ ∀ l, restored_tokens (mst_bytes m) (mst_position m) = Some l →
       tokens_in x (rh_raw h) = None ∧ tokens_in x' (rh_raw h) = Some l)
    (λ _ x', unchanged x x') x.
Proof.
  unfold import_mapping. rewrite wp_bind. apply call_spec.
  pose proof (law_import x (mst_bytes m) (mst_position m)) as H.
  destruct (cusco_executor_import_mapping _ _ x) as [[code r] x']. destruct H as (Hu & _ & Hp).
  split; [|done]. intros Hc. rewrite wp_bind. apply wp_non_null; [|done].
  intros raw ->. rewrite wp_ret. split; [done|]. intros l. by apply Hp.
Qed.

Lemma tokenize_spec x text :
  wp (tokenize text) (λ tokens x', unchanged x x' ∧ tokens = vocabulary text) (λ _ x', unchanged x x') x.
Proof.
  unfold tokenize, c_string. destruct (existsb _ _); [apply unchanged_refl|]. apply call_spec.
  pose proof (law_tokenize x text) as H. destruct (cusco_executor_tokenize text x) as [[code tokens] x'].
  destruct H as [Hu Ht]. split; [by intros Hc; split; [|apply Ht]|by intros _].
Qed.

Lemma render_spec x token capacity :
  wp (render_token token capacity) (λ _ x', unchanged x x') (λ _ x', unchanged x x') x.
Proof.
  unfold render_token. wp_run. pose proof (law_render x token capacity) as H.
  destruct (cusco_executor_render_token token capacity x) as [[code [buffer size]] x1]. wp_run.
  destruct (code =? ExecError.BUFFER_TOO_SMALL)%Z.
  - apply call_spec. pose proof (law_render x1 token size) as H1.
    destruct (cusco_executor_render_token token size x1) as [[code' [buffer' size']] x2].
    split; intros _; [rewrite wp_ret|]; by eapply unchanged_trans.
  - wp_run. destruct (ExecError.status code); [|done]. by wp_run.
Qed.

Lemma sampler_spec x config grammar :
  wp (sampler_with_grammar config grammar)
    (λ s x', unchanged x x' ∧ s = fresh_sampler config grammar) (λ _ x', unchanged x x') x.
Proof.
  assert (∀ g, wp (p ← call (cusco_sampler_create config g); non_null p)
    (λ s x', unchanged x x' ∧ s = fresh_sampler config g) (λ _ x', unchanged x x') x) as Hg.
  { intros g. rewrite wp_bind. apply call_spec. pose proof (law_sampler x config g) as H.
    destruct (cusco_sampler_create config g x) as [[code p] x']. destruct H as [Hu Hp].
    split; [|done]. intros Hc. apply wp_non_null; [|done]. intros raw ->. split; [done|]. by apply Hp. }
  unfold sampler_with_grammar, c_string. destruct grammar as [g|]; [|apply Hg].
  destruct (existsb _ _); [apply unchanged_refl|apply Hg].
Qed.

Lemma describe_spec x h :
  wp (describe_representation h) (λ _ x', unchanged x x') (λ _ x', unchanged x x') x.
Proof.
  unfold describe_representation. apply call_spec. pose proof (law_describe x (rh_raw h)) as H.
  by destruct (cusco_representation_describe (rh_raw h) x) as [[code d] x'].
Qed.
End laws.
