(* ===== verification/MappedLaws.v ===== *)
(** What mapped execution promises: whatever sessions interleave, whatever is
    cached, published, spilled and read back, a session's tokens are those that the
    model gives for its text evaluated from scratch; no step panics; spilled
    mappings stay within their budget. *)

From stdpp Require Import gmap strings list numbers.
From Stdlib Require Import Lia.
From S2P Require Import Prelude TokenSequence ContextStore ContextLaws PhysicalManager PhysicalLaws PhysicalRoom.
From S2P Require Import Engine Lifecycle Inference Executor ExecutorLaws Mapped.

(** ** The lifted methods *)

Section lifts.
Context `{HS : Hasher} `{HA : Abi}.
Context (P : Prop).

Lemma wp_lifted {S E A} part put (wrap : E → ServerError.Error) (m : M S E A)
    (Q : A → MappedState → Prop) R s :
  wp_gen P (lifted part put wrap m) Q R s
  = wp_gen P m (λ a p, Q a (put p s)) (λ e p, R (wrap e) (put p s)) (part s).
Proof. unfold wp_gen, lifted. by destruct (m (part s)). Qed.

Lemma wp_on_executor {A} (m : M CuscoExecutor ExecError.Error A) (Q : A → MappedState → Prop) R s :
  wp_gen P (on_executor m) Q R s
  = wp_gen P m (λ a x, Q a (set_executor x s))
      (λ e x, R (ServerError.State (executor_message e)) (set_executor x s)) (ms_executor s).
Proof. apply wp_lifted. Qed.

Lemma wp_on_logical {A} (m : StoreM A) (Q : A → MappedState → Prop) R s :
  wp_gen P (on_logical m) Q R s
  = wp_gen P m (λ a x, Q a (set_logical x s))
      (λ e x, R (ServerError.State (context_message e)) (set_logical x s)) (ms_logical s).
Proof. apply wp_lifted. Qed.

Lemma wp_on_physical {A} (m : PMM A) (Q : A → MappedState → Prop) R s :
  wp_gen P (on_physical m) Q R s
  = wp_gen P m (λ a x, Q a (set_physical x s))
      (λ e x, R (ServerError.State (physical_message e)) (set_physical x s)) (ms_physical s).
Proof. apply wp_lifted. Qed.

Lemma wp_on_disk {A} (m : M Disk ServerError.Error A) (Q : A → MappedState → Prop) R s :
  wp_gen P (on_disk m) Q R s
  = wp_gen P m (λ a x, Q a (set_disk x s)) (λ e x, R e (set_disk x s)) (ms_disk s).
Proof. apply wp_lifted. Qed.

Lemma wp_ignore {A} (m : M MappedState ServerError.Error A) (Q : unit → MappedState → Prop) R s :
  wp_gen P (ignore m) Q R s = wp_gen P m (λ _ s', Q tt s') (λ _ s', Q tt s') s.
Proof. unfold wp_gen, ignore. by destruct (m s). Qed.

Lemma wp_on_error {A} (m : M MappedState ServerError.Error A) cleanup (Q : A → MappedState → Prop) R s :
  wp_gen P (on_error m cleanup) Q R s
  = wp_gen P m Q (λ e s', wp_gen P cleanup (λ _ s'', R e s'') (λ _ s'', R e s'') s') s.
Proof.
  unfold wp_gen, on_error. destruct (m s) as [a s'|e s'|]; [done| |done]. by destruct (cleanup s').
Qed.

Lemma wp_expect_ok {A} (m : M MappedState ServerError.Error A) (Q : A → MappedState → Prop) R s :
  wp_gen P (expect_ok m) Q R s = wp_gen P m Q (λ _ _, P) s.
Proof. unfold wp_gen, expect_ok. by destruct (m s). Qed.

Lemma wp_shared {A} (m : M MappedState ServerError.Error A) (Q : A → Running → Prop) R s :
  wp_gen P (shared m) Q R s
  = wp_gen P m (λ a w, Q a (mkRunning w (rn_session s))) (λ e w, R e (mkRunning w (rn_session s)))
      (rn_shared s).
Proof. unfold wp_gen, shared. by destruct (m (rn_shared s)). Qed.
End lifts.

#[export] Hint Rewrite @wp_on_executor @wp_on_logical @wp_on_physical @wp_on_disk @wp_ignore
  @wp_on_error @wp_expect_ok @wp_shared : wp.

(** ** Publications when no mapping is ever released *)

Section kept.
Context `{HS : Hasher} {HL : HasherLaws HS}.
Context (ptr_eq : SequenceChunk → SequenceChunk → bool).
Hypothesis ptr_eq_sound : ∀ a b, ptr_eq a b = true → a = b.
Implicit Types (s : ContextStore) (m : EvaluatedPrefix).

(** Every mapping is owned by the catalogue. *)
Definition catalogued_all s : Prop :=
  ∀ id e, cs_mappings s !! id = Some e → rc_catalog (me_references e) = 1%N.

(** The mappings left are those there were, owned as they were. *)
Definition derived s s' : Prop := ∀ id e', cs_mappings s' !! id = Some e' →
  ∃ e, cs_mappings s !! id = Some e ∧ me_mapping e' = me_mapping e
       ∧ rc_catalog (me_references e') = rc_catalog (me_references e).

#[local] Instance derived_preorder : PreOrder derived.
Proof.
  split; [intros s id e He; eauto|]. intros s1 s2 s3 H1 H2 id e3 H3.
  destruct (H2 id e3 H3) as (e2 & He2 & -> & ->). by apply H1.
Qed.

Lemma derived_alter f id s :
  (∀ r, rc_catalog (f r) = rc_catalog r) →
  derived s (with_mappings (alter (set_references f) id) s).
Proof.
  intros Hf x e' (e & He & Hm & Hr)%lookup_alter_refs. exists e. split; [done|]. split; [done|].
  rewrite Hr. by case_decide.
Qed.

Lemma derived_reclaim fuel id s : derived s (reclaim_loop fuel id s).
Proof.
  revert id s. induction fuel as [|fuel IH]; intros id s; [reflexivity|]. cbn [reclaim_loop].
  destruct (removable s id); [|reflexivity]. cbn [negb]. destruct (cs_mappings s !! id) as [e|]; [|reflexivity].
  assert (derived s (with_index (unindex (me_mapping e)) (with_mappings (delete id) s))) as H1.
  { intros x e'. cbn. rewrite lookup_delete_Some. intros [_ Hx]. eauto. }
  destruct (ep_parent (me_mapping e)) as [q|]; [|done].
  etrans; [exact H1|]. etrans; [|apply IH]. by apply derived_alter.
Qed.

Lemma derived_adjust id b s : derived s (adjust_context_refs id b s).
Proof.
  unfold adjust_context_refs. destruct (cs_mappings s !! id); [|reflexivity].
  destruct b; [by apply derived_alter|]. etrans; [|apply derived_reclaim]. by apply derived_alter.
Qed.

Lemma derived_mapping s s' id m : derived s s' → mapping id s' = Some m → mapping id s = Some m.
Proof.
  intros Hd (e' & He' & ->)%fmap_Some. destruct (Hd id e' He') as (e & He & -> & _).
  unfold mapping. by rewrite He.
Qed.

(** What is in the catalogue after a mapping was added to it. *)
Lemma catalogued_lookup s m id e' :
  cs_mappings (if decide (cs_mappings s !! ep_id m = None) then catalogued s m else s) !! id = Some e' →
  (id = ep_id m ∧ cs_mappings s !! id = None ∧ rc_catalog (me_references e') = 1%N)
  ∨ ∃ e, cs_mappings s !! id = Some e ∧ me_mapping e' = me_mapping e
         ∧ rc_catalog (me_references e') = rc_catalog (me_references e).
Proof.
  case_decide as Hn; [|by intros He; right; exists e'].
  unfold catalogued. cbn. rewrite lookup_insert_Some. intros [[<- <-]|[_ He]]; [by left|right].
  destruct (ep_parent m); cbn in He; [|by exists e'].
  apply lookup_alter_refs in He as (e & He & Hm & Hr). exists e. split; [done|]. split; [done|].
  rewrite Hr. by case_decide.
Qed.

(** A commit adds its own mapping at most. *)
Lemma commit_derived p s :
  wlp (commit_publication ptr_eq p)
    (λ m s', ∀ id e', cs_mappings s' !! id = Some e' →
       (id = ep_id (pp_mapping p) ∧ cs_mappings s !! id = None ∧ rc_catalog (me_references e') = 1%N)
       ∨ ∃ e, cs_mappings s !! id = Some e ∧ me_mapping e' = me_mapping e
              ∧ rc_catalog (me_references e') = rc_catalog (me_references e))
    (λ _ _, True) s.
Proof.
  unfold commit_publication. wp_run. destruct (validate_publication ptr_eq p s) as [[]|] eqn:Hv; [|done].
  destruct (validate_ok ptr_eq p s Hv) as (c & Hc & _ & _ & _ & _ & _ & _ & Hpar).
  rewrite Hc. wp_run. rewrite wp_catalogue by done. set (m := pp_mapping p).
  pose proof (catalogued_lookup s m) as Hs1. set (s1 := if decide _ then _ else _) in *. clearbody s1.
  assert (∀ s2 id e', derived s1 s2 → cs_mappings s2 !! id = Some e' →
    (id = ep_id m ∧ cs_mappings s !! id = None ∧ rc_catalog (me_references e') = 1%N)
    ∨ ∃ e, cs_mappings s !! id = Some e ∧ me_mapping e' = me_mapping e
           ∧ rc_catalog (me_references e') = rc_catalog (me_references e)) as Hd.
  { intros s2 id e' Hd He'. destruct (Hd id e' He') as (e & He & -> & ->). by apply Hs1. }
  destruct (bool_decide _).
  - wp_run. destruct (cs_mappings s1 !! _); [|done]. wp_run. intros id e'. by apply (Hd s1).
  - wp_run. rewrite wp_unlink. wp_run. fold (relinked s1 c (ep_id m)).
    destruct (cs_contexts (relinked s1 c (ep_id m)) !! _) as [c'|]; [|done]. wp_run.
    destruct (checked_add (lc_revision c') 1); [|done]. wp_run.
    destruct (cs_mappings (with_contexts _ _) !! _); [|done]. wp_run.
    intros id e' He'. eapply Hd; [|exact He']. etrans; [|exact (derived_adjust _ _ _)].
    unfold unlinked. destruct (lc_evaluated c); [apply derived_adjust|done].
Qed.
End kept.

(** ** The invariant of the engine *)

Section invariant.
Context `{HS : Hasher} {HSL : HasherLaws HS} `{HL : AbiLaws}.
Context (ptr_eq : SequenceChunk → SequenceChunk → bool) (hex_encode : N → string).
Hypothesis ptr_eq_sound : ∀ a b, ptr_eq a b = true → a = b.
Hypothesis hex_injective : Inj (=) (=) hex_encode.
Context (cap : Capacity) (spill_capacity : N).
Implicit Types (w : MappedState) (h : RepresentationHandle) (raw : CuscoRepresentation)
  (r : ResidentMapping) (id : N) (l : list Z).

Definition contents w raw : option (list Z) := tokens_in (ms_executor w) raw.

Definition evaluated l : Decode := mkDecode (evaluation l).1 (evaluation l).2.

Definition spilled_bytes r : N := match rm_spill r with Some sp => sp_bytes sp | None => 0 end.

(** A resident mapping holds its tokens, in the executor or in its file. *)
Definition resident_ok w id r l : Prop :=
  rm_continuation r = evaluated l ∧
  match rm_native r, rm_spill r with
  | Some h, None => contents w (rh_raw h) = Some l
  | None, Some sp =>
      sp_path sp = spill_path hex_encode id ∧
      ∃ bytes, dk_files (ms_disk w) !! sp_path sp = Some bytes
        ∧ N.of_nat (length bytes) = sp_bytes sp ∧ restored_tokens bytes (sp_position sp) = Some l
  | _, _ => False
  end.

Record mapped_ok w : Prop := {
  mo_logical : store_ok (ms_logical w);
  mo_catalogued : catalogued_all (ms_logical w);
  mo_physical : pm_ok cap (ms_physical w);
  mo_resident : ∀ id r, ms_resident w !! id = Some r →
    ∃ m, mapping id (ms_logical w) = Some m ∧ resident_ok w id r (tokens (ep_sequence m));
  mo_known : ∀ id m, mapping id (ms_logical w) = Some m → is_Some (ms_resident w !! id);
  mo_root : contents w (rh_raw (ms_root w)) = Some [];
  mo_spill : ms_spill_bytes w = map_sum spilled_bytes (ms_resident w);
  mo_budget : (ms_spill_bytes w ≤ spill_capacity)%N;
}.

(** What one step may change: the mapping [own] of the session that runs may be
    extended, its context [ctx] may change, and new mappings are fresh ones. *)
Record advances (own : option CuscoRepresentation) (ctx : option N) w w' : Prop := {
  ad_live : ∀ raw, is_Some (contents w raw) → is_Some (contents w' raw);
  ad_kept : ∀ raw l, own ≠ Some raw → contents w raw = Some l → contents w' raw = Some l;
  ad_natives : ∀ id r h, ms_resident w' !! id = Some r → rm_native r = Some h →
    contents w (rh_raw h) = None ∨ ∃ r0, ms_resident w !! id = Some r0 ∧ rm_native r0 = Some h;
  ad_root : ms_root w' = ms_root w;
  ad_epoch : ms_model_epoch w' = ms_model_epoch w;
  ad_contexts : ∀ cid c, ctx ≠ Some cid → cs_contexts (ms_logical w) !! cid = Some c →
    cs_contexts (ms_logical w') !! cid = Some c;
}.

#[local] Instance advances_preorder own ctx : PreOrder (advances own ctx).
Proof.
  split.
  - intros w. split; try done. intros id r h Hr Hh. right. by exists r.
  - intros w1 w2 w3 H1 H2. split.
    + intros raw Hr. by apply (ad_live _ _ _ _ H2), (ad_live _ _ _ _ H1).
    + intros raw l Hne Hl. apply (ad_kept _ _ _ _ H2); [done|]. by apply (ad_kept _ _ _ _ H1).
    + intros id r h Hr Hh. destruct (ad_natives _ _ _ _ H2 id r h Hr Hh) as [Hn|(r0 & Hr0 & Hh0)].
      * left. apply eq_None_not_Some. intros Hs. apply (ad_live _ _ _ _ H1) in Hs. by rewrite Hn in Hs; destruct Hs.
      * by apply (ad_natives _ _ _ _ H1 id r0).
    + rewrite (ad_root _ _ _ _ H2). apply H1.
    + rewrite (ad_epoch _ _ _ _ H2). apply H1.
    + intros cid c Hne Hc. apply (ad_contexts _ _ _ _ H2); [done|]. by apply (ad_contexts _ _ _ _ H1).
Qed.

Lemma advances_weaken own ctx w w' : advances None None w w' → advances own ctx w w'.
Proof. intros [H1 H2 H3 H4 H5 H6]. split; [done| |done..|]; [intros|intros ? ? _]; [by apply H2|by apply H6]. Qed.

(** Room for the identifiers and ticks the physical manager draws. *)
Definition room (n : N) w : Prop :=
  (pm_next_id (ms_physical w) + n ≤ u64_max)%N ∧ (pm_clock (ms_physical w) + n ≤ u64_max)%N.

Lemma room_roomy n w : room n w → (4 ≤ n)%N → roomy (ms_physical w).
Proof. unfold room, roomy. lia. Qed.

Lemma room_weaken n n' w : room n w → (n' ≤ n)%N → room n' w.
Proof. unfold room. lia. Qed.

(** *** Changes of one part *)

Lemma resident_ok_executor w x id r l :
  mappings_kept (ms_executor w) x → resident_ok w id r l → resident_ok (set_executor x w) id r l.
Proof.
  intros Hk [Hc Hr]. split; [done|]. destruct (rm_native r), (rm_spill r); try done.
  by apply Hk.
Qed.

Lemma mapped_ok_executor w x :
  mapped_ok w → mappings_kept (ms_executor w) x → mapped_ok (set_executor x w).
Proof.
  intros Hok Hk. destruct Hok. split; try done.
  - intros id r Hr. destruct (mo_resident0 id r Hr) as (m & Hm & Hrok). exists m. split; [done|].
    by apply resident_ok_executor.
  - by apply Hk.
Qed.

Lemma advances_executor w x : mappings_kept (ms_executor w) x → advances None None w (set_executor x w).
Proof.
  intros Hk. split; try done.
  - intros raw [l Hl]. exists l. by apply Hk.
  - intros raw l _. apply Hk.
  - intros id r h Hr Hh. right. by exists r.
Qed.

Lemma mapped_ok_physical w p : mapped_ok w → pm_ok cap p → mapped_ok (set_physical p w).
Proof. intros [] Hp. by split. Qed.

Lemma advances_physical w p : advances None None w (set_physical p w).
Proof. split; try done. intros id r h Hr Hh. right. by exists r. Qed.

(** The same state, for everything but the physical manager and the executor's
    active mapping. *)
Definition stays w w' : Prop := mapped_ok w' ∧ advances None None w w'
  ∧ ms_resident w' = ms_resident w ∧ ms_logical w' = ms_logical w
  ∧ dk_files (ms_disk w') = dk_files (ms_disk w).

#[local] Instance stays_trans : Transitive stays.
Proof.
  intros w1 w2 w3 (Hok2 & Ha2 & Hr2 & Hl2 & Hd2) (Hok3 & Ha3 & Hr3 & Hl3 & Hd3).
  split; [done|]. split; [by etrans|]. split_and!; congruence.
Qed.

Lemma stays_refl w : mapped_ok w → stays w w.
Proof. intros Hok. by split. Qed.

Lemma stays_executor w x : mapped_ok w → mappings_kept (ms_executor w) x → stays w (set_executor x w).
Proof. intros Hok Hk. split; [by apply mapped_ok_executor|]. split; [by apply advances_executor|done]. Qed.

Lemma stays_physical w p : mapped_ok w → pm_ok cap p → stays w (set_physical p w).
Proof. intros Hok Hp. split; [by apply mapped_ok_physical|]. split; [apply advances_physical|done]. Qed.

Lemma stays_disk w d : mapped_ok w → dk_files d = dk_files (ms_disk w) → stays w (set_disk d w).
Proof.
  intros Hok Hd. split; [|split; [|done]].
  - destruct Hok. split; try done. intros id r Hr. destruct (mo_resident0 id r Hr) as (m & Hm & Hrok).
    exists m. split; [done|]. unfold resident_ok in *. cbn. by rewrite Hd.
  - split; try done. intros id r h Hr Hh. right. by exists r.
Qed.

(** *** Calls of the components *)

(** The same state but for the physical manager, with room left. *)
Definition tame (k : N) w w' : Prop := stays w w' ∧ ms_executor w' = ms_executor w ∧ room k w'.

Lemma tame_trans k k' w1 w2 w3 : tame k w1 w2 → tame k' w2 w3 → tame k' w1 w3.
Proof. intros (? & ? & _) (? & ? & ?). split; [by etrans|]. split; [congruence|done]. Qed.

Lemma tame_refl k w : mapped_ok w → room k w → tame k w w.
Proof. intros ? ?. split; [by apply stays_refl|done]. Qed.

Lemma physical_step {A} n k (m : PMM A) (Q : A → PhysicalManager → Prop) w :
  mapped_ok w → draws n n m → room (n + k) w →
  wp m (λ a p, pm_ok cap p ∧ Q a p) (λ _ p, pm_ok cap p) (ms_physical w) →
  wp (on_physical m) (λ a w', tame k w w' ∧ Q a (ms_physical w')) (λ _ w', tame k w w') w.
Proof.
  intros Hok Hd Hroom Hm. rewrite wp_on_physical. specialize (Hd (ms_physical w)). unfold wp_gen in *.
  destruct (m (ms_physical w)) as [a p|e p|]; [|..|done].
  - destruct Hm as [Hp HQ]. split; [|done]. split; [by apply stays_physical|]. split; [done|].
    unfold room in *. cbn. lia.
  - split; [by apply stays_physical|]. split; [done|]. unfold room in *. cbn. lia.
Qed.

(** What tidies up after an error: it keeps the state and does not fail. *)
Definition tidy (m : M MappedState ServerError.Error unit) : Prop :=
  ∀ w, mapped_ok w → wp m (λ _ w', stays w w') (λ _ w', stays w w') w.

Lemma tidy_ret : tidy (mret tt).
Proof. intros w Hok. by apply stays_refl. Qed.

Lemma tidy_bind m f : tidy m → tidy f → tidy (_ ← m; f).
Proof.
  intros Hm Hf w Hok. rewrite wp_bind. eapply wp_mono; [by apply Hm|cbn beta|done].
  intros _ w1 Hs. eapply wp_mono; [apply Hf, Hs|..]; cbn beta; intros ? w2 Hs2; by etrans.
Qed.

Lemma tidy_physical {A} (m : PMM A) :
  (∀ p, pm_ok cap p → wp m (λ _ p', pm_ok cap p') (λ _ p', pm_ok cap p') p) →
  tidy (ignore (on_physical m)).
Proof.
  intros Hm w Hok. wp_run. eapply wp_mono; [by apply Hm, mo_physical|..]; cbn beta;
    intros ? p Hp; by apply stays_physical.
Qed.

Lemma tidy_abort t : tidy (abort_quietly t).
Proof.
  apply tidy_physical. intros p Hp. eapply wp_mono; [by apply abort_transition_ok|..]; cbn beta.
  - by intros _ p' (? & _).
  - by intros e p' [-> _].
Qed.

Lemma tidy_activate h : tidy (activate_quietly h).
Proof.
  intros w Hok. unfold activate_quietly. wp_run. eapply wp_mono; [apply activate_spec|..]; cbn beta.
  - intros _ x [Hk _]. by apply stays_executor.
  - intros _ x [Hk _]. by apply stays_executor.
Qed.

Lemma tidy_release ids : tidy (release_representations ids).
Proof.
  unfold release_representations. induction ids as [|id ids IH]; [apply tidy_ret|]. cbn [for_each].
  apply tidy_bind; [|done]. apply tidy_physical. intros p Hp.
  eapply wp_mono; [by apply release_logical_reference_ok|..]; cbn beta; [done|by intros e p' [-> _]].
Qed.

(** A method with its tidying. *)
Lemma wp_guarded {A} (m : M MappedState ServerError.Error A) cleanup (Q : A → MappedState → Prop) w :
  tidy cleanup → wp m Q (λ _ w', stays w w') w → wp (on_error m cleanup) Q (λ _ w', stays w w') w.
Proof.
  intros Hc Hm. rewrite wp_on_error. eapply wp_mono; [exact Hm|done|]. cbn beta. intros e w1 H1.
  eapply wp_mono; [apply Hc, H1|..]; cbn beta; intros ? w2 H2; by etrans.
Qed.

Lemma complete_transfers_ok k cleanup transfers w :
  tidy cleanup → mapped_ok w → room k w →
  wp (for_each (λ transfer, on_error (on_physical (complete_transfer transfer true)) cleanup) transfers)
    (λ _ w', tame k w w') (λ _ w', stays w w') w.
Proof.
  intros Hc Hok Hroom. apply (wp_for_each False _ (λ _ w', tame k w w')); [by apply tame_refl|].
  intros t rest w1 H1. pose proof H1 as (Hs1 & Hx1 & Hr1).
  apply wp_mono with (Q := λ _ w', tame k w w') (R := λ _ w', stays w1 w'); [apply wp_guarded; [exact Hc|]|done|].
  - eapply wp_mono; [apply (physical_step 0 k _ (λ _ _, True)); [apply Hs1| |exact Hr1|]|..]; cbn beta.
    + apply quiet_complete_transfer.
    + eapply wp_mono; [apply complete_transfer_ok, Hs1|..]; cbn beta; [by intros _ p [? _]|by intros e p [? _]].
    + intros _ w2 [H2 _]. by eapply tame_trans.
    + intros e w2 [H2 _]. exact H2.
  - intros e w2 H2. etrans; [apply Hs1|exact H2].
Qed.

Lemma executor_step {A} (m : M CuscoExecutor ExecError.Error A)
    (Q : CuscoExecutor → A → CuscoExecutor → Prop) w :
  mapped_ok w →
  (∀ x, wp m (λ a x', unchanged x x' ∧ Q x a x') (λ _ x', unchanged x x') x) →
  wp (on_executor m)
    (λ a w', stays w w' ∧ ms_physical w' = ms_physical w
       ∧ active_in (ms_executor w') = active_in (ms_executor w) ∧ Q (ms_executor w) a (ms_executor w'))
    (λ _ w', stays w w') w.
Proof.
  intros Hok Hm. wp_run. eapply wp_mono; [apply Hm|..]; cbn beta.
  - intros a x [[Hk Ha] HQ]. split; [by apply stays_executor|]. done.
  - intros e x [Hk _]. by apply stays_executor.
Qed.

(** Reading a file changes no file. *)
Lemma fs_read_ok name d :
  wp (fs_read name) (λ bytes d', dk_files d' = dk_files d ∧ dk_files d !! name = Some bytes)
    (λ _ d', dk_files d' = dk_files d) d.
Proof.
  unfold fs_read, fs_call, wp_gen, mbind, M_bind. destruct (dk_io d) as [|[|message partial] rest];
    cbn; [..|done].
  all: destruct (dk_files d !! name) eqn:H; cbn; by rewrite ?H.
Qed.

(** Removing a file changes no other. *)
Lemma fs_remove_ok name d :
  wp (fs_remove_file name) (λ _ d', ∀ n, n ≠ name → dk_files d' !! n = dk_files d !! n)
    (λ _ d', ∀ n, n ≠ name → dk_files d' !! n = dk_files d !! n) d.
Proof.
  unfold fs_remove_file, fs_call. wp_run. destruct (dk_files d !! name); [|done].
  unfold wp_gen. destruct (dk_io d) as [|[|message partial] rest]; cbn; [..|done];
    intros n Hn; by rewrite lookup_delete_ne.
Qed.

(** *** Prefixes *)

Lemma restore_native_ok w id r l :
  mapped_ok w → resident_ok w id r l →
  wp (restore_native r)
    (λ h w', stays w w' ∧ ms_physical w' = ms_physical w ∧ contents w' (rh_raw h) = Some l
       ∧ (rm_native r = Some h ∨ rm_native r = None ∧ contents w (rh_raw h) = None))
    (λ _ w', stays w w') w.
Proof.
  intros Hok [_ Hr]. unfold restore_native. destruct (rm_native r) as [h|] eqn:Hn.
  { destruct (rm_spill r); [done|]. wp_run. split; [by apply stays_refl|]. auto. }
  destruct (rm_spill r) as [sp|]; [|done]. destruct Hr as (Hpath & bytes & Hf & Hlen & Hl). wp_run.
  eapply wp_mono; [apply fs_read_ok|..]; cbn beta.
  2:{ intros e d Hd. by apply stays_disk. }
  intros bytes' d [Hd Hbytes]. assert (bytes' = bytes) as -> by congruence.
  wp_run. rewrite Hlen, N.eqb_refl. cbn [negb].
  assert (stays w (set_disk d w)) as H1 by by apply stays_disk.
  eapply wp_mono; [apply import_spec|..]; cbn [mst_bytes mst_position].
  - intros h x [[Hk Ha] Hx]. destruct (Hx l Hl) as [Hnone Hsome].
    split_and!; [|done..|by right]. etrans; [exact H1|].
    apply (stays_executor (set_disk d w)); [apply H1|done].
  - intros e x [Hk _]. etrans; [exact H1|]. apply (stays_executor (set_disk d w)); [apply H1|done].
Qed.

Lemma spill_path_injective id id' : spill_path hex_encode id = spill_path hex_encode id' → id = id'.
Proof. intros H. by apply (inj hex_encode), (append_inj_r _ _ ".seq"). Qed.

(** A mapping that was read back is native again; [w0] is the state before it was read. *)
Lemma forget_spill_ok w0 w id r sp h m :
  mapped_ok w → advances None None w0 w → contents w0 (rh_raw h) = None →
  ms_resident w !! id = Some r → rm_native r = None → rm_spill r = Some sp →
  mapping id (ms_logical w) = Some m → contents w (rh_raw h) = Some (tokens (ep_sequence m)) →
  wp (forget_spill id h)
    (λ _ w', mapped_ok w' ∧ advances None None w0 w' ∧ ms_executor w' = ms_executor w
       ∧ ms_physical w' = ms_physical w ∧ ms_logical w' = ms_logical w)
    (λ _ _, False) w.
Proof.
  intros Hok Had Hfresh Hr Hn Hsp Hm Hh. destruct (mo_resident _ Hok id r Hr) as (m' & Hm' & Hrok).
  assert (m' = m) as -> by congruence. destruct Hrok as [Hcont Hrok]. rewrite Hn, Hsp in Hrok.
  destruct Hrok as [Hpath _]. unfold forget_spill. wp_run. rewrite Hr. wp_run. rewrite Hsp. wp_run.
  assert (∀ (d : Disk), (∀ n, n ≠ sp_path sp → dk_files d !! n = dk_files (ms_disk w) !! n) →
    let r' := set_native (Some h) (set_spill None r) in
    let w' := set_resident (<[id := r']> (<[id := set_spill None r]> (ms_resident w)))
                (set_spill_bytes (saturating_sub (ms_spill_bytes w) (sp_bytes sp)) (set_disk d w)) in
    mapped_ok w' ∧ advances None None w0 w') as Hfinal.
  { intros d Hd r' w'.
    assert (∀ id' r1, ms_resident w' !! id' = Some r1 →
      (id' = id ∧ r1 = r') ∨ (id' ≠ id ∧ ms_resident w !! id' = Some r1)) as Hlook.
    { intros id' r1. cbn. rewrite insert_insert_eq, lookup_insert_Some. naive_solver. }
    split.
    - destruct Hok. split; try done.
      + intros id' r1 [[-> ->]|[Hne Hr1]]%Hlook.
        * exists m. split; [done|]. by split.
        * destruct (mo_resident0 id' r1 Hr1) as (m1 & Hm1 & [Hc1 Hrok1]). exists m1. split; [done|].
          split; [done|]. destruct (rm_native r1), (rm_spill r1) as [sp1|]; try done.
          destruct Hrok1 as [Hp1 Hrok1]. split; [done|]. cbn. rewrite Hd; [done|].
          rewrite Hp1, Hpath. intros Heq. by apply Hne, spill_path_injective.
      + intros id' m1 Hm1. cbn. rewrite insert_insert_eq. destruct (decide (id = id')) as [->|].
        * rewrite lookup_insert_eq. by eexists.
        * rewrite lookup_insert_ne by done. by eapply mo_known0.
      + cbn. rewrite insert_insert_eq. pose proof (map_sum_insert_Some spilled_bytes _ id r' r Hr) as Hsum.
        assert (spilled_bytes r = sp_bytes sp) as Hb by (unfold spilled_bytes; by rewrite Hsp).
        assert (spilled_bytes r' = 0%N) as Hb' by done. rewrite Hb, Hb' in Hsum.
        unfold saturating_sub. rewrite mo_spill0. unfold r' in *. lia.
      + cbn. unfold saturating_sub. lia.
    - destruct Had. split; try done.
      intros id' r1 h1 [[-> ->]|[Hne Hr1]]%Hlook Hh1; [|by eapply ad_natives0].
      left. cbn in Hh1. by injection Hh1 as <-. }
  assert (∀ d, (∀ n, n ≠ sp_path sp → dk_files d !! n = dk_files (ms_disk w) !! n) →
    wp ((_ ← modify (λ s, set_spill_bytes (saturating_sub (ms_spill_bytes s) (sp_bytes sp)) s);
         s ← get; r ← expect (ms_resident s !! id);
         modify (λ s, set_resident (<[id := set_native (Some h) r]> (ms_resident s)) s))
        : M MappedState ServerError.Error unit)
      (λ _ w', mapped_ok w' ∧ advances None None w0 w' ∧ ms_executor w' = ms_executor w
         ∧ ms_physical w' = ms_physical w ∧ ms_logical w' = ms_logical w) (λ _ _, False)
      (set_disk d (set_resident (<[id := set_spill None r]> (ms_resident w)) w))) as Hrest.
  { intros d Hd. wp_run. cbn [ms_resident set_spill_bytes set_disk set_resident].
    rewrite lookup_insert_eq. wp_run. destruct (Hfinal d Hd) as [H1 H2]. by split_and!. }
  eapply wp_mono; [apply fs_remove_ok|..]; cbn beta; intros ? d Hd; specialize (Hrest d Hd);
    revert Hrest; by wp_run.
Qed.

(** The tokens of a prefix: none for no prefix. *)
Definition prefix_tokens (prefix : option EvaluatedPrefix) : list Z :=
  match prefix with Some m => tokens (ep_sequence m) | None => [] end.

Definition ends w w' : Prop := mapped_ok w' ∧ advances None None w w'.

Lemma stays_ends w w' : stays w w' → ends w w'.
Proof. by intros (? & ? & _). Qed.

Lemma ends_trans w1 w2 w3 : ends w1 w2 → ends w2 w3 → ends w1 w3.
Proof. intros [_ H1] [Hok H2]. split; [done|]. by etrans. Qed.

Lemma identity_ok h (Q : N → MappedState → Prop) (R : ServerError.Error → MappedState → Prop) w :
  (∀ n, Q n w) → (∀ e, R e w) → wp (identity_u32 h) Q R w.
Proof. intros HQ HR. unfold identity_u32. destruct (_ <=? _)%N; wp_run; auto. Qed.

(** The physical side of an activation: prepared, transferred. *)
Lemma prepare_transition_step k context revision mapping end_ required ids w :
  mapped_ok w → room (k + 4) w →
  wp (on_physical (prepare_transition context revision mapping end_ required ids false))
    (λ _ w', tame k w w') (λ _ w', stays w w') w.
Proof.
  intros Hok Hroom. eapply wp_mono; [apply (physical_step 4 k _ (λ _ _, True) w Hok)|..]; cbn beta.
  - by eapply draws_weaken; [apply draws_prepare|..].
  - by rewrite N.add_comm.
  - eapply wp_mono; [apply prepare_transition_ok; [by apply mo_physical|]|..]; cbn beta.
    + eapply room_roomy; [exact Hroom|lia].
    + by intros [[??]?] p [? _].
    + by intros e p [? _].
  - by intros a w' [? _].
  - by intros e w' [? _].
Qed.

Lemma commit_transition_step k transition revision identity w :
  mapped_ok w → room (k + 4) w →
  wp (on_physical (commit_mapped_transition transition revision identity))
    (λ _ w', tame k w w') (λ _ w', stays w w') w.
Proof.
  intros Hok Hroom. eapply wp_mono; [apply (physical_step 4 k _ (λ _ _, True) w Hok)|..]; cbn beta.
  - by eapply draws_weaken; [apply draws_commit_mapped|..].
  - by rewrite N.add_comm.
  - pose proof (mo_physical _ Hok) as Hp.
    eapply wp_mono; [apply commit_mapped_transition_ok; [exact Hp|]|..]; cbn beta.
    + eapply room_roomy; [exact Hroom|lia].
    + by intros [??] p [? _].
    + by intros e p [-> _].
  - by intros a w' [? _].
  - by intros e w' [? _].
Qed.

Lemma activate_prefix_ok k context_id prefix w :
  mapped_ok w → room (k + 8) w →
  (∀ m, prefix = Some m → mapping (ep_id m) (ms_logical w) = Some m) →
  wp (activate_prefix context_id prefix)
    (λ _ w', ends w w' ∧ room k w' ∧ ms_logical w' = ms_logical w
       ∧ contents w' (active_in (ms_executor w')) = Some (prefix_tokens prefix))
    (λ _ w', ends w w') w.
Proof.
  intros Hok Hroom Hprefix. destruct prefix as [m|]; cbn [activate_prefix].
  2:{ wp_run. eapply wp_mono; [apply activate_spec|..]; cbn beta.
      - intros _ x [Hk Ha]. split_and!; [by apply stays_ends, stays_executor| |done|].
        + by eapply room_weaken; [exact Hroom|lia].
        + unfold contents. cbn. rewrite Ha. by apply Hk, (mo_root _ Hok).
      - intros _ x [Hk _]. by apply stays_ends, stays_executor. }
  specialize (Hprefix m eq_refl). destruct (mo_known _ Hok _ _ Hprefix) as [r Hr].
  destruct (mo_resident _ Hok _ _ Hr) as (m' & Hm' & Hrok). assert (m' = m) as -> by congruence.
  wp_run. rewrite Hr. wp_run.
  eapply wp_mono; [by eapply restore_native_ok|cbn beta|intros e w1 H1; by apply stays_ends].
  intros h w1 (H1 & Hp1 & Hh1 & Hcase). rewrite wp_bind, wp_get, wp_bind, wp_ok_or.
  destruct (context context_id _) as [c|]; [|by apply stays_ends].
  assert (room (k + 8) w1) as Hroom1 by (unfold room in *; by rewrite Hp1).
  rewrite wp_bind. eapply wp_mono;
    [apply executor_step; [apply H1|apply active_representation_spec]|cbn beta|intros e w2 H2].
  2:{ apply stays_ends. by etrans. }
  intros previous w2 (H2 & Hp2 & _ & _). assert (stays w w2) as Hw2 by by etrans.
  assert (room (k + 4 + 4) w2) as Hroom2 by (unfold room in *; rewrite Hp2; lia).
  rewrite wp_bind. eapply wp_mono; [apply prepare_transition_step; [apply Hw2|exact Hroom2]|cbn beta|].
  2:{ intros e w3 H3. apply stays_ends. by etrans. }
  intros [[prepared class] transfers] w3 (H3 & Hx3 & Hroom3). assert (stays w w3) as Hw3 by by etrans.
  rewrite wp_bind. eapply wp_mono;
    [apply complete_transfers_ok; [apply tidy_abort|apply Hw3|exact Hroom3]|cbn beta|].
  2:{ intros e w4 H4. apply stays_ends. by etrans. }
  intros _ w4 (H4 & Hx4 & Hroom4). assert (stays w w4) as Hw4 by by etrans.
  rewrite wp_bind.
  apply wp_mono with (Q := λ _ w5, stays w4 w5 ∧ room (k + 4) w5 ∧ active_in (ms_executor w5) = rh_raw h)
    (R := λ _ w5, stays w4 w5).
  { apply wp_guarded; [apply tidy_abort|]. wp_run. eapply wp_mono; [apply activate_spec|..]; cbn beta.
    - intros _ x [Hk Ha]. split; [|done]. apply stays_executor; [apply Hw4|done].
    - intros _ x [Hk _]. apply stays_executor; [apply Hw4|done]. }
  2:{ intros e w5 H5. apply stays_ends. by etrans. }
  intros _ w5 (H5 & Hroom5 & Ha5). assert (stays w w5) as Hw5 by by etrans.
  rewrite wp_bind. apply identity_ok; [|intros e; by apply stays_ends]. intros identity.
  rewrite wp_bind.
  apply wp_mono with (Q := λ _ w6, tame k w5 w6) (R := λ _ w6, stays w5 w6).
  { apply wp_guarded; [apply tidy_activate|]. by apply commit_transition_step; [apply Hw5|]. }
  2:{ intros e w6 H6. apply stays_ends. by etrans. }
  intros _ w6 (H6 & Hx6 & Hroom6). assert (stays w w6) as Hw6 by by etrans.
  assert (contents w6 (rh_raw h) = Some (tokens (ep_sequence m))) as Hh6.
  { assert (stays w1 w6) as (_ & Ha & _).
    { etrans; [exact H2|]. etrans; [exact H3|]. etrans; [exact H4|]. etrans; [exact H5|exact H6]. }
    by apply (ad_kept _ _ _ _ Ha). }
  destruct Hw6 as (Hok6 & Had6 & Hr6 & Hl6 & Hd6).
  destruct Hcase as [Hn|[Hn Hfresh]]; rewrite Hn.
  - rewrite bool_decide_false by done. wp_run. split_and!; [by split|done..|]. by rewrite Hx6, Ha5.
  - rewrite bool_decide_true by done. destruct Hrok as [_ Hrok]. rewrite Hn in Hrok.
    destruct (rm_spill r) as [sp|] eqn:Hsp; [|done].
    eapply wp_mono; [eapply (forget_spill_ok w w6); try done; [by rewrite Hr6|by rewrite Hl6]|cbn beta|done].
    intros _ w7 (Hok7 & Had7 & Hx7 & Hp7 & Hl7). split_and!; [by split| |congruence|].
    + unfold room in *. by rewrite Hp7.
    + unfold contents in *. by rewrite Hx7, Hx6, Ha5, <- Hx6.
Qed.
End invariant.
