(* ===== verification/MappedPublication.v ===== *)
(** The publication and the spilling of mappings keep the invariant of the mapped
    engine ([MappedLaws.mapped_ok]): forks of a mapping hold what it holds, a
    published block is a new prefix with its native mapping, a spilled mapping is a
    file that restores it, and the spilled bytes stay within their budget. *)

From stdpp Require Import gmap strings list numbers.
From Stdlib Require Import Lia.
From S2P Require Import Prelude TokenSequence ContextStore ContextLaws PhysicalManager PhysicalLaws PhysicalRoom.
From S2P Require Import Engine Lifecycle Inference Executor ExecutorLaws Mapped MappedLaws.

Section publication.
Context `{HS : Hasher} {HSL : HasherLaws HS} `{HL : AbiLaws}.
Context (ptr_eq : SequenceChunk → SequenceChunk → bool) (hex_encode : N → string).
Hypothesis ptr_eq_sound : ∀ a b, ptr_eq a b = true → a = b.
Hypothesis hex_injective : Inj (=) (=) hex_encode.
Context (cap : Capacity) (spill_capacity : N).
Implicit Types (w : MappedState) (h : RepresentationHandle) (raw : CuscoRepresentation)
  (r : ResidentMapping) (id cid : N) (l : list Z).

#[local] Abbreviation mapped_ok := (MappedLaws.mapped_ok hex_encode cap spill_capacity).
#[local] Abbreviation stays := (MappedLaws.stays hex_encode cap spill_capacity).
#[local] Abbreviation tame := (MappedLaws.tame hex_encode cap spill_capacity).
#[local] Abbreviation tidy := (MappedLaws.tidy hex_encode cap spill_capacity).
#[local] Abbreviation ends := (MappedLaws.ends hex_encode cap spill_capacity).
#[local] Existing Instance stays_trans.
#[local] Existing Instance advances_preorder.

(** ** Forks *)

(** What is done with a fork: a fresh mapping with the same tokens. *)
Lemma fork_rule {A} h l w (f : RepresentationHandle → M MappedState ServerError.Error A)
    (Q : A → MappedState → Prop) (R : ServerError.Error → MappedState → Prop) :
  mapped_ok w → contents w (rh_raw h) = Some l →
  (∀ n w', stays w w' → ms_physical w' = ms_physical w →
     contents w (rh_raw n) = None → contents w' (rh_raw n) = Some l → wp (f n) Q R w') →
  (∀ e w', stays w w' → R e w') →
  wp (prepared ← on_executor (prepare_mapping_fork h);
      n ← on_executor (commit_mapping prepared); f n) Q R w.
Proof.
  intros Hok Hl HQ HR. rewrite wp_bind.
  eapply wp_mono; [apply (executor_step hex_encode cap spill_capacity _ (λ x p x', ∀ l, tokens_in x (rh_raw h) = Some l →
    fork_tokens p = l) _ Hok); intros x; apply prepare_fork_spec|cbn beta|auto].
  intros p w1 (H1 & Hp1 & _ & Hf). specialize (Hf l Hl). rewrite wp_bind.
  eapply wp_mono; [apply (executor_step hex_encode cap spill_capacity _ (λ x n x', tokens_in x (rh_raw n) = None
    ∧ tokens_in x' (rh_raw n) = Some (fork_tokens p))); [apply H1|intros x; apply commit_mapping_spec]|cbn beta|].
  2:{ intros e w2 H2. apply HR. by etrans. }
  intros n w2 (H2 & Hp2 & _ & Hnone & Hsome). apply HQ; [by etrans|congruence| |].
  - destruct (contents w (rh_raw n)) eqn:Hn; [|done].
    apply (ad_kept None None w w1) in Hn; [|apply H1|done]. unfold contents in Hn. congruence.
  - unfold contents. by rewrite Hsome, Hf.
Qed.

Lemma snapshot_ok h l w :
  mapped_ok w → contents w (rh_raw h) = Some l →
  wp (snapshot_active_mapping h)
    (λ n w', stays w w' ∧ ms_physical w' = ms_physical w
       ∧ contents w (rh_raw n) = None ∧ contents w' (rh_raw n) = Some l)
    (λ _ w', stays w w') w.
Proof.
  intros Hok Hl.
  assert (∀ Q R, wp (snapshot_active_mapping h) Q R w
    = wp (prepared ← on_executor (prepare_mapping_fork h);
          n ← on_executor (commit_mapping prepared); mret n) Q R w) as ->.
  { intros Q R. unfold snapshot_active_mapping, wp_gen, mbind, M_bind, mret, M_ret.
    destruct (on_executor _ w) as [p w1| |]; [|done..]. by destruct (on_executor _ w1). }
  eapply fork_rule; [done|exact Hl| |done]. intros n w' H1 H2 H3 H4. by rewrite wp_ret.
Qed.

Lemma fork_ok h l w :
  mapped_ok w → contents w (rh_raw h) = Some l →
  wp (fork_for_request_branch h)
    (λ n w', stays w w' ∧ ms_physical w' = ms_physical w
       ∧ contents w (rh_raw n) = None ∧ contents w' (rh_raw n) = Some l)
    (λ _ w', stays w w') w.
Proof.
  intros Hok Hl. unfold fork_for_request_branch.
  eapply fork_rule; [done|exact Hl| |done]. intros n w1 H1 Hp1 H3 H4. wp_run.
  eapply wp_mono; [apply activate_spec|..]; cbn beta.
  - intros _ x [Hk _]. wp_run. assert (stays w1 (set_executor x w1)) as H2.
    { apply stays_executor; [apply H1|done]. }
    split; [by etrans|]. split; [done|]. split; [done|]. by apply Hk.
  - intros _ x [Hk _]. etrans; [exact H1|]. apply stays_executor; [apply H1|done].
Qed.

Lemma fallback_ok parent w :
  mapped_ok w →
  wp (fallback_mapping parent) (λ _ w', stays w w' ∧ ms_physical w' = ms_physical w)
    (λ _ w', stays w w') w.
Proof.
  intros Hok. unfold fallback_mapping. rewrite wp_bind, wp_get. cbn zeta. rewrite wp_bind.
  eapply wp_mono; [apply (executor_step hex_encode cap spill_capacity _ (λ x n x', rh_raw n = active_in x) _ Hok);
    intros x; apply active_representation_spec|cbn beta|done].
  intros h w1 (H1 & Hp1 & _). by rewrite wp_ret.
Qed.

(** ** The commit of a publication *)

Lemma register_components_ok k id end_ bytes rollback todo registered w :
  mapped_ok w → room (k + (N.of_nat (length todo) + 4)) w →
  wp (register_components id end_ bytes rollback todo registered)
    (λ _ w', tame (k + 4) w w') (λ _ w', stays w w') w.
Proof.
  revert registered w. induction todo as [|c todo IH]; intros registered w Hok Hroom.
  { cbn [register_components]. rewrite wp_ret. apply tame_refl; [done|]. by eapply room_weaken; [exact Hroom|lia]. }
  cbn [register_components]. rewrite wp_bind.
  set (k' := (k + (N.of_nat (length todo) + 4))%N).
  assert (room (1 + k') w) as Hroom' by (eapply room_weaken; [exact Hroom|cbn [length]; lia]).
  apply wp_mono with (Q := λ _ w1, tame k' w w1) (R := λ _ w', stays w w').
  - apply wp_guarded; [apply tidy_bind; [apply tidy_release|apply tidy_activate]|].
    eapply wp_mono; [apply (physical_step hex_encode cap spill_capacity 1 k' _ (λ _ _, True) w Hok)|..]; cbn beta.
    + apply draws_register.
    + exact Hroom'.
    + eapply wp_mono; [apply register_ok; [exact (mo_physical _ _ _ _ Hok)|]|..]; cbn beta.
      * eapply room_roomy; [exact Hroom'|lia].
      * by intros ? p [? _].
      * by intros e p [? _].
    + by intros ? w1 [? _].
    + by intros e w1 [? _].
  - intros id' w1 H1. pose proof H1 as (Hs1 & _ & Hroom1).
    eapply wp_mono; [apply IH; [apply Hs1|exact Hroom1]|..]; cbn beta.
    + intros _ w2 H2. by eapply tame_trans.
    + intros e w2 H2. by etrans.
  - done.
Qed.

(** What the commit of a publication leaves of the store: the published prefix [m],
    with the tokens [l], and the mappings there were. *)
Record published (l : list Z) cid w (s' : ContextStore) (m : EvaluatedPrefix) : Prop := {
  pb_store : store_ok s';
  pb_catalogued : catalogued_all s';
  pb_mapping : mapping (ep_id m) s' = Some m;
  pb_tokens : tokens (ep_sequence m) = l;
  pb_kept : ∀ id m', mapping id (ms_logical w) = Some m' → mapping id s' = Some m';
  pb_old : ∀ id m', mapping id s' = Some m' → id = ep_id m ∨ mapping id (ms_logical w) = Some m';
  pb_contexts : ∃ c c', cs_contexts (ms_logical w) !! cid = Some c ∧ tokens (lc_tokens c') = tokens (lc_tokens c)
    ∧ (lc_revision c' ≤ lc_revision c + 1)%N ∧ cs_contexts s' = <[cid := c']> (cs_contexts (ms_logical w));
}.

Lemma commit_publication_ok p c l w :
  mapped_ok w → prepared_ok p → validate_publication ptr_eq p (ms_logical w) = Ok tt →
  cs_contexts (ms_logical w) !! pp_context p = Some c → (lc_revision c < u64_max)%N →
  take (ep_represented_end (pp_mapping p)) (tokens (lc_tokens c)) = l →
  wp (commit_publication ptr_eq p)
    (λ m s', ep_id m = ep_id (pp_mapping p) ∧ published l (pp_context p) w s' m) (λ _ _, False)
    (ms_logical w).
Proof.
  intros Hok Hp Hv Hc Hrev Hl. set (s := ms_logical w) in *.
  pose proof (commit_ok ptr_eq ptr_eq_sound s p (mo_logical _ _ _ _ Hok) Hp) as H1.
  pose proof (commit_derived ptr_eq p s) as H2. unfold wp_gen in *.
  destruct (commit_publication ptr_eq p s) as [m s'|e s'|].
  - destruct H1 as (_ & Hs' & Hid & Hm & (c1 & c2 & Hc1 & Hcs & Ht & _ & _ & _ & Hr & Htok) & Hkeep).
    split; [done|]. assert (c1 = c) as -> by congruence.
    split; [done| |by rewrite Hid|congruence|..].
    + intros id e He. destruct (H2 id e He) as [(_ & _ & ?)|(e0 & He0 & _ & ->)]; [done|].
      by apply (mo_catalogued _ _ _ _ Hok id).
    + intros id m' (e & He & ->)%fmap_Some. apply Hkeep; [done|].
      pose proof (mo_catalogued _ _ _ _ Hok id e He). lia.
    + intros id m' (e & He & ->)%fmap_Some. rewrite Hid.
      destruct (H2 id e He) as [(-> & _)|(e0 & He0 & -> & _)]; [by left|right].
      unfold mapping. fold s. by rewrite He0.
    + exists c, c2. split; [done|]. split; [congruence|]. split; [|done]. rewrite Hr. case_decide; lia.
  - destruct H1. congruence.
  - destruct H1 as [(e & He & Hcat & _)|(c1 & Hc1 & ?)].
    + pose proof (mo_catalogued _ _ _ _ Hok _ e He). lia.
    + assert (c1 = c) as -> by congruence. lia.
Qed.

Lemma mapped_ok_published l cid w s' m :
  mapped_ok w → published l cid w s' m → is_Some (ms_resident w !! ep_id m) →
  mapped_ok (set_logical s' w).
Proof.
  intros [] [] Hk. split; try done; cbn.
  - intros id r Hr. destruct (mo_resident id r Hr) as (m' & Hm' & Hrok). exists m'. auto.
  - intros id m' [->|Hm']%pb_old0; [done|]. by eapply mo_known.
Qed.

Lemma advances_published l cid w s' m :
  published l cid w s' m → advances None (Some cid) w (set_logical s' w).
Proof.
  intros []. split; try done.
  - intros id r h Hr Hh. right. by exists r.
  - intros cid' c Hne Hc. cbn. destruct pb_contexts0 as (c1 & c2 & _ & _ & _ & ->).
    rewrite lookup_insert_ne; [done|congruence].
Qed.

(** A new prefix, its native mapping a fork that was taken since [w0]. *)
Lemma new_prefix_ok l cid w0 w s' m native ids :
  mapped_ok w → published l cid w s' m → ms_resident w !! ep_id m = None →
  advances None None w0 w → contents w0 (rh_raw native) = None → contents w (rh_raw native) = Some l →
  let w' := set_resident (<[ep_id m := mkResidentMapping (Some native) None ids (evaluated l)]>
              (ms_resident w)) (set_logical s' w) in
  mapped_ok w' ∧ advances None (Some cid) w0 w'.
Proof.
  intros Hok Hpub Hnone Had Hfresh Hl w'. pose proof (advances_published l cid w s' m Hpub) as Hadv.
  split.
  - destruct Hok, Hpub. split; try done; cbn.
    + intros id r [[<- <-]|[_ Hr]]%lookup_insert_Some.
      * exists m. split; [done|]. rewrite pb_tokens0. by split.
      * destruct (mo_resident id r Hr) as (m' & Hm' & Hrok). exists m'. auto.
    + intros id m' [->|Hm']%pb_old0; [rewrite lookup_insert_eq; by eexists|].
      rewrite lookup_insert_is_Some'. right. by eapply mo_known.
    + rewrite map_sum_insert_None by done. cbn. by rewrite mo_spill, N.add_0_l.
  - assert (advances None (Some cid) w0 (set_logical s' w)) as [] by
      (etrans; [apply advances_weaken, Had|done]).
    split; try done. intros id r h Hr Hh. cbn in Hr.
    apply lookup_insert_Some in Hr as [[<- <-]|[_ Hr]]; cbn in Hh; [|by eapply ad_natives].
    left. by injection Hh as <-.
Qed.

Lemma set_logical_same w : set_logical (ms_logical w) w = w.
Proof. by destruct w. Qed.

(** The publication that is prepared and checked before anything is changed. *)
Lemma announce_rule {A} cid end_ parent required complete parameters w
    (f : PreparedPublication → M MappedState ServerError.Error A)
    (Q : A → MappedState → Prop) (R : ServerError.Error → MappedState → Prop) :
  mapped_ok w →
  (∀ p c, prepared_ok p → pp_context p = cid → ep_represented_end (pp_mapping p) = end_ →
     validate_publication ptr_eq p (ms_logical w) = Ok tt →
     cs_contexts (ms_logical w) !! cid = Some c → wp (f p) Q R w) →
  (∀ e, R e w) →
  wp (publication ← on_logical (prepare_publication ptr_eq cid end_ parent required complete parameters);
      _ ← on_logical (λ s, match validate_publication ptr_eq publication s with
                           | Ok _ => Done tt s
                           | Err e => Fail e s
                           end);
      f publication) Q R w.
Proof.
  intros Hok Hf HR. rewrite wp_bind, wp_on_logical.
  eapply wp_mono; [apply prepare_ok; [done|by eapply mo_logical]|..]; cbn beta.
  2:{ intros e s [-> _]. rewrite set_logical_same. apply HR. }
  intros p s (-> & Hp & Hcid & c & Hc & _ & _ & Hend & _). rewrite set_logical_same.
  rewrite wp_bind, wp_on_logical. unfold wp_gen at 1.
  destruct (validate_publication ptr_eq p (ms_logical w)) as [[]|e] eqn:Hv; rewrite set_logical_same;
    [by eapply Hf|apply HR].
Qed.

(** The transition to a published block, up to its commit in the physical manager. *)
Lemma transition_rule {A} k revision id end_ required ids native undo w
    (m : M MappedState ServerError.Error A)
    (Q : A → MappedState → Prop) (R : ServerError.Error → MappedState → Prop) :
  mapped_ok w → room (k + 8) w → tidy undo →
  (∀ w', tame k w w' → wp m Q R w') → (∀ e w', stays w w' → R e w') →
  wp ('(transition, _, transfers) ←
        on_error (on_physical (prepare_transition EXECUTION_SLOT revision id end_ required ids false)) undo;
      _ ← for_each (λ transfer,
            on_error (on_physical (complete_transfer transfer true))
              (_ ← abort_quietly transition; undo)) transfers;
      identity ← identity_u32 native;
      _ ← on_error (on_physical (commit_mapped_transition transition revision identity)) undo;
      m) Q R w.
Proof.
  intros Hok Hroom Hundo HQ HR. rewrite wp_bind.
  assert (room (k + 4 + 4) w) as Hroom' by (eapply room_weaken; [exact Hroom|lia]).
  apply wp_mono with (Q := λ _ w1, tame (k + 4) w w1) (R := λ _ w1, stays w w1); [|cbn beta|done].
  { apply wp_guarded; [done|]. by apply prepare_transition_step. }
  intros [[transition class] transfers] w1 H1. pose proof H1 as (Hs1 & _ & Hroom1). rewrite wp_bind.
  eapply wp_mono; [apply complete_transfers_ok; [|apply Hs1|exact Hroom1]|cbn beta|cbn beta].
  { apply tidy_bind; [apply tidy_abort|done]. }
  2:{ intros e w2 H2. apply HR. by etrans. }
  intros _ w2 H2. pose proof H2 as (Hs2 & _ & Hroom2). assert (tame (k + 4) w w2) as H by by eapply tame_trans.
  rewrite wp_bind. apply identity_ok; [|intros e; apply HR, H]. intros identity.
  rewrite wp_bind.
  apply wp_mono with (Q := λ _ w3, tame k w2 w3) (R := λ _ w3, stays w2 w3).
  - apply wp_guarded; [done|]. by apply commit_transition_step; [apply Hs2|].
  - intros _ w3 H3. apply HQ. by eapply tame_trans.
  - intros e w3 H3. apply HR. etrans; [apply H|done].
Qed.

Lemma publish_block_ok k profile cid represented_end parent native l w0 w :
  mapped_ok w → room (k + N.of_nat (length (xp_required_components profile)) + 8) w →
  advances None None w0 w → contents w0 (rh_raw native) = None → contents w (rh_raw native) = Some l →
  (∀ c, cs_contexts (ms_logical w) !! cid = Some c →
     take (N.to_nat represented_end) (tokens (lc_tokens c)) = l) →
  wp (publish_block ptr_eq profile cid represented_end parent native (evaluated l))
    (λ _ w', mapped_ok w' ∧ advances None (Some cid) w0 w' ∧ room k w'
       ∧ ∃ c c', cs_contexts (ms_logical w) !! cid = Some c ∧ tokens (lc_tokens c') = tokens (lc_tokens c)
           ∧ (lc_revision c' ≤ lc_revision c + 1)%N ∧ cs_contexts (ms_logical w') !! cid = Some c')
    (λ _ w', mapped_ok w' ∧ advances None None w0 w') w.
Proof.
  intros Hok Hroom Had Hfresh Hl Htok.
  assert (∀ w', stays w w' → mapped_ok w' ∧ advances None None w0 w') as HR.
  { intros w' H. split; [apply H|]. etrans; [exact Had|apply H]. }
  unfold publish_block. cbn zeta. rewrite wp_bind.
  eapply wp_mono; [apply (executor_step hex_encode cap spill_capacity _ (λ _ _ _, True) w Hok);
    intros x; eapply wp_mono; [apply describe_spec|done|done]|cbn beta|intros e w1 H1; by apply HR].
  intros descriptor w1 (H1 & Hp1 & _). rewrite wp_bind, wp_get, wp_bind, wp_lift.
  destruct (component_bytes _ _ _) as [bytes|e]; [|by apply HR]. rewrite wp_bind.
  eapply wp_mono; [apply fallback_ok, H1|cbn beta|intros e w2 H2; apply HR; by etrans].
  intros rollback w2 [H2 Hp2]. assert (stays w w2) as Hw2 by by etrans.
  assert (room (k + 8 + N.of_nat (length (xp_required_components profile))) w2) as Hroom2.
  { unfold room in *. rewrite Hp2, Hp1. lia. }
  apply announce_rule; [apply Hw2| |intros e; by apply HR].
  intros p c Hp Hcid Hend Hv Hc. rewrite wp_bind, wp_get, wp_bind.
  apply wp_mono with (Q := λ _ w3, tame (k + 8) w2 w3) (R := λ _ w3, stays w2 w3).
  - destruct (ms_resident w2 !! _) as [r|].
    + rewrite wp_ret. apply tame_refl; [apply Hw2|]. eapply room_weaken; [exact Hroom2|lia].
    + rewrite wp_bind. eapply wp_mono.
      * apply (register_components_ok (k + 4)); [apply Hw2|]. eapply room_weaken; [exact Hroom2|].
        unfold components. rewrite length_fmap. lia.
      * cbn beta. intros ids w3 H3. rewrite wp_ret. by replace (k + 8)%N with (k + 4 + 4)%N by lia.
      * done.
  - intros [representations registered] w3 H3. pose proof H3 as (Hs3 & _ & Hroom3).
    assert (stays w w3) as Hw3 by by etrans. rewrite wp_bind, wp_get, wp_bind, wp_ok_or.
    destruct (context cid (ms_logical w3)) as [c3|] eqn:Hc3; [|by apply HR].
    rewrite wp_bind, wp_ok_or. destruct (checked_add (lc_revision c3) 1) as [revision|] eqn:Hrev; [|by apply HR].
    eapply (transition_rule k); [apply Hw3|exact Hroom3|apply tidy_bind; [apply tidy_release|apply tidy_activate]|..].
    2:{ intros e w4 H4. apply HR. by etrans. }
    intros w4 (Hs4 & _ & Hroom4). assert (stays w w4) as Hw4 by by etrans.
    pose proof Hw4 as (Hok4 & Had4 & Hr4 & Hl4 & _). pose proof Hw2 as (_ & _ & Hr2 & Hl2 & _).
    assert (ms_logical w4 = ms_logical w3) as Hl34 by (rewrite Hl4; symmetry; apply Hw3).
    assert (c3 = c) as ->.
    { unfold context in Hc3. rewrite <- Hl34, Hl4, <- Hl2 in Hc3. congruence. }
    rewrite wp_bind, wp_expect_ok, wp_on_logical.
    eapply wp_mono; [eapply (commit_publication_ok p c l w4); [done|done|congruence|congruence| |]|cbn beta|done].
    { unfold checked_add in Hrev. case_decide; [lia|done]. }
    { rewrite Hend. apply Htok. congruence. }
    intros m s' [Hid Hpub]. rewrite wp_bind. rewrite Hcid in Hpub.
    apply wp_mono with (Q := λ _ w', (mapped_ok w' ∧ advances None (Some cid) w0 w')
        ∧ ms_physical w' = ms_physical w4 ∧ ms_logical w' = s') (R := λ _ _, False); [|cbn beta|done].
    + destruct (ms_resident w2 !! _) as [r|] eqn:Hr; wp_run.
      * split; [|done]. split.
        -- eapply mapped_ok_published; [done|exact Hpub|]. rewrite Hid, Hr4, <- Hr2, Hr. by eexists.
        -- etrans; [apply advances_weaken, Had|]. etrans; [apply advances_weaken, Had4|].
           by eapply advances_published.
      * split; [|done].
        destruct (new_prefix_ok l cid w0 w4 s' m native representations) as [Hok' Had']; try done.
        -- rewrite Hid, Hr4, <- Hr2. exact Hr.
        -- by etrans.
        -- by apply (ad_kept _ _ _ _ Had4).
        -- split; [by destruct Hok'|by destruct Had'].
    + intros _ w' ([Hok' Had'] & Hp' & Hl'). rewrite wp_ret. split_and!; [done..| |].
      * unfold room in *. by rewrite Hp'.
      * destruct (pb_contexts _ _ _ _ _ Hpub) as (c1 & c2 & Hc1 & Ht & Hrev' & Hcs). exists c1, c2.
        split; [congruence|]. do 2 (split; [done|]). rewrite Hl', Hcs. apply lookup_insert_eq.
  - intros e w3 H3. apply HR. by etrans.
Qed.
End publication.
