(* ===== verification/MappedSpilling.v ===== *)
(** Spilling keeps the invariant of the mapped engine: the file of a spilled mapping
    restores it, no other file is touched, and the spilled bytes stay within their
    budget. *)

From stdpp Require Import gmap strings list numbers.
From Stdlib Require Import Lia Ascii.
From S2P Require Import Prelude TokenSequence ContextStore ContextLaws PhysicalManager PhysicalLaws PhysicalRoom.
From S2P Require Import Engine Lifecycle Inference Executor ExecutorLaws Mapped MappedLaws.

(** ** Files *)

Lemma fs_write_ok name bytes d :
  wp (fs_write name bytes) (λ _ d', dk_files d' = <[name := bytes]> (dk_files d))
    (λ _ d', ∀ n, n ≠ name → dk_files d' !! n = dk_files d !! n) d.
Proof.
  unfold fs_write, fs_call, wp_gen. destruct (dk_io d) as [|[|message [partial|]] rest]; cbn; try done.
  intros n Hn. by rewrite lookup_insert_ne.
Qed.

Lemma fs_rename_ok from to bytes d :
  dk_files d !! from = Some bytes →
  wp (fs_rename from to) (λ _ d', dk_files d' = <[to := bytes]> (delete from (dk_files d)))
    (λ _ d', dk_files d' = dk_files d) d.
Proof.
  intros Hf. unfold fs_rename, fs_call. wp_run. rewrite Hf. unfold wp_gen.
  by destruct (dk_io d) as [|[|message partial] rest].
Qed.

(** The last characters of the two kinds of names differ. *)
Fixpoint last_char (s : string) : option ascii :=
  match s with
  | EmptyString => None
  | String c EmptyString => Some c
  | String _ s' => last_char s'
  end.

Lemma last_char_app s t c : last_char t = Some c → last_char (s +:+ t) = Some c.
Proof.
  intros Ht. induction s as [|a s IH]; [done|].
  change (last_char (String a (s +:+ t)) = Some c). by destruct (s +:+ t).
Qed.

Lemma temporary_not_spilled hex_encode id id' : temporary_path hex_encode id ≠ spill_path hex_encode id'.
Proof.
  unfold temporary_path, spill_path. intros H. apply (f_equal last_char) in H.
  by rewrite (last_char_app _ ".seq.tmp" "p"%char), (last_char_app _ ".seq" "q"%char) in H.
Qed.

Section spilling.
Context `{HS : Hasher} {HSL : HasherLaws HS} `{HL : AbiLaws}.
Context (hex_encode : N → string).
Hypothesis hex_injective : Inj (=) (=) hex_encode.
Context (cap : Capacity) (spill_capacity : N).
Hypothesis spill_small : (spill_capacity < u64_max)%N.
Implicit Types (w : MappedState) (h : RepresentationHandle) (r : ResidentMapping) (id : N).

#[local] Abbreviation mapped_ok := (MappedLaws.mapped_ok hex_encode cap spill_capacity).
#[local] Abbreviation stays := (MappedLaws.stays hex_encode cap spill_capacity).
#[local] Abbreviation tame := (MappedLaws.tame hex_encode cap spill_capacity).
#[local] Abbreviation tidy := (MappedLaws.tidy hex_encode cap spill_capacity).
#[local] Existing Instance stays_trans.
#[local] Existing Instance advances_preorder.

(** ** One mapping *)

(** A change of the directory that touches no file of a spilled mapping. *)
Lemma mapped_ok_disk w d :
  mapped_ok w →
  (∀ id r sp, ms_resident w !! id = Some r → rm_native r = None → rm_spill r = Some sp →
     dk_files d !! sp_path sp = dk_files (ms_disk w) !! sp_path sp) →
  mapped_ok (set_disk d w).
Proof.
  intros [] Hd. split; try done. intros id r Hr.
  destruct (mo_resident id r Hr) as (m & Hm & [Hc Hrok]). exists m. split; [done|]. split; [done|].
  specialize (Hd id r). destruct (rm_native r), (rm_spill r) as [sp|]; try done.
  destruct Hrok as (Hp & bytes & Hf & Hrest). split; [done|]. exists bytes. cbn. by rewrite (Hd sp).
Qed.

Lemma advances_disk w d : advances None None w (set_disk d w).
Proof. split; try done. intros id r h Hr Hh. right. by exists r. Qed.

(** What one turn of spilling may change. *)
Definition spilling (k : N) (changed : N → Prop) w w' : Prop :=
  mapped_ok w' ∧ advances None None w w' ∧ room k w' ∧ ms_logical w' = ms_logical w
  ∧ (∀ id, ¬ changed id → ms_resident w' !! id = ms_resident w !! id).

Lemma spilling_tame k w w' changed : tame k w w' → spilling k changed w w'.
Proof. intros ((Hok & Ha & Hr & Hl & _) & _ & Hroom). split_and!; try done. intros id _. by rewrite Hr. Qed.

Lemma spilling_trans k changed changed' w1 w2 w3 :
  spilling k changed w1 w2 → spilling k changed' w2 w3 →
  spilling k (λ id, changed id ∨ changed' id) w1 w3.
Proof.
  intros (_ & Ha1 & _ & Hl1 & Hr1) (Hok & Ha2 & Hroom & Hl2 & Hr2).
  split_and!; [done|by etrans|done|congruence|]. intros id Hn. rewrite Hr2, Hr1; [done|tauto..].
Qed.

Lemma demote_all_ok k ids w :
  mapped_ok w → room k w →
  wp (for_each (λ representation, on_physical (demote_to_storage representation)) ids)
    (λ _ w', tame k w w' ∧ ms_disk w' = ms_disk w ∧ ms_spill_bytes w' = ms_spill_bytes w)
    (λ _ w', tame k w w') w.
Proof.
  intros Hok Hroom.
  apply (wp_for_each False _ (λ _ w', tame k w w' ∧ ms_disk w' = ms_disk w ∧ ms_spill_bytes w' = ms_spill_bytes w));
    [split; [by apply tame_refl|done]|].
  intros id rest w1 (H1 & Hd1 & Hb1). pose proof H1 as (Hs1 & _ & Hr1). rewrite wp_on_physical.
  pose proof (quiet_demote id (ms_physical w1)) as Hq.
  pose proof (demote_to_storage_ok cap (ms_physical w1) id) as Hm.
  specialize (Hm (mo_physical _ _ _ _ (proj1 Hs1))). unfold wp_gen in *.
  assert (∀ p, pm_ok cap p → (pm_next_id p ≤ pm_next_id (ms_physical w1) + 0)%N →
    (pm_clock p ≤ pm_clock (ms_physical w1) + 0)%N → tame k w1 (set_physical p w1)) as Hstep.
  { intros p Hp Hn Hc. split; [by apply stays_physical; [apply Hs1|]|]. split; [done|].
    unfold room in *. cbn. lia. }
  destruct (demote_to_storage id (ms_physical w1)) as [[] p|e p|]; [| |done].
  - split; [|done]. eapply tame_trans; [exact H1|]. by apply Hstep; [|lia..].
  - destruct Hm as [-> _]. eapply tame_trans; [exact H1|]. apply Hstep; [|lia..]. eapply mo_physical, Hs1.
Qed.

(** The mapping is in its file, and left to it. *)
Lemma spilled_ok w id r h m bytes position :
  mapped_ok w → ms_resident w !! id = Some r → rm_native r = Some h →
  mapping id (ms_logical w) = Some m →
  dk_files (ms_disk w) !! spill_path hex_encode id = Some bytes →
  restored_tokens bytes position = Some (tokens (ep_sequence m)) →
  (ms_spill_bytes w + N.of_nat (length bytes) ≤ spill_capacity)%N →
  let r' := set_spill (Some (mkSpilled (spill_path hex_encode id) (N.of_nat (length bytes)) position))
              (set_native None r) in
  let w' := set_spill_bytes (wrapping_add (ms_spill_bytes w) (N.of_nat (length bytes)))
              (set_resident (<[id := r']> (ms_resident w)) w) in
  mapped_ok w' ∧ advances None None w w'.
Proof.
  intros Hok Hr Hh Hm Hd Hl Hbytes r' w'.
  destruct (mo_resident _ _ _ _ Hok id r Hr) as (m' & Hm' & [Hc Hrok]). assert (m' = m) as -> by congruence.
  rewrite Hh in Hrok. destruct (rm_spill r) eqn:Hs; [done|].
  assert (wrapping_add (ms_spill_bytes w) (N.of_nat (length bytes))
    = ms_spill_bytes w + N.of_nat (length bytes))%N as Hw.
  { unfold wrapping_add. apply N.mod_small. lia. }
  split.
  - destruct Hok. split; try done; cbn.
    + intros id' r1 [[<- <-]|[Hne Hr1]]%lookup_insert_Some; [|by apply mo_resident].
      exists m. split; [done|]. split; [done|]. split; [done|]. by exists bytes.
    + intros id' m1 Hm1. rewrite lookup_insert_is_Some'. right. by eapply mo_known.
    + rewrite Hw. pose proof (map_sum_insert_Some spilled_bytes _ id r' r Hr) as Hsum.
      assert (spilled_bytes r = 0%N) as Hb by (unfold spilled_bytes; by rewrite Hs).
      assert (spilled_bytes r' = N.of_nat (length bytes)) as Hb' by done.
      rewrite Hb, Hb' in Hsum. rewrite mo_spill. lia.
    + by rewrite Hw.
  - split; try done. cbn. intros id' r1 h1 [[<- <-]|[_ Hr1]]%lookup_insert_Some Hh1; [done|right; by exists r1].
Qed.

Lemma spill_mapping_ok k id native r w :
  mapped_ok w → room k w → ms_resident w !! id = Some r → rm_native r = Some native →
  wp (spill_mapping hex_encode spill_capacity (id, native)) (λ _ w', spilling k (λ x, x = id) w w')
    (λ _ w', mapped_ok w' ∧ advances None None w w') w.
Proof.
  intros Hok Hroom Hr Hn. destruct (mo_resident _ _ _ _ Hok id r Hr) as (m & Hm & [Hc Hrok]).
  rewrite Hn in Hrok. destruct (rm_spill r) eqn:Hs; [done|]. unfold spill_mapping. rewrite wp_bind.
  eapply wp_mono; [apply (executor_step hex_encode cap spill_capacity _ (λ x m x', ∀ l,
    tokens_in x (rh_raw native) = Some l → restored_tokens (mst_bytes m) (mst_position m) = Some l) w Hok);
    intros x; apply export_spec|cbn beta|cbn beta; by intros e w1 (? & ? & _)].
  intros e w1 (H1 & Hp1 & _ & He). specialize (He _ Hrok).
  assert (room k w1) as Hroom1 by (unfold room in *; by rewrite Hp1).
  assert (spilling k (λ x, x = id) w w1) as Hs1.
  { destruct H1 as (? & ? & Hres & ? & _). split_and!; try done. intros. by rewrite Hres. }
  rewrite wp_bind, wp_get. cbn zeta.
  destruct (N.ltb_spec spill_capacity (saturating_add (ms_spill_bytes w1) (N.of_nat (length (mst_bytes e)))))
    as [|Hcap]; [by rewrite wp_ret|].
  assert (ms_spill_bytes w1 + N.of_nat (length (mst_bytes e)) ≤ spill_capacity)%N as Hsum.
  { unfold saturating_add in Hcap. lia. }
  pose proof H1 as (Hok1 & Had1 & Hr1 & Hl1 & _).
  assert (∀ d, (∀ n, n ≠ temporary_path hex_encode id → dk_files d !! n = dk_files (ms_disk w1) !! n) →
    mapped_ok (set_disk d w1)) as Htemp.
  { intros d Hd. apply mapped_ok_disk; [done|]. intros id' r1 sp Hr1' Hn1 Hsp1.
    destruct (mo_resident _ _ _ _ Hok1 id' r1 Hr1') as (m1 & _ & [_ Hrok1]).
    rewrite Hn1, Hsp1 in Hrok1. destruct Hrok1 as [-> _]. apply Hd, not_eq_sym, temporary_not_spilled. }
  assert (∀ d, advances None None w (set_disk d w1)) as Htempad.
  { intros d. etrans; [exact Had1|apply advances_disk]. }
  rewrite wp_bind, wp_on_disk. eapply wp_mono; [apply fs_write_ok|cbn beta|cbn beta].
  2:{ intros err d Hd. split; [by apply Htemp|done]. }
  intros _ d1 Hd1. rewrite wp_bind, wp_on_disk.
  eapply wp_mono; [apply fs_rename_ok; cbn; rewrite Hd1; apply lookup_insert_eq|cbn beta|cbn beta].
  2:{ intros err d Hd. split; [|apply (Htempad d)]. apply (Htemp d). intros n Hne. cbn in Hd. by rewrite Hd, Hd1, lookup_insert_ne. }
  intros _ d2 Hd2. cbn in Hd2. rewrite wp_bind, wp_get, wp_bind, wp_expect. cbn [ms_resident set_disk].
  rewrite Hr1, Hr, wp_bind. set (w2 := set_disk d2 (set_disk d1 w1)).
  assert (dk_files d2 !! spill_path hex_encode id = Some (mst_bytes e)) as Hfile by (rewrite Hd2; apply lookup_insert_eq).
  assert (mapped_ok w2) as Hok2.
  { apply (mapped_ok_disk w1 d2); [done|]. intros id' r1 sp Hr1' Hn1 Hsp1.
    destruct (mo_resident _ _ _ _ Hok1 id' r1 Hr1') as (m1 & _ & [_ Hrok1]).
    rewrite Hn1, Hsp1 in Hrok1. destruct Hrok1 as [-> _]. rewrite Hd2, Hd1.
    assert (id ≠ id') as Hne by (intros <-; congruence).
    rewrite lookup_insert_ne by (by intros Heq%spill_path_injective).
    rewrite delete_insert_eq. apply lookup_delete_ne, temporary_not_spilled. }
  eapply wp_mono; [apply (demote_all_ok k); [exact Hok2|exact Hroom1]|cbn beta|cbn beta].
  2:{ intros err w3 (H3 & _). split; [apply H3|]. etrans; [apply (Htempad d2)|apply H3]. }
  intros _ w3 ((H3 & _ & Hroom3) & Hdk3 & Hb3). destruct H3 as (Hok3 & Had3 & Hr3 & Hl3 & _).
  wp_run.
  destruct (spilled_ok w3 id r native m (mst_bytes e) (mst_position e)) as [Hok4 Had4]; try done.
  - rewrite Hr3. cbn. by rewrite Hr1.
  - rewrite Hl3. cbn. by rewrite Hl1.
  - by rewrite Hdk3.
  - by rewrite Hb3.
  - split_and!; [by destruct Hok4| | |cbn; rewrite Hl3; exact Hl1|].
    + etrans; [apply (Htempad d2)|]. etrans; [exact Had3|]. by destruct Had4.
    + exact Hroom3.
    + intros id' Hne. cbn. rewrite lookup_insert_ne by done. rewrite Hr3. cbn. by rewrite Hr1.
Qed.

(** ** All of them *)

Lemma spill_all_ok k candidates n w :
  mapped_ok w → room k w → base.NoDup candidates.*1 →
  Forall (λ c, ∃ r, ms_resident w !! c.1 = Some r ∧ rm_native r = Some c.2) candidates →
  wp (spill_all hex_encode spill_capacity candidates n)
    (λ _ w', spilling k (.∈ candidates.*1) w w')
    (λ _ w', mapped_ok w' ∧ advances None None w w') w.
Proof.
  revert n w. induction candidates as [|[id native] candidates IH]; intros n w Hok Hroom Hnd Hall.
  { cbn [spill_all]. rewrite wp_ret. by split_and!. }
  cbn [fmap list_fmap] in *. apply list.NoDup_cons in Hnd as [Hnot Hnd].
  apply list.Forall_cons in Hall as [(r & Hr & Hn) Hall]. cbn [spill_all]. rewrite wp_bind.
  eapply wp_mono; [by apply (spill_mapping_ok k id native r)|cbn beta|done].
  intros b w1 H1. pose proof H1 as (Hok1 & Had1 & Hroom1 & Hl1 & Hres1).
  eapply wp_mono; [apply IH; [done..|]|cbn beta|cbn beta].
  - rewrite list.Forall_forall in Hall |- *. intros c Hc. destruct (Hall c Hc) as (r1 & Hr1 & Hn1).
    exists r1. rewrite Hres1; [done|]. cbn. intros <-. by apply Hnot, (list_elem_of_fmap_2 fst _ c).
  - intros m w2 H2. pose proof (spilling_trans _ _ _ _ _ _ H1 H2) as (? & ? & ? & ? & Hres).
    split_and!; [done..|]. intros x Hx. apply Hres. rewrite elem_of_cons in Hx. tauto.
  - intros e w2 [? ?]. split; [done|]. by etrans.
Qed.

(** The candidates are resident mappings that are native, each once. *)
Lemma spill_candidates_ok order active (resident : gmap N ResidentMapping) :
  base.NoDup order →
  base.NoDup (spill_candidates order active resident).*1 ∧
  Forall (λ c, ∃ r, resident !! c.1 = Some r ∧ rm_native r = Some c.2)
    (spill_candidates order active resident).
Proof.
  unfold spill_candidates. set (f := λ id, _).
  assert (∀ id c, f id = Some c → c.1 = id ∧ ∃ r, resident !! id = Some r ∧ rm_native r = Some c.2) as Hf.
  { intros id c. unfold f. destruct (resident !! id) as [r|]; [|done]. cbn.
    destruct (rm_native r) as [h|] eqn:Hh; [|done]. cbn. destruct (_ =? _)%N; [done|].
    intros [= <-]. eauto. }
  clearbody f. induction 1 as [|id order Hnot Hnd [IH1 IH2]]; [split; constructor|]. cbn.
  destruct (f id) as [c|] eqn:Hc; [|done]. destruct (Hf _ _ Hc) as (Hid & r & Hr & Hn). split.
  - cbn. apply list.NoDup_cons. split; [|done]. rewrite Hid. intros (c' & Heq & Hc')%list_elem_of_fmap.
    apply list_elem_of_omap in Hc' as (id' & Hid' & Hc'). destruct (Hf _ _ Hc') as [Heq' _]. congruence.
  - constructor; [|done]. exists r. by rewrite Hid.
Qed.

Lemma spill_inactive_ok k en order w :
  en_spill_capacity en = spill_capacity → mapped_ok w → room k w → base.NoDup order →
  wp (spill_inactive_mappings hex_encode en order)
    (λ _ w', mapped_ok w' ∧ advances None None w w' ∧ room k w' ∧ ms_logical w' = ms_logical w)
    (λ _ w', mapped_ok w' ∧ advances None None w w') w.
Proof.
  intros Hcap Hok Hroom Hnd. unfold spill_inactive_mappings. destruct (en_spill_dir en); [|by rewrite wp_ret].
  rewrite wp_bind, wp_get, Hcap. cbn zeta. set (active := mm_active_identity _).
  pose proof (spill_candidates_ok order active (ms_resident w) Hnd) as [Hnd' Hall].
  destruct (spill_candidates order active (ms_resident w)) as [|c candidates]; [by rewrite wp_ret|].
  rewrite wp_bind.
  apply wp_mono with (Q := λ _ w1, tame k w w1) (R := λ _ _, False); [|cbn beta|done].
  - rewrite wp_ignore, wp_on_physical. pose proof (mo_physical _ _ _ _ Hok) as Hp.
    pose proof (quiet_release_binding EXECUTION_SLOT (ms_physical w)) as Hq.
    pose proof (unbind_ok cap (ms_physical w) EXECUTION_SLOT Hp) as Hm. unfold wp_gen in *.
    rewrite <- release_binding_unbind in Hm.
    destruct (release_binding EXECUTION_SLOT (ms_physical w)) as [u p|e p|]; [| |done];
      (split; [apply stays_physical; [done|]|split; [done|unfold room in *; cbn; lia]]).
    + apply Hm.
    + by destruct Hm as [-> _].
  - intros _ w1 H1. pose proof H1 as ((Hok1 & Had1 & Hr1 & Hl1 & _) & _ & Hroom1).
    eapply wp_mono; [apply (spill_all_ok k); [done|done|exact Hnd'|by rewrite Hr1]|cbn beta|cbn beta].
    + intros n w2 (? & ? & ? & ? & _). split_and!; [done|by etrans|done|congruence].
    + intros e w2 [? ?]. split; [done|]. by etrans.
Qed.
End spilling.
