(* ===== verification/MappedSessions.v ===== *)
(** Sessions of the mapped engine against their reference: what the model answers to
    a text that is evaluated from scratch, token by token. The invariant of a session
    says for each stage how its own mapping, its context and its sampler relate to
    the reference; every quantum keeps it, whatever the other sessions do. *)

From stdpp Require Import gmap strings list numbers.
From Stdlib Require Import Lia.
From S2P Require Import Prelude TokenSequence ContextStore ContextLaws PhysicalManager PhysicalLaws PhysicalRoom.
From S2P Require Import Engine Lifecycle Inference Executor ExecutorLaws Mapped MappedLaws MappedPublication.

(** ** The reference *)

Section reference.
Context `{HV : NativeView}.

Definition ends_generation (t : Z) : bool := negb (end_of_generation t =? 0)%N.

(** At most [n] tokens sampled after the text [l], each evaluated with all that
    precedes it; none after the first that ends the generation. *)
Fixpoint reference (n : nat) (sampler : CuscoSampler) (l : list Z) : list Z :=
  match n with
  | O => []
  | S n' =>
      match sample sampler (evaluated l) with
      | (Ok t, sampler') =>
          t :: (if ends_generation t then [] else reference n' sampler' (l ++ [t]))
      | (Err _, _) => []
      end
  end.

(** The text of a request, and the model's answer to it. *)
Definition text_of (request : EngineRequest) : list Z :=
  er_prior_tokens request ++ vocabulary (er_prompt request).

Definition answer (request : EngineRequest) : list Z :=
  reference (N.to_nat (er_max_tokens request))
    (fresh_sampler (er_sampling request) (er_grammar request)) (text_of request).

Definition transcript (request : EngineRequest) : list Z := text_of request ++ answer request.
End reference.

Section sessions.
Context `{HS : Hasher} {HSL : HasherLaws HS} `{HL : AbiLaws}.
Context (ptr_eq : SequenceChunk → SequenceChunk → bool) (hex_encode : N → string).
Hypothesis ptr_eq_sound : ∀ a b, ptr_eq a b = true → a = b.
Hypothesis hex_injective : Inj (=) (=) hex_encode.
Context (cap : Capacity) (spill_capacity : N).
Implicit Types (w : MappedState) (s : MappedSession) (h : RepresentationHandle)
  (r : ResidentMapping) (id cid : N) (l : list Z) (q : Quantum).

#[local] Abbreviation mapped_ok := (MappedLaws.mapped_ok hex_encode cap spill_capacity).
#[local] Abbreviation stays := (MappedLaws.stays hex_encode cap spill_capacity).
#[local] Abbreviation tame := (MappedLaws.tame hex_encode cap spill_capacity).
#[local] Existing Instance stays_trans.
#[local] Existing Instance advances_preorder.

(** ** The invariant of a session *)

(** A mapping of the session's own: not the root, not that of a prefix. *)
Definition private w (raw : CuscoRepresentation) : Prop :=
  raw ≠ rh_raw (ms_root w)
  ∧ ∀ id r h, ms_resident w !! id = Some r → rm_native r = Some h → raw ≠ rh_raw h.

(** The session's own mapping holds the tokens that are evaluated, its context all of
    its tokens. *)
Record owns w s h cid : Prop := {
  ow_active : se_active_mapping s = Some h;
  ow_context : se_logical_context s = Some cid;
  ow_contents : contents w (rh_raw h) = Some (take (N.to_nat (se_evaluated s)) (se_tokens s));
  ow_private : private w (rh_raw h);
  ow_bound : (se_evaluated s ≤ len (se_tokens s))%N;
  ow_tokens : ∃ c, cs_contexts (ms_logical w) !! cid = Some c ∧ tokens (lc_tokens c) = se_tokens s
    ∧ (lc_revision c ≤ se_evaluated s + se_generated s)%N;
  ow_next : match se_next s with
            | Some d => d = evaluated (take (N.to_nat (se_evaluated s)) (se_tokens s))
            | None => se_evaluated s = 0%N
            end;
}.

(** A session of an engine: its profile is valid, its request fits. *)
Record admitted s : Prop := {
  am_block : xp_block_size (se_profile s) ≠ 0%N;
  am_capacity : (se_context_capacity s ≤ u32_max)%N;
  am_chunk : er_prefill_chunk_tokens (se_request s) ≠ 0%N;
}.

Definition fits s : Prop :=
  (len (text_of (se_request s)) + er_max_tokens (se_request s) ≤ se_context_capacity s)%N
  ∧ (se_generated s ≤ er_max_tokens (se_request s))%N.

Definition stage_ok w s : Prop :=
  match se_stage s with
  | StPreparation => s = new_session (se_profile s) (se_context_capacity s) (se_request s)
  | StPrefill => ∃ h cid, owns w s h cid ∧ fits s ∧ se_finished s = None
      ∧ se_tokens s = text_of (se_request s) ∧ se_generated s = 0%N
  | StDecode => ∃ h cid sampler, owns w s h cid ∧ fits s ∧ se_finished s = None
      ∧ se_sampler s = Some sampler ∧ se_evaluated s = len (se_tokens s)
      ∧ ((se_generated s < er_max_tokens (se_request s))%N → is_Some (se_next s))
      ∧ length (se_tokens s) = length (text_of (se_request s)) + N.to_nat (se_generated s)
      ∧ se_tokens s ++ reference (N.to_nat (er_max_tokens (se_request s) - se_generated s)) sampler (se_tokens s)
        = transcript (se_request s)
  | StPublication => ∃ h cid, owns w s h cid ∧ se_finished s = None
      ∧ se_tokens s = transcript (se_request s)
  | StFinished => se_active_mapping s = None
      ∧ (∃ cid c, se_logical_context s = Some cid ∧ cs_contexts (ms_logical w) !! cid = Some c)
      ∧ ∃ output, se_finished s = Some output ∧ eo_successor_tokens output = transcript (se_request s)
  end.

Definition session_ok w s : Prop := admitted s ∧ stage_ok w s.

(** The mapping and the context that a session may change. *)
Definition own_mapping s : option CuscoRepresentation := rh_raw <$> se_active_mapping s.
Definition own_context s : option N := se_logical_context s.

(** ** What others do leaves a session as it is *)

Lemma private_advances own ctx w w' raw :
  advances own ctx w w' → is_Some (contents w raw) → private w raw → private w' raw.
Proof.
  intros Ha [l Hl] [Hroot Hres]. split; [by rewrite (ad_root _ _ _ _ Ha)|].
  intros id r h Hr Hh ->. destruct (ad_natives _ _ _ _ Ha id r h Hr Hh) as [Hn|(r0 & Hr0 & Hh0)]; [congruence|].
  by apply (Hres id r0 h).
Qed.

Lemma owns_advances own ctx w w' s h cid :
  advances own ctx w w' → own ≠ Some (rh_raw h) → ctx ≠ Some cid → owns w s h cid → owns w' s h cid.
Proof.
  intros Ha Hown Hctx []. split; try done.
  - by apply (ad_kept _ _ _ _ Ha).
  - eapply private_advances; [exact Ha| |done]. by eexists.
  - destruct ow_tokens0 as (c & Hc & Ht & Hrev). exists c. split; [|done]. by apply (ad_contexts _ _ _ _ Ha).
Qed.

Lemma session_ok_advances own ctx w w' s :
  advances own ctx w w' → (own = None ∨ own ≠ own_mapping s) → (ctx = None ∨ ctx ≠ own_context s) →
  session_ok w s → session_ok w' s.
Proof.
  intros Ha Hown Hctx [Had Hs]. split; [done|]. unfold stage_ok, own_mapping, own_context in *.
  assert (∀ h cid, owns w s h cid → owns w' s h cid) as Ho.
  { intros h cid Ho. pose proof (ow_active _ _ _ _ Ho) as Hh. pose proof (ow_context _ _ _ _ Ho) as Hc.
    rewrite Hh in Hown. rewrite Hc in Hctx. eapply owns_advances; [done|..|done]; naive_solver. }
  destruct (se_stage s); [done|naive_solver..|].
  destruct Hs as (Hm & (cid & c & Hcid & Hc) & Hout). split; [done|]. split; [|done].
  exists cid, c. split; [done|]. apply (ad_contexts _ _ _ _ Ha); [|done]. rewrite Hcid in Hctx. naive_solver.
Qed.

(** ** The parts of a quantum *)

Lemma wp_session (P : Prop) (Q : MappedSession → Running → Prop) R σ :
  wp_gen P session Q R σ = Q (rn_session σ) σ.
Proof. done. Qed.

Lemma wp_update (P : Prop) f (Q : unit → Running → Prop) R σ :
  wp_gen P (update f) Q R σ = Q tt (mkRunning (rn_shared σ) (f (rn_session σ))).
Proof. done. Qed.

Lemma wp_check (P : Prop) q n (Q : unit → Running → Prop) (R : ServerError.Error → Running → Prop) σ :
  Q tt σ → (∀ e, R e σ) → wp_gen P (check q n) Q R σ.
Proof. intros HQ HR. unfold check, wp_gen, lift_result. destruct (q_check q n) as [[]|e]; [done|apply HR]. Qed.

(** The abort callback may fire. *)
Lemma interruption_rule {A} q n (m : M Running ServerError.Error A) (Q : A → Running → Prop)
    (R : ServerError.Error → Running → Prop) w s :
  mapped_ok w →
  (∀ w', stays w w' → ms_physical w' = ms_physical w →
     active_in (ms_executor w') = active_in (ms_executor w) → wp m Q R (mkRunning w' s)) →
  wp (_ ← interruption q n; m) Q R (mkRunning w s).
Proof.
  intros Hok HQ. unfold interruption, cancel. rewrite wp_bind.
  destruct (q_interrupted q n); [|rewrite wp_ret; apply HQ; [by apply stays_refl|done..]].
  rewrite wp_shared, wp_on_executor, wp_modify. destruct (law_cancel (ms_executor w)) as [Hk Ha].
  apply HQ; [by apply stays_executor|done|done].
Qed.

(** The cancellation of an earlier quantum is cleared, and may come again. *)
Lemma cancel_rule {A} q (m : M Running ServerError.Error A) (Q : A → Running → Prop)
    (R : ServerError.Error → Running → Prop) w s :
  mapped_ok w →
  (∀ w', stays w w' → ms_physical w' = ms_physical w → wp m Q R (mkRunning w' s)) →
  wp (_ ← reset_cancellation; _ ← interruption q 0; m) Q R (mkRunning w s).
Proof.
  intros Hok HQ. unfold reset_cancellation, Executor.reset_cancellation.
  rewrite wp_bind, wp_shared, wp_on_executor, wp_modify. cbn [rn_shared rn_session]. set (w1 := set_executor _ w).
  assert (stays w w1) as H1 by (apply stays_executor; [done|apply law_reset]).
  apply interruption_rule; [apply H1|]. intros w2 H2 Hp2 _. apply HQ; [by etrans|by rewrite Hp2].
Qed.

Lemma advances_own own ctx w w' : advances None ctx w w' → advances own ctx w w'.
Proof. intros []. by split; [|intros; auto|..]. Qed.

(** What a quantum that fails leaves. *)
Definition failed w s w' : Prop := mapped_ok w' ∧ advances (own_mapping s) (own_context s) w w'.

Lemma failed_stays w s w' : stays w w' → failed w s w'.
Proof. intros H. split; [apply H|]. apply advances_weaken, H. Qed.

(** The room one quantum takes. *)
Definition session_room s : N := (N.of_nat (length (xp_required_components (se_profile s))) + 8)%N.

Lemma activate_owned_ok w s h cid :
  mapped_ok w → owns w s h cid →
  wp activate_owned
    (λ _ σ, rn_session σ = s ∧ stays w (rn_shared σ) ∧ ms_physical (rn_shared σ) = ms_physical w
       ∧ active_in (ms_executor (rn_shared σ)) = rh_raw h)
    (λ _ σ, stays w (rn_shared σ)) (mkRunning w s).
Proof.
  intros Hok Ho. unfold activate_owned. rewrite wp_bind, wp_session, wp_bind, wp_expect. cbn [rn_session].
  rewrite (ow_active _ _ _ _ Ho), wp_shared, wp_on_executor. cbn [rn_shared rn_session].
  eapply wp_mono; [apply activate_spec|..]; cbn beta.
  - intros _ x [Hk Ha]. split; [done|]. split; [by apply stays_executor|done].
  - intros _ x [Hk _]. by apply stays_executor.
Qed.

(** The evaluation of tokens on the active mapping, which is the session's own. *)
Lemma decode_ok w raw l tokens :
  mapped_ok w → private w raw → active_in (ms_executor w) = raw → contents w raw = Some l →
  wp (on_executor (Executor.decode tokens))
    (λ d w', mapped_ok w' ∧ advances (Some raw) None w w' ∧ ms_physical w' = ms_physical w
       ∧ ms_logical w' = ms_logical w ∧ private w' raw
       ∧ contents w' raw = Some (l ++ tokens) ∧ d = evaluated (l ++ tokens))
    (λ _ w', mapped_ok w' ∧ advances (Some raw) None w w') w.
Proof.
  intros Hok Hpriv Ha Hl. rewrite wp_on_executor.
  assert (∀ x, (∀ raw' l', raw' ≠ raw → tokens_in (ms_executor w) raw' = Some l' → tokens_in x raw' = Some l') →
    is_Some (tokens_in x raw) →
    mapped_ok (set_executor x w) ∧ advances (Some raw) None w (set_executor x w)) as Hx.
  { intros x Hk Hsome. destruct Hpriv as [Hroot Hres]. split.
    - destruct Hok. split; try done.
      + intros id r Hr. destruct (mo_resident id r Hr) as (m & Hm & [Hc Hrok]). exists m. split; [done|].
        split; [done|]. specialize (Hres id r). destruct (rm_native r) as [h|], (rm_spill r); try done.
        apply Hk; [|done]. by apply not_eq_sym, Hres.
      + apply Hk; [by apply not_eq_sym|done].
    - split; try done.
      + intros raw' [l' Hl']. destruct (decide (raw' = raw)) as [->|Hne]; [done|]. exists l'. by apply Hk.
      + intros raw' l' Hne Hl'. apply Hk; [congruence|done].
      + intros id r h Hr Hh. right. by exists r. }
  eapply wp_mono; [apply decode_spec|..]; cbn beta; rewrite Ha.
  - intros d x (Hax & Hk & Hd). destruct (Hd l Hl) as [Hc ->].
    destruct (Hx x Hk) as [H1 H2]; [by eexists|]. by split_and!.
  - intros e x (Hax & Hk & Hd). apply Hx; [done|]. apply Hd. by eexists.
Qed.

(** What the evaluation of tokens does not change. *)
Record evaluates s s' : Prop := {
  ev_profile : se_profile s' = se_profile s;
  ev_capacity : se_context_capacity s' = se_context_capacity s;
  ev_request : se_request s' = se_request s;
  ev_stage : se_stage s' = se_stage s;
  ev_tokens : se_tokens s' = se_tokens s;
  ev_sampler : se_sampler s' = se_sampler s;
  ev_generated : se_generated s' = se_generated s;
  ev_finished : se_finished s' = se_finished s;
}.

Lemma publish_completed_ok k w s h cid :
  mapped_ok w → room (k + session_room s) w → xp_block_size (se_profile s) ≠ 0%N →
  owns w s h cid → is_Some (se_next s) →
  (∀ c, cs_contexts (ms_logical w) !! cid = Some c → (lc_revision c < se_evaluated s + se_generated s)%N) →
  wp (publish_completed ptr_eq)
    (λ _ σ, mapped_ok (rn_shared σ) ∧ advances (Some (rh_raw h)) (Some cid) w (rn_shared σ)
       ∧ room k (rn_shared σ) ∧ owns (rn_shared σ) (rn_session σ) h cid ∧ evaluates s (rn_session σ)
       ∧ se_evaluated (rn_session σ) = se_evaluated s ∧ se_next (rn_session σ) = se_next s)
    (λ _ σ, mapped_ok (rn_shared σ) ∧ advances (Some (rh_raw h)) (Some cid) w (rn_shared σ)) (mkRunning w s).
Proof.
  intros Hok Hroom Hblock Ho [d Hd] Hrev. unfold publish_completed.
  rewrite wp_bind, wp_session, wp_bind, wp_expect. cbn [rn_session]. unfold divisor.
  rewrite (proj2 (N.eqb_neq _ _) Hblock). destruct (_ =? 0)%N.
  2:{ rewrite wp_ret. split_and!; [done|by apply advances_weaken| |done|by split|done|done].
      by eapply room_weaken; [exact Hroom|lia]. }
  pose proof Ho as []. rewrite wp_bind, wp_expect, ow_active0, wp_bind, wp_shared. cbn [rn_shared rn_session].
  eapply wp_mono; [by apply snapshot_ok|cbn beta|cbn beta].
  2:{ intros e w1 (Hok1 & Ha1 & _). split; [done|]. by apply advances_weaken. }
  intros n w1 (H1 & Hp1 & Hfresh & Hl). pose proof H1 as (Hok1 & Ha1 & Hres1 & Hlog1 & _).
  rewrite wp_bind, wp_expect, ow_context0, wp_bind, wp_expect, Hd, wp_bind, wp_shared. cbn [rn_shared rn_session].
  rewrite Hd in ow_next0. subst d.
  destruct ow_tokens0 as (c & Hc & Ht & Hrev').
  eapply wp_mono; [eapply (publish_block_ok ptr_eq hex_encode ptr_eq_sound cap spill_capacity k _ cid _ _ _ _ w w1);
    [done| |done|done|exact Hl|]|cbn beta|cbn beta].
  - unfold room, session_room in *. rewrite Hp1. lia.
  - intros c' Hc'. rewrite Hlog1 in Hc'. congruence.
  - intros id w2 (Hok2 & Ha2 & Hroom2 & c1 & c2 & Hc1 & Ht2 & Hrev2 & Hc2). rewrite wp_update.
    cbn [rn_shared rn_session].
    split_and!; [done|by apply advances_own|done| |by split|done|done]. split; cbn; try done; rewrite ?Hd; try done.
    + by apply (ad_kept _ _ _ _ Ha2).
    + eapply private_advances; [exact Ha2| |done]. by eexists.
    + exists c2. rewrite Hlog1 in Hc1. assert (c1 = c) as -> by congruence.
      split; [done|]. split; [congruence|]. specialize (Hrev c Hc). lia.
  - intros e w2 [Hok2 Ha2]. split; [done|]. by apply advances_weaken.
Qed.

Lemma evaluate_now_ok k q n toks ev w s h cid :
  mapped_ok w → room (k + session_room s) w → xp_block_size (se_profile s) ≠ 0%N →
  owns w s h cid → active_in (ms_executor w) = rh_raw h →
  (se_evaluated s < ev)%N → (ev ≤ len (se_tokens s))%N →
  take (N.to_nat (se_evaluated s)) (se_tokens s) ++ toks = take (N.to_nat ev) (se_tokens s) →
  wp (evaluate_now ptr_eq q n toks ev)
    (λ _ σ, mapped_ok (rn_shared σ) ∧ advances (Some (rh_raw h)) (Some cid) w (rn_shared σ)
       ∧ room k (rn_shared σ) ∧ owns (rn_shared σ) (rn_session σ) h cid ∧ evaluates s (rn_session σ)
       ∧ se_evaluated (rn_session σ) = ev ∧ is_Some (se_next (rn_session σ)))
    (λ _ σ, mapped_ok (rn_shared σ) ∧ advances (Some (rh_raw h)) (Some cid) w (rn_shared σ)) (mkRunning w s).
Proof.
  intros Hok Hroom Hblock Ho Hact Hlt Hle Htake. pose proof Ho as [].
  assert (∀ w', advances (Some (rh_raw h)) None w w' → advances (Some (rh_raw h)) (Some cid) w w') as Hweak.
  { intros w' []. by split; [..|intros; auto]. }
  unfold evaluate_now. rewrite wp_bind, wp_shared. cbn [rn_shared rn_session].
  eapply wp_mono; [by apply decode_ok|cbn beta|cbn beta].
  2:{ intros e w1 [? ?]. split; [done|]. by apply Hweak. }
  intros d w1 (Hok1 & Ha1 & Hp1 & Hl1 & Hpriv1 & Hc1 & ->). rewrite wp_bind, wp_update. cbn [rn_shared rn_session].
  rewrite wp_bind. apply wp_check; [|intros e; cbn; split; [done|by apply Hweak]].
  rewrite wp_bind, wp_shared. unfold update_metrics. rewrite wp_modify. cbn [rn_shared rn_session].
  rewrite wp_bind, wp_update. cbn [rn_shared rn_session].
  set (w2 := set_mapped_metrics _ w1). set (s2 := set_evaluated ev _).
  assert (mapped_ok w2) as Hok2 by by destruct Hok1.
  assert (advances (Some (rh_raw h)) (Some cid) w w2) as Ha2 by by destruct (Hweak _ Ha1).
  destruct ow_tokens0 as (c & Hc & Ht & Hrev).
  eapply wp_mono; [apply (publish_completed_ok k w2 s2 h cid); [done|..]|cbn beta|cbn beta].
  - unfold room, session_room in *. cbn. by rewrite Hp1.
  - done.
  - split; cbn; try done.
    + unfold contents. cbn. by rewrite <- Htake.
    + exists c. rewrite Hl1. split; [done|]. split; [done|]. lia.
    + by rewrite Htake.
  - by eexists.
  - cbn. rewrite Hl1. intros c' Hc'. assert (c' = c) as -> by congruence. lia.
  - intros _ [w3 s3] (Hok3 & Ha3 & Hroom3 & Ho3 & Hev & He3 & Hn3). cbn [rn_shared rn_session] in *.
    split_and!; [done|by etrans|done|done|by destruct Hev|done|rewrite Hn3; by eexists].
  - intros e [w3 s3] [? ?]. cbn [rn_shared rn_session] in *. split; [done|by etrans].
Qed.

Lemma evaluate_ok k q n toks ev w s h cid :
  mapped_ok w → room (k + session_room s) w → xp_block_size (se_profile s) ≠ 0%N →
  owns w s h cid → active_in (ms_executor w) = rh_raw h →
  (se_evaluated s < ev)%N → (ev ≤ len (se_tokens s))%N →
  take (N.to_nat (se_evaluated s)) (se_tokens s) ++ toks = take (N.to_nat ev) (se_tokens s) →
  wp (evaluate ptr_eq q n toks ev)
    (λ _ σ, mapped_ok (rn_shared σ) ∧ advances (Some (rh_raw h)) (Some cid) w (rn_shared σ)
       ∧ room k (rn_shared σ) ∧ owns (rn_shared σ) (rn_session σ) h cid ∧ evaluates s (rn_session σ)
       ∧ se_evaluated (rn_session σ) = ev ∧ is_Some (se_next (rn_session σ)))
    (λ _ σ, mapped_ok (rn_shared σ) ∧ advances (Some (rh_raw h)) (Some cid) w (rn_shared σ)) (mkRunning w s).
Proof.
  intros Hok Hroom Hblock Ho Hact Hlt Hle Htake. unfold evaluate. apply interruption_rule; [done|].
  intros w1 (Hok1 & Ha1 & _) Hp1 Hact1.
  eapply wp_mono; [apply (evaluate_now_ok k q n toks ev w1 s h cid); try done|cbn beta|cbn beta].
  - unfold room in *. by rewrite Hp1.
  - by eapply owns_advances.
  - congruence.
  - intros _ σ (? & ? & Hrest). split; [done|]. split; [|done]. etrans; [apply advances_weaken, Ha1|done].
  - intros e σ [? ?]. split; [done|]. etrans; [apply advances_weaken, Ha1|done].
Qed.

(** The publication of a session that is not finished: its tokens are the output. *)
Lemma publish_quantum_ok k q w s :
  mapped_ok w → room k w → se_finished s = None →
  wp (publish q)
    (λ output σ, mapped_ok (rn_shared σ) ∧ advances None None w (rn_shared σ) ∧ room k (rn_shared σ)
       ∧ eo_successor_tokens output = se_tokens s
       ∧ se_stage (rn_session σ) = StFinished ∧ se_finished (rn_session σ) = Some output
       ∧ se_active_mapping (rn_session σ) = None ∧ se_logical_context (rn_session σ) = se_logical_context s
       ∧ se_request (rn_session σ) = se_request s ∧ se_profile (rn_session σ) = se_profile s
       ∧ se_context_capacity (rn_session σ) = se_context_capacity s
       ∧ se_generated (rn_session σ) = se_generated s)
    (λ _ σ, mapped_ok (rn_shared σ) ∧ advances None None w (rn_shared σ)) (mkRunning w s).
Proof.
  intros Hok Hroom Hfin. unfold publish. rewrite wp_bind, wp_session. cbn [rn_session]. rewrite Hfin, wp_bind.
  apply wp_check; [|intros e; by split]. rewrite wp_bind, wp_update, wp_bind. cbn [rn_shared rn_session].
  apply wp_mono with (Q := λ _ σ, stays w (rn_shared σ) ∧ ms_physical (rn_shared σ) = ms_physical w
      ∧ rn_session σ = set_active_mapping None (set_sampler None s)) (R := λ _ σ, stays w (rn_shared σ)).
  - destruct (se_active_mapping s) as [active|] eqn:Hactive.
    + rewrite wp_bind, wp_update, wp_bind, wp_shared. cbn [rn_shared rn_session].
      eapply wp_mono; [by apply (fallback_ok hex_encode cap spill_capacity)|cbn beta|done].
      intros fallback w1 [H1 Hp1]. destruct (handle_eq active fallback); [by rewrite wp_ret|].
      rewrite wp_shared, wp_on_executor. cbn [rn_shared rn_session].
      eapply wp_mono; [apply activate_spec|..]; cbn beta; intros ? x [Hk _].
      * split_and!; [|done..]. etrans; [exact H1|]. by apply stays_executor; [apply H1|].
      * etrans; [exact H1|]. by apply stays_executor; [apply H1|].
    + rewrite wp_ret. split_and!; [by apply stays_refl|done|]. cbn. destruct s; cbn in *. by subst.
  - intros _ [w1 s1] (H1 & Hp1 & Hs1). cbn [rn_shared rn_session] in *. subst s1.
    rewrite wp_bind, wp_gets, wp_bind, wp_shared. cbn [rn_shared rn_session]. unfold update_metrics.
    rewrite wp_modify, wp_bind. unfold update_prefill. rewrite wp_update. cbn [rn_shared rn_session].
    rewrite wp_bind, wp_session, wp_bind, wp_update, wp_bind, wp_update, wp_ret. cbn [rn_shared rn_session].
    destruct H1 as (Hok1 & Ha1 & _).
    split_and!; try done; [by destruct Hok1|by destruct Ha1|unfold room in *; cbn; by rewrite Hp1].
  - intros e σ H. split; apply H.
Qed.

(** *** Contexts *)

Lemma mapped_ok_contexts w store :
  mapped_ok w → store_ok store → cs_mappings store = cs_mappings (ms_logical w) → mapped_ok (set_logical store w).
Proof.
  intros [] Hl Hm. assert (∀ id, mapping id store = mapping id (ms_logical w)) as Hmap.
  { intros id. unfold mapping. by rewrite Hm. }
  split; try done; cbn.
  - intros id e. rewrite Hm. apply mo_catalogued.
  - intros id r Hr. rewrite Hmap. by apply mo_resident.
  - intros id m. rewrite Hmap. by apply mo_known.
Qed.

Lemma advances_context w store cid c' :
  cs_contexts store = <[cid := c']> (cs_contexts (ms_logical w)) → advances None (Some cid) w (set_logical store w).
Proof.
  intros Hl. split; try done.
  - intros id r h Hr Hh. right. by exists r.
  - intros cid' c Hne Hc. cbn. rewrite Hl, lookup_insert_ne; [done|congruence].
Qed.

Lemma append_one_ok w cid c t :
  mapped_ok w → cs_contexts (ms_logical w) !! cid = Some c → (lc_revision c < u64_max)%N →
  wp (on_logical (append_context cid [t]))
    (λ _ w', mapped_ok w' ∧ advances None (Some cid) w w' ∧ ms_physical w' = ms_physical w
       ∧ ms_executor w' = ms_executor w
       ∧ ∃ c', cs_contexts (ms_logical w') !! cid = Some c' ∧ tokens (lc_tokens c') = tokens (lc_tokens c) ++ [t]
           ∧ lc_revision c' = (lc_revision c + 1)%N)
    (λ _ _, False) w.
Proof.
  intros Hok Hc Hrev. rewrite wp_on_logical.
  pose proof (append_context_ok (ms_logical w) cid [t] (mo_logical _ _ _ _ Hok)) as H.
  unfold wp_gen in *. destruct (append_context cid [t] (ms_logical w)) as [[] store|e store|] eqn:Happ.
  - destruct H as (Hl' & Hm & c1 & c2 & Hc1 & Hcs & Ht & _ & Hr). assert (c1 = c) as -> by congruence.
    split_and!; [by apply mapped_ok_contexts|by eapply advances_context|done..|].
    exists c2. cbn. rewrite Hcs, lookup_insert_eq. split; [done|]. split; [done|]. by rewrite Hr, decide_False.
  - destruct H as (_ & _ & H). congruence.
  - unfold append_context, get, ok_or, expect, mbind, M_bind in Happ. rewrite Hc in Happ.
    unfold checked_add in Happ. cbn -[decide] in Happ. case_decide; [done|lia].
Qed.

(** ** The quanta *)

(** How many more steps a session can take. *)
Definition remaining s : nat :=
  let unsampled := N.to_nat (er_max_tokens (se_request s) - se_generated s) in
  match se_stage s with
  | StPreparation => N.to_nat (se_context_capacity s) + 4
  | StPrefill => N.to_nat (len (se_tokens s) - se_evaluated s) + unsampled + 3
  | StDecode => unsampled + 2
  | StPublication => 1
  | StFinished => 0
  end.

(** What a step tells of the answer. *)
Definition reports s (out : SessionStep) : Prop :=
  match out with
  | Progress _ => True
  | Token t _ ended _ =>
      answer (se_request s) !! N.to_nat (se_generated s) = Some t ∧ ended = ends_generation t
  | Finished output => eo_successor_tokens output = transcript (se_request s)
  end.

Definition sampled (out : SessionStep) : N := match out with Token _ _ _ _ => 1 | _ => 0 end.

(** What a step promises. *)
Record stepped (k : N) w s (out : SessionStep) (σ : Running) : Prop := {
  st_ok : mapped_ok (rn_shared σ);
  st_advances : advances (own_mapping s) (own_context s) w (rn_shared σ);
  st_room : room k (rn_shared σ);
  st_session : session_ok (rn_shared σ) (rn_session σ);
  st_same : se_request (rn_session σ) = se_request s ∧ se_profile (rn_session σ) = se_profile s
    ∧ se_context_capacity (rn_session σ) = se_context_capacity s;
  st_mapping : own_mapping (rn_session σ) = None ∨ own_mapping (rn_session σ) = own_mapping s
    ∨ ∃ raw, own_mapping (rn_session σ) = Some raw ∧ contents w raw = None;
  st_context : own_context (rn_session σ) = own_context s
    ∨ ∃ cid, own_context (rn_session σ) = Some cid ∧ cs_contexts (ms_logical w) !! cid = None;
  st_reports : reports s out;
  st_generated : se_generated (rn_session σ) = (se_generated s + sampled out)%N;
  st_remaining : remaining (rn_session σ) < remaining s
    ∨ (rn_session σ = s ∧ ∃ output, out = Finished output);
}.

Lemma finished_step_ok k q w s s0 h cid :
  mapped_ok w → owns w s0 h cid → room k w → se_finished s = None → se_tokens s = transcript (se_request s) →
  admitted s → own_context s = own_context s0 → se_request s = se_request s0 → se_profile s = se_profile s0 →
  se_context_capacity s = se_context_capacity s0 → se_generated s = se_generated s0 →
  0 < remaining s0 →
  wp (finished_step q) (λ out σ, stepped k w s0 out σ) (λ _ σ, failed w s0 (rn_shared σ)) (mkRunning w s).
Proof.
  intros Hok Ho Hroom Hfin Htok Had Hctx Hreq Hprof Hcapa Hgen Hrem. unfold finished_step. rewrite wp_bind.
  eapply wp_mono; [by apply (publish_quantum_ok k)|cbn beta|cbn beta].
  2:{ intros e σ [? ?]. split; [done|]. by apply advances_weaken. }
  intros output [w1 s1] (Hok1 & Ha1 & Hroom1 & Hout & Hst & Hf & Hact & Hlc & Hr & Hp & Hc & Hg).
  rewrite wp_ret. cbn [rn_shared rn_session] in *.
  split; cbn [rn_shared rn_session].
  - done.
  - by apply advances_weaken.
  - done.
  - split; [destruct Had; split; congruence|]. unfold stage_ok. rewrite Hst. split; [done|]. split.
    + destruct (ow_tokens _ _ _ _ Ho) as (c & Hc' & _). exists cid, c.
      split; [unfold own_context in *; by rewrite Hlc, Hctx, (ow_context _ _ _ _ Ho)|].
      by apply (ad_contexts _ _ _ _ Ha1).
    + exists output. split; [done|]. congruence.
  - split_and!; congruence.
  - left. unfold own_mapping. by rewrite Hact.
  - left. unfold own_context in *. congruence.
  - cbn. congruence.
  - cbn. rewrite N.add_0_r. congruence.
  - left. unfold remaining at 1. by rewrite Hst.
Qed.

(** The next token of the answer is the one that is sampled next. *)
Lemma answer_next s sampler sampler' t :
  length (se_tokens s) = length (text_of (se_request s)) + N.to_nat (se_generated s) →
  se_tokens s ++ reference (N.to_nat (er_max_tokens (se_request s) - se_generated s)) sampler (se_tokens s)
    = transcript (se_request s) →
  (se_generated s < er_max_tokens (se_request s))%N →
  sample sampler (evaluated (se_tokens s)) = (Ok t, sampler') →
  answer (se_request s) !! N.to_nat (se_generated s) = Some t
  ∧ (if ends_generation t then se_tokens s ++ [t] = transcript (se_request s)
     else (se_tokens s ++ [t]) ++ reference (N.to_nat (er_max_tokens (se_request s) - (se_generated s + 1)))
            sampler' (se_tokens s ++ [t]) = transcript (se_request s)).
Proof.
  intros Hlen Href Hlt Hs.
  replace (N.to_nat (er_max_tokens (se_request s) - se_generated s))
    with (S (N.to_nat (er_max_tokens (se_request s) - (se_generated s + 1)))) in Href by lia.
  cbn [reference] in Href. rewrite Hs in Href. split.
  - assert (transcript (se_request s) !! length (se_tokens s) = Some t) as Ht.
    { rewrite <- Href. by rewrite list_lookup_middle. }
    unfold transcript in Ht. rewrite lookup_app_r in Ht by lia. rewrite <- Ht. f_equal. lia.
  - destruct (ends_generation t); [done|]. by rewrite <- app_assoc.
Qed.

(** *** Decoding *)

(** The session once a sampled token is in its tokens and its context. *)
Record appended (k : N) w s h cid sampler (t : Z) (σ : Running) : Prop := {
  ap_ok : mapped_ok (rn_shared σ);
  ap_advances : advances (Some (rh_raw h)) (Some cid) w (rn_shared σ);
  ap_room : room k (rn_shared σ);
  ap_owns : owns (rn_shared σ) (rn_session σ) h cid;
  ap_stage : if ends_generation t || (se_generated s + 1 =? er_max_tokens (se_request s))%N
             then se_stage (rn_session σ) = StPublication
             else se_stage (rn_session σ) = se_stage s ∧ is_Some (se_next (rn_session σ))
                  ∧ se_evaluated (rn_session σ) = (len (se_tokens s) + 1)%N;
  ap_same : se_request (rn_session σ) = se_request s ∧ se_profile (rn_session σ) = se_profile s
    ∧ se_context_capacity (rn_session σ) = se_context_capacity s;
  ap_tokens : se_tokens (rn_session σ) = se_tokens s ++ [t];
  ap_sampler : se_sampler (rn_session σ) = Some sampler;
  ap_finished : se_finished (rn_session σ) = None;
  ap_generated : se_generated (rn_session σ) = (se_generated s + 1)%N;
}.

Lemma append_token_rule {A} k q w s h cid sampler t (m : M Running ServerError.Error A)
    (Q : A → Running → Prop) (R : ServerError.Error → Running → Prop) :
  mapped_ok w → room (k + session_room s) w → admitted s → active_in (ms_executor w) = rh_raw h →
  owns w s h cid → fits s → se_finished s = None → se_sampler s = Some sampler →
  se_evaluated s = len (se_tokens s) → (se_generated s < er_max_tokens (se_request s))%N →
  length (se_tokens s) = length (text_of (se_request s)) + N.to_nat (se_generated s) →
  (∀ σ, appended k w s h cid sampler t σ → wp m Q R σ) →
  (∀ e σ, mapped_ok (rn_shared σ) → advances (Some (rh_raw h)) (Some cid) w (rn_shared σ) → R e σ) →
  wp (context_id ← expect (se_logical_context s);
      _ ← shared (on_logical (append_context context_id [t]));
      let generated := wrapping_add (se_generated s) 1 in
      _ ← update (set_generated generated);
      _ ← (if ends_generation t || (generated =? er_max_tokens (se_request s))%N
           then update (set_stage StPublication)
           else evaluate ptr_eq q 3 [t] (wrapping_add (se_evaluated s) 1));
      m) Q R (mkRunning w (set_tokens (se_tokens s ++ [t]) s)).
Proof.
  intros Hok Hroom [Hblock Hcap Hchunk] Hact Ho [Hfit Hmax] Hfin Hsam Hev Hlt Hlen HQ HR. pose proof Ho as [].
  assert (len (se_tokens s) = len (text_of (se_request s)) + se_generated s)%N as Hlen' by (unfold len; lia).
  destruct ow_tokens0 as (c & Hc & Ht & Hrev).
  assert (se_generated s + 1 ≤ u32_max)%N as Hg by lia.
  assert (wrapping_add (se_generated s) 1 = se_generated s + 1)%N as Hwrap.
  { unfold wrapping_add. apply N.mod_small. unfold u32_max, u64_max in *. lia. }
  assert (wrapping_add (se_evaluated s) 1 = se_evaluated s + 1)%N as Hwrap'.
  { unfold wrapping_add. apply N.mod_small. unfold u32_max, u64_max in *. lia. }
  rewrite wp_bind, wp_expect, ow_context0, wp_bind, wp_shared. cbn [rn_shared rn_session].
  eapply wp_mono; [apply (append_one_ok w cid c t); [done..|]|cbn beta|done].
  { unfold u32_max, u64_max in *. lia. }
  intros _ w1 (Hok1 & Ha1 & Hp1 & Hx1 & c1 & Hc1 & Ht1 & Hr1). rewrite Hwrap, Hwrap', wp_bind, wp_update.
  cbn [rn_shared rn_session]. set (s1 := set_generated _ _).
  assert (owns w1 s1 h cid) as Ho1.
  { split; cbn; try done.
    - apply (ad_kept _ _ _ _ Ha1); [done|]. rewrite ow_contents0. f_equal.
      rewrite take_app_le; [done|]. unfold len in *. lia.
    - eapply private_advances; [exact Ha1| |done]. by eexists.
    - unfold len in *. rewrite length_app. lia.
    - exists c1. split; [done|]. split; [by rewrite Ht1, Ht|]. lia.
    - rewrite take_app_le by (unfold len in *; lia). done. }
  rewrite wp_bind. destruct (ends_generation t || _) eqn:Hend.
  - rewrite wp_update. apply HQ. split; try done; cbn [rn_shared rn_session];
      [by apply advances_own| |by destruct Ho1|by rewrite Hend].
    unfold room in *. rewrite Hp1. lia.
  - eapply wp_mono; [apply (evaluate_ok k q 3 [t] _ w1 s1 h cid)|cbn beta|cbn beta]; try done.
    + unfold room, session_room in *. by rewrite Hp1.
    + by rewrite Hx1.
    + cbn. lia.
    + unfold len in *. cbn. rewrite length_app. cbn. lia.
    + cbn. rewrite Hev. rewrite take_app_le, !take_ge; [done|..]; unfold len; rewrite ?length_app; cbn; lia.
    + intros _ [w2 s2] (Hok2 & Ha2 & Hroom2 & Ho2 & [] & He2 & Hn2). apply HQ. cbn [rn_shared rn_session] in *.
      split; try done; cbn [rn_shared rn_session];
        [by etrans; [apply advances_own|]|rewrite Hend|by rewrite ev_sampler0|by rewrite ev_finished0].
      by rewrite He2, Hev.
    + intros e [w2 s2] [? Ha2]. apply HR; [done|]. by etrans; [apply advances_own|].
Qed.

Lemma appended_stepped k w w4 s h cid sampler sampler' t piece observation σ :
  stays w w4 → owns w s h cid → admitted s → fits s → se_stage s = StDecode →
  length (se_tokens s) = length (text_of (se_request s)) + N.to_nat (se_generated s) →
  se_tokens s ++ reference (N.to_nat (er_max_tokens (se_request s) - se_generated s)) sampler (se_tokens s)
    = transcript (se_request s) →
  (se_generated s < er_max_tokens (se_request s))%N →
  sample sampler (evaluated (se_tokens s)) = (Ok t, sampler') →
  appended k w4 (set_sampler (Some sampler') s) h cid sampler' t σ →
  stepped k w s (Token t piece (ends_generation t) observation) σ.
Proof.
  intros H4 Ho Had Hfits Hstage Hlen Href Hlt Hs [].
  cbn [se_request se_generated se_tokens se_stage se_profile se_context_capacity set_sampler] in *.
  destruct (answer_next s sampler sampler' t Hlen Href Hlt Hs) as [Hans Htr].
  destruct ap_same0 as (Hr & Hp & Hc).
  assert (own_mapping s = Some (rh_raw h)) as Hm by (unfold own_mapping; by rewrite (ow_active _ _ _ _ Ho)).
  assert (own_context s = Some cid) as Hcid by apply (ow_context _ _ _ _ Ho).
  split; try done.
  - rewrite Hm, Hcid. etrans; [apply advances_weaken, H4|done].
  - split; [destruct Had; split; congruence|]. unfold stage_ok.
    destruct (ends_generation t) eqn:Hend; cbn [orb] in ap_stage0.
    + rewrite ap_stage0. exists h, cid. split_and!; [done..|congruence].
    + destruct (N.eqb_spec (se_generated s + 1) (er_max_tokens (se_request s))) as [Heq|Hne].
      * rewrite ap_stage0. exists h, cid. split_and!; [done..|].
        rewrite Heq, N.sub_diag in Htr. cbn in Htr. rewrite app_nil_r in Htr. congruence.
      * destruct ap_stage0 as (Hst & Hnext & Hev). rewrite Hst, Hstage. exists h, cid, sampler'.
        rewrite Hr, ap_tokens0, ap_generated0. unfold fits in *. rewrite Hr, Hc, ap_generated0.
        split_and!; try done; [apply Hfits|lia|by rewrite Hev; unfold len; rewrite length_app; cbn; lia|].
        rewrite length_app. cbn. lia.
  - right. left. unfold own_mapping in *. rewrite (ow_active _ _ _ _ ap_owns0). by rewrite Hm.
  - left. unfold own_context in *. rewrite (ow_context _ _ _ _ ap_owns0). by rewrite Hcid.
  - left. unfold remaining. rewrite Hstage, Hr, ap_generated0.
    destruct (ends_generation t || _); [rewrite ap_stage0; lia|].
    destruct ap_stage0 as (-> & _). rewrite Hstage. lia.
Qed.

Lemma decode_quantum_ok k q w s :
  mapped_ok w → room (k + session_room s) w → session_ok w s → se_stage s = StDecode →
  wp (Mapped.decode ptr_eq q) (λ out σ, stepped k w s out σ) (λ _ σ, failed w s (rn_shared σ)) (mkRunning w s).
Proof.
  intros Hok Hroom [Had Hst] Hstage. unfold stage_ok in Hst. rewrite Hstage in Hst.
  destruct Hst as (h & cid & sampler & Ho & Hfits & Hfin & Hsam & Hev & Hnext & Hlen & Href).
  unfold Mapped.decode. rewrite wp_bind, wp_session. cbn [rn_session].
  destruct (N.leb_spec (er_max_tokens (se_request s)) (se_generated s)) as [Hle|Hlt].
  { replace (er_max_tokens (se_request s) - se_generated s)%N with 0%N in Href by lia.
    cbn in Href. rewrite app_nil_r in Href.
    rewrite wp_bind, wp_update. cbn [rn_shared rn_session].
    apply (finished_step_ok k q w _ s h cid); try done; [by eapply room_weaken; [exact Hroom|lia]|by destruct Had|].
    unfold remaining. rewrite Hstage. lia. }
  rewrite wp_bind. apply wp_check; [|intros e; by apply failed_stays, stays_refl].
  apply cancel_rule; [done|]. intros w1 H1 Hp1. rewrite wp_bind.
  apply wp_check; [|intros e; by apply failed_stays]. rewrite wp_bind.
  assert (owns w1 s h cid) as Ho1 by (eapply owns_advances; [apply H1|done..]).
  eapply wp_mono; [apply (activate_owned_ok w1 s h cid); [apply H1|done]|cbn beta|cbn beta].
  2:{ intros e [w2 s2] H2. apply failed_stays. cbn in *. by etrans. }
  intros _ [w2 s2] (Hs2 & H2 & Hp2 & Ha2). cbn [rn_shared rn_session] in *. subst s2.
  assert (stays w w2) as Hw2 by by etrans.
  assert (room (k + session_room s) w2) as Hroom2 by (unfold room in *; by rewrite Hp2, Hp1).
  clear w1 H1 Ho1 H2 Hp1 Hp2.
  assert (is_Some (se_next s)) as [d Hd] by by apply Hnext.
  pose proof (ow_next _ _ _ _ Ho) as Hd'. rewrite Hd, Hev, take_ge in Hd' by (unfold len; lia). subst d.
  rewrite wp_bind, wp_expect, Hsam, wp_bind, wp_expect, Hd.
  destruct (sample sampler (evaluated (se_tokens s))) as [[t|e] sampler'] eqn:Hs; cbn beta iota;
    rewrite wp_bind, wp_update, wp_bind, wp_shared, wp_on_executor, wp_lift; cbn [rn_shared rn_session];
    set (w3 := set_executor (ms_executor w2) w2);
    (assert (stays w w3) as Hw3 by (etrans; [exact Hw2|]; apply stays_executor; [apply Hw2|by intros ? ?])).
  2:{ by apply failed_stays. }
  rewrite wp_bind, wp_gets. cbn zeta. cbn [rn_shared rn_session].
  assert (token_is_eog (ms_executor w3) t = ends_generation t) as ->.
  { unfold token_is_eog, ends_generation. by rewrite law_end_of_generation. }
  rewrite wp_bind.
  apply wp_mono with (Q := λ _ σ, stays w (rn_shared σ) ∧ ms_physical (rn_shared σ) = ms_physical w3
      ∧ active_in (ms_executor (rn_shared σ)) = rh_raw h ∧ rn_session σ = set_sampler (Some sampler') s)
    (R := λ _ σ, stays w (rn_shared σ)).
  - destruct (ends_generation t); [by rewrite wp_ret|]. rewrite wp_shared, wp_on_executor. cbn [rn_shared rn_session].
    eapply wp_mono; [apply render_spec|..]; cbn beta.
    + intros piece x [Hk Ha]. split_and!; [|done| |done]; cbn.
      * etrans; [exact Hw3|]. apply stays_executor; [apply Hw3|done].
      * rewrite Ha. exact Ha2.
    + intros e x [Hk _]. etrans; [exact Hw3|]. apply stays_executor; [apply Hw3|done].
  - cbn beta. intros piece [w4 s4] (H4 & Hp4 & Ha4 & Hs4). cbn [rn_shared rn_session] in *. subst s4.
    rewrite wp_bind. apply wp_check; [|intros e; by apply failed_stays].
    rewrite wp_bind, wp_update. cbn [rn_shared rn_session].
    apply (append_token_rule k q w4 (set_sampler (Some sampler') s) h cid sampler' t); try done.
    + apply H4.
    + unfold room, session_room in *. by rewrite Hp4.
    + by destruct Had.
    + destruct (owns_advances None None w w4 s h cid); [apply H4|done..|]. by split.
    + intros σ Hap. rewrite wp_ret. by eapply appended_stepped.
    + intros e [w5 s5] Hok5 Ha5. cbn [rn_shared] in *. split; [done|].
      unfold own_mapping, own_context. rewrite (ow_active _ _ _ _ Ho), (ow_context _ _ _ _ Ho). cbn.
      etrans; [apply advances_weaken, H4|done].
  - cbn beta. intros e [w4 s4] H4. by apply failed_stays.
Qed.

(** *** Prefill *)

(** A turn of the prefill goes on, within the text. *)
Lemma prefill_end_bounds s :
  admitted s → (len (se_tokens s) ≤ u32_max)%N → (se_evaluated s < len (se_tokens s))%N →
  (se_evaluated s < prefill_end s ≤ len (se_tokens s))%N.
Proof.
  intros [Hblock _ Hchunk] Hlen Hlt. unfold prefill_end, saturating_mul, saturating_add.
  pose proof (N.div_mod (se_evaluated s) (xp_block_size (se_profile s)) Hblock) as Hdiv.
  pose proof (N.mod_lt (se_evaluated s) (xp_block_size (se_profile s)) Hblock) as Hmod.
  set (b := xp_block_size (se_profile s)) in *. set (n := (se_evaluated s / b)%N) in *.
  assert (se_evaluated s < (n + 1) * b)%N by nia.
  unfold u32_max, u64_max in *. lia.
Qed.

(** A session that goes on with its mapping and its context. *)
Lemma stepped_on k w s out σ h cid :
  owns w s h cid → owns (rn_shared σ) (rn_session σ) h cid →
  mapped_ok (rn_shared σ) → advances (Some (rh_raw h)) (Some cid) w (rn_shared σ) → room k (rn_shared σ) →
  session_ok (rn_shared σ) (rn_session σ) →
  (se_request (rn_session σ) = se_request s ∧ se_profile (rn_session σ) = se_profile s
   ∧ se_context_capacity (rn_session σ) = se_context_capacity s) →
  reports s out → se_generated (rn_session σ) = (se_generated s + sampled out)%N →
  remaining (rn_session σ) < remaining s → stepped k w s out σ.
Proof.
  intros Ho Ho' Hok Ha Hroom Hs Hsame Hrep Hgen Hrem. split; try done; [..|by left]; unfold own_mapping, own_context.
  - by rewrite (ow_active _ _ _ _ Ho), (ow_context _ _ _ _ Ho).
  - right. left. by rewrite (ow_active _ _ _ _ Ho), (ow_active _ _ _ _ Ho').
  - left. by rewrite (ow_context _ _ _ _ Ho), (ow_context _ _ _ _ Ho').
Qed.

Lemma stepped_stays k w w2 s out σ : stays w w2 → stepped k w2 s out σ → stepped k w s out σ.
Proof.
  intros (_ & Ha & _ & Hl & _) []. split; try done.
  - etrans; [apply advances_weaken, Ha|done].
  - destruct st_mapping0 as [|[|(raw & Hraw & Hn)]]; [auto..|]. right. right. exists raw. split; [done|].
    destruct (contents w raw) eqn:Hc; [|done]. apply (ad_kept _ _ _ _ Ha) in Hc; [congruence|done].
  - by rewrite <- Hl.
Qed.

(** The whole text is evaluated: the sampler is made. *)
Lemma sampler_ok k w s h cid observation :
  mapped_ok w → room (k + session_room s) w → admitted s → owns w s h cid → fits s →
  se_finished s = None → se_tokens s = text_of (se_request s) → se_generated s = 0%N →
  se_stage s = StPrefill → (len (se_tokens s) ≤ se_evaluated s)%N →
  ((0 < er_max_tokens (se_request s))%N → is_Some (se_next s)) →
  wp (sampler ← shared (on_executor (sampler_with_grammar (er_sampling (se_request s)) (er_grammar (se_request s))));
      _ ← update (set_sampler (Some sampler));
      _ ← update (set_stage StDecode);
      mret (Progress observation))
    (λ out σ, stepped k w s out σ) (λ _ σ, failed w s (rn_shared σ)) (mkRunning w s).
Proof.
  intros Hok Hroom Had Ho Hfits Hfin Htok Hgen Hstage Hle Hnext.
  rewrite wp_bind, wp_shared. cbn [rn_shared rn_session].
  eapply wp_mono; [apply (executor_step hex_encode cap spill_capacity _ (λ x sampler x',
    sampler = fresh_sampler (er_sampling (se_request s)) (er_grammar (se_request s))) w Hok);
    intros x; apply sampler_spec|cbn beta|cbn beta; intros e w1 H1; by apply failed_stays].
  intros sampler w1 (H1 & Hp1 & _ & ->). rewrite wp_bind, wp_update, wp_bind, wp_update, wp_ret. cbn [rn_shared rn_session].
  assert (owns w1 s h cid) as Ho1 by (eapply owns_advances; [apply H1|done..]).
  eapply (stepped_on k w s _ _ h cid); cbn [rn_shared rn_session]; try done.
  - by destruct Ho1.
  - apply H1.
  - apply advances_weaken, H1.
  - unfold room in *. rewrite Hp1. lia.
  - split; [by destruct Had|]. exists h, cid, (fresh_sampler (er_sampling (se_request s)) (er_grammar (se_request s))).
    cbn. split_and!; try done; [by destruct Ho1|..].
    + pose proof (ow_bound _ _ _ _ Ho). lia.
    + intros Hlt. apply Hnext. lia.
    + rewrite Htok, Hgen. lia.
    + by rewrite Hgen, N.sub_0_r, Htok.
  - cbn. by rewrite N.add_0_r.
  - unfold remaining. rewrite Hstage. cbn. lia.
Qed.

Lemma slice_some (from to : N) (l : list Z) :
  (from ≤ to)%N → (to ≤ len l)%N →
  ∃ batch, slice from to l = Some batch ∧ take (N.to_nat from) l ++ batch = take (N.to_nat to) l.
Proof.
  intros Hle Hto. unfold slice. rewrite (proj2 (N.leb_le _ _) Hle), (proj2 (N.leb_le _ _) Hto). cbn.
  eexists. split; [done|]. rewrite <- (take_drop (N.to_nat from) (take (N.to_nat to) l)) at 2.
  f_equal. rewrite take_take. f_equal. lia.
Qed.

(** A batch of the text is evaluated. *)
Lemma batch_ok k q w s h cid end_ batch observation (p : PrefillMetrics → PrefillMetrics) :
  mapped_ok w → room (k + session_room s) w → admitted s → active_in (ms_executor w) = rh_raw h →
  owns w s h cid → fits s → se_finished s = None → se_tokens s = text_of (se_request s) →
  se_generated s = 0%N → se_stage s = StPrefill → (se_evaluated s < end_ ≤ len (se_tokens s))%N →
  take (N.to_nat (se_evaluated s)) (se_tokens s) ++ batch = take (N.to_nat end_) (se_tokens s) →
  wp (_ ← evaluate ptr_eq q 2 batch end_; _ ← update_prefill p; mret (Progress observation))
    (λ out σ, stepped k w s out σ) (λ _ σ, failed w s (rn_shared σ)) (mkRunning w s).
Proof.
  intros Hok Hroom Had Hact Ho Hfits Hfin Htok Hgen Hstage [Hlt Hle] Htake. rewrite wp_bind.
  eapply wp_mono; [apply (evaluate_ok k q 2 batch end_ w s h cid); try done; apply Had|cbn beta|cbn beta].
  - intros _ [w1 s1] (Hok1 & Ha1 & Hroom1 & Ho1 & [] & He1 & Hn1). cbn [rn_shared rn_session] in *.
    unfold update_prefill. rewrite wp_bind, wp_update, wp_ret. cbn [rn_shared rn_session].
    eapply (stepped_on k w s _ _ h cid); cbn [rn_shared rn_session]; try done.
    + by destruct Ho1.
    + split; [destruct Had; split; cbn; congruence|]. unfold stage_ok. cbn. rewrite ev_stage0, Hstage.
      exists h, cid. unfold fits in *. cbn. rewrite ev_generated0, ev_request0, ev_tokens0, ev_capacity0, ev_finished0.
      split_and!; try done; [by destruct Ho1|apply Hfits|apply Hfits].
    + cbn. rewrite ev_generated0. by rewrite N.add_0_r.
    + unfold remaining. cbn. rewrite ev_stage0, Hstage, ev_tokens0, ev_request0, ev_generated0, He1. lia.
  - intros e [w1 s1] [? ?]. cbn [rn_shared] in *. split; [done|]. unfold own_mapping, own_context.
    by rewrite (ow_active _ _ _ _ Ho), (ow_context _ _ _ _ Ho).
Qed.

Lemma prefill_ok k q w s :
  mapped_ok w → room (k + session_room s) w → session_ok w s → se_stage s = StPrefill →
  wp (prefill ptr_eq q) (λ out σ, stepped k w s out σ) (λ _ σ, failed w s (rn_shared σ)) (mkRunning w s).
Proof.
  intros Hok Hroom [Had Hst] Hstage. unfold stage_ok in Hst. rewrite Hstage in Hst.
  destruct Hst as (h & cid & Ho & Hfits & Hfin & Htok & Hgen).
  unfold prefill. rewrite wp_bind, wp_session. cbn [rn_session].
  destruct (N.leb_spec (len (se_tokens s)) (se_evaluated s)) as [Hle|Hlt].
  - rewrite wp_bind, wp_guard_not. destruct (_ && _) eqn:Hg; [by apply failed_stays, stays_refl|].
    eapply sampler_ok; try done. intros Hpos. rewrite (proj2 (N.ltb_lt _ _) Hpos) in Hg.
    apply bool_decide_eq_false in Hg. by apply not_eq_None_Some.
  - rewrite wp_bind. apply wp_check; [|intros e; by apply failed_stays, stays_refl].
    apply cancel_rule; [done|]. intros w1 H1 Hp1. rewrite wp_bind.
    apply wp_check; [|intros e; by apply failed_stays]. rewrite wp_bind.
    assert (owns w1 s h cid) as Ho1 by (eapply owns_advances; [apply H1|done..]).
    eapply wp_mono; [apply (activate_owned_ok w1 s h cid); [apply H1|done]|cbn beta|cbn beta].
    2:{ intros e [w2 s2] H2. apply failed_stays. cbn in *. by etrans. }
    intros _ [w2 s2] (Hs2 & H2 & Hp2 & Ha2). cbn [rn_shared rn_session] in *. subst s2.
    assert (stays w w2) as Hw2 by by etrans.
    assert (len (se_tokens s) ≤ u32_max)%N as Hlen.
    { destruct Hfits, Had. rewrite Htok. lia. }
    destruct (prefill_end_bounds s Had Hlen Hlt) as [Hlow Hhigh].
    destruct (slice_some (se_evaluated s) (prefill_end s) (se_tokens s)) as (batch & Hb & Htake); [lia|done|].
    rewrite wp_bind, wp_expect. unfold divisor. rewrite (proj2 (N.eqb_neq _ _) (am_block _ Had)).
    cbn zeta. rewrite wp_bind, wp_expect, Hb.
    eapply wp_mono; [apply (batch_ok k q w2 s h cid (prefill_end s) batch); try done|cbn beta|cbn beta].
    + apply Hw2.
    + unfold room in *. by rewrite Hp2, Hp1.
    + eapply owns_advances; [apply Hw2|done..].
    + intros out σ. by apply stepped_stays.
    + intros e σ [? ?]. split; [done|]. etrans; [apply advances_weaken, Hw2|done].
Qed.

(** *** Preparation *)

(** A context for the text, and the longest prefix of it that is known. *)
Lemma lookup_rule {A} toks w s (f : N → option EvaluatedPrefix → M Running ServerError.Error A)
    (Q : A → Running → Prop) (R : ServerError.Error → Running → Prop) :
  mapped_ok w → (cs_next_context (ms_logical w) < u64_max)%N →
  (∀ w' cid c prefix, mapped_ok w' → advances None None w w' → ms_physical w' = ms_physical w →
     cs_contexts (ms_logical w) !! cid = None → cs_contexts (ms_logical w') !! cid = Some c →
     tokens (lc_tokens c) = toks → lc_revision c = 0%N →
     (∀ m, prefix = Some m → mapping (ep_id m) (ms_logical w') = Some m
        ∧ ep_represented_end m ≤ length toks ∧ tokens (ep_sequence m) = take (ep_represented_end m) toks) →
     wp (f cid prefix) Q R (mkRunning w' s)) →
  wp (context_id ← shared (on_logical (create (append default_sequence toks) (ms_model_epoch w) ADAPTER_EPOCH));
      prefix ← shared (on_logical (λ store, match longest_valid_prefix ptr_eq context_id store with
                                            | Ok p => Done p store
                                            | Err e => Fail e store
                                        end));
      f context_id prefix) Q R (mkRunning w s).
Proof.
  intros Hok Hnext HQ. rewrite wp_bind, wp_shared, wp_on_logical. cbn [rn_shared rn_session].
  destruct (append_ok default_sequence toks I) as [Hseq Hview].
  eapply wp_mono; [apply create_ok; [by eapply mo_logical|exact Hseq|done]|cbn beta|done].
  intros cid store (Hstore & -> & _ & Hfresh & Hcs & Hm). set (w1 := set_logical store w).
  set (c := mkLogicalContext _ _ _ _ _ _) in Hcs.
  assert (cs_contexts store !! cs_next_context (ms_logical w) = Some c) as Hc by (rewrite Hcs; apply lookup_insert_eq).
  assert (mapped_ok w1) as Hok1 by by apply mapped_ok_contexts.
  assert (advances None None w w1) as Ha1.
  { split; try done; [intros id r h Hr Hh; right; by exists r|].
    intros cid' c' _ Hc'. cbn. rewrite Hcs, lookup_insert_ne; [done|congruence]. }
  rewrite wp_bind, wp_shared, wp_on_logical. cbn [rn_shared rn_session]. unfold wp_gen at 1.
  destruct (longest_valid_prefix_spec ptr_eq ptr_eq_sound store _ c Hstore Hc) as (prefix & Hp & Hspec).
  cbn [ms_logical set_logical w1]. rewrite Hp.
  replace (set_logical store w1) with w1 by by destruct w.
  assert (tokens (append default_sequence toks) = toks) as Htoks by by rewrite tokens_view, Hview.
  apply (HQ w1 _ c prefix); try done.
  intros m ->. destruct Hspec as (Hmap & (_ & _ & Hle & Ht & _) & _). cbn in Hle, Ht.
  rewrite Htoks in Hle, Ht. done.
Qed.

Lemma fresh_private w raw : mapped_ok w → contents w raw = None → private w raw.
Proof.
  intros [] Hn. split; [congruence|]. intros id r h Hr Hh ->.
  destruct (mo_resident id r Hr) as (m & _ & _ & Hrok). rewrite Hh in Hrok.
  destruct (rm_spill r); [done|congruence].
Qed.

(** The session's own mapping: a fork of the one that holds the prefix. *)
Lemma resume_rule {A} k cid prefix w s (f : RepresentationHandle → M Running ServerError.Error A)
    (Q : A → Running → Prop) (R : ServerError.Error → Running → Prop) :
  mapped_ok w → room (k + 8) w →
  (∀ m, prefix = Some m → mapping (ep_id m) (ms_logical w) = Some m) →
  (∀ w' h, mapped_ok w' → advances None None w w' → room k w' → ms_logical w' = ms_logical w →
     contents w (rh_raw h) = None → contents w' (rh_raw h) = Some (prefix_tokens prefix) → private w' (rh_raw h) →
     wp (f h) Q R (mkRunning w' s)) →
  (∀ e w', mapped_ok w' → advances None None w w' → R e (mkRunning w' s)) →
  wp (_ ← shared (activate_prefix cid prefix);
      source ← shared (on_executor active_representation);
      h ← shared (fork_for_request_branch source); f h) Q R (mkRunning w s).
Proof.
  intros Hok Hroom Hprefix HQ HR. rewrite wp_bind, wp_shared. cbn [rn_shared rn_session].
  eapply wp_mono; [by apply (activate_prefix_ok hex_encode hex_injective cap spill_capacity k)|cbn beta|cbn beta].
  2:{ intros e w1 [? ?]. by apply HR. }
  intros _ w1 ([Hok1 Ha1] & Hroom1 & Hl1 & Hc1). rewrite wp_bind, wp_shared. cbn [rn_shared rn_session].
  eapply wp_mono; [apply (executor_step hex_encode cap spill_capacity _ (λ x n x', rh_raw n = active_in x) w1 Hok1);
    intros x; apply active_representation_spec|cbn beta|cbn beta].
  2:{ intros e w2 (Hok2 & Ha2 & _). apply HR; [done|by etrans]. }
  intros source w2 ((Hok2 & Ha2 & _ & Hl2 & _) & Hp2 & _ & Hsource). rewrite wp_bind, wp_shared. cbn [rn_shared rn_session].
  apply (ad_kept _ _ _ _ Ha2) in Hc1; [|done]. rewrite <- Hsource in Hc1.
  eapply wp_mono; [apply (fork_ok hex_encode cap spill_capacity source _ w2 Hok2 Hc1)|cbn beta|cbn beta].
  2:{ intros e w3 (Hok3 & Ha3 & _). apply HR; [done|]. etrans; [exact Ha1|]. by etrans. }
  intros h w3 ((Hok3 & Ha3 & Hr3 & Hl3 & _) & Hp3 & Hfresh & Hc3).
  assert (advances None None w w2) as Ha by by etrans.
  apply HQ; try done.
  - by etrans.
  - unfold room in *. by rewrite Hp3, Hp2.
  - congruence.
  - destruct (contents w (rh_raw h)) eqn:Hn; [|done]. apply (ad_kept _ _ _ _ Ha) in Hn; [congruence|done].
  - unfold private. rewrite (ad_root _ _ _ _ Ha3), Hr3. by apply fresh_private.
Qed.

Lemma prepare_quantum_ok k q w s :
  mapped_ok w → room (k + session_room s) w → (cs_next_context (ms_logical w) < u64_max)%N →
  session_ok w s → se_stage s = StPreparation →
  wp (prepare ptr_eq q) (λ out σ, stepped k w s out σ) (λ _ σ, failed w s (rn_shared σ)) (mkRunning w s).
Proof.
  intros Hok Hroom Hnext [Had Hst] Hstage. unfold stage_ok in Hst. rewrite Hstage in Hst.
  remember (se_profile s) as profile eqn:Hprof. remember (se_context_capacity s) as capacity eqn:Hcapa.
  remember (se_request s) as request eqn:Hreq. subst s.
  unfold prepare. rewrite wp_bind. apply wp_check; [|intros e; by apply failed_stays, stays_refl].
  apply cancel_rule; [done|]. intros w1 H1 Hp1. rewrite wp_bind, wp_session. cbn [rn_session].
  cbn zeta. rewrite wp_bind, wp_shared. cbn [rn_shared rn_session].
  eapply wp_mono; [apply (executor_step hex_encode cap spill_capacity _ (λ x toks x',
    toks = vocabulary (er_prompt request)) w1 (proj1 H1)); intros x; apply tokenize_spec|cbn beta|cbn beta].
  2:{ intros e w2 H2. apply failed_stays. cbn. by etrans. }
  intros prompt w2 (H2 & Hp2 & _ & ->). assert (stays w w2) as Hw2 by by etrans.
  rewrite wp_bind. apply wp_check; [|intros e; by apply failed_stays].
  unfold update_prefill. rewrite wp_bind, wp_update, wp_bind, wp_update, wp_bind, wp_ok_or.
  cbn [se_request new_session].
  destruct (checked_add (len (er_prior_tokens request)) _ ≫= _) as [total|] eqn:Htotal; [|by apply failed_stays].
  rewrite wp_bind, wp_guard_not. destruct (N.ltb_spec (se_context_capacity (new_session profile capacity request)) total)
    as [|Hfit]; [by apply failed_stays|].
  rewrite wp_bind, wp_update, wp_bind, wp_gets. cbn [rn_shared rn_session].
  fold (text_of request). pose proof Hw2 as (Hok2 & Ha2 & _ & Hl2 & _).
  apply lookup_rule; [done|by rewrite Hl2|]. intros w3 cid c prefix Hok3 Ha3 Hp3 Hcid Hc Htoks Hrev Hprefix.
  rewrite Hl2 in Hcid. assert (advances None None w w3) as Hw3 by by etrans.
  rewrite wp_bind, wp_update, wp_bind, wp_gets, wp_bind, wp_update. cbn [rn_shared rn_session].
  apply (resume_rule (k + N.of_nat (length (xp_required_components profile))) cid prefix); [done| |by intros m Hm; apply Hprefix|..].
  { unfold room, session_room in *. cbn in Hroom. rewrite Hp3, Hp2, Hp1. lia. }
  2:{ intros e w4 Hok4 Ha4. split; [done|]. by etrans. }
  intros w4 h Hok4 Ha4 Hroom4 Hl4 Hfresh Hh Hpriv.
  rewrite wp_bind, wp_update, wp_bind, wp_gets, wp_bind, wp_update, wp_bind, wp_update, wp_bind, wp_update, wp_ret.
  cbn [rn_shared rn_session].
  assert (fits (new_session profile capacity request)) as Hfits.
  { unfold fits. cbn in Hfit |- *. split; [|apply N.le_0_l].
    destruct (checked_add (len (er_prior_tokens request)) _) as [sum|] eqn:Hsum; [|done]. cbn in Htotal.
    unfold checked_add in *. unfold text_of, len in *. rewrite length_app. repeat case_decide; simplify_eq. lia. }
  set (cached := match prefix with Some p => N.of_nat (ep_represented_end p) | None => 0%N end).
  assert (prefix_tokens prefix = take (N.to_nat cached) (text_of request)
    ∧ (cached ≤ len (text_of request))%N) as [Hcached Hbound].
  { unfold cached, prefix_tokens. destruct prefix as [m|]; [|split; [done|apply N.le_0_l]].
    destruct (Hprefix m eq_refl) as (_ & Hle & ->). rewrite Nat2N.id. split; [done|unfold len; lia]. }
  assert (match rm_continuation <$> (prefix ≫= λ p, ms_resident w3 !! ep_id p) with
          | Some d => d = evaluated (take (N.to_nat cached) (text_of request))
          | None => cached = 0%N
          end) as Hcont.
  { rewrite <- Hcached. destruct prefix as [m|]; [|done]. cbn.
    destruct (Hprefix m eq_refl) as (Hm & _). destruct (mo_known _ _ _ _ Hok3 _ _ Hm) as [r Hr].
    rewrite Hr. cbn. destruct (mo_resident _ _ _ _ Hok3 _ _ Hr) as (m' & Hm' & [Hc' _]).
    rewrite Hc'. congruence. }
  split; cbn [rn_shared rn_session]; try done.
  - etrans; [exact Hw3|done].
  - by eapply room_weaken; [exact Hroom4|lia].
  - split; [by destruct Had|]. exists h, cid. split; [|by split; [exact Hfits|]].
    split; cbn; try done; [by rewrite <- Hcached|].
    exists c. rewrite Hl4. split; [done|]. split; [done|]. lia.
  - right. right. exists (rh_raw h). split; [done|].
    destruct (contents w (rh_raw h)) eqn:Hn; [|done]. apply (ad_kept _ _ _ _ Hw3) in Hn; [congruence|done].
  - right. by exists cid.
  - left. cbn. unfold fits in Hfits. cbn in Hfits |- *. unfold len in *. lia.
Qed.

(** ** Sessions as a whole *)

(** What the session has of the transcript so far. *)
Lemma tokens_prefix w s : session_ok w s → se_finished s = None → se_tokens s `prefix_of` transcript (se_request s).
Proof.
  intros [_ Hst] Hfin. unfold stage_ok in Hst. destruct (se_stage s).
  - rewrite Hst. apply prefix_nil.
  - destruct Hst as (h & cid & _ & _ & _ & -> & _). by apply prefix_app_r.
  - destruct Hst as (h & cid & sampler & _ & _ & _ & _ & _ & _ & _ & <-). by apply prefix_app_r.
  - by destruct Hst as (h & cid & _ & _ & ->).
  - destruct Hst as (_ & _ & output & ? & _). congruence.
Qed.

Lemma session_step_ok k q w s :
  mapped_ok w → room (k + session_room s) w → (cs_next_context (ms_logical w) < u64_max)%N → session_ok w s →
  wp (Mapped.step ptr_eq q) (λ out σ, stepped k w s out σ) (λ _ σ, failed w s (rn_shared σ)) (mkRunning w s).
Proof.
  intros Hok Hroom Hnext Hs. unfold Mapped.step. rewrite wp_bind, wp_session. cbn [rn_session].
  destruct (se_stage s) eqn:Hstage.
  - by apply prepare_quantum_ok.
  - by apply prefill_ok.
  - by apply decode_quantum_ok.
  - destruct Hs as [Had Hst]. unfold stage_ok in Hst. rewrite Hstage in Hst.
    destruct Hst as (h & cid & Ho & Hfin & Htok). apply (finished_step_ok k q w s s h cid); try done.
    + eapply room_weaken; [exact Hroom|lia].
    + unfold remaining. rewrite Hstage. lia.
  - pose proof Hs as [Had Hst]. unfold stage_ok in Hst. rewrite Hstage in Hst.
    destruct Hst as (Hact & _ & output & Hfin & Htok). rewrite wp_bind, wp_expect, Hfin, wp_ret.
    split; cbn [rn_shared rn_session]; try done.
    + eapply room_weaken; [exact Hroom|lia].
    + by right; left.
    + by left.
    + cbn. by rewrite N.add_0_r.
    + right. split; [done|by exists output].
Qed.

Lemma finish_ok k q w s :
  mapped_ok w → room k w → session_ok w s →
  wp (finish q)
    (λ output σ, mapped_ok (rn_shared σ) ∧ advances None None w (rn_shared σ) ∧ room k (rn_shared σ)
       ∧ eo_successor_tokens output `prefix_of` transcript (se_request s)
       ∧ (se_stage s = StPublication ∨ se_stage s = StFinished →
          eo_successor_tokens output = transcript (se_request s)))
    (λ _ σ, mapped_ok (rn_shared σ) ∧ advances None None w (rn_shared σ)) (mkRunning w s).
Proof.
  intros Hok Hroom Hs. unfold finish. destruct (se_finished s) as [output|] eqn:Hfin.
  - unfold publish. rewrite wp_bind, wp_session. cbn [rn_session]. rewrite Hfin, wp_ret.
    destruct Hs as [_ Hst]. unfold stage_ok in Hst. destruct (se_stage s).
    + rewrite Hst in Hfin. done.
    + destruct Hst as (? & ? & ? & ? & ? & ?). congruence.
    + destruct Hst as (? & ? & ? & ? & ? & ? & ?). congruence.
    + destruct Hst as (? & ? & ? & ? & ?). congruence.
    + destruct Hst as (_ & _ & output' & Hf & Ht). rewrite Hf in Hfin. injection Hfin as ->.
      cbn [rn_shared]. by rewrite Ht.
  - eapply wp_mono; [by apply (publish_quantum_ok k)|cbn beta|done].
    intros output σ (? & ? & ? & Ht & _). split_and!; [done..| |].
    + rewrite Ht. by eapply tokens_prefix.
    + rewrite Ht. destruct Hs as [_ Hst]. unfold stage_ok in Hst. intros [Hx|Hx]; rewrite Hx in Hst.
      * by destruct Hst as (? & ? & ? & ? & ?).
      * destruct Hst as (_ & _ & output' & ? & _). congruence.
Qed.

Lemma drop_session_ok w s :
  mapped_ok w →
  wp (drop_session s) (λ _ w', stays w w' ∧ ms_physical w' = ms_physical w) (λ _ _, False) w.
Proof.
  intros Hok. unfold drop_session. destruct (se_active_mapping s); [|rewrite wp_ret; by split; [apply stays_refl|]].
  rewrite wp_bind, wp_get. cbn zeta. destruct (handle_eq _ _); [rewrite wp_ret; by split; [apply stays_refl|]|].
  unfold activate_quietly. rewrite wp_ignore, wp_on_executor.
  eapply wp_mono; [apply activate_spec|..]; cbn beta; intros ? x [Hk _]; by split; [apply stays_executor|].
Qed.

Lemma start_session_ok en request view w s :
  validate_profile (en_profile en) = Ok tt → (en_context_capacity en ≤ u32_max)%N →
  start_session en request view = Ok s → session_ok w s ∧ s = new_session (en_profile en) (en_context_capacity en) request.
Proof.
  intros Hprof Hcapa. unfold start_session. destruct view as [[]|e]; [|done]. cbn.
  destruct (N.eqb_spec (er_prefill_chunk_tokens request) 0) as [|Hchunk]; [done|].
  destruct (negb _); [done|]. intros [= <-]. split; [|done]. split; [|done]. split; try done. cbn.
  unfold validate_profile in Hprof. destruct (bool_decide _ || _) eqn:Hb; [done|].
  apply orb_false_iff in Hb as [_ Hb]. by apply N.eqb_neq.
Qed.
End sessions.
