(* ===== verification/MappedSystem.v ===== *)
(** The mapped engine with all of its sessions: a transition is one quantum, one
    request or one round of spilling, in any order. Whatever the order, each session
    gives the transcript of its own request, no transition panics, every session
    ends, and what is spilled can be read back and stays within its budget. *)

From stdpp Require Import gmap strings list numbers.
From Stdlib Require Import Lia.
From S2P Require Import Prelude TokenSequence ContextStore ContextLaws PhysicalManager PhysicalLaws PhysicalProperties PhysicalRoom.
From S2P Require Import Engine Lifecycle Inference Executor ExecutorLaws Mapped MappedLaws MappedPublication.
From S2P Require Import MappedSpilling MappedSessions.

(** ** Transitions *)

Section system.
Context `{HS : Hasher} `{HA : Abi}.
Context (ptr_eq : SequenceChunk → SequenceChunk → bool) (hex_encode : N → string).

(** The engine's state and the sessions that are under way. *)
Record System : Type := mkSystem {
  sy_shared : MappedState;
  sy_sessions : gmap N MappedSession;
}.

Inductive Event : Type :=
| Started (sid : N)
| Stepped (sid : N) (out : SessionStep)
| Ended (sid : N) (output : EngineOutput)
| Failed (sid : N) (error : ServerError.Error)
| Dropped (sid : N)
| Demoted.

Definition running (σ : System) (s : MappedSession) : Running := mkRunning (sy_shared σ) s.

(** A session whose quantum fails is dropped by its caller, and so is one that is
    finished or abandoned. *)
Inductive move (en : MappedEngine) (σ : System) : Event → System → Prop :=
| move_start sid request view s :
    sy_sessions σ !! sid = None → start_session en request view = Ok s →
    move en σ (Started sid) (mkSystem (sy_shared σ) (<[sid := s]> (sy_sessions σ)))
| move_step sid q s out σ' :
    sy_sessions σ !! sid = Some s → Mapped.step ptr_eq q (running σ s) = Done out σ' →
    move en σ (Stepped sid out) (mkSystem (rn_shared σ') (<[sid := rn_session σ']> (sy_sessions σ)))
| move_fail sid q s e σ' w :
    sy_sessions σ !! sid = Some s → Mapped.step ptr_eq q (running σ s) = Fail e σ' →
    drop_session (rn_session σ') (rn_shared σ') = Done tt w →
    move en σ (Failed sid e) (mkSystem w (delete sid (sy_sessions σ)))
| move_finish sid q s output σ' w :
    sy_sessions σ !! sid = Some s → finish q (running σ s) = Done output σ' →
    drop_session (rn_session σ') (rn_shared σ') = Done tt w →
    move en σ (Ended sid output) (mkSystem w (delete sid (sy_sessions σ)))
| move_finish_fail sid q s e σ' w :
    sy_sessions σ !! sid = Some s → finish q (running σ s) = Fail e σ' →
    drop_session (rn_session σ') (rn_shared σ') = Done tt w →
    move en σ (Failed sid e) (mkSystem w (delete sid (sy_sessions σ)))
| move_drop sid s w :
    sy_sessions σ !! sid = Some s → drop_session s (sy_shared σ) = Done tt w →
    move en σ (Dropped sid) (mkSystem w (delete sid (sy_sessions σ)))
| move_spill order n w :
    base.NoDup order → demote_inactive hex_encode en order (sy_shared σ) = Done n w →
    move en σ Demoted (mkSystem w (sy_sessions σ))
| move_spill_fail order e w :
    base.NoDup order → demote_inactive hex_encode en order (sy_shared σ) = Fail e w →
    move en σ Demoted (mkSystem w (sy_sessions σ)).

(** The 64-bit counters have room for one more transition. *)
Definition has_room (en : MappedEngine) (σ : System) : Prop :=
  room (N.of_nat (length (xp_required_components (en_profile en))) + 8) (sy_shared σ)
  ∧ (cs_next_context (ms_logical (sy_shared σ)) < u64_max)%N.

(** A run and what it reports. *)
Inductive run (en : MappedEngine) : System → list Event → System → Prop :=
| run_nil σ : run en σ [] σ
| run_cons σ e σ1 es σ2 :
    has_room en σ → move en σ e σ1 → run en σ1 es σ2 → run en σ (e :: es) σ2.

(** An engine as it is opened: the context capacity is 32 bits wide, the memory
    sizes and the spill capacity 64. *)
Definition opened (en : MappedEngine) (w0 : MappedState) (cap : Capacity) : Prop :=
  ∃ catalog entries text path n_ctx gpu_layers epoch spill_dir spill_capacity d d',
    open_at_epoch_with_spill catalog entries text path n_ctx gpu_layers (device_bytes cap)
      (host_bytes cap) epoch spill_dir spill_capacity d = Done (en, w0) d'
    ∧ (n_ctx ≤ u32_max)%N ∧ (spill_capacity < u64_max)%N ∧ fits_usize cap.

Definition reachable (en : MappedEngine) (σ : System) : Prop :=
  ∃ w0 cap es, opened en w0 cap ∧ run en (mkSystem w0 ∅) es σ.
End system.

(** ** The invariant *)

Section invariant.
Context `{HS : Hasher} {HSL : HasherLaws HS} `{HL : AbiLaws}.
Context (ptr_eq : SequenceChunk → SequenceChunk → bool) (hex_encode : N → string).
Hypothesis ptr_eq_sound : ∀ a b, ptr_eq a b = true → a = b.
Hypothesis hex_injective : Inj (=) (=) hex_encode.
Context (cap : Capacity) (en : MappedEngine).
Implicit Types (w : MappedState) (s : MappedSession) (sid : N) (σ : System) (sessions : gmap N MappedSession).

#[local] Abbreviation mapped_ok := (MappedLaws.mapped_ok hex_encode cap (en_spill_capacity en)).
#[local] Abbreviation stays := (MappedLaws.stays hex_encode cap (en_spill_capacity en)).
#[local] Existing Instance stays_trans.
#[local] Existing Instance advances_preorder.

(** What an engine is opened with. *)
Record engine_ok : Prop := {
  eg_profile : validate_profile (en_profile en) = Ok tt;
  eg_capacity : (en_context_capacity en ≤ u32_max)%N;
  eg_spill : (en_spill_capacity en < u64_max)%N;
}.

(** No two sessions share a mapping or a context. *)
Record sessions_ok w sessions : Prop := {
  ss_session : ∀ sid s, sessions !! sid = Some s →
    session_ok w s ∧ se_profile s = en_profile en ∧ se_context_capacity s = en_context_capacity en;
  ss_mappings : ∀ sid sid' s s' raw, sessions !! sid = Some s → sessions !! sid' = Some s' → sid ≠ sid' →
    own_mapping s = Some raw → own_mapping s' ≠ Some raw;
  ss_contexts : ∀ sid sid' s s' cid, sessions !! sid = Some s → sessions !! sid' = Some s' → sid ≠ sid' →
    own_context s = Some cid → own_context s' ≠ Some cid;
}.

Definition system_ok σ : Prop := mapped_ok (sy_shared σ) ∧ sessions_ok (sy_shared σ) (sy_sessions σ).

(** A session's own mapping and context exist. *)
Lemma own_live w s :
  session_ok w s →
  (∀ raw, own_mapping s = Some raw → is_Some (contents w raw))
  ∧ (∀ cid, own_context s = Some cid → is_Some (cs_contexts (ms_logical w) !! cid)).
Proof.
  intros [_ Hs]. unfold stage_ok, own_mapping, own_context in *.
  assert (∀ h cid, owns w s h cid →
    (∀ raw, rh_raw <$> se_active_mapping s = Some raw → is_Some (contents w raw))
    ∧ (∀ cid, se_logical_context s = Some cid → is_Some (cs_contexts (ms_logical w) !! cid))) as Ho.
  { intros h cid []. rewrite ow_active, ow_context. destruct ow_tokens as (c & Hc & _).
    split; [intros raw [= <-]|intros cid' [= <-]]; by eexists. }
  destruct (se_stage s).
  - rewrite Hs. by split.
  - destruct Hs as (h & cid & H & _). by eapply Ho.
  - destruct Hs as (h & cid & smp & H & _). by eapply Ho.
  - destruct Hs as (h & cid & H & _). by eapply Ho.
  - destruct Hs as (-> & (cid & c & -> & Hc) & _). split; [done|]. intros cid' [= <-]. by eexists.
Qed.

(** The other sessions stay as they are when one of them advances. *)
Lemma sessions_ok_others w w' sessions sid s :
  sessions_ok w sessions → sessions !! sid = Some s →
  advances (own_mapping s) (own_context s) w w' → sessions_ok w' (delete sid sessions).
Proof.
  intros [] Hs Ha. split.
  - intros sid' s' [Hne Hs']%lookup_delete_Some. destruct (ss_session0 _ _ Hs') as (Hok & Hp).
    split; [|done]. eapply session_ok_advances; [exact Ha|..|done].
    + destruct (own_mapping s) as [raw|] eqn:Hraw; [right|by left]. by apply not_eq_sym, (ss_mappings0 sid sid' s s').
    + destruct (own_context s) as [cid|] eqn:Hcid; [right|by left]. by apply not_eq_sym, (ss_contexts0 sid sid' s s').
  - intros ? ? ? ? ? [_ ?]%lookup_delete_Some [_ ?]%lookup_delete_Some. by eapply ss_mappings0.
  - intros ? ? ? ? ? [_ ?]%lookup_delete_Some [_ ?]%lookup_delete_Some. by eapply ss_contexts0.
Qed.

Lemma sessions_ok_same w w' sessions :
  sessions_ok w sessions → advances None None w w' → sessions_ok w' sessions.
Proof.
  intros [] Ha. split; [|done..]. intros sid s Hs. destruct (ss_session0 _ _ Hs) as (Hok & Hp). split; [|done].
  by eapply session_ok_advances; [exact Ha|left|left|].
Qed.

Lemma sessions_ok_stays w w' sessions sid : sessions_ok w sessions → stays w w' → sessions_ok w' (delete sid sessions).
Proof.
  intros Hs (_ & Ha & _). pose proof (sessions_ok_same w w' sessions Hs Ha) as []. split.
  - intros ? ? [_ ?]%lookup_delete_Some. by eapply ss_session0.
  - intros ? ? ? ? ? [_ ?]%lookup_delete_Some [_ ?]%lookup_delete_Some. by eapply ss_mappings0.
  - intros ? ? ? ? ? [_ ?]%lookup_delete_Some [_ ?]%lookup_delete_Some. by eapply ss_contexts0.
Qed.

(** A session that is put back after a step. *)
Lemma sessions_ok_step k w sessions sid s out ρ :
  sessions_ok w sessions → sessions !! sid = Some s →
  MappedSessions.stepped hex_encode cap (en_spill_capacity en) k w s out ρ →
  sessions_ok (rn_shared ρ) (<[sid := rn_session ρ]> sessions).
Proof.
  intros Hss Hs []. pose proof (sessions_ok_others w _ sessions sid s Hss Hs st_advances) as [].
  destruct Hss as [Hsess Hmap Hctx]. destruct (Hsess sid s Hs) as (_ & Hprof & Hcapa).
  destruct st_same as (Hreq & Hprof' & Hcapa').
  assert (∀ sid' s', sid ≠ sid' → sessions !! sid' = Some s' → delete sid sessions !! sid' = Some s') as Hdel.
  { intros sid' s' Hne Hs'. by rewrite lookup_delete_ne. }
  assert (∀ sid' s' raw, sid ≠ sid' → sessions !! sid' = Some s' → own_mapping (rn_session ρ) = Some raw →
    own_mapping s' ≠ Some raw) as Hmap'.
  { intros sid' s' raw Hne Hs' Hraw Hraw'. destruct st_mapping as [Hn|[Hn|(raw' & Hn & Hfresh)]]; [congruence|..].
    - by apply (Hmap sid sid' s s' raw); [..|congruence|].
    - destruct (own_live w s') as [Hlive _]; [by apply (Hsess sid')|]. destruct (Hlive raw Hraw'). congruence. }
  assert (∀ sid' s' cid, sid ≠ sid' → sessions !! sid' = Some s' → own_context (rn_session ρ) = Some cid →
    own_context s' ≠ Some cid) as Hctx'.
  { intros sid' s' cid Hne Hs' Hcid Hcid'. destruct st_context as [Hn|(cid' & Hn & Hfresh)].
    - by apply (Hctx sid sid' s s' cid); [..|congruence|].
    - destruct (own_live w s') as [_ Hlive]; [by apply (Hsess sid')|]. destruct (Hlive cid Hcid'). congruence. }
  split.
  - intros sid' s' [[<- <-]|[Hne Hs']]%lookup_insert_Some.
    + split; [done|]. split; congruence.
    + by eapply ss_session0, Hdel.
  - intros s1 s2 t1 t2 raw [[<- <-]|[Hne1 Ht1]]%lookup_insert_Some [[<- <-]|[Hne2 Ht2]]%lookup_insert_Some Hne.
    + done.
    + by eapply Hmap'.
    + intros H1 H2. by eapply Hmap'.
    + by eapply Hmap.
  - intros s1 s2 t1 t2 cid [[<- <-]|[Hne1 Ht1]]%lookup_insert_Some [[<- <-]|[Hne2 Ht2]]%lookup_insert_Some Hne.
    + done.
    + by eapply Hctx'.
    + intros H1 H2. by eapply Hctx'.
    + by eapply Hctx.
Qed.

(** *** Transitions *)

Hypothesis engine : engine_ok.

Lemma session_room_en s w : se_profile s = en_profile en →
  room (N.of_nat (length (xp_required_components (en_profile en))) + 8) w → room (0 + session_room s) w.
Proof. intros Hp. unfold session_room. by rewrite Hp. Qed.

Lemma drop_run s w w' : mapped_ok w → drop_session s w = Done tt w' → stays w w'.
Proof.
  intros Hok Hd. pose proof (drop_session_ok hex_encode cap (en_spill_capacity en) w s Hok) as H.
  unfold wp_gen in H. rewrite Hd in H. apply H.
Qed.

Lemma session_start_ok w sessions sid request view s :
  mapped_ok w → sessions_ok w sessions → sessions !! sid = None → start_session en request view = Ok s →
  mapped_ok w ∧ sessions_ok w (<[sid := s]> sessions).
Proof.
  intros Hok [] Hnone Hstart. split; [done|].
  destruct (start_session_ok en request view w s (eg_profile engine) (eg_capacity engine) Hstart) as [Hs ->].
  split.
  - intros sid' s' [[<- <-]|[_ Hs']]%lookup_insert_Some; [done|by eapply ss_session0].
  - intros s1 s2 t1 t2 raw [[<- <-]|[_ Ht1]]%lookup_insert_Some [[<- <-]|[_ Ht2]]%lookup_insert_Some Hne Hraw;
      [done..|]. by apply (ss_mappings0 s1 s2 t1 t2 raw).
  - intros s1 s2 t1 t2 cid [[<- <-]|[_ Ht1]]%lookup_insert_Some [[<- <-]|[_ Ht2]]%lookup_insert_Some Hne Hcid;
      [done..|]. by apply (ss_contexts0 s1 s2 t1 t2 cid).
Qed.

Lemma move_ok σ e σ' : system_ok σ → has_room en σ → move ptr_eq hex_encode en σ e σ' → system_ok σ'.
Proof.
  intros [Hok Hss] [Hroom Hnext] Hmove. unfold system_ok. destruct Hmove; cbn [sy_shared sy_sessions] in *.
  - by apply session_start_ok with request view.
  - destruct (ss_session _ _ Hss sid s) as (Hs & Hp & Hc); [done|].
    pose proof (session_step_ok ptr_eq hex_encode ptr_eq_sound hex_injective cap (en_spill_capacity en) 0 q
      (sy_shared σ) s Hok (session_room_en s _ Hp Hroom) Hnext Hs) as H'.
    unfold wp_gen, running in *. rewrite H0 in H'. split; [apply H'|]. by eapply sessions_ok_step.
  - destruct (ss_session _ _ Hss sid s) as (Hs & Hp & Hc); [done|].
    pose proof (session_step_ok ptr_eq hex_encode ptr_eq_sound hex_injective cap (en_spill_capacity en) 0 q
      (sy_shared σ) s Hok (session_room_en s _ Hp Hroom) Hnext Hs) as H'.
    unfold wp_gen, running in *. rewrite H0 in H'. destruct H' as [Hok' Ha'].
    apply drop_run in H1; [|done]. split; [apply H1|].
    eapply (sessions_ok_others _ _ _ sid s Hss); [done|]. etrans; [exact Ha'|]. apply advances_weaken, H1.
  - destruct (ss_session _ _ Hss sid s) as (Hs & Hp & Hc); [done|].
    pose proof (finish_ok hex_encode cap (en_spill_capacity en) _ q (sy_shared σ) s Hok Hroom Hs) as H'.
    unfold wp_gen, running in *. rewrite H0 in H'. destruct H' as (Hok' & Ha' & _).
    apply drop_run in H1; [|done]. split; [apply H1|].
    eapply (sessions_ok_others _ _ _ sid s Hss); [done|]. apply advances_weaken. etrans; [exact Ha'|]. apply H1.
  - destruct (ss_session _ _ Hss sid s) as (Hs & Hp & Hc); [done|].
    pose proof (finish_ok hex_encode cap (en_spill_capacity en) _ q (sy_shared σ) s Hok Hroom Hs) as H'.
    unfold wp_gen, running in *. rewrite H0 in H'. destruct H' as (Hok' & Ha').
    apply drop_run in H1; [|done]. split; [apply H1|].
    eapply (sessions_ok_others _ _ _ sid s Hss); [done|]. apply advances_weaken. etrans; [exact Ha'|]. apply H1.
  - apply drop_run in H0; [|done]. split; [apply H0|]. by eapply sessions_ok_stays.
  - pose proof (spill_inactive_ok hex_encode hex_injective cap (en_spill_capacity en) (eg_spill engine) _
      en order (sy_shared σ) eq_refl Hok Hroom H) as H'.
    unfold wp_gen, demote_inactive in *. rewrite H0 in H'. destruct H' as (Hok' & Ha' & _). split; [done|].
    by eapply sessions_ok_same.
  - pose proof (spill_inactive_ok hex_encode hex_injective cap (en_spill_capacity en) (eg_spill engine) _
      en order (sy_shared σ) eq_refl Hok Hroom H) as H'.
    unfold wp_gen, demote_inactive in *. rewrite H0 in H'. destruct H' as (Hok' & Ha'). split; [done|].
    by eapply sessions_ok_same.
Qed.

Lemma run_ok σ es σ' : system_ok σ → run ptr_eq hex_encode en σ es σ' → system_ok σ'.
Proof. intros Hok Hrun. induction Hrun; [done|]. by eapply IHHrun, move_ok. Qed.
End invariant.

(** *** Opening *)

Section opening.
Context `{HS : Hasher} {HSL : HasherLaws HS} `{HL : AbiLaws}.
Context (hex_encode : N → string).
Implicit Types (en : MappedEngine).

Lemma bundled_valid catalog architecture profile :
  bundled_for_architecture catalog architecture = Ok profile → validate_profile profile = Ok tt.
Proof.
  unfold bundled_for_architecture. destruct catalog as [families|e]; [|done].
  destruct (List.filter _ families) as [|p [|p' l]]; [done| |done].
  destruct (validate_profile p) as [[]|e] eqn:Hp; [|done]. cbn. by intros [= <-].
Qed.

Lemma open_executor_ok path n_ctx gpu_layers x :
  Executor.open path n_ctx gpu_layers = Ok x → tokens_in x (active_in x) = Some [].
Proof.
  unfold Executor.open. destruct (c_string path) as [p|]; [|done].
  pose proof (law_open p n_ctx gpu_layers) as H. destruct (cusco_executor_open p n_ctx gpu_layers) as [code o].
  destruct (ExecError.status code) as [[]|e] eqn:Hc; [|done]. cbn. destruct o as [x'|]; [|done].
  intros [= ->]. apply H; [|done]. by eapply status_ok.
Qed.

Lemma wlp_any {S E A} (m : M S E A) (Q : A → S → Prop) d :
  (∀ a d', Q a d') → wlp m Q (λ _ _, True) d.
Proof. intros HQ. unfold wp_gen. by destruct (m d). Qed.

Lemma opened_ok en w0 cap :
  opened en w0 cap → engine_ok en ∧ system_ok hex_encode cap en (mkSystem w0 ∅).
Proof.
  intros (catalog & entries & text & path & n_ctx & layers & epoch & dir & capacity & d & d' & Hopen & Hn & Hcapa & Hfits).
  assert (wlp (open_at_epoch_with_spill catalog entries text path n_ctx layers (device_bytes cap)
    (host_bytes cap) epoch dir capacity)
    (λ '(en, w) _, validate_profile (en_profile en) = Ok tt ∧ en_context_capacity en = n_ctx
       ∧ en_spill_capacity en = capacity
       ∧ ∃ x root d, tokens_in x (rh_raw root) = Some []
         ∧ w = mkMapped x root default_store (PhysicalManager.new cap) epoch ∅ default_mapped_metrics 0 d)
    (λ _ _, True) d) as H.
  { unfold open_at_epoch_with_spill. cbn zeta. rewrite wp_bind. apply wlp_any. intros _ d1.
    rewrite wp_bind. destruct (Executor.open path n_ctx layers) as [x|e] eqn:Hx; [|done]. rewrite wp_ret.
    apply open_executor_ok in Hx. rewrite wp_bind. destruct (architecture_bytes x) as [bytes|e]; [|done].
    rewrite wp_ret, wp_bind. destruct (text bytes) as [architecture|]; [|done].
    rewrite wp_ret, wp_bind, wp_lift. destruct (bundled_for_architecture catalog architecture) as [profile|e] eqn:Hb; [|done].
    apply bundled_valid in Hb. rewrite wp_bind, wp_guard_not. destruct (_ || _); [done|].
    rewrite wp_bind, wp_guard_not. destruct (_ =? _)%N; [done|]. rewrite wp_bind.
    pose proof (active_representation_spec x) as Ha. unfold wp_gen in Ha.
    destruct (active_representation x) as [root x'|e x'|]; [|done..]. destruct Ha as [[Hk _] Hroot].
    rewrite wp_ret, wp_bind, wp_get, wp_ret. split_and!; [done..|]. exists x', root, d1.
    split; [|by destruct cap]. rewrite Hroot. by apply Hk. }
  unfold wp_gen in H. rewrite Hopen in H. destruct H as (Hp & Hc & Hs & x & root & d1 & Hroot & ->).
  split; [split; congruence|]. split; [|by split].
  split; cbn; try done.
  - apply default_store_ok.
  - by apply new_ok.
  - apply N.le_0_l.
Qed.
End opening.
