(* ===== verification/MappedMock.v ===== *)
(** A small native executor to evaluate runs of the mapped engine on: its mappings
    are a list of token lists, its logits depend on the whole sequence, and its
    exports are the tokens themselves. It satisfies [AbiLaws]; [exec] runs a list of
    actions as a run of [MappedSystem]. *)

From stdpp Require Import gmap strings list numbers pretty.
From Stdlib Require Import Lia Ascii.
From S2P Require Import Prelude TokenSequence ContextStore PhysicalManager PhysicalProperties FairPolicy Engine Diagnostics Scheduler Lifecycle Inference.
From S2P Require Import Executor ExecutorLaws Mapped MappedLaws MappedSystem.

(** ** The executor *)

Module Mock.

Record executor : Type := mkExecutor {
  mx_mappings : list (list Z);
  mx_active : nat;
}.

(** The model: the next token is a sum over the sequence, modulo 11; zero ends. *)
Definition next_token (l : list Z) : Z := (foldl (λ acc t, 3 * acc + t) 1 l mod 11)%Z.

Definition model (l : list Z) : list N * Z := ([Z.to_N (next_token l)], next_token l).

Definition to_bytes (l : list Z) : list N :=
  (λ t, if (t <? 0)%Z then 2 * Z.to_N (- t) - 1 else 2 * Z.to_N t)%N <$> l.

Definition of_bytes (l : list N) : list Z :=
  (λ n, if N.even n then Z.of_N (n / 2) else - Z.of_N ((n + 1) / 2))%Z <$> l.

Definition words (text : string) : list Z :=
  (λ a, Z.of_nat (nat_of_ascii a)) <$> String.list_ascii_of_string text.

Definition add (l : list Z) (x : executor) : Z * option nat * executor :=
  (0%Z, Some (length (mx_mappings x)), mkExecutor (mx_mappings x ++ [l]) (mx_active x)).

Definition decode (tokens : list Z) (x : executor) : Z * (list N * Z) * executor :=
  match mx_mappings x !! mx_active x with
  | Some l => (0%Z, model (l ++ tokens), mkExecutor (<[mx_active x := l ++ tokens]> (mx_mappings x)) (mx_active x))
  | None => (1%Z, ([], 0%Z), x)
  end.

#[export] Instance mock_abi : Abi := {|
  CuscoExecutor := executor;
  CuscoRepresentation := nat;
  CuscoPreparedMapping := list Z;
  CuscoSampler := N;
  CuscoCheckpoint := unit;
  CuscoPreparedRestore := unit;
  representation_eq_dec := _;
  cusco_executor_open := λ path n layers, (0%Z, Some (mkExecutor [[]] 0));
  cusco_executor_capabilities := λ x, mkRawCapabilities 1 1 1 1 32 1 64 128;
  cusco_executor_model_architecture := λ x n, (0%Z, ([97]%N, 1%N));
  cusco_executor_tokenize := λ text x, (0%Z, words text, x);
  cusco_executor_render_token := λ t n x, (0%Z, ([Z.to_N t], 1%N), x);
  cusco_executor_token_is_eog := λ x t, if (t =? 0)%Z then 1%N else 0%N;
  cusco_sampler_create := λ config grammar x, (0%Z, Some (sg_seed config), x);
  cusco_sampler_sample := λ logits n, (0%Z, Z.of_N (default 0%N (head logits)), (n + 1)%N);
  cusco_executor_decode := decode;
  cusco_executor_capture := λ x, (0%Z, Some tt, x);
  cusco_checkpoint_size := λ _, 0%N;
  cusco_checkpoint_checksum := λ _, 0%N;
  cusco_executor_prepare_restore := λ _ _ x, (0%Z, Some tt, x);
  cusco_executor_commit_restore := λ _ x, (0%Z, tt, x);
  cusco_executor_active_representation := λ x, (0%Z, Some (mx_active x), x);
  cusco_representation_identity := N.of_nat;
  cusco_representation_describe := λ r x, (0%Z, mkDescriptor (N.of_nat r) 7 0 0 7 0, x);
  cusco_executor_prepare_mapping_fork := λ r x, (0%Z, mx_mappings x !! r, x);
  cusco_executor_commit_mapping := add;
  cusco_executor_activate_mapping := λ r x, (0%Z, tt, mkExecutor (mx_mappings x) r);
  cusco_executor_mapping_state_size := λ r x, N.of_nat (length (default [] (mx_mappings x !! r)));
  cusco_executor_export_mapping := λ r size x,
    let l := default [] (mx_mappings x !! r) in
    (0%Z, (to_bytes l, N.of_nat (length l), N.of_nat (length l)), x);
  cusco_executor_import_mapping := λ bytes position, add (of_bytes bytes);
  cusco_executor_active_mapping_identity := λ x, N.of_nat (mx_active x);
  cusco_executor_mapping_count := λ x, N.of_nat (length (mx_mappings x));
  cusco_executor_reference_switches := λ x, 0%N;
  cusco_executor_mapping_fork_bytes_copied := λ x, 0%N;
  cusco_executor_mapping_export_bytes_copied := λ x, 0%N;
  cusco_executor_mapping_import_bytes_copied := λ x, 0%N;
  cusco_executor_mapping_bytes_copied := λ x, 0%N;
  cusco_executor_graph_recaptures_supported := λ x, 0%N;
  cusco_executor_graph_recaptures := λ x, 0%N;
  cusco_executor_operating_point := λ x, mkRawPoint 0 0 0 0 0 0 1;
  cusco_executor_replace_state_for_proof := λ tokens x, (0%Z, tt, x);
  cusco_executor_cancel_next_decode_for_proof := λ x, x;
  cusco_executor_cancel := λ x, x;
  cusco_executor_reset_cancel := λ x, x;
|}.

#[export] Instance mock_view : NativeView mock_abi := {|
  evaluation := model;
  vocabulary := words;
  end_of_generation := λ t, if (t =? 0)%Z then 1%N else 0%N;
  fresh_sampler := λ config grammar, sg_seed config;
  tokens_in := λ x r, mx_mappings x !! r;
  active_in := mx_active;
  fork_tokens := λ l, l;
  restored_tokens := λ bytes position, Some (of_bytes bytes);
|}.

(** Digests that are cheap to evaluate. *)
#[export] Instance mock_hasher : Hasher := {|
  sha := N;
  sha_new := 0%N;
  sha_update := foldl (λ h b, (h * 31 + b + 1) mod 65521)%N;
  sha_finalize := id;
|}.

#[export] Instance mock_hasher_laws : HasherLaws mock_hasher.
Proof. split. intros h a b. symmetry. apply foldl_app. Qed.

Lemma of_to_bytes l : of_bytes (to_bytes l) = l.
Proof.
  unfold of_bytes, to_bytes. rewrite <- list_fmap_compose. rewrite <- (list_fmap_id l) at 2.
  apply list_fmap_ext. intros i t _. cbn. destruct (Z.ltb_spec t 0) as [Ht|Ht].
  - set (m := (Z.to_N (- t) - 1)%N). replace (2 * Z.to_N (- t) - 1)%N with (2 * m + 1)%N by (unfold m; lia).
    assert (N.even (2 * m + 1) = false) as -> by by rewrite N.even_add, N.even_mul.
    replace (2 * m + 1 + 1)%N with ((m + 1) * 2)%N by lia. rewrite N.div_mul by done. unfold m, id. lia.
  - rewrite N.even_mul, N.mul_comm, N.div_mul by done. unfold id. cbn. lia.
Qed.

Lemma added l x r l' : mx_mappings x !! r = Some l' → mx_mappings (add l x).2 !! r = Some l'.
Proof. intros Hr. cbn. by apply lookup_app_l_Some. Qed.

Lemma add_unchanged l x : unchanged (HV := mock_view) x (add l x).2.
Proof. split; [intros r l'; apply added|done]. Qed.

#[export] Instance mock_laws : AbiLaws mock_view.
Proof.
  assert (∀ x, unchanged (HV := mock_view) x x) as Hsame by (intros x; split; [by intros r l|done]).
  split.
  - intros path n layers. cbn. by intros _ x [= <-].
  - intros x l. cbn. unfold decode. destruct (mx_mappings x !! mx_active x) as [l0|] eqn:Hl; cbn.
    + split; [done|]. split; [intros r l' Hne Hr; by rewrite list_lookup_insert_ne|].
      intros l' Hl'. assert (l0 = l') as -> by congruence.
      rewrite list_lookup_insert_eq by (by eapply lookup_lt_Some). split; [by exists (l' ++ l)|done].
    + split_and!; [done|done|]. intros l' Hl'. congruence.
  - intros x. cbn. split; [apply Hsame|]. by intros _ raw [= <-].
  - intros x r. cbn. split; [by intros r' l|]. by split.
  - intros x r. cbn. split; [apply Hsame|]. congruence.
  - intros x p. split; [apply add_unchanged|]. intros _ raw [= <-]. cbn.
    split; [by apply lookup_ge_None_2|]. by apply list_lookup_middle.
  - intros x r size. cbn. split; [apply Hsame|]. intros _ l ->. cbn. f_equal.
    rewrite take_ge; [apply of_to_bytes|]. unfold to_bytes. rewrite length_fmap. lia.
  - intros x bytes position. split; [apply add_unchanged|]. split; [done|].
    intros _ raw l [= <-] [= <-]. cbn. split; [by apply lookup_ge_None_2|]. by apply list_lookup_middle.
  - intros x text. by split; [apply Hsame|].
  - intros x t n. apply Hsame.
  - done.
  - intros x config grammar. cbn. split; [apply Hsame|]. by intros _ raw [= <-].
  - intros x r. apply Hsame.
  - intros x. apply Hsame.
  - intros x. apply Hsame.
Qed.
End Mock.

(** ** Actions *)

Inductive Action : Type :=
| AStart (sid : N) (request : EngineRequest)
| AStep (sid : N) (q : Quantum)
| AFinish (sid : N) (q : Quantum)
| ADrop (sid : N)
| ASpill (order : list N).

Section actions.
Context `{HS : Hasher} `{HA : Abi}.
Context (ptr_eq : SequenceChunk → SequenceChunk → bool) (hex_encode : N → string).
Context (en : MappedEngine).

(** What a session that has failed or ended leaves. *)
Definition leave (sid : N) (e : Event) (ρ : Running) (σ : System) : option (Event * System) :=
  match drop_session (rn_session ρ) (rn_shared ρ) with
  | Done _ w => Some (e, mkSystem w (delete sid (sy_sessions σ)))
  | _ => None
  end.

Definition act (a : Action) (σ : System) : option (Event * System) :=
  match a with
  | AStart sid request =>
      match sy_sessions σ !! sid, start_session en request (Ok tt) with
      | None, Ok s => Some (Started sid, mkSystem (sy_shared σ) (<[sid := s]> (sy_sessions σ)))
      | _, _ => None
      end
  | AStep sid q =>
      s ← sy_sessions σ !! sid;
      match Mapped.step ptr_eq q (running σ s) with
      | Done out ρ => Some (Stepped sid out, mkSystem (rn_shared ρ) (<[sid := rn_session ρ]> (sy_sessions σ)))
      | Fail e ρ => leave sid (Failed sid e) ρ σ
      | Panic => None
      end
  | AFinish sid q =>
      s ← sy_sessions σ !! sid;
      match finish q (running σ s) with
      | Done output ρ => leave sid (Ended sid output) ρ σ
      | Fail e ρ => leave sid (Failed sid e) ρ σ
      | Panic => None
      end
  | ADrop sid =>
      s ← sy_sessions σ !! sid;
      leave sid (Dropped sid) (running σ s) σ
  | ASpill order =>
      if decide (base.NoDup order) then
        match demote_inactive hex_encode en order (sy_shared σ) with
        | Done _ w | Fail _ w => Some (Demoted, mkSystem w (sy_sessions σ))
        | Panic => None
        end
      else None
  end.

Lemma act_move a σ e σ' : act a σ = Some (e, σ') → move ptr_eq hex_encode en σ e σ'.
Proof.
  destruct a as [sid request|sid q|sid q|sid|order]; unfold act.
  - destruct (sy_sessions σ !! sid) eqn:Hs; [done|].
    destruct (start_session en request (Ok tt)) as [s|] eqn:Hst; [|done]. intros [= <- <-]. by eapply move_start.
  - destruct (sy_sessions σ !! sid) as [s|] eqn:Hs; [|done]. cbn.
    destruct (Mapped.step ptr_eq q (running σ s)) as [out ρ|err ρ|] eqn:Hst; [| |done].
    + intros [= <- <-]. by eapply move_step.
    + unfold leave. destruct (drop_session _ _) as [[] w| |] eqn:Hd; [|done..]. intros [= <- <-]. by eapply move_fail.
  - destruct (sy_sessions σ !! sid) as [s|] eqn:Hs; [|done]. cbn.
    destruct (finish q (running σ s)) as [out ρ|err ρ|] eqn:Hst; [| |done];
      unfold leave; (destruct (drop_session _ _) as [[] w| |] eqn:Hd; [|done..]); intros [= <- <-].
    + by eapply move_finish.
    + by eapply move_finish_fail.
  - destruct (sy_sessions σ !! sid) as [s|] eqn:Hs; [|done]. cbn. unfold leave.
    destruct (drop_session _ _) as [[] w| |] eqn:Hd; [|done..]. intros [= <- <-]. by eapply move_drop.
  - case_decide as Hnd; [|done].
    destruct (demote_inactive _ _ _ _) as [n w|err w|] eqn:Hd; [| |done]; intros [= <- <-].
    + by eapply move_spill.
    + by eapply move_spill_fail.
Qed.

Definition room_left (σ : System) : bool :=
  let n := (N.of_nat (length (xp_required_components (en_profile en))) + 8)%N in
  let p := ms_physical (sy_shared σ) in
  (pm_next_id p + n <=? u64_max)%N && (pm_clock p + n <=? u64_max)%N
  && (cs_next_context (ms_logical (sy_shared σ)) <? u64_max)%N.

Lemma room_left_ok σ : room_left σ = true → has_room en σ.
Proof.
  unfold room_left, has_room, room. rewrite !andb_true_iff, !N.leb_le, N.ltb_lt. tauto.
Qed.

Fixpoint exec (actions : list Action) (σ : System) : option (list Event * System) :=
  match actions with
  | [] => Some ([], σ)
  | a :: actions' =>
      if room_left σ then
        '(e, σ1) ← act a σ;
        '(es, σ2) ← exec actions' σ1;
        Some (e :: es, σ2)
      else None
  end.

Lemma exec_run actions σ es σ' : exec actions σ = Some (es, σ') → run ptr_eq hex_encode en σ es σ'.
Proof.
  revert σ es. induction actions as [|a actions IH]; intros σ es; cbn; [intros [= <- <-]; constructor|].
  destruct (room_left σ) eqn:Hr; [|done]. destruct (act a σ) as [[e σ1]|] eqn:Ha; cbn; [|done].
  destruct (exec actions σ1) as [[es1 σ2]|] eqn:He; cbn; [|done]. intros [= <- <-].
  econstructor; [by apply room_left_ok|by eapply act_move|by apply IH].
Qed.

(** What a list of actions reports, and the state it leaves. *)
Definition events (actions : list Action) (σ : System) : list Event :=
  match exec actions σ with Some (es, _) => es | None => [] end.

Definition final (actions : list Action) (σ : System) : System :=
  match exec actions σ with Some (_, σ') => σ' | None => σ end.

Lemma exec_total actions σ :
  bool_decide (exec actions σ = None) = false →
  run ptr_eq hex_encode en σ (events actions σ) (final actions σ).
Proof.
  unfold events, final. destruct (exec actions σ) as [[es σ']|] eqn:He; [|done]. intros _. by apply (exec_run actions).
Qed.
End actions.

(** ** A run to evaluate *)

Module Demo.
Import Mock.

Definition no_sharing (a b : SequenceChunk) : bool := false.

Lemma no_sharing_sound a b : no_sharing a b = true → a = b.
Proof. done. Qed.

Definition profile : ExecutionProfile :=
  mkExecutionProfile "a" 2 [ProfileComponent.Kv; ProfileComponent.Swa; ProfileComponent.Recurrent].

Definition capacity : Capacity := mkCapacity 100 100.

Definition opening : result ServerError.Error (MappedEngine * MappedState) :=
  match open_at_epoch_with_spill (Ok [profile]) [] (λ _, Some "a") "m" 64 0 100 100 1 (Some "spill") 50 (mkDisk ∅ []) with
  | Done p _ => Ok p
  | Fail e _ => Err e
  | Panic => Err (ServerError.State "")
  end.

Definition engine : MappedEngine :=
  match opening with Ok (en, _) => en | Err _ => mkMappedEngine profile "" 0 None 0 end.

Definition initial_state : MappedState :=
  match opening with
  | Ok (_, w) => w
  | Err _ => mkMapped (mkExecutor [[]] 0) (mkHandle (HA := mock_abi) 0 0) default_store
               (PhysicalManager.new capacity) 0 ∅ default_mapped_metrics 0 (mkDisk ∅ [])
  end.

Lemma engine_opened : opened engine initial_state capacity.
Proof.
  exists (Ok [profile]), [], (λ _, Some "a"), "m", 64%N, 0%Z, 1%N, (Some "spill"), 50%N, (mkDisk ∅ []), (mkDisk ∅ []).
  split; [vm_compute; reflexivity|]. by split_and!.
Qed.

(** Requests of one model: a prompt, and how many tokens to answer. *)
Definition request (prompt : string) (n : N) : Inference.EngineRequest :=
  Inference.mkEngineRequest (mkModel "m" "1" "m" "" [] "" 0 1) prompt n [] (mkSampling 0 0 0) None 0
    (Scheduler.mkMetadata Interactive AdapterDefault "" "" "") 3.

Definition quiet_quantum : Quantum := mkQuantum (λ _, Ok tt) (λ _, false) (λ _, 0%N).

Abbreviation exec := (exec no_sharing pretty engine).
Abbreviation events := (events no_sharing pretty engine).
Abbreviation final := (final no_sharing pretty engine).
Abbreviation run := (run no_sharing pretty engine).

Definition initial : System := mkSystem initial_state ∅.

(** A first session publishes the prefix [ab]. *)
Definition publishing : list Action :=
  AStart 0 (request "ab" 0) :: replicate 4 (AStep 0 quiet_quantum).

(** It is spilled while another session has its own mapping. *)
Definition spilling : list Action :=
  [AStart 2 (request "a" 1); AStep 2 quiet_quantum;
   ASpill (map_to_list (ms_resident (sy_shared (final publishing initial)))).*1].

Definition before : System := final (publishing ++ spilling) initial.

(** Then a session with a longer prompt starts, and resumes from the file. *)
Definition resumed : System :=
  mkSystem (sy_shared before)
    (<[1%N := new_session (en_profile engine) (en_context_capacity engine) (request "abc" 1)]> (sy_sessions before)).

Definition resuming : list Action :=
  AStep 1 quiet_quantum :: AStep 2 quiet_quantum :: replicate 4 (AStep 1 quiet_quantum).

Lemma run_before : run initial (events (publishing ++ spilling) initial) before.
Proof. apply exec_total. vm_compute. reflexivity. Qed.

Lemma run_resuming : run resumed (events resuming resumed) (final resuming resumed).
Proof. apply exec_total. vm_compute. reflexivity. Qed.

Example spilled_before : ms_spill_bytes (sy_shared before) = 2%N.
Proof. vm_compute. reflexivity. Qed.

End Demo.
