(* ===== verification/MappedProperties.v ===== *)
(** What the mapped engine promises of every run, from its opening: the transcript of
    a session does not depend on the others, nor on what is cached, published or
    spilled; nothing panics; sessions end; what is spilled is within its budget and
    can be read back. The witnesses run a small native executor. *)

From stdpp Require Import gmap strings list numbers pretty.
From Stdlib Require Import Lia.
From S2P Require Import Prelude TokenSequence ContextStore ContextLaws PhysicalManager PhysicalLaws PhysicalProperties PhysicalRoom.
From S2P Require Import Engine Lifecycle Inference Executor ExecutorLaws Mapped MappedLaws MappedPublication.
From S2P Require Import MappedSpilling MappedSessions MappedSystem MappedMock.

(** ** Runs and their events *)

Definition subject (e : Event) : option N :=
  match e with
  | Started sid | Stepped sid _ | Ended sid _ | Failed sid _ | Dropped sid => Some sid
  | Demoted => None
  end.

Definition token_of (sid : N) (e : Event) : option Z :=
  match e with
  | Stepped sid' (Token t _ _ _) => if decide (sid' = sid) then Some t else None
  | _ => None
  end.

(** The tokens that are reported of a session. *)
Definition reported (sid : N) (es : list Event) : list Z := omap (token_of sid) es.

(** A quantum of a session that has not finished. *)
Definition works (sid : N) (e : Event) : bool :=
  match e with
  | Stepped sid' (Token _ _ _ _) | Stepped sid' (Progress _) => bool_decide (sid' = sid)
  | _ => false
  end.

Section runs.
Context `{HS : Hasher} {HSL : HasherLaws HS} `{HL : AbiLaws}.
Context (ptr_eq : SequenceChunk → SequenceChunk → bool) (hex_encode : N → string).
Hypothesis ptr_eq_sound : ∀ a b, ptr_eq a b = true → a = b.
Hypothesis hex_injective : Inj (=) (=) hex_encode.
Context (cap : Capacity) (en : MappedEngine).
Hypothesis engine : engine_ok en.
Implicit Types (σ : System) (e : Event) (es : list Event) (sid : N) (s : MappedSession).

#[local] Abbreviation move := (MappedSystem.move ptr_eq hex_encode en).
#[local] Abbreviation run := (MappedSystem.run ptr_eq hex_encode en).
#[local] Abbreviation system_ok := (MappedSystem.system_ok hex_encode cap en).

Lemma move_other σ e σ' sid :
  move σ e σ' → subject e ≠ Some sid → sy_sessions σ' !! sid = sy_sessions σ !! sid.
Proof.
  intros Hm Hs. destruct Hm; cbn in *; try done;
    first [apply lookup_insert_ne | apply lookup_delete_ne]; congruence.
Qed.

Lemma move_subject σ e σ' sid :
  move σ e σ' → subject e = Some sid → e ≠ Started sid → is_Some (sy_sessions σ !! sid).
Proof. intros Hm Hs He. destruct Hm; cbn in *; simplify_eq; by eexists. Qed.

(** A session that is gone reports nothing. *)
Lemma run_absent σ es σ' sid :
  run σ es σ' → sy_sessions σ !! sid = None → Started sid ∉ es → ∀ e, e ∈ es → subject e ≠ Some sid.
Proof.
  induction 1 as [|σ e σ1 es σ2 _ Hm _ IH]; intros Hn Hns e' He'; [by apply not_elem_of_nil in He'|].
  apply not_elem_of_cons in Hns as [Hne Hns].
  assert (subject e ≠ Some sid) as Hs.
  { intros Hs. destruct (move_subject _ _ _ _ Hm Hs) as [s ?]; [congruence|congruence]. }
  apply elem_of_cons in He' as [->|He']; [done|]. apply IH; [|done..]. by rewrite (move_other _ _ _ _ Hm).
Qed.

(** The events that concern a session: those of a later one of the same name are not
    among them. *)
Record faithful sid s es : Prop := {
  fa_tokens : reported sid es `prefix_of` drop (N.to_nat (se_generated s)) (answer (se_request s));
  fa_finished : ∀ out, Stepped sid (Finished out) ∈ es → eo_successor_tokens out = transcript (se_request s);
  fa_ended : ∀ out, Ended sid out ∈ es → eo_successor_tokens out `prefix_of` transcript (se_request s);
  fa_works : length (List.filter (works sid) es) ≤ remaining s;
}.

Lemma faithful_nothing sid s es : (∀ e, e ∈ es → subject e ≠ Some sid) → faithful sid s es.
Proof.
  intros Hn. split.
  - unfold reported. replace (omap (token_of sid) es) with (@nil Z); [apply prefix_nil|].
    induction es as [|e es IH]; [done|]. cbn. destruct (token_of sid e) as [t|] eqn:Ht.
    + destruct (Hn e); [by left|]. destruct e as [|sid' []| | | |]; cbn in *; try done. by case_decide; subst.
    + apply IH. intros e' He'. apply Hn. by right.
  - intros out Ho. by destruct (Hn _ Ho).
  - intros out Ho. by destruct (Hn _ Ho).
  - replace (List.filter (works sid) es) with (@nil Event); [cbn; lia|].
    induction es as [|e es IH]; [done|]. cbn. destruct (works sid e) eqn:Ht.
    + destruct (Hn e); [by left|]. destruct e as [|sid' []| | | |]; cbn in *; try done;
        apply bool_decide_eq_true in Ht; congruence.
    + apply IH. intros e' He'. apply Hn. by right.
Qed.

(** An event that is not one of the session's own steps adds nothing. *)
Lemma faithful_skip sid s e es :
  token_of sid e = None → works sid e = false → (∀ out, e ≠ Stepped sid (Finished out)) →
  (∀ out, e = Ended sid out → eo_successor_tokens out `prefix_of` transcript (se_request s)) →
  faithful sid s es → faithful sid s (e :: es).
Proof.
  intros Ht Hw Hf He []. split.
  - unfold reported. cbn. by rewrite Ht.
  - intros out [Heq|Ho]%elem_of_cons; [by destruct (Hf out)|auto].
  - intros out [Heq|Ho]%elem_of_cons; [by apply He|auto].
  - cbn. by rewrite Hw.
Qed.

Lemma faithful_step k w sid s out ρ es :
  stepped hex_encode cap (en_spill_capacity en) k w s out ρ →
  faithful sid (rn_session ρ) es → faithful sid s (Stepped sid out :: es).
Proof.
  intros [] []. destruct st_same as (Hr & _). rewrite Hr in *. rewrite st_generated in fa_tokens0. split.
  - unfold reported in *. cbn. destruct out as [o|t piece ended o|output]; cbn in *; rewrite ?N.add_0_r in *; try done.
    rewrite decide_True by done. destruct st_reports as [Ht _].
    rewrite (drop_S _ _ _ Ht). apply prefix_cons. by rewrite <- Nat.add_1_r, <- (N2Nat.inj_add _ 1).
  - intros o [[= <-]|Ho]%elem_of_cons; [done|by apply fa_finished0].
  - intros o [|Ho]%elem_of_cons; [done|by apply fa_ended0].
  - cbn. destruct st_remaining as [Hlt|[Heq (output & ->)]].
    + destruct out; cbn; rewrite ?bool_decide_true by done; cbn; lia.
    + cbn. rewrite Heq in fa_works0. done.
Qed.

(** A run tells of each session what its request's transcript says. *)
Lemma run_faithful σ es σ' sid s :
  system_ok σ → run σ es σ' → sy_sessions σ !! sid = Some s → Started sid ∉ es → faithful sid s es.
Proof.
  intros Hok Hrun. revert s. induction Hrun as [σ|σ e σ1 es σ2 Hroom Hm Hrun IH]; intros s Hs Hns.
  { apply faithful_nothing. intros e He. by apply not_elem_of_nil in He. }
  apply not_elem_of_cons in Hns as [Hne Hns].
  assert (system_ok σ1) as Hok1 by by eapply move_ok.
  specialize (IH Hok1). destruct (decide (subject e = Some sid)) as [Hsub|Hsub].
  2:{ apply faithful_skip; [| |by intros out ->|by intros out ->|].
      - destruct e as [|sid' []| | | |]; cbn in *; try done. case_decide; congruence.
      - destruct e as [|sid' []| | | |]; cbn in *; try done; apply bool_decide_eq_false; congruence.
      - apply IH; [|done]. by rewrite (move_other _ _ _ _ Hm). }
  destruct Hok as [Hw Hss]. destruct Hroom as [Hroom Hnext].
  assert (∀ s0, sy_sessions σ !! sid = Some s0 → s0 = s) as Huniq by (intros; congruence).
  assert (sy_sessions σ1 !! sid = None → faithful sid s es) as Hgone.
  { intros Hn. apply faithful_nothing. by eapply run_absent. }
  destruct (ss_session _ _ _ Hss sid s Hs) as (Hsok & Hp & Hc).
  destruct Hm; cbn in Hsub; simplify_eq.
  - eapply faithful_step.
    + pose proof (session_step_ok ptr_eq hex_encode ptr_eq_sound hex_injective cap (en_spill_capacity en) 0 q
        (sy_shared σ) s0 Hw (session_room_en en s0 _ Hp Hroom) Hnext Hsok) as H'.
      unfold wp_gen, running in *. rewrite H0 in H'. exact H'.
    + apply IH; [|done]. apply lookup_insert_eq.
  - apply faithful_skip; try done. apply Hgone, lookup_delete_eq.
  - apply faithful_skip; try done; [|apply Hgone, lookup_delete_eq]. intros out [= <-].
    pose proof (finish_ok hex_encode cap (en_spill_capacity en) _ q (sy_shared σ) s0 Hw Hroom Hsok) as H'.
    unfold wp_gen, running in *. rewrite H0 in H'. apply H'.
  - apply faithful_skip; try done. apply Hgone, lookup_delete_eq.
  - apply faithful_skip; try done. apply Hgone, lookup_delete_eq.
Qed.
End runs.

(** ** Properties *)

Section properties.
Context `{HS : Hasher} {HSL : HasherLaws HS} `{HL : AbiLaws}.
Context (ptr_eq : SequenceChunk → SequenceChunk → bool) (hex_encode : N → string).
Hypothesis ptr_eq_sound : ∀ a b, ptr_eq a b = true → a = b.
Hypothesis hex_injective : Inj (=) (=) hex_encode.

#[local] Abbreviation run := (MappedSystem.run ptr_eq hex_encode).

Lemma start_faithful en w0 cap es σ sid request view s es' σ' :
  opened en w0 cap → run en (mkSystem w0 ∅) es σ →
  sy_sessions σ !! sid = None → start_session en request view = Ok s →
  run en (mkSystem (sy_shared σ) (<[sid := s]> (sy_sessions σ))) es' σ' → Started sid ∉ es' →
  faithful sid s es' ∧ s = new_session (en_profile en) (en_context_capacity en) request.
Proof.
  intros Hopen Hrun Hsid Hstart Hrun' Hns. destruct (opened_ok hex_encode en w0 cap Hopen) as [Hen Hok].
  assert (system_ok hex_encode cap en σ) as [Hw Hss] by by eapply run_ok.
  destruct (session_start_ok hex_encode cap en Hen (sy_shared σ) (sy_sessions σ) sid request view s) as [Hw' Hss']; [done..|].
  split.
  - assert (system_ok hex_encode cap en (mkSystem (sy_shared σ) (<[sid:=s]> (sy_sessions σ)))) as Hok' by by split.
    apply (run_faithful ptr_eq hex_encode ptr_eq_sound hex_injective cap en Hen _ _ _ _ _ Hok' Hrun');
      [apply lookup_insert_eq|done].
  - by eapply (start_session_ok en request view (sy_shared σ) s (eg_profile _ Hen) (eg_capacity _ Hen)).
Qed.

(** C1: Whatever the mapped engine has done before a session starts and whatever the
    other sessions do meanwhile (publish, activate and read back prefixes, spill,
    fail, end), the tokens a session reports are, in order, those that the model
    gives when the text of its request is evaluated from scratch, and when it is
    finished its tokens are its prior tokens, its prompt and that whole answer; a
    session that is ended early has a prefix of it. *)
Theorem mapped_transparent en w0 cap es σ sid request view s es' σ' :
  opened en w0 cap → run en (mkSystem w0 ∅) es σ →
  sy_sessions σ !! sid = None → start_session en request view = Ok s →
  run en (mkSystem (sy_shared σ) (<[sid := s]> (sy_sessions σ))) es' σ' → Started sid ∉ es' →
  reported sid es' `prefix_of` answer request
  ∧ (∀ out, Stepped sid (Finished out) ∈ es' →
       eo_successor_tokens out = er_prior_tokens request ++ vocabulary (er_prompt request) ++ answer request)
  ∧ (∀ out, Ended sid out ∈ es' → eo_successor_tokens out `prefix_of` text_of request ++ answer request).
Proof.
  intros Hopen Hrun Hsid Hstart Hrun' Hns.
  destruct (start_faithful en w0 cap es σ sid request view s es' σ') as [[Ht Hf He _] ->]; [done..|].
  split_and!; [done| |done]. intros out Ho. rewrite (Hf out Ho). unfold transcript, text_of. by rewrite <- app_assoc.
Qed.

(** C2: In every state that the mapped engine reaches, as long as the 64-bit
    identifiers and ticks are not used up, no quantum, no finish and no drop of a
    session panics, and neither does a round of spilling: the checks made before a
    publication is committed are enough for its commit not to fail. *)
Theorem mapped_never_panics en w0 cap es σ :
  opened en w0 cap → run en (mkSystem w0 ∅) es σ → has_room en σ →
  (∀ sid s q, sy_sessions σ !! sid = Some s →
     Mapped.step ptr_eq q (running σ s) ≠ Panic ∧ finish q (running σ s) ≠ Panic
     ∧ drop_session s (sy_shared σ) ≠ Panic)
  ∧ (∀ order, base.NoDup order → demote_inactive hex_encode en order (sy_shared σ) ≠ Panic).
Proof.
  intros Hopen Hrun [Hroom Hnext]. destruct (opened_ok hex_encode en w0 cap Hopen) as [Hen Hok].
  assert (system_ok hex_encode cap en σ) as [Hw Hss] by by eapply run_ok.
  assert (∀ {S E A} (m : M S E A) (Q : A → S → Prop) R x, wp m Q R x → m x ≠ Panic) as Hp.
  { intros S E A m Q R x Hm Heq. unfold wp_gen in Hm. by rewrite Heq in Hm. }
  split.
  - intros sid s q Hs. destruct (ss_session _ _ _ Hss sid s Hs) as (Hsok & Hprof & _). split_and!.
    + eapply Hp. by apply (session_step_ok ptr_eq hex_encode ptr_eq_sound hex_injective cap (en_spill_capacity en) 0 q
        (sy_shared σ) s Hw (session_room_en en s _ Hprof Hroom) Hnext).
    + eapply Hp. by apply (finish_ok hex_encode cap (en_spill_capacity en) _ q (sy_shared σ) s Hw Hroom).
    + eapply Hp. by apply (drop_session_ok hex_encode cap (en_spill_capacity en)).
  - intros order Hnd. eapply Hp.
    by apply (spill_inactive_ok hex_encode hex_injective cap (en_spill_capacity en) (eg_spill _ Hen) _ en order
      (sy_shared σ) eq_refl Hw Hroom).
Qed.

(** C28: A session of the mapped engine ends: from its start it takes at most as many
    quanta as the context has tokens, and four more, before it is finished or an
    error ends it, whatever the chunk and block sizes are and whatever the other
    sessions do. *)
Theorem mapped_session_ends en w0 cap es σ sid request view s es' σ' :
  opened en w0 cap → run en (mkSystem w0 ∅) es σ →
  sy_sessions σ !! sid = None → start_session en request view = Ok s →
  run en (mkSystem (sy_shared σ) (<[sid := s]> (sy_sessions σ))) es' σ' → Started sid ∉ es' →
  length (List.filter (works sid) es') ≤ N.to_nat (en_context_capacity en) + 4.
Proof.
  intros Hopen Hrun Hsid Hstart Hrun' Hns.
  by destruct (start_faithful en w0 cap es σ sid request view s es' σ') as [[_ _ _ Hw] ->].
Qed.

(** C8: In every state that the mapped engine reaches, every prefix that is known has
    its resident mapping and every resident mapping is recoverable: it has the
    continuation of its prefix, and either the native executor holds the tokens of
    the prefix or a file of the recorded size restores them; the recorded bytes of
    the spilled mappings are those of their files and within the spill capacity. *)
Theorem mapped_spills_recoverable en w0 cap es σ :
  opened en w0 cap → run en (mkSystem w0 ∅) es σ →
  let w := sy_shared σ in
  ms_spill_bytes w = map_sum spilled_bytes (ms_resident w) ∧ (ms_spill_bytes w ≤ en_spill_capacity en)%N
  ∧ (∀ id m, mapping id (ms_logical w) = Some m → is_Some (ms_resident w !! id))
  ∧ ∀ id r, ms_resident w !! id = Some r → ∃ m, mapping id (ms_logical w) = Some m ∧
      rm_continuation r = evaluated (tokens (ep_sequence m)) ∧
      match rm_native r, rm_spill r with
      | Some h, None => tokens_in (ms_executor w) (rh_raw h) = Some (tokens (ep_sequence m))
      | None, Some sp => ∃ bytes, dk_files (ms_disk w) !! sp_path sp = Some bytes
          ∧ N.of_nat (length bytes) = sp_bytes sp
          ∧ restored_tokens bytes (sp_position sp) = Some (tokens (ep_sequence m))
      | _, _ => False
      end.
Proof.
  intros Hopen Hrun w. destruct (opened_ok hex_encode en w0 cap Hopen) as [Hen Hok].
  assert (system_ok hex_encode cap en σ) as [[] _] by by eapply run_ok.
  split_and!; [done..|]. intros id r Hr. destruct (mo_resident id r Hr) as (m & Hm & Hc & Hrok).
  exists m. split; [done|]. split; [done|]. destruct (rm_native r), (rm_spill r); try done. by apply Hrok.
Qed.
End properties.

(** ** Witnesses *)

Section witnesses.
Import Mock Demo.

Definition starts (sid : N) (e : Event) : bool :=
  match e with Started sid' => (sid' =? sid)%N | _ => false end.

Lemma not_started sid es : existsb (starts sid) es = false → Started sid ∉ es.
Proof.
  intros Hb He. assert (existsb (starts sid) es = true) as Ht; [|congruence].
  apply existsb_exists. exists (Started sid). split; [by apply list_elem_of_In|cbn; apply N.eqb_refl].
Qed.

Lemma session_1_unstarted : Started 1 ∉ events resuming resumed.
Proof. apply not_started. vm_compute. reflexivity. Qed.

Lemma session_1_fresh : sy_sessions before !! 1%N = None.
Proof. vm_compute. reflexivity. Qed.

Lemma session_1_starts :
  start_session engine (request "abc" 1) (Ok tt)
  = Ok (new_session (en_profile engine) (en_context_capacity engine) (request "abc" 1)).
Proof. vm_compute. reflexivity. Qed.

Definition last_output : EngineOutput :=
  match events resuming resumed !! 5 with Some (Stepped _ (Finished out)) => out | _ => default_output end.

(** A session that resumes from a prefix that was published by another and spilled:
    it reports the token that the model gives to the text, and is finished. *)
Lemma mapped_transparent_witness :
  ms_spill_bytes (sy_shared before) = 2%N
  ∧ reported 1 (events resuming resumed) = [6%Z]
  ∧ reported 1 (events resuming resumed) `prefix_of` answer (request "abc" 1)
  ∧ ∃ out, Stepped 1 (Finished out) ∈ events resuming resumed
      ∧ eo_cached_tokens out = 2%N
      ∧ eo_successor_tokens out = [97; 98; 99]%Z ++ answer (request "abc" 1).
Proof.
  destruct (mapped_transparent no_sharing pretty no_sharing_sound pretty_N_inj engine initial_state capacity
    _ before 1 (request "abc" 1) (Ok tt) _ (events resuming resumed) (final resuming resumed)
    engine_opened run_before session_1_fresh session_1_starts run_resuming
    session_1_unstarted) as (Hr & Hf & _).
  split; [vm_compute; reflexivity|]. split; [vm_compute; reflexivity|]. split; [exact Hr|].
  assert (Stepped 1 (Finished last_output) ∈ events resuming resumed) as Hin.
  { apply (list_elem_of_lookup_2 _ 5). vm_compute. reflexivity. }
  exists last_output. split; [exact Hin|]. split; [vm_compute; reflexivity|]. exact (Hf last_output Hin).
Defined.

Lemma session_2_prefills : ∃ s, sy_sessions before !! 2%N = Some s ∧ se_stage s = StPrefill.
Proof.
  assert (match sy_sessions before !! 2%N with
          | Some s => match se_stage s with StPrefill => true | _ => false end
          | None => false
          end = true) as H by (vm_compute; reflexivity).
  destruct (sy_sessions before !! 2%N) as [s|]; [|discriminate H].
  exists s. split; [reflexivity|]. by destruct (se_stage s).
Qed.

Lemma a_prefix_is_spilled : ∃ id r, ms_resident (sy_shared before) !! id = Some r ∧ rm_native r = None.
Proof.
  set (id := default 0%N (head (map_to_list (ms_resident (sy_shared before))).*1)).
  assert (match ms_resident (sy_shared before) !! id with
          | Some r => match rm_native r with None => true | Some _ => false end
          | None => false
          end = true) as H by (vm_compute; reflexivity).
  exists id. destruct (ms_resident (sy_shared before) !! id) as [r|]; [|discriminate H].
  exists r. split; [reflexivity|]. by destruct (rm_native r).
Qed.

(** A state in which two sessions run and a prefix is spilled. *)
Lemma mapped_never_panics_witness :
  has_room engine before
  ∧ ∃ s, sy_sessions before !! 2%N = Some s ∧ se_stage s = StPrefill
      ∧ Mapped.step no_sharing quiet_quantum (running before s) ≠ Panic.
Proof.
  assert (has_room engine before) as Hroom by (apply room_left_ok; vm_compute; reflexivity).
  split; [exact Hroom|].
  destruct (mapped_never_panics no_sharing pretty no_sharing_sound pretty_N_inj engine initial_state capacity
    _ before engine_opened run_before Hroom) as [Hsteps _].
  destruct session_2_prefills as (s & Hs & Hst). exists s. split; [exact Hs|]. split; [exact Hst|].
  exact (proj1 (Hsteps 2%N s quiet_quantum Hs)).
Defined.

Lemma mapped_session_ends_witness :
  length (List.filter (works 1) (events resuming resumed)) = 4
  ∧ length (List.filter (works 1) (events resuming resumed)) ≤ 68.
Proof.
  split; [vm_compute; reflexivity|].
  exact (mapped_session_ends no_sharing pretty no_sharing_sound pretty_N_inj engine initial_state capacity
    _ before 1 (request "abc" 1) (Ok tt) _ (events resuming resumed) (final resuming resumed)
    engine_opened run_before session_1_fresh session_1_starts run_resuming session_1_unstarted).
Defined.

(** The spilled prefix is in its file. *)
Lemma mapped_spills_recoverable_witness :
  ms_spill_bytes (sy_shared before) = 2%N
  ∧ ∃ id r m sp bytes, ms_resident (sy_shared before) !! id = Some r
      ∧ mapping id (ms_logical (sy_shared before)) = Some m ∧ rm_native r = None ∧ rm_spill r = Some sp
      ∧ dk_files (ms_disk (sy_shared before)) !! sp_path sp = Some bytes
      ∧ restored_tokens bytes (sp_position sp) = Some (tokens (ep_sequence m)).
Proof.
  split; [vm_compute; reflexivity|].
  destruct (mapped_spills_recoverable no_sharing pretty no_sharing_sound pretty_N_inj engine initial_state capacity
    _ before engine_opened run_before) as (_ & _ & _ & Hres).
  destruct a_prefix_is_spilled as (id & r & Hr & Hn).
  destruct (Hres id r Hr) as (m & Hm & _ & Hrec).
  rewrite Hn in Hrec. destruct (rm_spill r) as [sp|] eqn:Hsp; [|contradiction].
  destruct Hrec as (bytes & Hf & _ & Hl). exists id, r, m, sp, bytes. repeat (split; [assumption|]). exact Hl.
Defined.
End witnesses.
