(* ===== verification/Config.v ===== *)
(** The daemon's configuration ([crates/server/src/config.rs]): its records, their
    defaults, and [validate]. Paths and addresses are their text; reading the file is
    the serialization library's. *)

From stdpp Require Import base strings list numbers.
From Stdlib Require Import Lia.
From S2P Require Import Prelude FairPolicy Admission.

Definition CONFIG_VERSION : N := 1.

Inductive ConfigError : Type :=
| IoError
| YamlError (message : string)
| VersionError (version : N)
| InvalidConfig (message : string).

(** A number of bytes. *)
Abbreviation ByteSize := N (only parsing).

Inductive HttpDebugLevel : Type := DebugOff | DebugSafe | DebugFull.

Record DataPaths : Type := mkDataPaths {
  dp_database : string;
  dp_models : string;
  dp_spill : string;
  dp_user_models : string;
  dp_user_config : string;
}.

Record ExecutionConfig : Type := mkExecutionConfig {
  ec_device_capacity : ByteSize;
  ec_host_capacity : ByteSize;
  ec_storage_capacity : ByteSize;
  ec_context_reserve : ByteSize;
  ec_context_tokens : N;
  ec_gpu_layers : Z;
  ec_require_competent : bool;
}.

Record VisionConfig : Type := mkVisionConfig {
  vc_max_images : N;
  vc_max_encoded_bytes : N;
  vc_max_decoded_bytes : N;
  vc_max_dimension : N;
  vc_max_total_pixels : N;
  vc_retention_capacity : ByteSize;
  vc_metadata_allowlist : list string;
}.

Record OpenApiDocsUiConfig : Type := mkDocsUi { ui_enabled : bool }.

Record OpenApiConfig : Type := mkOpenApi { oa_docs_ui : OpenApiDocsUiConfig }.

Record DaemonConfig : Type := mkDaemonConfig {
  dc_version : N;
  dc_listen : string;
  dc_unsafe_public_unauthenticated : bool;
  dc_bearer_token : option string;
  dc_http_debug : HttpDebugLevel;
  dc_openapi : OpenApiConfig;
  dc_paths : DataPaths;
  dc_execution : ExecutionConfig;
  dc_server : ServerConfig;
  dc_scheduler : SchedulerPolicyConfig;
  dc_vision : VisionConfig;
}.

(** ** Defaults *)

Definition default_listen : string := "127.0.0.1:8080".

Definition default_context : N := 4096.

Definition default_gpu_layers : Z := 99.

Definition default_image_count : N := 8.

Definition default_encoded_bytes : N := N.shiftl 16 20.

Definition default_decoded_bytes : N := N.shiftl 12 20.

Definition default_dimension : N := 8192.

Definition default_pixels : N := 32000000.

Definition default_retention : ByteSize := N.shiftl 256 20.

Definition default_vision_config : VisionConfig :=
  mkVisionConfig default_image_count default_encoded_bytes default_decoded_bytes default_dimension
    default_pixels default_retention [].

(** ** Operations *)

(** [str::to_ascii_lowercase] *)
Definition lower_char (c : Ascii.ascii) : Ascii.ascii :=
  let n := Ascii.N_of_ascii c in
  if (65 <=? n)%N && (n <=? 90)%N then Ascii.ascii_of_N (n + 32) else c.

Fixpoint to_ascii_lowercase (s : string) : string :=
  match s with EmptyString => EmptyString | String c s' => String (lower_char c) (to_ascii_lowercase s') end.

Definition parse_debug_level (value : string) : result string HttpDebugLevel :=
  let value := to_ascii_lowercase value in
  if String.eqb value "off" then Ok DebugOff
  else if String.eqb value "safe" then Ok DebugSafe
  else if String.eqb value "full" then Ok DebugFull
  else Err "HTTP debug level must be one of: off, safe, full".

(** The command line before the environment before the file. *)
Definition resolve_http_debug (config : DaemonConfig) (cli : option HttpDebugLevel) (environment : option string)
  : result ConfigError HttpDebugLevel :=
  match cli with
  | Some cli => Ok cli
  | None =>
      match environment with
      | None => Ok (dc_http_debug config)
      | Some value =>
          match parse_debug_level value with Ok level => Ok level | Err e => Err (InvalidConfig e) end
      end
  end.

Definition validate (config : DaemonConfig) : result ConfigError DaemonConfig :=
  let execution := dc_execution config in
  let vision := dc_vision config in
  if negb (dc_version config =? CONFIG_VERSION)%N then Err (VersionError (dc_version config))
  else if (ec_device_capacity execution =? 0)%N || (ec_host_capacity execution =? 0)%N
          || (ec_storage_capacity execution =? 0)%N
  then Err (InvalidConfig "execution capacities must be nonzero")
  else if (ec_storage_capacity execution <? ec_context_reserve execution)%N
  then Err (InvalidConfig "context reserve exceeds storage capacity")
  else if (ec_context_tokens execution =? 0)%N
  then Err (InvalidConfig "context_tokens must be nonzero")
  else if (vc_max_images vision =? 0)%N || (vc_max_encoded_bytes vision =? 0)%N
          || (vc_max_decoded_bytes vision =? 0)%N || (vc_max_dimension vision =? 0)%N
          || (vc_max_total_pixels vision =? 0)%N
  then Err (InvalidConfig "vision limits must be nonzero")
  else if (vc_retention_capacity vision <? vc_max_decoded_bytes vision)%N
  then Err (InvalidConfig "vision retention capacity is smaller than one decoded image limit")
  else Ok config.

(** ** Lemmas *)

(** What a valid configuration guarantees to the parts it configures. *)
Lemma validate_guarantees config : validate config = Ok config →
  (ec_context_reserve (dc_execution config) ≤ ec_storage_capacity (dc_execution config))%N
  ∧ (0 < ec_device_capacity (dc_execution config))%N ∧ (0 < ec_context_tokens (dc_execution config))%N
  ∧ (vc_max_decoded_bytes (dc_vision config) ≤ vc_retention_capacity (dc_vision config))%N.
Proof.
  unfold validate. intros H. destruct (negb _); [done|]. destruct (_ || _ || _) eqn:Hc; [done|].
  destruct (_ <? _)%N eqn:Hr in H; [done|]. destruct (_ =? 0)%N eqn:Ht in H; [done|].
  destruct (_ || _ || _ || _ || _) in H; [done|]. destruct (_ <? _)%N eqn:Hv in H; [done|].
  rewrite !orb_false_iff in Hc. rewrite !N.eqb_neq in Hc. rewrite N.ltb_ge in Hr, Hv. rewrite N.eqb_neq in Ht. lia.
Qed.
