(* ===== verification/Vision.v ===== *)
(** Image admission ([crates/server/src/vision.rs]): an image is decoded only as far
    as its limits need, checked against them, and kept by the digest of its bytes.

    The base64 decoder, the image decoders and the digest are libraries': parameters.
    A method is one critical section, since it takes the lock once. *)

From stdpp Require Import gmap strings list numbers.
From Stdlib Require Import Lia.
From S2P Require Import Prelude Text Config.

Record AdmittedImage : Type := mkImage {
  im_digest : string;
  im_mime_type : string;
  im_width : N;
  im_height : N;
  im_pixels : N;
  im_has_alpha : bool;
  im_bytes : bytes;
}.

Record VisionError : Type := mkVisionError {
  ve_code : string;
  ve_message : string;
  ve_field : string;
  ve_observed : option N;
  ve_limit : option N;
  ve_unit : option string;
}.

(** [Display] of an error. *)
Definition vision_message (e : VisionError) : string := ve_code e +:+ ": " +:+ ve_message e.

Definition malformed (message : string) : VisionError :=
  mkVisionError "image_malformed" message "image" None None None.

Definition limit_exceeded (field : string) (observed limit : N) (unit : string) : VisionError :=
  mkVisionError "image_limit_exceeded" (field +:+ " exceeds configured limit") field (Some observed) (Some limit)
    (Some unit).

Definition unsupported_image (message : string) : VisionError :=
  mkVisionError "image_unsupported" message "image" None None None.

Inductive ImageFormat : Type := Jpeg | Png | WebP | Gif | OtherFormat.

Record CacheState : Type := mkCache {
  ch_bytes : N;
  ch_values : gmap string AdmittedImage;
}.

Definition empty_cache : CacheState := mkCache 0 ∅.

(** ** Text *)

(** [s.split_once(c)] *)
Fixpoint split_once (c : Ascii.ascii) (s : string) : option (string * string) :=
  match s with
  | EmptyString => None
  | String x s' =>
      if Ascii.eqb x c then Some ("", s')
      else '(a, b) ← split_once c s'; Some (String x a, b)
  end.

(** [s.strip_prefix(p)] and [s.strip_suffix(p)] *)
Fixpoint strip_prefix (p s : string) : option string :=
  match p, s with
  | EmptyString, _ => Some s
  | String x p', String y s' => if Ascii.eqb x y then strip_prefix p' s' else None
  | String _ _, EmptyString => None
  end.

Definition strip_suffix (p s : string) : option string :=
  let n := (String.length s - String.length p)%nat in
  if (String.length p <=? String.length s)%nat
     && bool_decide (String.substring n (String.length p) s = p)
  then Some (String.substring 0 n s) else None.

Definition is_ascii_whitespace (c : Ascii.ascii) : bool :=
  existsb (N.eqb (Ascii.N_of_ascii c)) [32; 9; 10; 12; 13]%N.

Fixpoint remove_whitespace (s : string) : string :=
  match s with
  | EmptyString => EmptyString
  | String c s' => if is_ascii_whitespace c then remove_whitespace s' else String c (remove_whitespace s')
  end.

Definition saturating_mul (a b : N) : N := N.min (a * b) u64_max.

(** ** Admission *)

Section admission.
Variable base64_decode : string → option bytes.
Variable guess_format : bytes → option ImageFormat.
(** Width, height and whether there is an alpha channel; for GIF also the number of
    frames, as far as two. *)
Variable decode_header : ImageFormat → bytes → option (N * N * bool).
Variable gif_frames : bytes → option nat.
Variable sha256_hex : bytes → string.

Variable config : VisionConfig.

Abbreviation V := (M CacheState VisionError).

Definition mime_type (format : ImageFormat) : option string :=
  match format with
  | Jpeg => Some "image/jpeg"
  | Png => Some "image/png"
  | WebP => Some "image/webp"
  | Gif => Some "image/gif"
  | OtherFormat => None
  end.

Definition within (field : string) (observed limit : N) (unit_name : string) : V unit :=
  guard_not (limit <? observed)%N (limit_exceeded field observed limit unit_name).

(** The decoder of each format, with its message; a second frame is refused. *)
Definition dimensions (format : ImageFormat) (data : bytes) : V (N * N * bool) :=
  match format with
  | Jpeg => ok_or (decode_header Jpeg data) (malformed "invalid JPEG image")
  | Png => ok_or (decode_header Png data) (malformed "invalid PNG image")
  | WebP => ok_or (decode_header WebP data) (malformed "invalid WebP image")
  | Gif =>
      frames ← ok_or (gif_frames data) (malformed "invalid GIF");
      _ ← guard_not (1 <? Nat.min frames 2)%nat (unsupported_image "animated GIF images are unsupported");
      ok_or (decode_header Gif data) (malformed "invalid GIF")
  | OtherFormat => panic
  end.

(** The locked section: an image that is known by digest and bytes is returned. *)
Definition retain (image : AdmittedImage) : V AdmittedImage :=
  cache ← get;
  match ch_values cache !! im_digest image with
  | Some existing =>
      if bool_decide (im_bytes existing = im_bytes image) then mret existing
      else
        let next := saturating_add (ch_bytes cache) (N.of_nat (length (im_bytes image))) in
        _ ← within "retention_bytes" next (vc_retention_capacity config) "bytes";
        _ ← modify (λ _, mkCache next (<[im_digest image := image]> (ch_values cache)));
        mret image
  | None =>
      let next := saturating_add (ch_bytes cache) (N.of_nat (length (im_bytes image))) in
      _ ← within "retention_bytes" next (vc_retention_capacity config) "bytes";
      _ ← modify (λ _, mkCache next (<[im_digest image := image]> (ch_values cache)));
      mret image
  end.

Definition admit_base64 (declared_mime encoded : string) : V AdmittedImage :=
  _ ← within "encoded_bytes" (N.of_nat (String.length encoded)) (vc_max_encoded_bytes config) "bytes";
  data ← ok_or (base64_decode (remove_whitespace encoded)) (malformed "invalid base64 image data");
  _ ← within "decoded_bytes" (N.of_nat (length data)) (vc_max_decoded_bytes config) "bytes";
  format ← ok_or (guess_format data) (unsupported_image "unsupported image format");
  actual_mime ← ok_or (mime_type format)
    (unsupported_image "only JPEG, PNG, WebP, and static GIF are supported");
  _ ← guard_not (negb (bool_decide (declared_mime = actual_mime)))
        (malformed ("declared MIME type " +:+ declared_mime +:+ " does not match " +:+ actual_mime));
  header ← dimensions format data;
  let '(width, height, has_alpha) := header in
  _ ← within "width" width (vc_max_dimension config) "pixels";
  _ ← within "height" height (vc_max_dimension config) "pixels";
  let pixels := saturating_mul width height in
  _ ← within "total_pixels" pixels (vc_max_total_pixels config) "pixels";
  retain (mkImage (sha256_hex data) actual_mime width height pixels has_alpha data).

Definition admit_data_uri (value : string) : V AdmittedImage :=
  parts ← ok_or (split_once (Ascii.ascii_of_nat 44) value)
    (malformed "image_url must be a base64 data URI");
  let '(header, encoded) := parts in
  declared ← ok_or (strip_prefix "data:" header ≫= strip_suffix ";base64")
    (malformed "only base64 data URIs are supported");
  admit_base64 declared encoded.

Definition retained_bytes (cache : CacheState) : N := ch_bytes cache.

(** ** The cache *)

Definition image_bytes (image : AdmittedImage) : N := N.of_nat (length (im_bytes image)).

(** An admitted image is within every limit, and known by the digest of its bytes. *)
Record admitted (image : AdmittedImage) : Prop := {
  ad_digest : im_digest image = sha256_hex (im_bytes image);
  ad_decoded : (image_bytes image ≤ vc_max_decoded_bytes config)%N;
  ad_width : (im_width image ≤ vc_max_dimension config)%N;
  ad_height : (im_height image ≤ vc_max_dimension config)%N;
  ad_pixels : (saturating_mul (im_width image) (im_height image) ≤ vc_max_total_pixels config)%N;
}.

(** What is kept is counted, within the capacity, and was admitted. *)
Record cache_ok (cache : CacheState) : Prop := {
  co_bytes : (map_sum image_bytes (ch_values cache) ≤ ch_bytes cache)%N;
  co_capacity : (ch_bytes cache ≤ vc_retention_capacity config)%N;
  co_admitted : ∀ digest image, ch_values cache !! digest = Some image → admitted image;
}.

Lemma wp_within field observed limit unit_name (Q : () → CacheState → Prop) R cache :
  wp (within field observed limit unit_name) Q R cache
  = if (limit <? observed)%N then R (limit_exceeded field observed limit unit_name) cache else Q tt cache.
Proof. apply wp_guard_not. Qed.

Lemma cache_insert image cache :
  cache_ok cache → admitted image → (vc_retention_capacity config < u64_max)%N →
  let next := saturating_add (ch_bytes cache) (image_bytes image) in
  (next ≤ vc_retention_capacity config)%N → cache_ok (mkCache next (<[im_digest image := image]> (ch_values cache))).
Proof.
  intros [Hb Hc Ha] Himage Hmax next Hle. unfold next, saturating_add in *. split; cbn.
  - rewrite <- insert_delete_eq, map_sum_insert_None by apply lookup_delete_eq.
    pose proof (map_sum_delete_le image_bytes (ch_values cache) (im_digest image)). lia.
  - done.
  - intros digest i Hi. apply lookup_insert_Some in Hi as [[_ <-]|[_ Hi]]; [done|by eapply Ha].
Qed.

(** Retaining fails only for want of room, and then nothing changes. *)
Lemma retain_ok image cache :
  cache_ok cache → admitted image → (vc_retention_capacity config < u64_max)%N →
  wp (retain image) (λ i cache', cache_ok cache' ∧ admitted i ∧ im_bytes i = im_bytes image)
    (λ e cache', cache' = cache ∧ (vc_retention_capacity config < ch_bytes cache + image_bytes image)%N) cache.
Proof.
  intros Hok Himage Hmax. unfold retain. wp_run.
  destruct (ch_values cache !! im_digest image) as [existing|] eqn:He; [case_bool_decide; wp_run|].
  { split_and!; [done|by eapply co_admitted|done]. }
  all: wp_run; rewrite wp_within; destruct (_ <? _)%N eqn:Hle.
  all: try (apply N.ltb_lt in Hle; unfold saturating_add, image_bytes in *; split; [done|lia]).
  all: apply N.ltb_ge in Hle; wp_run; split_and!; [by apply cache_insert|done..].
Qed.

Lemma dimensions_ok format data mime cache : mime_type format = Some mime →
  wp (dimensions format data) (λ _ cache', cache' = cache)
    (λ e cache', cache' = cache ∧ ve_field e = "image") cache.
Proof.
  unfold dimensions. destruct format; intros H; try done; wp_run.
  1-3: by destruct (decode_header _ _).
  destruct (gif_frames data); [|done]. wp_run. destruct (_ <? _)%nat; [done|]. wp_run. by destruct (decode_header _ _).
Qed.

(** Admission always returns. *)
Lemma admit_total value cache : wp (admit_data_uri value) (λ _ _, True) (λ _ _, True) cache.
Proof.
  assert (∀ A (m : V A) c, m c ≠ Panic → wp m (λ _ _, True) (λ _ _, True) c) as Hret.
  { intros A m c. unfold wp_gen. by destruct (m c). }
  unfold admit_data_uri, admit_base64. wp_run. destruct (split_once _ value) as [[header encoded]|]; [|done].
  wp_run. destruct (strip_prefix "data:" header ≫= strip_suffix ";base64") as [declared|]; [|done].
  wp_run. rewrite wp_within. destruct (_ <? _)%N; [done|]. wp_run.
  destruct (base64_decode _) as [data|]; [|done]. wp_run. rewrite wp_within.
  destruct (_ <? _)%N; [done|]. wp_run. destruct (guess_format data) as [format|]; [|done]. wp_run.
  destruct (mime_type format) as [actual|] eqn:Hmime; [|done]. wp_run.
  destruct (negb _); [done|]. eapply wp_mono; [by eapply dimensions_ok|cbn beta|done].
  intros [[width height] has_alpha] c _. wp_run. rewrite wp_within. destruct (_ <? _)%N; [done|].
  wp_run. rewrite wp_within. destruct (_ <? _)%N; [done|]. wp_run. rewrite wp_within. destruct (_ <? _)%N; [done|].
  apply Hret. unfold retain, within, guard_not, get, mbind, M_bind. cbn.
  destruct (ch_values c !! _); [case_bool_decide; [done|]|]; by destruct (_ <? _)%N.
Qed.

(** An image that is admitted is within every configured limit and known by the
    digest of its own bytes, and what is retained stays counted and within the
    capacity; an image that is refused leaves the cache as it was. With a valid
    configuration an empty cache never refuses an image for want of room. *)
Lemma admit_within_limits value cache :
  cache_ok cache → (vc_retention_capacity config < u64_max)%N →
  match admit_data_uri value cache with
  | Done image cache' => cache_ok cache' ∧ admitted image
  | Fail e cache' => cache' = cache
      ∧ (ch_bytes cache = 0 → vc_max_decoded_bytes config ≤ vc_retention_capacity config →
         ve_field e ≠ "retention_bytes")%N
  | Panic => False
  end.
Proof.
  intros Hok Hmax.
  enough (wp (admit_data_uri value) (λ image cache', cache_ok cache' ∧ admitted image)
    (λ e cache', cache' = cache ∧ (ch_bytes cache = 0 → vc_max_decoded_bytes config ≤ vc_retention_capacity config →
         ve_field e ≠ "retention_bytes")%N) cache) as H.
  { unfold wp_gen in H. by destruct (admit_data_uri value cache). }
  unfold admit_data_uri, admit_base64. wp_run. destruct (split_once _ value) as [[header encoded]|]; [|done].
  wp_run. destruct (strip_prefix "data:" header ≫= strip_suffix ";base64") as [declared|]; [|done].
  wp_run. rewrite wp_within. destruct (_ <? _)%N; [done|]. wp_run.
  destruct (base64_decode _) as [data|]; [|done]. rewrite wp_bind, wp_within.
  destruct (vc_max_decoded_bytes config <? _)%N eqn:Hlen; [done|]. apply N.ltb_ge in Hlen. wp_run.
  destruct (guess_format data) as [format|]; [|done]. wp_run.
  destruct (mime_type format) as [actual|] eqn:Hmime; [|done]. wp_run.
  destruct (negb _); [done|]. eapply wp_mono; [by eapply dimensions_ok|cbn beta|].
  2:{ intros e c [-> Hf]. by rewrite Hf. }
  intros [[width height] has_alpha] _ ->. wp_run. rewrite wp_within.
  destruct (_ <? width)%N eqn:Hw; [done|]. apply N.ltb_ge in Hw. wp_run. rewrite wp_within.
  destruct (_ <? height)%N eqn:Hh; [done|]. apply N.ltb_ge in Hh. wp_run. rewrite wp_within.
  destruct (_ <? saturating_mul width height)%N eqn:Hp; [done|]. apply N.ltb_ge in Hp.
  eapply wp_mono; [apply retain_ok; [done|by split|done]|cbn beta|]; [by intros i c (? & ? & _)|].
  intros e c [-> Hfull]. split; [done|]. unfold image_bytes in Hfull. cbn in Hfull. lia.
Qed.
End admission.
