(* ===== verification/Structured.v ===== *)
(** Structured output ([crates/server/src/structured.rs]): a JSON schema becomes the
    grammar that a generation must follow, or is refused.

    The grammar is text, as the native sampler reads it. The compiler's methods are
    [compile], [compile_object], [compile_array] and [rule]. Validating the schema
    against its draft and printing a JSON value are the libraries': parameters. *)

From stdpp Require Import base strings list numbers pretty.
From S2P Require Import Prelude Json.

Definition newline : string := String (Ascii.ascii_of_nat 10) "".

Inductive Error : Type :=
| Invalid (message : string)
| Unsupported (path feature : string).

(** [Display] of an error. *)
Definition error_message (e : Error) : string :=
  match e with
  | Invalid message => "invalid JSON Schema: " +:+ message
  | Unsupported path feature => "unsupported JSON Schema feature at " +:+ path +:+ ": " +:+ feature
  end.

(** ** Fixed rules *)

(** The constants are joined from their lines. *)
Definition lines (l : list string) : string := String.concat "" ((λ line, quoted line +:+ newline) <$> l).

Definition JSON_GRAMMAR : string := lines
  [ "root ::= value space";
    "value ::= object | array | string | number | boolean | null";
    "object ::= `{` space (string space `:` space value (space `,` space string space `:` space value)*)? space `}`";
    "array ::= `[` space (value (space `,` space value)*)? space `]`";
    "string ::= `\`` ([^`\\\x7F\x00-\x1F] | `\\` ([`\\/bfnrt] | `u` [0-9a-fA-F] [0-9a-fA-F] [0-9a-fA-F] [0-9a-fA-F]))* `\``";
    "number ::= `-`? ([0-9] | [1-9] [0-9]*) (`.` [0-9]+)? ([eE] [+-]? [0-9]+)?";
    "boolean ::= `true` | `false`";
    "null ::= `null`";
    "space ::= | ` ` | `\n` [ \t]{0,20}" ].

Definition json_grammar : string := JSON_GRAMMAR.

Definition SPACE_RULE : string := quoted "space ::= | ` ` | `\n` [ \t]{0,20}".

Definition finish_schema_grammar (grammar : string) : string := grammar +:+ lines
  [ "json-string ::= `\`` ([^`\\\x7F\x00-\x1F] | `\\` ([`\\/bfnrt] | `u` [0-9a-fA-F] [0-9a-fA-F] [0-9a-fA-F] [0-9a-fA-F]))* `\``";
    "integer ::= `-`? ([0-9] | [1-9] [0-9]*)";
    "number ::= `-`? ([0-9] | [1-9] [0-9]*) (`.` [0-9]+)? ([eE] [+-]? [0-9]+)?";
    "boolean ::= `true` | `false`";
    "null ::= `null`" ].

(** ** The compiler *)

Record Compiler : Type := mkCompiler {
  rules : list string;
  next_rule : N;
}.

Section compiler.
(** [serde_json::to_string], and the draft's validation of a schema. *)
Variable to_string : Value → string.
Variable jsonschema_compile : Value → result string unit.

Abbreviation C := (M Compiler Error).

Definition backslash : Ascii.ascii := Ascii.ascii_of_nat 92.

(** A text with its backslashes and quotation marks escaped. *)
Definition escape (s : string) : string :=
  replace_char quote_char (String backslash quote) (replace_char backslash "\\" s).

Definition literal (value : Value) : string := quote +:+ escape (to_string value) +:+ quote.

Definition rule (prefix body : string) : C string :=
  s ← get;
  let name := prefix +:+ "-" +:+ pretty (next_rule s) in
  _ ← modify (λ s, mkCompiler (rules s ++ [name +:+ " ::= " +:+ body]) (wrapping_add (next_rule s) 1));
  mret name.

Definition keyword (k : string) : bool :=
  existsb (String.eqb k)
    ["type"; "properties"; "required"; "additionalProperties"; "items"; "enum"; "const";
     "description"; "title"; "$schema"].

Definition unsupported {A} (path feature : string) : C A := throw (Unsupported path feature).

(** [object.get("additionalProperties") != Some(&Value::Bool(false))], negated. *)
Definition closed_object (object : list (string * Value)) : bool :=
  match field "additionalProperties" object with Some (Bool false) => true | _ => false end.

(** Every property is required, and nothing else is. *)
Definition all_required (properties : list (string * Value)) (required : list Value) : bool :=
  (length required =? length properties)
  && forallb (λ name, existsb (λ r, bool_decide (as_str r = Some name)) required) properties.*1.

Definition member (name value : string) : string :=
  literal (VString name) +:+ quoted " space `:` space (" +:+ value +:+ ")".

Definition object_body (members : list string) : string :=
  match members with
  | [] => quoted "`{` space `}`"
  | _ => quoted "`{` space " +:+ String.concat (quoted " space `,` space ") members +:+ quoted " space `}`"
  end.

(** The method [object], where [properties] compiles the value of that field. *)
Definition compile_object (object : list (string * Value)) (path : string)
    (properties : option (option (C (list string)))) : C string :=
  _ ← guard_not (negb (closed_object object))
        (Unsupported path "objects must set additionalProperties to false");
  members ← ok_or (mjoin properties) (Invalid (path +:+ ".properties must be an object"));
  required ← ok_or (field "required" object ≫= as_array)
               (Unsupported path "every object property must be required");
  let fields := default [] (field "properties" object ≫= as_object) in
  _ ← guard_not (negb (all_required fields required))
        (Unsupported path "every object property must be required");
  members ← members;
  rule "object" (object_body members).

Definition array_body (item : string) : string :=
  quoted "`[` space ((" +:+ item +:+ quoted ") (space `,` space (" +:+ item +:+ quoted "))*)? space `]`".

(** The method [array], where [items] compiles the value of that field. *)
Definition compile_array (path : string) (items : option (C string)) : C string :=
  item ← ok_or items (Invalid (path +:+ ".items is required"));
  item ← item;
  rule "array" (array_body item).

Definition compile_enum (values : Value) (path : string) : C string :=
  values ← ok_or (as_array values) (Invalid (path +:+ ".enum must be an array"));
  match values with
  | [] => throw (Invalid (path +:+ ".enum must not be empty"))
  | _ => mret (String.concat " | " (literal <$> values))
  end.

(** The recursion descends into the values of [properties] and [items]. *)
Fixpoint compile (schema : Value) (path : string) : C string :=
  match schema with
  | Object object =>
      _ ← for_each (λ k, if keyword k then mret tt else unsupported path "schema keyword") object.*1;
      match field "const" object with
      | Some value => mret (literal value)
      | None =>
          match field "enum" object with
          | Some values => compile_enum values path
          | None =>
              match field "type" object ≫= as_str with
              | None => unsupported path "schemas without an explicit scalar type"
              | Some type =>
                  if String.eqb type "object" then
                    compile_object object path
                      (field_with (λ v,
                         match v with
                         | Object properties =>
                             Some (map_M (λ p, value ← compile p.2 (path +:+ ".properties." +:+ p.1);
                                               mret (member p.1 value)) properties)
                         | _ => None
                         end) "properties" object)
                  else if String.eqb type "array" then
                    compile_array path (field_with (λ v, compile v (path +:+ ".items")) "items" object)
                  else if String.eqb type "string" then mret "json-string"
                  else if String.eqb type "integer" then mret "integer"
                  else if String.eqb type "number" then mret "number"
                  else if String.eqb type "boolean" then mret "boolean"
                  else if String.eqb type "null" then mret "null"
                  else throw (Invalid (path +:+ ".type has unknown value " +:+ type))
              end
          end
      end
  | _ => throw (Invalid (path +:+ " must be a schema object"))
  end.

Definition initial : Compiler := mkCompiler [SPACE_RULE] 0.

(** The compiler is local to the call. *)
Definition schema_grammar {S} (schema : Value) : M S Error string := λ s,
  match jsonschema_compile schema with
  | Err e => Fail (Invalid e) s
  | Ok _ =>
      match compile schema "$" initial with
      | Done value c =>
          Done (String.concat newline (("root ::= " +:+ value +:+ " space") :: rules c) +:+ newline) s
      | Fail e _ => Fail e s
      | Panic => Panic
      end
  end.
End compiler.
