(* ===== verification/Grammar.v ===== *)
(** Grammars as the native sampler reads them, and JSON text: what the grammars of
    [Structured] are judged by.

    A rule is a list of alternatives, each a sequence of items; [show_rule] is its
    concrete syntax and [gen_alternatives] the texts it generates. [reads] says that
    a text is JSON text of a value, as RFC 8259 has it. *)

From stdpp Require Import base strings list numbers.
From Stdlib Require Import Lia.
From S2P Require Import Prelude Json Structured.

#[local] Set Warnings "-register-all".

(** ** Syntax *)

Inductive Repetition : Type := Once | Maybe | Many | Some1 | UpTo (n : nat).

Inductive Atom : Type :=
| Text (s : string)
| Name (n : string)
| Class (shown : string) (accepts : Ascii.ascii → bool)
| Group (alternatives : list (list (Atom * Repetition))).

Abbreviation Item := (Atom * Repetition)%type.
Abbreviation Alternatives := (list (list Item)).

Definition once (a : Atom) : Item := (a, Once).

Definition show_repetition (r : Repetition) : string :=
  match r with
  | Once => ""
  | Maybe => "?"
  | Many => "*"
  | Some1 => "+"
  | UpTo n => "{0," +:+ pretty.pretty (N.of_nat n) +:+ "}"
  end.

Fixpoint show_atom (a : Atom) : string :=
  match a with
  | Text s => quote +:+ escape s +:+ quote
  | Name n => n
  | Class shown _ => shown
  | Group alternatives =>
      "(" +:+ String.concat " | " (List.map (λ items, String.concat " "
        (List.map (λ i, show_atom i.1 +:+ show_repetition i.2) items)) alternatives) +:+ ")"
  end.

Definition show_item (i : Item) : string := show_atom i.1 +:+ show_repetition i.2.

Definition show_sequence (items : list Item) : string := String.concat " " (List.map show_item items).

Definition show_alternatives (alternatives : Alternatives) : string :=
  String.concat " | " (List.map show_sequence alternatives).

(** An empty first alternative leaves no space before the bar. *)
Definition show_body (alternatives : Alternatives) : string :=
  match alternatives with
  | [] :: rest => "| " +:+ show_alternatives rest
  | _ => show_alternatives alternatives
  end.

Abbreviation Rule := (string * Alternatives)%type.

Definition show_rule (r : Rule) : string := r.1 +:+ " ::= " +:+ show_body r.2.

Definition show_grammar (rules : list Rule) : string :=
  String.concat "" ((λ r, show_rule r +:+ newline) <$> rules).

(** ** What a grammar generates *)

Definition allowed (r : Repetition) (n : nat) : Prop :=
  match r with
  | Once => n = 1
  | Maybe => n ≤ 1
  | Many => True
  | Some1 => 1 ≤ n
  | UpTo k => n ≤ k
  end.

Section generates.
Variable G : string → option Alternatives.

Inductive gen_atom : Atom → string → Prop :=
| GenText s : gen_atom (Text s) s
| GenName n alternatives s : G n = Some alternatives → gen_alternatives alternatives s → gen_atom (Name n) s
| GenClass shown accepts c : accepts c = true → gen_atom (Class shown accepts) (String c "")
| GenGroup alternatives s : gen_alternatives alternatives s → gen_atom (Group alternatives) s
with gen_alternatives : Alternatives → string → Prop :=
| GenAlternative items alternatives s : items ∈ alternatives → gen_sequence items s → gen_alternatives alternatives s
with gen_sequence : list Item → string → Prop :=
| GenEnd : gen_sequence [] ""
| GenItem i items s t : gen_item i s → gen_sequence items t → gen_sequence (i :: items) (s +:+ t)
with gen_item : Item → string → Prop :=
| GenRepeat a r n s : allowed r n → gen_many a n s → gen_item (a, r) s
with gen_many : Atom → nat → string → Prop :=
| GenNone a : gen_many a 0 ""
| GenMore a n s t : gen_atom a s → gen_many a n t → gen_many a (S n) (s +:+ t).
End generates.

(** A grammar as its rules: a name stands for its first rule. *)
Fixpoint rule_of (rules : list Rule) (n : string) : option Alternatives :=
  match rules with
  | [] => None
  | (m, alternatives) :: rules' => if bool_decide (m = n) then Some alternatives else rule_of rules' n
  end.

(** ** JSON text *)

Inductive Json : Type :=
| JNull
| JBool (b : bool)
| JNumber (lexeme : string)
| JString (lexeme : string)
| JArray (l : list Json)
| JObject (members : list (string * Json)).

Definition code (c : Ascii.ascii) : N := Ascii.N_of_ascii c.

Definition is_space (c : Ascii.ascii) : bool := existsb (N.eqb (code c)) [32; 9; 10; 13]%N.

Definition is_digit (c : Ascii.ascii) : bool := (48 <=? code c)%N && (code c <=? 57)%N.

Definition is_hex (c : Ascii.ascii) : bool :=
  is_digit c || ((65 <=? code c)%N && (code c <=? 70)%N) || ((97 <=? code c)%N && (code c <=? 102)%N).

(** The characters of a string satisfy [p]. *)
Fixpoint all_chars (p : Ascii.ascii → bool) (s : string) : bool :=
  match s with EmptyString => true | String c s' => p c && all_chars p s' end.

Definition spaces (s : string) : Prop := all_chars is_space s = true.

Definition digits (s : string) : Prop := s ≠ "" ∧ all_chars is_digit s = true.

(** One digit, or digits that do not begin with zero. *)
Definition int_lexeme (s : string) : Prop :=
  digits s ∧ match s with String c (String _ _) => code c ≠ 48%N | _ => True end.

Definition sign_lexeme (s : string) : Prop := s = "" ∨ s = "-".

Definition frac_lexeme (s : string) : Prop := s = "" ∨ ∃ d, s = "." +:+ d ∧ digits d.

Definition exp_lexeme (s : string) : Prop :=
  s = "" ∨ ∃ e sign d, s = e +:+ sign +:+ d ∧ (e = "e" ∨ e = "E") ∧ (sign = "" ∨ sign = "+" ∨ sign = "-") ∧ digits d.

Definition number_lexeme (s : string) : Prop :=
  ∃ sign int frac exp, s = sign +:+ int +:+ frac +:+ exp
    ∧ sign_lexeme sign ∧ int_lexeme int ∧ frac_lexeme frac ∧ exp_lexeme exp.

Definition integer_lexeme (s : string) : Prop :=
  ∃ sign int, s = sign +:+ int ∧ sign_lexeme sign ∧ int_lexeme int.

Definition letter_u : Ascii.ascii := Ascii.ascii_of_nat 117.

Definition plain_char (c : Ascii.ascii) : bool :=
  negb ((code c <? 32)%N || (code c =? 34)%N || (code c =? 92)%N).

Definition simple_escape (c : Ascii.ascii) : bool :=
  existsb (N.eqb (code c)) [34; 92; 47; 98; 102; 110; 114; 116]%N.

Inductive string_body : string → Prop :=
| BodyEnd : string_body ""
| BodyPlain c s : plain_char c = true → string_body s → string_body (String c s)
| BodyEscape c s : simple_escape c = true → string_body s → string_body (String backslash (String c s))
| BodyUnicode a b c d s :
    is_hex a = true → is_hex b = true → is_hex c = true → is_hex d = true → string_body s →
    string_body (String backslash (String letter_u (String a (String b (String c (String d s)))))).

Definition string_lexeme (s : string) : Prop := ∃ b, s = quote +:+ b +:+ quote ∧ string_body b.

(** [reads j s]: the text [s], without surrounding space, is the value [j]. The keys
    of an object are known by their text. *)
Inductive reads : Json → string → Prop :=
| ReadNull : reads JNull "null"
| ReadTrue : reads (JBool true) "true"
| ReadFalse : reads (JBool false) "false"
| ReadNumber s : number_lexeme s → reads (JNumber s) s
| ReadString s : string_lexeme s → reads (JString s) s
| ReadEmptyArray w : spaces w → reads (JArray []) ("[" +:+ w +:+ "]")
| ReadArray l w s w' : spaces w → spaces w' → reads_elements l s →
    reads (JArray l) ("[" +:+ w +:+ s +:+ w' +:+ "]")
| ReadEmptyObject w : spaces w → reads (JObject []) ("{" +:+ w +:+ "}")
| ReadObject members w s w' : spaces w → spaces w' → reads_members members s →
    reads (JObject members) ("{" +:+ w +:+ s +:+ w' +:+ "}")
with reads_elements : list Json → string → Prop :=
| ReadLast j s : reads j s → reads_elements [j] s
| ReadNext j l s w w' t : reads j s → spaces w → spaces w' → reads_elements l t →
    reads_elements (j :: l) (s +:+ w +:+ "," +:+ w' +:+ t)
with reads_members : list (string * Json) → string → Prop :=
| ReadLastMember key j m : reads_member key j m → reads_members [(key, j)] m
| ReadNextMember key j members m w w' t : reads_member key j m → spaces w → spaces w' →
    reads_members members t → reads_members ((key, j) :: members) (m +:+ w +:+ "," +:+ w' +:+ t)
with reads_member : string → Json → string → Prop :=
| ReadMember key j w w' s : string_lexeme key → spaces w → spaces w' → reads j s →
    reads_member key j (key +:+ w +:+ ":" +:+ w' +:+ s).

(** ** The values a schema admits *)

Section conforms.
Variable to_string : Value → string.

Definition key_text (name : string) : string := to_string (VString name).

Definition has_type (type : string) (j : Json) : Prop :=
  match j with
  | JNull => type = "null"
  | JBool _ => type = "boolean"
  | JNumber s => type = "number" ∨ (type = "integer" ∧ integer_lexeme s)
  | JString _ => type = "string"
  | JArray _ => type = "array"
  | JObject _ => type = "object"
  end.

Definition required_names (object : list (string * Value)) : list string :=
  omap as_str (default [] (field "required" object ≫= as_array)).

Definition property_names (object : list (string * Value)) : list string :=
  (default [] (field "properties" object ≫= as_object)).*1.

(** The value of the keyword [type]: a name or a list of them. *)
Definition admits (type : Value) (j : Json) : Prop :=
  match type with
  | VString type => has_type type j
  | Array types => ∃ type, type ∈ omap as_str types ∧ has_type type j
  | _ => True
  end.

Definition one_of (values : Value) (j : Json) : Prop := ∃ v, v ∈ default [] (as_array values) ∧ reads j (to_string v).

(** A schema as the draft reads it: a value conforms to every keyword that is there,
    those of arrays and objects where it is one. *)
Fixpoint conforms (schema : Value) (j : Json) : Prop :=
  match schema with
  | Object object =>
      (∀ v, field "const" object = Some v → reads j (to_string v))
      ∧ (∀ values, field "enum" object = Some values → one_of values j)
      ∧ (∀ type, field "type" object = Some type → admits type j)
      ∧ match j with
        | JArray l => default True (field_with (λ v, Forall (conforms v) l) "items" object)
        | JObject members =>
            default True (field_with (λ v,
              match v with
              | Object properties =>
                  foldr (λ p rest, (∀ value, (key_text p.1, value) ∈ members → conforms p.2 value) ∧ rest)
                    True properties
              | _ => True
              end) "properties" object)
            ∧ (∀ name, name ∈ required_names object → key_text name ∈ members.*1)
            ∧ (field "additionalProperties" object = Some (Bool false) →
               ∀ key, key ∈ members.*1 → ∃ name, name ∈ property_names object ∧ key = key_text name)
        | _ => True
        end
  | _ => False
  end.

(** The constants that a schema lists. *)
Definition constants (object : list (string * Value)) : list Value :=
  match field "const" object with
  | Some v => [v]
  | None => default [] (field "enum" object ≫= as_array)
  end.

(** No constant contradicts the other keywords of its schema. *)
Fixpoint coherent (schema : Value) : Prop :=
  match schema with
  | Object object =>
      (∀ v j, v ∈ constants object → reads j (to_string v) → conforms schema j)
      ∧ default True (field_with coherent "items" object)
      ∧ default True (field_with (λ v,
          match v with
          | Object properties => foldr (λ p rest, coherent p.2 ∧ rest) True properties
          | _ => True
          end) "properties" object)
  | _ => True
  end.

(** A schema as the compiler reads it: a constant or an enumeration stands for all of it. *)
Fixpoint follows (schema : Value) (j : Json) : Prop :=
  match schema with
  | Object object =>
      match field "const" object with
      | Some v => reads j (to_string v)
      | None =>
          match field "enum" object with
          | Some values => ∃ v, v ∈ default [] (as_array values) ∧ reads j (to_string v)
          | None =>
              (∃ type, field "type" object ≫= as_str = Some type ∧ has_type type j)
              ∧ match j with
                | JArray l =>
                    default True (field_with (λ v, Forall (follows v) l) "items" object)
                | JObject members =>
                    default True (field_with (λ v,
                      match v with
                      | Object properties =>
                          foldr (λ p rest, (∀ value, (key_text p.1, value) ∈ members → follows p.2 value) ∧ rest)
                            True properties
                      | _ => True
                      end) "properties" object)
                    ∧ (∀ name, name ∈ required_names object → key_text name ∈ members.*1)
                    ∧ (field "additionalProperties" object = Some (Bool false) →
                       ∀ key, key ∈ members.*1 → ∃ name, name ∈ property_names object ∧ key = key_text name)
                | _ => True
                end
          end
      end
  | _ => False
  end.
End conforms.
