(* ===== verification/GrammarLaws.v ===== *)
(** What the constructs of a grammar generate, and the fixed rules of [Structured]:
    they generate the space, strings, numbers and constants of JSON text. *)

From stdpp Require Import base strings list numbers sets.
From Stdlib Require Import Lia.
From S2P Require Import Prelude Json Structured Grammar.

(** ** Inversion *)

Section inversion.
Variable G : string → option Alternatives.

Lemma gen_text t s : gen_atom G (Text t) s ↔ s = t.
Proof. split; [by inversion 1|intros ->; constructor]. Qed.

Lemma gen_name n s : gen_atom G (Name n) s ↔ ∃ alternatives, G n = Some alternatives ∧ gen_alternatives G alternatives s.
Proof. split; [inversion 1; eauto|intros (?&?&?); by econstructor]. Qed.

Lemma gen_class shown p s : gen_atom G (Class shown p) s ↔ ∃ c, s = String c "" ∧ p c = true.
Proof. split; [inversion 1; subst; eauto|intros (c&->&?); by constructor]. Qed.

Lemma gen_group alternatives s : gen_atom G (Group alternatives) s ↔ gen_alternatives G alternatives s.
Proof. split; [by inversion 1|by constructor]. Qed.

Lemma gen_alternatives_cons items alternatives s :
  gen_alternatives G (items :: alternatives) s ↔ gen_sequence G items s ∨ gen_alternatives G alternatives s.
Proof.
  split.
  - inversion 1 as [items' ? ? Hin Hs]; subst. apply list.elem_of_cons in Hin as [->|Hin]; [by left|].
    right. by econstructor.
  - intros [Hs|Hs]; [econstructor; [left|done]|]. inversion Hs; subst. econstructor; [by right|done].
Qed.

Lemma gen_alternatives_nil s : gen_alternatives G [] s ↔ False.
Proof. split; [|done]. inversion 1 as [? ? ? Hin]; subst. by apply list.elem_of_nil in Hin. Qed.

Lemma gen_sequence_cons i items s :
  gen_sequence G (i :: items) s ↔ ∃ a b, s = a +:+ b ∧ gen_item G i a ∧ gen_sequence G items b.
Proof. split; [inversion 1; subst; eauto|intros (a&b&->&?&?); by constructor]. Qed.

Lemma gen_sequence_nil s : gen_sequence G [] s ↔ s = "".
Proof. split; [by inversion 1|intros ->; constructor]. Qed.

Lemma gen_once a s : gen_item G (once a) s ↔ gen_atom G a s.
Proof.
  split.
  - inversion 1 as [? ? n ? Hn Hm]; subst. cbn in Hn. subst n. inversion Hm as [|? ? ? ? Ha H0]; subst.
    inversion H0; subst. by rewrite append_nil_r.
  - intros Ha. apply (GenRepeat _ _ _ 1); [done|]. rewrite <- (append_nil_r s). constructor; [done|constructor].
Qed.

Lemma gen_maybe a s : gen_item G (a, Maybe) s ↔ s = "" ∨ gen_atom G a s.
Proof.
  split.
  - inversion 1 as [? ? n ? Hn Hm]; subst. cbn in Hn. inversion Hm as [|? ? ? ? Ha H0]; subst; [by left|].
    right. assert (n0 = 0) as -> by lia. inversion H0; subst. by rewrite append_nil_r.
  - intros [->|Ha]; [apply (GenRepeat _ _ _ 0); [cbn; lia|constructor]|].
    apply (GenRepeat _ _ _ 1); [cbn; lia|]. rewrite <- (append_nil_r s). constructor; [done|constructor].
Qed.

Lemma gen_star a s : gen_item G (a, Many) s ↔ ∃ n, gen_many G a n s.
Proof. split; [inversion 1; subst; eauto|intros [n ?]; by econstructor]. Qed.

Lemma gen_some a s : gen_item G (a, Some1) s ↔ ∃ n, gen_many G a (S n) s.
Proof.
  split; [|intros [n ?]; econstructor; [|done]; cbn; lia].
  inversion 1 as [? ? n ? Hn Hm]; subst. cbn in Hn. destruct n as [|n]; [lia|eauto].
Qed.

Lemma gen_upto a k s : gen_item G (a, UpTo k) s ↔ ∃ n, n ≤ k ∧ gen_many G a n s.
Proof. split; [inversion 1; subst; eauto|intros (n&?&?); by econstructor]. Qed.

Lemma gen_many_succ a n s :
  gen_many G a (S n) s ↔ ∃ b c, s = b +:+ c ∧ gen_atom G a b ∧ gen_many G a n c.
Proof. split; [inversion 1; subst; eauto|intros (b&c&->&?&?); by constructor]. Qed.

Lemma gen_many_zero a s : gen_many G a 0 s ↔ s = "".
Proof. split; [by inversion 1|intros ->; constructor]. Qed.

Lemma gen_many_class shown p n s : gen_many G (Class shown p) n s → all_chars p s = true ∧ String.length s = n.
Proof.
  revert s. induction n as [|n IH]; intros s.
  - by intros ->%gen_many_zero.
  - intros (b & c & -> & (x & -> & Hx)%gen_class & [Hc Hl]%IH)%gen_many_succ.
    change (String x "" +:+ c) with (String x c). cbn [all_chars String.length]. by rewrite Hx, Hc, Hl.
Qed.
End inversion.

Create Rewrite HintDb gen.

#[export] Hint Rewrite gen_text gen_name gen_class gen_group gen_alternatives_cons gen_alternatives_nil
  gen_sequence_cons gen_sequence_nil gen_once gen_maybe gen_star gen_some gen_upto : gen.

(** ** The fixed rules *)

Definition accepts (l : list N) (c : Ascii.ascii) : bool := existsb (N.eqb (code c)) l.

Definition class_digit : Item := once (Class "[0-9]" is_digit).

Definition class_hex : Item := once (Class "[0-9a-fA-F]" is_hex).

Definition class_plain : Item :=
  once (Class (quoted "[^`\\\x7F\x00-\x1F]") (λ c, plain_char c && negb (code c =? 127)%N)).

(** The line break is one character, written with its escape. *)
Definition space_rule : Rule :=
  ("space", [[]; [once (Text " ")]; [once (Class (quoted "`\n`") (accepts [10%N])); (Class "[ \t]" (accepts [32; 9]%N), UpTo 20)]]).

(** One character of a string, or an escape. *)
Definition string_piece : Atom :=
  Group [[class_plain];
         [once (Text "\"); once (Group [[once (Class (quoted "[`\\/bfnrt]") simple_escape)];
                                        [once (Text "u"); class_hex; class_hex; class_hex; class_hex]])]].

Definition string_rule : Rule :=
  ("json-string",
   [[once (Text quote);
     (string_piece, Many);
     once (Text quote)]]).

Definition int_atom : Atom :=
  Group [[class_digit]; [once (Class "[1-9]" (λ c, is_digit c && negb (code c =? 48)%N));
                         (Class "[0-9]" is_digit, Many)]].

Definition sign_and_int : list Item :=
  [(Text "-", Maybe); once int_atom].

Definition exp_item : Item :=
  (Group [[once (Class "[eE]" (accepts [101; 69]%N)); (Class "[+-]" (accepts [43; 45]%N), Maybe);
           (Class "[0-9]" is_digit, Some1)]], Maybe).

Definition integer_rule : Rule := ("integer", [sign_and_int]).

Definition number_rule : Rule :=
  ("number",
   [sign_and_int ++
    [(Group [[once (Text "."); (Class "[0-9]" is_digit, Some1)]], Maybe);
     exp_item]]).

Definition boolean_rule : Rule := ("boolean", [[once (Text "true")]; [once (Text "false")]]).

Definition null_rule : Rule := ("null", [[once (Text "null")]]).

Definition scalar_rules : list Rule := [string_rule; integer_rule; number_rule; boolean_rule; null_rule].

(** They are the rules of the code. *)
Lemma show_space_rule : show_rule space_rule = SPACE_RULE.
Proof. vm_compute. reflexivity. Qed.

Lemma show_scalar_rules grammar : finish_schema_grammar grammar = grammar +:+ show_grammar scalar_rules.
Proof. unfold finish_schema_grammar. f_equal. Qed.

(** ** Characters *)

Lemma all_chars_app p s t : all_chars p (s +:+ t) = all_chars p s && all_chars p t.
Proof.
  induction s as [|c s IH]; [done|]. change (String c s +:+ t) with (String c (s +:+ t)).
  cbn [all_chars]. by rewrite IH, andb_assoc.
Qed.

Lemma all_chars_weaken (p q : Ascii.ascii → bool) s :
  (∀ c, p c = true → q c = true) → all_chars p s = true → all_chars q s = true.
Proof.
  intros Hpq. induction s as [|c s IH]; [done|]. cbn. intros [Hc Hs]%andb_true_iff. by rewrite Hpq, IH.
Qed.

Lemma spaces_app s t : spaces s → spaces t → spaces (s +:+ t).
Proof. unfold spaces. intros Hs Ht. by rewrite all_chars_app, Hs, Ht. Qed.

Lemma accepts_space c : accepts [32; 9]%N c = true → is_space c = true.
Proof. unfold accepts, is_space. cbn. intros H. by destruct (code c =? 32)%N, (code c =? 9)%N. Qed.

Lemma accepts_newline c : accepts [10]%N c = true → is_space c = true.
Proof. unfold accepts, is_space. cbn. intros H. by destruct (code c =? 10)%N; rewrite ?orb_true_r. Qed.

(** ** What the fixed rules generate *)

Section fixed.
Variable G : string → option Alternatives.
Hypothesis G_space : G space_rule.1 = Some space_rule.2.
Hypothesis G_scalar : ∀ r, r ∈ scalar_rules → G r.1 = Some r.2.

Ltac gen_inv :=
  repeat match goal with
  | H : gen_atom _ _ _ |- _ => progress autorewrite with gen in H
  | H : gen_item _ _ _ |- _ => progress autorewrite with gen in H
  | H : gen_sequence _ _ _ |- _ => progress autorewrite with gen in H
  | H : gen_alternatives _ _ _ |- _ => progress autorewrite with gen in H
  | H : gen_many _ (Class _ _) _ _ |- _ => apply gen_many_class in H
  | H : _ ∧ _ |- _ => destruct H
  | H : _ ∨ _ |- _ => destruct H
  | H : ∃ _, _ |- _ => destruct H
  | H : False |- _ => destruct H
  end; subst.

Lemma fixed_name r s : r ∈ space_rule :: scalar_rules → gen_atom G (Name r.1) s → gen_alternatives G r.2 s.
Proof.
  intros Hr (alternatives & Ha & Hs)%gen_name. apply list.elem_of_cons in Hr as [->|Hr].
  - rewrite G_space in Ha. by simplify_eq.
  - rewrite (G_scalar r Hr) in Ha. by simplify_eq.
Qed.

Ltac fixed_rule r H := apply (fixed_name r) in H; [|unfold scalar_rules; repeat (first [by left|right])].

Lemma accepts_char p c : p c = true → all_chars p (String c "") = true.
Proof. cbn. by intros ->. Qed.

Lemma space_spaces s : gen_atom G (Name "space") s → spaces s.
Proof.
  intros H. fixed_rule space_rule H. cbn [snd space_rule] in H. gen_inv; [done..|].
  repeat apply spaces_app; [| |done].
  - eapply all_chars_weaken; [|by apply accepts_char]. apply accepts_newline.
  - by eapply all_chars_weaken; [apply accepts_space|].
Qed.

Lemma sign_sound s : gen_item G (Text "-", Maybe) s → sign_lexeme s.
Proof. intros H. gen_inv; [by left|by right]. Qed.

Lemma digits_sound s : gen_item G (Class "[0-9]" is_digit, Some1) s → digits s.
Proof. intros H. gen_inv. split; [by destruct s|done]. Qed.

Lemma int_sound s : gen_atom G int_atom s → int_lexeme s.
Proof.
  unfold int_atom, class_digit. intros H. gen_inv; rewrite !append_nil_r; unfold int_lexeme, digits.
  - split; [split; [done|by apply accepts_char]|done].
  - match goal with H : is_digit ?c && _ = true |- context [String ?c "" +:+ ?t] =>
      apply andb_true_iff in H as [Hd Hz]; change (String c "" +:+ t) with (String c t) end.
    split.
    + split; [done|]. cbn [all_chars]. by rewrite Hd.
    + apply negb_true_iff, N.eqb_neq in Hz. by case_match.
Qed.

Lemma sign_and_int_sound s rest : gen_sequence G (sign_and_int ++ rest) s →
  ∃ sign int t, s = sign +:+ int +:+ t ∧ sign_lexeme sign ∧ int_lexeme int ∧ gen_sequence G rest t.
Proof.
  change (sign_and_int ++ rest) with ((Text "-", Maybe) :: once int_atom :: rest). intros H.
  apply gen_sequence_cons in H as (sign & s1 & -> & Hsign%sign_sound & H).
  apply gen_sequence_cons in H as (int & s2 & -> & Hint%gen_once%int_sound & H). eauto 10.
Qed.

Lemma frac_sound s :
  gen_item G (Group [[once (Text "."); (Class "[0-9]" is_digit, Some1)]], Maybe) s → frac_lexeme s.
Proof.
  intros [->|H%gen_group]%gen_maybe; [by left|]. right.
  apply gen_alternatives_cons in H as [H|[]%gen_alternatives_nil].
  apply gen_sequence_cons in H as (a & b & -> & ->%gen_once%gen_text & H).
  apply gen_sequence_cons in H as (d & c & -> & Hd%digits_sound & ->%gen_sequence_nil).
  exists d. by rewrite append_nil_r.
Qed.

Lemma accepts_in l c : accepts l c = true → ∃ n, n ∈ l ∧ c = Ascii.ascii_of_N n.
Proof.
  intros (n & Hin & Hn)%existsb_exists. apply N.eqb_eq in Hn. exists n. split; [by apply list_elem_of_In|].
  subst n. symmetry. apply Ascii.ascii_N_embedding.
Qed.

Lemma exp_sound s : gen_item G exp_item s → exp_lexeme s.
Proof.
  intros [->|H%gen_group]%gen_maybe; [by left|]. right.
  apply gen_alternatives_cons in H as [H|[]%gen_alternatives_nil].
  apply gen_sequence_cons in H as (a & b & -> & (c & -> & Hc)%gen_once%gen_class & H).
  apply gen_sequence_cons in H as (sign & d & -> & Hsign%gen_maybe & H).
  apply gen_sequence_cons in H as (d' & e & -> & Hd%digits_sound & ->%gen_sequence_nil).
  exists (String c ""), sign, d'. rewrite append_nil_r. split_and!; [done| | |apply Hd..].
  - apply accepts_in in Hc as (n & Hn & ->). set_unfold. destruct Hn as [->|[->|[]]]; [by left|by right].
  - destruct Hsign as [->|(x & -> & (n & Hn & ->)%accepts_in)%gen_class]; [by left|right].
    set_unfold. destruct Hn as [->|[->|[]]]; [by left|by right].
Qed.

Lemma integer_sound s : gen_atom G (Name "integer") s → integer_lexeme s.
Proof.
  intros H. fixed_rule integer_rule H. cbn [snd integer_rule] in H.
  apply gen_alternatives_cons in H as [H|[]%gen_alternatives_nil]. rewrite <- (app_nil_r sign_and_int) in H.
  apply sign_and_int_sound in H as (sign & int & t & -> & Hs & Hi & ->%gen_sequence_nil).
  exists sign, int. by rewrite append_nil_r.
Qed.

Lemma number_sound s : gen_atom G (Name "number") s → number_lexeme s.
Proof.
  intros H. fixed_rule number_rule H. cbn [snd number_rule] in H.
  apply gen_alternatives_cons in H as [H|[]%gen_alternatives_nil].
  apply sign_and_int_sound in H as (sign & int & t & -> & Hs & Hi & H).
  apply gen_sequence_cons in H as (frac & u & -> & Hf%frac_sound & H).
  apply gen_sequence_cons in H as (exp & v & -> & He%exp_sound & ->%gen_sequence_nil).
  exists sign, int, frac, exp. by rewrite append_nil_r.
Qed.

Lemma integer_number s : integer_lexeme s → number_lexeme s.
Proof.
  intros (sign & int & -> & ? & ?). exists sign, int, "", "". rewrite append_nil_r.
  split_and!; [done..|by left|by left].
Qed.

Lemma boolean_sound s : gen_atom G (Name "boolean") s → ∃ b, reads (JBool b) s.
Proof.
  intros H. fixed_rule boolean_rule H. cbn [snd boolean_rule] in H.
  gen_inv; [exists true|exists false]; constructor.
Qed.

Lemma null_sound s : gen_atom G (Name "null") s → reads JNull s.
Proof. intros H. fixed_rule null_rule H. cbn [snd null_rule] in H. gen_inv. constructor. Qed.

Lemma piece_sound s b : gen_atom G string_piece s → string_body b → string_body (s +:+ b).
Proof.
  unfold string_piece, class_plain, class_hex. intros H Hb. gen_inv.
  - match goal with H : _ && _ = true |- _ => apply andb_true_iff in H as [Hp _] end.
    rewrite append_nil_r. by constructor.
  - rewrite !append_nil_r. by constructor.
  - rewrite !append_nil_r. by constructor.
Qed.

Lemma string_sound s : gen_atom G (Name "json-string") s → string_lexeme s.
Proof.
  intros H. fixed_rule string_rule H. cbn [snd string_rule] in H.
  apply gen_alternatives_cons in H as [H|[]%gen_alternatives_nil].
  apply gen_sequence_cons in H as (a & b & -> & ->%gen_once%gen_text & H).
  apply gen_sequence_cons in H as (body & c & -> & [n Hn]%gen_star & H).
  apply gen_sequence_cons in H as (d & e & -> & ->%gen_once%gen_text & ->%gen_sequence_nil).
  exists body. split; [done|]. clear -Hn. revert body Hn. induction n as [|n IH]; intros body.
  - intros ->%gen_many_zero. constructor.
  - intros (x & y & -> & Hx & Hy)%gen_many_succ. by apply piece_sound; [|apply IH].
Qed.

(** Each of them generates something. *)
Lemma fixed_generates n s :
  (n, s) ∈ [("space", ""); ("json-string", quote +:+ quote); ("integer", "0"); ("number", "0");
            ("boolean", "true"); ("null", "null")] → gen_atom G (Name n) s.
Proof.
  assert (∀ a, gen_item G (a, Maybe) "") as Hmaybe by (intros a; apply gen_maybe; by left).
  assert (∀ a, gen_item G (a, Many) "") as Hstar by (intros a; apply gen_star; exists 0; constructor).
  assert (gen_atom G int_atom "0") as Hint.
  { apply gen_group, gen_alternatives_cons. left. apply gen_sequence_cons. exists "0", "".
    split_and!; [done| |constructor]. apply gen_once, gen_class. exists (Ascii.ascii_of_nat 48). by split. }
  intros Hin. rewrite !list.elem_of_cons, list.elem_of_nil in Hin.
  destruct Hin as [Hin|[Hin|[Hin|[Hin|[Hin|[Hin|[]]]]]]]; injection Hin as -> ->.
  - eapply GenName; [exact G_space|]. apply gen_alternatives_cons. left. constructor.
  - eapply GenName; [apply (G_scalar string_rule); left|]. apply gen_alternatives_cons. left.
    apply (GenItem _ _ _ quote); [by apply gen_once, gen_text|]. apply (GenItem _ _ _ ""); [done|].
    apply (GenItem _ _ _ quote ""); [by apply gen_once, gen_text|constructor].
  - eapply GenName; [apply (G_scalar integer_rule); right; left|]. apply gen_alternatives_cons. left.
    apply (GenItem _ _ _ ""); [done|]. apply (GenItem _ _ _ "0" ""); [by apply gen_once|constructor].
  - eapply GenName; [apply (G_scalar number_rule); do 2 right; left|]. apply gen_alternatives_cons. left.
    apply (GenItem _ _ _ ""); [done|]. apply (GenItem _ _ _ "0" ""); [by apply gen_once|].
    apply (GenItem _ _ _ "" ""); [apply Hmaybe|]. apply (GenItem _ _ _ "" ""); [apply Hmaybe|constructor].
  - eapply GenName; [apply (G_scalar boolean_rule); do 3 right; left|]. apply gen_alternatives_cons. left.
    apply (GenItem _ _ _ "true" ""); [by apply gen_once, gen_text|constructor].
  - eapply GenName; [apply (G_scalar null_rule); do 4 right; left|]. apply gen_alternatives_cons. left.
    apply (GenItem _ _ _ "null" ""); [by apply gen_once, gen_text|constructor].
Qed.
End fixed.
