(* ===== verification/StructuredLaws.v ===== *)
(** Structured output is sound: every text that the grammar of a schema generates is
    JSON text of a value that conforms to the schema, there is such a text, and every
    name the grammar uses has its rule. *)

From stdpp Require Import base strings list numbers pretty sets.
From Stdlib Require Import Lia.
From S2P Require Import Prelude Json Structured Grammar GrammarLaws.

(** ** Printing *)

Lemma concat_cons sep s l : l ≠ [] → String.concat sep (s :: l) = s +:+ sep +:+ String.concat sep l.
Proof. by destruct l. Qed.

Lemma concat_app sep a b : a ≠ [] → b ≠ [] →
  String.concat sep (a ++ b) = String.concat sep a +:+ sep +:+ String.concat sep b.
Proof.
  intros Ha Hb. induction a as [|s a IH]; [done|]. destruct a as [|s' a].
  - cbn [app]. by rewrite concat_cons.
  - cbn [app]. rewrite concat_cons by done. change (s' :: a ++ b) with ((s' :: a) ++ b).
    rewrite IH, (concat_cons sep s (s' :: a)) by done. by rewrite !append_assoc.
Qed.

Lemma show_sequence_app a b : a ≠ [] → b ≠ [] →
  show_sequence (a ++ b) = show_sequence a +:+ " " +:+ show_sequence b.
Proof.
  intros Ha Hb. unfold show_sequence. rewrite map_app. apply concat_app; by destruct a, b.
Qed.

Lemma show_once a : show_item (once a) = show_atom a.
Proof. apply append_nil_r. Qed.

Definition nonempty (alternatives : Alternatives) : Prop :=
  alternatives ≠ [] ∧ Forall (λ items, items ≠ []) alternatives.

Lemma show_body_nonempty alternatives : nonempty alternatives → show_body alternatives = show_alternatives alternatives.
Proof. intros [_ H]. destruct H as [|items alternatives Hi H]; [done|]. by destruct items. Qed.

(** [{value} space]: the space follows the last alternative. *)
Fixpoint then_space (alternatives : Alternatives) : Alternatives :=
  match alternatives with
  | [] => []
  | [items] => [items ++ [once (Name "space")]]
  | items :: rest => items :: then_space rest
  end.

Lemma then_space_nonempty alternatives : nonempty alternatives → nonempty (then_space alternatives).
Proof.
  intros [Hne H]. split; [by destruct alternatives as [|? []]|]. clear Hne.
  induction H as [|items rest Hi H IH]; [constructor|]. destruct rest as [|items' rest]; cbn [then_space].
  - constructor; [by destruct items|constructor].
  - by constructor.
Qed.

Lemma show_then_space alternatives : nonempty alternatives →
  show_alternatives (then_space alternatives) = show_alternatives alternatives +:+ " space".
Proof.
  intros [Hne H]. induction H as [|items rest Hi H IH]; [done|]. destruct rest as [|items' rest].
  - unfold show_alternatives. cbn [then_space List.map String.concat]. by apply show_sequence_app.
  - specialize (IH ltac:(done)). unfold show_alternatives in *.
    change (then_space (items :: items' :: rest)) with (items :: then_space (items' :: rest)).
    cbn [List.map]. rewrite !concat_cons by (try done; by destruct rest). cbn [List.map] in IH.
    by rewrite IH, !append_assoc.
Qed.

(** Sequences with a comma between them. *)
Definition comma : list Item := [once (Name "space"); once (Text ","); once (Name "space")].

Fixpoint separated (l : list (list Item)) : list Item :=
  match l with
  | [] => []
  | items :: l' => match l' with [] => items | _ => items ++ comma ++ separated l' end
  end.

Lemma separated_nonempty l : l ≠ [] → Forall (λ items, items ≠ []) l → separated l ≠ [].
Proof. intros Hl H. destruct H as [|items l' Hi H]; [done|]. by destruct l', items. Qed.

Lemma show_separated l : l ≠ [] → Forall (λ items, items ≠ []) l →
  show_sequence (separated l) = String.concat (quoted " space `,` space ") (List.map show_sequence l).
Proof.
  intros Hl H. induction H as [|items l' Hi H IH]; [done|]. destruct l' as [|items' l']; [done|].
  change (separated (items :: items' :: l')) with (items ++ comma ++ separated (items' :: l')).
  rewrite show_sequence_app by done. rewrite show_sequence_app by (done || by apply separated_nonempty).
  rewrite IH by done. cbn [List.map]. rewrite (concat_cons _ (show_sequence items)) by done.
  cbn [List.map]. by f_equal.
Qed.

(** ** Sequences *)

Section sequences.
Variable G : string → option Alternatives.

Lemma gen_sequence_app a b s :
  gen_sequence G (a ++ b) s ↔ ∃ x y, s = x +:+ y ∧ gen_sequence G a x ∧ gen_sequence G b y.
Proof.
  revert s. induction a as [|i a IH]; intros s; cbn [app].
  - split; [intros H; exists "", s; by repeat constructor|]. by intros (x & y & -> & ->%gen_sequence_nil & H).
  - rewrite gen_sequence_cons. split.
    + intros (x & y & -> & Hi & (z & w & -> & Ha & Hb)%IH). exists (x +:+ z), w. rewrite append_assoc.
      split_and!; [done|by constructor|done].
    + intros (x & y & -> & (z & w & -> & Hi & Ha)%gen_sequence_cons & Hb). exists z, (w +:+ y).
      rewrite append_assoc. split_and!; [done..|]. apply IH. eauto.
Qed.

Lemma gen_single i s : gen_sequence G [i] s ↔ gen_item G i s.
Proof.
  split.
  - intros (a & b & -> & H & ->%gen_sequence_nil)%gen_sequence_cons. by rewrite append_nil_r.
  - intros H. rewrite <- (append_nil_r s). constructor; [done|constructor].
Qed.

Lemma gen_one items s : gen_alternatives G [items] s ↔ gen_sequence G items s.
Proof. rewrite gen_alternatives_cons, gen_alternatives_nil. tauto. Qed.

Lemma gen_then_space alternatives s :
  (∀ w, gen_atom G (Name "space") w → spaces w) → gen_alternatives G (then_space alternatives) s →
  ∃ t w, s = t +:+ w ∧ spaces w ∧ gen_alternatives G alternatives t.
Proof.
  intros Hspace. induction alternatives as [|items rest IH]; [by intros []%gen_alternatives_nil|].
  destruct rest as [|items' rest].
  - intros (t & w & -> & Ht & H)%gen_one%gen_sequence_app. exists t, w.
    apply gen_sequence_cons in H as (w' & e & -> & Hw%gen_once & ->%gen_sequence_nil).
    rewrite append_nil_r. split_and!; [done|by apply Hspace|by apply gen_one].
  - change (then_space _) with (items :: then_space (items' :: rest)).
    intros [H|(t & w & -> & Hw & H)%IH]%gen_alternatives_cons.
    + exists s, "". rewrite append_nil_r. split_and!; [done..|]. apply gen_alternatives_cons. by left.
    + exists t, w. split_and!; [done..|]. apply gen_alternatives_cons. by right.
Qed.

Lemma gen_then_space_some alternatives s :
  gen_atom G (Name "space") "" → gen_alternatives G alternatives s → ∃ t, gen_alternatives G (then_space alternatives) t.
Proof.
  intros Hspace. induction alternatives as [|items rest IH]; [by intros []%gen_alternatives_nil|].
  destruct rest as [|items' rest].
  - intros H%gen_one. exists (s +:+ ""). apply gen_one, gen_sequence_app. exists s, "".
    split_and!; [done..|]. apply (GenItem _ _ _ "" ""); [by apply gen_once|constructor].
  - change (then_space _) with (items :: then_space (items' :: rest)).
    intros [H|[t H]%IH]%gen_alternatives_cons; eexists; apply gen_alternatives_cons; eauto.
Qed.
End sequences.

(** ** Objects and arrays *)

Section bodies.
Variable to_string : Value → string.

Definition member_items (p : string * Alternatives) : list Item :=
  [once (Text (key_text to_string p.1)); once (Name "space"); once (Text ":"); once (Name "space"); once (Group p.2)].

Definition object_items (members : list (string * Alternatives)) : list Item :=
  match members with
  | [] => [once (Text "{"); once (Name "space"); once (Text "}")]
  | _ => [once (Text "{"); once (Name "space")] ++ separated (member_items <$> members)
         ++ [once (Name "space"); once (Text "}")]
  end.

Definition array_items (item : Alternatives) : list Item :=
  [once (Text "["); once (Name "space");
   (Group [[once (Group item); (Group [comma ++ [once (Group item)]], Many)]], Maybe);
   once (Name "space"); once (Text "]")].

Lemma show_literal v : show_sequence [once (Text (to_string v))] = literal to_string v.
Proof. apply show_once. Qed.

Lemma show_group alternatives : show_atom (Group alternatives) = "(" +:+ show_alternatives alternatives +:+ ")".
Proof. reflexivity. Qed.

Lemma show_member p : show_sequence (member_items p) = member to_string p.1 (show_alternatives p.2).
Proof.
  unfold member. change (member_items p) with
    ([once (Text (to_string (VString p.1)))]
     ++ [once (Name "space"); once (Text ":"); once (Name "space"); once (Group p.2)]).
  rewrite show_sequence_app by done.
  rewrite show_literal. f_equal.
  unfold show_sequence. cbn [List.map String.concat]. rewrite !show_once, show_group. reflexivity.
Qed.

Lemma show_object members :
  show_sequence (object_items members)
  = object_body ((λ p, member to_string p.1 (show_alternatives p.2)) <$> members).
Proof.
  destruct members as [|p members]; [reflexivity|].
  change (object_items (p :: members)) with
    ([once (Text "{"); once (Name "space")] ++ separated (member_items <$> p :: members)
     ++ [once (Name "space"); once (Text "}")]).
  assert (separated (member_items <$> p :: members) ≠ []) as Hne.
  { apply separated_nonempty; [done|]. by apply Forall_fmap, Forall_true. }
  rewrite (show_sequence_app [_; _]) by (done || by intros [? _]%app_nil).
  rewrite show_sequence_app by done.
  rewrite show_separated by (done || by apply Forall_fmap, Forall_true).
  rewrite map_map. change (List.map ?f ?l) with (f <$> l).
  rewrite (list_fmap_ext _ (λ p, member to_string p.1 (show_alternatives p.2))) by (intros; apply show_member).
  reflexivity.
Qed.

Lemma show_array item : show_sequence (array_items item) = array_body (show_alternatives item).
Proof.
  unfold array_items, show_sequence. cbn [List.map String.concat]. unfold array_body.
  assert (show_item (Group [[once (Group item); (Group [comma ++ [once (Group item)]], Many)]], Maybe)
          = "((" +:+ show_alternatives item +:+ quoted ") (space `,` space (" +:+ show_alternatives item +:+ "))*)?") as ->.
  { unfold show_item. cbn [fst snd]. rewrite show_group. unfold show_alternatives at 1. cbn [List.map String.concat].
    unfold show_sequence. cbn [List.map String.concat]. rewrite show_once, show_group. unfold show_item. cbn [fst snd].
    rewrite show_group. unfold show_alternatives at 2. cbn [List.map String.concat].
    rewrite show_sequence_app by done. unfold show_sequence at 2. cbn [List.map String.concat].
    rewrite show_once, show_group. rewrite !append_assoc. reflexivity. }
  rewrite !append_assoc. reflexivity.
Qed.
End bodies.

(** ** What arrays and objects generate *)

(** [alternatives] generates something, and only text of values that satisfy [P]. *)
Definition generates (G : string → option Alternatives) (alternatives : Alternatives) (P : Json → Prop) : Prop :=
  (∃ s, gen_alternatives G alternatives s)
  ∧ ∀ s, gen_alternatives G alternatives s → ∃ j, reads j s ∧ P j.

Lemma generates_weaken G alternatives (P Q : Json → Prop) :
  (∀ j, P j → Q j) → generates G alternatives P → generates G alternatives Q.
Proof. intros HPQ [Hs H]. split; [done|]. intros s (j & Hr & Hj)%H. eauto. Qed.

Section generated.
Variable G : string → option Alternatives.
Hypothesis G_space : G space_rule.1 = Some space_rule.2.
Hypothesis G_scalar : ∀ r, r ∈ scalar_rules → G r.1 = Some r.2.

Lemma gen_space s : gen_item G (once (Name "space")) s → spaces s.
Proof. intros H%gen_once. by eapply space_spaces. Qed.

Lemma gen_no_space : gen_item G (once (Name "space")) "".
Proof. apply gen_once, fixed_generates; [done..|]. left. Qed.

Lemma gen_comma s : gen_sequence G comma s → ∃ w w', s = w +:+ "," +:+ w' ∧ spaces w ∧ spaces w'.
Proof.
  intros H. apply gen_sequence_cons in H as (w & a & -> & Hw%gen_space & H).
  apply gen_sequence_cons in H as (b & c & -> & ->%gen_once%gen_text & H).
  apply gen_sequence_cons in H as (w' & d & -> & Hw'%gen_space & ->%gen_sequence_nil).
  exists w, w'. by rewrite append_nil_r.
Qed.

Lemma gen_comma_some : gen_sequence G comma ",".
Proof.
  apply (GenItem _ _ _ "" ","); [apply gen_no_space|].
  apply (GenItem _ _ _ "," ""); [by apply gen_once, gen_text|].
  apply (GenItem _ _ _ "" ""); [apply gen_no_space|constructor].
Qed.

(** Space, the body of an array or object, and space, between brackets. *)
Lemma gen_bracketed a b body s :
  gen_sequence G ([once (Text a); once (Name "space")] ++ body ++ [once (Name "space"); once (Text b)]) s ↔
  ∃ w t w', s = a +:+ w +:+ t +:+ w' +:+ b ∧ gen_item G (once (Name "space")) w ∧ gen_sequence G body t
    ∧ gen_item G (once (Name "space")) w'.
Proof.
  cbn [app]. split.
  - intros H. apply gen_sequence_cons in H as (? & c & -> & ->%gen_once%gen_text & H).
    apply gen_sequence_cons in H as (w & d & -> & Hw & (t & e & -> & Ht & H)%gen_sequence_app).
    apply gen_sequence_cons in H as (w' & f & -> & Hw' & H).
    apply gen_sequence_cons in H as (? & g & -> & ->%gen_once%gen_text & ->%gen_sequence_nil).
    exists w, t, w'. by rewrite append_nil_r.
  - intros (w & t & w' & -> & Hw & Ht & Hw'). apply GenItem; [by apply gen_once, gen_text|].
    apply GenItem; [done|]. apply gen_sequence_app. eexists _, _. split_and!; [done..|].
    apply GenItem; [done|]. by apply gen_single, gen_once, gen_text.
Qed.

Section array.
Context (item : Alternatives) (P : Json → Prop).
Hypothesis item_ok : generates G item P.

Lemma gen_elements n j t s : reads j t → P j →
  gen_many G (Group [comma ++ [once (Group item)]]) n s →
  ∃ l, reads_elements (j :: l) (t +:+ s) ∧ Forall P (j :: l).
Proof.
  revert j t s. induction n as [|n IH]; intros j t s Hj HP.
  - intros ->%gen_many_zero. exists []. rewrite append_nil_r. split; [by constructor|by constructor].
  - intros (a & b & -> & Ha%gen_group%gen_one%gen_sequence_app & Hb)%gen_many_succ.
    destruct Ha as (c & d & -> & (w & w' & -> & Hw & Hw')%gen_comma & Hd).
    apply gen_sequence_cons in Hd as (u & e & -> & Hu%gen_once%gen_group & ->%gen_sequence_nil).
    apply item_ok in Hu as (j' & Hj' & HP'). destruct (IH j' u b Hj' HP' Hb) as (l & Hl & HPl).
    exists (j' :: l). split; [|by constructor]. rewrite append_nil_r, !append_assoc. by constructor.
Qed.

Lemma array_generates : generates G [array_items item] (λ j, ∃ l, j = JArray l ∧ Forall P l).
Proof.
  split.
  - exists "[]". apply gen_one. apply (gen_bracketed "[" "]" [_]). exists "", "", "".
    split_and!; [done|apply gen_no_space| |apply gen_no_space].
    apply (GenItem _ _ _ "" ""); [apply gen_maybe; by left|constructor].
  - intros s Hs%gen_one. apply (gen_bracketed "[" "]" [_]) in Hs as (w & t & w' & -> & Hw%gen_space & Ht & Hw'%gen_space).
    apply gen_sequence_cons in Ht as (u & e & -> & Hu%gen_maybe & ->%gen_sequence_nil). rewrite append_nil_r.
    destruct Hu as [->|Hu%gen_group%gen_one].
    + exists (JArray []). split; [|by exists []]. change ("" +:+ w' +:+ "]") with (w' +:+ "]").
      rewrite <- (append_assoc w). constructor. by apply spaces_app.
    + apply gen_sequence_cons in Hu as (a & b & -> & Ha%gen_once%gen_group & Hb).
      apply gen_sequence_cons in Hb as (c & d & -> & [n Hn]%gen_star & ->%gen_sequence_nil).
      apply item_ok in Ha as (j & Hj & HP). destruct (gen_elements n j a c Hj HP Hn) as (l & Hl & HPl).
      exists (JArray (j :: l)). rewrite append_nil_r. split; [by constructor|by exists (j :: l)].
Qed.
End array.

Section object.
Context (to_string : Value → string) (Q : string * Alternatives → Json → Prop).
Hypothesis key_lexeme : ∀ name, string_lexeme (key_text to_string name).

Definition is_member (p : string * Alternatives) (m : string * Json) : Prop :=
  m.1 = key_text to_string p.1 ∧ Q p m.2.

Lemma gen_member p s : generates G p.2 (Q p) → gen_sequence G (member_items to_string p) s →
  ∃ j, reads_member (key_text to_string p.1) j s ∧ Q p j.
Proof.
  intros [_ Hp] H. apply gen_sequence_cons in H as (? & a & -> & ->%gen_once%gen_text & H).
  apply gen_sequence_cons in H as (w & b & -> & Hw%gen_space & H).
  apply gen_sequence_cons in H as (? & c & -> & ->%gen_once%gen_text & H).
  apply gen_sequence_cons in H as (w' & d & -> & Hw'%gen_space & H).
  apply gen_sequence_cons in H as (t & e & -> & Ht%gen_once%gen_group & ->%gen_sequence_nil).
  apply Hp in Ht as (j & Hj & HQ). exists j. rewrite append_nil_r. split; [by constructor|done].
Qed.

Lemma gen_member_some p : generates G p.2 (Q p) → ∃ s, gen_sequence G (member_items to_string p) s.
Proof.
  intros [[s Hs] _]. eexists. apply GenItem; [by apply gen_once, gen_text|].
  apply GenItem; [apply gen_no_space|]. apply GenItem; [by apply gen_once, gen_text|].
  apply GenItem; [apply gen_no_space|]. apply GenItem; [by apply gen_once, gen_group|constructor].
Qed.

Lemma gen_members members s : members ≠ [] → Forall (λ p, generates G p.2 (Q p)) members →
  gen_sequence G (separated (member_items to_string <$> members)) s →
  ∃ ms, reads_members ms s ∧ Forall2 is_member members ms.
Proof.
  intros Hne H. revert s. induction H as [|p members Hp H IH]; [done|]. destruct members as [|p' members]; intros s.
  - intros (j & Hj & HQ)%gen_member; [|done]. exists [(key_text to_string p.1, j)].
    split; [by constructor|]. by repeat constructor.
  - change (separated _) with (member_items to_string p ++ comma ++ separated (member_items to_string <$> p' :: members)).
    intros (a & b & -> & (j & Hj & HQ)%gen_member & H')%gen_sequence_app; [|done].
    apply gen_sequence_app in H' as (c & d & -> & (w & w' & -> & Hw & Hw')%gen_comma & Hd).
    destruct (IH ltac:(done) d Hd) as (ms & Hms & Hall). exists ((key_text to_string p.1, j) :: ms).
    rewrite !append_assoc. split; [by constructor|by repeat constructor].
Qed.

Lemma gen_members_some members : Forall (λ p, generates G p.2 (Q p)) members →
  ∃ s, gen_sequence G (separated (member_items to_string <$> members)) s.
Proof.
  induction 1 as [|p members Hp H [s IH]]; [exists ""; constructor|].
  destruct (gen_member_some p Hp) as [t Ht]. destruct members as [|p' members]; [by exists t|].
  exists (t +:+ "," +:+ s).
  change (separated _) with (member_items to_string p ++ comma ++ separated (member_items to_string <$> p' :: members)).
  apply gen_sequence_app. eexists _, _. split_and!; [done..|]. apply gen_sequence_app.
  eexists _, _. split_and!; [done|apply gen_comma_some|done].
Qed.

Lemma object_generates members : Forall (λ p, generates G p.2 (Q p)) members →
  generates G [object_items to_string members] (λ j, ∃ ms, j = JObject ms ∧ Forall2 is_member members ms).
Proof.
  intros H. destruct members as [|p members].
  { split.
    - exists "{}". apply gen_one. apply (GenItem _ _ _ "{"); [by apply gen_once, gen_text|].
      apply (GenItem _ _ _ ""); [apply gen_no_space|].
      apply (GenItem _ _ _ "}" ""); [by apply gen_once, gen_text|constructor].
    - intros s Hs%gen_one. apply gen_sequence_cons in Hs as (? & a & -> & ->%gen_once%gen_text & Hs).
      apply gen_sequence_cons in Hs as (w & b & -> & Hw%gen_space & Hs).
      apply gen_sequence_cons in Hs as (? & c & -> & ->%gen_once%gen_text & ->%gen_sequence_nil).
      exists (JObject []). rewrite append_nil_r. split; [by constructor|]. exists []. by split. }
  split.
  - destruct (gen_members_some (p :: members) H) as [s Hs]. eexists. apply gen_one, gen_bracketed.
    exists "", s, "". split_and!; [done|apply gen_no_space|done|apply gen_no_space].
  - intros s Hs%gen_one. apply gen_bracketed in Hs as (w & t & w' & -> & Hw%gen_space & Ht & Hw'%gen_space).
    apply gen_members in Ht as (ms & Hms & Hall); [|done..].
    exists (JObject ms). split; [by constructor|]. by exists ms.
Qed.
End object.
End generated.

(** ** The compiler *)

(** The rules that a compilation adds, from a first number on. *)
Definition numbered (first : N) (new : list Rule) : Prop :=
  ∀ i r, new !! i = Some r →
    ∃ kind, (kind = "object" ∨ kind = "array") ∧ r.1 = kind +:+ "-" +:+ pretty (first + N.of_nat i)%N.

Record compiled (c c' : Compiler) (new : list Rule) : Prop := {
  cp_rules : rules c' = rules c ++ (show_rule <$> new);
  cp_next : next_rule c' = (next_rule c + N.of_nat (length new))%N;
  cp_numbered : numbered (next_rule c) new;
}.

Lemma compiled_none c : compiled c c [].
Proof. split; cbn; [by rewrite app_nil_r|lia|done]. Qed.

Lemma compiled_app c c' c'' new new' : compiled c c' new → compiled c' c'' new' → compiled c c'' (new ++ new').
Proof.
  intros [Hr Hn Hnum] [Hr' Hn' Hnum']. split.
  - by rewrite Hr', Hr, fmap_app, app_assoc.
  - rewrite Hn', Hn, length_app. lia.
  - intros i r [Hi|[Hlen Hi]]%lookup_app_Some; [by apply Hnum|].
    destruct (Hnum' _ _ Hi) as (kind & Hk & ->). exists kind. split; [done|].
    rewrite Hn, <- N.add_assoc, <- Nat2N.inj_add, Nat.add_comm, Nat.sub_add; done.
Qed.

Lemma rule_compiled kind items c :
  kind = "object" ∨ kind = "array" → items ≠ [] → (next_rule c + 1 ≤ u64_max)%N →
  wp (rule kind (show_sequence items)) (λ name c', ∃ r, name = r.1 ∧ r.2 = [items] ∧ compiled c c' [r]) (λ _ _, True) c.
Proof.
  intros Hk Hne Hroom. unfold rule. wp_run. exists (kind +:+ "-" +:+ pretty (next_rule c), [items]).
  split_and!; [done..|]. split; cbn [rules next_rule length].
  - do 2 f_equal. unfold show_rule, show_body. cbn. by destruct items.
  - unfold wrapping_add. rewrite N.mod_small by lia. done.
  - intros [|i] r Hr; [|done]. cbn in Hr. simplify_eq. exists kind. cbn. by rewrite N.add_0_r.
Qed.

(** A grammar that has the fixed rules and [new]. *)
Record has_rules (new : list Rule) (G : string → option Alternatives) : Prop := {
  hr_space : G space_rule.1 = Some space_rule.2;
  hr_scalar : ∀ r, r ∈ scalar_rules → G r.1 = Some r.2;
  hr_new : ∀ r, r ∈ new → G r.1 = Some r.2;
}.

Lemma has_rules_app new new' G : has_rules (new ++ new') G → has_rules new G ∧ has_rules new' G.
Proof. intros [Hs Hf Hn]. split; (split; [done..|]); intros r Hr; apply Hn, list.elem_of_app; auto. Qed.

Lemma generates_name new G r P : has_rules new G → r ∈ new → generates G r.2 P → generates G [[once (Name r.1)]] P.
Proof.
  intros HG Hr [[s Hs] H]. split.
  - exists s. apply gen_one, gen_single, gen_once, gen_name. exists r.2. split; [by eapply hr_new|done].
  - intros t Ht%gen_one%gen_single%gen_once. apply gen_name in Ht as (alternatives & Ha & Ht).
    rewrite (hr_new _ _ HG r Hr) in Ha. simplify_eq. by apply H.
Qed.

Lemma show_name n : show_alternatives [[once (Name n)]] = n.
Proof. apply append_nil_r. Qed.

Section compile.
Variable to_string : Value → string.
(** Printing gives JSON text, of a string the text of a string, of different strings
    different texts. *)
Hypothesis text_reads : ∀ v, ∃ j, reads j (to_string v).
Hypothesis key_lexeme : ∀ name, string_lexeme (key_text to_string name).
Hypothesis key_injective : ∀ a b, key_text to_string a = key_text to_string b → a = b.

Abbreviation follows := (follows to_string).

Definition compile_ok (schema : Value) (c : Compiler) (value : string) (c' : Compiler) : Prop :=
  ∃ alternatives new, value = show_alternatives alternatives ∧ nonempty alternatives
    ∧ compiled c c' new ∧ length new ≤ nodes schema
    ∧ ∀ G, has_rules new G → generates G alternatives (follows schema).

Lemma generates_literals G values : values ≠ [] →
  generates G ((λ v, [once (Text (to_string v))]) <$> values) (λ j, ∃ v, v ∈ values ∧ reads j (to_string v)).
Proof.
  intros Hne. split.
  - destruct values as [|v values]; [done|]. exists (to_string v). apply gen_alternatives_cons. left.
    by apply gen_single, gen_once, gen_text.
  - intros s Hs. clear Hne. induction values as [|v values IH]; [by apply gen_alternatives_nil in Hs|].
    apply gen_alternatives_cons in Hs as [->%gen_single%gen_once%gen_text|(j & Hr & w & Hw & Hj)%IH].
    + destruct (text_reads v) as [j Hj]. exists j. split; [done|]. exists v. split; [left|done].
    + exists j. split; [done|]. exists w. split; [by right|done].
Qed.

Lemma show_literals values :
  String.concat " | " (literal to_string <$> values)
  = show_alternatives ((λ v, [once (Text (to_string v))]) <$> values).
Proof.
  unfold show_alternatives. f_equal. change (List.map ?f ?l) with (f <$> l). rewrite <- list_fmap_compose.
  apply list_fmap_ext. intros _ v _. symmetry. apply (show_literal to_string).
Qed.

Lemma literals_nonempty values : values ≠ [] → nonempty ((λ v, [once (Text (to_string v))]) <$> values).
Proof. intros H. split; [by destruct values|]. by apply Forall_fmap, Forall_true. Qed.

(** *** Scalars *)

Lemma scalar_generates G new type name object :
  has_rules new G → field "const" object = None → field "enum" object = None →
  field "type" object ≫= as_str = Some type →
  (type, name) ∈ [("string", "json-string"); ("integer", "integer"); ("number", "number");
                  ("boolean", "boolean"); ("null", "null")] →
  generates G [[once (Name name)]] (follows (Object object)).
Proof.
  intros HG Hc He Ht Hin. split.
  - assert (∃ s, (name, s) ∈ [("space", ""); ("json-string", quote +:+ quote); ("integer", "0"); ("number", "0");
              ("boolean", "true"); ("null", "null")]) as [s Hs].
    { set_unfold. naive_solver. }
    exists s. apply gen_one, gen_single, gen_once. by apply fixed_generates; [apply HG..|].
  - intros s Hs%gen_one%gen_single%gen_once.
    assert (∃ j, reads j s ∧ has_type type j ∧ match j with JArray _ | JObject _ => False | _ => True end)
      as (j & Hr & Hj & Hleaf).
    { destruct HG as [HG1 HG2 _]. rewrite !list.elem_of_cons, list.elem_of_nil in Hin.
      destruct Hin as [Hin|[Hin|[Hin|[Hin|[Hin|[]]]]]]; injection Hin as -> ->.
      - exists (JString s). split; [|done]. constructor. by eapply string_sound.
      - exists (JNumber s). apply integer_sound in Hs; [|done..]. split; [|by split; [right|]].
        constructor. by apply integer_number.
      - exists (JNumber s). apply number_sound in Hs; [|done..]. split; [by constructor|by split; [left|]].
      - apply boolean_sound in Hs as [b Hb]; [|done..]. by exists (JBool b).
      - exists JNull. split; [by eapply null_sound|done]. }
    exists j. split; [done|]. cbn [Grammar.follows]. rewrite Hc, He.
    split; [by exists type|]. by destruct j.
Qed.

(** *** Arrays *)

Lemma array_follows object items l :
  field "const" object = None → field "enum" object = None →
  field "type" object ≫= as_str = Some "array" → field "items" object = Some items →
  Forall (follows items) l → follows (Object object) (JArray l).
Proof.
  intros Hc He Ht Hi Hl. cbn [Grammar.follows]. rewrite Hc, He.
  split; [by exists "array"|]. by rewrite field_with_spec, Hi.
Qed.

Lemma array_compiled object items c value c' :
  field "const" object = None → field "enum" object = None →
  field "type" object ≫= as_str = Some "array" → field "items" object = Some items →
  (next_rule c + N.of_nat (nodes (Object object)) ≤ u64_max)%N →
  compile_ok items c value c' →
  wp (rule "array" (array_body value)) (compile_ok (Object object) c) (λ _ _, True) c' .
Proof.
  intros Hc He Ht Hi Hroom (alternatives & new & -> & Hne & Hcomp & Hlen & Hgen).
  pose proof (field_nodes _ _ _ Hi) as Hnodes. rewrite <- show_array.
  eapply wp_mono; [apply rule_compiled|cbn beta|done].
  - by right.
  - done.
  - rewrite (cp_next _ _ _ Hcomp). lia.
  - intros name c'' ([r body] & -> & Hr & Hcomp'). cbn in Hr. subst body.
    exists [[once (Name r)]], (new ++ [(r, [array_items alternatives])]). split_and!.
    + symmetry. apply show_name.
    + split; [done|]. by repeat constructor.
    + by eapply compiled_app.
    + rewrite length_app. cbn [length]. lia.
    + intros G HG. apply (generates_name _ _ (r, [array_items alternatives]) _ HG); [set_solver|].
      apply has_rules_app in HG as [HG _]. cbn [snd].
      eapply generates_weaken; [|apply array_generates; [apply HG..|by apply Hgen]].
      intros j (l & -> & Hl). by eapply array_follows.
Qed.

(** *** Objects *)

Definition fields_nodes (properties : list (string * Value)) : nat := foldr (λ kv n, nodes kv.2 + n) 0 properties.

Definition members_ok (properties : list (string * Value)) (c : Compiler) (members : list string) (c' : Compiler) : Prop :=
  ∃ (pairs : list (string * Alternatives)) new,
    members = (λ p, member to_string p.1 (show_alternatives p.2)) <$> pairs
    ∧ compiled c c' new ∧ length new ≤ fields_nodes properties
    ∧ ∀ G, has_rules new G → Forall2 (λ p q, p.1 = q.1 ∧ generates G q.2 (follows p.2)) properties pairs.

Lemma members_compiled properties path c :
  (next_rule c + N.of_nat (fields_nodes properties) ≤ u64_max)%N →
  Forall (λ p, ∀ path c, (next_rule c + N.of_nat (nodes p.2) ≤ u64_max)%N →
            wp (compile to_string p.2 path) (compile_ok p.2 c) (λ _ _, True) c) properties →
  wp (map_M (λ p, value ← compile to_string p.2 (path +:+ ".properties." +:+ p.1);
                  mret (member to_string p.1 value)) properties)
    (members_ok properties c) (λ _ _, True) c.
Proof.
  intros Hroom H. revert c Hroom. induction H as [|p properties Hp H IH]; intros c Hroom.
  - cbn [map_M]. wp_run. exists [], []. split_and!; [done|apply compiled_none|cbn; lia|constructor].
  - cbn [map_M fields_nodes foldr] in *. wp_run. eapply wp_mono; [apply Hp; lia|cbn beta|done].
    intros value c' (alternatives & new & -> & Hne & Hcomp & Hlen & Hgen). wp_run.
    eapply wp_mono; [apply IH; rewrite (cp_next _ _ _ Hcomp); unfold fields_nodes; lia|cbn beta|done].
    intros members c'' (pairs & new' & -> & Hcomp' & Hlen' & Hgen'). wp_run.
    exists ((p.1, alternatives) :: pairs), (new ++ new'). split_and!; [done|by eapply compiled_app| |].
    + rewrite length_app. unfold fields_nodes in *. cbn [foldr]. lia.
    + intros G [HG HG']%has_rules_app. constructor; [by split; [|apply Hgen]|by apply Hgen'].
Qed.

(** Every name is required, and there are as many requirements as names: nothing else is. *)
Lemma required_are_properties object properties required name :
  base.NoDup properties.*1 → field "required" object ≫= as_array = Some required →
  all_required properties required = true → name ∈ required_names object → name ∈ properties.*1.
Proof.
  intros Hnd Hr [Hlen%Nat.eqb_eq Hall]%andb_true_iff. unfold required_names. rewrite Hr. cbn [default].
  rewrite forallb_forall in Hall.
  assert (properties.*1 ⊆+ omap as_str required) as Hsub.
  { apply NoDup_submseteq; [done|]. intros k Hk. apply list_elem_of_In, Hall in Hk.
    apply existsb_exists in Hk as (r & Hin & Hs%bool_decide_eq_true). apply list_elem_of_omap.
    exists r. by rewrite list_elem_of_In. }
  assert (length (omap as_str required) ≤ length required) as Hle.
  { clear. induction required as [|r required IH]; [done|]. cbn. destruct (as_str r); cbn; lia. }
  apply submseteq_length_Permutation in Hsub; [|rewrite length_fmap; lia]. by rewrite Hsub.
Qed.

Definition member_value (properties : list (string * Value)) (q : string * Alternatives) (j : Json) : Prop :=
  ∃ schema, (q.1, schema) ∈ properties ∧ follows schema j.

Lemma object_follows object properties required pairs members :
  field "const" object = None → field "enum" object = None →
  field "type" object ≫= as_str = Some "object" → field "properties" object = Some (Object properties) →
  field "required" object ≫= as_array = Some required →
  base.NoDup properties.*1 → all_required properties required = true → pairs.*1 = properties.*1 →
  Forall2 (is_member to_string (member_value properties)) pairs members →
  follows (Object object) (JObject members).
Proof.
  intros Hc He Ht Hp Hr Hnd Hall Hnames Hms. cbn [Grammar.follows]. rewrite Hc, He.
  assert (members.*1 = key_text to_string <$> properties.*1) as Hkeys.
  { rewrite <- Hnames. clear -Hms. induction Hms as [|q m pairs members [Hk _] _ IH]; [done|].
    cbn. by rewrite Hk, IH. }
  assert (∀ name value, (key_text to_string name, value) ∈ members → ∃ schema, (name, schema) ∈ properties ∧ follows schema value) as Hvalues.
  { intros name value Hin. apply (list_elem_of_lookup_1 members) in Hin as [i Hi].
    destruct (Forall2_lookup_r _ _ _ _ _ Hms Hi) as ([n alternatives] & _ & Hk & schema & Hs & Hj).
    cbn in Hk, Hs, Hj. apply key_injective in Hk. subst n. eauto. }
  split; [by exists "object"|]. rewrite field_with_spec, Hp. cbn [fmap option_fmap option_map default].
  split; [|split].
  - apply foldr_and, list.Forall_forall. intros [name schema] Hin value Hv. cbn in *.
    apply Hvalues in Hv as (schema' & Hin' & Hj). by rewrite (keys_functional properties name schema schema').
  - intros name Hname. rewrite Hkeys. apply list_elem_of_fmap_2. by eapply required_are_properties.
  - intros _ key Hkey. rewrite Hkeys in Hkey. apply list_elem_of_fmap in Hkey as (name & -> & Hname).
    exists name. split; [|done]. unfold property_names. by rewrite Hp.
Qed.

Lemma object_compiled object properties path c :
  field "const" object = None → field "enum" object = None →
  field "type" object ≫= as_str = Some "object" → field "properties" object = Some (Object properties) →
  base.NoDup properties.*1 →
  (next_rule c + N.of_nat (nodes (Object object)) ≤ u64_max)%N →
  Forall (λ p, ∀ path c, (next_rule c + N.of_nat (nodes p.2) ≤ u64_max)%N →
            wp (compile to_string p.2 path) (compile_ok p.2 c) (λ _ _, True) c) properties →
  wp (compile_object object path
        (Some (Some (map_M (λ p, value ← compile to_string p.2 (path +:+ ".properties." +:+ p.1);
                                 mret (member to_string p.1 value)) properties))))
    (compile_ok (Object object) c) (λ _ _, True) c.
Proof.
  intros Hc He Ht Hp Hnd Hroom Hsub. pose proof (field_nodes _ _ _ Hp) as Hnodes.
  change (nodes (Object properties)) with (S (fields_nodes properties)) in Hnodes.
  unfold compile_object. wp_run. destruct (negb (closed_object object)); [done|]. cbn [mjoin option_join].
  destruct (field "required" object ≫= as_array) as [required|] eqn:Hr; [|done].
  rewrite Hp. change (default [] (Some (Object properties) ≫= as_object)) with properties. wp_run.
  destruct (all_required properties required) eqn:Hall; [|done]. cbn [negb]. wp_run.
  eapply wp_mono; [apply members_compiled; [lia|done]|cbn beta|done].
  intros members c' (pairs & new & -> & Hcomp & Hlen & Hgen). rewrite <- show_object.
  eapply wp_mono; [apply rule_compiled|cbn beta|done].
  - by left.
  - by destruct pairs.
  - rewrite (cp_next _ _ _ Hcomp). lia.
  - intros name c'' ([r body] & -> & Hb & Hcomp'). cbn in Hb. subst body.
    exists [[once (Name r)]], (new ++ [(r, [object_items to_string pairs])]). split_and!.
    + symmetry. apply show_name.
    + split; [done|]. by repeat constructor.
    + by eapply compiled_app.
    + rewrite length_app. cbn [length]. lia.
    + intros G HG. apply (generates_name _ _ (r, [object_items to_string pairs]) _ HG); [set_solver|].
      apply has_rules_app in HG as [HG _]. specialize (Hgen G HG). cbn [snd].
      assert (pairs.*1 = properties.*1) as Hnames.
      { clear -Hgen. induction Hgen as [|p q properties pairs [Hpq _] _ IH]; [done|]. cbn. by rewrite Hpq, IH. }
      eapply generates_weaken; [|apply object_generates with (Q := member_value properties); [apply HG..|done|]].
      * intros j (ms & -> & Hms). by eapply object_follows.
      * apply list.Forall_forall. intros q Hq. apply list_elem_of_lookup_1 in Hq as [i Hi].
        destruct (Forall2_lookup_r _ _ _ _ _ Hgen Hi) as (p & Hpi & Hname & Hq).
        eapply generates_weaken; [|done]. intros j Hj. exists p.2. rewrite <- Hname.
        split; [|done]. destruct p. by eapply list_elem_of_lookup_2.
Qed.

Lemma compile_literals object values c value :
  values ≠ [] → value = String.concat " | " (literal to_string <$> values) →
  (∀ j, (∃ v, v ∈ values ∧ reads j (to_string v)) → follows (Object object) j) →
  compile_ok (Object object) c value c.
Proof.
  intros Hne -> Hconf. eexists _, []. split_and!.
  - apply show_literals.
  - by apply literals_nonempty.
  - apply compiled_none.
  - cbn. lia.
  - intros G HG. eapply generates_weaken; [exact Hconf|]. by apply generates_literals.
Qed.

Lemma compile_scalar object type name c :
  field "const" object = None → field "enum" object = None →
  field "type" object ≫= as_str = Some type →
  (type, name) ∈ [("string", "json-string"); ("integer", "integer"); ("number", "number");
                  ("boolean", "boolean"); ("null", "null")] →
  compile_ok (Object object) c name c.
Proof.
  intros Hc He Ht Hin. exists [[once (Name name)]], []. split_and!.
  - symmetry. apply show_name.
  - split; [done|]. by repeat constructor.
  - apply compiled_none.
  - cbn. lia.
  - intros G HG. by eapply scalar_generates.
Qed.

Lemma compile_sound n schema path c :
  nodes schema < n → distinct_keys schema → (next_rule c + N.of_nat (nodes schema) ≤ u64_max)%N →
  wp (compile to_string schema path) (compile_ok schema c) (λ _ _, True) c.
Proof.
  revert schema path c. induction n as [|n IH]; [lia|]. intros schema path c Hn Hd Hroom.
  destruct schema as [| | | | | |object]; try done. cbn [compile]. wp_run.
  eapply wp_mono; [apply (wp_for_each _ _ (λ _ c', c' = c) (λ _ _, True))|cbn beta|]; [done| | |done].
  { intros k ks c' ->. by destruct (keyword k). }
  intros _ ? ->.
  destruct (field "const" object) as [v|] eqn:Hc.
  { wp_run. apply (compile_literals object [v]); [done..|].
    intros j (w & ->%list_elem_of_singleton & Hj). cbn [Grammar.follows]. by rewrite Hc. }
  destruct (field "enum" object) as [v|] eqn:He.
  { unfold compile_enum. wp_run. destruct (as_array v) as [values|] eqn:Hv; [|done].
    destruct values as [|w values]; [done|]. wp_run. apply (compile_literals object (w :: values)); [done..|].
    intros j Hj. cbn [Grammar.follows]. by rewrite Hc, He, Hv. }
  destruct (field "type" object ≫= as_str) as [type|] eqn:Ht; [|done].
  destruct (String.eqb_spec type "object") as [->|_].
  { rewrite field_with_spec. destruct (field "properties" object) as [v|] eqn:Hp; cbn [fmap option_fmap option_map].
    - pose proof (field_distinct _ _ _ Hd Hp) as Hdp. pose proof (field_nodes _ _ _ Hp) as Hnodes.
      destruct v as [| | | | | |properties]; try by unfold compile_object; wp_run; destruct (negb _).
      destruct Hdp as [Hnd Hdp%foldr_and]. apply object_compiled; [done..|].
      apply list.Forall_forall. intros p Hin path' c' Hroom'. apply IH; [|by eapply list.Forall_forall in Hdp|done].
      apply (field_nodes_in properties p) in Hin. cbn [nodes] in *. lia.
    - unfold compile_object. wp_run. by destruct (negb _). }
  destruct (String.eqb_spec type "array") as [->|_].
  { rewrite field_with_spec. unfold compile_array. wp_run.
    destruct (field "items" object) as [items|] eqn:Hi; cbn [fmap option_fmap option_map]; [|done]. wp_run.
    pose proof (field_nodes _ _ _ Hi) as Hnodes.
    eapply wp_mono; [apply IH; [lia|by eapply field_distinct|lia]|cbn beta|done].
    intros value c' Hok. by apply (array_compiled object items). }
  destruct (String.eqb_spec type "string") as [->|_]; [eapply compile_scalar; set_solver|].
  destruct (String.eqb_spec type "integer") as [->|_]; [eapply compile_scalar; set_solver|].
  destruct (String.eqb_spec type "number") as [->|_]; [eapply compile_scalar; set_solver|].
  destruct (String.eqb_spec type "boolean") as [->|_]; [eapply compile_scalar; set_solver|].
  destruct (String.eqb_spec type "null") as [->|_]; [eapply compile_scalar; set_solver|done].
Qed.
End compile.

(** ** The whole grammar *)

Lemma concat_empty s l : String.concat "" (s :: l) = s +:+ String.concat "" l.
Proof. destruct l; [symmetry; apply append_nil_r|done]. Qed.

Lemma concat_lines l : l ≠ [] → String.concat newline l +:+ newline = String.concat "" ((λ s, s +:+ newline) <$> l).
Proof.
  intros Hl. induction l as [|s l IH]; [done|]. rewrite fmap_cons, concat_empty. destruct l as [|s' l].
  - cbn. by rewrite append_nil_r.
  - rewrite concat_cons by done. by rewrite !append_assoc, IH.
Qed.

Lemma show_grammar_app a b : show_grammar (a ++ b) = show_grammar a +:+ show_grammar b.
Proof.
  unfold show_grammar. induction a as [|r a IH]; [done|].
  rewrite <- app_comm_cons, !fmap_cons, !concat_empty, IH. by rewrite !append_assoc.
Qed.

Lemma rule_of_in rules r : base.NoDup rules.*1 → r ∈ rules → rule_of rules r.1 = Some r.2.
Proof.
  induction rules as [|[n alternatives] rules IH]; cbn; intros Hnd Hin; [by apply list.elem_of_nil in Hin|].
  apply list.NoDup_cons in Hnd as [Hn Hnd]. apply list.elem_of_cons in Hin as [->|Hin].
  - cbn. by rewrite bool_decide_true.
  - rewrite bool_decide_false; [auto|]. intros ->. by apply Hn, list_elem_of_fmap_2.
Qed.

(** The names of added rules differ from each other and from the fixed ones. *)
Lemma numbered_names first new root : numbered first new →
  base.NoDup ((("root", root) :: space_rule :: new ++ scalar_rules) : list Rule).*1.
Proof.
  intros H.
  assert (∀ n, n ∈ new.*1 → ∃ k, n = "object-" +:+ k ∨ n = "array-" +:+ k) as Hnew.
  { intros n (r & -> & [i Hi]%list_elem_of_lookup_1)%list_elem_of_fmap.
    destruct (H i r Hi) as (kind & [-> | ->] & ->); eexists; [by left|by right]. }
  assert (∀ n, n ∈ ["root"; "space"] ++ scalar_rules.*1 → n ∉ new.*1) as Hfixed.
  { intros n Hn (k & Hk)%Hnew. cbn in Hn. set_unfold.
    destruct Hk as [-> | ->]; repeat destruct Hn as [Hn|Hn]; try discriminate Hn; done. }
  cbn [fmap list_fmap fst]. rewrite fmap_app.
  apply list.NoDup_cons. split.
  { cbn. rewrite list.elem_of_cons, list.elem_of_app. intros [?|[?|Hs]]; [done| |by vm_compute in Hs; set_unfold in Hs; naive_solver].
    by apply (Hfixed "root"); [left|]. }
  apply list.NoDup_cons. split.
  { rewrite list.elem_of_app. intros [?|Hs]; [|by vm_compute in Hs; set_unfold in Hs; naive_solver].
    by apply (Hfixed "space"); [right; left|]. }
  apply list.NoDup_app. split_and!.
  - apply NoDup_alt. intros i j n Hi Hj.
    apply list_lookup_fmap_Some in Hi as (r & -> & Hi). apply list_lookup_fmap_Some in Hj as (r' & Hr' & Hj).
    destruct (H i r Hi) as (kind & Hk & Hn). destruct (H j r' Hj) as (kind' & Hk' & Hn').
    rewrite Hn, Hn' in Hr'. destruct Hk as [-> | ->], Hk' as [-> | ->]; try discriminate Hr'.
    all: injection Hr' as Hp; apply pretty_N_inj in Hp; lia.
  - intros n Hn Hs. by apply (Hfixed n); [do 2 right|].
  - by apply (bool_decide_unpack _); vm_compute.
Qed.

(** ** What the compiler reads and what the schema says *)

Lemma follows_conforms to_string schema j : coherent to_string schema → follows to_string schema j → conforms to_string schema j.
Proof.
  revert j. induction schema as [schema IH] using (well_founded_induction (well_founded_ltof _ nodes)).
  intros j. destruct schema as [| | | | | |object]; try done. intros (Hlisted & Hitems & Hproperties) H.
  rewrite field_with_spec in Hitems, Hproperties. cbn [follows] in H.
  destruct (field "const" object) as [v|] eqn:Hc.
  { apply (Hlisted v); [unfold constants; rewrite Hc; by left|done]. }
  destruct (field "enum" object) as [values|] eqn:He.
  { destruct H as (v & Hv & Hr). apply (Hlisted v); [|done]. unfold constants. rewrite Hc, He. exact Hv. }
  destruct H as [(type & Ht & Htype) Hbody]. cbn [conforms].
  split; [by rewrite Hc|]. split; [by rewrite He|]. split.
  { intros t Hf. rewrite Hf in Ht. destruct t; try done. cbn in Ht. by injection Ht as ->. }
  destruct j as [| | | |l|members]; try done.
  - rewrite field_with_spec in *. destruct (field "items" object) as [items|] eqn:Hi; [|done]. cbn in *.
    eapply list.Forall_impl; [exact Hbody|]. intros x Hx. apply IH; [|done..]. by eapply field_nodes.
  - destruct Hbody as (Hvalues & Hrequired & Hclosed). split; [|done]. rewrite field_with_spec in *.
    destruct (field "properties" object) as [v|] eqn:Hp; [|done]. cbn in *. destruct v as [| | | | | |properties]; try done.
    apply foldr_and in Hproperties. apply foldr_and in Hvalues. apply foldr_and, list.Forall_forall. intros q Hq value Hm.
    rewrite list.Forall_forall in Hproperties, Hvalues. apply IH; [|by apply Hproperties|by eapply Hvalues].
    unfold ltof. apply field_nodes in Hp. apply (field_nodes_in properties) in Hq. lia.
Qed.

(** C13: Structured output is sound. A schema whose grammar is built gives a grammar
    with exactly one rule for each name, whose root generates at least one text, and
    every text it generates is, up to space at its end, JSON text of a value that
    follows the schema as it is compiled, where a constant or an enumeration stands for
    all of its schema; and that conforms to every keyword of the schema, if none of its
    constants contradicts a keyword beside it ([const_against_type] is one that does).
    A generation that follows the grammar is never stuck. The compiler does not panic. *)
Theorem structured_output_sound to_string jsonschema_compile schema :
  (∀ v, ∃ j, reads j (to_string v)) → (∀ name, string_lexeme (key_text to_string name)) →
  (∀ a b, key_text to_string a = key_text to_string b → a = b) →
  distinct_keys schema → (N.of_nat (nodes schema) ≤ u64_max)%N →
  match schema_grammar to_string jsonschema_compile schema tt with
  | Done grammar _ => ∃ rules, finish_schema_grammar grammar = show_grammar rules ∧ base.NoDup rules.*1
      ∧ (∃ s, gen_atom (rule_of rules) (Name "root") s)
      ∧ ∀ s, gen_atom (rule_of rules) (Name "root") s →
          ∃ text space j, s = text +:+ space ∧ spaces space ∧ reads j text ∧ follows to_string schema j
            ∧ (coherent to_string schema → conforms to_string schema j)
  | Fail _ _ => True
  | Panic => False
  end.
Proof.
  intros Htext Hlex Hinj Hd Hroom. unfold schema_grammar.
  destruct (jsonschema_compile schema) as [_|e]; [|done].
  pose proof (compile_sound to_string Htext Hlex Hinj (S (nodes schema)) schema "$" initial
    ltac:(lia) Hd ltac:(cbn; lia)) as H. unfold wp_gen in H.
  destruct (compile to_string schema "$" initial) as [value c|e c|]; [|done..].
  destruct H as (alternatives & new & -> & Hne & [Hrules Hnext Hnum] & Hlen & Hgen).
  set (root := then_space alternatives). set (rules := ("root", root) :: space_rule :: new ++ scalar_rules).
  assert (base.NoDup rules.*1) as Hnd by by eapply numbered_names.
  assert (has_rules new (rule_of rules)) as HG.
  { split; [|intros r Hr|intros r Hr]; apply rule_of_in; try done; unfold rules; set_solver. }
  assert (rule_of rules "root" = Some root) as Hroot by done.
  exists rules. split_and!; [|done| |].
  - rewrite show_scalar_rules, Hrules. cbn [Structured.rules initial app].
    rewrite <- show_then_space, <- (show_body_nonempty (then_space _)), <- show_space_rule
      by (done || by apply then_space_nonempty).
    change ("root ::= " +:+ show_body (then_space alternatives)) with (show_rule ("root", root)).
    change (show_rule ("root", root) :: show_rule space_rule :: (show_rule <$> new))
      with (show_rule <$> (("root", root) :: space_rule :: new)).
    rewrite concat_lines by done. rewrite <- list_fmap_compose. unfold rules.
    change (_ :: _ :: new ++ scalar_rules) with (((("root", root) :: space_rule :: new) : list Rule) ++ scalar_rules).
    by rewrite show_grammar_app.
  - destruct (Hgen _ HG) as [[s Hs] _]. apply gen_then_space_some in Hs as [t Ht].
    + exists t. by eapply GenName.
    + apply fixed_generates; [apply HG..|left].
  - intros s (a & Ha & Hs)%gen_name. rewrite Hroot in Ha. simplify_eq.
    apply gen_then_space in Hs as (text & space & -> & Hspace & Ht).
    + destruct (Hgen _ HG) as [_ H]. apply H in Ht as (j & Hr & Hj). exists text, space, j.
      split_and!; [done..|]. intros Hcoherent. by apply follows_conforms.
    + intros w Hw. by eapply space_spaces; [apply HG..|].
Qed.

(** ** A schema and its grammar *)

(** A printer that is exact on strings, truth values and null. *)
Module Printer.

Definition hex_digit (n : nat) : Ascii.ascii := default Ascii.Space (String.get n "0123456789abcdef").

Definition high (c : Ascii.ascii) : Ascii.ascii := hex_digit (Ascii.nat_of_ascii c / 16).

Definition low (c : Ascii.ascii) : Ascii.ascii := hex_digit (Ascii.nat_of_ascii c mod 16).

Definition char_text (c : Ascii.ascii) : string :=
  if plain_char c then String c "" else quoted "\u00" +:+ String (high c) (String (low c) "").

Fixpoint body (s : string) : string :=
  match s with EmptyString => "" | String c s' => char_text c +:+ body s' end.

Definition show (v : Value) : string :=
  match v with
  | VString s => quote +:+ body s +:+ quote
  | Bool b => if b then "true" else "false"
  | _ => "null"
  end.

Lemma hex_digits c : is_hex (high c) = true ∧ is_hex (low c) = true.
Proof. by destruct c as [[] [] [] [] [] [] [] []]. Qed.

Definition unhex (c : Ascii.ascii) : nat := default 0 (String.index 0 (String c "") "0123456789abcdef").

Lemma hex_decodes c : Ascii.ascii_of_nat (16 * unhex (high c) + unhex (low c)) = c.
Proof. by destruct c as [[] [] [] [] [] [] [] []]. Qed.

Lemma body_lexeme s : string_body (body s).
Proof.
  induction s as [|c s IH]; [constructor|]. cbn [body]. unfold char_text.
  destruct (plain_char c) eqn:Hc; [by apply BodyPlain|]. destruct (hex_digits c). by apply BodyUnicode.
Qed.

Lemma char_text_inj a b s t : char_text a +:+ s = char_text b +:+ t → a = b ∧ s = t.
Proof.
  unfold char_text. destruct (plain_char a) eqn:Ha, (plain_char b) eqn:Hb; intros Heq.
  - by injection Heq.
  - injection Heq as -> _. discriminate Ha.
  - injection Heq as <- _. discriminate Hb.
  - injection Heq as Hh Hl Hs. split; [|exact Hs]. rewrite <- (hex_decodes a), <- (hex_decodes b). by rewrite Hh, Hl.
Qed.

Lemma body_inj a b : body a = body b → a = b.
Proof.
  revert b. induction a as [|x a IH]; intros [|y b]; cbn [body]; [done|..].
  - unfold char_text. by destruct (plain_char y).
  - unfold char_text. by destruct (plain_char x).
  - intros [-> H%IH]%char_text_inj. by subst.
Qed.

Lemma show_key_lexeme name : string_lexeme (key_text show name).
Proof. exists (body name). split; [done|apply body_lexeme]. Qed.

Lemma show_key_inj a b : key_text show a = key_text show b → a = b.
Proof.
  unfold key_text, show. intros H. injection H as H.
  change (body a +:+ quote = body b +:+ quote) in H. apply append_inj_r in H. by apply body_inj.
Qed.

Lemma show_reads v : ∃ j, reads j (show v).
Proof.
  destruct v as [|b| | |s| |]; try by exists JNull; constructor.
  - exists (JBool b). destruct b; constructor.
  - eexists. apply ReadString, (show_key_lexeme s).
Qed.

(** An object with one list of two constants. *)
Definition schema : Value :=
  Object [("additionalProperties", Bool false);
          ("properties", Object [("tags", Object [("items", Object [("enum", Array [VString "a"; VString "b"])]);
                                                  ("type", VString "array")])]);
          ("required", Array [VString "tags"]);
          ("type", VString "object")].

Definition grammar : string :=
  match schema_grammar show (λ _, Ok tt) schema tt with Done g _ => g | _ => "" end.

End Printer.

(** Nothing that the schema lists contradicts it. *)
Lemma printer_schema_coherent : coherent Printer.show Printer.schema.
Proof.
  assert (∀ values : list Value, coherent Printer.show (Object [("enum", Array values)])) as Hlisted.
  { intros values. split; [|done]. intros v j Hv Hj. split; [done|]. split.
    - intros w [= <-]. by exists v.
    - split; [done|]. destruct j as [| | | |l|members]; [done..|]. repeat split; intros *; [intros []%list.elem_of_nil|done]. }
  split; [by intros v j []%list.elem_of_nil|]. split; [done|].
  cbn -[coherent constants conforms]. split; [|done].
  split; [by intros v j []%list.elem_of_nil|]. split; [|done]. apply Hlisted.
Qed.

Lemma structured_output_sound_witness :
  coherent Printer.show Printer.schema
  ∧ ∃ rules, finish_schema_grammar Printer.grammar = show_grammar rules ∧ base.NoDup rules.*1
    ∧ (∃ s, gen_atom (rule_of rules) (Name "root") s)
    ∧ ∀ s, gen_atom (rule_of rules) (Name "root") s →
        ∃ text space j, s = text +:+ space ∧ spaces space ∧ reads j text ∧ follows Printer.show Printer.schema j
          ∧ (coherent Printer.show Printer.schema → conforms Printer.show Printer.schema j).
Proof.
  split; [exact printer_schema_coherent|].
  assert (distinct_keys Printer.schema) as Hd.
  { repeat split; apply (bool_decide_unpack _); vm_compute; exact I. }
  pose proof (structured_output_sound Printer.show (λ _, Ok tt) Printer.schema
    Printer.show_reads Printer.show_key_lexeme Printer.show_key_inj Hd ltac:(vm_compute; discriminate)) as H.
  exact H.
Defined.

(** A constant that is not of the type beside it: the schema is compiled to the
    constant, though no value conforms to it. *)
Module Contradicted.

Definition schema : Value := Object [("const", VString "a"); ("type", VString "null")].

End Contradicted.

Example const_against_type :
  (∃ grammar, schema_grammar Printer.show (λ _, Ok tt) Contradicted.schema tt = Done grammar tt)
  ∧ (∃ j, reads j (Printer.show (VString "a")) ∧ follows Printer.show Contradicted.schema j)
  ∧ ∀ j, ¬ conforms Printer.show Contradicted.schema j.
Proof.
  split; [by eexists|]. split.
  - destruct (Printer.show_reads (VString "a")) as [j Hj]. by exists j.
  - intros j (Hconst & _ & Htype & _). specialize (Hconst _ eq_refl). specialize (Htype _ eq_refl).
    destruct j; try discriminate Htype; [inversion Hconst; congruence|]. destruct Htype as [Ht|[Ht _]]; discriminate Ht.
Qed.
