(* ===== verification/Requests.v ===== *)
(** The requests of the public interfaces ([crates/server/src/lib.rs]) and what is
    checked before one of them is served: controls, response formats, tools and the
    choice of a tool.

    The library parses a request's body into these records; the one parser of the
    code itself, of a tool choice, is [parse_tool_choice]. A floating-point number is
    its bit pattern, read by [f32]. *)

From stdpp Require Import base strings list numbers.
From Stdlib Require Import Lia SpecFloat.
From S2P Require Import Prelude Json Engine ContextStrategy Structured Inference.

(** ** Single-precision numbers *)

(** The number of a bit pattern: sign, eight bits of exponent, fraction. *)
Definition f32 (bits : N) : spec_float :=
  let fraction := (bits mod 2 ^ 23)%N in
  let exponent := ((bits / 2 ^ 23) mod 2 ^ 8)%N in
  let sign := N.testbit bits 31 in
  if (exponent =? 0)%N then
    match fraction with N0 => S754_zero sign | Npos m => S754_finite sign m (-149) end
  else if (exponent =? 255)%N then
    match fraction with N0 => S754_infinity sign | Npos _ => S754_nan end
  else
    match (fraction + 2 ^ 23)%N with
    | N0 => S754_nan
    | Npos m => S754_finite sign m (Z.of_N exponent - 150)
    end.

Definition is_finite (bits : N) : bool :=
  match f32 bits with S754_zero _ | S754_finite _ _ _ => true | _ => false end.

(** [a <= b] and [a < b] *)
Definition f32_le (a b : N) : bool := SFleb (f32 a) (f32 b).

Definition f32_lt (a b : N) : bool := SFltb (f32 a) (f32 b).

Definition F32_ZERO : N := 0.

Definition F32_ONE : N := 1065353216.

Definition F32_TWO : N := 1073741824.

(** ** Requests *)

Inductive StopInput : Type := StopOne (stop : string) | StopMany (stops : list string).

Definition into_vec (s : StopInput) : list string :=
  match s with StopOne stop => [stop] | StopMany stops => stops end.

Record ImportContextRequest : Type := mkImportContext { ic_tokens : list string }.

Record StreamOptions : Type := mkStreamOptions { so_include_usage : bool }.

Inductive ReasoningEffort : Type := EffortNone | EffortLow | EffortMedium | EffortHigh | EffortMax.

Record CompletionRequest : Type := mkCompletionRequest {
  cp_model : string;
  cp_prompt : string;
  cp_max_tokens : option N;
  cp_stream : bool;
  cp_context_id : option string;
  cp_stop : option StopInput;
  cp_raw_continuation : bool;
  cp_compaction : option CompactionRequest;
  cp_deadline_ms : option N;
  cp_temperature : option N;
  cp_top_p : option N;
  cp_seed : option N;
  cp_stream_options : option StreamOptions;
}.

Record JsonSchemaDefinition : Type := mkJsonSchema {
  js_name : string;
  js_description : option string;
  js_schema : Value;
  js_strict : bool;
}.

Record ResponseFormat : Type := mkResponseFormat {
  rf_type : string;
  rf_json_schema : option JsonSchemaDefinition;
}.

Record ResponsesTextFormat : Type := mkTextFormat {
  tf_type : string;
  tf_name : option string;
  tf_description : option string;
  tf_schema : option Value;
  tf_strict : bool;
}.

Record ResponsesTextConfig : Type := mkTextConfig { tc_format : ResponsesTextFormat }.

Record FunctionTool : Type := mkFunctionTool {
  ft_name : string;
  ft_description : option string;
  ft_parameters : Value;
  ft_strict : bool;
}.

(** A definition with its function inside, and one with its fields beside the type. *)
Inductive ToolDefinition : Type :=
| Nested (type : string) (function : FunctionTool)
| Flat (type name : string) (description : option string) (parameters : Value) (strict : bool).

Record ImageUrlPart : Type := mkImageUrl { iu_url : string }.

Inductive ContentPart : Type := TextPart (text : string) | ImagePart (image_url : ImageUrlPart).

Inductive ChatContent : Type := ChatText (text : string) | ChatParts (parts : list ContentPart).

Record ChatMessage : Type := mkChatMessage { cm_role : string; cm_content : ChatContent }.

Definition default_user_role : string := "user".

Record ChatRequest : Type := mkChatRequest {
  ch_model : string;
  ch_messages : list ChatMessage;
  ch_max_tokens : option N;
  ch_stream : bool;
  ch_context_id : option string;
  ch_stop : option StopInput;
  ch_deadline_ms : option N;
  ch_raw_continuation : bool;
  ch_top_p : option N;
  ch_temperature : option N;
  ch_seed : option N;
  ch_compaction : option CompactionRequest;
  ch_tools : list ToolDefinition;
  ch_response_format : option ResponseFormat;
  ch_reasoning_effort : option ReasoningEffort;
  ch_stream_options : option StreamOptions;
}.

Inductive ResponsesContentPart : Type :=
| InputText (text : string)
| OutputText (text : string)
| InputImage (image_url : string) (detail : option string).

Inductive ResponsesContent : Type := ContentText (text : string) | ContentParts (parts : list ResponsesContentPart).

Inductive ResponsesInputItem : Type :=
| ItemMessage (role : string) (content : ResponsesContent)
| ItemFunctionCallOutput (call_id output : string)
| ItemFunctionCall (call_id name arguments : string).

Inductive ResponsesInput : Type := InputString (text : string) | InputItems (items : list ResponsesInputItem).

Inductive ResponsesToolChoiceMode : Type := ChoiceAuto | ChoiceNone | ChoiceRequired.

Inductive ResponsesToolChoice : Type :=
| ChoiceMode (mode : ResponsesToolChoiceMode)
| ChoiceFunction (type name : string).

Record ResponsesRequest : Type := mkResponsesRequest {
  rq_model : string;
  rq_input : ResponsesInput;
  rq_store : bool;
  rq_previous_response_id : option string;
  rq_max_output_tokens : option N;
  rq_compaction : option CompactionRequest;
  rq_stream : bool;
  rq_temperature : option N;
  rq_top_p : option N;
  rq_seed : option N;
  rq_tools : list ToolDefinition;
  rq_response_format : option ResponseFormat;
  rq_text : option ResponsesTextConfig;
  rq_reasoning_effort : option ReasoningEffort;
  rq_tool_choice : option ResponsesToolChoice;
}.

Record OllamaModelRequest : Type := mkOllamaModel { om_model : option string; om_name : option string }.

Record OllamaCopyRequest : Type := mkOllamaCopy { oc_source : string; oc_destination : string }.

Record OllamaPullRequest : Type := mkOllamaPull {
  op_name : option string;
  op_model : option string;
  op_sha256 : option string;
  op_insecure : bool;
  op_stream : bool;
}.

(** ** Checks *)

Definition bad_request {A} (message : string) : result ServerError.Error A := Err (ServerError.BadRequest message).

Definition valid_function (tool : ToolDefinition) : bool :=
  match tool with
  | Nested type function =>
      String.eqb type "function" && negb (String.eqb (ft_name function) "") && is_object (ft_parameters function)
  | Flat type name _ parameters _ =>
      String.eqb type "function" && negb (String.eqb name "") && is_object parameters
  end.

Definition tool_name (tool : ToolDefinition) : string :=
  match tool with Nested _ function => ft_name function | Flat _ name _ _ _ => name end.

Definition tool_names (tools : list ToolDefinition) : list string := tool_name <$> tools.

Definition bad_temperature (value : N) : bool :=
  negb (is_finite value) || negb (f32_le F32_ZERO value && f32_le value F32_TWO).

Definition bad_top_p (value : N) : bool :=
  negb (is_finite value) || f32_le value F32_ZERO || f32_lt F32_ONE value.

Definition is_some_and {A} (p : A → bool) (o : option A) : bool := match o with Some a => p a | None => false end.

Definition known_format (type : string) : bool :=
  existsb (String.eqb type) ["text"; "json_object"; "json_schema"].

Definition reasons (effort : ReasoningEffort) : bool := match effort with EffortNone => false | _ => true end.

Definition validate_controls (temperature top_p : option N) (tools : list ToolDefinition)
    (response_format : option ResponseFormat) (reasoning : option ReasoningEffort)
  : result ServerError.Error unit :=
  if is_some_and bad_temperature temperature then
    bad_request "temperature must be finite and between 0 and 2"
  else if is_some_and bad_top_p top_p then
    bad_request "top_p must be finite, greater than 0, and at most 1"
  else if existsb (λ tool, negb (valid_function tool)) tools then
    bad_request "invalid function tool definition"
  else if is_some_and (λ format, negb (known_format (rf_type format))) response_format then
    bad_request "unsupported response_format type"
  else if is_some_and reasons reasoning then
    bad_request "unsupported_capability: selected model does not advertise reasoning levels"
  else Ok tt.

Definition default_temperature : N := F32_ONE.

Definition default_top_p : N := F32_ONE.

Definition sampling_config (temperature top_p seed : option N) : result ServerError.Error SamplingConfig :=
  match seed with
  | Some s =>
      if (u32_max <? s)%N then bad_request "seed must be at most 4294967295"
      else Ok (mkSampling (default default_temperature temperature) (default default_top_p top_p) s)
  | None => Ok (mkSampling (default default_temperature temperature) (default default_top_p top_p) u32_max)
  end.

Section grammars.
Variable to_string : Value → string.
Variable jsonschema_compile : Value → result string unit.

(** [schema_grammar] and [finish_schema_grammar], with the error as the client sees it. *)
Definition finished_grammar {S} (schema : Value) : M S ServerError.Error (option string) := λ s,
  match schema_grammar to_string jsonschema_compile schema s with
  | Done grammar s => Done (Some (finish_schema_grammar grammar)) s
  | Fail e s => Fail (ServerError.BadRequest (error_message e)) s
  | Panic => Panic
  end.

Definition response_format_grammar {S} (format : option ResponseFormat) : M S ServerError.Error (option string) :=
  match format with
  | None => mret None
  | Some format =>
      if String.eqb (rf_type format) "text" then mret None
      else if String.eqb (rf_type format) "json_object" then mret (Some json_grammar)
      else if String.eqb (rf_type format) "json_schema" then
        definition ← ok_or (rf_json_schema format)
          (ServerError.BadRequest "response_format.json_schema is required");
        finished_grammar (js_schema definition)
      else throw (ServerError.BadRequest "unsupported response_format type")
  end.

Definition empty_name (name : option string) : bool := match name with Some n => String.eqb n "" | None => true end.

Definition responses_text_grammar {S} (text : option ResponsesTextConfig) : M S ServerError.Error (option string) :=
  match tc_format <$> text with
  | None => mret None
  | Some format =>
      if String.eqb (tf_type format) "text" then mret None
      else if String.eqb (tf_type format) "json_object" then mret (Some json_grammar)
      else if String.eqb (tf_type format) "json_schema" then
        schema ← ok_or (tf_schema format) (ServerError.BadRequest "text.format.schema is required");
        _ ← guard_not (empty_name (tf_name format))
              (ServerError.BadRequest "text.format.name is required for json_schema");
        finished_grammar schema
      else throw (ServerError.BadRequest "unsupported text.format type")
  end.
End grammars.

(** *** The choice of a tool *)

(** [Deserialize] of a tool choice. *)
Definition parse_tool_choice (value : Value) : result string ResponsesToolChoice :=
  match value with
  | VString mode =>
      if String.eqb mode "auto" then Ok (ChoiceMode ChoiceAuto)
      else if String.eqb mode "none" then Ok (ChoiceMode ChoiceNone)
      else if String.eqb mode "required" then Ok (ChoiceMode ChoiceRequired)
      else Err ("unsupported tool_choice mode `" +:+ mode
                +:+ "`; supported modes are `auto`, `none`, and `required`")
  | Object fields =>
      match field "type" fields ≫= as_str with
      | None => Err "tool_choice object requires a string `type` field"
      | Some type =>
          let fields := remove_field "type" fields in
          match field "name" fields ≫= as_str with
          | None => Err "tool_choice object requires a string `name` field"
          | Some name =>
              match remove_field "name" fields with
              | [] => Ok (ChoiceFunction type name)
              | (unknown, _) :: _ => Err ("tool_choice object contains unsupported field `" +:+ unknown +:+ "`")
              end
          end
      end
  | _ => Err "tool_choice must be `auto`, `none`, `required`, or a function choice object"
  end.

(** [Serialize] of a tool choice. *)
Definition tool_choice_value (choice : ResponsesToolChoice) : Value :=
  match choice with
  | ChoiceMode ChoiceAuto => VString "auto"
  | ChoiceMode ChoiceNone => VString "none"
  | ChoiceMode ChoiceRequired => VString "required"
  | ChoiceFunction type name => Object [("type", VString type); ("name", VString name)]
  end.

Definition opt_string (o : option string) : Value := match o with Some s => VString s | None => Null end.

(** [serde_json::to_value] of a tool definition. *)
Definition tool_value (tool : ToolDefinition) : Value :=
  match tool with
  | Nested type function =>
      Object [("type", VString type);
              ("function", Object [("name", VString (ft_name function)); ("description", opt_string (ft_description function));
                                   ("parameters", ft_parameters function); ("strict", Bool (ft_strict function))])]
  | Flat type name description parameters strict =>
      Object [("type", VString type); ("name", VString name); ("description", opt_string description);
              ("parameters", parameters); ("strict", Bool strict)]
  end.

Definition validate_tool_choice (choice : ResponsesToolChoice) (tools : list ToolDefinition)
  : result ServerError.Error unit :=
  match choice with
  | ChoiceMode ChoiceAuto | ChoiceMode ChoiceNone => Ok tt
  | ChoiceMode ChoiceRequired =>
      match tools with
      | [] => bad_request "tool_choice `required` requires at least one tool"
      | _ => Ok tt
      end
  | ChoiceFunction type name =>
      if negb (String.eqb type "function") then
        bad_request ("unsupported tool_choice type `" +:+ type +:+ "`; only `function` is supported")
      else if String.eqb name "" then bad_request "tool_choice function name must not be empty"
      else if existsb (String.eqb name) (tool_names tools) then Ok tt
      else bad_request ("tool_choice references undeclared function `" +:+ name +:+ "`")
  end.

(** *** Names of models *)

(** The first name decides where both are given: they are equal then. *)
Definition model_name (model name : option string) : result ServerError.Error string :=
  match model, name with
  | Some m, Some n =>
      if negb (String.eqb m n) then bad_request "`model` and `name` must identify the same model"
      else if String.eqb m "" then bad_request "one of `model` or `name` is required" else Ok m
  | Some m, None | None, Some m =>
      if String.eqb m "" then bad_request "one of `model` or `name` is required" else Ok m
  | None, None => bad_request "one of `model` or `name` is required"
  end.

(** The same for a pull, with the names in its messages swapped. *)
Definition pull_name (name model : option string) : result ServerError.Error string :=
  match name, model with
  | Some n, Some m =>
      if negb (String.eqb n m) then bad_request "`name` and `model` must identify the same model"
      else if String.eqb n "" then bad_request "one of `name` or `model` is required" else Ok n
  | Some n, None | None, Some n =>
      if String.eqb n "" then bad_request "one of `name` or `model` is required" else Ok n
  | None, None => bad_request "one of `name` or `model` is required"
  end.

(** ** The values that are accepted *)

(** A pattern of 32 bits is its sign, exponent and fraction. *)
Lemma f32_parts bits : (bits < 2 ^ 32)%N →
  ∃ exponent fraction, (exponent < 2 ^ 8)%N ∧ (fraction < 2 ^ 23)%N
    ∧ ((bits / 2 ^ 23) mod 2 ^ 8 = exponent)%N ∧ (bits mod 2 ^ 23 = fraction)%N
    ∧ (bits = (if N.testbit bits 31 then 2 ^ 31 else 0) + exponent * 2 ^ 23 + fraction)%N.
Proof.
  intros Hb. exists ((bits / 2 ^ 23) mod 2 ^ 8)%N, (bits mod 2 ^ 23)%N.
  split_and!; [apply N.mod_lt; done|apply N.mod_lt; done|done..|].
  pose proof (N.div_mod bits (2 ^ 23) ltac:(done)) as H1.
  pose proof (N.div_mod (bits / 2 ^ 23) (2 ^ 8) ltac:(done)) as H2.
  assert (bits / 2 ^ 23 / 2 ^ 8 = if N.testbit bits 31 then 1 else 0)%N as H3.
  { rewrite N.Div0.div_div. change (2 ^ 23 * 2 ^ 8)%N with (2 ^ 31)%N.
    rewrite N.testbit_eqb. assert (bits / 2 ^ 31 < 2)%N as Hlt.
    { apply N.Div0.div_lt_upper_bound. change (2 ^ 31 * 2)%N with (2 ^ 32)%N. done. }
    revert Hlt. generalize (bits / 2 ^ 31)%N. intros [|[]] Hlt; [done|lia|lia|done]. }
  rewrite H3 in H2. change (2 ^ 23)%N with 8388608%N in *. change (2 ^ 8)%N with 256%N in *.
  destruct (N.testbit bits 31); lia.
Qed.

Lemma f32_two : f32 F32_TWO = S754_finite false 8388608 (-22).
Proof. reflexivity. Qed.

Lemma f32_one : f32 F32_ONE = S754_finite false 8388608 (-23).
Proof. reflexivity. Qed.

(** The power of two whose bits are [k * 2 ^ 23], a positive normal number. *)
Definition power (k : N) : spec_float := S754_finite false 8388608 (Z.of_N k - 150).

(** Positive numbers compare by their exponents, then by their fractions. *)
Lemma SFcompare_fraction m m' e :
  SFcompare (S754_finite false m e) (S754_finite false m' e) = Some (m ?= m')%positive.
Proof. cbn [SFcompare]. by rewrite Z.compare_refl. Qed.

Lemma SFcompare_exponent m m' e e' :
  (e < e')%Z → SFcompare (S754_finite false m e) (S754_finite false m' e') = Some Lt
             ∧ SFcompare (S754_finite false m' e') (S754_finite false m e) = Some Gt.
Proof.
  intros He. cbn [SFcompare].
  by rewrite (proj2 (Z.compare_lt_iff e e')), (proj2 (Z.compare_gt_iff e' e)) by done.
Qed.

(** Numbers that are not negative compare as their bits do. *)
Lemma f32_compare bits k :
  (bits < 2 ^ 32)%N → N.testbit bits 31 = false → is_finite bits = true → (1 < k < 255)%N →
  SFcompare (f32 bits) (power k) = Some (bits ?= k * 2 ^ 23)%N
  ∧ SFcompare (power k) (f32 bits) = Some (k * 2 ^ 23 ?= bits)%N.
Proof.
  intros Hb Hs Hfin Hk. destruct (f32_parts bits Hb) as (exponent & fraction & He & Hf & Hexp & Hfrac & Hbits).
  unfold is_finite, f32 in *. rewrite Hexp, Hfrac, Hs in *. unfold power.
  change (2 ^ 23)%N with 8388608%N in *. cbn [negb] in Hbits.
  assert ((bits < k * 8388608)%N → (bits ?= k * 8388608)%N = Lt ∧ (k * 8388608 ?= bits)%N = Gt) as Hless.
  { intros Hl. split; [by apply N.compare_lt_iff|by apply N.compare_gt_iff]. }
  assert ((k * 8388608 < bits)%N → (bits ?= k * 8388608)%N = Gt ∧ (k * 8388608 ?= bits)%N = Lt) as Hmore.
  { intros Hl. split; [by apply N.compare_gt_iff|by apply N.compare_lt_iff]. }
  destruct (N.eqb_spec exponent 0) as [->|He0].
  { destruct Hless as [-> ->]; [lia|]. destruct fraction as [|m]; [done|]. apply SFcompare_exponent. lia. }
  destruct (N.eqb_spec exponent 255) as [->|_]; [by destruct fraction|].
  destruct (fraction + 8388608)%N as [|m] eqn:Hm; [lia|].
  destruct (Z.lt_total (Z.of_N exponent - 150) (Z.of_N k - 150)) as [Hlt|[Heq|Hgt]].
  - destruct Hless as [-> ->]; [lia|]. by apply SFcompare_exponent.
  - rewrite Heq, !SFcompare_fraction. assert (exponent = k) as -> by lia.
    destruct (N.eqb_spec fraction 0) as [->|Hne].
    + assert (m = 8388608%positive) as -> by lia. assert (bits = (k * 8388608)%N) as -> by lia.
      by rewrite Pos.compare_refl, N.compare_refl.
    + assert (8388608 < m)%positive as Hm' by lia. destruct Hmore as [-> ->]; [lia|].
      by rewrite (proj2 (Pos.compare_gt_iff m 8388608)), (proj2 (Pos.compare_lt_iff 8388608 m)).
  - destruct Hmore as [-> ->]; [lia|]. destruct (SFcompare_exponent 8388608 m _ _ Hgt) as [-> ->]. done.
Qed.

(** Below zero, and zero itself. *)
Lemma f32_negative bits : (bits < 2 ^ 32)%N → N.testbit bits 31 = true → is_finite bits = true →
  f32_le bits F32_ZERO = true ∧ f32_le F32_ZERO bits = (bits =? 2 ^ 31)%N.
Proof.
  intros Hb Hs Hfin. destruct (f32_parts bits Hb) as (exponent & fraction & He & Hf & Hexp & Hfrac & Hbits).
  unfold f32_le, is_finite in *. change (f32 F32_ZERO) with (S754_zero false).
  unfold f32 in *. rewrite Hexp, Hfrac, Hs in *.
  change (2 ^ 23)%N with 8388608%N in *. change (2 ^ 31)%N with 2147483648%N in *.
  destruct (N.eqb_spec exponent 0) as [->|He0].
  { destruct fraction as [|m]; [by rewrite Hbits|]. split; [done|]. symmetry. apply N.eqb_neq. lia. }
  destruct (N.eqb_spec exponent 255) as [->|_]; [by destruct fraction|].
  destruct (fraction + 8388608)%N as [|m] eqn:Hm; [lia|]. split; [done|]. symmetry. apply N.eqb_neq. lia.
Qed.

Lemma f32_positive bits : (bits < 2 ^ 32)%N → N.testbit bits 31 = false → is_finite bits = true →
  f32_le F32_ZERO bits = true ∧ f32_le bits F32_ZERO = (bits =? 0)%N.
Proof.
  intros Hb Hs Hfin. destruct (f32_parts bits Hb) as (exponent & fraction & He & Hf & Hexp & Hfrac & Hbits).
  unfold f32_le, is_finite in *. change (f32 F32_ZERO) with (S754_zero false).
  unfold f32 in *. rewrite Hexp, Hfrac, Hs in *. change (2 ^ 23)%N with 8388608%N in *.
  destruct (N.eqb_spec exponent 0) as [->|He0].
  { destruct fraction as [|m]; [by rewrite Hbits|]. split; [done|]. symmetry. apply N.eqb_neq. lia. }
  destruct (N.eqb_spec exponent 255) as [->|_]; [by destruct fraction|].
  destruct (fraction + 8388608)%N as [|m] eqn:Hm; [lia|]. split; [done|]. symmetry. apply N.eqb_neq. lia.
Qed.

Lemma f32_sign bits : (bits < 2 ^ 32)%N → N.testbit bits 31 = (2 ^ 31 <=? bits)%N.
Proof.
  intros Hb. destruct (f32_parts bits Hb) as (exponent & fraction & He & Hf & _ & _ & Hbits).
  change (2 ^ 23)%N with 8388608%N in *. change (2 ^ 31)%N with 2147483648%N in *. change (2 ^ 8)%N with 256%N in *.
  destruct (N.testbit bits 31); symmetry; [apply N.leb_le|apply N.leb_gt]; lia.
Qed.

(** An infinity or a value that is no number, without its sign, is above all numbers. *)
Lemma f32_infinite bits : (bits < 2 ^ 32)%N → N.testbit bits 31 = false → is_finite bits = false → (2139095040 ≤ bits)%N.
Proof.
  intros Hb Hs Hfin. destruct (f32_parts bits Hb) as (exponent & fraction & He & Hf & Hexp & Hfrac & Hbits).
  unfold is_finite, f32 in Hfin. rewrite Hexp, Hfrac, Hs in *. change (2 ^ 23)%N with 8388608%N in *.
  destruct (N.eqb_spec exponent 0) as [->|He0]; [by destruct fraction|].
  destruct (N.eqb_spec exponent 255) as [->|_]; [lia|].
  by destruct (fraction + 8388608)%N as [|m] eqn:Hm; [lia|].
Qed.

Lemma temperature_accepted bits : (bits < 2 ^ 32)%N →
  bad_temperature bits = false ↔ (bits ≤ F32_TWO ∨ bits = 2 ^ 31)%N.
Proof.
  intros Hb. unfold bad_temperature. pose proof (f32_sign bits Hb) as Hsign. unfold F32_TWO.
  destruct (N.testbit bits 31) eqn:Hs; symmetry in Hsign; [apply N.leb_le in Hsign|apply N.leb_gt in Hsign].
  all: change (2 ^ 31)%N with 2147483648%N in *; destruct (is_finite bits) eqn:Hfin; cbn [negb orb].
  - destruct (f32_negative bits Hb Hs Hfin) as [_ ->]. rewrite negb_false_iff, andb_true_iff, N.eqb_eq.
    split; [intros [? _]; by right|]. intros [?| ->]; [lia|]. by vm_compute.
  - split; [done|]. intros [?| ->]; [lia|]. by vm_compute in Hfin.
  - destruct (f32_positive bits Hb Hs Hfin) as [-> _]. destruct (f32_compare bits 128 Hb Hs Hfin ltac:(done)) as [Hc _].
    unfold f32_le, SFleb. change (f32 1073741824) with (power 128). rewrite Hc. cbn [andb].
    change (128 * 2 ^ 23)%N with 1073741824%N.
    destruct (N.compare_spec bits 1073741824); cbn; split; try done; try lia.
  - pose proof (f32_infinite bits Hb Hs Hfin). split; [done|]. lia.
Qed.

Lemma top_p_accepted bits : (bits < 2 ^ 32)%N → bad_top_p bits = false ↔ (0 < bits ≤ F32_ONE)%N.
Proof.
  intros Hb. unfold bad_top_p. pose proof (f32_sign bits Hb) as Hsign. unfold F32_ONE.
  destruct (N.testbit bits 31) eqn:Hs; symmetry in Hsign; [apply N.leb_le in Hsign|apply N.leb_gt in Hsign].
  all: change (2 ^ 31)%N with 2147483648%N in *; destruct (is_finite bits) eqn:Hfin; cbn [negb orb].
  - destruct (f32_negative bits Hb Hs Hfin) as [-> _]. split; [done|]. lia.
  - split; [done|]. lia.
  - destruct (f32_positive bits Hb Hs Hfin) as [_ ->]. destruct (f32_compare bits 127 Hb Hs Hfin ltac:(done)) as [_ Hc].
    unfold f32_lt, SFltb. change (f32 1065353216) with (power 127). rewrite Hc.
    change (127 * 2 ^ 23)%N with 1065353216%N.
    destruct (N.eqb_spec bits 0) as [->|Hz]; [split; [done|lia]|].
    destruct (N.compare_spec 1065353216 bits); cbn; split; try done; try lia.
  - pose proof (f32_infinite bits Hb Hs Hfin). split; [done|]. lia.
Qed.

(** A choice that is printed parses as itself. *)
Lemma tool_choice_roundtrip choice : parse_tool_choice (tool_choice_value choice) = Ok choice.
Proof. by destruct choice as [[]|]. Qed.

(** A choice that is accepted can be followed: the tool it asks for is declared. *)
Lemma validate_tool_choice_ok choice tools : validate_tool_choice choice tools = Ok tt →
  match choice with
  | ChoiceMode ChoiceRequired => tools ≠ []
  | ChoiceFunction type name => type = "function" ∧ name ∈ tool_names tools
  | _ => True
  end.
Proof.
  destruct choice as [[]|type name]; cbn; [done..|by destruct tools|].
  destruct (String.eqb_spec type "function") as [->|]; [|done]. cbn [negb].
  destruct (String.eqb name ""); [done|]. destruct (existsb _ _) eqn:He; [|done].
  intros _. split; [done|]. apply existsb_exists in He as (n & Hin & ->%String.eqb_eq).
  by apply list_elem_of_In.
Qed.

(** The parameters that pass are those the sampler is made for. *)
Lemma controls_accepted temperature top_p seed tools format reasoning sampling :
  validate_controls temperature top_p tools format reasoning = Ok tt →
  sampling_config temperature top_p seed = Ok sampling →
  (∀ t, temperature = Some t → t < 2 ^ 32)%N → (∀ p, top_p = Some p → p < 2 ^ 32)%N →
  (sg_temperature sampling ≤ F32_TWO ∨ sg_temperature sampling = 2 ^ 31)%N
  ∧ (0 < sg_top_p sampling ≤ F32_ONE)%N ∧ (sg_seed sampling ≤ u32_max)%N
  ∧ Forall (λ tool, valid_function tool = true) tools.
Proof.
  unfold validate_controls, sampling_config. intros Hc Hs Ht Hp.
  destruct (is_some_and bad_temperature temperature) eqn:Htemp; [done|].
  destruct (is_some_and bad_top_p top_p) eqn:Htop; [done|].
  destruct (existsb _ tools) eqn:Htools; [done|].
  assert (sg_temperature sampling = default default_temperature temperature
          ∧ sg_top_p sampling = default default_top_p top_p ∧ sg_seed sampling ≤ u32_max)%N as (-> & -> & Hseed).
  { destruct seed as [s|]; [|by simplify_eq]. destruct (N.ltb_spec u32_max s); [done|]. by simplify_eq. }
  split; [|split; [|split; [done|]]].
  - destruct temperature as [t|]; [|left; by vm_compute]. apply temperature_accepted; [by apply Ht|done].
  - destruct top_p as [p|]; [|cbn; unfold default_top_p, F32_ONE; lia]. apply top_p_accepted; [by apply Hp|done].
  - apply list.Forall_forall. intros tool Hin. destruct (valid_function tool) eqn:Hv; [done|].
    assert (existsb (λ tool, negb (valid_function tool)) tools = true) as Hbad; [|congruence].
    apply existsb_exists. exists tool. rewrite <- list_elem_of_In, Hv. done.
Qed.
