(* ===== verification/Lowering.v ===== *)
(** From requests to prompts and back ([crates/server/src/lib.rs]): messages are
    lowered to the model's chat template, the items of a responses request after
    those of its predecessors, tools are described at the end of the last message,
    and a generated text is read as a call of one of them.

    The stored responses are read through the service of [ResponseStore]; before each
    read other requests may act on it, and [wk_others] holds what they do. Parsing and
    printing JSON, and printing the tool definitions, are parameters. *)

From stdpp Require Import gmap strings list numbers.
From Stdlib Require Import Lia.
From S2P Require Import Prelude Json Engine Text Config Vision Prompt Responses ResponseStore.
From S2P Require Import Structured Inference Requests.

(** ** Text *)

Definition trim_end (t : text) : text := rev (trim_start (rev t)).

(** [s.trim()] *)
Definition trim (s : string) : string := string_of (trim_end (trim_start (text_of s))).

(** ** State *)

Record Walk (Content : Type) : Type := mkWalk {
  wk_service : ResponseService Content;
  wk_others : list (ResponseService Content → ResponseService Content);
}.

Arguments mkWalk {Content}.
Arguments wk_service {Content}.
Arguments wk_others {Content}.

(** What a request has become so far: the prompt, the ledger of its input, the calls
    it contains and the messages that are not rendered yet. *)
Record Lowered : Type := mkLowered {
  lo_prompt : string;
  lo_ledger : list ResponseInputItem;
  lo_calls : list string;
  lo_pending : list ChatMessage;
}.

Section lowering.
Context {Content : Type}.
Variable store_display : StoreError → string.
(** [serde_json::from_str] and [Display] of a value, and [to_string] of the tools. *)
Variable parse_json : string → option Value.
Variable show : Value → string.
Variable tools_json : list ToolDefinition → string.
Variable base64_decode : string → option bytes.
Variable guess_format : bytes → option ImageFormat.
Variable decode_header : ImageFormat → bytes → option (N * N * bool).
Variable gif_frames : bytes → option nat.
Variable sha256_hex : bytes → string.
Variable vision : VisionConfig.

Abbreviation W := (M (Walk Content) ServerError.Error).

Definition bad {S A} (message : string) : M S ServerError.Error A := throw (ServerError.BadRequest message).

(** ** Messages *)

Definition known_role (role : string) : bool := existsb (String.eqb role) ["system"; "user"; "assistant"].

(** An image is admitted only to be refused: it ends the call, so the cache of the
    call's own admission is still empty when it is used. *)
Definition refuse_image {S A} (role url : string) : M S ServerError.Error A :=
  if negb (String.eqb role "user") then bad "images are accepted only in user messages"
  else match admit_data_uri base64_decode guess_format decode_header gif_frames sha256_hex vision url empty_cache with
    | Done _ _ => bad "image_unsupported: selected model has no compatible vision projector"
    | Fail e _ => bad (vision_message e)
    | Panic => panic
    end.

Fixpoint parts_text {S} (role : string) (parts : list ContentPart) (t : string) : M S ServerError.Error string :=
  match parts with
  | [] => mret t
  | TextPart part :: parts' => parts_text role parts' (t +:+ part)
  | ImagePart image_url :: _ => refuse_image role (iu_url image_url)
  end.

Definition lower_message {S} (m : ChatMessage) : M S ServerError.Error Message :=
  if negb (known_role (cm_role m)) then bad ("unsupported message role " +:+ cm_role m)
  else
    content ← match cm_content m with
              | ChatText t => mret t
              | ChatParts parts => parts_text (cm_role m) parts ""
              end;
    mret (mkMsg (cm_role m) content).

Definition lower_messages {S} (family : string) (messages : list ChatMessage) : M S ServerError.Error string :=
  normalized ← map_M lower_message messages;
  lift_result (apply_chat_template family normalized).

(** The pending messages are taken. *)
Definition flush_response_messages {S} (family prompt : string) (messages : list ChatMessage)
  : M S ServerError.Error string :=
  match messages with
  | [] => mret prompt
  | _ =>
      rendered ← lower_messages family messages;
      lift_result (append_rendered family prompt rendered)
  end.

(** ** Stored responses *)

Definition walk_retrieve (id owner : string) : W ResponseResource := λ s,
  let '(service, others) :=
    match wk_others s with act :: rest => (act (wk_service s), rest) | [] => (wk_service s, []) end in
  match map_err store_display (retrieve id owner) service with
  | Done r service => Done r (mkWalk service others)
  | Fail e service => Fail e (mkWalk service others)
  | Panic => Panic
  end.

(** A call as the model writes it. *)
Definition call_text (name arguments : string) : string :=
  show (Object [("name", VString name); ("arguments", default (VString arguments) (parse_json arguments))]).

Definition result_text (call_id output : string) : string := "Tool result for " +:+ call_id +:+ ": " +:+ output.

Definition input_message (item : ResponseInputItem) : Message :=
  match item with
  | IMessage role text => mkMsg role text
  | IFunctionCall _ name arguments => mkMsg "assistant" (call_text name arguments)
  | IFunctionCallOutput call_id output => mkMsg "user" (result_text call_id output)
  end.

Definition output_message (item : ResponseOutputItem) : Message :=
  match item with
  | OMessage m => mkMsg "assistant" (String.concat "" (rp_text <$> rm_content m))
  | OFunctionCall call => mkMsg "assistant" (call_text (rf_name call) (rf_arguments call))
  end.

Definition resource_messages (r : ResponseResource) : list Message :=
  (input_message <$> rr_input r) ++ (output_message <$> rr_output r).

(** The content of a message with that of the next one of the same role. *)
Definition join_content (a b : string) : string :=
  if String.eqb a "" || String.eqb b "" then a +:+ b else a +:+ newline +:+ b.

(** Pushing a message, the last one first. *)
Definition push_message (normalized : list Message) (m : Message) : list Message :=
  match normalized with
  | last :: rest =>
      if String.eqb (msg_role last) (msg_role m)
      then mkMsg (msg_role last) (join_content (msg_content last) (msg_content m)) :: rest
      else m :: normalized
  | [] => [m]
  end.

Definition normalize_response_messages (messages : list Message) : list Message :=
  rev (foldl push_message [] messages).

Definition LINEAGE_LIMIT : nat := Pos.to_nat 1024.

(** The loop that follows the predecessors, the latest first. *)
Fixpoint collect_lineage (limit : nat) (owner : string) (r : ResponseResource) : W (list ResponseResource) :=
  match limit with
  | 0 => mret []
  | S limit' =>
      match rr_previous_response_id r with
      | None => mret [r]
      | Some id =>
          previous ← walk_retrieve id owner;
          rest ← collect_lineage limit' owner previous;
          mret (r :: rest)
      end
  end.

Definition has_previous (r : ResponseResource) : bool :=
  match rr_previous_response_id r with Some _ => true | None => false end.

Definition lineage_too_long {A} : W A := bad "response lineage exceeds 1024 resources".

Definition response_lineage_prompt (r : ResponseResource) (owner family : string) : W string :=
  lineage ← collect_lineage LINEAGE_LIMIT owner r;
  if is_some_and has_previous (list.last lineage) then lineage_too_long
  else lift_result (apply_chat_template family
         (normalize_response_messages (concat (resource_messages <$> rev lineage)))).

Definition is_call (call_id : string) (item : ResponseOutputItem) : bool :=
  match item with OFunctionCall call => String.eqb (rf_call_id call) call_id | OMessage _ => false end.

Fixpoint search_lineage (limit : nat) (owner call_id : string) (r : ResponseResource) : W bool :=
  match limit with
  | 0 => lineage_too_long
  | S limit' =>
      if existsb (is_call call_id) (rr_output r) then mret true
      else match rr_previous_response_id r with
        | None => mret false
        | Some id => previous ← walk_retrieve id owner; search_lineage limit' owner call_id previous
        end
  end.

Definition lineage_has_call (previous : option string) (owner call_id : string) : W bool :=
  match previous with
  | None => mret false
  | Some id => r ← walk_retrieve id owner; search_lineage LINEAGE_LIMIT owner call_id r
  end.

(** ** The items of a responses request *)

Definition raw_part (part : ResponsesContentPart) : string :=
  match part with InputText t | OutputText t => t | InputImage _ _ => "" end.

Definition raw_text (content : ResponsesContent) : string :=
  match content with
  | ContentText t => t
  | ContentParts parts => String.concat "" (raw_part <$> parts)
  end.

Definition chat_part (part : ResponsesContentPart) : ContentPart :=
  match part with
  | InputText t | OutputText t => TextPart t
  | InputImage url _ => ImagePart (mkImageUrl url)
  end.

Definition chat_content (content : ResponsesContent) : ChatContent :=
  match content with
  | ContentText t => ChatText t
  | ContentParts parts => ChatParts (chat_part <$> parts)
  end.

Definition ledger_item (item : ResponsesInputItem) : ResponseInputItem :=
  match item with
  | ItemMessage role content => IMessage role (raw_text content)
  | ItemFunctionCallOutput call_id output => IFunctionCallOutput call_id output
  | ItemFunctionCall call_id name arguments => IFunctionCall call_id name arguments
  end.

(** One user message, rendered and appended. *)
Definition append_user {S} (family prompt content : string) : M S ServerError.Error string :=
  rendered ← lower_messages family [mkChatMessage "user" (ChatText content)];
  lift_result (append_rendered family prompt rendered).

Definition lower_item (family owner : string) (previous : option string) (item : ResponsesInputItem) (l : Lowered)
  : W Lowered :=
  match item with
  | ItemFunctionCall call_id name arguments =>
      prompt ← flush_response_messages family (lo_prompt l) (lo_pending l);
      prompt ← lift_result (append_assistant_content family prompt (call_text name arguments));
      mret (mkLowered prompt (lo_ledger l ++ [ledger_item item]) (call_id :: lo_calls l) [])
  | ItemMessage role content =>
      mret (mkLowered (lo_prompt l) (lo_ledger l ++ [ledger_item item]) (lo_calls l)
              (lo_pending l ++ [mkChatMessage role (chat_content content)]))
  | ItemFunctionCallOutput call_id output =>
      prompt ← flush_response_messages family (lo_prompt l) (lo_pending l);
      known ← (if existsb (String.eqb call_id) (lo_calls l) then mret true
               else lineage_has_call previous owner call_id);
      _ ← guard_not (negb known)
            (ServerError.BadRequest ("function_call_output references unknown call_id `" +:+ call_id +:+ "`"));
      prompt ← append_user family prompt (result_text call_id output);
      mret (mkLowered prompt (lo_ledger l ++ [ledger_item item]) (lo_calls l) [])
  end.

Fixpoint lower_items (family owner : string) (previous : option string) (items : list ResponsesInputItem) (l : Lowered)
  : W Lowered :=
  match items with
  | [] => mret l
  | item :: items' => l ← lower_item family owner previous item l; lower_items family owner previous items' l
  end.

(** The prompt and the ledger, after what the predecessors have contributed. *)
Definition lower_input (family owner : string) (previous : option string) (prompt : string) (input : ResponsesInput)
  : W (string * list ResponseInputItem) :=
  match input with
  | InputString t =>
      prompt ← append_user family prompt t;
      mret (prompt, [IMessage "user" t])
  | InputItems items =>
      l ← lower_items family owner previous items (mkLowered prompt [] [] []);
      prompt ← flush_response_messages family (lo_prompt l) (lo_pending l);
      mret (prompt, lo_ledger l)
  end.

(** ** Tools *)

Definition chooses_none (choice : option ResponsesToolChoice) : bool :=
  match choice with Some (ChoiceMode ChoiceNone) => true | _ => false end.

Definition choice_sentence (choice : option ResponsesToolChoice) : string :=
  match choice with
  | Some (ChoiceMode ChoiceRequired) => " You must call a tool."
  | Some (ChoiceFunction _ name) => " You must call the `" +:+ name +:+ "` function."
  | _ => ""
  end.

Definition output_sentence (has_tool_output : bool) : string :=
  if has_tool_output then
    " A tool result is already provided above. Use it to answer the user; do not repeat a completed call."
  else "".

Definition tool_instructions (tools : list ToolDefinition) (choice : option ResponsesToolChoice)
    (has_tool_output : bool) : string :=
  newline +:+ newline +:+ "Available tools: " +:+ tools_json tools +:+ newline
  +:+ "When calling a tool, output only JSON in the form {" +:+ quote +:+ "name" +:+ quote +:+ ":" +:+ quote
  +:+ "function_name" +:+ quote +:+ "," +:+ quote +:+ "arguments" +:+ quote +:+ ":{...}}."
  +:+ choice_sentence choice +:+ output_sentence has_tool_output.

Definition append_tool_instructions {S} (family prompt : string) (tools : list ToolDefinition)
    (choice : option ResponsesToolChoice) (has_tool_output : bool) : M S ServerError.Error string :=
  if bool_decide (tools = []) || chooses_none choice then mret prompt
  else lift_result (insert_generation_instructions family prompt (tool_instructions tools choice has_tool_output)).

(** The part of [ResponseRequestOptions] that a call is read with. *)
Record CallOptions : Type := mkCallOptions {
  co_tool_names : list string;
  co_tool_choice : option ResponsesToolChoice;
}.

Definition demands_call (choice : option ResponsesToolChoice) : bool :=
  match choice with Some (ChoiceMode ChoiceRequired) | Some (ChoiceFunction _ _) => true | _ => false end.

(** The call that a generated text is, if it is one. *)
Definition parsed_call (text : string) : option (string * string) :=
  value ← parse_json (trim text);
  object ← as_object value;
  name ← field "name" object ≫= as_str;
  arguments ← field "arguments" object;
  Some (name, match as_str arguments with Some a => a | None => show arguments end).

(** [uuid1] and [uuid2] are the fresh identifiers of the call. *)
Definition parse_function_call (uuid1 uuid2 text : string) (options : CallOptions)
  : result ServerError.Error (option ResponseFunctionCall) :=
  if bool_decide (co_tool_names options = []) || chooses_none (co_tool_choice options) then Ok None
  else
    match parsed_call text with
    | Some (name, arguments) =>
        if negb (existsb (String.eqb name) (co_tool_names options)) then
          if demands_call (co_tool_choice options)
          then bad_request ("model selected undeclared function `" +:+ name +:+ "`") else Ok None
        else
          match co_tool_choice options with
          | Some (ChoiceFunction _ required) =>
              if negb (String.eqb name required) then
                bad_request ("model selected `" +:+ name +:+ "` instead of required function `" +:+ required +:+ "`")
              else Ok (Some (new_function_call uuid1 uuid2 name arguments))
          | _ => Ok (Some (new_function_call uuid1 uuid2 name arguments))
          end
    | None =>
        if demands_call (co_tool_choice options) then bad_request "model did not produce the required function call"
        else Ok None
    end.
End lowering.
