(* ===== verification/LoweringLaws.v ===== *)
(** What lowering promises: the prompt of a request is its conversation, rendered
    once and in order after that of its predecessors; the ledger that is stored
    replays to it; results answer calls that were made; and a generated text becomes
    only a call that the client allows. *)

From stdpp Require Import gmap strings list numbers.
From Stdlib Require Import Lia.
From S2P Require Import Prelude Json Engine Text Config Vision Prompt Responses ResponseStore.
From S2P Require Import Structured Inference Requests Lowering.

(** ** Messages *)






Section laws.
Context {Content : Type}.
Variable store_display : StoreError → string.
Variable parse_json : string → option Value.
Variable show : Value → string.
Variable base64_decode : string → option bytes.
Variable guess_format : bytes → option ImageFormat.
Variable decode_header : ImageFormat → bytes → option (N * N * bool).
Variable gif_frames : bytes → option nat.
Variable sha256_hex : bytes → string.
Variable vision : VisionConfig.

Abbreviation lower_messages := (lower_messages base64_decode guess_format decode_header gif_frames sha256_hex vision).
Abbreviation lower_message := (lower_message base64_decode guess_format decode_header gif_frames sha256_hex vision).
Abbreviation refuse_image := (refuse_image base64_decode guess_format decode_header gif_frames sha256_hex vision).
Abbreviation parts_text := (parts_text base64_decode guess_format decode_header gif_frames sha256_hex vision).
Abbreviation flush := (flush_response_messages base64_decode guess_format decode_header gif_frames sha256_hex vision).
Abbreviation append_user := (append_user base64_decode guess_format decode_header gif_frames sha256_hex vision).
Abbreviation call_text := (call_text parse_json show).
Abbreviation input_message := (input_message parse_json show).





(** ** The prompt of a conversation *)














(** ** Items *)










Abbreviation lower_item := (lower_item store_display parse_json show base64_decode guess_format decode_header gif_frames sha256_hex vision).
Abbreviation lower_items := (lower_items store_display parse_json show base64_decode guess_format decode_header gif_frames sha256_hex vision).





(** ** The whole conversation *)







(** ** Calls of tools *)

(** C15: The client decides which calls a response may be. With a choice that was
    accepted for the declared tools, a generated text becomes a call only of a
    declared tool, of the chosen one where there is one, and never where the client
    wants none; its arguments are those of the text. The request fails, as a bad request,
    exactly where a call is demanded and the text is not one of a declared tool that the
    choice allows. *)
Theorem function_call_policy uuid1 uuid2 text tools choice :
  (∀ c, choice = Some c → validate_tool_choice c tools = Ok tt) →
  match parse_function_call parse_json show uuid1 uuid2 text (mkCallOptions (tool_names tools) choice) with
  | Ok (Some call) =>
      parsed_call parse_json show text = Some (rf_name call, rf_arguments call)
      ∧ rf_name call ∈ tool_names tools ∧ choice ≠ Some (ChoiceMode ChoiceNone)
      ∧ ∀ type name, choice = Some (ChoiceFunction type name) → rf_name call = name
  | Ok None => demands_call choice = false
      ∧ (tools = [] ∨ choice = Some (ChoiceMode ChoiceNone) ∨
         ∀ name arguments, parsed_call parse_json show text = Some (name, arguments) → name ∉ tool_names tools)
  | Err e => demands_call choice = true ∧ (∃ message, e = ServerError.BadRequest message)
      ∧ ∀ name arguments, parsed_call parse_json show text = Some (name, arguments) →
          name ∉ tool_names tools ∨ ∃ type required, choice = Some (ChoiceFunction type required) ∧ name ≠ required
  end.
Proof.
  intros Hvalid. unfold parse_function_call. cbn [co_tool_names co_tool_choice].
  assert (∀ name, existsb (String.eqb name) (tool_names tools) = true ↔ name ∈ tool_names tools) as Hmem.
  { intros name. rewrite existsb_exists, list_elem_of_In. split.
    - by intros (n & Hin & ->%String.eqb_eq).
    - intros Hin. exists name. split; [done|]. by apply String.eqb_eq. }
  assert (tool_names tools = [] → demands_call choice = false) as Hnone.
  { intros Hn. apply fmap_nil_inv in Hn as ->. destruct choice as [c|]; [|done].
    specialize (Hvalid c eq_refl). apply validate_tool_choice_ok in Hvalid.
    destruct c as [[]|type name]; try done. destruct Hvalid as [_ Hin]. by apply list.elem_of_nil in Hin. }
  case_bool_decide as Hempty; cbn [orb].
  { split; [by apply Hnone|]. left. by apply fmap_nil_inv in Hempty. }
  destruct (chooses_none choice) eqn:Hchoice.
  { destruct choice as [[[]|]|]; try done. split; [done|]. right. by left. }
  assert (choice ≠ Some (ChoiceMode ChoiceNone)) as Hnot by by intros ->.
  destruct (parsed_call parse_json show text) as [[name arguments]|].
  - destruct (existsb (String.eqb name) (tool_names tools)) eqn:Hin; cbn [negb].
    + apply Hmem in Hin. destruct choice as [[mode|type required]|]; [by split_and!| |by split_and!].
      destruct (String.eqb_spec name required) as [->|Hne]; cbn [negb].
      * split_and!; [done..|]. by intros ? ? [= _ ->].
      * split; [done|]. split; [by eexists|]. intros n a [= <- <-]. right. by exists type, required.
    + assert (name ∉ tool_names tools) as Hout by (intros Hn%Hmem; congruence).
      destruct (demands_call choice).
      * split; [done|]. split; [by eexists|]. intros n a [= <- <-]. by left.
      * split; [done|]. do 2 right. by intros n a [= <- <-].
  - destruct (demands_call choice); [split; [done|]; split; [by eexists|done]|]. split; [done|]. by do 2 right.
Qed.
End laws.

(** ** Runs *)

Module Demo.





(** Texts of calls are not read here. *)
Definition parse (s : string) : option Value :=
  if String.eqb s "call" then Some (Object [("name", VString "look"); ("arguments", VString "up")]) else None.

Definition print (v : Value) : string := "{..}".





Definition tools : list ToolDefinition := [Flat "function" "look" None (Object []) false].

End Demo.


Lemma function_call_policy_witness :
  ∃ call, parse_function_call Demo.parse Demo.print "1" "2" " call " (mkCallOptions (tool_names Demo.tools) (Some (ChoiceFunction "function" "look"))) = Ok (Some call)
    ∧ parsed_call Demo.parse Demo.print " call " = Some (rf_name call, rf_arguments call).
Proof.
  pose proof (function_call_policy Demo.parse Demo.print "1" "2" " call " Demo.tools (Some (ChoiceFunction "function" "look"))) as H.
  destruct (parse_function_call _ _ _ _ _ _) as [[call|]|e] eqn:Hrun; [|vm_compute in Hrun; discriminate Hrun..].
  exists call. split; [done|]. apply H. by intros c [= <-].
Defined.
