(* ===== verification/Routes.v ===== *)
(** The handlers of the public interfaces ([crates/server/src/lib.rs]): who may call,
    what a body may cost before it is read, the inference that a request becomes, and
    the response it gives, at once or as a stream of rows.

    The state of a handler is what it shares with the others: that of the inference
    ([Inference]), the stored responses ([Lowering]) and the gates. Fresh identifiers,
    the time and what the runtime reports of a wait are arguments. *)

From stdpp Require Import gmap strings list numbers.
From Stdlib Require Import Lia.
From S2P Require Import Prelude Json Engine Gate Admission Contexts Lifecycle ContextStrategy Generation Text.
From S2P Require Import Config Vision Prompt Responses ResponseStore Structured Inference Requests Lowering.

(** ** Principals *)

Inductive Scope : Type := ScopeInference | ScopeAdmin.

Record RequestContext : Type := mkRequestContext {
  rc_principal : string;
  rc_credential : string;
  rc_request_id : string;
  rc_scope : Scope;
}.

Abbreviation HeaderMap := (list (string * string)).

(** [headers.get(name)]: the first value. *)
Fixpoint header (name : string) (headers : HeaderMap) : option string :=
  match headers with
  | [] => None
  | (n, v) :: headers' => if String.eqb n name then Some v else header name headers'
  end.

Inductive AuthProvider : Type := AnonymousAdmin | BearerAuth (token : string).

Definition authenticate (auth : AuthProvider) (headers : HeaderMap) (scope : Scope) (uuid : string)
  : result ServerError.Error RequestContext :=
  match auth with
  | AnonymousAdmin => Ok (mkRequestContext "anonymous-admin" "anonymous" uuid scope)
  | BearerAuth token =>
      if bool_decide (header "authorization" headers = Some ("Bearer " +:+ token))
      then Ok (mkRequestContext "token-user" "bearer" uuid scope)
      else Err ServerError.Unauthorized
  end.

(** A listener without credentials is bound to the loopback unless it is allowed not to be. *)
Definition validate_listener (address : string) (loopback anonymous unsafe_public : bool)
  : result ServerError.Error unit :=
  if anonymous && negb loopback && negb unsafe_public then Err (ServerError.UnsafeListener address) else Ok tt.

(** ** Bodies *)

Definition header_size (headers : HeaderMap) : N :=
  foldl (λ total h, saturating_add (saturating_add total (N.of_nat (String.length h.1))) (N.of_nat (String.length h.2)))
    0%N headers.

(** What reading the body ends with: the time is up, the limit is passed, or its bytes. *)
Inductive BodyOutcome : Type := BodyTimedOut | BodyTooLarge | BodyRead (body : string).

Record PrequeueJson (T : Type) : Type := mkPrequeueJson {
  pq_headers : HeaderMap;
  pq_value : T;
  pq_retained_bytes : N;
}.

Arguments mkPrequeueJson {T}.
Arguments pq_headers {T}.
Arguments pq_value {T}.
Arguments pq_retained_bytes {T}.

Section body.
Context {Sem T : Type} `{!Semaphore Sem}.
(** [serde_json::from_slice] *)
Variable from_slice : string → result string T.

(** [from_request]: [None] while it waits for a permit. The permit is dropped on every
    error, and kept with the value. *)
Definition from_request (config : ServerConfig) (headers : HeaderMap) (body : BodyOutcome) (g : PrequeueGate Sem)
  : option (result ServerError.Error (PrequeueJson T) * PrequeueGate Sem) :=
  if (header_bytes config <? header_size headers)%N then Some (Err ServerError.HeadersTooLarge, g)
  else
    g ← Gate.acquire g;
    Some match body with
    | BodyTimedOut => (Err ServerError.BodyTimeout, drop_permit g)
    | BodyTooLarge => (Err ServerError.PayloadTooLarge, drop_permit g)
    | BodyRead bytes =>
        match from_slice bytes with
        | Ok value => (Ok (mkPrequeueJson headers value (N.of_nat (String.length bytes))), g)
        | Err e => (Err (ServerError.BadRequest e), drop_permit g)
        end
    end.
End body.

(** ** Responses *)

Inductive WireProtocol : Type := PCompletion | PChat | PResponses.

Record ResponseRequestOptions : Type := mkOptions {
  ro_store : bool;
  ro_previous_response_id : option string;
  ro_lineage_revision : N;
  ro_input : list ResponseInputItem;
  ro_tool_names : list string;
  ro_tool_choice : option ResponsesToolChoice;
  ro_tools : list Value;
  ro_tool_choice_value : Value;
}.

Definition call_options (o : ResponseRequestOptions) : CallOptions :=
  mkCallOptions (ro_tool_names o) (ro_tool_choice o).

Definition number_value (n : nat) : Value := Number (N.of_nat n).

Definition compact_reason_value (r : CompactionResultReason) : Value :=
  VString match r with
          | RequestSatisfied => "request_satisfied"
          | AnchorsOnly => "anchors_only"
          | BudgetTrimmed => "budget_trimmed"
          | NoReason => "none"
          end.

(** [Serialize] of a compaction's result. *)
Definition compaction_value (r : CompactionResult) : Value :=
  Object [("compact_mode", VString (compact_mode r)); ("compact_reason", compact_reason_value (compact_reason r));
          ("requested_strategy_ids", Array (VString <$> requested_strategy_ids r));
          ("selected_strategy_id", opt_value VString (selected_strategy_id r));
          ("requested_strategy_budget", number_value (requested_strategy_budget r));
          ("resulting_budget", number_value (resulting_budget r));
          ("retained_indices", Array (number_value <$> retained_indices r));
          ("retained_message_count", number_value (retained_message_count r));
          ("source_message_count", number_value (source_message_count r));
          ("retained_anchor_count", number_value (retained_anchor_count r));
          ("success", Bool (success r)); ("fallback", Bool (fallback r));
          ("resulting_context_epoch", Number (resulting_context_epoch r))].

Section responses.
Context {Content : Type}.
Variable to_json : ResponseResource → Content.
Variable store_display : StoreError → string.
Variable parse_json : string → option Value.
Variable show : Value → string.
(** The quotient of two counts, as a JSON number. *)
Variable ratio : N → N → Value.

Abbreviation U := (M (ResponseService Content) ServerError.Error).

Definition token_usage (u : Usage) : Value :=
  Object [("prompt_tokens", Number (us_input_tokens u)); ("completion_tokens", Number (us_generated_tokens u));
          ("total_tokens", Number (wrapping_add (us_input_tokens u) (us_generated_tokens u)))].

(** *** Rows of a stream *)

Definition choice_value (fields : list (string * Value)) : Value := Array [Object fields].

Definition cusco_ids (correlation_id inference_id execution_session_id : string) : Value :=
  Object [("correlation_id", VString correlation_id); ("inference_id", VString inference_id);
          ("execution_session_id", VString execution_session_id)].

(** The JSON of a row; the rows of the third protocol are its projection's. *)
Definition stream_value (protocol : WireProtocol) (event : StreamEvent) (include_usage : bool) : option Value :=
  match protocol, event with
  | PResponses, _ => None
  | PCompletion, EvToken token _ =>
      Some (Object [("object", VString "text_completion");
                    ("choices", choice_value [("text", VString token); ("index", Number 0); ("finish_reason", Null)])])
  | PChat, EvToken token _ =>
      Some (Object [("object", VString "chat.completion.chunk");
                    ("choices", choice_value [("delta", Object [("content", VString token)]); ("index", Number 0);
                                              ("finish_reason", Null)])])
  | _, EvFinished reason usage =>
      let fields := [("choices", choice_value [("index", Number 0); ("finish_reason", reason_value reason)])] in
      Some (Object (if include_usage then set_field "usage" (token_usage usage) fields else fields))
  | _, EvError message =>
      Some (Object [("error", Object [("message", VString message); ("type", VString "server_error")])])
  | PChat, EvStarted request_id _ correlation_id inference_id execution_session_id =>
      Some (Object [("id", VString request_id); ("object", VString "chat.completion.chunk");
                    ("choices", choice_value [("index", Number 0); ("delta", Object [("role", VString "assistant")]);
                                              ("finish_reason", Null)]);
                    ("cusco", cusco_ids correlation_id inference_id execution_session_id)])
  | PCompletion, EvStarted request_id _ correlation_id inference_id execution_session_id =>
      Some (Object [("id", VString request_id); ("object", VString "text_completion"); ("choices", Array []);
                    ("cusco", cusco_ids correlation_id inference_id execution_session_id)])
  end.

(** The first choice has a reason to have finished. *)
Definition has_finished (v : Value) : bool :=
  match index "choices" v with Array (choice :: _) => negb (is_null (index "finish_reason" choice)) | _ => false end.

Definition DONE_ROW : string := "data: [DONE]" +:+ newline +:+ newline.

Definition stream_row_with_state (protocol : WireProtocol) (event : StreamEvent) (include_usage : bool)
    (p : ResponseProjection) : option (string * ResponseProjection) :=
  match stream_value protocol event include_usage with
  | None => project show event p
  | Some v => Some (if has_finished v then row show v +:+ DONE_ROW else row show v, p)
  end.

(** A stream that is being sent: its projection, and the stored responses. *)
Record Streaming : Type := mkStreaming {
  st_projection : ResponseProjection;
  st_service : ResponseService Content;
}.

Definition error_row (message : string) : string :=
  row show (Object [("type", VString "error"); ("error", Object [("message", VString message)])]).

(** What the end of a generation is before it is projected: it may be a call. *)
Definition recognize_call (uuid1 uuid2 : string) (options : option ResponseRequestOptions) (event : StreamEvent)
    (p : ResponseProjection) : result ServerError.Error ResponseProjection :=
  match event, options with
  | EvFinished _ _, Some options =>
      match parse_function_call parse_json show uuid1 uuid2 (generated_text p) (call_options options) with
      | Ok call => Ok (set_function_call call p)
      | Err e => Err e
      end
  | _, _ => Ok p
  end.

(** The closure of a stream: the row of an event. *)
Definition stream_row (now : N) (uuid1 uuid2 : string) (protocol : WireProtocol) (include_usage : bool)
    (options : option ResponseRequestOptions) (event : StreamEvent) : M Streaming ServerError.Error string := λ s,
  match recognize_call uuid1 uuid2 options event (st_projection s) with
  | Err e => Done (error_row (display e)) s
  | Ok p =>
      match stream_row_with_state protocol event include_usage p with
      | None => Panic
      | Some (text, p) =>
          match completed_resource p with
          | None => Done text (mkStreaming p (st_service s))
          | Some resource =>
              match remember to_json now resource (st_service s) with
              | Done _ service => Done text (mkStreaming p service)
              | Fail e service => Done (error_row (store_display e)) (mkStreaming p service)
              | Panic => Panic
              end
          end
      end
  end.

(** The rows of the events that the receiver gets. *)
Definition stream_rows (now : N) (uuid1 uuid2 : string) (protocol : WireProtocol) (include_usage : bool)
    (options : option ResponseRequestOptions) (events : list StreamEvent) : M Streaming ServerError.Error (list string) :=
  map_M (stream_row now uuid1 uuid2 protocol include_usage options) events.

(** The projection a stream starts with. *)
Definition start_projection (now : N) (model owner : string) (options : option ResponseRequestOptions)
  : ResponseProjection :=
  match options with
  | Some o =>
      stream_projection now (mkStreamResponse model owner (ro_store o) (ro_previous_response_id o) (ro_input o)
        (ro_tools o) (ro_tool_choice_value o) (match ro_tool_names o with [] => false | _ => true end)
        (ro_lineage_revision o))
  | None => new_projection now model
  end.

(** *** A response at once *)

Definition prefill_value (p : PrefillMetrics) : Value :=
  Object [("total_tokens", Number (pf_total_tokens p)); ("cached_tokens", Number (pf_cached_tokens p));
          ("uncached_tokens", Number (pf_uncached_tokens p));
          ("cached_ratio", if (0 <? pf_total_tokens p)%N then ratio (pf_cached_tokens p) (pf_total_tokens p) else Null);
          ("tokenization_ns", Number (pf_tokenization_ns p)); ("prefix_lookup_ns", Number (pf_prefix_lookup_ns p));
          ("mapping_activation_ns", Number (pf_mapping_activation_ns p));
          ("uncached_prefill_ns", Number (pf_uncached_prefill_ns p)); ("total_ns", Number (pf_total_ns p))].

Definition cusco_value (u : Usage) : Value :=
  Object [("compaction_result", opt_value compaction_value (us_compaction_result u));
          ("correlation_id", VString (us_correlation_id u)); ("inference_id", VString (us_inference_id u));
          ("execution_session_id", VString (us_execution_session_id u));
          ("usage", Object [("input_tokens", Number (us_input_tokens u)); ("generated_tokens", Number (us_generated_tokens u));
                            ("evaluated_tokens", Number (us_evaluated_tokens u)); ("cached_tokens", Number (us_cached_tokens u));
                            ("prefill", prefill_value (us_prefill u))])].

(** The parameters of [ResponseService::complete]. *)
Definition complete_parameters (response : InferResponse) (reason : FinishReason) (owner : string)
    (o : ResponseRequestOptions) (call : option ResponseFunctionCall) : CompleteResponse :=
  mkComplete (ir_id response) owner (us_model (ir_usage response)) (string_of (ir_text response)) reason
    (ir_usage response) (ro_store o) (ro_previous_response_id o) (ro_tools o) (ro_tool_choice_value o)
    (ro_lineage_revision o) (ro_input o) call.

Definition completed_response (now : N) (uuid1 uuid2 : string) (protocol : WireProtocol) (response : InferResponse)
    (reason : FinishReason) (owner : string) (options : option ResponseRequestOptions) : U Value :=
  let usage := token_usage (ir_usage response) in
  let cusco := cusco_value (ir_usage response) in
  let text := VString (string_of (ir_text response)) in
  match protocol with
  | PCompletion =>
      mret (Object [("id", VString (ir_id response)); ("object", VString "text_completion");
                    ("choices", choice_value [("text", text); ("index", Number 0); ("finish_reason", reason_value reason)]);
                    ("usage", usage); ("cusco", cusco)])
  | PChat =>
      mret (Object [("id", VString (ir_id response)); ("object", VString "chat.completion");
                    ("choices", choice_value [("message", Object [("role", VString "assistant"); ("content", text)]);
                                              ("index", Number 0); ("finish_reason", reason_value reason)]);
                    ("usage", usage); ("cusco", cusco)])
  | PResponses =>
      options ← expect options;
      call ← lift_result (parse_function_call parse_json show uuid1 uuid2 (string_of (ir_text response)) (call_options options));
      let resource := complete now (complete_parameters response reason owner options call) in
      _ ← map_err store_display (remember to_json now resource);
      mret (match project_resource resource with
            | Object fields => Object (set_field "cusco" cusco fields)
            | v => v
            end)
  end.

(** The reason of the last event that has one. *)
Fixpoint finish_reason (events : list StreamEvent) : option FinishReason :=
  match events with
  | [] => None
  | event :: events' =>
      match finish_reason events' with
      | Some reason => Some reason
      | None => match event with EvFinished reason _ => Some reason | _ => None end
      end
  end.
End responses.
