(* ===== verification/Handlers.v ===== *)
(** The inference handlers of the public interfaces ([crates/server/src/lib.rs]): what
    a request of each protocol becomes, how it waits for its turn, and the response it
    gets, at once or as a stream.

    The state of a handler is what it shares with the other requests: the state of the
    inference ([Inference]), the stored responses ([Lowering]) and the two gates. Before
    each access the others may act. Fresh identifiers, the time and what the runtime
    reports of a wait are arguments. *)

From stdpp Require Import gmap strings list numbers.
From Stdlib Require Import Lia.
From S2P Require Import Prelude Json FairPolicy Engine Diagnostics Scheduler Gate Admission Contexts Lifecycle ContextStrategy Generation Text.
From S2P Require Import Config Vision Prompt Responses ResponseStore Structured Inference Requests Lowering Routes.

(** ** State *)

Record Serving (E C K Content Sem : Type) : Type := mkServing {
  sg_run : Run E C K;
  sg_walk : Walk Content;
  sg_pre_queue : PrequeueGate Sem;
  sg_compaction_workers : PrequeueGate Sem;
  sg_gate_others : list (PrequeueGate Sem * PrequeueGate Sem → PrequeueGate Sem * PrequeueGate Sem);
}.

Arguments mkServing {E C K Content Sem}.
Arguments sg_run {E C K Content Sem}.
Arguments sg_walk {E C K Content Sem}.
Arguments sg_pre_queue {E C K Content Sem}.
Arguments sg_compaction_workers {E C K Content Sem}.
Arguments sg_gate_others {E C K Content Sem}.

Record InferResponseRequest : Type := mkInferResponseRequest {
  iy_model : string;
  iy_prompt : string;
  iy_max_tokens : option N;
  iy_sampling : SamplingConfig;
  iy_grammar : option string;
  iy_compaction : option CompactionRequest;
  iy_include_usage : bool;
  iy_streaming : bool;
  iy_context_id : option string;
  iy_stop : list string;
  iy_raw_continuation : bool;
  iy_deadline_ms : option N;
  iy_retained_bytes : N;
  iy_request_id : string;
  iy_principal : string;
  iy_protocol : WireProtocol;
  iy_responses : option ResponseRequestOptions;
}.

(** What the wait for a turn ends with: a turn, the end of the queue, or the time. *)
Inductive Wait : Type := WaitReady | WaitClosed | WaitTimeout.

(** A stream whose head has been sent: the task that produces the events, the guard and
    the permit it holds, and the projection of its rows. *)
Record PendingStream : Type := mkPending {
  ps_request_id : string;
  ps_request : InferRequest;
  ps_successor_id : string;
  ps_admission : AdmissionGuard;
  ps_started : StreamEvent;
  ps_compaction_permit : bool;
  ps_projection : ResponseProjection;
  ps_protocol : WireProtocol;
  ps_include_usage : bool;
  ps_options : option ResponseRequestOptions;
}.

(** A reply and its [x-request-id]. *)
Inductive Reply : Type :=
| JsonReply (request_id : string) (value : Value)
| StreamReply (request_id : string) (stream : PendingStream).

(** What the environment gives one handler: the fresh identifiers, the address of its
    control, the time, and how its wait ends. *)
Record Fresh : Type := mkFresh {
  fr_inference_id : string;
  fr_context_id : string;
  fr_call_ids : string * string;
  fr_control : N;
  fr_now : N;
  fr_wait : Wait;
}.

Section handlers.
Context {E C T Content Sem : Type} `{!ExecutionSession T, !Semaphore Sem}.
Variable start_session : EngineRequest → Control.RequestControl → E → result ServerError.Error T * E.
Variable model_order : Lifecycle.Lifecycle E C → list ModelRecord.
Variable to_json : ResponseResource → Content.
Variable store_display : StoreError → string.
Variable parse_json : string → option Value.
Variable show : Value → string.
Variable tools_json : list ToolDefinition → string.
Variable base64_decode : string → option bytes.
Variable guess_format : bytes → option ImageFormat.
Variable decode_header : ImageFormat → bytes → option (N * N * bool).
Variable gif_frames : bytes → option nat.
Variable sha256_hex : bytes → string.
Variable jsonschema_compile : Value → result string unit.
Variable ratio : N → N → Value.
Variable vision : VisionConfig.
Variable auth : AuthProvider.

Abbreviation lower_messages :=
  (Lowering.lower_messages base64_decode guess_format decode_header gif_frames sha256_hex vision).
Abbreviation lower_input :=
  (Lowering.lower_input store_display parse_json show base64_decode guess_format decode_header gif_frames sha256_hex
     vision).
Abbreviation response_lineage_prompt := (Lowering.response_lineage_prompt store_display parse_json show).

Abbreviation H K := (M (Serving E C K Content Sem) Interrupt).

(** ** Accesses *)

Definition on_run {K A} (m : M (Run E C K) Interrupt A) : H K A := λ s,
  let back run := mkServing run (sg_walk s) (sg_pre_queue s) (sg_compaction_workers s) (sg_gate_others s) in
  match m (sg_run s) with
  | Done a run => Done a (back run)
  | Fail e run => Fail e (back run)
  | Panic => Panic
  end.

Definition on_walk {K A} (m : M (Walk Content) ServerError.Error A) : H K A := λ s,
  let back walk := mkServing (sg_run s) walk (sg_pre_queue s) (sg_compaction_workers s) (sg_gate_others s) in
  match m (sg_walk s) with
  | Done a walk => Done a (back walk)
  | Fail e walk => Fail (Returned e) (back walk)
  | Panic => Panic
  end.

(** An access of the response service, after what the others do. *)
Definition on_service {A} (m : M (ResponseService Content) ServerError.Error A)
  : M (Walk Content) ServerError.Error A := λ w,
  let '(service, others) :=
    match wk_others w with act :: rest => (act (wk_service w), rest) | [] => (wk_service w, []) end in
  match m service with
  | Done a service => Done a (mkWalk service others)
  | Fail e service => Fail e (mkWalk service others)
  | Panic => Panic
  end.

(** An access of the gates, after what the others do. *)
Definition on_gates {K A} (f : PrequeueGate Sem * PrequeueGate Sem →
    result ServerError.Error A * (PrequeueGate Sem * PrequeueGate Sem)) : H K A := λ s,
  let gates := (sg_pre_queue s, sg_compaction_workers s) in
  let '(gates, others) :=
    match sg_gate_others s with act :: rest => (act gates, rest) | [] => (gates, []) end in
  let '(r, gates) := f gates in
  let s := mkServing (sg_run s) (sg_walk s) gates.1 gates.2 others in
  match r with Ok a => Done a s | Err e => Fail (Returned e) s end.

Definition lifted {K A} (r : result ServerError.Error A) : H K A := on_run (lift r).

(** [m], then what is dropped when it returns. *)
Definition finally {K A} (m : H K A) (release : H K unit) : H K A := λ s,
  match m s with
  | Done a s' => (_ ← release; mret a) s'
  | Fail (Returned e) s' => (_ ← release; throw (Returned e)) s'
  | Fail CutOff s' => Fail CutOff s'
  | Panic => Panic
  end.

Definition drop_pre_queue {K} : H K unit := on_gates (λ gates, (Ok tt, (drop_permit gates.1, gates.2))).

Definition drop_compaction {K} : H K unit := on_gates (λ gates, (Ok tt, (gates.1, drop_permit gates.2))).

Definition server_config {K} : H K ServerConfig := on_run (access (λ sh, config (sh_inner sh))).

Definition instant {K} : H K N := on_run (access sh_instant).

(** ** The requests *)

Definition into_vec_or_empty (stop : option StopInput) : list string :=
  match stop with Some s => into_vec s | None => [] end.

Definition wants_usage (o : option StreamOptions) : bool := is_some_and so_include_usage o.

Definition completion_request {K} (uuid : string) (p : PrequeueJson CompletionRequest) : H K InferResponseRequest :=
  let r := pq_value p in
  request_context ← lifted (authenticate auth (pq_headers p) ScopeInference uuid);
  _ ← lifted (validate_controls (cp_temperature r) (cp_top_p r) [] None None);
  sampling ← lifted (sampling_config (cp_temperature r) (cp_top_p r) (cp_seed r));
  _ ← on_run (find_model model_order (cp_model r));
  mret (mkInferResponseRequest (cp_model r) (cp_prompt r) (cp_max_tokens r) sampling None (cp_compaction r)
          (wants_usage (cp_stream_options r)) (cp_stream r) (cp_context_id r) (into_vec_or_empty (cp_stop r))
          (cp_raw_continuation r) (cp_deadline_ms r) (pq_retained_bytes p) (rc_request_id request_context)
          (rc_principal request_context) PCompletion None).

Definition chat_request {K} (uuid : string) (p : PrequeueJson ChatRequest) : H K InferResponseRequest :=
  let r := pq_value p in
  request_context ← lifted (authenticate auth (pq_headers p) ScopeInference uuid);
  _ ← lifted (validate_controls (ch_temperature r) (ch_top_p r) (ch_tools r) (ch_response_format r)
                (ch_reasoning_effort r));
  sampling ← lifted (sampling_config (ch_temperature r) (ch_top_p r) (ch_seed r));
  grammar ← on_walk (response_format_grammar show jsonschema_compile (ch_response_format r));
  model ← on_run (find_model model_order (ch_model r));
  prompt ← on_walk (lower_messages (mr_family model) (ch_messages r));
  mret (mkInferResponseRequest (ch_model r) prompt (ch_max_tokens r) sampling grammar (ch_compaction r)
          (wants_usage (ch_stream_options r)) (ch_stream r) (ch_context_id r) (into_vec_or_empty (ch_stop r))
          (ch_raw_continuation r) (ch_deadline_ms r) (pq_retained_bytes p) (rc_request_id request_context)
          (rc_principal request_context) PChat None).

(** The grammar of a responses request: of its text, or of its response format. *)
Definition responses_grammar {K} (r : ResponsesRequest) : H K (option string) :=
  match rq_text r, rq_response_format r with
  | Some _, Some _ => lifted (bad_request "text and response_format cannot both be supplied")
  | Some text, None => on_walk (responses_text_grammar show jsonschema_compile (Some text))
  | None, format => on_walk (response_format_grammar show jsonschema_compile format)
  end.

(** What the predecessor contributes: the revision of the new response and the start of
    its prompt. *)
Definition continue_response (owner family model : string) (previous : option string)
  : M (Walk Content) ServerError.Error (N * string) :=
  match previous with
  | None => mret (0%N, "")
  | Some previous_id =>
      predecessor ← walk_retrieve store_display previous_id owner;
      _ ← guard_not (negb (String.eqb (rr_model predecessor) model))
            (ServerError.BadRequest "previous_response_id uses an incompatible model");
      _ ← guard_not (negb (rr_store predecessor))
            (ServerError.BadRequest "previous_response_id requires a stored response");
      prompt ← response_lineage_prompt predecessor owner family;
      mret (saturating_add (rr_lineage_revision predecessor) 1, prompt)
  end.

Definition is_output (item : ResponseInputItem) : bool :=
  match item with IFunctionCallOutput _ _ => true | _ => false end.

Definition responses_request {K} (uuid : string) (p : PrequeueJson ResponsesRequest) : H K InferResponseRequest :=
  let r := pq_value p in
  request_context ← lifted (authenticate auth (pq_headers p) ScopeInference uuid);
  _ ← lifted (validate_controls (rq_temperature r) (rq_top_p r) (rq_tools r) (rq_response_format r)
                (rq_reasoning_effort r));
  _ ← lifted (match rq_tool_choice r with
              | Some choice => validate_tool_choice choice (rq_tools r)
              | None => Ok tt
              end);
  grammar ← responses_grammar r;
  sampling ← lifted (sampling_config (rq_temperature r) (rq_top_p r) (rq_seed r));
  model ← on_run (find_model model_order (rq_model r));
  let family := mr_family model in
  let owner := rc_principal request_context in
  '(revision, prompt) ← on_walk (continue_response owner family (rq_model r) (rq_previous_response_id r));
  '(prompt, ledger) ← on_walk (lower_input family owner (rq_previous_response_id r) prompt (rq_input r));
  prompt ← on_walk (append_tool_instructions tools_json family prompt (rq_tools r) (rq_tool_choice r)
                      (existsb is_output ledger));
  let options :=
    mkOptions (rq_store r) (rq_previous_response_id r) revision ledger (tool_names (rq_tools r)) (rq_tool_choice r)
      (tool_value <$> rq_tools r) (match rq_tool_choice r with
                                    | Some choice => tool_choice_value choice
                                    | None => VString "auto"
                                    end) in
  mret (mkInferResponseRequest (rq_model r) prompt (rq_max_output_tokens r) sampling grammar (rq_compaction r) true
          (rq_stream r) None [] false None (pq_retained_bytes p) (rc_request_id request_context) owner PResponses
          (Some options)).

(** ** Admission *)

(** A locked section of the admission. *)
Definition on_inner {K A} (f : Inner → result ServerError.Error A * Inner) : H K A :=
  on_run (locked (λ sh, let '(r, inner) := f (sh_inner sh) in (r, set_inner inner sh))).

Definition drop_admission {K} (g : AdmissionGuard) : H K unit := on_inner (λ i, (Ok tt, drop_guard g i)).

(** The state of the channel of a ticket: a wait ends with a turn once the sender has
    sent it, and closes when the sender is dropped. *)
Definition ended {K} (wait : Wait) (ticket : option N) : H K bool :=
  on_run (access (λ sh,
    let channel := ticket ≫= λ t, channels (sh_inner sh) !! t in
    match wait with
    | WaitReady => bool_decide (channel = Some Sent)
    | WaitClosed => bool_decide (channel = Some SenderGone)
    | WaitTimeout => true
    end)).

(** [reserve_admission]: [ctl] is the control of the request. *)
Definition reserve_admission {K} (wait : Wait) (request_id : string) (ctl bytes : N) : H K AdmissionGuard :=
  admission ← on_inner (reserve_enter request_id ctl bytes);
  if ag_active admission then mret admission
  else
    over ← ended wait (ag_ticket admission);
    if negb over then on_run (throw CutOff)
    else on_inner (match wait with
                   | WaitReady => wake_ready admission
                   | WaitClosed => wake_closed admission
                   | WaitTimeout => wake_timeout admission
                   end).

(** The task of a deadline, when its time has passed. *)
Definition watchdog (ctl : N) (i : Inner) : Inner :=
  match store i !! ctl with
  | Some control => if Control.is_complete control then i else on_control Control.expire ctl i
  | None => i
  end.

(** The guard of a connection is dropped while it is armed: the client has gone. *)
Definition disconnected (ctl : N) (i : Inner) : Inner := on_control Control.cancel ctl i.

(** ** The inference *)

Definition retype {K K'} (out : K') (r : Run E C K) : Run E C K' :=
  mkRun (rn_shared r) (rn_others r) (rn_frontier r) (rn_delta_index r) out.

(** A part of the handler that keeps what its inference emits. *)
Definition with_out {K A} (out : K) (m : M (Run E C K) Interrupt A) : H unit (A * K) :=
  on_run (λ r,
    match m (retype out r) with
    | Done a r' => Done (a, rn_out r') (retype tt r')
    | Fail e r' => Fail e (retype tt r')
    | Panic => Panic
    end).

Definition millis (ns : N) : N := (ns / 1000000)%N.

Definition infer_request (fresh : Fresh) (config : ServerConfig) (p : InferResponseRequest) (wall_remaining : N)
  : InferRequest :=
  mkInferRequest (iy_model p) (iy_prompt p) (default (default_output_tokens config) (iy_max_tokens p)) (iy_context_id p)
    (Some (N.max (N.min (millis wall_remaining) u64_max) 1)) (iy_stop p) (iy_raw_continuation p) (iy_compaction p)
    (iy_sampling p) (iy_grammar p)
    (Scheduler.mkMetadata Standard AdapterDefault (iy_principal p) (iy_request_id p) (fr_inference_id fresh)).

(** [infer_stream_reserved], up to the task it spawns; an error drops the guard. *)
Definition start_stream (fresh : Fresh) (p : InferResponseRequest) (request : InferRequest)
    (admission : AdmissionGuard) (permit : bool) : H unit PendingStream :=
  _ ← (λ s, match on_run (start_frontier model_order request) s with
            | Fail (Returned e) s' => (_ ← drop_admission admission; on_run (throw (Returned e))) s'
            | r => r
            end);
  let successor_id := default (fr_context_id fresh) (iq_context_id request) in
  mret (mkPending (iy_request_id p) request successor_id admission
          (started_event (iy_request_id p) request successor_id) permit
          (start_projection (fr_now fresh) (iy_model p) (iy_principal p) (iy_responses p)) (iy_protocol p)
          (iy_include_usage p) (iy_responses p)).

(** A response at once. *)
Definition buffered_reply (fresh : Fresh) (p : InferResponseRequest) (request : InferRequest)
    (admission : AdmissionGuard) : H unit Value :=
  '((response, events), _) ←
    with_out [] (guarded admission
      (infer_reserved start_session model_order (fr_context_id fresh) (iy_request_id p) request));
  reason ← lifted (match finish_reason events with
                   | Some reason => Ok reason
                   | None => Err (ServerError.State "inference completed without a finish reason")
                   end);
  on_walk (on_service (completed_response to_json store_display parse_json show ratio (fr_now fresh)
                         (fr_call_ids fresh).1 (fr_call_ids fresh).2 (iy_protocol p) response reason (iy_principal p)
                         (iy_responses p))).

(** The control of a request is new. *)
Definition new_control {K} (ctl : N) : H K unit :=
  on_inner (λ i, (Ok tt, set_store (<[ctl := Control.new]> (store i)) i)).

Definition admitted_reply (fresh : Fresh) (config : ServerConfig) (p : InferResponseRequest) (permit : bool)
  : H unit Reply :=
  let wall_limit := N.min (default (wall_time_ms config) (iy_deadline_ms p)) (wall_time_ms config) in
  waiting_since ← instant;
  _ ← new_control (fr_control fresh);
  admission ← reserve_admission (fr_wait fresh) (iy_request_id p) (fr_control fresh) (iy_retained_bytes p);
  now ← instant;
  let elapsed := (now - waiting_since)%N in
  if (nanoseconds wall_limit <? elapsed)%N then
    _ ← drop_admission admission; lifted (Err ServerError.Deadline)
  else
    let request := infer_request fresh config p (nanoseconds wall_limit - elapsed) in
    if iy_streaming p then
      stream ← start_stream fresh p request admission permit;
      mret (StreamReply (iy_request_id p) stream)
    else
      value ← buffered_reply fresh p request admission;
      mret (JsonReply (iy_request_id p) value).

(** The permit of a compaction is held until the reply, or the end of its stream. *)
Definition with_compaction_permit (streaming : bool) (m : H unit Reply) : H unit Reply := λ s,
  match on_gates (λ gates, let '(r, workers) := try_acquire gates.2 in (r, (gates.1, workers))) s with
  | Done _ s' =>
      if streaming then
        match m s' with
        | Fail (Returned e) s'' => (_ ← drop_compaction; on_run (throw (Returned e))) s''
        | r => r
        end
      else finally m drop_compaction s'
  | Fail e s' => Fail e s'
  | Panic => Panic
  end.

Definition infer_response (fresh : Fresh) (p : InferResponseRequest) : H unit Reply :=
  _ ← on_run (find_model model_order (iy_model p));
  config ← server_config;
  match iy_compaction p with
  | None => admitted_reply fresh config p false
  | Some _ =>
      _ ← lifted (if compaction_enabled config then Ok tt else bad_request "compaction is disabled");
      with_compaction_permit (iy_streaming p) (admitted_reply fresh config p true)
  end.

(** The rows of a stream whose receiver takes [room] more events after the first. *)
Definition send_rows (fresh : Fresh) (room : nat) (stream : PendingStream) : H unit (list string) :=
  finally
    ('(_, sent) ← with_out (mkStream [] room)
      (stream_worker start_session model_order (ps_request_id stream) (ps_request stream) (ps_successor_id stream)
         (ps_admission stream));
    on_walk (on_service (λ service,
      match stream_rows to_json store_display parse_json show (fr_now fresh) (fr_call_ids fresh).1 (fr_call_ids fresh).2
              (ps_protocol stream) (ps_include_usage stream) (ps_options stream) (ps_started stream :: es_sent sent)
              (mkStreaming (ps_projection stream) service) with
      | Done rows st => Done rows (st_service st)
      | Fail e st => Fail e (st_service st)
      | Panic => Panic
      end)))
    (if ps_compaction_permit stream then drop_compaction else mret tt).

(** ** The handlers *)

(** The permit of the body is given back before the inference. *)
Definition completion (uuid : string) (fresh : Fresh) (p : PrequeueJson CompletionRequest) : H unit Reply :=
  request ← finally (completion_request uuid p) drop_pre_queue;
  infer_response fresh request.

(** The permit of the body is held until the reply. *)
Definition chat (uuid : string) (fresh : Fresh) (p : PrequeueJson ChatRequest) : H unit Reply :=
  finally (request ← chat_request uuid p; infer_response fresh request) drop_pre_queue.

Definition responses (uuid : string) (fresh : Fresh) (p : PrequeueJson ResponsesRequest) : H unit Reply :=
  finally (request ← responses_request uuid p; infer_response fresh request) drop_pre_queue.

Definition get_response {K} (uuid id : string) (headers : HeaderMap) : H K Value :=
  context ← lifted (authenticate auth headers ScopeInference uuid);
  resource ← on_walk (on_service (map_err store_display (retrieve id (rc_principal context))));
  mret (project_resource resource).

Definition deleted_value (id : string) : Value :=
  Object [("id", VString id); ("object", VString "response.deleted"); ("deleted", Bool true)].

Definition delete_response {K} (uuid id : string) (headers : HeaderMap) : H K Value :=
  context ← lifted (authenticate auth headers ScopeInference uuid);
  _ ← on_walk (on_service (map_err store_display (ResponseStore.delete_response id (rc_principal context))));
  mret (deleted_value id).
End handlers.
