(* ===== verification/RoutesLaws.v ===== *)
(** Laws of the handlers: a response that is streamed leaves the stored responses as a
    response given at once does, whatever the generated text is. *)

From stdpp Require Import gmap strings list numbers.
From Stdlib Require Import Lia.
From S2P Require Import Prelude Json Engine ContextStrategy Generation Text.
From S2P Require Import Config Responses ResponsesLaws ResponseStore Structured Inference Requests Lowering Routes.

(** ** Rows *)

Section rows.
Variable show : Value → string.

(** The rows of the events move the sequence number only. *)
Definition with_sequence (n : N) (p : ResponseProjection) : ResponseProjection :=
  mkProjection (pj_resource p) n (pj_buffer_output p) (pj_function_call p).

Lemma project_rows_state events p : ∃ n, (project_rows events p).2 = with_sequence n p.
Proof.
  revert p. induction events as [|event events IH]; intros p; [by exists (pj_sequence p); destruct p|].
  cbn [project_rows project_event]. set (p' := mkProjection _ _ _ _). destruct (IH p') as [n Hn].
  exists n. destruct (project_rows events p') as [vs p'']. exact Hn.
Qed.

Lemma project_rows_last events event p :
  ∃ n, list.last (project_rows (events ++ [event]) p).1 = Some (event_value n event).
Proof.
  revert p. induction events as [|e events IH]; intros p; [by exists (pj_sequence p)|].
  cbn [app project_rows project_event]. set (p' := mkProjection _ _ _ _). destruct (IH p') as [n Hn].
  exists n. destruct (project_rows (events ++ [event]) p') as [vs p'']. cbn [fst] in Hn |- *.
  destruct vs; [done|exact Hn].
Qed.

Lemma rows_snoc values v s :
  foldl (λ rows v, rows +:+ row show v) s (values ++ [v])
  = foldl (λ rows v, rows +:+ row show v) s values +:+ row show v.
Proof. by rewrite foldl_snoc. Qed.

Lemma project_of_events event p events p' :
  project_events event p = Some (events, p') →
  ∃ text n, project show event p = Some (text, with_sequence n p')
  ∧ ∀ last, list.last events = Some last → ∃ front m, text = front +:+ row show (event_value m last).
Proof.
  intros H. unfold project. rewrite H. cbn [mbind option_bind].
  destruct (project_rows_state events p') as [n Hn].
  assert (∀ last, list.last events = Some last →
            ∃ m, list.last (project_rows events p').1 = Some (event_value m last)) as Hlast.
  { intros last (front & ->)%list.last_Some. apply project_rows_last. }
  destruct (project_rows events p') as [values p'']. cbn [snd fst] in *. rewrite Hn.
  eexists _, n. split; [reflexivity|]. intros last (m & (front & ->)%list.last_Some)%Hlast.
  exists (foldl (λ rows v, rows +:+ row show v) "" front), m. by rewrite rows_snoc.
Qed.
End rows.

(** ** An answer *)

(** The response under the name [model], created at [created]. *)
Definition named (model : string) (created : N) (r : ResponseResource) : ResponseResource :=
  mkResource (rr_schema_version r) (rr_id r) (rr_owner r) model created (rr_status r) (rr_store r)
    (rr_previous_response_id r) (rr_input r) (rr_output r) (rr_tools r) (rr_tool_choice r) (rr_finish_reason r)
    (rr_usage r) (rr_metadata r) (rr_lineage_revision r) (rr_context_update r).

Section answer.
Context {Content : Type}.
Variable to_json : ResponseResource → Content.
Variable store_display : StoreError → string.
Variable parse_json : string → option Value.
Variable show : Value → string.
Variable ratio : N → N → Value.

(** What answering a generation means, however it is sent: the text is read as the call
    the request allows, and the response is remembered. *)
Definition answer (now created : N) (uuid1 uuid2 model : string) (response : InferResponse) (reason : FinishReason)
    (owner : string) (o : ResponseRequestOptions) : M (ResponseService Content) ServerError.Error ResponseResource :=
  call ← lift_result (parse_function_call parse_json show uuid1 uuid2 (string_of (ir_text response)) (call_options o));
  let resource := named model created (complete now (complete_parameters response reason owner o call)) in
  _ ← map_err store_display (remember to_json now resource);
  mret resource.

(** The body of a response that is given at once. *)
Definition answer_value (response : InferResponse) (resource : ResponseResource) : Value :=
  match project_resource resource with
  | Object fields => Object (set_field "cusco" (cusco_value ratio (ir_usage response)) fields)
  | v => v
  end.

Lemma completed_answer now uuid1 uuid2 response reason owner o service :
  completed_response to_json store_display parse_json show ratio now uuid1 uuid2 PResponses response reason owner (Some o) service
  = (resource ← answer now now uuid1 uuid2 (us_model (ir_usage response)) response reason owner o;
     mret (answer_value response resource)) service.
Proof.
  unfold completed_response, answer, mbind, M_bind, expect. cbn [mret M_ret].
  destruct (lift_result _ service) as [call s|err s|]; [|done..].
  change (named _ _ (complete now (complete_parameters response reason owner o call)))
    with (complete now (complete_parameters response reason owner o call)).
  by destruct (map_err _ _ s).
Qed.
End answer.

(** ** A stream of one response *)

Section stream.
Context {Content : Type}.
Variable to_json : ResponseResource → Content.
Variable store_display : StoreError → string.
Variable parse_json : string → option Value.
Variable show : Value → string.
Variable ratio : N → N → Value.

(** The stream starts at [started] for a request that names its model [model]; the other
    clock is that of its end. *)
Variables (now started : N) (uuid1 uuid2 owner model request_id context_id c i e : string) (o : ResponseRequestOptions).

Definition start : ResponseProjection := start_projection started model owner (Some o).

(** The projection after the start and the given text. *)
Definition spoken (text : string) (p : ResponseProjection) : Prop :=
  pj_resource p = set_output (talking text) (set_started request_id (mkMetadata c i e) (pj_resource start))
  ∧ pj_buffer_output p = pj_buffer_output start
  ∧ pj_function_call p = None.

Abbreviation stream_row := (stream_row to_json store_display parse_json show now uuid1 uuid2 PResponses).

Definition is_finished (event : StreamEvent) : bool := match event with EvFinished _ _ => true | _ => false end.

(** An event that is not the last one has a row, and the service is left alone. *)
Lemma silent_row usage event events p p' service :
  is_finished event = false →
  project_events event p = Some (events, p') →
  completed_resource p' = None →
  ∃ text n, stream_row usage (Some o) event (mkStreaming p service)
            = Done text (mkStreaming (with_sequence n p') service).
Proof.
  intros He Hp Hc. destruct (project_of_events show event p events p' Hp) as (text & n & Hproject & _).
  exists text, n. unfold Routes.stream_row. cbn [st_projection st_service].
  assert (recognize_call parse_json show uuid1 uuid2 (Some o) event p = Ok p) as -> by (by destruct event).
  unfold stream_row_with_state. cbn [stream_value]. rewrite Hproject.
  assert (completed_resource (with_sequence n p') = None) as -> by exact Hc. done.
Qed.

Lemma spoken_sequence n text p : spoken text p → spoken text (with_sequence n p).
Proof. done. Qed.

Lemma spoken_unfinished text p : spoken text p → completed_resource p = None.
Proof. intros [H _]. unfold completed_resource. rewrite H. reflexivity. Qed.

Lemma started_row usage service :
  ∃ text p, stream_row usage (Some o) (EvStarted request_id context_id c i e) (mkStreaming start service)
            = Done text (mkStreaming p service) ∧ spoken "" p.
Proof.
  destruct (project_events (EvStarted request_id context_id c i e) start) as [[events p]|] eqn:Hp; [|done].
  assert (spoken "" p) as Hs.
  { cbn [project_events] in Hp. injection Hp as _ <-. done. }
  destruct (silent_row usage (EvStarted request_id context_id c i e) events start p service eq_refl Hp (spoken_unfinished _ _ Hs)) as (text & n & Hrow).
  by exists text, (with_sequence n p).
Qed.

Lemma token_row usage t n text p service :
  spoken text p →
  ∃ out p', stream_row usage (Some o) (EvToken t n) (mkStreaming p service) = Done out (mkStreaming p' service)
            ∧ spoken (text +:+ t) p'.
Proof.
  intros (Hr & Hb & Hf).
  destruct (project_events (EvToken t n) p) as [[events p']|] eqn:Hp;
    cbn [project_events] in Hp; rewrite Hr in Hp; [|done].
  assert (spoken (text +:+ t) p') as Hs by (by injection Hp as _ <-).
  destruct (silent_row usage (EvToken t n) events p p' service eq_refl) as (out & m & Hrow).
  - cbn [project_events]. by rewrite Hr.
  - exact (spoken_unfinished _ _ Hs).
  - by exists out, (with_sequence m p').
Qed.

Lemma token_rows usage tokens text p service :
  spoken text p →
  ∃ rows p', map_M (stream_row usage (Some o)) ((λ t, EvToken t.1 t.2) <$> tokens) (mkStreaming p service)
             = Done rows (mkStreaming p' service)
             ∧ length rows = length tokens ∧ spoken (text +:+ joined tokens) p'.
Proof.
  revert text p. induction tokens as [|[t n] tokens IH]; intros text p Hs.
  - exists [], p. cbn. by rewrite append_nil_r.
  - rewrite fmap_cons. cbn [map_M fst snd]. change (joined ((t, n) :: tokens)) with (t +:+ joined tokens).
    destruct (token_row usage t n text p service Hs) as (out & p1 & Hrow & Hs1).
    destruct (IH _ _ Hs1) as (rows & p2 & Hrows & Hlen & Hs2).
    exists (out :: rows), p2. unfold mbind, M_bind. rewrite Hrow.
    rewrite Hrows. split; [done|]. cbn. rewrite Hlen. split; [done|].
    by rewrite <- append_assoc.
Qed.

(** The last event: the resource it completes, and the events that carry it. *)
Lemma finished_events text p reason response call :
  spoken text p → usage_metadata (ir_usage response) = mkMetadata c i e →
  ir_id response = request_id → string_of (ir_text response) = text →
  let resource := named model started (complete now (complete_parameters response reason owner o call)) in
  ∃ events p', project_events (EvFinished reason (ir_usage response)) (set_function_call call p) = Some (events, p')
    ∧ completed_resource p' = Some resource ∧ list.last events = Some (Completed resource).
Proof.
  intros (Hr & Hb & Hf) Hu Hi Ht resource.
  unfold resource, named, complete, complete_parameters.
  cbn [cr_usage cr_id cr_owner cr_model cr_text cr_reason cr_store cr_previous_response_id cr_tools
    cr_tool_choice cr_lineage_revision cr_input cr_function_call].
  cbn [rr_schema_version rr_id rr_owner rr_status rr_store rr_previous_response_id rr_input rr_output rr_tools
    rr_tool_choice rr_finish_reason rr_usage rr_metadata rr_lineage_revision rr_context_update].
  rewrite Hu, Hi, Ht.
  destruct call as [call|]; cbn [project_events set_function_call pj_resource pj_function_call with_resource];
    rewrite Hr.
  - eexists _, _. split; [reflexivity|]. split; reflexivity.
  - cbn. eexists _, _. split; [reflexivity|]. split; [reflexivity|].
    by destruct (pj_buffer_output p).
Qed.

(** What the row of the last event does, against the answer. *)
Lemma finished_row usage text p reason response service :
  spoken text p → usage_metadata (ir_usage response) = mkMetadata c i e →
  ir_id response = request_id → string_of (ir_text response) = text →
  let streamed := stream_row usage (Some o) (EvFinished reason (ir_usage response)) (mkStreaming p service) in
  match answer to_json store_display parse_json show now started uuid1 uuid2 model response reason owner o service with
  | Done resource service' => ∃ p' front n,
      streamed = Done (front +:+ row show (event_value n (Completed resource))) (mkStreaming p' service')
  | Fail _ service' => ∃ message p', streamed = Done (error_row show message) (mkStreaming p' service')
  | Panic => streamed = Panic
  end.
Proof.
  intros Hs Hu Hi Ht streamed. unfold streamed, Routes.stream_row, answer.
  cbn [recognize_call st_projection st_service]. unfold mbind, M_bind.
  assert (generated_text p = text) as -> by (destruct Hs as [Hr _]; unfold generated_text; by rewrite Hr).
  rewrite Ht. unfold lift_result.
  destruct (parse_function_call parse_json show uuid1 uuid2 text (call_options o)) as [call|err]; [|by eexists _, p].
  destruct (finished_events text p reason response call Hs Hu Hi Ht) as (events & p' & Hp & Hc & Hl).
  destruct (project_of_events show _ _ _ _ Hp) as (out & n & Hproject & Hout).
  destruct (Hout _ Hl) as (front & k & ->).
  unfold stream_row_with_state. cbn [stream_value]. rewrite Hproject.
  assert (completed_resource (with_sequence n p') = completed_resource p') as -> by done. rewrite Hc.
  unfold map_err. cbv beta iota delta [mret M_ret]. destruct (remember to_json now _ service) as [[] service'|err service'|].
  - by eexists _, front, k.
  - by eexists _, _.
  - done.
Qed.
End stream.

Lemma map_M_snoc {S E A B} (f : A → M S E B) l x s ys s' :
  map_M f l s = Done ys s' →
  map_M f (l ++ [x]) s = match f x s' with
                         | Done y s'' => Done (ys ++ [y]) s''
                         | Fail err s'' => Fail err s''
                         | Panic => Panic
                         end.
Proof.
  revert s ys. induction l as [|a l IH]; intros s ys H.
  - cbn in H. injection H as <- <-. cbn [app map_M]. unfold mbind, M_bind. by destruct (f x s).
  - cbn [app map_M] in H |- *. unfold mbind, M_bind in H |- *. destruct (f a s) as [y s1| |]; [|done..].
    destruct (map_M f l s1) as [ys1 s2| |] eqn:Hl; [|done..]. cbn in H. injection H as <- <-.
    rewrite (IH s1 ys1 Hl). by destruct (f x s2).
Qed.

Section theorem.
Context {Content : Type}.
Variable to_json : ResponseResource → Content.
Variable store_display : StoreError → string.
Variable parse_json : string → option Value.
Variable show : Value → string.
Variable ratio : N → N → Value.

(** C11: A responses request is answered alike whether it is streamed or answered at
    once, whatever the stored responses are and whatever text was generated. Both read
    the text as the call the request allows and remember the response; the response
    bears the name of the model that the request gives and the time of its start when
    it is streamed, and the identifier of the model and the time of its end otherwise,
    and does not differ in anything else. The last row of a stream carries the resource;
    when the answer is refused, because the text is not the call the request demands or
    the response cannot be stored, it is an error, and nothing but what the refused
    answer does is done. There is one row for each event. *)
Theorem streamed_is_buffered now started uuid1 uuid2 model owner context_id c i e o tokens reason response usage service :
  usage_metadata (ir_usage response) = mkMetadata c i e →
  string_of (ir_text response) = joined tokens →
  let streamed :=
    stream_rows to_json store_display parse_json show now uuid1 uuid2 PResponses usage (Some o)
      (EvStarted (ir_id response) context_id c i e
       :: ((λ t, EvToken t.1 t.2) <$> tokens) ++ [EvFinished reason (ir_usage response)])
      (mkStreaming (start_projection started model owner (Some o)) service) in
  let answer created model :=
    answer to_json store_display parse_json show now created uuid1 uuid2 model response reason owner o in
  match answer started model service with
  | Done resource service' => ∃ rows p front n,
      streamed = Done (rows ++ [front +:+ row show (event_value n (Completed resource))]) (mkStreaming p service')
      ∧ length rows = S (length tokens)
  | Fail _ service' => ∃ rows message p,
      streamed = Done (rows ++ [error_row show message]) (mkStreaming p service') ∧ length rows = S (length tokens)
  | Panic => streamed = Panic
  end
  ∧ completed_response to_json store_display parse_json show ratio now uuid1 uuid2 PResponses response reason owner (Some o)
      service
    = (resource ← answer now (us_model (ir_usage response)); mret (answer_value ratio response resource)) service.
Proof.
  intros Hu Ht streamed answer'. split; [|apply completed_answer]. unfold answer', streamed, stream_rows. rewrite app_comm_cons.
  destruct (started_row to_json store_display parse_json show now started uuid1 uuid2 owner model
              (ir_id response) context_id c i e o usage service) as (first & p & Hstart & Hs).
  destruct (token_rows to_json store_display parse_json show now started uuid1 uuid2 owner model
              (ir_id response) c i e o usage tokens "" p service Hs) as (rows & p' & Hrows & Hlen & Hs').
  assert (map_M (stream_row to_json store_display parse_json show now uuid1 uuid2 PResponses usage (Some o))
            (EvStarted (ir_id response) context_id c i e :: ((λ t, EvToken t.1 t.2) <$> tokens))
            (mkStreaming (start_projection started model owner (Some o)) service)
          = Done (first :: rows) (mkStreaming p' service)) as Hall.
  { cbn [map_M]. unfold mbind, M_bind. unfold start in Hstart. rewrite Hstart, Hrows. reflexivity. }
  rewrite (map_M_snoc _ _ _ _ _ _ Hall).
  pose proof (finished_row to_json store_display parse_json show now started uuid1 uuid2 owner model
    (ir_id response) c i e o usage (joined tokens) p' reason response service Hs' Hu eq_refl Ht) as Hlast.
  cbn [app] in Hlast |- *.
  destruct (answer _ _ _ _ _ _ _ _ _ _ _ _ _ service) as [v service'|err service'|].
  - destruct Hlast as (p'' & front & n & ->). exists (first :: rows), p'', front, n. split; [done|]. cbn. by rewrite Hlen.
  - destruct Hlast as (message & p'' & ->). exists (first :: rows), message, p''. split; [done|]. cbn. by rewrite Hlen.
  - by rewrite Hlast.
Qed.
End theorem.

Definition demo_options : ResponseRequestOptions :=
  mkOptions false None 0 [IMessage "user" "hi"] ["look"] (Some (ChoiceMode ChoiceAuto)) [] (VString "auto").

Definition demo_response : InferResponse := mkInferResponse "resp_1" (text_of "hello") demo_usage.

Definition demo_service : ResponseService ResponseResource :=
  mkService (mkStore ∅ ∅ []) (mkTransient ∅ []).

Definition demo_answer (created : N) (model : string) : M (ResponseService ResponseResource) ServerError.Error ResponseResource :=
  answer (λ r, r) (λ _, "") (λ _, None) (λ _, "") 7 created "u" "v" model demo_response FinishStop "o" demo_options.

(** A stream that began at 5, for a request that names the model by an alias. *)
Lemma streamed_is_buffered_witness :
  usage_metadata (ir_usage demo_response) = mkMetadata "c" "i" "i"
  ∧ string_of (ir_text demo_response) = joined [("he", 0%N); ("llo", 1%N)]
  ∧ ∃ rows p front n resource service',
      stream_rows (λ r, r) (λ _, "") (λ _, None) (λ _, "") 7 "u" "v" PResponses true (Some demo_options)
        [EvStarted "resp_1" "ctx" "c" "i" "i"; EvToken "he" 0; EvToken "llo" 1; EvFinished FinishStop demo_usage]
        (mkStreaming (start_projection 5 "latest" "o" (Some demo_options)) demo_service)
      = Done (rows ++ [front +:+ row (λ _, "") (event_value n (Completed resource))]) (mkStreaming p service')
      ∧ rr_model resource = "latest" ∧ rr_created_at resource = 5%N ∧ length rows = 3.
Proof.
  assert (usage_metadata (ir_usage demo_response) = mkMetadata "c" "i" "i") as Hu by reflexivity.
  assert (string_of (ir_text demo_response) = joined [("he", 0%N); ("llo", 1%N)]) as Ht by reflexivity.
  split; [exact Hu|]. split; [exact Ht|].
  pose proof (streamed_is_buffered (λ r, r) (λ _, "") (λ _, None) (λ _, "") (λ _ _, Null) 7 5 "u" "v" "latest" "o" "ctx" "c" "i" "i"
    demo_options [("he", 0%N); ("llo", 1%N)] FinishStop demo_response true demo_service Hu Ht) as [H _].
  change (answer _ _ _ _ _ _ _ _ _ _ _ _ _) with (demo_answer 5 "latest") in H.
  destruct (demo_answer 5 "latest" demo_service) as [resource service'|e service'|] eqn:Hrun;
    [|vm_compute in Hrun; discriminate Hrun..].
  destruct H as (rows & p & front & n & Hrows & Hlen). exists rows, p, front, n, resource, service'.
  vm_compute in Hrun. injection Hrun as <- _. split; [exact Hrows|]. split; [reflexivity|]. split; [reflexivity|exact Hlen].
Defined.
