(* ===== verification/HandlersLaws.v ===== *)
(** Laws of the inference handlers: the permits they take are given back on every path,
    by the reply or, for a stream, by its end. *)

From stdpp Require Import gmap strings list numbers.
From Stdlib Require Import Lia.
From S2P Require Import Prelude Json Engine Gate Admission Contexts Lifecycle Generation Text.
From S2P Require Import Config Vision Prompt Responses ResponseStore Structured Inference Requests Lowering Routes.
From S2P Require Import Handlers InferenceLaws.

(** ** Parts that leave the gates alone *)

Section keeps.
Context {E C T Content Sem : Type} `{!ExecutionSession T, !Semaphore Sem, !SemaphoreLaws Sem}.

Abbreviation Serving K := (Handlers.Serving E C K Content Sem).
Abbreviation H K := (M (Serving K) Interrupt).

Definition gates {K} (s : Serving K) := (sg_pre_queue s, sg_compaction_workers s, sg_gate_others s).

(** The gates are left alone, and the result is as [Q] says. *)
Definition keeps {K A} (Q : A → Prop) (m : H K A) : Prop :=
  ∀ s, match m s with
       | Done a s' => gates s' = gates s ∧ Q a
       | Fail _ s' => gates s' = gates s
       | Panic => True
       end.

Abbreviation anything := (λ _, True).

Lemma keeps_ret {K A} (Q : A → Prop) (a : A) : Q a → keeps (K := K) Q (mret a).
Proof. intros Ha s. done. Qed.

Lemma keeps_bind {K A B} (Q : B → Prop) (m : H K A) (k : A → H K B) :
  keeps anything m → (∀ a, keeps Q (k a)) → keeps Q (m ≫= k).
Proof.
  intros Hm Hk s. unfold mbind, M_bind. specialize (Hm s). destruct (m s) as [a s'|e s'|]; [|done..].
  destruct Hm as [Hm _]. specialize (Hk a s'). rewrite Hm in Hk. exact Hk.
Qed.

Lemma keeps_run {K A} (m : M (Run E C K) Interrupt A) : keeps anything (on_run m).
Proof. intros s. unfold on_run. by destruct (m (sg_run s)). Qed.

Lemma keeps_throw {K A} (Q : A → Prop) e : keeps Q (on_run (K := K) (throw e) : H K A).
Proof. by intros s. Qed.

Lemma keeps_refused {K A} (Q : A → Prop) e : keeps Q (lifted (K := K) (Err e) : H K A).
Proof. by intros s. Qed.

Lemma keeps_walk {K A} (m : M (Walk Content) ServerError.Error A) : keeps (K := K) anything (on_walk m).
Proof. intros s. unfold on_walk. by destruct (m (sg_walk s)). Qed.

Lemma keeps_dropped {K A} (Q : A → Prop) (m : H K A) (drop : ServerError.Error → H K A) :
  keeps Q m → (∀ e, keeps Q (drop e)) →
  keeps Q (λ s, match m s with Fail (Returned e) s' => drop e s' | r => r end).
Proof.
  intros Hm Hd s. specialize (Hm s). destruct (m s) as [a s'|[e|] s'|]; [done| |done..].
  specialize (Hd e s'). destruct (drop e s'); [|congruence|done]. by rewrite <- Hm.
Qed.

(** ** The counters of the gates *)

(** The gates refine counters; no one else uses them. *)
Record accounts {K} (bodies workers : Counter) (s : Serving K) : Prop := {
  ac_bodies : gate_refines (sg_pre_queue s) bodies;
  ac_workers : gate_refines (sg_compaction_workers s) workers;
  ac_alone : sg_gate_others s = [];
}.

Lemma accounts_kept {K} bodies workers (s s' : Serving K) :
  gates s' = gates s → accounts bodies workers s → accounts bodies workers s'.
Proof. intros [= H1 H2 H3] [Hb Hw Ho]. split; congruence. Qed.

Definition taken (c : Counter) : Counter := mkCounter (ct_limit c) (ct_held c + 1).

Lemma taken_held (c : Counter) : mkCounter (ct_limit (taken c)) (ct_held (taken c) - 1) = c.
Proof. destruct c. cbn. f_equal. lia. Qed.

Lemma drop_taken g (c : Counter) : gate_refines g (taken c) → gate_refines (drop_permit g) c.
Proof. intros Hg. rewrite <- (taken_held c). apply refines_drop; [done|cbn; lia]. Qed.

Lemma drop_pre_queue_accounts {K} bodies workers (s : Serving K) :
  accounts (taken bodies) workers s → ∃ s', drop_pre_queue s = Done tt s' ∧ accounts bodies workers s'.
Proof.
  intros [Hb Hw Ho]. unfold drop_pre_queue, on_gates. rewrite Ho. eexists. split; [reflexivity|].
  split; [by apply drop_taken|done|done].
Qed.

Lemma drop_compaction_accounts {K} bodies workers (s : Serving K) :
  accounts bodies (taken workers) s → ∃ s', drop_compaction s = Done tt s' ∧ accounts bodies workers s'.
Proof.
  intros [Hb Hw Ho]. unfold drop_compaction, on_gates. rewrite Ho. eexists. split; [reflexivity|].
  split; [done|by apply drop_taken|done].
Qed.

(** What the gates hold when [m] has returned. *)
Definition leaves {K A} (before after : Counter * Counter) (after_done : A → Counter * Counter) (m : H K A) : Prop :=
  ∀ s, accounts before.1 before.2 s →
    match m s with
    | Done a s' => accounts (after_done a).1 (after_done a).2 s'
    | Fail (Returned _) s' => accounts after.1 after.2 s'
    | Fail CutOff _ | Panic => True
    end.

Lemma leaves_keeps {K A} (Q : A → Prop) c (m : H K A) : keeps Q m → leaves c c (λ _, c) m.
Proof.
  intros Hm s Hs. specialize (Hm s). destruct (m s) as [a s'|[e|] s'|]; [|by eapply accounts_kept|done..].
  destruct Hm as [Hm _]. by eapply accounts_kept.
Qed.

(** A permit of the bodies that is dropped at the end. *)
Lemma leaves_finally {K A} bodies workers after (m : H K A) :
  leaves (taken bodies, workers) (taken bodies, workers) (λ a, (taken bodies, after a)) m →
  leaves (taken bodies, workers) (bodies, workers) (λ a, (bodies, after a)) (finally m drop_pre_queue).
Proof.
  intros Hm s Hs. specialize (Hm s Hs). unfold finally. destruct (m s) as [a s'|[e|] s'|]; [..|done|done].
  - destruct (drop_pre_queue_accounts _ _ _ Hm) as (s'' & Hd & Hs'').
    unfold mbind, M_bind. rewrite Hd. exact Hs''.
  - destruct (drop_pre_queue_accounts _ _ _ Hm) as (s'' & Hd & Hs'').
    unfold mbind, M_bind. rewrite Hd. exact Hs''.
Qed.

Lemma leaves_bind {K A B} c after_fail after (m : H K A) (k : A → H K B) :
  leaves c after_fail (λ _, after_fail) m → (∀ a, leaves after_fail after_fail after (k a)) →
  leaves c after_fail after (m ≫= k).
Proof.
  intros Hm Hk s Hs. specialize (Hm s Hs). unfold mbind, M_bind. destruct (m s) as [a s'|[e|] s'|]; [|done..].
  exact (Hk a s' Hm).
Qed.

Lemma leaves_keeps_bind {K A B} (Q : A → Prop) c after (m : H K A) (k : A → H K B) :
  keeps Q m → (∀ a, leaves c c after (k a)) → leaves c c after (m ≫= k).
Proof. intros Hm Hk. apply leaves_bind; [by eapply leaves_keeps|done]. Qed.
End keeps.

(** Splits a part of a handler into accesses that leave the gates alone. *)
Ltac keep_parts :=
  repeat (lazymatch goal with
          | |- ∀ _, _ => intros
          | |- keeps _ (mbind _ _) => apply keeps_bind
          | |- keeps _ (let '(_, _) := ?p in _) => destruct p
          | |- keeps _ (if ?b then _ else _) => destruct b
          | |- keeps _ (match ?o with Some _ => _ | None => _ end) => destruct o
          | |- keeps _ (mret _) => apply keeps_ret; try done
          | |- keeps _ (on_run (throw _)) => apply keeps_throw
          | |- keeps _ (lifted (Err _)) => apply keeps_refused
          | |- keeps _ (on_walk _) => apply keeps_walk
          | |- keeps _ (on_run _) => apply keeps_run
          | |- keeps _ (lifted _) => apply keeps_run
          | |- keeps _ (with_out _ _) => apply keeps_run
          end).

(** ** The handlers *)

Section handlers.
Context {E C T Content Sem : Type} `{!ExecutionSession T, !Semaphore Sem, !SemaphoreLaws Sem}.
Variable start_session : EngineRequest → Control.RequestControl → E → result ServerError.Error T * E.
Variable model_order : Lifecycle.Lifecycle E C → list ModelRecord.
Variable to_json : ResponseResource → Content.
Variable store_display : StoreError → string.
Variable parse_json : string → option Value.
Variable show : Value → string.
Variable tools_json : list ToolDefinition → string.
Variable base64_decode : string → option bytes.
Variable guess_format : bytes → option ImageFormat.
Variable decode_header : ImageFormat → bytes → option (N * N * bool).
Variable gif_frames : bytes → option nat.
Variable sha256_hex : bytes → string.
Variable jsonschema_compile : Value → result string unit.
Variable ratio : N → N → Value.
Variable vision : VisionConfig.
Variable auth : AuthProvider.

Abbreviation Serving K := (Handlers.Serving E C K Content Sem).
Abbreviation H K := (M (Serving K) Interrupt).
Abbreviation completion_request := (completion_request (K := unit) (Content := Content) (Sem := Sem) model_order auth).
Abbreviation chat_request :=
  (chat_request (K := unit) (Content := Content) (Sem := Sem) model_order show base64_decode guess_format decode_header gif_frames
     sha256_hex jsonschema_compile vision auth).
Abbreviation responses_request :=
  (responses_request (K := unit) (Content := Content) (Sem := Sem) model_order store_display parse_json show tools_json base64_decode guess_format
     decode_header gif_frames sha256_hex jsonschema_compile vision auth).
Abbreviation admitted_reply :=
  (admitted_reply (Content := Content) (Sem := Sem) start_session model_order to_json store_display parse_json show ratio).
Abbreviation infer_response :=
  (infer_response (Content := Content) (Sem := Sem) start_session model_order to_json store_display parse_json show ratio).

Abbreviation anything := (λ _, True).

Lemma completion_request_keeps uuid p : keeps anything (completion_request uuid p).
Proof. unfold Handlers.completion_request. keep_parts. Qed.

Lemma chat_request_keeps uuid p : keeps anything (chat_request uuid p).
Proof. unfold Handlers.chat_request. keep_parts. Qed.

Lemma responses_request_keeps uuid p : keeps anything (responses_request uuid p).
Proof. unfold Handlers.responses_request, responses_grammar. keep_parts. Qed.

Lemma reserve_admission_keeps wait request_id ctl bytes :
  keeps (K := unit) (E := E) (C := C) (Content := Content) (Sem := Sem) anything
    (reserve_admission wait request_id ctl bytes).
Proof. unfold reserve_admission, on_inner, ended. keep_parts. Qed.

(** The reply holds a permit: it is a stream that was given one. *)
Definition holds (reply : Reply) : bool :=
  match reply with StreamReply _ stream => ps_compaction_permit stream | JsonReply _ _ => false end.

Lemma start_stream_keeps fresh p request admission permit :
  keeps (Content := Content) (Sem := Sem) (λ stream, ps_compaction_permit stream = permit)
    (start_stream model_order fresh p request admission permit).
Proof.
  unfold start_stream. apply keeps_bind; [|intros []; by apply keeps_ret].
  apply keeps_dropped; [apply keeps_run|]. intros e. apply (keeps_bind _ (drop_admission admission)).
  - apply keeps_run.
  - intros _. apply keeps_throw.
Qed.

Lemma keeps_bind_with {K A B} (P : A → Prop) (Q : B → Prop) (m : H K A) (k : A → H K B) :
  keeps P m → (∀ a, P a → keeps Q (k a)) → keeps Q (m ≫= k).
Proof.
  intros Hm Hk s. unfold mbind, M_bind. specialize (Hm s). destruct (m s) as [a s'|e s'|]; [|done..].
  destruct Hm as [Hm Ha]. specialize (Hk a Ha s'). rewrite Hm in Hk. exact Hk.
Qed.

Lemma admitted_reply_keeps fresh config p permit :
  keeps (λ reply, holds reply = iy_streaming p && permit) (admitted_reply fresh config p permit).
Proof.
  unfold Handlers.admitted_reply. cbv zeta. unfold instant, new_control, drop_admission, on_inner. 
  apply keeps_bind; [apply keeps_run|intros since]. apply keeps_bind; [apply keeps_run|intros []].
  apply keeps_bind; [apply reserve_admission_keeps|intros admission]. apply keeps_bind; [apply keeps_run|intros now].
  destruct (_ <? _)%N; [keep_parts|]. destruct (iy_streaming p) eqn:Hstreaming.
  - eapply keeps_bind_with; [apply start_stream_keeps|]. intros stream Hs. by apply keeps_ret.
  - apply keeps_bind; [unfold buffered_reply; keep_parts|]. intros value. by apply keeps_ret.
Qed.

(** The permits of the compactions while a reply holds one. *)
Definition holding (workers : Counter) (reply : Reply) : Counter := if holds reply then taken workers else workers.

Lemma try_workers bodies workers (s : Serving unit) :
  accounts bodies workers s →
  let r := on_gates (λ gates, let '(r, workers) := try_acquire gates.2 in (r, (gates.1, workers))) s in
  (∃ s', r = Done tt s' ∧ accounts bodies (taken workers) s')
  ∨ (∃ e s', r = Fail (Returned e) s' ∧ accounts bodies workers s').
Proof.
  intros [Hb Hw Ho] r. unfold r, on_gates. rewrite Ho. cbn [snd fst].
  destruct (refines_try _ _ Hw) as (b & c' & Hstep & _ & Hg). cbn [gate_step counter_step] in Hstep, Hg.
  unfold try_acquire in *. destruct (sem_try_acquire (pg_semaphore (sg_compaction_workers s))) as [sem|] eqn:Hsem.
  - left. eexists. split; [reflexivity|]. split; [done| |done]. cbn [snd] in Hg.
    destruct (ct_held workers <? ct_limit workers)%N eqn:Hlt; [by injection Hstep as _ <-|].
    exfalso. destruct Hw as [_ Hbal Hr _]. apply try_acquire_some in Hsem. apply N.ltb_ge in Hlt.
    destruct (decide (0 < ps_retire_on_drop (pg_state (sg_compaction_workers s)))%N) as [Hp|Hp];
      [specialize (Hr Hp)|]; lia.
  - right. eexists _, _. split; [reflexivity|]. by split.
Qed.

Lemma compaction_permit_leaves bodies workers p (m : H unit Reply) :
  keeps (λ reply, holds reply = iy_streaming p && true) m →
  leaves (bodies, workers) (bodies, workers) (λ reply, (bodies, holding workers reply))
    (with_compaction_permit (Sem := Sem) (iy_streaming p) m).
Proof.
  intros Hm s Hs. unfold with_compaction_permit.
  destruct (try_workers _ _ _ Hs) as [(s1 & -> & Hs1)|(e & s1 & -> & Hs1)]; [|done].
  specialize (Hm s1). unfold finally. 
  destruct (m s1) as [reply s2|[e|] s2|]; [..|by destruct (iy_streaming p)|by destruct (iy_streaming p)].
  - destruct Hm as [Hg Hh]. pose proof (accounts_kept _ _ _ _ Hg Hs1) as Hs2. unfold holding.
    destruct (iy_streaming p); cbn in Hh.
    + cbn [fst snd]. rewrite Hh. exact Hs2.
    + destruct (drop_compaction_accounts _ _ _ Hs2) as (s3 & Hd & Hs3). unfold mbind, M_bind. rewrite Hd.
      cbn [fst snd mret M_ret]. unfold mret, M_ret. rewrite Hh. exact Hs3.
  - pose proof (accounts_kept _ _ _ _ Hm Hs1) as Hs2.
    destruct (drop_compaction_accounts _ _ _ Hs2) as (s3 & Hd & Hs3).
    destruct (iy_streaming p); unfold mbind, M_bind; rewrite Hd; by apply (accounts_kept _ _ s3).
Qed.

Lemma infer_response_leaves bodies workers fresh p :
  leaves (bodies, workers) (bodies, workers) (λ reply, (bodies, holding workers reply)) (infer_response fresh p).
Proof.
  unfold Handlers.infer_response.
  eapply leaves_keeps_bind; [apply keeps_run|intros _]. eapply leaves_keeps_bind; [apply keeps_run|intros config].
  destruct (iy_compaction p).
  - eapply leaves_keeps_bind; [apply keeps_run|intros _]. apply compaction_permit_leaves. apply admitted_reply_keeps.
  - intros s Hs. pose proof (admitted_reply_keeps fresh config p false s) as Hm.
    destruct (admitted_reply fresh config p false s) as [reply s'|[e|] s'|]; [|by eapply accounts_kept|done..].
    destruct Hm as [Hg Hh]. unfold holding. rewrite Hh, andb_false_r. by eapply accounts_kept.
Qed.

(** The permit of the bodies is given back, and one of the compactions is held by a
    stream that was given one and by nothing else. *)
Definition gives_back (m : H unit Reply) : Prop :=
  ∀ bodies workers, leaves (taken bodies, workers) (bodies, workers) (λ reply, (bodies, holding workers reply)) m.

Lemma gives_back_all uuid fresh p q r :
  gives_back (completion start_session model_order to_json store_display parse_json show ratio auth uuid fresh p)
  ∧ gives_back (chat start_session model_order to_json store_display parse_json show base64_decode guess_format
                  decode_header gif_frames sha256_hex jsonschema_compile ratio vision auth uuid fresh q)
  ∧ gives_back (responses start_session model_order to_json store_display parse_json show tools_json base64_decode
                  guess_format decode_header gif_frames sha256_hex jsonschema_compile ratio vision auth uuid fresh r).
Proof.
  split; [|split]; intros bodies workers.
  - unfold completion. apply leaves_bind.
    + apply leaves_finally. eapply leaves_keeps. apply completion_request_keeps.
    + intros request. apply infer_response_leaves.
  - unfold chat. apply (leaves_finally bodies workers (λ reply, holding workers reply)).
    eapply leaves_keeps_bind; [apply chat_request_keeps|]. intros request. apply infer_response_leaves.
  - unfold responses. apply (leaves_finally bodies workers (λ reply, holding workers reply)).
    eapply leaves_keeps_bind; [apply responses_request_keeps|]. intros request. apply infer_response_leaves.
Qed.

Lemma send_rows_leaves bodies workers fresh room stream :
  leaves (bodies, if ps_compaction_permit stream then taken workers else workers) (bodies, workers)
    (λ _ : list string, (bodies, workers))
    (send_rows (Sem := Sem) start_session model_order to_json store_display parse_json show fresh room stream).
Proof.
  intros s Hs. unfold send_rows, finally.
  match goal with |- context [match ?m s with _ => _ end] => assert (keeps anything m) as Hm by keep_parts end.
  specialize (Hm s).
  match goal with |- context [match ?m s with _ => _ end] => destruct (m s) as [rows s1|[e|] s1|] end; [..|done|done].
  - destruct Hm as [Hg _]. pose proof (accounts_kept _ _ _ _ Hg Hs) as Hs1.
    destruct (ps_compaction_permit stream); [|exact Hs1].
    destruct (drop_compaction_accounts _ _ _ Hs1) as (s2 & Hd & Hs2). unfold mbind, M_bind. rewrite Hd. exact Hs2.
  - pose proof (accounts_kept _ _ _ _ Hm Hs) as Hs1.
    destruct (ps_compaction_permit stream); [|exact Hs1].
    destruct (drop_compaction_accounts _ _ _ Hs1) as (s2 & Hd & Hs2). unfold mbind, M_bind. rewrite Hd. exact Hs2.
Qed.

(** A request and what it is answered with, to the end of a stream: a handler, then the
    rows if there are any. *)
Definition exchange (fresh : Fresh) (room : nat) (handler : H unit Reply) : H unit (list string) :=
  reply ← handler;
  match reply with
  | JsonReply _ value => mret [show value]
  | StreamReply _ stream =>
      send_rows start_session model_order to_json store_display parse_json show fresh room stream
  end.

Lemma exchange_leaves bodies workers fresh room handler :
  gives_back handler →
  leaves (taken bodies, workers) (bodies, workers) (λ _, (bodies, workers)) (exchange fresh room handler).
Proof.
  intros Hh s Hs. specialize (Hh bodies workers s Hs). unfold exchange, mbind, M_bind.
  destruct (handler s) as [[id value|id stream] s'|[e|] s'|]; [exact Hh| |exact Hh|done..].
  assert (accounts bodies (if ps_compaction_permit stream then taken workers else workers) s') as Hs'.
  { unfold holding in Hh. cbn [holds fst snd] in Hh. by destruct (ps_compaction_permit stream). }
  exact (send_rows_leaves bodies workers fresh room stream s' Hs').
Qed.

(** C14: The permits of the gates are neither lost nor given back twice: whatever a
    request of any of the protocols asks for, whichever way it ends (refused, failed,
    answered at once, or sent as a stream to its end or until the client is gone), the
    gate of the bodies has got back the permit its body was read with and the gate of
    the compactions holds what it held before. *)
Theorem exchange_gives_permits_back uuid fresh room completion_body chat_body responses_body handler bodies workers s :
  handler ∈ [completion start_session model_order to_json store_display parse_json show ratio auth uuid fresh completion_body;
             chat start_session model_order to_json store_display parse_json show base64_decode guess_format decode_header
               gif_frames sha256_hex jsonschema_compile ratio vision auth uuid fresh chat_body;
             responses start_session model_order to_json store_display parse_json show tools_json base64_decode
               guess_format decode_header gif_frames sha256_hex jsonschema_compile ratio vision auth uuid fresh
               responses_body] →
  accounts (taken bodies) workers s →
  match exchange fresh room handler s with
  | Done _ s' | Fail (Returned _) s' => accounts bodies workers s'
  | Fail CutOff _ | Panic => True
  end.
Proof.
  intros Hin Hs. destruct (gives_back_all uuid fresh completion_body chat_body responses_body) as (H1 & H2 & H3).
  assert (gives_back handler) as Hh.
  { rewrite !list.elem_of_cons in Hin. destruct Hin as [->|[->|[->|Hin]]]; [done..|by apply list.elem_of_nil in Hin]. }
  exact (exchange_leaves bodies workers fresh room handler Hh s Hs).
Qed.
End handlers.

(** ** With the built-in engine *)

Module HandlersDemo.

Import InferenceDemo.

#[local] Existing Instance count_semaphore.
#[local] Existing Instance count_semaphore_laws.

(** A completion of the context ["c"] that is compacted and streamed. *)
Definition body : PrequeueJson CompletionRequest :=
  mkPrequeueJson [] (mkCompletionRequest "m" "one two" (Some 3%N) true (Some "c") None false
    (Some ContextStrategy.default_compaction_request) None None None None None) 10.

Definition chat_body : PrequeueJson ChatRequest :=
  mkPrequeueJson [] (mkChatRequest "m" [] None false None None None false None None None None [] None None None) 10.

Definition responses_body : PrequeueJson ResponsesRequest :=
  mkPrequeueJson [] (mkResponsesRequest "m" (InputString "hi") true None None None false None None None [] None None
    None None) 10.

Definition serving : Serving unit unit unit ResponseResource N :=
  mkServing (mkRun (shared (Admission.initial default_config)) (replicate 120 id) no_frontier 0 tt)
    (mkWalk (mkService (mkStore ∅ ∅ []) (mkTransient ∅ [])) []) (mkGate 15%N (mkPrequeueState 16 0)) (Gate.new 1) [].

Definition fresh : Fresh := mkFresh "i" "new" ("u", "v") 8 7 WaitReady.

Definition handler : M (Serving unit unit unit ResponseResource N) Interrupt Reply :=
  completion start order (λ r, r) (λ _, "") (λ _, None) (λ _, "row") (λ _ _, Null) AnonymousAdmin "q" fresh body.

Definition run : outcome (Serving unit unit unit ResponseResource N) Interrupt (list string) :=
  exchange start order (λ r, r) (λ _, "") (λ _, None) (λ _, "row") fresh 8 handler serving.

(** The stream holds the only permit of the compactions, and has a row for its start,
    for each of three tokens and for its end. *)
Example handler_holds :
  match handler serving with
  | Done (StreamReply _ stream) s => (ps_compaction_permit stream, pg_semaphore (sg_compaction_workers s)) = (true, 0%N)
  | _ => False
  end.
Proof. vm_compute. reflexivity. Qed.

Definition row_count : option nat := match run with Done rows _ => Some (length rows) | _ => None end.

Example run_rows : row_count = Some 5.
Proof. vm_compute. reflexivity. Qed.

Lemma serving_accounts : accounts (taken (mkCounter 16 0)) (mkCounter 1 0) serving.
Proof.
  split; [| |done].
  - split; [reflexivity..|done|]. vm_compute. discriminate.
  - apply (@refines_new N count_semaphore count_semaphore_laws). vm_compute. discriminate.
Qed.
End HandlersDemo.

Lemma exchange_gives_permits_back_witness :
  accounts (Semaphore0 := count_semaphore) (taken (mkCounter 16 0)) (mkCounter 1 0) HandlersDemo.serving
  ∧ ∃ rows s', HandlersDemo.run = Done rows s' ∧ length rows = 5
      ∧ accounts (Semaphore0 := count_semaphore) (mkCounter 16 0) (mkCounter 1 0) s'.
Proof.
  split; [exact HandlersDemo.serving_accounts|].
  pose proof HandlersDemo.run_rows as Hrun. unfold HandlersDemo.row_count in Hrun.
  pose proof (exchange_gives_permits_back (Semaphore0 := count_semaphore) (SemaphoreLaws0 := count_semaphore_laws)
    InferenceDemo.start InferenceDemo.order (λ r, r) (λ _, "") (λ _, None) (λ _, "row") (λ _, "") (λ _, None)
    (λ _, None) (λ _ _, None) (λ _, None) (λ _, "") (λ _, Ok tt) (λ _ _, Null) default_vision_config AnonymousAdmin "q" HandlersDemo.fresh 8
    HandlersDemo.body HandlersDemo.chat_body HandlersDemo.responses_body HandlersDemo.handler (mkCounter 16 0) (mkCounter 1 0)
    HandlersDemo.serving (base.list_elem_of_here _ _) HandlersDemo.serving_accounts) as H.
  change (exchange _ _ _ _ _ _ _ _ _ _) with HandlersDemo.run in H.
  destruct HandlersDemo.run as [rows s'|e s'|]; [|discriminate Hrun..].
  exists rows, s'. split; [reflexivity|]. split; [congruence|exact H].
Defined.
