(* ===== verification/Gguf.v ===== *)
(** The probe of a model file ([crates/model-registry/src/lib.rs]): the header and the
    metadata of a GGUF file are read only as far as the architecture and the name of
    the model need, every other value is skipped.

    A file is the bytes that are left to read. [skip_value] calls itself for the
    elements of an array: it carries fuel, and running out of it is the outcome
    [Panic]. *)

From stdpp Require Import base strings list numbers pretty.
From Stdlib Require Import Lia.
From S2P Require Import Prelude Text Generation Inference.

Inductive RegistryError : Type :=
| InvalidUri
| DigestDiffers (expected actual : string)
| IoError
| HttpError
| InvalidMetadata (message : string)
| JsonError.

Record ModelMetadata : Type := mkMetadata {
  md_architecture : string;
  md_name : option string;
}.

Abbreviation G := (M bytes RegistryError).

Definition invalid {S A} (message : string) : M S RegistryError A := throw (InvalidMetadata message).

(** ** Reading *)

(** [reader.read_exact(..)] of a buffer of [n] bytes. *)
Definition read_exact (n : N) : G bytes := λ bs,
  if (N.of_nat (length bs) <? n)%N then Fail IoError []
  else Done (take (N.to_nat n) bs) (drop (N.to_nat n) bs).

(** [u32::from_le_bytes] and [u64::from_le_bytes] *)
Definition from_le_bytes (bs : bytes) : N := foldr (λ b n, b + 256 * n)%N 0%N bs.

Definition read_u32 : G N := bs ← read_exact 4; mret (from_le_bytes bs).

Definition read_u64 : G N := bs ← read_exact 8; mret (from_le_bytes bs).

Definition string_of_bytes (bs : bytes) : string := String.string_of_list_ascii (Ascii.ascii_of_N <$> bs).

Definition STRING_LIMIT : N := N.shiftl 16 20.

Definition read_string : G string :=
  length ← read_u64;
  _ ← guard_not (STRING_LIMIT <? length)%N (InvalidMetadata "metadata string exceeds 16 MiB");
  bs ← read_exact length;
  match from_utf8 bs with
  | Utf8Ok => mret (string_of_bytes bs)
  | Utf8Error _ _ => invalid "metadata string is not UTF-8"
  end.

(** The size of a value that is neither a string nor an array. *)
Definition scalar_size (kind : N) : option N :=
  if existsb (N.eqb kind) [0; 1; 7]%N then Some 1%N
  else if existsb (N.eqb kind) [2; 3]%N then Some 2%N
  else if existsb (N.eqb kind) [4; 5; 6]%N then Some 4%N
  else if existsb (N.eqb kind) [10; 11; 12]%N then Some 8%N
  else None.

Definition STRING : N := 8.

Definition ARRAY : N := 9.

Definition COUNT_LIMIT : N := 1000000.

Fixpoint times (n : nat) (m : G unit) : G unit :=
  match n with
  | O => mret tt
  | S n' => _ ← m; times n' m
  end.

Fixpoint skip_value (fuel : nat) (kind : N) : G unit :=
  match fuel with
  | O => panic
  | S fuel' =>
      match scalar_size kind with
      | Some n => _ ← read_exact n; mret tt
      | None =>
          if (kind =? STRING)%N then _ ← read_string; mret tt
          else if (kind =? ARRAY)%N then
            element ← read_u32;
            count ← read_u64;
            _ ← guard_not (COUNT_LIMIT <? count)%N (InvalidMetadata "metadata array is unreasonably large");
            times (N.to_nat count) (skip_value fuel' element)
          else invalid ("unknown metadata type " +:+ pretty kind)
      end
  end.

(** ** The probe *)

Definition ARCHITECTURE_KEY : string := "general.architecture".

Definition NAME_KEY : string := "general.name".

(** The values that have been found. *)
Record Found : Type := mkFound {
  fd_architecture : option string;
  fd_name : option string;
}.

Definition probe_entry (fuel : nat) (found : Found) : G Found :=
  key ← read_string;
  kind ← read_u32;
  if (String.eqb key ARCHITECTURE_KEY || String.eqb key NAME_KEY) && (kind =? STRING)%N then
    value ← read_string;
    mret (if String.eqb key ARCHITECTURE_KEY then mkFound (Some value) (fd_name found)
          else mkFound (fd_architecture found) (Some value))
  else
    _ ← skip_value fuel kind;
    mret found.

Fixpoint probe_entries (fuel count : nat) (found : Found) : G Found :=
  match count with
  | O => mret found
  | S count' => found ← probe_entry fuel found; probe_entries fuel count' found
  end.

Definition MAGIC : bytes := chars "GGUF".

Definition known_version (version : N) : bool := (2 <=? version)%N && (version <=? 3)%N.

(** The file is opened and read from its start; its length bounds the calls of
    [skip_value] inside one another. *)
Definition probe_gguf : G ModelMetadata := λ file,
  (magic ← read_exact 4;
   _ ← guard_not (negb (bool_decide (magic = MAGIC))) (InvalidMetadata "missing GGUF magic");
   version ← read_u32;
   _ ← guard_not (negb (known_version version))
         (InvalidMetadata ("unsupported GGUF version " +:+ pretty version));
   _ ← read_u64;
   metadata_count ← read_u64;
   _ ← guard_not (COUNT_LIMIT <? metadata_count)%N
         (InvalidMetadata "metadata entry count is unreasonably large");
   found ← probe_entries (S (length file)) (N.to_nat metadata_count) (mkFound None None);
   architecture ← ok_or (fd_architecture found) (InvalidMetadata "general.architecture is absent");
   mret (mkMetadata architecture (fd_name found))) file.

(** ** The format *)

(** What a GGUF file says: values by kind, in the order of the file. *)
Inductive MetadataValue : Type :=
| Scalar (kind : N) (raw : bytes)
| Str (s : string)
| Arr (element : N) (values : list MetadataValue).

Definition kind_of (v : MetadataValue) : N :=
  match v with Scalar kind _ => kind | Str _ => STRING | Arr _ _ => ARRAY end.

Fixpoint le_bytes (n : nat) (x : N) : bytes :=
  match n with O => [] | S n' => (x mod 256)%N :: le_bytes n' (x / 256) end.

Definition encode_string (s : string) : bytes := le_bytes 8 (N.of_nat (String.length s)) ++ chars s.

Fixpoint encode_value (v : MetadataValue) : bytes :=
  match v with
  | Scalar _ raw => raw
  | Str s => encode_string s
  | Arr element values =>
      le_bytes 4 element ++ le_bytes 8 (N.of_nat (length values)) ++ concat (encode_value <$> values)
  end.

Definition encode_entry (entry : string * MetadataValue) : bytes :=
  encode_string entry.1 ++ le_bytes 4 (kind_of entry.2) ++ encode_value entry.2.

Definition encode_file (version tensors : N) (entries : list (string * MetadataValue)) : bytes :=
  MAGIC ++ le_bytes 4 version ++ le_bytes 8 tensors ++ le_bytes 8 (N.of_nat (length entries))
  ++ concat (encode_entry <$> entries).

Definition byte (b : N) : Prop := (b < 256)%N.

Definition string_ok (s : string) : Prop :=
  (N.of_nat (String.length s) ≤ STRING_LIMIT)%N ∧ from_utf8 (chars s) = Utf8Ok.

Fixpoint value_ok (v : MetadataValue) : Prop :=
  match v with
  | Scalar kind raw => scalar_size kind = Some (N.of_nat (length raw)) ∧ Forall byte raw
  | Str s => string_ok s
  | Arr element values =>
      (element < 2 ^ 32)%N ∧ (N.of_nat (length values) ≤ COUNT_LIMIT)%N
      ∧ foldr (λ v p, (kind_of v = element ∧ value_ok v) ∧ p) True values
  end.

Definition entry_ok (entry : string * MetadataValue) : Prop := string_ok entry.1 ∧ value_ok entry.2.

(** The last string under a key. *)
Definition last_string (key : string) (entries : list (string * MetadataValue)) : option string :=
  list.last (omap (λ entry, match entry.2 with
                            | Str s => if String.eqb entry.1 key then Some s else None
                            | _ => None
                            end) entries).

(** The file describes the entries: its header is known, and nothing is larger than
    the probe accepts. What follows the metadata is not looked at. *)
Record describes (file : bytes) (entries : list (string * MetadataValue)) : Prop := {
  ds_entries : Forall entry_ok entries;
  ds_count : (N.of_nat (length entries) ≤ COUNT_LIMIT)%N;
  ds_file : ∃ version tensors tail,
    (2 ≤ version ≤ 3)%N ∧ (tensors < 2 ^ 64)%N ∧ file = encode_file version tensors entries ++ tail;
}.
