(* ===== verification/GgufLaws.v ===== *)
(** The probe of a model file accepts exactly the files of the format that say what
    the architecture is, and returns what they say. *)

From stdpp Require Import base strings list numbers pretty.
From Stdlib Require Import Lia.
From S2P Require Import Prelude Text Generation Inference Gguf.

(** ** Bytes *)

Lemma from_le_le n x : (x < 256 ^ N.of_nat n)%N → from_le_bytes (le_bytes n x) = x.
Proof.
  revert x. induction n as [|n IH]; intros x Hx; [cbn in *; lia|].
  cbn [le_bytes from_le_bytes foldr].
  rewrite Nat2N.inj_succ, N.pow_succ_r' in Hx. pose proof (N.div_mod x 256 ltac:(done)).
  change (foldr _ _ _) with (from_le_bytes (le_bytes n (x / 256))). rewrite IH; [lia|].
  apply N.Div0.div_lt_upper_bound. lia.
Qed.

Lemma le_bytes_length n x : length (le_bytes n x) = n.
Proof. revert x. induction n as [|n IH]; intros x; [done|]. cbn. by rewrite IH. Qed.

Lemma le_from_le bs : Forall byte bs → le_bytes (length bs) (from_le_bytes bs) = bs.
Proof.
  induction 1 as [|b bs Hb _ IH]; [done|]. cbn [length le_bytes from_le_bytes foldr].
  change (foldr _ _ _) with (from_le_bytes bs). unfold byte in Hb.
  rewrite (N.mul_comm 256), N.Div0.mod_add, (N.mod_small b 256) by done.
  rewrite N.div_add, (N.div_small b 256) by done. by rewrite N.add_0_l, IH.
Qed.

Lemma from_le_bound bs : Forall byte bs → (from_le_bytes bs < 256 ^ N.of_nat (length bs))%N.
Proof.
  induction 1 as [|b bs Hb _ IH]; [cbn; lia|]. cbn [length from_le_bytes foldr].
  change (foldr _ _ _) with (from_le_bytes bs). unfold byte in Hb. rewrite Nat2N.inj_succ, N.pow_succ_r'. lia.
Qed.

Lemma chars_bytes s : Forall byte (chars s).
Proof.
  unfold chars. apply list.Forall_fmap, list.Forall_true. intros c. apply Ascii.N_ascii_bounded.
Qed.

Lemma chars_length s : length (chars s) = String.length s.
Proof. unfold chars. rewrite length_fmap. by induction s; cbn; [|f_equal]. Qed.

Lemma chars_of_bytes bs : Forall byte bs → chars (string_of_bytes bs) = bs.
Proof.
  intros Hb. unfold chars, string_of_bytes. rewrite String.list_ascii_of_string_of_list_ascii.
  induction Hb as [|b bs Hb _ IH]; [done|]. cbn. rewrite IH. f_equal. by apply Ascii.N_ascii_embedding.
Qed.

Lemma string_of_chars s : string_of_bytes (chars s) = s.
Proof.
  unfold chars, string_of_bytes. rewrite <- list_fmap_compose.
  rewrite (list_fmap_ext _ id), list_fmap_id; [apply String.string_of_list_ascii_of_string|].
  intros _ c _. apply Ascii.ascii_N_embedding.
Qed.

(** ** Readers *)

(** A reader of the values that are encoded so, and of nothing else. *)
Record reads {A} (m : G A) (enc : A → bytes) (ok : A → Prop) : Prop := {
  ex_complete : ∀ a rest, ok a → m (enc a ++ rest) = Done a rest;
  ex_sound : ∀ bs, Forall byte bs →
    match m bs with Done a rest => ok a ∧ bs = enc a ++ rest | Fail _ _ => True | Panic => False end;
}.

Lemma read_exact_ok n : reads (read_exact n) id (λ raw, N.of_nat (length raw) = n).
Proof.
  split.
  - intros raw rest <-. unfold read_exact, id. rewrite length_app, Nat2N.id.
    destruct (N.ltb_spec (N.of_nat (length raw + length rest)) (N.of_nat (length raw))); [lia|].
    by rewrite take_app_length, drop_app_length.
  - intros bs _. unfold read_exact. destruct (N.ltb_spec (N.of_nat (length bs)) n); [done|].
    split; [|symmetry; apply take_drop]. rewrite length_take. lia.
Qed.

Lemma read_le_ok n :
  reads (bs ← read_exact (N.of_nat n); mret (from_le_bytes bs)) (le_bytes n) (λ x, x < 256 ^ N.of_nat n)%N.
Proof.
  destruct (read_exact_ok (N.of_nat n)) as [Hc Hs]. unfold id in *. split.
  - intros x rest Hx. unfold mbind, M_bind.
    rewrite (Hc (le_bytes n x) rest) by (by rewrite le_bytes_length). unfold mret, M_ret. by rewrite from_le_le.
  - intros bs Hb. specialize (Hs bs Hb). unfold mbind, M_bind. destruct (read_exact _ bs) as [raw rest| |]; [|done..].
    destruct Hs as [Hlen ->]. apply Nat2N.inj in Hlen. apply Forall_app in Hb as [Hraw _].
    unfold mret, M_ret. split; [rewrite <- Hlen; by apply from_le_bound|]. rewrite <- Hlen. by rewrite le_from_le.
Qed.

Lemma read_u32_ok : reads read_u32 (le_bytes 4) (λ x, x < 2 ^ 32)%N.
Proof. exact (read_le_ok 4). Qed.

Lemma read_u64_ok : reads read_u64 (le_bytes 8) (λ x, x < 2 ^ 64)%N.
Proof. exact (read_le_ok 8). Qed.

(** Steps of a reader: what is read next is known, or has to be there. *)
Lemma read_next {A B} (m : G A) enc ok a rest (k : A → G B) :
  reads m enc ok → ok a → (m ≫= k) (enc a ++ rest) = k a rest.
Proof. intros [Hc _] Ha. unfold mbind, M_bind. by rewrite Hc. Qed.

Lemma read_raw {B} n raw rest (k : bytes → G B) :
  N.of_nat (length raw) = n → (read_exact n ≫= k) (raw ++ rest) = k raw rest.
Proof. apply (read_next _ id _ raw rest k (read_exact_ok n)). Qed.

Lemma guard_passes {B} (b : bool) e (k : G B) bs : b = false → (_ ← guard_not b e; k) bs = k bs.
Proof. by intros ->. Qed.

Definition sound {B} (Q : B → bytes → Prop) (o : outcome bytes RegistryError B) : Prop :=
  match o with Done b rest => Q b rest | Fail _ _ => True | Panic => False end.

Lemma sound_next {A B} (m : G A) enc ok (k : A → G B) (Q : B → bytes → Prop) bs :
  reads m enc ok → Forall byte bs →
  (∀ a rest, ok a → bs = enc a ++ rest → Forall byte rest → sound Q (k a rest)) →
  sound Q ((m ≫= k) bs).
Proof.
  intros [_ Hs] Hb Hk. specialize (Hs bs Hb). unfold mbind, M_bind. destruct (m bs) as [a rest| |]; [|done..].
  destruct Hs as [Ha Heq]. apply (Hk a rest Ha Heq). rewrite Heq in Hb. by apply Forall_app in Hb as [_ ?].
Qed.

Lemma sound_guard {B} (b : bool) e (k : G B) Q bs : (b = false → sound Q (k bs)) → sound Q ((_ ← guard_not b e; k) bs).
Proof. intros H. unfold mbind, M_bind, guard_not. destruct b; [done|by apply H]. Qed.

Lemma sound_raw {B} n (k : bytes → G B) (Q : B → bytes → Prop) bs :
  Forall byte bs →
  (∀ raw rest, N.of_nat (length raw) = n → bs = raw ++ rest → Forall byte raw → Forall byte rest → sound Q (k raw rest)) →
  sound Q ((read_exact n ≫= k) bs).
Proof.
  intros Hb Hk. apply (sound_next _ id _ _ _ _ (read_exact_ok n) Hb). intros raw rest Hlen Heq Hrest.
  apply Hk; [done..| |done]. rewrite Heq in Hb. by apply Forall_app in Hb as [? _].
Qed.

Lemma read_string_ok : reads read_string encode_string string_ok.
Proof.
  split.
  - intros s rest [Hlen Hutf]. unfold read_string, encode_string. rewrite <- app_assoc.
    rewrite (read_next _ _ _ _ _ _ read_u64_ok) by (eapply N.le_lt_trans; [exact Hlen|by vm_compute]).
    unfold mbind at 1, M_bind at 1, guard_not. rewrite (proj2 (N.ltb_ge _ _)) by done. cbn [mret M_ret].
    unfold mret at 1, M_ret at 1.
    rewrite (read_raw _ (chars s)) by (by rewrite chars_length).
    rewrite Hutf. unfold mret, M_ret. by rewrite string_of_chars.
  - intros bs Hb. unfold read_string.
    apply (sound_next _ _ _ _ (λ s rest, string_ok s ∧ bs = encode_string s ++ rest) _ read_u64_ok Hb).
    intros n rest Hn -> Hrest. apply sound_guard. intros Hlimit. apply N.ltb_ge in Hlimit.
    apply sound_raw; [done|]. intros raw rest' Hlen -> Hraw _.
    destruct (from_utf8 raw) eqn:Hutf; [|done]. unfold sound, mret, M_ret.
    assert (String.length (string_of_bytes raw) = length raw) as Hl by (by rewrite <- chars_length, chars_of_bytes).
    unfold string_ok, encode_string. rewrite chars_of_bytes, Hl, Hlen by done. split; [done|]. by rewrite app_assoc.
Qed.

(** ** Values *)

Section value_ind.
Variable P : MetadataValue → Prop.
Hypothesis Hscalar : ∀ kind raw, P (Scalar kind raw).
Hypothesis Hstr : ∀ s, P (Str s).
Hypothesis Harr : ∀ element values, Forall P values → P (Arr element values).

Fixpoint value_ind (v : MetadataValue) : P v :=
  match v with
  | Scalar kind raw => Hscalar kind raw
  | Str s => Hstr s
  | Arr element values =>
      Harr element values ((fix all l : Forall P l :=
        match l with [] => @List.Forall_nil _ P | v :: l' => @List.Forall_cons _ P _ _ (value_ind v) (all l') end) values)
  end.
End value_ind.

(** How deep the arrays of a value are inside one another. *)
Fixpoint depth (v : MetadataValue) : nat :=
  match v with Arr _ values => S (foldr (λ v n, max (depth v) n) 0 values) | _ => 0 end.

Definition elements_ok (element : N) (values : list MetadataValue) : Prop :=
  Forall (λ v, kind_of v = element ∧ value_ok v) values.

Lemma value_ok_arr element values :
  value_ok (Arr element values)
  ↔ (element < 2 ^ 32)%N ∧ (N.of_nat (length values) ≤ COUNT_LIMIT)%N ∧ elements_ok element values.
Proof.
  cbn. assert (foldr (λ v p, (kind_of v = element ∧ value_ok v) ∧ p) True values ↔ elements_ok element values) as ->; [|done].
  unfold elements_ok. induction values as [|v values IH]; cbn; [split; [constructor|done]|].
  rewrite IH, list.Forall_cons. done.
Qed.

Lemma depth_length v : depth v ≤ length (encode_value v).
Proof.
  induction v as [| |element values IH] using value_ind; cbn [depth encode_value]; [lia..|].
  rewrite !length_app, !le_bytes_length.
  assert (foldr (λ v n, max (depth v) n) 0 values ≤ length (concat (encode_value <$> values))); [|lia].
  induction IH as [|v values Hv _ IH]; cbn; [done|]. rewrite length_app. lia.
Qed.

Lemma times_complete element values fuel rest :
  Forall (λ v, ∀ rest, skip_value fuel (kind_of v) (encode_value v ++ rest) = Done tt rest) values →
  Forall (λ v, kind_of v = element) values →
  times (length values) (skip_value fuel element) (concat (encode_value <$> values) ++ rest) = Done tt rest.
Proof.
  intros H1 H2. revert rest. induction H1 as [|v values Hv _ IH]; intros rest; [done|].
  apply list.Forall_cons in H2 as [<- H2]. cbn [length times fmap list_fmap concat].
  rewrite <- app_assoc. unfold mbind, M_bind. rewrite Hv. by apply IH.
Qed.

Lemma skip_complete v fuel rest :
  value_ok v → depth v < fuel → skip_value fuel (kind_of v) (encode_value v ++ rest) = Done tt rest.
Proof.
  revert fuel rest. induction v as [kind raw|s|element values IH] using value_ind; intros fuel rest Hok Hd;
    (destruct fuel as [|fuel]; [lia|]); cbn [skip_value kind_of encode_value].
  - destruct Hok as [-> _]. by rewrite (read_raw _ raw).
  - change (scalar_size STRING) with (@None N). cbn [N.eqb STRING Pos.eqb].
    by rewrite (read_next _ _ _ s rest _ read_string_ok).
  - apply value_ok_arr in Hok as (He & Hc & Hvs). change (scalar_size ARRAY) with (@None N).
    change (ARRAY =? STRING)%N with false. change (ARRAY =? ARRAY)%N with true. cbv iota.
    rewrite <- !app_assoc, (read_next _ _ _ _ _ _ read_u32_ok) by done.
    rewrite (read_next _ _ _ _ _ _ read_u64_ok) by (eapply N.le_lt_trans; [exact Hc|by vm_compute]).
    unfold mbind at 1, M_bind at 1, guard_not. rewrite (proj2 (N.ltb_ge _ _)) by done.
    unfold mret at 1, M_ret at 1. rewrite Nat2N.id. cbn [depth] in Hd. apply Nat.succ_lt_mono in Hd. apply times_complete.
    + clear -IH Hvs Hd. induction Hvs as [|v values [_ Hv] _ IHv]; [constructor|].
      apply list.Forall_cons in IH as [IH0 IH]. cbn in Hd. constructor; [|apply IHv; [done|lia]].
      intros rest. apply IH0; [done|lia].
    + eapply list.Forall_impl; [exact Hvs|]. by intros v [? _].
Qed.

(** What was skipped was a value of the kind. *)
Definition skipped (kind : N) (bs : bytes) (_ : unit) (rest : bytes) : Prop :=
  ∃ v, value_ok v ∧ kind_of v = kind ∧ bs = encode_value v ++ rest.

Lemma times_sound element n fuel bs :
  (∀ bs, length bs < fuel → Forall byte bs → sound (skipped element bs) (skip_value fuel element bs)) →
  length bs < fuel → Forall byte bs →
  sound (λ _ rest, ∃ values, length values = n ∧ elements_ok element values
                             ∧ bs = concat (encode_value <$> values) ++ rest)
    (times n (skip_value fuel element) bs).
Proof.
  intros Hskip. revert bs. induction n as [|n IH]; intros bs Hlen Hb.
  - exists []. split; [done|]. split; [constructor|done].
  - cbn [times]. unfold mbind, M_bind. specialize (Hskip bs Hlen Hb).
    destruct (skip_value fuel element bs) as [[] rest| |]; [|done..]. destruct Hskip as (v & Hv & Hk & ->).
    apply Forall_app in Hb as [_ Hb]. rewrite length_app in Hlen. specialize (IH rest ltac:(lia) Hb).
    destruct (times n _ rest) as [[] rest'| |]; [|done..]. destruct IH as (values & Hn & Hvs & ->).
    exists (v :: values). cbn. split; [by rewrite Hn|]. split; [by constructor|]. by rewrite <- app_assoc.
Qed.

(** More fuel than bytes is enough: every array has twelve bytes of its own. *)
Lemma skip_sound fuel kind bs :
  length bs < fuel → Forall byte bs → sound (skipped kind bs) (skip_value fuel kind bs).
Proof.
  revert kind bs. induction fuel as [|fuel IH]; intros kind bs Hlen Hb; [lia|]. cbn [skip_value].
  destruct (scalar_size kind) as [n|] eqn:Hsize.
  - apply sound_raw; [done|]. intros raw rest Hlen' -> Hraw _. exists (Scalar kind raw). cbn. by rewrite Hlen'.
  - destruct (N.eqb_spec kind STRING) as [->|_].
    { apply (sound_next _ _ _ _ _ _ read_string_ok Hb). intros s rest Hs -> _. by exists (Str s). }
    destruct (N.eqb_spec kind ARRAY) as [->|_]; [|done].
    apply (sound_next _ _ _ _ _ _ read_u32_ok Hb). intros element rest He -> Hrest.
    apply (sound_next _ _ _ _ _ _ read_u64_ok Hrest). intros count rest' Hcount -> Hrest'.
    apply sound_guard. intros Hlimit. apply N.ltb_ge in Hlimit.
    pose proof (times_sound element (N.to_nat count) fuel rest' (IH element)) as H.
    rewrite !length_app, !le_bytes_length in Hlen. specialize (H ltac:(lia) Hrest').
    unfold sound in *. destruct (times _ _ rest') as [[] rest''| |]; [|done..].
    destruct H as (values & Hn & Hvs & ->). exists (Arr element values). rewrite value_ok_arr.
    split; [by rewrite Hn, N2Nat.id|]. split; [done|]. cbn [encode_value]. by rewrite Hn, N2Nat.id, <- !app_assoc.
Qed.

(** ** Entries *)

(** What an entry adds to what has been found. *)
Definition note (found : Found) (entry : string * MetadataValue) : Found :=
  match entry.2 with
  | Str s =>
      if String.eqb entry.1 ARCHITECTURE_KEY then mkFound (Some s) (fd_name found)
      else if String.eqb entry.1 NAME_KEY then mkFound (fd_architecture found) (Some s)
      else found
  | _ => found
  end.

Lemma kind_bound v : value_ok v → (kind_of v < 2 ^ 32)%N.
Proof.
  intros Hv. assert (kind_of v ≤ 12)%N as H; [|eapply N.le_lt_trans; [exact H|by vm_compute]].
  destruct v as [kind raw| |]; [|by vm_compute..]. destruct Hv as [Hv _]. unfold scalar_size in Hv. cbn in Hv |- *.
  repeat match goal with
         | H : context [(?a =? ?b)%N] |- _ => destruct (N.eqb_spec a b) as [->|_]; [by vm_compute|]
         end. done.
Qed.

Lemma string_kind v : value_ok v → kind_of v = STRING → ∃ s, v = Str s.
Proof. destruct v as [kind raw|s|]; [|by exists s|done]. cbn. intros [H _] ->. by vm_compute in H. Qed.

(** Whether the value of a key is kept. *)
Definition wanted (key : string) (kind : N) : bool :=
  (String.eqb key ARCHITECTURE_KEY || String.eqb key NAME_KEY) && (kind =? STRING)%N.

Lemma note_unwanted found key v : value_ok v → wanted key (kind_of v) = false → note found (key, v) = found.
Proof.
  unfold wanted, note. cbn [fst snd]. destruct v as [| |]; [done| |done]. intros _. rewrite andb_true_r.
  intros [-> ->]%orb_false_iff. done.
Qed.

Lemma entry_complete entry fuel found rest :
  entry_ok entry → depth entry.2 < fuel → probe_entry fuel found (encode_entry entry ++ rest) = Done (note found entry) rest.
Proof.
  destruct entry as [key v]. intros [Hkey Hv] Hd. unfold probe_entry, encode_entry. cbn [fst snd] in *.
  rewrite <- !app_assoc, (read_next _ _ _ key _ _ read_string_ok) by done.
  rewrite (read_next _ _ _ (kind_of v) _ _ read_u32_ok) by (by apply kind_bound).
  fold (wanted key (kind_of v)). destruct (wanted key (kind_of v)) eqn:Hw.
  - unfold wanted in Hw. apply andb_prop in Hw as [Hk Hs]. apply N.eqb_eq in Hs.
    destruct (string_kind v Hv Hs) as [s ->]. cbn [encode_value].
    rewrite (read_next _ _ _ s _ _ read_string_ok) by done. unfold mret, M_ret, note. cbn [fst snd].
    destruct (String.eqb key ARCHITECTURE_KEY); [done|]. cbn in Hk. by rewrite Hk.
  - unfold mbind, M_bind. rewrite (skip_complete v) by done. by rewrite note_unwanted.
Qed.

Lemma entry_sound fuel found bs :
  length bs < fuel → Forall byte bs →
  sound (λ found' rest, ∃ entry, entry_ok entry ∧ bs = encode_entry entry ++ rest ∧ found' = note found entry)
    (probe_entry fuel found bs).
Proof.
  intros Hlen Hb. unfold probe_entry. apply (sound_next _ _ _ _ _ _ read_string_ok Hb). intros key rest Hkey -> Hrest.
  apply (sound_next _ _ _ _ _ _ read_u32_ok Hrest). intros kind rest' _ -> Hrest'.
  fold (wanted key kind). destruct (wanted key kind) eqn:Hw.
  - apply (sound_next _ _ _ _ _ _ read_string_ok Hrest'). intros s rest'' Hs -> _.
    apply andb_prop in Hw as [Hk ->%N.eqb_eq]. exists (key, Str s). split; [done|].
    unfold encode_entry, note. cbn [fst snd kind_of encode_value]. split; [by rewrite <- !app_assoc|].
    destruct (String.eqb key ARCHITECTURE_KEY); [done|]. cbn in Hk. by rewrite Hk.
  - rewrite !length_app in Hlen. pose proof (skip_sound fuel kind rest' ltac:(lia) Hrest') as H.
    unfold mbind, M_bind. destruct (skip_value fuel kind rest') as [[] rest''| |]; [|done..].
    destruct H as (v & Hv & <- & ->). exists (key, v). split; [done|].
    unfold encode_entry. cbn [fst snd]. split; [by rewrite <- !app_assoc|]. symmetry. by apply note_unwanted.
Qed.

Lemma entries_complete entries fuel found rest :
  Forall entry_ok entries → Forall (λ entry, depth entry.2 < fuel) entries →
  probe_entries fuel (length entries) found (concat (encode_entry <$> entries) ++ rest)
  = Done (foldl note found entries) rest.
Proof.
  intros Hok. revert found. induction Hok as [|entry entries Hentry _ IH]; intros found Hd; [done|].
  apply list.Forall_cons in Hd as [Hd0 Hd]. cbn [length probe_entries fmap list_fmap concat foldl].
  rewrite <- app_assoc. unfold mbind, M_bind. rewrite entry_complete by done. by apply IH.
Qed.

Lemma entries_sound n fuel found bs :
  length bs < fuel → Forall byte bs →
  sound (λ found' rest, ∃ entries, length entries = n ∧ Forall entry_ok entries
           ∧ bs = concat (encode_entry <$> entries) ++ rest ∧ found' = foldl note found entries)
    (probe_entries fuel n found bs).
Proof.
  revert found bs. induction n as [|n IH]; intros found bs Hlen Hb; [by exists []|].
  cbn [probe_entries]. pose proof (entry_sound fuel found bs Hlen Hb) as H. unfold mbind, M_bind.
  destruct (probe_entry fuel found bs) as [found' rest| |]; [|done..]. destruct H as (entry & Hentry & -> & ->).
  apply Forall_app in Hb as [_ Hb]. rewrite length_app in Hlen. specialize (IH (note found entry) rest ltac:(lia) Hb).
  destruct (probe_entries _ _ _ rest) as [found' rest'| |]; [|done..]. destruct IH as (entries & Hn & Hall & -> & ->).
  exists (entry :: entries). cbn [length fmap list_fmap concat foldl]. split_and!; [by rewrite Hn|by constructor| |done].
  by rewrite <- app_assoc.
Qed.

(** *** What has been found *)

Lemma last_string_cons key entry entries :
  last_string key (entry :: entries)
  = match last_string key entries with
    | Some s => Some s
    | None => match entry.2 with Str s => if String.eqb entry.1 key then Some s else None | _ => None end
    end.
Proof.
  unfold last_string. cbn [omap list_omap]. set (f := λ entry : string * MetadataValue, _).
  destruct (f entry) as [s|] eqn:Hf; unfold f in Hf; rewrite Hf.
  - rewrite list.last_cons. by destruct (list.last _).
  - by destruct (list.last _).
Qed.

Lemma found_strings entries found :
  foldl note found entries
  = mkFound (match last_string ARCHITECTURE_KEY entries with Some s => Some s | None => fd_architecture found end)
            (match last_string NAME_KEY entries with Some s => Some s | None => fd_name found end).
Proof.
  revert found. induction entries as [|[key v] entries IH]; intros found; [by destruct found|].
  cbn [foldl]. rewrite IH, !last_string_cons. unfold note. cbn [fst snd].
  destruct v as [| s|]; [by destruct (last_string _ _), (last_string _ _)| |by destruct (last_string _ _), (last_string _ _)].
  destruct (String.eqb_spec key ARCHITECTURE_KEY) as [->|_]; [by destruct (last_string _ _), (last_string _ _)|].
  destruct (String.eqb key NAME_KEY); by destruct (last_string _ _), (last_string _ _).
Qed.

(** ** The probe *)

Definition metadata_of (entries : list (string * MetadataValue)) : option ModelMetadata :=
  (λ architecture, mkMetadata architecture (last_string NAME_KEY entries)) <$> last_string ARCHITECTURE_KEY entries.

Lemma concat_depth entries :
  Forall (λ entry, depth entry.2 ≤ length (concat (encode_entry <$> entries))) entries.
Proof.
  apply list.Forall_forall. intros [key v] (before & after & ->)%list_elem_of_split.
  rewrite fmap_app, concat_app, fmap_cons. cbn [concat snd]. unfold encode_entry at 2. cbn [snd].
  rewrite !length_app. pose proof (depth_length v). lia.
Qed.

Lemma magic_length : length MAGIC = 4.
Proof. reflexivity. Qed.

(** A file that describes entries is read as they say. *)
Lemma probe_described file entries :
  describes file entries →
  match metadata_of entries with
  | Some metadata => ∃ tail, probe_gguf file = Done metadata tail
  | None => ∃ message tail, probe_gguf file = Fail (InvalidMetadata message) tail
  end.
Proof.
  intros [Hok Hcount (version & tensors & tail & Hversion & Htensors & Hfile)].
  assert (probe_entries (S (length file)) (length entries) (mkFound None None) (concat (encode_entry <$> entries) ++ tail)
          = Done (mkFound (last_string ARCHITECTURE_KEY entries) (last_string NAME_KEY entries)) tail) as Hentries.
  { rewrite entries_complete; [|done|].
    - rewrite found_strings. by destruct (last_string ARCHITECTURE_KEY _), (last_string NAME_KEY _).
    - eapply list.Forall_impl; [apply concat_depth|]. cbn beta. intros entry Hd.
      rewrite Hfile. unfold encode_file. rewrite !length_app. lia. }
  unfold probe_gguf. revert Hentries. generalize (S (length file)) as fuel. intros fuel Hentries.
  rewrite Hfile. unfold encode_file. rewrite <- !app_assoc.
  rewrite (read_raw 4 MAGIC) by done. rewrite bool_decide_true by done. rewrite guard_passes by done.
  rewrite (read_next _ _ _ version _ _ read_u32_ok) by lia.
  rewrite guard_passes by (unfold known_version; rewrite !(proj2 (N.leb_le _ _)) by lia; done).
  rewrite (read_next _ _ _ tensors _ _ read_u64_ok) by done.
  rewrite (read_next _ _ _ _ _ _ read_u64_ok) by (eapply N.le_lt_trans; [exact Hcount|by vm_compute]).
  rewrite guard_passes by (by apply N.ltb_ge). rewrite Nat2N.id.
  unfold mbind, M_bind. rewrite Hentries. unfold metadata_of. cbn [fd_architecture fd_name].
  destruct (last_string ARCHITECTURE_KEY entries) as [architecture|].
  - exists tail. reflexivity.
  - exists "general.architecture is absent", tail. reflexivity.
Qed.

(** What is read is what a file says, and reading always returns. *)
Lemma probe_sound file :
  Forall byte file → sound (λ metadata _, ∃ entries, describes file entries ∧ metadata_of entries = Some metadata)
                       (probe_gguf file).
Proof.
  intros Hb. unfold probe_gguf. assert (length file < S (length file)) as Hfuel by lia.
  revert Hfuel. generalize (S (length file)) as fuel. intros fuel Hfuel.
  apply sound_raw; [done|]. intros magic rest _ -> _ Hrest.
  apply sound_guard. intros Hmagic. apply negb_false_iff, bool_decide_eq_true in Hmagic as ->.
  apply (sound_next _ _ _ _ _ _ read_u32_ok Hrest). intros version rest1 _ -> Hrest1.
  apply sound_guard. intros Hversion. apply negb_false_iff, andb_prop in Hversion as [Hv2%N.leb_le Hv3%N.leb_le].
  apply (sound_next _ _ _ _ _ _ read_u64_ok Hrest1). intros tensors rest2 Htensors -> Hrest2.
  apply (sound_next _ _ _ _ _ _ read_u64_ok Hrest2). intros count rest3 _ -> Hrest3.
  apply sound_guard. intros Hcount%N.ltb_ge. rewrite !length_app in Hfuel.
  pose proof (entries_sound (N.to_nat count) fuel (mkFound None None) rest3 ltac:(lia) Hrest3) as H.
  unfold mbind at 1, M_bind at 1. destruct (probe_entries _ _ _ rest3) as [found rest4| |]; [|done..].
  destruct H as (entries & Hn & Hok & -> & ->). rewrite found_strings. cbn [fd_architecture fd_name].
  destruct (last_string ARCHITECTURE_KEY entries) as [architecture|] eqn:Ha; [|done].
  cbn. exists entries. unfold metadata_of. rewrite Ha. split; [|by destruct (last_string NAME_KEY entries)].
  split; [done|by rewrite Hn, N2Nat.id|]. exists version, tensors, rest4. split_and!; [done..|].
  unfold encode_file. by rewrite Hn, N2Nat.id, <- !app_assoc.
Qed.

(** ** Every file is read to an end *)

(** Of fewer bytes than [k] the reader takes some, or fails. *)
Definition ends {A} (k : nat) (m : G A) : Prop :=
  ∀ bs, length bs < k →
    match m bs with Done _ rest => length rest ≤ length bs | Fail _ _ => True | Panic => False end.

Lemma ends_bind {A B} k (m : G A) (f : A → G B) : ends k m → (∀ a, ends k (f a)) → ends k (m ≫= f).
Proof.
  intros Hm Hf bs Hbs. unfold mbind, M_bind. specialize (Hm bs Hbs). destruct (m bs) as [a rest| |]; [|done..].
  specialize (Hf a rest ltac:(lia)). destruct (f a rest); [lia|done..].
Qed.

Lemma ends_read k n : ends k (read_exact n).
Proof. intros bs _. unfold read_exact. destruct (_ <? n)%N; [done|]. rewrite length_drop. lia. Qed.

Lemma ends_ret {A} k (a : A) : ends k (mret a).
Proof. intros bs _. cbn. lia. Qed.

Lemma ends_guard k b (e : RegistryError) : ends k (guard_not b e).
Proof. destruct b; [by intros bs|apply ends_ret]. Qed.

Lemma ends_ok_or {A} k (o : option A) (e : RegistryError) : ends k (ok_or o e).
Proof. destruct o; [apply ends_ret|by intros bs]. Qed.

Lemma ends_u32 k : ends k read_u32.
Proof. apply ends_bind; [apply ends_read|intros ?; apply ends_ret]. Qed.

Lemma ends_u64 k : ends k read_u64.
Proof. apply ends_bind; [apply ends_read|intros ?; apply ends_ret]. Qed.

Lemma ends_string k : ends k read_string.
Proof.
  apply ends_bind; [apply ends_u64|intros n]. apply ends_bind; [apply ends_guard|intros _].
  apply ends_bind; [apply ends_read|]. intros bs. destruct (from_utf8 bs); [apply ends_ret|by intros rest].
Qed.

Lemma ends_times k n (m : G unit) : ends k m → ends k (times n m).
Proof. intros Hm. induction n as [|n IH]; cbn [times]; [apply ends_ret|by apply ends_bind]. Qed.

(** What is read first leaves less for the rest. *)
Lemma ends_after_u32 {A} k (f : N → G A) : (∀ a, ends k (f a)) → ends (S k) (read_u32 ≫= f).
Proof.
  intros Hf bs Hbs. unfold read_u32, read_exact, mbind, M_bind. destruct (N.ltb_spec (N.of_nat (length bs)) 4) as [|Hlen]; [done|].
  unfold mret, M_ret. change (N.to_nat 4) with 4. assert (length (drop 4 bs) ≤ length bs - 4) as Hd by (rewrite length_drop; lia).
  generalize dependent (drop 4 bs). intros rest Hd. specialize (Hf (from_le_bytes (take 4 bs)) rest ltac:(lia)).
  destruct (f _ rest); [lia|done..].
Qed.

Lemma ends_skip fuel kind : ends fuel (skip_value fuel kind).
Proof.
  revert kind. induction fuel as [|fuel IH]; intros kind; [intros bs H; lia|]. cbn [skip_value].
  destruct (scalar_size kind); [apply ends_bind; [apply ends_read|intros ?; apply ends_ret]|].
  destruct (kind =? STRING)%N; [apply ends_bind; [apply ends_string|intros ?; apply ends_ret]|].
  destruct (kind =? ARRAY)%N; [|by intros bs].
  apply ends_after_u32. intros element. apply ends_bind; [apply ends_u64|intros count].
  apply ends_bind; [apply ends_guard|intros _]. by apply ends_times.
Qed.

Lemma ends_entries fuel n found : ends fuel (probe_entries fuel n found).
Proof.
  revert found. induction n as [|n IH]; intros found; [apply ends_ret|]. cbn [probe_entries]. apply ends_bind; [|apply IH].
  unfold probe_entry. apply ends_bind; [apply ends_string|intros key]. apply ends_bind; [apply ends_u32|intros kind].
  destruct (_ && _); (apply ends_bind; [apply ends_string || apply ends_skip|intros ?; apply ends_ret]).
Qed.

Lemma probe_returns file : probe_gguf file ≠ Panic.
Proof.
  unfold probe_gguf. intros H. set (k := S (length file)) in *.
  assert (length file < k) as Hk by (unfold k; lia). revert H Hk. generalize k. clear k. intros k.
  match goal with |- ?m file = Panic → _ => assert (ends k m) as Hends end.
  { do 4 (apply ends_bind; [apply ends_read || apply ends_u32 || apply ends_guard|intros ?]).
    do 2 (apply ends_bind; [apply ends_u64|intros ?]). apply ends_bind; [apply ends_guard|intros _].
    apply ends_bind; [apply ends_entries|intros found]. apply ends_bind; [apply ends_ok_or|intros architecture]. apply ends_ret. }
  intros H Hk. specialize (Hends file Hk). by rewrite H in Hends.
Qed.

(** C16: The probe of a model file returns the architecture and the name that the file
    says, whatever other metadata is around them, and refuses exactly the files that
    are not of the format, exceed its limits or do not name an architecture: a file is
    accepted if and only if it is a known header and the encoding of a list of entries,
    strings that are UTF-8 and at most 16 MiB and arrays inside arrays included, and
    then the last string under each key is what is returned. Reading never goes on
    beyond the bytes of the file. *)
Theorem gguf_probe_exact file :
  Forall byte file →
  (∀ metadata, (∃ tail, probe_gguf file = Done metadata tail)
               ↔ ∃ entries, describes file entries ∧ metadata_of entries = Some metadata)
  ∧ probe_gguf file ≠ Panic.
Proof.
  intros Hb. pose proof (probe_sound file Hb) as Hsound. split; [|by intros Hp; rewrite Hp in Hsound].
  intros metadata. split.
  - intros [tail Hp]. by rewrite Hp in Hsound.
  - intros (entries & Hd & Hm). pose proof (probe_described file entries Hd) as H. by rewrite Hm in H.
Qed.

(** A file with arrays inside arrays, between the two keys. *)
Definition demo_entries : list (string * MetadataValue) :=
  [("general.name", Str "first"); ("general.name", Str "E2B");
   ("tokens", Arr ARRAY [Arr STRING [Str "a"; Str "b"]; Arr 0 [Scalar 0 [1]; Scalar 0 [2]]]);
   ("general.architecture", Str "gemma4")]%N.

Definition demo_file : bytes := encode_file 3 7 demo_entries ++ [1; 2; 3]%N.

Lemma gguf_probe_exact_witness :
  Forall byte demo_file
  ∧ ∃ entries, describes demo_file entries ∧ metadata_of entries = Some (mkMetadata "gemma4" (Some "E2B")).
Proof.
  assert (Forall byte demo_file) as Hb.
  { apply (bool_decide_unpack (Forall (λ b, b < 256)%N demo_file)). vm_compute. exact I. }
  split; [exact Hb|]. apply (proj1 (gguf_probe_exact demo_file Hb)). exists [1; 2; 3]%N. vm_compute. reflexivity.
Defined.

(** Every array inside another is a call inside another: the depth of the calls is
    that of the file, and a file of twelve bytes for each is enough. *)
Fixpoint nested (n : nat) : MetadataValue :=
  match n with O => Arr 0 [] | S n' => Arr ARRAY [nested n'] end.

Lemma nested_value_ok n : value_ok (nested n).
Proof.
  induction n as [|n IH]; [split_and!; by vm_compute|]. apply value_ok_arr. split; [by vm_compute|].
  split; [by vm_compute|]. constructor; [|constructor]. by destruct n.
Qed.

Lemma nested_calls n rest :
  length (encode_value (nested n)) = 12 * S n ∧ skip_value n ARRAY (encode_value (nested n) ++ rest) = Panic.
Proof.
  revert rest. induction n as [|n IH]; intros rest; [done|]. cbn [nested encode_value]. destruct (IH rest) as [Hlen _]. split.
  - cbn [fmap list_fmap concat length]. rewrite !length_app, !le_bytes_length, Hlen. cbn. lia.
  - cbn [skip_value]. change (scalar_size ARRAY) with (@None N). change (ARRAY =? STRING)%N with false.
    change (ARRAY =? ARRAY)%N with true. cbv iota. rewrite <- !app_assoc.
    rewrite (read_next _ _ _ _ _ _ read_u32_ok) by (by vm_compute).
    rewrite (read_next _ _ _ _ _ _ read_u64_ok) by (by vm_compute). rewrite guard_passes by done.
    cbn [length fmap list_fmap concat]. rewrite Nat2N.id, app_nil_r. cbn [times].
    unfold mbind, M_bind. by rewrite (proj2 (IH rest)).
Qed.
