(* ===== verification/Registry.v ===== *)
(** The model registry ([crates/model-registry/src/lib.rs]): a model file named by a
    reference to the hub is downloaded, resumed where an earlier download ended, checked
    against its digest and stamped, so that it is not read again while it is unchanged.

    The files are a map from their paths. Each call of the file system that opens, makes,
    writes, renames or removes something takes its outcome from a list in the state, and
    what is written gets the next reading of the clock as its time of modification;
    whether a file is there is always known. The digest, the JSON of a stamp and the
    answers of the hub are parameters; a path is its text. *)

From stdpp Require Import gmap strings list numbers pretty.
From Stdlib Require Import Lia.
From S2P Require Import Prelude Text Generation Inference Json Config Vision Lowering Gguf.

Definition GEMMA_URI : string := "hf://unsloth/gemma-4-E2B-it-GGUF/gemma-4-E2B-it-Q3_K_M.gguf".

Record ModelRecord : Type := mkModelRecord {
  mo_identity : string;
  mo_path : string;
  mo_sha256 : string;
  mo_size : N;
}.

Record DownloadProgress : Type := mkProgress {
  dp_total : option N;
  dp_completed : N;
}.

Record CacheStamp : Type := mkStamp {
  cs_sha256 : string;
  cs_size : N;
  cs_modified_ns : N;
}.

(** What the HTTP library returns of a call that succeeds: a status below 400, two
    headers, and the parts that the body is read in, with whether its end is reached. *)
Record HttpResponse : Type := mkHttpResponse {
  hr_status : N;
  hr_content_range : option string;
  hr_content_length : option string;
  hr_body : list bytes;
  hr_complete : bool;
}.

Record File : Type := mkFile {
  fl_bytes : bytes;
  fl_modified_ns : N;
}.

(** A write can stop after some of its bytes. *)
Inductive Outcome : Type := Works | Fails | Stops (n : nat).

Record Disk : Type := mkDisk {
  dk_files : gmap string File;
  dk_io : list Outcome;
  dk_clock : N;
  dk_progress : list DownloadProgress;
}.

(** ** Text *)

Definition slash : Ascii.ascii := Ascii.ascii_of_nat 47.

Definition at_sign : Ascii.ascii := Ascii.ascii_of_nat 64.

Definition dot : Ascii.ascii := Ascii.ascii_of_nat 46.

(** [s.rsplit_once(c)] *)
Fixpoint rsplit_once (c : Ascii.ascii) (s : string) : option (string * string) :=
  match s with
  | EmptyString => None
  | String x s' =>
      match rsplit_once c s' with
      | Some (a, b) => Some (String x a, b)
      | None => if Ascii.eqb x c then Some ("", s') else None
      end
  end.

(** [s.split(c)] *)
Fixpoint split (c : Ascii.ascii) (s : string) : list string :=
  match s with
  | EmptyString => [""]
  | String x s' =>
      if Ascii.eqb x c then "" :: split c s'
      else match split c s' with
           | part :: parts => String x part :: parts
           | [] => [String x ""]
           end
  end.

Definition is_hexdigit (c : Ascii.ascii) : bool :=
  let n := Ascii.N_of_ascii c in
  ((48 <=? n) && (n <=? 57) || (65 <=? n) && (n <=? 70) || (97 <=? n) && (n <=? 102))%N.

Definition is_commit (s : string) : bool :=
  (String.length s =? 40) && forallb is_hexdigit (String.list_ascii_of_string s).

Definition eq_ignore_ascii_case (a b : string) : bool := String.eqb (to_ascii_lowercase a) (to_ascii_lowercase b).

(** [text.parse::<u64>()] *)
Definition digit (c : Ascii.ascii) : option N :=
  let n := Ascii.N_of_ascii c in if ((48 <=? n) && (n <=? 57))%N then Some (n - 48)%N else None.

Fixpoint parse_digits (n : N) (l : list Ascii.ascii) : option N :=
  match l with
  | [] => Some n
  | c :: l' => d ← digit c; if (u64_max <? 10 * n + d)%N then None else parse_digits (10 * n + d) l'
  end.

Definition parse_u64 (s : string) : option N :=
  let l := String.list_ascii_of_string s in
  let l := match l with c :: (_ :: _) as l' => if Ascii.eqb c (Ascii.ascii_of_nat 43) then tail l else l | _ => l end in
  match l with [] => None | _ => parse_digits 0 l end.

(** ** Paths *)

Definition join (a b : string) : string := a +:+ "/" +:+ b.

(** The path is one component that is a name: a leading dot is kept as a component,
    later ones and empty parts are not. *)
Definition simple_file (file : string) : bool :=
  match split slash file with
  | [] => false
  | first :: rest =>
      match filter (λ part, part ≠ "" ∧ part ≠ ".") (first :: rest) with
      | [part] => negb (String.eqb part "..") && negb (String.eqb first "" && match rest with [] => false | _ => true end)
                  && negb (String.eqb first ".")
      | _ => false
      end
  end.

(** [path.with_extension(extension)] of a path whose last part is a file's name. *)
Definition with_extension (extension path : string) : string :=
  let '(parent, name) :=
    match rsplit_once slash path with Some (a, b) => (a +:+ "/", b) | None => ("", path) end in
  let stem := match rsplit_once dot name with Some (String x a, _) => String x a | _ => name end in
  parent +:+ stem +:+ "." +:+ extension.

(** The parts of a reference to the hub: [org/model], the revision and the file. *)
Definition parse_hf (uri : string) : result RegistryError (string * string * string) :=
  match
    rest ← (match strip_prefix "hf://models/" uri with Some r => Some r | None => strip_prefix "hf://" uri end);
    '(org, remainder) ← split_once slash rest;
    '(model_revision, file) ← split_once slash remainder;
    Some (org, model_revision, file)
  with
  | None => Err InvalidUri
  | Some (org, model_revision, file) =>
      let '(model, revision) := default (model_revision, "main") (rsplit_once at_sign model_revision) in
      if String.eqb org "" || String.eqb model "" || String.eqb revision ""
         || existsb (Ascii.eqb slash) (String.list_ascii_of_string revision)
         || String.eqb file "" || negb (simple_file file)
      then Err InvalidUri
      else Ok (join org model, revision, file)
  end.

Section registry.
Variable sha256_hex : bytes → string.
Variable parse_json : string → option Value.
(** [serde_json::from_slice] and [to_vec] of a stamp. *)
Variable parse_stamp : bytes → option CacheStamp.
Variable show_stamp : CacheStamp → bytes.
(** [ureq::get(url).call()], with the [Range] header if there is one. *)
Variable http_get : string → option string → option HttpResponse.

Abbreviation F := (M Disk RegistryError).

(** ** The file system *)

Definition io : F unit := λ s,
  match dk_io s with
  | [] | Works :: _ => Done tt (mkDisk (dk_files s) (tail (dk_io s)) (dk_clock s) (dk_progress s))
  | _ :: rest => Fail IoError (mkDisk (dk_files s) rest (dk_clock s) (dk_progress s))
  end.

Definition on_files (h : gmap string File → gmap string File) : F unit :=
  modify (λ s, mkDisk (h (dk_files s)) (dk_io s) (dk_clock s) (dk_progress s)).

Definition lookup (path : string) : F (option File) := gets (λ s, dk_files s !! path).

(** [File::open] or [fs::metadata] of a file that has to exist. *)
Definition open (path : string) : F File :=
  _ ← io; file ← lookup path; ok_or file IoError.

(** Bytes that are written after those that the file keeps. *)
Definition put (path : string) (kept data : bytes) : F unit := λ s,
  let saved bs :=
    mkDisk (<[path := mkFile (kept ++ bs) (dk_clock s)]> (dk_files s)) (tail (dk_io s)) (dk_clock s + 1) (dk_progress s) in
  match dk_io s with
  | [] | Works :: _ => Done tt (saved data)
  | Fails :: rest => Fail IoError (mkDisk (dk_files s) rest (dk_clock s) (dk_progress s))
  | Stops n :: _ => Fail IoError (saved (take n data))
  end.

(** [fs::write(path, data)], and [File::create(path)] for no data. *)
Definition write (path : string) (data : bytes) : F unit := put path [] data.

(** [output.write_all(data)] at the end of a file that was opened for it. *)
Definition append (path : string) (data : bytes) : F unit :=
  found ← lookup path; put path (match found with Some f => fl_bytes f | None => [] end) data.

Definition remove (path : string) : F unit := _ ← open path; on_files (delete path).

Definition rename (source destination : string) : F unit :=
  file ← open source; on_files (λ files, <[destination := file]> (delete source files)).

Definition report (p : DownloadProgress) : F unit :=
  modify (λ s, mkDisk (dk_files s) (dk_io s) (dk_clock s) (dk_progress s ++ [p])).

(** ** Records *)

Definition digest (path : string) : F (string * N) :=
  file ← open path; mret (sha256_hex (fl_bytes file), N.of_nat (length (fl_bytes file))).

Definition differs (expected : option string) (actual : string) : option string :=
  e ← expected; if eq_ignore_ascii_case e actual then None else Some e.

(** [fs::canonicalize] keeps the path of the file. *)
Definition register_local (path identity : string) (expected : option string) : F ModelRecord :=
  _ ← open path;
  '(sha256, size) ← digest path;
  match differs expected sha256 with
  | Some expected => throw (DigestDiffers expected sha256)
  | None => mret (mkModelRecord identity path sha256 size)
  end.

Definition stamp_path (path : string) : string := with_extension "cache.json" path.

Definition partial_path (path : string) : string := with_extension "partial" path.

(** A stamp that cannot be read is no stamp. *)
Definition read_stamp (path : string) : F (option CacheStamp) := λ s,
  match open (stamp_path path) s with
  | Done file s => Done (parse_stamp (fl_bytes file)) s
  | Fail _ s => Done None s
  | Panic => Panic
  end.

Definition current (stamp : CacheStamp) (file : File) (expected : option string) : bool :=
  (cs_size stamp =? N.of_nat (length (fl_bytes file)))%N
  && (cs_modified_ns stamp =? fl_modified_ns file)%N
  && bool_decide (differs expected (cs_sha256 stamp) = None).

Definition cached_record (path identity : string) (expected : option string) : F (option ModelRecord) :=
  file ← open path;
  stamp ← read_stamp path;
  match stamp with
  | None => mret None
  | Some stamp =>
      if current stamp file expected then
        _ ← open path;
        mret (Some (mkModelRecord identity path (cs_sha256 stamp) (cs_size stamp)))
      else mret None
  end.

(** ** The hub *)

Definition text_string (bs : bytes) : option string :=
  match from_utf8 bs with Utf8Ok => Some (string_of_bytes bs) | Utf8Error _ _ => None end.

Definition replace_slash (s : string) : string := replace_char slash "--" s.

(** [fs::read_to_string(reference).ok()] *)
Definition read_reference (path : string) : F (option string) := λ s,
  match open path s with
  | Done file s => Done (text_string (fl_bytes file)) s
  | Fail _ s => Done None s
  | Panic => Panic
  end.

Definition call (url : string) (range : option string) : F HttpResponse := ok_or (http_get url range) HttpError.

(** A reference that was resolved before is not resolved again. *)
Definition resolve_revision (repo revision cache : string) : F string :=
  if is_commit revision then mret (to_ascii_lowercase revision)
  else
    let reference := join (join (join cache "refs") (replace_slash repo)) revision in
    known ← read_reference reference;
    match value ← trim <$> known; if is_commit value then Some value else None with
    | Some value => mret (to_ascii_lowercase value)
    | None =>
        response ← call ("https://huggingface.co/api/models/" +:+ repo +:+ "/revision/" +:+ revision) None;
        _ ← guard_not (negb (hr_complete response)) JsonError;
        value ← ok_or (text_string (concat (hr_body response)) ≫= parse_json) JsonError;
        sha ← ok_or (fields ← as_object value; field "sha" fields ≫= as_str) InvalidUri;
        _ ← guard_not (negb (is_commit sha)) InvalidUri;
        let sha := to_ascii_lowercase sha in
        _ ← io;
        _ ← write reference (chars sha);
        mret sha
    end.

(** ** Downloading *)

Definition response_total (response : HttpResponse) (offset : N) : option N :=
  match range ← hr_content_range response; '(_, total) ← rsplit_once slash range; parse_u64 total with
  | Some total => Some total
  | None => length ← hr_content_length response; n ← parse_u64 length; Some (saturating_add n offset)
  end.

Definition starts_with (prefix s : string) : bool := match strip_prefix prefix s with Some _ => true | None => false end.

Definition resumes (response : HttpResponse) (offset : N) : bool :=
  (hr_status response =? 206)%N
  && match hr_content_range response with
     | Some range => starts_with ("bytes " +:+ pretty offset +:+ "-") range
     | None => false
     end.

(** The loop that copies the body; reading it may fail at its end. *)
Fixpoint copy_body (partial : string) (total : option N) (completed : N) (body : list bytes) : F unit :=
  match body with
  | [] => mret tt
  | part :: body' =>
      _ ← append partial part;
      let completed := saturating_add completed (N.of_nat (length part)) in
      _ ← report (mkProgress total completed);
      copy_body partial total completed body'
  end.

Definition download_resumable (url partial : string) : F unit :=
  found ← lookup partial;
  let requested_offset := match found with Some f => N.of_nat (length (fl_bytes f)) | None => 0%N end in
  response ← call url (if (0 <? requested_offset)%N then Some ("bytes=" +:+ pretty requested_offset +:+ "-") else None);
  let offset := if resumes response requested_offset then requested_offset else 0%N in
  let total := response_total response offset in
  _ ← (if (0 <? offset)%N then _ ← open partial; mret tt else write partial []);
  _ ← report (mkProgress total offset);
  _ ← copy_body partial total offset (hr_body response);
  _ ← guard_not (negb (hr_complete response)) IoError;
  io.

Definition model_directory (cache repo revision : string) : string :=
  join (join (join cache "models") (replace_slash repo)) revision.

(** [register_local(..).is_err()] *)
Definition fails_locally (path identity : string) (expected : option string) : F bool := λ s,
  match register_local path identity expected s with
  | Done _ s => Done false s
  | Fail _ s => Done true s
  | Panic => Panic
  end.

(** Whether a file that is there is kept: its stamp is current, or its digest is the
    expected one. *)
Definition discard_stale (destination uri : string) (expected : option string) : F unit :=
  found ← lookup destination;
  match found with
  | None => mret tt
  | Some _ =>
      cached ← cached_record destination uri expected;
      match cached with
      | Some _ => mret tt
      | None =>
          stale ← fails_locally destination uri expected;
          if (stale : bool) then remove destination else mret tt
      end
  end.

Definition obtain (destination url : string) : F unit :=
  found ← lookup destination;
  match found with
  | None =>
      let partial := partial_path destination in
      _ ← download_resumable url partial;
      rename partial destination
  | Some _ =>
      file ← open destination;
      let size := N.of_nat (length (fl_bytes file)) in
      report (mkProgress (Some size) size)
  end.

Definition stamped_record (destination identity : string) (expected : option string) : F ModelRecord :=
  cached ← cached_record destination identity expected;
  match cached with
  | Some record => mret record
  | None =>
      record ← register_local destination identity expected;
      file ← open destination;
      _ ← write (stamp_path destination)
            (show_stamp (mkStamp (mo_sha256 record) (mo_size record) (fl_modified_ns file)));
      mret record
  end.

Definition fetch_hf_with_progress (uri cache : string) (expected : option string) : F ModelRecord :=
  '(repo, requested_revision, file) ← lift_result (parse_hf uri);
  revision ← resolve_revision repo requested_revision cache;
  let dir := model_directory cache repo revision in
  _ ← io;
  let destination := join dir file in
  _ ← discard_stale destination uri expected;
  _ ← obtain destination ("https://huggingface.co/" +:+ repo +:+ "/resolve/" +:+ revision +:+ "/" +:+ file);
  stamped_record destination ("hf://" +:+ repo +:+ "@" +:+ revision +:+ "/" +:+ file) expected.

(** Without a listener the reports are of no use. *)
Definition fetch_hf (uri cache : string) (expected : option string) : F ModelRecord :=
  fetch_hf_with_progress uri cache expected.
End registry.
