(* ===== verification/RegistryLaws.v ===== *)
(** Laws of the model registry: an interrupted download leaves the beginning of the
    file and a resumed one completes it; a record that is returned has the digest of
    its file; the identity of a record is a reference to it. *)

From stdpp Require Import gmap strings list numbers pretty.
From Stdlib Require Import Lia.
From S2P Require Import Prelude Text Generation Inference Json Config Vision Lowering Gguf Registry.

(** ** The file system *)

Definition with_io (l : list Outcome) (s : Disk) : Disk := mkDisk (dk_files s) l (dk_clock s) (dk_progress s).

Section files.
Implicit Types (R : RegistryError → Disk → Prop) (s : Disk).

Lemma wp_disk_io (Q : unit → Disk → Prop) R s :
  (∀ l, Q tt (with_io l s)) → (∀ l, R IoError (with_io l s)) → wp io Q R s.
Proof. intros HQ HR. unfold wp_gen, io. destruct (dk_io s) as [|[| |n] l]; [apply HQ|apply HQ|apply HR|apply HR]. Qed.

Lemma wp_lookup path (Q : option File → Disk → Prop) R s : Q (dk_files s !! path) s → wp (lookup path) Q R s.
Proof. done. Qed.

Lemma wp_open path (Q : File → Disk → Prop) R s :
  (∀ l file, dk_files s !! path = Some file → Q file (with_io l s)) → (∀ l, R IoError (with_io l s)) →
  wp (open path) Q R s.
Proof.
  intros HQ HR. unfold open. rewrite wp_bind. apply wp_disk_io; [|done]. intros l. rewrite wp_bind.
  apply wp_lookup. cbn [with_io dk_files]. destruct (dk_files s !! path) as [file|] eqn:Hf; [by apply HQ|apply HR].
Qed.

(** What a write leaves. *)
Definition written (path : string) (data : bytes) s s' : Prop :=
  dk_files s' = <[path := mkFile data (dk_clock s)]> (dk_files s) ∧ dk_progress s' = dk_progress s
  ∧ dk_clock s' = (dk_clock s + 1)%N.

Lemma wp_put path kept data (Q : unit → Disk → Prop) R s :
  (∀ s', written path (kept ++ data) s s' → Q tt s') →
  (∀ n s', written path (kept ++ take n data) s s' → R IoError s') → (∀ l, R IoError (with_io l s)) →
  wp (put path kept data) Q R s.
Proof.
  intros HQ HP HR. unfold wp_gen, put.
  destruct (dk_io s) as [|[| |n] l]; [by apply HQ|by apply HQ|apply HR|by apply (HP n)].
Qed.

Lemma wp_disk_write path data (Q : unit → Disk → Prop) R s :
  (∀ s', written path data s s' → Q tt s') → (∀ n s', written path (take n data) s s' → R IoError s') →
  (∀ l, R IoError (with_io l s)) → wp (write path data) Q R s.
Proof. exact (wp_put path [] data Q R s). Qed.

End files.

(** ** Downloading *)

Section download.
Variable http_get : string → option string → option HttpResponse.







Definition range_header (k : N) : string := "bytes=" +:+ pretty k +:+ "-".















(** A download that ended and was not renamed cannot be resumed: there is no part that
    begins where the file ends, and every later call fails as the first. *)
Lemma complete_partial_stuck url path file s :
  dk_files s !! path = Some file → fl_bytes file ≠ [] →
  http_get url (Some (range_header (N.of_nat (length (fl_bytes file))))) = None →
  download_resumable http_get url path s = Fail HttpError s.
Proof.
  intros Hf Hne Hget. unfold download_resumable, lookup, gets. unfold mbind at 1, M_bind at 1. rewrite Hf.
  assert ((0 <? N.of_nat (length (fl_bytes file)))%N = true) as -> by (apply N.ltb_lt; destruct (fl_bytes file); [done|cbn; lia]).
  unfold call. fold (range_header (N.of_nat (length (fl_bytes file)))). rewrite Hget. reflexivity.
Qed.
End download.

(** ** Paths *)

(** The path of a stamp. *)
Definition stampy (path : string) : Prop := ∃ p, path = p +:+ ".cache.json".

Lemma chars_app a b : String.list_ascii_of_string (a +:+ b) = String.list_ascii_of_string a ++ String.list_ascii_of_string b.
Proof. induction a as [|c a IH]; [done|]. change (String c a +:+ b) with (String c (a +:+ b)). cbn. by rewrite IH. Qed.

Lemma suffix_part {A} (x : A) before after suffix front :
  x ∉ suffix → before ++ x :: after = front ++ suffix → ∃ middle, after = middle ++ suffix.
Proof.
  intros Hx. revert front. induction before as [|b before IH]; intros [|f front] H.
  - destruct suffix as [|s suffix]; [done|]. cbn in H. injection H as <- _. set_solver.
  - injection H as _ H. by exists front.
  - cbn in H. exfalso. apply Hx. rewrite <- H. set_solver.
  - injection H as _ H. by eapply IH.
Qed.

Lemma stampy_join directory file : stampy (join directory file) → stampy file.
Proof.
  intros [p H]. apply (f_equal String.list_ascii_of_string) in H. unfold join in H.
  change ("/" +:+ file) with (String slash file) in H. rewrite !chars_app in H. cbn [String.list_ascii_of_string] in H.
  apply suffix_part in H as [middle Hm].
  - exists (String.string_of_list_ascii middle).
    rewrite <- (String.string_of_list_ascii_of_string file), Hm,
      <- (String.string_of_list_ascii_of_string (_ +:+ ".cache.json")), chars_app.
    by rewrite String.list_ascii_of_string_of_list_ascii.
  - apply (bool_decide_unpack _). by vm_compute.
Qed.

Lemma stampy_last path : stampy path → list.last (String.list_ascii_of_string path) = Some (Ascii.ascii_of_nat 110).
Proof.
  intros [p ->]. rewrite chars_app.
  change (String.list_ascii_of_string ".cache.json") with (String.list_ascii_of_string ".cache.jso" ++ [Ascii.ascii_of_nat 110]).
  by rewrite app_assoc, last_snoc.
Qed.

Lemma partial_not_stampy path : ¬ stampy (partial_path path).
Proof.
  intros H%stampy_last. unfold partial_path, with_extension in H.
  destruct (match rsplit_once slash path with Some (a, b) => _ | None => _ end) as [parent name].
  rewrite !chars_app in H.
  change (String.list_ascii_of_string "partial") with (String.list_ascii_of_string "partia" ++ [Ascii.ascii_of_nat 108]) in H.
  rewrite !app_assoc, last_snoc in H. by vm_compute in H.
Qed.

Lemma stamp_path_stampy path : stampy (stamp_path path).
Proof.
  unfold stamp_path, with_extension.
  destruct (match rsplit_once slash path with Some (a, b) => _ | None => _ end) as [parent name].
  eexists (parent +:+ _). by rewrite append_assoc.
Qed.

(** ** Stamps *)

Section stamps.
Variable sha256_hex : bytes → string.
Variable parse_json : string → option Value.
Variable parse_stamp : bytes → option CacheStamp.
Variable show_stamp : CacheStamp → bytes.
Variable http_get : string → option string → option HttpResponse.
Hypothesis stamp_roundtrip : ∀ stamp, parse_stamp (show_stamp stamp) = Some stamp.
(** What is left of the text of a JSON object when its end is cut is not one. *)
Hypothesis stamp_truncated : ∀ stamp n, n < length (show_stamp stamp) → parse_stamp (take n (show_stamp stamp)) = None.

(** The clock is ahead of every file and every stamp, files of one time have the same
    bytes, and a stamp has the digest of every file of its time. *)
Record honest (s : Disk) : Prop := {
  ho_clock : ∀ path file, dk_files s !! path = Some file → (fl_modified_ns file < dk_clock s)%N;
  ho_same : ∀ p q f g, dk_files s !! p = Some f → dk_files s !! q = Some g →
    fl_modified_ns f = fl_modified_ns g → fl_bytes f = fl_bytes g;
  ho_stamp : ∀ path stamp_file stamp, stampy path → dk_files s !! path = Some stamp_file →
    parse_stamp (fl_bytes stamp_file) = Some stamp →
    (cs_modified_ns stamp < dk_clock s)%N
    ∧ ∀ q file, dk_files s !! q = Some file → fl_modified_ns file = cs_modified_ns stamp →
        cs_sha256 stamp = sha256_hex (fl_bytes file);
}.

(** Files that are there keep the state honest wherever they are, except as stamps. *)
Lemma honest_files s files io progress :
  honest s → (∀ q file, files !! q = Some file → ∃ p, dk_files s !! p = Some file) →
  (∀ q file, stampy q → files !! q = Some file → dk_files s !! q = Some file) →
  honest (mkDisk files io (dk_clock s) progress).
Proof.
  intros [Hc Hs Ht] Hfrom Hstamps. split; cbn.
  - intros q file (p & Hp)%Hfrom. by eapply Hc.
  - intros p q f g (p' & Hp)%Hfrom (q' & Hq)%Hfrom. by apply (Hs p' q').
  - intros path stamp_file stamp Hy Hpath Hparse. apply Hstamps in Hpath; [|done].
    destruct (Ht _ _ _ Hy Hpath Hparse) as [Hlt Hdigest]. split; [done|].
    intros q file (p & Hp)%Hfrom. by eapply Hdigest.
Qed.

Lemma honest_io l s : honest s → honest (with_io l s).
Proof. intros H. apply honest_files; [done|by intros q file; exists q|done]. Qed.

Lemma honest_written path data s s' :
  honest s → written path data s s' →
  (∀ stamp, stampy path → parse_stamp data = Some stamp →
     (cs_modified_ns stamp < dk_clock s)%N
     ∧ ∀ q file, dk_files s !! q = Some file → fl_modified_ns file = cs_modified_ns stamp →
         cs_sha256 stamp = sha256_hex (fl_bytes file)) →
  honest s'.
Proof.
  intros [Hc Hs Ht] (Hf & _ & Hclock) Hnew.
  assert (∀ q file, dk_files s' !! q = Some file →
    q = path ∧ file = mkFile data (dk_clock s) ∨ q ≠ path ∧ dk_files s !! q = Some file ∧ (fl_modified_ns file < dk_clock s)%N) as Hcases.
  { intros q file. rewrite Hf, lookup_insert_Some. intros [[<- <-]|[Hne Hq]]; [by left|right]. split; [done|]. split; [done|by eapply Hc]. }
  split; rewrite ?Hclock.
  - intros q file [[-> ->]|(_ & _ & Hlt)]%Hcases; cbn; lia.
  - intros p q f g [[-> ->]|(_ & Hp & Hlt)]%Hcases [[-> ->]|(_ & Hq & Hlt')]%Hcases; cbn; [done|lia|lia|by apply (Hs p q)].
  - intros q stamp_file stamp Hy Hq Hparse.
    assert ((cs_modified_ns stamp < dk_clock s)%N
      ∧ ∀ q' file, dk_files s !! q' = Some file → fl_modified_ns file = cs_modified_ns stamp →
          cs_sha256 stamp = sha256_hex (fl_bytes file)) as [Hlt Hdigest].
    { apply Hcases in Hq as [[-> ->]|(_ & Hq & _)]; [by apply Hnew|by eapply Ht]. }
    split; [lia|]. intros q' file [[-> ->]|(_ & Hq' & _)]%Hcases; [cbn; lia|by eapply Hdigest].
Qed.

(** *** Parts that keep the state honest *)

Definition keeps_honest {A} (m : M Disk RegistryError A) : Prop :=
  ∀ s, honest s → wp m (λ _ s', honest s') (λ _ s', honest s') s.

Lemma kh_ret {A} (a : A) : keeps_honest (mret a).
Proof. by intros s Hs. Qed.

Lemma kh_throw {A} e : keeps_honest (throw e : M Disk RegistryError A).
Proof. by intros s Hs. Qed.

Lemma kh_bind {A B} (m : M Disk RegistryError A) (k : A → M Disk RegistryError B) :
  keeps_honest m → (∀ a, keeps_honest (k a)) → keeps_honest (m ≫= k).
Proof.
  intros Hm Hk s Hs. rewrite wp_bind. eapply wp_mono; [by apply Hm|cbn beta|done]. intros a s' Hs'. by apply Hk.
Qed.

Lemma kh_ok_or {A} (o : option A) e : keeps_honest (ok_or o e).
Proof. intros s Hs. by destruct o. Qed.

Lemma kh_guard b e : keeps_honest (guard_not b e).
Proof. intros s Hs. by destruct b. Qed.

Lemma kh_lift {A} (r : result RegistryError A) : keeps_honest (lift_result r).
Proof. intros s Hs. by destruct r. Qed.

Lemma kh_io : keeps_honest io.
Proof. intros s Hs. apply wp_disk_io; intros l; by apply honest_io. Qed.

Lemma kh_lookup path : keeps_honest (lookup path).
Proof. by intros s Hs. Qed.

Lemma kh_open path : keeps_honest (open path).
Proof. intros s Hs. apply wp_open; intros; by apply honest_io. Qed.

Lemma kh_report r : keeps_honest (report r).
Proof. intros s Hs. apply honest_files; [done|by intros q file; exists q|done]. Qed.

Lemma kh_put path kept data : ¬ stampy path → keeps_honest (put path kept data).
Proof.
  intros Hy s Hs. apply wp_put; [..|intros; by apply honest_io].
  - intros s' Hw. by eapply honest_written.
  - intros n s' Hw. by eapply honest_written.
Qed.

Lemma kh_write path data : ¬ stampy path → keeps_honest (write path data).
Proof. apply kh_put. Qed.

Lemma kh_append path data : ¬ stampy path → keeps_honest (append path data).
Proof. intros Hy. apply kh_bind; [apply kh_lookup|intros found]. by apply kh_put. Qed.

Lemma kh_remove path : keeps_honest (remove path).
Proof.
  apply kh_bind; [apply kh_open|intros _ s Hs]. apply honest_files; [done|..]; intros q file.
  - intros [_ H]%lookup_delete_Some. by exists q.
  - by intros _ [_ H]%lookup_delete_Some.
Qed.

Lemma kh_rename source destination : ¬ stampy destination → keeps_honest (rename source destination).
Proof.
  intros Hy s Hs. unfold rename. rewrite wp_bind. apply wp_open; [|intros; by apply honest_io].
  intros l file Hf. apply (honest_files s); [done|..]; intros q file' H; cbn [with_io dk_files].
  - apply lookup_insert_Some in H as [[<- <-]|[_ [_ H]%lookup_delete_Some]]; eauto.
  - by intros [[<- <-]|[_ [_ H']%lookup_delete_Some]]%lookup_insert_Some.
Qed.

(** A failure that is swallowed. *)
Lemma kh_caught {A B} (m : M Disk RegistryError A) (f : A → B) (b : B) (m' : M Disk RegistryError B) :
  (∀ s, m' s = match m s with Done a s' => Done (f a) s' | Fail _ s' => Done b s' | Panic => Panic end) →
  keeps_honest m → keeps_honest m'.
Proof. intros Hm' Hm s Hs. specialize (Hm s Hs). unfold wp_gen in *. rewrite Hm'. by destruct (m s). Qed.

Create HintDb honest.
#[local] Hint Resolve kh_ret kh_throw kh_ok_or kh_guard kh_lift kh_io kh_lookup kh_open kh_report kh_remove kh_append
  kh_write kh_rename : honest.

Ltac kh := repeat first [solve [auto 2 with honest nocore] | apply kh_bind; [|intros ?] | case_match].

Lemma kh_register_local path identity expected : keeps_honest (register_local sha256_hex path identity expected).
Proof. unfold register_local, digest. kh. Qed.

#[local] Hint Resolve kh_register_local : honest.

Lemma kh_cached_record path identity expected : keeps_honest (cached_record parse_stamp path identity expected).
Proof.
  unfold cached_record. kh.
  by apply (kh_caught (open (stamp_path path)) (λ file, parse_stamp (fl_bytes file)) None); [|apply kh_open].
Qed.

#[local] Hint Resolve kh_cached_record : honest.

Lemma kh_resolve_revision repo revision cache :
  ¬ stampy revision → keeps_honest (resolve_revision parse_json http_get repo revision cache).
Proof.
  intros Hy. unfold resolve_revision, call. kh.
  - by apply (kh_caught (open (join (join (join cache "refs") (replace_slash repo)) revision))
      (λ file, text_string (fl_bytes file)) None); [|apply kh_open].
  - apply kh_write. by intros ?%stampy_join.
Qed.

Lemma kh_copy_body path total n body : ¬ stampy path → keeps_honest (copy_body path total n body).
Proof.
  intros Hy. revert n. induction body as [|part body IH]; intros n; cbn [copy_body]; kh; apply IH.
Qed.

#[local] Hint Resolve kh_copy_body : honest.

Lemma kh_download_resumable url path : ¬ stampy path → keeps_honest (download_resumable http_get url path).
Proof. intros Hy. unfold download_resumable, call. kh. Qed.

#[local] Hint Resolve kh_download_resumable partial_not_stampy : honest.

Lemma kh_discard_stale destination uri expected :
  keeps_honest (discard_stale sha256_hex parse_stamp destination uri expected).
Proof.
  unfold discard_stale. kh.
  by apply (kh_caught (register_local sha256_hex destination uri expected) (λ _, false) true); [|apply kh_register_local].
Qed.

Lemma kh_obtain destination url : ¬ stampy destination → keeps_honest (obtain http_get destination url).
Proof. intros Hy. unfold obtain. kh. Qed.

(** *** Records *)

(** The record is that of the file, which has the digest that was expected. *)
Definition recorded (path identity : string) (expected : option string) (record : ModelRecord) (s : Disk) : Prop :=
  ∃ file, dk_files s !! path = Some file
    ∧ record = mkModelRecord identity path (sha256_hex (fl_bytes file)) (N.of_nat (length (fl_bytes file)))
    ∧ differs expected (sha256_hex (fl_bytes file)) = None.

Lemma register_local_spec path identity expected s :
  honest s →
  wp (register_local sha256_hex path identity expected)
    (λ record s', recorded path identity expected record s' ∧ ∃ l, s' = with_io l s) (λ _ s', honest s') s.
Proof.
  intros Hs. unfold register_local, digest. rewrite wp_bind.
  apply wp_open; [intros l _ _|intros l; exact (honest_io l s Hs)]. wp_run.
  apply wp_open; [intros l' file Hf|intros l'; exact (honest_io l' s Hs)]. wp_run. cbn [fst snd].
  destruct (differs expected _) as [e|] eqn:He; wp_run; [exact (honest_io l' s Hs)|].
  split; [|by exists l']. by exists file.
Qed.

Lemma cached_record_spec path identity expected s :
  honest s →
  wp (cached_record parse_stamp path identity expected)
    (λ cached s', (∃ l, s' = with_io l s) ∧ match cached with Some record => recorded path identity expected record s' | None => True end)
    (λ _ s', honest s') s.
Proof.
  intros Hs. unfold cached_record. rewrite wp_bind.
  apply wp_open; [intros l file Hf|intros l; exact (honest_io l s Hs)]. rewrite wp_bind.
  set (Q := λ stamp s', _). set (R := λ (_ : RegistryError) s', honest s').
  assert (∀ l', Q None (with_io l' s)) as Hnone by (intros l'; unfold Q; wp_run; split; [by exists l'|done]).
  unfold wp_gen at 1, read_stamp.
  assert (wp (open (stamp_path path)) (λ file, Q (parse_stamp (fl_bytes file))) (λ _, Q None) (with_io l s)) as H.
  { apply wp_open; [intros l' stamp_file Hstamp|intros l'; apply Hnone]. unfold Q.
    destruct (parse_stamp _) as [stamp|] eqn:Hparse; [|apply Hnone].
    destruct (current stamp file expected) eqn:Hcurrent; [|apply Hnone].
    unfold current in Hcurrent. rewrite !andb_true_iff, !N.eqb_eq, bool_decide_eq_true in Hcurrent.
    destruct Hcurrent as [[Hsize Htime] Hexpected].
    destruct (ho_stamp _ Hs _ _ _ (stamp_path_stampy path) Hstamp Hparse) as [_ Hdigest].
    rewrite (Hdigest path file) in * by done.
    wp_run. apply wp_open; [intros l'' _ _|intros l''; exact (honest_io l'' s Hs)]. wp_run. split; [by exists l''|].
    exists file. by rewrite Hsize. }
  unfold wp_gen in H. by destruct (open (stamp_path path) (with_io l s)).
Qed.

Lemma honest_stamp path stamp n file s s' :
  honest s → dk_files s !! path = Some file → cs_modified_ns stamp = fl_modified_ns file →
  cs_sha256 stamp = sha256_hex (fl_bytes file) → written (stamp_path path) (take n (show_stamp stamp)) s s' → honest s'.
Proof.
  intros Hs Hf Htime Hdigest Hw. eapply honest_written; [exact Hs|exact Hw|]. intros stamp' _ Hparse.
  destruct (decide (n < length (show_stamp stamp))) as [Hn|Hn]; [by rewrite stamp_truncated in Hparse|].
  rewrite take_ge, stamp_roundtrip in Hparse by lia. injection Hparse as <-. rewrite Htime, Hdigest.
  split; [by eapply (ho_clock _ Hs)|]. intros q file' Hq Hsame. f_equal. by apply (ho_same _ Hs path q).
Qed.

Lemma stamped_record_spec path identity expected s :
  honest s → ¬ stampy path →
  wp (stamped_record sha256_hex parse_stamp show_stamp path identity expected)
    (λ record s', recorded path identity expected record s' ∧ honest s') (λ _ s', honest s') s.
Proof.
  intros Hs Hy. unfold stamped_record. rewrite wp_bind.
  eapply wp_mono; [by apply cached_record_spec| |done]. cbn beta. intros [record|] s1 [[l ->] Hrecord].
  { wp_run. split; [done|by apply honest_io]. }
  rewrite wp_bind. eapply wp_mono; [by apply register_local_spec, honest_io| |done]. cbn beta.
  intros record s2 [(file & Hf & -> & He) [l' ->]]. rewrite wp_bind. pose proof (honest_io l' s Hs) as Hs'.
  apply wp_open; [intros l'' file' Hf'|intros l''; exact (honest_io l'' s Hs)].
  rewrite Hf in Hf'. injection Hf' as <-. rewrite wp_bind. cbn [mo_sha256 mo_size].
  set (stamp := mkStamp _ _ _). set (s3 := with_io l'' _). assert (honest s3) as Hs3 by exact (honest_io l'' s Hs).
  apply wp_disk_write.
  - intros s4 Hw. wp_run. split.
    + exists file. destruct Hw as [-> _]. rewrite lookup_insert_ne; [done|]. intros Heq. apply Hy. rewrite <- Heq.
      apply stamp_path_stampy.
    + apply (honest_stamp path stamp (length (show_stamp stamp)) file s3 s4); [done..|]. by rewrite take_ge.
  - intros n s4 Hw. by apply (honest_stamp path stamp n file s3 s4).
  - intros l4. by apply honest_io.
Qed.

Lemma fetch_spec uri cache expected s :
  honest s →
  (∀ repo revision file, parse_hf uri = Ok (repo, revision, file) → ¬ stampy revision ∧ ¬ stampy file) →
  wp (fetch_hf_with_progress sha256_hex parse_json parse_stamp show_stamp http_get uri cache expected)
    (λ record s', (∃ path identity, recorded path identity expected record s') ∧ honest s') (λ _ s', honest s') s.
Proof.
  intros Hs Huri. unfold fetch_hf_with_progress. rewrite wp_bind.
  destruct (parse_hf uri) as [[[repo requested_revision] file]|e] eqn:Hparse; [|done].
  destruct (Huri _ _ _ eq_refl) as [Hrevision Hfile]. unfold lift_result. wp_run.
  eapply wp_mono; [by apply kh_resolve_revision| |done]. cbn beta. intros revision s1 Hs1. cbv zeta. wp_run.
  apply wp_disk_io; [intros l|intros l; by apply honest_io]. wp_run. set (destination := join _ file).
  assert (¬ stampy destination) as Hy by by intros ?%stampy_join.
  eapply wp_mono; [by apply kh_discard_stale, honest_io| |done]. cbn beta. intros [] s2 Hs2. wp_run.
  eapply wp_mono; [by apply kh_obtain| |done]. cbn beta. intros [] s3 Hs3.
  eapply wp_mono; [by apply stamped_record_spec| |done]. cbn beta. intros record s4 [Hr Hs4]. eauto.
Qed.

(** C19: A record that is returned is that of the file at its path, whether it was
    downloaded, was there, or was known from a stamp: the digest is the digest of its
    bytes and is the expected one, when one is. Whatever the hub answers and whichever
    call of the file system fails, and also when a file or a stamp is only written in
    part, the stamps that are left are true of the files of their times, so that the
    next call can trust them. *)
Theorem fetch_returns_verified uri cache expected s :
  honest s →
  (∀ repo revision file, parse_hf uri = Ok (repo, revision, file) → ¬ stampy revision ∧ ¬ stampy file) →
  match fetch_hf_with_progress sha256_hex parse_json parse_stamp show_stamp http_get uri cache expected s with
  | Done record s' =>
      honest s'
      ∧ ∃ file, dk_files s' !! mo_path record = Some file
          ∧ mo_sha256 record = sha256_hex (fl_bytes file) ∧ mo_size record = N.of_nat (length (fl_bytes file))
          ∧ ∀ digest, expected = Some digest → eq_ignore_ascii_case digest (mo_sha256 record) = true
  | Fail _ s' => honest s'
  | Panic => False
  end.
Proof.
  intros Hs Huri.
  pose proof (fetch_spec uri cache expected s Hs Huri) as H. unfold wp_gen in H.
  destruct (fetch_hf_with_progress _ _ _ _ _ _ _ _ s) as [record s'| |]; [|done..].
  destruct H as [(path & identity & file & Hf & -> & He) Hs']. split; [done|]. exists file. cbn. repeat split; [done|].
  intros digest ->. unfold differs, mbind, option_bind in He. by destruct (eq_ignore_ascii_case _ _).
Qed.
End stamps.

(** ** References *)

Example gemma_reference :
  parse_hf GEMMA_URI = Ok ("unsloth/gemma-4-E2B-it-GGUF", "main", "gemma-4-E2B-it-Q3_K_M.gguf").
Proof. reflexivity. Qed.

(** The identity of a file of an organisation that is called [models] is no reference. *)
Example identity_not_reference : parse_hf "hf://models/m/f" = Err InvalidUri.
Proof. reflexivity. Qed.

(** Two files of a directory that differ in the extension share the partial file. *)
Example partial_shared : partial_path "d/model.gguf" = partial_path "d/model.safetensors".
Proof. reflexivity. Qed.

(** ** A hub of one file *)

Module OneFile.
Definition content : bytes := chars "hello".

Definition hub (url : string) (range : option string) : option HttpResponse :=
  if bool_decide (range = Some (range_header 2)) then
    Some (mkHttpResponse 206 (Some "bytes 2-4/5") (Some "3") [chars "l"; chars "lo"] true)
  else if bool_decide (range = None) then Some (mkHttpResponse 200 None (Some "5") [content] true)
  else None.

Definition disk : Disk := mkDisk {["m.partial" := mkFile (chars "he") 1]} [] 2 [].

(** A stamp is written as the bits of a number, and a byte that ends them. *)
Fixpoint bits (p : positive) : bytes :=
  match p with
  | xH => []
  | xO p => 0%N :: bits p
  | xI p => 1%N :: bits p
  end.

Fixpoint of_bits (bs : bytes) : positive :=
  match bs with
  | 0%N :: bs' => xO (of_bits bs')
  | 1%N :: bs' => xI (of_bits bs')
  | _ => xH
  end.

Definition number_of (stamp : CacheStamp) : positive := countable.encode (cs_sha256 stamp, cs_size stamp, cs_modified_ns stamp).

Definition show (stamp : CacheStamp) : bytes := bits (number_of stamp) ++ [2%N].

Definition parse (bs : bytes) : option CacheStamp :=
  match list.last bs with
  | Some 2%N => '(sha256, size, modified_ns) ← countable.decode (of_bits bs); Some (mkStamp sha256 size modified_ns)
  | _ => None
  end.
End OneFile.



Lemma of_bits_bits p : OneFile.of_bits (OneFile.bits p ++ [2%N]) = p.
Proof. induction p as [p IH|p IH|]; cbn; by rewrite ?IH. Qed.

Lemma bits_bounded p : Forall (λ b, b < 2)%N (OneFile.bits p).
Proof. induction p; cbn; constructor; done. Qed.

Lemma show_roundtrip stamp : OneFile.parse (OneFile.show stamp) = Some stamp.
Proof.
  unfold OneFile.parse, OneFile.show. rewrite last_snoc, of_bits_bits. unfold OneFile.number_of.
  rewrite decode_encode. by destruct stamp.
Qed.

Lemma show_truncated stamp n : n < length (OneFile.show stamp) → OneFile.parse (take n (OneFile.show stamp)) = None.
Proof.
  unfold OneFile.show. rewrite length_app. cbn [length]. intros Hn. rewrite take_app_le by lia.
  unfold OneFile.parse. destruct (list.last _) as [b|] eqn:Hb; [|done].
  apply last_Some_elem_of in Hb. apply elem_of_take in Hb as (i & Hi & _).
  pose proof (list.Forall_lookup_1 _ _ _ _ (bits_bounded (OneFile.number_of stamp)) Hi) as H. cbn in H.
  destruct b as [|[[]|[]|]]; done.
Qed.


(** A part that is shorter than what was asked for ends the download short. *)
Example short_part_kept :
  let hub (_ : string) (_ : option string) := Some (mkHttpResponse 206 (Some "bytes 2-3/5") (Some "2") [chars "ll"] true) in
  match download_resumable hub "hub" "m.partial" OneFile.disk with
  | Done _ s' => dk_files s' !! "m.partial" = Some (mkFile (chars "hell") 2)
  | _ => False
  end.
Proof. vm_compute. reflexivity. Qed.

(** A file of a pinned revision is downloaded into an empty cache. *)
Definition pinned : string := "hf://org/model@0123456789012345678901234567890123456789/m.gguf".

Example fetch_returns_verified_witness :
  match
    fetch_hf_with_progress string_of_bytes (λ _, None) OneFile.parse OneFile.show OneFile.hub pinned "cache" (Some "HELLO")
      (mkDisk ∅ [] 0 [])
  with
  | Done record s' =>
      honest string_of_bytes OneFile.parse s'
      ∧ ∃ file, dk_files s' !! mo_path record = Some file
          ∧ mo_sha256 record = string_of_bytes (fl_bytes file) ∧ mo_size record = N.of_nat (length (fl_bytes file))
          ∧ ∀ digest, Some "HELLO" = Some digest → eq_ignore_ascii_case digest (mo_sha256 record) = true
  | Fail _ s' => honest string_of_bytes OneFile.parse s'
  | Panic => False
  end.
Proof.
  apply fetch_returns_verified.
  - exact show_roundtrip.
  - exact show_truncated.
  - by split; cbn; intros *; rewrite ?lookup_empty.
  - intros repo revision file H. vm_compute in H. injection H as <- <- <-.
    split; intros H%stampy_last; by vm_compute in H.
Defined.
