(* ===== verification/Catalogue.v ===== *)
(** The model catalogue ([crates/server/src/catalog.rs]): the models that survive a
    restart, the operations that are running or have ended, and what was measured of a
    model, in three tables of a database; and the models that the user declares.

    A table is a map from its primary key, and a definition does what its statement says
    of the rows, with the constraints that the schema declares. Each statement takes its
    outcome from a list in the state: one that fails changes nothing. The connection is
    locked for the whole of an operation. JSON, YAML and the file system are parameters.
    A path is its text: [to_string_lossy], with which a path is stored, is the identity
    here, as it is on paths that are valid UTF-8; on others the code stores another path
    than it was given. *)

From stdpp Require Import gmap strings list numbers pretty.
From Stdlib Require Import Lia.
From S2P Require Import Prelude Engine Lifecycle Residency.

Inductive CatalogError : Type :=
| Sql (message : string)
| Migration (message : string)
| Io (message : string)
| Data (message : string).

Definition show_error (e : CatalogError) : string :=
  match e with
  | Sql m => "catalog database: " +:+ m
  | Migration m => "catalog migration: " +:+ m
  | Io m => "catalog filesystem: " +:+ m
  | Data m => "catalog data: " +:+ m
  end.

Definition MEASURED_EXECUTION_PROFILE_SCHEMA_MAJOR : N := 1.

Inductive MeasurementSource : Type := BackendAllocator | ConservativeFallback.

(** A profile as it is stored: what the residency reads of it, and the rest. *)
Record StoredProfile : Type := mkStored {
  sp_schema_major : N;
  sp_schema_minor : N;
  sp_measured : MeasuredExecutionProfile;
  sp_measurement_source : MeasurementSource;
  sp_provenance : string;
}.

Definition ProfileKey : Type := string * string * string.

Record MeasuredExecutionProfileRecord : Type := mkProfileRecord {
  rc_key : ProfileKey;
  rc_profile : StoredProfile;
  rc_measured_at : Z;
  rc_last_used_at : Z;
}.

(** ** Tables *)

Record ModelRow : Type := mkModelRow {
  rw_revision : string;
  rw_path : string;
  rw_sha256 : string;
  rw_family : string;
  rw_size_bytes : Z;
  rw_epoch : Z;
  rw_aliases_json : string;
  rw_installed_at : Z;
}.

Record OperationRow : Type := mkOperationRow {
  ow_model_id : string;
  ow_kind : string;
  ow_status : string;
  ow_detail : option string;
  ow_started_at : Z;
  ow_finished_at : option Z;
}.

Record ProfileRow : Type := mkProfileRow {
  pw_schema_major : Z;
  pw_measured_data : string;
  pw_measured_at : Z;
  pw_last_used_at : Z;
}.

Record Tables : Type := mkTables {
  tb_models : gmap string ModelRow;
  tb_operations : gmap string OperationRow;
  tb_profiles : gmap ProfileKey ProfileRow;
}.

(** The file of the database, the outcomes of the next calls, and [unixepoch()]. *)
Record Database : Type := mkDatabase {
  db_version : N;
  db_tables : Tables;
  db_outcomes : list (option string);
  db_clock : Z;
}.

Definition with_tables (t : Tables) (s : Database) : Database := mkDatabase (db_version s) t (db_outcomes s) (db_clock s).

Definition with_models (h : gmap string ModelRow → gmap string ModelRow) (s : Database) : Database :=
  let t := db_tables s in with_tables (mkTables (h (tb_models t)) (tb_operations t) (tb_profiles t)) s.

Definition with_operations (h : gmap string OperationRow → gmap string OperationRow) (s : Database) : Database :=
  let t := db_tables s in with_tables (mkTables (tb_models t) (h (tb_operations t)) (tb_profiles t)) s.

Definition with_profiles (h : gmap ProfileKey ProfileRow → gmap ProfileKey ProfileRow) (s : Database) : Database :=
  let t := db_tables s in with_tables (mkTables (tb_models t) (tb_operations t) (h (tb_profiles t))) s.

Abbreviation D := (M Database CatalogError).

(** A call of the library, which may fail. *)
Definition attempt (error : string → CatalogError) : D unit := λ s,
  match db_outcomes s with
  | Some message :: rest => Fail (error message) (mkDatabase (db_version s) (db_tables s) rest (db_clock s))
  | outcomes => Done tt (mkDatabase (db_version s) (db_tables s) (tail outcomes) (db_clock s))
  end.

Definition statement : D unit := attempt Sql.

(** A transaction that is dropped before it is committed is rolled back. *)
Definition transaction {A} (body : D A) : D A := λ s,
  match statement s with
  | Done _ s =>
      match (a ← body; _ ← statement; mret a) s with
      | Fail e s' => Fail e (with_tables (db_tables s) s')
      | r => r
      end
  | Fail e s => Fail e s
  | Panic => Panic
  end.

(** ** Constraints *)

Definition known_status (status : string) : bool :=
  existsb (String.eqb status) ["running"; "complete"; "failed"; "cancelled"].

Definition i64_max : N := 9223372036854775807.

(** Another row has this path and revision. *)
Definition path_revision_taken (id : string) (row : ModelRow) (models : gmap string ModelRow) : bool :=
  existsb (λ '(id', other),
      negb (String.eqb id' id) && String.eqb (rw_path other) (rw_path row)
      && String.eqb (rw_revision other) (rw_revision row))
    (map_to_list models).

(** The rows of a table in the order of their identifiers. *)
Definition ordered {A} (table : gmap string A) : list (string * A) :=
  omap (λ id, row ← table !! id; Some (id, row)) (sort_strings (map_to_list table).*1).

Section catalogue.
Variable show_aliases : list string → string.
Variable parse_aliases : string → result string (list string).
Variable show_profile : StoredProfile → string.
Variable parse_profile : string → result string StoredProfile.

(** ** Models *)

Definition upsert_model (id : string) (row : ModelRow) : D unit :=
  _ ← statement;
  s ← get;
  let models := tb_models (db_tables s) in
  _ ← guard_not (rw_size_bytes row <? 0)%Z (Sql "CHECK constraint failed: size_bytes >= 0");
  _ ← guard_not (rw_epoch row <=? 0)%Z (Sql "CHECK constraint failed: epoch > 0");
  _ ← guard_not (path_revision_taken id row models) (Sql "UNIQUE constraint failed: models.path, models.revision");
  let installed_at := match models !! id with Some old => rw_installed_at old | None => rw_installed_at row end in
  modify (with_models (insert id
    (mkModelRow (rw_revision row) (rw_path row) (rw_sha256 row) (rw_family row) (rw_size_bytes row) (rw_epoch row)
       (rw_aliases_json row) installed_at))).

Definition publish_model (m : ModelRecord) : D unit :=
  _ ← guard_not (mr_epoch m =? 0)%N (Data "model epoch must be nonzero");
  let aliases := show_aliases (mr_aliases m) in
  _ ← guard_not (i64_max <? mr_size_bytes m)%N (Data "model size exceeds SQLite integer");
  _ ← guard_not (i64_max <? mr_epoch m)%N (Data "model epoch exceeds SQLite integer");
  s ← get;
  upsert_model (mr_id m)
    (mkModelRow (mr_revision m) (mr_path m) (mr_sha256 m) (mr_family m) (Z.of_N (mr_size_bytes m))
       (Z.of_N (mr_epoch m)) aliases (db_clock s)).

Definition out_of_range : string := "out of range integral type conversion attempted".

Definition record_of_row (id : string) (row : ModelRow) : result CatalogError ModelRecord :=
  match parse_aliases (rw_aliases_json row) with
  | Err e => Err (Sql e)
  | Ok aliases =>
      if (rw_size_bytes row <? 0)%Z || (rw_epoch row <? 0)%Z then Err (Sql out_of_range)
      else Ok (mkModel id (rw_revision row) (rw_path row) (rw_sha256 row) aliases (rw_family row)
                 (Z.to_N (rw_size_bytes row)) (Z.to_N (rw_epoch row)))
  end.

(** The rows are read one after another; the end is read as well. *)
Fixpoint read_rows (rows : list (string * ModelRow)) : D (list ModelRecord) :=
  match rows with
  | [] => _ ← statement; mret []
  | (id, row) :: rows' =>
      _ ← statement;
      m ← lift_result (record_of_row id row);
      ms ← read_rows rows';
      mret (m :: ms)
  end.

Definition models : D (list ModelRecord) :=
  _ ← statement;
  s ← get;
  read_rows (ordered (tb_models (db_tables s))).

Definition named (id : string) (m : ModelRecord) : bool :=
  String.eqb (mr_id m) id || existsb (λ a, String.eqb a id) (mr_aliases m).

Definition model (id : string) : D (option ModelRecord) := all ← models; mret (List.find (named id) all).

Definition publish (m : ModelRecord) : D unit := publish_model m.

Definition remove (id : string) : D bool :=
  _ ← statement;
  s ← get;
  let changed := bool_decide (is_Some (tb_models (db_tables s) !! id)) in
  _ ← modify (with_models (delete id));
  mret changed.

(** ** Operations *)

(** [UPDATE .. WHERE id=?1 AND status='running'], and the number of rows that it changes. *)
Definition update_running (id status : string) (detail : option string) : D N :=
  _ ← statement;
  s ← get;
  match tb_operations (db_tables s) !! id with
  | Some row =>
      if String.eqb (ow_status row) "running" then
        _ ← guard_not (negb (known_status status)) (Sql "CHECK constraint failed: status IN ('running','complete','failed','cancelled')");
        _ ← modify (with_operations (insert id
              (mkOperationRow (ow_model_id row) (ow_kind row) status detail (ow_started_at row) (Some (db_clock s)))));
        mret 1%N
      else mret 0%N
  | None => mret 0%N
  end.

Definition absent_or_terminal (operation : string) : CatalogError :=
  Data ("operation " +:+ operation +:+ " is absent or terminal").

Definition publish_and_finish_operation (m : ModelRecord) (operation : string) : D unit :=
  transaction
    (_ ← publish_model m;
     changed ← update_running operation "complete" None;
     guard_not (negb (changed =? 1)%N) (absent_or_terminal operation)).

Definition begin_operation (id model kind : string) : D unit :=
  _ ← statement;
  s ← get;
  _ ← guard_not (bool_decide (is_Some (tb_operations (db_tables s) !! id)))
        (Sql "UNIQUE constraint failed: lifecycle_operations.id");
  modify (with_operations (insert id (mkOperationRow model kind "running" None (db_clock s) None))).

Definition finish_operation (id status : string) (detail : option string) : D unit :=
  changed ← update_running id status detail;
  guard_not (negb (changed =? 1)%N) (absent_or_terminal id).

Definition operation_status (id : string) : D (option string) :=
  _ ← statement;
  s ← get;
  mret (ow_status <$> tb_operations (db_tables s) !! id).

(** ** Measured profiles *)

Definition measured_execution_profile (key : ProfileKey) (expected_provenance : string)
  : D (option MeasuredExecutionProfileRecord) :=
  _ ← statement;
  s ← get;
  match tb_profiles (db_tables s) !! key with
  | None => mret None
  | Some row =>
      if negb (pw_schema_major row =? Z.of_N MEASURED_EXECUTION_PROFILE_SCHEMA_MAJOR)%Z then mret None
      else
        match parse_profile (pw_measured_data row) with
        | Err e => throw (Data e)
        | Ok profile =>
            if negb (sp_schema_major profile =? MEASURED_EXECUTION_PROFILE_SCHEMA_MAJOR)%N
               || negb (String.eqb (sp_provenance profile) expected_provenance) then mret None
            else mret (Some (mkProfileRecord key profile (pw_measured_at row) (pw_last_used_at row)))
        end
  end.

Definition publish_measured_execution_profile (key : ProfileKey) (profile : StoredProfile) : D unit :=
  _ ← guard_not (negb (sp_schema_major profile =? MEASURED_EXECUTION_PROFILE_SCHEMA_MAJOR)%N)
        (Data ("unsupported measured execution profile schema " +:+ pretty (sp_schema_major profile)));
  _ ← statement;
  s ← get;
  modify (with_profiles (insert key
    (mkProfileRow (Z.of_N (sp_schema_major profile)) (show_profile profile) (db_clock s) (db_clock s)))).

(** ** Opening *)

(** Both migrations are made in one transaction; a file of a later version is refused. *)
Definition migrate : D unit :=
  _ ← attempt Migration;
  s ← get;
  let t := db_tables s in
  _ ← guard_not (2 <? db_version s)%N (Migration "the database is newer than the migrations");
  let created :=
    mkTables (if (db_version s <? 1)%N then ∅ else tb_models t)
      (if (db_version s <? 1)%N then ∅ else tb_operations t)
      (if (db_version s <? 2)%N then ∅ else tb_profiles t) in
  modify (λ s, mkDatabase 2 created (db_outcomes s) (db_clock s)).

Definition fail_running (now : Z) (row : OperationRow) : OperationRow :=
  if String.eqb (ow_status row) "running" then
    mkOperationRow (ow_model_id row) (ow_kind row) "failed" (Some "server restarted before operation completed")
      (ow_started_at row) (Some now)
  else row.

Definition open : D unit :=
  _ ← attempt Io;
  _ ← statement;
  _ ← statement;
  _ ← statement;
  _ ← migrate;
  _ ← statement;
  s ← get;
  modify (with_operations (fmap (fail_running (db_clock s)))).
End catalogue.

(** ** Models that the user declares *)

Record UserModelConfig : Type := mkUserModel {
  um_name : string;
  um_path : string;
  um_sha256 : option string;
  um_aliases : list string;
}.

Definition with_path (path : string) (m : UserModelConfig) : UserModelConfig :=
  mkUserModel (um_name m) path (um_sha256 m) (um_aliases m).

Definition path_prefix (prefix path : string) : bool :=
  String.eqb (String.substring 0 (String.length prefix) path) prefix.

Definition is_absolute (path : string) : bool := path_prefix "/" path.

(** A path with the separator at its end. *)
Definition directory (path : string) : string :=
  if String.eqb path "" then ""
  else if String.eqb (String.substring (String.length path - 1) 1 path) "/" then path
  else path +:+ "/".

(** [root.join(path)] of a path that is not absolute. *)
Definition join (root path : string) : string := directory root +:+ path.

(** [path.starts_with(root)] of canonical paths, by their components. *)
Definition starts_with (root path : string) : bool := String.eqb path root || path_prefix (directory root) path.

Section user_models.
(** [fs::read] and the YAML library's [from_slice], and [fs::canonicalize]. *)
Variable read : string → result string (list N).
Variable parse_yaml : list N → result string (list UserModelConfig).
Variable canonicalize : string → result string string.

Abbreviation U := (result CatalogError).

Definition or_error {A} (error : string → CatalogError) (r : result string A) : U A :=
  match r with Ok a => Ok a | Err e => Err (error e) end.

Fixpoint resolve_models (root : string) (names : gset string) (ms : list UserModelConfig) : U (list UserModelConfig) :=
  match ms with
  | [] => Ok []
  | m :: ms' =>
      if bool_decide (um_name m ∈ names) then Err (Data ("duplicate local model name " +:+ um_name m))
      else
        let candidate := if is_absolute (um_path m) then um_path m else join root (um_path m) in
        canonical ← or_error Io (canonicalize candidate);
        if negb (starts_with root canonical) then Err (Data ("model " +:+ um_name m +:+ " escapes user-models root"))
        else
          resolved ← resolve_models root ({[um_name m]} ∪ names) ms';
          Ok (with_path canonical m :: resolved)
  end.

Definition load_user_models (path root : string) : U (list UserModelConfig) :=
  contents ← or_error Io (read path);
  config ← or_error Data (parse_yaml contents);
  root ← or_error Io (canonicalize root);
  resolve_models root ∅ config.
End user_models.
