(* ===== verification/CatalogueLaws.v ===== *)
(** The catalogue is a ledger: three maps from keys to what was published under them,
    whatever statements fail. It discharges the interface that the lifecycle states. *)

From stdpp Require Import gmap strings list sorting numbers pretty.
From Stdlib Require Import Lia.
From S2P Require Import Prelude Engine Lifecycle Residency Catalogue.

(** ** The order of strings *)

Lemma leb_compare a b : String.leb a b = true ↔ String.compare a b ≠ Gt.
Proof. unfold String.leb. by destruct (String.compare a b). Qed.

Lemma leb_cons x a y b :
  String.leb (String x a) (String y b) = true
  ↔ (Ascii.N_of_ascii x < Ascii.N_of_ascii y)%N ∨ x = y ∧ String.leb a b = true.
Proof.
  rewrite !leb_compare. cbn [String.compare]. unfold Ascii.compare.
  destruct (N.compare_spec (Ascii.N_of_ascii x) (Ascii.N_of_ascii y)) as [H|H|H].
  - apply (f_equal Ascii.ascii_of_N) in H. rewrite !Ascii.ascii_N_embedding in H. subst y.
    split; [by right|]. intros [?|[_ ?]]; [lia|done].
  - split; [by left|done].
  - split; [done|]. intros [?|[-> _]]; lia.
Qed.

#[local] Instance leb_trans : Transitive (λ a b, String.leb a b = true).
Proof.
  intros a. induction a as [|x a IH]; intros [|y b] [|z c]; try done. rewrite !leb_cons.
  intros [H1|[-> H1]] [H2|[-> H2]]; [left; lia|by left|by left|right]. split; [done|by eapply IH].
Qed.

#[local] Instance leb_antisymm : AntiSymm eq (λ a b, String.leb a b = true).
Proof. intros a b. apply String.leb_antisym. Qed.

Lemma insert_string_sorted a l :
  StronglySorted (λ a b, String.leb a b = true) l → StronglySorted (λ a b, String.leb a b = true) (insert_string a l).
Proof.
  induction 1 as [|b l Hl IH Hb]; cbn; [by repeat constructor|].
  destruct (String.leb a b) eqn:Hab.
  - constructor; [by constructor|]. constructor; [done|]. eapply list.Forall_impl; [exact Hb|]. intros c. by apply leb_trans.
  - constructor; [done|]. rewrite insert_string_perm. constructor; [|done].
    by destruct (String.leb_total a b) as [H|H]; [rewrite Hab in H|].
Qed.

Lemma sort_strings_sorted l : StronglySorted (λ a b, String.leb a b = true) (sort_strings l).
Proof. induction l as [|a l IH]; cbn; [constructor|by apply insert_string_sorted]. Qed.

Lemma sort_strings_unique l l' : l ≡ₚ l' → sort_strings l = sort_strings l'.
Proof.
  intros H. eapply (StronglySorted_unique _); [apply sort_strings_sorted..|]. by rewrite !sort_strings_perm.
Qed.

(** ** Tables in order *)

Lemma ordered_elem {A} (t : gmap string A) id a : (id, a) ∈ ordered t ↔ t !! id = Some a.
Proof.
  unfold ordered. rewrite list_elem_of_omap. split.
  - intros (id' & _ & H). destruct (t !! id') as [a'|] eqn:Ht; [|done]. cbn in H. by injection H as <- <-.
  - intros H. exists id. rewrite H. split; [|done]. rewrite sort_strings_perm, list_elem_of_fmap. exists (id, a).
    by rewrite elem_of_map_to_list.
Qed.

(** Rows that are decoded one by one are the rows of the decoded table. *)
Lemma ordered_decoded {A B} (f : string → A → option B) (t : gmap string A) :
  (∀ id a, t !! id = Some a → is_Some (f id a)) →
  omap (λ '(id, a), f id a) (ordered t) = (ordered (map_imap f t)).*2.
Proof.
  intros Hf. unfold ordered.
  assert (sort_strings (map_to_list (map_imap f t)).*1 = sort_strings (map_to_list t).*1) as ->.
  { apply sort_strings_unique, NoDup_Permutation; [apply NoDup_fst_map_to_list..|]. intros id.
    rewrite !list_elem_of_fmap. split; intros ([id' x] & -> & H%elem_of_map_to_list); cbn.
    - rewrite map_lookup_imap in H. destruct (t !! id') as [a|] eqn:Ha; [|done].
      exists (id', a). by rewrite elem_of_map_to_list.
    - destruct (Hf _ _ H) as [b Hb]. exists (id', b). rewrite elem_of_map_to_list, map_lookup_imap, H. done. }
  generalize (sort_strings (map_to_list t).*1). intros keys. induction keys as [|id keys IH]; [done|]. cbn.
  rewrite map_lookup_imap. destruct (t !! id) as [a|] eqn:Ha; [|done]. cbn.
  destruct (Hf _ _ Ha) as [b Hb]. rewrite Hb. cbn. by rewrite IH.
Qed.

(** ** The ledger *)

(** What the tables say: the models, the status of each operation, and the profiles. *)
Record Ledger : Type := mkLedger {
  le_models : gmap string ModelRecord;
  le_operations : gmap string string;
  le_profiles : gmap ProfileKey StoredProfile;
}.

(** What an operation does to a ledger: an error leaves it as it is. *)
Definition Spec (A : Type) : Type := Ledger → result CatalogError (A * Ledger).

Definition spec_bind {A B} (f : Spec A) (g : A → Spec B) : Spec B := λ L,
  match f L with Ok (a, L') => g a L' | Err e => Err e end.

Definition taken (m : ModelRecord) (ms : gmap string ModelRecord) : bool :=
  existsb (λ '(id, other), negb (String.eqb id (mr_id m)) && String.eqb (mr_path other) (mr_path m)
                           && String.eqb (mr_revision other) (mr_revision m)) (map_to_list ms).

Definition spec_publish (m : ModelRecord) : Spec unit := λ L,
  if (mr_epoch m =? 0)%N then Err (Data "model epoch must be nonzero")
  else if (i64_max <? mr_size_bytes m)%N then Err (Data "model size exceeds SQLite integer")
  else if (i64_max <? mr_epoch m)%N then Err (Data "model epoch exceeds SQLite integer")
  else if taken m (le_models L) then Err (Sql "UNIQUE constraint failed: models.path, models.revision")
  else Ok (tt, mkLedger (<[mr_id m := m]> (le_models L)) (le_operations L) (le_profiles L)).

Definition spec_models : Spec (list ModelRecord) := λ L, Ok ((ordered (le_models L)).*2, L).

Definition spec_model (id : string) : Spec (option ModelRecord) := λ L,
  Ok (List.find (named id) (ordered (le_models L)).*2, L).

Definition spec_remove (id : string) : Spec bool := λ L,
  Ok (bool_decide (is_Some (le_models L !! id)), mkLedger (delete id (le_models L)) (le_operations L) (le_profiles L)).

(** A running operation can end once. *)
Definition spec_finish (id status : string) : Spec unit := λ L,
  match le_operations L !! id with
  | Some "running" =>
      if known_status status then Ok (tt, mkLedger (le_models L) (<[id := status]> (le_operations L)) (le_profiles L))
      else Err (Sql "CHECK constraint failed: status IN ('running','complete','failed','cancelled')")
  | _ => Err (absent_or_terminal id)
  end.

Definition spec_begin (id : string) : Spec unit := λ L,
  match le_operations L !! id with
  | Some _ => Err (Sql "UNIQUE constraint failed: lifecycle_operations.id")
  | None => Ok (tt, mkLedger (le_models L) (<[id := "running"]> (le_operations L)) (le_profiles L))
  end.

Definition spec_status (id : string) : Spec (option string) := λ L, Ok (le_operations L !! id, L).

Definition spec_profile (key : ProfileKey) (provenance : string) : Spec (option StoredProfile) := λ L,
  Ok (p ← le_profiles L !! key; if String.eqb (sp_provenance p) provenance then Some p else None, L).

Definition spec_publish_profile (key : ProfileKey) (p : StoredProfile) : Spec unit := λ L,
  if negb (sp_schema_major p =? MEASURED_EXECUTION_PROFILE_SCHEMA_MAJOR)%N
  then Err (Data ("unsupported measured execution profile schema " +:+ pretty (sp_schema_major p)))
  else Ok (tt, mkLedger (le_models L) (le_operations L) (<[key := p]> (le_profiles L))).

(** What was running when the file is opened has failed. *)
Definition spec_open : Spec unit := λ L,
  Ok (tt, mkLedger (le_models L) ((λ status, if String.eqb status "running" then "failed" else status) <$> le_operations L)
            (le_profiles L)).

Section catalogue.
Variable show_aliases : list string → string.
Variable parse_aliases : string → result string (list string).
Variable show_profile : StoredProfile → string.
Variable parse_profile : string → result string StoredProfile.
Hypothesis aliases_roundtrip : ∀ l, parse_aliases (show_aliases l) = Ok l.
Hypothesis profile_roundtrip : ∀ p, parse_profile (show_profile p) = Ok p.

Definition decoded (id : string) (row : ModelRow) : option ModelRecord :=
  match record_of_row parse_aliases id row with Ok m => Some m | Err _ => None end.

Definition decoded_profile (row : ProfileRow) : option StoredProfile :=
  match parse_profile (pw_measured_data row) with Ok p => Some p | Err _ => None end.

(** A table that the file does not have yet is empty. *)
Definition ledger (s : Database) : Ledger :=
  let t := db_tables s in
  mkLedger (if (db_version s <? 1)%N then ∅ else map_imap decoded (tb_models t))
    (if (db_version s <? 1)%N then ∅ else ow_status <$> tb_operations t)
    (if (db_version s <? 2)%N then ∅ else omap decoded_profile (tb_profiles t)).

Record models_ok (t : gmap string ModelRow) : Prop := {
  ok_size : ∀ id row, t !! id = Some row → (0 ≤ rw_size_bytes row)%Z;
  ok_epoch : ∀ id row, t !! id = Some row → (0 < rw_epoch row)%Z;
  ok_aliases : ∀ id row, t !! id = Some row → ∃ l, parse_aliases (rw_aliases_json row) = Ok l;
  ok_unique : ∀ i j row row', t !! i = Some row → t !! j = Some row' →
    rw_path row = rw_path row' → rw_revision row = rw_revision row' → i = j;
}.

Definition operations_ok (t : gmap string OperationRow) : Prop :=
  ∀ id row, t !! id = Some row → known_status (ow_status row) = true.

Definition profiles_ok (t : gmap ProfileKey ProfileRow) : Prop :=
  ∀ key row, t !! key = Some row →
    pw_schema_major row = Z.of_N MEASURED_EXECUTION_PROFILE_SCHEMA_MAJOR
    ∧ ∃ p, parse_profile (pw_measured_data row) = Ok p ∧ sp_schema_major p = MEASURED_EXECUTION_PROFILE_SCHEMA_MAJOR.

(** The file of this or an earlier version. *)
Record file_ok (s : Database) : Prop := {
  fo_version : (db_version s ≤ 2)%N;
  fo_models : (1 ≤ db_version s)%N → models_ok (tb_models (db_tables s));
  fo_operations : (1 ≤ db_version s)%N → operations_ok (tb_operations (db_tables s));
  fo_profiles : (2 ≤ db_version s)%N → profiles_ok (tb_profiles (db_tables s));
}.

Definition db_ok (s : Database) : Prop := db_version s = 2%N ∧ file_ok s.

(** ** Calls *)

(** Some outcomes were used up; nothing else happened. *)
Record later (s s' : Database) : Prop := {
  la_version : db_version s' = db_version s;
  la_tables : db_tables s' = db_tables s;
  la_outcomes : db_outcomes s' `suffix_of` db_outcomes s;
}.

(** A call of the library failed. *)
Definition broken (s : Database) (e : CatalogError) : Prop :=
  ∃ message, Some message ∈ db_outcomes s ∧ (e = Sql message ∨ e = Migration message ∨ e = Io message).

Lemma later_refl s : later s s.
Proof. by split. Qed.

Lemma later_trans s s' s'' : later s s' → later s' s'' → later s s''.
Proof. intros [H1 H2 H3] [H4 H5 H6]. split; [congruence..|by etrans]. Qed.

Lemma later_ledger s s' : later s s' → ledger s' = ledger s.
Proof. intros [H1 H2 _]. unfold ledger. by rewrite H1, H2. Qed.

Lemma later_file_ok s s' : later s s' → file_ok s → file_ok s'.
Proof. intros [H1 H2 _] [H3 H4 H5 H6]. split; by rewrite ?H1, ?H2. Qed.

Lemma later_db_ok s s' : later s s' → db_ok s → db_ok s'.
Proof. intros Hl [H1 H2]. split; [by rewrite (la_version _ _ Hl)|by eapply later_file_ok]. Qed.

Lemma broken_suffix s s' e : db_outcomes s' `suffix_of` db_outcomes s → broken s' e → broken s e.
Proof. intros [k Hk] (message & Hm & He). exists message. split; [|done]. rewrite Hk. set_solver. Qed.

Lemma wp_attempt f (Q : unit → _ → Prop) (R : CatalogError → _ → Prop) s :
  (∀ message, f message = Sql message ∨ f message = Migration message ∨ f message = Io message) →
  (∀ s', later s s' → Q tt s') → (∀ e s', later s s' → broken s e → R e s') → wp (attempt f) Q R s.
Proof.
  intros Hf HQ HR. unfold wp_gen, attempt. destruct (db_outcomes s) as [|[message|] rest] eqn:Ho.
  - apply HQ. split; [done..|]. cbn. rewrite Ho. done.
  - apply HR; [split; [done..|]; cbn; rewrite Ho; by eexists [_]|]. exists message. split; [rewrite Ho; set_solver|apply Hf].
  - apply HQ. split; [done..|]. cbn. rewrite Ho. by eexists [_].
Qed.

Lemma wp_statement (Q : unit → _ → Prop) (R : CatalogError → _ → Prop) s :
  (∀ s', later s s' → Q tt s') → (∀ e s', later s s' → broken s e → R e s') → wp statement Q R s.
Proof. apply wp_attempt. by left. Qed.

(** The operation does to the ledger what the specification says, or a call failed. *)
Definition tracks {A} (m : M Database CatalogError A) (f : Spec A) : Prop :=
  ∀ s, db_ok s →
    wp m (λ a s', db_ok s' ∧ db_outcomes s' `suffix_of` db_outcomes s ∧ f (ledger s) = Ok (a, ledger s'))
      (λ e s', db_version s' = 2%N ∧ db_outcomes s' `suffix_of` db_outcomes s ∧ (broken s e ∨ f (ledger s) = Err e)) s.

(** Where it fails the tables are as they were. *)
Definition atomic {A} (m : M Database CatalogError A) : Prop :=
  ∀ s, db_ok s → wp m (λ _ _, True) (λ _ s', db_tables s' = db_tables s) s.

Lemma ledger_current s :
  db_version s = 2%N →
  ledger s = mkLedger (map_imap decoded (tb_models (db_tables s))) (ow_status <$> tb_operations (db_tables s))
               (omap decoded_profile (tb_profiles (db_tables s))).
Proof. intros Hv. unfold ledger. by rewrite Hv. Qed.

Lemma decoded_row t id row :
  models_ok t → t !! id = Some row →
  ∃ l, parse_aliases (rw_aliases_json row) = Ok l
    ∧ record_of_row parse_aliases id row
      = Ok (mkModel id (rw_revision row) (rw_path row) (rw_sha256 row) l (rw_family row)
              (Z.to_N (rw_size_bytes row)) (Z.to_N (rw_epoch row))).
Proof.
  intros Hok Hrow. destruct (ok_aliases _ Hok _ _ Hrow) as [l Hl]. exists l. split; [done|]. unfold record_of_row.
  rewrite Hl. pose proof (ok_size _ Hok _ _ Hrow). pose proof (ok_epoch _ Hok _ _ Hrow).
  destruct (rw_size_bytes row <? 0)%Z eqn:H1; [lia|]. by destruct (rw_epoch row <? 0)%Z eqn:H2; [lia|].
Qed.

Lemma decoded_is_Some t id row : models_ok t → t !! id = Some row → is_Some (decoded id row).
Proof. intros Hok Hrow. destruct (decoded_row _ _ _ Hok Hrow) as (l & _ & H). unfold decoded. rewrite H. eauto. Qed.

(** *** Models *)

Definition row_of (m : ModelRecord) (now : Z) : ModelRow :=
  mkModelRow (mr_revision m) (mr_path m) (mr_sha256 m) (mr_family m) (Z.of_N (mr_size_bytes m)) (Z.of_N (mr_epoch m))
    (show_aliases (mr_aliases m)) now.

Lemma taken_rows m now t :
  models_ok t → path_revision_taken (mr_id m) (row_of m now) t = taken m (map_imap decoded t).
Proof.
  intros Hok. apply eq_true_iff_eq. unfold path_revision_taken, taken. rewrite !existsb_exists.
  split; intros ([id x] & Hin & Hx); rewrite <- list_elem_of_In, elem_of_map_to_list in Hin.
  - destruct (decoded_row _ _ _ Hok Hin) as (l & _ & Hr).
    eexists (id, _). rewrite <- list_elem_of_In, elem_of_map_to_list, map_lookup_imap, Hin. cbn. unfold decoded. by rewrite Hr.
  - rewrite map_lookup_imap in Hin. destruct (t !! id) as [row|] eqn:Hrow; [|done]. cbn in Hin.
    destruct (decoded_row _ _ _ Hok Hrow) as (l & _ & Hr). unfold decoded in Hin. rewrite Hr in Hin. injection Hin as <-.
    exists (id, row). by rewrite <- list_elem_of_In, elem_of_map_to_list.
Qed.

Lemma taken_false m now t :
  path_revision_taken (mr_id m) (row_of m now) t = false →
  ∀ id row, t !! id = Some row → rw_path row = mr_path m → rw_revision row = mr_revision m → id = mr_id m.
Proof.
  intros Hf id row Hrow Hp Hr. destruct (decide (id = mr_id m)) as [|Hne]; [done|].
  rewrite <- not_true_iff_false in Hf. destruct Hf. unfold path_revision_taken. rewrite existsb_exists.
  exists (id, row). rewrite <- list_elem_of_In, elem_of_map_to_list. split; [done|]. cbn.
  rewrite Hp, Hr, !String.eqb_refl, (proj2 (String.eqb_neq _ _) Hne). done.
Qed.

(** The row keeps the time of its first publication. *)
Definition kept_row (m : ModelRecord) (now : Z) (t : gmap string ModelRow) : ModelRow :=
  row_of m (match t !! mr_id m with Some old => rw_installed_at old | None => now end).

Lemma decoded_row_of m now : decoded (mr_id m) (row_of m now) = Some m.
Proof.
  unfold decoded, record_of_row, row_of. cbn [rw_aliases_json rw_size_bytes rw_epoch]. rewrite aliases_roundtrip.
  rewrite !(proj2 (Z.ltb_ge _ _)) by lia. cbn -[Z.to_N]. rewrite !N2Z.id. by destruct m.
Qed.

Lemma row_of_checked m now :
  (mr_epoch m ≠ 0)%N → (rw_size_bytes (row_of m now) <? 0)%Z = false ∧ (rw_epoch (row_of m now) <=? 0)%Z = false.
Proof. intros He. unfold row_of. cbn [rw_size_bytes rw_epoch]. rewrite Z.ltb_ge, Z.leb_gt. lia. Qed.

Lemma publish_rows m now t :
  models_ok t → (mr_epoch m ≠ 0)%N → path_revision_taken (mr_id m) (row_of m now) t = false →
  models_ok (<[mr_id m := kept_row m now t]> t)
  ∧ map_imap decoded (<[mr_id m := kept_row m now t]> t) = <[mr_id m := m]> (map_imap decoded t).
Proof.
  intros Hok He Hfree. pose proof (taken_false _ _ _ Hfree) as Hunique. split.
  - split.
    + intros id row [[<- <-]|[_ H]]%lookup_insert_Some; [cbn; lia|by eapply ok_size].
    + intros id row [[<- <-]|[_ H]]%lookup_insert_Some; [cbn; lia|by eapply ok_epoch].
    + intros id row [[<- <-]|[_ H]]%lookup_insert_Some; [eexists; apply aliases_roundtrip|by eapply ok_aliases].
    + intros i j row row' [[<- <-]|[Hi H]]%lookup_insert_Some [[<- <-]|[Hj H']]%lookup_insert_Some; cbn; [done|..].
      * intros Hp Hr. symmetry. by eapply Hunique.
      * intros Hp Hr. by eapply Hunique.
      * by eapply ok_unique.
  - apply map_imap_insert_Some, decoded_row_of.
Qed.

(** The case of an error. *)
Ltac refused := split; [congruence|split; [done|by (left + right)]].

Lemma publish_model_tracks m : tracks (publish_model show_aliases m) (spec_publish m).
Proof.
  intros s [Hv Hok]. unfold publish_model, spec_publish. wp_run.
  destruct (mr_epoch m =? 0)%N eqn:He; [refused|]. wp_run. destruct (i64_max <? mr_size_bytes m)%N; wp_run; [refused|].
  destruct (i64_max <? mr_epoch m)%N; wp_run; [refused|]. unfold upsert_model. wp_run.
  apply wp_statement; [|intros e s1 [Hv1 _ Ho] Hb; refused]. intros s1 [Hv1 Ht Ho].
  pose proof (fo_models _ Hok ltac:(lia)) as Hms. wp_run. rewrite Ht. fold (row_of m (db_clock s)).
  destruct (row_of_checked m (db_clock s)) as [-> ->]; [by apply N.eqb_neq|]. wp_run.
  rewrite (ledger_current s) by done. cbn [le_models le_operations le_profiles].
  rewrite <- (taken_rows m (db_clock s)) by done.
  destruct (path_revision_taken _ _ _) eqn:Hfree; wp_run; [refused|].
  change (mkModelRow _ _ _ _ _ _ _ _) with (kept_row m (db_clock s) (tb_models (db_tables s))).
  destruct (publish_rows m (db_clock s) (tb_models (db_tables s))) as [Hms' Hd]; [done|by apply N.eqb_neq|done|].
  split; [split; [cbn; congruence|]|split; [done|]].
  - split; cbn; rewrite ?Hv1, ?Ht; [by apply fo_version|done|by apply fo_operations|by apply fo_profiles].
  - rewrite ledger_current by (cbn; congruence). cbn. by rewrite Ht, Hd.
Qed.

Lemma db_ok_intro s :
  db_version s = 2%N → models_ok (tb_models (db_tables s)) → operations_ok (tb_operations (db_tables s)) →
  profiles_ok (tb_profiles (db_tables s)) → db_ok s.
Proof. intros Hv H1 H2 H3. split; [done|]. split; rewrite ?Hv; done. Qed.

Lemma db_ok_elim s :
  db_ok s → models_ok (tb_models (db_tables s)) ∧ operations_ok (tb_operations (db_tables s))
            ∧ profiles_ok (tb_profiles (db_tables s)).
Proof. intros [Hv [H0 H1 H2 H3]]. rewrite Hv in *. auto with lia. Qed.

Lemma read_rows_spec rows s :
  (∀ id row, (id, row) ∈ rows → ∃ m, record_of_row parse_aliases id row = Ok m) →
  wp (read_rows parse_aliases rows) (λ ms s', later s s' ∧ ms = omap (λ '(id, row), decoded id row) rows)
    (λ e s', later s s' ∧ broken s e) s.
Proof.
  revert s. induction rows as [|[id row] rows IH]; intros s Hrows; cbn [read_rows]; wp_run.
  - by apply wp_statement.
  - apply wp_statement; [intros s1 Hl1|done]. wp_run. destruct (Hrows id row) as [m Hm]; [set_solver|]. rewrite Hm. wp_run.
    eapply wp_mono; [apply IH; set_solver|..]; cbn beta.
    + intros ms s2 [Hl2 ->]. wp_run. split; [by eapply later_trans|]. cbn. unfold decoded at 2. by rewrite Hm.
    + intros e s2 [Hl2 Hb]. split; [by eapply later_trans|]. eapply broken_suffix; [apply Hl1|done].
Qed.

(** An operation that only reads. *)
Definition only_reads {A} (m : M Database CatalogError A) (f : Spec A) : Prop :=
  ∀ s, db_ok s → wp m (λ a s', later s s' ∧ f (ledger s) = Ok (a, ledger s)) (λ e s', later s s' ∧ broken s e) s.

Lemma tracks_read {A} (m : M Database CatalogError A) f : only_reads m f → tracks m f.
Proof.
  intros H s Hs. eapply wp_mono; [by apply H|..]; cbn beta.
  - intros a s' [Hl Hf]. split; [by eapply later_db_ok|]. split; [apply Hl|]. by rewrite (later_ledger _ _ Hl).
  - intros e s' [[Hv _ Ho] Hb]. destruct Hs as [Hs _]. refused.
Qed.

Lemma models_reads : only_reads (models parse_aliases) spec_models.
Proof.
  intros s Hs. destruct (db_ok_elim _ Hs) as (Hms & _ & _). unfold models. wp_run.
  apply wp_statement; [intros s1 Hl1|done]. wp_run. rewrite (la_tables _ _ Hl1).
  eapply wp_mono; [apply read_rows_spec|..]; cbn beta.
  - intros id row Hrow%ordered_elem. destruct (decoded_row _ _ _ Hms Hrow) as (l & _ & Hr). eauto.
  - intros ms s2 [Hl2 ->]. split; [by eapply later_trans|]. unfold spec_models. rewrite ledger_current by apply Hs.
    cbn [le_models]. rewrite <- ordered_decoded; [done|]. intros id row. by apply decoded_is_Some.
  - intros e s2 [Hl2 Hb]. split; [by eapply later_trans|]. eapply broken_suffix; [apply Hl1|done].
Qed.

Lemma model_reads id : only_reads (model parse_aliases id) (spec_model id).
Proof.
  intros s Hs. unfold model. wp_run. eapply wp_mono; [by apply models_reads|cbn beta|done].
  intros ms s1 [Hl [= <-]]. by wp_run.
Qed.

Lemma remove_tracks id : tracks (remove id) (spec_remove id).
Proof.
  intros s Hs. destruct (db_ok_elim _ Hs) as (Hms & Hops & Hps). destruct Hs as [Hv _]. unfold remove. wp_run.
  apply wp_statement; [intros s1 [Hv1 Ht Ho]|intros e s1 [Hv1 _ Ho] Hb; refused]. wp_run.
  split; [|split; [done|]].
  - apply db_ok_intro; cbn; rewrite ?Ht; [congruence| |done..]. destruct Hms as [H1 H2 H3 H4].
    split; [intros i row|intros i row|intros i row|intros i j row row']; rewrite ?lookup_delete_Some; naive_solver.
  - unfold spec_remove. rewrite !ledger_current by (cbn; congruence). cbn. rewrite Ht, map_imap_delete. do 3 f_equal.
    apply bool_decide_ext. rewrite map_lookup_imap. destruct (tb_models (db_tables s) !! id) as [row|] eqn:Hrow; [|by split; intros [? [=]]].
    cbn. destruct (decoded_is_Some _ _ _ Hms Hrow) as [m ->]. split; eauto.
Qed.

(** *** Operations *)

Lemma update_running_spec id status detail s :
  db_ok s →
  wp (update_running id status detail)
    (λ changed s', db_ok s' ∧ db_outcomes s' `suffix_of` db_outcomes s
      ∧ if (changed =? 1)%N then spec_finish id status (ledger s) = Ok (tt, ledger s')
        else ledger s' = ledger s ∧ spec_finish id status (ledger s) = Err (absent_or_terminal id))
    (λ e s', later s s' ∧ (broken s e ∨ spec_finish id status (ledger s) = Err e)) s.
Proof.
  intros Hs. destruct (db_ok_elim _ Hs) as (Hms & Hops & Hps). unfold update_running. wp_run.
  apply wp_statement; [intros s1 Hl|by auto]. wp_run. pose proof Hl as [Hv Ht Ho]. rewrite Ht.
  unfold spec_finish. rewrite (ledger_current s) by apply Hs. cbn [le_operations le_models le_profiles]. rewrite lookup_fmap.
  assert (db_ok s1 ∧ db_outcomes s1 `suffix_of` db_outcomes s ∧ ledger s1 = ledger s) as Hsame.
  { split; [by eapply later_db_ok|]. split; [done|by apply later_ledger]. }
  rewrite (ledger_current s) in Hsame by apply Hs.
  destruct (tb_operations (db_tables s) !! id) as [row|] eqn:Hrow; cbn -[known_status]; [|wp_run; naive_solver].
  destruct (String.eqb_spec (ow_status row) "running") as [Hr|Hr]; cbn -[known_status].
  - rewrite Hr. wp_run. destruct (known_status status) eqn:Hknown; wp_run; [|by split; [|right]].
    split; [|split; [done|]].
    + apply db_ok_intro; cbn; rewrite ?Ht; [rewrite Hv; apply Hs|done| |done].
      intros i row' [[<- <-]|[_ H]]%lookup_insert_Some; [done|by eapply Hops].
    + rewrite ledger_current by (cbn; rewrite Hv; apply Hs). cbn. by rewrite Ht, fmap_insert.
  - wp_run. cbn. destruct Hsame as (? & ? & ?). split; [done|]. split; [done|]. split; [done|].
    repeat case_match; try done.
Qed.

Lemma finish_tracks id status detail : tracks (finish_operation id status detail) (spec_finish id status).
Proof.
  intros s Hs. unfold finish_operation. wp_run. eapply wp_mono; [by apply update_running_spec|..]; cbn beta.
  - intros changed s1 (Hs1 & Ho & H). wp_run. destruct (changed =? 1)%N; cbn [negb]; [done|]. destruct H as [_ H].
    destruct Hs1 as [Hv1 _]. refused.
  - intros e s1 [[Hv1 _ Ho] Hb]. destruct Hs as [Hv _]. split; [congruence|done].
Qed.

Lemma transaction_tracks {A} (m : M Database CatalogError A) f : tracks m f → tracks (transaction m) f.
Proof.
  intros Hm s Hs. unfold transaction, wp_gen.
  assert (wp statement (λ _ s', later s s') (λ e s', later s s' ∧ broken s e) s) as H by by apply wp_statement.
  unfold wp_gen in H. destruct (statement s) as [[] s0|e s0|]; [|destruct H as [[Hv _ Ho] Hb]; destruct Hs as [Hs _]; refused|done].
  pose proof (later_db_ok _ _ H Hs) as Hs0.
  assert (wp (a ← m; _ ← statement; mret a)
    (λ a s', db_ok s' ∧ db_outcomes s' `suffix_of` db_outcomes s0 ∧ f (ledger s0) = Ok (a, ledger s'))
    (λ e s', db_version s' = 2%N ∧ db_outcomes s' `suffix_of` db_outcomes s0 ∧ (broken s0 e ∨ f (ledger s0) = Err e)) s0) as Hm0.
  { wp_run. eapply wp_mono; [by apply Hm|cbn beta|done]. intros a s1 (Hs1 & Ho1 & Hf). wp_run. apply wp_statement.
    - intros s2 Hl2. wp_run. split; [by eapply later_db_ok|]. split; [etrans; [apply Hl2|done]|].
      by rewrite (later_ledger _ _ Hl2).
    - intros e s2 [Hv2 _ Ho2] Hb. destruct Hs1 as [Hv1 _]. split; [congruence|]. split; [by etrans|].
      left. by eapply broken_suffix. }
  unfold wp_gen in Hm0. rewrite <- (later_ledger _ _ H). pose proof (la_outcomes _ _ H) as Ho.
  destruct ((a ← m; _ ← statement; mret a) s0) as [a s1|e s1|]; [| |done].
  - destruct Hm0 as (H1 & H2 & H3). split; [done|]. split; [by etrans|done].
  - destruct Hm0 as (H1 & H2 & H3). cbn. split; [done|]. split; [by etrans|].
    destruct H3 as [H3|H3]; [left; by eapply broken_suffix|by right].
Qed.

Lemma published_finished_tracks m operation :
  tracks
    (_ ← publish_model show_aliases m;
     changed ← update_running operation "complete" None;
     guard_not (negb (changed =? 1)%N) (absent_or_terminal operation))
    (spec_bind (spec_publish m) (λ _, spec_finish operation "complete")).
Proof.
  intros s Hs. wp_run.
  eapply wp_mono; [by apply publish_model_tracks|..]; cbn beta.
  - intros [] s1 (Hs1 & Ho1 & Hf). wp_run. unfold spec_bind. rewrite Hf.
    pose proof (finish_tracks operation "complete" None s1 Hs1) as H. unfold finish_operation in H. rewrite wp_bind in H.
    eapply wp_mono; [exact H|..]; cbn beta.
    + intros changed s2 H2. revert H2. rewrite !wp_guard_not. destruct (negb _).
      * intros (Hv & Ho & Hb). split; [done|]. split; [by etrans|]. destruct Hb as [Hb|Hb]; [left; by eapply broken_suffix|by right].
      * intros (? & ? & ?). split; [done|]. split; [by etrans|done].
    + intros e s2 (Hv & Ho & Hb). split; [done|]. split; [by etrans|].
      destruct Hb as [Hb|Hb]; [left; by eapply broken_suffix|by right].
  - intros e s1 (Hv & Ho & Hb). split; [done|]. split; [done|]. unfold spec_bind.
    destruct Hb as [Hb|Hb]; [by left|right; by rewrite Hb].
Qed.

Lemma begin_tracks id model kind : tracks (begin_operation id model kind) (spec_begin id).
Proof.
  intros s Hs. destruct (db_ok_elim _ Hs) as (Hms & Hops & Hps). destruct Hs as [Hv _]. unfold begin_operation. wp_run.
  apply wp_statement; [intros s1 [Hv1 Ht Ho]|intros e s1 [Hv1 _ Ho] Hb; refused]. wp_run. rewrite Ht.
  unfold spec_begin. rewrite (ledger_current s) by done. cbn [le_operations]. rewrite lookup_fmap.
  case_bool_decide as Hrow; wp_run.
  - destruct Hrow as [row ->]. cbn. refused.
  - destruct (tb_operations (db_tables s) !! id) as [row|]; [by destruct Hrow|]. cbn.
    split; [|split; [done|]].
    + apply db_ok_intro; cbn; rewrite ?Ht; [congruence|done| |done].
      intros i row' [[<- <-]|[_ H]]%lookup_insert_Some; [done|by eapply Hops].
    + rewrite ledger_current by (cbn; congruence). cbn. by rewrite Ht, fmap_insert.
Qed.

Lemma status_reads id : only_reads (operation_status id) (spec_status id).
Proof.
  intros s [Hv _]. unfold operation_status. wp_run. apply wp_statement; [intros s1 Hl|done]. wp_run.
  split; [done|]. unfold spec_status. rewrite (ledger_current s) by done. cbn. by rewrite lookup_fmap, (la_tables _ _ Hl).
Qed.

(** *** Profiles *)

Definition read_profile (key : ProfileKey) (provenance : string) : M Database CatalogError (option StoredProfile) :=
  record ← measured_execution_profile parse_profile key provenance; mret (rc_profile <$> record).

Lemma profile_reads key provenance : only_reads (read_profile key provenance) (spec_profile key provenance).
Proof.
  intros s Hs. destruct (db_ok_elim _ Hs) as (_ & _ & Hps). unfold read_profile, measured_execution_profile.
  wp_run. apply wp_statement; [intros s1 Hl|done]. wp_run. rewrite (la_tables _ _ Hl). unfold spec_profile.
  rewrite (ledger_current s) by apply Hs. cbn [le_profiles]. rewrite lookup_omap.
  destruct (tb_profiles (db_tables s) !! key) as [row|] eqn:Hrow; [|by wp_run].
  destruct (Hps _ _ Hrow) as (Hmajor & p & Hp & Hpm). rewrite Hmajor, Z.eqb_refl. cbn. unfold decoded_profile.
  rewrite Hp, Hpm. cbn. by destruct (String.eqb (sp_provenance p) provenance); cbn; wp_run.
Qed.

Lemma publish_profile_tracks key p :
  tracks (publish_measured_execution_profile show_profile key p) (spec_publish_profile key p).
Proof.
  intros s Hs. destruct (db_ok_elim _ Hs) as (Hms & Hops & Hps). destruct Hs as [Hv _].
  unfold publish_measured_execution_profile, spec_publish_profile. wp_run.
  destruct (sp_schema_major p =? _)%N eqn:Hmajor; cbn [negb]; wp_run; [|refused]. apply N.eqb_eq in Hmajor.
  apply wp_statement; [intros s1 [Hv1 Ht Ho]|intros e s1 [Hv1 _ Ho] Hb; refused]. wp_run.
  split; [|split; [done|]].
  - apply db_ok_intro; cbn; rewrite ?Ht; [congruence|done|done|].
    intros k row [[<- <-]|[_ H]]%lookup_insert_Some; [|by eapply Hps]. cbn. rewrite Hmajor. split; [done|]. by exists p.
  - rewrite !ledger_current by (cbn; congruence). cbn. rewrite Ht. do 3 f_equal. symmetry. apply omap_insert_Some.
    unfold decoded_profile. cbn. by rewrite profile_roundtrip.
Qed.

(** *** Opening *)

Lemma migrate_spec s :
  file_ok s →
  wp migrate (λ _ s', db_ok s' ∧ db_outcomes s' `suffix_of` db_outcomes s ∧ ledger s' = ledger s)
    (λ e s', later s s' ∧ broken s e) s.
Proof.
  intros [Hv Hms Hops Hps]. unfold migrate. wp_run. apply wp_attempt; [by auto| |done]. intros s1 [Hv1 Ht Ho]. wp_run.
  rewrite Hv1, Ht. destruct (2 <? db_version s)%N eqn:H2; [apply N.ltb_lt in H2; lia|]. wp_run.
  destruct (db_version s <? 1)%N eqn:H1; destruct (db_version s <? 2)%N eqn:H2'; rewrite ?N.ltb_lt, ?N.ltb_ge in *; try lia.
  all: split; [apply db_ok_intro; cbn; try done; auto; split; done|split; [done|]].
  all: unfold ledger; cbn; rewrite ?(proj2 (N.ltb_lt _ _) H1), ?(proj2 (N.ltb_ge _ _) H1),
    ?(proj2 (N.ltb_lt _ _) H2'), ?(proj2 (N.ltb_ge _ _) H2'); rewrite ?map_imap_empty, ?fmap_empty, ?omap_empty; done.
Qed.

Lemma fail_running_ok now t : operations_ok t → operations_ok (fail_running now <$> t).
Proof.
  intros H id row. rewrite lookup_fmap. destruct (t !! id) as [row'|] eqn:Hrow; [|done]. cbn -[known_status]. intros [= <-].
  unfold fail_running. by destruct (String.eqb _ _); [|eapply H].
Qed.

Lemma open_spec s :
  file_ok s →
  wp open (λ _ s', db_ok s' ∧ db_outcomes s' `suffix_of` db_outcomes s ∧ spec_open (ledger s) = Ok (tt, ledger s'))
    (λ e s', file_ok s' ∧ db_outcomes s' `suffix_of` db_outcomes s ∧ ledger s' = ledger s ∧ broken s e) s.
Proof.
  intros Hs. unfold open. wp_run.
  set (R := λ e s', file_ok s' ∧ _ ∧ ledger s' = ledger s ∧ broken s e).
  assert (∀ s1 e s2, later s s1 → later s1 s2 → broken s1 e → R e s2) as HR.
  { intros s1 e s2 H1 H2 Hb. pose proof (later_trans _ _ _ H1 H2) as H. split; [by eapply later_file_ok|].
    split; [apply H|]. split; [by apply later_ledger|]. eapply broken_suffix; [apply H1|done]. }
  apply wp_attempt; [by auto| |intros e s1; apply (HR s), later_refl]. intros s1 H1. wp_run.
  apply wp_statement; [|intros e ?; by eapply HR]. intros s2 H2. wp_run. pose proof (later_trans _ _ _ H1 H2) as Hl2.
  apply wp_statement; [|intros e ?; by eapply HR]. intros s3 H3. wp_run. pose proof (later_trans _ _ _ Hl2 H3) as Hl3.
  apply wp_statement; [|intros e ?; by eapply HR]. intros s4 H4. wp_run. pose proof (later_trans _ _ _ Hl3 H4) as Hl4.
  eapply wp_mono; [by apply migrate_spec; eapply later_file_ok| |intros e s5 [H5 Hb]; by eapply HR]. cbn beta.
  intros [] s5 (H5 & Ho5 & HL5). wp_run. rewrite (later_ledger _ _ Hl4) in HL5. pose proof (la_outcomes _ _ Hl4) as Ho4.
  apply wp_statement.
  - intros s6 H6. wp_run. destruct (db_ok_elim _ H5) as (Hms & Hops & Hps). destruct H5 as [Hv5 _].
    destruct H6 as [Hv6 Ht6 Ho6]. split; [|split].
    + apply db_ok_intro; cbn; rewrite ?Ht6; [congruence|done|by apply fail_running_ok|done].
    + cbn. by do 2 (etrans; [done|]).
    + unfold spec_open. rewrite <- HL5, !ledger_current by (cbn; congruence). cbn. rewrite Ht6. do 3 f_equal.
      rewrite <- !map_fmap_compose. apply map_fmap_ext. intros id row _. unfold fail_running. cbn.
      by destruct (String.eqb _ _).
  - intros e s6 H6 Hb. split; [eapply later_file_ok; [done|apply H5]|]. split; [etrans; [apply H6|by etrans]|].
    split; [by rewrite (later_ledger _ _ H6)|]. eapply broken_suffix; [|done]. by etrans.
Qed.

(** ** Runs *)

Inductive Request : Type :=
| Models
| Model (id : string)
| Publish (m : ModelRecord)
| PublishAndFinish (m : ModelRecord) (operation : string)
| Remove (id : string)
| Begin (id model kind : string)
| Finish (id status : string) (detail : option string)
| Status (id : string)
| Profile (key : ProfileKey) (provenance : string)
| PublishProfile (key : ProfileKey) (p : StoredProfile)
| Open.

Inductive Answer : Type :=
| Nothing
| Listed (ms : list ModelRecord)
| Found (m : option ModelRecord)
| Changed (b : bool)
| StatusIs (status : option string)
| Measured (p : option StoredProfile).

Definition answering {A B} (f : A → B) (m : M Database CatalogError A) : M Database CatalogError B := a ← m; mret (f a).

Definition perform (r : Request) : M Database CatalogError Answer :=
  match r with
  | Models => answering Listed (models parse_aliases)
  | Model id => answering Found (model parse_aliases id)
  | Publish m => answering (λ _, Nothing) (publish show_aliases m)
  | PublishAndFinish m operation => answering (λ _, Nothing) (publish_and_finish_operation show_aliases m operation)
  | Remove id => answering Changed (remove id)
  | Begin id model kind => answering (λ _, Nothing) (begin_operation id model kind)
  | Finish id status detail => answering (λ _, Nothing) (finish_operation id status detail)
  | Status id => answering StatusIs (operation_status id)
  | Profile key provenance => answering Measured (read_profile key provenance)
  | PublishProfile key p => answering (λ _, Nothing) (publish_measured_execution_profile show_profile key p)
  | Open => answering (λ _, Nothing) (open)
  end.

Definition spec_answering {A B} (f : A → B) (g : Spec A) : Spec B := spec_bind g (λ a L, Ok (f a, L)).

Definition spec_perform (r : Request) : Spec Answer :=
  match r with
  | Models => spec_answering Listed spec_models
  | Model id => spec_answering Found (spec_model id)
  | Publish m => spec_answering (λ _, Nothing) (spec_publish m)
  | PublishAndFinish m operation =>
      spec_answering (λ _, Nothing) (spec_bind (spec_publish m) (λ _, spec_finish operation "complete"))
  | Remove id => spec_answering Changed (spec_remove id)
  | Begin id _ _ => spec_answering (λ _, Nothing) (spec_begin id)
  | Finish id status _ => spec_answering (λ _, Nothing) (spec_finish id status)
  | Status id => spec_answering StatusIs (spec_status id)
  | Profile key provenance => spec_answering Measured (spec_profile key provenance)
  | PublishProfile key p => spec_answering (λ _, Nothing) (spec_publish_profile key p)
  | Open => spec_answering (λ _, Nothing) spec_open
  end.

Lemma answering_tracks {A B} (f : A → B) m g : tracks m g → tracks (answering f m) (spec_answering f g).
Proof.
  intros H s Hs. unfold answering, spec_answering, spec_bind. wp_run. eapply wp_mono; [by apply H|..]; cbn beta.
  - intros a s' (H1 & H2 & H3). wp_run. by rewrite H3.
  - intros e s' (H1 & H2 & [H3|H3]); [refused|rewrite H3; refused].
Qed.

Lemma perform_tracks r : r ≠ Open → tracks (perform r) (spec_perform r).
Proof.
  intros Hr. destruct r; try done; cbn [perform spec_perform]; apply answering_tracks.
  - apply tracks_read, models_reads.
  - apply tracks_read, model_reads.
  - apply publish_model_tracks.
  - apply transaction_tracks, published_finished_tracks.
  - apply remove_tracks.
  - apply begin_tracks.
  - apply finish_tracks.
  - apply tracks_read, status_reads.
  - apply tracks_read, profile_reads.
  - apply publish_profile_tracks.
Qed.

(** *** Errors leave the tables as they are *)

Lemma answering_atomic {A B} (f : A → B) m : atomic m → atomic (answering f m).
Proof. intros H s Hs. unfold answering. wp_run. eapply wp_mono; [by apply H|by intros; wp_run|done]. Qed.

Lemma read_atomic {A} (m : M Database CatalogError A) f : only_reads m f → atomic m.
Proof. intros H s Hs. eapply wp_mono; [by apply H|done|]. by intros e s' [[] _]. Qed.

(** What follows a statement may read, and write last. *)
Ltac writes_last := wp_run; apply wp_statement; [intros ? []; wp_run; repeat (case_match; wp_run); (done || congruence)|by intros ? ? []].

Lemma publish_model_atomic m : atomic (publish_model show_aliases m).
Proof. intros s _. unfold publish_model, upsert_model. wp_run. repeat (case_match; [done|]). writes_last. Qed.

Lemma remove_atomic id : atomic (remove id).
Proof. intros s _. unfold remove. writes_last. Qed.

Lemma begin_atomic id model kind : atomic (begin_operation id model kind).
Proof. intros s _. unfold begin_operation. writes_last. Qed.

Lemma publish_profile_atomic key p : atomic (publish_measured_execution_profile show_profile key p).
Proof. intros s _. unfold publish_measured_execution_profile. wp_run. case_match; [done|]. writes_last. Qed.

Lemma finish_atomic id status detail : atomic (finish_operation id status detail).
Proof.
  intros s _. unfold finish_operation, update_running. wp_run. apply wp_statement; [intros s1 [_ Ht _]|by intros ? ? []].
  wp_run. repeat (case_match; wp_run); (done || congruence).
Qed.

Lemma transaction_atomic {A} (m : M Database CatalogError A) f : tracks m f → atomic (transaction m).
Proof.
  intros Hm s Hs. unfold transaction, wp_gen.
  assert (wp statement (λ _ s', later s s') (λ e s', later s s') s) as H by by apply wp_statement.
  unfold wp_gen in H. destruct (statement s) as [[] s0|e s0|]; [|apply H|done].
  pose proof (Hm s0 (later_db_ok _ _ H Hs)) as Hm0. unfold wp_gen in Hm0.
  unfold mbind, M_bind. destruct (m s0) as [a s1|e s1|]; [|apply H|done].
  assert (wp statement (λ _ _, True) (λ _ _, True) s1) as H1 by by apply wp_statement.
  unfold wp_gen in H1. destruct (statement s1); [done|apply H|done].
Qed.

Lemma perform_atomic r : r ≠ Open → atomic (perform r).
Proof.
  intros Hr. destruct r; try done; cbn [perform]; apply answering_atomic.
  - eapply read_atomic, models_reads.
  - eapply read_atomic, model_reads.
  - apply publish_model_atomic.
  - eapply transaction_atomic, published_finished_tracks.
  - apply remove_atomic.
  - apply begin_atomic.
  - apply finish_atomic.
  - eapply read_atomic, status_reads.
  - eapply read_atomic, profile_reads.
  - apply publish_profile_atomic.
Qed.

(** Together: an error leaves the ledger. *)
Lemma tracks_atomic {A} (m : M Database CatalogError A) f s :
  tracks m f → atomic m → db_ok s →
  wp m (λ a s', db_ok s' ∧ f (ledger s) = Ok (a, ledger s'))
    (λ e s', db_ok s' ∧ ledger s' = ledger s ∧ (broken s e ∨ f (ledger s) = Err e)) s.
Proof.
  intros Hm Ha Hs. eapply wp_mono; [apply wp_conj; [by apply Hm|by apply Ha]|..]; cbn beta.
  - by intros a s' [(H1 & _ & H2) _].
  - intros e s' [(H1 & _ & H2) Ht]. destruct (db_ok_elim _ Hs) as (H3 & H4 & H5). destruct Hs as [Hv _].
    split; [apply db_ok_intro; rewrite ?Ht; done|]. split; [|done]. unfold ledger. by rewrite Ht, H1, Hv.
Qed.

(** *** Histories *)

(** The file of a server that is started, stopped anywhere and started again: after it
    was opened, requests in any order, with any outcomes. *)
Inductive reachable : Database → Prop :=
| Fresh outcomes clock : reachable (mkDatabase 0 (mkTables ∅ ∅ ∅) outcomes clock)
| Passed s outcomes clock : reachable s → reachable (mkDatabase (db_version s) (db_tables s) outcomes clock)
| Performed s r s' : reachable s → r = Open ∨ db_version s = 2%N → after (perform r) s = Some s' → reachable s'.

Lemma perform_open s :
  file_ok s →
  wp (perform Open) (λ a s', db_ok s' ∧ spec_perform Open (ledger s) = Ok (a, ledger s'))
    (λ e s', file_ok s' ∧ ledger s' = ledger s ∧ (broken s e ∨ spec_perform Open (ledger s) = Err e)) s.
Proof.
  intros Hs. cbn [perform spec_perform]. unfold answering, spec_answering, spec_bind. wp_run.
  eapply wp_mono; [by apply open_spec|..]; cbn beta.
  - intros [] s' (H1 & _ & H2). wp_run. by rewrite H2.
  - intros e s' (H1 & _ & H2 & H3). auto.
Qed.

Lemma perform_meets r s :
  file_ok s → r = Open ∨ db_version s = 2%N →
  wp (perform r) (λ a s', db_ok s' ∧ spec_perform r (ledger s) = Ok (a, ledger s'))
    (λ e s', file_ok s' ∧ ledger s' = ledger s ∧ (broken s e ∨ spec_perform r (ledger s) = Err e)) s.
Proof.
  intros Hs Hr. assert (r = Open ∨ r ≠ Open ∧ db_version s = 2%N) as [->|[Hne Hv]]; [|by apply perform_open|].
  { destruct Hr as [->|Hv]; [by left|]. destruct r; auto; right; by split. }
  eapply wp_mono; [by apply tracks_atomic; [apply perform_tracks|apply perform_atomic|]|done|]. cbn beta.
  intros e s' ([_ H1] & H2). done.
Qed.

Lemma reachable_file_ok s : reachable s → file_ok s.
Proof.
  induction 1 as [outcomes clock|s outcomes clock _ [H1 H2 H3 H4]|s r s' _ Hs Hr Hs'].
  - by split.
  - by split.
  - unfold after in Hs'. pose proof (perform_meets r s Hs Hr) as H. unfold wp_gen in H.
    destruct (perform r s) as [a s1|e s1|]; [| |done]; injection Hs' as ->; [apply H|apply H].
Qed.

(** C17: The catalogue is a ledger. Whatever was requested before, however often the
    server was stopped and started again, and whichever calls of the database failed, an
    operation answers and changes exactly what the ledger of models, operations and
    profiles says, which the tables can be read back as; where it answers with an error,
    because the ledger refuses it or a call failed, nothing has changed, also when a
    model is published and its operation finished together. *)
Theorem catalogue_refines_ledger s r :
  reachable s → r = Open ∨ db_version s = 2%N →
  match perform r s with
  | Done answer s' => spec_perform r (ledger s) = Ok (answer, ledger s')
  | Fail e s' => ledger s' = ledger s ∧ (broken s e ∨ spec_perform r (ledger s) = Err e)
  | Panic => False
  end.
Proof.
  intros Hs Hr. pose proof (perform_meets r s (reachable_file_ok _ Hs) Hr) as H. unfold wp_gen in H.
  by destruct (perform r s); [apply H|destruct H as (_ & H)|].
Qed.

(** An operation that has ended never runs again, and its end does not change. *)
Lemma ended_stays r L answer L' id status :
  spec_perform r L = Ok (answer, L') → le_operations L !! id = Some status → status ≠ "running" →
  le_operations L' !! id = Some status.
Proof.
  intros H Hid Hne. destruct r; cbn in H; unfold spec_answering, spec_bind in H; cbn in H;
    unfold spec_publish, spec_finish, spec_begin, spec_publish_profile in H; repeat case_match; simplify_eq; cbn in *;
    rewrite ?lookup_insert_Some, ?lookup_fmap, ?Hid; cbn; try done; try (right; split; [congruence|done]).
  by rewrite (proj2 (String.eqb_neq _ _) Hne).
Qed.

(** ** The interface of the lifecycle *)

Definition rows (s : Database) : gmap string ModelRecord := map_imap decoded (tb_models (db_tables s)).

(** What [map_err(state_err)] leaves of an error is its text. *)
Definition called {A} (m : M Database CatalogError A) (s : Database) : result string A * Database :=
  match m s with
  | Done a s' => (Ok a, s')
  | Fail e s' => (Err (show_error e), s')
  | Panic => (Err "", s)
  end.

#[local] Instance catalogue : Catalog Database := {|
  cat_rows := rows;
  cat_publish m := called (publish show_aliases m);
  cat_remove id := called (remove id);
|}.

Lemma called_spec {A} (m : M Database CatalogError A) Q s r s' :
  wp m Q (λ _ s', db_tables s' = db_tables s) s → called m s = (r, s') →
  match r with Ok a => Q a s' | Err _ => rows s' = rows s end.
Proof.
  unfold wp_gen, called. destruct (m s) as [a s1|e s1|]; [| |done]; intros H [= <- <-]; [done|]. unfold rows. by rewrite H.
Qed.

Lemma publish_rows_spec m s :
  wp (publish show_aliases m) (λ _ s', rows s' = <[mr_id m := m]> (rows s)) (λ _ s', db_tables s' = db_tables s) s.
Proof.
  unfold publish, publish_model, upsert_model. wp_run. repeat (case_match; [done|]). wp_run.
  apply wp_statement; [intros s1 [_ Ht _]|by intros ? ? []]. wp_run. rewrite Ht. repeat (case_match; [done|]). wp_run.
  unfold rows. cbn [with_models with_tables db_tables tb_models]. rewrite Ht.
  change (mkModelRow _ _ _ _ _ _ _ _) with (kept_row m (db_clock s) (tb_models (db_tables s))).
  apply map_imap_insert_Some, decoded_row_of.
Qed.

Lemma remove_rows_spec id s :
  wp (remove id) (λ _ s', rows s' = delete id (rows s)) (λ _ s', db_tables s' = db_tables s) s.
Proof.
  unfold remove. wp_run. apply wp_statement; [intros s1 [_ Ht _]|by intros ? ? []]. wp_run. unfold rows. cbn.
  by rewrite Ht, map_imap_delete.
Qed.

Lemma catalogue_laws : CatalogLaws Database.
Proof.
  split; cbn [cat_rows cat_publish cat_remove catalogue]; intros *; intros H;
    (eapply called_spec in H; [|apply publish_rows_spec || apply remove_rows_spec]); exact H.
Qed.
End catalogue.

(** ** Models that the user declares *)

Section user_models.
Variable read : string → result string (list N).
Variable parse_yaml : list N → result string (list UserModelConfig).
Variable canonicalize : string → result string string.

(** Where a declaration points to, once it is resolved below the root. *)
Definition resolved_as (root : string) (m m' : UserModelConfig) : Prop :=
  m' = with_path (um_path m') m
  ∧ canonicalize (if is_absolute (um_path m) then um_path m else join root (um_path m)) = Ok (um_path m')
  ∧ starts_with root (um_path m') = true.

Lemma resolve_models_ok root names ms ms' :
  resolve_models canonicalize root names ms = Ok ms' ↔
  base.NoDup (um_name <$> ms) ∧ (∀ m, m ∈ ms → um_name m ∉ names) ∧ Forall2 (resolved_as root) ms ms'.
Proof.
  revert names ms'. induction ms as [|m ms IH]; intros names ms'; cbn [resolve_models].
  - split; [intros [= <-]; split; [constructor|split; [set_solver|constructor]]|]. intros (_ & _ & H). by inversion H.
  - rewrite fmap_cons, list.NoDup_cons. case_bool_decide as Hin; [split; [done|intros (_ & H & _); set_solver]|].
    unfold or_error. destruct (canonicalize _) as [canonical|e] eqn:Hc; cbn [mbind result_bind].
    2:{ split; [done|]. intros (_ & _ & H). inversion H as [|? m' ? ? (_ & Hm & _)]; subst. congruence. }
    destruct (starts_with root canonical) eqn:Hs; cbn [negb].
    2:{ split; [done|]. intros (_ & _ & H). inversion H as [|? m' ? ? (_ & Hm & Hs')]; subst. congruence. }
    destruct (resolve_models _ _ _ ms) as [resolved|e] eqn:Hr; cbn [mbind result_bind].
    + apply IH in Hr as (Hnd & Hfresh & Hall). split.
      * intros [= <-]. split; [split; [|done]|split].
        -- intros (m' & Hn & Hm')%list_elem_of_fmap. apply (Hfresh m'); set_solver.
        -- intros m' [->|Hm']%list.elem_of_cons; [done|]. intros Hn. apply (Hfresh m'); set_solver.
        -- constructor; [|done]. by destruct m.
      * intros (_ & _ & H). inversion H as [|? m' ? rest (Hm & Hc' & _) Hrest]; subst. f_equal.
        assert (canonical = um_path m') as -> by congruence. rewrite Hm. f_equal.
        revert Hrest. clear -Hall. revert rest. induction Hall as [|a b l k (Ha & Hca & _) _ IH]; intros rest H; inversion H; subst; [done|].
        destruct H2 as (Hb & Hcb & _). f_equal; [|by apply IH]. rewrite Ha, Hb. congruence.
    + split; [done|]. intros ([Hm Hnd] & Hfresh & H). exfalso.
      inversion H as [|? m' ? rest _ Hrest]; subst.
      assert (resolve_models canonicalize root ({[um_name m]} ∪ names) ms = Ok rest) as Hok; [|by rewrite Hok in Hr].
      apply IH. split; [done|]. split; [|done]. intros m0 Hm0. apply not_elem_of_union. split.
      * intros Hn%elem_of_singleton. apply Hm. rewrite <- Hn. by apply list_elem_of_fmap_2.
      * apply Hfresh. set_solver.
Qed.

(** C40: The user's declarations are loaded exactly when the file can be read, no name is
    declared twice and every path, taken relative to the root and resolved through
    links, is below the root; what is loaded are the declarations with their resolved
    paths. *)
Theorem user_models_confined path root ms' :
  load_user_models read parse_yaml canonicalize path root = Ok ms' ↔
  ∃ contents ms base, read path = Ok contents ∧ parse_yaml contents = Ok ms ∧ canonicalize root = Ok base
    ∧ base.NoDup (um_name <$> ms) ∧ Forall2 (resolved_as base) ms ms'.
Proof.
  unfold load_user_models, or_error. split.
  - destruct (read path) as [contents|] eqn:H1; cbn [mbind result_bind]; [|done].
    destruct (parse_yaml contents) as [ms|] eqn:H2; cbn [mbind result_bind]; [|done].
    destruct (canonicalize root) as [base|] eqn:H3; cbn [mbind result_bind]; [|done].
    intros (Hnd & _ & Hall)%resolve_models_ok. by exists contents, ms, base.
  - intros (contents & ms & base & H1 & H2 & H3 & Hnd & Hall).
    rewrite H1. cbn [mbind result_bind]. rewrite H2. cbn [mbind result_bind]. rewrite H3. cbn [mbind result_bind].
    apply resolve_models_ok. split; [done|]. split; [set_solver|done].
Qed.
End user_models.

(** ** A history *)

Module History.
(** Text of a positive number: its bits. *)
Fixpoint bits (p : positive) : string :=
  match p with
  | xH => ""
  | xO p => String (Ascii.ascii_of_nat 48) (bits p)
  | xI p => String (Ascii.ascii_of_nat 49) (bits p)
  end.

Fixpoint of_bits (s : string) : positive :=
  match s with
  | EmptyString => xH
  | String c s => if Ascii.eqb c (Ascii.ascii_of_nat 49) then xI (of_bits s) else xO (of_bits s)
  end.

Definition show {A} `{Countable A} (a : A) : string := bits (countable.encode a).

Definition parse {A} `{Countable A} (s : string) : result string A :=
  match countable.decode (of_bits s) with Some a => Ok a | None => Err "malformed" end.

Definition fields_of (p : StoredProfile) :=
  let m := sp_measured p in
  (sp_schema_major p, sp_schema_minor p, sp_provenance p,
   match sp_measurement_source p with BackendAllocator => true | ConservativeFallback => false end,
   (pr_model_bytes m, pr_device_model_bytes m, pr_host_model_bytes m, pr_context_state_bytes m,
    pr_device_execution_reserve_bytes m, pr_host_staging_bytes m, pr_allocator_headroom_bytes m,
    pr_model_layers m, pr_competent m)).

Definition of_fields (f : N * N * string * bool * (N * N * N * N * N * N * N * Z * bool)) : StoredProfile :=
  let '(major, minor, provenance, source, (a, b, c, d, e, g, h, i, j)) := f in
  mkStored major minor (mkProfile a b c d e g h i j) (if source then BackendAllocator else ConservativeFallback) provenance.

Definition show_profile (p : StoredProfile) : string := show (fields_of p).

Definition parse_profile (s : string) : result string StoredProfile := f ← parse s; Ok (of_fields f).

Definition gemma : ModelRecord := mkModel "gemma" "hf://org/gemma@main/f" "/models/f" "abc" ["latest"] "gemma4" 7 1.

Definition run (rs : list Request) : Database :=
  foldl (λ s r, default s (after (perform show parse show_profile parse_profile r) s))
    (mkDatabase 0 (mkTables ∅ ∅ ∅) [None; None; Some "busy"] 5) rs.

(** The first opening fails, the second does not. *)
Definition begun : list Request := [Open; Open; Begin "op" "gemma" "pull"].
End History.

Lemma bits_roundtrip p : History.of_bits (History.bits p) = p.
Proof. induction p as [p IH|p IH|]; cbn; by rewrite ?IH. Qed.

Lemma parse_shown {A} `{Countable A} (a : A) : History.parse (History.show a) = Ok a.
Proof. unfold History.parse, History.show. by rewrite bits_roundtrip, decode_encode. Qed.

Lemma parse_profile_shown p : History.parse_profile (History.show_profile p) = Ok p.
Proof.
  unfold History.parse_profile, History.show_profile. rewrite parse_shown. cbn.
  by destruct p as [? ? [] [] ?].
Qed.

Lemma performed_reachable s r :
  reachable History.show History.parse History.show_profile History.parse_profile s → r = Open ∨ db_version s = 2%N →
  reachable History.show History.parse History.show_profile History.parse_profile
    (default s (after (perform History.show History.parse History.show_profile History.parse_profile r) s)).
Proof. intros Hs Hr. destruct (after _ s) as [s'|] eqn:H; [by eapply Performed|done]. Qed.

Lemma history_reachable :
  reachable History.show History.parse History.show_profile History.parse_profile (History.run History.begun).
Proof.
  unfold History.run, History.begun. cbn [foldl]. repeat apply performed_reachable; [apply Fresh|by left|by left|].
  right. vm_compute. reflexivity.
Qed.

(** A model is published and the operation that fetched it finished. *)
Example catalogue_refines_ledger_witness :
  match perform History.show History.parse History.show_profile History.parse_profile
          (PublishAndFinish History.gemma "op") (History.run History.begun) with
  | Done answer s' =>
      spec_perform (PublishAndFinish History.gemma "op")
        (ledger History.parse History.parse_profile (History.run History.begun))
      = Ok (answer, ledger History.parse History.parse_profile s')
  | Fail e s' =>
      ledger History.parse History.parse_profile s' = ledger History.parse History.parse_profile (History.run History.begun)
      ∧ (broken (History.run History.begun) e
         ∨ spec_perform (PublishAndFinish History.gemma "op")
             (ledger History.parse History.parse_profile (History.run History.begun)) = Err e)
  | Panic => False
  end.
Proof.
  apply catalogue_refines_ledger.
  - exact parse_shown.
  - exact parse_profile_shown.
  - exact history_reachable.
  - right. vm_compute. reflexivity.
Defined.

(** It has been. *)
Example history_published :
  let L := ledger History.parse History.parse_profile
             (History.run (History.begun ++ [PublishAndFinish History.gemma "op"; Open])) in
  (le_models L !! "gemma", le_operations L !! "op") = (Some History.gemma, Some "complete").
Proof. vm_compute. reflexivity. Qed.
