(* ===== verification/Pull.v ===== *)
(** Pulling a model ([crates/server/src/lib.rs]): an operation is recorded, the file is
    fetched and probed, the model is registered and published as the operation ends, and
    the client is told how far it is.

    The state has the lifecycle with its catalogue ([Lifecycle], [Catalogue]), the files
    ([Registry]) and the rows that were sent. Before each access of the lifecycle or the
    catalogue other requests may act on it. *)

From stdpp Require Import gmap strings list numbers pretty.
From Stdlib Require Import Lia.
From S2P Require Import Prelude Text Generation Json Engine Gate Admission Contexts Lifecycle ContextStrategy.
From S2P Require Import Config Vision Prompt Inference Lowering Routes Residency Gguf Registry Catalogue.

Record OllamaPullRequest : Type := mkPullRequest {
  pl_name : option string;
  pl_model : option string;
  pl_sha256 : option string;
  pl_insecure : bool;
  pl_stream : bool;
}.

(** One of two names, or both if they are the same. *)
Definition one_name (a b : option string) (differ none : string) : result ServerError.Error string :=
  let named name := if String.eqb name "" then Err (ServerError.BadRequest none) else Ok name in
  match a, b with
  | Some x, Some y => if String.eqb x y then named x else Err (ServerError.BadRequest differ)
  | Some x, None | None, Some x => named x
  | None, None => Err (ServerError.BadRequest none)
  end.

Definition model_name (r : OllamaPullRequest) : result ServerError.Error string :=
  one_name (pl_name r) (pl_model r) "`name` and `model` must identify the same model" "one of `name` or `model` is required".

Definition status_row (status : string) : Value := Object [("status", VString status)].

Definition progress_row (p : DownloadProgress) : Value :=
  Object (("completed", Number (dp_completed p)) :: ("status", VString "pulling model")
          :: match dp_total p with Some total => [("total", Number total)] | None => [] end).

Definition verifying_row (digest : string) : Value :=
  Object [("digest", VString digest); ("status", VString "verifying sha256 digest")].

Definition error_row (e : ServerError.Error) : Value := Object [("error", VString (display e))].

Section pull.
Context {E : Type} `{!ModelEngine E}.
Variable sha256_hex : bytes → string.
Variable parse_json : string → option Value.
Variable parse_stamp : bytes → option CacheStamp.
Variable show_stamp : CacheStamp → bytes.
Variable http_get : string → option string → option HttpResponse.
Variable file_len : string → result string N.
Variable show_aliases : list string → string.
(** The text of an error of the registry. *)
Variable registry_text : RegistryError → string.

Record World : Type := mkWorld {
  wl_life : Lifecycle E Database;
  wl_disk : Disk;
  wl_others : list (Lifecycle E Database → Lifecycle E Database);
  wl_sent : list Value;
}.

Abbreviation W := (M World ServerError.Error).

Definition others_act : W unit :=
  modify (λ w, match wl_others w with
               | act :: rest => mkWorld (act (wl_life w)) (wl_disk w) rest (wl_sent w)
               | [] => w
               end).

Definition with_life {A} (m : M (Lifecycle E Database) ServerError.Error A) : W A := λ w,
  match m (wl_life w) with
  | Done a l => Done a (mkWorld l (wl_disk w) (wl_others w) (wl_sent w))
  | Fail e l => Fail e (mkWorld l (wl_disk w) (wl_others w) (wl_sent w))
  | Panic => Panic
  end.

Definition on_life {A} (m : M (Lifecycle E Database) ServerError.Error A) : W A := _ ← others_act; with_life m.

Definition on_disk {A} (m : M Disk RegistryError A) : W A := λ w,
  match m (wl_disk w) with
  | Done a d => Done a (mkWorld (wl_life w) d (wl_others w) (wl_sent w))
  | Fail e d => Fail (ServerError.State (registry_text e)) (mkWorld (wl_life w) d (wl_others w) (wl_sent w))
  | Panic => Panic
  end.

(** A call of the catalogue that the handler holds, with [map_err(state_err)]. *)
Definition query {A} (m : M Database CatalogError A) : M (Lifecycle E Database) ServerError.Error A := λ l,
  match lc_catalog l with
  | None => Fail (ServerError.State "model catalog is not configured") l
  | Some c =>
      let back c := mkLifecycle (lc_models l) (lc_next_epoch l) (lc_engine l) (Some c) in
      match m c with
      | Done a c => Done a (back c)
      | Fail e c => Fail (ServerError.State (show_error e)) (back c)
      | Panic => Panic
      end
  end.

(** What fails is a value of what follows. *)
Definition caught {A} (m : W A) : W (result ServerError.Error A) := λ w,
  match m w with
  | Done a w => Done (Ok a) w
  | Fail e w => Done (Err e) w
  | Panic => Panic
  end.

(** A client that has gone does not end the work. *)
Definition send (streaming : bool) (row : Value) : W unit :=
  if streaming then modify (λ w, mkWorld (wl_life w) (wl_disk w) (wl_others w) (wl_sent w ++ [row])) else mret tt.

(** A row for each report that the download makes. *)
Definition send_progress (streaming : bool) (from : nat) : W unit :=
  w ← get;
  for_each (λ p, send streaming (progress_row p)) (drop from (dk_progress (wl_disk w))).

Definition fetched_model (streaming : bool) (name cache : string) (expected : option string) : W Registry.ModelRecord :=
  w ← get;
  fetched ← caught (on_disk (fetch_hf_with_progress sha256_hex parse_json parse_stamp show_stamp http_get name cache expected));
  _ ← send_progress streaming (length (dk_progress (wl_disk w)));
  lift_result fetched.

(** [probe_gguf(path)] *)
Definition probe (path : string) : M Disk RegistryError ModelMetadata := λ d,
  match Registry.open path d with
  | Done file d =>
      match probe_gguf (fl_bytes file) with
      | Done metadata _ => Done metadata d
      | Fail e _ => Fail e d
      | Panic => Panic
      end
  | Fail e d => Fail e d
  | Panic => Panic
  end.

(** The model is published together with the end of the operation. *)
Definition finishing (operation : string) : Publication (C := Database) := λ m c,
  match c with
  | None => (Ok tt, None)
  | Some c =>
      match publish_and_finish_operation show_aliases m operation c with
      | Done _ c => (Ok tt, Some c)
      | Fail e c => (Err (ServerError.State (show_error e)), Some c)
      | Panic => (Ok tt, Some c)
      end
  end.

Definition register_fetched (name operation : string) (fetched : Registry.ModelRecord) : W Lifecycle.ModelRecord :=
  metadata ← on_disk (probe (mo_path fetched));
  on_life (register file_len
    (mkModel name (mo_identity fetched) (mo_path fetched) (mo_sha256 fetched) [] (md_architecture metadata) (mo_size fetched) 0)
    (finishing operation)).

(** The operation is recorded as failed with the text of the error. *)
Definition record_failure {A} (operation : string) (detail : string) (error : ServerError.Error) : W A :=
  _ ← on_life (query (finish_operation operation "failed" (Some detail)));
  throw error.

(** The text that [state_err] has wrapped. *)
Definition detail_of (e : ServerError.Error) : string :=
  match e with ServerError.State m => m | _ => display e end.

Definition perform_ollama_pull (operation name cache : string) (expected : option string) (streaming : bool) : W Value :=
  catalog ← on_life (gets lc_catalog);
  _ ← ok_or catalog (ServerError.State "model catalog is not configured");
  _ ← on_life (query (begin_operation operation name "pull"));
  _ ← send streaming (status_row "pulling manifest");
  fetched ← caught (fetched_model streaming name cache expected);
  match fetched with
  | Err error => record_failure operation (detail_of error) error
  | Ok fetched =>
      _ ← send streaming (verifying_row (mo_sha256 fetched));
      _ ← send streaming (status_row "writing manifest");
      completion ← caught (register_fetched name operation fetched);
      match completion with
      | Err error => record_failure operation (display error) error
      | Ok _ =>
          let result := status_row "success" in
          _ ← send streaming result;
          mret result
      end
  end.

(** The handler: a reply at once, or the rows that the task sends, an error last. *)
Definition ollama_pull (auth : AuthProvider) (headers : HeaderMap) (uuid operation cache : string) (r : OllamaPullRequest)
  : W (list Value) :=
  _ ← lift_result (authenticate auth headers ScopeAdmin uuid);
  catalog ← on_life (gets lc_catalog);
  _ ← ok_or catalog (ServerError.State "model catalog is not configured");
  name ← lift_result (model_name r);
  let pull := perform_ollama_pull operation name cache (pl_sha256 r) (pl_stream r) in
  if pl_stream r then
    w ← get;
    result ← caught pull;
    _ ← match result with Err e => send true (error_row e) | Ok _ => mret tt end;
    w' ← get;
    mret (drop (length (wl_sent w)) (wl_sent w'))
  else
    row ← pull;
    mret [row].
End pull.

Arguments World : clear implicits.
