(* ===== verification/PullLaws.v ===== *)
(** A pull ends its operation: with the model published, or recorded as failed, unless
    the database itself fails; and the record that is registered is that of the file. *)

From stdpp Require Import gmap strings list numbers pretty.
From Stdlib Require Import Lia.
From S2P Require Import Prelude Text Generation Json Engine Gate Admission Contexts Lifecycle LifecycleLaws ContextStrategy.
From S2P Require Import Config Vision Prompt Inference Lowering Routes Residency Gguf GgufLaws Registry RegistryLaws.
From S2P Require Import Catalogue CatalogueLaws Pull.

(** ** Registration and the catalogue *)

Section registration.
Context {E C : Type} `{!ModelEngine E}.
Variable file_len : string → result string N.
Implicit Types (l : Lifecycle E C).

Lemma wp_prepared m (Q : unit → _ → Prop) (R : ServerError.Error → _ → Prop) l :
  (∀ e, Q tt (mkLifecycle (lc_models l) (lc_next_epoch l) e (lc_catalog l))) →
  (∀ e r, R r (mkLifecycle (lc_models l) (lc_next_epoch l) e (lc_catalog l))) → wp (prepare m) Q R l.
Proof.
  intros HQ HR. unfold wp_gen, prepare. destruct (prepare_model m (lc_engine l)) as [[[]|r] e]; cbn; [apply HQ|apply HR].
Qed.

Lemma completed_same m l :
  wp (completed_record file_len m)
    (λ m' l', l' = l ∧ mr_id m' = mr_id m ∧ mr_path m' = mr_path m ∧ mr_sha256 m' = mr_sha256 m)
    (λ _ l', l' = l) l.
Proof.
  unfold completed_record. destruct (bool_decide _); destruct (_ =? 0)%N; cbn; try done;
    by destruct (file_len _).
Qed.

Lemma wp_published {A} (h : option C → A * option C) (Q : A → _ → Prop) (R : ServerError.Error → _ → Prop) l :
  (∀ a c, h (lc_catalog l) = (a, c) → Q a (mkLifecycle (lc_models l) (lc_next_epoch l) (lc_engine l) c)) →
  wp (on_catalog h) Q R l.
Proof. intros H. unfold wp_gen, on_catalog. destruct (h (lc_catalog l)) as [a c] eqn:Hh. by apply H. Qed.

(** What a registration leaves in the catalogue is what it was, or what the publication
    of the record that is returned has made of it. *)
Lemma register_traced m (publish : Publication (C := C)) l :
  wp (register file_len m publish)
    (λ r l', mr_path r = mr_path m ∧ mr_sha256 r = mr_sha256 m ∧ lc_models l' !! mr_id m = Some r
      ∧ (lc_catalog l' = lc_catalog l ∨ mr_id r = mr_id m ∧ publish r (lc_catalog l) = (Ok tt, lc_catalog l')))
    (λ _ l', lc_catalog l' = lc_catalog l ∨ ∃ r x, publish r (lc_catalog l) = (x, lc_catalog l')) l.
Proof.
  unfold register. wp_run. eapply wp_mono; [apply completed_same|cbn beta|by intros e l' ->; left].
  intros m' l' (-> & Hid & Hpath & Hsha). wp_run.
  destruct (existing ← lc_models l !! mr_id m'; _) as [existing|] eqn:Hex; wp_run; apply wp_prepared.
  - intros e. wp_run. cbn. apply bind_Some in Hex as (x & Hx & Hu). destruct (unchanged x m') eqn:Hun; [|done].
    injection Hu as ->. unfold unchanged in Hun. rewrite !andb_true_iff, !bool_decide_eq_true in Hun.
    rewrite <- Hid, <- Hpath, <- Hsha. naive_solver.
  - intros e r. by left.
  - intros e. wp_run. apply wp_published. intros [[]|x] c Hp; cbn [lc_catalog] in Hp.
    + wp_run. unfold checked_add. destruct (decide _).
      * unfold on_engine. wp_run. cbn. rewrite <- Hid, <- Hpath, <- Hsha. unfold install. rewrite lookup_insert_eq.
        split; [done|]. split; [done|]. split; [done|]. right. by split.
      * right. by exists (with_epoch (lc_next_epoch l) m'), (Ok tt).
    + unfold on_engine. wp_run. right. by exists (with_epoch (lc_next_epoch l) m'), (Err x).
  - intros e r. by left.
Qed.
End registration.

(** ** Pulling *)

Section pull.
Context {E : Type} `{!ModelEngine E}.
Variable sha256_hex : bytes → string.
Variable parse_json : string → option Value.
Variable parse_stamp : bytes → option CacheStamp.
Variable show_stamp : CacheStamp → bytes.
Variable http_get : string → option string → option HttpResponse.
Variable file_len : string → result string N.
Variable show_aliases : list string → string.
Variable parse_aliases : string → result string (list string).
Variable show_profile : StoredProfile → string.
Variable parse_profile : string → result string StoredProfile.
Variable registry_text : RegistryError → string.
Hypothesis stamp_roundtrip : ∀ stamp, parse_stamp (show_stamp stamp) = Some stamp.
Hypothesis stamp_truncated : ∀ stamp n, n < length (show_stamp stamp) → parse_stamp (take n (show_stamp stamp)) = None.
Hypothesis aliases_roundtrip : ∀ l, parse_aliases (show_aliases l) = Ok l.
Hypothesis profile_roundtrip : ∀ p, parse_profile (show_profile p) = Ok p.
Implicit Types (l : Lifecycle E Database) (w : World E).

Abbreviation ledger_of := (ledger parse_aliases parse_profile).
Abbreviation database_ok := (db_ok parse_aliases parse_profile).

(** The catalogue is attached. *)
Definition opened l : Prop := ∃ c, lc_catalog l = Some c ∧ database_ok c.

Definition status_of (operation : string) l : option string :=
  c ← lc_catalog l; le_operations (ledger_of c) !! operation.

(** What others do keeps the catalogue, and leaves an operation alone that is not theirs:
    its identifier is fresh. *)
Definition steady (operation : string) (act : Lifecycle E Database → Lifecycle E Database) : Prop :=
  ∀ l, opened l → opened (act l) ∧ status_of operation (act l) = status_of operation l.

(** Between the accesses. *)
Record between (operation : string) (status : option string) w : Prop := {
  bt_opened : opened (wl_life w);
  bt_status : status_of operation (wl_life w) = status;
  bt_others : Forall (steady operation) (wl_others w);
}.

Lemma wp_on_life {A} operation status (m : M (Lifecycle E Database) ServerError.Error A) (Q : A → World E → Prop)
    (R : ServerError.Error → World E → Prop) w :
  between operation status w →
  (∀ w', between operation status w' → wl_disk w' = wl_disk w →
    wp m (λ a l, Q a (mkWorld l (wl_disk w') (wl_others w') (wl_sent w')))
      (λ e l, R e (mkWorld l (wl_disk w') (wl_others w') (wl_sent w'))) (wl_life w')) →
  wp (on_life m) Q R w.
Proof.
  intros [Ho Hs Ha] H. unfold on_life, others_act. wp_run.
  assert (∀ w', between operation status w' → wl_disk w' = wl_disk w → wp (with_life m) Q R w') as Hm.
  { intros w' Hb Hd. specialize (H w' Hb Hd). unfold wp_gen, with_life in *. by destruct (m (wl_life w')). }
  destruct (wl_others w) as [|act rest] eqn:Hr; apply Hm; try done.
  - by split; rewrite ?Hr.
  - apply list.Forall_cons in Ha as [Hact Hrest]. destruct (Hact _ Ho) as [Ho' Hs']. split; cbn; [done|congruence|done].
Qed.

Definition with_database (c : Database) l : Lifecycle E Database :=
  mkLifecycle (lc_models l) (lc_next_epoch l) (lc_engine l) (Some c).

Lemma wp_query {A} (m : M Database CatalogError A) f (Q : A → _ → Prop) (R : ServerError.Error → _ → Prop) l :
  tracks parse_aliases parse_profile m f → atomic parse_aliases parse_profile m → opened l →
  (∀ a c c', lc_catalog l = Some c → database_ok c' → f (ledger_of c) = Ok (a, ledger_of c') → Q a (with_database c' l)) →
  (∀ e c c', lc_catalog l = Some c → database_ok c' → ledger_of c' = ledger_of c →
     R (ServerError.State (show_error e)) (with_database c' l)) →
  wp (query m) Q R l.
Proof.
  intros Hm Ha (c & Hc & Hok) HQ HR. pose proof (tracks_atomic _ _ _ _ _ Hm Ha Hok) as H. unfold wp_gen, query in *.
  rewrite Hc. destruct (m c) as [a c'|e c'|]; [| |done].
  - destruct H. by eapply HQ.
  - destruct H as (H1 & H2 & _). by eapply HR.
Qed.

(** *** The publication *)

Definition published (operation : string) (m : Lifecycle.ModelRecord) : Spec unit :=
  spec_bind (spec_publish m) (λ _, spec_finish operation "complete").

Lemma finishing_ok operation r c x o :
  database_ok c → finishing show_aliases operation r (Some c) = (x, o) →
  ∃ c', o = Some c' ∧ database_ok c'
    ∧ match x with
      | Ok _ => published operation r (ledger_of c) = Ok (tt, ledger_of c')
      | Err _ => ledger_of c' = ledger_of c
      end.
Proof.
  intros Hok. unfold finishing.
  pose proof (published_finished_tracks _ _ _ _ aliases_roundtrip profile_roundtrip r operation) as Ht.
  pose proof (tracks_atomic parse_aliases parse_profile _ _ c ltac:(by eapply transaction_tracks)
                ltac:(by eapply transaction_atomic) Hok) as H.
  unfold wp_gen in H. unfold publish_and_finish_operation.
  destruct (transaction _ c) as [[] c'|e c'|]; [| |done].
  - destruct H as [H1 H2]. intros [= <- <-]. by exists c'.
  - destruct H as (H1 & H2 & _). intros [= <- <-]. by exists c'.
Qed.

(** A publication that succeeds has filed the record and ended the operation. *)
Lemma published_both operation r L L' :
  published operation r L = Ok (tt, L') →
  le_models L' !! mr_id r = Some r ∧ le_operations L' !! operation = Some "complete".
Proof.
  unfold published, spec_bind, spec_publish. repeat (case_match; try done). simplify_eq. unfold spec_finish.
  cbn [le_operations le_models le_profiles]. case_match; [|done]. repeat (case_match; try done).
  intros [= <-]. cbn [le_operations le_models]. by rewrite !lookup_insert_eq.
Qed.

(** *** The files and the rows *)

(** Only rows were sent. *)
Record only_sent w w' : Prop := {
  os_life : wl_life w' = wl_life w;
  os_disk : wl_disk w' = wl_disk w;
  os_others : wl_others w' = wl_others w;
}.

Lemma only_sent_between operation status w w' : only_sent w w' → between operation status w → between operation status w'.
Proof. intros [H1 _ H2] [H3 H4 H5]. split; by rewrite ?H1, ?H2. Qed.

Lemma wp_send streaming row (Q : unit → World E → Prop) R w :
  (∀ w', only_sent w w' → Q tt w') → wp (send streaming row) Q R w.
Proof. intros H. unfold send. destruct streaming; wp_run; by apply H. Qed.

Lemma wp_send_progress streaming from (Q : unit → World E → Prop) R w :
  (∀ w', only_sent w w' → Q tt w') → wp (send_progress streaming from) Q R w.
Proof.
  intros H. unfold send_progress. wp_run. eapply wp_mono.
  - apply (wp_for_each _ _ (λ _, only_sent w) R); [done|]. intros p l w1 [H1 H2 H3]. apply wp_send. intros w2 [H4 H5 H6].
    split; congruence.
  - intros [] w' Hw'. by apply H.
  - done.
Qed.

Lemma wp_caught {A} (m : M (World E) ServerError.Error A) (Q : result ServerError.Error A → World E → Prop) R w :
  wp m (λ a, Q (Ok a)) (λ e, Q (Err e)) w → wp (caught m) Q R w.
Proof. unfold wp_gen, caught. by destruct (m w). Qed.

Definition with_disk d w : World E := mkWorld (wl_life w) d (wl_others w) (wl_sent w).

Lemma wp_disk_call {A} (m : M Disk RegistryError A) (Q : A → World E → Prop) (R : ServerError.Error → World E → Prop) w :
  wp m (λ a d, Q a (with_disk d w)) (λ e d, R (ServerError.State (registry_text e)) (with_disk d w)) (wl_disk w) →
  wp (on_disk registry_text m) Q R w.
Proof. unfold wp_gen, on_disk, with_disk. by destruct (m (wl_disk w)). Qed.

Lemma probe_files path d :
  wp (probe path) (λ _ d', dk_files d' = dk_files d) (λ _ d', dk_files d' = dk_files d) d.
Proof.
  assert (wp (Registry.open path) (λ _ d', dk_files d' = dk_files d) (λ _ d', dk_files d' = dk_files d) d) as H
    by by apply wp_open.
  unfold wp_gen, probe in *. destruct (Registry.open path d) as [file d'|e d'|]; [|done..].
  pose proof (probe_returns (fl_bytes file)). by destruct (probe_gguf (fl_bytes file)).
Qed.

(** The record of a file that is there. *)
Definition of_file (path digest : string) (files : gmap string File) : Prop :=
  ∃ file, files !! path = Some file ∧ digest = sha256_hex (fl_bytes file).

Abbreviation fetch := (fetched_model sha256_hex parse_json parse_stamp show_stamp http_get registry_text).

Lemma fetched_spec operation status streaming name cache expected w :
  between operation status w → honest sha256_hex parse_stamp (wl_disk w) →
  (∀ repo revision file, parse_hf name = Ok (repo, revision, file) → ¬ stampy revision ∧ ¬ stampy file) →
  wp (fetch streaming name cache expected)
    (λ record w', between operation status w' ∧ of_file (mo_path record) (mo_sha256 record) (dk_files (wl_disk w')))
    (λ _ w', between operation status w') w.
Proof.
  intros Hb Hh Hname. unfold fetched_model. wp_run. apply wp_caught, wp_disk_call.
  eapply wp_mono; [by apply fetch_spec|..]; cbn beta.
  - intros record d [(path & identity & file & Hf & -> & _) _]. wp_run. apply wp_send_progress. intros w' Hw'. wp_run.
    split; [by apply (only_sent_between _ _ _ _ Hw'); destruct Hb|]. rewrite (os_disk _ _ Hw'). by exists file.
  - intros e d _. wp_run. apply wp_send_progress. intros w' Hw'. wp_run.
    by apply (only_sent_between _ _ _ _ Hw'); destruct Hb.
Qed.

(** *** The operation *)

(** The record is filed under its name, and the operation has ended with its publication,
    or goes on although the same model was there before. *)
Definition pulled (operation name : string) w : Prop :=
  ∃ record c, lc_catalog (wl_life w) = Some c
    ∧ lc_models (wl_life w) !! name = Some record
    ∧ of_file (mr_path record) (mr_sha256 record) (dk_files (wl_disk w))
    ∧ (le_operations (ledger_of c) !! operation = Some "complete" ∧ le_models (ledger_of c) !! name = Some record
       ∨ le_operations (ledger_of c) !! operation = Some "running").

(** It is recorded as failed, or the database has refused to. *)
Definition failed (operation : string) (e : ServerError.Error) w : Prop :=
  status_of operation (wl_life w) = Some "failed" ∨ ∃ ce, e = ServerError.State (show_error ce).

Abbreviation register_it := (register_fetched file_len show_aliases registry_text).

Lemma register_fetched_spec operation name fetched w :
  between operation (Some "running") w → of_file (mo_path fetched) (mo_sha256 fetched) (dk_files (wl_disk w)) →
  wp (register_it name operation fetched) (λ _ w', pulled operation name w')
    (λ _ w', ∃ status, between operation status w') w.
Proof.
  intros Hb Hfile. unfold register_fetched. wp_run. apply wp_disk_call.
  eapply wp_mono; [apply probe_files|..]; cbn beta; [|intros e d _; exists (Some "running"); by destruct Hb].
  intros metadata d Hd. assert (between operation (Some "running") (with_disk d w)) as Hb1 by by destruct Hb.
  eapply wp_on_life; [exact Hb1|]. intros w1 Hb2 Hw1.
  eapply wp_mono; [apply register_traced|..]; cbn beta.
  - intros record l (Hp & Hs & Hm & Hc). cbn in Hp, Hs, Hm. destruct Hb2 as [(c & Hc1 & Hok) Hst Ho].
    unfold status_of in Hst. rewrite Hc1 in Hst. cbn [mbind option_bind] in Hst.
    assert (of_file (mr_path record) (mr_sha256 record) (dk_files (wl_disk w1))) as Hf.
    { rewrite Hw1, Hp, Hs. cbn. by rewrite Hd. }
    destruct Hc as [Hc|[Hid Hc]].
    + exists record, c. cbn [wl_life wl_disk]. rewrite Hc, Hc1. split_and!; auto.
    + rewrite Hc1 in Hc. destruct (finishing_ok _ _ _ _ _ Hok Hc) as (c' & Hc' & Hok' & Hspec).
      apply published_both in Hspec as [H1 H2]. cbn in Hid. rewrite Hid in H1. exists record, c'. cbn [wl_life wl_disk]. split_and!; auto.
  - intros e l Hc. destruct Hb2 as [(c & Hc1 & Hok) Hst Ho]. unfold status_of in Hst. rewrite Hc1 in Hst. cbn [mbind option_bind] in Hst.
    destruct Hc as [Hc|(r & x & Hc)].
    + exists (Some "running"). split; cbn; [exists c; by rewrite Hc|unfold status_of; by rewrite Hc, Hc1|done].
    + rewrite Hc1 in Hc. destruct (finishing_ok _ _ _ _ _ Hok Hc) as (c' & Hc' & Hok' & _).
      eexists. split; cbn; [by exists c'|done|done].
Qed.

Lemma finished_status id status L L' : spec_finish id status L = Ok (tt, L') → le_operations L' !! id = Some status.
Proof. unfold spec_finish. repeat (case_match; try done). intros [= <-]. cbn. by rewrite lookup_insert_eq. Qed.

Lemma begun_status id L L' : spec_begin id L = Ok (tt, L') → le_operations L' !! id = Some "running".
Proof. unfold spec_begin. case_match; [done|]. intros [= <-]. cbn. by rewrite lookup_insert_eq. Qed.

Lemma record_failure_spec {A} operation status detail error w (Q : A → World E → Prop) :
  between operation status w → wp (record_failure operation detail error) Q (failed operation) w.
Proof.
  intros Hb. unfold record_failure. wp_run. eapply wp_on_life; [exact Hb|]. intros w1 Hb1 _.
  eapply wp_query; [by eapply finish_tracks|by eapply finish_atomic|apply Hb1| |]; cbn beta.
  - intros [] c c' Hc Hok Hspec. wp_run. left. unfold status_of. cbn [with_database lc_catalog mbind option_bind].
    by apply finished_status in Hspec.
  - intros e c c' _ _ _. right. by exists e.
Qed.

(** C21: A pull ends its operation. Whatever the hub answers, whichever calls of the file
    system and the database fail and whatever other requests do in between, a pull never
    panics; when it succeeds, the model is registered under its name with the digest of
    the file at its path, and the operation is complete and the model published with it,
    or is still running because the same model was registered before; when it fails, the
    operation is recorded as failed, unless it is the database that failed. *)
Theorem pull_ends_operation operation name cache expected streaming w :
  between operation None w → honest sha256_hex parse_stamp (wl_disk w) →
  (∀ repo revision file, parse_hf name = Ok (repo, revision, file) → ¬ stampy revision ∧ ¬ stampy file) →
  match
    perform_ollama_pull sha256_hex parse_json parse_stamp show_stamp http_get file_len show_aliases registry_text
      operation name cache expected streaming w
  with
  | Done _ w' => pulled operation name w'
  | Fail e w' => failed operation e w'
  | Panic => False
  end.
Proof.
  intros Hb Hh Hname.
  enough (wp (perform_ollama_pull sha256_hex parse_json parse_stamp show_stamp http_get file_len show_aliases registry_text
      operation name cache expected streaming) (λ _, pulled operation name) (failed operation) w) as H.
  { unfold wp_gen in H. by destruct (perform_ollama_pull _ _ _ _ _ _ _ _ _ _ _ _ _ w). }
  unfold perform_ollama_pull. wp_run. eapply wp_on_life; [exact Hb|]. intros w1 Hb1 Hd1. wp_run.
  destruct (bt_opened _ _ _ Hb1) as (c1 & Hc1 & Hok1). rewrite Hc1. wp_run.
  set (w2 := mkWorld _ _ _ _). assert (between operation None w2) as Hb2 by by destruct Hb1.
  assert (wl_disk w2 = wl_disk w) as Hd2 by done. clearbody w2.
  eapply wp_on_life; [exact Hb2|]. intros w3 Hb3 Hd3.
  eapply wp_query; [by eapply begin_tracks|by eapply begin_atomic|apply Hb3| |]; cbn beta; [|intros e; right; by exists e].
  intros [] c c' _ Hok' Hspec. apply begun_status in Hspec.
  wp_run. apply wp_send. intros w4 Hw4. wp_run.
  assert (between operation (Some "running") w4) as Hb4.
  { apply (only_sent_between _ _ _ _ Hw4). destruct Hb3. split; cbn; [by exists c'| |done].
    done. }
  apply wp_caught. eapply wp_mono; [apply fetched_spec; [exact Hb4| |done]|..]; cbn beta.
  { rewrite (os_disk _ _ Hw4). cbn. by rewrite Hd3, Hd2. }
  2:{ intros e w5 Hb5. by eapply record_failure_spec. }
  intros fetched w5 [Hb5 Hf5]. wp_run. apply wp_send. intros w6 Hw6. wp_run. apply wp_send. intros w7 Hw7. wp_run.
  pose proof (only_sent_between _ _ _ _ Hw7 (only_sent_between _ _ _ _ Hw6 Hb5)) as Hb7.
  rewrite <- (os_disk _ _ Hw6), <- (os_disk _ _ Hw7) in Hf5.
  apply wp_caught. eapply wp_mono; [by apply register_fetched_spec|..]; cbn beta.
  - intros record w8 Hp. wp_run. apply wp_send. intros w9 [Hl Hd _]. wp_run. unfold pulled. by rewrite Hl, Hd.
  - intros e w8 [status Hb8]. by eapply record_failure_spec.
Qed.
End pull.

(** ** A server without models *)

Import LifecycleDemo.

Module FirstPull.
(** The hub has one file, and answers with all of it. *)
Definition hub (url : string) (range : option string) : option HttpResponse :=
  Some (mkHttpResponse 200 None None [demo_file] true).

Definition registry_text (e : RegistryError) : string := "registry".

Definition database : Database := History.run [Open; Open].

Definition world : World unit :=
  mkWorld (attach_catalog database (new tt)) (mkDisk ∅ [] 0 []) [λ l, l] [].

Definition pull (operation : string) (w : World unit) : outcome (World unit) ServerError.Error Value :=
  perform_ollama_pull string_of_bytes (λ _, None) OneFile.parse OneFile.show hub LifecycleDemo.no_file History.show registry_text
    operation pinned "cache" None true w.

Definition status (operation : string) (w : World unit) : option string :=
  status_of History.parse History.parse_profile operation (wl_life w).
End FirstPull.

Lemma first_pull_between : between History.parse History.parse_profile "one" None FirstPull.world.
Proof.
  split.
  - exists FirstPull.database. split; [done|]. split; [by vm_compute|].
    eapply reachable_file_ok; [exact parse_shown|exact parse_profile_shown|].
    unfold FirstPull.database, History.run. cbn [foldl].
    repeat apply performed_reachable; [apply Fresh|by left|by left].
  - by vm_compute.
  - constructor; [|constructor]. intros l Hl. by split.
Qed.

Example pull_ends_operation_witness :
  match FirstPull.pull "one" FirstPull.world with
  | Done _ w' => pulled string_of_bytes History.parse History.parse_profile "one" pinned w'
  | Fail e w' => failed History.parse History.parse_profile "one" e w'
  | Panic => False
  end.
Proof.
  assert (honest string_of_bytes OneFile.parse (wl_disk FirstPull.world)) as Hh by by split; cbn; intros *; rewrite ?lookup_empty.
  assert (∀ repo revision file, parse_hf pinned = Ok (repo, revision, file) → ¬ stampy revision ∧ ¬ stampy file) as Hn.
  { intros repo revision file H. vm_compute in H. injection H as <- <- <-. split; intros H%stampy_last; by vm_compute in H. }
  pose proof (pull_ends_operation string_of_bytes (λ _, None) OneFile.parse OneFile.show FirstPull.hub no_file
    History.show History.parse History.show_profile History.parse_profile FirstPull.registry_text show_roundtrip show_truncated
    parse_shown parse_profile_shown "one" pinned "cache" None true FirstPull.world first_pull_between Hh Hn) as H.
  unfold FirstPull.pull. exact H.
Defined.

(** A second pull of the same model succeeds, and its operation goes on: registration
    returns the record that is there without its publication. *)
Example second_pull_runs :
  match FirstPull.pull "one" FirstPull.world with
  | Done _ w =>
      match FirstPull.pull "two" w with
      | Done v w' => v = status_row "success" ∧ FirstPull.status "one" w' = Some "complete" ∧ FirstPull.status "two" w' = Some "running"
      | _ => False
      end
  | _ => False
  end.
Proof. vm_compute. repeat split. Qed.
