(* ===== verification/HttpDebug.v ===== *)
(** The diagnostics of the transport ([crates/server/src/lib.rs]): what is recorded of a
    request and its response, redacted unless the operator asks for everything.

    A record is the JSON that the sink is given as a line. Parsing JSON and the
    hexadecimal text of bytes are parameters. *)

From stdpp Require Import base strings list numbers.
From Stdlib Require Import Lia.
From S2P Require Import Prelude Text Generation Json Inference Config Vision Lowering.

Definition HTTP_DEBUG_BODY_LIMIT : N := N.shiftl 64 10.

Record HttpBodyCapture : Type := mkCapture {
  hb_bytes : bytes;
  hb_total : N;
  hb_limit : option N;
  hb_truncated : bool;
}.

Definition default_capture : HttpBodyCapture := mkCapture [] 0 (Some HTTP_DEBUG_BODY_LIMIT) false.

Definition full_capture : HttpBodyCapture := mkCapture [] 0 None false.

Definition push (bs : bytes) (c : HttpBodyCapture) : HttpBodyCapture :=
  let total := saturating_add (hb_total c) (N.of_nat (length bs)) in
  if hb_truncated c then mkCapture (hb_bytes c) total (hb_limit c) true
  else if match hb_limit c with
          | Some limit => (limit <? saturating_add (N.of_nat (length (hb_bytes c))) (N.of_nat (length bs)))%N
          | None => false
          end
  then mkCapture [] total (hb_limit c) true
  else mkCapture (hb_bytes c ++ bs) total (hb_limit c) false.

(** ** Redaction *)

Definition sensitive (key : string) : bool :=
  let key := replace_char (Ascii.ascii_of_nat 45) "_" (to_ascii_lowercase key) in
  existsb (String.eqb key)
    ["authorization"; "cookie"; "set_cookie"; "password"; "secret"; "api_key"; "bearer_token"; "access_token"; "refresh_token"].

Definition REDACTED : Value := VString "[REDACTED]".

Fixpoint redact_body_values (v : Value) : Value :=
  match v with
  | Object fields => Object (map (λ kv, (kv.1, if sensitive kv.1 then REDACTED else redact_body_values kv.2)) fields)
  | Array items => Array (map redact_body_values items)
  | VString s => if String.eqb s "[DONE]" then VString s else REDACTED
  | _ => v
  end.

(** [text.lines()]; the carriage return of an ending is left to the trimming. *)
Fixpoint lines (s : text) : list text :=
  match s with
  | [] => []
  | c :: s' =>
      if (c =? 10)%N then [] :: lines s'
      else match lines s' with
           | line :: rest => (c :: line) :: rest
           | [] => [[c]]
           end
  end.

(** [line.strip_prefix(prefix)] *)
Fixpoint strip_text (prefix s : text) : option text :=
  match prefix, s with
  | [], _ => Some s
  | p :: prefix', c :: s' => if (p =? c)%N then strip_text prefix' s' else None
  | _ :: _, [] => None
  end.

Definition omitted (message : string) : string * Value := ("omitted", VString message).

Section debug.
(** [serde_json::from_str] and [from_slice], and [hex::encode]. *)
Variable parse_text : text → option Value.
Variable parse_slice : bytes → option Value.
Variable hex_encode : bytes → string.

Definition event_data (line : text) : option text := (λ data, trim_end (trim_start data)) <$> strip_text (text_of "data:") line.

Definition redacted_event (data : text) : Value :=
  match parse_text data with
  | None => Object [omitted "non-JSON SSE data"]
  | Some value => redact_body_values value
  end.

Definition is_event_stream (content_type : option string) : bool :=
  match content_type with Some value => String.prefix "text/event-stream" value | None => false end.

Definition redacted (content_type : option string) (c : HttpBodyCapture) : Value :=
  let total := ("bytes", Number (hb_total c)) in
  if hb_truncated c then Object [total; omitted "body exceeds 65536-byte HTTP debug limit"]
  else if match hb_bytes c with [] => true | _ => false end then Object [("bytes", Number 0)]
  else if is_event_stream content_type then
    Object [total; ("events", Array (redacted_event <$> omap event_data (lines (from_utf8_lossy (hb_bytes c)))))]
  else
    match parse_slice (hb_bytes c) with
    | None => Object [total; omitted "non-JSON body"]
    | Some value => Object [total; ("json", redact_body_values value)]
    end.

Definition bytes_value (bs : bytes) (total : list (string * Value)) : Value :=
  match from_utf8 bs with
  | Utf8Ok => Object (total ++ [("utf8", VString (string_of (from_utf8_lossy bs)))])
  | Utf8Error _ _ => Object (total ++ [("hex", VString (hex_encode bs))])
  end.

Definition unredacted (c : HttpBodyCapture) : Value := bytes_value (hb_bytes c) [("bytes", Number (hb_total c))].

Definition rendered (level : HttpDebugLevel) (content_type : option string) (c : HttpBodyCapture) : Value :=
  match level with
  | DebugOff => Object [("bytes", Number 0)]
  | DebugSafe => redacted content_type c
  | DebugFull => unredacted c
  end.

(** ** The middleware *)

(** The values of headers are bytes. *)
Abbreviation Headers := (list (string * bytes)).

Definition unredacted_headers (headers : Headers) : Value :=
  Array ((λ '(name, value), Object [("name", VString name); ("value", bytes_value value [])]) <$> headers).

(** [headers.get(name).and_then(|value| value.to_str().ok())]: visible characters. *)
Definition header_text (name : string) (headers : Headers) : option string :=
  '(_, value) ← List.find (λ h, String.eqb h.1 name) headers;
  if forallb (λ b, between 32 126 b || (b =? 9)%N) value then Some (string_of value) else None.

Definition optional (v : option Value) : Value := default Null v.

Definition level_text (level : HttpDebugLevel) : string :=
  match level with DebugOff => "off" | DebugSafe => "safe" | DebugFull => "full" end.

Definition is_full (level : HttpDebugLevel) : bool := match level with DebugFull => true | _ => false end.

Record HttpRequest : Type := mkHttpRequest {
  hq_method : string;
  hq_path : string;
  hq_uri : string;
  hq_headers : Headers;
  (** The body, if it can be read to its end. *)
  hq_body : option bytes;
}.

Record HttpReply : Type := mkHttpReply {
  hp_status : N;
  hp_headers : Headers;
  (** The data frames of the body. *)
  hp_frames : list bytes;
}.

(** [to_bytes(body, limit).await.unwrap_or_default()] *)
Definition body_bytes (body : option bytes) : bytes :=
  match body with
  | Some bs => if (HTTP_DEBUG_BODY_LIMIT <? N.of_nat (length bs))%N then [] else bs
  | None => []
  end.

Definition raw_body (headers : Headers) (body : bytes) : option Value :=
  content_type ← header_text "content-type" headers;
  if String.prefix "text/plain" content_type then Some (VString (string_of (from_utf8_lossy body))) else None.

Definition in_record (level : HttpDebugLevel) (request_id : string) (r : HttpRequest) (body : bytes) : Value :=
  let content_type := header_text "content-type" (hq_headers r) in
  let capture := push body default_capture in
  let full := is_full level in
  Object
    [("body", match level with DebugSafe => redacted content_type capture | _ => rendered level content_type capture end);
     ("content_length", optional (VString <$> header_text "content-length" (hq_headers r)));
     ("content_type", optional (VString <$> content_type));
     ("direction", VString "in");
     ("headers", if full then unredacted_headers (hq_headers r) else Null);
     ("level", VString (level_text level));
     ("method", VString (hq_method r));
     ("path", VString (hq_path r));
     ("raw_body", if full then optional (raw_body (hq_headers r) body) else Null);
     ("request_id", VString request_id);
     ("type", VString "http_debug");
     ("uri", if full then VString (hq_uri r) else Null)].

Definition out_record (level : HttpDebugLevel) (request_id : string) (duration_ms : N) (status : N) (headers : Headers) : Value :=
  Object
    [("direction", VString "out");
     ("duration_ms", Number duration_ms);
     ("headers", if is_full level then unredacted_headers headers else Array []);
     ("level", VString (level_text level));
     ("request_id", VString request_id);
     ("status", Number status);
     ("type", VString "http_debug")].

Definition chunk_record (level : HttpDebugLevel) (request_id : string) (content_type : option string) (index : nat) (frame : bytes)
  : Value :=
  let capture := push frame (match level with DebugFull => full_capture | _ => default_capture end) in
  Object
    [("body", rendered level content_type capture);
     ("chunk_index", Number (N.of_nat index));
     ("direction", VString "out_body");
     ("level", VString (level_text level));
     ("request_id", VString request_id);
     ("type", VString "http_debug")].

(** [headers.insert(name, value)]: in place of the values that there are. *)
Definition insert_header (name : string) (value : bytes) (headers : Headers) : Headers :=
  filter (λ h, h.1 ≠ name) headers ++ [(name, value)].

(** What is emitted, and the reply that is passed on. [next] serves the request with the
    body that it is given. *)
Definition http_debug_middleware (level : HttpDebugLevel) (request_id : string) (duration_ms : N)
    (next : HttpRequest → HttpReply) (r : HttpRequest) : list Value * HttpReply :=
  let body := body_bytes (hq_body r) in
  let reply := next (mkHttpRequest (hq_method r) (hq_path r) (hq_uri r) (hq_headers r) (Some body)) in
  let headers := insert_header "x-request-id" (chars request_id) (hp_headers reply) in
  (in_record level request_id r body
   :: out_record level request_id duration_ms (hp_status reply) headers
   :: imap (chunk_record level request_id (header_text "content-type" headers)) (hp_frames reply),
   mkHttpReply (hp_status reply) headers (hp_frames reply)).

(** The layer is there unless the level is off. *)
Definition router_with_http_debug (level : HttpDebugLevel) (request_id : string) (duration_ms : N)
    (routes : HttpRequest → HttpReply) (r : HttpRequest) : list Value * HttpReply :=
  match level with
  | DebugOff => ([], routes r)
  | _ => http_debug_middleware level request_id duration_ms routes r
  end.
End debug.
