(* ===== verification/HttpDebugLaws.v ===== *)
(** Safe diagnostics show no text of a client: what is recorded of two exchanges is the
    same when they differ in the values of headers, in the query, and in what their bodies
    say. *)

From stdpp Require Import base strings list numbers.
From Stdlib Require Import Lia.
From S2P Require Import Prelude Text Generation Json Inference Config Vision Lowering HttpDebug.

#[local] Set Warnings "-register-all".

(** ** Values *)

(** What a field with a secret is called, and how that may be spelled: in letters of
    either case, with hyphens for the underscores. *)
Definition secrets : list string :=
  ["authorization"; "cookie"; "set_cookie"; "password"; "secret"; "api_key"; "bearer_token"; "access_token"; "refresh_token"].

Definition hyphen : Ascii.ascii := Ascii.ascii_of_nat 45.

Definition underscore : Ascii.ascii := Ascii.ascii_of_nat 95.

Inductive spells : string → string → Prop :=
| SpellsEnd : spells "" ""
| SpellsChar c s t : spells s t → spells (String c s) (String c t)
| SpellsUpper upper lower s t :
    97 ≤ Ascii.nat_of_ascii lower ≤ 122 → Ascii.nat_of_ascii upper + 32 = Ascii.nat_of_ascii lower →
    spells s t → spells (String upper s) (String lower t)
| SpellsHyphen s t : spells s t → spells (String hyphen s) (String underscore t).

Definition secret_key (key : string) : Prop := ∃ name, name ∈ secrets ∧ spells key name.

(** Names have small letters and underscores only. *)
Definition plain_name (s : string) : bool :=
  forallb (λ c, (97 <=? Ascii.nat_of_ascii c) && (Ascii.nat_of_ascii c <=? 122) || Ascii.eqb c underscore) (String.list_ascii_of_string s).

Lemma spelled_normal key name :
  spells key name → plain_name name = true → replace_char (Ascii.ascii_of_nat 45) "_" (to_ascii_lowercase key) = name.
Proof.
  induction 1 as [|c s t _ IH|upper lower s t Hl Hu _ IH|s t _ IH]; [done|..]; intros [Hc Ht]%andb_prop;
    specialize (IH Ht); clear Ht; cbn [to_ascii_lowercase replace_char].
  - rewrite IH. clear IH. destruct c as [[] [] [] [] [] [] [] []]; first [reflexivity|vm_compute in Hc; discriminate Hc].
  - rewrite IH. assert (upper = Ascii.ascii_of_nat (Ascii.nat_of_ascii lower - 32)) as ->.
    { rewrite <- (Ascii.ascii_nat_embedding upper). f_equal. lia. }
    clear Hu. destruct lower as [[] [] [] [] [] [] [] []]; first [reflexivity|vm_compute in Hl; lia].
  - by rewrite IH.
Qed.

Lemma secret_sensitive key : secret_key key → sensitive key = true.
Proof.
  intros (name & Hname & Hs). unfold sensitive. apply spelled_normal in Hs as ->.
  - apply existsb_exists. exists name. split; [by apply list_elem_of_In|apply String.eqb_refl].
  - assert (forallb plain_name secrets = true) as H by reflexivity. rewrite forallb_forall in H. by apply H, list_elem_of_In.
Qed.

(** Values that differ only in texts, and in anything under the key of a secret. *)
Inductive alike : Value → Value → Prop :=
| AlikeSame v : alike v v
| AlikeText s t : s ≠ "[DONE]" → t ≠ "[DONE]" → alike (VString s) (VString t)
| AlikeArray l k : Forall2 alike l k → alike (Array l) (Array k)
| AlikeObject f g : Forall2 (λ a b, a.1 = b.1 ∧ (secret_key a.1 ∨ alike a.2 b.2)) f g → alike (Object f) (Object g).

Lemma redacted_alike : ∀ v w, alike v w → redact_body_values v = redact_body_values w.
Proof.
  fix IH 3. intros v w [u|s t Hs Ht|l k Hlk|f g Hfg].
  - done.
  - cbn [redact_body_values]. by rewrite !(proj2 (String.eqb_neq _ _)).
  - cbn [redact_body_values]. f_equal. induction Hlk as [|a b l k Hab _ IHl]; [done|]. cbn [map]. by rewrite (IH _ _ Hab), IHl.
  - cbn [redact_body_values]. f_equal. induction Hfg as [|[a v1] [b v2] f g [Hk Hab] _ IHf]; [done|]. cbn [map fst snd] in *.
    subst b. rewrite IHf. destruct Hab as [->%secret_sensitive|Hab]; [done|]. by rewrite (IH _ _ Hab).
Qed.

(** What is left is one of two words, wherever it is. *)
Fixpoint texts (v : Value) : list string :=
  match v with
  | VString s => [s]
  | Array l => concat (map texts l)
  | Object fields => concat (map (λ kv, texts kv.2) fields)
  | _ => []
  end.

Definition says_nothing (s : string) : Prop := s = "[REDACTED]" ∨ s = "[DONE]".

Lemma redacted_says_nothing : ∀ v, Forall says_nothing (texts (redact_body_values v)).
Proof.
  fix IH 1. intros [|b|n|s|s|l|fields]; cbn [redact_body_values texts]; try constructor.
  - destruct (String.eqb_spec s "[DONE]") as [->|_]; cbn; (constructor; [|constructor]); [by right|by left].
  - induction l as [|a l IHl]; [constructor|]. cbn [map concat]. by apply Forall_app_2.
  - induction fields as [|[k a] fields IHf]; [constructor|]. cbn [map concat fst snd]. apply Forall_app_2; [|done].
    destruct (sensitive k); [constructor; [by left|constructor]|apply IH].
Qed.

(** ** Records *)

Section laws.
Variable parse_text : text → option Value.
Variable parse_slice : bytes → option Value.
Variable hex_encode : bytes → string.

Definition alike_parsed (v w : option Value) : Prop :=
  match v, w with
  | Some v, Some w => alike v w
  | None, None => True
  | _, _ => False
  end.

(** Bodies of one length that say alike things: the JSON of each, or of each event. *)
Definition alike_bodies (content_type : option string) (a b : bytes) : Prop :=
  length a = length b
  ∧ if is_event_stream content_type then
      Forall2 (λ x y, alike_parsed (parse_text x) (parse_text y))
        (omap event_data (lines (from_utf8_lossy a))) (omap event_data (lines (from_utf8_lossy b)))
    else alike_parsed (parse_slice a) (parse_slice b).

Lemma redacted_bodies content_type a b :
  alike_bodies content_type a b →
  redacted parse_text parse_slice content_type (push a default_capture)
  = redacted parse_text parse_slice content_type (push b default_capture).
Proof.
  intros [Hlen H]. unfold push. cbn [default_capture hb_bytes hb_total hb_limit hb_truncated app]. rewrite Hlen.
  destruct (_ <? _)%N; [done|]. unfold redacted. cbn [hb_bytes hb_total hb_truncated].
  destruct a as [|x a], b as [|y b]; try done. destruct (is_event_stream content_type).
  - do 2 f_equal. assert (∀ l k, Forall2 (λ x y, alike_parsed (parse_text x) (parse_text y)) l k →
      redacted_event parse_text <$> l = redacted_event parse_text <$> k) as Hevents; [|by rewrite (Hevents _ _ H)].
    clear. intros l k. induction 1 as [|d e l k Hde _ IH]; [done|]. cbn. rewrite IH. f_equal. unfold redacted_event.
    destruct (parse_text d), (parse_text e); try done. by apply redacted_alike.
  - destruct (parse_slice (x :: a)), (parse_slice (y :: b)); try done. do 3 f_equal. by rewrite (redacted_alike _ _ H).
Qed.

(** Requests whose records are the same. *)
Record alike_requests (r r' : HttpRequest) : Prop := {
  al_method : hq_method r = hq_method r';
  al_path : hq_path r = hq_path r';
  al_type : header_text "content-type" (hq_headers r) = header_text "content-type" (hq_headers r');
  al_length : header_text "content-length" (hq_headers r) = header_text "content-length" (hq_headers r');
  al_body : alike_bodies (header_text "content-type" (hq_headers r)) (body_bytes (hq_body r)) (body_bytes (hq_body r'));
}.

Record alike_replies (p p' : HttpReply) : Prop := {
  al_status : hp_status p = hp_status p';
  al_reply_type : header_text "content-type" (hp_headers p) = header_text "content-type" (hp_headers p');
  al_frames : Forall2 (alike_bodies (header_text "content-type" (hp_headers p))) (hp_frames p) (hp_frames p');
}.

Lemma inserted_header name name' value headers :
  name ≠ name' → header_text name (insert_header name' value headers) = header_text name headers.
Proof.
  intros Hne. unfold header_text, insert_header. f_equal. induction headers as [|[n v] headers IH].
  - cbn. by rewrite (proj2 (String.eqb_neq _ _)).
  - rewrite filter_cons. destruct (decide _) as [Hn|Hn]; cbn [app List.find fst] in *.
    + by rewrite IH.
    + apply dec_stable in Hn as ->. by rewrite IH, (proj2 (String.eqb_neq _ _)).
Qed.

Lemma imap_related {A B} (R : A → A → Prop) (f g : nat → A → B) l k :
  Forall2 R l k → (∀ n a b, R a b → f n a = g n b) → imap f l = imap g k.
Proof.
  intros H. revert f g. induction H as [|a b l k Hab _ IH]; intros f g Hfg; [done|].
  rewrite !imap_cons. f_equal; [by apply Hfg|]. apply IH. intros n. apply (Hfg (S n)).
Qed.

(** What the middleware passes on of a request. *)
Definition passed (r : HttpRequest) : HttpRequest :=
  mkHttpRequest (hq_method r) (hq_path r) (hq_uri r) (hq_headers r) (Some (body_bytes (hq_body r))).

(** C25: Safe diagnostics show no text of a client. What is emitted for two exchanges is
    the same when their requests have the same method, path, content type and declared
    length, their replies the same status and content type, and their bodies (of the
    request, and of each frame of the reply) have as many bytes each and, whole or by
    events, the same JSON but for what its texts say, which are not ["[DONE]"], and for
    what is under the keys of secrets. So, apart from these, no value of a header, no
    query, no text of a body and nothing under such a key can be told from it. *)
Theorem safe_debug_hides request_id duration_ms next next' r r' :
  alike_requests r r' → alike_replies (next (passed r)) (next' (passed r')) →
  (http_debug_middleware parse_text parse_slice hex_encode DebugSafe request_id duration_ms next r).1
  = (http_debug_middleware parse_text parse_slice hex_encode DebugSafe request_id duration_ms next' r').1.
Proof.
  intros [Hm Hp Ht Hl Hb] [Hs Hrt Hf]. unfold http_debug_middleware. fold (passed r) (passed r'). cbn [fst].
  rewrite !inserted_header by done. f_equal; [|f_equal].
  - unfold in_record. cbn [is_full]. rewrite <- Hm, <- Hp, <- Ht, <- Hl. do 2 f_equal. by rewrite (redacted_bodies _ _ _ Hb).
  - unfold out_record. cbn [is_full]. by rewrite Hs.
  - rewrite <- Hrt. apply (imap_related _ _ _ _ _ Hf). intros n a b Hab. unfold chunk_record. cbn [rendered].
    by rewrite (redacted_bodies _ _ _ Hab).
Qed.

(** The layer changes the request: a body beyond its limit is served as an empty one. *)
Lemma large_body_lost level request_id duration_ms next r body :
  level ≠ DebugOff → hq_body r = Some body → (HTTP_DEBUG_BODY_LIMIT < N.of_nat (length body))%N →
  (router_with_http_debug parse_text parse_slice hex_encode level request_id duration_ms next r).2
  = mkHttpReply (hp_status (next (passed r))) (insert_header "x-request-id" (chars request_id) (hp_headers (next (passed r))))
      (hp_frames (next (passed r)))
  ∧ hq_body (passed r) = Some [].
Proof.
  intros Hlevel Hbody Hlen. split; [by destruct level|]. unfold passed, body_bytes. rewrite Hbody. cbn.
  by rewrite (proj2 (N.ltb_lt _ _)).
Qed.
End laws.

(** ** Two exchanges *)

Module Exchanges.
(** A body is one text and a secret number. *)
Definition parse_slice (bs : bytes) : option Value :=
  Some (Object [("API-Key", Number (List.hd 0%N bs)); ("prompt", VString (string_of bs))]).

Definition request (token query prompt : string) : HttpRequest :=
  mkHttpRequest "POST" "/openai/v1/completions" ("/openai/v1/completions?" +:+ query)
    [("authorization", chars token); ("content-type", chars "application/json")] (Some (chars prompt)).

Definition reply (text : string) : HttpReply := mkHttpReply 200 [("content-type", chars "application/json")] [chars text].

Definition emitted (token query prompt text : string) : list Value :=
  (http_debug_middleware (λ _, None) parse_slice (λ _, "") DebugSafe "id" 3 (λ _, reply text) (request token query prompt)).1.
End Exchanges.

Lemma prompts_alike ct (a b : string) :
  is_event_stream ct = false → length (chars a) = length (chars b) → string_of (chars a) ≠ "[DONE]" →
  string_of (chars b) ≠ "[DONE]" → alike_bodies (λ _, None) Exchanges.parse_slice ct (chars a) (chars b).
Proof.
  intros Hct Hlen Ha Hb. split; [done|]. rewrite Hct. cbn. constructor. constructor; [|constructor; [|constructor]].
  - split; [done|]. left. exists "api_key". split; [by do 5 right; left|].
    do 3 (apply SpellsUpper; [vm_compute; lia|done|]). apply SpellsHyphen. apply SpellsUpper; [vm_compute; lia|done|].
    do 2 apply SpellsChar. constructor.
  - split; [done|]. right. by constructor.
Qed.

Example safe_debug_hides_witness :
  Exchanges.emitted "Bearer one" "q=1" "where" "Paris" = Exchanges.emitted "Bearer two" "q=two" "again" "Lyons".
Proof.
  unfold Exchanges.emitted. apply safe_debug_hides.
  - split; [done..|]. cbn [hq_headers hq_body Exchanges.request body_bytes]. by apply prompts_alike.
  - split; [done..|]. constructor; [|constructor]. by apply prompts_alike.
Defined.
