(* ===== verification/Startup.v ===== *)
(** Starting the server ([crates/cli/src/main.rs], the command [serve]): the catalogue is
    opened, its models are registered with the epochs that they had, and then those that
    the user declares, each with the digest of its file; and what a model is named by on
    the command line.

    Nobody else acts on the lifecycle before the server listens. The configuration, the
    engine and the reading of the declarations are arguments. *)

From stdpp Require Import gmap strings list numbers.
From Stdlib Require Import Lia.
From S2P Require Import Prelude Text Generation Json Engine Gate Admission Contexts Lifecycle ContextStrategy.
From S2P Require Import Config Vision Prompt Inference Lowering Routes Residency Gguf Registry Catalogue Pull.

Section startup.
Context {E : Type} `{!ModelEngine E}.
Variable sha256_hex : bytes → string.
Variable parse_json : string → option Value.
Variable parse_stamp : bytes → option CacheStamp.
Variable show_stamp : CacheStamp → bytes.
Variable http_get : string → option string → option HttpResponse.
Variable file_len : string → result string N.
Variable show_aliases : list string → string.
Variable parse_aliases : string → result string (list string).
Variable registry_text : RegistryError → string.

Abbreviation W := (M (World E) ServerError.Error).

(** The publication of a declared model. *)
Definition publishing : Publication (C := Database) := λ m c,
  match c with
  | None => (Ok tt, None)
  | Some c =>
      match publish show_aliases m c with
      | Done _ c => (Ok tt, Some c)
      | Fail e c => (Err (ServerError.State (show_error e)), Some c)
      | Panic => (Ok tt, Some c)
      end
  end.

Definition load_models (ms : list Lifecycle.ModelRecord) : W unit :=
  for_each (λ m, _ ← with_life (register_from_catalog m); mret tt) ms.

Definition register_declared (d : UserModelConfig) : W unit :=
  registered ← on_disk registry_text (register_local sha256_hex (um_path d) (um_name d) (um_sha256 d));
  metadata ← on_disk registry_text (probe (mo_path registered));
  _ ← with_life (register file_len
        (mkModel (um_name d) (mo_sha256 registered) (mo_path registered) (mo_sha256 registered) (um_aliases d)
           (md_architecture metadata) (mo_size registered) 0)
        publishing);
  mret tt.

(** The state of an earlier process is discarded. *)
Definition discard_transient (path : string) : W unit :=
  on_disk registry_text
    (found ← lookup path;
     match found with Some _ => Registry.remove path | None => mret tt end).

(** [declared] is what reading the declarations gives. *)
Definition start (transient : string) (declared : result CatalogError (list UserModelConfig)) (database : Database) (engine : E)
  : W unit :=
  match Catalogue.open database with
  | Fail e _ => throw (ServerError.State (show_error e))
  | Panic => panic
  | Done _ database =>
      _ ← discard_transient transient;
      _ ← modify (λ w, mkWorld (attach_catalog database (new engine)) (wl_disk w) (wl_others w) (wl_sent w));
      ms ← with_life (query (models parse_aliases));
      _ ← load_models ms;
      match declared with
      | Err e => throw (ServerError.State (show_error e))
      | Ok declared => for_each register_declared declared
      end
  end.

(** ** Models on the command line *)

(** [path.to_str()] is the path. *)
Definition resolve_model (model cache : string) (expected : option string) : M Disk RegistryError Registry.ModelRecord :=
  if String.eqb model "mock://deterministic" then mret (mkModelRecord "mock" model "model-free" 0)
  else if Registry.starts_with "hf://" model then
    fetch_hf sha256_hex parse_json parse_stamp show_stamp http_get model cache expected
  else register_local sha256_hex model GEMMA_URI expected.

(** The commands [fetch] and [register]. *)
Definition fetch_command (uri cache : string) (sha256 : option string) : M Disk RegistryError Registry.ModelRecord :=
  fetch_hf sha256_hex parse_json parse_stamp show_stamp http_get uri cache sha256.

Definition register_command (path : string) (sha256 : option string) : M Disk RegistryError Registry.ModelRecord :=
  register_local sha256_hex path "local" sha256.
End startup.
