(* ===== verification/StartupLaws.v ===== *)
(** A start recovers the models of the catalogue and registers those that are declared. *)

From stdpp Require Import gmap strings list numbers.
From Stdlib Require Import Lia.
From S2P Require Import Prelude Text Generation Json Engine Gate Admission Contexts Lifecycle LifecycleLaws ContextStrategy.
From S2P Require Import Config Vision Prompt Inference Lowering Routes Residency Gguf GgufLaws Registry RegistryLaws.
From S2P Require Import Catalogue CatalogueLaws Pull PullLaws Startup.

(** ** Records *)

(** The same model, perhaps with fewer names. *)
Definition kept (m r : Lifecycle.ModelRecord) : Prop :=
  with_aliases [] r = with_aliases [] m ∧ mr_aliases r ⊆ mr_aliases m.

#[export] Instance kept_preorder : PreOrder kept.
Proof.
  split; [done|]. intros a b c [H1 H2] [H3 H4]. split; [congruence|set_solver].
Qed.

Lemma kept_take aliases m : kept m (take_aliases aliases m).
Proof. split; [done|]. cbn. intros a. rewrite list_elem_of_filter. tauto. Qed.

(** Two tables of the same models. *)
Definition same_models (ledger table : gmap string Lifecycle.ModelRecord) : Prop :=
  ∀ id, option_Forall2 kept (ledger !! id) (table !! id).

Lemma install_keeps m (table : gmap string Lifecycle.ModelRecord) id o :
  id ≠ mr_id m → option_Forall2 kept o (table !! id) → option_Forall2 kept o (Lifecycle.install m table !! id).
Proof.
  intros Hne H. unfold Lifecycle.install. rewrite lookup_insert_ne, lookup_fmap by done. destruct H as [a b H|]; [|done].
  cbn. constructor. by etrans; [|apply kept_take].
Qed.

Lemma install_same m ledger table :
  same_models ledger table → same_models (<[mr_id m := m]> ledger) (Lifecycle.install m table).
Proof.
  intros H id. destruct (decide (id = mr_id m)) as [->|Hne].
  - unfold Lifecycle.install. rewrite !lookup_insert_eq. by constructor.
  - rewrite lookup_insert_ne by done. by apply install_keeps.
Qed.

(** *** Names *)

Definition held (table : gmap string Lifecycle.ModelRecord) (a : string) : Prop :=
  ∃ id r, table !! id = Some r ∧ a ∈ mr_aliases r.

(** Each name that the ledger gives a model is a name of a model in the table, or one
    that may get lost. *)
Definition names_held (ledger table : gmap string Lifecycle.ModelRecord) (lost : string → Prop) : Prop :=
  ∀ id m a, ledger !! id = Some m → a ∈ mr_aliases m → held table a ∨ lost a.

Lemma held_own m (table : gmap string Lifecycle.ModelRecord) a : a ∈ mr_aliases m → held (Lifecycle.install m table) a.
Proof. intros Ha. exists (mr_id m), m. split; [apply lookup_insert_eq|done]. Qed.

(** An installed model takes names over; only those of the record it replaces can go. *)
Lemma held_install m (table : gmap string Lifecycle.ModelRecord) a :
  held table a → held (Lifecycle.install m table) a ∨ ∃ r, table !! mr_id m = Some r ∧ a ∈ mr_aliases r.
Proof.
  intros (id & r & Hr & Ha). destruct (decide (id = mr_id m)) as [->|Hne]; [right; by exists r|left].
  destruct (decide (a ∈ mr_aliases m)) as [Hm|Hm]; [by apply held_own|].
  exists id, (take_aliases (mr_aliases m) r). split; [|by apply list_elem_of_filter].
  unfold Lifecycle.install. by rewrite lookup_insert_ne, lookup_fmap, Hr.
Qed.

Lemma install_names m ledger table lost :
  same_models ledger table → (∀ old a, ledger !! mr_id m = Some old → a ∈ mr_aliases old → lost a) →
  names_held ledger table lost → names_held (<[mr_id m := m]> ledger) (Lifecycle.install m table) lost.
Proof.
  intros Hsame Hlost Hheld id x a [[<- <-]|[Hne Hx]]%lookup_insert_Some Ha; [left; by apply held_own|].
  destruct (Hheld _ _ _ Hx Ha) as [H|]; [|by right].
  apply (held_install m) in H as [|(r & Hr & Har)]; [by left|right]. specialize (Hsame (mr_id m)). rewrite Hr in Hsame.
  inversion Hsame as [old ? [_ Hsub] Hold|]; subst. eapply Hlost; [done|by apply Hsub].
Qed.

Lemma ledger_named parse_aliases parse_profile c id m :
  le_models (ledger parse_aliases parse_profile c) !! id = Some m → mr_id m = id.
Proof.
  unfold ledger. cbn. destruct (db_version c <? 1)%N; [by rewrite lookup_empty|]. rewrite map_lookup_imap.
  destruct (tb_models (db_tables c) !! id) as [row|]; [|done]. cbn. unfold decoded, record_of_row.
  repeat (case_match; try done); by intros [= <-]; simplify_eq.
Qed.

Lemma NoDup_fmap_same {A B} (f : A → B) l x y : base.NoDup (f <$> l) → x ∈ l → y ∈ l → f x = f y → x = y.
Proof.
  induction l as [|a l IH]; [set_solver|]. rewrite fmap_cons, list.NoDup_cons. intros [Ha Hl] Hx Hy Hf.
  assert (∀ z, z ∈ l → f z ≠ f a) as Hz by by intros z Hz Heq; apply Ha; rewrite <- Heq; apply list_elem_of_fmap_2.
  apply elem_of_cons in Hx as [->|Hx], Hy as [->|Hy]; naive_solver.
Qed.

(** ** Registration *)

Section start.
Context {E : Type} `{!ModelEngine E}.
Variable sha256_hex : bytes → string.
Variable file_len : string → result string N.
Variable show_aliases : list string → string.
Variable parse_aliases : string → result string (list string).
Variable show_profile : StoredProfile → string.
Variable parse_profile : string → result string StoredProfile.
Variable registry_text : RegistryError → string.
Hypothesis aliases_roundtrip : ∀ l, parse_aliases (show_aliases l) = Ok l.
Hypothesis profile_roundtrip : ∀ p, parse_profile (show_profile p) = Ok p.
Implicit Types (w : World E) (l : Lifecycle E Database).

Abbreviation ledger_of := (ledger parse_aliases parse_profile).
Abbreviation database_ok := (db_ok parse_aliases parse_profile).

Lemma load_spec m l :
  wp (register_from_catalog m) (λ _ l', lc_models l' = Lifecycle.install m (lc_models l) ∧ lc_catalog l' = lc_catalog l) (λ _ _, True) l.
Proof.
  unfold register_from_catalog. wp_run. case_match; [done|]. apply wp_prepared; [|done]. intros e. unfold on_engine. by wp_run.
Qed.

Lemma register_installs m (publish : Publication (C := Database)) l :
  wp (register file_len m publish)
    (λ r l', mr_path r = mr_path m ∧ mr_sha256 r = mr_sha256 m
      ∧ (lc_models l' = lc_models l ∧ lc_catalog l' = lc_catalog l ∧ lc_models l !! mr_id m = Some r
         ∨ mr_id r = mr_id m ∧ lc_models l' = Lifecycle.install r (lc_models l) ∧ publish r (lc_catalog l) = (Ok tt, lc_catalog l')))
    (λ _ _, True) l.
Proof.
  unfold register. wp_run. eapply wp_mono; [apply completed_same|cbn beta|done].
  intros m' l' (-> & Hid & Hpath & Hsha). wp_run.
  destruct (existing ← lc_models l !! mr_id m'; _) as [existing|] eqn:Hex; wp_run; apply wp_prepared; try done.
  - intros e. wp_run. cbn. apply bind_Some in Hex as (x & Hx & Hu). destruct (unchanged x m') eqn:Hun; [|done].
    injection Hu as ->. unfold unchanged in Hun. rewrite !andb_true_iff, !bool_decide_eq_true in Hun.
    rewrite <- Hid, <- Hpath, <- Hsha. destruct Hun as [[[[_ ?] ?] _] _]. auto 8.
  - intros e. wp_run. apply wp_published. intros [[]|x] c Hp; cbn [lc_catalog] in Hp.
    + wp_run. unfold checked_add. destruct (decide _); [|done]. unfold on_engine. wp_run. cbn. auto 8.
    + unfold on_engine. by wp_run.
Qed.

(** ** The world *)

Lemma wp_with_life {A} (m : M (Lifecycle E Database) ServerError.Error A) (Q : A → World E → Prop) R w :
  wp m (λ a l, Q a (mkWorld l (wl_disk w) (wl_others w) (wl_sent w)))
    (λ e l, R e (mkWorld l (wl_disk w) (wl_others w) (wl_sent w))) (wl_life w) → wp (with_life m) Q R w.
Proof. unfold wp_gen, with_life. by destruct (m (wl_life w)). Qed.

(** What is loaded is in the table, apart from what the rest will replace. *)
Definition loaded (c : Database) (files : gmap string File) (ms : list Lifecycle.ModelRecord) w : Prop :=
  lc_catalog (wl_life w) = Some c ∧ dk_files (wl_disk w) = files
  ∧ (∀ m, m ∈ ms → le_models (ledger_of c) !! mr_id m = Some m)
  ∧ (∀ id, id ∉ mr_id <$> ms → option_Forall2 kept (le_models (ledger_of c) !! id) (lc_models (wl_life w) !! id))
  ∧ base.NoDup (mr_id <$> ms) ∧ (∀ m, m ∈ ms → lc_models (wl_life w) !! mr_id m = None)
  ∧ ∀ id m a, id ∉ mr_id <$> ms → le_models (ledger_of c) !! id = Some m → a ∈ mr_aliases m → held (lc_models (wl_life w)) a.

Lemma load_models_spec c files ms w :
  loaded c files ms w → wp (load_models ms) (λ _ w', loaded c files [] w') (λ _ _, True) w.
Proof.
  intros H. unfold load_models. apply (wp_for_each _ _ (loaded c files)); [done|]. clear.
  intros m ms w (Hc & Hf & Hms & Hsame & Hnd & Hnew & Hheld). wp_run. apply list.NoDup_cons in Hnd as [Hm Hnd]. apply wp_with_life.
  eapply wp_mono; [apply load_spec|cbn beta|done]. intros _ l [Hl Hlc]. wp_run.
  split; [cbn; congruence|]. split; [done|]. split; [by intros m' Hm'; apply Hms; right|].
  cbn. rewrite Hl. split_and!; [|done|..].
  - intros id Hid. destruct (decide (id = mr_id m)) as [->|Hne].
    + unfold Lifecycle.install. rewrite lookup_insert_eq, Hms by by left. by constructor.
    + apply install_keeps; [done|]. apply Hsame. rewrite fmap_cons. set_solver.
  - intros x Hx. assert (mr_id m ≠ mr_id x) by (intros Heq; apply Hm; rewrite Heq; by apply list_elem_of_fmap_2).
    unfold Lifecycle.install. rewrite lookup_insert_ne, lookup_fmap, Hnew by (done || by right). done.
  - intros id x a Hid Hx Ha. destruct (decide (id = mr_id m)) as [->|Hne].
    + rewrite Hms in Hx by by left. injection Hx as <-. by apply held_own.
    + assert (held (lc_models (wl_life w)) a) as H by (apply (Hheld id x a); [rewrite fmap_cons; set_solver|done..]).
      apply (held_install m) in H as [|(r & Hr & _)]; [done|]. rewrite Hnew in Hr by by left. done.
Qed.

Lemma publishing_ok r c x o :
  database_ok c → publishing show_aliases r (Some c) = (x, o) →
  ∃ c', o = Some c' ∧ database_ok c' ∧ (x = Ok tt → spec_publish r (ledger_of c) = Ok (tt, ledger_of c')).
Proof.
  intros Hok. unfold publishing, publish.
  pose proof (tracks_atomic parse_aliases parse_profile _ _ c
                (publish_model_tracks _ _ _ _ aliases_roundtrip profile_roundtrip r) (publish_model_atomic _ _ _ _ aliases_roundtrip profile_roundtrip r) Hok) as H.
  unfold wp_gen in H. destruct (publish_model show_aliases r c) as [[] c'|e c'|]; [| |done]; intros [= <- <-].
  - destruct H as [H1 H2]. by exists c'.
  - destruct H as [H1 _]. by exists c'.
Qed.

Lemma spec_publish_ok r L L' :
  spec_publish r L = Ok (tt, L') → L' = mkLedger (<[mr_id r := r]> (le_models L)) (le_operations L) (le_profiles L).
Proof. unfold spec_publish. repeat (case_match; try done). by intros [= <-]. Qed.

(** *** Declarations *)

Lemma register_local_file path identity expected d :
  wp (register_local sha256_hex path identity expected)
    (λ m d', dk_files d' = dk_files d ∧ mo_path m = path ∧ of_file sha256_hex path (mo_sha256 m) (dk_files d))
    (λ _ _, True) d.
Proof.
  unfold register_local, digest. wp_run. apply wp_open; [|done]. intros io file Hf. wp_run.
  apply wp_open; [|done]. intros io' file' Hf'. wp_run. cbn [fst snd]. case_match; wp_run; [done|].
  split; [done|]. split; [done|]. by exists file'.
Qed.

(** The model is registered with the digest of its file. *)
Definition declared_in (files : gmap string File) (d : UserModelConfig) (table : gmap string Lifecycle.ModelRecord) : Prop :=
  ∃ r, table !! um_name d = Some r ∧ mr_path r = um_path d ∧ of_file sha256_hex (um_path d) (mr_sha256 r) files.

Lemma declared_install files d m table :
  um_name d ≠ mr_id m → declared_in files d table → declared_in files d (Lifecycle.install m table).
Proof.
  intros Hne (r & Hr & Hp & Hf). unfold declared_in, Lifecycle.install. rewrite lookup_insert_ne, lookup_fmap, Hr by done.
  by exists (take_aliases (mr_aliases m) r).
Qed.

(** The catalogue has what the table has. *)
Definition recorded (c : Database) (w : World E) : Prop :=
  lc_catalog (wl_life w) = Some c ∧ database_ok c ∧ same_models (le_models (ledger_of c)) (lc_models (wl_life w)).

Lemma register_declared_spec d c files lost w :
  recorded c w → dk_files (wl_disk w) = files →
  (∀ old a, le_models (ledger_of c) !! um_name d = Some old → a ∈ mr_aliases old → lost a) →
  names_held (le_models (ledger_of c)) (lc_models (wl_life w)) lost →
  wp (register_declared sha256_hex file_len show_aliases registry_text d)
    (λ _ w', ∃ c', recorded c' w' ∧ dk_files (wl_disk w') = files
       ∧ names_held (le_models (ledger_of c')) (lc_models (wl_life w')) lost
       ∧ declared_in files d (lc_models (wl_life w'))
       ∧ (∀ id, id ≠ um_name d → le_models (ledger_of c') !! id = le_models (ledger_of c) !! id)
       ∧ (∀ e, um_name e ≠ um_name d → declared_in files e (lc_models (wl_life w)) → declared_in files e (lc_models (wl_life w'))))
    (λ _ _, True) w.
Proof.
  intros (Hc & Hok & Hsame) Hfiles Hlost Hheld. unfold register_declared. wp_run. apply wp_disk_call.
  eapply wp_mono; [apply register_local_file|cbn beta|done]. intros local k (Hk & Hpath & Hdigest). wp_run. apply wp_disk_call.
  eapply wp_mono; [apply probe_files|cbn beta|done]. intros metadata k' Hk'. wp_run. apply wp_with_life.
  eapply wp_mono; [apply register_installs|cbn beta|done]. intros r l (Hp & Hs & Hl). wp_run. cbn in Hp, Hs, Hl, Hk'.
  rewrite Hpath in Hp. cbn [wl_life wl_disk]. rewrite Hfiles in Hdigest.
  assert (∃ c', recorded c' (mkWorld l k' (wl_others w) (wl_sent w)) ∧ lc_models l !! um_name d = Some r
    ∧ names_held (le_models (ledger_of c')) (lc_models l) lost
    ∧ (∀ id, id ≠ um_name d → le_models (ledger_of c') !! id = le_models (ledger_of c) !! id)
    ∧ ∀ e, um_name e ≠ um_name d → declared_in files e (lc_models (wl_life w)) → declared_in files e (lc_models l))
    as (c' & Hc' & Hr & Hnames & Hothers & Hkeep).
  { destruct Hl as [(Hm & Hlc & Hr)|(Hid & Hm & Hpub)].
    - exists c. unfold recorded. cbn [wl_life]. rewrite Hm, Hlc. auto 7.
    - rewrite Hc in Hpub. apply publishing_ok in Hpub as (c' & Hlc & Hok' & Hspec); [|done].
      specialize (Hspec eq_refl). apply spec_publish_ok in Hspec. exists c'. unfold recorded. cbn [wl_life].
      rewrite Hlc, Hm, Hspec. cbn [le_models]. rewrite Hid. split_and!; try done.
      + rewrite <- Hid. by apply install_same.
      + unfold Lifecycle.install. by rewrite Hid, lookup_insert_eq.
      + rewrite <- Hid. apply install_names; [done| |done]. by rewrite Hid.
      + intros id Hne. by rewrite lookup_insert_ne.
      + intros e Hne. apply declared_install. by rewrite Hid. }
  exists c'. split_and!; [done|unfold with_disk in *; cbn in *; congruence|done| |done..]. exists r. by rewrite Hs.
Qed.

(** A name of the catalogue may get lost when a model that had it is declared again. *)
Definition redeclared (ledger : gmap string Lifecycle.ModelRecord) (ds : list UserModelConfig) (a : string) : Prop :=
  ∃ d old, d ∈ ds ∧ ledger !! um_name d = Some old ∧ a ∈ mr_aliases old.

Lemma register_all_spec ds c files w :
  recorded c w → dk_files (wl_disk w) = files → base.NoDup (um_name <$> ds) →
  let lost := redeclared (le_models (ledger_of c)) ds in
  names_held (le_models (ledger_of c)) (lc_models (wl_life w)) lost →
  wp (for_each (register_declared sha256_hex file_len show_aliases registry_text) ds)
    (λ _ w', ∃ c', recorded c' w' ∧ dk_files (wl_disk w') = files
       ∧ names_held (le_models (ledger_of c')) (lc_models (wl_life w')) lost
       ∧ (∀ id, id ∉ um_name <$> ds → le_models (ledger_of c') !! id = le_models (ledger_of c) !! id)
       ∧ ∀ d, d ∈ ds → declared_in files d (lc_models (wl_life w')))
    (λ _ _, True) w.
Proof.
  intros Hc Hfiles Hnd lost Hheld.
  set (I := λ rest w', ∃ c', rest ⊆ ds ∧ base.NoDup (um_name <$> rest) ∧ recorded c' w' ∧ dk_files (wl_disk w') = files
       ∧ names_held (le_models (ledger_of c')) (lc_models (wl_life w')) lost
       ∧ (∀ id, id ∉ um_name <$> ds ∨ id ∈ um_name <$> rest → le_models (ledger_of c') !! id = le_models (ledger_of c) !! id)
       ∧ ∀ d, d ∈ ds → d ∈ rest ∨ declared_in files d (lc_models (wl_life w'))).
  eapply wp_mono; [apply (wp_for_each _ _ I (λ _ _, True))|cbn beta|done].
  - exists c. auto 9.
  - clear Hc Hfiles Hheld w. intros d rest w (c1 & Hsub & Hrest & Hc1 & Hf1 & Hheld & Hothers & Hdone).
    assert (d ∈ ds) as Hin by set_solver. apply list.NoDup_cons in Hrest as [Hd Hrest].
    eapply wp_mono; [apply (register_declared_spec d c1 files lost); [done..| |done]|cbn beta|done].
    { intros old a Hold Ha. exists d, old. split; [done|]. by rewrite <- (Hothers (um_name d)) by (right; left). }
    intros _ w' (c2 & Hc2 & Hf2 & Hheld2 & Hreg & Hsame & Hkeep). exists c2.
    split_and!; [set_solver|done..| |].
    + intros id Hid. assert (id ≠ um_name d) as Hne by (intros ->; destruct Hid as [Hid|]; [by apply Hid, list_elem_of_fmap_2|done]).
      rewrite Hsame by done. apply Hothers. destruct Hid as [|Hid]; [by left|right; by right].
    + intros e He. destruct (decide (um_name e = um_name d)) as [Heq|Hne].
      * right. by rewrite (NoDup_fmap_same um_name ds e d Hnd He Hin Heq).
      * destruct (Hdone e He) as [[->|Hrest']%elem_of_cons|Hold]; [done|by left|right; by apply Hkeep].
  - intros _ w' (c' & _ & _ & Hc' & Hf' & Hheld' & Hothers & Hdone). exists c'. split_and!; try done.
    + intros id Hid. apply Hothers. by left.
    + intros d Hd. by destruct (Hdone d Hd) as [[]%elem_of_nil|].
Qed.

(** *** A start *)

Variable read : string → result string (list N).
Variable parse_yaml : list N → result string (list UserModelConfig).
Variable canonicalize : string → result string string.

Lemma declared_unique path root ds :
  load_user_models read parse_yaml canonicalize path root = Ok ds → base.NoDup (um_name <$> ds).
Proof.
  unfold load_user_models, or_error.
  destruct (read path) as [contents|]; cbn [mbind result_bind]; [|done].
  destruct (parse_yaml contents) as [ms|]; cbn [mbind result_bind]; [|done].
  destruct (canonicalize root) as [base|]; cbn [mbind result_bind]; [|done].
  intros (Hnd & _ & Hall)%(resolve_models_ok read). replace (um_name <$> ds) with (um_name <$> ms); [done|].
  clear Hnd. induction Hall as [|m m' ms ds [Hm _] _ IH]; [done|]. rewrite !fmap_cons, IH. by rewrite Hm.
Qed.

Lemma wp_discard path w (Q : unit → World E → Prop) :
  (∀ k, Q tt (with_disk k w)) → wp (discard_transient registry_text path) Q (λ _ _, True) w.
Proof.
  intros HQ. unfold discard_transient. apply wp_disk_call. wp_run. apply wp_lookup. case_match; [|apply HQ].
  unfold Registry.remove. wp_run. apply wp_open; [|done]. intros io file _. unfold on_files. wp_run. apply HQ.
Qed.

Lemma spec_opened L L' : spec_open L = Ok (tt, L') → le_models L' = le_models L.
Proof. by intros [= <-]. Qed.

Lemma opened_ledger c : file_ok parse_aliases parse_profile c →
  wp Catalogue.open (λ _ c', database_ok c' ∧ le_models (ledger_of c') = le_models (ledger_of c)) (λ _ _, True) c.
Proof.
  intros H. eapply wp_mono; [by eapply (open_spec _ _ _ _ aliases_roundtrip profile_roundtrip)|cbn beta|done]. intros _ c' (H1 & _ & H2). split; [done|].
  by apply spec_opened.
Qed.

Lemma spec_models_all ms L L' : spec_models L = Ok (ms, L') → ms = (ordered (le_models L)).*2 ∧ L' = L.
Proof. by intros [= <- <-]. Qed.

Lemma ordered_unique {A} (t : gmap string A) : base.NoDup (ordered t).*1.
Proof.
  assert (base.NoDup (sort_strings (map_to_list t).*1)) as Hnd by (rewrite sort_strings_perm; apply NoDup_fst_map_to_list).
  unfold ordered. induction Hnd as [|id ids Hid _ IH]; cbn; [constructor|]. destruct (t !! id) as [a|]; [|done]. cbn.
  constructor; [|done]. intros ([id' b] & -> & (id2 & Hin & Hb)%list_elem_of_omap)%list_elem_of_fmap. cbn in *.
  destruct (t !! id2); [|done]. by injection Hb as -> _.
Qed.

Lemma ordered_named (t : gmap string Lifecycle.ModelRecord) :
  (∀ id m, t !! id = Some m → mr_id m = id) → base.NoDup (mr_id <$> (ordered t).*2).
Proof.
  intros Ht. assert (mr_id <$> (ordered t).*2 = (ordered t).*1) as ->.
  { rewrite <- list_fmap_compose. apply list_fmap_ext. intros i [id m] Hi. apply Ht, ordered_elem. by eapply list_elem_of_lookup_2. }
  apply ordered_unique.
Qed.

(** Before anything is loaded. *)
Lemma all_loaded c w :
  lc_catalog (wl_life w) = Some c → lc_models (wl_life w) = ∅ →
  loaded c (dk_files (wl_disk w)) ((ordered (le_models (ledger_of c))).*2) w.
Proof.
  intros Hc He. split; [done|]. split; [done|]. split.
  - intros m ((id & m') & -> & Hm)%list_elem_of_fmap. apply ordered_elem in Hm.
    cbn. by rewrite (ledger_named _ _ _ _ _ Hm).
  - split; [|split; [|split; [by intros; rewrite He, lookup_empty|]]].
    2: apply ordered_named; intros ?; apply ledger_named.
    2: intros id m a Hid Hm; destruct Hid; rewrite <- (ledger_named _ _ _ _ _ Hm); apply list_elem_of_fmap_2;
      by apply (list_elem_of_fmap_2 snd _ (id, m)), ordered_elem.
    intros id Hid. rewrite He, lookup_empty. destruct (le_models (ledger_of c) !! id) as [m|] eqn:Hm; [|constructor].
    destruct Hid. rewrite <- (ledger_named _ _ _ _ _ Hm). apply list_elem_of_fmap_2.
    apply (list_elem_of_fmap_2 snd _ (id, m)). by apply ordered_elem.
Qed.

(** C22: A start recovers what an earlier process had. If it succeeds, whatever happened
    before to the database and whatever calls fail now, the table and the catalogue have
    the same models, which differ in their names only; each model that is not declared
    again is in the catalogue as it was; and each that is declared is registered with its
    path and the digest of the file there. A model of the table has no name that the
    catalogue does not give it, and no name is lost: one that the catalogue gives a model
    is a name of some model in the table, unless a model that had it before is declared
    again. It never panics. *)
Theorem start_recovers transient path root database engine w :
  reachable show_aliases parse_aliases show_profile parse_profile database →
  match
    start sha256_hex file_len show_aliases parse_aliases registry_text transient
      (load_user_models read parse_yaml canonicalize path root) database engine w
  with
  | Done _ w' => ∃ c ds, load_user_models read parse_yaml canonicalize path root = Ok ds ∧ recorded c w'
      ∧ names_held (le_models (ledger_of c)) (lc_models (wl_life w')) (redeclared (le_models (ledger_of database)) ds)
      ∧ (∀ id, id ∉ um_name <$> ds → le_models (ledger_of c) !! id = le_models (ledger_of database) !! id)
      ∧ ∀ d, d ∈ ds → declared_in (dk_files (wl_disk w')) d (lc_models (wl_life w'))
  | Fail _ _ => True
  | Panic => False
  end.
Proof.
  intros Hreach. pose proof (opened_ledger database (reachable_file_ok _ _ _ _ aliases_roundtrip profile_roundtrip _ Hreach)) as Hopen.
  set (declared := load_user_models _ _ _ _ _).
  enough (wp (start sha256_hex file_len show_aliases parse_aliases registry_text transient declared database engine)
    (λ _ w', ∃ c ds, declared = Ok ds ∧ recorded c w'
      ∧ names_held (le_models (ledger_of c)) (lc_models (wl_life w')) (redeclared (le_models (ledger_of database)) ds)
      ∧ (∀ id, id ∉ um_name <$> ds → le_models (ledger_of c) !! id = le_models (ledger_of database) !! id)
      ∧ ∀ d, d ∈ ds → declared_in (dk_files (wl_disk w')) d (lc_models (wl_life w'))) (λ _ _, True) w) as H
    by (unfold wp_gen in H; by destruct (start _ _ _ _ _ _ _ _ _ w)).
  unfold start. unfold wp_gen in Hopen. destruct (Catalogue.open database) as [[] c|e c|]; [|by wp_run|done].
  destruct Hopen as [Hok Hledger]. wp_run. apply wp_discard. intros k. wp_run.
  set (w1 := mkWorld _ _ _ _). apply wp_with_life.
  pose proof (models_reads _ _ _ _ aliases_roundtrip profile_roundtrip) as Hreads.
  eapply (wp_query parse_aliases parse_profile); [by eapply tracks_read|by eapply read_atomic|by exists c| |done].
  intros ms c1 c2 Hc1 Hok2 Hspec. apply spec_models_all in Hspec as [-> Hsame]. injection Hc1 as <-. wp_run.
  set (w2 := mkWorld _ _ _ _). assert (loaded c2 (dk_files (wl_disk w2)) ((ordered (le_models (ledger_of c))).*2) w2) as Hw2.
  { rewrite <- Hsame. by apply all_loaded. }
  eapply wp_mono; [apply (load_models_spec _ _ _ _ Hw2)|cbn beta|done]. intros _ w3 (Hc3 & Hf3 & _ & Hsame3 & _ & _ & Hheld3).
  destruct declared as [ds|e] eqn:Hds; [|by wp_run].
  eapply wp_mono; [apply (register_all_spec ds c2 (dk_files (wl_disk w3)) w3)|cbn beta|done].
  - split; [done|]. split; [done|]. intros id. apply Hsame3. set_solver.
  - done.
  - by eapply declared_unique.
  - intros id m a Hm Ha. left. apply (Hheld3 id m a); [set_solver|done..].
  - intros _ w' (c' & Hc' & Hf' & Hheld & Hothers & Hdone). exists c', ds. rewrite Hf'. split; [done|]. split; [done|].
    rewrite Hsame, Hledger in Hheld. split; [done|]. split; [|done]. intros id Hid. by rewrite Hothers, Hsame, Hledger.
Qed.
End start.

(** ** A second start *)

Import LifecycleDemo.

Module SecondStart.
(** An earlier process has published a model with the name that the user gives to
    another now. *)
Definition database : Database := History.run (History.begun ++ [PublishAndFinish History.gemma "op"]).

Definition second : UserModelConfig := mkUserModel "second" "/models/second" None ["latest"].

Definition world : World unit :=
  mkWorld (new tt)
    (mkDisk {["runtime.json" := mkFile [] 1; "/models/second" := mkFile demo_file 2]} [] 3 []) [] [].

Definition began : outcome (World unit) ServerError.Error unit :=
  start string_of_bytes LifecycleDemo.no_file History.show History.parse FirstPull.registry_text "runtime.json"
    (load_user_models (λ _, Ok []) (λ _, Ok [second]) Ok "models.yaml" "/models") database tt world.
End SecondStart.

Lemma second_reachable :
  reachable History.show History.parse History.show_profile History.parse_profile SecondStart.database.
Proof.
  unfold SecondStart.database, History.run, History.begun. cbn [foldl app].
  repeat apply performed_reachable; [apply Fresh|by left|by left|right; vm_compute; reflexivity..].
Qed.

Example start_recovers_witness :
  match SecondStart.began with
  | Done _ w' => ∃ c ds, load_user_models (λ _, Ok []) (λ _, Ok [SecondStart.second]) Ok "models.yaml" "/models" = Ok ds
      ∧ recorded History.parse History.parse_profile c w'
      ∧ names_held (le_models (ledger History.parse History.parse_profile c)) (lc_models (wl_life w'))
          (redeclared (le_models (ledger History.parse History.parse_profile SecondStart.database)) ds)
      ∧ (∀ id, id ∉ um_name <$> ds →
           le_models (ledger History.parse History.parse_profile c) !! id
           = le_models (ledger History.parse History.parse_profile SecondStart.database) !! id)
      ∧ ∀ d, d ∈ ds → declared_in string_of_bytes (dk_files (wl_disk w')) d (lc_models (wl_life w'))
  | Fail _ _ => True
  | Panic => False
  end.
Proof.
  pose proof (start_recovers string_of_bytes no_file History.show History.parse History.show_profile History.parse_profile
    FirstPull.registry_text parse_shown parse_profile_shown (λ _, Ok []) (λ _, Ok [SecondStart.second]) Ok
    "runtime.json" "models.yaml" "/models" SecondStart.database tt SecondStart.world second_reachable) as H.
  unfold SecondStart.began. exact H.
Defined.

(** It succeeds; the name is given to the second model, and the catalogue has it twice. *)
Example second_start_succeeds :
  match SecondStart.began with
  | Done _ w =>
      mr_aliases <$> lc_models (wl_life w) !! "gemma" = Some []
      ∧ mr_aliases <$> lc_models (wl_life w) !! "second" = Some ["latest"]
      ∧ (c ← lc_catalog (wl_life w); mr_aliases <$> le_models (ledger History.parse History.parse_profile c) !! "gemma")
        = Some ["latest"]
  | _ => False
  end.
Proof. vm_compute. repeat split. Qed.
