(* ===== verification/Admin.v ===== *)
(** The administrative and listing handlers ([crates/server/src/lib.rs]), the table of
    routes, what the OpenAPI document lists, and how serving ends.

    A handler runs on the state that it shares with the inferences ([Inference]); before
    each access the other requests may act. Fresh identifiers, the version of the package
    and the status of the engine are arguments. *)

From stdpp Require Import gmap strings list numbers.
From Stdlib Require Import Lia.
From S2P Require Import Registry Catalogue Pull.
From S2P Require Import Prelude Json Engine Gate Admission Contexts Declarations Lifecycle ContextStrategy Generation Text.
From S2P Require Import Config Vision Prompt Responses ResponseStore Structured Inference Requests Lowering Routes Handlers.

(** ** Requests and replies *)

Record OllamaModelRequest : Type := mkModelRequest {
  om_model : option string;
  om_name : option string;
}.

Definition om_model_name (r : OllamaModelRequest) : result ServerError.Error string :=
  one_name (om_model r) (om_name r) "`model` and `name` must identify the same model" "one of `model` or `name` is required".

Record OllamaCopyRequest : Type := mkCopyRequest {
  oc_source : string;
  oc_destination : string;
}.

Inductive Call : Type :=
| OpenApi (* of either interface *)
| SwaggerUi
| Capabilities
| ListModels
| Version
| Tags
| Show (r : OllamaModelRequest)
| Copy (r : OllamaCopyRequest)
| DeleteModel (r : OllamaModelRequest)
| Ps
| ListContexts
| CreateContext
| ImportContext (tokens : list string)
| GetContext (id : string)
| DeleteContext (id : string)
| BranchContext (id : string)
| CancelRequest (id : string)
| NativeStatus
| Strategies
| CreateDeclaration (r : CreateCompactionDeclaration)
| RevokeDeclaration (id : string).

Inductive AdminReply : Type :=
| AValue (v : Value)
| AModel (m : Lifecycle.ModelRecord)
| AContext (c : ContextRecord)
| AContexts (cs : list ContextRecord)
| AStrategies (version : N) (strategies : list CompactionStrategyInfo)
| ADeclaration (d : CompactionDeclaration)
| AStatus (code : N)
| APage.

(** ** Values *)

(** [Serialize], as [json!] keeps it. *)
Definition model_value (m : Lifecycle.ModelRecord) : Value :=
  Object [("aliases", Array (VString <$> mr_aliases m)); ("epoch", Number (mr_epoch m)); ("family", VString (mr_family m));
          ("id", VString (mr_id m)); ("path", VString (mr_path m)); ("revision", VString (mr_revision m));
          ("sha256", VString (mr_sha256 m)); ("size_bytes", Number (mr_size_bytes m))].

Definition config_value (c : ServerConfig) : Value :=
  Object [("active_requests", Number (active_requests c)); ("active_time_ms", Number (active_time_ms c));
          ("body_timeout_ms", Number (body_timeout_ms c));
          ("compaction_declaration_lifetime_ms", Number (compaction_declaration_lifetime_ms c));
          ("compaction_declaration_rate_per_minute", Number (compaction_declaration_rate_per_minute c));
          ("compaction_declarations", Number (compaction_declarations c)); ("compaction_enabled", Bool (compaction_enabled c));
          ("compaction_workers", Number (compaction_workers c)); ("default_output_tokens", Number (default_output_tokens c));
          ("header_bytes", Number (header_bytes c)); ("pre_queue_concurrency", Number (pre_queue_concurrency c));
          ("queue_bytes", Number (queue_bytes c)); ("queue_count", Number (queue_count c));
          ("request_bytes", Number (request_bytes c)); ("shutdown_grace_ms", Number (shutdown_grace_ms c));
          ("stream_buffer", Number (stream_buffer c)); ("wall_time_ms", Number (wall_time_ms c))].

Definition metrics_value (m : AdmissionMetrics) : Value :=
  Object [("active", Number (am_active m)); ("queued", Number (am_queued m)); ("queued_bytes", Number (am_queued_bytes m))].

Definition capabilities_value : Value :=
  Object [("data", Array [Object [("endpoint", VString "/cusco/v1/context-updates"); ("id", VString CONTEXT_UPDATE_CAPABILITY);
                                  ("operations", Array [VString "fold"]); ("portable_projection", VString "openai.response");
                                  ("version", Number 1)]]);
          ("object", VString "cusco.capability_list")].

(** A row of the models that are loaded. *)
Definition ps_value (m : Lifecycle.ModelRecord) (status : Value) : Value :=
  Object [("details", Object [("families", Array [VString (mr_family m)]); ("family", VString (mr_family m));
                              ("format", VString "gguf")]);
          ("digest", VString (mr_sha256 m)); ("model", VString (mr_id m)); ("name", VString (mr_id m));
          ("size", Number (mr_size_bytes m)); ("size_vram", index "device_bytes" (index "operating_point" status))].

Definition as_bool (v : Value) : option bool := match v with Bool b => Some b | _ => None end.

(** ** The OpenAPI document *)

Definition operations : list (string * string * string * option string) :=
  [("/openai/v1/completions", "post", "openaiCompletion", Some "CompletionRequest");
   ("/openai/v1/chat/completions", "post", "openaiChatCompletion", Some "ChatRequest");
   ("/openai/v1/responses", "post", "openaiResponse", Some "ResponsesRequest");
   ("/openai/v1/models", "get", "openaiModels", None);
   ("/cusco/v1/capabilities", "get", "cuscoCapabilities", None);
   ("/cusco/v1/context-updates", "post", "cuscoContextUpdate", Some "ContextUpdateRequest");
   ("/cusco/v1/api/tags", "get", "ollamaTags", None);
   ("/cusco/v1/api/version", "get", "ollamaVersion", None);
   ("/cusco/v1/api/show", "post", "ollamaShow", Some "OllamaModelRequest");
   ("/cusco/v1/api/pull", "post", "ollamaPull", Some "OllamaPullRequest");
   ("/cusco/v1/api/copy", "post", "ollamaCopy", Some "OllamaCopyRequest");
   ("/cusco/v1/api/delete", "delete", "ollamaDelete", Some "OllamaModelRequest");
   ("/cusco/v1/api/ps", "get", "ollamaPs", None);
   ("/cusco/v1/contexts", "get", "cuscoContexts", None);
   ("/cusco/v1/contexts", "post", "cuscoCreateContext", None);
   ("/cusco/v1/contexts/import", "post", "cuscoImportContext", Some "ImportContextRequest");
   ("/cusco/v1/compaction/strategies", "get", "cuscoCompactionStrategies", None);
   ("/cusco/v1/compaction/declarations", "post", "cuscoCreateCompactionDeclaration", Some "CreateCompactionDeclaration");
   ("/cusco/v1/compaction/declarations/{id}", "delete", "cuscoRevokeCompactionDeclaration", None);
   ("/cusco/v1/contexts/{id}", "get", "cuscoContext", None);
   ("/cusco/v1/contexts/{id}", "delete", "cuscoDeleteContext", None);
   ("/cusco/v1/contexts/{id}/branches", "post", "cuscoCreateContextBranch", None);
   ("/cusco/v1/requests/{id}", "delete", "cuscoCancelRequest", None);
   ("/cusco/v1/status", "get", "cuscoStatus", None)].

Definition schema_reference (schema : string) : Value :=
  Object [("$ref", VString ("#/components/schemas/" +:+ schema))].

Definition openapi_operation (operation_id : string) (request_schema : option string) : Value :=
  let described text := Object [("description", VString text)] in
  Object (("operationId", VString operation_id)
          :: match request_schema with
             | Some schema =>
                 [("requestBody", Object [("content", Object [("application/json", Object [("schema", schema_reference schema)])]);
                                          ("required", Bool true)])]
             | None => []
             end
          ++ [("responses", Object [("200", described "Successful response"); ("400", described "Invalid request");
                                    ("401", described "Authentication required"); ("500", described "Server error")])]).

(** [value[k1][k2].. = v], of objects. *)
Fixpoint set_at (keys : list string) (v w : Value) : Value :=
  match keys, w with
  | [], _ => v
  | key :: keys, Object fields => Object (set_field key (set_at keys v (default Null (field key fields))) fields)
  | _ :: _, _ => w
  end.

Definition pull_content : Value :=
  let progress := Object [("schema", schema_reference "OllamaPullProgress")] in
  Object [("application/json", progress); ("application/x-ndjson", progress)].

(** The operations of the document, by path and method. *)
Definition openapi_paths : gmap string (gmap string Value) :=
  let paths :=
    foldl (λ paths '(path, method, operation_id, schema),
             <[path := <[method := openapi_operation operation_id schema]> (default ∅ (paths !! path))]> paths)
      ∅ operations in
  alter (alter (set_at ["responses"; "200"; "content"] pull_content) "post") "/cusco/v1/api/pull" paths.

(** ** Routes *)

(** The table of [routes]: path and method. *)
Definition routes (api_docs_ui : bool) : list (string * string) :=
  [("/openai/v1/openapi.json", "get"); ("/cusco/v1/openapi.json", "get"); ("/cusco/v1/capabilities", "get");
   ("/cusco/v1/context-updates", "post"); ("/openai/v1/completions", "post"); ("/openai/v1/chat/completions", "post");
   ("/openai/v1/models", "get"); ("/openai/v1/responses", "post"); ("/openai/v1/responses/{id}", "get");
   ("/openai/v1/responses/{id}", "delete"); ("/cusco/v1/api/version", "get"); ("/cusco/v1/api/tags", "get");
   ("/cusco/v1/api/show", "post"); ("/cusco/v1/api/pull", "post"); ("/cusco/v1/api/copy", "post");
   ("/cusco/v1/api/delete", "delete"); ("/cusco/v1/api/ps", "get"); ("/cusco/v1/contexts", "get");
   ("/cusco/v1/contexts", "post"); ("/cusco/v1/contexts/import", "post"); ("/cusco/v1/contexts/{id}", "get");
   ("/cusco/v1/contexts/{id}", "delete"); ("/cusco/v1/requests/{id}", "delete"); ("/cusco/v1/status", "get");
   ("/cusco/v1/compaction/strategies", "get"); ("/cusco/v1/compaction/declarations", "post");
   ("/cusco/v1/compaction/declarations/{id}", "delete"); ("/cusco/v1/contexts/{id}/branches", "post")]
  ++ if api_docs_ui then [("/openapi/ui", "get")] else [].

(** Where a call is served. *)
Definition route (c : Call) : string * string :=
  match c with
  | OpenApi => ("/cusco/v1/openapi.json", "get")
  | SwaggerUi => ("/openapi/ui", "get")
  | Capabilities => ("/cusco/v1/capabilities", "get")
  | ListModels => ("/openai/v1/models", "get")
  | Version => ("/cusco/v1/api/version", "get")
  | Tags => ("/cusco/v1/api/tags", "get")
  | Show _ => ("/cusco/v1/api/show", "post")
  | Copy _ => ("/cusco/v1/api/copy", "post")
  | DeleteModel _ => ("/cusco/v1/api/delete", "delete")
  | Ps => ("/cusco/v1/api/ps", "get")
  | ListContexts => ("/cusco/v1/contexts", "get")
  | CreateContext => ("/cusco/v1/contexts", "post")
  | ImportContext _ => ("/cusco/v1/contexts/import", "post")
  | GetContext _ => ("/cusco/v1/contexts/{id}", "get")
  | DeleteContext _ => ("/cusco/v1/contexts/{id}", "delete")
  | BranchContext _ => ("/cusco/v1/contexts/{id}/branches", "post")
  | CancelRequest _ => ("/cusco/v1/requests/{id}", "delete")
  | NativeStatus => ("/cusco/v1/status", "get")
  | Strategies => ("/cusco/v1/compaction/strategies", "get")
  | CreateDeclaration _ => ("/cusco/v1/compaction/declarations", "post")
  | RevokeDeclaration _ => ("/cusco/v1/compaction/declarations/{id}", "delete")
  end.

(** ** Handlers *)

Section handlers.
Context {E C : Type} `{!ModelEngine E, !Catalog C}.
Variable model_order : Lifecycle.Lifecycle E C → list Lifecycle.ModelRecord.
(** [env!("CARGO_PKG_VERSION")], and [residency_status] of the engine. *)
Variable package_version : string.
Variable residency_status : E → option Value.
(** The document, whose operations are [openapi_paths]. *)
Variable document : Value.
Variable auth : AuthProvider.

Section calls.
Context {K : Type}.

Abbreviation R := (M (Run E C K) Interrupt).

Definition authorized (headers : HeaderMap) (scope : Scope) (uuid : string) : R RequestContext :=
  lift (authenticate auth headers scope uuid).

Definition set_lifecycle (l : Lifecycle.Lifecycle E C) (sh : Shared E C) : Shared E C :=
  mkShared (sh_inner sh) (sh_contexts sh) (sh_declarations sh) l (sh_instant sh) (sh_clock sh).

(** An operation of the lifecycle, which holds its lock. *)
Definition operate {A} (m : M (Lifecycle.Lifecycle E C) ServerError.Error A) : R A := λ s,
  match m (sh_lifecycle (rn_shared s)) with
  | Done a l => Done a (set_shared (set_lifecycle l (rn_shared s)) s)
  | Fail e l => Fail (Returned e) (set_shared (set_lifecycle l (rn_shared s)) s)
  | Panic => Panic
  end.

Definition on_lifecycle {A} (m : M (Lifecycle.Lifecycle E C) ServerError.Error A) : R A := _ ← others_act; operate m.

(** A locked section that changes the contexts. *)
Definition on_contexts {A} (f : Contexts → result ServerError.Error A * Contexts) : R A :=
  locked (λ sh, let '(r, cs) := f (sh_contexts sh) in (r, set_contexts cs sh)).

Definition server_models : R (list Lifecycle.ModelRecord) := access (λ sh, Lifecycle.models (sh_lifecycle sh)).

Definition ollama_version (uuid : string) (headers : HeaderMap) : R AdminReply :=
  _ ← authorized headers ScopeInference uuid;
  mret (AValue (Object [("version", VString package_version)])).

Definition ollama_tags (uuid : string) (headers : HeaderMap) : R AdminReply :=
  _ ← authorized headers ScopeInference uuid;
  models ← server_models;
  mret (AValue (Object [("models", Array (model_value <$> models))])).

Definition ollama_show (uuid : string) (headers : HeaderMap) (r : OllamaModelRequest) : R AdminReply :=
  _ ← authorized headers ScopeInference uuid;
  name ← lift (om_model_name r);
  model ← find_model model_order name;
  mret (AModel model).

Definition ollama_copy (uuid : string) (headers : HeaderMap) (r : OllamaCopyRequest) : R AdminReply :=
  _ ← authorized headers ScopeAdmin uuid;
  _ ← on_lifecycle (Lifecycle.alias (oc_source r) (oc_destination r));
  mret (AStatus 200).

Definition ollama_delete (uuid : string) (headers : HeaderMap) (r : OllamaModelRequest) : R AdminReply :=
  _ ← authorized headers ScopeAdmin uuid;
  name ← lift (om_model_name r);
  _ ← on_lifecycle (Lifecycle.remove name);
  mret (AStatus 200).

(** [s.model(id).ok()?] *)
Definition known_model (id : string) : R (option Lifecycle.ModelRecord) :=
  r ← access (λ sh, Lifecycle.model (model_order (sh_lifecycle sh)) id (sh_lifecycle sh));
  mret (match r with Ok m => Some m | Err _ => None end).

(** A status becomes a row unless its model is retiring, has no identifier or is not
    known any more. *)
Definition ps_row (status : Value) : R (option Value) :=
  if default false (as_bool (index "retiring" status)) then mret None
  else
    match as_str (index "id" status) with
    | None => mret None
    | Some id => m ← known_model id; mret ((λ m, ps_value m status) <$> m)
    end.

(** [filter_map(..).collect()] *)
Fixpoint ps_rows (statuses : list Value) : R (list Value) :=
  match statuses with
  | [] => mret []
  | status :: rest =>
      row ← ps_row status;
      rows ← ps_rows rest;
      mret (match row with Some v => v :: rows | None => rows end)
  end.

Definition object_get (key : string) (v : Value) : option Value := fields ← as_object v; field key fields.

Definition ollama_ps (uuid : string) (headers : HeaderMap) : R AdminReply :=
  _ ← authorized headers ScopeInference uuid;
  status ← access (λ sh, residency_status (lc_engine (sh_lifecycle sh)));
  let models := status ← status; models ← object_get "models" status; as_array models in
  rows ← ps_rows (default [] models);
  mret (AValue (Object [("models", Array rows)])).

Definition list_models (uuid : string) (headers : HeaderMap) : R AdminReply :=
  _ ← authorized headers ScopeInference uuid;
  models ← server_models;
  mret (AValue (Object [("data", Array (model_value <$> models))])).

Definition capabilities (uuid : string) (headers : HeaderMap) : R AdminReply :=
  _ ← authorized headers ScopeInference uuid;
  mret (AValue capabilities_value).

Definition native_status (uuid : string) (headers : HeaderMap) : R AdminReply :=
  _ ← authorized headers ScopeAdmin uuid;
  config ← access (λ sh, config (sh_inner sh));
  metrics ← access (λ sh, admission_metrics (sh_inner sh));
  residency ← access (λ sh, residency_status (lc_engine (sh_lifecycle sh)));
  mret (AValue (Object [("admission", metrics_value metrics); ("config", config_value config);
                        ("residency", default Null residency)])).

(** *** Contexts *)

Definition create_context (uuid fresh : string) (headers : HeaderMap) : R AdminReply :=
  _ ← authorized headers ScopeInference uuid;
  c ← on_contexts (λ cs, let '(c, cs) := Contexts.create_context fresh cs in (Ok c, cs));
  mret (AContext c).

Definition list_contexts (uuid : string) (headers : HeaderMap) : R AdminReply :=
  _ ← authorized headers ScopeInference uuid;
  cs ← access (λ sh, Contexts.contexts (sh_contexts sh));
  mret (AContexts cs).

Definition import_context (uuid fresh : string) (headers : HeaderMap) (tokens : list string) : R AdminReply :=
  _ ← authorized headers ScopeInference uuid;
  c ← on_contexts (λ cs, let '(c, cs) := Contexts.import_context fresh tokens cs in (Ok c, cs));
  mret (AContext c).

Definition read_context (id : string) : R ContextRecord :=
  r ← access (λ sh, Contexts.context id (sh_contexts sh)); lift r.

Definition get_context (uuid : string) (headers : HeaderMap) (id : string) : R AdminReply :=
  _ ← authorized headers ScopeInference uuid;
  c ← read_context id;
  mret (AContext c).

Definition branch_context (uuid fresh : string) (headers : HeaderMap) (id : string) : R AdminReply :=
  _ ← authorized headers ScopeInference uuid;
  r ← access (λ sh, branch_read id (sh_contexts sh));
  source ← lift r;
  c ← on_contexts (λ cs, let '(c, cs) := branch_insert fresh source cs in (Ok c, cs));
  mret (AContext c).

Definition delete_context (uuid : string) (headers : HeaderMap) (id : string) : R AdminReply :=
  _ ← authorized headers ScopeInference uuid;
  _ ← on_contexts (Contexts.delete_context id);
  mret (AStatus 204).

Definition cancel_request (uuid : string) (headers : HeaderMap) (id : string) : R AdminReply :=
  _ ← authorized headers ScopeInference uuid;
  _ ← locked (λ sh, (Ok tt, set_inner (Admission.cancel id (sh_inner sh)) sh));
  mret (AStatus 202).

(** *** Compaction *)

Definition compaction_strategies (uuid : string) (headers : HeaderMap) : R AdminReply :=
  _ ← authorized headers ScopeInference uuid;
  mret (AStrategies BUILTIN_STRATEGY_VERSION strategy_catalog).

Definition create_compaction_declaration (uuid fresh : string) (headers : HeaderMap) (r : CreateCompactionDeclaration)
  : R AdminReply :=
  context ← authorized headers ScopeInference uuid;
  config ← access (λ sh, config (sh_inner sh));
  clock ← access sh_clock;
  _ ← others_act;
  d ← on_declarations (create_declaration config clock fresh (rc_principal context) r);
  mret (ADeclaration d).

Definition revoke_compaction_declaration (uuid : string) (headers : HeaderMap) (id : string) : R AdminReply :=
  context ← authorized headers ScopeInference uuid;
  _ ← others_act;
  _ ← on_declarations (revoke_declaration (rc_principal context) id);
  mret (AStatus 204).

(** *** A call *)

(** [fresh] is the identifier that the call gives out, if it does. *)
Definition handle (uuid fresh : string) (headers : HeaderMap) (c : Call) : R AdminReply :=
  match c with
  | OpenApi => mret (AValue document)
  | SwaggerUi => mret APage
  | Capabilities => capabilities uuid headers
  | ListModels => list_models uuid headers
  | Version => ollama_version uuid headers
  | Tags => ollama_tags uuid headers
  | Show r => ollama_show uuid headers r
  | Copy r => ollama_copy uuid headers r
  | DeleteModel r => ollama_delete uuid headers r
  | Ps => ollama_ps uuid headers
  | ListContexts => list_contexts uuid headers
  | CreateContext => create_context uuid fresh headers
  | ImportContext tokens => import_context uuid fresh headers tokens
  | GetContext id => get_context uuid headers id
  | DeleteContext id => delete_context uuid headers id
  | BranchContext id => branch_context uuid fresh headers id
  | CancelRequest id => cancel_request uuid headers id
  | NativeStatus => native_status uuid headers
  | Strategies => compaction_strategies uuid headers
  | CreateDeclaration r => create_compaction_declaration uuid fresh headers r
  | RevokeDeclaration id => revoke_compaction_declaration uuid headers id
  end.

(** ** The end of serving *)

(** What serving ends with: by itself, within the time that a shutdown grants, or after
    what was left has been cancelled. *)
Inductive Serving_end : Type :=
| EndsItself (r : result string unit)
| EndsInGrace (r : result string unit)
| EndsLate (r : result string unit).

Definition served (r : result string unit) : R unit :=
  lift (match r with Ok _ => Ok tt | Err e => Err (ServerError.State e) end).

Definition serve_until (bound : result string unit) (ending : Serving_end) : R unit :=
  _ ← access (λ sh, config (sh_inner sh));
  _ ← served bound;
  match ending with
  | EndsItself r => served r
  | EndsInGrace r =>
      _ ← locked (λ sh, (Ok tt, set_inner (begin_shutdown (sh_inner sh)) sh));
      served r
  | EndsLate r =>
      _ ← locked (λ sh, (Ok tt, set_inner (begin_shutdown (sh_inner sh)) sh));
      _ ← locked (λ sh, (Ok tt, set_inner (cancel_remaining (sh_inner sh)) sh));
      served r
  end.
End calls.
End handlers.

(** ** Context updates *)

Definition with_operation_id (id : string) (r : ContextUpdateRequest) : ContextUpdateRequest :=
  mkUpdateRequest (ur_base_response_id r) (ur_expected_revision r) (Some id) (ur_operation r).

Section update.
Context {E C Content Sem K : Type} `{!Semaphore Sem}.
Variable to_json : ResponseResource → Content.
Variable store_display : StoreError → string.
Variable auth : AuthProvider.
(** [HeaderValue::from_str] *)
Variable header_value : string → option string.

Abbreviation H := (M (Serving E C K Content Sem) Interrupt).

(** What happens up to the reply: the permit is held until the update has ended, and the
    worker sees the control twice. *)
Definition updated (uuid correlation_id generated uuid_response : string) (uuid_item : N → string) (ctl now : N)
    (p : PrequeueJson ContextUpdateRequest) : H (string * ContextUpdateResult) :=
  finally
    (context ← lifted (authenticate auth (pq_headers p) ScopeInference uuid);
     let operation_id := default ("ctxupd_" +:+ generated) (ur_operation_id (pq_value p)) in
     let request := with_operation_id operation_id (pq_value p) in
     _ ← new_control ctl;
     admission ← on_inner (try_admit operation_id ctl);
     result ← finally
       (before ← on_run (view_control ctl);
        later ← on_run (view_control ctl);
        on_walk (on_service (apply to_json store_display now generated uuid_response uuid_item before later
                               (rc_principal context) correlation_id request)))
       (drop_admission admission);
     mret (operation_id, result))
    drop_pre_queue.

Definition context_update (uuid correlation_id generated uuid_response : string) (uuid_item : N → string) (ctl now : N)
    (p : PrequeueJson ContextUpdateRequest) : H (string * ContextUpdateResult) :=
  '(operation_id, result) ← updated uuid correlation_id generated uuid_response uuid_item ctl now p;
  match header_value operation_id with
  | Some value => mret (value, result)
  | None => panic
  end.
End update.
