(* ===== verification/AdminLaws.v ===== *)
(** Laws of the administrative handlers: who may call, what each call changes under any
    interleaving, what the document lists, and what a context update leaves. *)

From stdpp Require Import gmap strings list numbers relations.
From Stdlib Require Import Lia.
From S2P Require Import Registry Catalogue Pull.
From S2P Require Import Prelude Json Engine Gate Admission Contexts Declarations DeclarationsLaws Lifecycle LifecycleLaws.
From S2P Require Import ContextStrategy Generation Text Config Vision Prompt Responses ResponseStore Structured Inference Interleaving InferenceLaws Requests Lowering.
From S2P Require Import Routes Handlers HandlersLaws Admin.

(** ** Routes *)

(** What is documented is served, and what is served is documented, except the stored
    responses, the document and its page. *)
Lemma documented_served :
  map (λ '(path, method, _, _), (path, method)) operations
  ≡ₚ filter (λ r, r ∉ [("/openai/v1/openapi.json", "get"); ("/cusco/v1/openapi.json", "get");
                       ("/openai/v1/responses/{id}", "get"); ("/openai/v1/responses/{id}", "delete")])
       (routes false).
Proof. apply (bool_decide_unpack _). vm_compute. exact I. Qed.

Lemma call_served c : route c ∈ routes true.
Proof. destruct c; cbn [route]; apply (bool_decide_unpack _); vm_compute; exact I. Qed.

(** An operation of the lifecycle is one step, or none. *)
Lemma weaves_operate {E C K A} own (m : M (Lifecycle.Lifecycle E C) ServerError.Error A) :
  (∀ past sh, let steps l := l = sh_lifecycle sh ∨ own past sh (set_lifecycle l sh) in
     wp m (λ _, steps) (λ _, steps) (sh_lifecycle sh)) →
  woven own (operate (K := K) m).
Proof.
  intros Hm past s. specialize (Hm (rn_shared s :: past) (rn_shared s)). unfold operate, wp_gen in *. cbn zeta in Hm.
  destruct (m _) as [a l|e l|]; [..|done]; (destruct Hm as [->|Hm]; [|by apply arrives_own]);
    exists past; (split; [|done]); destruct s as [[]]; apply rtc_refl.
Qed.

(** ** The handlers *)

Section handlers.
Context {E C K : Type} `{!ModelEngine E, !Catalog C}.
Variable model_order : Lifecycle.Lifecycle E C → list Lifecycle.ModelRecord.
Variable package_version : string.
Variable residency_status : E → option Value.
Variable document : Value.
Variable auth : AuthProvider.
Implicit Types (sh : Shared E C).

Abbreviation R := (M (Run E C K) Interrupt).
Abbreviation table sh := (lc_models (sh_lifecycle sh)).
Abbreviation handle := (Admin.handle (K := K) model_order package_version residency_status document auth).

(** The callers that are let in have one name. *)
Definition principal : string :=
  match auth with AnonymousAdmin => "anonymous-admin" | BearerAuth _ => "token-user" end.

Definition let_in (headers : HeaderMap) : Prop :=
  match auth with
  | AnonymousAdmin => True
  | BearerAuth token => header "authorization" headers = Some ("Bearer " +:+ token)
  end.

Definition public (c : Call) : bool := match c with OpenApi | SwaggerUi => true | _ => false end.

(** ** What a call may change *)

(** The catalogue, if there is one, after a call that succeeds or not. *)
Definition called {A} (call : C → result string A * C) (ok : bool) (o o' : option C) : Prop :=
  match o with
  | Some c => o' = Some (call c).2 ∧ ok = match (call c).1 with Ok _ => true | Err _ => false end
  | None => o' = None ∧ ok = true
  end.

(** The model [id] gets the alias, which every other model loses, once it is published. *)
Definition copied (id alias : string) (l l' : Lifecycle.Lifecycle E C) : Prop :=
  ∃ m m' ok, lc_models l !! id = Some m ∧ m' = with_aliases (mr_aliases m') m
    ∧ (∀ x, x ∈ mr_aliases m' ↔ x = alias ∨ x ∈ mr_aliases m)
    ∧ called (cat_publish m') ok (lc_catalog l) (lc_catalog l')
    ∧ lc_engine l' = lc_engine l ∧ lc_next_epoch l' = lc_next_epoch l
    ∧ lc_models l' = if ok then <[id := m']> (take_aliases [alias] <$> lc_models l) else lc_models l.

(** The model [id] is taken from the catalogue, then from the table and the engine. *)
Definition removed (id : string) (l l' : Lifecycle.Lifecycle E C) : Prop :=
  ∃ m ok, lc_models l !! id = Some m
    ∧ called (cat_remove id) ok (lc_catalog l) (lc_catalog l') ∧ lc_next_epoch l' = lc_next_epoch l
    ∧ lc_models l' = (if ok then delete id (lc_models l) else lc_models l)
    ∧ lc_engine l' = if ok then retire_model (mr_id m) (mr_epoch m) (lc_engine l) else lc_engine l.

(** At [now], what has expired may go, and the one declaration may come; the times of
    the others lose what is a minute old. *)
Definition declared_at (now : N) (fresh : string) (r : CreateCompactionDeclaration) (d d' : DeclarationState) : Prop :=
  (∀ id record, ds_records d' !! id = Some record →
     ds_records d !! id = Some record
     ∨ id = fresh ∧ record = mkDeclarationRecord
         (mkDeclaration fresh (cc_context_id r) (cc_strategy_preferences r) (cc_target_tokens r)
            (saturating_add now (cc_expires_in_ms r))) principal)
  ∧ (∀ id record, ds_records d !! id = Some record → id ≠ fresh →
       ds_records d' !! id = Some record ∨ (cd_expires_at_ms (dr_declaration record) ≤ now)%N)
  ∧ ∀ who, who ≠ principal →
      ∃ old, queue_of who d = old ++ queue_of who d' ∧ Forall (λ created, minute_old now created = true) old.

(** One step of a call, after the states that it met. Every other call only reads. *)
Definition changes (fresh : string) (c : Call) (past : list (Shared E C)) sh sh' : Prop :=
  match c with
  | Copy r => ∃ l, copied (oc_source r) (oc_destination r) (sh_lifecycle sh) l ∧ sh' = set_lifecycle l sh
  | DeleteModel r => ∃ id l, om_model_name r = Ok id ∧ removed id (sh_lifecycle sh) l ∧ sh' = set_lifecycle l sh
  | CreateContext => sh' = set_contexts (<[fresh := Contexts.mkContext fresh 0 [] []]> (sh_contexts sh)) sh
  | ImportContext tokens => sh' = set_contexts (<[fresh := Contexts.mkContext fresh 0 tokens []]> (sh_contexts sh)) sh
  | BranchContext id =>
      ∃ source, was_read (λ sh, sh_contexts sh !! id) (Some source) past
        ∧ sh' = set_contexts (<[fresh := Contexts.mkContext fresh 0 (Contexts.cr_tokens source) (cr_native_tokens source)]>
                                (sh_contexts sh)) sh
  | DeleteContext id => sh' = set_contexts (delete id (sh_contexts sh)) sh
  | CancelRequest id => sh' = set_inner (Admission.cancel id (sh_inner sh)) sh
  | CreateDeclaration r =>
      ∃ clock d, was_read sh_clock (Some clock) past
        ∧ declared_at (clock mod (u64_max + 1)) fresh r (sh_declarations sh) d ∧ sh' = set_declarations d sh
  | RevokeDeclaration id =>
      ∃ record, ds_records (sh_declarations sh) !! id = Some record ∧ dr_principal record = principal
        ∧ sh' = set_declarations (set_records (delete id (ds_records (sh_declarations sh))) (sh_declarations sh)) sh
  | _ => False
  end.

Lemma alias_changes id a (l : Lifecycle.Lifecycle E C) :
  wp (Lifecycle.alias (C := C) id a) (λ _ l', copied id a l l') (λ _ l', l' = l ∨ copied id a l l') l.
Proof.
  unfold Lifecycle.alias. wp_run. destruct (lc_models l !! id) as [m|] eqn:Hm; wp_run; [|by left].
  rewrite lookup_fmap, Hm. cbn [fmap option_fmap option_map]. wp_run.
  set (m' := with_aliases _ (take_aliases [a] m)).
  assert (∀ x, x ∈ mr_aliases m' ↔ x = a ∨ x ∈ mr_aliases m) as Haliases.
  { intros x. cbn [m' mr_aliases with_aliases]. rewrite normalize_elem, list.elem_of_app, list_elem_of_singleton. cbn.
    rewrite list_elem_of_filter, list_elem_of_singleton.
    destruct (decide (x = a)); tauto. }
  unfold catalog_publish, wp_gen. destruct (lc_catalog l) as [c|] eqn:Hc.
  - destruct (cat_publish m' c) as [[[]|e] c'] eqn:Hp; cbn.
    + wp_run. exists m, m', true. cbn. rewrite Hc. cbn. by rewrite Hp.
    + right. exists m, m', false. cbn. rewrite Hc. cbn. by rewrite Hp.
  - wp_run. exists m, m', true. cbn. by rewrite Hc.
Qed.

Lemma remove_changes id (l : Lifecycle.Lifecycle E C) :
  wp (Lifecycle.remove (C := C) id) (λ _ l', removed id l l') (λ _ l', l' = l ∨ removed id l l') l.
Proof.
  unfold Lifecycle.remove. wp_run. destruct (lc_models l !! id) as [m|] eqn:Hm; wp_run; [|by left].
  unfold catalog_remove, wp_gen. destruct (lc_catalog l) as [c|] eqn:Hc.
  - destruct (cat_remove id c) as [[b|e] c'] eqn:Hp; cbn.
    + exists m, true. cbn. rewrite Hc. cbn. by rewrite Hp.
    + right. exists m, false. cbn. rewrite Hc. cbn. by rewrite Hp.
  - exists m, true. cbn. by rewrite Hc.
Qed.

Lemma pruned_at now fresh r d :
  declared_at now fresh r d (prune_declarations now d).
Proof.
  split_and!.
  - intros id record [Hr _]%map_lookup_filter_Some. by left.
  - intros id record Hr _. destruct (live_record now record) eqn:Hlive.
    + left. by apply map_lookup_filter_Some.
    + right. by apply N.ltb_ge.
  - intros who _. rewrite pruned_queue. apply pop_stale_app.
Qed.

Lemma declared_times now fresh r d d' times :
  declared_at now fresh r d d' → declared_at now fresh r d (set_times (<[principal := times]> (ds_creation_times d')) d').
Proof. intros (Hnew & Hold & Htimes). split_and!; [done..|]. intros who Hw. rewrite set_queue_of, decide_False by done. auto. Qed.

Lemma create_changes config clock fresh r d :
  let steps d' := d' = d ∨ ∃ t, clock = Some t ∧ declared_at (t mod (u64_max + 1)) fresh r d d' in
  wp (create_declaration config clock fresh principal r) (λ _, steps) (λ _, steps) d.
Proof.
  cbn zeta. unfold create_declaration, unix_ms. wp_run. wp_case Henabled; [by left|]. wp_case Hlife; [by left|].
  destruct clock as [t|]; wp_run; [|by left]. set (now := (t mod (u64_max + 1))%N).
  pose proof (pruned_at now fresh r d) as Hpruned. set (d1 := prune_declarations now d) in *.
  wp_case Hcount; [right; by exists t|]. set (recent := pop_stale _ _).
  pose proof (declared_times _ _ _ _ _ recent Hpruned) as Hpopped.
  wp_case Hrate; [right; by exists t|]. right. exists t. split; [done|].
  apply (declared_times _ _ _ _ _ (recent ++ [now])) in Hpruned as (Hnew & Hold & Htimes). cbn in *. split_and!.
  - intros id record. cbn. intros [[<- <-]|[_ Hx]]%lookup_insert_Some; [by right|by apply Hnew].
  - intros id record Hx Hne. cbn. rewrite lookup_insert_ne by done. by apply Hold.
  - exact Htimes.
Qed.

Lemma revoke_changes who id d :
  wp (revoke_declaration who id)
    (λ _ d', ∃ record, ds_records d !! id = Some record ∧ dr_principal record = who ∧ d' = set_records (delete id (ds_records d)) d)
    (λ _ d', d' = d) d.
Proof.
  unfold revoke_declaration. wp_run. destruct (ds_records d !! id) as [record|] eqn:Hr; [|done]. wp_run.
  case_bool_decide; cbn; [|done]. by exists record.
Qed.

(** ** Who may call *)

Lemma weaves_lifted {A B} own (r : result ServerError.Error A) (k : A → R B) :
  (∀ a, r = Ok a → woven own (k a)) → woven own (lift r ≫= k).
Proof. intros Hk. destruct r as [a|e]; cbn [lift]; [exact (Hk a eq_refl)|exact (weaves_fail own _ e)]. Qed.

Lemma authorized_as {A} own headers scope uuid (k : RequestContext → R A) :
  (∀ context, rc_principal context = principal → woven own (k context)) →
  woven own (authorized (E := E) (C := C) auth headers scope uuid ≫= k).
Proof.
  intros Hk. unfold authorized, authenticate, principal in *. apply weaves_lifted. intros context. destruct auth.
  - intros [= <-]. by apply Hk.
  - case_bool_decide; [|done]. intros [= <-]. by apply Hk.
Qed.

Lemma refused {A} headers scope uuid (k : RequestContext → R A) s :
  ¬ let_in headers →
  (authorized (E := E) (C := C) auth headers scope uuid ≫= k) s = Fail (Returned ServerError.Unauthorized) s.
Proof.
  unfold let_in, authorized, authenticate. destruct auth; [done|]. intros H. by rewrite bool_decide_eq_false_2.
Qed.

Lemma handle_refused uuid fresh headers c s :
  public c = false → ¬ let_in headers → handle uuid fresh headers c s = Fail (Returned ServerError.Unauthorized) s.
Proof. intros Hc Hh. destruct c; try done; by apply refused. Qed.

(** ** Changes of each call *)

Lemma weaves_ps_rows own statuses : woven own (ps_rows model_order statuses : R (list Value)).
Proof.
  induction statuses as [|status statuses IH]; cbn [ps_rows]; [apply weaves_ret|].
  apply weaves_bind; [|by weave]. unfold ps_row, known_model. repeat case_match; weave.
Qed.

Lemma weaves_contexts own {A} (f : Contexts → result ServerError.Error A * Contexts) :
  (∀ past sh, (f (sh_contexts sh)).2 = sh_contexts sh ∨ own past sh (set_contexts (f (sh_contexts sh)).2 sh)) →
  woven own (on_contexts f : R A).
Proof.
  intros Hf. apply weaves_locked. intros past sh. specialize (Hf past sh). destruct (f (sh_contexts sh)) as [r cs]. cbn in *.
  destruct Hf as [->|Hf]; [left; by destruct sh|by right].
Qed.

Lemma branch_weaves uuid fresh headers id :
  woven (changes fresh (BranchContext id)) (Admin.branch_context (E := E) (C := C) (K := K) auth uuid fresh headers id).
Proof.
  apply weaves_bind; [apply weaves_lift|intros _].
  apply (weaves_read _ (was_read (λ sh, branch_read id (sh_contexts sh)))); [apply weaves_access|apply was_read_lasting|].
  intros r. apply weaves_lifted. intros source ->. apply weaves_bind; [|by weave]. apply weaves_contexts. intros past sh.
  right. intros (read & Hread & Hsource). exists source. split; [|done]. exists read. split; [done|].
  unfold branch_read, context in Hsource. destruct (sh_contexts read !! id); by simplify_eq.
Qed.

Lemma declare_weaves uuid fresh headers r :
  woven (changes fresh (CreateDeclaration r))
    (create_compaction_declaration (E := E) (C := C) (K := K) auth uuid fresh headers r).
Proof.
  apply authorized_as. intros context Hcontext. apply weaves_bind; [by weave|intros config].
  apply (weaves_read _ (was_read sh_clock)); [apply weaves_access|apply was_read_lasting|]. intros clock.
  apply weaves_bind; [apply weaves_act|intros _]. apply weaves_bind; [|by weave]. apply weaves_declarations.
  intros past sh. cbn zeta. rewrite Hcontext. eapply wp_mono; [apply create_changes|..]; cbn beta;
    (intros _ d [->|(t & -> & Hd)]; [by left|right; intros Hread; by exists t, d]).
Qed.

Lemma handle_weaves uuid fresh headers c : woven (changes fresh c) (handle uuid fresh headers c).
Proof.
  destruct c; cbn [Admin.handle]; try apply branch_weaves; try apply declare_weaves; try (apply authorized_as; intros context Hcontext); try (by weave).
  - apply weaves_bind; [|by weave]. apply weaves_bind; [apply weaves_act|]. intros _. apply weaves_operate. intros past sh.
    cbn zeta. eapply wp_mono; [apply alias_changes|..]; cbn beta.
    + intros _ l Hl. right. by exists l.
    + intros _ l [->|Hl]; [by left|right; by exists l].
  - apply weaves_lifted. intros name Hname. apply weaves_bind; [|by weave].
    apply weaves_bind; [apply weaves_act|]. intros _. apply weaves_operate. intros past sh.
    cbn zeta. eapply wp_mono; [apply remove_changes|..]; cbn beta.
    + intros _ l Hl. right. by exists name, l.
    + intros _ l [->|Hl]; [by left|right; by exists name, l].
  - weave. apply weaves_ps_rows.
  - apply weaves_bind; [|by weave]. apply weaves_contexts. intros past sh. by right.
  - apply weaves_bind; [|by weave]. apply weaves_contexts. intros past sh. by right.
  - apply weaves_bind; [|by weave]. apply weaves_contexts. intros past sh. unfold Contexts.delete_context.
    case_match; cbn; [by right|by left].
  - apply weaves_bind; [|by weave]. apply weaves_locked. intros past sh. by right.
  - apply weaves_bind; [by weave|intros _]. apply weaves_bind; [|by weave]. apply weaves_declarations. intros past sh.
    cbn zeta. rewrite Hcontext. eapply wp_mono; [apply revoke_changes|..]; cbn beta; [|by left].
    intros _ d (record & Hr & Hp & ->). right. by exists record.
Qed.

(** C23: The administrative interface is confined. This is about the listing and
    administrative calls of [Call]; pulls and context updates are calls of their own. A
    call whose credentials are refused does nothing. Whatever the other requests do before
    each of its accesses, a call that is let in never panics, and it changes what is
    shared, apart from what the others do, by the steps [changes] only: a copy gives the
    one model the alias and takes it from the others, once it is published, and leaves the
    engine alone; a removal takes the one model from the catalogue, the table and the
    engine; a creation, an import or a branch stores the one context with the fresh
    identifier, with the tokens that it is given or that it read; a removal removes the
    context that is named; a declaration that is created is the caller's, and only
    declarations that had expired, by a clock that the call read, are removed for it; only
    the caller's own declaration is revoked; a cancellation is that of its request. Every
    other call changes nothing. *)
Theorem administration_confined uuid fresh headers c s :
  (public c = false → ¬ let_in headers → handle uuid fresh headers c s = Fail (Returned ServerError.Unauthorized) s)
  ∧ match handle uuid fresh headers c s with
    | Done _ s' | Fail _ s' => ∃ past, rtc (move (changes fresh c)) (at_run [] s) (at_run past s')
    | Panic => False
    end.
Proof.
  split; [apply handle_refused|]. pose proof (handle_weaves uuid fresh headers c [] s) as H. unfold wp_gen in H.
  destruct (handle uuid fresh headers c s); [..|done]; destruct H as (past & Hto & _); by exists past.
Qed.
End handlers.

#[local] Existing Instances LifecycleDemo.plain_engine LifecycleDemo.table_catalog.

(** A caller with the token branches a context that another request deletes between the
    read and the store. *)
Module AdminDemo.

Definition shared : Shared unit (gmap string Lifecycle.ModelRecord) :=
  mkShared InferenceDemo.inner {["c" := Contexts.mkContext "c" 3 ["old"] []]} no_declarations
    (mkLifecycle ∅ 2 tt (Some ∅)) 0 (Some 1000%N).

Definition begin : Run unit (gmap string Lifecycle.ModelRecord) unit :=
  mkRun shared [id; λ sh, set_contexts ∅ sh] InferenceDemo.no_frontier 0 tt.

Definition call (headers : HeaderMap) : outcome (Run unit (gmap string Lifecycle.ModelRecord) unit) Interrupt AdminReply :=
  handle (λ l, models l) "0" (λ _, None) Null (BearerAuth "t") "q" "f" headers (BranchContext "c") begin.

Definition stored : Contexts := {["f" := Contexts.mkContext "f" 0 ["old"] []]}.

End AdminDemo.

Lemma administration_confined_witness :
  AdminDemo.call [] = Fail (Returned ServerError.Unauthorized) AdminDemo.begin
  ∧ ∃ reply s' past, AdminDemo.call [("authorization", "Bearer t")] = Done reply s'
      ∧ sh_contexts (rn_shared s') = AdminDemo.stored
      ∧ rtc (move (changes (BearerAuth "t") "f" (BranchContext "c"))) (at_run [] AdminDemo.begin) (at_run past s').
Proof.
  pose proof (administration_confined (λ l, models l) "0" (λ _, None) Null (BearerAuth "t") "q" "f" []
    (BranchContext "c") AdminDemo.begin) as [Hrefused _].
  pose proof (administration_confined (λ l, models l) "0" (λ _, None) Null (BearerAuth "t") "q" "f"
    [("authorization", "Bearer t")] (BranchContext "c") AdminDemo.begin) as [_ H].
  split; [apply Hrefused; [reflexivity|discriminate]|].
  change (handle _ _ _ _ _ _ _ _ _ _) with (AdminDemo.call [("authorization", "Bearer t")]) in H.
  assert (match AdminDemo.call [("authorization", "Bearer t")] with
          | Done _ s' => sh_contexts (rn_shared s') = AdminDemo.stored | _ => False end) as Hstored by (vm_compute; reflexivity).
  destruct (AdminDemo.call _) as [reply s'| |]; [|destruct Hstored..]. destruct H as [past Hto].
  exists reply, s', past. split; [reflexivity|]. split; [exact Hstored|exact Hto].
Defined.

(** ** Context updates *)

Section update.
Context {E C T Content Sem K : Type} `{!ExecutionSession T, !Semaphore Sem, !SemaphoreLaws Sem}.
Variable to_json : ResponseResource → Content.
Variable store_display : StoreError → string.
Variable auth : AuthProvider.
Variable header_value : string → option string.

Abbreviation Serving := (Handlers.Serving E C K Content Sem).
Abbreviation H := (M Serving Interrupt).

Lemma keeps_finally {A} (m : H A) (release : H unit) :
  HandlersLaws.keeps (λ _, True) m → HandlersLaws.keeps (λ _, True) release →
  HandlersLaws.keeps (λ _, True) (finally m release).
Proof.
  intros Hm Hr s. unfold finally. specialize (Hm s). destruct (m s) as [a s1|[e|] s1|]; [..|done|done].
  - destruct Hm as [Hm _]. unfold mbind, M_bind. specialize (Hr s1). destruct (release s1) as [[] s2|e s2|]; [..|done].
    + cbn. destruct Hr as [Hr _]. split; [congruence|done].
    + congruence.
  - unfold mbind, M_bind. specialize (Hr s1). destruct (release s1) as [[] s2|e' s2|]; [..|done].
    + cbn. destruct Hr as [Hr _]. congruence.
    + congruence.
Qed.

(** An update gives back the permit its body was read with, whichever way it ends. *)
Lemma update_gives_permit_back uuid correlation_id generated uuid_response uuid_item ctl now p bodies workers :
  leaves (K := K) (E := E) (C := C) (taken bodies, workers) (bodies, workers) (λ _, (bodies, workers))
    (updated (K := K) to_json store_display auth uuid correlation_id generated uuid_response uuid_item ctl now p).
Proof.
  unfold updated. apply (leaves_finally bodies workers (λ _, workers)). apply (leaves_keeps (λ _, True)).
  apply keeps_bind; [apply keeps_run|]. intros context. cbn zeta.
  apply keeps_bind; [apply keeps_run|]. intros _. apply keeps_bind; [apply keeps_run|]. intros admission.
  apply keeps_bind; [|intros result; by apply keeps_ret]. apply keeps_finally; [|apply keeps_run]. keep_parts.
Qed.

(** An identifier that is no header value ends the reply, after the update. *)
Lemma unprintable_update_lost uuid correlation_id generated uuid_response uuid_item ctl now p id result s s' :
  updated (K := K) to_json store_display auth uuid correlation_id generated uuid_response uuid_item ctl now p s = Done (id, result) s' →
  header_value id = None →
  context_update to_json store_display auth header_value uuid correlation_id generated uuid_response uuid_item ctl now p s
  = (Panic : outcome Serving Interrupt (string * ContextUpdateResult)).
Proof. intros Hu Hh. unfold context_update, mbind, M_bind. rewrite Hu. by rewrite Hh. Qed.
End update.

Module UpdateDemo.
Import HandlersDemo.

#[local] Existing Instance count_semaphore.

(** One stored response. *)
Definition base : ResponseResource :=
  mkResource 1 "b" "anonymous-admin" "m" 5 "completed" true None [] [] [] Null None None default_metadata 0 None.

Definition stored : Serving unit unit unit ResponseResource N :=
  mkServing (sg_run serving) (mkWalk (mkService (mkStore {["b.json" := base]} {["b" := base]} []) (mkTransient ∅ [])) [])
    (sg_pre_queue serving) (sg_compaction_workers serving) [].

(** The identifier of the operation is a line feed. *)
Definition line_feed : string := String (Ascii.ascii_of_nat 10) "".

Definition body : PrequeueJson ContextUpdateRequest :=
  mkPrequeueJson [] (mkUpdateRequest "b" 0 (Some line_feed) (Fold [IMessage "user" "hi"])) 10.

(** Control characters are not allowed in a header. *)
Definition header_value (s : string) : option string :=
  if existsb (λ c, (Ascii.nat_of_ascii c <? 32)%nat) (String.list_ascii_of_string s) then None else Some s.

Definition result : outcome (Serving unit unit unit ResponseResource N) Interrupt (string * ContextUpdateResult) :=
  updated (λ r, r) (λ _, "") AnonymousAdmin "q" "corr" "g" "r" (λ _, "i") 8 9 body stored.

Definition successors : option nat :=
  match result with Done _ s => Some (size (fs_recovered (rs_store (wk_service (sg_walk s))))) | _ => None end.
End UpdateDemo.

(** The update is stored, and its reply lost. *)
Example line_feed_update :
  UpdateDemo.successors = Some 2
  ∧ context_update (λ r, r) (λ _, "") AnonymousAdmin UpdateDemo.header_value "q" "corr" "g" "r" (λ _, "i") 8 9
      UpdateDemo.body UpdateDemo.stored (Semaphore0 := count_semaphore) = Panic.
Proof. split; vm_compute; reflexivity. Qed.

(** ** Cancellations *)

Lemma promote_pending i : pending_cancelled (promote_queued i) = pending_cancelled i.
Proof. unfold promote_queued. by destruct (promote_loop _ _ _ _ _) as [[[??]?]?]. Qed.

(** The cancellation of a request that is not known is kept, until one of that name is
    admitted. *)
Lemma unknown_cancellation_kept id i :
  controls i !! id = None → pending_cancelled (Admission.cancel id i) = pending_cancelled i ∪ {[id]}.
Proof.
  intros Hid. unfold Admission.cancel. rewrite Hid, promote_pending. unfold unqueue. by destruct (remove_first _ _) as [[??]|].
Qed.

(** ** The end of serving *)

(** A server that is told to stop first refuses new requests, and cancels those that are
    left only after its time of grace; one that ends by itself does neither. *)
Definition stops {E C} (ending : Serving_end) (sh sh' : Shared E C) : Prop :=
  match ending with
  | EndsItself _ => False
  | EndsInGrace _ => sh' = set_inner (begin_shutdown (sh_inner sh)) sh
  | EndsLate _ =>
      sh' = set_inner (begin_shutdown (sh_inner sh)) sh ∨ sh' = set_inner (cancel_remaining (sh_inner sh)) sh
  end.

Lemma serving_stops {E C K} bound ending : woven (λ _, stops ending) (serve_until (E := E) (C := C) (K := K) bound ending).
Proof.
  unfold serve_until. apply weaves_bind; [by weave|intros _].
  apply weaves_bind; [apply weaves_lift|intros _].
  destruct ending; [apply weaves_lift|..];
    (apply weaves_bind; [apply weaves_locked; intros past sh; right; cbn; auto|intros _]);
    [apply weaves_lift|]. apply weaves_bind; [apply weaves_locked; intros past sh; right; cbn; auto|intros _; apply weaves_lift].
Qed.
